(* ===== verification/_CoqProject ===== *)
-Q . S2P
Prelude.v
UndoBuffer.v
Transaction.v
SelectionVector.v
Serializer.v
VectorVersion.v
VersionInfo.v
UpdateInfo.v
NullMask.v
Int128.v
Date.v
Timestamp.v
DateText.v
TransactionManager.v
PropertyCollection.v
CatalogSet.v
SequenceEntry.v
UndoReplay.v
HashSlot.v
InMemHashIndex.v
HashIndexSplit.v
HashIndexSpec.v
OrderByKey.v
Compare.v
RadixSort.v
OrderBySort.v
KeyBlockMerger.v
MergeTask.v
MergeDispatcher.v
PageState.v
Concurrent.v
BufferManager.v
BufferManagerInv.v
BufferManagerRules.v
BufferManagerProof.v
BufferManagerSpec.v
BufferManagerRuns.v
ConcurrentVector.v
FileHandle.v
ShadowFile.v
ShadowCheckpoint.v
Bitpacking.v
IntegerBitpacking.v
Compression.v
PageCodec.v
Column.v
ColumnProof.v
ColumnCheckpoint.v
ColumnFlush.v
ZoneMap.v
LogicalType.v
TypeText.v
TypeJoin.v
NumericText.v
DecimalCast.v
NumericCast.v
Interval.v
Value.v
ParsedExpression.v
CatalogEntry.v
BufferedFile.v
WALRecord.v
ReaderScript.v
WAL.v
WALReplayer.v
TornLog.v
