(* ===== verification/Prelude.v ===== *)
(** * Kùzu: transactions and storage versions, buffer manager, write-ahead log, columns, hash index, ORDER BY, types and casts

    Kùzu is an embedded property-graph database.  This library models the part of it that
    makes concurrent transactions correct, the write-ahead log and the recovery from it, the
    buffer manager under its storage and the shadow file of its checkpoints, the compressed columns on its pages, the hash index of its primary keys and the parallel
    sort of its query processor, together with the value types and containers they rest on,
    and proves what the code promises about them.  Definitions keep the
    names of the C++ functions; every file names the sources it translates.

    ** The program's parts and how they interact

    A connection ([ClientContext], [TransactionContext]) asks the [TransactionManager] for a
    transaction, which has an identity in the upper half of the 64-bit numbers and the
    timestamp of its snapshot in the lower half.  A statement that writes stamps what it
    writes with the identity: rows of a node group ([VersionInfo]), values of a column chunk
    ([UpdateInfo]), entries of the catalog ([CatalogSet]).  It also leaves a record in the
    transaction's [UndoBuffer].  Committing takes the next timestamp and walks the records
    forwards, replacing the identity by the timestamp; rolling back walks them backwards and
    takes the changes out.  A reader sees a version when it is its own or was committed at
    its start timestamp or before.  A checkpoint waits until no transaction is active,
    writes the data out and empties the log.

    Everything a transaction changes is also a record of the write-ahead log ([WAL]): created and
    altered entries, inserted, deleted and updated rows.  Records are serialized through a buffered
    file, which a commit flushes.  When a database is opened the [WALReplayer] reads the log and does
    the same changes again in recovery transactions.

    All pages go through the [BufferManager], which gives every page of every file a frame of
    its own in a region of virtual memory ([FileHandle]) and keeps the memory of the frames in
    use below the size of the pool: threads pin pages to write them, read them optimistically
    without a lock, and evict each other's pages when memory runs out; one 64-bit word per page
    ([PageState]) synchronizes them.  A checkpoint writes through shadow pages ([ShadowFile]),
    which are copied over the originals when all of them are on disk.

    The values of a column chunk lie on consecutive pages, compressed by an algorithm that is
    chosen from their minimum and maximum when the chunk is flushed.  A scan decompresses the
    rows it needs; a checkpoint writes changed rows into the pages if the compression still has
    room for them; a query skips a chunk whose minimum and maximum exclude its predicate.

    A node table finds its rows by primary key through a hash index, whose in-memory form
    collects the keys of a transaction by linear hashing.  ORDER BY encodes the key columns of
    every tuple into bytes, sorts blocks of encoded tuples by radix sort in every thread, and
    merges the sorted blocks in parallel, morsel by morsel.

    Every value has a logical type, which the catalog serializes, users write down as text and the
    binder joins when expressions of different types meet; casts convert values between strings,
    integers and decimals.

    ** The files

    - [Prelude]: the ways a C++ call can end ([outcome]), a state and error monad with its
      notation, arrays without bounds checks, machine integers with their wrap-around, the
      shared constants, hints and tactics.
    - [UndoBuffer] (src/storage/undo_buffer.cpp): memory buffers of growing size, records at
      byte positions, iteration in both directions.
    - [Transaction] (src/transaction/transaction.cpp): identities, timestamps, [visible].
    - [SelectionVector] (src/include/common/data_chunk/sel_vector.h).
    - [Serializer] (src/common/serializer): bytes of integers, strings, vectors, options;
      [codec] is the contract of a writer and a reader.
    - [VectorVersion], [VersionInfo] (src/storage/store/version_info.cpp): who inserted and
      who deleted each row, for one vector of 2048 rows and for a node group.
    - [UpdateInfo] (src/storage/store/update_info.cpp): chains of updated values, as a heap of
      records with [prev] and [next] pointers.
    - [NullMask] (src/common/null_mask.cpp): bit masks in 64-bit words.
    - [Int128] (src/common/types/int128_t.cpp): 128-bit integers in two 64-bit halves.
    - [TransactionManager] (src/transaction/transaction_manager.cpp, transaction_context.cpp and
      the end of [ClientContext::executeNoLock]): all connections of a database as a step
      relation; the data they work on is the class [DataStore].
    - [PropertyCollection] (src/catalog/property_definition_collection.cpp): the columns of a
      table by name, compared without case.
    - [CatalogSet] (src/catalog/catalog_set.cpp): version chains of catalog entries on a heap,
      what is logged for them and how their undo records commit and roll back.
    - [SequenceEntry] (src/catalog/catalog_entry/sequence_catalog_entry.cpp): sequences.
    - [Date], [Timestamp], [DateText] (src/common/types/date_t.cpp, dtime_t.cpp, timestamp_t.cpp,
      src/include/common/types/cast_helpers.h): calendar arithmetic, microseconds, text.
    - [UndoReplay] (src/storage/undo_buffer.cpp, src/storage/store/chunked_node_group.cpp): commit
      and rollback of a whole undo buffer against a store that holds all of the above by
      address.
    - [HashSlot], [InMemHashIndex], [HashIndexSplit], [HashIndexSpec]
      (src/storage/index/in_mem_hash_index.cpp and headers): slots, chains of slots in two
      arrays, the free list, splitting; the refinement of a bag of entries.
    - [OrderByKey] (src/processor/operator/order_by/order_by_key_encoder.cpp): the encoding of
      keys and of positions in the factorized table.
    - [Compare]: three-way comparisons as a class ([CompareOrder]), sorted segments, buckets.
    - [RadixSort], [OrderBySort] (src/processor/operator/order_by/radix_sort.cpp,
      sort_state.cpp): the sort of a block, and of the blocks of a thread as rows.
    - [KeyBlockMerger], [MergeTask], [MergeDispatcher]
      (src/processor/operator/order_by/key_block_merger.cpp, order_by_merge.cpp): the merge of
      two ranges through blocks, the morsels of a task, and all threads as a step relation.

    - [PageState] (src/include/storage/buffer_manager/page_state.h): the word of a page, by bits.
    - [Concurrent]: programs of atomic accesses to a shared state, the interleavings of the
      threads that run them, and a logic of invariants and guarantees for them.
    - [BufferManager] (src/storage/buffer_manager/buffer_manager.cpp, memory_manager.cpp,
      spiller.cpp): every operation as such a program, and the calls a thread may make;
      [BufferManagerInv], [BufferManagerRules], [BufferManagerProof] have the invariant and
      show that every access of every operation keeps it, [BufferManagerSpec] what follows for
      all schedules, [BufferManagerRuns] executes schedules.
    - [ConcurrentVector] (src/include/common/concurrent_vector.h): the array of page states.
    - [FileHandle] (src/storage/file_handle.cpp, src/storage/buffer_manager/vm_region.cpp): page
      groups and frame groups.
    - [ShadowFile], [ShadowCheckpoint] (src/storage/wal/shadow_file.cpp, src/storage/shadow_utils.cpp,
      checkpointNoLock): shadow pages, and that they make a checkpoint of pages atomic.
    - [Bitpacking] (src/storage/compression/bitpacking_utils.cpp, bitpacking_int128.cpp): fields of
      bits in memory, a memory being a number; the packing of a chunk of 32 values is the class
      [ChunkPacker] with its law [ChunkPackerOK], which 128-bit integers implement here and the
      vendored fastpfor library for the other widths.
    - [IntegerBitpacking] (src/storage/compression/compression.cpp): packing with a frame of
      reference, one integer type at a time.
    - [Compression] (the rest of compression.cpp and its header, column_chunk_metadata.cpp): all
      physical types, readers and writers of a page, statistics and the choice of an algorithm;
      floating-point compression is the class [FloatCompression].
    - [PageCodec]: what a column needs of a compression, as a class; the compressions are its
      instances.
    - [Column] (src/storage/store/column.cpp, column_reader_writer.cpp, column_chunk_data.cpp,
      compression_flush_buffer.cpp): loops over pages, writes, scans, flushes, checkpoints in
      place; [ColumnProof], [ColumnCheckpoint], [ColumnFlush] prove them against [PageCodec].
    - [ZoneMap] (src/storage/predicate/): skipping chunks; examples of all column files.
    - [LogicalType], [TypeText], [TypeJoin] (src/common/types/types.cpp,
      src/function/built_in_function_utils.cpp): the data of logical types, well-formed types and
      their bytes; printing and parsing; the common type of types and the cost of implicit casts.
    - [NumericText], [DecimalCast], [NumericCast] (src/include/function/cast/functions/): integers
      and decimals as text, with the operation that takes in a digit as the class [CastOp] and its
      law [CastOpOK], which the machine integers and the 128-bit integers implement; casts between
      machine integers, decimals and integers, in the types the conversions of C++ give.
    - [Interval] (src/common/types/interval_t.cpp): arithmetic, order and text of intervals.
    - [Value] (src/common/types/value/value.cpp), [ParsedExpression] (src/parser/expression/),
      [CatalogEntry] (src/catalog/catalog_entry/, bound_create_table_info.cpp,
      property_definition.cpp, scalar_macro_function.cpp): values, default expressions and macro
      bodies, and every kind of catalog entry, with their bytes.
    - [BufferedFile] (src/common/serializer/buffered_file.cpp): the writer and the reader behind
      serializers, page by page, on files of bytes.
    - [WALRecord], [WAL] (src/storage/wal/wal_record.cpp, wal.cpp): the records of the log with
      their bytes, and the log on a buffered file.
    - [ReaderScript]: a deserializer as the script of its calls of [read], on a stream of bytes and on a
      buffered file.
    - [WALReplayer] (src/storage/wal_replayer.cpp, StorageManager::recover): the replay of a log in
      recovery transactions; what a replayed operation does to the catalog and the tables is the
      class [Recovery] with its laws [RecoveryLaws].
    - [TornLog]: the same on a log that ends inside a record.

    State is a Record, an operation a function in the monad [M S A], that is
    [S -> outcome A * S], so that an operation that fails leaves behind the state it had
    reached.  [KU_ASSERT] and [KU_UNREACHABLE] end in [InternalException], as in a debug
    build; reading out of bounds, a null or freed pointer or signed overflow end in
    [UndefinedBehaviour]; [Blocked] is a call that waits for a mutex nobody releases.

    ** What the theorems show

    - Isolation.  Appended, deleted and updated rows and created or dropped catalog entries
      are seen by their transaction only, then exactly by the transactions that start at the
      commit timestamp or later, and by nobody after a rollback ([append_isolated],
      [commitInsert_snapshot], [rollbackInsert_hides], [delete_outcomes], [delete_end],
      [update_single_writer], [commit_update_snapshot], [rollback_update_restores],
      [create_isolated], [drop_isolated]); [appended_rows_transactional] follows rows from
      the append through the undo buffer to its commit or rollback.  Conflicts are errors
      that change nothing ([update_conflict], [catalog_errors]).
    - The manager, for every reachable state of every number of connections: identities are
      distinct and in range, one writer without multi-writes, a commit timestamp is new to
      all running transactions and visible to all later ones, a checkpoint runs alone
      ([active_transactions_ok], [single_writer], [commit_timestamps],
      [checkpoint_quiescent]).
    - Scans and counts equal their definition by row ([scan_selects_seen],
      [getNumDeletions_counts], [hasUpdates_spec]); masks equal their definition by bit
      ([copyNullMask_spec], [setNullRange_spec], [getMinMax_spec], [mask_guarantee]).
    - Integers: the operations of 128-bit integers are exact or report an overflow, the two
      multiplications agree, printing is decimal.
    - Dates and timestamps: [convert] and [fromDate] are the Gregorian calendar on every
      32-bit number of days ([dates_are_calendar]), months and intervals are added exactly
      ([months_and_last_day], [timestamp_intervals]), and what is printed is read back
      ([date_text_roundtrip], [timestamp_text_roundtrip]).
    - The hash index: [append], [lookup], [reserve] and [splitSlot] end and refine a bag of
      entries ([index_refines_bag]), splitting keeps the index well formed
      ([splitSlot_preserves]).
    - ORDER BY, from the encoder to the last merge: encoded keys compare as rows
      ([encoded_keys_ordered]), every sorted block is in the order of the clause
      ([order_by_blocks_sorted]), the merge of the runs ends under every schedule of the
      threads ([merge_always_ends]) with one sorted run of all rows ([merge_result_sorted]),
      where its comparison is the order of the clause ([merge_compares_rows]; it is not for
      keys after a string column and before a null string,
      [merge_ignores_keys_after_strings], [merge_ignores_keys_before_null_strings]).
    - The buffer manager, for every schedule of any number of threads that keep to its protocol:
      memory in use fits the pool ([memory_within_pool]), a pinned page is nobody else's and is
      what was written to it ([pinned_pages_exclusive]), a page keeps its content through
      evictions ([pages_keep_content]), an optimistic read that validates is consistent unless
      the page was evicted meanwhile ([optimistic_read_consistent]; [optimistic_read_stale] is
      the other case).  Pages of all files have frames of their own ([frames_unique]) and
      page states that do not move ([vector_resize], [vector_access]).
    - Checkpoints: whatever is evicted meanwhile, a checkpoint of pages does what its changes
      do to an array of pages ([checkpoint_applies]); failures before the replay leave the
      files unchanged, and a replay that is cut off leaves each page whole, old or new, and the
      shadow file as it was ([checkpoint_crash_safe]).
    - Columns: what is packed on a page is unpacked again ([page_roundtrip], [update_in_place]),
      flushing a chunk keeps its values ([flush_keeps_values]), a scan gives the selected ones
      ([scan_selected]), a checkpoint in place changes the rows it is given and no others
      ([checkpoint_in_place]), and no chunk with matching rows is skipped after its flush
      ([zone_map_sound]; after an update in place it can be, [minimum_not_updated]).
    - Types: what is serialized or printed is read back ([types_serialized],
      [types_text_roundtrip]); the common type of well-formed types is well formed
      ([types_well_formed]), is found for all types without unions and nodes
      ([common_type_total]) and, for numbers, has all values of both in the least type that does
      ([numeric_join_bounds]).
    - Casts: text is read as the number it denotes or is an error ([integers_text],
      [decimals_parsed]), printed numbers are read back ([decimals_text_roundtrip]), casts between
      numbers keep or round the value and report what does not fit ([integer_casts_exact],
      [decimal_casts]); intervals without negative parts are read back from their text
      ([intervals_text_roundtrip]).
    - The log: what a buffered writer wrote a buffered reader reads ([buffered_roundtrip]); values,
      expressions, entries and records are read back ([values_serialized],
      [expressions_serialized], [entries_serialized], [records_serialized]); after a commit all
      records up to it are synced to disk and a crash leaves a prefix of the log ([log_durable], for
      records the serializer accepts; one that it rejects stays in the log in part,
      [failed_record_stays]); recovery restores exactly the committed transactions, of records that
      are read back as they were logged ([crash_recovery]), except that a dropped sequence is read
      back as a dropped table ([dropped_sequence_replayed]), a torn record at the end makes it fail
      ([torn_log_not_recovered]) and an unfinished transaction makes it clear the log
      ([cleared_log_loses_commits]).
    - Invariants of property collections and sequences.
    - Some theorems show that the code does not do what it means to on a concrete state;
      they are at the end of their files.

    ** Bounds and fuel

    Fuel bounds loops over finite data by the data's size: a version chain by the size of its
    heap, the growth of a buffer by the size of a record, the digits of a number by 39, which
    the theorems show to be enough, a chain of slots by the number of slots, the merge of a
    morsel by its tuples.  The parallel merge has no fuel: a measure bounds its steps.  Numbers
    of tuples of a block are natural numbers; a block has at most 2^18 bytes.  Properties about runs of the manager assume fewer than
    2^62 steps, so that identities and timestamps do not wrap around.  Transactions that
    start within a run are interleaved at public calls of the manager, which a mutex
    serializes; [lock_order_deadlock] models the two mutexes themselves.  Runs of the buffer
    manager interleave at every access to an atomic, a frame or a file and assume fewer than
    2^55 - 1 steps, so that the version of a page does not run into its dirty bit; its loops
    need no fuel, because a program is a tree of accesses with a node for unbounded iteration.
    The frames of a region are distinct up to 2^22 frame groups, 16 TB of pages.
    The recursion over types is bounded by their height, the parser of types by the length of the
    text, which the theorems show to be enough; a type that is never parsed has no fuel that is
    ([unmatched_bracket_never_ends]).  The readers of nested values, expressions, entries and
    records have a fuel for their recursion: the theorems give a bound from which on every fuel
    gives the result.  The replay runs at most as many rounds as the log has bytes.

    ** Plan

    Done, in this order: row versions and the undo buffer, updates, null masks and integers,
    the transaction manager, the catalog, the replay of undo buffers, dates, the in-memory hash
    index, ORDER BY, the buffer manager, file handles, shadow pages, compression and columns on
    pages, logical types, casts of integers and decimals, intervals, values and catalog entries in
    files, the log and its replay.  Next: the checkpoint of a column out of place and its null column; the local and the persistent hash index; the undo
    replay as an instance of [DataStore], so that the manager's theorems speak of rows and
    entries and the replay of the log has an instance of [Recovery]; altering catalog entries and
    serializing a catalog set; value vectors; local storage; the scans of a chunked node group.

    ** What is not modelled

    Columns of strings, lists and structs, the compression of floating-point numbers, the null
    column, checkpoints of columns out of place, local storage of uncommitted rows, the hash
    index on disk, the memory of value vectors (in a log record they are the values at their
    selected positions), and everything above storage but ORDER BY: parser, binder, planner, optimizer, the other query
    operators and functions, casts with floating-point numbers and of nested values.  Of ORDER BY: the loops over vectors, top-k and the scan of the
    sorted payload; [std::sort] and the contents of the factorized tables are arguments.  Of the
    buffer manager: removing the pages of a file while other threads use them, loading spilled
    groups back, and failures of system calls; [memory_order_relaxed] is not weaker than
    sequential consistency.  The
    commit and rollback of local storage and the steps of a checkpoint are operations of the
    class [DataStore]; what a replayed log record does to the data is the class [Recovery].  The value
    of an update and, in [PropertyCollection] and [CatalogSet], the parts of a property definition
    besides its name and the content of entries that are not tables are type parameters, for which
    [CatalogEntry] has the data. *)

From stdpp Require Import base list gmap strings numbers.

(** * Outcomes: what a C++ call can end with *)

(** The exceptions of [src/include/common/exception/], a failed [KU_ASSERT] or
    [KU_UNREACHABLE] (an [InternalException], src/include/common/assert.h), and
    undefined behaviour: a null or dangling pointer that is dereferenced, an
    array index out of range, a stack that overflows.  [BaseException] is the class
    [Exception] itself.  [Blocked] is a call that never returns, because it
    waits for a mutex that nobody releases. *)
Inductive exn : Type :=
| InternalException
| RuntimeException (msg : string)
| CatalogException (msg : string)
| TransactionManagerException (msg : string)
| OverflowException (msg : string)
| ConversionException (msg : string)
| BufferManagerException (msg : string)
| StdOverflowError (msg : string)
| StorageException (msg : string)
| NotImplementedException (msg : string)
| BinderException (msg : string)
| IOException (msg : string)
| BaseException (msg : string)
| UndefinedBehaviour
| Blocked.

#[global] Instance exn_eq_dec : EqDecision exn.
Proof. solve_decision. Defined.

Inductive outcome (A : Type) : Type :=
| Ok (a : A)
| Err (e : exn).
Arguments Ok {A} a.
Arguments Err {A} e.

#[global] Instance outcome_eq_dec `{EqDecision A} : EqDecision (outcome A).
Proof. solve_decision. Defined.

(** [outcome] alone is the error monad of the pure routines. *)
Definition obind {A B} (m : outcome A) (k : A -> outcome B) : outcome B :=
  match m with Ok a => k a | Err e => Err e end.

(** A method call: it reads and writes the object's state and ends in an
    outcome.  A thrown exception keeps the writes made before it. *)
Definition M (S A : Type) : Type := S -> outcome A * S.

Definition sret {S A} (a : A) : M S A := fun s => (Ok a, s).
Definition sbind {S A B} (m : M S A) (k : A -> M S B) : M S B :=
  fun s => match m s with
           | (Ok a, s') => k a s'
           | (Err e, s') => (Err e, s')
           end.
Definition sthrow {S A} (e : exn) : M S A := fun s => (Err e, s).
Definition sget {S} : M S S := fun s => (Ok s, s).
Definition sput {S} (s : S) : M S unit := fun _ => (Ok tt, s).
Definition smodify {S} (f : S -> S) : M S unit := fun s => (Ok tt, f s).
Definition slift {S A} (o : outcome A) : M S A :=
  fun s => match o with Ok a => (Ok a, s) | Err e => (Err e, s) end.
Definition kuAssert {S} (b : bool) : M S unit :=
  if b then sret tt else sthrow InternalException.

(** A call on a component of the object. *)
Definition szoom {S T A} (get : S -> T) (put : T -> S -> S) (m : M T A) : M S A :=
  fun s => let '(r, t) := m (get s) in (r, put t s).

Declare Scope kuzu_scope.
Delimit Scope kuzu_scope with kuzu.
Notation "x <- m ;; k" := (sbind m (fun x => k))
  (at level 100, m at next level, right associativity) : kuzu_scope.
Notation "'do' p <- m ;; k" := (sbind m (fun x => match x with p => k end))
  (at level 100, p pattern, m at next level, right associativity) : kuzu_scope.
Notation "m ;;; k" := (sbind m (fun _ => k))
  (at level 100, right associativity) : kuzu_scope.
Notation "'let*' x := m 'in' k" := (obind m (fun x => k))
  (at level 100, x name, m at next level, right associativity) : kuzu_scope.
#[global] Open Scope kuzu_scope.

Lemma sbind_ok {S A B} (m : M S A) (k : A -> M S B) s a s' :
  m s = (Ok a, s') -> sbind m k s = k a s'.
Proof. intros H. unfold sbind. by rewrite H. Qed.

Lemma sbind_err {S A B} (m : M S A) (k : A -> M S B) s e s' :
  m s = (Err e, s') -> sbind m k s = (Err e, s').
Proof. intros H. unfold sbind. by rewrite H. Qed.

(** [for (i = start; i < start + count; i++) body(i)] *)
Fixpoint sfor {S} (start count : nat) (body : nat -> M S unit) : M S unit :=
  match count with
  | O => sret tt
  | Datatypes.S n => body start ;;; sfor (Datatypes.S start) n body
  end.

Lemma sfor_inv {S} (I : nat -> S -> Prop) start count (body : nat -> M S unit) s :
  I start s ->
  (forall i s, start <= i < start + count -> I i s ->
     exists s', body i s = (Ok tt, s') /\ I (Datatypes.S i) s') ->
  exists s', sfor start count body s = (Ok tt, s') /\ I (start + count) s'.
Proof.
  revert start s. induction count as [|n IH]; intros start s HI Hstep; simpl.
  - exists s. by rewrite Nat.add_0_r.
  - destruct (Hstep start s) as (s1 & Hb & HI1); [lia | done |].
    destruct (IH (Datatypes.S start) s1) as (s2 & Hf & HI2); [done | |].
    + intros i t Hi. apply Hstep. lia.
    + exists s2. rewrite (sbind_ok _ _ _ _ _ Hb). split; [done|].
      by replace (start + Datatypes.S n) with (Datatypes.S start + n) by lia.
Qed.

(** * Arrays: [std::array::operator[]], no bounds check, so an index out of
      range is undefined behaviour *)
Definition arr_get {S A} (l : list A) (i : nat) : M S A :=
  match l !! i with Some a => sret a | None => sthrow UndefinedBehaviour end.
Definition arr_set {S A} (l : list A) (i : nat) (a : A) : M S (list A) :=
  if decide (i < length l) then sret (<[i:=a]> l) else sthrow UndefinedBehaviour.

(** [for (row = start; row < start + n; row++) l[row] = v] *)
Fixpoint assign_range {A} (l : list A) (start n : nat) (v : A) : list A :=
  match n with
  | O => l
  | Datatypes.S n' => assign_range (<[start:=v]> l) (Datatypes.S start) n' v
  end.

Lemma length_assign_range {A} (l : list A) start n v :
  length (assign_range l start n v) = length l.
Proof.
  revert l start. induction n as [|n IH]; intros l start; simpl; [done|].
  by rewrite IH, length_insert.
Qed.

Lemma lookup_assign_range {A} (l : list A) start n v i :
  start + n <= length l ->
  assign_range l start n v !! i =
    if decide (start <= i < start + n) then Some v else l !! i.
Proof.
  revert l start. induction n as [|n IH]; intros l start Hlen; simpl.
  - rewrite decide_False by lia. done.
  - rewrite IH by (rewrite length_insert; lia).
    destruct (decide (i = start)) as [->|Hne].
    + rewrite (decide_False (P := Datatypes.S start <= start < _)) by lia.
      rewrite decide_True by lia. apply list_lookup_insert_eq. lia.
    + rewrite list_lookup_insert_ne by done.
      destruct (decide (Datatypes.S start <= i < Datatypes.S start + n)).
      * by rewrite decide_True by lia.
      * by rewrite decide_False by lia.
Qed.

(** The assignment as the method it is in the code: it fails on an index out of
    range. *)
Definition fill_range {S A} (l : list A) (start n : nat) (v : A) : M S (list A) :=
  if decide (n = 0 \/ start + n <= length l) then sret (assign_range l start n v)
  else sthrow UndefinedBehaviour.

(** * Machine integers *)
Definition wrapU (w z : Z) : Z := (z mod 2 ^ w)%Z.
Definition wrapS (w z : Z) : Z := ((z + 2 ^ (w - 1)) mod 2 ^ w - 2 ^ (w - 1))%Z.
Definition inU (w z : Z) : Prop := (0 <= z < 2 ^ w)%Z.
Definition inS (w z : Z) : Prop := (- 2 ^ (w - 1) <= z < 2 ^ (w - 1))%Z.

Lemma wrapU_id w z : inU w z -> wrapU w z = z.
Proof. intros H. apply Z.mod_small, H. Qed.

Lemma wrapU_range w z : (0 <= w)%Z -> inU w (wrapU w z).
Proof. intros H. apply Z.mod_pos_bound. lia. Qed.

Lemma wrapS_id w z : (0 < w)%Z -> inS w z -> wrapS w z = z.
Proof.
  unfold inS, wrapS. intros Hw H.
  assert (E : (2 ^ w = 2 * 2 ^ (w - 1))%Z).
  { rewrite <- Z.pow_succ_r by lia. f_equal. lia. }
  rewrite Z.mod_small by lia. lia.
Qed.

Lemma wrapS_range w z : (0 < w)%Z -> inS w (wrapS w z).
Proof.
  unfold inS, wrapS. intros Hw.
  assert (E : (2 ^ w = 2 * 2 ^ (w - 1))%Z).
  { rewrite <- Z.pow_succ_r by lia. f_equal. lia. }
  assert (0 <= (z + 2 ^ (w - 1)) mod 2 ^ w < 2 ^ w)%Z by (apply Z.mod_pos_bound; lia).
  lia.
Qed.

(** * Constants shared by the storage layer (src/include/common/constants.h,
      src/include/common/types/types.h, src/include/transaction/transaction.h) *)
Definition DEFAULT_VECTOR_CAPACITY : nat := 2 ^ 11.
Definition PAGE_SIZE : nat := 2 ^ 12.
Definition transaction_t : Type := Z.
Definition INVALID_TRANSACTION : transaction_t := (2 ^ 64 - 1)%Z.
Definition START_TRANSACTION_ID : transaction_t := (2 ^ 63)%Z.

#[global] Opaque DEFAULT_VECTOR_CAPACITY PAGE_SIZE.

Lemma vector_capacity_pos : 0 < DEFAULT_VECTOR_CAPACITY.
Proof. apply (proj1 (Nat.ltb_lt 0 _)). vm_compute. reflexivity. Qed.

Lemma vector_capacity_ne0 : DEFAULT_VECTOR_CAPACITY <> 0.
Proof. pose proof vector_capacity_pos. lia. Qed.

Create HintDb kuzu.
#[export] Hint Resolve vector_capacity_pos vector_capacity_ne0 : kuzu.

(** * Tactics *)

(** Run the monad on a concrete control flow. *)
Ltac srun :=
  cbv beta iota zeta delta
    [sbind sret sthrow sget sput smodify slift kuAssert szoom obind fst snd].

Ltac case_bool :=
  match goal with
  | |- context [if ?b then _ else _] => destruct b eqn:?
  | H : context [if ?b then _ else _] |- _ => destruct b eqn:?
  end.
