(* ===== verification/UndoBuffer.v ===== *)
(** * The undo buffer's memory (src/include/storage/undo_buffer.h,
      src/storage/undo_buffer.cpp)

    A transaction appends one undo record per change it makes.  The records live
    in a vector of memory buffers: each record is a header (its type and the size
    of its payload) and a payload, laid out one after the other, and the two
    iterators walk that memory with a raw pointer.  This file models the memory
    as a map from byte positions to the header or payload that was stored there,
    the creation of records, and both pointer walks; what committing or rolling
    back a record does is in UndoReplay. *)

From S2P Require Import Prelude.
From stdpp Require Import base list gmap numbers.

(** Objects that records point to. *)
Definition loc : Type := nat.

(** [UndoBuffer::UndoRecordType]. *)
Inductive UndoRecordType : Type :=
| CATALOG_ENTRY
| SEQUENCE_ENTRY
| UPDATE_INFO
| INSERT_INFO
| DELETE_INFO.

#[global] Instance UndoRecordType_eq_dec : EqDecision UndoRecordType.
Proof. solve_decision. Defined.

(** The payloads: [CatalogEntryRecord], [SequenceEntryRecord], [VersionRecord],
    [VectorUpdateRecord]. *)
Inductive UndoPayload : Type :=
| CatalogEntryRecord (catalogSet catalogEntry : loc)
| SequenceEntryRecord (sequenceEntry : loc) (usageCount currVal : Z)
| VersionRecord (chunkedNodeGroup : loc) (startRow numRows : nat)
| VectorUpdateRecord (updateInfo : loc) (vectorIdx : nat) (vectorUpdateInfo : loc).

#[global] Instance UndoPayload_eq_dec : EqDecision UndoPayload.
Proof. solve_decision. Defined.

(** [sizeof] of the payload structs and of [UndoRecordHeader] (a 2-byte enum and
    a [uint32_t]) under the alignment rules of a 64-bit target. *)
Definition sizeof_header : nat := 8.
Definition sizeof_payload (p : UndoPayload) : nat :=
  match p with
  | CatalogEntryRecord _ _ => 16
  | SequenceEntryRecord _ _ _ => 24
  | VersionRecord _ _ _ => 24
  | VectorUpdateRecord _ _ _ => 24
  end.

Record UndoRecordHeader : Type := mkHeader {
  recordType : UndoRecordType;
  recordSize : nat;
}.

Inductive cell : Type :=
| HeaderCell (h : UndoRecordHeader)
| PayloadCell (p : UndoPayload).

(** [UndoMemoryBuffer]. *)
Record UndoMemoryBuffer : Type := mkMemBuffer {
  data : gmap nat cell;
  size : nat;
  currentPosition : nat;
}.

Definition newUndoMemoryBuffer (sz : nat) : UndoMemoryBuffer := mkMemBuffer ∅ sz 0.
Definition canFit (b : UndoMemoryBuffer) (size_ : nat) : bool :=
  bool_decide (currentPosition b + size_ <= size b).
Definition moveCurrentPosition (b : UndoMemoryBuffer) (offset : nat) : outcome UndoMemoryBuffer :=
  if bool_decide (currentPosition b + offset <= size b)
  then Ok (mkMemBuffer (data b) (size b) (currentPosition b + offset))
  else Err InternalException.
Definition store (b : UndoMemoryBuffer) (pos : nat) (c : cell) : UndoMemoryBuffer :=
  mkMemBuffer (<[pos:=c]> (data b)) (size b) (currentPosition b).

(** The buffer's vector of memory buffers, oldest first. *)
Abbreviation UndoBuffer := (list UndoMemoryBuffer).

(** [while (size > capacity) capacity *= 2;] *)
Fixpoint growCapacity (fuel size_ capacity : nat) : option nat :=
  if bool_decide (capacity < size_) then
    match fuel with
    | O => None
    | S fuel' => growCapacity fuel' size_ (capacity * 2)
    end
  else Some capacity.

(** [UndoBuffer::createUndoRecord]: the pointer to the reserved bytes, as the
    buffer's index and the position in it. *)
Definition createUndoRecord (sz : nat) : M UndoBuffer (nat * nat) :=
  bufs <- sget ;;
  (if match list.last bufs with
      | None => true
      | Some b => negb (canFit b sz)
      end
   then match growCapacity sz sz PAGE_SIZE with
        | Some cap => sput (bufs ++ [newUndoMemoryBuffer cap])
        | None => sthrow UndefinedBehaviour
        end
   else sret tt) ;;;
  bufs' <- sget ;;
  match list.last bufs' with
  | None => sthrow UndefinedBehaviour
  | Some b =>
      b' <- slift (moveCurrentPosition b sz) ;;
      sput (<[pred (length bufs') := b']> bufs') ;;;
      sret (pred (length bufs'), currentPosition b)
  end.

(** The four [create*] members write the header, move past it and write the
    payload. *)
Definition createRecord (ty : UndoRecordType) (p : UndoPayload) : M UndoBuffer unit :=
  do (i, pos) <- createUndoRecord (sizeof_header + sizeof_payload p) ;;
  smodify (alter (fun b =>
    store (store b pos (HeaderCell (mkHeader ty (sizeof_payload p))))
          (pos + sizeof_header) (PayloadCell p)) i).

Definition createCatalogEntry (catalogSet catalogEntry : loc) : M UndoBuffer unit :=
  createRecord CATALOG_ENTRY (CatalogEntryRecord catalogSet catalogEntry).
Definition createSequenceChange (sequenceEntry : loc) (usageCount currVal : Z)
    : M UndoBuffer unit :=
  createRecord SEQUENCE_ENTRY (SequenceEntryRecord sequenceEntry usageCount currVal).
Definition createVersionInfo (ty : UndoRecordType) (cng : loc) (startRow numRows : nat)
    : M UndoBuffer unit :=
  createRecord ty (VersionRecord cng startRow numRows).
Definition createInsertInfo (cng : loc) (startRow numRows : nat) : M UndoBuffer unit :=
  createVersionInfo INSERT_INFO cng startRow numRows.
Definition createDeleteInfo (cng : loc) (startRow numRows : nat) : M UndoBuffer unit :=
  createVersionInfo DELETE_INFO cng startRow numRows.
Definition createVectorUpdateInfo (updateInfo : loc) (vectorIdx : nat) (vui : loc)
    : M UndoBuffer unit :=
  createRecord UPDATE_INFO (VectorUpdateRecord updateInfo vectorIdx vui).

(** What the callbacks receive: the record's type and the pointer to its payload,
    already read. *)
Definition entry : Type := UndoRecordType * UndoPayload.

(** The inner loop of both iterators: from [current], while [current < end], read
    the header, step over it, take the payload, skip [recordSize] bytes. *)
Fixpoint walk (fuel : nat) (b : UndoMemoryBuffer) (current : nat) : outcome (list entry) :=
  if bool_decide (current < currentPosition b) then
    match fuel with
    | O => Err UndefinedBehaviour
    | S fuel' =>
        match data b !! current with
        | Some (HeaderCell h) =>
            match data b !! (current + sizeof_header) with
            | Some (PayloadCell p) =>
                let* rest := walk fuel' b (current + sizeof_header + recordSize h) in
                Ok ((recordType h, p) :: rest)
            | _ => Err UndefinedBehaviour
            end
        | _ => Err UndefinedBehaviour
        end
    end
  else Ok [].

Definition walkBuffer (b : UndoMemoryBuffer) : outcome (list entry) :=
  walk (currentPosition b) b 0.

(** [UndoBufferIterator::iterate]: the records in the order the callback sees
    them. *)
Fixpoint iterateBuffers (bufs : UndoBuffer) : outcome (list entry) :=
  match bufs with
  | [] => Ok []
  | b :: bs =>
      let* es := walkBuffer b in
      let* rest := iterateBuffers bs in
      Ok (es ++ rest)
  end.
Definition iterate (u : UndoBuffer) : outcome (list entry) := iterateBuffers u.

(** [UndoBufferIterator::reverseIterate]: from the last buffer to the first, the
    entries of a buffer collected and visited from the last to the first. *)
Fixpoint reverseIterateFrom (numBuffersLeft : nat) (u : UndoBuffer) : outcome (list entry) :=
  match numBuffersLeft with
  | O => Ok []
  | S bufferIdx =>
      match u !! bufferIdx with
      | None => Err UndefinedBehaviour
      | Some b =>
          let* es := walkBuffer b in
          let* rest := reverseIterateFrom bufferIdx u in
          Ok (rev es ++ rest)
      end
  end.
Definition reverseIterate (u : UndoBuffer) : outcome (list entry) :=
  reverseIterateFrom (length u) u.

(** [UndoBuffer::getMemUsage]. *)
Definition getMemUsage (u : UndoBuffer) : nat := sum_list (size <$> u).

(** ** The layout invariant *)

(** [layout d pos es end]: in [d], the bytes from [pos] to [end] hold exactly the
    records [es], one after the other. *)
Inductive layout (d : gmap nat cell) : nat -> list entry -> nat -> Prop :=
| layout_nil pos : layout d pos [] pos
| layout_cons pos ty p es stop :
    d !! pos = Some (HeaderCell (mkHeader ty (sizeof_payload p))) ->
    d !! (pos + sizeof_header) = Some (PayloadCell p) ->
    layout d (pos + sizeof_header + sizeof_payload p) es stop ->
    layout d pos ((ty, p) :: es) stop.

Record wf_membuffer (b : UndoMemoryBuffer) (es : list entry) : Prop := {
  wf_layout : layout (data b) 0 es (currentPosition b);
  wf_bound : currentPosition b <= size b;
  wf_dom : forall pos c, data b !! pos = Some c -> pos < currentPosition b;
}.

(** The buffers hold the records [ess], buffer by buffer. *)
Definition wf_buffers (u : UndoBuffer) (ess : list (list entry)) : Prop :=
  Forall2 wf_membuffer u ess.

Definition holds (u : UndoBuffer) (es : list entry) : Prop :=
  exists ess, wf_buffers u ess /\ concat ess = es.

Lemma sizeof_payload_pos p : 0 < sizeof_payload p.
Proof. destruct p; simpl; lia. Qed.

Lemma layout_le d pos es stop : layout d pos es stop -> pos <= stop.
Proof. induction 1; unfold sizeof_header in *; lia. Qed.

Lemma layout_app d pos es1 mid es2 stop :
  layout d pos es1 mid -> layout d mid es2 stop -> layout d pos (es1 ++ es2) stop.
Proof. induction 1; simpl; [done|]. intros. econstructor; eauto. Qed.

(** Writing at or past [stop] keeps the records before it. *)
Lemma layout_store d pos es stop p c :
  layout d pos es stop -> stop <= p -> layout (<[p:=c]> d) pos es stop.
Proof.
  induction 1 as [|pos ty q es stop Hh Hp Hl IH]; intros Hle; [constructor|].
  pose proof (layout_le _ _ _ _ Hl). pose proof (sizeof_payload_pos q).
  unfold sizeof_header in *.
  constructor; unfold sizeof_header; [| |by apply IH];
    rewrite lookup_insert_ne by lia; done.
Qed.

Lemma walk_layout b es :
  forall pos stop fuel, layout (data b) pos es stop -> stop = currentPosition b ->
  stop - pos <= fuel -> walk fuel b pos = Ok es.
Proof.
  induction es as [|[ty p] es IH]; intros pos stop fuel Hl -> Hf; inversion Hl; subst.
  - destruct fuel; simpl; rewrite bool_decide_eq_false_2 by lia; done.
  - match goal with H : layout _ _ es _ |- _ =>
      pose proof (layout_le _ _ _ _ H) as Hle; rename H into Hl' end.
    unfold sizeof_header in *.
    destruct fuel as [|fuel]; [lia|]. simpl.
    rewrite bool_decide_eq_true_2 by lia.
    unfold sizeof_header in *.
    repeat match goal with H : data b !! _ = Some _ |- _ => rewrite H; clear H end.
    simpl. rewrite (IH _ _ _ Hl' eq_refl) by lia. done.
Qed.

Lemma walkBuffer_wf b es : wf_membuffer b es -> walkBuffer b = Ok es.
Proof. intros [Hl _ _]. eapply walk_layout; [exact Hl|done|lia]. Qed.

Lemma iterate_wf u ess : wf_buffers u ess -> iterate u = Ok (concat ess).
Proof.
  unfold iterate. induction 1 as [|b es u ess Hb Hu IH]; simpl; [done|].
  rewrite (walkBuffer_wf _ _ Hb). simpl. rewrite IH. done.
Qed.

Lemma reverseIterateFrom_wf u ess n :
  wf_buffers u ess -> n <= length u ->
  reverseIterateFrom n u = Ok (rev (concat (take n ess))).
Proof.
  intros Hwf. induction n as [|n IH]; intros Hn; simpl; [done|].
  destruct (lookup_lt_is_Some_2 u n) as [b Hb]; [lia|]. rewrite Hb.
  destruct (Forall2_lookup_l _ _ _ _ _ Hwf Hb) as (es & He & Hbe).
  rewrite (walkBuffer_wf _ _ Hbe). simpl. rewrite IH by lia. simpl.
  rewrite (take_S_r _ _ _ He), concat_app, rev_app_distr. simpl. by rewrite app_nil_r.
Qed.

Lemma reverseIterate_wf u ess :
  wf_buffers u ess -> reverseIterate u = Ok (rev (concat ess)).
Proof.
  intros Hwf. unfold reverseIterate. rewrite (reverseIterateFrom_wf u ess) by done.
  by rewrite take_ge by (rewrite (Forall2_length Hwf); lia).
Qed.

(** ** The capacity loop *)

Lemma growCapacity_enough fuel sz cap :
  0 < cap -> sz <= cap + fuel ->
  exists cap', growCapacity fuel sz cap = Some cap' /\ sz <= cap' /\ cap <= cap'.
Proof.
  revert cap. induction fuel as [|fuel IH]; intros cap Hc Hf; simpl.
  - rewrite bool_decide_eq_false_2 by lia. eauto with lia.
  - case_bool_decide as Hlt; [|eauto with lia].
    destruct (IH (cap * 2)) as (cap' & -> & ? & ?); [lia | lia |]. eauto with lia.
Qed.

Lemma page_size_pos : 0 < PAGE_SIZE.
Proof. apply (proj1 (Nat.ltb_lt 0 _)). vm_compute. reflexivity. Qed.

Lemma wf_new cap : wf_membuffer (newUndoMemoryBuffer cap) [].
Proof. split; simpl; [constructor | lia | intros ??; rewrite lookup_empty; done]. Qed.

(** One record written at the end of a buffer that has room for it. *)
Lemma wf_append b es ty p :
  wf_membuffer b es ->
  currentPosition b + (sizeof_header + sizeof_payload p) <= size b ->
  wf_membuffer
    (store (store (mkMemBuffer (data b) (size b)
                     (currentPosition b + (sizeof_header + sizeof_payload p)))
              (currentPosition b) (HeaderCell (mkHeader ty (sizeof_payload p))))
       (currentPosition b + sizeof_header) (PayloadCell p))
    (es ++ [(ty, p)]).
Proof.
  intros [Hl Hb Hd] Hfit. pose proof (sizeof_payload_pos p).
  unfold sizeof_header in *. split; cbn [store data size currentPosition].
  - apply (layout_app _ _ _ (currentPosition b)).
    + apply layout_store; [|lia]. apply layout_store; [exact Hl|lia].
    + constructor; unfold sizeof_header.
      * rewrite lookup_insert_ne by lia. apply lookup_insert_eq.
      * apply lookup_insert_eq.
      * rewrite <- Nat.add_assoc. constructor.
  - done.
  - intros pos c. rewrite !lookup_insert.
    repeat case_decide; intros Hc; [lia..|]. apply Hd in Hc. lia.
Qed.

Lemma wf_buffers_snoc_inv u ess b es :
  wf_buffers (u ++ [b]) (ess ++ [es]) -> wf_buffers u ess /\ wf_membuffer b es.
Proof.
  intros Hwf. unfold wf_buffers in *.
  apply Forall2_app_inv in Hwf as [H1 H2].
  - split; [done|]. by inversion H2.
  - apply Forall2_length in Hwf. rewrite !length_app in Hwf. simpl in Hwf. lia.
Qed.

(** The record goes into the last buffer when it fits. *)
Lemma createRecord_snoc u ess b es ty p :
  wf_buffers (u ++ [b]) (ess ++ [es]) ->
  canFit b (sizeof_header + sizeof_payload p) = true ->
  exists u', createRecord ty p (u ++ [b]) = (Ok tt, u') /\
             wf_buffers u' (ess ++ [es ++ [(ty, p)]]).
Proof.
  intros [Hu Hb]%wf_buffers_snoc_inv Hfit.
  unfold createRecord, createUndoRecord.
  srun. rewrite last_snoc, Hfit. cbn [negb]. rewrite last_snoc. unfold moveCurrentPosition. unfold canFit in Hfit.
  rewrite Hfit. apply bool_decide_eq_true in Hfit.
  eexists. split; [reflexivity|].
  rewrite length_app, Nat.add_1_r. cbn [pred].
  rewrite insert_app_r_alt, alter_app_r_alt, Nat.sub_diag by lia.
  cbn. apply Forall2_app; [done|]. constructor; [|done]. by apply wf_append.
Qed.

(** Every creation succeeds and appends its record after the earlier ones. *)
Lemma createRecord_holds u es ty p :
  holds u es ->
  exists u', createRecord ty p u = (Ok tt, u') /\ holds u' (es ++ [(ty, p)]).
Proof.
  intros (ess & Hwf & <-).
  set (sz := sizeof_header + sizeof_payload p).
  destruct (growCapacity_enough sz sz PAGE_SIZE) as (cap & Hcap & Hsz & _);
    [apply page_size_pos | lia |].
  assert (Hfit : canFit (newUndoMemoryBuffer cap) sz = true).
  { apply bool_decide_eq_true_2. exact Hsz. }
  assert (Hnew : match list.last u with None => true | Some b => negb (canFit b sz) end = true ->
    createRecord ty p u = createRecord ty p (u ++ [newUndoMemoryBuffer cap])).
  { intros Hn. unfold createRecord, createUndoRecord.
    fold sz. srun. rewrite Hn, last_snoc, Hcap, Hfit. done. }
  destruct (match list.last u with None => true | Some b => negb (canFit b sz) end) eqn:Hn.
  - rewrite (Hnew eq_refl).
    destruct (createRecord_snoc u ess (newUndoMemoryBuffer cap) [] ty p) as (u' & -> & Hu').
    + apply Forall2_app; [done|]. constructor; [apply wf_new | done].
    + done.
    + exists u'. split; [done|]. exists (ess ++ [[(ty, p)]]). split; [done|].
      rewrite concat_app. simpl. done.
  - destruct (list.last u) as [b|] eqn:Hl; [|done].
    apply last_Some in Hl as [u0 ->].
    apply negb_false_iff in Hn.
    apply Forall2_app_inv_l in Hwf as (ess0 & k & Hu0 & Hk & ->).
    inversion Hk as [|? es ? k' Hb Hk']; subst. inversion Hk'; subst.
    destruct (createRecord_snoc u0 ess0 b es ty p) as (u' & -> & Hu').
    + apply Forall2_app; [done|]. by constructor.
    + done.
    + exists u'. split; [done|]. exists (ess0 ++ [es ++ [(ty, p)]]). split; [done|].
      rewrite !concat_app. simpl. by rewrite !app_nil_r, app_assoc.
Qed.

Lemma holds_empty : holds [] [].
Proof. exists []. split; [constructor | done]. Qed.

Lemma iterate_holds u es : holds u es -> iterate u = Ok es.
Proof. intros (ess & Hwf & <-). by apply iterate_wf. Qed.

Lemma reverseIterate_holds u es : holds u es -> reverseIterate u = Ok (rev es).
Proof. intros (ess & Hwf & <-). by apply reverseIterate_wf. Qed.

(** A sequence of creations. *)
Fixpoint createRecords (rs : list entry) : M UndoBuffer unit :=
  match rs with
  | [] => sret tt
  | (ty, p) :: rs' => createRecord ty p ;;; createRecords rs'
  end.

Lemma createRecords_holds rs u es :
  holds u es -> exists u', createRecords rs u = (Ok tt, u') /\ holds u' (es ++ rs).
Proof.
  revert u es. induction rs as [|[ty p] rs IH]; intros u es Hu; simpl.
  - exists u. by rewrite app_nil_r.
  - destruct (createRecord_holds u es ty p Hu) as (u1 & E & Hu1).
    destruct (IH u1 _ Hu1) as (u2 & E2 & Hu2). exists u2.
    rewrite (sbind_ok _ _ _ _ _ E). split; [done|]. by rewrite <- app_assoc in Hu2.
Qed.

(** ** Property *)

(** C22. Whatever records a transaction appends to an empty undo buffer, however many
    memory buffers they need, every append succeeds, no buffer is written past its
    size, committing visits the records in the order they were made, and rolling
    back visits them in the opposite order. *)
Theorem undo_records_replayed (rs : list entry) :
  exists u, createRecords rs [] = (Ok tt, u) /\
    iterate u = Ok rs /\ reverseIterate u = Ok (rev rs) /\
    Forall (fun b => currentPosition b <= size b) u.
Proof.
  destruct (createRecords_holds rs [] [] holds_empty) as (u & E & Hu). exists u.
  split_and!; [done|by apply iterate_holds|by apply reverseIterate_holds|].
  destruct Hu as (ess & Hwf & _). clear E. induction Hwf as [|b es u ess Hb Hwf IH]; constructor; [|done].
  by destruct Hb.
Qed.
