(* ===== verification/Transaction.v ===== *)
(** * Transactions (src/include/transaction/transaction.h,
      src/transaction/transaction.cpp)

    The identity of a transaction as the other components read it: its type, its
    ID (at least [START_TRANSACTION_ID]), its start timestamp (below it) and its
    commit timestamp; and the rule that decides which versions it sees. *)

From S2P Require Import Prelude.
From stdpp Require Import base numbers.
Local Open Scope Z_scope.

(** [TransactionType]. *)
Inductive TransactionType : Type := READ_ONLY | WRITE | CHECKPOINT | DUMMY | RECOVERY.

#[global] Instance TransactionType_eq_dec : EqDecision TransactionType.
Proof. solve_decision. Defined.

Definition DUMMY_TRANSACTION_ID : transaction_t := 0.
Definition DUMMY_START_TIMESTAMP : transaction_t := 0.

(** The data members of [Transaction] that are values (the local storage and the
    undo buffer it owns are in the components that use them). *)
Record Transaction : Type := mkTransaction {
  type : TransactionType;
  ID : transaction_t;
  startTS : transaction_t;
  commitTS : transaction_t;
  forceCheckpoint : bool;
}.

(** The constructors: [Transaction(clientContext, type, ID, startTS)] and the two
    for the dummy transactions. *)
Definition newTransaction (ty : TransactionType) (id ts : transaction_t) : Transaction :=
  mkTransaction ty id ts INVALID_TRANSACTION false.
Definition DUMMY_TRANSACTION : Transaction :=
  newTransaction DUMMY DUMMY_TRANSACTION_ID DUMMY_START_TIMESTAMP.
Definition DUMMY_CHECKPOINT_TRANSACTION : Transaction :=
  newTransaction CHECKPOINT DUMMY_TRANSACTION_ID (START_TRANSACTION_ID - 1).

Definition isReadOnly (t : Transaction) : bool := bool_decide (type t = READ_ONLY).
Definition isWriteTransaction (t : Transaction) : bool := bool_decide (type t = WRITE).
Definition isDummy (t : Transaction) : bool := bool_decide (type t = DUMMY).
Definition isRecovery (t : Transaction) : bool := bool_decide (type t = RECOVERY).
Definition shouldAppendToUndoBuffer (t : Transaction) : bool :=
  (DUMMY_TRANSACTION_ID <? ID t) && negb (isReadOnly t).

(** [isDBPathInMemory] of the client context's database path is an argument. *)
Definition shouldLogToWAL (inMemory : bool) (t : Transaction) : bool :=
  negb (isRecovery t) && negb inMemory.
Definition shouldForceCheckpoint (inMemory : bool) (t : Transaction) : bool :=
  negb inMemory && forceCheckpoint t.
(** [checkForceCheckpoint]: [isCopyFrom] says whether the statement is
    [StatementType::COPY_FROM]. *)
Definition checkForceCheckpoint (isCopyFrom : bool) (t : Transaction) : Transaction :=
  if isCopyFrom then mkTransaction (type t) (ID t) (startTS t) (commitTS t) true else t.

(** ** Snapshot visibility *)

(** A version stamped [ver] is seen by a transaction when the transaction wrote it
    or when it was committed no later than the transaction's start. *)
Definition visible (ts id ver : transaction_t) : bool := (ver =? id) || (ver <=? ts).

(** Timestamps of a running transaction: both halves of the 64-bit space. *)
Record wf_ids (ts id : transaction_t) : Prop := {
  wf_ts : 0 <= ts < START_TRANSACTION_ID;
  wf_id : START_TRANSACTION_ID <= id < INVALID_TRANSACTION;
}.

Lemma invalid_not_visible ts id : wf_ids ts id -> visible ts id INVALID_TRANSACTION = false.
Proof.
  intros [H1 H2]. unfold visible, INVALID_TRANSACTION, START_TRANSACTION_ID in *.
  apply orb_false_iff. lia.
Qed.

Lemma own_visible ts id : visible ts id id = true.
Proof. unfold visible. rewrite Z.eqb_refl. done. Qed.

Lemma zero_visible ts id : wf_ids ts id -> visible ts id 0 = true.
Proof. intros [H1 _]. unfold visible. apply orb_true_iff. right. lia. Qed.

(** Another transaction's uncommitted version is not seen. *)
Lemma uncommitted_invisible ts id other :
  wf_ids ts id -> START_TRANSACTION_ID <= other -> other <> id ->
  visible ts id other = false.
Proof. intros [H1 H2] Ho Hne. unfold visible. apply orb_false_iff. lia. Qed.

(** A committed version is seen exactly by the transactions that start later. *)
Lemma committed_visible ts id cts :
  wf_ids ts id -> 0 <= cts < START_TRANSACTION_ID ->
  visible ts id cts = (cts <=? ts).
Proof.
  intros [H1 H2] Hc. unfold visible.
  destruct (Z.eqb_spec cts id) as [->|]; [lia|done].
Qed.

#[export] Hint Resolve invalid_not_visible own_visible zero_visible : kuzu.
