(* ===== verification/SelectionVector.v ===== *)
(** * Selection vectors (src/include/common/data_chunk/sel_vector.h)

    A selection vector is a count and a pointer to positions: either the static
    array [INCREMENTAL_SELECTED_POS] (0, 1, 2, ...), when it is unfiltered, or its
    own buffer. *)

From S2P Require Import Prelude.
From stdpp Require Import base list.

Record SelectionVector : Type := mkSel {
  selectedSize : nat;
  capacity : nat;
  selectedPositionsBuffer : list nat;
  (** whether [selectedPositions] is [INCREMENTAL_SELECTED_POS] *)
  isUnfiltered : bool;
}.

(** The constructor value-initialises the buffer. *)
Definition newSelectionVector (cap : nat) : SelectionVector :=
  mkSel 0 cap (replicate cap 0) true.

Definition setToUnfiltered (size : nat) : M SelectionVector unit :=
  s <- sget ;;
  kuAssert (bool_decide (size <= capacity s)) ;;;
  sput (mkSel size (capacity s) (selectedPositionsBuffer s) true).

Definition setToFiltered (size : nat) : M SelectionVector unit :=
  s <- sget ;;
  kuAssert (bool_decide (size <= capacity s)) ;;;
  sput (mkSel size (capacity s) (selectedPositionsBuffer s) false).

Definition setSelSize (size : nat) : M SelectionVector unit :=
  s <- sget ;;
  kuAssert (bool_decide (size <= capacity s)) ;;;
  sput (mkSel size (capacity s) (selectedPositionsBuffer s) (isUnfiltered s)).

(** [getMutableBuffer()[i] = pos] *)
Definition setBuffer (i pos : nat) : M SelectionVector unit :=
  s <- sget ;;
  b <- arr_set (selectedPositionsBuffer s) i pos ;;
  sput (mkSel (selectedSize s) (capacity s) b (isUnfiltered s)).

(** [getSelectedPositions]: what a reader of the vector sees. *)
Definition getSelectedPositions (s : SelectionVector) : list nat :=
  if isUnfiltered s then seq 0 (selectedSize s)
  else take (selectedSize s) (selectedPositionsBuffer s).

Definition wf_sel (s : SelectionVector) : Prop :=
  selectedSize s <= capacity s /\ length (selectedPositionsBuffer s) = capacity s.

(** [for (i = 0; i < n; i++) buffer[numSelected++] = outputPos + i], keeping only
    the positions that [keep] selects; [numSelected] is returned. *)
Fixpoint appendPositions (keep : nat -> outcome bool) (i n numSelected outputPos : nat)
    : M SelectionVector nat :=
  match n with
  | O => sret numSelected
  | S n' =>
      k <- slift (keep i) ;;
      if (k : bool) then
        setBuffer numSelected (outputPos + i) ;;;
        appendPositions keep (S i) n' (S numSelected) outputPos
      else appendPositions keep (S i) n' numSelected outputPos
  end.

(** The positions that the loop writes. *)
Definition keptPositions (p : nat -> bool) (i n outputPos : nat) : list nat :=
  (fun j => outputPos + j) <$> List.filter p (seq i n).

Lemma keptPositions_S p i n o :
  keptPositions p i (S n) o =
    (if p i then [o + i] else []) ++ keptPositions p (S i) n o.
Proof. unfold keptPositions. simpl. destruct (p i); done. Qed.

Lemma length_keptPositions p i n o : length (keptPositions p i n o) <= n.
Proof.
  unfold keptPositions. rewrite length_fmap.
  revert i. induction n as [|n IH]; intros i; simpl; [done|].
  destruct (p i); simpl; specialize (IH (S i)); lia.
Qed.

Lemma appendPositions_ok keep p n :
  forall i k o s,
  (forall j, i <= j < i + n -> keep j = Ok (p j)) ->
  wf_sel s -> k + n <= capacity s ->
  exists s',
    appendPositions keep i n k o s = (Ok (k + length (keptPositions p i n o)), s') /\
    wf_sel s' /\ capacity s' = capacity s /\ selectedSize s' = selectedSize s /\
    isUnfiltered s' = isUnfiltered s /\
    take (k + length (keptPositions p i n o)) (selectedPositionsBuffer s') =
      take k (selectedPositionsBuffer s) ++ keptPositions p i n o.
Proof.
  induction n as [|n IH]; intros i k o s Hk [Hw1 Hw2] Hcap; cbn [appendPositions].
  - exists s. cbn. rewrite Nat.add_0_r, app_nil_r. done.
  - rewrite (Hk i) by lia. rewrite keptPositions_S. unfold slift, sbind at 1.
    destruct (p i) eqn:Hp; cbn [app length].
    + unfold setBuffer, arr_set.
      erewrite sbind_ok; [|srun; rewrite decide_True by lia; reflexivity].
      set (s1 := mkSel _ _ _ _).
      destruct (IH (S i) (S k) o s1) as (s' & E & ? & ? & ? & ? & Ht).
      * intros j Hj. apply Hk. lia.
      * split; simpl; [done|]. by rewrite length_insert.
      * simpl. lia.
      * exists s'. rewrite E. cbn [capacity selectedSize isUnfiltered s1] in *.
        replace (k + S (length (keptPositions p (S i) n o))) with
          (S k + length (keptPositions p (S i) n o)) by lia.
        do 5 (split; [done|]). rewrite Ht. subst s1. cbn [selectedPositionsBuffer].
        rewrite (take_S_r _ _ (o + i)) by (apply list_lookup_insert_eq; lia).
        rewrite take_insert_ge by lia. by rewrite <- app_assoc.
    + destruct (IH (S i) k o s) as (s' & E & ? & ? & ? & ? & Ht); try done.
      * intros j Hj. apply Hk. lia.
      * lia.
      * exists s'. by rewrite E.
Qed.
