(* ===== verification/Serializer.v ===== *)
(** * Serialization (src/include/common/serializer/serializer.h,
      src/include/common/serializer/deserializer.h,
      src/common/serializer/serializer.cpp, src/common/serializer/deserializer.cpp)

    A serializer writes the object representation of trivially destructible values
    ([sizeof(T)] bytes, little-endian on the targets the project builds for),
    strings as a 64-bit length and their bytes, arrays and vectors element by
    element; a deserializer reads them back.  The sink is the list of bytes written
    so far, the source the list of bytes not read yet; reading past its end throws,
    as [BufferedFileReader::readNextPage] does.  The debugging labels of
    [writeDebuggingInfo] and [validateDebuggingInfo] are compiled out by default
    and are not part of the stream. *)

From S2P Require Import Prelude.
From stdpp Require Import base list strings numbers.
From Stdlib Require Import Ascii.
Local Open Scope Z_scope.

Abbreviation bytes := (list Z).

Fixpoint leBytes (n : nat) (z : Z) : bytes :=
  match n with O => [] | S n' => (z mod 256) :: leBytes n' (z / 256) end.
Fixpoint leValue (l : bytes) : Z :=
  match l with [] => 0 | b :: l' => b + 256 * leValue l' end.

Abbreviation Writer := (M bytes).
Abbreviation Reader := (M bytes).

Definition write (bs : bytes) : Writer unit := smodify (fun out => out ++ bs).

(** [reader->read(ptr, size)]. *)
Definition read (n : nat) : Reader bytes :=
  src <- sget ;;
  if decide (n <= length src)%nat then sput (drop n src) ;;; sret (take n src)
  else sthrow (RuntimeException "Reading past the end of the file").

(** [serializeValue<T>] / [deserializeValue<T>] for an unsigned type of [n] bytes,
    and for a signed one. *)
Definition serializeU (n : nat) (v : Z) : Writer unit := write (leBytes n v).
Definition deserializeU (n : nat) : Reader Z := bs <- read n ;; sret (leValue bs).
Definition serializeS (n : nat) (v : Z) : Writer unit :=
  serializeU n (wrapU (8 * Z.of_nat n) v).
Definition deserializeS (n : nat) : Reader Z :=
  v <- deserializeU n ;; sret (wrapS (8 * Z.of_nat n) v).
Definition serializeBool (b : bool) : Writer unit := serializeU 1 (if b then 1 else 0).
Definition deserializeBool : Reader bool := v <- deserializeU 1 ;; sret (negb (v =? 0)).

(** [serializeValue<std::string>]. *)
Definition stringBytes (s : string) : bytes :=
  (fun a => Z.of_nat (nat_of_ascii a)) <$> String.list_ascii_of_string s.
Definition bytesString (bs : bytes) : string :=
  String.string_of_list_ascii ((fun b => ascii_of_nat (Z.to_nat b)) <$> bs).
Definition serializeString (s : string) : Writer unit :=
  serializeU 8 (Z.of_nat (length (stringBytes s))) ;;; write (stringBytes s).
Definition deserializeString : Reader string :=
  n <- deserializeU 8 ;; bs <- read (Z.to_nat n) ;; sret (bytesString bs).

(** [serializeArray] / [deserializeArray] (the size is static). *)
Fixpoint serializeArray {A} (ser : A -> Writer unit) (l : list A) : Writer unit :=
  match l with [] => sret tt | a :: l' => ser a ;;; serializeArray ser l' end.
Fixpoint deserializeArray {A} (deser : Reader A) (n : nat) : Reader (list A) :=
  match n with
  | O => sret []
  | S n' => a <- deser ;; l <- deserializeArray deser n' ;; sret (a :: l)
  end.

(** [serializeVector] / [deserializeVector]: the size first. *)
Definition serializeVector {A} (ser : A -> Writer unit) (l : list A) : Writer unit :=
  serializeU 8 (Z.of_nat (length l)) ;;; serializeArray ser l.
Definition deserializeVector {A} (deser : Reader A) : Reader (list A) :=
  n <- deserializeU 8 ;; deserializeArray deser (Z.to_nat n).

(** [serializeOptionalValue] / [deserializeOptionalValue]: a flag that says that
    the pointer is null. *)
Definition serializeOptionalValue {A} (ser : A -> Writer unit) (o : option A) : Writer unit :=
  match o with None => serializeBool true | Some a => serializeBool false ;;; ser a end.
Definition deserializeOptionalValue {A} (deser : Reader A) : Reader (option A) :=
  isNull <- deserializeBool ;;
  if isNull : bool then sret None else a <- deser ;; sret (Some a).

(** ** Round trips *)

(** [codec ser deser a]: [ser a] only appends to the sink, and [deser] reads [a]
    back and consumes exactly what was written, whatever follows. *)
Definition codec {A} (ser : A -> Writer unit) (deser : Reader A) (a : A) : Prop :=
  exists bs, (forall out, ser a out = (Ok tt, out ++ bs)) /\
             (forall rest, deser (bs ++ rest) = (Ok a, rest)).

Lemma length_leBytes n z : length (leBytes n z) = n.
Proof. revert z. induction n as [|n IH]; intros z; simpl; [done|]. by rewrite IH. Qed.

Lemma leValue_leBytes n z : leValue (leBytes n z) = z mod 2 ^ (8 * Z.of_nat n).
Proof.
  revert z. induction n as [|n IH]; intros z; cbn [leBytes leValue].
  - by rewrite Z.mod_1_r.
  - rewrite IH. replace (8 * Z.of_nat (S n)) with (8 + 8 * Z.of_nat n) by lia.
    rewrite Z.pow_add_r by lia. change (2 ^ 8) with 256.
    rewrite (Z.rem_mul_r z 256) by lia. lia.
Qed.

Lemma read_app bs rest : read (length bs) (bs ++ rest) = (Ok bs, rest).
Proof.
  unfold read. srun. rewrite decide_True by (rewrite length_app; lia).
  by rewrite drop_app_length, take_app_length.
Qed.

Lemma deserializeU_leBytes n v rest :
  inU (8 * Z.of_nat n) v -> deserializeU n (leBytes n v ++ rest) = (Ok v, rest).
Proof.
  intros Hv. unfold deserializeU. rewrite <- (length_leBytes n v) at 1.
  rewrite (sbind_ok _ _ _ _ _ (read_app _ _)).
  unfold sret. rewrite leValue_leBytes. do 2 f_equal. by apply wrapU_id.
Qed.

Lemma codec_U n v : inU (8 * Z.of_nat n) v -> codec (serializeU n) (deserializeU n) v.
Proof. intros Hv. exists (leBytes n v). split; [done|]. by intros; apply deserializeU_leBytes. Qed.

Lemma wrapS_wrapU w v : 0 < w -> inS w v -> wrapS w (wrapU w v) = v.
Proof.
  intros Hw Hv. rewrite <- (wrapS_id w v) at 2 by done. unfold wrapS, wrapU.
  rewrite Zplus_mod_idemp_l. done.
Qed.

Lemma codec_S n v :
  (0 < n)%nat -> inS (8 * Z.of_nat n) v -> codec (serializeS n) (deserializeS n) v.
Proof.
  intros Hn Hv. exists (leBytes n (wrapU (8 * Z.of_nat n) v)). split; [done|].
  intros rest. unfold deserializeS.
  erewrite sbind_ok; [|apply deserializeU_leBytes, wrapU_range; lia].
  unfold sret. rewrite wrapS_wrapU by (done || lia). done.
Qed.

Lemma codec_Bool b : codec serializeBool deserializeBool b.
Proof. exists [if b then 1 else 0]. split; destruct b; done. Qed.

Lemma codec_Array {A} (ser : A -> Writer unit) deser l :
  Forall (codec ser deser) l ->
  exists bs, (forall out, serializeArray ser l out = (Ok tt, out ++ bs)) /\
    (forall rest, deserializeArray deser (length l) (bs ++ rest) = (Ok l, rest)).
Proof.
  induction 1 as [|a l (bs & Hw & Hr) _ (bs' & Hw' & Hr')]; cbn [serializeArray deserializeArray length].
  - exists []. split; intros; [by rewrite app_nil_r|done].
  - exists (bs ++ bs'). split.
    + intros out. rewrite (sbind_ok _ _ _ _ _ (Hw out)), Hw'. by rewrite app_assoc.
    + intros rest. rewrite <- app_assoc, (sbind_ok _ _ _ _ _ (Hr _)),
        (sbind_ok _ _ _ _ _ (Hr' _)). done.
Qed.

Lemma codec_Vector {A} (ser : A -> Writer unit) deser l :
  Forall (codec ser deser) l -> Z.of_nat (length l) < 2 ^ 64 ->
  codec (serializeVector ser) (deserializeVector deser) l.
Proof.
  intros (bs & Hw & Hr)%codec_Array Hlen.
  exists (leBytes 8 (Z.of_nat (length l)) ++ bs). split.
  - intros out. unfold serializeVector. erewrite sbind_ok; [|reflexivity].
    by rewrite Hw, app_assoc.
  - intros rest. unfold deserializeVector. rewrite <- app_assoc.
    erewrite sbind_ok; [|apply deserializeU_leBytes; unfold inU; lia].
    rewrite Nat2Z.id. apply Hr.
Qed.

Lemma codec_Optional {A} (ser : A -> Writer unit) deser o :
  (forall a, o = Some a -> codec ser deser a) ->
  codec (serializeOptionalValue ser) (deserializeOptionalValue deser) o.
Proof.
  intros H. destruct o as [a|].
  - destruct (H a eq_refl) as (bs & Hw & Hr). exists (0 :: bs). split.
    + intros out. unfold serializeOptionalValue. erewrite sbind_ok; [|reflexivity].
      rewrite Hw. simpl. by rewrite <- app_assoc.
    + intros rest. unfold deserializeOptionalValue.
      change ((0 :: bs) ++ rest) with (0 :: (bs ++ rest)).
      rewrite (sbind_ok _ _ _ false (bs ++ rest)) by reflexivity.
      by rewrite (sbind_ok _ _ _ _ _ (Hr rest)).
  - exists [1]. split; intros; done.
Qed.

Lemma bytesString_stringBytes s : bytesString (stringBytes s) = s.
Proof.
  unfold bytesString, stringBytes. rewrite <- list_fmap_compose.
  rewrite <- (String.string_of_list_ascii_of_string s) at 2. f_equal.
  induction (String.list_ascii_of_string s) as [|a l IH]; [done|].
  cbn. rewrite Nat2Z.id, ascii_nat_embedding. by f_equal.
Qed.

Lemma codec_String s :
  Z.of_nat (String.length s) < 2 ^ 64 -> codec serializeString deserializeString s.
Proof.
  intros Hlen.
  assert (Hl : length (stringBytes s) = String.length s).
  { unfold stringBytes. rewrite length_fmap. clear. induction s; simpl; [done|]. by f_equal. }
  exists (leBytes 8 (Z.of_nat (length (stringBytes s))) ++ stringBytes s). split.
  - intros out. unfold serializeString. erewrite sbind_ok; [|reflexivity].
    unfold write, smodify. by rewrite app_assoc.
  - intros rest. unfold deserializeString. rewrite <- app_assoc.
    erewrite sbind_ok; [|apply deserializeU_leBytes; unfold inU; lia].
    rewrite Nat2Z.id. rewrite (sbind_ok _ _ _ _ _ (read_app _ _)).
    unfold sret. by rewrite bytesString_stringBytes.
Qed.

(** ** Codecs of objects with several members *)

(** [codecR w d a]: what [w] writes, [d] reads as [a].  [codec ser deser a] is the case of a
    function that writes its argument. *)
Definition codecR {A} (w : Writer unit) (d : Reader A) (a : A) : Prop :=
  exists bs, (forall out, w out = (Ok tt, out ++ bs)) /\ (forall rest, d (bs ++ rest) = (Ok a, rest)).

Lemma codecR_ret {A} (a : A) : codecR (sret tt) (sret a) a.
Proof. exists []. split; intros; [|done]. unfold sret. by rewrite app_nil_r. Qed.

Lemma codecR_bind {A B} (w1 w2 : Writer unit) (d1 : Reader A) (k : A -> Reader B) a b :
  codecR w1 d1 a -> codecR w2 (k a) b -> codecR (w1 ;;; w2) (x <- d1 ;; k x) b.
Proof.
  intros (b1 & W1 & R1) (b2 & W2 & R2). exists (b1 ++ b2). split.
  - intros out. by rewrite (sbind_ok _ _ _ _ _ (W1 out)), W2, app_assoc.
  - intros rest. by rewrite <- app_assoc, (sbind_ok _ _ _ _ _ (R1 _)).
Qed.

Lemma codecR_last {A B} (w : Writer unit) (d : Reader A) (f : A -> B) a : codecR w d a -> codecR w (x <- d ;; sret (f x)) (f a).
Proof. intros (bs & W & R). exists bs. split; [done|]. intros rest. by rewrite (sbind_ok _ _ _ _ _ (R rest)). Qed.

(** A reader that goes on without reading after the last member. *)
Lemma codecR_then {A B} w (d : Reader A) (k : A -> Reader B) a b :
  codecR w d a -> (forall src, k a src = (Ok b, src)) -> codecR w (x <- d ;; k x) b.
Proof. intros (bs & W & R) Hk. exists bs. split; [done|]. intros rest. by rewrite (sbind_ok _ _ _ _ _ (R rest)). Qed.

(** The writer may group its calls in another way. *)
Lemma codecR_assoc {A} (w1 w2 w3 : Writer unit) (d : Reader A) a : codecR (w1 ;;; w2 ;;; w3) d a -> codecR ((w1 ;;; w2) ;;; w3) d a.
Proof.
  intros (bs & W & R). exists bs. split; [|done]. intros out. rewrite <- (W out). unfold sbind.
  by destruct (w1 out) as [[[]|e] out'].
Qed.

Lemma codecR_ext {A} w (d d' : Reader A) a : (forall src, d src = d' src) -> codecR w d' a -> codecR w d a.
Proof. intros Hd (bs & W & R). exists bs. split; [done|]. intros rest. by rewrite Hd. Qed.

(** Split a goal [codecR] at the members of the object; what is left are the members. *)
Ltac codec_members :=
  unfold codec;
  repeat (first [ apply codecR_ret | apply codecR_assoc | eapply codecR_bind | eapply codecR_last ]).

(** A reader whose recursion is bounded reads back what was written, if the bound is large enough. *)
Definition readable {A} (ser : A -> Writer unit) (deser : nat -> Reader A) (a : A) : Prop :=
  exists n, forall fuel, (n <= fuel)%nat -> codec ser (deser fuel) a.

Lemma readable_Forall {A} (ser : A -> Writer unit) deser l :
  Forall (readable ser deser) l -> exists n, forall fuel, (n <= fuel)%nat -> Forall (codec ser (deser fuel)) l.
Proof.
  induction 1 as [|a l (n & Hn) _ (m & Hm)]; [exists 0%nat; by constructor|].
  exists (Nat.max n m). intros fuel Hf. constructor; [apply Hn|apply Hm]; lia.
Qed.

(** The elements of an array may come back changed by [f]. *)
Lemma codecR_Array {A B} (ser : A -> Writer unit) (deser : Reader B) (f : A -> B) l :
  Forall (fun a => codecR (ser a) deser (f a)) l ->
  codecR (serializeArray ser l) (deserializeArray deser (length l)) (map f l).
Proof.
  induction 1 as [|a l Ha _ IH]; cbn [serializeArray deserializeArray length map]; [apply codecR_ret|].
  eapply codecR_bind; [exact Ha|]. by apply (codecR_last _ _ (fun l => f a :: l)).
Qed.
