(* ===== verification/VectorVersion.v ===== *)
(** * Row versions of one vector (src/include/storage/store/version_info.h,
      src/storage/store/version_info.cpp, struct [VectorVersionInfo])

    For each of the [DEFAULT_VECTOR_CAPACITY] rows of a vector, which transaction
    inserted it and which deleted it: an uncommitted writer's ID, or the commit
    timestamp once it has committed.  A vector whose rows all have the same
    insertion (or deletion) version keeps one version instead of an array. *)

From S2P Require Import Prelude Transaction SelectionVector Serializer.
From stdpp Require Import base list strings numbers.
Local Open Scope Z_scope.

Inductive InsertionStatus : Type := NO_INSERTED | CHECK_INSERTED | ALWAYS_INSERTED.
Inductive DeletionStatus : Type := NO_DELETED | CHECK_DELETED.

#[global] Instance InsertionStatus_eq_dec : EqDecision InsertionStatus.
Proof. solve_decision. Defined.
#[global] Instance DeletionStatus_eq_dec : EqDecision DeletionStatus.
Proof. solve_decision. Defined.

(** The arrays are owned pointers: [None] is the null pointer. *)
Record VectorVersionInfo : Type := mkVVI {
  insertedVersions : option (list transaction_t);
  deletedVersions : option (list transaction_t);
  sameInsertionVersion : transaction_t;
  sameDeletionVersion : transaction_t;
  insertionStatus : InsertionStatus;
  deletionStatus : DeletionStatus;
}.

Definition newVectorVersionInfo : VectorVersionInfo :=
  mkVVI None None INVALID_TRANSACTION INVALID_TRANSACTION NO_INSERTED NO_DELETED.

(** Field assignments. *)
Definition setInsertedVersions l (v : VectorVersionInfo) :=
  mkVVI l (deletedVersions v) (sameInsertionVersion v) (sameDeletionVersion v)
    (insertionStatus v) (deletionStatus v).
Definition setDeletedVersions l (v : VectorVersionInfo) :=
  mkVVI (insertedVersions v) l (sameInsertionVersion v) (sameDeletionVersion v)
    (insertionStatus v) (deletionStatus v).
Definition setSameInsertion t (v : VectorVersionInfo) :=
  mkVVI (insertedVersions v) (deletedVersions v) t (sameDeletionVersion v)
    (insertionStatus v) (deletionStatus v).
Definition setSameDeletion t (v : VectorVersionInfo) :=
  mkVVI (insertedVersions v) (deletedVersions v) (sameInsertionVersion v) t
    (insertionStatus v) (deletionStatus v).
Definition setInsertionStatus st (v : VectorVersionInfo) :=
  mkVVI (insertedVersions v) (deletedVersions v) (sameInsertionVersion v)
    (sameDeletionVersion v) st (deletionStatus v).
Definition setDeletionStatus st (v : VectorVersionInfo) :=
  mkVVI (insertedVersions v) (deletedVersions v) (sameInsertionVersion v)
    (sameDeletionVersion v) (insertionStatus v) st.

Definition emptyVersions : list transaction_t :=
  replicate DEFAULT_VECTOR_CAPACITY INVALID_TRANSACTION.
Definition initInsertionVersionArray : M VectorVersionInfo unit :=
  smodify (setInsertedVersions (Some emptyVersions)).
Definition initDeletionVersionArray : M VectorVersionInfo unit :=
  smodify (setDeletedVersions (Some emptyVersions)).
Definition isSameInsertionVersion (v : VectorVersionInfo) : bool :=
  negb (sameInsertionVersion v =? INVALID_TRANSACTION).
Definition isSameDeletionVersion (v : VectorVersionInfo) : bool :=
  negb (sameDeletionVersion v =? INVALID_TRANSACTION).

(** [insertedVersions->operator[](i) = t] and [deletedVersions->...]. *)
Definition writeInserted (i : nat) (t : transaction_t) : M VectorVersionInfo unit :=
  v <- sget ;;
  match insertedVersions v with
  | None => sthrow UndefinedBehaviour
  | Some l => l' <- arr_set l i t ;; sput (setInsertedVersions (Some l') v)
  end.
Definition writeDeleted (i : nat) (t : transaction_t) : M VectorVersionInfo unit :=
  v <- sget ;;
  match deletedVersions v with
  | None => sthrow UndefinedBehaviour
  | Some l => l' <- arr_set l i t ;; sput (setDeletedVersions (Some l') v)
  end.
Definition readInserted (i : nat) : M VectorVersionInfo transaction_t :=
  v <- sget ;;
  match insertedVersions v with None => sthrow UndefinedBehaviour | Some l => arr_get l i end.
Definition readDeleted (i : nat) : M VectorVersionInfo transaction_t :=
  v <- sget ;;
  match deletedVersions v with None => sthrow UndefinedBehaviour | Some l => arr_get l i end.

(** [VectorVersionInfo::append]. *)
Definition append (transactionID : transaction_t) (startRow numRows : nat)
    : M VectorVersionInfo unit :=
  smodify (setInsertionStatus CHECK_INSERTED) ;;;
  v <- sget ;;
  if transactionID =? sameInsertionVersion v then sret tt
  else if negb (isSameInsertionVersion v) && bool_decide (insertedVersions v = None) then
    smodify (setSameInsertion transactionID)
  else
    (if bool_decide (insertedVersions v = None) then
       initInsertionVersionArray ;;;
       sfor 0 startRow (fun i =>
         w <- sget ;; writeInserted i (sameInsertionVersion w)) ;;;
       smodify (setSameInsertion INVALID_TRANSACTION)
     else sret tt) ;;;
    sfor startRow numRows (fun i =>
      old <- readInserted i ;;
      kuAssert (old =? INVALID_TRANSACTION) ;;;
      writeInserted i transactionID).

Definition wwConflict : exn := RuntimeException
  "Write-write conflict: deleting a row that is already deleted by another transaction.".

(** [VectorVersionInfo::delete_]: whether the row is newly deleted. *)
Definition delete_ (transactionID : transaction_t) (rowIdx : nat) : M VectorVersionInfo bool :=
  smodify (setDeletionStatus CHECK_DELETED) ;;;
  v <- sget ;;
  if transactionID =? sameDeletionVersion v then sret false
  else if isSameDeletionVersion v then sthrow wwConflict
  else
    (if bool_decide (deletedVersions v = None) then initDeletionVersionArray else sret tt) ;;;
    d <- readDeleted rowIdx ;;
    if d =? transactionID then sret false
    else if negb (d =? INVALID_TRANSACTION) then sthrow wwConflict
    else writeDeleted rowIdx transactionID ;;; sret true.

(** [VectorVersionInfo::setInsertCommitTS]. *)
Definition setInsertCommitTS (commitTS : transaction_t) (startRow numRows : nat)
    : M VectorVersionInfo unit :=
  v <- sget ;;
  if isSameInsertionVersion v then smodify (setSameInsertion commitTS)
  else
    kuAssert (bool_decide (insertedVersions v <> None)) ;;;
    sfor startRow numRows (fun rowIdx => writeInserted rowIdx commitTS).

(** [VectorVersionInfo::setDeleteCommitTS]. *)
Definition setDeleteCommitTS (commitTS : transaction_t) (startRow numRows : nat)
    : M VectorVersionInfo unit :=
  v <- sget ;;
  if isSameDeletionVersion v then smodify (setSameDeletion commitTS)
  else
    kuAssert (bool_decide (deletedVersions v <> None)) ;;;
    sfor startRow numRows (fun rowIdx => writeDeleted rowIdx commitTS).

(** [array[rowIdx]] behind a [KU_ASSERT] that the array exists. *)
Definition readVersion (arr : option (list transaction_t)) (rowIdx : nat)
    : outcome transaction_t :=
  match arr with
  | None => Err InternalException
  | Some l => match l !! rowIdx with Some t => Ok t | None => Err UndefinedBehaviour end
  end.

(** [VectorVersionInfo::isDeleted]. *)
Definition isDeleted (v : VectorVersionInfo) (startTS transactionID : transaction_t)
    (rowIdx : nat) : outcome bool :=
  match deletionStatus v with
  | NO_DELETED => Ok false
  | CHECK_DELETED =>
      let* deletion := (if isSameDeletionVersion v then Ok (sameDeletionVersion v)
                        else readVersion (deletedVersions v) rowIdx) in
      Ok ((deletion =? transactionID) || (deletion <=? startTS))
  end.

(** [VectorVersionInfo::isInserted]. *)
Definition isInserted (v : VectorVersionInfo) (startTS transactionID : transaction_t)
    (rowIdx : nat) : outcome bool :=
  match insertionStatus v with
  | ALWAYS_INSERTED => Ok true
  | NO_INSERTED => Ok false
  | CHECK_INSERTED =>
      let* insertion := (if isSameInsertionVersion v then Ok (sameInsertionVersion v)
                         else readVersion (insertedVersions v) rowIdx) in
      Ok ((insertion =? transactionID) || (insertion <=? startTS))
  end.

(** [isInserted(...) && !isDeleted(...)], short-circuiting. *)
Definition isVisible (v : VectorVersionInfo) (ts id : transaction_t) (rowIdx : nat)
    : outcome bool :=
  let* ins := isInserted v ts id rowIdx in
  if ins : bool then let* del := isDeleted v ts id rowIdx in Ok (negb del) else Ok false.

(** [VectorVersionInfo::getSelVectorForScan]. *)
Definition getSelVectorForScan (v : VectorVersionInfo) (ts id : transaction_t)
    (startRow numRows startOutputPos : nat) : M SelectionVector unit :=
  sel <- sget ;;
  let numSelected := selectedSize sel in
  if bool_decide (deletionStatus v = NO_DELETED) &&
     bool_decide (insertionStatus v = ALWAYS_INSERTED) then
    if isUnfiltered sel then setSelSize (selectedSize sel + numRows)
    else
      n <- appendPositions (fun _ => Ok true) 0 numRows numSelected startOutputPos ;;
      setToFiltered n
  else if negb (bool_decide (insertionStatus v = NO_INSERTED)) then
    n <- appendPositions (fun i => isVisible v ts id (startRow + i)) 0 numRows
           numSelected startOutputPos ;;
    setToFiltered n
  else sret tt.

(** [VectorVersionInfo::getNumDeletions]. *)
Fixpoint countDeletions (v : VectorVersionInfo) (ts id : transaction_t) (row n : nat)
    : outcome nat :=
  match n with
  | O => Ok 0%nat
  | S n' =>
      let* d := isDeleted v ts id row in
      let* rest := countDeletions v ts id (S row) n' in
      Ok (Nat.b2n d + rest)%nat
  end.
Definition getNumDeletions (v : VectorVersionInfo) (ts id : transaction_t)
    (startRow numRows : nat) : outcome nat :=
  match deletionStatus v with
  | NO_DELETED => Ok 0%nat
  | CHECK_DELETED => countDeletions v ts id startRow numRows
  end.

(** [VectorVersionInfo::hasDeletions(transaction)]; the size of the array is its
    static size, also when the pointer is null. *)
Definition hasDeletions (v : VectorVersionInfo) (ts id : transaction_t) : outcome bool :=
  if isSameDeletionVersion v then
    Ok ((sameDeletionVersion v <=? ts) || (sameDeletionVersion v =? id))
  else
    let* n := countDeletions v ts id 0 DEFAULT_VECTOR_CAPACITY in
    Ok (bool_decide (0 < n)%nat).

Definition hasAnyVersion (l : list transaction_t) : bool :=
  existsb (fun t => negb (t =? INVALID_TRANSACTION)) l.

(** [VectorVersionInfo::rollbackInsertions]. *)
Definition rollbackInsertions (startRowInVector numRows : nat) : M VectorVersionInfo unit :=
  v <- sget ;;
  (if isSameInsertionVersion v then smodify (setSameInsertion INVALID_TRANSACTION)
   else if bool_decide (insertedVersions v <> None) then
     sfor startRowInVector numRows (fun row => writeInserted row INVALID_TRANSACTION) ;;;
     w <- sget ;;
     match insertedVersions w with
     | Some l => if hasAnyVersion l then sret tt else smodify (setInsertedVersions None)
     | None => sthrow UndefinedBehaviour
     end
   else sret tt) ;;;
  w <- sget ;;
  if bool_decide (insertedVersions w = None) then
    smodify (setInsertionStatus NO_INSERTED) ;;;
    smodify (setDeletionStatus NO_DELETED)
  else sret tt.

(** [VectorVersionInfo::rollbackDeletions]. *)
Definition rollbackDeletions (startRowInVector numRows : nat) : M VectorVersionInfo unit :=
  v <- sget ;;
  (if isSameDeletionVersion v then smodify (setSameDeletion INVALID_TRANSACTION)
   else if bool_decide (deletedVersions v <> None) then
     sfor startRowInVector numRows (fun row => writeDeleted row INVALID_TRANSACTION) ;;;
     w <- sget ;;
     match deletedVersions w with
     | Some l => if hasAnyVersion l then sret tt else smodify (setDeletedVersions None)
     | None => sthrow UndefinedBehaviour
     end
   else sret tt) ;;;
  w <- sget ;;
  if bool_decide (deletedVersions w = None) then smodify (setDeletionStatus NO_DELETED)
  else sret tt.

(** ** Serialization *)

Definition insertionStatusCode (s : InsertionStatus) : Z :=
  match s with NO_INSERTED => 0 | CHECK_INSERTED => 1 | ALWAYS_INSERTED => 2 end.
Definition deletionStatusCode (s : DeletionStatus) : Z :=
  match s with NO_DELETED => 0 | CHECK_DELETED => 1 end.
Definition insertionStatusOf (z : Z) : option InsertionStatus :=
  if z =? 0 then Some NO_INSERTED else if z =? 1 then Some CHECK_INSERTED
  else if z =? 2 then Some ALWAYS_INSERTED else None.
Definition deletionStatusOf (z : Z) : option DeletionStatus :=
  if z =? 0 then Some NO_DELETED else if z =? 1 then Some CHECK_DELETED else None.

(** The assertion that every deletion has been committed. *)
Definition committedOrInvalid (t : transaction_t) : bool :=
  (t =? INVALID_TRANSACTION) || (t <? START_TRANSACTION_ID).
Definition allCommitted (arr : option (list transaction_t)) : bool :=
  match arr with None => true | Some l => forallb committedOrInvalid l end.

(** [VectorVersionInfo::serialize]. *)
Definition serialize (v : VectorVersionInfo) : Writer unit :=
  kuAssert (allCommitted (deletedVersions v)) ;;;
  kuAssert (negb (bool_decide (insertionStatus v = CHECK_INSERTED))) ;;;
  serializeU 1 (insertionStatusCode (insertionStatus v)) ;;;
  serializeU 1 (deletionStatusCode (deletionStatus v)) ;;;
  match deletionStatus v with
  | NO_DELETED => sret tt
  | CHECK_DELETED =>
      serializeU 8 (sameDeletionVersion v) ;;;
      if sameDeletionVersion v =? INVALID_TRANSACTION then
        match deletedVersions v with
        | None => sthrow InternalException
        | Some l => serializeArray (serializeU 8) l
        end
      else sret tt
  end.

(** [VectorVersionInfo::deSerialize]. *)
Definition deSerialize : Reader VectorVersionInfo :=
  i <- deserializeU 1 ;;
  match insertionStatusOf i with
  | None | Some CHECK_INSERTED => sthrow InternalException
  | Some ist =>
      d <- deserializeU 1 ;;
      match deletionStatusOf d with
      | None => sthrow InternalException
      | Some NO_DELETED =>
          sret (mkVVI None None INVALID_TRANSACTION INVALID_TRANSACTION ist NO_DELETED)
      | Some CHECK_DELETED =>
          same <- deserializeU 8 ;;
          arr <- (if same =? INVALID_TRANSACTION
                  then l <- deserializeArray (deserializeU 8) DEFAULT_VECTOR_CAPACITY ;;
                       sret (Some l)
                  else sret None) ;;
          kuAssert (allCommitted arr) ;;;
          sret (mkVVI None arr INVALID_TRANSACTION same ist CHECK_DELETED)
      end
  end.

(** ** The versions of a row *)

(** The insertion version of a row: 0, older than every transaction, for rows that
    are always inserted, and [INVALID_TRANSACTION], seen by nobody, for none. *)
Definition insVersion (v : VectorVersionInfo) (row : nat) : transaction_t :=
  match insertionStatus v with
  | ALWAYS_INSERTED => 0
  | NO_INSERTED => INVALID_TRANSACTION
  | CHECK_INSERTED =>
      if isSameInsertionVersion v then sameInsertionVersion v
      else match insertedVersions v with
           | Some l => default INVALID_TRANSACTION (l !! row)
           | None => INVALID_TRANSACTION
           end
  end.

(** The deletion version that is stored, and the one the status lets through. *)
Definition rawDelVersion (v : VectorVersionInfo) (row : nat) : transaction_t :=
  if isSameDeletionVersion v then sameDeletionVersion v
  else match deletedVersions v with
       | Some l => default INVALID_TRANSACTION (l !! row)
       | None => INVALID_TRANSACTION
       end.
Definition delVersion (v : VectorVersionInfo) (row : nat) : transaction_t :=
  match deletionStatus v with
  | NO_DELETED => INVALID_TRANSACTION
  | CHECK_DELETED => rawDelVersion v row
  end.

(** Which representations the operations build. *)
Record wf_vec (v : VectorVersionInfo) : Prop := {
  wf_ins_arr : forall l, insertedVersions v = Some l ->
    length l = DEFAULT_VECTOR_CAPACITY /\ sameInsertionVersion v = INVALID_TRANSACTION /\
    insertionStatus v = CHECK_INSERTED;
  wf_ins_same : sameInsertionVersion v <> INVALID_TRANSACTION ->
    insertionStatus v = CHECK_INSERTED;
  wf_ins_check : insertionStatus v = CHECK_INSERTED ->
    insertedVersions v = None -> sameInsertionVersion v <> INVALID_TRANSACTION;
  wf_del_arr : forall l, deletedVersions v = Some l ->
    length l = DEFAULT_VECTOR_CAPACITY /\ sameDeletionVersion v = INVALID_TRANSACTION;
  wf_del_check : deletionStatus v = CHECK_DELETED ->
    deletedVersions v = None -> sameDeletionVersion v <> INVALID_TRANSACTION;
}.

Lemma wf_newVectorVersionInfo : wf_vec newVectorVersionInfo.
Proof. split; done. Qed.
#[export] Hint Resolve wf_newVectorVersionInfo : kuzu.

Lemma isSameInsertion_spec v :
  isSameInsertionVersion v = bool_decide (sameInsertionVersion v <> INVALID_TRANSACTION).
Proof.
  unfold isSameInsertionVersion. destruct (Z.eqb_spec (sameInsertionVersion v) INVALID_TRANSACTION).
  - rewrite bool_decide_eq_false_2; [done|]. by intros [].
  - by rewrite bool_decide_eq_true_2.
Qed.

Lemma isSameDeletion_spec v :
  isSameDeletionVersion v = bool_decide (sameDeletionVersion v <> INVALID_TRANSACTION).
Proof.
  unfold isSameDeletionVersion. destruct (Z.eqb_spec (sameDeletionVersion v) INVALID_TRANSACTION).
  - rewrite bool_decide_eq_false_2; [done|]. by intros [].
  - by rewrite bool_decide_eq_true_2.
Qed.

(** ** Visibility of a row to a transaction *)

Lemma isInserted_visible v ts id row :
  wf_vec v -> wf_ids ts id -> (row < DEFAULT_VECTOR_CAPACITY)%nat ->
  isInserted v ts id row = Ok (visible ts id (insVersion v row)).
Proof.
  intros Hwf Hids Hrow. unfold isInserted, insVersion.
  destruct (insertionStatus v) eqn:Hs.
  - by rewrite invalid_not_visible.
  - destruct (isSameInsertionVersion v) eqn:Hsame; [done|].
    unfold readVersion. destruct (insertedVersions v) as [l|] eqn:Hl.
    + destruct (wf_ins_arr _ Hwf _ Hl) as (Hlen & _).
      destruct (lookup_lt_is_Some_2 l row) as [t Ht]; [lia|]. by rewrite Ht.
    + rewrite isSameInsertion_spec in Hsame. apply bool_decide_eq_false in Hsame.
      destruct Hsame. by apply (wf_ins_check _ Hwf).
  - by rewrite zero_visible.
Qed.

Lemma isDeleted_visible v ts id row :
  wf_vec v -> wf_ids ts id -> (row < DEFAULT_VECTOR_CAPACITY)%nat ->
  isDeleted v ts id row = Ok (visible ts id (delVersion v row)).
Proof.
  intros Hwf Hids Hrow. unfold isDeleted, delVersion, rawDelVersion.
  destruct (deletionStatus v) eqn:Hs.
  - by rewrite invalid_not_visible.
  - destruct (isSameDeletionVersion v) eqn:Hsame; [done|].
    unfold readVersion. destruct (deletedVersions v) as [l|] eqn:Hl.
    + destruct (wf_del_arr _ Hwf _ Hl) as (Hlen & _).
      destruct (lookup_lt_is_Some_2 l row) as [t Ht]; [lia|]. by rewrite Ht.
    + rewrite isSameDeletion_spec in Hsame. apply bool_decide_eq_false in Hsame.
      destruct Hsame. by apply (wf_del_check _ Hwf).
Qed.

(** What a transaction sees of a row: inserted for it and not deleted for it. *)
Definition rowVisible (v : VectorVersionInfo) (ts id : transaction_t) (row : nat) : bool :=
  visible ts id (insVersion v row) && negb (visible ts id (delVersion v row)).

Lemma isVisible_spec v ts id row :
  wf_vec v -> wf_ids ts id -> (row < DEFAULT_VECTOR_CAPACITY)%nat ->
  isVisible v ts id row = Ok (rowVisible v ts id row).
Proof.
  intros Hwf Hids Hrow. unfold isVisible, rowVisible.
  rewrite isInserted_visible by done. simpl.
  destruct (visible ts id (insVersion v row)); [|done].
  by rewrite isDeleted_visible by done.
Qed.

(** ** Writing ranges *)

Lemma sfor_writeInserted v l start n t :
  insertedVersions v = Some l -> (start + n <= length l)%nat ->
  sfor start n (fun i => writeInserted i t) v =
    (Ok tt, setInsertedVersions (Some (assign_range l start n t)) v).
Proof.
  revert v l start. induction n as [|n IH]; intros v l start Hl Hn; cbn [sfor assign_range].
  - unfold sret, setInsertedVersions. by rewrite <- Hl; destruct v.
  - erewrite sbind_ok.
    2:{ unfold writeInserted, arr_set. srun. rewrite Hl, decide_True by lia. reflexivity. }
    rewrite (IH _ (<[start:=t]> l)); [done|done|rewrite length_insert; lia].
Qed.

Lemma sfor_writeDeleted v l start n t :
  deletedVersions v = Some l -> (start + n <= length l)%nat ->
  sfor start n (fun i => writeDeleted i t) v =
    (Ok tt, setDeletedVersions (Some (assign_range l start n t)) v).
Proof.
  revert v l start. induction n as [|n IH]; intros v l start Hl Hn; cbn [sfor assign_range].
  - unfold sret, setDeletedVersions. by rewrite <- Hl; destruct v.
  - erewrite sbind_ok.
    2:{ unfold writeDeleted, arr_set. srun. rewrite Hl, decide_True by lia. reflexivity. }
    rewrite (IH _ (<[start:=t]> l)); [done|done|rewrite length_insert; lia].
Qed.

(** The back-fill of [append] reads the same version in every iteration. *)
Lemma sfor_backfill v l start n :
  insertedVersions v = Some l -> (start + n <= length l)%nat ->
  sfor start n (fun i => w <- sget ;; writeInserted i (sameInsertionVersion w)) v =
    (Ok tt, setInsertedVersions (Some (assign_range l start n (sameInsertionVersion v))) v).
Proof.
  revert v l start. induction n as [|n IH]; intros v l start Hl Hn; cbn [sfor assign_range].
  - unfold sret, setInsertedVersions. by rewrite <- Hl; destruct v.
  - erewrite sbind_ok.
    2:{ unfold writeInserted, arr_set. srun. rewrite Hl, decide_True by lia. reflexivity. }
    rewrite (IH _ (<[start:=sameInsertionVersion v]> l));
      [done|done|rewrite length_insert; lia].
Qed.

Lemma sfor_appendRows v l start n t :
  insertedVersions v = Some l -> (start + n <= length l)%nat ->
  (forall i, (start <= i < start + n)%nat -> l !! i = Some INVALID_TRANSACTION) ->
  sfor start n (fun i =>
      old <- readInserted i ;; kuAssert (old =? INVALID_TRANSACTION) ;;; writeInserted i t) v =
    (Ok tt, setInsertedVersions (Some (assign_range l start n t)) v).
Proof.
  revert v l start. induction n as [|n IH]; intros v l start Hl Hn Hinv; cbn [sfor assign_range].
  - unfold sret, setInsertedVersions. by rewrite <- Hl; destruct v.
  - erewrite sbind_ok.
    2:{ unfold writeInserted, readInserted, arr_set, arr_get. srun. rewrite Hl, (Hinv start) by lia.
        srun. rewrite Z.eqb_refl. srun. rewrite Hl, decide_True by lia. reflexivity. }
    rewrite (IH _ (<[start:=t]> l)); [done|done|rewrite length_insert; lia|].
    intros i Hi. rewrite list_lookup_insert_ne by lia. apply Hinv. lia.
Qed.

(** ** What each operation does to the versions of the rows *)

Lemma emptyVersions_lookup i :
  (i < DEFAULT_VECTOR_CAPACITY)%nat -> emptyVersions !! i = Some INVALID_TRANSACTION.
Proof. intros H. by apply lookup_replicate_2. Qed.

Lemma length_emptyVersions : length emptyVersions = DEFAULT_VECTOR_CAPACITY.
Proof. apply length_replicate. Qed.

Lemma default_assign_range (l : list transaction_t) start n t row :
  (start + n <= length l)%nat ->
  default INVALID_TRANSACTION (assign_range l start n t !! row) =
    if decide (start <= row < start + n)%nat then t
    else default INVALID_TRANSACTION (l !! row).
Proof. intros H. rewrite lookup_assign_range by done. by case_decide. Qed.

(** The array representation after a write. *)
Lemma wf_vec_set_inserted v l l' :
  wf_vec v -> insertedVersions v = Some l -> length l' = length l ->
  wf_vec (setInsertedVersions (Some l') v).
Proof.
  intros Hwf Hl Hlen. destruct (wf_ins_arr _ Hwf _ Hl) as (? & ? & ?).
  destruct Hwf. split; simpl; try done. intros ? [= <-]. by rewrite Hlen.
Qed.

Lemma wf_vec_set_deleted v l l' :
  wf_vec v -> deletedVersions v = Some l -> length l' = length l ->
  wf_vec (setDeletedVersions (Some l') v).
Proof.
  intros Hwf Hl Hlen. destruct (wf_del_arr _ Hwf _ Hl) as (? & ?).
  destruct Hwf. split; simpl; try done. intros ? [= <-]. by rewrite Hlen.
Qed.

Lemma insVersion_arr v l row :
  wf_vec v -> insertedVersions v = Some l ->
  insVersion v row = default INVALID_TRANSACTION (l !! row).
Proof.
  intros Hwf Hl. destruct (wf_ins_arr _ Hwf _ Hl) as (_ & Hs & Hst).
  unfold insVersion. rewrite Hst, isSameInsertion_spec, Hs, bool_decide_eq_false_2, Hl; [done|by intros []].
Qed.

Lemma insVersion_same v row :
  wf_vec v -> sameInsertionVersion v <> INVALID_TRANSACTION ->
  insVersion v row = sameInsertionVersion v.
Proof.
  intros Hwf Hs. unfold insVersion.
  by rewrite (wf_ins_same _ Hwf Hs), isSameInsertion_spec, bool_decide_eq_true_2.
Qed.

Lemma rawDelVersion_arr v l row :
  wf_vec v -> deletedVersions v = Some l ->
  rawDelVersion v row = default INVALID_TRANSACTION (l !! row).
Proof.
  intros Hwf Hl. destruct (wf_del_arr _ Hwf _ Hl) as (_ & Hs).
  unfold rawDelVersion. rewrite isSameDeletion_spec, Hs, bool_decide_eq_false_2, Hl; [done|by intros []].
Qed.

Lemma rawDelVersion_same v row :
  sameDeletionVersion v <> INVALID_TRANSACTION -> rawDelVersion v row = sameDeletionVersion v.
Proof. intros Hs. unfold rawDelVersion. by rewrite isSameDeletion_spec, bool_decide_eq_true_2. Qed.

(** [append] on a vector without insertions: the whole vector gets the version. *)
Lemma append_fresh v tid start n :
  wf_vec v -> insertedVersions v = None -> sameInsertionVersion v = INVALID_TRANSACTION ->
  tid <> INVALID_TRANSACTION ->
  append tid start n v =
    (Ok tt, setSameInsertion tid (setInsertionStatus CHECK_INSERTED v)).
Proof.
  intros Hwf Hn Hs Ht. unfold append. srun. cbn [setInsertionStatus sameInsertionVersion].
  rewrite Hs. destruct (Z.eqb_spec tid INVALID_TRANSACTION); [done|].
  rewrite isSameInsertion_spec. cbn [setInsertionStatus sameInsertionVersion insertedVersions].
  rewrite Hs, Hn, bool_decide_eq_false_2, bool_decide_eq_true_2; [done|done|by intros []].
Qed.

(** [append] again by the transaction whose version the vector has. *)
Lemma append_same v tid start n :
  wf_vec v -> sameInsertionVersion v = tid -> tid <> INVALID_TRANSACTION ->
  append tid start n v = (Ok tt, v).
Proof.
  intros Hwf Hs Ht. unfold append. srun. cbn [setInsertionStatus sameInsertionVersion].
  rewrite Hs, Z.eqb_refl. unfold setInsertionStatus.
  rewrite <- (wf_ins_same _ Hwf) by congruence. by destruct v.
Qed.

(** [append] on an array: the rows of the range are written. *)
Lemma append_array v l tid start n :
  wf_vec v -> insertedVersions v = Some l -> tid <> INVALID_TRANSACTION ->
  (start + n <= DEFAULT_VECTOR_CAPACITY)%nat ->
  (forall r, (start <= r < start + n)%nat -> insVersion v r = INVALID_TRANSACTION) ->
  append tid start n v =
    (Ok tt, setInsertedVersions (Some (assign_range l start n tid)) v).
Proof.
  intros Hwf Hl Ht Hn Hinv. destruct (wf_ins_arr _ Hwf _ Hl) as (Hlen & Hs & Hst).
  unfold append. rewrite (sbind_ok _ _ _ tt v).
  2:{ unfold smodify, setInsertionStatus. rewrite <- Hst. by destruct v. }
  srun. rewrite Hs. destruct (Z.eqb_spec tid INVALID_TRANSACTION); [done|].
  rewrite Hl, andb_false_r, bool_decide_eq_false_2 by done.
  apply (sfor_appendRows v l); [done|lia|].
  intros i Hi. specialize (Hinv i Hi). rewrite (insVersion_arr _ _ _ Hwf Hl) in Hinv.
  destruct (lookup_lt_is_Some_2 l i) as [t Hti]; [lia|]. rewrite Hti in *. by f_equal.
Qed.

(** [append] by another transaction: the array is built, the rows before the range
    keep the version the vector had. *)
Lemma append_split v tid start n :
  wf_vec v -> sameInsertionVersion v <> INVALID_TRANSACTION -> sameInsertionVersion v <> tid ->
  (start + n <= DEFAULT_VECTOR_CAPACITY)%nat ->
  append tid start n v =
    (Ok tt, setSameInsertion INVALID_TRANSACTION (setInsertedVersions
       (Some (assign_range (assign_range emptyVersions 0 start (sameInsertionVersion v))
                start n tid)) v)).
Proof.
  intros Hwf Hs Hne Hn.
  assert (Hnone : insertedVersions v = None).
  { destruct (insertedVersions v) as [l|] eqn:Hl; [|done].
    by destruct (wf_ins_arr _ Hwf _ Hl) as (_ & ? & _). }
  unfold append. rewrite (sbind_ok _ _ _ tt v).
  2:{ unfold smodify, setInsertionStatus. rewrite <- (wf_ins_same _ Hwf Hs). by destruct v. }
  unfold sbind at 1, sget at 1. cbn iota beta.
  destruct (Z.eqb_spec tid (sameInsertionVersion v)); [congruence|].
  rewrite Hnone, (bool_decide_eq_true_2 (None = None)), isSameInsertion_spec,
    bool_decide_eq_true_2 by done. cbn [negb andb].
  set (v1 := setInsertedVersions (Some emptyVersions) v).
  rewrite (sbind_ok _ _ _ tt (setSameInsertion INVALID_TRANSACTION (setInsertedVersions
       (Some (assign_range emptyVersions 0 start (sameInsertionVersion v))) v))).
  2:{ unfold initInsertionVersionArray. unfold sbind at 1, smodify at 1. fold v1. cbn iota beta.
      rewrite (sbind_ok _ _ _ _ _ (sfor_backfill v1 emptyVersions 0 start eq_refl
        ltac:(rewrite length_emptyVersions; lia))). done. }
  rewrite (sfor_appendRows _ (assign_range emptyVersions 0 start (sameInsertionVersion v)));
    [done|done|rewrite length_assign_range, length_emptyVersions; lia|].
  intros i Hi. rewrite lookup_assign_range by (rewrite length_emptyVersions; lia).
  rewrite decide_False by lia. apply emptyVersions_lookup. lia.
Qed.

(** Together: the rows of the range get the transaction's version and the rows
    before it keep theirs. *)
Lemma append_spec v tid start n :
  wf_vec v -> tid <> INVALID_TRANSACTION -> (start + n <= DEFAULT_VECTOR_CAPACITY)%nat ->
  insertionStatus v <> ALWAYS_INSERTED ->
  (insertionStatus v = NO_INSERTED -> start = 0%nat) ->
  (forall r, (start <= r < start + n)%nat ->
     insVersion v r = INVALID_TRANSACTION \/ isSameInsertionVersion v = true) ->
  exists v', append tid start n v = (Ok tt, v') /\ wf_vec v' /\
    insertionStatus v' = CHECK_INSERTED /\
    (forall r, (r < start + n)%nat ->
       insVersion v' r = if decide (start <= r)%nat then tid else insVersion v r) /\
    (forall r, delVersion v' r = delVersion v r).
Proof.
  intros Hwf Ht Hn Hst H0 Hinv.
  destruct (insertedVersions v) as [l|] eqn:Hl.
  - destruct (wf_ins_arr _ Hwf _ Hl) as (Hlen & Hs & Hstc).
    eexists. split; [apply (append_array v l); try done|].
    { intros r Hr. destruct (Hinv r Hr) as [?|Hb]; [done|].
      rewrite isSameInsertion_spec, Hs in Hb. by apply bool_decide_eq_true in Hb as []. }
    assert (Hwf' : wf_vec (setInsertedVersions (Some (assign_range l start n tid)) v))
      by (eapply wf_vec_set_inserted; eauto using length_assign_range).
    split_and!; [done|done| |done].
    intros r Hr. rewrite (insVersion_arr _ _ _ Hwf' eq_refl), (insVersion_arr _ _ _ Hwf Hl).
    rewrite default_assign_range by lia.
    destruct (decide (start <= r)%nat); [rewrite decide_True by lia|rewrite decide_False by lia]; done.
  - destruct (decide (sameInsertionVersion v = INVALID_TRANSACTION)) as [Hs|Hs].
    + assert (start = 0%nat) as ->.
      { apply H0. destruct (insertionStatus v) eqn:E; [done| |done].
        by destruct (wf_ins_check _ Hwf E Hl). }
      eexists. split; [by apply append_fresh|].
      assert (Hwf' : wf_vec (setSameInsertion tid (setInsertionStatus CHECK_INSERTED v))).
      { destruct Hwf. split; simpl; try done. by rewrite Hl. }
      split_and!; [done|done| |done].
      intros r Hr. rewrite insVersion_same by done. by rewrite decide_True by lia.
    + destruct (decide (sameInsertionVersion v = tid)) as [Hst'|Hst'].
      * exists v. split; [by apply append_same|].
        split_and!; [done|by apply wf_ins_same| |done].
        intros r Hr. rewrite insVersion_same by done. rewrite Hst'. by case_decide.
      * eexists. split; [by apply append_split|].
        set (v' := setSameInsertion _ _).
        assert (Hwf' : wf_vec v').
        { pose proof (wf_ins_same _ Hwf Hs). destruct Hwf. split; simpl; try done.
          intros ? [= <-]. by rewrite !length_assign_range, length_emptyVersions. }
        split_and!; [done|by apply (wf_ins_same _ Hwf)| |done].
        intros r Hr. rewrite (insVersion_arr v' _ r Hwf' eq_refl), (insVersion_same v) by done.
        rewrite default_assign_range by (rewrite length_assign_range, length_emptyVersions; lia).
        rewrite default_assign_range by (rewrite length_emptyVersions; lia).
        destruct (decide (start <= r)%nat).
        -- by rewrite decide_True by lia.
        -- rewrite decide_False by lia. by rewrite decide_True by lia.
Qed.

(** [delete_]: new for a row nobody deleted, idempotent for the transaction that
    deleted it, a conflict for any other. *)
Lemma delete_new v tid row :
  wf_vec v -> tid <> INVALID_TRANSACTION -> (row < DEFAULT_VECTOR_CAPACITY)%nat ->
  rawDelVersion v row = INVALID_TRANSACTION ->
  exists v', delete_ tid row v = (Ok true, v') /\ wf_vec v' /\
    deletionStatus v' = CHECK_DELETED /\
    (forall r, delVersion v' r = if decide (r = row) then tid else rawDelVersion v r) /\
    insertionStatus v' = insertionStatus v /\
    (forall r, insVersion v' r = insVersion v r).
Proof.
  intros Hwf Ht Hrow Hraw.
  assert (Hs : sameDeletionVersion v = INVALID_TRANSACTION).
  { destruct (decide (sameDeletionVersion v = INVALID_TRANSACTION)) as [|Hs]; [done|].
    by rewrite rawDelVersion_same in Hraw. }
  set (l := default emptyVersions (deletedVersions v)).
  assert (Hlen : length l = DEFAULT_VECTOR_CAPACITY).
  { subst l. destruct (deletedVersions v) eqn:Hl; simpl; [by apply (wf_del_arr _ Hwf)|].
    apply length_emptyVersions. }
  assert (Hl : forall r, (r < DEFAULT_VECTOR_CAPACITY)%nat -> l !! r = Some (rawDelVersion v r)).
  { intros r Hr. destruct (deletedVersions v) as [k|] eqn:Hk; subst l; simpl in *.
    - rewrite (rawDelVersion_arr _ _ _ Hwf Hk).
      destruct (lookup_lt_is_Some_2 k r) as [x Hx]; [lia|]. by rewrite Hx.
    - rewrite emptyVersions_lookup by done. unfold rawDelVersion.
      rewrite isSameDeletion_spec, Hs, bool_decide_eq_false_2, Hk; [done|by intros []]. }
  set (v' := setDeletedVersions (Some (<[row:=tid]> l)) (setDeletionStatus CHECK_DELETED v)).
  assert (Hwf' : wf_vec v').
  { destruct Hwf. split; simpl; try done. intros ? [= <-]. by rewrite length_insert. }
  exists v'. split.
  - unfold delete_, readDeleted, writeDeleted, initDeletionVersionArray, arr_get, arr_set.
    srun. cbn [setDeletionStatus sameDeletionVersion deletedVersions].
    rewrite Hs. destruct (Z.eqb_spec tid INVALID_TRANSACTION); [done|].
    rewrite isSameDeletion_spec. cbn [setDeletionStatus sameDeletionVersion deletedVersions].
    rewrite Hs, bool_decide_eq_false_2 by (by intros []).
    destruct (deletedVersions v) as [k|] eqn:Hk; subst l; simpl in *; rewrite Hk || idtac;
      rewrite (Hl row Hrow), Hraw;
      destruct (Z.eqb_spec INVALID_TRANSACTION tid); try congruence;
      rewrite Z.eqb_refl; simpl; rewrite ?Hk, decide_True by lia; subst v'; done.
  - split_and!; [done|done| |done|done].
    intros r. unfold delVersion. cbn [v' setDeletedVersions setDeletionStatus deletionStatus].
    rewrite (rawDelVersion_arr v' _ r Hwf' eq_refl). case_decide as Hr; [subst r|].
    + by rewrite list_lookup_insert_eq by lia.
    + rewrite list_lookup_insert_ne by done.
      destruct (decide (r < DEFAULT_VECTOR_CAPACITY)%nat); [by rewrite Hl|].
      rewrite lookup_ge_None_2 by lia. simpl. unfold rawDelVersion.
      rewrite isSameDeletion_spec, Hs, bool_decide_eq_false_2 by (by intros []).
      destruct (deletedVersions v) as [k|] eqn:Hk; [|done].
      destruct (wf_del_arr _ Hwf _ Hk). rewrite lookup_ge_None_2 by lia. done.
Qed.

Lemma delete_again v tid row :
  wf_vec v -> tid <> INVALID_TRANSACTION -> (row < DEFAULT_VECTOR_CAPACITY)%nat ->
  rawDelVersion v row = tid ->
  delete_ tid row v = (Ok false, setDeletionStatus CHECK_DELETED v).
Proof.
  intros Hwf Ht Hrow Hraw. unfold delete_. srun.
  cbn [setDeletionStatus sameDeletionVersion].
  destruct (Z.eqb_spec tid (sameDeletionVersion v)) as [He|Hne]; [done|].
  destruct (deletedVersions v) as [l|] eqn:Hl.
  - destruct (wf_del_arr _ Hwf _ Hl) as (Hlen & Hs).
    rewrite (rawDelVersion_arr _ _ _ Hwf Hl) in Hraw.
    destruct (lookup_lt_is_Some_2 l row) as [x Hx]; [lia|]. rewrite Hx in Hraw. simpl in Hraw. subst x.
    rewrite isSameDeletion_spec. cbn [setDeletionStatus sameDeletionVersion deletedVersions].
    rewrite Hs, bool_decide_eq_false_2, Hl, bool_decide_eq_false_2 by (done || by intros []).
    unfold readDeleted, arr_get. srun. cbn [setDeletionStatus deletedVersions].
    rewrite Hl, Hx, Z.eqb_refl. done.
  - unfold rawDelVersion in Hraw. rewrite Hl in Hraw.
    destruct (isSameDeletionVersion v) eqn:E; [congruence|congruence].
Qed.

Lemma delete_conflict v tid row :
  wf_vec v -> tid <> INVALID_TRANSACTION -> (row < DEFAULT_VECTOR_CAPACITY)%nat ->
  rawDelVersion v row <> INVALID_TRANSACTION -> rawDelVersion v row <> tid ->
  delete_ tid row v = (Err wwConflict, setDeletionStatus CHECK_DELETED v).
Proof.
  intros Hwf Ht Hrow Hraw Hne. unfold delete_. srun.
  cbn [setDeletionStatus sameDeletionVersion].
  destruct (Z.eqb_spec tid (sameDeletionVersion v)) as [He|Hne'].
  { rewrite rawDelVersion_same in Hne; congruence. }
  rewrite isSameDeletion_spec. cbn [setDeletionStatus sameDeletionVersion deletedVersions].
  case_bool_decide as Hs; [done|].
  destruct (deletedVersions v) as [l|] eqn:Hl.
  - rewrite bool_decide_eq_false_2 by done.
    rewrite (rawDelVersion_arr _ _ _ Hwf Hl) in Hraw, Hne.
    destruct (wf_del_arr _ Hwf _ Hl) as (Hlen & _).
    destruct (lookup_lt_is_Some_2 l row) as [x Hx]; [lia|]. rewrite Hx in *. simpl in *.
    unfold readDeleted, arr_get. srun. cbn [setDeletionStatus deletedVersions].
    rewrite Hl, Hx. destruct (Z.eqb_spec x tid); [done|].
    destruct (Z.eqb_spec x INVALID_TRANSACTION); done.
  - destruct Hraw. unfold rawDelVersion.
    by rewrite isSameDeletion_spec, bool_decide_eq_false_2, Hl by (done || by intros []).
Qed.

(** Committing and rolling back write one version into the rows of the range, or
    into the whole vector when it has a single version. *)
Lemma setInsertCommitTS_spec v cts start n :
  wf_vec v -> cts <> INVALID_TRANSACTION -> (start + n <= DEFAULT_VECTOR_CAPACITY)%nat ->
  insertionStatus v = CHECK_INSERTED ->
  exists v', setInsertCommitTS cts start n v = (Ok tt, v') /\ wf_vec v' /\
    insertionStatus v' = CHECK_INSERTED /\
    (forall r, insVersion v' r =
       if decide (isSameInsertionVersion v = true \/ start <= r < start + n)%nat
       then cts else insVersion v r) /\
    (forall r, delVersion v' r = delVersion v r).
Proof.
  intros Hwf Hc Hn Hst. unfold setInsertCommitTS. unfold sbind at 1, sget at 1. cbn iota beta.
  destruct (isSameInsertionVersion v) eqn:Hs.
  - assert (Hs' : sameInsertionVersion v <> INVALID_TRANSACTION)
      by (by rewrite isSameInsertion_spec in Hs; apply bool_decide_eq_true in Hs).
    exists (setSameInsertion cts v). split; [done|].
    assert (Hwf' : wf_vec (setSameInsertion cts v)).
    { destruct Hwf. split; simpl; try done. intros l Hl. by destruct (wf_ins_arr0 l Hl) as (? & ? & ?). }
    split_and!; [done|done| |done].
    intros r. rewrite insVersion_same by done. by rewrite decide_True by (by left).
  - rewrite isSameInsertion_spec in Hs. apply bool_decide_eq_false in Hs.
    destruct (insertedVersions v) as [l|] eqn:Hl; [|by destruct Hs; apply (wf_ins_check _ Hwf)].
    destruct (wf_ins_arr _ Hwf _ Hl) as (Hlen & _ & _).
    rewrite bool_decide_eq_true_2 by done. cbn [kuAssert].
    rewrite (sbind_ok _ _ _ tt v), (sfor_writeInserted v l) by (done || lia).
    assert (Hwf' : wf_vec (setInsertedVersions (Some (assign_range l start n cts)) v))
      by (eapply wf_vec_set_inserted; eauto using length_assign_range).
    eexists. split; [done|]. split_and!; [done|done| |done].
    intros r. rewrite (insVersion_arr _ _ _ Hwf' eq_refl), (insVersion_arr _ _ _ Hwf Hl).
    rewrite default_assign_range by lia.
    destruct (decide (start <= r < start + n)%nat).
    + by rewrite decide_True by (by right).
    + by rewrite decide_False by (by intros [|]).
Qed.

Lemma setDeleteCommitTS_spec v cts start n :
  wf_vec v -> cts <> INVALID_TRANSACTION -> (start + n <= DEFAULT_VECTOR_CAPACITY)%nat ->
  deletionStatus v = CHECK_DELETED ->
  exists v', setDeleteCommitTS cts start n v = (Ok tt, v') /\ wf_vec v' /\
    (forall r, delVersion v' r =
       if decide (isSameDeletionVersion v = true \/ start <= r < start + n)%nat
       then cts else delVersion v r) /\
    insertionStatus v' = insertionStatus v /\
    (forall r, insVersion v' r = insVersion v r).
Proof.
  intros Hwf Hc Hn Hst. unfold setDeleteCommitTS. unfold sbind at 1, sget at 1. cbn iota beta.
  destruct (isSameDeletionVersion v) eqn:Hs.
  - assert (Hs' : sameDeletionVersion v <> INVALID_TRANSACTION)
      by (by rewrite isSameDeletion_spec in Hs; apply bool_decide_eq_true in Hs).
    exists (setSameDeletion cts v). split; [done|].
    assert (Hwf' : wf_vec (setSameDeletion cts v)).
    { destruct Hwf. split; simpl; try done. intros l Hl. by destruct (wf_del_arr0 l Hl) as (? & ?). }
    split_and!; [done| |done|done].
    intros r. unfold delVersion. cbn [setSameDeletion deletionStatus]. rewrite Hst.
    rewrite rawDelVersion_same by done. by rewrite decide_True by (by left).
  - rewrite isSameDeletion_spec in Hs. apply bool_decide_eq_false in Hs.
    destruct (deletedVersions v) as [l|] eqn:Hl; [|by destruct Hs; apply (wf_del_check _ Hwf)].
    destruct (wf_del_arr _ Hwf _ Hl) as (Hlen & _).
    rewrite bool_decide_eq_true_2 by done. cbn [kuAssert].
    rewrite (sbind_ok _ _ _ tt v), (sfor_writeDeleted v l) by (done || lia).
    assert (Hwf' : wf_vec (setDeletedVersions (Some (assign_range l start n cts)) v))
      by (eapply wf_vec_set_deleted; eauto using length_assign_range).
    eexists. split; [done|]. split_and!; [done| |done|done].
    intros r. unfold delVersion. cbn [setDeletedVersions deletionStatus]. rewrite Hst.
    rewrite (rawDelVersion_arr _ _ _ Hwf' eq_refl), (rawDelVersion_arr _ _ _ Hwf Hl).
    rewrite default_assign_range by lia.
    destruct (decide (start <= r < start + n)%nat).
    + by rewrite decide_True by (by right).
    + by rewrite decide_False by (by intros [|]).
Qed.

(** [hasAnyVersion] decides whether a row of the array has a version. *)
Lemma hasAnyVersion_false l :
  hasAnyVersion l = false -> forall r, default INVALID_TRANSACTION (l !! r) = INVALID_TRANSACTION.
Proof.
  unfold hasAnyVersion. induction l as [|t l IH]; intros H r; [done|].
  cbn in H. apply orb_false_iff in H as [H1%negb_false_iff%Z.eqb_eq H2].
  destruct r; [by simpl|]. by apply IH.
Qed.

Lemma rollbackInsertions_spec v start n :
  wf_vec v -> (start + n <= DEFAULT_VECTOR_CAPACITY)%nat ->
  insertionStatus v = CHECK_INSERTED ->
  exists v', rollbackInsertions start n v = (Ok tt, v') /\ wf_vec v' /\
    insertionStatus v' <> ALWAYS_INSERTED /\
    (forall r, insVersion v' r =
       if decide (isSameInsertionVersion v = true \/ start <= r < start + n)%nat
       then INVALID_TRANSACTION else insVersion v r) /\
    (forall r, insVersion v' r <> INVALID_TRANSACTION -> delVersion v' r = delVersion v r) /\
    (forall r, rawDelVersion v' r = rawDelVersion v r).
Proof.
  intros Hwf Hn Hst. unfold rollbackInsertions. unfold sbind at 1, sget at 1. cbn iota beta.
  destruct (isSameInsertionVersion v) eqn:Hs.
  - assert (Hnone : insertedVersions v = None).
    { rewrite isSameInsertion_spec in Hs. apply bool_decide_eq_true in Hs.
      destruct (insertedVersions v) as [l|] eqn:Hl; [|done].
      by destruct (wf_ins_arr _ Hwf _ Hl) as (_ & ? & _). }
    srun. cbn [setSameInsertion insertedVersions]. rewrite Hnone, bool_decide_eq_true_2 by done.
    eexists. split; [reflexivity|]. split.
    { destruct Hwf. split; simpl; try done; try congruence. }
    split_and!; try done. 
  - rewrite isSameInsertion_spec in Hs. apply bool_decide_eq_false in Hs.
    destruct (insertedVersions v) as [l|] eqn:Hl; [|by destruct Hs; apply (wf_ins_check _ Hwf)].
    destruct (wf_ins_arr _ Hwf _ Hl) as (Hlen & Hsi & _).
    rewrite bool_decide_eq_true_2 by done.
    srun. rewrite (sfor_writeInserted v l) by (done || lia).
    set (l' := assign_range l start n INVALID_TRANSACTION).
    assert (Hl' : forall r, default INVALID_TRANSACTION (l' !! r) =
      if decide (false = true \/ start <= r < start + n)%nat then INVALID_TRANSACTION
      else insVersion v r).
    { intros r. subst l'. rewrite (insVersion_arr _ _ _ Hwf Hl), default_assign_range by lia.
      destruct (decide (start <= r < start + n)%nat).
      - by rewrite decide_True by (by right).
      - by rewrite decide_False by (by intros [|]). }
    srun. cbn [setInsertedVersions insertedVersions].
    destruct (hasAnyVersion l') eqn:Hany; srun; cbn [setInsertedVersions insertedVersions].
    + rewrite bool_decide_eq_false_2 by done.
      assert (Hwf' : wf_vec (setInsertedVersions (Some l') v))
        by (eapply wf_vec_set_inserted; eauto using length_assign_range).
      eexists. split; [reflexivity|]. split; [done|]. split; [simpl; congruence|].
      split; [|done]. intros r. by rewrite (insVersion_arr _ _ _ Hwf' eq_refl).
    + rewrite bool_decide_eq_true_2 by done.
      eexists. split; [reflexivity|]. split.
      { destruct Hwf. split; simpl; try done; try congruence. }
      split_and!; try done. intros r. rewrite <- Hl'. cbn. by rewrite hasAnyVersion_false.
Qed.

(** What a roll-back of deletions leaves, in each representation. *)
Definition deletionsRolledBack (v : VectorVersionInfo) (start n : nat) (v' : VectorVersionInfo) : Prop :=
  wf_vec v' /\
  (forall r, rawDelVersion v' r =
     if decide (isSameDeletionVersion v = true \/ start <= r < start + n)%nat
     then INVALID_TRANSACTION else rawDelVersion v r) /\
  (forall r, delVersion v' r =
     if decide (isSameDeletionVersion v = true \/ start <= r < start + n)%nat
     then INVALID_TRANSACTION else delVersion v r) /\
  insertionStatus v' = insertionStatus v /\
  (forall r, insVersion v' r = insVersion v r).

Lemma rollbackDeletions_single v start n :
  wf_vec v -> deletedVersions v = None ->
  exists v', rollbackDeletions start n v = (Ok tt, v') /\ deletionsRolledBack v start n v'.
Proof.
  intros Hwf Hnone. unfold rollbackDeletions. unfold sbind at 1, sget at 1. cbn iota beta.
  destruct (isSameDeletionVersion v) eqn:Hs.
  - srun. cbn [setSameDeletion deletedVersions]. rewrite Hnone, bool_decide_eq_true_2 by done.
    eexists. split; [reflexivity|]. split.
    { destruct Hwf. split; simpl; try done; try congruence. }
    split_and!; try done; intros r; rewrite decide_True by (by left); try done.
    unfold rawDelVersion. rewrite isSameDeletion_spec. cbn. rewrite Hnone. by case_bool_decide.
  - pose proof Hs as Hs'. rewrite isSameDeletion_spec in Hs. apply bool_decide_eq_false, dec_stable in Hs.
    rewrite Hnone, bool_decide_eq_false_2 by by intros []. srun.
    rewrite Hnone, bool_decide_eq_true_2 by done.
    assert (Hraw : forall r, rawDelVersion v r = INVALID_TRANSACTION).
    { intros r. unfold rawDelVersion. rewrite isSameDeletion_spec, Hs, Hnone. by case_bool_decide. }
    eexists. split; [reflexivity|]. split; [destruct Hwf; by split|].
    split_and!; try done; intros r.
    + change (rawDelVersion v r = if decide (isSameDeletionVersion v = true \/ (start <= r < start + n)%nat)
        then INVALID_TRANSACTION else rawDelVersion v r). rewrite Hraw. by case_decide.
    + cbn. unfold delVersion. rewrite Hraw. by destruct (deletionStatus v); case_decide.
Qed.

Lemma rollbackDeletions_array v l start n :
  wf_vec v -> deletedVersions v = Some l -> (start + n <= DEFAULT_VECTOR_CAPACITY)%nat ->
  exists v', rollbackDeletions start n v = (Ok tt, v') /\ deletionsRolledBack v start n v'.
Proof.
  intros Hwf Hl Hn. destruct (wf_del_arr _ Hwf _ Hl) as (Hlen & Hs).
  assert (Hsame : isSameDeletionVersion v = false)
    by (rewrite isSameDeletion_spec, Hs; by apply bool_decide_eq_false_2; intros []).
  unfold rollbackDeletions, deletionsRolledBack. srun. rewrite Hsame, Hl, bool_decide_eq_true_2 by done.
  srun. rewrite (sfor_writeDeleted v l) by (done || lia).
  set (l' := assign_range l start n INVALID_TRANSACTION).
  assert (Hl' : forall r, default INVALID_TRANSACTION (l' !! r) =
    if decide (false = true \/ start <= r < start + n)%nat then INVALID_TRANSACTION
    else rawDelVersion v r).
  { intros r. subst l'. rewrite (rawDelVersion_arr _ _ _ Hwf Hl), default_assign_range by lia.
    destruct (decide (start <= r < start + n)%nat).
    - by rewrite decide_True by (by right).
    - by rewrite decide_False by (by intros [|]). }
  cbn [setDeletedVersions deletedVersions].
  destruct (hasAnyVersion l') eqn:Hany; srun; cbn [setDeletedVersions deletedVersions].
  - rewrite bool_decide_eq_false_2 by done.
    assert (Hwf' : wf_vec (setDeletedVersions (Some l') v))
      by (eapply wf_vec_set_deleted; eauto using length_assign_range).
    eexists. split; [reflexivity|]. split; [done|].
    split; [intros r; by rewrite (rawDelVersion_arr _ _ _ Hwf' eq_refl)|].
    split; [|done]. intros r. unfold delVersion. cbn [setDeletedVersions deletionStatus].
    rewrite (rawDelVersion_arr _ _ _ Hwf' eq_refl), Hl'.
    by destruct (deletionStatus v); repeat case_decide.
  - rewrite bool_decide_eq_true_2 by done.
    eexists. split; [reflexivity|]. split.
    { destruct Hwf. split; simpl; try done; try congruence. }
    split_and!; try done; intros r.
    + rewrite <- Hl', hasAnyVersion_false by done. unfold rawDelVersion.
      rewrite isSameDeletion_spec. cbn. rewrite Hs. by case_bool_decide.
    + pose proof (Hl' r) as H. rewrite hasAnyVersion_false in H by done.
      cbn. case_decide as Hd; [done|]. unfold delVersion. rewrite <- H. by destruct (deletionStatus v).
Qed.

Lemma rollbackDeletions_spec v start n :
  wf_vec v -> (start + n <= DEFAULT_VECTOR_CAPACITY)%nat ->
  exists v', rollbackDeletions start n v = (Ok tt, v') /\ deletionsRolledBack v start n v'.
Proof.
  intros Hwf Hn. destruct (deletedVersions v) as [l|] eqn:Hl.
  - by apply (rollbackDeletions_array v l).
  - by apply rollbackDeletions_single.
Qed.

(** ** Scans and counts *)

Lemma keptPositions_ext p q i n o :
  (forall j, (i <= j < i + n)%nat -> p j = q j) -> keptPositions p i n o = keptPositions q i n o.
Proof.
  revert i. induction n as [|n IH]; intros i H; [done|].
  rewrite !keptPositions_S, (H i), (IH (S i)) by (lia || (intros; apply H; lia)). done.
Qed.

Lemma keptPositions_all i n o : keptPositions (fun _ => true) i n o = seq (o + i) n.
Proof.
  revert i. induction n as [|n IH]; intros i; [done|].
  rewrite keptPositions_S, IH. simpl. do 2 f_equal. lia.
Qed.

Lemma keptPositions_none i n o : keptPositions (fun _ => false) i n o = [].
Proof. revert i. induction n as [|n IH]; intros i; [done|]. by rewrite keptPositions_S, IH. Qed.

(** The loop followed by [setToFiltered], from a selection whose positions are in
    its buffer or that is empty. *)
Lemma appendThenFilter keep p n o s :
  wf_sel s -> (selectedSize s + n <= capacity s)%nat ->
  (isUnfiltered s = true -> selectedSize s = 0%nat) ->
  (forall j, (j < n)%nat -> keep j = Ok (p j)) ->
  exists s', sbind (appendPositions keep 0 n (selectedSize s) o) setToFiltered s = (Ok tt, s') /\
    wf_sel s' /\ capacity s' = capacity s /\ isUnfiltered s' = false /\
    getSelectedPositions s' = getSelectedPositions s ++ keptPositions p 0 n o.
Proof.
  intros Hwf Hcap Hun Hk.
  destruct (appendPositions_ok keep p n 0 (selectedSize s) o s) as (s1 & E & Hwf1 & Hc & Hs & Hu & Ht);
    [intros; apply Hk; lia|done|done|].
  rewrite (sbind_ok _ _ _ _ _ E). unfold setToFiltered. srun.
  pose proof (length_keptPositions p 0 n o).
  rewrite Hc, bool_decide_eq_true_2 by lia. eexists. split; [reflexivity|].
  destruct Hwf1 as [_ Hlen]. split_and!; try done; simpl.
  - split; simpl; lia.
  - unfold getSelectedPositions. simpl. rewrite Ht. destruct (isUnfiltered s); [|done].
    by rewrite Hun.
Qed.

(** A scan of rows of one vector selects exactly the rows the transaction sees, at
    their output positions. *)
Lemma getSelVectorForScan_spec v ts id start n o s :
  wf_vec v -> wf_ids ts id -> (start + n <= DEFAULT_VECTOR_CAPACITY)%nat ->
  wf_sel s -> (selectedSize s + n <= capacity s)%nat ->
  (isUnfiltered s = true -> selectedSize s = 0%nat /\ o = 0%nat) ->
  exists s', getSelVectorForScan v ts id start n o s = (Ok tt, s') /\ wf_sel s' /\
    capacity s' = capacity s /\
    getSelectedPositions s' =
      getSelectedPositions s ++ keptPositions (fun i => rowVisible v ts id (start + i)) 0 n o.
Proof.
  intros Hwf Hids Hn Hs Hcap Hun. unfold getSelVectorForScan. unfold sbind at 1, sget at 1. cbn iota beta.
  assert (Hfilter : exists s', sbind (appendPositions (fun i => isVisible v ts id (start + i)) 0 n
      (selectedSize s) o) setToFiltered s = (Ok tt, s') /\ wf_sel s' /\ capacity s' = capacity s /\
      isUnfiltered s' = false /\ getSelectedPositions s' = getSelectedPositions s ++
        keptPositions (fun i => rowVisible v ts id (start + i)) 0 n o).
  { apply appendThenFilter; [done|done|by intros [? _]%Hun| ]. intros j Hj. apply isVisible_spec; [done..|lia]. }
  assert (Hrest : exists s', (if negb (bool_decide (insertionStatus v = NO_INSERTED)) then
    n0 <- appendPositions (fun i => isVisible v ts id (start + i)) 0 n (selectedSize s) o ;; setToFiltered n0
    else sret tt) s = (Ok tt, s') /\ wf_sel s' /\ capacity s' = capacity s /\
    getSelectedPositions s' = getSelectedPositions s ++
      keptPositions (fun i => rowVisible v ts id (start + i)) 0 n o).
  { destruct Hfilter as (s' & E & ? & ? & ? & ?). case_bool_decide as Hni; cbn [negb].
    - exists s. split_and!; try done.
      rewrite (keptPositions_ext _ (fun _ => false)), keptPositions_none; [by rewrite app_nil_r|].
      intros j _. unfold rowVisible, insVersion. rewrite Hni. by rewrite invalid_not_visible.
    - exists s'. by split_and!. }
  destruct (bool_decide (deletionStatus v = NO_DELETED)) eqn:Hd; [|exact Hrest].
  destruct (bool_decide (insertionStatus v = ALWAYS_INSERTED)) eqn:Hi; cbn [andb]; [|exact Hrest].
  apply bool_decide_eq_true in Hd, Hi.
  { assert (Hall : keptPositions (fun i => rowVisible v ts id (start + i)) 0 n o = seq o n).
    { rewrite (keptPositions_ext _ (fun _ => true)), keptPositions_all; [by rewrite Nat.add_0_r|].
      intros j _. unfold rowVisible, insVersion, delVersion. rewrite Hi, Hd.
      by rewrite zero_visible, invalid_not_visible. }
    rewrite Hall. destruct (isUnfiltered s) eqn:Hu.
    + destruct (Hun eq_refl) as [H0 ->]. unfold setSelSize. srun.
      rewrite bool_decide_eq_true_2 by lia. eexists. split; [reflexivity|].
      destruct Hs as [_ Hlen]. split_and!; [split; simpl; lia|done|].
      unfold getSelectedPositions. simpl. by rewrite Hu, H0.
    + destruct (appendThenFilter (fun _ => Ok true) (fun _ => true) n o s) as (s' & ? & ? & ? & ? & Hp);
        [done|done|by rewrite Hu|done|].
      exists s'. split_and!; try done. by rewrite Hp, keptPositions_all, Nat.add_0_r. }
Qed.

(** The rows of a range that are deleted for a transaction. *)
Definition deletedRows (v : VectorVersionInfo) (ts id : transaction_t) (start n : nat) : list nat :=
  List.filter (fun r => visible ts id (delVersion v r)) (seq start n).

Lemma countDeletions_spec v ts id start n :
  wf_vec v -> wf_ids ts id -> (start + n <= DEFAULT_VECTOR_CAPACITY)%nat ->
  countDeletions v ts id start n = Ok (length (deletedRows v ts id start n)).
Proof.
  intros Hwf Hids. unfold deletedRows. revert start. induction n as [|n IH]; intros start Hn; [done|].
  cbn [countDeletions seq List.filter]. rewrite isDeleted_visible by (done || lia). cbn [obind].
  rewrite IH by lia. cbn [obind]. by destruct (visible _ _ _).
Qed.

Lemma getNumDeletions_vec v ts id start n :
  wf_vec v -> wf_ids ts id -> (start + n <= DEFAULT_VECTOR_CAPACITY)%nat ->
  getNumDeletions v ts id start n = Ok (length (deletedRows v ts id start n)).
Proof.
  intros Hwf Hids Hn. unfold getNumDeletions. destruct (deletionStatus v) eqn:Hd.
  - unfold deletedRows, delVersion. rewrite Hd.
    assert (H : forall k, List.filter (fun _ : nat => visible ts id INVALID_TRANSACTION) k = []).
    { rewrite invalid_not_visible by done. intros k. by induction k. }
    by rewrite H.
  - by apply countDeletions_spec.
Qed.

(** ** Serialization round trip *)

(** What a checkpoint writes: all insertions are committed and forgotten, the
    deletions are committed, and a vector without deletions has none stored. *)
Record checkpointed (v : VectorVersionInfo) : Prop := {
  ck_ins : insertionStatus v <> CHECK_INSERTED;
  ck_committed : allCommitted (deletedVersions v) = true;
  ck_same : inU 64 (sameDeletionVersion v);
  ck_versions : forall l, deletedVersions v = Some l -> Forall (inU 64) l;
  ck_nodel : deletionStatus v = NO_DELETED ->
    deletedVersions v = None /\ sameDeletionVersion v = INVALID_TRANSACTION;
}.

Lemma insertionStatus_codec s : insertionStatusOf (insertionStatusCode s) = Some s.
Proof. by destruct s. Qed.

Lemma codec_VectorVersionInfo v : wf_vec v -> checkpointed v -> codec serialize deSerialize v.
Proof.
  intros Hwf [Hi Hc Hsame Hver Hnodel].
  assert (Hins : insertedVersions v = None /\ sameInsertionVersion v = INVALID_TRANSACTION).
  { split.
    - destruct (insertedVersions v) eqn:E; [|done]. by destruct (wf_ins_arr _ Hwf _ E) as (_ & _ & ?).
    - destruct (decide (sameInsertionVersion v = INVALID_TRANSACTION)) as [|Hne]; [done|].
      by destruct Hi; apply (wf_ins_same _ Hwf). }
  destruct v as [ia da si sd ist dst]; cbn in *. destruct Hins as [-> ->].
  assert (Hist : inU (8 * Z.of_nat 1) (insertionStatusCode ist)) by (destruct ist; cbv; intuition congruence).
  destruct dst.
  - destruct (Hnodel eq_refl) as [-> ->].
    exists (leBytes 1 (insertionStatusCode ist) ++ leBytes 1 0). split.
    + intros out. unfold serialize. cbn [deletedVersions insertionStatus deletionStatus allCommitted].
      rewrite bool_decide_eq_false_2 by done. cbn [kuAssert negb].
      do 4 (erewrite sbind_ok; [|reflexivity]). unfold sret. by rewrite app_assoc.
    + intros rest. unfold deSerialize. rewrite <- app_assoc.
      rewrite (sbind_ok _ _ _ _ _ (deserializeU_leBytes 1 _ _ Hist)), insertionStatus_codec.
      destruct ist; done.
  - assert (Harr : exists bs, (forall out, (if sd =? INVALID_TRANSACTION then
         match da with None => sthrow InternalException | Some l => serializeArray (serializeU 8) l end
         else sret tt) out = (Ok tt, out ++ bs)) /\
       (forall rest, (if sd =? INVALID_TRANSACTION
          then l <- deserializeArray (deserializeU 8) DEFAULT_VECTOR_CAPACITY ;; sret (Some l)
          else sret None) (bs ++ rest) = (Ok da, rest))).
    { destruct (Z.eqb_spec sd INVALID_TRANSACTION) as [E|E].
      - destruct da as [l|]; [|by destruct (wf_del_check _ Hwf)].
        destruct (wf_del_arr _ Hwf _ eq_refl) as (Hlen & _). simpl in Hlen.
        destruct (codec_Array (serializeU 8) (deserializeU 8) l) as (bs & Hw & Hr).
        { eapply Forall_impl; [|exact (Hver l eq_refl)]. intros x Hx. by apply codec_U. }
        exists bs. split; [done|]. intros rest. rewrite <- Hlen, (sbind_ok _ _ _ _ _ (Hr rest)). done.
      - destruct da as [l|]; [by destruct (wf_del_arr _ Hwf _ eq_refl) as (_ & ?)|].
        exists []. split; intros; [by rewrite app_nil_r|done]. }
    destruct Harr as (bs & Hw & Hr).
    exists (leBytes 1 (insertionStatusCode ist) ++ leBytes 1 1 ++ leBytes 8 sd ++ bs). split.
    + intros out. unfold serialize. cbn [deletedVersions insertionStatus deletionStatus sameDeletionVersion].
      rewrite Hc, bool_decide_eq_false_2 by done. cbn [kuAssert negb].
      do 5 (erewrite sbind_ok; [|reflexivity]). rewrite Hw. f_equal. by rewrite !app_assoc.
    + intros rest. unfold deSerialize. rewrite <- !app_assoc.
      rewrite (sbind_ok _ _ _ _ _ (deserializeU_leBytes 1 _ _ Hist)), insertionStatus_codec.
      assert (H1 : inU (8 * Z.of_nat 1) 1) by (cbv; intuition congruence).
      destruct ist; [|done|];
        rewrite (sbind_ok _ _ _ _ _ (deserializeU_leBytes 1 _ _ H1)); cbn [deletionStatusOf Z.eqb Pos.eqb];
        rewrite (sbind_ok _ _ _ _ _ (deserializeU_leBytes 8 _ _ Hsame));
        rewrite (sbind_ok _ _ _ _ _ (Hr rest)), Hc; done.
Qed.
