(* ===== verification/VersionInfo.v ===== *)
(** * Row versions of a chunked node group (src/storage/store/version_info.cpp,
      class [VersionInfo])

    One [VectorVersionInfo] per vector of rows, created when the vector is first
    written; a vector without one has only rows that everybody sees.  The
    operations on a range of rows split it at vector boundaries. *)

From S2P Require Import Prelude Transaction SelectionVector Serializer UndoBuffer VectorVersion.
From stdpp Require Import base list strings numbers.
Local Open Scope nat_scope.

(** [vectorsInfo]; [None] is the null pointer. *)
Abbreviation VersionInfo := (list (option VectorVersionInfo)).

(** [StorageUtils::getQuotientRemainder]. *)
Definition getQuotientRemainder (i divisor : nat) : nat * nat := (i / divisor, i mod divisor).

(** [VersionInfo::getOrCreateVersionInfo]; the reference it returns is used for one
    call of a method [m] of the vector's version info. *)
Definition getOrCreateVersionInfo (vectorIdx : nat) : M VersionInfo VectorVersionInfo :=
  vi <- sget ;;
  (if bool_decide (length vi <= vectorIdx)
   then sput (vi ++ replicate (vectorIdx + 1 - length vi) None) else sret tt) ;;;
  vi <- sget ;;
  match vi !! vectorIdx with
  | None => sthrow UndefinedBehaviour
  | Some (Some v) => sret v
  | Some None =>
      sput (<[vectorIdx := Some newVectorVersionInfo]> vi) ;;; sret newVectorVersionInfo
  end.
Definition onVector {A} (vectorIdx : nat) (m : M VectorVersionInfo A) : M VersionInfo A :=
  v <- getOrCreateVersionInfo vectorIdx ;;
  let '(r, v') := m v in
  smodify (fun vi => <[vectorIdx := Some v']> vi) ;;; slift r.

(** [VersionInfo::getVectorVersionInfo]. *)
Definition getVectorVersionInfo (vi : VersionInfo) (vectorIdx : nat) : option VectorVersionInfo :=
  if bool_decide (length vi <= vectorIdx) then None else mjoin (vi !! vectorIdx).

(** The loop over the vectors of a range that the operations share: the first and
    last vector are cut to the range. *)
Definition forVectors {S} (startRow numRows : nat) (body : nat -> nat -> nat -> M S unit)
    : M S unit :=
  if bool_decide (numRows = 0) then sret tt
  else
    let '(startVectorIdx, startRowIdxInVector) :=
      getQuotientRemainder startRow DEFAULT_VECTOR_CAPACITY in
    let '(endVectorIdx, endRowIdxInVector) :=
      getQuotientRemainder (startRow + numRows - 1) DEFAULT_VECTOR_CAPACITY in
    sfor startVectorIdx (endVectorIdx + 1 - startVectorIdx) (fun vectorIdx =>
      let startRowIdx :=
        if bool_decide (vectorIdx = startVectorIdx) then startRowIdxInVector else 0 in
      let endRowIdx :=
        if bool_decide (vectorIdx = endVectorIdx) then endRowIdxInVector
        else DEFAULT_VECTOR_CAPACITY - 1 in
      body vectorIdx startRowIdx (endRowIdx - startRowIdx + 1)).

(** A version info and the undo buffer of the transaction that writes it. *)
Record WriteState : Type := mkWrite {
  versions : VersionInfo;
  undo : UndoBuffer;
}.
Definition onVersions {A} (m : M VersionInfo A) : M WriteState A :=
  szoom versions (fun vi s => mkWrite vi (undo s)) m.
Definition onUndo {A} (m : M UndoBuffer A) : M WriteState A :=
  szoom undo (fun u s => mkWrite (versions s) u) m.

(** [VersionInfo::append], with [Transaction::pushInsertInfo]. *)
Definition append (t : Transaction) (cng : loc) (startRow numRows : nat) : M WriteState unit :=
  if bool_decide (numRows = 0) then sret tt
  else
    onVersions (forVectors startRow numRows (fun vectorIdx start n =>
      onVector vectorIdx (VectorVersion.append (ID t) start n))) ;;;
    if shouldAppendToUndoBuffer t then onUndo (createInsertInfo cng startRow numRows)
    else sret tt.

(** [VersionInfo::delete_], with [Transaction::pushDeleteInfo]. *)
Definition delete_ (t : Transaction) (cng : loc) (rowIdx : nat) : M WriteState bool :=
  let '(vectorIdx, rowIdxInVector) := getQuotientRemainder rowIdx DEFAULT_VECTOR_CAPACITY in
  deleted <- onVersions (onVector vectorIdx (
    v <- sget ;;
    (if bool_decide (insertionStatus v = NO_INSERTED)
     then sput (setInsertionStatus ALWAYS_INSERTED v) else sret tt) ;;;
    VectorVersion.delete_ (ID t) rowIdxInVector)) ;;
  (if (deleted : bool) && shouldAppendToUndoBuffer t
   then onUndo (createDeleteInfo cng rowIdx 1) else sret tt) ;;;
  sret deleted.

(** The body of the loop of [VersionInfo::getSelVectorToScan]. *)
Definition scanVector (vi : VersionInfo) (ts id : transaction_t)
    (vectorIdx start numRowsInVector outputPos : nat) : M SelectionVector unit :=
  match getVectorVersionInfo vi vectorIdx with
  | None =>
      sel <- sget ;;
      let numSelected := selectedSize sel in
      if isUnfiltered sel then setSelSize (numSelected + numRowsInVector)
      else
        n <- appendPositions (fun _ => Ok true) 0 numRowsInVector numSelected outputPos ;;
        setToFiltered n
  | Some v => getSelVectorForScan v ts id start numRowsInVector outputPos
  end.

(** [VersionInfo::getSelVectorToScan]; the second component of the state is
    [outputPos]. *)
Definition getSelVectorToScan (vi : VersionInfo) (ts id : transaction_t)
    (startRow numRows : nat) : M SelectionVector unit :=
  if bool_decide (numRows = 0) then sret tt
  else
    setToUnfiltered 0 ;;;
    (fun sel =>
       let '(r, (sel', outputPos)) :=
         forVectors startRow numRows (fun vectorIdx start n =>
           do (_, outputPos) <- sget ;;
           szoom fst (fun s' p => (s', p.2)) (scanVector vi ts id vectorIdx start n outputPos) ;;;
           smodify (fun p => (p.1, p.2 + n))) (sel, 0) in
       (slift r ;;; kuAssert (bool_decide (outputPos <= DEFAULT_VECTOR_CAPACITY))) sel').

(** [VersionInfo::clearVectorInfo]. *)
Definition clearVectorInfo (vectorIdx : nat) : M VersionInfo unit :=
  vi <- sget ;;
  kuAssert (bool_decide (vectorIdx < length vi)) ;;;
  sput (<[vectorIdx := None]> vi).

(** [VersionInfo::hasDeletions()] and [hasInsertions]. *)
Definition hasDeletions (vi : VersionInfo) : bool :=
  existsb (fun o => match o with
    | Some v => bool_decide (deletionStatus v = CHECK_DELETED) | None => false end) vi.
Definition hasInsertions (vi : VersionInfo) : bool :=
  existsb (fun o => match o with
    | Some v => bool_decide (insertionStatus v = CHECK_INSERTED) | None => false end) vi.

(** [VersionInfo::getNumDeletions]; it computes the size of a vector's part from
    its own ternary. *)
Definition getNumDeletions (vi : VersionInfo) (t : Transaction) (startRow numRows : nat)
    : outcome nat :=
  if bool_decide (numRows = 0) then Ok 0
  else
    let '(startVector, startRowInVector) :=
      getQuotientRemainder startRow DEFAULT_VECTOR_CAPACITY in
    let '(endVectorIdx, endRowInVector) :=
      getQuotientRemainder (startRow + numRows - 1) DEFAULT_VECTOR_CAPACITY in
    let '(r, numDeletions) :=
      sfor startVector (endVectorIdx + 1 - startVector) (fun vectorIdx =>
        let rowInVector := if bool_decide (vectorIdx = startVector) then startRowInVector else 0 in
        let numRowsInVector :=
          if bool_decide (vectorIdx = endVectorIdx) then endRowInVector - rowInVector + 1
          else DEFAULT_VECTOR_CAPACITY - rowInVector in
        match getVectorVersionInfo vi vectorIdx with
        | Some v =>
            k <- slift (VectorVersion.getNumDeletions v (startTS t) (ID t) rowInVector numRowsInVector) ;;
            smodify (fun acc => acc + k)
        | None => sret tt
        end) 0 in
    match r with Ok _ => Ok numDeletions | Err e => Err e end.

(** [VersionInfo::isDeleted] and [isInserted]. *)
Definition isDeleted (vi : VersionInfo) (t : Transaction) (rowInChunk : nat) : outcome bool :=
  let '(vectorIdx, rowInVector) := getQuotientRemainder rowInChunk DEFAULT_VECTOR_CAPACITY in
  match getVectorVersionInfo vi vectorIdx with
  | Some v => VectorVersion.isDeleted v (startTS t) (ID t) rowInVector
  | None => Ok false
  end.
Definition isInserted (vi : VersionInfo) (t : Transaction) (rowInChunk : nat) : outcome bool :=
  let '(vectorIdx, rowInVector) := getQuotientRemainder rowInChunk DEFAULT_VECTOR_CAPACITY in
  match getVectorVersionInfo vi vectorIdx with
  | Some v => VectorVersion.isInserted v (startTS t) (ID t) rowInVector
  | None => Ok true
  end.

(** [VersionInfo::hasDeletions(transaction)]. *)
Fixpoint hasDeletionsFor (vi : VersionInfo) (t : Transaction) : outcome bool :=
  match vi with
  | [] => Ok false
  | None :: rest => hasDeletionsFor rest t
  | Some v :: rest =>
      let* b := VectorVersion.hasDeletions v (startTS t) (ID t) in
      if b : bool then Ok true else hasDeletionsFor rest t
  end.

(** [VersionInfo::commitInsert], [rollbackInsert], [commitDelete], [rollbackDelete]. *)
Definition commitInsert (startRow numRows : nat) (commitTS : transaction_t) : M VersionInfo unit :=
  forVectors startRow numRows (fun vectorIdx start n =>
    onVector vectorIdx (setInsertCommitTS commitTS start n)).
Definition rollbackInsert (startRow numRows : nat) : M VersionInfo unit :=
  forVectors startRow numRows (fun vectorIdx start n =>
    onVector vectorIdx (rollbackInsertions start n)).
Definition commitDelete (startRow numRows : nat) (commitTS : transaction_t) : M VersionInfo unit :=
  forVectors startRow numRows (fun vectorIdx start n =>
    onVector vectorIdx (setDeleteCommitTS commitTS start n)).
Definition rollbackDelete (startRow numRows : nat) : M VersionInfo unit :=
  forVectors startRow numRows (fun vectorIdx start n =>
    onVector vectorIdx (rollbackDeletions start n)).

(** [VersionInfo::serialize] and [deserialize]. *)
Definition serializeVectorOpt (o : option VectorVersionInfo) : Writer unit :=
  match o with
  | Some v => serializeBool true ;;; VectorVersion.serialize v
  | None => serializeBool false
  end.
Definition deserializeVectorOpt : Reader (option VectorVersionInfo) :=
  hasVectorVersion <- deserializeBool ;;
  if hasVectorVersion : bool then v <- deSerialize ;; sret (Some v) else sret None.
Definition serialize (vi : VersionInfo) : Writer unit :=
  serializeU 8 (Z.of_nat (length vi)) ;;; serializeArray serializeVectorOpt vi.
Definition deserialize : Reader VersionInfo :=
  vectorSize <- deserializeU 8 ;; deserializeArray deserializeVectorOpt (Z.to_nat vectorSize).

(** ** Vectors of a range *)

Abbreviation CAP := DEFAULT_VECTOR_CAPACITY.

Definition inVectors (start n i : nat) : Prop :=
  0 < n /\ start / CAP <= i <= (start + n - 1) / CAP.
#[global] Instance inVectors_dec start n i : Decision (inVectors start n i).
Proof. unfold inVectors. apply _. Defined.

Definition rangeStart (start i : nat) : nat :=
  if bool_decide (i = start / CAP) then start mod CAP else 0.
Definition rangeCount (start n i : nat) : nat :=
  (if bool_decide (i = (start + n - 1) / CAP) then (start + n - 1) mod CAP else CAP - 1)
  - rangeStart start i + 1.

Lemma mul_le_cases a b c : a <= b -> a = b \/ a * c + c <= b * c.
Proof. intros H. destruct (decide (a = b)); [by left|]. right. nia. Qed.

(** The rows of a vector's part of the range. *)
Lemma range_rows start n i r :
  inVectors start n i -> r < CAP ->
  rangeStart start i <= r < rangeStart start i + rangeCount start n i <->
  start <= i * CAP + r < start + n.
Proof.
  intros (Hn & Hlo & Hhi) Hr. pose proof vector_capacity_pos.
  pose proof (Nat.div_mod_eq start CAP). pose proof (Nat.mod_upper_bound start CAP).
  pose proof (Nat.div_mod_eq (start + n - 1) CAP).
  pose proof (Nat.mod_upper_bound (start + n - 1) CAP).
  unfold rangeCount, rangeStart.
  set (q := start / CAP) in *. set (q' := (start + n - 1) / CAP) in *.
  destruct (mul_le_cases _ _ CAP Hlo) as [<-|], (mul_le_cases _ _ CAP Hhi) as [E|];
    try (rewrite <- E in *; clear E); repeat case_bool_decide; lia.
Qed.

Lemma range_bound start n i :
  inVectors start n i ->
  rangeStart start i + rangeCount start n i <= CAP /\ 0 < rangeCount start n i.
Proof.
  intros (Hn & Hlo & Hhi). pose proof vector_capacity_pos.
  pose proof (Nat.div_mod_eq start CAP). pose proof (Nat.mod_upper_bound start CAP).
  pose proof (Nat.div_mod_eq (start + n - 1) CAP).
  pose proof (Nat.mod_upper_bound (start + n - 1) CAP).
  unfold rangeCount, rangeStart.
  set (q := start / CAP) in *. set (q' := (start + n - 1) / CAP) in *.
  destruct (mul_le_cases _ _ CAP Hlo) as [<-|], (mul_le_cases _ _ CAP Hhi) as [E|];
    try (rewrite <- E in *; clear E); repeat case_bool_decide; lia.
Qed.

Lemma div_mod_row row : row = (row / CAP) * CAP + row mod CAP.
Proof. pose proof (Nat.div_mod_eq row CAP). lia. Qed.

Lemma mod_row row : row mod CAP < CAP.
Proof. apply Nat.mod_upper_bound, vector_capacity_ne0. Qed.
#[export] Hint Resolve mod_row : kuzu.

Lemma row_in_range start n row :
  start <= row < start + n <->
  inVectors start n (row / CAP) /\
  rangeStart start (row / CAP) <= row mod CAP
    < rangeStart start (row / CAP) + rangeCount start n (row / CAP).
Proof.
  split.
  - intros H. assert (Hv : inVectors start n (row / CAP)).
    { pose proof vector_capacity_ne0. split; [lia|].
      split; apply Nat.Div0.div_le_mono; lia. }
    split; [done|]. apply range_rows; [done|apply mod_row|]. by rewrite <- div_mod_row.
  - intros [Hv H]. apply range_rows in H; [|done|apply mod_row]. by rewrite <- div_mod_row in H.
Qed.

Lemma row_before_range start n row :
  row < start -> inVectors start n (row / CAP) -> row mod CAP < rangeStart start (row / CAP).
Proof.
  intros Hrow Hi. destruct (range_bound _ _ _ Hi) as [Hb Hk].
  destruct (decide (row mod CAP < rangeStart start (row / CAP))) as [|Hge]; [done|].
  pose proof (range_rows start n (row / CAP) (rangeStart start (row / CAP)) Hi ltac:(lia)) as Hr.
  pose proof (div_mod_row row). lia.
Qed.

(** ** Vectors and rows of a version info *)

Definition getVec (vi : VersionInfo) (i : nat) : VectorVersionInfo :=
  default newVectorVersionInfo (getVectorVersionInfo vi i).

Lemma getVectorVersionInfo_lookup vi i : getVectorVersionInfo vi i = mjoin (vi !! i).
Proof.
  unfold getVectorVersionInfo. case_bool_decide as H; [|done].
  by rewrite lookup_ge_None_2.
Qed.

Lemma onVector_ok {A} i (m : M VectorVersionInfo A) vi r v' :
  m (getVec vi i) = (r, v') ->
  exists vi', onVector i m vi = (r, vi') /\
    forall j, getVectorVersionInfo vi' j =
      if decide (j = i) then Some v' else getVectorVersionInfo vi j.
Proof.
  intros Hm. unfold onVector, getOrCreateVersionInfo.
  set (vi1 := if bool_decide (length vi <= i)
    then vi ++ replicate (i + 1 - length vi) None else vi).
  assert (Hlen : i < length vi1).
  { subst vi1. case_bool_decide; [rewrite length_app, length_replicate|]; lia. }
  assert (Hget : forall j, mjoin (vi1 !! j) = getVectorVersionInfo vi j).
  { intros j. rewrite getVectorVersionInfo_lookup. subst vi1. case_bool_decide; [|done].
    destruct (decide (j < length vi)); [by rewrite lookup_app_l|].
    rewrite lookup_app_r, (lookup_ge_None_2 vi) by lia.
    destruct (replicate _ _ !! _) eqn:E; [|done]. by apply lookup_replicate in E as [-> _]. }
  exists (<[i := Some v']> vi1). split.
  - rewrite (sbind_ok _ _ _ (getVec vi i) (<[i := Some (getVec vi i)]> vi1)).
    + rewrite Hm. srun. rewrite list_insert_insert_eq. by destruct r.
    + rewrite (sbind_ok _ _ _ vi vi) by done.
      rewrite (sbind_ok _ _ _ tt vi1) by (subst vi1; by case_bool_decide).
      srun. unfold getVec. rewrite <- Hget.
      destruct (lookup_lt_is_Some_2 vi1 i Hlen) as [[v|] Hv]; rewrite Hv; simpl; [|done].
      by rewrite list_insert_id.
  - intros j. rewrite getVectorVersionInfo_lookup. case_decide; [subst j|].
    + by rewrite list_lookup_insert_eq.
    + by rewrite list_lookup_insert_ne, Hget by done.
Qed.

(** One method call per vector of the range. *)
Section forVectors.
Context (m : nat -> nat -> M VectorVersionInfo unit).
Context (Pre : nat -> nat -> VectorVersionInfo -> Prop).
Context (R : nat -> nat -> VectorVersionInfo -> VectorVersionInfo -> Prop).
Hypothesis m_ok : forall v s k, s + k <= CAP -> 0 < k -> Pre s k v ->
  exists v', m s k v = (Ok tt, v') /\ R s k v v'.

Lemma forVectors_ok vi start n :
  (forall i, inVectors start n i ->
     Pre (rangeStart start i) (rangeCount start n i) (getVec vi i)) ->
  exists vi', forVectors start n (fun i s k => onVector i (m s k)) vi = (Ok tt, vi') /\
    forall i,
      if decide (inVectors start n i)
      then exists v', getVectorVersionInfo vi' i = Some v' /\
             R (rangeStart start i) (rangeCount start n i) (getVec vi i) v'
      else getVectorVersionInfo vi' i = getVectorVersionInfo vi i.
Proof.
  intros Hpre. unfold forVectors. case_bool_decide as Hn.
  - exists vi. split; [done|]. intros i. rewrite decide_False; [done|]. intros [? _]. lia.
  - unfold getQuotientRemainder.
    destruct (sfor_inv (fun j vi' => forall i,
      if decide (inVectors start n i /\ i < j)
      then exists v', getVectorVersionInfo vi' i = Some v' /\
             R (rangeStart start i) (rangeCount start n i) (getVec vi i) v'
      else getVectorVersionInfo vi' i = getVectorVersionInfo vi i)
      (start / CAP) ((start + n - 1) / CAP + 1 - start / CAP)
      (fun i => onVector i (m (rangeStart start i) (rangeCount start n i))) vi)
      as (vi' & E & HI).
    + intros i. rewrite decide_False; [done|]. intros [(_ & ? & _) ?]. lia.
    + intros j vi1 Hj HI.
      assert (Hv : inVectors start n j) by (split; lia).
      destruct (range_bound _ _ _ Hv) as [Hb Hk].
      assert (Hg : getVec vi1 j = getVec vi j).
      { unfold getVec. specialize (HI j). rewrite decide_False in HI by lia. by rewrite HI. }
      destruct (m_ok (getVec vi j) _ _ Hb Hk (Hpre j Hv)) as (v' & Em & HR).
      rewrite <- Hg in Em. destruct (onVector_ok _ _ _ _ _ Em) as (vi2 & E2 & Hl).
      exists vi2. split; [done|]. intros i. rewrite Hl. specialize (HI i).
      destruct (decide (i = j)) as [->|Hne].
      * rewrite decide_True by (split; [done|lia]). eauto.
      * case_decide as H1; case_decide as H2; try done; exfalso; destruct_and?; auto with lia.
    + exists vi'. split; [done|]. intros i. specialize (HI i).
      case_decide as H1; case_decide as H2; try done; exfalso.
      * destruct H1. auto.
      * apply H1. split; [done|]. destruct H2 as (? & ? & ?). lia.
Qed.
End forVectors.

(** The versions of a row; a row of a vector without version info was inserted
    before every transaction and is not deleted. *)
Definition insV (vi : VersionInfo) (row : nat) : transaction_t :=
  match getVectorVersionInfo vi (row / CAP) with
  | Some v => insVersion v (row mod CAP)
  | None => 0%Z
  end.
Definition delV (vi : VersionInfo) (row : nat) : transaction_t :=
  match getVectorVersionInfo vi (row / CAP) with
  | Some v => delVersion v (row mod CAP)
  | None => INVALID_TRANSACTION
  end.
Definition rawDelV (vi : VersionInfo) (row : nat) : transaction_t :=
  match getVectorVersionInfo vi (row / CAP) with
  | Some v => rawDelVersion v (row mod CAP)
  | None => INVALID_TRANSACTION
  end.

Definition wf_versions (vi : VersionInfo) : Prop :=
  forall i v, getVectorVersionInfo vi i = Some v -> wf_vec v.

Lemma wf_getVec vi i : wf_versions vi -> wf_vec (getVec vi i).
Proof.
  intros Hwf. unfold getVec. destruct (getVectorVersionInfo vi i) eqn:E; simpl;
    [by eapply Hwf|auto with kuzu].
Qed.

(** What a transaction sees of a row. *)
Definition seen (vi : VersionInfo) (t : Transaction) (row : nat) : bool :=
  visible (startTS t) (ID t) (insV vi row) && negb (visible (startTS t) (ID t) (delV vi row)).

Definition wf_txn (t : Transaction) : Prop := wf_ids (startTS t) (ID t).

Lemma isInserted_insV vi t row :
  wf_versions vi -> wf_txn t -> isInserted vi t row = Ok (visible (startTS t) (ID t) (insV vi row)).
Proof.
  intros Hwf Ht. unfold isInserted, insV, getQuotientRemainder.
  destruct (getVectorVersionInfo vi (row / CAP)) as [v|] eqn:E.
  - apply isInserted_visible; [by eapply Hwf|done|apply mod_row].
  - by rewrite zero_visible.
Qed.

Lemma isDeleted_delV vi t row :
  wf_versions vi -> wf_txn t -> isDeleted vi t row = Ok (visible (startTS t) (ID t) (delV vi row)).
Proof.
  intros Hwf Ht. unfold isDeleted, delV, getQuotientRemainder.
  destruct (getVectorVersionInfo vi (row / CAP)) as [v|] eqn:E.
  - apply isDeleted_visible; [by eapply Hwf|done|apply mod_row].
  - by rewrite invalid_not_visible.
Qed.

(** A row of the version info that a range operation left, from the vector's. *)
Lemma insV_getVec vi row v :
  getVectorVersionInfo vi (row / CAP) = Some v -> insV vi row = insVersion v (row mod CAP).
Proof. intros E. unfold insV. by rewrite E. Qed.
Lemma delV_getVec vi row v :
  getVectorVersionInfo vi (row / CAP) = Some v -> delV vi row = delVersion v (row mod CAP).
Proof. intros E. unfold delV. by rewrite E. Qed.
Lemma delV_default vi row : delV vi row = delVersion (getVec vi (row / CAP)) (row mod CAP).
Proof. unfold delV, getVec. by destruct (getVectorVersionInfo vi (row / CAP)). Qed.
Lemma rawDelV_default vi row : rawDelV vi row = rawDelVersion (getVec vi (row / CAP)) (row mod CAP).
Proof. unfold rawDelV, getVec. by destruct (getVectorVersionInfo vi (row / CAP)). Qed.

(** Rows that a range operation's vectors do not contain keep their versions. *)
Lemma versions_same vi vi' row :
  getVectorVersionInfo vi' (row / CAP) = getVectorVersionInfo vi (row / CAP) ->
  insV vi' row = insV vi row /\ delV vi' row = delV vi row /\ rawDelV vi' row = rawDelV vi row.
Proof. intros E. unfold insV, delV, rawDelV. by rewrite E. Qed.

(** ** Inserting rows *)

(** Where rows can be appended: the vectors of the range are not of checkpointed
    rows, and the rows of the range are free. *)
Definition appendable (vi : VersionInfo) (start n : nat) : Prop :=
  forall i, inVectors start n i ->
    insertionStatus (getVec vi i) <> ALWAYS_INSERTED /\
    (insertionStatus (getVec vi i) = NO_INSERTED -> rangeStart start i = 0) /\
    (isSameInsertionVersion (getVec vi i) = true \/
     forall r, rangeStart start i <= r < rangeStart start i + rangeCount start n i ->
       insVersion (getVec vi i) r = INVALID_TRANSACTION).

Lemma append_vectors vi tid start n :
  wf_versions vi -> tid <> INVALID_TRANSACTION -> appendable vi start n ->
  exists vi', forVectors start n (fun i s k => onVector i (VectorVersion.append tid s k)) vi =
      (Ok tt, vi') /\ wf_versions vi' /\
    (forall row, start <= row < start + n -> insV vi' row = tid) /\
    (forall row, row < start -> insV vi' row = insV vi row) /\
    (forall row, delV vi' row = delV vi row).
Proof.
  intros Hwf Ht Happ.
  destruct (forVectors_ok (VectorVersion.append tid)
    (fun s k v => wf_vec v /\ insertionStatus v <> ALWAYS_INSERTED /\
      (insertionStatus v = NO_INSERTED -> s = 0) /\
      (isSameInsertionVersion v = true \/
       forall r, s <= r < s + k -> insVersion v r = INVALID_TRANSACTION))
    (fun s k v v' => wf_vec v' /\
      (forall r, r < s + k -> insVersion v' r = if decide (s <= r) then tid else insVersion v r) /\
      (forall r, delVersion v' r = delVersion v r))) with (vi := vi) (start := start) (n := n)
    as (vi' & E & H).
  - intros v s k Hb Hk (Hv & Ha & H0 & Hf).
    destruct (append_spec v tid s k) as (v' & ? & ? & ? & ? & ?); try done.
    { intros r Hr. destruct Hf as [Hf|Hf]; [by right|left; by apply Hf]. }
    exists v'. by split_and!.
  - intros i Hi. destruct (Happ i Hi) as (? & ? & ?). split_and!; try done. by apply wf_getVec.
  - exists vi'. split; [done|]. split_and!.
    + intros i v Hv. specialize (H i). case_decide; [|by rewrite H in Hv; eapply Hwf].
      destruct H as (v' & Hv' & ? & _). by simplify_eq.
    + intros row Hrow. apply row_in_range in Hrow as [Hi Hr]. specialize (H (row / CAP)).
      rewrite decide_True in H by done. destruct H as (v' & Hv' & _ & Hins & _).
      rewrite (insV_getVec _ _ _ Hv'), Hins by lia. by rewrite decide_True by lia.
    + intros row Hrow. pose proof (H (row / CAP)) as Hv. case_decide as Hi.
      * destruct Hv as (v' & Hv' & _ & Hins & _).
        pose proof (row_before_range _ _ _ Hrow Hi) as Hlt.
        rewrite (insV_getVec _ _ _ Hv'), Hins by lia. rewrite decide_False by lia.
        destruct (Happ _ Hi) as (_ & H0 & _). revert H0. unfold insV, getVec.
        destruct (getVectorVersionInfo vi (row / CAP)); [done|]. intros H0. specialize (H0 eq_refl). lia.
      * by apply versions_same.
    + intros row. specialize (H (row / CAP)). case_decide as Hi.
      * destruct H as (v' & Hv' & _ & _ & Hdel).
        by rewrite (delV_getVec _ _ _ Hv'), Hdel, delV_default.
      * by apply versions_same.
Qed.

(** ** Committing and rolling back *)

(** What stamping a range of the rows of [tid] with [new] does: the range gets
    [new], and a row outside it is changed only if it is a row of [tid] too. *)
Definition stamped (ver ver' : nat -> transaction_t) (tid new : transaction_t) (start n : nat) : Prop :=
  forall row,
    (start <= row < start + n -> ver' row = new) /\
    (~ (start <= row < start + n) -> ver' row = ver row \/ (ver row = tid /\ ver' row = new)).

Section stamp.
Context (vi : VersionInfo) (tid : transaction_t) (start n : nat).
Context (wf : wf_versions vi).

Lemma stamped_rows (ver : VersionInfo -> nat -> transaction_t)
    (verOf : VectorVersionInfo -> nat -> transaction_t) (same : VectorVersionInfo -> bool)
    vi' new :
  (forall w row v, getVectorVersionInfo w (row / CAP) = Some v -> ver w row = verOf v (row mod CAP)) ->
  (forall row, getVectorVersionInfo vi' (row / CAP) = getVectorVersionInfo vi (row / CAP) ->
     ver vi' row = ver vi row) ->
  (forall i, inVectors start n i -> getVectorVersionInfo vi i <> None) ->
  (forall v r r', wf_vec v -> same v = true -> verOf v r = verOf v r') ->
  (forall row, start <= row < start + n -> ver vi row = tid) ->
  (forall i, if decide (inVectors start n i)
      then exists v', getVectorVersionInfo vi' i = Some v' /\
        (forall r, verOf v' r =
           if decide (same (getVec vi i) = true \/
                      rangeStart start i <= r < rangeStart start i + rangeCount start n i)
           then new else verOf (getVec vi i) r)
      else getVectorVersionInfo vi' i = getVectorVersionInfo vi i) ->
  stamped (ver vi) (ver vi') tid new start n.
Proof.
  intros Hver Hkeep Hsome Hsame Htid H row. specialize (H (row / CAP)). split.
  - intros Hrow. apply row_in_range in Hrow as [Hi Hr].
    rewrite decide_True in H by done. destruct H as (v' & Hv' & Hins).
    rewrite (Hver _ _ _ Hv'), Hins. by rewrite decide_True by (by right).
  - intros Hrow. case_decide as Hi; [|left; by apply Hkeep].
    destruct H as (v' & Hv' & Hins). rewrite (Hver _ _ _ Hv'), Hins.
    destruct (getVectorVersionInfo vi (row / CAP)) as [v|] eqn:Hv; [|by destruct (Hsome _ Hi)].
    rewrite (Hver _ _ _ Hv). unfold getVec in *. rewrite Hv in *. simpl in *.
    clear Hins. destruct (decide _) as [Hd|Hd]; [|by left]. destruct Hd as [Hd|Hd].
    + right. split; [|done].
      destruct (range_bound _ _ _ Hi) as [Hb Hk].
      set (r0 := rangeStart start (row / CAP)) in *.
      rewrite (Hsame v _ r0) by (by eauto).
      assert (Hq : (row / CAP * CAP + r0) / CAP = row / CAP).
      { rewrite Nat.div_add_l by apply vector_capacity_ne0. rewrite (Nat.div_small r0) by lia. by rewrite Nat.add_0_r. }
      assert (Hm : (row / CAP * CAP + r0) mod CAP = r0).
      { rewrite Nat.add_comm, Nat.Div0.mod_add, (Nat.mod_small r0) by lia. done. }
      rewrite <- (Htid (row / CAP * CAP + r0)).
      * rewrite (Hver vi _ v), Hm; [done|]. by rewrite Hq.
      * apply (range_rows start n (row / CAP) r0 Hi); [lia|]. subst r0. lia.
    + destruct Hrow. apply row_in_range. done.
Qed.
End stamp.

Lemma insVersion_uncommitted v r tid :
  wf_vec v -> insVersion v r = tid -> tid <> INVALID_TRANSACTION -> tid <> 0%Z ->
  insertionStatus v = CHECK_INSERTED.
Proof. intros _ H H1 H2. unfold insVersion in H. destruct (insertionStatus v); congruence. Qed.

(** The first row of a vector's part of the range, as a row of the chunk. *)
Lemma range_first_row start n i :
  inVectors start n i ->
  exists row, start <= row < start + n /\ row / CAP = i /\ row mod CAP = rangeStart start i.
Proof.
  intros Hi. destruct (range_bound _ _ _ Hi) as [Hb Hk].
  exists (i * CAP + rangeStart start i). split; [|split].
  - apply range_rows; [done|lia|lia].
  - rewrite Nat.div_add_l by apply vector_capacity_ne0.
    rewrite (Nat.div_small (rangeStart start i)) by lia. by rewrite Nat.add_0_r.
  - rewrite Nat.add_comm, Nat.Div0.mod_add. apply Nat.mod_small. lia.
Qed.

(** A writer's ID. *)
Definition uncommitted (tid : transaction_t) : Prop :=
  (START_TRANSACTION_ID <= tid < INVALID_TRANSACTION)%Z.

Lemma uncommitted_ne tid : uncommitted tid -> tid <> INVALID_TRANSACTION /\ tid <> 0%Z.
Proof. unfold uncommitted, START_TRANSACTION_ID. intros [H1 H2]. lia. Qed.

Lemma owned_insert vi tid start n i :
  wf_versions vi -> uncommitted tid ->
  (forall row, start <= row < start + n -> insV vi row = tid) -> inVectors start n i ->
  getVectorVersionInfo vi i <> None /\ wf_vec (getVec vi i) /\
  insertionStatus (getVec vi i) = CHECK_INSERTED.
Proof.
  intros Hwf [H1 H2]%uncommitted_ne Hrows Hi.
  destruct (range_first_row _ _ _ Hi) as (row & Hrow & Hq & Hm).
  specialize (Hrows row Hrow). unfold insV in Hrows. rewrite Hq in Hrows. unfold getVec.
  destruct (getVectorVersionInfo vi i) as [v|] eqn:E; [|congruence]. simpl.
  assert (Hv : wf_vec v) by by eapply Hwf. split_and!; try done. by eapply insVersion_uncommitted.
Qed.

Lemma owned_delete vi tid start n i :
  wf_versions vi -> uncommitted tid ->
  (forall row, start <= row < start + n -> delV vi row = tid) -> inVectors start n i ->
  getVectorVersionInfo vi i <> None /\ wf_vec (getVec vi i) /\
  deletionStatus (getVec vi i) = CHECK_DELETED.
Proof.
  intros Hwf [H1 H2]%uncommitted_ne Hrows Hi.
  destruct (range_first_row _ _ _ Hi) as (row & Hrow & Hq & Hm).
  specialize (Hrows row Hrow). unfold delV in Hrows. rewrite Hq in Hrows. unfold getVec.
  destruct (getVectorVersionInfo vi i) as [v|] eqn:E; [|congruence]. simpl.
  assert (Hv : wf_vec v) by by eapply Hwf. split_and!; try done.
  unfold delVersion in Hrows. by destruct (deletionStatus v).
Qed.

Lemma insVersion_same_rows v r r' :
  wf_vec v -> isSameInsertionVersion v = true -> insVersion v r = insVersion v r'.
Proof.
  intros Hwf H. rewrite isSameInsertion_spec in H. apply bool_decide_eq_true in H.
  by rewrite !insVersion_same.
Qed.

Lemma delVersion_same_rows v r r' :
  wf_vec v -> isSameDeletionVersion v = true -> delVersion v r = delVersion v r'.
Proof. intros Hwf H. unfold delVersion, rawDelVersion. by rewrite H. Qed.

(** The vectors a range operation wrote are well formed by their own part of its
    result, the others as before. *)
Ltac wf_after Hwf H :=
  let i := fresh in let v := fresh in let Hv := fresh in
  intros i v Hv; specialize (H i); case_decide;
  [let v' := fresh in let Hv' := fresh in let Hw := fresh in
   destruct H as (v' & Hv' & Hw & _); rewrite Hv' in Hv; injection Hv as <-; exact Hw
  |rewrite H in Hv; exact (Hwf _ _ Hv)].

Lemma commitInsert_rows vi tid start n cts :
  wf_versions vi -> uncommitted tid -> cts <> INVALID_TRANSACTION ->
  (forall row, start <= row < start + n -> insV vi row = tid) ->
  exists vi', commitInsert start n cts vi = (Ok tt, vi') /\ wf_versions vi' /\
    stamped (insV vi) (insV vi') tid cts start n /\
    (forall row, delV vi' row = delV vi row).
Proof.
  intros Hwf Ht Hc Hrows.
  destruct (forVectors_ok (setInsertCommitTS cts)
    (fun s k v => wf_vec v /\ insertionStatus v = CHECK_INSERTED)
    (fun s k v v' => wf_vec v' /\ (forall r, insVersion v' r =
        if decide (isSameInsertionVersion v = true \/ s <= r < s + k) then cts else insVersion v r) /\
      (forall r, delVersion v' r = delVersion v r))) with (vi := vi) (start := start) (n := n)
    as (vi' & E & H).
  - intros v s k Hb Hk [Hv Hst]. destruct (setInsertCommitTS_spec v cts s k) as (v' & ? & ? & ? & ? & ?); eauto 6.
  - intros i Hi. by destruct (owned_insert _ _ _ _ _ Hwf Ht Hrows Hi).
  - exists vi'. split; [done|]. split; [wf_after Hwf H|]. split.
    + apply (stamped_rows vi tid start n Hwf insV insVersion isSameInsertionVersion);
        eauto using insV_getVec, insVersion_same_rows.
      * intros. by apply versions_same.
      * intros i Hi. by destruct (owned_insert _ _ _ _ _ Hwf Ht Hrows Hi).
      * intros i. specialize (H i). case_decide; [|done]. destruct H as (v' & ? & ? & ? & ?). eauto.
    + intros row. specialize (H (row / CAP)). case_decide; [|by apply versions_same].
      destruct H as (v' & Hv' & _ & _ & Hd). by rewrite (delV_getVec _ _ _ Hv'), Hd, delV_default.
Qed.

Lemma rollbackInsert_rows vi tid start n :
  wf_versions vi -> uncommitted tid ->
  (forall row, start <= row < start + n -> insV vi row = tid) ->
  exists vi', rollbackInsert start n vi = (Ok tt, vi') /\ wf_versions vi' /\
    stamped (insV vi) (insV vi') tid INVALID_TRANSACTION start n /\
    (forall row, insV vi' row <> INVALID_TRANSACTION -> delV vi' row = delV vi row).
Proof.
  intros Hwf Ht Hrows.
  destruct (forVectors_ok rollbackInsertions
    (fun s k v => wf_vec v /\ insertionStatus v = CHECK_INSERTED)
    (fun s k v v' => wf_vec v' /\ (forall r, insVersion v' r =
        if decide (isSameInsertionVersion v = true \/ s <= r < s + k)
        then INVALID_TRANSACTION else insVersion v r) /\
      (forall r, insVersion v' r <> INVALID_TRANSACTION -> delVersion v' r = delVersion v r)))
    with (vi := vi) (start := start) (n := n) as (vi' & E & H).
  - intros v s k Hb Hk [Hv Hst].
    destruct (rollbackInsertions_spec v s k) as (v' & ? & ? & ? & ? & ? & ?); eauto 6.
  - intros i Hi. by destruct (owned_insert _ _ _ _ _ Hwf Ht Hrows Hi).
  - exists vi'. split; [done|]. split; [wf_after Hwf H|]. split.
    + apply (stamped_rows vi tid start n Hwf insV insVersion isSameInsertionVersion);
        eauto using insV_getVec, insVersion_same_rows.
      * intros. by apply versions_same.
      * intros i Hi. by destruct (owned_insert _ _ _ _ _ Hwf Ht Hrows Hi).
      * intros i. specialize (H i). case_decide; [|done]. destruct H as (v' & ? & ? & ? & ?). eauto.
    + intros row. specialize (H (row / CAP)). case_decide; [|intros; by apply versions_same].
      destruct H as (v' & Hv' & _ & _ & Hd).
      rewrite (delV_getVec _ _ _ Hv'), (insV_getVec _ _ _ Hv'), delV_default. apply Hd.
Qed.

Lemma insV_default vi row :
  getVectorVersionInfo vi (row / CAP) <> None ->
  insV vi row = insVersion (getVec vi (row / CAP)) (row mod CAP).
Proof. intros H. unfold insV, getVec. by destruct (getVectorVersionInfo vi (row / CAP)). Qed.

Lemma commitDelete_rows vi tid start n cts :
  wf_versions vi -> uncommitted tid -> cts <> INVALID_TRANSACTION ->
  (forall row, start <= row < start + n -> delV vi row = tid) ->
  exists vi', commitDelete start n cts vi = (Ok tt, vi') /\ wf_versions vi' /\
    stamped (delV vi) (delV vi') tid cts start n /\
    (forall row, insV vi' row = insV vi row).
Proof.
  intros Hwf Ht Hc Hrows.
  destruct (forVectors_ok (setDeleteCommitTS cts)
    (fun s k v => wf_vec v /\ deletionStatus v = CHECK_DELETED)
    (fun s k v v' => wf_vec v' /\ (forall r, delVersion v' r =
        if decide (isSameDeletionVersion v = true \/ s <= r < s + k) then cts else delVersion v r) /\
      (forall r, insVersion v' r = insVersion v r))) with (vi := vi) (start := start) (n := n)
    as (vi' & E & H).
  - intros v s k Hb Hk [Hv Hst]. destruct (setDeleteCommitTS_spec v cts s k) as (v' & ? & ? & ? & ? & ?); eauto 6.
  - intros i Hi. by destruct (owned_delete _ _ _ _ _ Hwf Ht Hrows Hi).
  - exists vi'. split; [done|]. split; [wf_after Hwf H|]. split.
    + apply (stamped_rows vi tid start n Hwf delV delVersion isSameDeletionVersion);
        eauto using delV_getVec, delVersion_same_rows.
      * intros. by apply versions_same.
      * intros i Hi. by destruct (owned_delete _ _ _ _ _ Hwf Ht Hrows Hi).
      * intros i. specialize (H i). case_decide; [|done]. destruct H as (v' & ? & ? & ? & ?). eauto.
    + intros row. specialize (H (row / CAP)). case_decide as Hi; [|by apply versions_same].
      destruct H as (v' & Hv' & _ & _ & Hd).
      rewrite (insV_getVec _ _ _ Hv'), Hd, insV_default; [done|].
      by destruct (owned_delete _ _ _ _ _ Hwf Ht Hrows Hi).
Qed.

Lemma rollbackDelete_rows vi tid start n :
  wf_versions vi -> uncommitted tid ->
  (forall row, start <= row < start + n -> delV vi row = tid) ->
  exists vi', rollbackDelete start n vi = (Ok tt, vi') /\ wf_versions vi' /\
    stamped (delV vi) (delV vi') tid INVALID_TRANSACTION start n /\
    (forall row, insV vi' row = insV vi row).
Proof.
  intros Hwf Ht Hrows.
  destruct (forVectors_ok rollbackDeletions (fun s k v => wf_vec v)
    (fun s k v v' => deletionsRolledBack v s k v')) with (vi := vi) (start := start) (n := n)
    as (vi' & E & H).
  - intros v s k Hb Hk Hv. by apply rollbackDeletions_spec.
  - intros i Hi. by apply wf_getVec.
  - exists vi'. split; [done|]. split; [wf_after Hwf H|]. split.
    + apply (stamped_rows vi tid start n Hwf delV delVersion isSameDeletionVersion);
        eauto using delV_getVec, delVersion_same_rows.
      * intros. by apply versions_same.
      * intros i Hi. by destruct (owned_delete _ _ _ _ _ Hwf Ht Hrows Hi).
      * intros i. specialize (H i). case_decide; [|done].
        destruct H as (v' & ? & ? & ? & ? & ?). eauto.
    + intros row. specialize (H (row / CAP)). case_decide as Hi; [|by apply versions_same].
      destruct H as (v' & Hv' & _ & _ & _ & _ & Hd).
      rewrite (insV_getVec _ _ _ Hv'), Hd, insV_default; [done|].
      by destruct (owned_delete _ _ _ _ _ Hwf Ht Hrows Hi).
Qed.

(** ** Deleting a row *)

(** No deletion is stored behind a status that says there is none. *)
Definition noHiddenDeletion (vi : VersionInfo) : Prop := forall row, delV vi row = rawDelV vi row.

(** The vector's method, with the status change of the caller. *)
Definition deleteInVector (tid : transaction_t) (r : nat) : M VectorVersionInfo bool :=
  v <- sget ;;
  (if bool_decide (insertionStatus v = NO_INSERTED)
   then sput (setInsertionStatus ALWAYS_INSERTED v) else sret tt) ;;;
  VectorVersion.delete_ tid r.

(** The vector in which the row is deleted: created, it is all inserted. *)
Definition deleteTarget (vi : VersionInfo) (i : nat) : VectorVersionInfo :=
  match getVectorVersionInfo vi i with
  | Some v => v
  | None => setInsertionStatus ALWAYS_INSERTED newVectorVersionInfo
  end.

Lemma deleteInVector_target vi tid row :
  wf_versions vi -> insV vi row <> INVALID_TRANSACTION ->
  deleteInVector tid (row mod CAP) (getVec vi (row / CAP)) =
    VectorVersion.delete_ tid (row mod CAP) (deleteTarget vi (row / CAP)) /\
  wf_vec (deleteTarget vi (row / CAP)).
Proof.
  intros Hwf Hins. unfold deleteInVector, getVec, deleteTarget, insV in *. srun.
  destruct (getVectorVersionInfo vi (row / CAP)) as [v|] eqn:E; simpl.
  - rewrite bool_decide_eq_false_2; [split; [done|by eapply Hwf]|].
    intros H. unfold insVersion in Hins. by rewrite H in Hins.
  - by split.
Qed.

Lemma versions_target vi row :
  insV vi row = insVersion (deleteTarget vi (row / CAP)) (row mod CAP) /\
  delV vi row = delVersion (deleteTarget vi (row / CAP)) (row mod CAP) /\
  rawDelV vi row = rawDelVersion (deleteTarget vi (row / CAP)) (row mod CAP).
Proof. unfold insV, delV, rawDelV, deleteTarget. by destruct (getVectorVersionInfo vi (row / CAP)). Qed.

(** A version info in which one vector was replaced. *)
Definition updated (vi vi' : VersionInfo) (i : nat) (v' : VectorVersionInfo) : Prop :=
  forall j, getVectorVersionInfo vi' j = if decide (j = i) then Some v' else getVectorVersionInfo vi j.

Lemma updated_wf vi vi' i v' : updated vi vi' i v' -> wf_versions vi -> wf_vec v' -> wf_versions vi'.
Proof. intros H Hwf Hv j w. rewrite H. case_decide; [by intros [= <-]|by apply Hwf]. Qed.

Lemma updated_rows vi vi' i v' row :
  updated vi vi' i v' ->
  (row / CAP = i -> insV vi' row = insVersion v' (row mod CAP) /\ delV vi' row = delVersion v' (row mod CAP)
     /\ rawDelV vi' row = rawDelVersion v' (row mod CAP)) /\
  (row / CAP <> i -> insV vi' row = insV vi row /\ delV vi' row = delV vi row /\ rawDelV vi' row = rawDelV vi row).
Proof.
  intros H. split; intros Hq.
  - unfold insV, delV, rawDelV. by rewrite H, decide_True.
  - apply versions_same. by rewrite H, decide_False.
Qed.

Lemma same_row row row' : row / CAP = row' / CAP -> row mod CAP = row' mod CAP -> row = row'.
Proof. intros H1 H2. rewrite (div_mod_row row), (div_mod_row row'). congruence. Qed.

(** What [delete_] leaves when it does not delete: the same versions. *)
Definition sameVersions (vi vi' : VersionInfo) : Prop :=
  wf_versions vi' /\ noHiddenDeletion vi' /\
  forall row, insV vi' row = insV vi row /\ delV vi' row = delV vi row.

Lemma delete_vector_step vi tid row r v' :
  wf_versions vi -> insV vi row <> INVALID_TRANSACTION ->
  VectorVersion.delete_ tid (row mod CAP) (deleteTarget vi (row / CAP)) = (r, v') ->
  exists vi', onVector (row / CAP) (deleteInVector tid (row mod CAP)) vi = (r, vi') /\
    updated vi vi' (row / CAP) v'.
Proof.
  intros Hwf Hins Hd. destruct (deleteInVector_target vi tid row Hwf Hins) as [E _].
  rewrite Hd in E. exact (onVector_ok _ _ _ _ _ E).
Qed.

Lemma marked_sameVersions vi vi' i :
  wf_versions vi -> noHiddenDeletion vi -> wf_vec (deleteTarget vi i) ->
  updated vi vi' i (setDeletionStatus CHECK_DELETED (deleteTarget vi i)) ->
  wf_vec (setDeletionStatus CHECK_DELETED (deleteTarget vi i)) -> sameVersions vi vi'.
Proof.
  intros Hwf Hh Ht Hup Hwf'. split; [by eapply updated_wf|].
  assert (Hrows : forall row, insV vi' row = insV vi row /\ delV vi' row = delV vi row /\
    rawDelV vi' row = rawDelV vi row).
  { intros row. destruct (updated_rows _ _ _ _ row Hup) as [H1 H2].
    destruct (decide (row / CAP = i)) as [Hq|Hq]; [|by apply H2].
    destruct (H1 Hq) as (-> & -> & ->). destruct (versions_target vi row) as (-> & E & E').
    rewrite Hq in *. specialize (Hh row). rewrite E, E' in Hh. rewrite E, E'. by split_and!. }
  split; intros row; destruct (Hrows row) as (? & E & E'); [|done]. by rewrite E, E'.
Qed.

(** A row that is deleted for some version keeps its vector well formed when the
    status is set. *)
Lemma wf_set_checked v row :
  wf_vec v -> rawDelVersion v row <> INVALID_TRANSACTION -> wf_vec (setDeletionStatus CHECK_DELETED v).
Proof.
  intros Hwf Hraw. destruct Hwf as [H1 H2 H3 H4 H5]. split; simpl; try done.
  intros _ Hnone. unfold rawDelVersion in Hraw. rewrite isSameDeletion_spec, Hnone in Hraw.
  by case_bool_decide.
Qed.

Section delete.
Context (t : Transaction) (cng : loc) (row : nat) (s : WriteState) (es : list entry).
Context (Hwf : wf_versions (versions s)) (Ht : wf_txn t) (Hh : noHiddenDeletion (versions s)).
Context (Hins : insV (versions s) row <> INVALID_TRANSACTION).

Lemma txn_id_valid : ID t <> INVALID_TRANSACTION.
Proof. destruct Ht as [_ [_ H]]. lia. Qed.

Lemma delete_fresh_row :
  holds (undo s) es -> delV (versions s) row = INVALID_TRANSACTION ->
  exists s', delete_ t cng row s = (Ok true, s') /\ wf_versions (versions s') /\
    noHiddenDeletion (versions s') /\
    holds (undo s') (es ++ if shouldAppendToUndoBuffer t
                           then [(DELETE_INFO, VersionRecord cng row 1)] else []) /\
    delV (versions s') row = ID t /\
    (forall row', row' <> row -> delV (versions s') row' = delV (versions s) row') /\
    (forall row', insV (versions s') row' = insV (versions s) row').
Proof.
  intros Hu Hdel. pose proof txn_id_valid as Hid.
  destruct (deleteInVector_target _ (ID t) row Hwf Hins) as [_ Hwt].
  destruct (delete_new (deleteTarget (versions s) (row / CAP)) (ID t) (row mod CAP))
    as (v' & Ed & Hwf' & Hst & Hdv & _ & Hiv); [done|done|apply mod_row| |].
  { destruct (versions_target (versions s) row) as (_ & _ & <-). by rewrite <- Hh. }
  destruct (delete_vector_step _ _ _ _ _ Hwf Hins Ed) as (vi' & E & Hup).
  assert (Hrun : exists u', (if shouldAppendToUndoBuffer t then onUndo (createDeleteInfo cng row 1) else sret tt)
    (mkWrite vi' (undo s)) = (Ok tt, mkWrite vi' u') /\
    holds u' (es ++ if shouldAppendToUndoBuffer t then [(DELETE_INFO, VersionRecord cng row 1)] else [])).
  { destruct (shouldAppendToUndoBuffer t).
    - destruct (createRecord_holds (undo s) es DELETE_INFO (VersionRecord cng row 1) Hu) as (u' & Eu & Hu').
      exists u'. split; [|done]. unfold onUndo, szoom, createDeleteInfo, createVersionInfo. simpl. by rewrite Eu.
    - exists (undo s). by rewrite app_nil_r. }
  destruct Hrun as (u' & Eu & Hu'). exists (mkWrite vi' u'). split.
  { unfold delete_, getQuotientRemainder. fold (deleteInVector (ID t) (row mod CAP)).
    rewrite (sbind_ok _ _ _ true (mkWrite vi' (undo s))) by (unfold onVersions, szoom; by rewrite E).
    by rewrite (sbind_ok _ _ _ _ _ Eu). }
  cbn [versions undo].
  assert (Hrows : forall row', insV vi' row' = insV (versions s) row' /\
    delV vi' row' = (if decide (row' = row) then ID t else delV (versions s) row') /\
    delV vi' row' = rawDelV vi' row').
  { intros row'. destruct (updated_rows _ _ _ _ row' Hup) as [H1 H2].
    destruct (decide (row' / CAP = row / CAP)) as [Hq|Hq].
    - destruct (H1 Hq) as (-> & -> & ->). destruct (versions_target (versions s) row') as (-> & _ & E').
      specialize (Hh row'). rewrite E' in Hh. rewrite Hh, Hiv, Hdv, Hq. unfold delVersion in Hdv.
      rewrite Hst in Hdv. rewrite Hdv. split_and!; try done.
      destruct (decide (row' = row)) as [->|Hne]; [by rewrite decide_True|].
      rewrite decide_False; [done|]. intros Hm. by apply Hne, same_row.
    - destruct (H2 Hq) as (-> & -> & ->). split_and!; [done| |apply Hh].
      rewrite decide_False; [done|]. by intros ->. }
  split_and!; try done.
  - by eapply updated_wf.
  - intros row'. apply Hrows.
  - destruct (Hrows row) as (_ & -> & _). by rewrite decide_True.
  - intros row' Hne. destruct (Hrows row') as (_ & -> & _). by rewrite decide_False.
  - intros row'. apply Hrows.
Qed.

Lemma delete_unchanged (r : outcome bool) :
  delV (versions s) row <> INVALID_TRANSACTION ->
  r = (if decide (delV (versions s) row = ID t) then Ok false else Err wwConflict) ->
  exists vi', delete_ t cng row s = (r, mkWrite vi' (undo s)) /\ sameVersions (versions s) vi'.
Proof.
  intros Hdel ->. pose proof txn_id_valid as Hid.
  destruct (deleteInVector_target _ (ID t) row Hwf Hins) as [_ Hwt].
  destruct (versions_target (versions s) row) as (_ & E1 & E2). specialize (Hh row) as Hhr.
  assert (Ed : VectorVersion.delete_ (ID t) (row mod CAP) (deleteTarget (versions s) (row / CAP)) =
    (if decide (delV (versions s) row = ID t) then Ok false else Err wwConflict,
     setDeletionStatus CHECK_DELETED (deleteTarget (versions s) (row / CAP)))).
  { case_decide as Hd.
    - apply delete_again; [done|done|apply mod_row|congruence].
    - apply delete_conflict; [done|done|apply mod_row|congruence|congruence]. }
  destruct (delete_vector_step _ _ _ _ _ Hwf Hins Ed) as (vi' & E & Hup).
  exists vi'. split.
  - unfold delete_, getQuotientRemainder. fold (deleteInVector (ID t) (row mod CAP)).
    unfold sbind, onVersions, szoom. rewrite E. by case_decide.
  - eapply marked_sameVersions; try done.
    apply (wf_set_checked _ (row mod CAP)); [done|congruence].
Qed.
End delete.

(** ** Scanning *)

(** The rows of a vector as rows of the chunk. *)
Lemma seen_row vi t start i :
  wf_txn t -> start mod CAP + i < CAP ->
  seen vi t (start + i) =
    match getVectorVersionInfo vi (start / CAP) with
    | Some v => rowVisible v (startTS t) (ID t) (start mod CAP + i)
    | None => true
    end.
Proof.
  intros Ht Hi. pose proof vector_capacity_ne0.
  assert (Hq : (start + i) / CAP = start / CAP /\ (start + i) mod CAP = start mod CAP + i).
  { replace (start + i) with (start mod CAP + i + start / CAP * CAP)
      by (pose proof (div_mod_row start); lia).
    rewrite Nat.div_add, Nat.Div0.mod_add by done.
    rewrite (Nat.div_small (start mod CAP + i)), (Nat.mod_small (start mod CAP + i)) by lia. done. }
  destruct Hq as [Hq Hm]. unfold seen, insV, delV. rewrite Hq, Hm.
  destruct (getVectorVersionInfo vi (start / CAP)); [done|].
  by rewrite zero_visible, invalid_not_visible.
Qed.

Lemma single_vector start n :
  0 < n -> start mod CAP + n <= CAP ->
  (start + n - 1) / CAP = start / CAP /\ (start + n - 1) mod CAP = start mod CAP + n - 1.
Proof.
  intros Hn Hb. pose proof vector_capacity_ne0.
  replace (start + n - 1) with (start mod CAP + n - 1 + start / CAP * CAP)
    by (pose proof (div_mod_row start); lia).
  rewrite Nat.div_add, Nat.Div0.mod_add by done.
  rewrite (Nat.div_small (start mod CAP + n - 1)), (Nat.mod_small (start mod CAP + n - 1)) by lia. done.
Qed.

Lemma scanVector_spec vi t start n s :
  wf_versions vi -> wf_txn t -> start mod CAP + n <= CAP ->
  wf_sel s -> n <= capacity s -> isUnfiltered s = true -> selectedSize s = 0 ->
  exists s', scanVector vi (startTS t) (ID t) (start / CAP) (start mod CAP) n 0 s = (Ok tt, s') /\
    wf_sel s' /\ getSelectedPositions s' = keptPositions (fun i => seen vi t (start + i)) 0 n 0.
Proof.
  intros Hwf Ht Hn Hs Hcap Hu H0. unfold scanVector.
  rewrite (keptPositions_ext _ (fun i => match getVectorVersionInfo vi (start / CAP) with
    | Some v => rowVisible v (startTS t) (ID t) (start mod CAP + i) | None => true end))
    by (intros; apply seen_row; [done|lia]).
  destruct (getVectorVersionInfo vi (start / CAP)) as [v|] eqn:E.
  - destruct (getSelVectorForScan_spec v (startTS t) (ID t) (start mod CAP) n 0 s) as (s' & Es & ? & ? & Hp);
      try done; [by eapply Hwf|lia|].
    exists s'. split_and!; try done. rewrite Hp. unfold getSelectedPositions. by rewrite Hu, H0.
  - srun. rewrite Hu. unfold setSelSize. srun. rewrite H0, bool_decide_eq_true_2 by (simpl; lia).
    destruct Hs as [Hs1 Hs2]. eexists. split; [reflexivity|].
    split; [split; simpl; lia|]. unfold getSelectedPositions. simpl. rewrite Hu.
    by rewrite keptPositions_all.
Qed.

Lemma getSelVectorToScan_single vi t start n s :
  wf_versions vi -> wf_txn t -> 0 < n -> start mod CAP + n <= CAP ->
  wf_sel s -> n <= capacity s ->
  exists s', getSelVectorToScan vi (startTS t) (ID t) start n s = (Ok tt, s') /\ wf_sel s' /\
    getSelectedPositions s' = keptPositions (fun i => seen vi t (start + i)) 0 n 0.
Proof.
  intros Hwf Ht Hn Hb [Hs1 Hs2] Hcap. unfold getSelVectorToScan.
  rewrite bool_decide_eq_false_2 by lia.
  set (s0 := mkSel 0 (capacity s) (selectedPositionsBuffer s) true).
  rewrite (sbind_ok _ _ _ tt s0).
  2:{ unfold setToUnfiltered. srun. by rewrite bool_decide_eq_true_2 by lia. }
  destruct (scanVector_spec vi t start n s0) as (s' & E & Hwf' & Hp); try done; [split; simpl; lia|].
  unfold forVectors, getQuotientRemainder. rewrite bool_decide_eq_false_2 by lia.
  destruct (single_vector start n Hn Hb) as [-> ->].
  replace (start / CAP + 1 - start / CAP) with 1 by lia. cbn [sfor].
  rewrite !bool_decide_eq_true_2 by done.
  replace (start mod CAP + n - 1 - start mod CAP + 1) with n by lia.
  exists s'. split; [|done]. srun. cbn [fst]. rewrite E. cbn [snd].
  by rewrite bool_decide_eq_true_2 by lia.
Qed.

(** ** Serialization *)
Lemma codec_versions vi :
  wf_versions vi -> (forall v, In (Some v) vi -> checkpointed v) -> (Z.of_nat (length vi) < 2 ^ 64)%Z ->
  codec serialize deserialize vi.
Proof.
  intros Hwf Hck Hlen. apply codec_Vector; [|done]. apply Forall_forall. intros o Ho.
  destruct o as [v|].
  - assert (Hv : wf_vec v).
    { apply list_elem_of_In, list_elem_of_lookup in Ho as [i Hi]. apply (Hwf i). rewrite getVectorVersionInfo_lookup. by rewrite Hi. }
    destruct (codec_VectorVersionInfo v Hv) as (bs & Hw & Hr); [by apply Hck|].
    exists (1%Z :: bs). split.
    + intros out. unfold serializeVectorOpt. erewrite sbind_ok; [|reflexivity].
      rewrite Hw. simpl. by rewrite <- app_assoc.
    + intros rest. unfold deserializeVectorOpt. simpl.
      rewrite (sbind_ok _ _ _ true (bs ++ rest)) by reflexivity. by rewrite (sbind_ok _ _ _ _ _ (Hr rest)).
  - exists [0%Z]. by split.
Qed.

(** ** Counting deletions *)

Definition deletedFor (vi : VersionInfo) (t : Transaction) (start n : nat) : list nat :=
  List.filter (fun row => visible (startTS t) (ID t) (delV vi row)) (seq start n).

Lemma deletedFor_app vi t start n m :
  deletedFor vi t start (n + m) = deletedFor vi t start n ++ deletedFor vi t (start + n) m.
Proof. unfold deletedFor. by rewrite seq_app, List.filter_app. Qed.

Lemma delV_at vi i r : r < CAP ->
  delV vi (i * CAP + r) = delVersion (getVec vi i) r.
Proof.
  intros Hr. rewrite delV_default. rewrite Nat.div_add_l by apply vector_capacity_ne0.
  rewrite (Nat.div_small r), Nat.add_0_r by done. f_equal.
  rewrite Nat.add_comm, Nat.Div0.mod_add. by apply Nat.mod_small.
Qed.

Lemma deletedFor_vector vi t i s k :
  s + k <= CAP ->
  length (deletedFor vi t (i * CAP + s) k) =
    length (deletedRows (getVec vi i) (startTS t) (ID t) s k).
Proof.
  unfold deletedFor, deletedRows. revert s. induction k as [|k IH]; intros s Hk; [done|].
  cbn [seq List.filter]. rewrite delV_at by lia.
  specialize (IH (S s)). rewrite Nat.add_succ_r in IH.
  destruct (visible _ _ _); cbn [length]; rewrite IH by lia; done.
Qed.

(** One vector's contribution, whether or not it has version info. *)
Lemma numDeletions_vector vi t i s k :
  wf_versions vi -> wf_txn t -> s + k <= CAP ->
  (match getVectorVersionInfo vi i with
   | Some v => VectorVersion.getNumDeletions v (startTS t) (ID t) s k
   | None => Ok 0
   end) = Ok (length (deletedFor vi t (i * CAP + s) k)).
Proof.
  intros Hwf Ht Hk. rewrite deletedFor_vector by done. unfold getVec.
  destruct (getVectorVersionInfo vi i) as [v|] eqn:E; simpl.
  - apply getNumDeletions_vec; [by eapply Hwf|done|done].
  - rewrite <- (getNumDeletions_vec newVectorVersionInfo) by auto with kuzu. done.
Qed.

(** The part of the loop before vector [j]. *)
Lemma range_next start n i :
  inVectors start n i ->
  let before j := Nat.min n (j * CAP - start) in
  start + before i = i * CAP + rangeStart start i /\
  before i + rangeCount start n i = before (i + 1).
Proof.
  intros Hi. destruct (range_bound _ _ _ Hi) as [Hb Hk]. destruct Hi as (Hn & Hlo & Hhi).
  pose proof vector_capacity_pos.
  pose proof (Nat.div_mod_eq start CAP). pose proof (Nat.mod_upper_bound start CAP).
  pose proof (Nat.div_mod_eq (start + n - 1) CAP).
  pose proof (Nat.mod_upper_bound (start + n - 1) CAP).
  unfold rangeCount, rangeStart in *.
  set (q := start / CAP) in *. set (q' := (start + n - 1) / CAP) in *.
  destruct (mul_le_cases _ _ CAP Hlo) as [<-|], (mul_le_cases _ _ CAP Hhi) as [E|];
    try (rewrite <- E in *; clear E); repeat case_bool_decide; lia.
Qed.

Lemma numRows_ternaries start n i :
  inVectors start n i ->
  (if bool_decide (i = (start + n - 1) / CAP)
   then (start + n - 1) mod CAP - rangeStart start i + 1 else CAP - rangeStart start i) =
  rangeCount start n i.
Proof.
  intros Hi. destruct (range_bound _ _ _ Hi) as [Hb Hk]. unfold rangeCount in *.
  case_bool_decide; [done|].
  assert (rangeStart start i < CAP); [|lia].
  unfold rangeStart. pose proof (mod_row start). pose proof vector_capacity_pos.
  case_bool_decide; lia.
Qed.

Lemma getNumDeletions_rows vi t start n :
  wf_versions vi -> wf_txn t ->
  getNumDeletions vi t start n = Ok (length (deletedFor vi t start n)).
Proof.
  intros Hwf Ht. unfold getNumDeletions. case_bool_decide as Hn; [by subst n|].
  unfold getQuotientRemainder.
  set (body := fun vectorIdx => _).
  destruct (sfor_inv (fun j acc => acc = length (deletedFor vi t start (Nat.min n (j * CAP - start))))
    (start / CAP) ((start + n - 1) / CAP + 1 - start / CAP) body 0) as (acc & E & Hacc).
  - replace (start / CAP * CAP - start) with 0 by (pose proof (div_mod_row start); lia).
    by rewrite Nat.min_0_r.
  - intros i acc Hi ->. assert (Hv : inVectors start n i) by (split; lia).
    destruct (range_next start n i Hv) as [H1 H2]. destruct (range_bound _ _ _ Hv) as [Hb _].
    pose proof (numDeletions_vector vi t i _ _ Hwf Ht Hb) as Hk.
    eexists. split; [|rewrite <- Nat.add_1_r, <- H2, deletedFor_app, length_app, H1; reflexivity].
    subst body. cbn beta zeta. fold (rangeStart start i). rewrite numRows_ternaries by done.
    destruct (getVectorVersionInfo vi i) as [v|].
    + rewrite Hk. done.
    + injection Hk as <-. by rewrite Nat.add_0_r.
  - rewrite E. rewrite Hacc. do 3 f_equal. apply Nat.min_l.
    pose proof (Nat.div_mod_eq (start + n - 1) CAP). pose proof (mod_row (start + n - 1)).
    pose proof (Nat.Div0.div_le_mono start (start + n - 1) CAP). nia.
Qed.

(** ** Properties *)

Definition committedTS (cts : transaction_t) : Prop := (0 <= cts < START_TRANSACTION_ID)%Z.

Lemma committedTS_ne cts : committedTS cts -> cts <> INVALID_TRANSACTION.
Proof. unfold committedTS, START_TRANSACTION_ID, INVALID_TRANSACTION. lia. Qed.

Lemma txn_uncommitted t : wf_txn t -> uncommitted (ID t).
Proof. intros [_ H]. exact H. Qed.

Lemma append_run t cng start n s es :
  wf_versions (versions s) -> wf_txn t -> appendable (versions s) start n -> 0 < n ->
  shouldAppendToUndoBuffer t = true -> holds (undo s) es ->
  exists s', append t cng start n s = (Ok tt, s') /\ wf_versions (versions s') /\
    holds (undo s') (es ++ [(INSERT_INFO, VersionRecord cng start n)]) /\
    (forall row, start <= row < start + n -> insV (versions s') row = ID t) /\
    (forall row, row < start -> insV (versions s') row = insV (versions s) row) /\
    (forall row, delV (versions s') row = delV (versions s) row).
Proof.
  intros Hwf Ht Happ Hn Hundo Hu.
  destruct (append_vectors (versions s) (ID t) start n Hwf) as (vi' & E & ? & ? & ? & ?);
    [by apply uncommitted_ne, txn_uncommitted|done|].
  destruct (createRecord_holds (undo s) es INSERT_INFO (VersionRecord cng start n) Hu) as (u' & Eu & ?).
  exists (mkWrite vi' u'). split; [|by split_and!].
  unfold append. rewrite bool_decide_eq_false_2 by lia.
  rewrite (sbind_ok _ _ _ tt (mkWrite vi' (undo s))) by (unfold onVersions, szoom; by rewrite E).
  rewrite Hundo. unfold onUndo, szoom, createInsertInfo, createVersionInfo. simpl. by rewrite Eu.
Qed.

(** Inserted rows are isolated: after [append], the inserting transaction sees
    its rows, no other running transaction does, the rows before them and all
    deletions are as they were, and the undo buffer has one more insert record. *)
Theorem append_isolated t cng start n s es :
  wf_versions (versions s) -> wf_txn t -> appendable (versions s) start n -> 0 < n ->
  shouldAppendToUndoBuffer t = true -> holds (undo s) es ->
  exists s', append t cng start n s = (Ok tt, s') /\
    iterate (undo s') = Ok (es ++ [(INSERT_INFO, VersionRecord cng start n)]) /\
    (forall row, start <= row < start + n -> isInserted (versions s') t row = Ok true) /\
    (forall t' row, wf_txn t' -> ID t' <> ID t -> start <= row < start + n ->
       isInserted (versions s') t' row = Ok false) /\
    (forall t' row, wf_txn t' -> row < start ->
       isInserted (versions s') t' row = isInserted (versions s) t' row) /\
    (forall t' row, wf_txn t' ->
       isDeleted (versions s') t' row = isDeleted (versions s) t' row).
Proof.
  intros Hwf Ht Happ Hn Hundo Hu.
  destruct (append_run t cng start n s es) as (s' & E & Hwf' & Hu' & Hnew & Hold & Hdel); try done.
  exists s'. split_and!; [done|by apply iterate_holds| | | |].
  - intros row Hr. by rewrite isInserted_insV, Hnew, own_visible.
  - intros t' row Ht' Hne Hr. rewrite isInserted_insV, Hnew by done. f_equal.
    apply uncommitted_invisible; [done| |done]. by destruct Ht as [_ [? _]].
  - intros t' row Ht' Hr. by rewrite !isInserted_insV, Hold.
  - intros t' row Ht'. by rewrite !isDeleted_delV, Hdel.
Qed.

(** Committing an insertion makes its rows visible exactly to the transactions
    that start at or after the commit timestamp; rows of other transactions keep
    their visibility. *)
Theorem commitInsert_snapshot vi tid start n cts :
  wf_versions vi -> uncommitted tid -> committedTS cts ->
  (forall row, start <= row < start + n -> insV vi row = tid) ->
  exists vi', commitInsert start n cts vi = (Ok tt, vi') /\ wf_versions vi' /\
    (forall t row, wf_txn t -> start <= row < start + n ->
       isInserted vi' t row = Ok (cts <=? startTS t)%Z) /\
    (forall t row, wf_txn t -> insV vi row <> tid -> isInserted vi' t row = isInserted vi t row) /\
    (forall t row, wf_txn t -> isDeleted vi' t row = isDeleted vi t row).
Proof.
  intros Hwf Htid Hc Hrows.
  destruct (commitInsert_rows vi tid start n cts) as (vi' & E & Hwf' & Hst & Hdel); eauto using committedTS_ne.
  exists vi'. split_and!; try done.
  - intros t row Ht Hr. rewrite isInserted_insV by done. destruct (Hst row) as [-> _]; [|done].
    f_equal. by apply committed_visible.
  - intros t row Ht Hne. rewrite !isInserted_insV by done.
    destruct (Hst row) as [_ H]. destruct H as [->|[? _]]; [by intros ?%Hrows|done|done].
  - intros t row Ht. by rewrite !isDeleted_delV, Hdel.
Qed.

(** Rolling back an insertion hides its rows from every transaction; rows of
    other transactions keep their visibility, and no row comes back deleted that
    is still inserted. *)
Theorem rollbackInsert_hides vi tid start n :
  wf_versions vi -> uncommitted tid ->
  (forall row, start <= row < start + n -> insV vi row = tid) ->
  exists vi', rollbackInsert start n vi = (Ok tt, vi') /\ wf_versions vi' /\
    (forall t row, wf_txn t -> start <= row < start + n -> isInserted vi' t row = Ok false) /\
    (forall t row, wf_txn t -> insV vi row <> tid -> isInserted vi' t row = isInserted vi t row) /\
    (forall t row, wf_txn t -> isInserted vi' t row = Ok true ->
       isDeleted vi' t row = isDeleted vi t row).
Proof.
  intros Hwf Htid Hrows.
  destruct (rollbackInsert_rows vi tid start n) as (vi' & E & Hwf' & Hst & Hdel); try done.
  exists vi'. split_and!; try done.
  - intros t row Ht Hr. rewrite isInserted_insV by done. destruct (Hst row) as [-> _]; [|done].
    f_equal. by apply invalid_not_visible.
  - intros t row Ht Hne. rewrite !isInserted_insV by done.
    destruct (Hst row) as [_ H]. destruct H as [->|[? _]]; [by intros ?%Hrows|done|done].
  - intros t row Ht Hi. rewrite !isDeleted_delV by done. do 2 f_equal. apply Hdel.
    intros E'. rewrite isInserted_insV, E', invalid_not_visible in Hi by done. done.
Qed.

(** C24. Deleting a row the transaction can see as inserted has exactly one of three
    results: a row nobody deleted becomes deleted by the transaction, with one
    delete record in its undo buffer and no other row affected; a row it already
    deleted is reported as not newly deleted; a row with another deletion, committed
    or not, is a write-write conflict.  In the last two cases no version and no undo
    record changes. *)
Theorem delete_outcomes t cng row s es :
  wf_versions (versions s) -> wf_txn t -> noHiddenDeletion (versions s) ->
  isInserted (versions s) t row = Ok true ->
  shouldAppendToUndoBuffer t = true -> holds (undo s) es ->
  (delV (versions s) row = INVALID_TRANSACTION ->
     exists s', delete_ t cng row s = (Ok true, s') /\ wf_versions (versions s') /\
       noHiddenDeletion (versions s') /\
       iterate (undo s') = Ok (es ++ [(DELETE_INFO, VersionRecord cng row 1)]) /\
       delV (versions s') row = ID t /\
       (forall row', row' <> row -> delV (versions s') row' = delV (versions s) row') /\
       (forall row', insV (versions s') row' = insV (versions s) row')) /\
  (delV (versions s) row = ID t ->
     exists vi', delete_ t cng row s = (Ok false, mkWrite vi' (undo s)) /\ sameVersions (versions s) vi') /\
  (delV (versions s) row <> INVALID_TRANSACTION -> delV (versions s) row <> ID t ->
     exists vi', delete_ t cng row s = (Err wwConflict, mkWrite vi' (undo s)) /\
       sameVersions (versions s) vi').
Proof.
  intros Hwf Ht Hh Hi Hundo Hu.
  assert (Hins : insV (versions s) row <> INVALID_TRANSACTION).
  { intros E. rewrite isInserted_insV, E, invalid_not_visible in Hi by done. done. }
  split_and!.
  - intros Hd. destruct (delete_fresh_row t cng row s es) as (s' & ? & ? & ? & Hu' & ? & ? & ?); try done.
    rewrite Hundo in Hu'. exists s'. split_and!; try done. by apply iterate_holds.
  - intros Hd. apply delete_unchanged; try done; [rewrite Hd; by apply txn_id_valid|].
    by rewrite decide_True.
  - intros Hd Hne. apply delete_unchanged; try done. by rewrite decide_False.
Qed.

(** Committing a deletion hides the row exactly from the transactions that start
    at or after the commit timestamp, and rolling it back restores it for all. *)
Theorem delete_end vi tid start n cts :
  wf_versions vi -> uncommitted tid -> committedTS cts ->
  (forall row, start <= row < start + n -> delV vi row = tid) ->
  (exists vi', commitDelete start n cts vi = (Ok tt, vi') /\ wf_versions vi' /\
     (forall t row, wf_txn t -> start <= row < start + n ->
        isDeleted vi' t row = Ok (cts <=? startTS t)%Z) /\
     (forall t row, wf_txn t -> delV vi row <> tid -> isDeleted vi' t row = isDeleted vi t row) /\
     (forall t row, wf_txn t -> isInserted vi' t row = isInserted vi t row)) /\
  (exists vi', rollbackDelete start n vi = (Ok tt, vi') /\ wf_versions vi' /\
     (forall t row, wf_txn t -> start <= row < start + n -> isDeleted vi' t row = Ok false) /\
     (forall t row, wf_txn t -> delV vi row <> tid -> isDeleted vi' t row = isDeleted vi t row) /\
     (forall t row, wf_txn t -> isInserted vi' t row = isInserted vi t row)).
Proof.
  intros Hwf Htid Hc Hrows. split.
  - destruct (commitDelete_rows vi tid start n cts) as (vi' & E & Hwf' & Hst & Hins); eauto using committedTS_ne.
    exists vi'. split_and!; try done; intros t row Ht; [intros Hr|intros Hne|].
    + rewrite isDeleted_delV by done. destruct (Hst row) as [-> _]; [|done].
      f_equal. by apply committed_visible.
    + rewrite !isDeleted_delV by done.
      destruct (Hst row) as [_ H]. destruct H as [->|[? _]]; [by intros ?%Hrows|done|done].
    + by rewrite !isInserted_insV, Hins.
  - destruct (rollbackDelete_rows vi tid start n) as (vi' & E & Hwf' & Hst & Hins); try done.
    exists vi'. split_and!; try done; intros t row Ht; [intros Hr|intros Hne|].
    + rewrite isDeleted_delV by done. destruct (Hst row) as [-> _]; [|done].
      f_equal. by apply invalid_not_visible.
    + rewrite !isDeleted_delV by done.
      destruct (Hst row) as [_ H]. destruct H as [->|[? _]]; [by intros ?%Hrows|done|done].
    + by rewrite !isInserted_insV, Hins.
Qed.

(** C25. A scan of rows within one vector selects, in order, exactly the positions of
    the rows the transaction sees: inserted for it and not deleted for it. *)
Theorem scan_selects_seen vi t start n s :
  wf_versions vi -> wf_txn t -> 0 < n -> start mod CAP + n <= CAP -> wf_sel s -> n <= capacity s ->
  exists s', getSelVectorToScan vi (startTS t) (ID t) start n s = (Ok tt, s') /\
    getSelectedPositions s' = List.filter (fun i => seen vi t (start + i)) (seq 0 n).
Proof.
  intros. destruct (getSelVectorToScan_single vi t start n s) as (s' & ? & _ & Hp); try done.
  exists s'. split; [done|]. rewrite Hp. unfold keptPositions. rewrite <- (list_fmap_id (List.filter _ _)) at 2.
  by apply list_fmap_ext.
Qed.

(** [getNumDeletions] counts the rows of the range that are deleted for the
    transaction, across vector boundaries. *)
Theorem getNumDeletions_counts vi t start n :
  wf_versions vi -> wf_txn t ->
  getNumDeletions vi t start n =
    Ok (length (List.filter (fun row => visible (startTS t) (ID t) (delV vi row)) (seq start n))).
Proof. apply getNumDeletions_rows. Qed.

(** A checkpointed version info survives serialization. *)
Theorem versions_roundtrip vi :
  wf_versions vi -> (forall v, In (Some v) vi -> checkpointed v) -> (Z.of_nat (length vi) < 2 ^ 64)%Z ->
  exists bs, serialize vi [] = (Ok tt, bs) /\
    forall rest, deserialize (bs ++ rest) = (Ok vi, rest).
Proof.
  intros Hwf Hck Hlen. destruct (codec_versions vi Hwf Hck Hlen) as (bs & Hw & Hr).
  exists bs. split; [by rewrite Hw|done].
Qed.

(** ** The properties at concrete inputs *)

Definition exampleTxn : Transaction := newTransaction WRITE (START_TRANSACTION_ID + 1)%Z 5%Z.
Definition laterTxn : Transaction := newTransaction WRITE (START_TRANSACTION_ID + 2)%Z 9%Z.
(** A vector of three rows inserted by [exampleTxn], of which it deleted row 1. *)
Definition exampleVersions : VersionInfo :=
  [Some (mkVVI None (Some (<[1 := ID exampleTxn]> emptyVersions)) (ID exampleTxn) INVALID_TRANSACTION
           CHECK_INSERTED CHECK_DELETED)].

Lemma wf_exampleTxn : wf_txn exampleTxn.
Proof. split; vm_compute; intuition congruence. Qed.
Lemma wf_laterTxn : wf_txn laterTxn.
Proof. split; vm_compute; intuition congruence. Qed.
Lemma uncommitted_example : uncommitted (ID exampleTxn).
Proof. apply txn_uncommitted, wf_exampleTxn. Qed.
Lemma wf_versions_nil : wf_versions [].
Proof. intros i v. by rewrite getVectorVersionInfo_lookup, lookup_nil. Qed.
Lemma wf_exampleVersions : wf_versions exampleVersions.
Proof.
  intros i v. rewrite getVectorVersionInfo_lookup. destruct i; [|done]. intros [= <-].
  split; try done. simpl. intros ? [= <-]. by rewrite length_insert, length_emptyVersions.
Qed.
Lemma appendable_nil n : n <= CAP -> appendable [] 0 n.
Proof.
  intros Hn i (Hn0 & _ & Hi). pose proof vector_capacity_ne0.
  rewrite (Nat.div_small (0 + n - 1)) in Hi by lia.
  replace i with 0 by lia. split_and!; [done|..].
  - intros _. unfold rangeStart. case_bool_decide; [|done]. by apply Nat.Div0.mod_0_l.
  - by right.
Qed.
Lemma exampleVersions_ins row : row < 3 -> insV exampleVersions row = ID exampleTxn.
Proof.
  intros H. unfold insV. rewrite (Nat.div_small row); [done|].
  apply (Nat.lt_trans _ 3); [done|]. apply (proj1 (Nat.ltb_lt _ _)). by vm_compute.
Qed.
Lemma exampleVersions_del row : 1 <= row < 1 + 1 -> delV exampleVersions row = ID exampleTxn.
Proof. intros H. replace row with 1 by lia. by vm_compute. Qed.

Lemma append_isolated_witness : exists s',
  append exampleTxn 7 0 3 (mkWrite [] []) = (Ok tt, s') /\
  isInserted (versions s') exampleTxn 1 = Ok true /\ isInserted (versions s') laterTxn 1 = Ok false.
Proof.
  destruct (append_isolated exampleTxn 7 0 3 (mkWrite [] []) [] wf_versions_nil wf_exampleTxn)
    as (s' & E & _ & H1 & H2 & _).
  - apply appendable_nil. apply (proj1 (Nat.leb_le _ _)). by vm_compute.
  - lia.
  - by vm_compute.
  - apply holds_empty.
  - exists s'. split; [done|]. split; [apply H1; lia|]. apply H2; [apply wf_laterTxn|done|lia].
Defined.

Lemma commitInsert_snapshot_witness : exists vi',
  commitInsert 0 3 7%Z exampleVersions = (Ok tt, vi') /\
  isInserted vi' laterTxn 2 = Ok true /\ isInserted vi' exampleTxn 2 = Ok false.
Proof.
  destruct (commitInsert_snapshot exampleVersions (ID exampleTxn) 0 3 7%Z wf_exampleVersions
    uncommitted_example) as (vi' & E & _ & H1 & _).
  - split; by vm_compute.
  - intros row Hr. apply exampleVersions_ins. lia.
  - exists vi'. split; [done|]. split; [apply (H1 laterTxn); [apply wf_laterTxn|lia]|].
    apply (H1 exampleTxn); [apply wf_exampleTxn|lia].
Defined.

Lemma rollbackInsert_hides_witness : exists vi',
  rollbackInsert 0 3 exampleVersions = (Ok tt, vi') /\ isInserted vi' exampleTxn 0 = Ok false.
Proof.
  destruct (rollbackInsert_hides exampleVersions (ID exampleTxn) 0 3 wf_exampleVersions
    uncommitted_example) as (vi' & E & _ & H1 & _).
  - intros row Hr. apply exampleVersions_ins. lia.
  - exists vi'. split; [done|]. apply H1; [apply wf_exampleTxn|lia].
Defined.

Lemma noHidden_nil : noHiddenDeletion [].
Proof. intros row. unfold delV, rawDelV. by rewrite getVectorVersionInfo_lookup, lookup_nil. Qed.

Lemma delete_outcomes_witness : exists s',
  delete_ exampleTxn 7 4 (mkWrite [] []) = (Ok true, s') /\ delV (versions s') 4 = ID exampleTxn.
Proof.
  destruct (delete_outcomes exampleTxn 7 4 (mkWrite [] []) [] wf_versions_nil wf_exampleTxn noHidden_nil)
    as [H _]; [by vm_compute|by vm_compute|apply holds_empty|].
  destruct H as (s' & E & _ & _ & _ & Hd & _); [by vm_compute|]. by exists s'.
Defined.

Lemma delete_end_witness : exists vi',
  commitDelete 1 1 7%Z exampleVersions = (Ok tt, vi') /\
  isDeleted vi' laterTxn 1 = Ok true /\ isDeleted vi' exampleTxn 1 = Ok false.
Proof.
  destruct (delete_end exampleVersions (ID exampleTxn) 1 1 7%Z wf_exampleVersions uncommitted_example)
    as [H _]; [split; by vm_compute|intros row Hr; apply exampleVersions_del; lia|].
  destruct H as (vi' & E & _ & H1 & _). exists vi'. split; [done|].
  split; [apply (H1 laterTxn); [apply wf_laterTxn|lia]|].
  apply (H1 exampleTxn); [apply wf_exampleTxn|lia].
Defined.

Lemma scan_selects_seen_witness : exists s',
  getSelVectorToScan exampleVersions (startTS exampleTxn) (ID exampleTxn) 0 3 (newSelectionVector 4) = (Ok tt, s') /\
  getSelectedPositions s' = [0; 2].
Proof.
  destruct (scan_selects_seen exampleVersions exampleTxn 0 3 (newSelectionVector 4) wf_exampleVersions
    wf_exampleTxn) as (s' & E & Hp); [lia| |split; simpl; lia|simpl; lia|].
  - apply (proj1 (Nat.leb_le _ _)). by vm_compute.
  - exists s'. split; [done|]. rewrite Hp. by vm_compute.
Defined.

Lemma getNumDeletions_counts_witness : getNumDeletions exampleVersions exampleTxn 0 3 = Ok 1.
Proof.
  rewrite (getNumDeletions_counts exampleVersions exampleTxn 0 3 wf_exampleVersions wf_exampleTxn).
  by vm_compute.
Defined.

(** A checkpointed vector with a committed deletion. *)
Definition checkpointedVersions : VersionInfo :=
  [None; Some (mkVVI None (Some (<[0 := 3%Z]> emptyVersions)) INVALID_TRANSACTION INVALID_TRANSACTION
     ALWAYS_INSERTED CHECK_DELETED)].
Lemma wf_checkpointedVersions : wf_versions checkpointedVersions.
Proof.
  intros i v. rewrite getVectorVersionInfo_lookup. destruct i as [|[|i]]; [done| |done].
  intros [= <-]. split; try done. simpl. intros ? [= <-]. by rewrite length_insert, length_emptyVersions.
Qed.

Lemma versions_roundtrip_witness : exists bs,
  serialize checkpointedVersions [] = (Ok tt, bs) /\ deserialize bs = (Ok checkpointedVersions, []).
Proof.
  destruct (versions_roundtrip checkpointedVersions wf_checkpointedVersions) as (bs & Hw & Hr).
  - intros v [H|[H|[]]]; [done|]. injection H as <-. split; simpl; try done.
    intros l [= <-]. apply Forall_insert; [by apply Forall_replicate|done].
  - done.
  - exists bs. split; [done|]. rewrite <- (app_nil_r bs). apply Hr.
Defined.

(** A scan that spans two vectors, the first without version info and the second
    with a deletion: the positions of the first vector's rows are read from the
    selection buffer, which nobody wrote. *)
Theorem scan_two_vectors_stale :
  let t := laterTxn in
  exists s', getSelVectorToScan checkpointedVersions (startTS t) (ID t) 2045 5 (newSelectionVector 8) = (Ok tt, s') /\
    getSelectedPositions s' = [0; 0; 0; 4] /\
    List.filter (fun i => seen checkpointedVersions t (2045 + i)) (seq 0 5) = [0; 1; 2; 4].
Proof. eexists. split; [vm_compute; reflexivity|]. split; vm_compute; reflexivity. Qed.
