(* ===== verification/UpdateInfo.v ===== *)
(** * Updated values of a column chunk (src/include/storage/store/update_info.h,
      src/storage/store/update_info.cpp, the update operations of
      src/storage/store/column_chunk.cpp and [rollbackVectorUpdateInfo] of
      src/storage/undo_buffer.cpp)

    The updates of a vector of rows form a chain of versions, the newest first; a
    version owns the older one through [prev] and points to the newer one through
    [next].  The objects live in a heap, so that the two directions of the chain,
    and what happens to a pointer when a version is freed, are part of the model.
    The values of a column are a type parameter. *)

From S2P Require Import Prelude Transaction UndoBuffer VersionInfo.
From stdpp Require Import base list gmap strings numbers.
Local Open Scope nat_scope.

Section UpdateInfo.
Context {V : Type}.

(** [VectorUpdateInfo]; [data] holds the values of the first [numRowsUpdated] rows. *)
Record VectorUpdateInfo : Type := mkVUI {
  version : transaction_t;
  rowsInVector : list nat;
  numRowsUpdated : nat;
  prev : option loc;
  next : option loc;
  data : list V;
}.

Definition newVectorUpdateInfo (transactionID : transaction_t) : VectorUpdateInfo :=
  mkVUI transactionID (replicate DEFAULT_VECTOR_CAPACITY 0) 0 None None [].

Definition setVersion ts (u : VectorUpdateInfo) :=
  mkVUI ts (rowsInVector u) (numRowsUpdated u) (prev u) (next u) (data u).
Definition setPrev p (u : VectorUpdateInfo) :=
  mkVUI (version u) (rowsInVector u) (numRowsUpdated u) p (next u) (data u).
Definition setNext p (u : VectorUpdateInfo) :=
  mkVUI (version u) (rowsInVector u) (numRowsUpdated u) (prev u) p (data u).

(** [UpdateInfo] and the objects it owns. *)
Record UpdateInfo : Type := mkUpdateInfo {
  vectorsInfo : list (option loc);
  heap : gmap loc VectorUpdateInfo;
}.

Definition emptyUpdateInfo : UpdateInfo := mkUpdateInfo [] ∅.

Definition deref (p : loc) : M UpdateInfo VectorUpdateInfo :=
  s <- sget ;;
  match heap s !! p with Some u => sret u | None => sthrow UndefinedBehaviour end.
Definition assign (p : loc) (u : VectorUpdateInfo) : M UpdateInfo unit :=
  smodify (fun s => mkUpdateInfo (vectorsInfo s) (<[p := u]> (heap s))).
(** [std::make_unique]: a location that no object has. *)
Definition allocate (u : VectorUpdateInfo) : M UpdateInfo loc :=
  s <- sget ;;
  let p := fresh (dom (heap s)) in
  assign p u ;;; sret p.
Definition setVectorInfo (vectorIdx : nat) (p : option loc) : M UpdateInfo unit :=
  s <- sget ;;
  l <- arr_set (vectorsInfo s) vectorIdx p ;;
  sput (mkUpdateInfo l (heap s)).
Definition clearVectorInfo (vectorIdx : nat) : M UpdateInfo unit := setVectorInfo vectorIdx None.
Definition headOf (s : UpdateInfo) (idx : nat) : option loc :=
  if bool_decide (length (vectorsInfo s) <= idx) then None else mjoin (vectorsInfo s !! idx).

(** The loop of [UpdateInfo::getVectorInfo]; [fuel] bounds the length of the chain. *)
Fixpoint findVersion (fuel : nat) (h : gmap loc VectorUpdateInfo) (t : Transaction)
    (current : option loc) : outcome (option loc) :=
  match current with
  | None => Ok None
  | Some p =>
      match fuel, h !! p with
      | S fuel', Some u =>
          if (version u =? ID t)%Z then
            if (START_TRANSACTION_ID <=? version u)%Z then Ok (Some p) else Err InternalException
          else if (version u <=? startTS t)%Z then
            if (version u <? START_TRANSACTION_ID)%Z then Ok (Some p) else Err InternalException
          else findVersion fuel' h t (prev u)
      | _, _ => Err UndefinedBehaviour
      end
  end.
Definition getVectorInfo (s : UpdateInfo) (t : Transaction) (idx : nat) : outcome (option loc) :=
  findVersion (size (heap s)) (heap s) t (headOf s idx).

(** [UpdateInfo::getNumUpdatedRows]. *)
Fixpoint sumUpdatedRows (s : UpdateInfo) (t : Transaction) (i n : nat) : outcome nat :=
  match n with
  | O => Ok 0
  | S n' =>
      let* p := getVectorInfo s t i in
      let* k := (match p with
                 | None => Ok 0
                 | Some p => match heap s !! p with
                             | Some u => Ok (numRowsUpdated u) | None => Err UndefinedBehaviour end
                 end) in
      let* rest := sumUpdatedRows s t (S i) n' in
      Ok (k + rest)
  end.
Definition getNumUpdatedRows (s : UpdateInfo) (t : Transaction) : outcome nat :=
  sumUpdatedRows s t 0 (length (vectorsInfo s)).

(** The rows a version updates. *)
Definition updatedRows (u : VectorUpdateInfo) : list nat := take (numRowsUpdated u) (rowsInVector u).

(** [UpdateInfo::hasUpdates]: the loop over vectors, with early return; the rows
    [startRowInVector .. endRowInVector] of a vector are visited inclusively. *)
Fixpoint hasUpdatesFrom (s : UpdateInfo) (t : Transaction)
    (startVector rowInStartVector endVectorIdx rowInEndVector vectorIdx n : nat) : outcome bool :=
  match n with
  | O => Ok false
  | S n' =>
      let continue :=
        hasUpdatesFrom s t startVector rowInStartVector endVectorIdx rowInEndVector (S vectorIdx) n' in
      let* p := getVectorInfo s t vectorIdx in
      match p with
      | None => continue
      | Some p =>
          match heap s !! p with
          | None => Err UndefinedBehaviour
          | Some u =>
              if bool_decide (numRowsUpdated u = 0) then continue
              else
                let startRowInVector :=
                  if bool_decide (vectorIdx = startVector) then rowInStartVector else 0 in
                let endRowInVector :=
                  if bool_decide (vectorIdx = endVectorIdx) then rowInEndVector
                  else DEFAULT_VECTOR_CAPACITY in
                if existsb (fun row => existsb (Nat.eqb row) (updatedRows u))
                     (seq startRowInVector (endRowInVector + 1 - startRowInVector))
                then Ok true else continue
          end
      end
  end.
Definition hasUpdates (s : UpdateInfo) (t : Transaction) (startRow numRows : nat) : outcome bool :=
  let '(startVector, rowInStartVector) := getQuotientRemainder startRow DEFAULT_VECTOR_CAPACITY in
  let '(endVectorIdx, rowInEndVector) :=
    getQuotientRemainder (startRow + numRows) DEFAULT_VECTOR_CAPACITY in
  hasUpdatesFrom s t startVector rowInStartVector endVectorIdx rowInEndVector
    startVector (endVectorIdx + 1 - startVector).

Definition updateConflict : exn :=
  RuntimeException "Write-write conflict of updating the same row.".

(** The conflict loop of [getOrCreateVectorInfo], which follows [next]. *)
Fixpoint checkConflicts (fuel : nat) (h : gmap loc VectorUpdateInfo) (t : Transaction)
    (rowIdxInVector : nat) (current info : option loc) : outcome (option loc) :=
  match current with
  | None => Ok info
  | Some p =>
      match fuel, h !! p with
      | S fuel', Some u =>
          if (version u =? ID t)%Z then
            if (START_TRANSACTION_ID <=? version u)%Z
            then checkConflicts fuel' h t rowIdxInVector (next u) (Some p)
            else Err InternalException
          else if (startTS t <? version u)%Z && existsb (Nat.eqb rowIdxInVector) (updatedRows u)
          then Err updateConflict
          else checkConflicts fuel' h t rowIdxInVector (next u) info
      | _, _ => Err UndefinedBehaviour
      end
  end.

(** [UpdateInfo::getOrCreateVectorInfo]. *)
Definition getOrCreateVectorInfo (t : Transaction) (vectorIdx rowIdxInVector : nat)
    : M UpdateInfo loc :=
  s <- sget ;;
  (if bool_decide (length (vectorsInfo s) <= vectorIdx)
   then sput (mkUpdateInfo (vectorsInfo s ++ replicate (vectorIdx + 1 - length (vectorsInfo s)) None) (heap s))
   else sret tt) ;;;
  s <- sget ;;
  match headOf s vectorIdx with
  | None =>
      p <- allocate (newVectorUpdateInfo (ID t)) ;;
      setVectorInfo vectorIdx (Some p) ;;;
      sret p
  | Some head =>
      info <- slift (checkConflicts (size (heap s)) (heap s) t rowIdxInVector (Some head) None) ;;
      match info with
      | Some p => sret p
      | None =>
          newInfo <- allocate (newVectorUpdateInfo (ID t)) ;;
          old <- deref head ;;
          assign head (setNext (Some newInfo) old) ;;;
          old <- deref head ;;
          assign newInfo (mkVUI (ID t)
            (take (numRowsUpdated old) (rowsInVector old) ++
             replicate (DEFAULT_VECTOR_CAPACITY - numRowsUpdated old) 0)
            (numRowsUpdated old) (Some head) None (take (numRowsUpdated old) (data old))) ;;;
          setVectorInfo vectorIdx (Some newInfo) ;;;
          sret newInfo
      end
  end.

(** [data->write(&values, pos, offset)] of one value. *)
Definition dataWrite (l : list V) (offset : nat) (v : V) : outcome (list V) :=
  if bool_decide (offset < length l) then Ok (<[offset := v]> l)
  else if bool_decide (offset = length l) then Ok (l ++ [v])
  else Err UndefinedBehaviour.

(** The index at which a row's value is kept. *)
Fixpoint indexOf (row : nat) (l : list nat) : option nat :=
  match l with
  | [] => None
  | r :: l' => if Nat.eqb r row then Some 0 else S <$> indexOf row l'
  end.

(** [UpdateInfo::update]. *)
Definition update (t : Transaction) (vectorIdx rowIdxInVector : nat) (value : V) : M UpdateInfo loc :=
  p <- getOrCreateVectorInfo t vectorIdx rowIdxInVector ;;
  u <- deref p ;;
  match indexOf rowIdxInVector (updatedRows u) with
  | Some idxInUpdateData =>
      d <- slift (dataWrite (data u) idxInUpdateData value) ;;
      assign p (mkVUI (version u) (rowsInVector u) (numRowsUpdated u) (prev u) (next u) d) ;;;
      sret p
  | None =>
      rows <- arr_set (rowsInVector u) (numRowsUpdated u) rowIdxInVector ;;
      d <- slift (dataWrite (data u) (numRowsUpdated u) value) ;;
      assign p (mkVUI (version u) rows (S (numRowsUpdated u)) (prev u) (next u) d) ;;;
      sret p
  end.

(** The value of a row in a version, as [ColumnChunk::scan] and [lookup] read it:
    the first entry for the row. *)
Definition valueIn (u : VectorUpdateInfo) (row : nat) : option V :=
  i ← indexOf row (updatedRows u); data u !! i.

(** What a transaction reads for a row: [None] when the chunk's own value is used. *)
Definition readRow (s : UpdateInfo) (t : Transaction) (vectorIdx row : nat) : outcome (option V) :=
  let* p := getVectorInfo s t vectorIdx in
  match p with
  | None => Ok None
  | Some p => match heap s !! p with Some u => Ok (valueIn u row) | None => Err UndefinedBehaviour end
  end.

(** [UndoBuffer::commitVectorUpdateInfo]. *)
Definition commitVectorUpdateInfo (vui : loc) (commitTS : transaction_t) : M UpdateInfo unit :=
  u <- deref vui ;; assign vui (setVersion commitTS u).

(** Destroying the object: a later use of a pointer to it is undefined. *)
Definition free (p : loc) : M UpdateInfo unit :=
  smodify (fun s => mkUpdateInfo (vectorsInfo s) (delete p (heap s))).

(** [UndoBuffer::rollbackVectorUpdateInfo]; the version that is unlinked is destroyed
    when its owner drops it. *)
Definition rollbackVectorUpdateInfo (t : Transaction) (vectorIdx : nat) (vui : loc)
    : M UpdateInfo unit :=
  s <- sget ;;
  p <- slift (getVectorInfo s t vectorIdx) ;;
  if negb (bool_decide (p = Some vui)) then sret tt
  else
    u <- deref vui ;;
    match next u with
    | Some newerVersion =>
        assign vui (setPrev None u) ;;;
        match prev u with
        | None => sthrow UndefinedBehaviour
        | Some prevVersion =>
            pv <- deref prevVersion ;;
            assign prevVersion (setNext (Some newerVersion) pv) ;;;
            nv <- deref newerVersion ;;
            assign newerVersion (setPrev (Some prevVersion) nv) ;;;
            free vui
        end
    | None =>
        assign vui (setPrev None u) ;;;
        match prev u with
        | Some prevVersion => setVectorInfo vectorIdx (Some prevVersion) ;;; free vui
        | None => clearVectorInfo vectorIdx ;;; free vui
        end
    end.

(** ** Version chains *)

(** [chain h hd us]: following [prev] from [hd] visits the objects [us]. *)
Inductive chain (h : gmap loc VectorUpdateInfo) : option loc -> list (loc * VectorUpdateInfo) -> Prop :=
| chain_nil : chain h None []
| chain_cons p u us : h !! p = Some u -> chain h (prev u) us -> chain h (Some p) ((p, u) :: us).

Record wf_vui (u : VectorUpdateInfo) : Prop := {
  wf_rows : length (rowsInVector u) = DEFAULT_VECTOR_CAPACITY;
  wf_num : numRowsUpdated u <= DEFAULT_VECTOR_CAPACITY;
  wf_data : length (data u) = numRowsUpdated u;
  wf_norepeat : NoDup (updatedRows u);
  wf_inrange : Forall (fun r => r < DEFAULT_VECTOR_CAPACITY) (updatedRows u);
}.

(** The chains of the vectors are separate, and the newest version of each is the
    one that no version is newer than. *)
Record wf_updates (s : UpdateInfo) (cs : nat -> list (loc * VectorUpdateInfo)) : Prop := {
  wf_chain : forall idx, chain (heap s) (headOf s idx) (cs idx);
  wf_nodup : forall idx, NoDup (cs idx).*1;
  wf_disjoint : forall i j p, p ∈ (cs i).*1 -> p ∈ (cs j).*1 -> i = j;
  wf_vuis : forall p u, heap s !! p = Some u -> wf_vui u;
  wf_headnext : forall idx p u us, cs idx = (p, u) :: us -> next u = None;
}.

(** What a transaction reads from a chain: the row's value in the first version it
    sees. *)
Definition readChain (us : list VectorUpdateInfo) (t : Transaction) (row : nat) : option V :=
  match List.find (fun u => visible (startTS t) (ID t) (version u)) us with
  | Some u => valueIn u row
  | None => None
  end.

Lemma chain_lookup h hd us p u : chain h hd us -> (p, u) ∈ us -> h !! p = Some u.
Proof.
  induction 1 as [|q w us Hq Hc IH]; [by rewrite elem_of_nil|].
  rewrite elem_of_cons. intros [[= -> ->]|H]; [done|by apply IH].
Qed.

Lemma chain_insert h hd us p u :
  chain h hd us -> p ∉ us.*1 -> chain (<[p := u]> h) hd us.
Proof.
  induction 1 as [|q w us Hq Hc IH]; [constructor|]. rewrite fmap_cons, not_elem_of_cons.
  intros [Hne Hp]. constructor; [|by apply IH]. by rewrite lookup_insert_ne by done.
Qed.

Lemma chain_insert_head h p u u' us :
  chain h (Some p) ((p, u) :: us) -> p ∉ us.*1 -> prev u' = prev u ->
  chain (<[p := u']> h) (Some p) ((p, u') :: us).
Proof.
  intros Hc Hp Hprev. inversion Hc; subst. constructor; [apply lookup_insert_eq|].
  rewrite Hprev. by apply chain_insert.
Qed.

Lemma chain_length h hd us : chain h hd us -> NoDup us.*1 -> length us <= size h.
Proof.
  intros Hc Hnd. rewrite <- (size_dom (D := gset loc) h), <- (length_fmap fst us),
    <- (size_list_to_set (C := gset loc) us.*1) by done.
  apply subseteq_size. intros p Hp. apply elem_of_list_to_set, list_elem_of_fmap in Hp as ([q u] & -> & Hq).
  apply elem_of_dom. exists u. by eapply chain_lookup.
Qed.

Lemma findVersion_chain h t hd us fuel :
  wf_txn t -> chain h hd us -> length us <= fuel ->
  findVersion fuel h t hd =
    Ok (fst <$> List.find (fun pu => visible (startTS t) (ID t) (version pu.2)) us).
Proof.
  intros [Hts Hid] Hc. revert fuel. induction Hc as [|p u us Hp Hc IH]; intros fuel Hf.
  - by destruct fuel.
  - destruct fuel as [|fuel]; [simpl in Hf; lia|]. cbn [findVersion List.find snd]. rewrite Hp.
    unfold visible at 1. destruct (Z.eqb_spec (version u) (ID t)) as [E|E]; cbn [orb].
    + destruct (Z.leb_spec START_TRANSACTION_ID (version u)); [done|lia].
    + destruct (Z.leb_spec (version u) (startTS t)).
      * destruct (Z.ltb_spec (version u) START_TRANSACTION_ID); [done|lia].
      * apply IH. simpl in Hf. lia.
Qed.

Lemma find_snd {A} (f : VectorUpdateInfo -> bool) (us : list (A * VectorUpdateInfo)) :
  snd <$> List.find (fun pu => f pu.2) us = List.find f us.*2.
Proof. induction us as [|[p u] us IH]; [done|]. cbn. by destruct (f u). Qed.

Lemma readRow_chain s cs t idx row :
  wf_updates s cs -> wf_txn t -> readRow s t idx row = Ok (readChain (cs idx).*2 t row).
Proof.
  intros Hwf Ht. pose proof (wf_chain _ _ Hwf idx) as Hc. unfold readRow, getVectorInfo, readChain.
  rewrite (findVersion_chain _ _ _ (cs idx)); [|done|done|by eapply chain_length, (wf_nodup _ _ Hwf)].
  rewrite <- find_snd. destruct (List.find _ (cs idx)) as [[p u]|] eqn:E; [|done].
  apply List.find_some in E as [Hin _]. apply list_elem_of_In in Hin. cbn [obind fmap option_fmap option_map fst snd].
  by rewrite (chain_lookup _ _ _ _ _ Hc Hin).
Qed.

(** ** Values of a version *)

Lemma indexOf_Some row l i : indexOf row l = Some i -> i < length l /\ l !! i = Some row.
Proof.
  revert i. induction l as [|r l IH]; intros i; simpl; [done|].
  destruct (Nat.eqb_spec r row) as [->|Hne].
  - intros [= <-]. split; [lia|done].
  - intros (j & Hj & ->)%fmap_Some. destruct (IH j Hj). split; [lia|done].
Qed.

Lemma indexOf_None row l : indexOf row l = None -> row ∉ l.
Proof.
  induction l as [|r l IH]; simpl; [intros _; apply not_elem_of_nil|].
  destruct (Nat.eqb_spec r row); [done|]. rewrite fmap_None. intros H.
  apply not_elem_of_cons. split; [congruence|by apply IH].
Qed.

Lemma indexOf_app row l r :
  indexOf row (l ++ [r]) =
    match indexOf row l with Some i => Some i | None => if Nat.eqb r row then Some (length l) else None end.
Proof.
  induction l as [|x l IH]; simpl; [by destruct (Nat.eqb r row)|].
  destruct (Nat.eqb x row); [done|]. rewrite IH. destruct (indexOf row l); [done|].
  by destruct (Nat.eqb r row).
Qed.

Lemma indexOf_inj row row' l i : indexOf row l = Some i -> indexOf row' l = Some i -> row = row'.
Proof. intros [_ H]%indexOf_Some [_ H']%indexOf_Some. congruence. Qed.

Lemma existsb_indexOf row l :
  existsb (Nat.eqb row) l = match indexOf row l with Some _ => true | None => false end.
Proof.
  induction l as [|r l IH]; simpl; [done|]. rewrite (Nat.eqb_sym r row).
  destruct (Nat.eqb row r); [done|]. cbn. rewrite IH. by destruct (indexOf row l).
Qed.

(** Room for another row: the rows are distinct and below the capacity. *)
Lemma wf_vui_room u row :
  wf_vui u -> row < DEFAULT_VECTOR_CAPACITY -> indexOf row (updatedRows u) = None ->
  numRowsUpdated u < DEFAULT_VECTOR_CAPACITY.
Proof.
  intros Hu Hrow Hi%indexOf_None.
  assert (Hnd : NoDup (row :: updatedRows u)) by (constructor; [done|apply Hu]).
  assert (Hsub : row :: updatedRows u ⊆ seq 0 DEFAULT_VECTOR_CAPACITY).
  { intros r. rewrite elem_of_cons, elem_of_seq. intros [->|Hr]; [lia|].
    pose proof (wf_inrange _ Hu) as H. rewrite Forall_forall in H.
    specialize (H r). rewrite <- list_elem_of_In in H. specialize (H Hr). lia. }
  pose proof (submseteq_length _ _ (NoDup_submseteq _ _ Hnd Hsub)) as Hle.
  rewrite length_seq in Hle. simpl in Hle. unfold updatedRows in Hle.
  rewrite length_take, (wf_rows _ Hu) in Hle. pose proof (wf_num _ Hu). lia.
Qed.

(** The part of [update] after the version was found: it writes one row of it. *)
Definition writeRow (p : loc) (rowIdxInVector : nat) (value : V) : M UpdateInfo loc :=
  u <- deref p ;;
  match indexOf rowIdxInVector (updatedRows u) with
  | Some idxInUpdateData =>
      d <- slift (dataWrite (data u) idxInUpdateData value) ;;
      assign p (mkVUI (version u) (rowsInVector u) (numRowsUpdated u) (prev u) (next u) d) ;;;
      sret p
  | None =>
      rows <- arr_set (rowsInVector u) (numRowsUpdated u) rowIdxInVector ;;
      d <- slift (dataWrite (data u) (numRowsUpdated u) value) ;;
      assign p (mkVUI (version u) rows (S (numRowsUpdated u)) (prev u) (next u) d) ;;;
      sret p
  end.

(** [u'] is [u] with the value of one row set. *)
Definition rowWritten (u : VectorUpdateInfo) (row : nat) (v : V) (u' : VectorUpdateInfo) : Prop :=
  wf_vui u' /\ version u' = version u /\ prev u' = prev u /\ next u' = next u /\
  valueIn u' row = Some v /\ forall row', row' <> row -> valueIn u' row' = valueIn u row'.

Lemma updatedRows_length u : wf_vui u -> length (updatedRows u) = numRowsUpdated u.
Proof. intros Hu. unfold updatedRows. rewrite length_take, (wf_rows _ Hu). pose proof (wf_num _ Hu). lia. Qed.

Lemma overwriteRow u row v i :
  wf_vui u -> indexOf row (updatedRows u) = Some i ->
  rowWritten u row v
    (mkVUI (version u) (rowsInVector u) (numRowsUpdated u) (prev u) (next u) (<[i := v]> (data u))).
Proof.
  intros Hu Hi. destruct (indexOf_Some _ _ _ Hi) as [Hlt _]. rewrite updatedRows_length in Hlt by done.
  split.
  { destruct Hu. split; try done. simpl. by rewrite length_insert. }
  split_and!; try done; unfold valueIn, updatedRows; cbn [rowsInVector numRowsUpdated data]; fold (updatedRows u).
  - rewrite Hi. cbn. apply list_lookup_insert_eq. rewrite (wf_data _ Hu). lia.
  - intros row' Hne. destruct (indexOf row' (updatedRows u)) as [j|] eqn:Hj; [|done]. cbn.
    apply list_lookup_insert_ne. intros ->. by apply Hne, (indexOf_inj _ _ (updatedRows u) j).
Qed.

Lemma appendRow u row v :
  wf_vui u -> row < DEFAULT_VECTOR_CAPACITY -> indexOf row (updatedRows u) = None ->
  rowWritten u row v
    (mkVUI (version u) (<[numRowsUpdated u := row]> (rowsInVector u)) (S (numRowsUpdated u))
       (prev u) (next u) (data u ++ [v])).
Proof.
  intros Hu Hrow Hi. pose proof (wf_vui_room _ _ Hu Hrow Hi) as Hroom. pose proof (indexOf_None _ _ Hi) as Hni.
  set (u' := mkVUI _ _ _ _ _ _).
  assert (Hrows : updatedRows u' = updatedRows u ++ [row]).
  { unfold updatedRows, u'. cbn [numRowsUpdated rowsInVector].
    rewrite (take_S_r _ _ row) by (apply list_lookup_insert_eq; rewrite (wf_rows _ Hu); lia).
    by rewrite take_insert_ge. }
  split.
  { split; try rewrite Hrows; cbn [u' rowsInVector numRowsUpdated data]; [|lia|..].
    - by rewrite length_insert, (wf_rows _ Hu).
    - rewrite length_app, (wf_data _ Hu). simpl. lia.
    - apply list.NoDup_app. split; [apply Hu|]. split; [|apply NoDup_singleton].
      intros r Hr ->%list_elem_of_singleton. done.
    - apply Forall_app. split; [apply Hu|]. by constructor. }
  split_and!; try done; unfold valueIn.
  - rewrite Hrows, indexOf_app, Hi, Nat.eqb_refl. cbn [u' data mbind option_bind].
    rewrite updatedRows_length by done. rewrite <- (wf_data _ Hu).
    by rewrite lookup_app_r, Nat.sub_diag by lia.
  - intros row' Hne. rewrite Hrows, indexOf_app. cbn [u' data].
    destruct (indexOf row' (updatedRows u)) as [j|] eqn:Hj; cbn.
    + apply lookup_app_l. destruct (indexOf_Some _ _ _ Hj) as [Hlt _].
      rewrite updatedRows_length in Hlt by done. by rewrite (wf_data _ Hu).
    + destruct (Nat.eqb_spec row row'); [congruence|done].
Qed.

Lemma writeRow_ok s p u row v :
  heap s !! p = Some u -> wf_vui u -> row < DEFAULT_VECTOR_CAPACITY ->
  exists u', writeRow p row v s = (Ok p, mkUpdateInfo (vectorsInfo s) (<[p := u']> (heap s))) /\
    rowWritten u row v u'.
Proof.
  intros Hp Hu Hrow. unfold writeRow.
  rewrite (sbind_ok _ _ _ u s) by (unfold deref; srun; by rewrite Hp).
  destruct (indexOf row (updatedRows u)) as [i|] eqn:Hi.
  - eexists. split; [|by apply overwriteRow].
    destruct (indexOf_Some _ _ _ Hi) as [Hlt _]. rewrite updatedRows_length in Hlt by done.
    unfold dataWrite. rewrite bool_decide_eq_true_2 by (rewrite (wf_data _ Hu); lia). done.
  - eexists. split; [|by apply appendRow].
    pose proof (wf_vui_room _ _ Hu Hrow Hi). unfold arr_set. rewrite decide_True by (rewrite (wf_rows _ Hu); lia).
    unfold dataWrite. rewrite bool_decide_eq_false_2, bool_decide_eq_true_2 by (rewrite (wf_data _ Hu); lia). done.
Qed.

(** ** Finding or creating the version of a transaction *)

Lemma headOf_lookup s idx : headOf s idx = mjoin (vectorsInfo s !! idx).
Proof. unfold headOf. case_bool_decide; [|done]. by rewrite lookup_ge_None_2. Qed.

Definition resized (s : UpdateInfo) (idx : nat) : UpdateInfo :=
  if bool_decide (length (vectorsInfo s) <= idx)
  then mkUpdateInfo (vectorsInfo s ++ replicate (idx + 1 - length (vectorsInfo s)) None) (heap s) else s.

Lemma resized_props s idx :
  idx < length (vectorsInfo (resized s idx)) /\ heap (resized s idx) = heap s /\
  forall j, headOf (resized s idx) j = headOf s j.
Proof.
  unfold resized. case_bool_decide; [|split_and!; [lia|done|done]]. split_and!; [|done|].
  - cbn. rewrite length_app, length_replicate. lia.
  - intros j. rewrite !headOf_lookup. cbn [vectorsInfo].
    destruct (decide (j < length (vectorsInfo s))); [by rewrite lookup_app_l|].
    rewrite lookup_app_r, (lookup_ge_None_2 (vectorsInfo s)) by lia.
    destruct (replicate _ _ !! _) eqn:E; [|done]. by apply lookup_replicate in E as [-> _].
Qed.

Lemma wf_updates_ext s s' cs :
  heap s' = heap s -> (forall j, headOf s' j = headOf s j) -> wf_updates s cs -> wf_updates s' cs.
Proof.
  intros Hh Hj [H1 H2 H3 H4 H5]. split; try done.
  - intros j. by rewrite Hj, Hh.
  - by rewrite Hh.
Qed.

Definition mapHead (f : VectorUpdateInfo -> VectorUpdateInfo) (us : list (loc * VectorUpdateInfo)) :=
  match us with [] => [] | (p, u) :: us' => (p, f u) :: us' end.
Definition linkHead (f : VectorUpdateInfo -> VectorUpdateInfo) (us : list (loc * VectorUpdateInfo))
    (h : gmap loc VectorUpdateInfo) :=
  match us with [] => h | (p, u) :: _ => <[p := f u]> h end.

Lemma mapHead_fst f us : (mapHead f us).*1 = us.*1.
Proof. by destruct us as [|[]]. Qed.

Lemma readChain_mapHead f us t row :
  (forall u, version (f u) = version u /\ valueIn (f u) row = valueIn u row) ->
  readChain (mapHead f us).*2 t row = readChain us.*2 t row.
Proof.
  intros H. destruct us as [|[p u] us]; [done|]. destruct (H u) as [Hv Hval].
  unfold readChain. cbn. rewrite Hv. by destruct (visible _ _ _).
Qed.

(** A version pushed in front of the chain of one vector. *)
Lemma wf_push s cs idx p u v' :
  wf_updates s cs -> heap s !! p = None -> wf_vui u -> prev u = headOf s idx -> next u = None ->
  (forall j, headOf v' j = if decide (j = idx) then Some p else headOf s j) ->
  heap v' = <[p := u]> (linkHead (setNext (Some p)) (cs idx) (heap s)) ->
  wf_updates v' (fun j => if decide (j = idx)
    then (p, u) :: mapHead (setNext (Some p)) (cs idx) else cs j).
Proof.
  intros [Hc Hnd Hdis Hvui Hnx] Hp Hu Hprev Hnext Hhead Hheap.
  assert (Hfresh : forall j, p ∉ (cs j).*1).
  { intros j ([q w] & Hq & Hin)%list_elem_of_fmap. simpl in Hq. subst q.
    rewrite (chain_lookup _ _ _ _ _ (Hc j) Hin) in Hp. done. }
  split.
  - intros j. rewrite Hhead, Hheap. case_decide as Hj; [subst j|].
    + constructor; [apply lookup_insert_eq|]. apply chain_insert; [|by rewrite mapHead_fst].
      rewrite Hprev. specialize (Hc idx). specialize (Hnd idx). destruct (cs idx) as [|[q w] us]; [done|].
      assert (Hhd : headOf s idx = Some q) by (inversion Hc; congruence). rewrite Hhd in *.
      cbn. apply (chain_insert_head _ _ w); [done|by inversion Hnd|done].
    + apply chain_insert; [|done]. specialize (Hdis idx j). unfold linkHead.
      destruct (cs idx) as [|[q w] us]; [done|]. apply chain_insert; [done|].
      intros Hq. apply Hj. symmetry. apply (Hdis q); [by left|done].
  - intros j. case_decide; [|done]. rewrite fmap_cons, mapHead_fst. constructor; [apply Hfresh|done].
  - intros i j q. repeat case_decide; subst; rewrite ?fmap_cons, ?mapHead_fst, ?elem_of_cons; cbn.
    + done.
    + intros [->|Hq] Hq'; [by destruct (Hfresh j)|by eapply Hdis].
    + intros Hq' [->|Hq]; [by destruct (Hfresh i)|by eapply Hdis].
    + apply Hdis.
  - intros q w. rewrite Hheap. destruct (decide (q = p)) as [->|Hne].
    + rewrite lookup_insert_eq. by intros [= <-].
    + rewrite lookup_insert_ne by done. unfold linkHead.
      destruct (cs idx) as [|[q' w'] us] eqn:E; [apply Hvui|].
      destruct (decide (q = q')) as [->|Hne']; [rewrite lookup_insert_eq|rewrite lookup_insert_ne by done; apply Hvui].
      intros [= <-]. specialize (Hc idx). rewrite E in Hc. inversion Hc; subst.
      destruct (Hvui q' w') as [? ? ? ? ?]; [done|]. by split.
  - intros j q w us. case_decide; [by intros [= <- <- _]|apply Hnx].
Qed.

(** What [getOrCreateVectorInfo] gives: the transaction's own version at the head of
    the chain, with what the transaction read before; what others read is the same. *)
Definition gotVersion (cs : nat -> list (loc * VectorUpdateInfo)) (t : Transaction) (idx : nat) (p : loc)
    (s1 : UpdateInfo) (cs1 : nat -> list (loc * VectorUpdateInfo)) : Prop :=
  wf_updates s1 cs1 /\
  (exists u us, cs1 idx = (p, u) :: us /\ version u = ID t /\
     forall row, valueIn u row = readChain (cs idx).*2 t row) /\
  (forall t' j row, wf_txn t' -> ID t' <> ID t ->
     readChain (cs1 j).*2 t' row = readChain (cs j).*2 t' row) /\
  (forall j, j <> idx -> cs1 j = cs j).

(** The newest version of the vector is the transaction's or one it sees; with one
    writer at a time it always is. *)
Definition headSettled (cs : nat -> list (loc * VectorUpdateInfo)) (t : Transaction) (idx : nat) : Prop :=
  match cs idx with
  | [] => True
  | (_, u) :: _ => version u = ID t \/ (version u <= startTS t)%Z
  end.

Lemma headOf_set s idx p :
  idx < length (vectorsInfo s) ->
  forall h j, headOf (mkUpdateInfo (<[idx := Some p]> (vectorsInfo s)) h) j =
    if decide (j = idx) then Some p else headOf s j.
Proof.
  intros Hlt h j. rewrite !headOf_lookup. cbn [vectorsInfo]. case_decide as Hj; [subst j|].
  - by rewrite list_lookup_insert_eq.
  - by rewrite list_lookup_insert_ne.
Qed.

Lemma newVersion_invisible t t' (us : list VectorUpdateInfo) u row :
  wf_txn t -> wf_txn t' -> ID t' <> ID t -> version u = ID t ->
  readChain (u :: us) t' row = readChain us t' row.
Proof.
  intros Ht Ht' Hne Hv. unfold readChain. cbn. rewrite Hv.
  destruct Ht as [_ [Ht _]]. by rewrite uncommitted_invisible by (done || congruence).
Qed.

(** The copy of the older version. *)
Definition copyVersion (t : Transaction) (head : loc) (old : VectorUpdateInfo) : VectorUpdateInfo :=
  mkVUI (ID t)
    (take (numRowsUpdated old) (rowsInVector old) ++
     replicate (DEFAULT_VECTOR_CAPACITY - numRowsUpdated old) 0)
    (numRowsUpdated old) (Some head) None (take (numRowsUpdated old) (data old)).

Lemma copyVersion_ok t head old :
  wf_vui old -> wf_vui (copyVersion t head old) /\
  forall row, valueIn (copyVersion t head old) row = valueIn old row.
Proof.
  intros Hu. pose proof (wf_num _ Hu). pose proof (wf_rows _ Hu).
  assert (Hrows : updatedRows (copyVersion t head old) = updatedRows old).
  { unfold updatedRows. cbn. rewrite take_app_le by (rewrite length_take; lia).
    by rewrite take_take, Nat.min_id. }
  assert (Hd : data (copyVersion t head old) = data old).
  { cbn. apply take_ge. rewrite (wf_data _ Hu). lia. }
  split; [split|].
  - cbn. rewrite length_app, length_take, length_replicate. lia.
  - done.
  - rewrite Hd. apply Hu.
  - rewrite Hrows. apply Hu.
  - rewrite Hrows. apply Hu.
  - intros row. unfold valueIn. by rewrite Hrows, Hd.
Qed.

Lemma wf_newVersion t : wf_vui (newVectorUpdateInfo (ID t)).
Proof.
  split; cbn; [apply length_replicate|lia|done|constructor|constructor].
Qed.

Lemma allocate_run (s : UpdateInfo) u :
  exists p, allocate u s = (Ok p, mkUpdateInfo (vectorsInfo s) (<[p := u]> (heap s))) /\ heap s !! p = None.
Proof.
  exists (fresh (dom (heap s))). split; [done|].
  apply not_elem_of_dom, is_fresh.
Qed.

Lemma size_of_lookup (h : gmap loc VectorUpdateInfo) p u : h !! p = Some u -> size h = S (pred (size h)).
Proof.
  intros H. assert (size h <> 0); [|lia]. intros H0%map_size_empty_inv. subst h. by rewrite lookup_empty in H.
Qed.

Section getOrCreate.
Context (s : UpdateInfo) (cs : nat -> list (loc * VectorUpdateInfo)) (t : Transaction) (idx row : nat).
Context (Hwf : wf_updates s cs) (Ht : wf_txn t).

Lemma getOrCreate_start :
  getOrCreateVectorInfo t idx row s =
    (match headOf (resized s idx) idx with
     | None =>
         p <- allocate (newVectorUpdateInfo (ID t)) ;; setVectorInfo idx (Some p) ;;; sret p
     | Some head =>
         info <- slift (checkConflicts (size (heap (resized s idx))) (heap (resized s idx)) t row (Some head) None) ;;
         match info with
         | Some p => sret p
         | None =>
             newInfo <- allocate (newVectorUpdateInfo (ID t)) ;;
             old <- deref head ;;
             assign head (setNext (Some newInfo) old) ;;;
             old <- deref head ;;
             assign newInfo (copyVersion t head old) ;;;
             setVectorInfo idx (Some newInfo) ;;;
             sret newInfo
         end
     end) (resized s idx).
Proof.
  unfold getOrCreateVectorInfo, resized. unfold sbind at 1, sget at 1. cbn iota beta.
  case_bool_decide; reflexivity.
Qed.

Lemma getOrCreate_empty :
  cs idx = [] -> exists p s1 cs1,
    getOrCreateVectorInfo t idx row s = (Ok p, s1) /\ gotVersion cs t idx p s1 cs1.
Proof.
  intros Hcs. destruct (resized_props s idx) as (Hlen & Hheap & Hhd).
  assert (Hh : headOf s idx = None) by (pose proof (wf_chain _ _ Hwf idx) as H; rewrite Hcs in H; by inversion H).
  destruct (allocate_run (resized s idx) (newVectorUpdateInfo (ID t))) as (p & Ea & Hp).
  rewrite Hheap in Hp.
  eexists p, _, _. split; [|split; [|split_and!]].
  - rewrite getOrCreate_start, Hhd, Hh. rewrite (sbind_ok _ _ _ _ _ Ea).
    unfold setVectorInfo, arr_set. srun. cbn [vectorsInfo]. rewrite decide_True by done. reflexivity.
  - apply (wf_push s cs idx p (newVectorUpdateInfo (ID t))); try done; [apply wf_newVersion| |].
    + intros j. rewrite headOf_set by done. by case_decide; rewrite ?Hhd.
    + cbn [heap]. by rewrite Hheap, Hcs.
  - exists (newVectorUpdateInfo (ID t)), []. rewrite decide_True, Hcs by done. done.
  - intros t' j r Ht' Hne. cbn beta. case_decide; [subst j|done]. rewrite Hcs. cbn.
    by rewrite (newVersion_invisible t).
  - intros j Hj. cbn beta. by rewrite decide_False.
Qed.

Lemma getOrCreate_own p u us :
  cs idx = (p, u) :: us -> version u = ID t -> exists s1 cs1,
    getOrCreateVectorInfo t idx row s = (Ok p, s1) /\ gotVersion cs t idx p s1 cs1.
Proof.
  intros Hcs Hv. destruct (resized_props s idx) as (Hlen & Hheap & Hhd).
  pose proof (wf_chain _ _ Hwf idx) as Hc. rewrite Hcs in Hc.
  assert (Hh : headOf s idx = Some p /\ heap s !! p = Some u) by (inversion Hc; subst; done).
  destruct Hh as [Hh Hp].
  pose proof (size_of_lookup _ _ _ Hp) as Hsz.
  exists (resized s idx), cs. split; [|split; [by eapply wf_updates_ext|split_and!; try done]].
  - rewrite getOrCreate_start, Hhd, Hh, Hheap, Hsz. cbn [checkConflicts]. rewrite Hp.
    rewrite (wf_headnext _ _ Hwf idx p u us Hcs).
    destruct (Z.eqb_spec (version u) (ID t)); [|done].
    destruct Ht as [_ [Hid _]]. destruct (Z.leb_spec START_TRANSACTION_ID (version u)); [|lia].
    destruct (pred (size (heap s))); done.
  - exists u, us. split_and!; try done. intros r. rewrite Hcs. unfold readChain. cbn.
    by rewrite Hv, own_visible.
Qed.

Lemma getOrCreate_older q u us :
  cs idx = (q, u) :: us -> (version u <= startTS t)%Z -> exists p s1 cs1,
    getOrCreateVectorInfo t idx row s = (Ok p, s1) /\ gotVersion cs t idx p s1 cs1.
Proof.
  intros Hcs Hv. destruct (resized_props s idx) as (Hlen & Hheap & Hhd).
  pose proof (wf_chain _ _ Hwf idx) as Hc. rewrite Hcs in Hc.
  assert (Hh : headOf s idx = Some q /\ heap s !! q = Some u) by (inversion Hc; subst; done).
  destruct Hh as [Hh Hq].
  pose proof (size_of_lookup _ _ _ Hq) as Hsz.
  destruct (allocate_run (resized s idx) (newVectorUpdateInfo (ID t))) as (p & Ea & Hp).
  rewrite Hheap in Hp. assert (Hne : p <> q) by (intros ->; congruence).
  destruct (copyVersion_ok t q (setNext (Some p) u)) as [Hcw Hcv].
  { destruct (wf_vuis _ _ Hwf _ _ Hq). by split. }
  assert (Hvis : visible (startTS t) (ID t) (version u) = true).
  { apply orb_true_iff. right. by apply Z.leb_le. }
  eexists p, _, _. split; [|split; [|split_and!]].
  - rewrite getOrCreate_start, Hhd, Hh, Hheap, Hsz. cbn [checkConflicts]. rewrite Hq.
    rewrite (wf_headnext _ _ Hwf idx q u us Hcs).
    destruct (Z.eqb_spec (version u) (ID t)) as [E|_]; [destruct Ht as [[_ Hts] [Hid _]]; lia|].
    destruct (Z.ltb_spec (startTS t) (version u)); [lia|]. cbn [andb].
    replace (checkConflicts (pred (size (heap s))) (heap s) t row None None) with (Ok (A := option loc) None)
      by (by destruct (pred (size (heap s)))).
    unfold slift at 1, sbind at 1. rewrite (sbind_ok _ _ _ _ _ Ea), Hheap.
    unfold deref, assign, setVectorInfo, arr_set. srun. cbn [heap vectorsInfo].
    rewrite lookup_insert_ne, Hq by done. cbn [heap vectorsInfo]. rewrite lookup_insert_eq.
    cbn [heap vectorsInfo]. rewrite decide_True by done. reflexivity.
  - apply (wf_push s cs idx p (copyVersion t q (setNext (Some p) u))); try done.
    + intros j. rewrite headOf_set by done. by case_decide; rewrite ?Hhd.
    + cbn [heap]. rewrite Hcs. cbn [linkHead].
      rewrite (insert_insert_ne _ q p), insert_insert_eq by done. done.
  - cbn beta. rewrite decide_True, Hcs by done. cbn [mapHead]. eexists _, _. split_and!; [reflexivity|done|].
    intros r. rewrite Hcv. unfold readChain. cbn. by rewrite Hvis.
  - intros t' j r Ht' Hne'. cbn beta. case_decide; [subst j|done]. cbn [fmap list_fmap snd].
    rewrite (newVersion_invisible t) by done. by apply readChain_mapHead.
  - intros j Hj. cbn beta. by rewrite decide_False.
Qed.

Lemma getOrCreate_settled :
  headSettled cs t idx -> exists p s1 cs1,
    getOrCreateVectorInfo t idx row s = (Ok p, s1) /\ gotVersion cs t idx p s1 cs1.
Proof.
  unfold headSettled. destruct (cs idx) as [|[q u] us] eqn:Hcs; [intros _; by apply getOrCreate_empty|].
  intros [Hv|Hv]; [|by eapply getOrCreate_older]. exists q. by eapply getOrCreate_own.
Qed.
End getOrCreate.

(** ** Replacing the head of a chain *)

Lemma wf_set_head s cs idx p u us u' :
  wf_updates s cs -> cs idx = (p, u) :: us -> wf_vui u' -> prev u' = prev u -> next u' = next u ->
  wf_updates (mkUpdateInfo (vectorsInfo s) (<[p := u']> (heap s)))
    (fun j => if decide (j = idx) then (p, u') :: us else cs j).
Proof.
  intros [Hc Hnd Hdis Hvui Hnx] Hcs Hu' Hprev Hnext.
  pose proof (Hnd idx) as Hndi. rewrite Hcs, fmap_cons in Hndi. apply list.NoDup_cons in Hndi as [Hni _].
  assert (Hin : p ∈ (cs idx).*1) by (rewrite Hcs, fmap_cons; apply elem_of_cons; by left).
  split; cbn [heap].
  - intros j. change (headOf (mkUpdateInfo (vectorsInfo s) _) j) with (headOf s j). case_decide as Hj; [subst j|].
    + specialize (Hc idx). rewrite Hcs in Hc.
      assert (Hhd : headOf s idx = Some p) by (inversion Hc; congruence). rewrite Hhd in *.
      by apply (chain_insert_head _ _ u).
    + apply chain_insert; [done|]. intros Hp. by apply Hj, (Hdis j idx p).
  - intros j. case_decide; [|done]. subst j. specialize (Hnd idx). by rewrite Hcs in Hnd.
  - intros i j q. specialize (Hdis i j q).
    repeat case_decide; subst; rewrite ?Hcs in Hdis; done.
  - intros q w. destruct (decide (q = p)) as [->|]; [rewrite lookup_insert_eq; by intros [= <-]|].
    rewrite lookup_insert_ne by done. apply Hvui.
  - intros j q w us'. case_decide; [|apply Hnx]. subst j. intros [= <- <- _]. rewrite Hnext. by eapply Hnx.
Qed.

Lemma update_run s cs t idx row v :
  wf_updates s cs -> wf_txn t -> headSettled cs t idx -> row < DEFAULT_VECTOR_CAPACITY ->
  exists p s' cs' u us, update t idx row v s = (Ok p, s') /\ wf_updates s' cs' /\
    cs' idx = (p, u) :: us /\ version u = ID t /\ valueIn u row = Some v /\
    (forall row', row' <> row -> valueIn u row' = readChain (cs idx).*2 t row') /\
    (forall t' j r, wf_txn t' -> ID t' <> ID t -> readChain (cs' j).*2 t' r = readChain (cs j).*2 t' r) /\
    (forall j, j <> idx -> cs' j = cs j).
Proof.
  intros Hwf Ht Hhs Hrow.
  destruct (getOrCreate_settled s cs t idx row Hwf Ht Hhs) as (p & s1 & cs1 & E & Hwf1 & Hown & Hoth & Hcs1).
  destruct Hown as (u & us & Hu & Hver & Hval).
  pose proof (wf_chain _ _ Hwf1 idx) as Hc. rewrite Hu in Hc.
  assert (Hp : heap s1 !! p = Some u) by (inversion Hc; congruence).
  destruct (writeRow_ok s1 p u row v Hp) as (u' & Ew & Hw' & Hv' & Hpr & Hnx & Hnew & Hold);
    [by apply (wf_vuis _ _ Hwf1 p)|done|].
  eexists p, _, _, u', us.
  split; [unfold update; rewrite (sbind_ok _ _ _ _ _ E); exact Ew|].
  split; [by apply (wf_set_head s1 cs1 idx p u us)|].
  split; [by rewrite decide_True|]. split; [by rewrite Hv'|]. split; [done|]. split; [|split].
  - intros row' Hne. by rewrite Hold, Hval.
  - intros t' j r Ht' Hne. rewrite <- (Hoth t' j r Ht' Hne). cbn beta. case_decide; [subst j|done].
    rewrite Hu. cbn [fmap list_fmap snd]. by rewrite !(newVersion_invisible t) by (done || congruence).
  - intros j Hj. cbn beta. rewrite decide_False by done. by apply Hcs1.
Qed.

Lemma commit_run s cs idx p u us cts :
  wf_updates s cs -> cs idx = (p, u) :: us ->
  exists s' cs', commitVectorUpdateInfo p cts s = (Ok tt, s') /\ wf_updates s' cs' /\
    cs' idx = (p, setVersion cts u) :: us /\ (forall j, j <> idx -> cs' j = cs j).
Proof.
  intros Hwf Hcs. pose proof (wf_chain _ _ Hwf idx) as Hc. rewrite Hcs in Hc.
  assert (Hp : heap s !! p = Some u) by (inversion Hc; congruence).
  eexists _, _. split; [unfold commitVectorUpdateInfo, deref, assign; srun; rewrite Hp; reflexivity|].
  split; [|split].
  - apply (wf_set_head s cs idx p u us); try done. destruct (wf_vuis _ _ Hwf _ _ Hp). by split.
  - cbn beta. by rewrite decide_True.
  - intros j Hj. cbn beta. by rewrite decide_False.
Qed.

(** Rolling back the newest version: the chain without it. *)
Lemma chain_delete h hd us p : chain h hd us -> p ∉ us.*1 -> chain (delete p h) hd us.
Proof.
  induction 1 as [|q w us Hq Hc IH]; [constructor|]. rewrite fmap_cons, not_elem_of_cons.
  intros [Hne Hp]. constructor; [|by apply IH]. by rewrite lookup_delete_ne by done.
Qed.

Lemma rollback_run s cs t idx p u us :
  wf_updates s cs -> wf_txn t -> cs idx = (p, u) :: us -> version u = ID t ->
  exists s', rollbackVectorUpdateInfo t idx p s = (Ok tt, s') /\
    chain (heap s') (headOf s' idx) us /\ NoDup us.*1 /\
    (forall j, j <> idx -> chain (heap s') (headOf s' j) (cs j)) /\ heap s' !! p = None.
Proof.
  intros Hwf Ht Hcs Hv. pose proof (wf_chain _ _ Hwf idx) as Hc. rewrite Hcs in Hc.
  assert (Hh : headOf s idx = Some p /\ heap s !! p = Some u /\ chain (heap s) (prev u) us)
    by (inversion Hc; subst; done).
  destruct Hh as (Hh & Hp & Hc').
  pose proof (wf_nodup _ _ Hwf idx) as Hnd. rewrite Hcs, fmap_cons in Hnd. apply list.NoDup_cons in Hnd as [Hni Hnd].
  assert (Hlen : idx < length (vectorsInfo s)).
  { rewrite headOf_lookup in Hh. destruct (vectorsInfo s !! idx) eqn:E; [|done]. by eapply lookup_lt_Some. }
  set (hd := prev u).
  set (s' := mkUpdateInfo (<[idx := hd]> (vectorsInfo s)) (delete p (<[p := setPrev None u]> (heap s)))).
  exists s'. split.
  - unfold rollbackVectorUpdateInfo. unfold sbind at 1, sget at 1. cbn iota beta.
    unfold getVectorInfo. rewrite (findVersion_chain _ _ _ (cs idx)), Hcs;
      [|done|by rewrite Hcs|rewrite Hcs, <- Hcs; eapply chain_length; [by rewrite Hcs|apply (wf_nodup _ _ Hwf)]].
    cbn [List.find snd]. rewrite Hv, own_visible. cbn [fmap option_fmap option_map fst].
    unfold slift, sbind at 1. rewrite bool_decide_eq_true_2 by done. cbn [negb].
    unfold deref, assign, clearVectorInfo, setVectorInfo, arr_set, free. srun. rewrite Hp.
    rewrite (wf_headnext _ _ Hwf idx p u us Hcs). subst s' hd.
    destruct (prev u) as [q|]; cbn [vectorsInfo heap]; rewrite decide_True by done; done.
  - assert (Hheads : forall j, headOf s' j = if decide (j = idx) then hd else headOf s j).
    { intros j. rewrite !headOf_lookup. subst s'. cbn [vectorsInfo]. case_decide as Hj; [subst j|].
      - by rewrite list_lookup_insert_eq.
      - by rewrite list_lookup_insert_ne. }
    split_and!; [| done | |].
    + rewrite Hheads, decide_True by done. subst s'. cbn [heap].
      apply chain_delete; [|done]. by apply chain_insert.
    + intros j Hj. rewrite Hheads, decide_False by done. subst s'. cbn [heap].
      assert (Hpj : p ∉ (cs j).*1).
      { intros Hin. apply Hj, (wf_disjoint _ _ Hwf j idx p); [done|]. rewrite Hcs, fmap_cons.
        apply elem_of_cons. by left. }
      apply chain_delete; [|done]. apply chain_insert; [apply Hwf|done].
    + apply lookup_delete_eq.
Qed.

(** ** Which rows have updates *)

Definition versionFor (us : list VectorUpdateInfo) (t : Transaction) : option VectorUpdateInfo :=
  List.find (fun u => visible (startTS t) (ID t) (version u)) us.

Definition vectorHasUpdates (cs : nat -> list (loc * VectorUpdateInfo)) (t : Transaction)
    (startRow endRow i : nat) : bool :=
  match versionFor (cs i).*2 t with
  | None => false
  | Some u =>
      existsb (fun row => existsb (Nat.eqb row) (updatedRows u))
        (let lo := if bool_decide (i = startRow / CAP) then startRow mod CAP else 0 in
         let hi := if bool_decide (i = endRow / CAP) then endRow mod CAP else CAP in
         seq lo (hi + 1 - lo))
  end.

Lemma existsb_empty {A} (l : list A) : existsb (fun _ => false) l = false.
Proof. by induction l. Qed.

Lemma hasUpdatesFrom_spec s cs t startRow endRow i n :
  wf_updates s cs -> wf_txn t ->
  hasUpdatesFrom s t (startRow / CAP) (startRow mod CAP) (endRow / CAP) (endRow mod CAP) i n =
    Ok (existsb (vectorHasUpdates cs t startRow endRow) (seq i n)).
Proof.
  intros Hwf Ht. revert i. induction n as [|n IH]; intros i; [done|].
  cbn [hasUpdatesFrom seq existsb]. rewrite (IH (S i)).
  set (rest := existsb _ (seq (S i) n)). clearbody rest.
  pose proof (wf_chain _ _ Hwf i) as Hc. unfold getVectorInfo.
  rewrite (findVersion_chain _ _ _ (cs i)); [|done|done|by eapply chain_length, (wf_nodup _ _ Hwf)].
  unfold vectorHasUpdates, versionFor. rewrite <- find_snd. cbn [obind].
  destruct (List.find _ (cs i)) as [[p u]|] eqn:E; [|done].
  apply List.find_some in E as [Hin _]. apply list_elem_of_In in Hin.
  cbn [fmap option_fmap option_map fst snd]. rewrite (chain_lookup _ _ _ _ _ Hc Hin).
  case_bool_decide as H0.
  - unfold updatedRows. rewrite H0. cbn [take existsb]. rewrite existsb_empty. done.
  - by destruct (existsb _ (seq _ _)).
Qed.

Lemma valueIn_Some u row : wf_vui u -> valueIn u row <> None <-> row ∈ updatedRows u.
Proof.
  intros Hu. unfold valueIn. destruct (indexOf row (updatedRows u)) as [i|] eqn:Hi; cbn.
  - destruct (indexOf_Some _ _ _ Hi) as [Hlt Hl]. rewrite updatedRows_length in Hlt by done.
    destruct (lookup_lt_is_Some_2 (data u) i) as [v ->]; [rewrite (wf_data _ Hu); lia|].
    split; [intros _|done]. by eapply list_elem_of_lookup_2.
  - apply indexOf_None in Hi. split; [done|]. intros ?. done.
Qed.

Lemma versionFor_wf s cs t i u :
  wf_updates s cs -> versionFor (cs i).*2 t = Some u -> wf_vui u.
Proof.
  intros Hwf H. unfold versionFor in H. rewrite <- find_snd in H.
  apply fmap_Some in H as ([p w] & H & ->). apply List.find_some in H as [Hin _].
  apply list_elem_of_In in Hin. by eapply (wf_vuis _ _ Hwf), chain_lookup, Hin; apply Hwf.
Qed.

Lemma existsb_eqb row l : existsb (Nat.eqb row) l = true <-> row ∈ l.
Proof.
  rewrite existsb_exists. split.
  - intros (x & Hx & ->%Nat.eqb_eq). by apply list_elem_of_In.
  - intros H%list_elem_of_In. exists row. by rewrite Nat.eqb_refl.
Qed.

Lemma vectorHasUpdates_spec s cs t startRow endRow i :
  wf_updates s cs -> startRow / CAP <= i <= endRow / CAP ->
  vectorHasUpdates cs t startRow endRow i = true <->
  exists r, r < CAP /\ startRow <= i * CAP + r <= endRow /\ readChain (cs i).*2 t r <> None.
Proof.
  intros Hwf Hi. unfold vectorHasUpdates, readChain.
  fold (versionFor (cs i).*2 t). destruct (versionFor (cs i).*2 t) as [u|] eqn:Hu; [|split; [done|by intros (? & _ & _ & [])]].
  assert (Hwu : wf_vui u) by by eapply versionFor_wf.
  assert (Hrange : forall r, r < CAP ->
    (let lo := if bool_decide (i = startRow / CAP) then startRow mod CAP else 0 in
     let hi := if bool_decide (i = endRow / CAP) then endRow mod CAP else CAP in
     lo <= r < lo + (hi + 1 - lo)) <-> startRow <= i * CAP + r <= endRow).
  { intros r Hr. pose proof (div_mod_row startRow). pose proof (mod_row startRow).
    pose proof (div_mod_row endRow). pose proof (mod_row endRow).
    destruct Hi as [Hlo Hhi].
    set (q := startRow / CAP) in *. set (q' := endRow / CAP) in *.
    destruct (mul_le_cases _ _ CAP Hlo) as [<-|], (mul_le_cases _ _ CAP Hhi) as [E|];
      try (rewrite <- E in *; clear E); cbn zeta; repeat case_bool_decide; lia. }
  rewrite existsb_exists. split.
  - intros (r & Hr%in_seq & Hin%existsb_eqb).
    assert (Hcap : r < CAP) by (pose proof (wf_inrange _ Hwu) as H; rewrite Forall_forall in H; apply H; by apply list_elem_of_In).
    exists r. split_and!; [done|by apply Hrange|by apply Hrange|by apply valueIn_Some].
  - intros (r & Hr & Hb & Hv). exists r. split; [by apply in_seq, Hrange|].
    by apply existsb_eqb, valueIn_Some.
Qed.

(** ** Properties *)

(** States that updates and commits make, one writer of a vector at a time and without a rollback. *)
Definition settled (s : UpdateInfo) (t : Transaction) (idx : nat) : Prop :=
  match headOf s idx with
  | None => True
  | Some p => exists u, heap s !! p = Some u /\ (version u = ID t \/ (version u <= startTS t)%Z)
  end.
Inductive reached : UpdateInfo -> Prop :=
| reached_new : reached emptyUpdateInfo
| reached_update s t idx row v p s' :
    reached s -> wf_txn t -> settled s t idx -> row < DEFAULT_VECTOR_CAPACITY -> update t idx row v s = (Ok p, s') -> reached s'
| reached_commit s idx p cts s' :
    reached s -> headOf s idx = Some p -> committedTS cts -> commitVectorUpdateInfo p cts s = (Ok tt, s') -> reached s'.

Lemma wf_empty : wf_updates emptyUpdateInfo (fun _ => []).
Proof.
  split; try done.
  - intros idx. rewrite headOf_lookup. destruct idx; constructor.
  - intros idx. constructor.
  - intros i j p []%elem_of_nil.
Qed.

Lemma settled_head s cs t idx : wf_updates s cs -> settled s t idx -> headSettled cs t idx.
Proof.
  intros Hwf. unfold settled, headSettled. pose proof (wf_chain _ _ Hwf idx) as Hc. destruct Hc as [|p u us Hp Hc]; [done|].
  intros (u' & Hu & H). rewrite Hp in Hu. by injection Hu as <-.
Qed.

Lemma reached_wf s : reached s -> exists cs, wf_updates s cs.
Proof.
  induction 1 as [|s t idx row v p s' _ (cs & Hwf) Ht Hs Hr E|s idx p cts s' _ (cs & Hwf) Hh Hc E].
  - eexists. apply wf_empty.
  - destruct (update_run s cs t idx row v Hwf Ht (settled_head _ _ _ _ Hwf Hs) Hr) as (p' & s1 & cs1 & u & us & E1 & Hwf1 & _).
    rewrite E in E1. injection E1 as _ <-. by exists cs1.
  - pose proof (wf_chain _ _ Hwf idx) as Hch. rewrite Hh in Hch. destruct (cs idx) as [|[q u] us] eqn:Ec; inversion Hch; subst.
    destruct (commit_run s cs idx _ u us cts Hwf Ec) as (s1 & cs1 & E1 & Hwf1 & _). rewrite E in E1. injection E1 as <-. by exists cs1.
Qed.

Lemma update_settled s cs t idx row v :
  wf_updates s cs -> wf_txn t -> headSettled cs t idx -> row < DEFAULT_VECTOR_CAPACITY ->
  exists p s' cs', update t idx row v s = (Ok p, s') /\ wf_updates s' cs' /\ headSettled cs' t idx /\
    readRow s' t idx row = Ok (Some v) /\
    (forall j r, (j, r) <> (idx, row) -> readRow s' t j r = readRow s t j r) /\
    (forall t' j r, wf_txn t' -> ID t' <> ID t -> readRow s' t' j r = readRow s t' j r).
Proof.
  intros Hwf Ht Hhs Hrow.
  destruct (update_run s cs t idx row v Hwf Ht Hhs Hrow)
    as (p & s' & cs' & u & us & E & Hwf' & Hcs' & Hver & Hnew & Hold & Hoth & Hkeep).
  assert (Hown : forall r, readRow s' t idx r = Ok (valueIn u r)).
  { intros r. rewrite (readRow_chain _ _ _ _ _ Hwf' Ht), Hcs'. unfold readChain. cbn.
    by rewrite Hver, own_visible. }
  exists p, s', cs'. split_and!; try done.
  - unfold headSettled. rewrite Hcs'. by left.
  - by rewrite Hown, Hnew.
  - intros j r Hne. rewrite (readRow_chain _ _ _ _ _ Hwf Ht). destruct (decide (j = idx)) as [->|Hj].
    + rewrite Hown, Hold; [done|]. by intros ->.
    + by rewrite (readRow_chain _ _ _ _ _ Hwf' Ht), Hkeep.
  - intros t' j r Ht' Hne. by rewrite (readRow_chain _ _ _ _ _ Hwf' Ht'), (readRow_chain _ _ _ _ _ Hwf Ht'), Hoth.
Qed.

(** C28. An update by a transaction whose vector has no concurrent writer succeeds; the transaction
    then reads the new value at the row and its old view everywhere else, every other transaction
    reads what it read before, and no version chain is damaged.  This holds in every state with
    sound version chains, which all states are that are made from an empty one by such updates and
    by commits of newest versions.  Part of being sound is that no newest version has a next
    pointer, which the rollback of an update over an older version breaks: states after it are
    not covered. *)
Theorem update_single_writer :
  (forall s, reached s -> exists cs, wf_updates s cs) /\
  forall s cs t idx row v,
    wf_updates s cs -> wf_txn t -> headSettled cs t idx -> row < DEFAULT_VECTOR_CAPACITY ->
    exists p s' cs', update t idx row v s = (Ok p, s') /\ wf_updates s' cs' /\ headSettled cs' t idx /\
      readRow s' t idx row = Ok (Some v) /\
      (forall j r, (j, r) <> (idx, row) -> readRow s' t j r = readRow s t j r) /\
      (forall t' j r, wf_txn t' -> ID t' <> ID t -> readRow s' t' j r = readRow s t' j r).
Proof. split; [exact reached_wf|]. intros s cs t idx row v. apply update_settled. Qed.

(** Once the newest version of a vector is committed, a transaction that starts
    at or after the commit timestamp reads its values, and one that started before
    reads what it read before the commit. *)
Theorem commit_update_snapshot s cs t idx p u us cts :
  wf_updates s cs -> wf_txn t -> cs idx = (p, u) :: us -> version u = ID t -> committedTS cts ->
  exists s' cs', commitVectorUpdateInfo p cts s = (Ok tt, s') /\ wf_updates s' cs' /\
    (forall t' r, wf_txn t' -> (cts <= startTS t')%Z -> readRow s' t' idx r = Ok (valueIn u r)) /\
    (forall t' j r, wf_txn t' -> ID t' <> ID t -> (startTS t' < cts)%Z -> readRow s' t' j r = readRow s t' j r).
Proof.
  intros Hwf Ht Hcs Hv Hcts.
  destruct (commit_run s cs idx p u us cts Hwf Hcs) as (s' & cs' & E & Hwf' & Hcs' & Hkeep).
  exists s', cs'. split_and!; try done.
  - intros t' r Ht' Hle. rewrite (readRow_chain _ _ _ _ _ Hwf' Ht'), Hcs'. unfold readChain. cbn.
    rewrite committed_visible by done. by rewrite (proj2 (Z.leb_le _ _) Hle).
  - intros t' j r Ht' Hne Hlt. rewrite (readRow_chain _ _ _ _ _ Hwf' Ht'), (readRow_chain _ _ _ _ _ Hwf Ht').
    destruct (decide (j = idx)) as [->|Hj]; [|by rewrite Hkeep].
    rewrite Hcs', Hcs. unfold readChain at 1. cbn. rewrite committed_visible by done.
    rewrite (proj2 (Z.leb_gt _ _) Hlt). by rewrite (newVersion_invisible t).
Qed.

(** Rolling back the newest version of a vector, the transaction's own, gives
    every transaction the values of the versions under it. *)
Theorem rollback_update_restores s cs t idx p u us :
  wf_updates s cs -> wf_txn t -> cs idx = (p, u) :: us -> version u = ID t ->
  exists s', rollbackVectorUpdateInfo t idx p s = (Ok tt, s') /\
    (forall t' r, wf_txn t' -> readRow s' t' idx r = Ok (readChain us.*2 t' r)) /\
    (forall t' j r, wf_txn t' -> ID t' <> ID t -> readRow s' t' j r = readRow s t' j r).
Proof.
  intros Hwf Ht Hcs Hv.
  destruct (rollback_run s cs t idx p u us Hwf Ht Hcs Hv) as (s' & E & Hc & Hnd & Hother & _).
  assert (Hread : forall t' j r vs, wf_txn t' -> chain (heap s') (headOf s' j) vs -> NoDup vs.*1 ->
    readRow s' t' j r = Ok (readChain vs.*2 t' r)).
  { intros t' j r vs Ht' Hcv Hndv. unfold readRow, getVectorInfo, readChain.
    rewrite (findVersion_chain _ _ _ vs); [|done|done|by eapply chain_length].
    rewrite <- find_snd. destruct (List.find _ vs) as [[q w]|] eqn:Ef; [|done].
    apply List.find_some in Ef as [Hin _]. apply list_elem_of_In in Hin.
    cbn [obind fmap option_fmap option_map fst snd]. by rewrite (chain_lookup _ _ _ _ _ Hcv Hin). }
  exists s'. split_and!; [done| |].
  - intros t' r Ht'. by apply Hread.
  - intros t' j r Ht' Hne. rewrite (readRow_chain _ _ _ _ _ Hwf Ht').
    destruct (decide (j = idx)) as [->|Hj].
    + rewrite (Hread t' idx r us), Hcs by done. cbn [fmap list_fmap snd].
      by rewrite (newVersion_invisible t).
    + apply Hread; [done|by apply Hother|apply (wf_nodup _ _ Hwf)].
Qed.

(** [hasUpdates] says whether some row from [startRow] to [startRow + numRows],
    the end included, has a value for the transaction; it never misses one of the
    range. *)
Theorem hasUpdates_spec s cs t startRow numRows :
  wf_updates s cs -> wf_txn t ->
  exists b, hasUpdates s t startRow numRows = Ok b /\
    (b = true <-> exists row, startRow <= row <= startRow + numRows /\
                   readRow s t (row / CAP) (row mod CAP) <> Ok None).
Proof.
  intros Hwf Ht. unfold hasUpdates, getQuotientRemainder.
  rewrite (hasUpdatesFrom_spec s cs) by done. eexists. split; [reflexivity|].
  rewrite existsb_exists. split.
  - intros (i & Hi%in_seq & Hb).
    apply (vectorHasUpdates_spec s) in Hb as (r & Hr & Hrow & Hv); [|done|lia].
    exists (i * CAP + r). split; [done|].
    assert (Hdm : (i * CAP + r) / CAP = i /\ (i * CAP + r) mod CAP = r).
    { rewrite Nat.div_add_l by apply vector_capacity_ne0. rewrite (Nat.div_small r), Nat.add_0_r by done.
      rewrite Nat.add_comm, Nat.Div0.mod_add, (Nat.mod_small r) by done. done. }
    destruct Hdm as [-> ->]. rewrite (readRow_chain _ _ _ _ _ Hwf Ht). congruence.
  - intros (row & Hrow & Hv). exists (row / CAP).
    assert (Hq : startRow / CAP <= row / CAP <= (startRow + numRows) / CAP)
      by (split; apply Nat.Div0.div_le_mono; lia).
    split; [apply in_seq; lia|]. apply (vectorHasUpdates_spec s); [done|done|].
    exists (row mod CAP). split_and!; [apply mod_row|rewrite <- div_mod_row; lia|rewrite <- div_mod_row; lia|].
    rewrite (readRow_chain _ _ _ _ _ Hwf Ht) in Hv. congruence.
Qed.

(** A vector whose newest version belongs to another transaction that this one
    does not see, and contains the row, makes the update fail with a write-write
    conflict, and nobody's reads change. *)
Theorem update_conflict s cs t idx row v p u us :
  wf_updates s cs -> wf_txn t -> cs idx = (p, u) :: us ->
  version u <> ID t -> (startTS t < version u)%Z -> row ∈ updatedRows u ->
  exists s', update t idx row v s = (Err updateConflict, s') /\
    (forall t' j r, wf_txn t' -> readRow s' t' j r = readRow s t' j r).
Proof.
  intros Hwf Ht Hcs Hne Hlt Hin. destruct (resized_props s idx) as (Hlen & Hheap & Hhd).
  pose proof (wf_chain _ _ Hwf idx) as Hc. rewrite Hcs in Hc.
  assert (Hh : headOf s idx = Some p /\ heap s !! p = Some u) by (inversion Hc; subst; done).
  destruct Hh as [Hh Hp]. pose proof (size_of_lookup _ _ _ Hp) as Hsz.
  exists (resized s idx). split.
  - unfold update. apply sbind_err. rewrite getOrCreate_start, Hhd, Hh, Hheap, Hsz. cbn [checkConflicts].
    rewrite Hp. destruct (Z.eqb_spec (version u) (ID t)); [done|].
    rewrite (proj2 (Z.ltb_lt _ _) Hlt), (proj2 (existsb_eqb row _) Hin). done.
  - intros t' j r Ht'. rewrite (readRow_chain s cs) by done.
    apply readRow_chain; [|done]. by eapply wf_updates_ext.
Qed.
End UpdateInfo.

Arguments VectorUpdateInfo V : clear implicits.
Arguments UpdateInfo V : clear implicits.

(** ** The properties at concrete inputs *)

(** [exampleTxn] has updated row 3 of vector 0 to 42. *)
Definition exampleVUI : VectorUpdateInfo Z :=
  mkVUI (ID exampleTxn) (3 :: replicate (CAP - 1) 0) 1 None None [42%Z].
Definition exampleUpdates : UpdateInfo Z := mkUpdateInfo [Some 0] {[ 0 := exampleVUI ]}.
Definition exampleChains (j : nat) : list (loc * VectorUpdateInfo Z) :=
  match j with 0 => [(0, exampleVUI)] | _ => [] end.

Lemma wf_exampleUpdates : wf_updates exampleUpdates exampleChains.
Proof.
  split.
  - intros [|idx]; rewrite headOf_lookup; cbn; [|constructor].
    apply chain_cons; [apply lookup_singleton_eq|constructor].
  - intros [|idx]; cbn; repeat constructor; apply not_elem_of_nil.
  - intros [|i] [|j] p; cbn; try done; by rewrite ?elem_of_nil.
  - intros p u. cbn. intros [_ <-]%lookup_singleton_Some.
    pose proof vector_capacity_pos. split; cbn [exampleVUI rowsInVector numRowsUpdated data].
    + cbn [length]. rewrite length_replicate. lia.
    + lia.
    + done.
    + unfold updatedRows. cbn. apply NoDup_singleton.
    + unfold updatedRows. cbn. repeat constructor. apply (proj1 (Nat.ltb_lt _ _)). by vm_compute.
  - intros [|idx] p u us; cbn; [|done]. by intros [= <- <- _].
Qed.

Lemma row_three_in_range : 3 < CAP.
Proof. apply (proj1 (Nat.ltb_lt _ _)). by vm_compute. Qed.

Lemma update_single_writer_witness : exists p s',
  update exampleTxn 0 3 42%Z emptyUpdateInfo = (Ok p, s') /\ readRow s' exampleTxn 0 3 = Ok (Some 42%Z).
Proof.
  destruct (proj2 (update_single_writer (V := Z)) emptyUpdateInfo (fun _ => []) exampleTxn 0 3 42%Z wf_empty wf_exampleTxn
    I row_three_in_range) as (p & s' & cs' & E & _ & _ & Hr & _).
  by exists p, s'.
Defined.

Lemma commit_update_snapshot_witness : exists s',
  commitVectorUpdateInfo 0 7%Z exampleUpdates = (Ok tt, s') /\ readRow s' laterTxn 0 3 = Ok (Some 42%Z).
Proof.
  destruct (commit_update_snapshot exampleUpdates exampleChains exampleTxn 0 0 exampleVUI [] 7%Z wf_exampleUpdates
    wf_exampleTxn eq_refl eq_refl) as (s' & cs' & E & _ & Hr & _).
  - split; by vm_compute.
  - exists s'. split; [done|]. rewrite (Hr laterTxn 3 wf_laterTxn); by vm_compute.
Defined.

Lemma rollback_update_restores_witness : exists s',
  rollbackVectorUpdateInfo exampleTxn 0 0 exampleUpdates = (Ok tt, s') /\ readRow s' exampleTxn 0 3 = Ok None.
Proof.
  destruct (rollback_update_restores exampleUpdates exampleChains exampleTxn 0 0 exampleVUI [] wf_exampleUpdates
    wf_exampleTxn eq_refl eq_refl) as (s' & E & Hr & _).
  exists s'. split; [done|]. apply (Hr exampleTxn 3 wf_exampleTxn).
Defined.

Lemma hasUpdates_spec_witness : exists b, hasUpdates exampleUpdates exampleTxn 0 8 = Ok b /\ b = true.
Proof.
  destruct (hasUpdates_spec exampleUpdates exampleChains exampleTxn 0 8 wf_exampleUpdates wf_exampleTxn)
    as (b & E & Hb). exists b. split; [done|]. apply Hb. exists 3. split; [lia|]. by vm_compute.
Defined.

Lemma update_conflict_witness : exists s',
  update laterTxn 0 3 5%Z exampleUpdates = (Err updateConflict, s').
Proof.
  destruct (update_conflict exampleUpdates exampleChains laterTxn 0 3 5%Z 0 exampleVUI [] wf_exampleUpdates
    wf_laterTxn eq_refl) as (s' & E & _).
  - by vm_compute.
  - by vm_compute.
  - by apply list_elem_of_singleton.
  - by exists s'.
Defined.

(** ** Where the chain's pointers go wrong *)

(** Two transactions one after the other: the first commits an update, the second
    updates the vector and rolls back.  The version that becomes the newest again
    still points to the freed one, and the next update of the vector follows that
    pointer. *)
Theorem rollback_leaves_dangling_next :
  let t1 := newTransaction WRITE (START_TRANSACTION_ID + 1)%Z 1%Z in
  let t2 := newTransaction WRITE (START_TRANSACTION_ID + 2)%Z 2%Z in
  let t3 := newTransaction WRITE (START_TRANSACTION_ID + 3)%Z 3%Z in
  exists s, (p1 <- update t1 0 3 10%Z ;;
             commitVectorUpdateInfo p1 2%Z ;;;
             p2 <- update t2 0 4 20%Z ;;
             rollbackVectorUpdateInfo t2 0 p2 ;;;
             update t3 0 5 30%Z) emptyUpdateInfo = (Err UndefinedBehaviour, s).
Proof. eexists. vm_compute. reflexivity. Qed.

(** Two concurrent writers of different rows of a vector: the second reads the
    first one's uncommitted value. *)
Theorem concurrent_update_dirty_read :
  let t1 := newTransaction WRITE (START_TRANSACTION_ID + 1)%Z 1%Z in
  let t2 := newTransaction WRITE (START_TRANSACTION_ID + 2)%Z 1%Z in
  exists p s, (_ <- update t1 0 3 10%Z ;; update t2 0 4 20%Z) emptyUpdateInfo = (Ok p, s) /\
    readRow s t2 0 3 = Ok (Some 10%Z).
Proof. eexists _, _. split; [vm_compute; reflexivity|vm_compute; reflexivity]. Qed.

(** The oldest version rolled back while a newer one exists: it has no older
    version, and the null pointer is dereferenced. *)
Theorem rollback_oldest_null_deref :
  let t1 := newTransaction WRITE (START_TRANSACTION_ID + 1)%Z 1%Z in
  let t2 := newTransaction WRITE (START_TRANSACTION_ID + 2)%Z 1%Z in
  exists s, (p1 <- update t1 0 3 10%Z ;; p2 <- update t2 0 4 20%Z ;; rollbackVectorUpdateInfo t1 0 p1)
    emptyUpdateInfo = (Err UndefinedBehaviour, s).
Proof. eexists. vm_compute. reflexivity. Qed.

(** A row just past the range makes [hasUpdates] answer true. *)
Theorem hasUpdates_past_end :
  exists s, (update exampleTxn 0 8 10%Z) emptyUpdateInfo = (Ok 0, s) /\
    hasUpdates s exampleTxn 0 8 = Ok true.
Proof. eexists. split; [vm_compute; reflexivity|vm_compute; reflexivity]. Qed.
