(* ===== verification/NullMask.v ===== *)
(** * Null masks (src/include/common/null_mask.h, src/common/null_mask.cpp)

    A null mask is an array of 64-bit entries with one bit per value.  The bits are
    read and written through tables of masks; ranges are set and copied a word, or a
    byte, at a time.  Positions are natural numbers (the code's [uint64_t] positions
    do not wrap for arrays that fit in memory), entries are 64-bit words. *)

From S2P Require Import Prelude.
From stdpp Require Import base list numbers.
Local Open Scope nat_scope.

Definition NULL_BITMASKS_WITH_SINGLE_ONE : list Z := ([
    0x1; 0x2; 0x4; 0x8; 0x10; 0x20; 0x40; 0x80; 0x100; 0x200; 0x400; 0x800; 0x1000; 0x2000;
    0x4000; 0x8000; 0x10000; 0x20000; 0x40000; 0x80000; 0x100000; 0x200000; 0x400000; 0x800000;
    0x1000000; 0x2000000; 0x4000000; 0x8000000; 0x10000000; 0x20000000; 0x40000000; 0x80000000;
    0x100000000; 0x200000000; 0x400000000; 0x800000000; 0x1000000000; 0x2000000000; 0x4000000000;
    0x8000000000; 0x10000000000; 0x20000000000; 0x40000000000; 0x80000000000; 0x100000000000;
    0x200000000000; 0x400000000000; 0x800000000000; 0x1000000000000; 0x2000000000000;
    0x4000000000000; 0x8000000000000; 0x10000000000000; 0x20000000000000; 0x40000000000000;
    0x80000000000000; 0x100000000000000; 0x200000000000000; 0x400000000000000; 0x800000000000000;
    0x1000000000000000; 0x2000000000000000; 0x4000000000000000; 0x8000000000000000]%Z).
Definition NULL_BITMASKS_WITH_SINGLE_ZERO : list Z := ([
    0xfffffffffffffffe; 0xfffffffffffffffd; 0xfffffffffffffffb; 0xfffffffffffffff7;
    0xffffffffffffffef; 0xffffffffffffffdf; 0xffffffffffffffbf; 0xffffffffffffff7f;
    0xfffffffffffffeff; 0xfffffffffffffdff; 0xfffffffffffffbff; 0xfffffffffffff7ff;
    0xffffffffffffefff; 0xffffffffffffdfff; 0xffffffffffffbfff; 0xffffffffffff7fff;
    0xfffffffffffeffff; 0xfffffffffffdffff; 0xfffffffffffbffff; 0xfffffffffff7ffff;
    0xffffffffffefffff; 0xffffffffffdfffff; 0xffffffffffbfffff; 0xffffffffff7fffff;
    0xfffffffffeffffff; 0xfffffffffdffffff; 0xfffffffffbffffff; 0xfffffffff7ffffff;
    0xffffffffefffffff; 0xffffffffdfffffff; 0xffffffffbfffffff; 0xffffffff7fffffff;
    0xfffffffeffffffff; 0xfffffffdffffffff; 0xfffffffbffffffff; 0xfffffff7ffffffff;
    0xffffffefffffffff; 0xffffffdfffffffff; 0xffffffbfffffffff; 0xffffff7fffffffff;
    0xfffffeffffffffff; 0xfffffdffffffffff; 0xfffffbffffffffff; 0xfffff7ffffffffff;
    0xffffefffffffffff; 0xffffdfffffffffff; 0xffffbfffffffffff; 0xffff7fffffffffff;
    0xfffeffffffffffff; 0xfffdffffffffffff; 0xfffbffffffffffff; 0xfff7ffffffffffff;
    0xffefffffffffffff; 0xffdfffffffffffff; 0xffbfffffffffffff; 0xff7fffffffffffff;
    0xfeffffffffffffff; 0xfdffffffffffffff; 0xfbffffffffffffff; 0xf7ffffffffffffff;
    0xefffffffffffffff; 0xdfffffffffffffff; 0xbfffffffffffffff; 0x7fffffffffffffff]%Z).
Definition NULL_LOWER_MASKS : list Z := ([
    0x0; 0x1; 0x3; 0x7; 0xf; 0x1f; 0x3f; 0x7f; 0xff; 0x1ff; 0x3ff; 0x7ff; 0xfff; 0x1fff; 0x3fff;
    0x7fff; 0xffff; 0x1ffff; 0x3ffff; 0x7ffff; 0xfffff; 0x1fffff; 0x3fffff; 0x7fffff; 0xffffff;
    0x1ffffff; 0x3ffffff; 0x7ffffff; 0xfffffff; 0x1fffffff; 0x3fffffff; 0x7fffffff; 0xffffffff;
    0x1ffffffff; 0x3ffffffff; 0x7ffffffff; 0xfffffffff; 0x1fffffffff; 0x3fffffffff; 0x7fffffffff;
    0xffffffffff; 0x1ffffffffff; 0x3ffffffffff; 0x7ffffffffff; 0xfffffffffff; 0x1fffffffffff;
    0x3fffffffffff; 0x7fffffffffff; 0xffffffffffff; 0x1ffffffffffff; 0x3ffffffffffff;
    0x7ffffffffffff; 0xfffffffffffff; 0x1fffffffffffff; 0x3fffffffffffff; 0x7fffffffffffff;
    0xffffffffffffff; 0x1ffffffffffffff; 0x3ffffffffffffff; 0x7ffffffffffffff; 0xfffffffffffffff;
    0x1fffffffffffffff; 0x3fffffffffffffff; 0x7fffffffffffffff; 0xffffffffffffffff]%Z).
Definition NULL_HIGH_MASKS : list Z := ([
    0x0; 0x8000000000000000; 0xc000000000000000; 0xe000000000000000; 0xf000000000000000;
    0xf800000000000000; 0xfc00000000000000; 0xfe00000000000000; 0xff00000000000000;
    0xff80000000000000; 0xffc0000000000000; 0xffe0000000000000; 0xfff0000000000000;
    0xfff8000000000000; 0xfffc000000000000; 0xfffe000000000000; 0xffff000000000000;
    0xffff800000000000; 0xffffc00000000000; 0xffffe00000000000; 0xfffff00000000000;
    0xfffff80000000000; 0xfffffc0000000000; 0xfffffe0000000000; 0xffffff0000000000;
    0xffffff8000000000; 0xffffffc000000000; 0xffffffe000000000; 0xfffffff000000000;
    0xfffffff800000000; 0xfffffffc00000000; 0xfffffffe00000000; 0xffffffff00000000;
    0xffffffff80000000; 0xffffffffc0000000; 0xffffffffe0000000; 0xfffffffff0000000;
    0xfffffffff8000000; 0xfffffffffc000000; 0xfffffffffe000000; 0xffffffffff000000;
    0xffffffffff800000; 0xffffffffffc00000; 0xffffffffffe00000; 0xfffffffffff00000;
    0xfffffffffff80000; 0xfffffffffffc0000; 0xfffffffffffe0000; 0xffffffffffff0000;
    0xffffffffffff8000; 0xffffffffffffc000; 0xffffffffffffe000; 0xfffffffffffff000;
    0xfffffffffffff800; 0xfffffffffffffc00; 0xfffffffffffffe00; 0xffffffffffffff00;
    0xffffffffffffff80; 0xffffffffffffffc0; 0xffffffffffffffe0; 0xfffffffffffffff0;
    0xfffffffffffffff8; 0xfffffffffffffffc; 0xfffffffffffffffe; 0xffffffffffffffff]%Z).

Definition NO_NULL_ENTRY : Z := 0%Z.
Definition NUM_BITS_PER_NULL_ENTRY_LOG2 : nat := 6.
Definition NUM_BITS_PER_NULL_ENTRY : nat := 64.

(** [~x] and [x << k] on [uint64_t]. *)
Definition not64 (x : Z) : Z := Z.land (Z.lnot x) (Z.ones 64).
Definition shl64 (x : Z) (k : nat) : Z := Z.land (Z.shiftl x (Z.of_nat k)) (Z.ones 64).
Definition shr64 (x : Z) (k : nat) : Z := Z.shiftr x (Z.of_nat k).
Definition ALL_NULL_ENTRY : Z := not64 NO_NULL_ENTRY.

Abbreviation entries := (list Z).

(** [l[i]] for the constant tables and for the entries. *)
Definition at_ (l : list Z) (i : nat) : outcome Z :=
  match l !! i with Some x => Ok x | None => Err UndefinedBehaviour end.
Definition put (l : entries) (i : nat) (x : Z) : outcome entries :=
  if decide (i < length l) then Ok (<[i := x]> l) else Err UndefinedBehaviour.

(** [getNullEntryAndBitPos]. *)
Definition getNullEntryAndBitPos (pos : nat) : nat * nat :=
  let nullEntryPos := Nat.shiftr pos NUM_BITS_PER_NULL_ENTRY_LOG2 in
  (nullEntryPos, pos - Nat.shiftl nullEntryPos NUM_BITS_PER_NULL_ENTRY_LOG2).

(** [getNumNullEntries], with the wrapping subtraction of [uint64_t]. *)
Definition getNumNullEntries (numNullBits : Z) : Z :=
  (Z.shiftr numNullBits 6 +
   (if wrapU 64 (numNullBits - wrapU 64 (Z.shiftl numNullBits 6)) =? 0 then 0 else 1))%Z.

(** [NullMask::isNull(nullEntries, pos)] and [NullMask::setNull]. *)
Definition isNull (l : entries) (pos : nat) : outcome bool :=
  let '(entryPos, bitPosInEntry) := getNullEntryAndBitPos pos in
  let* e := at_ l entryPos in
  let* m := at_ NULL_BITMASKS_WITH_SINGLE_ONE bitPosInEntry in
  Ok (negb (Z.land e m =? 0)%Z).
Definition setNull (l : entries) (pos : nat) (isNull : bool) : outcome entries :=
  let '(entryPos, bitPosInEntry) := getNullEntryAndBitPos pos in
  let* e := at_ l entryPos in
  if isNull then
    let* m := at_ NULL_BITMASKS_WITH_SINGLE_ONE bitPosInEntry in put l entryPos (Z.lor e m)
  else
    let* m := at_ NULL_BITMASKS_WITH_SINGLE_ZERO bitPosInEntry in put l entryPos (Z.land e m).

(** [nullEntries[i] |= x] and [nullEntries[i] &= x]. *)
Definition orEntry (l : entries) (i : nat) (x : Z) : outcome entries :=
  let* e := at_ l i in put l i (Z.lor e x).
Definition andEntry (l : entries) (i : nat) (x : Z) : outcome entries :=
  let* e := at_ l i in put l i (Z.land e x).

(** [NullMask::setNullRange]. *)
Definition setNullRange (l : entries) (offset numBitsToSet : nat) (isNull : bool) : outcome entries :=
  if bool_decide (numBitsToSet = 0) then Ok l
  else
    let '(firstEntryPos, firstBitPos) := getNullEntryAndBitPos offset in
    let '(lastEntryPos, lastBitPos) := getNullEntryAndBitPos (offset + numBitsToSet) in
    let* l :=
      (if bool_decide (firstEntryPos + 1 < lastEntryPos) then
         if bool_decide (lastEntryPos <= length l) then
           Ok (assign_range l (firstEntryPos + 1) (lastEntryPos - (firstEntryPos + 1))
                 (if isNull then ALL_NULL_ENTRY else NO_NULL_ENTRY))
         else Err UndefinedBehaviour
       else Ok l) in
    if bool_decide (firstEntryPos = lastEntryPos) then
      let* lo := at_ NULL_LOWER_MASKS firstBitPos in
      let* hi := at_ NULL_HIGH_MASKS (NUM_BITS_PER_NULL_ENTRY - lastBitPos) in
      if isNull then orEntry l firstEntryPos (Z.land (not64 lo) (not64 hi))
      else andEntry l firstEntryPos (Z.lor lo hi)
    else
      let* lo := at_ NULL_LOWER_MASKS firstBitPos in
      let* last := at_ NULL_LOWER_MASKS lastBitPos in
      if isNull then
        let* l := orEntry l firstEntryPos (not64 lo) in
        if bool_decide (0 < lastBitPos) then orEntry l lastEntryPos last else Ok l
      else
        let* l := andEntry l firstEntryPos lo in
        if bool_decide (0 < lastBitPos) then andEntry l lastEntryPos (not64 last) else Ok l.

(** The loop state of [NullMask::copyUnaligned]. *)
Record copyState : Type := mkCopy {
  bitPos : nat;
  hasNullInSrcNullMask : bool;
  srcNullEntryPos : nat;
  srcNullBitPos : nat;
  dstNullEntryPos : nat;
  dstNullBitPos : nat;
  dst : entries;
}.

(** One iteration: the three ways the two positions can lie. *)
Definition copyStep (src : entries) (numBitsToCopy : nat) (invert : bool) (c : copyState)
    : outcome copyState :=
  let* w := at_ src (srcNullEntryPos c) in
  let srcNullMaskEntry := if invert then not64 w else w in
  let left := numBitsToCopy - bitPos c in
  let* r :=
    (if bool_decide (dstNullBitPos c < srcNullBitPos c) then
       let n := Nat.min (NUM_BITS_PER_NULL_ENTRY - srcNullBitPos c) left in
       let* hi := at_ NULL_HIGH_MASKS (NUM_BITS_PER_NULL_ENTRY - (srcNullBitPos c + n)) in
       let m := shr64 (Z.land srcNullMaskEntry (not64 hi)) (srcNullBitPos c - dstNullBitPos c) in
       let* lo := at_ NULL_LOWER_MASKS (dstNullBitPos c) in
       Ok (n, Z.land m (not64 lo),
           (srcNullEntryPos c + 1, 0, dstNullEntryPos c, dstNullBitPos c + n))
     else if bool_decide (srcNullBitPos c < dstNullBitPos c) then
       let n := Nat.min (NUM_BITS_PER_NULL_ENTRY - dstNullBitPos c) left in
       let* lo := at_ NULL_LOWER_MASKS (srcNullBitPos c) in
       let m := shl64 (Z.land srcNullMaskEntry (not64 lo)) (dstNullBitPos c - srcNullBitPos c) in
       let* hi := at_ NULL_HIGH_MASKS (NUM_BITS_PER_NULL_ENTRY - (dstNullBitPos c + n)) in
       Ok (n, Z.land m (not64 hi),
           (srcNullEntryPos c, srcNullBitPos c + n, dstNullEntryPos c + 1, 0))
     else
       let n := Nat.min (NUM_BITS_PER_NULL_ENTRY - dstNullBitPos c) left in
       let* lo := at_ NULL_LOWER_MASKS (srcNullBitPos c) in
       let* hi := at_ NULL_HIGH_MASKS (NUM_BITS_PER_NULL_ENTRY - (dstNullBitPos c + n)) in
       Ok (n, Z.land (Z.land srcNullMaskEntry (not64 lo)) (not64 hi),
           (srcNullEntryPos c + 1, 0, dstNullEntryPos c + 1, 0))) in
  let '(n, m, (se, sb, de, db)) := r in
  let* lowN := at_ NULL_LOWER_MASKS n in
  let* d := andEntry (dst c) (dstNullEntryPos c) (not64 (shl64 lowN (dstNullBitPos c))) in
  let* d := (if (m =? 0)%Z then Ok d else orEntry d (dstNullEntryPos c) m) in
  Ok (mkCopy (bitPos c + n) (hasNullInSrcNullMask c || negb (m =? 0)%Z) se sb de db d).

Fixpoint copyLoop (fuel : nat) (src : entries) (numBitsToCopy : nat) (invert : bool) (c : copyState)
    : outcome copyState :=
  if bool_decide (bitPos c < numBitsToCopy) then
    match fuel with
    | O => Err UndefinedBehaviour
    | S fuel' =>
        let* c' := copyStep src numBitsToCopy invert c in
        copyLoop fuel' src numBitsToCopy invert c'
    end
  else Ok c.

(** [NullMask::copyUnaligned]: every iteration copies a bit at least. *)
Definition copyUnaligned (src : entries) (srcOffset : nat) (dstEntries : entries) (dstOffset : nat)
    (numBitsToCopy : nat) (invert : bool) : outcome (bool * entries) :=
  let '(srcE, srcB) := getNullEntryAndBitPos srcOffset in
  let '(dstE, dstB) := getNullEntryAndBitPos dstOffset in
  let* c := copyLoop numBitsToCopy src numBitsToCopy invert (mkCopy 0 false srcE srcB dstE dstB dstEntries) in
  Ok (hasNullInSrcNullMask c, c.(dst)).

(** The array as bytes (little-endian). *)
Definition getByte (l : entries) (i : nat) : outcome Z :=
  let* e := at_ l (i / 8) in Ok (Z.land (Z.shiftr e (Z.of_nat (8 * (i mod 8)))) 255).
Definition setByte (l : entries) (i : nat) (b : Z) : outcome entries :=
  let* e := at_ l (i / 8) in
  put l (i / 8)
    (Z.lor (Z.ldiff e (Z.shiftl 255 (Z.of_nat (8 * (i mod 8))))) (Z.shiftl b (Z.of_nat (8 * (i mod 8))))).

(** [memcpy] of [n] bytes between two arrays, and whether a byte of the source is
    not zero. *)
Fixpoint copyBytes (src : entries) (srcByte : nat) (dstEntries : entries) (dstByte n : nat)
    : outcome entries :=
  match n with
  | O => Ok dstEntries
  | S n' =>
      let* b := getByte src srcByte in
      let* d := setByte dstEntries dstByte b in
      copyBytes src (S srcByte) d (S dstByte) n'
  end.
Fixpoint anyByte (src : entries) (srcByte n : nat) : outcome bool :=
  match n with
  | O => Ok false
  | S n' =>
      let* b := getByte src srcByte in
      if (b =? 0)%Z then anyByte src (S srcByte) n' else Ok true
  end.

(** [NullMask::copyNullMask]. *)
Definition copyNullMask (src : entries) (srcOffset : nat) (dstEntries : entries) (dstOffset : nat)
    (numBitsToCopy : nat) (invert : bool) : outcome (bool * entries) :=
  if negb invert && bool_decide (srcOffset mod 8 = dstOffset mod 8) && bool_decide (8 <= numBitsToCopy) &&
     bool_decide (8 <= numBitsToCopy - srcOffset mod 8)
  then
    let numBitsInFirstByte := 8 - srcOffset mod 8 in
    let* r1 := copyUnaligned src srcOffset dstEntries dstOffset numBitsInFirstByte false in
    let '(h1, d1) := r1 in
    let srcByte := (srcOffset + numBitsInFirstByte) / 8 in
    let dstByte := (dstOffset + numBitsInFirstByte) / 8 in
    let numBytesForAlignedCopy := (numBitsToCopy - numBitsInFirstByte) / 8 in
    let* d2 := copyBytes src srcByte d1 dstByte numBytesForAlignedCopy in
    let* h2 := anyByte src srcByte numBytesForAlignedCopy in
    let lastByteStart := numBitsInFirstByte + numBytesForAlignedCopy * 8 in
    let numBitsInLastByte := numBitsToCopy - numBitsInFirstByte - numBytesForAlignedCopy * 8 in
    let* r3 := copyUnaligned src (srcOffset + lastByteStart) d2 (dstOffset + lastByteStart)
                 numBitsInLastByte false in
    let '(h3, d3) := r3 in
    Ok (h3 || (h1 || h2), d3)
  else copyUnaligned src srcOffset dstEntries dstOffset numBitsToCopy invert.

(** [NullMask::getMinMax]. *)
Fixpoint allWordsEqual (l : entries) (firstWord : Z) (i n : nat) : outcome bool :=
  match n with
  | O => Ok true
  | S n' =>
      let* e := at_ l i in
      if (e =? firstWord)%Z then allWordsEqual l firstWord (S i) n' else Ok false
  end.
Fixpoint allBitsEqual (l : entries) (b : bool) (i n : nat) : outcome bool :=
  match n with
  | O => Ok true
  | S n' =>
      let* x := isNull l i in
      if Bool.eqb b x then allBitsEqual l b (S i) n' else Ok false
  end.
Definition getMinMax (l : entries) (numValues : nat) : outcome (bool * bool) :=
  let* firstWord := at_ l 0 in
  let* start :=
    (if bool_decide (64 <= numValues) then
       if (firstWord =? 0)%Z then Ok (Some false)
       else if (firstWord =? not64 0)%Z then Ok (Some true)
       else Ok None
     else let* b := isNull l 0 in Ok (Some b)) in
  match start with
  | None => Ok (false, true)
  | Some min =>
      let* same := allWordsEqual l firstWord 0 (numValues / 64) in
      if negb same then Ok (false, true)
      else
        let* same := allBitsEqual l min (numValues / 64 * 64) (numValues - numValues / 64 * 64) in
        if negb same then Ok (false, true) else Ok (min, min)
  end.

(** The object: the entries and whether they may have a bit set. *)
Record NullMask : Type := mkNullMask { data : entries; mayContainNulls : bool }.

Definition newNullMask (capacity : nat) : NullMask :=
  mkNullMask (replicate ((capacity + NUM_BITS_PER_NULL_ENTRY - 1) / NUM_BITS_PER_NULL_ENTRY) NO_NULL_ENTRY) false.
Definition setAllNonNull (m : NullMask) : NullMask :=
  if mayContainNulls m then mkNullMask (replicate (length (data m)) NO_NULL_ENTRY) false else m.
Definition setAllNull (m : NullMask) : NullMask :=
  mkNullMask (replicate (length (data m)) ALL_NULL_ENTRY) true.
Definition hasNoNullsGuarantee (m : NullMask) : bool := negb (mayContainNulls m).
Definition maskSetNull (m : NullMask) (pos : nat) (b : bool) : outcome NullMask :=
  let* d := setNull (data m) pos b in Ok (mkNullMask d (mayContainNulls m || b)).
Definition setNullFromRange (m : NullMask) (offset numBitsToSet : nat) (b : bool) : outcome NullMask :=
  let* d := setNullRange (data m) offset numBitsToSet b in Ok (mkNullMask d (mayContainNulls m || b)).
Definition copyFromNullBits (m : NullMask) (src : entries) (srcOffset dstOffset numBitsToCopy : nat)
    (invert : bool) : outcome (bool * NullMask) :=
  let* r := copyNullMask src srcOffset (data m) dstOffset numBitsToCopy invert in
  let '(h, d) := r in Ok (h, mkNullMask d (mayContainNulls m || h)).
Definition copyFrom (m other : NullMask) (srcOffset dstOffset numBitsToCopy : nat) (invert : bool)
    : outcome (bool * NullMask) :=
  if hasNoNullsGuarantee other then
    let* m' := setNullFromRange m dstOffset numBitsToCopy invert in Ok (invert, m')
  else copyFromNullBits m (data other) srcOffset dstOffset numBitsToCopy invert.
Definition resize (m : NullMask) (capacity : nat) : outcome NullMask :=
  let numNullEntries := (capacity + NUM_BITS_PER_NULL_ENTRY - 1) / NUM_BITS_PER_NULL_ENTRY in
  if bool_decide (length (data m) <= numNullEntries)
  then Ok (mkNullMask (data m ++ replicate (numNullEntries - length (data m)) 0%Z) (mayContainNulls m))
  else Err UndefinedBehaviour.
(** [operator|=], which leaves [mayContainNulls] alone. *)
Definition orMask (m other : NullMask) : outcome NullMask :=
  if bool_decide (length (data other) = length (data m))
  then Ok (mkNullMask (zip_with Z.lor (data m) (data other)) (mayContainNulls m))
  else Err InternalException.

(** ** Bits *)

Definition tb (w : Z) (i : nat) : bool := Z.testbit w (Z.of_nat i).
Definition bit (l : entries) (i : nat) : bool :=
  match l !! (i / 64) with Some w => tb w (i mod 64) | None => false end.
Definition wf_entries (l : entries) : Prop := Forall (inU 64) l.

Lemma tables :
  NULL_BITMASKS_WITH_SINGLE_ONE = (fun k => Z.shiftl 1 (Z.of_nat k)) <$> seq 0 64 /\
  NULL_BITMASKS_WITH_SINGLE_ZERO = (fun k => not64 (Z.shiftl 1 (Z.of_nat k))) <$> seq 0 64 /\
  NULL_LOWER_MASKS = (fun k => Z.ones (Z.of_nat k)) <$> seq 0 65 /\
  NULL_HIGH_MASKS = (fun k => shl64 (Z.ones (Z.of_nat k)) (64 - k)) <$> seq 0 65.
Proof. vm_compute. done. Qed.

Lemma at_seq (f : nat -> Z) n k : k < n -> at_ (f <$> seq 0 n) k = Ok (f k).
Proof. intros H. unfold at_. rewrite list_lookup_fmap, lookup_seq_lt by done. done. Qed.

Lemma at_one k : k < 64 -> at_ NULL_BITMASKS_WITH_SINGLE_ONE k = Ok (Z.shiftl 1 (Z.of_nat k)).
Proof. destruct tables as (-> & _). apply at_seq. Qed.
Lemma at_zero k : k < 64 -> at_ NULL_BITMASKS_WITH_SINGLE_ZERO k = Ok (not64 (Z.shiftl 1 (Z.of_nat k))).
Proof. destruct tables as (_ & -> & _). apply at_seq. Qed.
Lemma at_lower k : k <= 64 -> at_ NULL_LOWER_MASKS k = Ok (Z.ones (Z.of_nat k)).
Proof. intros H. destruct tables as (_ & _ & -> & _). apply at_seq. lia. Qed.
Lemma at_high k : k <= 64 -> at_ NULL_HIGH_MASKS k = Ok (shl64 (Z.ones (Z.of_nat k)) (64 - k)).
Proof. intros H. destruct tables as (_ & _ & _ & ->). apply (at_seq (fun k => shl64 (Z.ones (Z.of_nat k)) (64 - k))). lia. Qed.

Lemma tb_ones k i : tb (Z.ones (Z.of_nat k)) i = bool_decide (i < k).
Proof.
  unfold tb. case_bool_decide; [apply Z.ones_spec_low|apply Z.ones_spec_high]; lia.
Qed.
Lemma tb_ones64 i : tb (Z.ones 64) i = bool_decide (i < 64).
Proof. apply (tb_ones 64). Qed.
Lemma tb_land a b i : tb (Z.land a b) i = tb a i && tb b i.
Proof. apply Z.land_spec. Qed.
Lemma tb_lor a b i : tb (Z.lor a b) i = tb a i || tb b i.
Proof. apply Z.lor_spec. Qed.
Lemma tb_not64 a i : tb (not64 a) i = negb (tb a i) && bool_decide (i < 64).
Proof. unfold not64. rewrite tb_land, tb_ones64. unfold tb. by rewrite Z.lnot_spec by lia. Qed.
Lemma tb_shr a k i : tb (shr64 a k) i = tb a (i + k).
Proof. unfold tb, shr64. rewrite Z.shiftr_spec by lia. f_equal. lia. Qed.
Lemma tb_shl a k i : tb (shl64 a k) i = bool_decide (k <= i) && tb a (i - k) && bool_decide (i < 64).
Proof.
  unfold shl64. rewrite tb_land, tb_ones64. f_equal. unfold tb.
  case_bool_decide as H.
  - rewrite Z.shiftl_spec by lia. cbn [andb]. f_equal. lia.
  - cbn [andb]. apply Z.shiftl_spec_low. lia.
Qed.
Lemma tb_high k i : k <= 64 -> tb (shl64 (Z.ones (Z.of_nat k)) (64 - k)) i = bool_decide (64 - k <= i < 64).
Proof.
  intros H. rewrite tb_shl, tb_ones. repeat case_bool_decide; cbn; try done; lia.
Qed.
Lemma tb_single k i : tb (Z.shiftl 1 (Z.of_nat k)) i = bool_decide (i = k).
Proof.
  unfold tb. rewrite Z.shiftl_1_l. case_bool_decide; [subst; apply Z.pow2_bits_true; lia|].
  apply Z.pow2_bits_false. lia.
Qed.
Lemma tb_out w i : inU 64 w -> 64 <= i -> tb w i = false.
Proof.
  intros [H0 H1] Hi. unfold tb. destruct (decide (w = 0%Z)) as [->|Hw]; [apply Z.bits_0|].
  apply Z.bits_above_log2; [done|]. pose proof (Z.log2_lt_pow2 w 64). lia.
Qed.

(** A 64-bit word from its bits. *)
Lemma word_range w : (0 <= w)%Z -> (forall i, 64 <= i -> tb w i = false) -> inU 64 w.
Proof.
  intros H0 H. split; [done|]. destruct (decide (w = 0%Z)) as [->|Hw]; [done|].
  apply Z.log2_lt_pow2; [lia|]. destruct (decide (Z.log2 w < 64)%Z) as [|Hge]; [done|].
  specialize (H (Z.to_nat (Z.log2 w)) ltac:(lia)). unfold tb in H.
  rewrite Z2Nat.id in H by apply Z.log2_nonneg. by rewrite Z.bit_log2 in H by lia.
Qed.

Lemma word_ext w w' : inU 64 w -> inU 64 w' -> (forall i, i < 64 -> tb w i = tb w' i) -> w = w'.
Proof.
  intros Hw Hw' H. apply Z.bits_inj'. intros n Hn.
  replace n with (Z.of_nat (Z.to_nat n)) by lia. set (i := Z.to_nat n).
  destruct (decide (i < 64)); [by apply H|]. fold (tb w i) (tb w' i). by rewrite !tb_out by (done || lia).
Qed.

Lemma word_zero w : inU 64 w -> (w =? 0)%Z = true <-> forall i, i < 64 -> tb w i = false.
Proof.
  intros Hw. rewrite Z.eqb_eq. split.
  - intros -> i _. apply Z.bits_0.
  - intros H. apply word_ext; [done|done|]. intros i Hi. rewrite H by done. symmetry. apply Z.bits_0.
Qed.

Lemma not64_range w : inU 64 (not64 w).
Proof.
  apply word_range.
  - unfold not64. apply Z.land_nonneg. right. by vm_compute.
  - intros i Hi. rewrite tb_not64. by rewrite bool_decide_eq_false_2, andb_false_r by lia.
Qed.
Lemma land_range a b : inU 64 a -> (0 <= b)%Z -> inU 64 (Z.land a b).
Proof.
  intros Ha Hb. apply word_range; [apply Z.land_nonneg; left; apply Ha|].
  intros i Hi. by rewrite tb_land, (tb_out a).
Qed.
Lemma lor_range a b : inU 64 a -> inU 64 b -> inU 64 (Z.lor a b).
Proof.
  intros Ha Hb. apply word_range; [apply Z.lor_nonneg; split; [apply Ha|apply Hb]|].
  intros i Hi. by rewrite tb_lor, !tb_out.
Qed.

(** ** Reading and writing entries *)

Lemma entryAndBitPos pos : getNullEntryAndBitPos pos = (pos / 64, pos mod 64).
Proof.
  unfold getNullEntryAndBitPos, NUM_BITS_PER_NULL_ENTRY_LOG2.
  rewrite Nat.shiftr_div_pow2, Nat.shiftl_mul_pow2. change (2 ^ 6) with 64.
  f_equal. pose proof (Nat.div_mod_eq pos 64). lia.
Qed.

Lemma mod64 i : i mod 64 < 64.
Proof. apply Nat.mod_upper_bound. lia. Qed.

Lemma at_ok l i : i < length l -> exists w, at_ l i = Ok w /\ l !! i = Some w.
Proof. intros H. destruct (lookup_lt_is_Some_2 l i H) as [w Hw]. exists w. unfold at_. by rewrite Hw. Qed.

Lemma wf_lookup l i w : wf_entries l -> l !! i = Some w -> inU 64 w.
Proof. intros Hwf Hw. by eapply Forall_lookup_1 in Hw. Qed.

(** One entry rewritten: the bits of that entry are those of the new word. *)
Lemma put_bits l e w' :
  e < length l -> exists l', put l e w' = Ok l' /\ length l' = length l /\
    (forall i, bit l' i = if decide (i / 64 = e) then tb w' (i mod 64) else bit l i) /\
    (wf_entries l -> inU 64 w' -> wf_entries l').
Proof.
  intros He. unfold put. rewrite decide_True by done. eexists. split; [reflexivity|].
  rewrite length_insert. split; [done|]. split.
  - intros i. unfold bit. case_decide as Hi.
    + subst e. by rewrite list_lookup_insert_eq.
    + by rewrite list_lookup_insert_ne.
  - intros Hwf Hw. by apply Forall_insert.
Qed.

(** [isNull] reads the bit at the position, and [setNull] writes that bit and no
    other, for every position of the array. *)
Theorem setNull_isNull l pos b :
  wf_entries l -> pos < 64 * length l ->
  isNull l pos = Ok (bit l pos) /\
  exists l', setNull l pos b = Ok l' /\ wf_entries l' /\ length l' = length l /\
    (forall i, bit l' i = if decide (i = pos) then b else bit l i).
Proof.
  intros Hwf Hpos. assert (He : pos / 64 < length l) by (apply Nat.Div0.div_lt_upper_bound; lia).
  destruct (at_ok l _ He) as (w & Hw & Hl). pose proof (wf_lookup _ _ _ Hwf Hl) as Hr.
  pose proof (mod64 pos) as Hm. unfold isNull, setNull. rewrite entryAndBitPos, Hw. cbn [obind].
  split.
  - rewrite at_one by done. cbn [obind]. f_equal. unfold bit. rewrite Hl.
    assert (H1 : inU 64 (Z.land w (Z.shiftl 1 (Z.of_nat (pos mod 64)))))
      by (apply land_range; [done|apply Z.shiftl_nonneg; lia]).
    destruct (Z.land w _ =? 0)%Z eqn:E; cbn [negb].
    + symmetry. apply (word_zero _ H1) with (i := pos mod 64) in E; [|done].
      rewrite tb_land, tb_single, bool_decide_eq_true_2, andb_true_r in E by done. done.
    + destruct (tb w (pos mod 64)) eqn:Eb; [done|]. apply not_true_iff_false in E.
      destruct E. apply word_zero; [done|]. intros i Hi. rewrite tb_land, tb_single.
      case_bool_decide; [subst; by rewrite Eb|apply andb_false_r].
  - assert (Hput : forall w', inU 64 w' ->
      (forall i, i < 64 -> tb w' i = if decide (i = pos mod 64) then b else tb w i) ->
      exists l', put l (pos / 64) w' = Ok l' /\ wf_entries l' /\ length l' = length l /\
        (forall i, bit l' i = if decide (i = pos) then b else bit l i)).
    { intros w' Hw' Hb. destruct (put_bits l _ w' He) as (l' & -> & Hlen & Hbits & Hwf').
      exists l'. split_and!; auto. intros i. rewrite Hbits. case_decide as Hq.
      - rewrite Hb by apply mod64. unfold bit. rewrite Hq, Hl. repeat case_decide; subst; try done.
        destruct H0. pose proof (Nat.div_mod_eq i 64). pose proof (Nat.div_mod_eq pos 64). lia.
      - rewrite decide_False; [done|]. by intros ->. }
    destruct b.
    + rewrite at_one by done. cbn [obind]. apply Hput.
      * apply lor_range; [done|]. rewrite Z.shiftl_1_l. split; [lia|]. apply Z.pow_lt_mono_r; lia.
      * intros i Hi. rewrite tb_lor, tb_single. repeat case_decide; case_bool_decide; try done;
          rewrite ?orb_true_r, ?orb_false_r; done.
    + rewrite at_zero by done. cbn [obind]. apply Hput.
      * apply land_range; [done|apply not64_range].
      * intros i Hi. rewrite tb_land, tb_not64, tb_single, (bool_decide_eq_true_2 (i < 64)) by done.
        case_decide; case_bool_decide; try done; rewrite ?andb_false_r, ?andb_true_r; done.
Qed.

Lemma andEntry_bits l e x :
  wf_entries l -> e < length l -> (0 <= x)%Z ->
  exists l', andEntry l e x = Ok l' /\ wf_entries l' /\ length l' = length l /\
    (forall i, bit l' i = if decide (i / 64 = e) then bit l i && tb x (i mod 64) else bit l i).
Proof.
  intros Hwf He Hx. destruct (at_ok l e He) as (w & Hw & Hl). unfold andEntry. rewrite Hw. cbn [obind].
  destruct (put_bits l e (Z.land w x) He) as (l' & -> & Hlen & Hb & Hwf').
  exists l'. split_and!; [done|apply Hwf'; [done|apply land_range; [by eapply wf_lookup|done]]|done|].
  intros i. rewrite Hb. case_decide; [|done]. subst e. unfold bit. by rewrite Hl, tb_land.
Qed.

Lemma orEntry_bits l e x :
  wf_entries l -> e < length l -> inU 64 x ->
  exists l', orEntry l e x = Ok l' /\ wf_entries l' /\ length l' = length l /\
    (forall i, bit l' i = if decide (i / 64 = e) then bit l i || tb x (i mod 64) else bit l i).
Proof.
  intros Hwf He Hx. destruct (at_ok l e He) as (w & Hw & Hl). unfold orEntry. rewrite Hw. cbn [obind].
  destruct (put_bits l e (Z.lor w x) He) as (l' & -> & Hlen & Hb & Hwf').
  exists l'. split_and!; [done|apply Hwf'; [done|apply lor_range; [by eapply wf_lookup|done]]|done|].
  intros i. rewrite Hb. case_decide; [|done]. subst e. unfold bit. by rewrite Hl, tb_lor.
Qed.

Lemma ones_range k : k <= 64 -> inU 64 (Z.ones (Z.of_nat k)).
Proof.
  intros H. rewrite Z.ones_equiv. unfold inU.
  assert (2 ^ Z.of_nat k <= 2 ^ 64)%Z by (apply Z.pow_le_mono_r; lia). lia.
Qed.
Lemma shl64_nonneg x k : (0 <= shl64 x k)%Z.
Proof. unfold shl64. apply Z.land_nonneg. right. by vm_compute. Qed.

Lemma assign_range_bits (l : entries) start n w :
  start + n <= length l -> inU 64 w -> wf_entries l ->
  wf_entries (assign_range l start n w) /\
  (forall i, bit (assign_range l start n w) i =
     if decide (start <= i / 64 < start + n) then tb w (i mod 64) else bit l i).
Proof.
  intros Hn Hw Hwf. split.
  - revert l start Hn Hwf. induction n as [|n IH]; intros l start Hn Hwf; [done|]. cbn.
    apply IH; [rewrite length_insert; lia|]. by apply Forall_insert.
  - intros i. unfold bit. rewrite lookup_assign_range by done. by case_decide.
Qed.

Lemma pos_split i : i = i / 64 * 64 + i mod 64.
Proof. pose proof (Nat.div_mod_eq i 64). lia. Qed.

(** A range that lies in one entry. *)
Lemma setNullRange_one l e lo hi b :
  wf_entries l -> e < length l -> lo < hi -> hi < 64 ->
  exists l',
    (let* x := at_ NULL_LOWER_MASKS lo in
     let* y := at_ NULL_HIGH_MASKS (64 - hi) in
     if (b : bool) then orEntry l e (Z.land (not64 x) (not64 y)) else andEntry l e (Z.lor x y)) = Ok l' /\
    wf_entries l' /\ length l' = length l /\
    (forall i, bit l' i = if decide (e * 64 + lo <= i < e * 64 + hi) then b else bit l i).
Proof.
  intros Hwf He Hlo Hhi. rewrite at_lower, at_high by lia. cbn [obind].
  set (y := shl64 _ _).
  assert (Hy : forall i, i < 64 -> tb y i = bool_decide (hi <= i)).
  { intros i Hi. subst y. rewrite tb_high by lia. repeat case_bool_decide; try done; lia. }
  assert (Hsplit : forall l', (forall i, bit l' i = if decide (i / 64 = e)
      then (if decide (lo <= i mod 64 < hi) then b else bit l i) else bit l i) ->
    forall i, bit l' i = if decide (e * 64 + lo <= i < e * 64 + hi) then b else bit l i).
  { intros l' H i. rewrite H. pose proof (pos_split i). pose proof (mod64 i).
    repeat case_decide; try done; exfalso; nia. }
  destruct b.
  - destruct (orEntry_bits l e (Z.land (not64 (Z.ones (Z.of_nat lo))) (not64 y)))
      as (l' & -> & ? & ? & Hb); [done|done|apply land_range; [apply not64_range|apply not64_range]|].
    exists l'. split_and!; try done. apply Hsplit. intros i. rewrite Hb. case_decide; [|done].
    pose proof (mod64 i). rewrite tb_land, !tb_not64, tb_ones, Hy, (bool_decide_eq_true_2 (i mod 64 < 64)) by done.
    repeat case_bool_decide; case_decide; cbn; rewrite ?orb_true_r, ?orb_false_r; try done; lia.
  - destruct (andEntry_bits l e (Z.lor (Z.ones (Z.of_nat lo)) y)) as (l' & -> & ? & ? & Hb);
      [done|done|apply Z.lor_nonneg; split; [apply ones_range; lia|apply shl64_nonneg]|].
    exists l'. split_and!; try done. apply Hsplit. intros i. rewrite Hb. case_decide; [|done].
    pose proof (mod64 i). rewrite tb_lor, tb_ones, Hy by done.
    repeat case_bool_decide; case_decide; cbn; rewrite ?andb_true_r, ?andb_false_r; try done; lia.
Qed.

(** The first and last entry of a range that spans several. *)
Lemma setNullRange_ends l e e' lo hi b :
  wf_entries l -> e < e' -> e < length l -> lo < 64 -> hi < 64 -> (0 < hi -> e' < length l) ->
  exists l',
    (let* x := at_ NULL_LOWER_MASKS lo in
     let* y := at_ NULL_LOWER_MASKS hi in
     if (b : bool) then
       let* l := orEntry l e (not64 x) in
       if bool_decide (0 < hi) then orEntry l e' y else Ok l
     else
       let* l := andEntry l e x in
       if bool_decide (0 < hi) then andEntry l e' (not64 y) else Ok l) = Ok l' /\
    wf_entries l' /\ length l' = length l /\
    (forall i, bit l' i = if decide ((i / 64 = e /\ lo <= i mod 64) \/ (i / 64 = e' /\ i mod 64 < hi))
                          then b else bit l i).
Proof.
  intros Hwf Hee He Hlo Hhi He'. rewrite !at_lower by lia. cbn [obind]. destruct b.
  - destruct (orEntry_bits l e (not64 (Z.ones (Z.of_nat lo)))) as (l1 & -> & Hwf1 & Hl1 & Hb1);
      [done|done|apply not64_range|]. cbn [obind].
    assert (Hb1' : forall i, bit l1 i = if decide (i / 64 = e /\ lo <= i mod 64) then true else bit l i).
    { intros i. rewrite Hb1. pose proof (mod64 i). rewrite tb_not64, tb_ones, (bool_decide_eq_true_2 (i mod 64 < 64)) by done.
      repeat case_decide; repeat case_bool_decide; cbn; rewrite ?orb_true_r, ?orb_false_r; try done; lia. }
    case_bool_decide.
    + destruct (orEntry_bits l1 e' (Z.ones (Z.of_nat hi))) as (l2 & -> & Hwf2 & Hl2 & Hb2);
        [done|rewrite Hl1; auto|apply ones_range; lia|].
      exists l2. split_and!; [done|done|by rewrite Hl2|]. intros i. rewrite Hb2, Hb1', tb_ones.
      repeat case_decide; repeat case_bool_decide; rewrite ?orb_true_r, ?orb_false_r; try done; lia.
    + exists l1. split_and!; try done. intros i. rewrite Hb1'. repeat case_decide; try done; lia.
  - destruct (andEntry_bits l e (Z.ones (Z.of_nat lo))) as (l1 & -> & Hwf1 & Hl1 & Hb1);
      [done|done|apply ones_range; lia|]. cbn [obind].
    assert (Hb1' : forall i, bit l1 i = if decide (i / 64 = e /\ lo <= i mod 64) then false else bit l i).
    { intros i. rewrite Hb1, tb_ones.
      repeat case_decide; repeat case_bool_decide; cbn; rewrite ?andb_true_r, ?andb_false_r; try done; lia. }
    case_bool_decide.
    + destruct (andEntry_bits l1 e' (not64 (Z.ones (Z.of_nat hi)))) as (l2 & -> & Hwf2 & Hl2 & Hb2);
        [done|rewrite Hl1; auto|apply not64_range|].
      exists l2. split_and!; [done|done|by rewrite Hl2|]. intros i. rewrite Hb2, Hb1', tb_not64, tb_ones.
      rewrite (bool_decide_eq_true_2 (i mod 64 < 64)) by apply mod64.
      repeat case_decide; repeat case_bool_decide; cbn; rewrite ?andb_true_r, ?andb_false_r; try done; lia.
    + exists l1. split_and!; try done. intros i. rewrite Hb1'. repeat case_decide; try done; lia.
Qed.

(** The entries between them. *)
Lemma setNullRange_middle l e e' b :
  wf_entries l -> e' <= length l ->
  exists l', (if bool_decide (e + 1 < e') then
       if bool_decide (e' <= length l) then
         Ok (assign_range l (e + 1) (e' - (e + 1)) (if (b : bool) then ALL_NULL_ENTRY else NO_NULL_ENTRY))
       else Err UndefinedBehaviour
     else Ok l) = Ok l' /\ wf_entries l' /\ length l' = length l /\
    (forall i, bit l' i = if decide (e < i / 64 < e') then b else bit l i).
Proof.
  intros Hwf He'. case_bool_decide.
  - rewrite bool_decide_eq_true_2 by done. eexists. split; [reflexivity|].
    set (w := if b then ALL_NULL_ENTRY else NO_NULL_ENTRY).
    destruct (assign_range_bits l (e + 1) (e' - (e + 1)) w) as [Hw Hb]; [lia|by destruct b; split|done|].
    split_and!; [done|apply length_assign_range|]. intros i. rewrite Hb. repeat case_decide; try done; try lia.
    pose proof (mod64 i). unfold w, ALL_NULL_ENTRY, NO_NULL_ENTRY. destruct b; [|apply Z.bits_0].
    rewrite tb_not64, bool_decide_eq_true_2 by done. unfold tb. by rewrite Z.bits_0.
  - exists l. split_and!; try done. intros i. rewrite decide_False by lia. done.
Qed.

(** [setNullRange] sets exactly the bits of the range, word by word, and keeps
    every other bit. *)
Theorem setNullRange_spec l offset n b :
  wf_entries l -> offset + n <= 64 * length l ->
  exists l', setNullRange l offset n b = Ok l' /\ wf_entries l' /\ length l' = length l /\
    (forall i, bit l' i = if decide (offset <= i < offset + n) then b else bit l i).
Proof.
  intros Hwf Hlen. unfold setNullRange. case_bool_decide as Hn.
  { exists l. split_and!; try done. intros i. rewrite decide_False by lia. done. }
  rewrite !entryAndBitPos. unfold NUM_BITS_PER_NULL_ENTRY.
  pose proof (pos_split offset) as H1. pose proof (pos_split (offset + n)) as H2.
  pose proof (mod64 offset) as H3. pose proof (mod64 (offset + n)) as H4.
  set (e := offset / 64) in *. set (lo := offset mod 64) in *.
  set (e' := (offset + n) / 64) in *. set (hi := (offset + n) mod 64) in *.
  assert (Hee : e <= e') by nia.
  destruct (setNullRange_middle l e e' b Hwf) as (l1 & -> & Hwf1 & Hl1 & Hb1); [nia|]. cbn [obind].
  case_bool_decide as He.
  - destruct (setNullRange_one l1 e lo hi b) as (l2 & E2 & Hwf2 & Hl2 & Hb2); [done|rewrite Hl1; nia|nia|done|].
    exists l2. split; [exact E2|]. split_and!; [done|by rewrite Hl2|]. intros i. rewrite Hb2, Hb1.
    pose proof (pos_split i). pose proof (mod64 i). repeat case_decide; try done; exfalso; nia.
  - destruct (setNullRange_ends l1 e e' lo hi b) as (l2 & E2 & Hwf2 & Hl2 & Hb2);
      [done|lia|rewrite Hl1; nia|done|done|rewrite Hl1; nia|].
    exists l2. split; [exact E2|]. split_and!; [done|by rewrite Hl2|]. intros i. rewrite Hb2, Hb1.
    pose proof (pos_split i). pose proof (mod64 i). repeat case_decide; try done; exfalso; nia.
Qed.

(** ** Copying *)

(** The bit a copy writes for source position [i]. *)
Definition srcBit (src : entries) (invert : bool) (i : nat) : bool := xorb invert (bit src i).

(** [dst'] is [dst] with the bits of the range copied. *)
Definition copied (src : entries) (invert : bool) (srcOff : nat) (d d' : entries) (dstOff n : nat) : Prop :=
  wf_entries d' /\ length d' = length d /\
  forall i, bit d' i =
    if decide (dstOff <= i < dstOff + n) then srcBit src invert (srcOff + (i - dstOff)) else bit d i.

Definition anyBit (p : nat -> bool) (n : nat) : bool := existsb p (seq 0 n).

Lemma anyBit_true p n : anyBit p n = true <-> exists j, j < n /\ p j = true.
Proof.
  unfold anyBit. rewrite existsb_exists. split.
  - intros (j & Hj%in_seq & Hp). exists j. split; [lia|done].
  - intros (j & Hj & Hp). exists j. split; [apply in_seq; lia|done].
Qed.

(** The word of the source that one iteration writes: [n] bits from [sb], moved to
    [db]. *)
Definition moved (w m : Z) (sb db n : nat) : Prop :=
  forall i, i < 64 -> tb m i = bool_decide (db <= i < db + n) && tb w (i + sb - db).

Lemma moved_right w sb db n :
  inU 64 w -> db < sb -> sb + n <= 64 ->
  moved w (Z.land (shr64 (Z.land w (not64 (shl64 (Z.ones (Z.of_nat (64 - (sb + n)))) (64 - (64 - (sb + n))))))
                    (sb - db)) (not64 (Z.ones (Z.of_nat db)))) sb db n /\
  inU 64 (Z.land (shr64 (Z.land w (not64 (shl64 (Z.ones (Z.of_nat (64 - (sb + n)))) (64 - (64 - (sb + n))))))
                    (sb - db)) (not64 (Z.ones (Z.of_nat db)))).
Proof.
  intros Hw Hlt Hn. split.
  - intros i Hi. rewrite tb_land, tb_shr, tb_land, !tb_not64, tb_high, tb_ones by lia.
    rewrite (bool_decide_eq_true_2 (i < 64)), andb_true_r by done.
    destruct (decide (i + (sb - db) < 64)) as [Hin|Hout].
    + replace (i + sb - db) with (i + (sb - db)) by lia.
      destruct (tb w (i + (sb - db))); repeat case_bool_decide; cbn; try done; lia.
    + rewrite (tb_out w) by (done || lia). cbn [andb]. rewrite (tb_out w), andb_false_r by (done || lia). done.
  - rewrite Z.land_comm. apply land_range; [apply not64_range|].
    unfold shr64. apply Z.shiftr_nonneg, Z.land_nonneg. left. apply Hw.
Qed.

Lemma moved_left w sb db n :
  inU 64 w -> sb < db -> db + n <= 64 ->
  moved w (Z.land (shl64 (Z.land w (not64 (Z.ones (Z.of_nat sb)))) (db - sb))
             (not64 (shl64 (Z.ones (Z.of_nat (64 - (db + n)))) (64 - (64 - (db + n)))))) sb db n /\
  inU 64 (Z.land (shl64 (Z.land w (not64 (Z.ones (Z.of_nat sb)))) (db - sb))
             (not64 (shl64 (Z.ones (Z.of_nat (64 - (db + n)))) (64 - (64 - (db + n)))))).
Proof.
  intros Hw Hlt Hn. split.
  - intros i Hi. rewrite tb_land, tb_shl, tb_land, !tb_not64, tb_high, tb_ones by lia.
    rewrite (bool_decide_eq_true_2 (i < 64)), !andb_true_r by done.
    destruct (decide (db - sb <= i)) as [Hin|Hout].
    + replace (i + sb - db) with (i - (db - sb)) by lia.
      destruct (tb w (i - (db - sb))); repeat case_bool_decide; cbn; try done; lia.
    + rewrite (bool_decide_eq_false_2 (db - sb <= i)), (bool_decide_eq_false_2 (db <= i < db + n)) by lia. done.
  - rewrite Z.land_comm. apply land_range; [apply not64_range|apply shl64_nonneg].
Qed.

Lemma moved_aligned w b n :
  inU 64 w -> b + n <= 64 ->
  moved w (Z.land (Z.land w (not64 (Z.ones (Z.of_nat b))))
             (not64 (shl64 (Z.ones (Z.of_nat (64 - (b + n)))) (64 - (64 - (b + n)))))) b b n /\
  inU 64 (Z.land (Z.land w (not64 (Z.ones (Z.of_nat b))))
             (not64 (shl64 (Z.ones (Z.of_nat (64 - (b + n)))) (64 - (64 - (b + n)))))).
Proof.
  intros Hw Hn. split.
  - intros i Hi. rewrite !tb_land, !tb_not64, tb_high, tb_ones by lia.
    rewrite (bool_decide_eq_true_2 (i < 64)), !andb_true_r by done.
    replace (i + b - b) with i by lia.
    destruct (tb w i); repeat case_bool_decide; cbn; try done; lia.
  - apply land_range; [|apply not64_range]. apply land_range; [done|apply not64_range].
Qed.

Lemma moved_nonzero w m sb db n :
  inU 64 m -> moved w m sb db n -> db + n <= 64 ->
  negb (m =? 0)%Z = anyBit (fun j => tb w (sb + j)) n.
Proof.
  intros Hm Hmv Hn. destruct (anyBit _ n) eqn:E.
  - apply anyBit_true in E as (j & Hj & Hp). apply negb_true_iff, not_true_iff_false.
    rewrite (word_zero m Hm). intros Hz. specialize (Hz (db + j) ltac:(lia)). rewrite Hmv in Hz by lia.
    rewrite bool_decide_eq_true_2 in Hz by lia. cbn [andb] in Hz.
    replace (db + j + sb - db) with (sb + j) in Hz by lia. congruence.
  - apply negb_false_iff, word_zero; [done|]. intros i Hi. rewrite Hmv by done.
    case_bool_decide as Hr; [|done]. cbn [andb]. destruct (tb w _) eqn:Eb; [|done].
    exfalso. apply not_true_iff_false in E. apply E, anyBit_true. exists (i - db). split; [lia|].
    by replace (sb + (i - db)) with (i + sb - db) by lia.
Qed.

(** Clearing the target bits and merging the moved word. *)
Lemma mergeWord d e w m sb db n :
  wf_entries d -> e < length d -> inU 64 m -> moved w m sb db n -> db + n <= 64 ->
  exists d', (let* x := andEntry d e (not64 (shl64 (Z.ones (Z.of_nat n)) db)) in
              if (m =? 0)%Z then Ok x else orEntry x e m) = Ok d' /\
    wf_entries d' /\ length d' = length d /\
    (forall i, bit d' i = if decide (i / 64 = e /\ db <= i mod 64 < db + n)
                          then tb w (i mod 64 + sb - db) else bit d i).
Proof.
  intros Hwf He Hm Hmv Hn.
  destruct (andEntry_bits d e (not64 (shl64 (Z.ones (Z.of_nat n)) db))) as (d1 & -> & Hwf1 & Hl1 & Hb1);
    [done|done|apply not64_range|]. cbn [obind].
  assert (Hb1' : forall i, bit d1 i =
    if decide (i / 64 = e /\ db <= i mod 64 < db + n) then false else bit d i).
  { intros i. rewrite Hb1, tb_not64, tb_shl, tb_ones. pose proof (mod64 i).
    rewrite (bool_decide_eq_true_2 (i mod 64 < 64)), !andb_true_r by done.
    repeat case_decide; repeat case_bool_decide; cbn; rewrite ?andb_true_r, ?andb_false_r; try done; lia. }
  assert (Hor : exists d', (if (m =? 0)%Z then Ok d1 else orEntry d1 e m) = Ok d' /\
    wf_entries d' /\ length d' = length d1 /\
    (forall i, bit d' i = if decide (i / 64 = e) then bit d1 i || tb m (i mod 64) else bit d1 i)).
  { destruct (m =? 0)%Z eqn:E.
    - exists d1. split_and!; try done. intros i. case_decide; [|done].
      apply Z.eqb_eq in E as ->. unfold tb. by rewrite Z.bits_0, orb_false_r.
    - apply orEntry_bits; [done|lia|done]. }
  destruct Hor as (d' & E & Hwf' & Hl' & Hb'). exists d'. split_and!; [done|done|by rewrite Hl'|].
  intros i. rewrite Hb', Hb1'. pose proof (mod64 i). rewrite Hmv by done.
  repeat case_decide; repeat case_bool_decide; cbn; rewrite ?orb_false_r; try done; lia.
Qed.

Section copy.
Context (src d0 : entries) (srcOff dstOff n : nat) (invert : bool).
Context (Hwfs : wf_entries src) (Hwfd : wf_entries d0).
Context (Hsrc : srcOff + n <= 64 * length src) (Hdst : dstOff + n <= 64 * length d0).

Definition copyInv (c : copyState) : Prop :=
  copied src invert srcOff d0 (dst c) dstOff (bitPos c) /\
  hasNullInSrcNullMask c = anyBit (fun j => srcBit src invert (srcOff + j)) (bitPos c) /\
  bitPos c <= n /\
  (bitPos c < n ->
     srcNullEntryPos c * 64 + srcNullBitPos c = srcOff + bitPos c /\ srcNullBitPos c < 64 /\
     dstNullEntryPos c * 64 + dstNullBitPos c = dstOff + bitPos c /\ dstNullBitPos c < 64).

Lemma srcWord e w k :
  src !! e = Some w -> k < 64 -> tb (if invert then not64 w else w) k = srcBit src invert (e * 64 + k).
Proof.
  intros Hw Hk. unfold srcBit, bit.
  rewrite Nat.div_add_l, (Nat.div_small k), Nat.add_0_r, Hw by lia.
  rewrite (Nat.add_comm (e * 64)), Nat.Div0.mod_add, (Nat.mod_small k) by done.
  destruct invert; [|done]. rewrite tb_not64, bool_decide_eq_true_2, andb_true_r by done. done.
Qed.

(** What an iteration needs of the case it is in. *)
Lemma copyStep_finish c w m k se sb de db :
  copyInv c -> bitPos c < n -> src !! srcNullEntryPos c = Some w ->
  moved (if invert then not64 w else w) m (srcNullBitPos c) (dstNullBitPos c) k -> inU 64 m ->
  0 < k -> k <= n - bitPos c -> srcNullBitPos c + k <= 64 -> dstNullBitPos c + k <= 64 ->
  (bitPos c + k < n -> se * 64 + sb = srcOff + bitPos c + k /\ sb < 64 /\
                       de * 64 + db = dstOff + bitPos c + k /\ db < 64) ->
  exists c', (let* lowN := at_ NULL_LOWER_MASKS k in
    let* d := andEntry (dst c) (dstNullEntryPos c) (not64 (shl64 lowN (dstNullBitPos c))) in
    let* d := (if (m =? 0)%Z then Ok d else orEntry d (dstNullEntryPos c) m) in
    Ok (mkCopy (bitPos c + k) (hasNullInSrcNullMask c || negb (m =? 0)%Z) se sb de db d)) = Ok c' /\
    copyInv c' /\ bitPos c < bitPos c'.
Proof.
  intros (Hcp & Hnull & _ & Hpos) Hlt Hw Hmv Hm Hk Hkn Hs Hd Hnext.
  destruct (Hpos Hlt) as (Hse & Hsb & Hde & Hdb). destruct Hcp as (Hwf & Hlen & Hbits).
  destruct (mergeWord (dst c) (dstNullEntryPos c) (if invert then not64 w else w) m
    (srcNullBitPos c) (dstNullBitPos c) k Hwf) as (d' & E & Hwf' & Hl' & Hb'); [rewrite Hlen; nia|done..|].
  rewrite at_lower by lia. cbn [obind] in *.
  destruct (andEntry _ _ _) as [x|]; [|done]. cbn [obind] in *. rewrite E. cbn [obind].
  eexists. split; [reflexivity|]. cbn [bitPos]. split; [|lia].
  assert (Hword : forall j, j < k -> tb (if invert then not64 w else w) (srcNullBitPos c + j) =
    srcBit src invert (srcOff + (bitPos c + j))).
  { intros j Hj. rewrite (srcWord (srcNullEntryPos c)) by (done || lia). f_equal. lia. }
  split_and!; cbn [bitPos hasNullInSrcNullMask dst srcNullEntryPos srcNullBitPos dstNullEntryPos dstNullBitPos].
  - split_and!; [done|by rewrite Hl'|]. intros i. rewrite Hb', Hbits.
    pose proof (pos_split i). pose proof (mod64 i).
    destruct (decide (i / 64 = dstNullEntryPos c /\ dstNullBitPos c <= i mod 64 < dstNullBitPos c + k)) as [Hi|Hi].
    + rewrite decide_True by nia.
      replace (i mod 64 + srcNullBitPos c - dstNullBitPos c)
        with (srcNullBitPos c + (i mod 64 - dstNullBitPos c)) by lia.
      rewrite Hword by lia. f_equal. nia.
    + destruct (decide (dstOff <= i < dstOff + bitPos c)); [by rewrite decide_True by lia|].
      rewrite decide_False; [done|]. intros Hr. apply Hi.
      assert (i / 64 = dstNullEntryPos c) by nia. split; [done|nia].
  - rewrite Hnull, (moved_nonzero _ _ _ _ _ Hm Hmv Hd). apply eq_true_iff_eq.
    rewrite orb_true_iff, !anyBit_true. split.
    + intros [(j & Hj & Hp)|(j & Hj & Hp)]; [exists j; split; [lia|done]|].
      rewrite Hword in Hp by done. exists (bitPos c + j). split; [lia|done].
    + intros (j & Hj & Hp). destruct (decide (j < bitPos c)); [left; by exists j|right].
      exists (j - bitPos c). split; [lia|]. rewrite Hword by lia.
      by replace (bitPos c + (j - bitPos c)) with j by lia.
  - lia.
  - intros H. destruct (Hnext H) as (? & ? & ? & ?). split_and!; lia.
Qed.

Lemma copyStep_ok c :
  copyInv c -> bitPos c < n ->
  exists c', copyStep src n invert c = Ok c' /\ copyInv c' /\ bitPos c < bitPos c'.
Proof.
  intros Hinv Hlt. pose proof Hinv as (_ & _ & _ & Hpos).
  destruct (Hpos Hlt) as (Hse & Hsb & Hde & Hdb).
  destruct (at_ok src (srcNullEntryPos c)) as (w & Ew & Hw); [nia|].
  assert (Hwr : inU 64 (if invert then not64 w else w))
    by (destruct invert; [apply not64_range|exact (wf_lookup _ _ _ Hwfs Hw)]).
  unfold copyStep, NUM_BITS_PER_NULL_ENTRY. rewrite Ew. cbn [obind].
  case_bool_decide as H1; [|case_bool_decide as H2].
  - rewrite at_high, at_lower by lia. cbn [obind].
    set (k := Nat.min _ _).
    destruct (moved_right (if invert then not64 w else w) (srcNullBitPos c) (dstNullBitPos c) k) as [Hm Hmr];
      [done|done|lia|].
    eapply copyStep_finish; [done|done|exact Hw|exact Hm|exact Hmr|lia|lia|lia|lia|]. lia.
  - rewrite at_lower by lia. cbn [obind]. rewrite at_high by lia. cbn [obind].
    set (k := Nat.min _ _).
    destruct (moved_left (if invert then not64 w else w) (srcNullBitPos c) (dstNullBitPos c) k) as [Hm Hmr];
      [done|done|lia|].
    eapply copyStep_finish; [done|done|exact Hw|exact Hm|exact Hmr|lia|lia|lia|lia|]. lia.
  - assert (Heq : srcNullBitPos c = dstNullBitPos c) by lia.
    rewrite at_lower by lia. cbn [obind]. rewrite at_high by lia. cbn [obind].
    set (k := Nat.min _ _).
    destruct (moved_aligned (if invert then not64 w else w) (dstNullBitPos c) k) as [Hm Hmr]; [done|lia|].
    rewrite Heq. eapply copyStep_finish; [done|done|exact Hw| |exact Hmr|lia|lia|lia|lia|lia].
    rewrite Heq. exact Hm.
Qed.

Lemma copyLoop_ok fuel c :
  copyInv c -> n - bitPos c <= fuel ->
  exists c', copyLoop fuel src n invert c = Ok c' /\ copyInv c' /\ bitPos c' = n.
Proof.
  revert c. induction fuel as [|fuel IH]; intros c Hinv Hf; cbn [copyLoop].
  - rewrite bool_decide_eq_false_2 by lia. exists c. destruct Hinv as (? & ? & ? & ?). split_and!; [done|done|lia].
  - case_bool_decide as Hlt.
    + destruct (copyStep_ok c Hinv Hlt) as (c' & -> & Hinv' & Hmore). cbn [obind]. apply IH; [done|lia].
    + exists c. pose proof Hinv as (? & ? & ? & ?). split_and!; [done|done|lia].
Qed.

Lemma copyUnaligned_ok :
  exists d', copyUnaligned src srcOff d0 dstOff n invert =
      Ok (anyBit (fun j => srcBit src invert (srcOff + j)) n, d') /\
    copied src invert srcOff d0 d' dstOff n.
Proof.
  unfold copyUnaligned. rewrite !entryAndBitPos.
  destruct (copyLoop_ok n (mkCopy 0 false (srcOff / 64) (srcOff mod 64) (dstOff / 64) (dstOff mod 64) d0))
    as (c & -> & (Hc & Hn & _) & Hb).
  - unfold copyInv. cbn [bitPos hasNullInSrcNullMask dst srcNullEntryPos srcNullBitPos dstNullEntryPos dstNullBitPos].
    split_and!; [|done|lia|].
    + split_and!; [done|done|]. intros i. by rewrite decide_False by lia.
    + intros _. pose proof (pos_split srcOff). pose proof (pos_split dstOff).
      pose proof (mod64 srcOff). pose proof (mod64 dstOff). split_and!; lia.
  - cbn. lia.
  - cbn [obind]. rewrite Hb in *. exists (dst c). by rewrite Hn.
Qed.
End copy.

Lemma copied_trans src invert so d d1 d2 dof n1 n2 :
  copied src invert so d d1 dof n1 -> copied src invert (so + n1) d1 d2 (dof + n1) n2 ->
  copied src invert so d d2 dof (n1 + n2).
Proof.
  intros (Hwf1 & Hl1 & Hb1) (Hwf2 & Hl2 & Hb2). split_and!; [done|by rewrite Hl2|].
  intros i. rewrite Hb2, Hb1. repeat case_decide; try done; try lia. f_equal. lia.
Qed.

Lemma anyBit_split p n m : anyBit p (n + m) = anyBit p n || anyBit (fun j => p (n + j)) m.
Proof.
  apply eq_true_iff_eq. rewrite orb_true_iff, !anyBit_true. split.
  - intros (j & Hj & Hp). destruct (decide (j < n)); [left; by exists j|right].
    exists (j - n). split; [lia|]. by replace (n + (j - n)) with j by lia.
  - intros [(j & Hj & Hp)|(j & Hj & Hp)]; [exists j|exists (n + j)]; (split; [lia|done]).
Qed.

Lemma anyBit_ext p q n : (forall j, j < n -> p j = q j) -> anyBit p n = anyBit q n.
Proof.
  intros H. apply eq_true_iff_eq. rewrite !anyBit_true.
  split; intros (j & Hj & Hp); exists j; (split; [done|]); [rewrite <- H|rewrite H]; done.
Qed.

(** *** Bytes *)

Lemma byte_pos i j : j < 8 -> (8 * i + j) / 64 = i / 8 /\ (8 * i + j) mod 64 = 8 * (i mod 8) + j.
Proof.
  intros Hj. pose proof (Nat.div_mod_eq i 8). pose proof (Nat.mod_upper_bound i 8).
  replace (8 * i + j) with (8 * (i mod 8) + j + i / 8 * 64) by lia.
  rewrite Nat.div_add, Nat.Div0.mod_add, Nat.div_small, Nat.mod_small by lia. lia.
Qed.

Lemma tb_255 j : tb 255 j = bool_decide (j < 8).
Proof. change 255%Z with (Z.ones (Z.of_nat 8)). apply tb_ones. Qed.

Lemma tb_shiftl a k i : tb (Z.shiftl a (Z.of_nat k)) i = bool_decide (k <= i) && tb a (i - k).
Proof.
  unfold tb. case_bool_decide as H; cbn [andb].
  - rewrite Z.shiftl_spec by lia. f_equal. lia.
  - apply Z.shiftl_spec_low. lia.
Qed.

Lemma getByte_ok l i :
  wf_entries l -> 8 * i + 8 <= 64 * length l ->
  exists b, getByte l i = Ok b /\ (0 <= b)%Z /\
    (forall j, tb b j = bool_decide (j < 8) && bit l (8 * i + j)) /\
    ((b =? 0)%Z = negb (anyBit (fun j => bit l (8 * i + j)) 8)).
Proof.
  intros Hwf Hi. destruct (at_ok l (i / 8)) as (w & Hw & Hl); [apply Nat.Div0.div_lt_upper_bound; lia|].
  unfold getByte. rewrite Hw. cbn [obind]. eexists. split; [reflexivity|].
  set (b := Z.land _ 255). pose proof (wf_lookup _ _ _ Hwf Hl) as Hr.
  assert (Hpos : (0 <= b)%Z) by (apply Z.land_nonneg; by right).
  assert (Hb : forall j, tb b j = bool_decide (j < 8) && bit l (8 * i + j)).
  { intros j. subst b. rewrite tb_land, tb_255, andb_comm. case_bool_decide; [|done]. cbn [andb].
    destruct (byte_pos i j) as [H1 H2]; [done|]. unfold bit. rewrite H1, H2, Hl. unfold tb.
    rewrite Z.shiftr_spec by lia. f_equal. lia. }
  split_and!; [done|done|].
  - assert (Hbr : inU 64 b).
    { apply word_range; [done|]. intros j Hj. rewrite Hb. by rewrite bool_decide_eq_false_2 by lia. }
    apply eq_true_iff_eq. rewrite (word_zero b Hbr), negb_true_iff, <- not_true_iff_false, anyBit_true. split.
    + intros Hz (j & Hj & Hp). specialize (Hz j ltac:(lia)). rewrite Hb, bool_decide_eq_true_2 in Hz by done.
      cbn beta in Hp. cbn [andb] in Hz. congruence.
    + intros Hn j Hj. rewrite Hb. case_bool_decide; [|done]. cbn [andb].
      destruct (bit l (8 * i + j)) eqn:E; [|done]. destruct Hn. by exists j.
Qed.

Lemma setByte_ok l i b :
  wf_entries l -> 8 * i + 8 <= 64 * length l -> (0 <= b)%Z -> (forall j, 8 <= j -> tb b j = false) ->
  exists l', setByte l i b = Ok l' /\ wf_entries l' /\ length l' = length l /\
    (forall k, bit l' k = if decide (8 * i <= k < 8 * i + 8) then tb b (k - 8 * i) else bit l k).
Proof.
  intros Hwf Hi Hb0 Hb8. assert (He : i / 8 < length l) by (apply Nat.Div0.div_lt_upper_bound; lia).
  destruct (at_ok l (i / 8) He) as (w & Hw & Hl).
  unfold setByte. rewrite Hw. cbn [obind]. pose proof (wf_lookup _ _ _ Hwf Hl) as Hr.
  set (s := 8 * (i mod 8)). pose proof (Nat.mod_upper_bound i 8 ltac:(lia)) as Hm8.
  set (w' := Z.lor _ _).
  assert (Hw' : forall k, tb w' k = if decide (s <= k < s + 8) then tb b (k - s) else tb w k).
  { intros k. subst w'. rewrite tb_lor, tb_shiftl. unfold tb at 1. rewrite Z.ldiff_spec.
    fold (tb w k). fold (tb (Z.shiftl 255 (Z.of_nat s)) k). rewrite tb_shiftl, tb_255.
    case_decide; repeat case_bool_decide; cbn [andb orb negb]; rewrite ?andb_false_r, ?andb_true_r, ?orb_false_r; try done; try lia.
    by rewrite Hb8, orb_false_r by lia. }
  assert (Hwr : inU 64 w').
  { apply word_range.
    - subst w'. apply Z.lor_nonneg. split; [apply Z.ldiff_nonneg; left; apply Hr|by apply Z.shiftl_nonneg].
    - intros k Hk. rewrite Hw', decide_False by lia. by apply tb_out. }
  destruct (put_bits l (i / 8) w' He) as (l' & -> & Hlen & Hbits & Hwf').
  exists l'. split_and!; auto. intros k. rewrite Hbits, Hw'.
  pose proof (pos_split k). pose proof (mod64 k). pose proof (Nat.div_mod_eq i 8).
  case_decide as Hk.
  - destruct (decide (s <= k mod 64 < s + 8)).
    + rewrite decide_True by lia. f_equal. lia.
    + rewrite decide_False by lia. unfold bit. by rewrite Hk, Hl.
  - rewrite decide_False by lia. done.
Qed.

Lemma copyBytes_ok src n :
  forall sb d db, wf_entries src -> wf_entries d ->
  8 * (sb + n) <= 64 * length src -> 8 * (db + n) <= 64 * length d ->
  exists d', copyBytes src sb d db n = Ok d' /\ copied src false (8 * sb) d d' (8 * db) (8 * n).
Proof.
  induction n as [|n IH]; intros sb d db Hs Hd Hls Hld; cbn [copyBytes].
  - exists d. split; [done|]. split_and!; try done. intros i. by rewrite decide_False by lia.
  - destruct (getByte_ok src sb Hs) as (b & -> & Hb0 & Hb & _); [lia|]. cbn [obind].
    destruct (setByte_ok d db b Hd) as (d1 & -> & Hwf1 & Hl1 & Hb1); [lia|done| |].
    { intros j Hj. rewrite Hb. by rewrite bool_decide_eq_false_2 by lia. }
    cbn [obind]. destruct (IH (S sb) d1 (S db)) as (d' & -> & Hcp); [done|done|lia|lia|].
    exists d'. split; [done|]. replace (8 * S n) with (8 + 8 * n) by lia.
    apply (copied_trans _ _ _ _ d1); [|by replace (8 * sb + 8) with (8 * S sb) by lia;
      replace (8 * db + 8) with (8 * S db) by lia].
    split_and!; [done|done|]. intros i. rewrite Hb1. case_decide; [|done].
    rewrite Hb, bool_decide_eq_true_2 by lia. done.
Qed.

Lemma anyByte_ok src n :
  forall sb, wf_entries src -> 8 * (sb + n) <= 64 * length src ->
  anyByte src sb n = Ok (anyBit (fun j => bit src (8 * sb + j)) (8 * n)).
Proof.
  induction n as [|n IH]; intros sb Hs Hl; cbn [anyByte]; [done|].
  destruct (getByte_ok src sb Hs) as (b & -> & _ & _ & Hz); [lia|]. cbn [obind]. rewrite Hz.
  replace (8 * S n) with (8 + 8 * n) by lia. rewrite anyBit_split.
  destruct (anyBit (fun j => bit src (8 * sb + j)) 8); [done|]. cbn [negb orb].
  rewrite IH by (done || lia). f_equal. apply anyBit_ext. intros j _. f_equal. lia.
Qed.

(** [copyNullMask], whether it takes the byte-aligned or the unaligned path, copies
    exactly the bits of the range, inverted when asked, keeps all other bits of the
    destination, and returns whether it wrote a null: the same as copying bit by
    bit. *)
Theorem copyNullMask_spec src srcOff d dstOff n invert :
  wf_entries src -> wf_entries d -> srcOff + n <= 64 * length src -> dstOff + n <= 64 * length d ->
  exists d', copyNullMask src srcOff d dstOff n invert =
      Ok (anyBit (fun j => srcBit src invert (srcOff + j)) n, d') /\
    wf_entries d' /\ length d' = length d /\
    (forall i, bit d' i = if decide (dstOff <= i < dstOff + n)
                          then xorb invert (bit src (srcOff + (i - dstOff))) else bit d i).
Proof.
  intros Hs Hd Hls Hld. unfold copyNullMask.
  destruct (negb invert && _ && _ && _) eqn:Econd;
    [|by destruct (copyUnaligned_ok src d srcOff dstOff n invert) as (d' & ? & ? & ? & ?); eauto 6].
  apply andb_true_iff in Econd as [Econd H4%bool_decide_eq_true].
  apply andb_true_iff in Econd as [Econd H3%bool_decide_eq_true].
  apply andb_true_iff in Econd as [H1%negb_true_iff H2%bool_decide_eq_true]. subst invert.
  pose proof (Nat.div_mod_eq srcOff 8) as Es. pose proof (Nat.div_mod_eq dstOff 8) as Ed.
  pose proof (Nat.mod_upper_bound srcOff 8 ltac:(lia)) as Hr. rewrite <- H2 in Ed.
  set (r := srcOff mod 8) in *. set (k1 := 8 - r) in *. set (k2 := (n - k1) / 8).
  assert (Hk2 : 8 * k2 <= n - k1) by (pose proof (Nat.div_mod_eq (n - k1) 8); lia).
  destruct (copyUnaligned_ok src d srcOff dstOff k1 false) as (d1 & -> & Hc1); [done|done|lia|lia|]. cbn [obind].
  destruct Hc1 as (Hwf1 & Hl1 & Hb1).
  assert (Eb : (srcOff + k1) / 8 = srcOff / 8 + 1 /\ (dstOff + k1) / 8 = dstOff / 8 + 1).
  { replace (srcOff + k1) with ((srcOff / 8 + 1) * 8) by lia.
    replace (dstOff + k1) with ((dstOff / 8 + 1) * 8) by lia. by rewrite !Nat.div_mul. }
  destruct Eb as [-> ->]. fold k2.
  destruct (copyBytes_ok src k2 (srcOff / 8 + 1) d1 (dstOff / 8 + 1)) as (d2 & -> & Hc2); [done|done|lia|lia|].
  cbn [obind]. rewrite anyByte_ok by (done || lia). cbn [obind].
  destruct Hc2 as (Hwf2 & Hl2 & Hb2).
  destruct (copyUnaligned_ok src d2 (srcOff + (k1 + k2 * 8)) (dstOff + (k1 + k2 * 8)) (n - k1 - k2 * 8) false)
    as (d3 & -> & Hc3); [done|done|lia|lia|]. cbn [obind].
  assert (Hall : copied src false srcOff d d3 dstOff (k1 + (8 * k2 + (n - k1 - k2 * 8)))).
  { apply (copied_trans _ _ _ _ d1); [done|]. apply (copied_trans _ _ _ _ d2).
    - replace (srcOff + k1) with (8 * (srcOff / 8 + 1)) by lia.
      replace (dstOff + k1) with (8 * (dstOff / 8 + 1)) by lia. done.
    - replace (srcOff + k1 + 8 * k2) with (srcOff + (k1 + k2 * 8)) by lia.
      replace (dstOff + k1 + 8 * k2) with (dstOff + (k1 + k2 * 8)) by lia. done. }
  exists d3. destruct Hall as (? & ? & Hb3). split_and!; [|done|done|].
  - f_equal. f_equal. set (F := fun j => srcBit src false (srcOff + j)).
    replace (anyBit F n) with (anyBit F (k1 + (8 * k2 + (n - k1 - k2 * 8)))) by (f_equal; lia).
    rewrite !anyBit_split. rewrite orb_comm, <- orb_assoc. f_equal. f_equal.
    + apply anyBit_ext. intros j _. subst F. cbn beta.
      replace (8 * (srcOff / 8 + 1) + j) with (srcOff + (k1 + j)) by lia. done.
    + apply anyBit_ext. intros j _. subst F. cbn beta. f_equal. lia.
  - intros i. rewrite Hb3. replace (k1 + (8 * k2 + (n - k1 - k2 * 8))) with n by lia. done.
Qed.

(** ** Minimum and maximum *)

Definition allBit (p : nat -> bool) (n : nat) : bool := forallb p (seq 0 n).

Lemma allBit_true p n : allBit p n = true <-> forall j, j < n -> p j = true.
Proof.
  unfold allBit. rewrite forallb_forall. split.
  - intros H j Hj. apply H, in_seq. lia.
  - intros H j Hj%in_seq. apply H. lia.
Qed.

Lemma minmax_uniform (p : nat -> bool) n m :
  0 < n -> (forall j, j < n -> p j = m) -> (allBit p n, anyBit p n) = (m, m).
Proof.
  intros Hn H. destruct m; f_equal.
  - by apply allBit_true.
  - apply anyBit_true. exists 0. split; [done|by apply H].
  - apply not_true_iff_false. rewrite allBit_true. intros H'. specialize (H 0 Hn). rewrite H' in H; done.
  - apply not_true_iff_false. rewrite anyBit_true. intros (j & Hj & Hp). rewrite H in Hp; done.
Qed.

Lemma minmax_mixed (p : nat -> bool) n i j b :
  i < n -> j < n -> p i = b -> p j = negb b -> (allBit p n, anyBit p n) = (false, true).
Proof.
  intros Hi Hj Hpi Hpj.
  assert (Hex : exists k1 k2, k1 < n /\ k2 < n /\ p k1 = true /\ p k2 = false).
  { destruct b; [exists i, j|exists j, i]; by split_and!. }
  destruct Hex as (k1 & k2 & H1 & H2 & Ht & Hf). f_equal.
  - apply not_true_iff_false. rewrite allBit_true. intros H. rewrite H in Hf; done.
  - apply anyBit_true. by exists k1.
Qed.

Lemma allWordsEqual_spec l fw i n :
  i + n <= length l ->
  exists b, allWordsEqual l fw i n = Ok b /\
    if b then forall j, i <= j < i + n -> l !! j = Some fw
    else exists j w, i <= j < i + n /\ l !! j = Some w /\ w <> fw.
Proof.
  revert i. induction n as [|n IH]; intros i Hn; cbn [allWordsEqual].
  - exists true. split; [done|]. intros j Hj. lia.
  - destruct (at_ok l i) as (w & -> & Hw); [lia|]. cbn [obind]. destruct (Z.eqb_spec w fw) as [->|Hne].
    + destruct (IH (S i)) as (b & -> & Hb); [lia|]. exists b. split; [done|]. destruct b.
      * intros j Hj. destruct (decide (j = i)) as [->|]; [done|]. apply Hb. lia.
      * destruct Hb as (j & w & Hj & ?). exists j, w. split; [lia|done].
    + exists false. split; [done|]. exists i, w. split; [lia|done].
Qed.

Lemma isNull_bit l pos : wf_entries l -> pos < 64 * length l -> isNull l pos = Ok (bit l pos).
Proof. intros Hwf Hpos. by destruct (setNull_isNull l pos false Hwf Hpos). Qed.

Lemma allBitsEqual_spec l m i n :
  wf_entries l -> i + n <= 64 * length l ->
  exists b, allBitsEqual l m i n = Ok b /\
    if b then forall j, i <= j < i + n -> bit l j = m else exists j, i <= j < i + n /\ bit l j = negb m.
Proof.
  intros Hwf. revert i. induction n as [|n IH]; intros i Hn; cbn [allBitsEqual].
  - exists true. split; [done|]. intros j Hj. lia.
  - rewrite isNull_bit by (done || lia). cbn [obind].
    destruct (Bool.eqb m (bit l i)) eqn:E.
    + apply eqb_prop in E. destruct (IH (S i)) as (b & -> & Hb); [lia|]. exists b. split; [done|]. destruct b.
      * intros j Hj. destruct (decide (j = i)) as [->|]; [done|]. apply Hb. lia.
      * destruct Hb as (j & Hj & ?). exists j. split; [lia|done].
    + exists false. split; [done|]. exists i. split; [lia|]. apply eqb_false_iff in E.
      by destruct m, (bit l i).
Qed.

(** The bits of a word that is all zeros or all ones, and of one that is not. *)
Lemma bit_word l e w k : l !! e = Some w -> k < 64 -> bit l (e * 64 + k) = tb w k.
Proof.
  intros Hw Hk. unfold bit. rewrite Nat.div_add_l, (Nat.div_small k), Nat.add_0_r, Hw by lia.
  by rewrite (Nat.add_comm (e * 64)), Nat.Div0.mod_add, (Nat.mod_small k).
Qed.

Lemma tb_full k : k < 64 -> tb (not64 0) k = true.
Proof. intros Hk. rewrite tb_not64, bool_decide_eq_true_2 by done. unfold tb. by rewrite Z.bits_0. Qed.

Lemma word_differs w w' : inU 64 w -> inU 64 w' -> w <> w' -> exists k, k < 64 /\ tb w k = negb (tb w' k).
Proof.
  intros Hw Hw' Hne.
  destruct (anyBit (fun k => xorb (tb w k) (tb w' k)) 64) eqn:E.
  - apply anyBit_true in E as (k & Hk & Hx). exists k. split; [done|]. by destruct (tb w k), (tb w' k).
  - destruct Hne. apply word_ext; [done|done|]. intros i Hi. apply not_true_iff_false in E.
    rewrite anyBit_true in E. destruct (tb w i) eqn:E1, (tb w' i) eqn:E2; try done; destruct E; exists i; by rewrite E1, E2.
Qed.

(** The scan of the words and bits, from a uniform first word. *)
Lemma minMaxScan l n fw m :
  wf_entries l -> 0 < n -> n <= 64 * length l -> inU 64 fw -> l !! 0 = Some fw ->
  (64 <= n -> forall k, k < 64 -> tb fw k = m) -> (n < 64 -> bit l 0 = m) ->
  (let* same := allWordsEqual l fw 0 (n / 64) in
   if negb same then Ok (false, true)
   else let* same := allBitsEqual l m (n / 64 * 64) (n - n / 64 * 64) in
        if negb same then Ok (false, true) else Ok (m, m)) = Ok (allBit (bit l) n, anyBit (bit l) n).
Proof.
  intros Hwf Hn Hlen Hfw H0 Hbig Hsmall. pose proof (pos_split n) as Hp. pose proof (mod64 n) as Hm.
  assert (Hz : bit l 0 = m).
  { destruct (decide (64 <= n)); [|apply Hsmall; lia].
    change (bit l (0 * 64 + 0) = m). rewrite (bit_word l 0 fw 0) by (done || lia). apply Hbig; lia. }
  destruct (allWordsEqual_spec l fw 0 (n / 64)) as (b & -> & Hb); [lia|]. cbn [obind].
  destruct b; cbn [negb].
  - destruct (allBitsEqual_spec l m (n / 64 * 64) (n - n / 64 * 64)) as (b' & -> & Hb'); [done|lia|]. cbn [obind].
    destruct b'; cbn [negb]; f_equal.
    + symmetry. apply minmax_uniform; [done|]. intros j Hj.
      destruct (decide (j < n / 64 * 64)); [|apply Hb'; lia].
      pose proof (pos_split j). rewrite (pos_split j), (bit_word l (j / 64) fw) by (apply mod64 || (apply Hb; lia)).
      apply Hbig; [lia|apply mod64].
    + destruct Hb' as (j & Hj & Hneg). symmetry. apply (minmax_mixed _ _ 0 j m); [lia|lia|done|done].
  - destruct Hb as (e & w & He & Hw & Hne). f_equal. symmetry.
    destruct (word_differs w fw) as (k & Hk & Hd); [by eapply wf_lookup|done|done|].
    apply (minmax_mixed _ _ 0 (e * 64 + k) m); [lia|lia|done|].
    rewrite (bit_word l e w), Hd by done. f_equal. apply Hbig; lia.
Qed.

(** [getMinMax] returns whether all of the first [numValues] values are null and
    whether one of them is. *)
Theorem getMinMax_spec l n :
  wf_entries l -> 0 < n -> n <= 64 * length l ->
  getMinMax l n = Ok (forallb (bit l) (seq 0 n), existsb (bit l) (seq 0 n)).
Proof.
  intros Hwf Hn Hlen. fold (allBit (bit l) n) (anyBit (bit l) n). unfold getMinMax.
  destruct (at_ok l 0) as (fw & -> & Hl); [lia|]. cbn [obind]. pose proof (wf_lookup _ _ _ Hwf Hl) as Hfw.
  case_bool_decide as Hbig.
  - destruct (Z.eqb_spec fw 0) as [->|H0]; [|destruct (Z.eqb_spec fw (not64 0)) as [->|H1]]; cbn [obind].
    + apply minMaxScan; try done; [|lia]. intros _ k _. apply Z.bits_0.
    + apply minMaxScan; try done; [|lia]. intros _ k Hk. by apply tb_full.
    + destruct (word_differs fw 0) as (i & Hi & Ei); [done|done|done|].
      destruct (word_differs fw (not64 0)) as (j & Hj & Ej); [done|apply not64_range|done|].
      f_equal. symmetry. apply (minmax_mixed _ _ i j true); [lia|lia|..].
      * change i with (0 * 64 + i). rewrite (bit_word l 0 fw), Ei by done. unfold tb. by rewrite Z.bits_0.
      * change j with (0 * 64 + j). rewrite (bit_word l 0 fw), Ej by done. by rewrite tb_full.
  - rewrite isNull_bit by (done || lia). cbn [obind]. apply minMaxScan; try done; lia.
Qed.

(** ** The mask object *)

Definition maskBit (m : NullMask) (i : nat) : bool := bit (data m) i.

(** A mask that says it has no nulls has none. *)
Definition wf_mask (m : NullMask) : Prop :=
  wf_entries (data m) /\ (mayContainNulls m = false -> forall i, maskBit m i = false).

Lemma bit_replicate_zero n i : bit (replicate n NO_NULL_ENTRY) i = false.
Proof.
  unfold bit. destruct (replicate n NO_NULL_ENTRY !! (i / 64)) eqn:E; [|done].
  apply lookup_replicate in E as [-> _]. apply Z.bits_0.
Qed.

Lemma wf_newNullMask capacity : wf_mask (newNullMask capacity).
Proof. split; [by apply Forall_replicate|]. intros _ i. apply bit_replicate_zero. Qed.

Lemma anyBit_false p n j : anyBit p n = false -> j < n -> p j = false.
Proof.
  intros H Hj. destruct (p j) eqn:E; [|done]. apply not_true_iff_false in H. destruct H.
  apply anyBit_true. by exists j.
Qed.

(** Every operation of the mask keeps its guarantee: a mask that says it contains
    no nulls has no bit set. *)
Theorem mask_guarantee m other pos offset srcOff n b invert :
  wf_mask m -> wf_mask other -> pos < 64 * length (data m) -> offset + n <= 64 * length (data m) ->
  srcOff + n <= 64 * length (data other) ->
  wf_mask (setAllNonNull m) /\ wf_mask (setAllNull m) /\
  (exists m', maskSetNull m pos b = Ok m' /\ wf_mask m' /\
     forall i, maskBit m' i = if decide (i = pos) then b else maskBit m i) /\
  (exists m', setNullFromRange m offset n b = Ok m' /\ wf_mask m' /\
     forall i, maskBit m' i = if decide (offset <= i < offset + n) then b else maskBit m i) /\
  (exists h m', copyFrom m other srcOff offset n invert = Ok (h, m') /\ wf_mask m' /\
     forall i, maskBit m' i = if decide (offset <= i < offset + n)
       then xorb invert (maskBit other (srcOff + (i - offset))) else maskBit m i).
Proof.
  intros [Hwf Hg] [Hwo Hgo] Hpos Hoff Hsrc.
  assert (Hrange : forall off b', off + n <= 64 * length (data m) ->
    exists m', setNullFromRange m off n b' = Ok m' /\ wf_mask m' /\
     forall i, maskBit m' i = if decide (off <= i < off + n) then b' else maskBit m i).
  { intros off b' Ho. destruct (setNullRange_spec (data m) off n b' Hwf Ho) as (l & E & Hwl & _ & Hb).
    unfold setNullFromRange. rewrite E. cbn [obind]. eexists. split; [reflexivity|].
    split; [split; [done|]|exact Hb]. cbn. intros [Hm ->]%orb_false_iff i. unfold maskBit. cbn. rewrite Hb.
    case_decide; [done|exact (Hg Hm i)]. }
  split_and!.
  - unfold setAllNonNull. destruct (mayContainNulls m) eqn:Em; [|split; [done|intros _; by apply Hg]].
    split; [by apply Forall_replicate|]. intros _ i. apply bit_replicate_zero.
  - split; [apply Forall_replicate, not64_range|done].
  - destruct (setNull_isNull (data m) pos b Hwf Hpos) as (_ & l & E & Hwl & _ & Hb).
    unfold maskSetNull. rewrite E. cbn [obind]. eexists. split; [reflexivity|].
    split; [split; [done|]|exact Hb]. cbn. intros [Hm ->]%orb_false_iff i. unfold maskBit. cbn. rewrite Hb.
    case_decide; [done|exact (Hg Hm i)].
  - by apply Hrange.
  - unfold copyFrom, hasNoNullsGuarantee. destruct (mayContainNulls other) eqn:Eo; cbn [negb].
    + unfold copyFromNullBits.
      destruct (copyNullMask_spec (data other) srcOff (data m) offset n invert) as (d & E & Hwd & _ & Hb); try done.
      rewrite E. cbn [obind]. eexists _, _. split; [reflexivity|]. split; [split; [done|]|exact Hb].
      cbn. intros [Hm Ha]%orb_false_iff i. unfold maskBit. cbn. rewrite Hb. case_decide; [|exact (Hg Hm i)].
      by apply (anyBit_false _ _ (i - offset) Ha); lia.
    + destruct (Hrange offset invert Hoff) as (m' & E & Hw' & Hb). rewrite E. cbn [obind].
      eexists _, _. split; [reflexivity|]. split; [done|]. intros i. rewrite Hb.
      case_decide; [|done]. rewrite Hgo by done. by destruct invert.
Qed.

(** ** The properties at concrete inputs *)

Lemma setNull_isNull_witness : exists l', setNull [0%Z; 0%Z] 70 true = Ok l' /\ bit l' 70 = true /\ bit l' 6 = false.
Proof.
  destruct (setNull_isNull [0%Z; 0%Z] 70 true) as (_ & l' & E & _ & _ & Hb);
    [by repeat constructor|simpl; lia|].
  exists l'. rewrite !Hb. by split_and!.
Defined.

Lemma setNullRange_spec_witness : exists l',
  setNullRange [0%Z; 0%Z; 0%Z] 60 80 true = Ok l' /\ bit l' 139 = true /\ bit l' 140 = false.
Proof.
  destruct (setNullRange_spec [0%Z; 0%Z; 0%Z] 60 80 true) as (l' & E & _ & _ & Hb);
    [by repeat constructor|simpl; lia|].
  exists l'. rewrite !Hb. by split_and!.
Defined.

Lemma copyNullMask_spec_witness : exists d',
  copyNullMask [5%Z] 0 [0%Z; 0%Z] 63 3 false = Ok (true, d') /\ bit d' 63 = true /\ bit d' 64 = false /\ bit d' 65 = true.
Proof.
  destruct (copyNullMask_spec [5%Z] 0 [0%Z; 0%Z] 63 3 false) as (d' & E & _ & _ & Hb);
    [by repeat constructor|by repeat constructor|simpl; lia|simpl; lia|].
  exists d'. rewrite !Hb. split_and!; [exact E|done..].
Defined.

Lemma getMinMax_spec_witness : getMinMax [not64 0; 3%Z] 66 = Ok (true, true).
Proof.
  rewrite (getMinMax_spec [not64 0; 3%Z] 66); [by vm_compute| |lia|simpl; lia].
  constructor; [apply not64_range|by repeat constructor].
Defined.

Lemma mask_guarantee_witness : wf_mask (newNullMask 64) /\
  exists h m', copyFrom (newNullMask 64) (setAllNull (newNullMask 64)) 0 4 8 false = Ok (h, m') /\ maskBit m' 4 = true.
Proof.
  assert (Hwf : wf_mask (setAllNull (newNullMask 64))).
  { split; [apply Forall_replicate, not64_range|done]. }
  split; [apply wf_newNullMask|].
  destruct (mask_guarantee (newNullMask 64) (setAllNull (newNullMask 64)) 0 4 0 8 true false
    (wf_newNullMask 64) Hwf) as (_ & _ & _ & _ & h & m' & E & _ & Hb); [simpl; lia|simpl; lia|simpl; lia|].
  exists h, m'. rewrite Hb. by split.
Defined.

(** ** Where the header's arithmetic and guarantee fall short *)

(** [getNumNullEntries] counts one entry more than needed for every positive multiple
    of 64: the remainder it tests is that of a multiplication, not a division. *)
Theorem getNumNullEntries_value n :
  (0 < n < 2 ^ 64)%Z -> getNumNullEntries n = (n / 64 + 1)%Z.
Proof.
  intros Hn. unfold getNumNullEntries. rewrite Z.shiftr_div_pow2 by lia. change (2 ^ 6)%Z with 64%Z.
  destruct (Z.eqb_spec (wrapU 64 (n - wrapU 64 (Z.shiftl n 6))) 0) as [E|]; [|done]. exfalso.
  unfold wrapU in E. rewrite Z.shiftl_mul_pow2, Zminus_mod_idemp_r in E by lia.
  apply Z.mod_divide in E; [|lia].
  assert (Hd : (2 ^ 64 | 63 * n)%Z).
  { destruct E as [k Hk]. exists (- k)%Z. lia. }
  apply Z.gauss in Hd; [|by vm_compute]. apply Z.divide_pos_le in Hd; lia.
Qed.

Lemma getNumNullEntries_value_witness : getNumNullEntries 64 = 2%Z.
Proof. apply (getNumNullEntries_value 64). lia. Defined.

(** [operator|=] does not update [mayContainNulls]: the guarantee can be lost. *)
Theorem orMask_loses_guarantee :
  exists m other m', wf_mask m /\ wf_mask other /\ orMask m other = Ok m' /\
    hasNoNullsGuarantee m' = true /\ maskBit m' 0 = true.
Proof.
  exists (newNullMask 64), (setAllNull (newNullMask 64)), (mkNullMask [not64 0] false).
  split_and!; [apply wf_newNullMask|split; [apply Forall_replicate, not64_range|done]|by vm_compute..].
Qed.
