(* ===== verification/Int128.v ===== *)
(** * 128-bit integers (src/include/common/types/int128_t.h,
      src/common/types/int128_t.cpp)

    A value is a pair of a low unsigned and a high signed 64-bit half.  All the
    arithmetic, comparison, shift, cast and printing routines on integers are
    modelled; the conversions from and to floating point are not.  Machine
    arithmetic wraps at the width of its type. *)

From S2P Require Import Prelude.
From stdpp Require Import base list strings numbers pretty.
From Stdlib Require Import Ascii.
Local Open Scope Z_scope.

(** Products with the 64-bit modulus are decided by arithmetic. *)
Ltac Zify.zify_post_hook ::= Z.to_euclidean_division_equations.

Definition UINT64_MAX : Z := 18446744073709551615.
Definition INT64_MAX : Z := 9223372036854775807.
Definition INT64_MIN : Z := -9223372036854775808.

(** Conversions to [uint64_t] and [int64_t]. *)
Definition u64 (z : Z) : Z := z mod 18446744073709551616.
Definition s64 (z : Z) : Z :=
  (z + 9223372036854775808) mod 18446744073709551616 - 9223372036854775808.

Record int128_t : Type := mk128 { low : Z; high : Z }.

#[global] Instance int128_eq_dec : EqDecision int128_t.
Proof. solve_decision. Defined.

(** [Int128_t::negateInPlace]. *)
Definition negate (input : int128_t) : outcome int128_t :=
  if (high input =? INT64_MIN) && (low input =? 0) then
    Err (StdOverflowError "INT128 is out of range: cannot negate INT128_MIN")
  else
    let l := u64 (UINT64_MAX + 1 - low input) in
    Ok (mk128 l (s64 (- high input - 1 + (if l =? 0 then 1 else 0)))).

(** [Int128_t::addInPlace]: the flag and the value left in [lhs]. *)
Definition addInPlace (lhs rhs : int128_t) : bool * int128_t :=
  let overflow := if u64 (low lhs + low rhs) <? low lhs then 1 else 0 in
  let finish :=
    let r := mk128 (u64 (low lhs + low rhs)) (s64 (high lhs + high rhs + overflow)) in
    (negb ((high r =? INT64_MIN) && (low r =? 0)), r) in
  if 0 <=? high rhs then
    if INT64_MAX - high rhs - overflow <? high lhs then (false, lhs) else finish
  else
    if high lhs <? INT64_MIN - high rhs - overflow then (false, lhs) else finish.

(** [Int128_t::subInPlace]. *)
Definition subInPlace (lhs rhs : int128_t) : bool * int128_t :=
  let underflow := if low lhs <? u64 (low lhs - low rhs) then 1 else 0 in
  let finish :=
    let r := mk128 (u64 (low lhs - low rhs)) (s64 (high lhs - high rhs - underflow)) in
    (negb ((high r =? INT64_MIN) && (low r =? 0)), r) in
  if 0 <=? high rhs then
    if high lhs <? INT64_MIN + high rhs + underflow then (false, lhs) else finish
  else
    if (INT64_MIN <? high lhs) && (INT64_MAX + high rhs + underflow <=? high lhs - 1)
    then (false, lhs) else finish.

Definition Add (lhs rhs : int128_t) : outcome int128_t :=
  let '(ok, r) := addInPlace lhs rhs in
  if ok then Ok r else Err (OverflowException "INT128 is out of range: cannot add.").
Definition Sub (lhs rhs : int128_t) : outcome int128_t :=
  let '(ok, r) := subInPlace lhs rhs in
  if ok then Ok r else Err (OverflowException "INT128 is out of range: cannot subtract.").

(** The comparisons. *)
Definition Equals (a b : int128_t) : bool := (low a =? low b) && (high a =? high b).
Definition notEquals (a b : int128_t) : bool := negb (low a =? low b) || negb (high a =? high b).
Definition greaterThan (a b : int128_t) : bool :=
  (high b <? high a) || ((high a =? high b) && (low b <? low a)).
Definition greaterThanOrEquals (a b : int128_t) : bool :=
  (high b <? high a) || ((high a =? high b) && (low b <=? low a)).
Definition lessThan (a b : int128_t) : bool :=
  (high a <? high b) || ((high a =? high b) && (low a <? low b)).
Definition lessThanOrEquals (a b : int128_t) : bool :=
  (high a <? high b) || ((high a =? high b) && (low a <=? low b)).

(** The magnitude multiplication of [Int128_t::tryMultiply], with the compiler's
    128-bit integers. *)
Definition multiplyBuiltin (lhs rhs : int128_t) : option int128_t :=
  let left := low lhs + u64 (high lhs) * 2 ^ 64 in
  let right := low rhs + u64 (high rhs) * 2 ^ 64 in
  let result := left * right in
  if 2 ^ 128 <=? result then None
  else
    let h := u64 (Z.shiftr result 64) in
    if negb (Z.land h 0x8000000000000000 =? 0) then None
    else Some (mk128 (Z.land result 0xffffffffffffffff) (s64 h)).

(** The same without them: four 32-bit digits each. *)
Definition lo32 (p : Z) : Z := Z.land p 0xffffffff.
Definition hi32 (p : Z) : Z := Z.shiftr p 32.
Definition multiplyPortable (lhs rhs : int128_t) : option int128_t :=
  let t0 := hi32 (u64 (high lhs)) in let t1 := lo32 (u64 (high lhs)) in
  let t2 := hi32 (low lhs) in let t3 := lo32 (low lhs) in
  let b0 := hi32 (u64 (high rhs)) in let b1 := lo32 (u64 (high rhs)) in
  let b2 := hi32 (low rhs) in let b3 := lo32 (low rhs) in
  let p00 := u64 (t0 * b0) in let p01 := u64 (t0 * b1) in
  let p02 := u64 (t0 * b2) in let p03 := u64 (t0 * b3) in
  let p10 := u64 (t1 * b0) in let p11 := u64 (t1 * b1) in
  let p12 := u64 (t1 * b2) in let p13 := u64 (t1 * b3) in
  let p20 := u64 (t2 * b0) in let p21 := u64 (t2 * b1) in
  let p22 := u64 (t2 * b2) in let p23 := u64 (t2 * b3) in
  let p30 := u64 (t3 * b0) in let p31 := u64 (t3 * b1) in
  let p32 := u64 (t3 * b2) in let p33 := u64 (t3 * b3) in
  if negb (p00 =? 0) || negb (p01 =? 0) || negb (p02 =? 0) || negb (p10 =? 0) ||
     negb (p20 =? 0) || negb (p11 =? 0) then None
  else if negb (Z.land p03 0xffffffff80000000 =? 0) || negb (Z.land p12 0xffffffff80000000 =? 0) ||
          negb (Z.land p21 0xffffffff80000000 =? 0) || negb (Z.land p30 0xffffffff80000000 =? 0)
  then None
  else
    let fourth32 := lo32 p33 in
    let third32 := u64 (lo32 p32 + hi32 p33) in
    let second32 := u64 (lo32 p31 + hi32 p32) in
    let first32 := u64 (lo32 p30 + hi32 p31) in
    let third32 := u64 (third32 + lo32 p23) in
    let second32 := u64 (second32 + (lo32 p22 + hi32 p23)) in
    let first32 := u64 (first32 + (lo32 p21 + hi32 p22)) in
    let second32 := u64 (second32 + lo32 p13) in
    let first32 := u64 (first32 + (lo32 p12 + hi32 p13)) in
    let first32 := u64 (first32 + lo32 p03) in
    let third32 := u64 (third32 + hi32 fourth32) in
    let second32 := u64 (second32 + hi32 third32) in
    let first32 := u64 (first32 + hi32 second32) in
    if negb (Z.land first32 0xffffff80000000 =? 0) then None
    else
      let fourth32 := lo32 fourth32 in let third32 := lo32 third32 in
      let second32 := lo32 second32 in let first32 := lo32 first32 in
      Some (mk128 (Z.lor (u64 (Z.shiftl third32 32)) fourth32)
              (s64 (Z.lor (u64 (Z.shiftl first32 32)) second32))).

(** [Int128_t::tryMultiply] around either: [None] is the result [false]. *)
Definition negateIf (b : bool) (x : int128_t) : outcome int128_t := if b then negate x else Ok x.
Definition tryMultiply (mul : int128_t -> int128_t -> option int128_t) (lhs rhs : int128_t)
    : outcome (option int128_t) :=
  let lhs_negative := high lhs <? 0 in
  let rhs_negative := high rhs <? 0 in
  let* l := negateIf lhs_negative lhs in
  let* r := negateIf rhs_negative rhs in
  match mul l r with
  | None => Ok None
  | Some p => let* p := negateIf (xorb lhs_negative rhs_negative) p in Ok (Some p)
  end.
Definition Mul (lhs rhs : int128_t) : outcome int128_t :=
  let* r := tryMultiply multiplyBuiltin lhs rhs in
  match r with
  | Some p => Ok p
  | None => Err (OverflowException "INT128 is out of range: cannot multiply.")
  end.

(** [PositiveInt128BitsAmount]: the length of a 64-bit half in bits. *)
Fixpoint halfBits (fuel : nat) (z : Z) : nat :=
  match fuel with
  | O => 0%nat
  | S fuel' => if z =? 0 then 0%nat else S (halfBits fuel' (Z.shiftr z 1))
  end.
Definition PositiveInt128BitsAmount (input : int128_t) : nat :=
  if negb (high input =? 0) then (64 + halfBits 64 (u64 (high input)))%nat
  else halfBits 64 (low input).
Definition PositiveInt128IsBitSet (input : int128_t) (bit : nat) : bool :=
  if (bit <? 64)%nat then negb (Z.land (low input) (Z.shiftl 1 (Z.of_nat bit)) =? 0)
  else negb (Z.land (high input) (Z.shiftl 1 (Z.of_nat bit - 64)) =? 0).
Definition PositiveInt128LeftShift1 (lhs : int128_t) : int128_t :=
  mk128 (u64 (Z.shiftl (low lhs) 1)) (s64 (s64 (Z.shiftl (high lhs) 1) + Z.shiftr (low lhs) 63)).

(** [Int128_t::divModPositive]: the loop from the highest bit. *)
Fixpoint divModPositiveLoop (i : nat) (lhs : int128_t) (rhs : Z) (result : int128_t) (remainder : Z)
    : int128_t * Z :=
  match i with
  | O => (result, remainder)
  | S i' =>
      let result := PositiveInt128LeftShift1 result in
      let remainder := u64 (Z.shiftl remainder 1) in
      let remainder := if PositiveInt128IsBitSet lhs i' then u64 (remainder + 1) else remainder in
      let '(result, remainder) :=
        (if rhs <=? remainder then
           let l := u64 (low result + 1) in
           (mk128 l (if l =? 0 then s64 (high result + 1) else high result), remainder - rhs)
         else (result, remainder)) in
      divModPositiveLoop i' lhs rhs result remainder
  end.
Definition divModPositive (lhs : int128_t) (rhs : Z) : int128_t * Z :=
  divModPositiveLoop (PositiveInt128BitsAmount lhs) lhs rhs (mk128 0 0) 0.

(** [Int128_t::ToString]: the digits of the loop, the last first; a positive value
    has at most 39. *)
Definition digit (d : Z) : string := String (ascii_of_nat (48 + Z.to_nat d)) EmptyString.
Fixpoint toStringLoop (fuel : nat) (input : int128_t) (result : string) : outcome string :=
  if (low input =? 0) && (high input =? 0) then Ok result
  else match fuel with
       | O => Err UndefinedBehaviour
       | S fuel' =>
           let '(q, r) := divModPositive input 10 in
           toStringLoop fuel' q (String.append (digit r) result)
       end.
Definition ToString (input : int128_t) : outcome string :=
  let negative := high input <? 0 in
  let* input := negateIf negative input in
  let* result := toStringLoop 39 input EmptyString in
  let result := if bool_decide (result = EmptyString) then "0"%string else result in
  Ok (if negative then String.append "-" result else result).

(** [Int128_t::divMod]: quotient and remainder; the flags of [addInPlace] are not
    used, [Sub] throws. *)
Fixpoint divModLoop (x : nat) (lhs rhs div_result remainder : int128_t)
    : outcome (int128_t * int128_t) :=
  match x with
  | O => Ok (div_result, remainder)
  | S x' =>
      let div_result := PositiveInt128LeftShift1 div_result in
      let remainder := PositiveInt128LeftShift1 remainder in
      let remainder :=
        if PositiveInt128IsBitSet lhs x' then snd (addInPlace remainder (mk128 1 0)) else remainder in
      if greaterThanOrEquals remainder rhs then
        let* remainder := Sub remainder rhs in
        divModLoop x' lhs rhs (snd (addInPlace div_result (mk128 1 0))) remainder
      else divModLoop x' lhs rhs div_result remainder
  end.
Definition divMod (lhs rhs : int128_t) : outcome (int128_t * int128_t) :=
  let lhs_negative := high lhs <? 0 in
  let rhs_negative := high rhs <? 0 in
  let* l := negateIf lhs_negative lhs in
  let* r := negateIf rhs_negative rhs in
  let* qr := divModLoop (PositiveInt128BitsAmount l) l r (mk128 0 0) (mk128 0 0) in
  let '(q, m) := qr in
  let* q := negateIf (xorb lhs_negative rhs_negative) q in
  let* m := negateIf lhs_negative m in
  Ok (q, m).
Definition Div (lhs rhs : int128_t) : outcome int128_t :=
  if (high rhs =? 0) && (low rhs =? 0) then Err (RuntimeException "Divide by zero.")
  else let* qr := divMod lhs rhs in Ok (fst qr).
Definition Mod (lhs rhs : int128_t) : outcome int128_t :=
  if (high rhs =? 0) && (low rhs =? 0) then Err (RuntimeException "Modulo by zero.")
  else let* qr := divMod lhs rhs in Ok (snd qr).

(** The bitwise operations. *)
Definition Xor (a b : int128_t) : int128_t := mk128 (Z.lxor (low a) (low b)) (Z.lxor (high a) (high b)).
Definition BinaryAnd (a b : int128_t) : int128_t := mk128 (Z.land (low a) (low b)) (Z.land (high a) (high b)).
Definition BinaryOr (a b : int128_t) : int128_t := mk128 (Z.lor (low a) (low b)) (Z.lor (high a) (high b)).
Definition BinaryNot (a : int128_t) : int128_t := mk128 (u64 (Z.lnot (low a))) (Z.lnot (high a)).

(** [Int128_t::LeftShift] and [RightShift]; a shift of 128 or more is undefined. *)
Definition LeftShift (lhs : int128_t) (amount : Z) : int128_t :=
  if 64 <=? amount then mk128 0 (s64 (u64 (Z.shiftl (low lhs) (amount - 64))))
  else if amount =? 0 then lhs
  else mk128 (u64 (Z.shiftl (low lhs) amount))
         (Z.lor (s64 (Z.shiftl (high lhs) amount)) (s64 (Z.shiftr (low lhs) (64 - amount)))).
Definition RightShift (lhs : int128_t) (amount : Z) : int128_t :=
  if 64 <=? amount then mk128 (u64 (Z.shiftr (high lhs) (amount - 64))) (Z.shiftr (high lhs) 63)
  else if amount =? 0 then lhs
  else mk128 (Z.lor (Z.shiftr (low lhs) amount) (u64 (s64 (Z.shiftl (high lhs) (64 - amount)))))
         (Z.shiftr (high lhs) amount).

(** [TryCastInt128Template] for a type whose maximum is [maximum]; [None] is the
    result [false]. *)
Definition TryCastInt128 (signed : bool) (maximum : Z) (input : int128_t) : outcome (option Z) :=
  if high input =? 0 then Ok (if low input <=? maximum then Some (low input) else None)
  else if high input =? -1 then
    if signed then
      Ok (if UINT64_MAX - maximum <=? low input then Some (- (UINT64_MAX - low input) - 1) else None)
    else
      let* s := ToString input in
      Err (OverflowException (String.append "Cast failed. Cannot cast " (String.append s " to unsigned type.")))
  else Ok None.

(** [tryCastToTemplate] for an integer type of at most 64 bits. *)
Definition castTo (value : Z) : int128_t := mk128 (u64 value) (if value <? 0 then -1 else 0).

(** [NarrowCast] to a type of [w] bits. *)
Definition narrowCast (signed : bool) (w : Z) (input : int128_t) : Z :=
  if signed then wrapS w (low input) else wrapU w (low input).

(** [Int128_t::powerOf10]; the products of the initialiser are computed with [Mul],
    the last of the 40 elements is left zero. *)
Definition mulOr0 (a b : int128_t) : int128_t := match Mul a b with Ok r => r | Err _ => mk128 0 0 end.
Definition powerOf10 : list int128_t :=
  ((fun k => castTo (10 ^ Z.of_nat k)) <$> seq 0 19) ++
  ((fun k => mulOr0 (castTo (10 ^ 18)) (castTo (10 ^ Z.of_nat k))) <$> seq 1 18) ++
  ((fun k => mulOr0 (mulOr0 (castTo (10 ^ 18)) (castTo (10 ^ 18))) (castTo (10 ^ Z.of_nat k))) <$> seq 1 2) ++
  [mk128 0 0].

(** ** Values *)

Definition value (x : int128_t) : Z := high x * 18446744073709551616 + low x.
Definition wf128 (x : int128_t) : Prop :=
  0 <= low x < 18446744073709551616 /\ -9223372036854775808 <= high x < 9223372036854775808.

(** The range of the type, and the range whose values have a negation. *)
Definition MIN128 : Z := - 2 ^ 127.
Definition MAX128 : Z := 2 ^ 127 - 1.

Ltac unfold128 :=
  unfold wf128, value, MIN128, MAX128, u64, s64, INT64_MAX, INT64_MIN, UINT64_MAX in *;
  change (2 ^ 127) with 170141183460469231731687303715884105728 in *;
  change (2 ^ 128) with 340282366920938463463374607431768211456 in *;
  change (2 ^ 64) with 18446744073709551616 in *;
  cbn [low high fst snd] in *.

Lemma value_range x : wf128 x -> MIN128 <= value x <= MAX128.
Proof. destruct x. unfold128. lia. Qed.

Lemma value_inj x y : wf128 x -> wf128 y -> value x = value y -> x = y.
Proof. destruct x, y. unfold128. intros. f_equal; lia. Qed.

Lemma negate_spec x :
  wf128 x ->
  if value x =? MIN128 then exists e, negate x = Err e
  else exists y, negate x = Ok y /\ wf128 y /\ value y = - value x.
Proof.
  destruct x as [l h]. unfold negate. intros Hwf.
  destruct (Z.eqb_spec (value (mk128 l h)) MIN128) as [E|E].
  - assert (h = INT64_MIN /\ l = 0) as [-> ->] by (unfold128; lia). cbn. eauto.
  - cbn [low high]. destruct ((h =? INT64_MIN) && (l =? 0)) eqn:Eb; [exfalso; unfold128; lia|].
    eexists. split; [reflexivity|].
    destruct (Z.eqb_spec (u64 (UINT64_MAX + 1 - l)) 0); unfold128; lia.
Qed.

Lemma add_spec x y :
  wf128 x -> wf128 y ->
  let s := value x + value y in
  if (MIN128 <? s) && (s <=? MAX128)
  then exists r, addInPlace x y = (true, r) /\ wf128 r /\ value r = s
  else exists r, addInPlace x y = (false, r).
Proof.
  destruct x as [l h], y as [l' h']. intros Hx Hy. cbn zeta. unfold addInPlace. cbn [low high].
  destruct ((MIN128 <? _) && _) eqn:E.
  - assert (Hs : MIN128 < value (mk128 l h) + value (mk128 l' h') <= MAX128) by lia. clear E.
    destruct (Z.ltb_spec (u64 (l + l')) l), (Z.leb_spec 0 h').
    all: match goal with |- context [if ?c then (false, _) else _] => destruct c eqn:Ec end.
    all: try (exfalso; unfold128; lia).
    all: eexists; (split; [apply f_equal2; [|reflexivity]|]); [|unfold128; lia].
    all: apply negb_true_iff, andb_false_iff; unfold128; lia.
  - assert (Hs : value (mk128 l h) + value (mk128 l' h') <= MIN128 \/
                 MAX128 < value (mk128 l h) + value (mk128 l' h')) by lia. clear E.
    destruct (Z.ltb_spec (u64 (l + l')) l), (Z.leb_spec 0 h').
    all: match goal with |- context [if ?c then (false, _) else _] => destruct c eqn:Ec end.
    all: try (by eexists).
    all: eexists; (apply f_equal2; [|reflexivity]).
    all: apply negb_false_iff, andb_true_iff; unfold128; lia.
Qed.

Lemma sub_spec x y :
  wf128 x -> wf128 y ->
  let s := value x - value y in
  if (MIN128 <? s) && (s <=? MAX128)
  then exists r, subInPlace x y = (true, r) /\ wf128 r /\ value r = s
  else exists r, subInPlace x y = (false, r).
Proof.
  destruct x as [l h], y as [l' h']. intros Hx Hy. cbn zeta. unfold subInPlace. cbn [low high].
  destruct ((MIN128 <? _) && _) eqn:E.
  - assert (Hs : MIN128 < value (mk128 l h) - value (mk128 l' h') <= MAX128) by lia. clear E.
    destruct (Z.ltb_spec l (u64 (l - l'))), (Z.leb_spec 0 h').
    all: match goal with |- context [if ?c then (false, _) else _] => destruct c eqn:Ec end.
    all: try (exfalso; unfold128; lia).
    all: eexists; (split; [apply f_equal2; [|reflexivity]|]); [|unfold128; lia].
    all: apply negb_true_iff, andb_false_iff; unfold128; lia.
  - assert (Hs : value (mk128 l h) - value (mk128 l' h') <= MIN128 \/
                 MAX128 < value (mk128 l h) - value (mk128 l' h')) by lia. clear E.
    destruct (Z.ltb_spec l (u64 (l - l'))), (Z.leb_spec 0 h').
    all: match goal with |- context [if ?c then (false, _) else _] => destruct c eqn:Ec end.
    all: try (by eexists).
    all: eexists; (apply f_equal2; [|reflexivity]).
    all: apply negb_false_iff, andb_true_iff; unfold128; lia.
Qed.

(** ** Comparisons *)

Lemma compare_spec x y :
  wf128 x -> wf128 y ->
  Equals x y = (value x =? value y) /\ notEquals x y = negb (value x =? value y) /\
  greaterThan x y = (value y <? value x) /\ greaterThanOrEquals x y = (value y <=? value x) /\
  lessThan x y = (value x <? value y) /\ lessThanOrEquals x y = (value x <=? value y).
Proof.
  destruct x, y. intros Hx Hy.
  unfold Equals, notEquals, greaterThan, greaterThanOrEquals, lessThan, lessThanOrEquals.
  unfold128. split_and!; lia.
Qed.

(** ** Multiplication *)

Definition nonneg (x : int128_t) : Prop := wf128 x /\ 0 <= high x.

(** Masks as arithmetic. *)
Lemma land_ones_mod p k : 0 <= k -> Z.land p (Z.ones k) = p mod 2 ^ k.
Proof. apply Z.land_ones. Qed.

Lemma lo32_mod p : lo32 p = p mod 4294967296.
Proof. unfold lo32. change 0xffffffff with (Z.ones 32). by rewrite Z.land_ones. Qed.
Lemma hi32_div p : hi32 p = p / 4294967296.
Proof. unfold hi32. by rewrite Z.shiftr_div_pow2. Qed.

(** [p & m] for a mask [m] of [n] ones from bit [k]. *)
Lemma land_mask p k n :
  0 <= k -> 0 <= n -> (Z.land p (Z.shiftl (Z.ones n) k) =? 0) = (p / 2 ^ k mod 2 ^ n =? 0).
Proof.
  intros Hk Hn. rewrite <- Z.shiftr_div_pow2, <- Z.land_ones by done.
  assert (E : Z.land p (Z.shiftl (Z.ones n) k) = Z.shiftl (Z.land (Z.shiftr p k) (Z.ones n)) k).
  { apply Z.bits_inj'. intros i Hi. rewrite Z.land_spec. destruct (Z.le_gt_cases k i).
    - rewrite !Z.shiftl_spec, Z.land_spec, Z.shiftr_spec by lia. f_equal. f_equal. lia.
    - rewrite !Z.shiftl_spec_low by lia. apply andb_false_r. }
  rewrite E, Z.shiftl_mul_pow2 by done. pose proof (Z.pow_pos_nonneg 2 k).
  destruct (Z.eqb_spec (Z.land (Z.shiftr p k) (Z.ones n)) 0) as [->|Hne]; [done|].
  apply Z.eqb_neq. nia.
Qed.

(** A mask that reaches past the top bit of [p] tests the size of [p]. *)
Lemma land_mask_small p k n :
  0 <= k -> 0 <= n -> 0 <= p < 2 ^ (k + n) -> (Z.land p (Z.shiftl (Z.ones n) k) =? 0) = (p <? 2 ^ k).
Proof.
  intros Hk Hn Hp. rewrite land_mask by done. rewrite Z.pow_add_r in Hp by done.
  pose proof (Z.pow_pos_nonneg 2 k). rewrite Z.mod_small.
  - destruct (Z.ltb_spec p (2 ^ k)); [rewrite Z.div_small by lia; done|].
    apply Z.eqb_neq. pose proof (Z.div_le_mono (2 ^ k) p (2 ^ k)). rewrite Z.div_same in * by lia. lia.
  - split; [apply Z.div_pos; lia|apply Z.div_lt_upper_bound; lia].
Qed.

Lemma mask63 h : 0 <= h < 18446744073709551616 -> (Z.land h 0x8000000000000000 =? 0) = (h <? 9223372036854775808).
Proof.
  intros H. change 0x8000000000000000 with (Z.shiftl (Z.ones 1) 63). by rewrite land_mask_small.
Qed.
Lemma mask_high33 p : 0 <= p < 18446744073709551616 ->
  (Z.land p 0xffffffff80000000 =? 0) = (p <? 2147483648).
Proof.
  intros H. change 0xffffffff80000000 with (Z.shiftl (Z.ones 33) 31). by rewrite land_mask_small.
Qed.
Lemma mask_carry p : 0 <= p < 72057594037927936 -> (Z.land p 0xffffff80000000 =? 0) = (p <? 2147483648).
Proof.
  intros H. change 0xffffff80000000 with (Z.shiftl (Z.ones 25) 31). by rewrite land_mask_small.
Qed.
Lemma lor_shift a b : 0 <= a -> 0 <= b < 4294967296 -> Z.lor (Z.shiftl a 32) b = a * 4294967296 + b.
Proof.
  intros Ha Hb. pose proof (Z.add_lor_land (Z.shiftl a 32) b) as Hadd.
  assert (E : Z.land (Z.shiftl a 32) b = 0).
  { apply Z.bits_inj'. intros i Hi. rewrite Z.land_spec, Z.bits_0.
    destruct (Z.le_gt_cases 32 i); [|by rewrite Z.shiftl_spec_low].
    destruct (decide (b = 0)) as [->|]; [by rewrite Z.bits_0, andb_false_r|].
    rewrite (Z.bits_above_log2 b), andb_false_r; [done|lia|].
    apply Z.lt_le_trans with 32; [|done]. apply Z.log2_lt_pow2; [lia|]. change (2 ^ 32) with 4294967296. lia. }
  rewrite E, Z.shiftl_mul_pow2 in Hadd by lia. rewrite Z.shiftl_mul_pow2 by lia.
  change (2 ^ 32) with 4294967296 in *. lia.
Qed.

Lemma multiplyBuiltin_spec x y :
  nonneg x -> nonneg y ->
  multiplyBuiltin x y =
    if value x * value y <=? MAX128
    then Some (mk128 (u64 (value x * value y)) (value x * value y / 18446744073709551616)) else None.
Proof.
  intros [Hx Hx0] [Hy Hy0]. unfold multiplyBuiltin.
  assert (El : low x + u64 (high x) * 2 ^ 64 = value x) by (unfold128; lia).
  assert (Er : low y + u64 (high y) * 2 ^ 64 = value y) by (unfold128; lia).
  rewrite El, Er.
  assert (Hp : 0 <= value x * value y) by (apply Z.mul_nonneg_nonneg; unfold128; lia).
  set (p := value x * value y) in *. clearbody p. clear El Er Hx Hy Hx0 Hy0 x y.
  destruct (Z.leb_spec (2 ^ 128) p).
  - destruct (Z.leb_spec p MAX128); [unfold128; lia|done].
  - rewrite Z.shiftr_div_pow2 by lia. change (2 ^ 64) with 18446744073709551616.
    rewrite mask63 by (unfold u64; apply Z.mod_pos_bound; lia).
    change 0xffffffffffffffff with (Z.ones 64). rewrite Z.land_ones by lia.
    destruct (Z.leb_spec p MAX128).
    + destruct (Z.ltb_spec (u64 (p / 18446744073709551616)) 9223372036854775808); [|unfold128; lia].
      cbn [negb]. f_equal. f_equal. unfold128. lia.
    + destruct (Z.ltb_spec (u64 (p / 18446744073709551616)) 9223372036854775808); [unfold128; lia|done].
Qed.

(** The merge of the ten products that can be non-zero, as in [multiplyPortable]. *)
Definition mergeProducts (p03 p12 p13 p21 p22 p23 p30 p31 p32 p33 : Z) : option int128_t :=
  let fourth32 := lo32 p33 in
  let third32 := u64 (lo32 p32 + hi32 p33) in
  let second32 := u64 (lo32 p31 + hi32 p32) in
  let first32 := u64 (lo32 p30 + hi32 p31) in
  let third32 := u64 (third32 + lo32 p23) in
  let second32 := u64 (second32 + (lo32 p22 + hi32 p23)) in
  let first32 := u64 (first32 + (lo32 p21 + hi32 p22)) in
  let second32 := u64 (second32 + lo32 p13) in
  let first32 := u64 (first32 + (lo32 p12 + hi32 p13)) in
  let first32 := u64 (first32 + lo32 p03) in
  let third32 := u64 (third32 + hi32 fourth32) in
  let second32 := u64 (second32 + hi32 third32) in
  let first32 := u64 (first32 + hi32 second32) in
  if negb (Z.land first32 0xffffff80000000 =? 0) then None
  else
    let fourth32 := lo32 fourth32 in let third32 := lo32 third32 in
    let second32 := lo32 second32 in let first32 := lo32 first32 in
    Some (mk128 (Z.lor (u64 (Z.shiftl third32 32)) fourth32)
            (s64 (Z.lor (u64 (Z.shiftl first32 32)) second32))).

Definition product (p : Z) : Prop := 0 <= p <= 18446744065119617025.

Lemma split32 p : product p ->
  exists h l, p = h * 4294967296 + l /\ 0 <= h < 4294967295 /\ 0 <= l < 4294967296 /\ lo32 p = l /\ hi32 p = h.
Proof.
  unfold product. intros Hp. exists (p / 4294967296), (p mod 4294967296).
  rewrite lo32_mod, hi32_div. lia.
Qed.

Lemma small32 p : 0 <= p < 2147483648 -> lo32 p = p.
Proof. intros H. rewrite lo32_mod. apply Z.mod_small. lia. Qed.

Lemma u64_small z : 0 <= z < 18446744073709551616 -> u64 z = z.
Proof. intros H. apply Z.mod_small, H. Qed.

Lemma s64_small z : -9223372036854775808 <= z < 9223372036854775808 -> s64 z = z.
Proof. unfold s64. lia. Qed.

Lemma mergeProducts_spec p03 p12 p13 p21 p22 p23 p30 p31 p32 p33 :
  0 <= p03 < 2147483648 -> 0 <= p12 < 2147483648 -> 0 <= p21 < 2147483648 -> 0 <= p30 < 2147483648 ->
  product p13 -> product p22 -> product p31 -> product p23 -> product p32 -> product p33 ->
  let total := p33 + (p32 + p23) * 4294967296 + (p31 + p22 + p13) * 18446744073709551616 +
               (p30 + p21 + p12 + p03) * 79228162514264337593543950336 in
  mergeProducts p03 p12 p13 p21 p22 p23 p30 p31 p32 p33 =
    if total <=? MAX128
    then Some (mk128 (u64 total) (total / 18446744073709551616)) else None.
Proof.
  intros H03 H12 H21 H30 (h13 & l13 & -> & ? & ? & E1 & E1')%split32 (h22 & l22 & -> & ? & ? & E2 & E2')%split32
    (h31 & l31 & -> & ? & ? & E3 & E3')%split32 (h23 & l23 & -> & ? & ? & E4 & E4')%split32
    (h32 & l32 & -> & ? & ? & E5 & E5')%split32 (h33 & l33 & -> & ? & ? & E6 & E6')%split32 total.
  unfold mergeProducts. rewrite E1, E1', E2, E2', E3, E3', E4, E4', E5, E5', E6, E6', !small32 by done.
  clear E1 E1' E2 E2' E3 E3' E4 E4' E5 E5' E6 E6'.
  assert (Hl33 : hi32 l33 = 0 /\ lo32 l33 = l33) by (rewrite hi32_div, lo32_mod; lia).
  destruct Hl33 as [-> ->].
  rewrite (u64_small (l32 + h33)), (u64_small (l31 + h32)), (u64_small (p30 + h31)) by lia.
  rewrite (u64_small (l32 + h33 + l23)), (u64_small (l31 + h32 + (l22 + h23))),
    (u64_small (p30 + h31 + (p21 + h22))) by lia.
  rewrite (u64_small (l31 + h32 + (l22 + h23) + l13)), (u64_small (p30 + h31 + (p21 + h22) + (p12 + h13))) by lia.
  rewrite (u64_small (p30 + h31 + (p21 + h22) + (p12 + h13) + p03)), (u64_small (l32 + h33 + l23 + 0)) by lia.
  rewrite Z.add_0_r, !hi32_div, !lo32_mod.
  set (third := l32 + h33 + l23) in *.
  set (c3 := third / 4294967296). set (d3 := third mod 4294967296).
  assert (Hd3 : third = c3 * 4294967296 + d3 /\ 0 <= d3 < 4294967296 /\ 0 <= c3 <= 2) by (subst third c3 d3; lia).
  set (sec := l31 + h32 + (l22 + h23) + l13) in *.
  assert (Hsec : 0 <= sec < 25769803776) by (subst sec; lia).
  rewrite (u64_small (sec + c3)) by lia.
  set (c2 := (sec + c3) / 4294967296). set (d2 := (sec + c3) mod 4294967296).
  assert (Hd2 : sec + c3 = c2 * 4294967296 + d2 /\ 0 <= d2 < 4294967296 /\ 0 <= c2 <= 6) by (subst c2 d2; lia).
  set (first := p30 + h31 + (p21 + h22) + (p12 + h13) + p03) in *.
  assert (Hfirst : 0 <= first < 21474836480) by (subst first; lia).
  rewrite (u64_small (first + c2)), mask_carry by lia.
  assert (Htot : total = (first + c2) * 79228162514264337593543950336 + d2 * 18446744073709551616 +
    d3 * 4294967296 + l33) by (subst total first sec third; lia).
  clearbody total first c2 d2 d3. unfold MAX128. change (2 ^ 127 - 1) with 170141183460469231731687303715884105727.
  destruct (Z.ltb_spec (first + c2) 2147483648); cbn [negb].
  - destruct (Z.leb_spec total 170141183460469231731687303715884105727); [|lia].
    rewrite (Z.mod_small (first + c2)) by lia.
    rewrite (u64_small (Z.shiftl d3 32)), (u64_small (Z.shiftl (first + c2) 32))
      by (rewrite Z.shiftl_mul_pow2 by lia; change (2 ^ 32) with 4294967296; lia).
    rewrite !lor_shift, s64_small by lia. f_equal. f_equal.
    + apply (Z.mod_unique_pos _ _ ((first + c2) * 4294967296 + d2)); lia.
    + apply (Z.div_unique_pos _ _ _ (d3 * 4294967296 + l33)); lia.
  - destruct (Z.leb_spec total 170141183460469231731687303715884105727); [lia|done].
Qed.

(** The decision of [multiplyPortable] on the sixteen products. *)
Lemma portable_decision total p00 p01 p02 p03 p10 p11 p12 p13 p20 p21 p22 p23 p30 p31 p32 p33 :
  total = p33 + (p32 + p23) * 4294967296 + (p31 + p22 + p13) * 18446744073709551616 +
    (p30 + p21 + p12 + p03) * 79228162514264337593543950336 +
    (p20 + p11 + p02) * 340282366920938463463374607431768211456 +
    (p10 + p01) * 1461501637330902918203684832716283019655932542976 +
    p00 * 6277101735386680763835789423207666416102355444464034512896 ->
  product p00 -> product p01 -> product p02 -> product p03 -> product p10 -> product p11 ->
  product p12 -> product p13 -> product p20 -> product p21 -> product p22 -> product p23 ->
  product p30 -> product p31 -> product p32 -> product p33 ->
  (if negb (p00 =? 0) || negb (p01 =? 0) || negb (p02 =? 0) || negb (p10 =? 0) ||
      negb (p20 =? 0) || negb (p11 =? 0) then None
   else if negb (Z.land p03 0xffffffff80000000 =? 0) || negb (Z.land p12 0xffffffff80000000 =? 0) ||
           negb (Z.land p21 0xffffffff80000000 =? 0) || negb (Z.land p30 0xffffffff80000000 =? 0)
   then None else mergeProducts p03 p12 p13 p21 p22 p23 p30 p31 p32 p33) =
  if total <=? MAX128 then Some (mk128 (u64 total) (total / 18446744073709551616)) else None.
Proof.
  intros Htot H00 H01 H02 H03 H10 H11 H12 H13 H20 H21 H22 H23 H30 H31 H32 H33.
  unfold MAX128. change (2 ^ 127 - 1) with 170141183460469231731687303715884105727.
  destruct (negb (p00 =? 0) || _ || _ || _ || _ || _) eqn:E1.
  { assert (p00 <> 0 \/ p01 <> 0 \/ p02 <> 0 \/ p10 <> 0 \/ p20 <> 0 \/ p11 <> 0) by lia.
    unfold product in *. destruct (Z.leb_spec total 170141183460469231731687303715884105727); [lia|done]. }
  rewrite !mask_high33 by (unfold product in *; lia).
  destruct (negb (p03 <? _) || _ || _ || _) eqn:E2.
  { assert (2147483648 <= p03 \/ 2147483648 <= p12 \/ 2147483648 <= p21 \/ 2147483648 <= p30) by lia.
    unfold product in *. destruct (Z.leb_spec total 170141183460469231731687303715884105727); [lia|done]. }
  rewrite mergeProducts_spec by (done || (unfold product in *; lia)).
  replace (p33 + _ + _ + _) with total; [done|]. rewrite Htot.
  assert (p00 = 0 /\ p01 = 0 /\ p02 = 0 /\ p10 = 0 /\ p20 = 0 /\ p11 = 0) by lia. lia.
Qed.

Definition digit32 (a : Z) : Prop := 0 <= a < 4294967296.

Lemma product_digits a b : digit32 a -> digit32 b -> product (a * b).
Proof. unfold digit32, product. nia. Qed.

Lemma u64_product a b : digit32 a -> digit32 b -> u64 (a * b) = a * b.
Proof. intros Ha Hb. apply u64_small. pose proof (product_digits a b Ha Hb) as H. unfold product in H. lia. Qed.

(** The base 2^32 digits of a non-negative value. *)
Lemma digits x : nonneg x ->
  exists t0 t1 t2 t3, digit32 t0 /\ digit32 t1 /\ digit32 t2 /\ digit32 t3 /\
    hi32 (u64 (high x)) = t0 /\ lo32 (u64 (high x)) = t1 /\ hi32 (low x) = t2 /\ lo32 (low x) = t3 /\
    value x = (t0 * 4294967296 + t1) * 18446744073709551616 + (t2 * 4294967296 + t3).
Proof.
  destruct x as [l h]. intros [[Hl Hh] H0]. cbn [low high] in *.
  exists (h / 4294967296), (h mod 4294967296), (l / 4294967296), (l mod 4294967296).
  rewrite u64_small, !hi32_div, !lo32_mod by lia. unfold digit32, value. cbn [low high]. lia.
Qed.

(** The portable multiplication of 32-bit digits gives the same result as the
    compiler's 128-bit multiplication, overflow included, on all magnitudes. *)
Theorem multiplyPortable_builtin x y :
  nonneg x -> nonneg y -> multiplyPortable x y = multiplyBuiltin x y.
Proof.
  intros Hx Hy. rewrite multiplyBuiltin_spec by done. unfold multiplyPortable.
  destruct (digits x Hx) as (t0 & t1 & t2 & t3 & Ht0 & Ht1 & Ht2 & Ht3 & -> & -> & -> & -> & ->).
  destruct (digits y Hy) as (b0 & b1 & b2 & b3 & Hb0 & Hb1 & Hb2 & Hb3 & -> & -> & -> & -> & ->).
  rewrite !u64_product by done.
  apply portable_decision; [ring|auto using product_digits ..].
Qed.

Lemma negateIf_abs x :
  wf128 x -> value x <> MIN128 ->
  exists y, negateIf (high x <? 0) x = Ok y /\ nonneg y /\ value y = Z.abs (value x).
Proof.
  intros Hx Hm. unfold negateIf. destruct (Z.ltb_spec (high x) 0).
  - pose proof (negate_spec x Hx) as Hneg. destruct (Z.eqb_spec (value x) MIN128); [done|].
    destruct Hneg as (y & E & Hy & Hv). exists y. split; [done|]. split.
    + split; [done|]. destruct x, y. unfold128. lia.
    + rewrite Hv. destruct x. unfold128. lia.
  - exists x. split; [done|]. split; [by split|]. destruct x. unfold128. lia.
Qed.

Lemma negateIf_sign (b : bool) x :
  nonneg x -> exists y, negateIf b x = Ok y /\ wf128 y /\ value y = if b then - value x else value x.
Proof.
  intros [Hx Hx0]. destruct b; cbn [negateIf]; [|by exists x].
  pose proof (negate_spec x Hx) as H. destruct (Z.eqb_spec (value x) MIN128) as [E|]; [|done].
  exfalso. destruct x. unfold128. lia.
Qed.

Lemma sign_value x : wf128 x -> (high x <? 0) = (value x <? 0).
Proof. destruct x. unfold128. lia. Qed.

Lemma product_nonneg p : 0 <= p <= MAX128 -> nonneg (mk128 (u64 p) (p / 18446744073709551616)) /\
  value (mk128 (u64 p) (p / 18446744073709551616)) = p.
Proof. unfold nonneg. unfold128. lia. Qed.

Lemma tryMultiply_spec x y :
  wf128 x -> wf128 y -> value x <> MIN128 -> value y <> MIN128 ->
  if Z.abs (value x * value y) <=? MAX128
  then exists r, tryMultiply multiplyBuiltin x y = Ok (Some r) /\ wf128 r /\ value r = value x * value y
  else tryMultiply multiplyBuiltin x y = Ok None.
Proof.
  intros Hx Hy Hmx Hmy. unfold tryMultiply.
  destruct (negateIf_abs x Hx Hmx) as (x' & -> & Hx' & Hvx).
  destruct (negateIf_abs y Hy Hmy) as (y' & -> & Hy' & Hvy). cbn [obind].
  rewrite multiplyBuiltin_spec, Hvx, Hvy, <- Z.abs_mul, !sign_value by done.
  destruct (Z.leb_spec (Z.abs (value x * value y)) MAX128) as [Hle|Hgt]; [|done].
  destruct (product_nonneg (Z.abs (value x * value y))) as [Hp Hvp]; [split; [apply Z.abs_nonneg|done]|].
  destruct (negateIf_sign (xorb (value x <? 0) (value y <? 0)) _ Hp) as (r & -> & Hr & Hvr).
  exists r. split; [done|]. split; [done|]. rewrite Hvp in Hvr.
  rewrite Hvr. destruct (Z.ltb_spec (value x) 0), (Z.ltb_spec (value y) 0); cbn [xorb]; nia.
Qed.

(** Addition, subtraction and multiplication are exact: they give the value of the
    result when it lies strictly between -2^127 and 2^127, and report an overflow
    exactly when it does not; no wrapped result is ever returned. *)
Theorem arithmetic_exact x y :
  wf128 x -> wf128 y -> value x <> MIN128 -> value y <> MIN128 ->
  (forall z op, (op = Add /\ z = value x + value y) \/ (op = Sub /\ z = value x - value y) \/
                (op = Mul /\ z = value x * value y) ->
     if (MIN128 <? z) && (z <=? MAX128)
     then exists r, op x y = Ok r /\ wf128 r /\ value r = z
     else exists m, op x y = Err (OverflowException m)).
Proof.
  intros Hx Hy Hmx Hmy z op [[-> ->]|[[-> ->]|[-> ->]]].
  - unfold Add. pose proof (add_spec x y Hx Hy) as H. cbn zeta in H.
    destruct ((MIN128 <? _) && _); [destruct H as (r & -> & ?)|destruct H as (r & ->)]; eauto.
  - unfold Sub. pose proof (sub_spec x y Hx Hy) as H. cbn zeta in H.
    destruct ((MIN128 <? _) && _); [destruct H as (r & -> & ?)|destruct H as (r & ->)]; eauto.
  - unfold Mul. pose proof (tryMultiply_spec x y Hx Hy Hmx Hmy) as H.
    destruct (Z.leb_spec (Z.abs (value x * value y)) MAX128) as [Hle|Hgt].
    + destruct H as (r & -> & Hr & Hval). cbn [obind]. destruct ((MIN128 <? _) && _) eqn:E; [by eauto|].
      exfalso. unfold MIN128, MAX128 in *. lia.
    + rewrite H. destruct ((MIN128 <? _) && _) eqn:E; [|cbn [obind]; eauto].
      exfalso. unfold MIN128, MAX128 in *. lia.
Qed.

(** ** Division *)

Lemma halfBits_spec fuel z :
  0 <= z < 2 ^ Z.of_nat fuel -> 0 <= z < 2 ^ Z.of_nat (halfBits fuel z).
Proof.
  revert z. induction fuel as [|fuel IH]; intros z Hz; cbn [halfBits]; [done|].
  destruct (Z.eqb_spec z 0) as [->|Hne]; [done|].
  rewrite Nat2Z.inj_succ, Z.pow_succ_r in Hz by lia.
  assert (Hs : Z.shiftr z 1 = z / 2) by (by rewrite Z.shiftr_div_pow2).
  rewrite Hs. destruct (IH (z / 2)) as [_ H]; [lia|].
  rewrite Nat2Z.inj_succ, Z.pow_succ_r by lia. lia.
Qed.

Lemma bitsAmount_spec x :
  nonneg x -> value x < 2 ^ Z.of_nat (PositiveInt128BitsAmount x) /\ (PositiveInt128BitsAmount x <= 128)%nat.
Proof.
  intros [Hx Hx0]. unfold PositiveInt128BitsAmount.
  assert (Hle : forall f z, (halfBits f z <= f)%nat).
  { induction f as [|f IH]; intros z; cbn; [done|]. destruct (z =? 0); [lia|]. specialize (IH (Z.shiftr z 1)). lia. }
  destruct (Z.eqb_spec (high x) 0) as [E|E]; cbn [negb].
  - split; [|specialize (Hle 64%nat (low x)); lia].
    assert (Hr : 0 <= low x < 2 ^ Z.of_nat 64) by (change (2 ^ Z.of_nat 64) with 18446744073709551616; apply Hx).
    pose proof (halfBits_spec 64 (low x) Hr). unfold value. rewrite E. lia.
  - split; [|specialize (Hle 64%nat (u64 (high x))); lia].
    assert (Hr : 0 <= u64 (high x) < 2 ^ Z.of_nat 64)
      by (change (2 ^ Z.of_nat 64) with 18446744073709551616; unfold u64; apply Z.mod_pos_bound; lia).
    pose proof (halfBits_spec 64 (u64 (high x)) Hr) as [_ H].
    rewrite u64_small in * by (unfold wf128 in Hx; lia).
    rewrite Nat2Z.inj_add, Z.pow_add_r by lia. change (2 ^ Z.of_nat 64) with 18446744073709551616.
    unfold value. unfold wf128 in Hx. nia.
Qed.

Lemma land_bit z k : 0 <= k -> negb (Z.land z (Z.shiftl 1 k) =? 0) = Z.testbit z k.
Proof.
  intros Hk. change (Z.shiftl 1 k) with (Z.shiftl (Z.ones 1) k). rewrite land_mask by lia.
  change (2 ^ 1) with 2. rewrite <- Z.testbit_spec' by lia. by destruct (Z.testbit z k).
Qed.

Lemma isBitSet_spec x i :
  nonneg x -> PositiveInt128IsBitSet x i = Z.testbit (value x) (Z.of_nat i).
Proof.
  intros [Hx Hx0]. unfold PositiveInt128IsBitSet.
  assert (Hv : value x = Z.lor (low x) (Z.shiftl (high x) 64)).
  { pose proof (Z.add_lor_land (low x) (Z.shiftl (high x) 64)) as Hadd.
    assert (E : Z.land (low x) (Z.shiftl (high x) 64) = 0).
    { apply Z.bits_inj'. intros k Hk. rewrite Z.land_spec, Z.bits_0.
      destruct (Z.lt_ge_cases k 64); [rewrite Z.shiftl_spec_low by done; apply andb_false_r|].
      destruct (decide (low x = 0)) as [->|]; [by rewrite Z.bits_0|].
      rewrite (Z.bits_above_log2 (low x)); [done|unfold wf128 in Hx; lia|].
      apply Z.lt_le_trans with 64; [|done]. apply Z.log2_lt_pow2; [unfold wf128 in Hx; lia|]. apply Hx. }
    rewrite E, Z.shiftl_mul_pow2 in Hadd by lia. rewrite Z.shiftl_mul_pow2 by lia.
    unfold value. change (2 ^ 64) with 18446744073709551616 in *. lia. }
  rewrite Hv, Z.lor_spec. destruct (Nat.ltb_spec i 64).
  - rewrite land_bit, Z.shiftl_spec_low, orb_false_r by lia. done.
  - rewrite land_bit, Z.shiftl_spec by lia.
    replace (Z.testbit (low x) (Z.of_nat i)) with false; [done|]. symmetry.
    destruct (decide (low x = 0)) as [->|]; [by rewrite Z.bits_0|].
    apply Z.bits_above_log2; [unfold wf128 in Hx; lia|].
    apply Z.lt_le_trans with 64; [|lia]. apply Z.log2_lt_pow2; [unfold wf128 in Hx; lia|]. apply Hx.
Qed.

Lemma leftShift1_spec x :
  nonneg x -> 2 * value x <= MAX128 ->
  nonneg (PositiveInt128LeftShift1 x) /\ value (PositiveInt128LeftShift1 x) = 2 * value x.
Proof.
  destruct x as [l h]. intros [Hx Hx0] Hv. unfold PositiveInt128LeftShift1, nonneg.
  cbn [low high] in *. rewrite !Z.shiftl_mul_pow2, Z.shiftr_div_pow2 by lia.
  change (2 ^ 1) with 2. change (2 ^ 63) with 9223372036854775808. unfold128. lia.
Qed.

Lemma addOne_spec x :
  nonneg x -> value x < MAX128 ->
  nonneg (snd (addInPlace x (mk128 1 0))) /\ value (snd (addInPlace x (mk128 1 0))) = value x + 1.
Proof.
  intros [Hx Hx0] Hv. pose proof (add_spec x (mk128 1 0) Hx ltac:(unfold wf128; cbn; lia)) as H. cbn zeta in H.
  change (value (mk128 1 0)) with 1 in H.
  destruct ((MIN128 <? value x + 1) && _) eqn:E.
  - destruct H as (r & -> & Hr & Hvr). cbn [snd]. split; [split; [done|]|done].
    destruct x, r. unfold128. lia.
  - exfalso. destruct x. unfold128. lia.
Qed.

Lemma incr_spec x :
  nonneg x -> value x < MAX128 ->
  let y := mk128 (u64 (low x + 1)) (if u64 (low x + 1) =? 0 then s64 (high x + 1) else high x) in
  nonneg y /\ value y = value x + 1.
Proof.
  destruct x as [l h]. intros [Hx Hx0] Hv. unfold nonneg. cbn zeta.
  destruct (Z.eqb_spec (u64 (low (mk128 l h) + 1)) 0); unfold128; lia.
Qed.

(** The next bit of the dividend. *)
Lemma div_pow2_step z (i : nat) :
  0 <= z -> z / 2 ^ Z.of_nat i = 2 * (z / 2 ^ Z.of_nat (S i)) + (if Z.testbit z (Z.of_nat i) then 1 else 0).
Proof.
  intros Hz. replace (2 ^ Z.of_nat (S i)) with (2 ^ Z.of_nat i * 2)
    by (rewrite Nat2Z.inj_succ, Z.pow_succ_r; lia).
  rewrite <- Z.div_div by lia.
  pose proof (Z.testbit_spec' z (Z.of_nat i) ltac:(lia)) as Hb.
  unfold Z.b2z in Hb. generalize dependent (Z.testbit z (Z.of_nat i)).
  generalize (z / 2 ^ Z.of_nat i). intros q b Hb. destruct b; lia.
Qed.

Lemma divModPositiveLoop_spec x d i q r :
  nonneg x -> 0 < d <= 9223372036854775808 -> nonneg q -> 0 <= r < d ->
  value q * d + r = value x / 2 ^ Z.of_nat i ->
  exists q' r', divModPositiveLoop i x d q r = (q', r') /\ nonneg q' /\ 0 <= r' < d /\
    value q' * d + r' = value x.
Proof.
  intros Hx Hd. revert q r. induction i as [|i IH]; intros q r Hq Hr E; cbn [divModPositiveLoop].
  - exists q, r. split_and!; try done; try lia.
  - assert (Hvx : 0 <= value x <= MAX128) by (destruct Hx, x; unfold128; lia).
    assert (Hnext : 0 <= value x / 2 ^ Z.of_nat i <= MAX128).
    { split; [apply Z.div_pos; lia|]. transitivity (value x); [|lia].
      apply Z.div_le_upper_bound; [lia|]. pose proof (Z.pow_pos_nonneg 2 (Z.of_nat i)). nia. }
    rewrite (div_pow2_step (value x) i) in Hnext by lia. rewrite <- E in Hnext.
    assert (Hq0 : 0 <= value q) by (destruct Hq, q; unfold128; lia).
    destruct (leftShift1_spec q Hq) as [Hq1 Hv1]; [destruct (Z.testbit _ _); nia|].
    set (b := Z.testbit (value x) (Z.of_nat i)) in *.
    rewrite isBitSet_spec by done. fold b.
    assert (Hrem : (if b then u64 (u64 (Z.shiftl r 1) + 1) else u64 (Z.shiftl r 1)) = 2 * r + (if b then 1 else 0)).
    { rewrite Z.shiftl_mul_pow2 by lia. change (2 ^ 1) with 2. rewrite (u64_small (r * 2)) by lia.
      destruct b; [rewrite u64_small by lia|]; lia. }
    rewrite Hrem. set (r1 := 2 * r + (if b then 1 else 0)) in *.
    assert (E1 : value q * 2 * d + r1 = value x / 2 ^ Z.of_nat i).
    { rewrite (div_pow2_step (value x) i), <- E by lia. fold b. subst r1. lia. }
    destruct (Z.leb_spec d r1).
    + destruct (incr_spec (PositiveInt128LeftShift1 q) Hq1) as [Hq2 Hv2].
      { rewrite Hv1. subst r1. destruct b; nia. }
      apply IH; [exact Hq2|subst r1; destruct b; lia|]. rewrite Hv2, Hv1, <- E1. lia.
    + apply IH; [done|subst r1; destruct b; lia|]. rewrite Hv1, <- E1. lia.
Qed.

Lemma value_nonneg x : nonneg x -> 0 <= value x <= MAX128.
Proof. intros [Hx H0]. destruct x. unfold128. lia. Qed.

Lemma div_pow2_le z (i : nat) : 0 <= z -> 0 <= z / 2 ^ Z.of_nat i <= z.
Proof.
  intros Hz. pose proof (Z.pow_pos_nonneg 2 (Z.of_nat i)). split; [apply Z.div_pos; lia|].
  apply Z.div_le_upper_bound; [lia|]. nia.
Qed.

Lemma sub_nonneg x y :
  nonneg x -> nonneg y -> value y <= value x ->
  exists r, Sub x y = Ok r /\ nonneg r /\ value r = value x - value y.
Proof.
  intros Hx Hy Hle. pose proof (value_nonneg x Hx). pose proof (value_nonneg y Hy).
  destruct Hx as [Hx _], Hy as [Hy _]. pose proof (sub_spec x y Hx Hy) as Hs. cbn zeta in Hs.
  unfold Sub. destruct ((MIN128 <? _) && _) eqn:E.
  - destruct Hs as (r & -> & Hr & Hv). exists r. split; [done|]. split; [split; [done|]|done].
    destruct r. unfold128. lia.
  - exfalso. unfold MIN128, MAX128 in *. lia.
Qed.

Lemma divModLoop_spec x d i q r :
  nonneg x -> nonneg d -> 0 < value d -> nonneg q -> nonneg r -> value r < value d ->
  value q * value d + value r = value x / 2 ^ Z.of_nat i ->
  exists q' r', divModLoop i x d q r = Ok (q', r') /\ nonneg q' /\ nonneg r' /\ value r' < value d /\
    value q' * value d + value r' = value x.
Proof.
  intros Hx Hd Hd0. revert q r. induction i as [|i IH]; intros q r Hq Hr Hlt E; cbn [divModLoop].
  - exists q, r. split_and!; try done. by rewrite E, Z.div_1_r.
  - pose proof (value_nonneg x Hx) as Hvx. pose proof (div_pow2_le (value x) i ltac:(lia)) as Hnext.
    rewrite (div_pow2_step (value x) i), <- E in Hnext by lia.
    pose proof (value_nonneg q Hq) as Hq0. pose proof (value_nonneg r Hr) as Hr0.
    destruct (leftShift1_spec q Hq) as [Hq1 Hv1]; [destruct (Z.testbit _ _); nia|].
    destruct (leftShift1_spec r Hr) as [Hr1 Hw1]; [destruct (Z.testbit _ _); nia|].
    rewrite isBitSet_spec by done. set (b := Z.testbit (value x) (Z.of_nat i)) in *.
    set (r2 := if b then snd (addInPlace (PositiveInt128LeftShift1 r) (mk128 1 0)) else PositiveInt128LeftShift1 r).
    assert (Hr2 : nonneg r2 /\ value r2 = 2 * value r + (if b then 1 else 0)).
    { subst r2. destruct b; [|rewrite Hw1; split; [done|lia]].
      destruct (addOne_spec (PositiveInt128LeftShift1 r) Hr1) as [? ->]; [rewrite Hw1; nia|]. split; [done|lia]. }
    destruct Hr2 as [Hr2 Hw2]. clearbody r2.
    assert (E1 : value q * 2 * value d + value r2 = value x / 2 ^ Z.of_nat i).
    { rewrite (div_pow2_step (value x) i), <- E, Hw2 by lia. fold b. lia. }
    destruct (compare_spec r2 d) as (_ & _ & _ & -> & _); [apply Hr2|apply Hd|].
    destruct (Z.leb_spec (value d) (value r2)) as [Hge|Hle].
    + destruct (sub_nonneg r2 d Hr2 Hd Hge) as (r3 & -> & Hr3 & Hw3). cbn [obind].
      destruct (addOne_spec (PositiveInt128LeftShift1 q) Hq1) as [Hq3 Hv3].
      { rewrite Hv1. destruct b; nia. }
      apply IH; [done|done|destruct b; lia|]. rewrite Hv3, Hv1, Hw3, <- E1. lia.
    + apply IH; [done|done|lia|]. rewrite Hv1, <- E1. lia.
Qed.

Lemma divMod_abs x d :
  nonneg x -> nonneg d -> 0 < value d ->
  exists q r, divModLoop (PositiveInt128BitsAmount x) x d (mk128 0 0) (mk128 0 0) = Ok (q, r) /\
    nonneg q /\ nonneg r /\ value q = value x / value d /\ value r = value x mod value d.
Proof.
  intros Hx Hd Hd0. destruct (bitsAmount_spec x Hx) as [Hb _]. pose proof (value_nonneg x Hx).
  assert (H0 : nonneg (mk128 0 0)) by (unfold nonneg; unfold128; lia).
  destruct (divModLoop_spec x d (PositiveInt128BitsAmount x) (mk128 0 0) (mk128 0 0))
    as (q & r & E & Hq & Hr & Hlt & Heq); try done.
  { rewrite Z.div_small by lia. done. }
  exists q, r. pose proof (value_nonneg r Hr). split_and!; try done.
  - apply (Z.div_unique_pos _ _ _ (value r)); lia.
  - apply (Z.mod_unique_pos _ _ (value q)); lia.
Qed.

(** Division and remainder truncate towards zero, for every dividend and every
    non-zero divisor that have a negation; the divisor zero is an error. *)
Theorem division_truncates x d :
  wf128 x -> wf128 d -> value x <> MIN128 -> value d <> MIN128 ->
  (value d = 0 -> exists m m', Div x d = Err (RuntimeException m) /\ Mod x d = Err (RuntimeException m')) /\
  (value d <> 0 -> exists q r, Div x d = Ok q /\ Mod x d = Ok r /\ wf128 q /\ wf128 r /\
     value q = Z.quot (value x) (value d) /\ value r = Z.rem (value x) (value d)).
Proof.
  intros Hx Hd Hmx Hmd.
  assert (Hz : (high d =? 0) && (low d =? 0) = (value d =? 0)) by (destruct d; unfold128; lia).
  unfold Div, Mod. rewrite Hz. split.
  - intros ->. rewrite Z.eqb_refl. eauto.
  - intros Hne. destruct (Z.eqb_spec (value d) 0); [done|]. unfold divMod.
    destruct (negateIf_abs x Hx Hmx) as (x' & -> & Hx' & Hvx).
    destruct (negateIf_abs d Hd Hmd) as (d' & -> & Hd' & Hvd). cbn [obind].
    destruct (divMod_abs x' d' Hx' Hd') as (q & r & -> & Hq & Hr & Hvq & Hvr); [lia|]. cbn [obind].
    rewrite !sign_value by done.
    destruct (negateIf_sign (xorb (value x <? 0) (value d <? 0)) q Hq) as (q2 & -> & Hq2 & Hvq2).
    destruct (negateIf_sign (value x <? 0) r Hr) as (r2 & -> & Hr2 & Hvr2). cbn [obind fst snd].
    exists q2, r2. split_and!; try done.
    + rewrite Hvq2, Hvq, Hvx, Hvd, Z.quot_div by done.
      destruct (Z.ltb_spec (value x) 0), (Z.ltb_spec (value d) 0); cbn [xorb];
        rewrite ?(Z.sgn_neg (value x)), ?(Z.sgn_neg (value d)), ?(Z.sgn_pos (value d)) by lia;
        destruct (decide (value x = 0)) as [->|]; rewrite ?(Z.sgn_pos (value x)) by lia; try lia;
        rewrite ?Z.abs_0, ?Z.div_0_l by lia; cbn; lia.
    + rewrite Hvr2, Hvr, Hvx, Hvd, Z.rem_mod by done.
      destruct (Z.ltb_spec (value x) 0); [rewrite Z.sgn_neg by lia; lia|].
      destruct (decide (value x = 0)) as [->|]; [by rewrite Z.abs_0, Z.mod_0_l by lia|].
      rewrite Z.sgn_pos by lia. lia.
Qed.

(** ** Printing *)

Lemma divModPositive_spec x d :
  nonneg x -> 0 < d <= 9223372036854775808 ->
  exists q, divModPositive x d = (q, value x mod d) /\ nonneg q /\ value q = value x / d.
Proof.
  intros Hx Hd. destruct (bitsAmount_spec x Hx) as [Hb _]. pose proof (value_nonneg x Hx).
  destruct (divModPositiveLoop_spec x d (PositiveInt128BitsAmount x) (mk128 0 0) 0)
    as (q & r & E & Hq & Hr & Heq); [done|done|unfold nonneg; unfold128; lia|lia| |].
  { rewrite Z.div_small by lia. done. }
  exists q. unfold divModPositive. rewrite E. split_and!; [|done|].
  - f_equal. apply (Z.mod_unique_pos _ _ (value q)); lia.
  - apply (Z.div_unique_pos _ _ _ r); lia.
Qed.

Lemma digit_char d s :
  0 <= d < 10 -> String.append (digit d) s = String (pretty_N_char (Z.to_N d)) s.
Proof.
  intros Hd. assert (H : d = 0 \/ d = 1 \/ d = 2 \/ d = 3 \/ d = 4 \/ d = 5 \/ d = 6 \/ d = 7 \/ d = 8 \/ d = 9) by lia.
  repeat (destruct H as [->|H]; [done|]). by subst d.
Qed.

Lemma toStringLoop_spec fuel x s :
  nonneg x -> value x < 10 ^ Z.of_nat fuel ->
  toStringLoop fuel x s = Ok (pretty_N_go (Z.to_N (value x)) s).
Proof.
  revert x s. induction fuel as [|fuel IH]; intros x s Hx Hv; cbn [toStringLoop];
    pose proof (value_nonneg x Hx) as H0;
    assert (Ez : (low x =? 0) && (high x =? 0) = (value x =? 0)) by (destruct Hx, x; unfold128; lia);
    rewrite Ez.
  - change (10 ^ Z.of_nat 0) with 1 in Hv. assert (value x = 0) as -> by lia. by rewrite pretty_N_go_0.
  - destruct (Z.eqb_spec (value x) 0) as [->|Hne]; [by rewrite pretty_N_go_0|].
    destruct (divModPositive_spec x 10 Hx) as (q & -> & Hq & Hvq); [lia|].
    rewrite Nat2Z.inj_succ, Z.pow_succ_r in Hv by lia.
    rewrite IH; [|done|rewrite Hvq; apply Z.div_lt_upper_bound; lia].
    rewrite digit_char by (apply Z.mod_pos_bound; lia).
    rewrite (pretty_N_go_step (Z.to_N (value x))) by lia.
    rewrite Hvq. f_equal. f_equal; [|f_equal; f_equal].
    + by rewrite Z2N.inj_div by lia.
    + by rewrite Z2N.inj_mod by lia.
Qed.

Lemma pretty_N_go_empty n : pretty_N_go n EmptyString = EmptyString <-> n = 0%N.
Proof.
  split; [|intros ->; apply pretty_N_go_0]. intros H.
  destruct (decide (n = 0%N)) as [|Hn]; [done|]. exfalso.
  assert (Hlen : forall m s, (String.length s <= String.length (pretty_N_go m s))%nat).
  { intros m. induction (N.lt_wf_0 m) as [m _ IH]. intros s.
    destruct (decide (m = 0%N)) as [->|]; [by rewrite pretty_N_go_0|].
    rewrite pretty_N_go_step by lia. etrans; [|apply IH; apply N.div_lt; lia]. simpl. lia. }
  rewrite pretty_N_go_step in H by lia.
  specialize (Hlen (n / 10)%N (String (pretty_N_char (n mod 10)) EmptyString)). rewrite H in Hlen. simpl in Hlen. lia.
Qed.

(** [ToString] prints the decimal representation of every value that has a
    negation, and terminates within 39 digits. *)
Theorem ToString_decimal x :
  wf128 x -> value x <> MIN128 -> ToString x = Ok (pretty (value x)).
Proof.
  intros Hx Hm. unfold ToString.
  destruct (negateIf_abs x Hx Hm) as (y & -> & Hy & Hvy). cbn [obind].
  pose proof (value_nonneg y Hy) as Hy0.
  rewrite toStringLoop_spec; [|done|unfold MAX128 in *; change (10 ^ Z.of_nat 39) with 1000000000000000000000000000000000000000;
    change (2 ^ 127) with 170141183460469231731687303715884105728 in *; lia].
  cbn [obind]. rewrite sign_value, Hvy by done. f_equal.
  assert (Hp : (if bool_decide (pretty_N_go (Z.to_N (Z.abs (value x))) "" = EmptyString)
    then "0"%string else pretty_N_go (Z.to_N (Z.abs (value x))) "") = pretty (Z.to_N (Z.abs (value x)))).
  { unfold pretty, pretty_N. case_bool_decide as E; case_decide as E'; try done.
    - by apply pretty_N_go_empty in E.
    - destruct E. by apply pretty_N_go_empty. }
  rewrite Hp. destruct (value x) as [|p|p]; done.
Qed.

(** ** Casts *)

(** Casting to a narrower integer type succeeds exactly for the values of that
    type and keeps the value; casting from one keeps the value too, so that a cast
    there and back is the identity. *)
Theorem cast_exact x w :
  wf128 x -> 0 < w <= 64 ->
  (TryCastInt128 true (2 ^ (w - 1) - 1) x =
     Ok (if (- 2 ^ (w - 1) <=? value x) && (value x <? 2 ^ (w - 1)) then Some (value x) else None)) /\
  (0 <= value x -> TryCastInt128 false (2 ^ w - 1) x = Ok (if value x <? 2 ^ w then Some (value x) else None)) /\
  (-1 * 2 ^ 64 <= value x < 0 -> exists m, TryCastInt128 false (2 ^ w - 1) x = Err (OverflowException m)) /\
  (forall v, - 2 ^ 63 <= v < 2 ^ 64 -> wf128 (castTo v) /\ value (castTo v) = v).
Proof.
  intros Hx Hw. pose proof (value_range x Hx) as Hr.
  assert (Hp1 : 0 < 2 ^ (w - 1) <= 9223372036854775808).
  { split; [apply Z.pow_pos_nonneg; lia|]. change 9223372036854775808 with (2 ^ 63). apply Z.pow_le_mono_r; lia. }
  assert (Hp2 : 0 < 2 ^ w <= 18446744073709551616).
  { split; [apply Z.pow_pos_nonneg; lia|]. change 18446744073709551616 with (2 ^ 64). apply Z.pow_le_mono_r; lia. }
  destruct x as [l h]. unfold TryCastInt128. cbn [low high] in *. split_and!.
  - revert Hp1. generalize (2 ^ (w - 1)). intros P HP.
    destruct (Z.eqb_spec h 0) as [->|H0]; [|destruct (Z.eqb_spec h (-1)) as [->|H1]].
    + f_equal. destruct (Z.leb_spec l (P - 1)), ((- P <=? _) && _) eqn:E; unfold128; try lia; f_equal; lia.
    + f_equal. destruct (Z.leb_spec (UINT64_MAX - (P - 1)) l), ((- P <=? _) && _) eqn:E; unfold128; try lia; f_equal; lia.
    + f_equal. destruct ((- P <=? _) && _) eqn:E; [|done]. exfalso. unfold128. lia.
  - intros Hv. revert Hp2. generalize (2 ^ w). intros P HP.
    destruct (Z.eqb_spec h 0) as [->|H0]; [|destruct (Z.eqb_spec h (-1)) as [->|H1]].
    + f_equal. destruct (Z.leb_spec l (P - 1)), (Z.ltb_spec (value (mk128 l 0)) P); unfold128; try lia; f_equal; lia.
    + exfalso. unfold128. lia.
    + f_equal. destruct (Z.ltb_spec (value (mk128 l h)) P); [|done]. exfalso. unfold128. lia.
  - intros Hv. destruct (Z.eqb_spec h 0) as [->|H0]; [exfalso; unfold128; lia|].
    destruct (Z.eqb_spec h (-1)) as [->|H1]; [|exfalso; unfold128; lia].
    rewrite ToString_decimal; [cbn [obind]; eauto|done|unfold128; lia].
  - intros v Hv. change (2 ^ 63) with 9223372036854775808 in Hv. unfold castTo.
    destruct (Z.ltb_spec v 0); unfold128; lia.
Qed.

(** ** Shifts *)

Lemma testbit_high_low l i : 0 <= l < 18446744073709551616 -> 64 <= i -> Z.testbit l i = false.
Proof.
  intros Hl Hi. destruct (decide (l = 0)) as [->|]; [apply Z.bits_0|].
  apply Z.bits_above_log2; [lia|]. apply Z.lt_le_trans with 64; [|done]. apply Z.log2_lt_pow2; [lia|]. apply Hl.
Qed.

Lemma value_testbit x i :
  wf128 x -> 0 <= i -> Z.testbit (value x) i = if i <? 64 then Z.testbit (low x) i else Z.testbit (high x) (i - 64).
Proof.
  intros [Hl Hh] Hi. unfold value. change 18446744073709551616 with (2 ^ 64) in *.
  destruct (Z.ltb_spec i 64).
  - rewrite <- (Z.mod_pow2_bits_low _ 64) by lia.
    replace ((high x * 2 ^ 64 + low x) mod 2 ^ 64) with (low x); [done|].
    rewrite Z.add_comm, Z_mod_plus_full, Z.mod_small by done. done.
  - replace i with (i - 64 + 64) at 1 by lia. rewrite <- Z.div_pow2_bits by lia.
    rewrite Z.div_add_l, (Z.div_small (low x)), Z.add_0_r by lia. done.
Qed.

Lemma u64_testbit z i : 0 <= i -> Z.testbit (u64 z) i = (i <? 64) && Z.testbit z i.
Proof.
  intros Hi. unfold u64. change 18446744073709551616 with (2 ^ 64). destruct (Z.ltb_spec i 64).
  - by rewrite Z.mod_pow2_bits_low by lia.
  - by rewrite Z.mod_pow2_bits_high by lia.
Qed.

Lemma s64_testbit z i : 0 <= i < 64 -> Z.testbit (s64 z) i = Z.testbit z i.
Proof.
  intros Hi. rewrite <- (Z.mod_pow2_bits_low (s64 z) 64), <- (Z.mod_pow2_bits_low z 64) by lia.
  f_equal. change (2 ^ 64) with 18446744073709551616. unfold s64. lia.
Qed.

(** A 64-bit signed half repeats its sign bit. *)
Lemma sign_testbit h i : -9223372036854775808 <= h < 9223372036854775808 -> 63 <= i -> Z.testbit h i = (h <? 0).
Proof.
  intros Hh Hi. destruct (Z.ltb_spec h 0).
  - apply Z.bits_iff_neg_ex in H as [k Hk].
    destruct (Z.testbit h i) eqn:E; [done|]. exfalso.
    assert (Hneg : h < 0) by (apply Z.bits_iff_neg_ex; by exists k).
    assert (Hl : Z.testbit (Z.lnot h) i = true) by (by rewrite Z.lnot_spec, E by lia).
    assert (Hz : 0 <= Z.lnot h < 2 ^ 63) by (unfold Z.lnot; change (2 ^ 63) with 9223372036854775808; lia).
    destruct (decide (Z.lnot h = 0)) as [E0|]; [rewrite E0, Z.bits_0 in Hl; done|].
    rewrite Z.bits_above_log2 in Hl; [done|lia|].
    apply Z.lt_le_trans with 63; [|done]. apply Z.log2_lt_pow2; lia.
  - destruct (decide (h = 0)) as [->|]; [apply Z.bits_0|].
    apply Z.bits_above_log2; [lia|]. apply Z.lt_le_trans with 63; [|done].
    apply Z.log2_lt_pow2; [lia|]. change (2 ^ 63) with 9223372036854775808. lia.
Qed.

Lemma word_nonneg_range z : 0 <= z -> (forall i, 64 <= i -> Z.testbit z i = false) -> 0 <= z < 18446744073709551616.
Proof.
  intros Hz H. split; [done|]. destruct (decide (z = 0)) as [->|]; [done|].
  change 18446744073709551616 with (2 ^ 64). apply Z.log2_lt_pow2; [lia|].
  destruct (Z.lt_ge_cases (Z.log2 z) 64); [done|]. exfalso.
  specialize (H (Z.log2 z) H0). rewrite Z.bit_log2 in H; [done|lia].
Qed.

Lemma shiftr_range h a : 0 <= a -> -9223372036854775808 <= h < 9223372036854775808 ->
  -9223372036854775808 <= Z.shiftr h a < 9223372036854775808.
Proof.
  intros Ha Hh. rewrite Z.shiftr_div_pow2 by done. pose proof (Z.pow_pos_nonneg 2 a).
  split; [apply Z.div_le_lower_bound; nia|apply Z.div_lt_upper_bound; nia].
Qed.

Lemma rightShift_wf x a : wf128 x -> 0 <= a < 128 -> wf128 (RightShift x a).
Proof.
  intros [Hl Hh] Ha. unfold RightShift. destruct (Z.leb_spec 64 a); [|destruct (Z.eqb_spec a 0)]; [|by split|];
    (split; cbn [low high]; [|apply shiftr_range; [lia|done]]).
  - unfold u64. apply Z.mod_pos_bound. lia.
  - apply word_nonneg_range.
    + apply Z.lor_nonneg. split; [apply Z.shiftr_nonneg; lia|]. unfold u64. apply Z.mod_pos_bound. lia.
    + intros i Hi. rewrite Z.lor_spec, u64_testbit, Z.shiftr_spec by lia.
      rewrite testbit_high_low by (done || lia). destruct (Z.ltb_spec i 64); [lia|done].
Qed.

Lemma rightShift_value x a : wf128 x -> 0 <= a < 128 -> value (RightShift x a) = Z.shiftr (value x) a.
Proof.
  intros Hx Ha. apply Z.bits_inj'. intros i Hi.
  rewrite Z.shiftr_spec, !value_testbit by (done || lia || by apply rightShift_wf).
  destruct Hx as [Hl Hh]. unfold RightShift.
  destruct (Z.leb_spec 64 a); [|destruct (Z.eqb_spec a 0) as [->|]]; cbn [low high].
  - destruct (Z.ltb_spec (i + a) 64); [lia|]. destruct (Z.ltb_spec i 64).
    + rewrite u64_testbit, Z.shiftr_spec by lia. destruct (Z.ltb_spec i 64); [|lia]. cbn [andb]. f_equal. lia.
    + rewrite Z.shiftr_spec by lia. rewrite !sign_testbit by (done || lia). done.
  - by rewrite Z.add_0_r.
  - destruct (Z.ltb_spec i 64).
    + rewrite Z.lor_spec, Z.shiftr_spec, u64_testbit by lia. destruct (Z.ltb_spec i 64); [|lia]. cbn [andb].
      rewrite s64_testbit by lia. destruct (Z.ltb_spec (i + a) 64).
      * rewrite Z.shiftl_spec_low by lia. apply orb_false_r.
      * rewrite testbit_high_low by (done || lia). rewrite Z.shiftl_spec by lia. cbn [orb]. f_equal. lia.
    + rewrite Z.shiftr_spec by lia. destruct (Z.ltb_spec (i + a) 64); [lia|]. f_equal. lia.
Qed.

Lemma leftShift_wf x a : wf128 x -> 0 <= a < 128 -> wf128 (LeftShift x a).
Proof.
  intros [Hl Hh] Ha. unfold LeftShift. destruct (Z.leb_spec 64 a); [|destruct (Z.eqb_spec a 0)]; [|by split|];
    (split; cbn [low high]; [unfold u64; lia|]).
  - unfold s64. lia.
  - set (p := s64 (Z.shiftl (high x) a)). set (q := s64 (Z.shiftr (low x) (64 - a))).
    assert (Hp : -9223372036854775808 <= p < 9223372036854775808) by (subst p; unfold s64; lia).
    assert (Hq : -9223372036854775808 <= q < 9223372036854775808) by (subst q; unfold s64; lia).
    clearbody p q. assert (Hb : forall i, 63 <= i -> Z.testbit (Z.lor p q) i = (Z.lor p q <? 0)).
    { intros i Hi. rewrite Z.lor_spec, !sign_testbit by done. pose proof (Z.lor_neg p q).
      destruct (Z.ltb_spec p 0), (Z.ltb_spec q 0), (Z.ltb_spec (Z.lor p q) 0); try done; exfalso; lia. }
    destruct (Z.ltb_spec (Z.lor p q) 0) as [Hneg|Hpos].
    + assert (Hn : 0 <= Z.lnot (Z.lor p q) < 2 ^ 63); [|unfold Z.lnot in *; change (2 ^ 63) with 9223372036854775808 in *; lia].
      split; [unfold Z.lnot; lia|]. destruct (decide (Z.lnot (Z.lor p q) = 0)) as [->|]; [done|].
      apply Z.log2_lt_pow2; [unfold Z.lnot in *; lia|]. apply Z.nle_gt. intros Hge.
      pose proof (Z.bit_log2 (Z.lnot (Z.lor p q)) ltac:(unfold Z.lnot in *; lia)) as Hl2.
      rewrite Z.lnot_spec, Hb in Hl2 by lia. done.
    + split; [lia|]. destruct (decide (Z.lor p q = 0)) as [->|]; [done|].
      change 9223372036854775808 with (2 ^ 63). apply Z.log2_lt_pow2; [lia|]. apply Z.nle_gt. intros Hge.
      pose proof (Z.bit_log2 (Z.lor p q) ltac:(lia)) as Hl2. rewrite Hb in Hl2 by lia. done.
Qed.

Lemma leftShift_value x a :
  wf128 x -> 0 <= a < 128 -> value (LeftShift x a) mod 2 ^ 128 = Z.shiftl (value x) a mod 2 ^ 128.
Proof.
  intros Hx Ha. apply Z.bits_inj'. intros i Hi.
  destruct (Z.lt_ge_cases i 128); [|by rewrite !Z.mod_pow2_bits_high by lia].
  rewrite !Z.mod_pow2_bits_low by lia. rewrite value_testbit by (done || by apply leftShift_wf).
  assert (Hv : Z.testbit (Z.shiftl (value x) a) i =
    if i <? a then false else if i - a <? 64 then Z.testbit (low x) (i - a) else Z.testbit (high x) (i - a - 64)).
  { destruct (Z.ltb_spec i a); [by rewrite Z.shiftl_spec_low|].
    rewrite Z.shiftl_spec, value_testbit by (done || lia). done. }
  rewrite Hv. destruct Hx as [Hl Hh]. unfold LeftShift.
  destruct (Z.leb_spec 64 a); [|destruct (Z.eqb_spec a 0) as [->|]]; cbn [low high].
  - destruct (Z.ltb_spec i 64).
    + rewrite Z.bits_0. destruct (Z.ltb_spec i a); [done|lia].
    + rewrite s64_testbit, u64_testbit by lia. destruct (Z.ltb_spec (i - 64) 64); [|lia]. cbn [andb].
      destruct (Z.ltb_spec i a); [by rewrite Z.shiftl_spec_low by lia|].
      rewrite Z.shiftl_spec by lia. destruct (Z.ltb_spec (i - a) 64); [f_equal; lia|lia].
  - destruct (Z.ltb_spec i 0); [lia|]. by rewrite Z.sub_0_r.
  - destruct (Z.ltb_spec i 64).
    + rewrite u64_testbit by lia. destruct (Z.ltb_spec i 64); [|lia]. cbn [andb].
      destruct (Z.ltb_spec i a); [by rewrite Z.shiftl_spec_low by lia|].
      rewrite Z.shiftl_spec by lia. destruct (Z.ltb_spec (i - a) 64); [done|lia].
    + rewrite Z.lor_spec, !s64_testbit, Z.shiftr_spec by lia. destruct (Z.ltb_spec i a); [lia|].
      destruct (Z.ltb_spec (i - a) 64).
      * rewrite Z.shiftl_spec_low by lia. cbn [orb]. f_equal. lia.
      * rewrite Z.shiftl_spec, (testbit_high_low (low x)), orb_false_r by (done || lia). f_equal. lia.
Qed.

(** The right shift is the arithmetic shift of the 128-bit value, and the left
    shift its shift modulo 2^128, for every amount below 128. *)
Theorem shift_spec x a :
  wf128 x -> 0 <= a < 128 ->
  wf128 (RightShift x a) /\ value (RightShift x a) = Z.shiftr (value x) a /\
  value (LeftShift x a) mod 2 ^ 128 = Z.shiftl (value x) a mod 2 ^ 128.
Proof.
  intros Hx Ha. split_and!.
  - by apply rightShift_wf.
  - by apply rightShift_value.
  - by apply leftShift_value.
Qed.

(** The table of powers of ten holds 10^0 to 10^38, computed by the checked
    multiplication, and a zero after them. *)
Theorem powerOf10_table :
  value <$> powerOf10 = ((fun k => 10 ^ Z.of_nat k) <$> seq 0 39) ++ [0].
Proof. vm_compute. reflexivity. Qed.

(** ** The properties at concrete inputs *)

Definition ex7 : int128_t := mk128 7 0.
Definition exm3 : int128_t := castTo (-3).

Lemma wf_ex7 : wf128 ex7. Proof. by vm_compute. Qed.
Lemma wf_exm3 : wf128 exm3. Proof. by vm_compute. Qed.

Lemma multiplyPortable_builtin_witness : multiplyPortable ex7 (mk128 5 1) = multiplyBuiltin ex7 (mk128 5 1).
Proof. apply (multiplyPortable_builtin ex7 (mk128 5 1)); (split; [by vm_compute|]; by vm_compute). Defined.

Lemma arithmetic_exact_witness : exists r, Mul ex7 exm3 = Ok r /\ value r = -21.
Proof.
  pose proof (arithmetic_exact ex7 exm3 wf_ex7 wf_exm3 ltac:(by vm_compute) ltac:(by vm_compute)
    (value ex7 * value exm3) Mul ltac:(auto)) as H.
  change (exists r, Mul ex7 exm3 = Ok r /\ wf128 r /\ value r = -21) in H.
  destruct H as (r & E & _ & Hv). exists r. split; [exact E|exact Hv].
Defined.

Lemma division_truncates_witness : exists q r, Div ex7 exm3 = Ok q /\ Mod ex7 exm3 = Ok r /\ value q = -2 /\ value r = 1.
Proof.
  destruct (division_truncates ex7 exm3 wf_ex7 wf_exm3 ltac:(by vm_compute) ltac:(by vm_compute)) as [_ H].
  destruct H as (q & r & E1 & E2 & _ & _ & Hq & Hr); [by vm_compute|]. exists q, r. rewrite Hq, Hr.
  split; [exact E1|]. split; [exact E2|]. split; vm_compute; reflexivity.
Defined.

Lemma ToString_decimal_witness : ToString exm3 = Ok "-3"%string.
Proof. rewrite (ToString_decimal exm3 wf_exm3); [by vm_compute|by vm_compute]. Defined.

Lemma cast_exact_witness : TryCastInt128 true 127 exm3 = Ok (Some (-3)).
Proof. destruct (cast_exact exm3 8 wf_exm3 ltac:(lia)) as [H _]. exact H. Defined.

Lemma shift_spec_witness : value (RightShift exm3 1) = -2.
Proof. destruct (shift_spec exm3 1 wf_exm3 ltac:(lia)) as (_ & H & _). by rewrite H. Defined.

(** ** Signed overflow inside a checked addition *)

(** The sum [lhs.high + rhs.high + overflow] is evaluated from the left: when the low
    halves carry, the partial sum can leave the range of [int64_t], which the language
    does not define, although the operation is reported as correct. *)
Theorem add_intermediate_overflow :
  let x := mk128 5 INT64_MIN in
  let y := castTo (-1) in
  fst (addInPlace x y) = true /\ high x + high y < INT64_MIN.
Proof. by vm_compute. Qed.
