(* ===== verification/Date.v ===== *)
(** * Dates (src/common/types/date_t.cpp, src/include/common/types/date_t.h)

    A date is a number of days since 1970-01-01, a 32-bit integer.  The code converts to
    and from years, months and days with tables of one 400-year interval; the specification
    here is the calendar's own rule ([civil]), for years before and after the tables. *)

From S2P Require Import Prelude.
From stdpp Require Import base list strings numbers pretty.
Local Open Scope Z_scope.
Ltac Zify.zify_post_hook ::= Z.to_euclidean_division_equations.

(** ** Tables *)

Definition NORMAL_DAYS : list Z :=
  [0; 31; 28; 31; 30; 31; 30; 31; 31; 30; 31; 30; 31].
Definition LEAP_DAYS : list Z :=
  [0; 31; 29; 31; 30; 31; 30; 31; 31; 30; 31; 30; 31].
Definition CUMULATIVE_LEAP_DAYS : list Z :=
  [0; 31; 60; 91; 121; 152; 182; 213; 244; 274; 305; 335; 366].
Definition CUMULATIVE_DAYS : list Z :=
  [0; 31; 59; 90; 120; 151; 181; 212; 243; 273; 304; 334; 365].
Definition MONTH_PER_DAY_OF_YEAR : list Z :=
  [1; 1; 1; 1; 1; 1; 1; 1; 1; 1; 1; 1; 1; 1; 1; 1; 1; 1; 1; 1; 1; 1; 1; 1; 1; 1; 1; 1; 1; 1; 1;
   2; 2; 2; 2; 2; 2; 2; 2; 2; 2; 2; 2; 2; 2; 2; 2; 2; 2; 2; 2; 2; 2; 2; 2; 2; 2; 2; 2; 3; 3; 3;
   3; 3; 3; 3; 3; 3; 3; 3; 3; 3; 3; 3; 3; 3; 3; 3; 3; 3; 3; 3; 3; 3; 3; 3; 3; 3; 3; 3; 4; 4; 4;
   4; 4; 4; 4; 4; 4; 4; 4; 4; 4; 4; 4; 4; 4; 4; 4; 4; 4; 4; 4; 4; 4; 4; 4; 4; 4; 4; 5; 5; 5; 5;
   5; 5; 5; 5; 5; 5; 5; 5; 5; 5; 5; 5; 5; 5; 5; 5; 5; 5; 5; 5; 5; 5; 5; 5; 5; 5; 5; 6; 6; 6; 6;
   6; 6; 6; 6; 6; 6; 6; 6; 6; 6; 6; 6; 6; 6; 6; 6; 6; 6; 6; 6; 6; 6; 6; 6; 6; 6; 7; 7; 7; 7; 7;
   7; 7; 7; 7; 7; 7; 7; 7; 7; 7; 7; 7; 7; 7; 7; 7; 7; 7; 7; 7; 7; 7; 7; 7; 7; 7; 8; 8; 8; 8; 8;
   8; 8; 8; 8; 8; 8; 8; 8; 8; 8; 8; 8; 8; 8; 8; 8; 8; 8; 8; 8; 8; 8; 8; 8; 8; 8; 9; 9; 9; 9; 9;
   9; 9; 9; 9; 9; 9; 9; 9; 9; 9; 9; 9; 9; 9; 9; 9; 9; 9; 9; 9; 9; 9; 9; 9; 9; 10; 10; 10; 10;
   10; 10; 10; 10; 10; 10; 10; 10; 10; 10; 10; 10; 10; 10; 10; 10; 10; 10; 10; 10; 10; 10; 10;
   10; 10; 10; 10; 11; 11; 11; 11; 11; 11; 11; 11; 11; 11; 11; 11; 11; 11; 11; 11; 11; 11; 11;
   11; 11; 11; 11; 11; 11; 11; 11; 11; 11; 11; 12; 12; 12; 12; 12; 12; 12; 12; 12; 12; 12; 12;
   12; 12; 12; 12; 12; 12; 12; 12; 12; 12; 12; 12; 12; 12; 12; 12; 12; 12; 12].
Definition LEAP_MONTH_PER_DAY_OF_YEAR : list Z :=
  [1; 1; 1; 1; 1; 1; 1; 1; 1; 1; 1; 1; 1; 1; 1; 1; 1; 1; 1; 1; 1; 1; 1; 1; 1; 1; 1; 1; 1; 1; 1;
   2; 2; 2; 2; 2; 2; 2; 2; 2; 2; 2; 2; 2; 2; 2; 2; 2; 2; 2; 2; 2; 2; 2; 2; 2; 2; 2; 2; 2; 3; 3;
   3; 3; 3; 3; 3; 3; 3; 3; 3; 3; 3; 3; 3; 3; 3; 3; 3; 3; 3; 3; 3; 3; 3; 3; 3; 3; 3; 3; 3; 4; 4;
   4; 4; 4; 4; 4; 4; 4; 4; 4; 4; 4; 4; 4; 4; 4; 4; 4; 4; 4; 4; 4; 4; 4; 4; 4; 4; 4; 4; 5; 5; 5;
   5; 5; 5; 5; 5; 5; 5; 5; 5; 5; 5; 5; 5; 5; 5; 5; 5; 5; 5; 5; 5; 5; 5; 5; 5; 5; 5; 5; 6; 6; 6;
   6; 6; 6; 6; 6; 6; 6; 6; 6; 6; 6; 6; 6; 6; 6; 6; 6; 6; 6; 6; 6; 6; 6; 6; 6; 6; 6; 7; 7; 7; 7;
   7; 7; 7; 7; 7; 7; 7; 7; 7; 7; 7; 7; 7; 7; 7; 7; 7; 7; 7; 7; 7; 7; 7; 7; 7; 7; 7; 8; 8; 8; 8;
   8; 8; 8; 8; 8; 8; 8; 8; 8; 8; 8; 8; 8; 8; 8; 8; 8; 8; 8; 8; 8; 8; 8; 8; 8; 8; 8; 9; 9; 9; 9;
   9; 9; 9; 9; 9; 9; 9; 9; 9; 9; 9; 9; 9; 9; 9; 9; 9; 9; 9; 9; 9; 9; 9; 9; 9; 9; 10; 10; 10; 10;
   10; 10; 10; 10; 10; 10; 10; 10; 10; 10; 10; 10; 10; 10; 10; 10; 10; 10; 10; 10; 10; 10; 10;
   10; 10; 10; 10; 11; 11; 11; 11; 11; 11; 11; 11; 11; 11; 11; 11; 11; 11; 11; 11; 11; 11; 11;
   11; 11; 11; 11; 11; 11; 11; 11; 11; 11; 11; 12; 12; 12; 12; 12; 12; 12; 12; 12; 12; 12; 12;
   12; 12; 12; 12; 12; 12; 12; 12; 12; 12; 12; 12; 12; 12; 12; 12; 12; 12; 12].
Definition CUMULATIVE_YEAR_DAYS : list Z :=
  [0; 365; 730; 1096; 1461; 1826; 2191; 2557; 2922; 3287; 3652; 4018; 4383; 4748; 5113; 5479;
   5844; 6209; 6574; 6940; 7305; 7670; 8035; 8401; 8766; 9131; 9496; 9862; 10227; 10592; 10957;
   11323; 11688; 12053; 12418; 12784; 13149; 13514; 13879; 14245; 14610; 14975; 15340; 15706;
   16071; 16436; 16801; 17167; 17532; 17897; 18262; 18628; 18993; 19358; 19723; 20089; 20454;
   20819; 21184; 21550; 21915; 22280; 22645; 23011; 23376; 23741; 24106; 24472; 24837; 25202;
   25567; 25933; 26298; 26663; 27028; 27394; 27759; 28124; 28489; 28855; 29220; 29585; 29950;
   30316; 30681; 31046; 31411; 31777; 32142; 32507; 32872; 33238; 33603; 33968; 34333; 34699;
   35064; 35429; 35794; 36160; 36525; 36890; 37255; 37621; 37986; 38351; 38716; 39082; 39447;
   39812; 40177; 40543; 40908; 41273; 41638; 42004; 42369; 42734; 43099; 43465; 43830; 44195;
   44560; 44926; 45291; 45656; 46021; 46387; 46752; 47117; 47482; 47847; 48212; 48577; 48942;
   49308; 49673; 50038; 50403; 50769; 51134; 51499; 51864; 52230; 52595; 52960; 53325; 53691;
   54056; 54421; 54786; 55152; 55517; 55882; 56247; 56613; 56978; 57343; 57708; 58074; 58439;
   58804; 59169; 59535; 59900; 60265; 60630; 60996; 61361; 61726; 62091; 62457; 62822; 63187;
   63552; 63918; 64283; 64648; 65013; 65379; 65744; 66109; 66474; 66840; 67205; 67570; 67935;
   68301; 68666; 69031; 69396; 69762; 70127; 70492; 70857; 71223; 71588; 71953; 72318; 72684;
   73049; 73414; 73779; 74145; 74510; 74875; 75240; 75606; 75971; 76336; 76701; 77067; 77432;
   77797; 78162; 78528; 78893; 79258; 79623; 79989; 80354; 80719; 81084; 81450; 81815; 82180;
   82545; 82911; 83276; 83641; 84006; 84371; 84736; 85101; 85466; 85832; 86197; 86562; 86927;
   87293; 87658; 88023; 88388; 88754; 89119; 89484; 89849; 90215; 90580; 90945; 91310; 91676;
   92041; 92406; 92771; 93137; 93502; 93867; 94232; 94598; 94963; 95328; 95693; 96059; 96424;
   96789; 97154; 97520; 97885; 98250; 98615; 98981; 99346; 99711; 100076; 100442; 100807;
   101172; 101537; 101903; 102268; 102633; 102998; 103364; 103729; 104094; 104459; 104825;
   105190; 105555; 105920; 106286; 106651; 107016; 107381; 107747; 108112; 108477; 108842;
   109208; 109573; 109938; 110303; 110669; 111034; 111399; 111764; 112130; 112495; 112860;
   113225; 113591; 113956; 114321; 114686; 115052; 115417; 115782; 116147; 116513; 116878;
   117243; 117608; 117974; 118339; 118704; 119069; 119435; 119800; 120165; 120530; 120895;
   121260; 121625; 121990; 122356; 122721; 123086; 123451; 123817; 124182; 124547; 124912;
   125278; 125643; 126008; 126373; 126739; 127104; 127469; 127834; 128200; 128565; 128930;
   129295; 129661; 130026; 130391; 130756; 131122; 131487; 131852; 132217; 132583; 132948;
   133313; 133678; 134044; 134409; 134774; 135139; 135505; 135870; 136235; 136600; 136966;
   137331; 137696; 138061; 138427; 138792; 139157; 139522; 139888; 140253; 140618; 140983;
   141349; 141714; 142079; 142444; 142810; 143175; 143540; 143905; 144271; 144636; 145001;
   145366; 145732; 146097].

Definition MIN_YEAR : Z := -290307.
Definition MAX_YEAR : Z := 294247.
Definition EPOCH_YEAR : Z := 1970.
Definition YEAR_INTERVAL : Z := 400.
Definition DAYS_PER_YEAR_INTERVAL : Z := 146097.

(** A read of a table: an index out of range is undefined. *)
Definition table (l : list Z) (i : Z) : outcome Z :=
  if 0 <=? i then match l !! Z.to_nat i with Some v => Ok v | None => Err UndefinedBehaviour end
  else Err UndefinedBehaviour.
(** The result of signed 32-bit arithmetic: an overflow is undefined. *)
Definition i32 (z : Z) : outcome Z :=
  if (- 2 ^ 31 <=? z) && (z <? 2 ^ 31) then Ok z else Err UndefinedBehaviour.
Definition assert (b : bool) : outcome unit := if b then Ok tt else Err InternalException.

(** ** Conversion *)

Fixpoint shiftUp (fuel : nat) (n year : Z) : outcome (Z * Z) :=
  if n <? 0 then
    match fuel with
    | O => Err UndefinedBehaviour
    | S fuel' =>
        let* n := i32 (n + DAYS_PER_YEAR_INTERVAL) in
        let* year := i32 (year - YEAR_INTERVAL) in
        shiftUp fuel' n year
    end
  else Ok (n, year).
Fixpoint shiftDown (fuel : nat) (n year : Z) : outcome (Z * Z) :=
  if DAYS_PER_YEAR_INTERVAL <=? n then
    match fuel with
    | O => Err UndefinedBehaviour
    | S fuel' =>
        let* n := i32 (n - DAYS_PER_YEAR_INTERVAL) in
        let* year := i32 (year + YEAR_INTERVAL) in
        shiftDown fuel' n year
    end
  else Ok (n, year).
Fixpoint searchYear (fuel : nat) (n year_offset : Z) : outcome Z :=
  let* c := table CUMULATIVE_YEAR_DAYS year_offset in
  if n <? c then
    match fuel with
    | O => Err UndefinedBehaviour
    | S fuel' =>
        let year_offset := year_offset - 1 in
        let* _ := assert (0 <=? year_offset) in
        searchYear fuel' n year_offset
    end
  else Ok year_offset.

(** The rest of the days, the year, and the year within the interval. *)
Definition extractYearOffset (n : Z) : outcome (Z * Z * Z) :=
  let fuel := Z.to_nat (Z.abs n / DAYS_PER_YEAR_INTERVAL + 1) in
  let* p := shiftUp fuel n EPOCH_YEAR in
  let '(n, year) := p in
  let* p := shiftDown fuel n year in
  let '(n, year) := p in
  let* year_offset := searchYear (Z.to_nat (n ÷ 365)) n (n ÷ 365) in
  let* year := i32 (year + year_offset) in
  let* c := table CUMULATIVE_YEAR_DAYS year_offset in
  let* _ := assert (c <=? n) in
  Ok (n, year, year_offset).

Definition convert (days : Z) : outcome (Z * Z * Z) :=
  let* p := extractYearOffset days in
  let '(n, out_year, year_offset) := p in
  let* c := table CUMULATIVE_YEAR_DAYS year_offset in
  let* c' := table CUMULATIVE_YEAR_DAYS (year_offset + 1) in
  let out_day := n - c in
  let* _ := assert ((0 <=? out_day) && (out_day <=? 365)) in
  let is_leap_year := c' - c =? 366 in
  let* out_month := table (if is_leap_year then LEAP_MONTH_PER_DAY_OF_YEAR else MONTH_PER_DAY_OF_YEAR) out_day in
  let* before := table (if is_leap_year then CUMULATIVE_LEAP_DAYS else CUMULATIVE_DAYS) (out_month - 1) in
  let out_day := out_day - before + 1 in
  let* length := table (if is_leap_year then LEAP_DAYS else NORMAL_DAYS) out_month in
  let* _ := assert ((0 <? out_day) && (out_day <=? length)) in
  let* _ := assert ((0 <? out_month) && (out_month <=? 12)) in
  Ok (out_year, out_month, out_day).

Definition isLeapYear (year : Z) : bool :=
  (Z.rem year 4 =? 0) && (negb (Z.rem year 100 =? 0) || (Z.rem year 400 =? 0)).

Definition isValid (year month day : Z) : outcome bool :=
  if (month <? 1) || (12 <? month) then Ok false
  else if (year <? MIN_YEAR) || (MAX_YEAR <? year) then Ok false
  else if day <? 1 then Ok false
  else
    let* length := table (if isLeapYear year then LEAP_DAYS else NORMAL_DAYS) month in
    Ok (day <=? length).

Definition monthDays (year month : Z) : outcome Z :=
  let* _ := assert ((1 <=? month) && (month <=? 12)) in
  table (if isLeapYear year then LEAP_DAYS else NORMAL_DAYS) month.

Fixpoint yearUp (fuel : nat) (year n : Z) : outcome (Z * Z) :=
  if year <? 1970 then
    match fuel with
    | O => Err UndefinedBehaviour
    | S fuel' =>
        let* year := i32 (year + YEAR_INTERVAL) in
        let* n := i32 (n - DAYS_PER_YEAR_INTERVAL) in
        yearUp fuel' year n
    end
  else Ok (year, n).
Fixpoint yearDown (fuel : nat) (year n : Z) : outcome (Z * Z) :=
  if 2370 <=? year then
    match fuel with
    | O => Err UndefinedBehaviour
    | S fuel' =>
        let* year := i32 (year - YEAR_INTERVAL) in
        let* n := i32 (n + DAYS_PER_YEAR_INTERVAL) in
        yearDown fuel' year n
    end
  else Ok (year, n).

Definition outOfRange (year month day : Z) : exn :=
  ConversionException
    ("Date out of range: " +:+ pretty year +:+ "-" +:+ pretty month +:+ "-" +:+ pretty day +:+ ".").

Definition fromDate (year month day : Z) : outcome Z :=
  let* valid := isValid year month day in
  if negb valid then Err (outOfRange year month day)
  else
    let fuel := Z.to_nat (Z.abs (year - 1970) / YEAR_INTERVAL + 1) in
    let* p := yearUp fuel year 0 in
    let '(year, n) := p in
    let* p := yearDown fuel year n in
    let '(year, n) := p in
    let* c := table CUMULATIVE_YEAR_DAYS (year - 1970) in
    let* n := i32 (n + c) in
    let* m := table (if isLeapYear year then CUMULATIVE_LEAP_DAYS else CUMULATIVE_DAYS) (month - 1) in
    let* n := i32 (n + m) in
    i32 (n + (day - 1)).

(** ** Arithmetic with intervals (src/include/common/types/interval_t.h) *)

Record interval_t : Type := mkInterval { months : Z; days : Z; micros : Z }.

Definition MONTHS_PER_YEAR : Z := 12.
Definition MONTHS_PER_QUARTER : Z := 3.
Definition MICROS_PER_DAY : Z := 1000 * 1000 * 60 * 60 * 24.
Definition NANOS_PER_MICRO : Z := 1000.

Definition addMonths (date m : Z) : outcome Z :=
  let* p := convert date in
  let '(year, month, day) := p in
  let year_diff := m ÷ MONTHS_PER_YEAR in
  let* year := i32 (year + year_diff) in
  let* month := i32 (month + (m - year_diff * MONTHS_PER_YEAR)) in
  let '(year, month) :=
    if MONTHS_PER_YEAR <? month then (year + 1, month - MONTHS_PER_YEAR)
    else if month <=? 0 then (year - 1, month + MONTHS_PER_YEAR)
    else (year, month) in
  let* maxDayInMonth := monthDays year month in
  fromDate year month (if maxDayInMonth <? day then maxDayInMonth else day).

(** [date_t::operator+(interval_t)] and [date_t::operator-(interval_t)]. *)
Definition addInterval (date : Z) (i : interval_t) : outcome Z :=
  let* result := if negb (months i =? 0) then addMonths date (months i) else Ok date in
  let* result := if negb (days i =? 0) then i32 (result + days i) else Ok result in
  if negb (micros i =? 0) then i32 (result + wrapS 32 (micros i ÷ MICROS_PER_DAY)) else Ok result.
Definition subInterval (date : Z) (i : interval_t) : outcome Z :=
  let* m := i32 (- months i) in
  let* d := i32 (- days i) in
  let* us := if micros i =? - 2 ^ 63 then Err UndefinedBehaviour else Ok (- micros i) in
  addInterval date (mkInterval m d us).
(** [date_t::operator-(int32_t)]. *)
Definition subDays (date day : Z) : outcome Z := i32 (date - day).

(** ** Parts of a date *)

Definition dayNames : list string :=
  ["Sunday"; "Monday"; "Tuesday"; "Wednesday"; "Thursday"; "Friday"; "Saturday"]%string.
Definition monthNames : list string :=
  ["January"; "February"; "March"; "April"; "May"; "June"; "July"; "August"; "September";
   "October"; "November"; "December"]%string.
Definition nameAt (l : list string) (i : Z) : outcome string :=
  if 0 <=? i then match l !! Z.to_nat i with Some s => Ok s | None => Err UndefinedBehaviour end
  else Err UndefinedBehaviour.

Definition dayOfWeek (date : Z) : outcome Z :=
  if date <? 0 then
    let* d := i32 (- date) in
    let* d := i32 (d + 3) in
    Ok (Z.rem (7 - Z.rem d 7) 7)
  else
    let* d := i32 (date + 3) in
    Ok (Z.rem (Z.rem d 7 + 1) 7).
Definition getDayName (date : Z) : outcome string :=
  let* i := dayOfWeek date in nameAt dayNames i.
Definition getMonthName (date : Z) : outcome string :=
  let* p := convert date in
  let '(_, month, _) := p in
  nameAt monthNames (month - 1).

Definition getLastDay (date : Z) : outcome Z :=
  let* p := convert date in
  let '(year, month, _) := p in
  let year := year + month ÷ 12 in
  let month := Z.rem month 12 + 1 in
  let* first := fromDate year month 1 in
  subDays first 1.

Inductive DatePartSpecifier : Type :=
| YEAR | MONTH | DAY | DECADE | CENTURY | MILLENNIUM | QUARTER
| MICROSECOND | MILLISECOND | SECOND | MINUTE | HOUR | WEEK.

(** [getDatePart] takes its date by reference, and for the year passes the reference on to
    [extractYearOffset], which normalizes it: the state is the caller's date. *)
Definition getDatePart (specifier : DatePartSpecifier) : M Z Z :=
  date <- sget ;;
  do (year, month, day) <- slift (convert date) ;;
  match specifier with
  | YEAR =>
      do (n, year, _) <- slift (extractYearOffset date) ;;
      sput n ;;;
      sret year
  | MONTH => sret month
  | DAY => sret day
  | DECADE => sret (year ÷ 10)
  | CENTURY => sret (if 0 <? year then (year - 1) ÷ 100 + 1 else year ÷ 100 - 1)
  | MILLENNIUM => sret (if 0 <? year then (year - 1) ÷ 1000 + 1 else year ÷ 1000 - 1)
  | QUARTER => sret ((month - 1) ÷ MONTHS_PER_QUARTER + 1)
  | _ => sret 0
  end.

Definition trunc (specifier : DatePartSpecifier) : M Z Z :=
  match specifier with
  | YEAR => year <- getDatePart YEAR ;; slift (fromDate year 1 1)
  | MONTH =>
      year <- getDatePart YEAR ;;
      month <- getDatePart MONTH ;;
      slift (fromDate year month 1)
  | DAY => sget
  | DECADE => year <- getDatePart YEAR ;; slift (fromDate (year ÷ 10 * 10) 1 1)
  | CENTURY => year <- getDatePart YEAR ;; slift (fromDate (year ÷ 100 * 100) 1 1)
  | MILLENNIUM => year <- getDatePart YEAR ;; slift (fromDate (year ÷ 1000 * 1000) 1 1)
  | QUARTER =>
      date <- sget ;;
      do (year, month, _) <- slift (convert date) ;;
      slift (fromDate year (1 + (month - 1) ÷ 3 * 3) 1)
  | _ => sget
  end.

(** ** The calendar *)

Definition monthLength (leap : bool) (m : Z) : Z :=
  if m =? 2 then if leap then 29 else 28
  else if (m =? 4) || (m =? 6) || (m =? 9) || (m =? 11) then 30 else 31.

(** The days before a year, counted from year 1 of the proleptic Gregorian calendar, before a
    month of a year, and from 1970-01-01 to a date. *)
Definition daysBeforeYear (y : Z) : Z := 365 * (y - 1) + (y - 1) / 4 - (y - 1) / 100 + (y - 1) / 400.
Definition daysBeforeMonth (leap : bool) (m : Z) : Z :=
  foldr Z.add 0 (monthLength leap <$> seqZ 1 (m - 1)).
Definition civil (y m d : Z) : Z :=
  daysBeforeYear y - daysBeforeYear 1970 + daysBeforeMonth (isLeapYear y) m + (d - 1).
Definition validCivil (y m d : Z) : Prop := 1 <= m <= 12 /\ 1 <= d <= monthLength (isLeapYear y) m.

(** The offset of a year from 1970, in days. *)
Definition yearStart (k : Z) : Z := daysBeforeYear (1970 + k) - daysBeforeYear 1970.
Definition yearLength (y : Z) : Z := if isLeapYear y then 366 else 365.

Lemma i32_ok z : - 2147483648 <= z < 2147483648 -> i32 z = Ok z.
Proof.
  intros H. unfold i32. change (2 ^ 31) with 2147483648.
  by rewrite (proj2 (Z.leb_le _ _)), (proj2 (Z.ltb_lt _ _)) by lia.
Qed.

Lemma isLeapYear_mod y : isLeapYear y = (y mod 4 =? 0) && (negb (y mod 100 =? 0) || (y mod 400 =? 0)).
Proof.
  unfold isLeapYear. f_equal; [|f_equal; [f_equal|]]; apply eq_true_iff_eq; rewrite !Z.eqb_eq;
    apply Z.rem_mod_eq_0; lia.
Qed.

Lemma isLeapYear_400 y : isLeapYear (y + 400) = isLeapYear y.
Proof.
  rewrite !isLeapYear_mod.
  replace ((y + 400) mod 4) with (y mod 4) by lia.
  replace ((y + 400) mod 100) with (y mod 100) by lia.
  by replace ((y + 400) mod 400) with (y mod 400) by lia.
Qed.

Lemma yearStart_400 k : yearStart (k + 400) = yearStart k + 146097.
Proof. unfold yearStart, daysBeforeYear. lia. Qed.

Lemma yearStart_succ k : yearStart (k + 1) = yearStart k + yearLength (1970 + k).
Proof.
  unfold yearStart, yearLength, daysBeforeYear. rewrite isLeapYear_mod.
  replace (1970 + (k + 1) - 1) with (1970 + k) by lia. set (y := 1970 + k).
  destruct (Z.eqb_spec (y mod 4) 0), (Z.eqb_spec (y mod 100) 0), (Z.eqb_spec (y mod 400) 0); cbn; lia.
Qed.

(** A property of all numbers of a range, checked by evaluation. *)
Lemma all_range (P : Z -> bool) a n : forallb P (seqZ a n) = true -> forall i, a <= i < a + n -> P i = true.
Proof. intros H i Hi. rewrite forallb_forall in H. apply H, list_elem_of_In, elem_of_seqZ. lia. Qed.

Definition isOk (o : outcome Z) (z : Z) : bool := match o with Ok v => v =? z | Err _ => false end.
Lemma isOk_eq o z : isOk o z = true -> o = Ok z.
Proof. destruct o; cbn; [|done]. intros H%Z.eqb_eq. by subst. Qed.

(** What the tables hold. *)
Lemma yearTable k : 0 <= k < 401 -> table CUMULATIVE_YEAR_DAYS k = Ok (yearStart k).
Proof.
  intros H. apply isOk_eq. revert k H.
  apply (all_range (fun k => isOk (table CUMULATIVE_YEAR_DAYS k) (yearStart k)) 0 401). vm_compute. reflexivity.
Qed.

Definition lengths (leap : bool) : list Z := if leap then LEAP_DAYS else NORMAL_DAYS.
Definition cumulative (leap : bool) : list Z := if leap then CUMULATIVE_LEAP_DAYS else CUMULATIVE_DAYS.
Definition monthsOfDay (leap : bool) : list Z :=
  if leap then LEAP_MONTH_PER_DAY_OF_YEAR else MONTH_PER_DAY_OF_YEAR.

Lemma lengthTable leap m : 1 <= m <= 12 -> table (lengths leap) m = Ok (monthLength leap m).
Proof.
  intros H. apply isOk_eq. assert (H' : 1 <= m < 1 + 12) by lia. clear H. revert m H'.
  apply (all_range (fun m => isOk (table (lengths leap) m) (monthLength leap m))).
  destruct leap; vm_compute; reflexivity.
Qed.

Lemma cumulativeTable leap m : 1 <= m <= 12 -> table (cumulative leap) (m - 1) = Ok (daysBeforeMonth leap m).
Proof.
  intros H. apply isOk_eq. assert (H' : 1 <= m < 1 + 12) by lia. clear H. revert m H'.
  apply (all_range (fun m => isOk (table (cumulative leap) (m - 1)) (daysBeforeMonth leap m))).
  destruct leap; vm_compute; reflexivity.
Qed.

(** The month of a day of the year. *)
Definition monthOk (leap : bool) (d : Z) : bool :=
  match table (monthsOfDay leap) d with
  | Ok m => (1 <=? m) && (m <=? 12) && (daysBeforeMonth leap m <=? d) &&
            (d <? daysBeforeMonth leap m + monthLength leap m)
  | Err _ => false
  end.
Lemma monthTable (leap : bool) d : 0 <= d < (if leap then 366 else 365) ->
  exists m, table (monthsOfDay leap) d = Ok m /\ 1 <= m <= 12 /\
    daysBeforeMonth leap m <= d < daysBeforeMonth leap m + monthLength leap m.
Proof.
  intros H.
  assert (Hb : monthOk leap d = true).
  { destruct leap; [apply (all_range _ 0 366)|apply (all_range _ 0 365)]; try done; vm_compute; reflexivity. }
  unfold monthOk in Hb. destruct (table (monthsOfDay leap) d) as [m|]; [|done]. exists m. split; [done|].
  rewrite !andb_true_iff, !Z.leb_le, Z.ltb_lt in Hb. lia.
Qed.

(** ** The loops *)

Lemma shiftUp_spec fuel n year :
  - 2147483648 <= n < 2147483648 -> - 2000000000 <= year + 400 * (n / 146097) ->
  year <= 2000000000 -> (n < 0 -> - (n / 146097) <= Z.of_nat fuel) ->
  shiftUp fuel n year = Ok (if n <? 0 then (n mod 146097, year + 400 * (n / 146097)) else (n, year)).
Proof.
  revert n year. induction fuel as [|fuel IH]; intros n year Hn Hy Hy' Hf; cbn [shiftUp];
    destruct (Z.ltb_spec n 0) as [Hlt|]; try done; [lia|].
  unfold DAYS_PER_YEAR_INTERVAL, YEAR_INTERVAL. rewrite i32_ok by lia. cbn [obind].
  rewrite i32_ok by lia. cbn [obind]. rewrite IH by lia. f_equal.
  destruct (Z.ltb_spec (n + 146097) 0); f_equal; lia.
Qed.

Lemma shiftDown_spec fuel n year :
  0 <= n < 2147483648 -> year + 400 * (n / 146097) <= 2000000000 ->
  - 2000000000 <= year -> n / 146097 <= Z.of_nat fuel ->
  shiftDown fuel n year = Ok (n mod 146097, year + 400 * (n / 146097)).
Proof.
  revert n year. induction fuel as [|fuel IH]; intros n year Hn Hy Hy' Hf; cbn [shiftDown];
    unfold DAYS_PER_YEAR_INTERVAL, YEAR_INTERVAL;
    (destruct (Z.leb_spec 146097 n) as [Hle|Hgt]; [|do 2 f_equal; lia]); [lia|].
  rewrite i32_ok by lia. cbn [obind]. rewrite i32_ok by lia. cbn [obind]. rewrite IH by lia. do 2 f_equal; lia.
Qed.

Lemma yearUp_spec fuel year n :
  - 2147483648 <= year < 2147483648 -> - 2147483648 <= n + 146097 * ((year - 1970) / 400) -> n < 2147483648 ->
  (year < 1970 -> - ((year - 1970) / 400) <= Z.of_nat fuel) ->
  yearUp fuel year n =
    Ok (if year <? 1970 then (1970 + (year - 1970) mod 400, n + 146097 * ((year - 1970) / 400)) else (year, n)).
Proof.
  revert year n. induction fuel as [|fuel IH]; intros year n Hy Hn Hn' Hf; cbn [yearUp];
    destruct (Z.ltb_spec year 1970) as [Hlt|]; try done; [lia|].
  unfold DAYS_PER_YEAR_INTERVAL, YEAR_INTERVAL. rewrite i32_ok by lia. cbn [obind].
  rewrite i32_ok by lia. cbn [obind]. rewrite IH by lia. f_equal.
  destruct (Z.ltb_spec (year + 400) 1970); f_equal; lia.
Qed.

Lemma yearDown_spec fuel year n :
  1970 <= year < 2147483648 -> n + 146097 * ((year - 1970) / 400) < 2147483648 -> - 2147483648 <= n ->
  (year - 1970) / 400 <= Z.of_nat fuel ->
  yearDown fuel year n = Ok (1970 + (year - 1970) mod 400, n + 146097 * ((year - 1970) / 400)).
Proof.
  revert year n. induction fuel as [|fuel IH]; intros year n Hy Hn Hn' Hf; cbn [yearDown];
    unfold DAYS_PER_YEAR_INTERVAL, YEAR_INTERVAL;
    (destruct (Z.leb_spec 2370 year) as [Hle|Hgt]; [|do 2 f_equal; lia]); [lia|].
  rewrite i32_ok by lia. cbn [obind]. rewrite i32_ok by lia. cbn [obind]. rewrite IH by lia. do 2 f_equal; lia.
Qed.

(** The year search ends at the year that contains the day. *)
Lemma searchYear_spec fuel n k :
  0 <= n < 146097 -> 0 <= k <= 400 -> n < yearStart (k + 1) -> k <= Z.of_nat fuel ->
  exists k', searchYear fuel n k = Ok k' /\ 0 <= k' < 400 /\ yearStart k' <= n < yearStart (k' + 1).
Proof.
  assert (H0 : yearStart 0 = 0) by reflexivity. assert (H4 : yearStart 400 = 146097) by reflexivity.
  revert k. induction fuel as [|fuel IH]; intros k Hn Hk Hlt Hf; cbn [searchYear];
    rewrite yearTable by lia; cbn [obind]; destruct (Z.ltb_spec n (yearStart k)) as [Hs|Hs].
  - assert (k = 0) as -> by lia. lia.
  - exists k. split; [done|]. assert (k <> 400) by (intros ->; lia). lia.
  - assert (k <> 0) by (intros ->; lia). unfold assert. rewrite (proj2 (Z.leb_le _ _)) by lia. cbn [obind].
    apply IH; try lia. by replace (k - 1 + 1) with k by lia.
  - exists k. split; [done|]. assert (k <> 400) by (intros ->; lia). lia.
Qed.

Lemma yearStart_lower k : 0 <= k -> 365 * k <= yearStart k.
Proof. intros Hk. unfold yearStart, daysBeforeYear. lia. Qed.

Lemma extractYearOffset_spec n :
  - 2147483648 <= n < 2147483648 ->
  exists k, let j := n / 146097 in
    extractYearOffset n = Ok (n mod 146097, 1970 + 400 * j + k, k) /\ 0 <= k < 400 /\
    yearStart k <= n mod 146097 < yearStart (k + 1).
Proof.
  intros Hn. unfold extractYearOffset, EPOCH_YEAR.
  set (fuel := Z.to_nat _).
  assert (Hfuel : Z.abs n / 146097 + 1 = Z.of_nat fuel) by (subst fuel; unfold DAYS_PER_YEAR_INTERVAL; lia).
  clearbody fuel. rewrite shiftUp_spec by lia. cbn [obind].
  assert (Hdown : (let* p := Ok (if n <? 0 then (n mod 146097, 1970 + 400 * (n / 146097)) else (n, 1970)) in
                   let '(n, year) := p in shiftDown fuel n year) =
                  Ok (n mod 146097, 1970 + 400 * (n / 146097))).
  { cbn [obind]. destruct (Z.ltb_spec n 0); rewrite shiftDown_spec by lia; do 2 f_equal; lia. }
  cbn [obind] in Hdown. destruct (if n <? 0 then _ else _) as [n1 y1]. rewrite Hdown. cbn [obind].
  set (r := n mod 146097). assert (Hr : 0 <= r < 146097) by (subst r; lia). clearbody r.
  assert (Hq : r ÷ 365 = r / 365) by (apply Z.quot_div_nonneg; lia). rewrite Hq.
  pose proof (yearStart_lower (r / 365 + 1)) as Hlow.
  destruct (searchYear_spec (Z.to_nat (r / 365)) r (r / 365)) as (k & -> & Hk & Hs); try lia.
  cbn [obind]. rewrite i32_ok by lia. cbn [obind]. rewrite yearTable by lia. cbn [obind].
  unfold assert. rewrite (proj2 (Z.leb_le _ _)) by lia. exists k. split_and!; try lia. done.
Qed.

(** ** Conversion and the calendar *)

Lemma yearStart_interval k j : yearStart (k + 400 * j) = yearStart k + 146097 * j.
Proof. unfold yearStart, daysBeforeYear. lia. Qed.

Lemma isLeapYear_interval y j : isLeapYear (y + 400 * j) = isLeapYear y.
Proof.
  rewrite !isLeapYear_mod.
  replace ((y + 400 * j) mod 4) with (y mod 4) by lia.
  replace ((y + 400 * j) mod 100) with (y mod 100) by lia.
  by replace ((y + 400 * j) mod 400) with (y mod 400) by lia.
Qed.

Lemma assert_true b : b = true -> assert b = Ok tt.
Proof. by intros ->. Qed.

Lemma convert_spec n :
  - 2147483648 <= n < 2147483648 ->
  exists y m d, convert n = Ok (y, m, d) /\ validCivil y m d /\ civil y m d = n.
Proof.
  intros Hn. destruct (extractYearOffset_spec n Hn) as (k & E & Hk & Hs). cbn zeta in E.
  unfold convert. rewrite E. cbn [obind]. rewrite !yearTable by lia. cbn [obind].
  set (y := 1970 + 400 * (n / 146097) + k).
  assert (Hleap : isLeapYear (1970 + k) = isLeapYear y).
  { subst y. by replace (1970 + 400 * (n / 146097) + k) with (1970 + k + 400 * (n / 146097)) by lia;
      rewrite isLeapYear_interval. }
  pose proof (yearStart_succ k) as Hsucc. unfold yearLength in Hsucc. rewrite Hleap in Hsucc.
  assert (Hb : (yearStart (k + 1) - yearStart k =? 366) = isLeapYear y).
  { rewrite Hsucc. destruct (isLeapYear y); [apply Z.eqb_eq|apply Z.eqb_neq]; lia. }
  rewrite Hb. fold (monthsOfDay (isLeapYear y)) (cumulative (isLeapYear y)) (lengths (isLeapYear y)).
  destruct (monthTable (isLeapYear y) (n mod 146097 - yearStart k)) as (m & Em & Hm & Hd);
    [destruct (isLeapYear y); lia|].
  rewrite assert_true by (rewrite andb_true_iff, !Z.leb_le; destruct (isLeapYear y); lia). cbn [obind].
  rewrite Em. cbn [obind]. rewrite cumulativeTable by done. cbn [obind].
  rewrite lengthTable by done. cbn [obind].
  rewrite !assert_true by (rewrite andb_true_iff, Z.ltb_lt, Z.leb_le; lia). cbn [obind].
  eexists _, _, _. split; [reflexivity|]. split; [split; lia|].
  unfold civil. pose proof (yearStart_interval k (n / 146097)) as Hint. unfold yearStart in *.
  replace (1970 + (k + 400 * (n / 146097))) with y in Hint by lia. lia.
Qed.

Lemma daysBeforeMonth_succ leap m : 1 <= m -> daysBeforeMonth leap (m + 1) = daysBeforeMonth leap m + monthLength leap m.
Proof.
  intros Hm. unfold daysBeforeMonth. replace (m + 1 - 1) with (m - 1 + 1) by lia.
  rewrite seqZ_app, fmap_app, foldr_app by lia. replace (1 + (m - 1)) with m by lia.
  change (seqZ m 1) with [m]. change (foldr Z.add 0 (monthLength leap <$> [m])) with (monthLength leap m + 0).
  rewrite Z.add_0_r. generalize (monthLength leap m) as z.
  induction (monthLength leap <$> seqZ 1 (m - 1)) as [|x l IH]; intros z; cbn; [lia|]. rewrite IH. lia.
Qed.

Lemma monthLength_pos leap m : 28 <= monthLength leap m <= 31.
Proof. unfold monthLength. repeat case_match; lia. Qed.

Lemma daysBeforeMonth_mono leap m m' : 1 <= m -> m < m' -> daysBeforeMonth leap m + monthLength leap m <= daysBeforeMonth leap m'.
Proof.
  intros Hm Hlt. replace m' with (m + 1 + Z.of_nat (Z.to_nat (m' - m - 1))) by lia.
  induction (Z.to_nat (m' - m - 1)) as [|k IH].
  - rewrite Z.add_0_r, daysBeforeMonth_succ by lia. lia.
  - replace (m + 1 + Z.of_nat (S k)) with (m + 1 + Z.of_nat k + 1) by lia.
    rewrite daysBeforeMonth_succ by lia. pose proof (monthLength_pos leap (m + 1 + Z.of_nat k)). lia.
Qed.

Lemma daysBeforeMonth_1 leap : daysBeforeMonth leap 1 = 0.
Proof. by destruct leap. Qed.
Lemma daysBeforeMonth_13 leap : daysBeforeMonth leap 13 = if leap then 366 else 365.
Proof. by destruct leap. Qed.

(** A date lies within its year. *)
Lemma civil_year y m d : validCivil y m d ->
  yearStart (y - 1970) <= civil y m d < yearStart (y - 1970 + 1).
Proof.
  intros [Hm Hd]. rewrite yearStart_succ. unfold civil, yearStart, yearLength.
  replace (1970 + (y - 1970)) with y by lia.
  pose proof (daysBeforeMonth_mono (isLeapYear y) m 13 ltac:(lia) ltac:(lia)) as H13. rewrite daysBeforeMonth_13 in H13.
  destruct (decide (m = 1)) as [->|].
  - rewrite daysBeforeMonth_1 in *. destruct (isLeapYear y); lia.
  - pose proof (daysBeforeMonth_mono (isLeapYear y) 1 m ltac:(lia) ltac:(lia)) as H1.
    pose proof (monthLength_pos (isLeapYear y) 1). rewrite daysBeforeMonth_1 in H1. destruct (isLeapYear y); lia.
Qed.

Lemma yearStart_mono k k' : k <= k' -> yearStart k <= yearStart k'.
Proof. intros H. unfold yearStart, daysBeforeYear. lia. Qed.

Lemma civil_inj y m d y' m' d' :
  validCivil y m d -> validCivil y' m' d' -> civil y m d = civil y' m' d' -> (y, m, d) = (y', m', d').
Proof.
  intros H H' E. pose proof (civil_year _ _ _ H) as Hy. pose proof (civil_year _ _ _ H') as Hy'.
  assert (y = y').
  { destruct (Z.lt_trichotomy y y') as [Hlt|[?|Hlt]]; [|done|].
    - pose proof (yearStart_mono (y - 1970 + 1) (y' - 1970)). lia.
    - pose proof (yearStart_mono (y' - 1970 + 1) (y - 1970)). lia. }
  subst y'. destruct H as [Hm Hd], H' as [Hm' Hd']. unfold civil in E.
  assert (m = m').
  { destruct (Z.lt_trichotomy m m') as [Hlt|[?|Hlt]]; [|done|].
    - pose proof (daysBeforeMonth_mono (isLeapYear y) m m'). lia.
    - pose proof (daysBeforeMonth_mono (isLeapYear y) m' m). lia. }
  subst m'. f_equal. lia.
Qed.

Definition yearInRange (y : Z) : Prop := MIN_YEAR <= y <= MAX_YEAR.

Lemma isValid_spec y m d :
  exists b, isValid y m d = Ok b /\ (b = true <-> yearInRange y /\ validCivil y m d).
Proof.
  unfold isValid, yearInRange, validCivil.
  destruct (Z.ltb_spec m 1), (Z.ltb_spec 12 m); cbn [orb]; try (exists false; split; [done|split; [done|lia]]).
  destruct (Z.ltb_spec y MIN_YEAR), (Z.ltb_spec MAX_YEAR y); cbn [orb]; try (exists false; split; [done|split; [done|lia]]).
  destruct (Z.ltb_spec d 1); [exists false; split; [done|split; [done|lia]]|].
  fold (lengths (isLeapYear y)). rewrite lengthTable by lia. cbn [obind].
  eexists. split; [done|]. rewrite Z.leb_le. lia.
Qed.

(** The days of every valid date fit in 32 bits. *)
Lemma civil_range y m d : yearInRange y -> validCivil y m d -> - 150000000 < civil y m d < 150000000.
Proof.
  intros [H1 H2] H. pose proof (civil_year _ _ _ H) as Hy. unfold MIN_YEAR, MAX_YEAR in *.
  pose proof (yearStart_mono (-292277) (y - 1970)). pose proof (yearStart_mono (y - 1970 + 1) 292278).
  change (yearStart (-292277)) with (-106751981) in *. change (yearStart 292278) with 106752347 in *. lia.
Qed.

Lemma fromDate_valid y m d : yearInRange y -> validCivil y m d -> fromDate y m d = Ok (civil y m d).
Proof.
  intros Hr Hv. destruct (isValid_spec y m d) as (b & Eb & Hb). unfold fromDate. rewrite Eb. cbn [obind].
  assert (b = true) as -> by (by apply Hb). cbn [negb].
  pose proof (civil_range y m d Hr Hv) as Hrange. unfold yearInRange, MIN_YEAR, MAX_YEAR, YEAR_INTERVAL in *.
  set (fuel := Z.to_nat _). assert (Hfuel : Z.abs (y - 1970) / 400 + 1 = Z.of_nat fuel) by (subst fuel; lia).
  clearbody fuel. rewrite yearUp_spec by lia. cbn [obind].
  set (k := (y - 1970) mod 400). set (j := (y - 1970) / 400).
  assert (Hy : y = 1970 + k + 400 * j) by (subst k j; lia). assert (Hk : 0 <= k < 400) by (subst k; lia).
  assert (Hdown : (let '(year, n) := if y <? 1970 then (1970 + k, 0 + 146097 * j) else (y, 0) in yearDown fuel year n) =
                  Ok (1970 + k, 146097 * j)).
  { destruct (Z.ltb_spec y 1970); rewrite yearDown_spec by lia; do 2 f_equal; lia. }
  destruct (if y <? 1970 then _ else _) as [y1 n1]. rewrite Hdown. cbn [obind].
  replace (1970 + k - 1970) with k by lia. rewrite yearTable by lia. cbn [obind].
  assert (Hleap : isLeapYear (1970 + k) = isLeapYear y) by (by rewrite Hy, isLeapYear_interval).
  rewrite Hleap. fold (cumulative (isLeapYear y)). destruct Hv as [Hm Hd].
  rewrite cumulativeTable by lia.
  pose proof (yearStart_interval k j) as Hint. pose proof (monthLength_pos (isLeapYear y) m).
  assert (Hmb : 0 <= daysBeforeMonth (isLeapYear y) m <= 366).
  { pose proof (daysBeforeMonth_mono (isLeapYear y) m 13 ltac:(lia) ltac:(lia)) as H13. rewrite daysBeforeMonth_13 in H13.
    destruct (decide (m = 1)) as [->|]; [rewrite daysBeforeMonth_1; lia|].
    pose proof (daysBeforeMonth_mono (isLeapYear y) 1 m ltac:(lia) ltac:(lia)) as H1. rewrite daysBeforeMonth_1 in H1.
    pose proof (monthLength_pos (isLeapYear y) 1). destruct (isLeapYear y); lia. }
  assert (Hc : civil y m d = 146097 * j + yearStart k + daysBeforeMonth (isLeapYear y) m + (d - 1)).
  { unfold civil. unfold yearStart in *. rewrite <- Z.add_assoc in Hy. rewrite <- Hy in Hint. lia. }
  rewrite !i32_ok by lia. cbn [obind]. rewrite i32_ok by lia. cbn [obind]. rewrite i32_ok by lia. by rewrite Hc.
Qed.

Lemma fromDate_invalid y m d : ~ (yearInRange y /\ validCivil y m d) -> fromDate y m d = Err (outOfRange y m d).
Proof.
  intros H. destruct (isValid_spec y m d) as (b & Eb & Hb). unfold fromDate. rewrite Eb. cbn [obind].
  destruct b; [|done]. by destruct H; apply Hb.
Qed.

Lemma convert_civil y m d : yearInRange y -> validCivil y m d -> convert (civil y m d) = Ok (y, m, d).
Proof.
  intros Hr Hv. pose proof (civil_range _ _ _ Hr Hv).
  destruct (convert_spec (civil y m d)) as (y' & m' & d' & E & Hv' & Hc); [lia|].
  rewrite E. f_equal. by apply civil_inj.
Qed.

(** C39. Every 32-bit number of days is a date of the proleptic Gregorian calendar, and
    [convert] finds it, without leaving a table or overflowing; [fromDate] counts the days of
    exactly the valid dates from year -290307 to 294247 and rejects all others; and each
    undoes the other. *)
Theorem dates_are_calendar :
  (forall n, - 2 ^ 31 <= n < 2 ^ 31 ->
     exists y m d, convert n = Ok (y, m, d) /\ validCivil y m d /\ civil y m d = n /\
       (yearInRange y -> fromDate y m d = Ok n)) /\
  (forall y m d, yearInRange y -> validCivil y m d ->
     fromDate y m d = Ok (civil y m d) /\ convert (civil y m d) = Ok (y, m, d)) /\
  (forall y m d, ~ (yearInRange y /\ validCivil y m d) -> fromDate y m d = Err (outOfRange y m d)).
Proof.
  split_and!.
  - intros n Hn. destruct (convert_spec n) as (y & m & d & E & Hv & Hc); [lia|].
    exists y, m, d. split_and!; try done. intros Hr. rewrite fromDate_valid by done. by rewrite Hc.
  - intros y m d Hr Hv. split; [by apply fromDate_valid|by apply convert_civil].
  - apply fromDate_invalid.
Qed.

(** ** Months, weeks and parts *)

(** The date [k] months later: the months of all years counted from year 0, the day cut to
    the length of the month it falls in. *)
Definition monthsLater (y m d k : Z) : Z * Z * Z :=
  let total := 12 * y + (m - 1) + k in
  let y' := total / 12 in
  let m' := total mod 12 + 1 in
  (y', m', Z.min d (monthLength (isLeapYear y') m')).

Lemma addMonths_spec y m d k :
  yearInRange y -> validCivil y m d -> - 2147483648 <= k < 2147483648 ->
  addMonths (civil y m d) k =
    let '(y', m', d') := monthsLater y m d k in
    if (MIN_YEAR <=? y') && (y' <=? MAX_YEAR) then Ok (civil y' m' d') else Err (outOfRange y' m' d').
Proof.
  intros Hr Hv Hk. unfold addMonths.
  rewrite (convert_civil y m d Hr Hv). cbn [obind].
  destruct Hv as [Hm Hd]. pose proof (monthLength_pos (isLeapYear y) m).
  unfold yearInRange, MIN_YEAR, MAX_YEAR, MONTHS_PER_YEAR in *.
  rewrite i32_ok by lia. cbn [obind]. rewrite i32_ok by lia. cbn [obind].
  set (total := 12 * y + (m - 1) + k).
  assert (Hpair : (if 12 <? m + (k - k ÷ 12 * 12) then (y + k ÷ 12 + 1, m + (k - k ÷ 12 * 12) - 12)
     else if m + (k - k ÷ 12 * 12) <=? 0 then (y + k ÷ 12 - 1, m + (k - k ÷ 12 * 12) + 12)
     else (y + k ÷ 12, m + (k - k ÷ 12 * 12))) = (total / 12, total mod 12 + 1)).
  { subst total. destruct (Z.ltb_spec 12 (m + (k - k ÷ 12 * 12))); [f_equal; lia|].
    destruct (Z.leb_spec (m + (k - k ÷ 12 * 12)) 0); f_equal; lia. }
  rewrite Hpair. unfold monthsLater. fold total.
  set (y' := total / 12). set (m' := total mod 12 + 1). assert (Hm' : 1 <= m' <= 12) by (subst m'; lia).
  clearbody y' m'. unfold monthDays. rewrite assert_true by (rewrite andb_true_iff, !Z.leb_le; lia). cbn [obind].
  fold (lengths (isLeapYear y')). rewrite lengthTable by done. cbn [obind].
  pose proof (monthLength_pos (isLeapYear y') m').
  replace (if monthLength (isLeapYear y') m' <? d then monthLength (isLeapYear y') m' else d)
    with (Z.min d (monthLength (isLeapYear y') m')) by (destruct (Z.ltb_spec (monthLength (isLeapYear y') m') d); lia).
  destruct (_ && _) eqn:E.
  - rewrite andb_true_iff, !Z.leb_le in E. apply fromDate_valid; [done|]. split; lia.
  - apply fromDate_invalid. intros [[? ?] _]. unfold MIN_YEAR, MAX_YEAR in *.
    rewrite andb_false_iff, !Z.leb_gt in E. lia.
Qed.

Lemma civil_next_month y m : 1 <= m <= 12 ->
  civil (y + m ÷ 12) (Z.rem m 12 + 1) 1 = civil y m (monthLength (isLeapYear y) m) + 1.
Proof.
  intros Hm. destruct (decide (m = 12)) as [->|Hne].
  - change (12 ÷ 12) with 1. change (Z.rem 12 12 + 1) with 1. unfold civil.
    rewrite daysBeforeMonth_1. pose proof (daysBeforeMonth_succ (isLeapYear y) 12 ltac:(lia)) as H.
    change (12 + 1) with 13 in H. rewrite daysBeforeMonth_13 in H.
    pose proof (yearStart_succ (y - 1970)) as Hs. unfold yearStart, yearLength in Hs.
    replace (1970 + (y - 1970)) with y in Hs by lia. replace (1970 + (y - 1970 + 1)) with (y + 1) in Hs by lia.
    destruct (isLeapYear y); lia.
  - rewrite Z.quot_small, Z.rem_small, Z.add_0_r by lia. unfold civil. rewrite daysBeforeMonth_succ by lia. lia.
Qed.

(** Adding months to a date goes to the same day of that month, or to its last day when
    the month is shorter, and fails exactly when the year leaves the supported range;
    [getLastDay] is, in all
    years but the last, the last day of the date's month. *)
Theorem months_and_last_day y m d k :
  yearInRange y -> validCivil y m d -> - 2 ^ 31 <= k < 2 ^ 31 ->
  (let '(y', m', d') := monthsLater y m d k in
   validCivil y' m' d' /\
   (k <> 0 -> addInterval (civil y m d) (mkInterval k 0 0) =
      if (MIN_YEAR <=? y') && (y' <=? MAX_YEAR) then Ok (civil y' m' d') else Err (outOfRange y' m' d'))) /\
  (y < MAX_YEAR -> getLastDay (civil y m d) = Ok (civil y m (monthLength (isLeapYear y) m))).
Proof.
  intros Hr Hv Hk. pose proof Hv as [Hm Hd]. split.
  - pose proof (addMonths_spec y m d k Hr Hv ltac:(lia)) as Hadd.
    unfold monthsLater in *. set (total := 12 * y + (m - 1) + k) in *. cbn zeta in *. split.
    + pose proof (monthLength_pos (isLeapYear (total / 12)) (total mod 12 + 1)). split; lia.
    + intros Hne. unfold addInterval. cbn [months days micros]. rewrite (proj2 (Z.eqb_neq _ _) Hne).
      cbn [negb]. rewrite Hadd. by destruct (_ && _).
  - intros Hmax. unfold getLastDay. rewrite (convert_civil y m d Hr Hv). cbn [obind].
    assert (Hr' : yearInRange (y + m ÷ 12)) by (unfold yearInRange in *; lia).
    assert (Hv' : validCivil (y + m ÷ 12) (Z.rem m 12 + 1) 1).
    { split; [lia|]. pose proof (monthLength_pos (isLeapYear (y + m ÷ 12)) (Z.rem m 12 + 1)). lia. }
    rewrite fromDate_valid by done. cbn [obind]. unfold subDays. rewrite civil_next_month by done.
    pose proof (monthLength_pos (isLeapYear y) m).
    pose proof (civil_range y m (monthLength (isLeapYear y) m) Hr ltac:(split; lia)).
    rewrite i32_ok by lia. f_equal. lia.
Qed.

(** 1970-01-01 is a Thursday, and the days of the week follow one another. *)
Lemma dayOfWeek_spec n : - 2147483644 <= n < 2147483644 -> dayOfWeek n = Ok ((n + 4) mod 7).
Proof.
  intros Hn. unfold dayOfWeek. destruct (Z.ltb_spec n 0); rewrite ?i32_ok by lia; cbn [obind]; rewrite ?i32_ok by lia;
    cbn [obind]; f_equal; lia.
Qed.

(** ** The properties at concrete inputs *)

Lemma dates_are_calendar_witness :
  convert (-719468) = Ok (0, 3, 1) /\ fromDate 2000 2 29 = Ok 11016 /\ convert 11016 = Ok (2000, 2, 29).
Proof.
  destruct dates_are_calendar as (H1 & H2 & _).
  destruct (H2 2000 2 29) as [Ha Hb]; [split; vm_compute; discriminate|split; vm_compute; split; discriminate|].
  destruct (H2 0 3 1) as [_ Hc]; [split; vm_compute; discriminate|split; vm_compute; split; discriminate|].
  split_and!; [exact Hc|exact Ha|exact Hb].
Defined.

Lemma months_and_last_day_witness :
  addInterval (civil 2020 1 31) (mkInterval 1 0 0) = Ok (civil 2020 2 29) /\
  getLastDay (civil 2020 1 31) = Ok (civil 2020 1 31).
Proof.
  destruct (months_and_last_day 2020 1 31 1) as [[_ H] Hl].
  - split; vm_compute; discriminate.
  - split; vm_compute; split; discriminate.
  - split; vm_compute; [discriminate|reflexivity].
  - split; [apply H; discriminate|apply Hl; reflexivity].
Defined.

(** ** A part of a date changes the date *)

(** Asking for the year of 1900-01-01 leaves the caller's date at 2300-01-01. *)
Theorem getDatePart_changes_date :
  getDatePart YEAR (civil 1900 1 1) = (Ok 1900, civil 2300 1 1).
Proof. vm_compute. reflexivity. Qed.

(** The range in which it does not. *)
Theorem getDatePart_year_unchanged n :
  0 <= n < DAYS_PER_YEAR_INTERVAL -> exists y, getDatePart YEAR n = (Ok y, n).
Proof.
  unfold DAYS_PER_YEAR_INTERVAL. intros Hn. unfold getDatePart, sbind, sget, slift.
  destruct (convert_spec n) as (y & m & d & -> & _); [lia|].
  destruct (extractYearOffset_spec n) as (k & -> & _); [lia|].
  rewrite Z.mod_small by lia. by eexists.
Qed.
