(* ===== verification/Timestamp.v ===== *)
(** * Times and timestamps (src/common/types/dtime_t.cpp, src/common/types/timestamp_t.cpp,
      src/include/common/types/interval_t.h)

    A time is a number of microseconds since midnight, a timestamp one since
    1970-01-01 00:00:00, both 64-bit integers. *)

From S2P Require Import Prelude Date.
From stdpp Require Import base list strings numbers pretty.
Local Open Scope Z_scope.
Ltac Zify.zify_post_hook ::= Z.to_euclidean_division_equations.

(** The result of signed 64-bit arithmetic: an overflow is undefined. *)
Definition i64 (z : Z) : outcome Z :=
  if (- 2 ^ 63 <=? z) && (z <? 2 ^ 63) then Ok z else Err UndefinedBehaviour.

Definition MINS_PER_HOUR : Z := 60.
Definition SECS_PER_MINUTE : Z := 60.
Definition MICROS_PER_MSEC : Z := 1000.
Definition MICROS_PER_SEC : Z := 1000000.
Definition MICROS_PER_MINUTE : Z := 60000000.
Definition MICROS_PER_HOUR : Z := 3600000000.

(** ** Times *)

Definition timeIsValid (hour minute second microseconds : Z) : bool :=
  negb ((23 <? hour) || (hour <? 0) || (59 <? minute) || (minute <? 0) || (59 <? second) ||
        (second <? 0) || (999999 <? microseconds) || (microseconds <? 0)).
Definition fromTimeInternal (hour minute second microseconds : Z) : Z :=
  let result := hour in
  let result := result * MINS_PER_HOUR + minute in
  let result := result * SECS_PER_MINUTE + second in
  result * MICROS_PER_SEC + microseconds.
Definition timeOutOfRange (hour minute second microseconds : Z) : exn :=
  ConversionException ("Time field value out of range: " +:+ pretty hour +:+ ":" +:+ pretty minute
    +:+ ":" +:+ pretty second +:+ "[." +:+ pretty microseconds +:+ "].").
Definition fromTime (hour minute second microseconds : Z) : outcome Z :=
  if negb (timeIsValid hour minute second microseconds)
  then Err (timeOutOfRange hour minute second microseconds)
  else Ok (fromTimeInternal hour minute second microseconds).
(** [Time::convert]: hours, minutes, seconds, microseconds. *)
Definition timeConvert (dtime : Z) : Z * Z * Z * Z :=
  let time := dtime in
  let hour := wrapS 32 (time ÷ MICROS_PER_HOUR) in
  let time := time - hour * MICROS_PER_HOUR in
  let min := wrapS 32 (time ÷ MICROS_PER_MINUTE) in
  let time := time - min * MICROS_PER_MINUTE in
  let sec := wrapS 32 (time ÷ MICROS_PER_SEC) in
  let time := time - sec * MICROS_PER_SEC in
  (hour, min, sec, wrapS 32 time).

(** ** Timestamps *)

Definition b2z (b : bool) : Z := if b then 1 else 0.
Definition getDate (ts : Z) : Z := (ts + b2z (ts <? 0)) ÷ MICROS_PER_DAY - b2z (ts <? 0).
Definition getTime (ts : Z) : Z := ts - getDate ts * MICROS_PER_DAY.
Definition invalidFormat : exn := ConversionException "Invalid date or time format".
Definition fromDateTime (date time : Z) : outcome Z :=
  let* p := Date.convert date in
  let '(year, month, day) := p in
  let '(hour, minute, second, microsecond) := timeConvert time in
  let* valid := isValid year month day in
  if negb valid || negb (timeIsValid hour minute second microsecond) then Err invalidFormat
  else
    let* d := i64 (date * MICROS_PER_DAY) in
    i64 (d + time).
Definition timestampConvert (ts : Z) : Z * Z := (getDate ts, getTime ts).

(** [timestamp_t::operator+], [operator-] of an interval and of a timestamp. *)
Definition timestampAdd (ts : Z) (i : interval_t) : outcome Z :=
  let '(date, time) := timestampConvert ts in
  let* date := addInterval date i in
  let diff := micros i - micros i ÷ MICROS_PER_DAY * MICROS_PER_DAY in
  let time := time + diff in
  if MICROS_PER_DAY <=? time then
    let* date := i32 (date + 1) in fromDateTime date (time - MICROS_PER_DAY)
  else if time <? 0 then
    let* date := i32 (date - 1) in fromDateTime date (time + MICROS_PER_DAY)
  else fromDateTime date time.
Definition timestampSub (ts : Z) (i : interval_t) : outcome Z :=
  let* m := i32 (- months i) in
  let* d := i32 (- days i) in
  let* us := i64 (- micros i) in
  timestampAdd ts (mkInterval m d us).
Definition timestampDiff (lhs rhs : Z) : outcome interval_t :=
  let* d := i64 (lhs - rhs) in
  let* diff := i64 (Z.abs d) in
  let days := wrapS 32 (diff / MICROS_PER_DAY) in
  let us := diff mod MICROS_PER_DAY in
  Ok (if lhs <? rhs then mkInterval 0 (- days) (- us) else mkInterval 0 days us).

(** [function::Multiply::operation] with a constant argument: its type is [const int64_t], so
    that the call is an instance of the template of multiply.h, which multiplies, and not of
    its specialization for [int64_t], which would throw on an overflow. *)
Definition multiplyInt64 (l r : Z) : outcome Z := i64 (l * r).
Definition fromEpochMilliSeconds (ms : Z) : outcome Z := multiplyInt64 ms MICROS_PER_MSEC.
Definition fromEpochSeconds (sec : Z) : outcome Z := multiplyInt64 sec MICROS_PER_SEC.
Definition fromEpochNanoSeconds (ns : Z) : Z := ns ÷ 1000.
Definition getEpochNanoSeconds (ts : Z) : outcome Z := multiplyInt64 ts NANOS_PER_MICRO.
Definition getEpochMilliSeconds (ts : Z) : Z := ts ÷ MICROS_PER_MSEC.
Definition getEpochSeconds (ts : Z) : Z := ts ÷ MICROS_PER_SEC.

(** The date a part of a timestamp is taken from is a local variable, so that the change
    [getDatePart] makes to it is not seen. *)
Definition getTimestampPart (specifier : DatePartSpecifier) (ts : Z) : outcome Z :=
  match specifier with
  | MICROSECOND => Ok (Z.rem (getTime ts) MICROS_PER_MINUTE)
  | MILLISECOND => Ok (Z.rem (getTime ts) MICROS_PER_MINUTE ÷ MICROS_PER_MSEC)
  | SECOND => Ok (Z.rem (getTime ts) MICROS_PER_MINUTE ÷ MICROS_PER_SEC)
  | MINUTE => Ok (Z.rem (getTime ts) MICROS_PER_HOUR ÷ MICROS_PER_MINUTE)
  | HOUR => Ok (getTime ts ÷ MICROS_PER_HOUR)
  | _ => fst (getDatePart specifier (getDate ts))
  end.
Definition truncTimestamp (specifier : DatePartSpecifier) (ts : Z) : outcome Z :=
  let '(date, time) := timestampConvert ts in
  let '(hour, min, sec, us) := timeConvert time in
  match specifier with
  | MICROSECOND => Ok ts
  | MILLISECOND =>
      let us := us - Z.rem us MICROS_PER_MSEC in
      let* time := fromTime hour min sec us in fromDateTime date time
  | SECOND => let* time := fromTime hour min sec 0 in fromDateTime date time
  | MINUTE => let* time := fromTime hour min 0 0 in fromDateTime date time
  | HOUR => let* time := fromTime hour 0 0 0 in fromDateTime date time
  | _ =>
      let* d := fst (Date.trunc specifier (getDate ts)) in
      fromDateTime d 0
  end.

(** ** What they compute *)

Lemma i64_ok z : - 9223372036854775808 <= z < 9223372036854775808 -> i64 z = Ok z.
Proof.
  intros H. unfold i64. change (2 ^ 63) with 9223372036854775808.
  by rewrite (proj2 (Z.leb_le _ _)), (proj2 (Z.ltb_lt _ _)) by lia.
Qed.

Lemma wrapS32_ok z : - 2147483648 <= z < 2147483648 -> wrapS 32 z = z.
Proof. intros H. apply wrapS_id; [lia|]. exact H. Qed.

Definition inDay (t : Z) : Prop := 0 <= t < MICROS_PER_DAY.

Lemma getDate_floor ts : getDate ts = ts / MICROS_PER_DAY.
Proof.
  unfold getDate, b2z. change MICROS_PER_DAY with 86400000000. destruct (Z.ltb_spec ts 0); lia.
Qed.
Lemma getTime_floor ts : getTime ts = ts mod MICROS_PER_DAY /\ inDay (getTime ts).
Proof. unfold getTime, inDay. rewrite getDate_floor. change MICROS_PER_DAY with 86400000000. lia. Qed.

Lemma timeIsValid_true h m s us :
  0 <= h < 24 -> 0 <= m < 60 -> 0 <= s < 60 -> 0 <= us < 1000000 -> timeIsValid h m s us = true.
Proof. intros. unfold timeIsValid. lia. Qed.

(** The parts of a time of the day, and back. *)
Lemma timeConvert_spec t : inDay t ->
  exists h m s us, timeConvert t = (h, m, s, us) /\ 0 <= h < 24 /\ 0 <= m < 60 /\ 0 <= s < 60 /\
    0 <= us < 1000000 /\ fromTimeInternal h m s us = t /\ timeIsValid h m s us = true.
Proof.
  unfold inDay, timeConvert, MICROS_PER_HOUR, MICROS_PER_MINUTE, MICROS_PER_SEC. change MICROS_PER_DAY with 86400000000.
  intros Ht. rewrite (wrapS32_ok (t ÷ 3600000000)) by lia.
  set (r := t - t ÷ 3600000000 * 3600000000). assert (Hr : 0 <= r < 3600000000) by (subst r; lia).
  rewrite (wrapS32_ok (r ÷ 60000000)) by lia.
  set (r' := r - r ÷ 60000000 * 60000000). assert (Hr' : 0 <= r' < 60000000) by (subst r'; lia).
  rewrite (wrapS32_ok (r' ÷ 1000000)), wrapS32_ok by lia.
  eexists _, _, _, _. split; [reflexivity|]. split_and!; try lia.
  - unfold fromTimeInternal, MINS_PER_HOUR, SECS_PER_MINUTE, MICROS_PER_SEC. subst r' r. lia.
  - apply timeIsValid_true; lia.
Qed.

(** The days of the calendar years the code accepts. *)
Definition validDate (date : Z) : Prop :=
  - 2147483648 <= date < 2147483648 /\ forall y m d, Date.convert date = Ok (y, m, d) -> yearInRange y.

Lemma fromDateTime_spec date time :
  validDate date -> inDay time ->
  fromDateTime date time = (let* d := i64 (date * MICROS_PER_DAY) in i64 (d + time)).
Proof.
  intros [Hr Hy] Ht. unfold fromDateTime.
  destruct (convert_spec date Hr) as (y & m & d & E & Hv & Hc). rewrite E. cbn [obind].
  destruct (timeConvert_spec time Ht) as (h & mi & s & us & -> & _ & _ & _ & _ & _ & Hvalid).
  destruct (isValid_spec y m d) as (b & -> & Hb). cbn [obind].
  assert (b = true) as -> by (apply Hb; split; [by eapply Hy|done]). by rewrite Hvalid.
Qed.

(** The first day of the first year and the last of the last one. *)
Definition MIN_DAY : Z := -106751981.
Definition MAX_DAY : Z := 106752346.

Lemma validDate_range date : MIN_DAY <= date <= MAX_DAY -> validDate date.
Proof.
  unfold MIN_DAY, MAX_DAY. intros H. split; [lia|]. intros y m d E.
  destruct (convert_spec date) as (y' & m' & d' & E' & Hv & Hc); [lia|].
  assert ((y, m, d) = (y', m', d')) as [= -> -> ->] by congruence.
  pose proof (civil_year _ _ _ Hv) as Hy. rewrite Hc in Hy. unfold yearInRange, MIN_YEAR, MAX_YEAR.
  change (-106751981) with (yearStart (-292277)) in H. change 106752346 with (yearStart 292278 - 1) in H.
  split; apply Z.nlt_ge; intros Hlt.
  - pose proof (yearStart_mono (y' - 1970 + 1) (-292277)). lia.
  - pose proof (yearStart_mono 292278 (y' - 1970)). lia.
Qed.

Lemma invalidDate_range date : - 2147483648 <= date < MIN_DAY -> forall time, fromDateTime date time = Err invalidFormat.
Proof.
  unfold MIN_DAY. intros H time. unfold fromDateTime.
  destruct (convert_spec date) as (y & m & d & E & Hv & Hc); [lia|]. rewrite E. cbn [obind].
  destruct (timeConvert time) as [[[h mi] s] us]. destruct (isValid_spec y m d) as (b & -> & Hb). cbn [obind].
  destruct b; [exfalso|done]. destruct (proj1 Hb eq_refl) as [[Hy _] _]. unfold MIN_YEAR in Hy.
  pose proof (civil_year _ _ _ Hv) as Hs. rewrite Hc in Hs.
  pose proof (yearStart_mono (-292277) (y - 1970)) as Hm. change (yearStart (-292277)) with (-106751981) in Hm. lia.
Qed.

Definition MIN_TIMESTAMP : Z := MIN_DAY * MICROS_PER_DAY.
Definition isTimestamp (ts : Z) : Prop := MIN_TIMESTAMP <= ts < 2 ^ 63.

Lemma fromDateTime_ts ts :
  isTimestamp ts -> fromDateTime (ts / MICROS_PER_DAY) (ts mod MICROS_PER_DAY) = Ok ts.
Proof.
  unfold isTimestamp, MIN_TIMESTAMP. change (2 ^ 63) with 9223372036854775808.
  intros H. rewrite fromDateTime_spec.
  - change MICROS_PER_DAY with 86400000000 in *. unfold MIN_DAY in H.
    rewrite i64_ok by lia. cbn [obind]. rewrite i64_ok by lia. f_equal. lia.
  - apply validDate_range. change MICROS_PER_DAY with 86400000000 in *. unfold MIN_DAY, MAX_DAY in *. lia.
  - unfold inDay. change MICROS_PER_DAY with 86400000000. lia.
Qed.

(** Every 64-bit timestamp splits into the day it lies in and the time since midnight,
    also before 1970; putting the two together gives the timestamp back, or an error for the
    ones before the first supported year. *)
Theorem timestamp_split ts :
  - 2 ^ 63 <= ts < 2 ^ 63 ->
  timestampConvert ts = (ts / MICROS_PER_DAY, ts mod MICROS_PER_DAY) /\
  fromDateTime (getDate ts) (getTime ts) = if MIN_TIMESTAMP <=? ts then Ok ts else Err invalidFormat.
Proof.
  intros H. unfold timestampConvert. destruct (getTime_floor ts) as [-> _]. rewrite getDate_floor. split; [done|].
  destruct (Z.leb_spec MIN_TIMESTAMP ts) as [Hle|Hlt]; [apply fromDateTime_ts; split; [exact Hle|apply H]|].
  apply invalidDate_range. unfold MIN_TIMESTAMP in *. change (2 ^ 63) with 9223372036854775808 in H.
  change MICROS_PER_DAY with 86400000000 in *. unfold MIN_DAY in *. lia.
Qed.

Lemma addDays_run date i : months i = 0 -> - 2147483648 <= date < 2147483648 ->
  - 2147483648 <= date + days i < 2147483648 -> - 200000000 <= micros i ÷ MICROS_PER_DAY <= 200000000 ->
  - 2147483648 <= date + days i + micros i ÷ MICROS_PER_DAY < 2147483648 ->
  addInterval date i = Ok (date + days i + micros i ÷ MICROS_PER_DAY).
Proof.
  intros Hm Hdate Hd Hus Hall. unfold addInterval. rewrite Hm. cbn [negb Z.eqb obind].
  destruct (Z.eqb_spec (days i) 0) as [E|_]; cbn [negb obind].
  - rewrite E, Z.add_0_r in *. destruct (Z.eqb_spec (micros i) 0) as [->|_]; cbn [negb].
    + f_equal. change (0 ÷ MICROS_PER_DAY) with 0. lia.
    + by rewrite wrapS32_ok, i32_ok by lia.
  - rewrite i32_ok by lia. cbn [obind]. destruct (Z.eqb_spec (micros i) 0) as [->|_]; cbn [negb].
    + f_equal. change (0 ÷ MICROS_PER_DAY) with 0. lia.
    + by rewrite wrapS32_ok, i32_ok by lia.
Qed.

Lemma timestampAdd_exact ts i :
  isTimestamp ts -> months i = 0 -> - 2 ^ 63 <= micros i < 2 ^ 63 ->
  isTimestamp (ts + days i * MICROS_PER_DAY + micros i) ->
  timestampAdd ts i = Ok (ts + days i * MICROS_PER_DAY + micros i).
Proof.
  intros Hts Hm Hus Hsum. pose proof (fromDateTime_ts _ Hsum) as Hfrom.
  unfold timestampAdd, timestampConvert. rewrite getDate_floor. destruct (getTime_floor ts) as [-> _].
  set (total := ts + days i * MICROS_PER_DAY + micros i) in *.
  assert (Htot : total = ts + days i * MICROS_PER_DAY + micros i) by done. clearbody total.
  unfold isTimestamp, MIN_TIMESTAMP, MIN_DAY in *. change (2 ^ 63) with 9223372036854775808 in *.
  change MICROS_PER_DAY with 86400000000 in *.
  rewrite addDays_run by (try done; change MICROS_PER_DAY with 86400000000; lia). cbn [obind].
  change MICROS_PER_DAY with 86400000000.
  destruct (Z.leb_spec 86400000000 (ts mod 86400000000 + (micros i - micros i ÷ 86400000000 * 86400000000))).
  - rewrite i32_ok by lia. cbn [obind]. rewrite <- Hfrom. f_equal; lia.
  - destruct (Z.ltb_spec (ts mod 86400000000 + (micros i - micros i ÷ 86400000000 * 86400000000)) 0).
    + rewrite i32_ok by lia. cbn [obind]. rewrite <- Hfrom. f_equal; lia.
    + rewrite <- Hfrom. f_equal; lia.
Qed.

(** Adding an interval without months moves a timestamp by exactly its days and
    microseconds, whatever their signs, and the difference of two timestamps is the interval
    that leads from one to the other. *)
Theorem timestamp_intervals ts ts' i :
  isTimestamp ts -> isTimestamp ts' -> - 2 ^ 63 <= ts' - ts < 2 ^ 63 -> ts' - ts <> - 2 ^ 63 ->
  months i = 0 -> - 2 ^ 63 <= micros i < 2 ^ 63 ->
  (isTimestamp (ts + days i * MICROS_PER_DAY + micros i) ->
   timestampAdd ts i = Ok (ts + days i * MICROS_PER_DAY + micros i)) /\
  exists j, timestampDiff ts' ts = Ok j /\ months j = 0 /\ Z.abs (micros j) < MICROS_PER_DAY /\
    timestampAdd ts j = Ok ts'.
Proof.
  intros Hts Hts' Hd Hmin Hm Hus. split; [by apply timestampAdd_exact|].
  unfold timestampDiff. change (2 ^ 63) with 9223372036854775808 in *.
  rewrite i64_ok by lia. cbn [obind]. rewrite i64_ok by lia. cbn [obind].
  rewrite wrapS32_ok by (change MICROS_PER_DAY with 86400000000; lia).
  eexists. split; [reflexivity|].
  match goal with |- months ?x = 0 /\ _ => set (j := x) end.
  assert (Hj : months j = 0 /\ Z.abs (micros j) < MICROS_PER_DAY /\ days j * MICROS_PER_DAY + micros j = ts' - ts).
  { subst j. change MICROS_PER_DAY with 86400000000. destruct (Z.ltb_spec ts' ts); cbn; lia. }
  clearbody j. destruct Hj as (Hj1 & Hj2 & Hj3). split_and!; try done.
  assert (Hsum : ts + days j * MICROS_PER_DAY + micros j = ts') by lia.
  rewrite timestampAdd_exact; rewrite ?Hsum; try done. change MICROS_PER_DAY with 86400000000 in *.
  change (2 ^ 63) with 9223372036854775808. lia.
Qed.

(** The times of the day a truncation keeps. *)
Definition unitOf (specifier : DatePartSpecifier) : option Z :=
  match specifier with
  | MICROSECOND => Some 1
  | MILLISECOND => Some MICROS_PER_MSEC
  | SECOND => Some MICROS_PER_SEC
  | MINUTE => Some MICROS_PER_MINUTE
  | HOUR => Some MICROS_PER_HOUR
  | _ => None
  end.

Lemma fromTime_valid h m s us :
  0 <= h < 24 -> 0 <= m < 60 -> 0 <= s < 60 -> 0 <= us < 1000000 ->
  fromTime h m s us = Ok (fromTimeInternal h m s us).
Proof. intros. unfold fromTime. by rewrite timeIsValid_true. Qed.

Lemma fromTimeInternal_value h m s us : fromTimeInternal h m s us = ((h * 60 + m) * 60 + s) * 1000000 + us.
Proof. reflexivity. Qed.

Lemma fromDateTime_day ts t : isTimestamp ts -> 0 <= t <= ts mod MICROS_PER_DAY ->
  fromDateTime (ts / MICROS_PER_DAY) t = Ok (ts - ts mod MICROS_PER_DAY + t).
Proof.
  intros Hts Ht. unfold isTimestamp, MIN_TIMESTAMP, MIN_DAY in *. change (2 ^ 63) with 9223372036854775808 in *.
  rewrite <- (fromDateTime_ts (ts - ts mod MICROS_PER_DAY + t)).
  - change MICROS_PER_DAY with 86400000000 in *. f_equal; lia.
  - unfold isTimestamp, MIN_TIMESTAMP, MIN_DAY in *. change (2 ^ 63) with 9223372036854775808 in *.
    change MICROS_PER_DAY with 86400000000 in *. lia.
Qed.

(** Truncating a timestamp to a unit of the day rounds it down to a multiple of that
    unit, before and after 1970. *)
Theorem timestamp_trunc ts specifier unit :
  isTimestamp ts -> unitOf specifier = Some unit ->
  truncTimestamp specifier ts = Ok (ts - ts mod unit).
Proof.
  intros Hts Hu. unfold truncTimestamp, timestampConvert. rewrite getDate_floor.
  destruct (getTime_floor ts) as [Et Hin]. rewrite Et in *.
  destruct (timeConvert_spec _ Hin) as (h & m & s & us & -> & Hh & Hm & Hs & Hus & Hsum & _).
  rewrite fromTimeInternal_value in Hsum. unfold inDay in Hin. change MICROS_PER_DAY with 86400000000 in *.
  destruct specifier; try done; injection Hu as <-;
    unfold MICROS_PER_MSEC, MICROS_PER_SEC, MICROS_PER_MINUTE, MICROS_PER_HOUR.
  - rewrite Z.mod_1_r, Z.sub_0_r. done.
  - rewrite fromTime_valid by lia. cbn [obind]. rewrite fromTimeInternal_value.
    setoid_rewrite (fromDateTime_day ts); [f_equal|done|]; change MICROS_PER_DAY with 86400000000; lia.
  - rewrite fromTime_valid by lia. cbn [obind]. rewrite fromTimeInternal_value.
    setoid_rewrite (fromDateTime_day ts); [f_equal|done|]; change MICROS_PER_DAY with 86400000000; lia.
  - rewrite fromTime_valid by lia. cbn [obind]. rewrite fromTimeInternal_value.
    setoid_rewrite (fromDateTime_day ts); [f_equal|done|]; change MICROS_PER_DAY with 86400000000; lia.
  - rewrite fromTime_valid by lia. cbn [obind]. rewrite fromTimeInternal_value.
    setoid_rewrite (fromDateTime_day ts); [f_equal|done|]; change MICROS_PER_DAY with 86400000000; lia.
Qed.

(** ** The properties at concrete inputs *)

Lemma timestamp_split_witness :
  timestampConvert (-1) = (-1, 86399999999) /\ fromDateTime (-1) 86399999999 = Ok (-1).
Proof. apply (timestamp_split (-1)). split; vm_compute; [discriminate|reflexivity]. Defined.

Lemma timestamp_intervals_witness :
  timestampAdd 5 (mkInterval 0 (-1) (-6)) = Ok (-86400000001) /\
  exists j, timestampDiff (-1) 5 = Ok j /\ timestampAdd 5 j = Ok (-1).
Proof.
  destruct (timestamp_intervals 5 (-1) (mkInterval 0 (-1) (-6))) as [H (j & Hj & _ & _ & Hadd)].
  - split; vm_compute; [discriminate|reflexivity].
  - split; vm_compute; [discriminate|reflexivity].
  - split; vm_compute; [discriminate|reflexivity].
  - vm_compute. discriminate.
  - reflexivity.
  - split; vm_compute; [discriminate|reflexivity].
  - split; [apply H; split; vm_compute; [discriminate|reflexivity]|].
    exists j. split; [exact Hj|exact Hadd].
Defined.

Lemma timestamp_trunc_witness : truncTimestamp HOUR (-1) = Ok (-3600000000).
Proof. apply (timestamp_trunc (-1) HOUR 3600000000); [split; vm_compute; [discriminate|reflexivity]|reflexivity]. Defined.

(** ** An overflow that is not caught *)

(** The conversions from epochs multiply without the check of [Multiply::operation] on
    [int64_t]. *)
Theorem fromEpochSeconds_overflow : fromEpochSeconds (2 ^ 62) = Err UndefinedBehaviour.
Proof. vm_compute. reflexivity. Qed.
