(* ===== verification/DateText.v ===== *)
(** * Dates and timestamps as text (src/include/common/types/cast_helpers.h and the parsers
      of src/common/types/date_t.cpp, dtime_t.cpp and timestamp_t.cpp)

    A text is the list of its characters; a position in it is the list of the characters
    from there on, so that [pos < len] is a non-empty rest. *)

From S2P Require Import Prelude Date Timestamp.
From stdpp Require Import base list strings numbers pretty.
From Stdlib Require Import Ascii.
Local Open Scope Z_scope.
Ltac Zify.zify_post_hook ::= Z.to_euclidean_division_equations.

Definition text : Type := list ascii.
Definition ch (z : Z) : ascii := ascii_of_nat (Z.to_nat z).
Definition code (c : ascii) : Z := Z.of_nat (nat_of_ascii c).
Definition isDigit (c : ascii) : bool := (48 <=? code c) && (code c <=? 57).
Definition digitValue (c : ascii) : Z := code c - 48.
Definition isSpace (c : ascii) : bool := (code c =? 32) || ((9 <=? code c) && (code c <=? 13)).

(** ** Printing *)

Definition digits : text := String.list_ascii_of_string
  "00010203040506070809101112131415161718192021222324252627282930313233343536373839404142434445464748495051525354555657585960616263646566676869707172737475767778798081828384858687888990919293949596979899".
Definition charAt (l : text) (i : Z) : outcome ascii :=
  if 0 <=? i then match l !! Z.to_nat i with Some c => Ok c | None => Err UndefinedBehaviour end
  else Err UndefinedBehaviour.

(** [NumericHelper::FormatUnsigned] writes towards the front of the buffer: the characters
    after the one it has reached. *)
Fixpoint FormatUnsigned (fuel : nat) (value : Z) (written : text) : outcome text :=
  if 100 <=? value then
    match fuel with
    | O => Err UndefinedBehaviour
    | S fuel' =>
        let index := Z.rem value 100 * 2 in
        let* c1 := charAt digits (index + 1) in
        let* c0 := charAt digits index in
        FormatUnsigned fuel' (value ÷ 100) (c0 :: c1 :: written)
    end
  else if value <? 10 then Ok (ch (48 + value) :: written)
  else
    let* c1 := charAt digits (value * 2 + 1) in
    let* c0 := charAt digits (value * 2) in
    Ok (c0 :: c1 :: written).
(** [while (endptr > data) *--endptr = '0']; writing before the buffer is undefined. *)
Definition padZeros (width : nat) (written : text) : outcome text :=
  if (length written <=? width)%nat then Ok (replicate (width - length written) (ch 48) ++ written)
  else Err UndefinedBehaviour.

(** [TimeToStringCast::FormatTwoDigits] and the same code of [DateToStringCast::Format]. *)
Definition FormatTwoDigits (value : Z) : outcome text :=
  if value <? 10 then Ok [ch 48; ch (48 + value)]
  else
    let* c0 := charAt digits (value * 2) in
    let* c1 := charAt digits (value * 2 + 1) in
    Ok [c0; c1].

Definition BC_SUFFIX : text := String.list_ascii_of_string " (BC)".
Definition dash : ascii := ch 45.
Definition colon : ascii := ch 58.
Definition dot : ascii := ch 46.
Definition space : ascii := ch 32.

(** [DateToStringCast::Length] and [DateToStringCast::Format]. *)
Definition yearLengthOf (year : Z) : nat :=
  4 + (if 10000 <=? year then 1 else 0) + (if 100000 <=? year then 1 else 0) +
  (if 1000000 <=? year then 1 else 0) + (if 10000000 <=? year then 1 else 0).
Definition formatDate (year month day : Z) : outcome text :=
  let addBC := year <=? 0 in
  let year := if addBC then - year + 1 else year in
  let* y := FormatUnsigned 5 year [] in
  let* y := padZeros (yearLengthOf year) y in
  let* m := FormatTwoDigits month in
  let* d := FormatTwoDigits day in
  Ok (y ++ dash :: m ++ dash :: d ++ (if addBC then BC_SUFFIX else [])).
Definition dateToString (date : Z) : outcome text :=
  let* p := Date.convert date in
  let '(year, month, day) := p in
  formatDate year month day.

(** [TimeToStringCast::FormatMicros]: the six digits and the number of zeros at their end,
    the first digit not counted. *)
Fixpoint leadingZeros (l : text) : nat :=
  match l with
  | c :: l' => if bool_decide (c = ch 48) then S (leadingZeros l') else O
  | [] => O
  end.
Definition FormatMicros (us : Z) : outcome (text * nat) :=
  let* w := FormatUnsigned 5 us [] in
  let* w := padZeros 6 w in
  Ok (w, leadingZeros (rev (drop 1 w))).
Definition timeToString (time : Z) : outcome text :=
  let '(hour, min, sec, us) := timeConvert time in
  let* h := FormatTwoDigits hour in
  let* m := FormatTwoDigits min in
  let* s := FormatTwoDigits sec in
  let hms := h ++ colon :: m ++ colon :: s in
  if us =? 0 then Ok hms
  else
    let* p := FormatMicros us in
    let '(w, trailing_zeros) := p in
    Ok (hms ++ dot :: take (6 - trailing_zeros) w).
Definition timestampToString (ts : Z) : outcome text :=
  let '(date, time) := timestampConvert ts in
  let* d := dateToString date in
  let* t := timeToString time in
  Ok (d ++ space :: t).

(** ** Parsing *)

Fixpoint skipSpaces (rest : text) : text :=
  match rest with c :: rest' => if isSpace c then skipSpaces rest' else rest | [] => [] end.
Definition parseDoubleDigit (rest : text) : option (Z * text) :=
  match rest with
  | c :: rest1 =>
      if isDigit c then
        match rest1 with
        | c' :: rest2 =>
            if isDigit c' then Some (digitValue c' + digitValue c * 10, rest2)
            else Some (digitValue c, rest1)
        | [] => Some (digitValue c, rest1)
        end
      else None
  | [] => None
  end.
(** The loop over the digits of the year stops at the digit that exceeds the largest one. *)
Fixpoint parseYear (rest : text) (year : Z) : Z * text :=
  match rest with
  | c :: rest' =>
      if isDigit c then
        let year := digitValue c + year * 10 in
        if MAX_YEAR <? year then (year, rest) else parseYear rest' year
      else (year, rest)
  | [] => (year, [])
  end.
Definition isSeparator (c : ascii) : bool :=
  (code c =? 32) || (code c =? 45) || (code c =? 47) || (code c =? 92).

(** [Date::tryConvertDate]: [None] is [false]. *)
Definition tryConvertDate (buf : text) : outcome (option Z) :=
  match skipSpaces buf with
  | [] => Ok None
  | (c :: _) as rest =>
      if negb (isDigit c) then Ok None
      else
        let '(year, rest) := parseYear rest 0 in
        match rest with
        | [] => Ok None
        | sep :: rest =>
            if negb (isSeparator sep) then Ok None
            else
              match parseDoubleDigit rest with
              | None | Some (_, []) => Ok None
              | Some (month, c :: rest) =>
                  if negb (bool_decide (c = sep)) then Ok None
                  else
                    match parseDoubleDigit rest with
                    | None => Ok None
                    | Some (day, rest) =>
                        match skipSpaces rest with
                        | _ :: _ => Ok None
                        | [] =>
                            let* valid := isValid year month day in
                            if negb valid then Ok None
                            else let* d := fromDate year month day in Ok (Some d)
                        end
                    end
              end
        end
  end.
Definition dateParseError (buf : text) : exn :=
  ConversionException ("Error occurred during parsing date. Given: " +:+ String (ch 34) EmptyString +:+
    String.string_of_list_ascii buf +:+ String (ch 34) EmptyString +:+ ". Expected format: (YYYY-MM-DD)").
Definition dateFromCString (buf : text) : outcome Z :=
  let* r := tryConvertDate buf in
  match r with Some d => Ok d | None => Err (dateParseError buf) end.

(** [Time::tryConvertInternal]: the time and the rest of the text. *)
Fixpoint parseHour (left : nat) (rest : text) (hour : Z) : option (Z * text) :=
  match rest with
  | c :: rest' =>
      if isDigit c then
        match left with
        | O => None
        | S left' => parseHour left' rest' (hour * 10 + digitValue c)
        end
      else Some (hour, rest)
  | [] => Some (hour, [])
  end.
Fixpoint parseMicros (rest : text) (mult us : Z) : Z * text :=
  match rest with
  | c :: rest' =>
      if isDigit c then parseMicros rest' (mult ÷ 10) (if 0 <? mult then us + digitValue c * mult else us)
      else (us, rest)
  | [] => (us, [])
  end.
Definition parseSixty (rest : text) : option (Z * text) :=
  match parseDoubleDigit rest with
  | Some (v, rest) => if (v <? 0) || (60 <=? v) then None else Some (v, rest)
  | None => None
  end.
Definition tryConvertTimeInternal (buf : text) : option (Z * text) :=
  match skipSpaces buf with
  | [] => None
  | (c :: _) as rest =>
      if negb (isDigit c) then None
      else
        match parseHour 9 rest 0 with
        | None | Some (_, []) => None
        | Some (hour, sep :: rest) =>
            if negb (bool_decide (sep = colon)) then None
            else
              match parseSixty rest with
              | None | Some (_, []) => None
              | Some (min, c :: rest) =>
                  if negb (bool_decide (c = sep)) then None
                  else
                    match parseSixty rest with
                    | None => None
                    | Some (sec, rest) =>
                        let '(us, rest) :=
                          match rest with
                          | c :: rest' => if bool_decide (c = dot) then parseMicros rest' 100000 0 else (0, rest)
                          | [] => (0, rest)
                          end in
                        Some (fromTimeInternal hour min sec us, rest)
                    end
              end
        end
  end.
Definition tryConvertTime (buf : text) : option (Z * text) :=
  match tryConvertTimeInternal buf with
  | Some (t, rest) => if t <? MICROS_PER_DAY then Some (t, rest) else None
  | None => None
  end.

(** [Timestamp::tryParseUTCOffset]: hours, minutes, and the rest. *)
Definition tryParseUTCOffset (rest : text) : option (Z * Z * text) :=
  match rest with
  | sign :: h1 :: h0 :: rest =>
      if negb ((code sign =? 43) || (code sign =? 45)) then None
      else if negb (isDigit h1) || negb (isDigit h0) then None
      else
        let signed z := if code sign =? 45 then - z else z in
        let hour_offset := signed (digitValue h1 * 10 + digitValue h0) in
        match rest with
        | [] => Some (hour_offset, 0, [])
        | c :: rest' =>
            let rest := if bool_decide (c = colon) then rest' else rest in
            match rest with
            | m1 :: m0 :: rest'' =>
                if isDigit m1 && isDigit m0
                then Some (hour_offset, signed (digitValue m1 * 10 + digitValue m0), rest'')
                else Some (hour_offset, 0, rest)
            | _ => Some (hour_offset, 0, rest)
            end
        end
  | _ => None
  end.

(** [Timestamp::tryConvertTimestamp].  The loop over leading spaces does not look at the
    length: a text of spaces only is read past its end. *)
Definition isDateEnd (c : ascii) : bool := (code c =? 32) || (code c =? 84).
Fixpoint splitDate (rest : text) : text * text :=
  match rest with
  | c :: rest' => if isDateEnd c then ([], rest) else let '(a, b) := splitDate rest' in (c :: a, b)
  | [] => ([], [])
  end.
Definition tryConvertTimestamp (str : text) : outcome (option Z) :=
  match skipSpaces str with
  | [] => Err UndefinedBehaviour
  | str' =>
      let '(date_part, rest) := splitDate str' in
      let* d := tryConvertDate (take (length str - length str') str ++ date_part) in
      match d with
      | None => Ok None
      | Some date =>
          match rest with
          | [] => let* ts := fromDateTime date 0 in Ok (Some ts)
          | c :: rest' =>
              match tryConvertTime (if isDateEnd c then rest' else rest) with
              | None => Ok None
              | Some (time, rest) =>
                  let* result := fromDateTime date time in
                  match rest with
                  | [] => Ok (Some result)
                  | c :: rest' =>
                      let rest := if code c =? 90 then rest' else rest in
                      let* p := match tryParseUTCOffset rest with
                                | Some (h, m, rest) =>
                                    let* r := i64 (result - (h * MICROS_PER_HOUR + m * MICROS_PER_MINUTE)) in
                                    Ok (r, rest)
                                | None => Ok (result, rest)
                                end in
                      let '(result, rest) := p in
                      match skipSpaces rest with [] => Ok (Some result) | _ => Ok None end
                  end
              end
          end
      end
  end.

(** ** Decimal text *)

Definition digitChar (d : Z) : ascii := ch (48 + d).
Definition isDigitChar (c : ascii) : Prop := isDigit c = true.
(** The number a text of digits continues from [acc]. *)
Fixpoint decimal (l : text) (acc : Z) : Z :=
  match l with c :: l' => decimal l' (digitValue c + acc * 10) | [] => acc end.

Lemma digitChar_spec d : 0 <= d < 10 ->
  isDigit (digitChar d) = true /\ digitValue (digitChar d) = d /\ isSpace (digitChar d) = false /\
  isDateEnd (digitChar d) = false.
Proof.
  intros H.
  assert (Hb : isDigit (digitChar d) && (digitValue (digitChar d) =? d) && negb (isSpace (digitChar d)) &&
               negb (isDateEnd (digitChar d)) = true).
  { revert d H. apply (all_range (fun d => isDigit (digitChar d) && (digitValue (digitChar d) =? d) &&
      negb (isSpace (digitChar d)) && negb (isDateEnd (digitChar d))) 0 10). vm_compute. reflexivity. }
  rewrite !andb_true_iff, !negb_true_iff, Z.eqb_eq in Hb. tauto.
Qed.

Lemma digits_spec v : 0 <= v < 100 ->
  charAt digits (v * 2) = Ok (digitChar (v / 10)) /\ charAt digits (v * 2 + 1) = Ok (digitChar (v mod 10)).
Proof.
  intros H.
  assert (Hb : bool_decide (charAt digits (v * 2) = Ok (digitChar (v / 10))) &&
               bool_decide (charAt digits (v * 2 + 1) = Ok (digitChar (v mod 10))) = true).
  { revert v H. apply (all_range (fun v => bool_decide (charAt digits (v * 2) = Ok (digitChar (v / 10))) &&
      bool_decide (charAt digits (v * 2 + 1) = Ok (digitChar (v mod 10)))) 0 100). vm_compute. reflexivity. }
  rewrite andb_true_iff, !bool_decide_eq_true in Hb. done.
Qed.

Lemma decimal_app l l' acc : decimal (l ++ l') acc = decimal l' (decimal l acc).
Proof. revert acc. induction l as [|c l IH]; intros acc; cbn; [done|apply IH]. Qed.

Lemma decimal_split l acc : decimal l acc = acc * 10 ^ Z.of_nat (length l) + decimal l 0.
Proof.
  revert acc. induction l as [|c l IH]; intros acc; cbn [decimal length].
  - cbn. lia.
  - rewrite (IH (digitValue c + acc * 10)), (IH (digitValue c + 0 * 10)), Nat2Z.inj_succ, Z.pow_succ_r by lia. lia.
Qed.

Lemma digit_range c : isDigitChar c -> 0 <= digitValue c < 10.
Proof. unfold isDigitChar, isDigit, digitValue. rewrite andb_true_iff, !Z.leb_le. lia. Qed.

Lemma decimal_ge l acc : Forall isDigitChar l -> 0 <= acc -> acc <= decimal l acc.
Proof.
  intros Hl. revert acc. induction Hl as [|c l Hc Hl IH]; intros acc Hacc; cbn; [lia|].
  pose proof (digit_range c Hc). specialize (IH (digitValue c + acc * 10)). lia.
Qed.

Lemma decimal_zeros n l : decimal (replicate n (ch 48) ++ l) 0 = decimal l 0.
Proof. induction n as [|n IH]; [done|exact IH]. Qed.

Lemma isDigit_zero : isDigitChar (ch 48).
Proof. reflexivity. Qed.

(** The digits of a number, most significant first: as many as its power of ten. *)
Definition digitsOf (v : Z) (ds : text) : Prop :=
  Forall isDigitChar ds /\ decimal ds 0 = v /\ (1 <= length ds)%nat /\
  forall k, 1 <= k -> v < 10 ^ k -> Z.of_nat (length ds) <= k.

Lemma formatSmall fuel v w : 0 <= v < 100 -> exists ds, FormatUnsigned fuel v w = Ok (ds ++ w) /\ digitsOf v ds.
Proof.
  intros Hv.
  assert (E : FormatUnsigned fuel v w = if v <? 10 then Ok (digitChar v :: w) else
                Ok (digitChar (v / 10) :: digitChar (v mod 10) :: w)).
  { destruct (digits_spec v Hv) as [E0 E1].
    destruct fuel; cbn [FormatUnsigned]; destruct (Z.leb_spec 100 v); try lia; by rewrite E0, E1. }
  rewrite E. destruct (Z.ltb_spec v 10) as [Hs|Hs].
  - destruct (digitChar_spec v) as (Ha & Hav & _); [lia|]. exists [digitChar v]. split; [done|].
    split_and!; [by repeat constructor|cbn; lia|cbn; lia|intros; cbn; lia].
  - destruct (digitChar_spec (v / 10)) as (Ha & Hav & _); [lia|].
    destruct (digitChar_spec (v mod 10)) as (Hb & Hbv & _); [lia|].
    exists [digitChar (v / 10); digitChar (v mod 10)]. split; [done|].
    split_and!; [by repeat constructor|cbn; lia|cbn; lia|].
    intros k Hk Hlt. cbn. destruct (decide (k = 1)) as [->|]; [cbn in Hlt; lia|lia].
Qed.

Lemma digitsOf_snoc v ds a b :
  digitsOf (v / 100) ds -> 100 <= v -> digitValue a = v mod 100 / 10 -> digitValue b = v mod 10 ->
  isDigitChar a -> isDigitChar b -> digitsOf v (ds ++ [a; b]).
Proof.
  intros (Hd & Hval & Hlen & Hk) Hv Ha Hb Hda Hdb. split_and!.
  - apply Forall_app. auto.
  - rewrite decimal_app, Hval. cbn. lia.
  - rewrite length_app. cbn. lia.
  - intros k Hk1 Hlt. rewrite length_app. cbn [length].
    assert (3 <= k).
    { destruct (decide (k <= 2)); [|lia]. assert (10 ^ k <= 10 ^ 2) by (apply Z.pow_le_mono_r; lia). lia. }
    specialize (Hk (k - 2)). replace k with (2 + (k - 2)) in Hlt by lia.
    rewrite Z.pow_add_r in Hlt by lia. change (10 ^ 2) with 100 in Hlt. lia.
Qed.

Lemma FormatUnsigned_spec fuel v w :
  0 <= v < 100 ^ (Z.of_nat fuel + 1) -> exists ds, FormatUnsigned fuel v w = Ok (ds ++ w) /\ digitsOf v ds.
Proof.
  revert v w. induction fuel as [|fuel IH]; intros v w Hv.
  - apply formatSmall. exact Hv.
  - destruct (decide (v < 100)); [apply formatSmall; lia|].
    replace (Z.of_nat (S fuel) + 1) with (Z.succ (Z.of_nat fuel + 1)) in Hv by lia.
    rewrite Z.pow_succ_r in Hv by lia. cbn [FormatUnsigned]. rewrite (proj2 (Z.leb_le _ _)) by lia.
    rewrite Z.quot_div_nonneg, Z.rem_mod_nonneg by lia.
    destruct (digits_spec (v mod 100)) as [-> ->]; [lia|]. cbn [obind].
    destruct (IH (v / 100) (digitChar (v mod 100 / 10) :: digitChar (v mod 100 mod 10) :: w)) as (ds & -> & Hds); [lia|].
    destruct (digitChar_spec (v mod 100 / 10)) as (Ha & Hav & _); [lia|].
    destruct (digitChar_spec (v mod 100 mod 10)) as (Hb & Hbv & _); [lia|].
    exists (ds ++ [digitChar (v mod 100 / 10); digitChar (v mod 100 mod 10)]). split; [by rewrite <- app_assoc|].
    apply digitsOf_snoc; try done; lia.
Qed.

(** A number padded with zeros to a width. *)
Lemma padded v width :
  0 <= v < 1000000000000 -> v < 10 ^ Z.of_nat width -> (1 <= width)%nat ->
  exists ds, (let* y := FormatUnsigned 5 v [] in padZeros width y) = Ok ds /\
    Forall isDigitChar ds /\ decimal ds 0 = v /\ length ds = width.
Proof.
  intros Hv Hw H1. destruct (FormatUnsigned_spec 5 v []) as (ds & -> & Hd & Hval & Hlen & Hk); [exact Hv|].
  rewrite app_nil_r. cbn [obind]. specialize (Hk (Z.of_nat width) ltac:(lia) Hw).
  unfold padZeros. rewrite (proj2 (Nat.leb_le _ _)) by lia. eexists. split; [done|].
  split_and!.
  - apply Forall_app. split; [by apply Forall_replicate|done].
  - by rewrite decimal_zeros.
  - rewrite length_app, length_replicate. lia.
Qed.

Lemma twoDigits v : 0 <= v < 100 -> FormatTwoDigits v = Ok [digitChar (v / 10); digitChar (v mod 10)].
Proof.
  intros Hv. unfold FormatTwoDigits. destruct (Z.ltb_spec v 10).
  - rewrite Z.div_small, Z.mod_small by lia. done.
  - by destruct (digits_spec v Hv) as [-> ->].
Qed.

Lemma parseTwoDigits v rest : 0 <= v < 100 ->
  parseDoubleDigit (digitChar (v / 10) :: digitChar (v mod 10) :: rest) = Some (v, rest).
Proof.
  intros Hv. destruct (digitChar_spec (v / 10)) as (Ha & Hav & _); [lia|].
  destruct (digitChar_spec (v mod 10)) as (Hb & Hbv & _); [lia|].
  unfold parseDoubleDigit. rewrite Ha, Hb, Hav, Hbv. do 2 f_equal. lia.
Qed.

Lemma parseYear_digits ds rest acc :
  Forall isDigitChar ds -> 0 <= acc -> decimal ds acc <= MAX_YEAR ->
  parseYear (ds ++ rest) acc = parseYear rest (decimal ds acc).
Proof.
  intros Hd. revert acc. induction Hd as [|c ds Hc Hd IH]; intros acc Hacc Hle; [done|].
  cbn [app parseYear decimal] in *. rewrite Hc. pose proof (digit_range c Hc).
  pose proof (decimal_ge ds (digitValue c + acc * 10) Hd ltac:(lia)).
  rewrite (proj2 (Z.ltb_ge _ _)) by lia. apply IH; lia.
Qed.

(** ** Round trips *)

Definition noDateEnd (l : text) : Prop := Forall (fun c => isDateEnd c = false) l.

Lemma isDateEnd_digit c : isDigitChar c -> isDateEnd c = false /\ isSpace c = false.
Proof.
  unfold isDigitChar, isDigit, isDateEnd, isSpace. rewrite andb_true_iff, !Z.leb_le. intros H.
  rewrite !orb_false_iff, andb_false_iff, !Z.eqb_neq, !Z.leb_gt. lia.
Qed.

Lemma yearLengthOf_enough y : 1 <= y <= MAX_YEAR -> y < 10 ^ Z.of_nat (yearLengthOf y) /\ (4 <= yearLengthOf y <= 6)%nat.
Proof.
  unfold MAX_YEAR, yearLengthOf. intros H.
  destruct (Z.leb_spec 10000 y), (Z.leb_spec 100000 y), (Z.leb_spec 1000000 y), (Z.leb_spec 10000000 y); lia.
Qed.

(** The text of a date, by its parts. *)
Lemma formatDate_shape y m d : 1 <= y <= MAX_YEAR -> validCivil y m d ->
  exists ys, formatDate y m d = Ok (ys ++ dash :: digitChar (m / 10) :: digitChar (m mod 10) :: dash ::
      digitChar (d / 10) :: digitChar (d mod 10) :: []) /\
    Forall isDigitChar ys /\ decimal ys 0 = y /\ (1 <= length ys)%nat.
Proof.
  intros Hy [Hm Hd]. pose proof (monthLength_pos (isLeapYear y) m).
  destruct (yearLengthOf_enough y Hy) as [Hlen H4]. unfold MAX_YEAR in *.
  destruct (padded y (yearLengthOf y)) as (ys & E & Hys & Hval & Hl); [lia|done|lia|].
  exists ys. split; [|split_and!; [done|done|lia]].
  unfold formatDate. rewrite (proj2 (Z.leb_gt _ _)) by lia.
  destruct (FormatUnsigned 5 y []) as [w|e]; [|done]. cbn [obind] in *. rewrite E. cbn [obind].
  rewrite !twoDigits by lia. done.
Qed.

Lemma formatDate_noEnd y m d l : 1 <= y <= MAX_YEAR -> validCivil y m d -> formatDate y m d = Ok l ->
  noDateEnd l /\ skipSpaces l = l /\ exists c l', l = c :: l' /\ isSpace c = false.
Proof.
  intros Hy Hv. destruct (formatDate_shape y m d Hy Hv) as (ys & -> & Hys & _ & Hlen). intros [= <-].
  destruct Hv as [Hm Hd]. pose proof (monthLength_pos (isLeapYear y) m).
  destruct (digitChar_spec (m / 10)) as (_ & _ & _ & H1); [lia|].
  destruct (digitChar_spec (m mod 10)) as (_ & _ & _ & H2); [lia|].
  destruct (digitChar_spec (d / 10)) as (_ & _ & _ & H3); [lia|].
  destruct (digitChar_spec (d mod 10)) as (_ & _ & _ & H4); [lia|]. split.
  - apply Forall_app. split; [|by repeat constructor].
    eapply Forall_impl; [exact Hys|]. intros c Hc. by apply isDateEnd_digit.
  - destruct ys as [|c ys]; [cbn in Hlen; lia|]. inversion Hys; subst. cbn [app skipSpaces].
    destruct (isDateEnd_digit c) as [_ Hsp]; [done|]. rewrite Hsp. split; [done|by eexists _, _].
Qed.

Lemma tryConvertDate_format y m d l : 1 <= y <= MAX_YEAR -> validCivil y m d -> formatDate y m d = Ok l ->
  tryConvertDate l = Ok (Some (civil y m d)).
Proof.
  intros Hy Hv El. destruct (formatDate_noEnd y m d l Hy Hv El) as (_ & Hskip & _).
  destruct (formatDate_shape y m d Hy Hv) as (ys & E & Hys & Hval & Hlen).
  rewrite E in El. injection El as <-. pose proof Hv as [Hm Hd]. pose proof (monthLength_pos (isLeapYear y) m).
  assert (Hr : yearInRange y) by (unfold yearInRange, MIN_YEAR in *; lia).
  unfold tryConvertDate. rewrite Hskip.
  destruct ys as [|c ys]; [cbn in Hlen; lia|]. inversion Hys as [|? ? Hc Hys']; subst.
  rewrite <- app_comm_cons. rewrite Hc. cbn [negb]. rewrite app_comm_cons.
  rewrite parseYear_digits by (done || lia).
  replace (parseYear (dash :: _) _) with (decimal (c :: ys) 0, dash :: digitChar (m / 10) :: digitChar (m mod 10) ::
    dash :: digitChar (d / 10) :: digitChar (d mod 10) :: []) by reflexivity.
  change (isSeparator dash) with true. cbn [negb]. rewrite parseTwoDigits by lia.
  rewrite bool_decide_eq_true_2 by done. cbn [negb]. rewrite parseTwoDigits by lia. cbn [skipSpaces].
  destruct (isValid_spec (decimal (c :: ys) 0) m d) as (b & -> & Hb). cbn [obind].
  assert (b = true) as -> by (by apply Hb). cbn [negb]. by rewrite fromDate_valid.
Qed.

(** A date from year 1 on is printed as a text that is read back as the same date. *)
Theorem date_text_roundtrip y m d :
  1 <= y <= MAX_YEAR -> validCivil y m d ->
  exists l, dateToString (civil y m d) = Ok l /\ dateFromCString l = Ok (civil y m d).
Proof.
  intros Hy Hv. assert (Hr : yearInRange y) by (unfold yearInRange, MIN_YEAR in *; lia).
  destruct (formatDate_shape y m d Hy Hv) as (ys & E & _).
  unfold dateToString. rewrite convert_civil by done. cbn [obind]. rewrite E. eexists. split; [done|].
  unfold dateFromCString. by rewrite (tryConvertDate_format y m d).
Qed.

(** The digits after the point, with the zeros at the end left out. *)
Lemma leadingZeros_spec l : exists r, l = replicate (leadingZeros l) (ch 48) ++ r.
Proof.
  induction l as [|c l [r IH]]; cbn [leadingZeros]; [by exists []|].
  case_bool_decide as Hc; [|by exists (c :: l)]. exists r. cbn. by rewrite Hc, <- IH.
Qed.

Lemma decimal_zeros_end l n : decimal (l ++ replicate n (ch 48)) 0 = decimal l 0 * 10 ^ Z.of_nat n.
Proof.
  rewrite decimal_app, decimal_split, length_replicate. pose proof (decimal_zeros n []) as H.
  rewrite app_nil_r in H. rewrite H. cbn. lia.
Qed.

Lemma FormatMicros_spec us : 0 <= us < 1000000 ->
  exists w tz, FormatMicros us = Ok (w, tz) /\ Forall isDigitChar w /\ length w = 6%nat /\ (tz <= 5)%nat /\
    us = decimal (take (6 - tz) w) 0 * 10 ^ Z.of_nat tz.
Proof.
  intros Hus. destruct (padded us 6) as (w & E & Hw & Hval & Hlen); [lia|exact (proj2 Hus)|lia|].
  unfold FormatMicros. destruct (FormatUnsigned 5 us []) as [w'|]; [|done]. cbn [obind] in *. rewrite E. cbn [obind].
  pose (tz := leadingZeros (rev (drop 1 w))). fold tz. exists w, tz.
  destruct (leadingZeros_spec (rev (drop 1 w))) as [r Hr]. fold tz in Hr.
  assert (Hdrop : drop 1 w = rev r ++ replicate tz (ch 48)).
  { rewrite <- (rev_involutive (drop 1 w)), Hr, rev_app_distr. f_equal.
    clear. induction tz as [|n IH]; [done|]. cbn [replicate rev]. rewrite IH.
    change [ch 48] with (replicate 1 (ch 48)). by rewrite <- replicate_add, Nat.add_1_r. }
  assert (Htz : (tz <= 5)%nat).
  { apply (f_equal length) in Hdrop. rewrite length_drop, length_app, length_replicate in Hdrop. lia. }
  split_and!; try done. rewrite <- decimal_zeros_end, <- Hval. f_equal.
  assert (Hws : w = (take 1 w ++ rev r) ++ replicate tz (ch 48)) by (by rewrite <- app_assoc, <- Hdrop, take_drop).
  revert Hws. generalize (take 1 w ++ rev r) as pre. clear - Hlen Htz. clearbody tz. intros pre ->.
  rewrite length_app, length_replicate in Hlen. rewrite take_app_length' by lia. done.
Qed.

Lemma parseMicros_digits l j us : Forall isDigitChar l -> 0 <= j -> Z.of_nat (length l) <= j + 1 ->
  parseMicros l (10 ^ j) us = (us + decimal l 0 * 10 ^ (j + 1 - Z.of_nat (length l)), []).
Proof.
  intros Hl. revert j us. induction Hl as [|c l Hc Hl IH]; intros j us Hj Hlen; cbn [parseMicros].
  - cbn. f_equal. lia.
  - rewrite Hc. cbn [length] in Hlen. assert (0 < 10 ^ j) by (apply Z.pow_pos_nonneg; lia).
    rewrite (proj2 (Z.ltb_lt _ _)) by lia. cbn [decimal length].
    destruct (decide (j = 0)) as [->|Hj0].
    + destruct l; [|cbn in Hlen; lia]. cbn. f_equal. lia.
    + replace (10 ^ j ÷ 10) with (10 ^ (j - 1)).
      2: { rewrite Z.quot_div_nonneg by lia. replace j with (Z.succ (j - 1)) at 2 by lia.
           rewrite Z.pow_succ_r, Z.mul_comm, Z.div_mul by lia. done. }
      rewrite IH by lia. f_equal. rewrite (decimal_split l (digitValue c + 0 * 10)).
      replace (j - 1 + 1 - Z.of_nat (length l)) with (j - Z.of_nat (length l)) by lia.
      replace (j + 1 - Z.of_nat (S (length l))) with (j - Z.of_nat (length l)) by lia.
      assert (Hpow : 10 ^ j = 10 ^ Z.of_nat (length l) * 10 ^ (j - Z.of_nat (length l))).
      { rewrite <- Z.pow_add_r by lia. f_equal. lia. }
      rewrite Hpow. ring.
Qed.

Lemma parseHour_two h rest : 0 <= h < 100 ->
  parseHour 9 (digitChar (h / 10) :: digitChar (h mod 10) :: colon :: rest) 0 = Some (h, colon :: rest).
Proof.
  intros Hh. destruct (digitChar_spec (h / 10)) as (Ha & Hav & _); [lia|].
  destruct (digitChar_spec (h mod 10)) as (Hb & Hbv & _); [lia|].
  cbn [parseHour]. rewrite Ha, Hb, Hav, Hbv. change (isDigit colon) with false. cbv iota. do 2 f_equal. lia.
Qed.

Lemma parseSixty_two v rest : 0 <= v < 60 ->
  parseSixty (digitChar (v / 10) :: digitChar (v mod 10) :: rest) = Some (v, rest).
Proof.
  intros Hv. unfold parseSixty. rewrite parseTwoDigits by lia.
  by rewrite (proj2 (Z.ltb_ge _ _)), (proj2 (Z.leb_gt _ _)) by lia.
Qed.

(** A time of the day is read back from its text. *)
Lemma tryConvertTime_format t : inDay t ->
  exists l, timeToString t = Ok l /\ tryConvertTime l = Some (t, []).
Proof.
  intros Ht. destruct (timeConvert_spec t Ht) as (h & m & s & us & E & Hh & Hm & Hs & Hus & Hsum & _).
  unfold timeToString. rewrite E, !twoDigits by lia. cbn [obind].
  assert (Hlt : (t <? MICROS_PER_DAY) = true) by (apply Z.ltb_lt, Ht).
  destruct (digitChar_spec (h / 10)) as (Hd & _ & Hsp & _); [lia|].
  assert (Hrun : forall rest, tryConvertTimeInternal ([digitChar (h / 10); digitChar (h mod 10)] ++ colon ::
      [digitChar (m / 10); digitChar (m mod 10)] ++ colon :: [digitChar (s / 10); digitChar (s mod 10)] ++ rest) =
    let '(us, rest) := match rest with
      | c :: rest' => if bool_decide (c = dot) then parseMicros rest' 100000 0 else (0, rest)
      | [] => (0, rest) end in Some (fromTimeInternal h m s us, rest)).
  { intros rest. unfold tryConvertTimeInternal. cbn [app skipSpaces]. rewrite Hsp, Hd. cbn [negb].
    rewrite parseHour_two by lia. rewrite bool_decide_eq_true_2 by done. cbn [negb].
    rewrite parseSixty_two by lia. rewrite bool_decide_eq_true_2 by done. cbn [negb].
    by rewrite parseSixty_two by lia. }
  destruct (Z.eqb_spec us 0) as [->|Hne].
  - eexists. split; [done|]. unfold tryConvertTime. specialize (Hrun []). cbn [app] in Hrun |- *. rewrite Hrun, Hsum. by rewrite Hlt.
  - destruct (FormatMicros_spec us Hus) as (w & tz & -> & Hw & Hl & Htz & Hval). cbn [obind].
    eexists. split; [done|]. unfold tryConvertTime.
    specialize (Hrun (dot :: take (6 - tz) w)). cbn [app] in Hrun |- *. rewrite Hrun. rewrite bool_decide_eq_true_2 by done.
    change 100000 with (10 ^ 5). rewrite parseMicros_digits; [|by apply Forall_take|lia|rewrite length_take; lia].
    rewrite length_take, Hl. replace (5 + 1 - Z.of_nat ((6 - tz) `min` 6)) with (Z.of_nat tz) by lia.
    rewrite Z.add_0_l, <- Hval, Hsum. by rewrite Hlt.
Qed.

Lemma splitDate_at l c rest : noDateEnd l -> isDateEnd c = true -> splitDate (l ++ c :: rest) = (l, c :: rest).
Proof.
  intros Hl Hc. induction Hl as [|a l Ha Hl IH]; cbn [app splitDate]; [by rewrite Hc|]. by rewrite Ha, IH.
Qed.

(** The year of a timestamp. *)
Definition yearOf (ts : Z) (y : Z) : Prop := exists m d, Date.convert (getDate ts) = Ok (y, m, d).

(** C40. A timestamp from year 1 on is printed as a text that is read back as the same
    timestamp, to the microsecond. *)
Theorem timestamp_text_roundtrip ts y :
  isTimestamp ts -> yearOf ts y -> 1 <= y ->
  exists l, timestampToString ts = Ok l /\ tryConvertTimestamp l = Ok (Some ts).
Proof.
  intros Hts (m & d & Econv) Hy. pose proof (fromDateTime_ts ts Hts) as Hfrom.
  rewrite getDate_floor in Econv.
  assert (Hday : MIN_DAY <= ts / MICROS_PER_DAY <= MAX_DAY).
  { unfold isTimestamp, MIN_TIMESTAMP, MIN_DAY, MAX_DAY in *. change (2 ^ 63) with 9223372036854775808 in *.
    change MICROS_PER_DAY with 86400000000 in *. lia. }
  pose proof (proj2 (validDate_range _ Hday) y m d Econv) as Hr. unfold MIN_DAY, MAX_DAY in Hday.
  destruct (convert_spec (ts / MICROS_PER_DAY)) as (y' & m' & d' & E' & Hv & Hc); [lia|].
  assert ((y, m, d) = (y', m', d')) as [= <- <- <-] by congruence.
  assert (Hy' : 1 <= y <= MAX_YEAR) by (unfold yearInRange in Hr; lia).
  destruct (formatDate_shape y m d Hy' Hv) as (ys & Efmt & _). set (dl := ys ++ _) in Efmt.
  destruct (formatDate_noEnd y m d dl Hy' Hv Efmt) as (Hno & Hskip & c & dl' & Edl & Hc0). clearbody dl.
  destruct (getTime_floor ts) as [Et Hin].
  destruct (tryConvertTime_format (getTime ts) Hin) as (tl & Etl & Eparse).
  exists (dl ++ space :: tl). split.
  - unfold timestampToString, timestampConvert, dateToString. rewrite getDate_floor, Econv. cbn [obind].
    rewrite Efmt. cbn [obind]. by rewrite Etl.
  - rewrite Edl in *.
    unfold tryConvertTimestamp. cbn [app skipSpaces]. rewrite Hc0.
    change (c :: dl' ++ space :: tl) with ((c :: dl') ++ space :: tl).
    rewrite splitDate_at by done. rewrite Nat.sub_diag. cbn [take app].
    rewrite (tryConvertDate_format y m d) by done. cbn [obind].
    change (isDateEnd space) with true. cbv iota. rewrite Eparse, Et, Hc, Hfrom. done.
Qed.

(** ** The properties at concrete inputs *)

Lemma date_text_roundtrip_witness :
  exists l, dateToString (civil 2024 2 29) = Ok l /\ dateFromCString l = Ok (civil 2024 2 29).
Proof.
  apply (date_text_roundtrip 2024 2 29).
  - split; vm_compute; discriminate.
  - split; vm_compute; split; discriminate.
Defined.

Lemma timestamp_text_roundtrip_witness :
  exists l, timestampToString (-1500) = Ok l /\ tryConvertTimestamp l = Ok (Some (-1500)).
Proof.
  apply (timestamp_text_roundtrip (-1500) 1969).
  - split; vm_compute; [discriminate|reflexivity].
  - exists 12, 31. vm_compute. reflexivity.
  - vm_compute. discriminate.
Defined.

(** ** What is not read back *)

(** A date before year 1 is printed with a suffix that the parser does not accept. *)
Theorem bc_date_not_read_back :
  exists l, dateToString (civil (-43) 3 15) = Ok l /\ l = String.list_ascii_of_string "0044-03-15 (BC)" /\
    tryConvertDate l = Ok None.
Proof. eexists. split; [vm_compute; reflexivity|]. split; vm_compute; reflexivity. Qed.

(** A timestamp of spaces only is read past its end. *)
Theorem blank_timestamp_read_past_end : tryConvertTimestamp [space; space] = Err UndefinedBehaviour.
Proof. reflexivity. Qed.
