(* ===== verification/TransactionManager.v ===== *)
(** * The transaction manager and the connections' transaction contexts
      (src/transaction/transaction_manager.cpp, src/transaction/transaction_context.cpp,
      [Transaction::commit]/[rollback] of src/transaction/transaction.cpp)

    The public functions of the manager run one at a time, under
    [mtxForSerializingPublicFunctionCalls]: each is one operation on the state of the
    system.  The second mutex, [mtxForStartingNewTransactions], outlives a call, so its
    state is part of the system's.  The step relation runs any operation of any
    connection; the invariant is proved for every state a bounded number of steps
    reaches (the counters are 64-bit).  The last section has the order in which the two
    mutexes are taken. *)

From S2P Require Import Prelude Transaction.
From stdpp Require Import base list gmap sets numbers strings relations.
Local Open Scope Z_scope.

(** The records of the write-ahead log that the manager writes; any other record a
    transaction logged is [DATA_RECORD]. *)
Inductive WALRecord : Type :=
| BEGIN_TRANSACTION_RECORD
| COMMIT_RECORD
| ROLLBACK_RECORD
| CHECKPOINT_RECORD
| DATA_RECORD (id : nat).

#[global] Instance WALRecord_eq_dec : EqDecision WALRecord.
Proof. solve_decision. Defined.

(** What the manager asks of the rest of the system, as an interface: the effects of a
    transaction's local storage and undo buffer, the parts of a checkpoint, and the two
    sizes [canAutoCheckpoint] adds. *)
Class DataStore (DB : Type) : Type := {
  cleanUP : M DB unit;
  localStorageCommit : Transaction -> M DB unit;
  localStorageRollback : Transaction -> M DB unit;
  undoBufferCommit : Transaction -> transaction_t -> M DB unit;
  undoBufferRollback : Transaction -> M DB unit;
  storageCheckpoint : M DB unit;
  catalogCheckpoint : M DB unit;
  overwriteWALVersionFiles : M DB unit;
  replayShadowPageRecords : M DB unit;
  shadowFileClearAll : M DB unit;
  removeWALVersionFiles : M DB unit;
  getEstimatedMemUsage : DB -> Transaction -> Z;
  walFileSize : list WALRecord -> Z;
}.

(** The settings of [DBConfig] the manager reads, [isDBPathInMemory] of the database's
    path, and the manager's [checkpointWaitTimeoutInMicros]. *)
Record DBConfig : Type := mkConfig {
  isDBPathInMemory : bool;
  enableMultiWrites : bool;
  autoCheckpoint : bool;
  checkpointThreshold : Z;
  checkpointWaitTimeoutInMicros : Z;
}.

Definition THREAD_SLEEP_TIME_WHEN_WAITING_IN_MICROS : Z := 500.
Definition DEFAULT_CHECKPOINT_WAIT_TIMEOUT_IN_MICROS : Z := 5000000.

Record TransactionManager : Type := mkTM {
  activeWriteTransactions : gset Z;
  activeReadOnlyTransactions : gset Z;
  lastTransactionID : transaction_t;
  lastTimestamp : transaction_t;
  (* mtxForStartingNewTransactions is locked *)
  startingLocked : bool;
}.

Definition newTransactionManager : TransactionManager :=
  mkTM ∅ ∅ START_TRANSACTION_ID 1 false.

Inductive TransactionMode : Type := AUTO | MANUAL.

#[global] Instance TransactionMode_eq_dec : EqDecision TransactionMode.
Proof. solve_decision. Defined.

Record TransactionContext : Type := mkTxContext {
  mode : TransactionMode;
  activeTransaction : option Transaction;
}.

Definition newTransactionContext : TransactionContext := mkTxContext AUTO None.

(** The system: the manager, the log, the open connections' contexts and the data. *)
Record System (DB : Type) : Type := mkSystem {
  tm : TransactionManager;
  wal : list WALRecord;
  contexts : gmap nat TransactionContext;
  db : DB;
}.
Arguments mkSystem {DB} _ _ _ _.
Arguments tm {DB} _.
Arguments wal {DB} _.
Arguments contexts {DB} _.
Arguments db {DB} _.

Section TransactionManager.
Context {DB : Type} `{!DataStore DB} (cfg : DBConfig).
Implicit Types (s : System DB) (c : nat) (t : Transaction).

Definition onTM (f : TransactionManager -> TransactionManager) : M (System DB) unit :=
  smodify (fun s => mkSystem (f (tm s)) (wal s) (contexts s) (db s)).
Definition onContexts (f : gmap nat TransactionContext -> gmap nat TransactionContext)
    : M (System DB) unit :=
  smodify (fun s => mkSystem (tm s) (wal s) (f (contexts s)) (db s)).
Definition onDB {A} (m : M DB A) : M (System DB) A :=
  szoom db (fun d s => mkSystem (tm s) (wal s) (contexts s) d) m.
Definition log (r : WALRecord) : M (System DB) unit :=
  smodify (fun s => mkSystem (tm s) (wal s ++ [r]) (contexts s) (db s)).
Definition clearWAL : M (System DB) unit :=
  smodify (fun s => mkSystem (tm s) [] (contexts s) (db s)).

Definition insertWrite (id : Z) (m : TransactionManager) : TransactionManager :=
  mkTM ({[id]} ∪ activeWriteTransactions m) (activeReadOnlyTransactions m)
    (lastTransactionID m) (lastTimestamp m) (startingLocked m).
Definition insertReadOnly (id : Z) (m : TransactionManager) : TransactionManager :=
  mkTM (activeWriteTransactions m) ({[id]} ∪ activeReadOnlyTransactions m)
    (lastTransactionID m) (lastTimestamp m) (startingLocked m).
Definition eraseWrite (id : Z) (m : TransactionManager) : TransactionManager :=
  mkTM (activeWriteTransactions m ∖ {[id]}) (activeReadOnlyTransactions m)
    (lastTransactionID m) (lastTimestamp m) (startingLocked m).
Definition eraseReadOnly (id : Z) (m : TransactionManager) : TransactionManager :=
  mkTM (activeWriteTransactions m) (activeReadOnlyTransactions m ∖ {[id]})
    (lastTransactionID m) (lastTimestamp m) (startingLocked m).
Definition nextTransactionID (m : TransactionManager) : TransactionManager :=
  mkTM (activeWriteTransactions m) (activeReadOnlyTransactions m)
    (wrapU 64 (lastTransactionID m + 1)) (lastTimestamp m) (startingLocked m).
Definition nextTimestamp (m : TransactionManager) : TransactionManager :=
  mkTM (activeWriteTransactions m) (activeReadOnlyTransactions m)
    (lastTransactionID m) (wrapU 64 (lastTimestamp m + 1)) (startingLocked m).
Definition setStartingLocked (b : bool) (m : TransactionManager) : TransactionManager :=
  mkTM (activeWriteTransactions m) (activeReadOnlyTransactions m)
    (lastTransactionID m) (lastTimestamp m) b.

(** [mtxForStartingNewTransactions.lock()]: a call that finds it locked waits. *)
Definition lockStarting : M (System DB) unit :=
  s <- sget ;;
  if startingLocked (tm s) then sthrow Blocked else onTM (setStartingLocked true).
Definition allowReceivingNewTransactions : M (System DB) unit := onTM (setStartingLocked false).

Definition hasActiveWriteTransactionNoLock (m : TransactionManager) : bool :=
  negb (bool_decide (activeWriteTransactions m = ∅)).
Definition canCheckpointNoLock (m : TransactionManager) : bool :=
  bool_decide (activeWriteTransactions m = ∅) && bool_decide (activeReadOnlyTransactions m = ∅).

Definition onlyOneWriter : exn := TransactionManagerException
  "Cannot start a new write transaction in the system. Only one write transaction at a time is allowed in the system.".
Definition checkpointTimeout : exn := TransactionManagerException
  "Timeout waiting for active transactions to leave the system before checkpointing. If you have an open transaction, please close it and try again.".

(** [TransactionManager::beginTransaction]; the lock on starting transactions is
    released when the call returns. *)
Definition beginTransaction (ty : TransactionType) : M (System DB) Transaction :=
  s <- sget ;;
  if startingLocked (tm s) then sthrow Blocked
  else
    match ty with
    | READ_ONLY =>
        onTM nextTransactionID ;;;
        s <- sget ;;
        let t := newTransaction ty (lastTransactionID (tm s)) (lastTimestamp (tm s)) in
        onTM (insertReadOnly (ID t)) ;;;
        sret t
    | RECOVERY | WRITE =>
        if negb (enableMultiWrites cfg) && hasActiveWriteTransactionNoLock (tm s)
        then sthrow onlyOneWriter
        else
          onTM nextTransactionID ;;;
          s <- sget ;;
          let t := newTransaction ty (lastTransactionID (tm s)) (lastTimestamp (tm s)) in
          onTM (insertWrite (ID t)) ;;;
          (if shouldLogToWAL (isDBPathInMemory cfg) t then log BEGIN_TRANSACTION_RECORD else sret tt) ;;;
          sret t
    | _ => sthrow (TransactionManagerException "Invalid transaction type to begin transaction.")
    end.

(** The loop of [stopNewTransactionsAndWaitUntilAllTransactionsLeave].  Its callers hold
    the mutex of the public functions, so nothing else changes the manager while it
    sleeps.  The fuel is the number of iterations. *)
Fixpoint waitUntilAllTransactionsLeave (fuel : nat) (numTimesWaited : Z) : M (System DB) unit :=
  match fuel with
  | O => sthrow Blocked
  | S fuel' =>
      s <- sget ;;
      if negb (canCheckpointNoLock (tm s)) then
        let numTimesWaited := numTimesWaited + 1 in
        if checkpointWaitTimeoutInMicros cfg <?
             wrapU 64 (numTimesWaited * THREAD_SLEEP_TIME_WHEN_WAITING_IN_MICROS)
        then allowReceivingNewTransactions ;;; sthrow checkpointTimeout
        else waitUntilAllTransactionsLeave fuel' numTimesWaited
      else sret tt
  end.
Definition waitFuel : nat :=
  S (S (Z.to_nat (checkpointWaitTimeoutInMicros cfg / THREAD_SLEEP_TIME_WHEN_WAITING_IN_MICROS))).
Definition stopNewTransactionsAndWaitUntilAllTransactionsLeave : M (System DB) unit :=
  lockStarting ;;; waitUntilAllTransactionsLeave waitFuel 0.

Definition checkpointNoLock : M (System DB) unit :=
  stopNewTransactionsAndWaitUntilAllTransactionsLeave ;;;
  onDB storageCheckpoint ;;;
  onDB catalogCheckpoint ;;;
  log CHECKPOINT_RECORD ;;;
  onDB overwriteWALVersionFiles ;;;
  onDB replayShadowPageRecords ;;;
  clearWAL ;;;
  onDB shadowFileClearAll ;;;
  onDB removeWALVersionFiles ;;;
  allowReceivingNewTransactions.

Definition canAutoCheckpoint (s : System DB) (t : Transaction) : bool :=
  if isDBPathInMemory cfg then false
  else if negb (autoCheckpoint cfg) then false
  else if isRecovery t then false
  else checkpointThreshold cfg <? wrapU 64 (getEstimatedMemUsage (db s) t + walFileSize (wal s)).

(** [Transaction::commit] and [Transaction::rollback]. *)
Definition transactionCommit (t : Transaction) : M (System DB) unit :=
  onDB (localStorageCommit t) ;;;
  onDB (undoBufferCommit t (commitTS t)) ;;;
  if isWriteTransaction t && shouldLogToWAL (isDBPathInMemory cfg) t then log COMMIT_RECORD else sret tt.
Definition transactionRollback (t : Transaction) : M (System DB) unit :=
  onDB (localStorageRollback t) ;;;
  onDB (undoBufferRollback t) ;;;
  if isWriteTransaction t && shouldLogToWAL (isDBPathInMemory cfg) t then log ROLLBACK_RECORD else sret tt.

(** [clientContext.getTx()] of a connection; dereferencing a null one is undefined. *)
Definition getTx (c : nat) : M (System DB) Transaction :=
  s <- sget ;;
  match contexts s !! c with
  | Some (mkTxContext _ (Some t)) => sret t
  | _ => sthrow UndefinedBehaviour
  end.
Definition setTx (c : nat) (t : option Transaction) : M (System DB) unit :=
  onContexts (fun cs => match cs !! c with
                        | Some x => <[c := mkTxContext (mode x) t]> cs
                        | None => cs
                        end).
Definition setMode (c : nat) (m : TransactionMode) : M (System DB) unit :=
  onContexts (fun cs => match cs !! c with
                        | Some x => <[c := mkTxContext m (activeTransaction x)]> cs
                        | None => cs
                        end).
Definition setCommitTS (t : Transaction) (ts : transaction_t) : Transaction :=
  mkTransaction (type t) (ID t) (startTS t) ts (forceCheckpoint t).

(** [TransactionManager::commit]. *)
Definition commit (c : nat) : M (System DB) unit :=
  onDB cleanUP ;;;
  t <- getTx c ;;
  match type t with
  | READ_ONLY => onTM (eraseReadOnly (ID t))
  | RECOVERY | WRITE =>
      onTM nextTimestamp ;;;
      s <- sget ;;
      let t := setCommitTS t (lastTimestamp (tm s)) in
      setTx c (Some t) ;;;
      transactionCommit t ;;;
      onTM (eraseWrite (ID t)) ;;;
      s <- sget ;;
      if shouldForceCheckpoint (isDBPathInMemory cfg) t || canAutoCheckpoint s t
      then checkpointNoLock else sret tt
  | _ => sthrow (TransactionManagerException "Invalid transaction type to commit.")
  end.

(** [TransactionManager::rollback]. *)
Definition rollback (t : Transaction) : M (System DB) unit :=
  onDB cleanUP ;;;
  match type t with
  | READ_ONLY => onTM (eraseReadOnly (ID t))
  | RECOVERY | WRITE => transactionRollback t ;;; onTM (eraseWrite (ID t))
  | _ => sthrow (TransactionManagerException "Invalid transaction type to rollback.")
  end.

(** [TransactionManager::checkpoint]. *)
Definition checkpoint : M (System DB) unit :=
  if isDBPathInMemory cfg then sret tt else checkpointNoLock.

(** ** [TransactionContext] *)

Definition getContext (c : nat) : M (System DB) TransactionContext :=
  s <- sget ;;
  match contexts s !! c with Some x => sret x | None => sthrow UndefinedBehaviour end.
Definition hasActiveTransaction (x : TransactionContext) : bool :=
  match activeTransaction x with Some _ => true | None => false end.

Definition beginTransactionInternal (c : nat) (ty : TransactionType) : M (System DB) unit :=
  x <- getContext c ;;
  kuAssert (negb (hasActiveTransaction x)) ;;;
  t <- beginTransaction ty ;;
  setTx c (Some t).
Definition beginReadTransaction (c : nat) : M (System DB) unit :=
  setMode c MANUAL ;;; beginTransactionInternal c READ_ONLY.
Definition beginWriteTransaction (c : nat) : M (System DB) unit :=
  setMode c MANUAL ;;; beginTransactionInternal c WRITE.
Definition beginRecoveryTransaction (c : nat) : M (System DB) unit :=
  setMode c MANUAL ;;; beginTransactionInternal c RECOVERY.
Definition beginAutoTransaction (c : nat) (readOnlyStatement : bool) : M (System DB) unit :=
  x <- getContext c ;;
  (if bool_decide (mode x = AUTO) && hasActiveTransaction x then setTx c None else sret tt) ;;;
  beginTransactionInternal c (if readOnlyStatement then READ_ONLY else WRITE).
Definition validateManualTransaction (x : TransactionContext) (readOnlyStatement : bool) : outcome unit :=
  match activeTransaction x with
  | None => Err InternalException
  | Some t =>
      if isReadOnly t && negb readOnlyStatement
      then Err (TransactionManagerException "Can not execute a write query inside a read-only transaction.")
      else Ok tt
  end.

Definition clearTransaction (c : nat) : M (System DB) unit := setTx c None ;;; setMode c AUTO.
Definition contextCommit (c : nat) : M (System DB) unit :=
  x <- getContext c ;;
  if hasActiveTransaction x then commit c ;;; clearTransaction c else sret tt.
Definition contextRollback (c : nat) : M (System DB) unit :=
  x <- getContext c ;;
  match activeTransaction x with
  | Some t => rollback t ;;; clearTransaction c
  | None => sret tt
  end.

(** A connection is opened with an empty context, and closed by the destructor. *)
Definition connect (c : nat) : M (System DB) unit :=
  onContexts (fun cs => match cs !! c with Some _ => cs | None => <[c := newTransactionContext]> cs end).
Definition disconnect (c : nat) : M (System DB) unit :=
  x <- getContext c ;;
  (match activeTransaction x with Some t => rollback t | None => sret tt end) ;;;
  onContexts (fun cs => delete c cs).

(** The end of [ClientContext::executeNoLock] for a statement that ran: it commits in
    [AUTO] mode, and an exception rolls the connection's transaction back and becomes the
    error of the query's result. *)
Definition finishStatement (c : nat) : M (System DB) (option exn) :=
  fun s =>
    let '(r, s') := (x <- getContext c ;;
                     if bool_decide (mode x = AUTO) then contextCommit c else sret tt) s in
    match r with
    | Ok tt => (Ok None, s')
    | Err Blocked => (Err Blocked, s')
    | Err UndefinedBehaviour => (Err UndefinedBehaviour, s')
    | Err e => (contextRollback c ;;; sret (Some e)) s'
    end.

(** ** Runs of the system *)

Inductive Op : Type :=
| OpConnect (c : nat)
| OpDisconnect (c : nat)
| OpBeginRead (c : nat)
| OpBeginWrite (c : nat)
| OpBeginRecovery (c : nat)
| OpBeginAuto (c : nat) (readOnlyStatement : bool)
| OpCommit (c : nat)
| OpRollback (c : nat)
| OpFinish (c : nat)
| OpCheckpoint.

Definition runOp (o : Op) : M (System DB) unit :=
  match o with
  | OpConnect c => connect c
  | OpDisconnect c => disconnect c
  | OpBeginRead c => beginReadTransaction c
  | OpBeginWrite c => beginWriteTransaction c
  | OpBeginRecovery c => beginRecoveryTransaction c
  | OpBeginAuto c ro => beginAutoTransaction c ro
  | OpCommit c => contextCommit c
  | OpRollback c => contextRollback c
  | OpFinish c => finishStatement c ;;; sret tt
  | OpCheckpoint => checkpoint
  end.

(** The transaction of a connection. *)
Definition act (cs : gmap nat TransactionContext) (c : nat) : option Transaction :=
  x ← cs !! c; activeTransaction x.

(** A step is an operation, whatever it ends in, or a statement of a connection's
    transaction, which changes the data, logs records and may be a [COPY FROM]. *)
Inductive step : System DB -> System DB -> Prop :=
| step_op o s r s' : runOp o s = (r, s') -> step s s'
| step_statement c t s d recs isCopyFrom md :
    contexts s !! c = Some (mkTxContext md (Some t)) ->
    step s (mkSystem (tm s) (wal s ++ recs)
              (<[c := mkTxContext md (Some (checkForceCheckpoint isCopyFrom t))]> (contexts s)) d).

Definition initial (d : DB) : System DB := mkSystem newTransactionManager [] ∅ d.

(** A transaction of a connection, as the manager knows it. *)
Record txn_ok (m : TransactionManager) (t : Transaction) : Prop := {
  ok_type : type t = READ_ONLY \/ type t = WRITE \/ type t = RECOVERY;
  ok_id : START_TRANSACTION_ID < ID t <= lastTransactionID m;
  ok_start : 1 <= startTS t <= lastTimestamp m;
  ok_active : commitTS t = INVALID_TRANSACTION ->
    ID t ∈ (if isReadOnly t then activeReadOnlyTransactions m else activeWriteTransactions m);
  ok_commit : commitTS t = INVALID_TRANSACTION \/ startTS t < commitTS t <= lastTimestamp m;
}.

(** The invariant after [n] steps, from a state whose last timestamp is [lo]. *)
Section invariant.
Variable lo : Z.

Record inv (n : Z) (m : TransactionManager) (a : nat -> option Transaction) : Prop := {
  inv_id : START_TRANSACTION_ID <= lastTransactionID m <= START_TRANSACTION_ID + n;
  inv_ts : 1 <= lastTimestamp m <= 1 + n /\ lo <= lastTimestamp m;
  inv_active : forall i, i ∈ activeWriteTransactions m \/ i ∈ activeReadOnlyTransactions m ->
    START_TRANSACTION_ID < i <= lastTransactionID m;
  inv_disjoint : activeWriteTransactions m ## activeReadOnlyTransactions m;
  inv_single : enableMultiWrites cfg = false -> (size (activeWriteTransactions m) <= 1)%nat;
  inv_ctx : forall c t, a c = Some t -> txn_ok m t;
  inv_distinct : forall c c' t t', a c = Some t -> a c' = Some t' -> ID t = ID t' -> c = c';
}.

(** Operations that leave the manager's sets and counters and the contexts alone. *)
Definition sameCore (s s' : System DB) : Prop :=
  activeWriteTransactions (tm s') = activeWriteTransactions (tm s) /\
  activeReadOnlyTransactions (tm s') = activeReadOnlyTransactions (tm s) /\
  lastTransactionID (tm s') = lastTransactionID (tm s) /\
  lastTimestamp (tm s') = lastTimestamp (tm s) /\
  contexts s' = contexts s.
Definition frames {A} (m : M (System DB) A) : Prop :=
  forall s r s', m s = (r, s') -> sameCore s s'.

#[local] Instance sameCore_preorder : PreOrder sameCore.
Proof.
  split; [by intros s; repeat split|].
  intros s1 s2 s3 (?&?&?&?&?) (?&?&?&?&?). repeat split; congruence.
Qed.

Lemma frames_bind {A B} (m : M (System DB) A) (k : A -> M (System DB) B) :
  frames m -> (forall a, frames (k a)) -> frames (sbind m k).
Proof.
  intros Hm Hk s r s'. unfold sbind. destruct (m s) as [[a|e] s1] eqn:E; intros H.
  - transitivity s1; [by eapply Hm|by eapply Hk].
  - simplify_eq. by eapply Hm.
Qed.
Lemma frames_ret {A} (a : A) : frames (sret a).
Proof. intros s r s' H. unfold sret in H. simplify_eq. reflexivity. Qed.
Lemma frames_throw {A} e : frames (@sthrow _ A e).
Proof. intros s r s' H. unfold sthrow in H. simplify_eq. reflexivity. Qed.
Lemma frames_get : frames sget.
Proof. intros s r s' H. unfold sget in H. simplify_eq. reflexivity. Qed.
Lemma frames_onDB {A} (m : M DB A) : frames (onDB m).
Proof.
  intros s r s' H. unfold onDB, szoom in H. destruct (m (db s)). simplify_eq.
  repeat split; reflexivity.
Qed.
Lemma frames_log r : frames (log r).
Proof. intros s r' s' H. unfold log, smodify in H. simplify_eq. repeat split; reflexivity. Qed.
Lemma frames_clearWAL : frames clearWAL.
Proof. intros s r' s' H. unfold clearWAL, smodify in H. simplify_eq. repeat split; reflexivity. Qed.
Lemma frames_locked b : frames (onTM (setStartingLocked b)).
Proof. intros s r' s' H. unfold onTM, smodify in H. simplify_eq. repeat split; reflexivity. Qed.
Lemma frames_if {A} (b : bool) (m1 m2 : M (System DB) A) :
  frames m1 -> frames m2 -> frames (if b then m1 else m2).
Proof. by destruct b. Qed.

Create HintDb frames.
#[local] Hint Resolve frames_bind frames_ret frames_throw frames_get frames_onDB frames_log
  frames_clearWAL frames_locked frames_if : frames.

Lemma frames_wait fuel k : frames (waitUntilAllTransactionsLeave fuel k).
Proof.
  revert k. induction fuel as [|fuel IH]; intros k; simpl; [auto with frames|].
  unfold allowReceivingNewTransactions. auto 10 with frames.
Qed.
#[local] Hint Resolve frames_wait : frames.

Lemma frames_checkpointNoLock : frames checkpointNoLock.
Proof.
  unfold checkpointNoLock, stopNewTransactionsAndWaitUntilAllTransactionsLeave, lockStarting,
    allowReceivingNewTransactions. auto 30 with frames.
Qed.
Lemma frames_checkpoint : frames checkpoint.
Proof. unfold checkpoint. pose proof frames_checkpointNoLock. auto with frames. Qed.
Lemma frames_transactionCommit t : frames (transactionCommit t).
Proof. unfold transactionCommit. auto 10 with frames. Qed.
Lemma frames_transactionRollback t : frames (transactionRollback t).
Proof. unfold transactionRollback. auto 10 with frames. Qed.

(** *** The invariant under the changes the operations make *)

Lemma inv_same n (s s' : System DB) :
  sameCore s s' -> inv n (tm s) (act (contexts s)) -> inv n (tm s') (act (contexts s')).
Proof.
  intros (HW&HR&HI&HT&->) [? ? ? ? ? Hctx ?]. split; rewrite ?HW, ?HR, ?HI, ?HT; auto.
  intros c t Ht. destruct (Hctx c t Ht) as [? ? ? ? ?].
  split; rewrite ?HW, ?HR, ?HI, ?HT; auto.
Qed.

Lemma inv_weaken n n' m a : n <= n' -> inv n m a -> inv n' m a.
Proof. intros Hn [? ? ? ? ? ? ?]. split; auto; lia. Qed.

(** Contexts may lose transactions and change what the manager does not look at. *)
Lemma inv_contexts n m a a' :
  (forall c t', a' c = Some t' -> exists t, a c = Some t /\ type t' = type t /\ ID t' = ID t /\
     startTS t' = startTS t /\ commitTS t' = commitTS t) ->
  inv n m a -> inv n m a'.
Proof.
  intros Ha [? ? ? ? ? Hctx Hd]. split; auto.
  - intros c t' Ht'. destruct (Ha c t' Ht') as (t & Ht & Hty & Hid & Hs & Hc).
    destruct (Hctx c t Ht) as [? ? ? Hact ?]. split; rewrite ?Hty, ?Hid, ?Hs, ?Hc; auto.
    unfold isReadOnly in *. rewrite Hty. auto.
  - intros c c' t t' Ht Ht' Heq.
    destruct (Ha _ _ Ht) as (u & Hu & _ & Hid & _). destruct (Ha _ _ Ht') as (u' & Hu' & _ & Hid' & _).
    eapply Hd; [exact Hu|exact Hu'|congruence].
Qed.

(** Counters only grow in the operations below. *)
Definition bounded (n : Z) : Prop := 0 <= n < 2 ^ 62.

Lemma wrap_next n z : bounded n -> 0 <= z <= START_TRANSACTION_ID + n -> wrapU 64 (z + 1) = z + 1.
Proof.
  intros Hn Hz. unfold wrapU, bounded, START_TRANSACTION_ID in *. apply Z.mod_small. lia.
Qed.

(** A transaction begins: the next ID, in the set of its type. *)
Lemma inv_begin n m a a' c ty :
  bounded n -> inv n m a ->
  ty = READ_ONLY \/ ty = WRITE \/ ty = RECOVERY ->
  (ty <> READ_ONLY -> enableMultiWrites cfg = false -> activeWriteTransactions m = ∅) ->
  a' c = Some (newTransaction ty (lastTransactionID m + 1) (lastTimestamp m)) ->
  (forall c', c' <> c -> a' c' = a c') ->
  inv (n + 1) ((if decide (ty = READ_ONLY) then insertReadOnly (lastTransactionID m + 1)
                else insertWrite (lastTransactionID m + 1)) (nextTransactionID m)) a'.
Proof.
  intros Hn [Hid Hts Hact Hdisj Hsingle Hctx Hd] Hty Hw Hc Hother.
  assert (Hwrap : wrapU 64 (lastTransactionID m + 1) = lastTransactionID m + 1).
  { apply (wrap_next n); [done|]. unfold START_TRANSACTION_ID in *. lia. }
  assert (Hfresh : forall c' t, c' <> c -> a' c' = Some t -> ID t <= lastTransactionID m).
  { intros c' t Hne Ht. rewrite Hother in Ht by done. destruct (Hctx c' t Ht). lia. }
  assert (HnW : lastTransactionID m + 1 ∉ activeWriteTransactions m).
  { intros Hin. specialize (Hact _ (or_introl Hin)). lia. }
  assert (HnR : lastTransactionID m + 1 ∉ activeReadOnlyTransactions m).
  { intros Hin. specialize (Hact _ (or_intror Hin)). lia. }
  split.
  - destruct (decide _); cbn; rewrite Hwrap; lia.
  - destruct (decide _); cbn; lia.
  - intros i Hi.
    assert (i = lastTransactionID m + 1 \/ i ∈ activeWriteTransactions m \/
            i ∈ activeReadOnlyTransactions m) as [->|Hold]
      by (clear -Hi; destruct (decide _); cbn in Hi; set_solver).
    + destruct (decide _); cbn; rewrite Hwrap; lia.
    + specialize (Hact i Hold). destruct (decide _); cbn; rewrite Hwrap; lia.
  - clear -Hdisj HnW HnR. destruct (decide _); cbn in *; set_solver.
  - intros Hm. destruct (decide _); cbn in *; [auto|]. rewrite Hw by done.
    rewrite union_empty_r_L, size_singleton. lia.
  - intros c' t Ht. destruct (decide (c' = c)) as [->|Hne].
    + rewrite Hc in Ht. simplify_eq. split; cbn.
      * done.
      * destruct (decide _); cbn; rewrite Hwrap; lia.
      * destruct (decide _); cbn; lia.
      * intros _. unfold isReadOnly. cbn. clear. destruct (decide (ty = READ_ONLY)) as [->|Hne]; cbn; [set_solver|].
        rewrite bool_decide_eq_false_2 by done. set_solver.
      * by left.
    + rewrite Hother in Ht by done. destruct (Hctx c' t Ht) as [? ? ? Ha ?].
      split; auto.
      * destruct (decide _); cbn; rewrite Hwrap; lia.
      * destruct (decide _); cbn; lia.
      * intros Hinv. specialize (Ha Hinv). clear -Ha. destruct (decide _), (isReadOnly t); cbn; set_solver.
      * destruct (decide _); cbn; lia.
  - intros c1 c2 t1 t2 H1 H2 Heq.
    destruct (decide (c1 = c)) as [->|Hn1], (decide (c2 = c)) as [->|Hn2]; [done| | |].
    + rewrite Hc in H1. simplify_eq. cbn in Heq. specialize (Hfresh _ _ Hn2 H2). lia.
    + rewrite Hc in H2. simplify_eq. cbn in Heq. specialize (Hfresh _ _ Hn1 H1). lia.
    + rewrite Hother in H1, H2 by done. by eapply Hd.
Qed.

(** A writer commits: the next timestamp. *)
Lemma inv_commit n m a a' c t :
  bounded n -> inv n m a -> a c = Some t ->
  a' c = Some (setCommitTS t (lastTimestamp m + 1)) ->
  (forall c', c' <> c -> a' c' = a c') ->
  inv (n + 1) (nextTimestamp m) a'.
Proof.
  intros Hn [Hid Hts Hact Hdisj Hsingle Hctx Hd] Ht Hc Hother.
  assert (Hwrap : wrapU 64 (lastTimestamp m + 1) = lastTimestamp m + 1).
  { apply (wrap_next n); [done|]. unfold bounded, START_TRANSACTION_ID in *. lia. }
  assert (Hsame : forall c' u, a' c' = Some u -> exists u', a c' = Some u' /\ ID u = ID u').
  { intros c' u Hu. destruct (decide (c' = c)) as [->|Hne].
    - rewrite Hc in Hu. simplify_eq. eauto.
    - rewrite Hother in Hu by done. eauto. }
  split; cbn; rewrite ?Hwrap; auto; try lia.
  - intros c' u Hu. destruct (decide (c' = c)) as [->|Hne].
    + rewrite Hc in Hu. simplify_eq. destruct (Hctx c t Ht) as [? ? ? Ha ?].
      split; cbn; rewrite ?Hwrap; auto; try lia.
      intros Hinv. exfalso. unfold bounded, INVALID_TRANSACTION, START_TRANSACTION_ID in *. lia.
    + rewrite Hother in Hu by done. destruct (Hctx c' u Hu) as [? ? ? Ha ?].
      split; cbn; rewrite ?Hwrap; auto; lia.
  - intros c1 c2 t1 t2 H1 H2 Heq.
    destruct (Hsame _ _ H1) as (u1 & Hu1 & E1). destruct (Hsame _ _ H2) as (u2 & Hu2 & E2).
    eapply Hd; [exact Hu1|exact Hu2|congruence].
Qed.

(** The ID of a connection's transaction leaves the active sets: the connection has lost
    the transaction or the transaction has its commit timestamp. *)
Lemma inv_erase n m m' a a' c t :
  inv n m a -> a c = Some t ->
  (forall t', a' c = Some t' -> a c = Some t' /\ commitTS t' <> INVALID_TRANSACTION) ->
  (forall c', c' <> c -> a' c' = a c') ->
  m' = eraseWrite (ID t) m \/ m' = eraseReadOnly (ID t) m ->
  inv n m' a'.
Proof.
  intros [Hid Hts Hact Hdisj Hsingle Hctx Hd] Ht Hc Hother Hm.
  assert (HW : activeWriteTransactions m' ⊆ activeWriteTransactions m)
    by (clear -Hm; destruct Hm as [->| ->]; cbn; set_solver).
  assert (HR : activeReadOnlyTransactions m' ⊆ activeReadOnlyTransactions m)
    by (clear -Hm; destruct Hm as [->| ->]; cbn; set_solver).
  assert (Hc12 : lastTransactionID m' = lastTransactionID m /\ lastTimestamp m' = lastTimestamp m)
    by (destruct Hm as [->| ->]; done).
  destruct Hc12 as [H1 H2].
  assert (Hsame : forall c' u, a' c' = Some u -> a c' = Some u).
  { intros c' u Hu. destruct (decide (c' = c)) as [->|Hne]; [by apply Hc|by rewrite <- Hother]. }
  split; rewrite ?H1, ?H2; auto.
  - intros i Hi. apply Hact. clear -Hi HW HR. set_solver.
  - clear -Hdisj HW HR. set_solver.
  - intros Hm1. specialize (Hsingle Hm1). apply subseteq_size in HW. lia.
  - intros c' u Hu. pose proof (Hctx c' u (Hsame _ _ Hu)) as [? ? ? Ha ?].
    split; rewrite ?H1, ?H2; auto. intros Hinv. specialize (Ha Hinv).
    destruct (decide (c' = c)) as [->|Hne]; [by destruct (Hc u Hu)|].
    assert (Hidne : ID u <> ID t) by (intros Heq; apply Hne; by eapply Hd; [apply Hsame| |]).
    clear -Ha Hm Hidne. destruct Hm as [->| ->], (isReadOnly u); cbn; set_solver.
  - intros c1 c2 t1 t2 E1 E2. eauto.
Qed.

(** *** Every operation preserves the invariant *)

Lemma act_insert cs c x c' :
  act (<[c := x]> cs) c' = if decide (c' = c) then activeTransaction x else act cs c'.
Proof.
  unfold act. destruct (decide (c' = c)) as [->|Hne].
  - by rewrite lookup_insert_eq.
  - by rewrite lookup_insert_ne.
Qed.

Definition preserves {A} (n n' : Z) (m : M (System DB) A) : Prop :=
  forall s r s', m s = (r, s') -> inv n (tm s) (act (contexts s)) -> inv n' (tm s') (act (contexts s')).

Lemma preserves_frames {A} n (m : M (System DB) A) : frames m -> preserves n n m.
Proof. intros Hf s r s' H Hinv. eapply inv_same; eauto. Qed.

Lemma preserves_bind {A B} n1 n2 n3 (m : M (System DB) A) (k : A -> M (System DB) B) :
  n2 <= n3 -> preserves n1 n2 m -> (forall a, preserves n2 n3 (k a)) -> preserves n1 n3 (sbind m k).
Proof.
  intros Hle Hm Hk s r s' H Hinv. unfold sbind in H. destruct (m s) as [[a|e] s1] eqn:E.
  - eapply Hk; [exact H|]. eapply Hm; eauto.
  - simplify_eq. eapply inv_weaken; [exact Hle|]. eapply Hm; eauto.
Qed.

Lemma preserves_weaken {A} n n' (m : M (System DB) A) : n <= n' -> preserves n n m -> preserves n n' m.
Proof. intros Hn Hm s r s' H Hinv. eapply inv_weaken; [exact Hn|]. eapply Hm; eauto. Qed.

Lemma preserves_setMode n c md : preserves n n (setMode c md).
Proof.
  intros s r s' H. unfold setMode, onContexts, smodify in H. simplify_eq. cbn.
  apply inv_contexts. intros c' t' Ht'. exists t'. split; [|auto].
  destruct (contexts s !! c) as [x|] eqn:E; [|done]. rewrite act_insert in Ht'.
  destruct (decide (c' = c)) as [->|]; [|done]. cbn in Ht'. unfold act. by rewrite E.
Qed.

Lemma preserves_clear n c : preserves n n (clearTransaction c).
Proof.
  apply (preserves_bind n n n); [lia| |intros _; apply preserves_setMode].
  intros s r s' H. unfold setTx, onContexts, smodify in H. simplify_eq. cbn.
  apply inv_contexts. intros c' t' Ht'. exists t'. split; [|auto].
  destruct (contexts s !! c) as [x|] eqn:E; [|done]. rewrite act_insert in Ht'.
  by destruct (decide (c' = c)) as [->|].
Qed.

(** What [beginTransaction] does: it fails and changes nothing, or the transaction has
    the next ID, starts at the last timestamp and is in the set of its type. *)
Definition begun (ty : TransactionType) (m : TransactionManager) : TransactionManager :=
  (if decide (ty = READ_ONLY) then insertReadOnly (wrapU 64 (lastTransactionID m + 1))
   else insertWrite (wrapU 64 (lastTransactionID m + 1))) (nextTransactionID m).

Lemma beginTransaction_cases ty s r s' :
  beginTransaction ty s = (r, s') ->
  (exists e, r = Err e /\ s' = s) \/
  (r = Ok (newTransaction ty (wrapU 64 (lastTransactionID (tm s) + 1)) (lastTimestamp (tm s))) /\
   (ty = READ_ONLY \/ ty = WRITE \/ ty = RECOVERY) /\
   (ty <> READ_ONLY -> enableMultiWrites cfg = false -> activeWriteTransactions (tm s) = ∅) /\
   startingLocked (tm s) = false /\
   exists w, s' = mkSystem (begun ty (tm s)) (wal s ++ w) (contexts s) (db s)).
Proof.
  unfold beginTransaction, sbind, sget, onTM, smodify, sret, log. intros H. cbn in H.
  destruct (startingLocked (tm s)) eqn:El; [left; unfold sthrow in H; simplify_eq; eauto|].
  assert (Hw : negb (enableMultiWrites cfg) && hasActiveWriteTransactionNoLock (tm s) = false ->
    enableMultiWrites cfg = false -> activeWriteTransactions (tm s) = ∅).
  { intros Ew Hm. rewrite Hm in Ew. cbn in Ew. unfold hasActiveWriteTransactionNoLock in Ew.
    by apply negb_false_iff, bool_decide_eq_true in Ew. }
  destruct ty; unfold sthrow in H; cbn in H; try (left; simplify_eq; by eauto);
    try (destruct (negb (enableMultiWrites cfg) && hasActiveWriteTransactionNoLock (tm s)) eqn:Ew;
         [left; cbn in H; simplify_eq; by eauto|]); right.
  - simplify_eq. split_and!; auto; [done|]. exists []. by rewrite app_nil_r.
  - destruct (shouldLogToWAL _ _); cbn in H; simplify_eq; split_and!; auto.
    + by exists [BEGIN_TRANSACTION_RECORD].
    + exists []. by rewrite app_nil_r.
  - destruct (shouldLogToWAL _ _); cbn in H; simplify_eq; split_and!; auto.
    + by exists [BEGIN_TRANSACTION_RECORD].
    + exists []. by rewrite app_nil_r.
Qed.

Lemma preserves_begin n c ty :
  bounded n -> preserves n (n + 1) (beginTransactionInternal c ty).
Proof.
  intros Hn s r s' H Hinv. unfold beginTransactionInternal, getContext in H.
  assert (Hweak : inv (n + 1) (tm s) (act (contexts s))) by (eapply inv_weaken; [|exact Hinv]; lia).
  unfold sbind in H. cbn -[beginTransaction hasActiveTransaction] in H.
  destruct (contexts s !! c) as [x|] eqn:Ex; cbn -[beginTransaction hasActiveTransaction] in H; [|by simplify_eq].
  destruct (hasActiveTransaction x); cbn -[beginTransaction hasActiveTransaction] in H; [by simplify_eq|].
  destruct (beginTransaction ty s) as [r1 s1] eqn:Eb.
  destruct (beginTransaction_cases _ _ _ _ Eb) as [(e & -> & ->)|(-> & Hty & Hw & _ & w & ->)];
    [by simplify_eq|].
  unfold setTx, onContexts, smodify in H. cbn -[beginTransaction hasActiveTransaction] in H. rewrite Ex in H. simplify_eq. cbn.
  assert (Hwrap : wrapU 64 (lastTransactionID (tm s) + 1) = lastTransactionID (tm s) + 1).
  { apply (wrap_next n); [done|]. destruct Hinv as [Hid _ _ _ _ _ _]. unfold START_TRANSACTION_ID in *. lia. }
  unfold begun. rewrite Hwrap.
  apply (inv_begin n (tm s) (act (contexts s)) _ c ty); auto.
  - by rewrite act_insert, decide_True.
  - intros c' Hne. by rewrite act_insert, decide_False.
Qed.

(** [TransactionManager::rollback] of a connection's transaction, after which the
    connection drops it. *)
Lemma rollback_cases t s r s' :
  rollback t s = (r, s') ->
  sameCore s s' /\ (exists e, r = Err e) \/
  exists s1, sameCore s s1 /\ r = Ok tt /\ contexts s' = contexts s1 /\
    (tm s' = eraseWrite (ID t) (tm s1) \/ tm s' = eraseReadOnly (ID t) (tm s1)).
Proof.
  unfold rollback. intros H. unfold sbind at 1 in H.
  destruct (onDB cleanUP s) as [[[]|e] s1] eqn:E1; pose proof (frames_onDB _ _ _ _ E1) as F1;
    [|left; simplify_eq; eauto].
  destruct (type t); try (unfold sthrow in H; left; simplify_eq; by eauto).
  - right. exists s1. unfold onTM, smodify in H. simplify_eq. auto.
  - unfold sbind in H. destruct (transactionRollback t s1) as [[[]|e] s2] eqn:E2;
      pose proof (frames_transactionRollback _ _ _ _ E2) as F2.
    + right. exists s2. unfold onTM, smodify in H. simplify_eq. split_and!; auto. by transitivity s1.
    + left. simplify_eq. split; [by transitivity s1|eauto].
  - unfold sbind in H. destruct (transactionRollback t s1) as [[[]|e] s2] eqn:E2;
      pose proof (frames_transactionRollback _ _ _ _ E2) as F2.
    + right. exists s2. unfold onTM, smodify in H. simplify_eq. split_and!; auto. by transitivity s1.
    + left. simplify_eq. split; [by transitivity s1|eauto].
Qed.

Lemma inv_rolled_back n s s1 s' c t a' :
  inv n (tm s) (act (contexts s)) -> act (contexts s) c = Some t -> sameCore s s1 ->
  tm s' = eraseWrite (ID t) (tm s1) \/ tm s' = eraseReadOnly (ID t) (tm s1) ->
  a' c = None -> (forall c', c' <> c -> a' c' = act (contexts s1) c') ->
  inv n (tm s') a'.
Proof.
  intros Hinv Ht Hs Hm Hc Hother. pose proof (inv_same n s s1 Hs Hinv) as Hinv1.
  assert (Ht1 : act (contexts s1) c = Some t) by (destruct Hs as (_&_&_&_&->); done).
  eapply inv_erase; [exact Hinv1|exact Ht1| |exact Hother|exact Hm].
  intros t'. by rewrite Hc.
Qed.

Lemma clear_act c s s' :
  clearTransaction c s = (Ok tt, s') ->
  tm s' = tm s /\ act (contexts s') c = None /\
  forall c', c' <> c -> act (contexts s') c' = act (contexts s) c'.
Proof.
  unfold clearTransaction, sbind, setTx, setMode, onContexts, smodify. intros H. simplify_eq. cbn.
  destruct (contexts s !! c) as [x|] eqn:E.
  - rewrite lookup_insert_eq. cbn. split_and!; [done| |].
    + by rewrite act_insert, decide_True.
    + intros c' Hne. by rewrite !act_insert, !decide_False.
  - rewrite E. split_and!; [done| |done]. unfold act. by rewrite E.
Qed.

Lemma clear_ok c s : exists s', clearTransaction c s = (Ok tt, s').
Proof. unfold clearTransaction, sbind, setTx, setMode, onContexts, smodify. eauto. Qed.

Lemma preserves_contextRollback n c : preserves n n (contextRollback c).
Proof.
  intros s r s' H Hinv. unfold contextRollback, getContext in H. unfold sbind in H. cbn -[rollback clearTransaction] in H.
  destruct (contexts s !! c) as [x|] eqn:Ex; cbn -[rollback clearTransaction] in H; [|by simplify_eq].
  destruct (activeTransaction x) as [t|] eqn:Et; [|unfold sret in H; by simplify_eq].
  assert (Ht : act (contexts s) c = Some t) by (unfold act; by rewrite Ex).
  destruct (rollback t s) as [r1 s1] eqn:Er.
  destruct (rollback_cases _ _ _ _ Er) as [[Hs [e ->]]|(s2 & Hs & -> & Hc2 & Hm)].
  - simplify_eq. by eapply inv_same.
  - destruct (clear_ok c s1) as [s3 Hcl]. rewrite Hcl in H. simplify_eq.
    destruct (clear_act _ _ _ Hcl) as (Htm & Hnone & Hother).
    eapply (inv_rolled_back n s s2 _ c t); eauto; rewrite ?Htm, <- ?Hc2; eauto.
Qed.

Lemma preserves_disconnect n c : preserves n n (disconnect c).
Proof.
  intros s r s' H Hinv. unfold disconnect, getContext in H. unfold sbind in H. cbn -[rollback clearTransaction] in H.
  destruct (contexts s !! c) as [x|] eqn:Ex; cbn -[rollback clearTransaction] in H; [|by simplify_eq].
  assert (Hdel : forall cs c', c' <> c -> act (delete c cs) c' = act cs c')
    by (intros cs c' Hne; unfold act; by rewrite lookup_delete_ne).
  assert (Hdelc : forall cs, act (delete c cs) c = None)
    by (intros cs; unfold act; by rewrite lookup_delete_eq).
  destruct (activeTransaction x) as [t|] eqn:Et.
  - assert (Ht : act (contexts s) c = Some t) by (unfold act; by rewrite Ex).
    destruct (rollback t s) as [r1 s1] eqn:Er.
    destruct (rollback_cases _ _ _ _ Er) as [[Hs [e ->]]|(s2 & Hs & -> & Hc2 & Hm)].
    + simplify_eq. by eapply inv_same.
    + unfold onContexts, smodify in H. simplify_eq.
      eapply (inv_rolled_back n s s2 _ c t); cbn; eauto.
      intros c' Hne. rewrite Hdel by done. by rewrite Hc2.
  - unfold sret, onContexts, smodify in H. simplify_eq. cbn. eapply inv_contexts; [|exact Hinv].
    intros c' t' Ht'. exists t'. split; [|auto]. destruct (decide (c' = c)) as [->|Hne].
    + by rewrite Hdelc in Ht'.
    + by rewrite Hdel in Ht'.
Qed.

Lemma preserves_connect n c : preserves n n (connect c).
Proof.
  intros s r s' H Hinv. unfold connect, onContexts, smodify in H. simplify_eq. cbn.
  eapply inv_contexts; [|exact Hinv]. intros c' t' Ht'. exists t'. split; [|auto].
  destruct (contexts s !! c) eqn:E; [done|]. rewrite act_insert in Ht'.
  by destruct (decide (c' = c)).
Qed.

(** What [commit] does for a writer: the transaction's changes get the next timestamp,
    its ID leaves the active set, and a checkpoint may follow. *)
Lemma getTx_cases c s r s' :
  getTx c s = (r, s') -> s' = s /\ (r = Err UndefinedBehaviour \/ exists t, r = Ok t /\ act (contexts s) c = Some t).
Proof.
  unfold getTx, sbind, sget, act. intros H. destruct (contexts s !! c) as [[md [t|]]|];
    unfold sret, sthrow in H; simplify_eq; cbn; eauto.
Qed.

Lemma setTx_act c u s s' r :
  setTx c (Some u) s = (r, s') -> is_Some (contexts s !! c) ->
  r = Ok tt /\ tm s' = tm s /\ act (contexts s') c = Some u /\
  forall c', c' <> c -> act (contexts s') c' = act (contexts s) c'.
Proof.
  intros H [x Hx]. unfold setTx, onContexts, smodify in H. simplify_eq. cbn. rewrite Hx.
  split_and!; [done|done| |].
  - by rewrite act_insert, decide_True.
  - intros c' Hne. by rewrite act_insert, decide_False.
Qed.

Lemma preserves_commitWrite n c t :
  bounded n ->
  forall s r s', act (contexts s) c = Some t -> inv n (tm s) (act (contexts s)) ->
  (onTM nextTimestamp ;;;
   s <- sget ;;
   let t := setCommitTS t (lastTimestamp (tm s)) in
   setTx c (Some t) ;;;
   transactionCommit t ;;;
   onTM (eraseWrite (ID t)) ;;;
   s <- sget ;;
   if shouldForceCheckpoint (isDBPathInMemory cfg) t || canAutoCheckpoint s t
   then checkpointNoLock else sret tt) s = (r, s') ->
  inv (n + 1) (tm s') (act (contexts s')).
Proof.
  intros Hn s r s' Ht Hinv H. unfold sbind, onTM, smodify, sget in H. cbn -[setTx transactionCommit checkpointNoLock wrapU canAutoCheckpoint] in H.
  assert (Hwrap : wrapU 64 (lastTimestamp (tm s) + 1) = lastTimestamp (tm s) + 1).
  { apply (wrap_next n); [done|]. destruct Hinv as [_ Hts _ _ _ _ _].
    unfold bounded, START_TRANSACTION_ID in *. lia. }
  rewrite Hwrap in H. set (u := setCommitTS t (lastTimestamp (tm s) + 1)) in *.
  set (s1 := mkSystem (nextTimestamp (tm s)) (wal s) (contexts s) (db s)) in *.
  destruct (setTx c (Some u) s1) as [r2 s2] eqn:E2.
  destruct (setTx_act _ _ _ _ _ E2) as (-> & Htm2 & Hc2 & Ho2).
  { unfold act in Ht. cbn. destruct (contexts s !! c); [eauto|done]. }
  assert (Hinv2 : inv (n + 1) (tm s2) (act (contexts s2))).
  { rewrite Htm2. eapply inv_commit; eauto. }
  destruct (transactionCommit u s2) as [[[]|e] s3] eqn:E3;
    pose proof (inv_same _ _ _ (frames_transactionCommit _ _ _ _ E3) Hinv2) as Hinv3;
    [|by simplify_eq].
  assert (Hc3 : act (contexts s3) c = Some u).
  { destruct (frames_transactionCommit _ _ _ _ E3) as (_&_&_&_&->). done. }
  set (s4 := mkSystem (eraseWrite (ID t) (tm s3)) (wal s3) (contexts s3) (db s3)) in *.
  assert (Hinv4 : inv (n + 1) (tm s4) (act (contexts s4))).
  { eapply (inv_erase _ _ _ _ _ c u Hinv3 Hc3); [| |by left].
    - intros t' Ht'. cbn in Ht'. split; [done|]. rewrite Hc3 in Ht'. simplify_eq. cbn.
      destruct Hinv as [_ Hts _ _ _ _ _]. unfold bounded, INVALID_TRANSACTION in *. lia.
    - done. }
  destruct (shouldForceCheckpoint _ _ || canAutoCheckpoint _ _).
  - eapply inv_same; [by eapply frames_checkpointNoLock|done].
  - unfold sret in H. by simplify_eq.
Qed.

Lemma commit_cases n c s r s' :
  bounded n -> inv n (tm s) (act (contexts s)) -> commit c s = (r, s') ->
  inv (n + 1) (tm s') (act (contexts s')) \/
  exists t s1, act (contexts s) c = Some t /\ sameCore s s1 /\ r = Ok tt /\
    tm s' = eraseReadOnly (ID t) (tm s1) /\ contexts s' = contexts s1.
Proof.
  intros Hn Hinv H. unfold commit in H. unfold sbind at 1 in H.
  assert (Hweak : forall s0, sameCore s s0 -> inv (n + 1) (tm s0) (act (contexts s0))).
  { intros s0 Hs. eapply inv_weaken; [|by eapply inv_same]. lia. }
  destruct (onDB cleanUP s) as [[[]|e] s1] eqn:E1; pose proof (frames_onDB _ _ _ _ E1) as F1;
    [|left; simplify_eq; auto].
  unfold sbind at 1 in H. destruct (getTx c s1) as [r1 s2] eqn:E2.
  destruct (getTx_cases _ _ _ _ E2) as [-> [->|(t & -> & Ht)]]; [left; simplify_eq; auto|].
  assert (Ht0 : act (contexts s) c = Some t) by (destruct F1 as (_&_&_&_&<-); done).
  assert (Hinv1 : inv n (tm s1) (act (contexts s1))) by (by eapply inv_same).
  destruct (type t).
  - right. unfold onTM, smodify in H. simplify_eq. exists t, s1. auto.
  - left. exact (preserves_commitWrite n c t Hn s1 r s' Ht Hinv1 H).
  - left. unfold sthrow in H. simplify_eq. auto.
  - left. unfold sthrow in H. simplify_eq. auto.
  - left. exact (preserves_commitWrite n c t Hn s1 r s' Ht Hinv1 H).
Qed.

Lemma preserves_contextCommit n c : bounded n -> preserves n (n + 1) (contextCommit c).
Proof.
  intros Hn s r s' H Hinv. unfold contextCommit, getContext in H.
  assert (Hweak : inv (n + 1) (tm s) (act (contexts s))) by (eapply inv_weaken; [|exact Hinv]; lia).
  unfold sbind in H. cbn -[commit clearTransaction hasActiveTransaction] in H.
  destruct (contexts s !! c) as [x|] eqn:Ex; cbn -[commit clearTransaction hasActiveTransaction] in H; [|by simplify_eq].
  destruct (hasActiveTransaction x); cbn -[commit clearTransaction hasActiveTransaction] in H; [|unfold sret in H; by simplify_eq].
  destruct (commit c s) as [r1 s1] eqn:Ec.
  destruct (commit_cases _ _ _ _ _ Hn Hinv Ec) as [Hinv1|(t & s2 & Ht & Hs & -> & Hm & Hc2)].
  - destruct r1 as [[]|e]; [|by simplify_eq]. by eapply preserves_clear.
  - destruct (clear_ok c s1) as [s3 Hcl]. rewrite Hcl in H. simplify_eq.
    destruct (clear_act _ _ _ Hcl) as (Htm & Hnone & Hother).
    eapply inv_weaken; [|eapply (inv_rolled_back n s s2 _ c t); eauto; rewrite ?Htm, <- ?Hc2; eauto]. lia.
Qed.

Lemma preserves_finish n c : bounded n -> preserves n (n + 1) (finishStatement c).
Proof.
  intros Hn s r s' H Hinv. unfold finishStatement in H.
  destruct ((x <- getContext c ;; if bool_decide (mode x = AUTO) then contextCommit c else sret tt) s)
    as [r1 s1] eqn:E1.
  assert (Hinv1 : inv (n + 1) (tm s1) (act (contexts s1))).
  { eapply (preserves_bind n n (n + 1)); [lia| | |exact E1|exact Hinv].
    - apply preserves_frames. unfold getContext. intros s0 r0 s0' H0. unfold sbind, sget in H0.
      destruct (contexts s0 !! c); unfold sret, sthrow in H0; simplify_eq; reflexivity.
    - intros x. cbv beta. destruct (bool_decide (mode x = AUTO)); [by apply preserves_contextCommit|].
      apply preserves_weaken; [lia|]. apply preserves_frames, frames_ret. }
  assert (Hroll : forall e, (contextRollback c ;;; sret (Some e)) s1 = (r, s') ->
    inv (n + 1) (tm s') (act (contexts s'))).
  { intros e He. eapply (preserves_bind (n + 1) (n + 1) (n + 1)); [lia| | |exact He|exact Hinv1].
    - apply preserves_contextRollback.
    - intros ?. apply preserves_frames, frames_ret. }
  destruct r1 as [[]|[]]; try (by simplify_eq); by eapply Hroll.
Qed.

Lemma preserves_beginAuto n c ro : bounded n -> preserves n (n + 1) (beginAutoTransaction c ro).
Proof.
  intros Hn. unfold beginAutoTransaction.
  apply (preserves_bind n n (n + 1)); [lia| |].
  - apply preserves_frames. intros s r s' H. unfold getContext, sbind, sget in H.
    destruct (contexts s !! c); unfold sret, sthrow in H; simplify_eq; reflexivity.
  - intros x. apply (preserves_bind n n (n + 1)); [lia| |].
    + destruct (_ && _); [|apply preserves_frames, frames_ret].
      intros s r s' H. unfold setTx, onContexts, smodify in H. simplify_eq. cbn.
      apply inv_contexts. intros c' t' Ht'. exists t'. split; [|auto].
      destruct (contexts s !! c) as [y|]; [|done]. rewrite act_insert in Ht'.
      by destruct (decide (c' = c)).
    + intros ?. by apply preserves_begin.
Qed.

Lemma preserves_runOp n o : bounded n -> preserves n (n + 1) (runOp o).
Proof.
  intros Hn.
  assert (Hman : forall c ty, preserves n (n + 1) (setMode c MANUAL ;;; beginTransactionInternal c ty)).
  { intros c ty. apply (preserves_bind n n (n + 1)); [lia|apply preserves_setMode|].
    intros ?. by apply preserves_begin. }
  destruct o; cbn [runOp].
  - apply preserves_weaken; [lia|]. apply preserves_connect.
  - apply preserves_weaken; [lia|]. apply preserves_disconnect.
  - apply Hman.
  - apply Hman.
  - apply Hman.
  - by apply preserves_beginAuto.
  - by apply preserves_contextCommit.
  - apply preserves_weaken; [lia|]. apply preserves_contextRollback.
  - apply (preserves_bind n (n + 1) (n + 1)); [lia|by apply preserves_finish|].
    intros ?. apply preserves_frames, frames_ret.
  - apply preserves_weaken; [lia|]. apply preserves_frames, frames_checkpoint.
Qed.

Lemma step_inv n s s' :
  bounded n -> step s s' -> inv n (tm s) (act (contexts s)) -> inv (n + 1) (tm s') (act (contexts s')).
Proof.
  intros Hn Hstep Hinv. destruct Hstep as [o s r s' H|c t s d recs isCopy md Hc].
  - by eapply preserves_runOp.
  - eapply inv_weaken; [|eapply inv_contexts; [|exact Hinv]]; [lia|]. cbn.
    intros c' t' Ht'. rewrite act_insert in Ht'. destruct (decide (c' = c)) as [->|]; [|eauto 10].
    exists t. cbn in Ht'. unfold act. rewrite Hc. cbn.
    unfold checkForceCheckpoint in Ht'. destruct isCopy; simplify_eq; auto.
Qed.

Lemma steps_inv k n s s' :
  nsteps step k s s' -> 0 <= n -> n + Z.of_nat k <= 2 ^ 62 ->
  inv n (tm s) (act (contexts s)) -> inv (n + Z.of_nat k) (tm s') (act (contexts s')).
Proof.
  revert s'. induction k as [|k IH]; intros s' Hs Hn Hk Hinv.
  - inversion Hs; subst. by rewrite Z.add_0_r.
  - apply nsteps_inv_r in Hs as (s1 & Hs1 & Hstep).
    rewrite Nat2Z.inj_succ, Z.add_succ_r. unfold Z.succ. eapply step_inv; [|exact Hstep|].
    + unfold bounded. lia.
    + apply IH; [done|lia|lia|done].
Qed.
End invariant.

Lemma initial_inv d : inv 1 0 (tm (initial d)) (act (contexts (initial d))).
Proof.
  split; cbn.
  - lia.
  - lia.
  - intros i [Hi|Hi]; by apply elem_of_empty in Hi.
  - apply disjoint_empty_l.
  - intros _. rewrite size_empty. lia.
  - intros c t H. unfold act in H. by rewrite lookup_empty in H.
  - intros c c' t t' H. unfold act in H. by rewrite lookup_empty in H.
Qed.

Lemma reachable_inv d n s :
  nsteps step n (initial d) s -> Z.of_nat n <= 2 ^ 62 -> inv 1 (Z.of_nat n) (tm s) (act (contexts s)).
Proof.
  intros Hs Hn. apply (steps_inv 1 n 0 (initial d) s); [done|lia|lia|apply initial_inv].
Qed.

(** From a reachable state the last timestamp never falls. *)
Lemma later_timestamp d n s k s' :
  nsteps step n (initial d) s -> nsteps step k s s' -> Z.of_nat n + Z.of_nat k <= 2 ^ 62 ->
  lastTimestamp (tm s) <= lastTimestamp (tm s') < START_TRANSACTION_ID.
Proof.
  intros Hs Hk Hn. assert (Hinv : inv (lastTimestamp (tm s)) (Z.of_nat n) (tm s) (act (contexts s))).
  { destruct (reachable_inv _ _ _ Hs) as [? ? ? ? ? ? ?]; [lia|]. split; auto. lia. }
  destruct (steps_inv _ k _ s s' Hk (Zle_0_nat n) Hn Hinv) as [_ Hts _ _ _ _ _].
  unfold START_TRANSACTION_ID. lia.
Qed.

(** *** What holds in every reachable state *)

(** C23. Every transaction a connection holds has a 64-bit identity in the upper half and
    a start timestamp in the lower half, no two connections hold the same one, and one
    that is not committed is counted as active. *)
Theorem active_transactions_ok d n s c t :
  nsteps step n (initial d) s -> Z.of_nat n <= 2 ^ 62 -> act (contexts s) c = Some t ->
  wf_ids (startTS t) (ID t) /\
  (forall c' t', act (contexts s) c' = Some t' -> ID t' = ID t -> c' = c) /\
  (commitTS t = INVALID_TRANSACTION -> canCheckpointNoLock (tm s) = false).
Proof.
  intros Hs Hn Ht. destruct (reachable_inv _ _ _ Hs Hn) as [Hid Hts _ _ _ Hctx Hd].
  destruct (Hctx c t Ht) as [_ Hi Hst Ha _]. split_and!.
  - unfold START_TRANSACTION_ID, INVALID_TRANSACTION in *.
    split; unfold START_TRANSACTION_ID, INVALID_TRANSACTION; lia.
  - intros c' t' Ht' Heq. by eapply Hd.
  - intros Hinv. specialize (Ha Hinv). unfold canCheckpointNoLock. apply andb_false_iff.
    destruct (isReadOnly t); [right|left]; apply bool_decide_eq_false; intros He;
      rewrite He in Ha; by apply elem_of_empty in Ha.
Qed.

(** C10. Without multi-writes at most one connection has a running write transaction. *)
Theorem single_writer d n s c c' t t' :
  nsteps step n (initial d) s -> Z.of_nat n <= 2 ^ 62 -> enableMultiWrites cfg = false ->
  act (contexts s) c = Some t -> isReadOnly t = false -> commitTS t = INVALID_TRANSACTION ->
  act (contexts s) c' = Some t' -> isReadOnly t' = false -> commitTS t' = INVALID_TRANSACTION ->
  c = c'.
Proof.
  intros Hs Hn Hm Ht Hro Hc Ht' Hro' Hc'.
  destruct (reachable_inv _ _ _ Hs Hn) as [_ _ _ _ Hsingle Hctx Hd]. specialize (Hsingle Hm).
  destruct (Hctx _ _ Ht) as [_ _ _ Ha _]. destruct (Hctx _ _ Ht') as [_ _ _ Ha' _].
  specialize (Ha Hc). specialize (Ha' Hc'). rewrite Hro in Ha. rewrite Hro' in Ha'.
  eapply Hd; [exact Ht|exact Ht'|].
  destruct (decide (ID t = ID t')) as [|Hne]; [done|exfalso].
  assert (Hsub : ({[ID t; ID t']} : gset Z) ⊆ activeWriteTransactions (tm s)).
  { intros i Hi. apply elem_of_union in Hi as [Hi|Hi]; apply elem_of_singleton in Hi as ->; done. }
  apply subseteq_size in Hsub. rewrite size_union in Hsub by (apply disjoint_singleton_l; by rewrite elem_of_singleton).
  rewrite !size_singleton in Hsub. lia.
Qed.

(** *** Checkpoints *)

Lemma wait_quiescent fuel k s :
  canCheckpointNoLock (tm s) = true -> waitUntilAllTransactionsLeave (S fuel) k s = (Ok tt, s).
Proof. intros H. cbn. unfold sbind, sget. rewrite H. done. Qed.

Lemma wait_timeout fuel k s :
  canCheckpointNoLock (tm s) = false -> 0 <= k ->
  0 <= checkpointWaitTimeoutInMicros cfg < 2 ^ 62 ->
  checkpointWaitTimeoutInMicros cfg / 500 < k + Z.of_nat fuel ->
  k <= checkpointWaitTimeoutInMicros cfg / 500 ->
  waitUntilAllTransactionsLeave fuel k s =
    (Err checkpointTimeout, mkSystem (setStartingLocked false (tm s)) (wal s) (contexts s) (db s)).
Proof.
  intros Hc Hk Ht. revert k Hk. induction fuel as [|fuel IH]; intros k Hk Hf Hle; [lia|].
  cbn [waitUntilAllTransactionsLeave]. unfold sbind at 1, sget at 1. rewrite Hc. cbn -[Z.of_nat Z.add Z.mul wrapU].
  unfold THREAD_SLEEP_TIME_WHEN_WAITING_IN_MICROS.
  pose proof (Z.div_mod (checkpointWaitTimeoutInMicros cfg) 500 ltac:(lia)) as Hdm.
  pose proof (Z.mod_pos_bound (checkpointWaitTimeoutInMicros cfg) 500 ltac:(lia)) as Hmb.
  unfold wrapU. rewrite Z.mod_small by lia.
  destruct (Z.ltb_spec (checkpointWaitTimeoutInMicros cfg) ((k + 1) * 500)) as [Hlt|Hge].
  - done.
  - apply IH; lia.
Qed.

(** A checkpoint runs only when no transaction is active.  The mutex under which the
    wait runs keeps every other transaction from ending, so with an active one the call
    fails with the timeout and leaves the system as it was; without, a successful
    checkpoint empties the log and lets transactions start again. *)
Theorem checkpoint_quiescent s :
  startingLocked (tm s) = false -> 0 <= checkpointWaitTimeoutInMicros cfg < 2 ^ 62 ->
  if canCheckpointNoLock (tm s)
  then forall s', checkpointNoLock s = (Ok tt, s') ->
         wal s' = [] /\ startingLocked (tm s') = false /\ sameCore s s'
  else checkpointNoLock s = (Err checkpointTimeout, s).
Proof.
  intros Hl Ht. destruct (canCheckpointNoLock (tm s)) eqn:Hc.
  - intros s' H. split_and!; [| |by eapply frames_checkpointNoLock].
    all: unfold checkpointNoLock, allowReceivingNewTransactions, onTM, smodify, log, clearWAL, onDB, szoom in H;
      unfold smodify in H; unfold sbind in H; repeat case_match; simplify_eq; reflexivity.
  - unfold checkpointNoLock, stopNewTransactionsAndWaitUntilAllTransactionsLeave, lockStarting.
    unfold sbind at 1, sbind at 1, sbind at 1, sget at 1. rewrite Hl. unfold onTM at 1, smodify at 1.
    rewrite wait_timeout; [|done|lia|done| |].
    + cbn. destruct s as [[? ? ? ? b] ? ? ?]. cbn in Hl. subst b. done.
    + unfold waitFuel, THREAD_SLEEP_TIME_WHEN_WAITING_IN_MICROS.
      rewrite !Nat2Z.inj_succ, Z2Nat.id by (apply Z.div_pos; lia). lia.
    + apply Z.div_pos; lia.
Qed.

(** When writing the checkpoint fails, the mutex stays locked: from then on no
    transaction of any connection can start. *)
Theorem failed_checkpoint_blocks s e d :
  isDBPathInMemory cfg = false -> startingLocked (tm s) = false -> canCheckpointNoLock (tm s) = true ->
  storageCheckpoint (db s) = (Err e, d) ->
  exists s', checkpoint s = (Err e, s') /\ forall ty, beginTransaction ty s' = (Err Blocked, s').
Proof.
  intros Hmem Hl Hc He.
  exists (mkSystem (setStartingLocked true (tm s)) (wal s) (contexts s) d). split; [|done].
  unfold checkpoint. rewrite Hmem.
  unfold checkpointNoLock, stopNewTransactionsAndWaitUntilAllTransactionsLeave, lockStarting.
  unfold sbind at 1, sbind at 1, sbind at 1, sget at 1. rewrite Hl. unfold onTM at 1, smodify at 1.
  unfold waitFuel. rewrite wait_quiescent by done.
  unfold sbind at 1, onDB at 1, szoom at 1. cbn. by rewrite He.
Qed.

(** *** The order of commits and snapshots *)

(** The commit of a writer, when it succeeds. *)
Lemma commit_write_effects c s s' t :
  act (contexts s) c = Some t -> type t = WRITE \/ type t = RECOVERY -> commit c s = (Ok tt, s') ->
  let cts := wrapU 64 (lastTimestamp (tm s) + 1) in
  let u := setCommitTS t cts in
  lastTimestamp (tm s') = cts /\
  exists d1 d2 d3, cleanUP (db s) = (Ok tt, d1) /\ localStorageCommit u d1 = (Ok tt, d2) /\
    undoBufferCommit u cts d2 = (Ok tt, d3).
Proof.
  intros Ht Hty H cts u. unfold commit in H. unfold sbind at 1, onDB at 1, szoom at 1 in H.
  destruct (cleanUP (db s)) as [[[]|e] d1] eqn:E1; [|done].
  set (s1 := mkSystem (tm s) (wal s) (contexts s) d1) in H.
  unfold sbind at 1 in H. destruct (getTx c s1) as [r1 s2] eqn:E2.
  destruct (getTx_cases _ _ _ _ E2) as [-> [->|(t0 & -> & Ht0)]]; [done|].
  cbn in Ht0. rewrite Ht in Ht0. simplify_eq.
  assert (Hw : (onTM nextTimestamp ;;;
     s <- sget ;;
     let t := setCommitTS t0 (lastTimestamp (tm s)) in
     setTx c (Some t) ;;;
     transactionCommit t ;;;
     onTM (eraseWrite (ID t)) ;;;
     s <- sget ;;
     if shouldForceCheckpoint (isDBPathInMemory cfg) t || canAutoCheckpoint s t
     then checkpointNoLock else sret tt) s1 = (Ok tt, s')) by (destruct Hty as [Hty|Hty]; rewrite Hty in H; exact H).
  clear H. unfold sbind, onTM, smodify, sget in Hw.
  cbn -[setTx transactionCommit checkpointNoLock wrapU canAutoCheckpoint] in Hw.
  fold cts u in Hw. set (s2 := mkSystem (nextTimestamp (tm s)) (wal s) (contexts s) d1) in Hw.
  destruct (setTx c (Some u) s2) as [r3 s3] eqn:E3.
  assert (Hs3 : r3 = Ok tt /\ tm s3 = nextTimestamp (tm s) /\ db s3 = d1).
  { unfold setTx, onContexts, smodify in E3. simplify_eq. done. }
  destruct Hs3 as (-> & Htm3 & Hdb3).
  destruct (transactionCommit u s3) as [[[]|e] s4] eqn:E4; [|done].
  pose proof (frames_transactionCommit _ _ _ _ E4) as (_ & _ & _ & Hts4 & _).
  assert (Hlast : forall s5 r, (if shouldForceCheckpoint (isDBPathInMemory cfg) u || canAutoCheckpoint s5 u
     then checkpointNoLock else sret tt) s5 = (r, s') -> lastTimestamp (tm s') = lastTimestamp (tm s5)).
  { intros s5 r H5.
    destruct (shouldForceCheckpoint (isDBPathInMemory cfg) u || canAutoCheckpoint s5 u);
      [|injection H5 as _ <-; done].
    by destruct (frames_checkpointNoLock _ _ _ H5) as (_ & _ & _ & -> & _). }
  split.
  - rewrite (Hlast _ _ Hw). cbn. by rewrite Hts4, Htm3.
  - unfold transactionCommit, onDB, szoom in E4. unfold sbind in E4. cbn in E4. rewrite Hdb3 in E4.
    destruct (localStorageCommit u d1) as [[[]|e] d2] eqn:E5; [|done]. cbn in E4.
    destruct (undoBufferCommit u cts d2) as [[[]|e] d3] eqn:E6; [|done].
    exists d1, d2, d3. auto.
Qed.

Lemma contextCommit_ok c s s' t :
  act (contexts s) c = Some t -> contextCommit c s = (Ok tt, s') ->
  exists s1, commit c s = (Ok tt, s1) /\ tm s' = tm s1.
Proof.
  unfold act, contextCommit, getContext. intros Ht H. unfold sbind in H.
  cbn -[commit clearTransaction hasActiveTransaction] in H.
  destruct (contexts s !! c) as [x|] eqn:Ex; [|done]. cbn in Ht.
  cbn -[commit clearTransaction hasActiveTransaction] in H. unfold hasActiveTransaction in H. rewrite Ht in H.
  destruct (commit c s) as [[[]|e] s1] eqn:Ec; [|done].
  exists s1. split; [done|]. by destruct (clear_act _ _ _ H).
Qed.

(** C2. Snapshots: a writer that commits hands the undo buffer a timestamp that no
    transaction running at that time sees, and that every transaction which starts after
    the commit does see. *)
Theorem commit_timestamps d n s c t s' :
  nsteps step n (initial d) s -> Z.of_nat n < 2 ^ 62 ->
  act (contexts s) c = Some t -> type t = WRITE \/ type t = RECOVERY ->
  contextCommit c s = (Ok tt, s') ->
  exists cts d1 d2 d3,
    localStorageCommit (setCommitTS t cts) d1 = (Ok tt, d2) /\
    undoBufferCommit (setCommitTS t cts) cts d2 = (Ok tt, d3) /\
    (forall c' u, act (contexts s) c' = Some u -> visible (startTS u) (ID u) cts = false) /\
    (forall k s1 ty u s2, nsteps step k s' s1 -> Z.of_nat n + 1 + Z.of_nat k <= 2 ^ 62 ->
       beginTransaction ty s1 = (Ok u, s2) -> visible (startTS u) (ID u) cts = true).
Proof.
  intros Hs Hn Ht Hty Hcommit.
  destruct (reachable_inv _ _ _ Hs (Z.lt_le_incl _ _ Hn)) as [Hid Hts _ _ _ Hctx _].
  assert (Hwrap : wrapU 64 (lastTimestamp (tm s) + 1) = lastTimestamp (tm s) + 1).
  { apply (wrap_next (Z.of_nat n)); unfold bounded, START_TRANSACTION_ID; lia. }
  destruct (contextCommit_ok _ _ _ _ Ht Hcommit) as (s0 & Hc0 & Htm).
  destruct (commit_write_effects _ _ _ _ Ht Hty Hc0) as (Hlast & d1 & d2 & d3 & _ & Hl & Hu).
  rewrite Hwrap in *. exists (lastTimestamp (tm s) + 1), d1, d2, d3. split_and!; [done|done| |].
  - intros c' u Hu'. destruct (Hctx _ _ Hu') as [_ Hi Hst _ _]. unfold visible.
    apply orb_false_iff. unfold START_TRANSACTION_ID in *. lia.
  - intros k s1 ty u s2 Hk Hkn Hb.
    assert (Hs' : nsteps step (S n) (initial d) s').
    { eapply nsteps_r; [exact Hs|]. by eapply (step_op (OpCommit c)). }
    pose proof (later_timestamp _ _ _ _ _ Hs' Hk ltac:(lia)) as Hlater.
    destruct (beginTransaction_cases _ _ _ _ Hb) as [(e & He & _)|(Heq & _)]; [congruence|].
    injection Heq as ->. cbn. unfold visible. apply orb_true_iff. right.
    rewrite Htm, Hlast in Hlater. lia.
Qed.

(** A run of operations, one after the other, whatever each ends in. *)
Definition runOps (os : list Op) (s : System DB) : System DB :=
  fold_left (fun s o => snd (runOp o s)) os s.

Lemma runOps_nsteps os s : nsteps step (length os) s (runOps os s).
Proof.
  revert s. induction os as [|o os IH]; intros s; cbn; [constructor|].
  econstructor; [|apply IH]. eapply (step_op o). apply surjective_pairing.
Qed.
End TransactionManager.

(** ** A store that records what it is asked, for concrete runs *)

Inductive Event : Type :=
| LocalCommitted (id : Z)
| UndoCommitted (id ts : Z)
| LocalRolledBack (id : Z)
| UndoRolledBack (id : Z)
| Checkpointed.

#[global] Instance Event_eq_dec : EqDecision Event.
Proof. solve_decision. Defined.

(** [failing]: the storage's part of a checkpoint throws. *)
Definition recordEvent (e : Event) : M (bool * list Event) unit :=
  smodify (fun '(failing, es) => (failing, es ++ [e])).
#[global] Instance eventStore : DataStore (bool * list Event) := {
  cleanUP := sret tt;
  localStorageCommit t := recordEvent (LocalCommitted (ID t));
  localStorageRollback t := recordEvent (LocalRolledBack (ID t));
  undoBufferCommit t ts := recordEvent (UndoCommitted (ID t) ts);
  undoBufferRollback t := recordEvent (UndoRolledBack (ID t));
  storageCheckpoint := fun s => if fst s then (Err (RuntimeException "disk full"), s)
                                else recordEvent Checkpointed s;
  catalogCheckpoint := sret tt;
  overwriteWALVersionFiles := sret tt;
  replayShadowPageRecords := sret tt;
  shadowFileClearAll := sret tt;
  removeWALVersionFiles := sret tt;
  getEstimatedMemUsage _ _ := 0;
  walFileSize w := Z.of_nat (length w);
}.

Definition exampleConfig : DBConfig :=
  mkConfig false false true 16777216 DEFAULT_CHECKPOINT_WAIT_TIMEOUT_IN_MICROS.
Definition exampleOps : list Op :=
  [OpConnect 0; OpConnect 1; OpBeginRead 1; OpBeginAuto 0 false].
Definition exampleSystem : System (bool * list Event) :=
  runOps exampleConfig exampleOps (initial (false, [])).
Definition exampleWriter : Transaction := newTransaction WRITE (START_TRANSACTION_ID + 2) 1.

Lemma example_reachable : nsteps (step exampleConfig) 4 (initial (false, [])) exampleSystem.
Proof. apply (runOps_nsteps exampleConfig exampleOps). Qed.

Lemma active_transactions_ok_witness :
  act (contexts exampleSystem) 0 = Some exampleWriter /\ wf_ids (startTS exampleWriter) (ID exampleWriter).
Proof.
  split; [vm_compute; reflexivity|].
  apply (active_transactions_ok exampleConfig (false, []) 4 exampleSystem 0 exampleWriter
           example_reachable ltac:(lia)). vm_compute. reflexivity.
Defined.

Lemma single_writer_witness : 0%nat = 0%nat.
Proof.
  apply (single_writer exampleConfig (false, []) 4 exampleSystem 0 0 exampleWriter exampleWriter
           example_reachable ltac:(lia)); vm_compute; reflexivity.
Defined.

Lemma commit_timestamps_witness :
  exists cts, visible 1 (START_TRANSACTION_ID + 1) cts = false.
Proof.
  destruct (commit_timestamps exampleConfig (false, []) 4 exampleSystem 0 exampleWriter
              (snd (contextCommit exampleConfig 0 exampleSystem)) example_reachable ltac:(lia)
              ltac:(vm_compute; reflexivity) (or_introl eq_refl) ltac:(vm_compute; reflexivity))
    as (cts & _ & _ & _ & _ & _ & Hold & _).
  exists cts. apply (Hold 1%nat (newTransaction READ_ONLY (START_TRANSACTION_ID + 1) 1)).
  vm_compute. reflexivity.
Defined.

Lemma checkpoint_quiescent_witness :
  checkpointNoLock exampleConfig exampleSystem = (Err checkpointTimeout, exampleSystem).
Proof.
  apply (checkpoint_quiescent exampleConfig exampleSystem); [vm_compute; reflexivity|].
  vm_compute. split; [discriminate|reflexivity].
Defined.

Definition fullDisk : System (bool * list Event) := initial (true, []).

Lemma failed_checkpoint_blocks_witness :
  exists s', checkpoint exampleConfig fullDisk = (Err (RuntimeException "disk full"), s').
Proof.
  destruct (failed_checkpoint_blocks exampleConfig fullDisk (RuntimeException "disk full") (true, []))
    as (s' & H & _); [reflexivity|reflexivity|reflexivity|reflexivity|].
  exists s'. exact H.
Defined.

(** ** A commit that is rolled back

    A [COPY FROM] statement commits while another connection has a transaction open: the
    changes get their timestamp and the log its flushed commit record, then the
    checkpoint times out, and the exception makes the connection roll the committed
    transaction back. *)
Definition copySystem : System (bool * list Event) :=
  mkSystem (tm exampleSystem) (wal exampleSystem)
    (<[0%nat := mkTxContext AUTO (Some (checkForceCheckpoint true exampleWriter))]> (contexts exampleSystem))
    (db exampleSystem).

Lemma copySystem_reachable : nsteps (step exampleConfig) 5 (initial (false, [])) copySystem.
Proof.
  eapply nsteps_r; [exact example_reachable|].
  pose proof (step_statement exampleConfig 0 exampleWriter exampleSystem (db exampleSystem) [] true AUTO) as H.
  rewrite app_nil_r in H. apply H. vm_compute. reflexivity.
Qed.

Theorem committed_then_rolled_back :
  nsteps (step exampleConfig) 5 (initial (false, [])) copySystem /\
  let '(r, s') := finishStatement exampleConfig 0 copySystem in
  r = Ok (Some checkpointTimeout) /\
  wal s' = [BEGIN_TRANSACTION_RECORD; COMMIT_RECORD; ROLLBACK_RECORD] /\
  snd (db s') = [LocalCommitted (ID exampleWriter); UndoCommitted (ID exampleWriter) 2;
                 LocalRolledBack (ID exampleWriter); UndoRolledBack (ID exampleWriter)].
Proof. split; [exact copySystem_reachable|]. vm_compute. auto. Qed.

(** ** The order of the two mutexes *)

Inductive Mutex : Type := mtxForSerializingPublicFunctionCalls | mtxForStartingNewTransactions.

#[global] Instance Mutex_eq_dec : EqDecision Mutex.
Proof. solve_decision. Defined.

Inductive LockOp : Type := Acquire (m : Mutex) | Release (m : Mutex).

(** What a call does with the mutexes, in program order. *)
Definition beginLocks : list LockOp :=
  [Acquire mtxForStartingNewTransactions; Acquire mtxForSerializingPublicFunctionCalls;
   Release mtxForSerializingPublicFunctionCalls; Release mtxForStartingNewTransactions].
Definition commitLocks (checkpoints : bool) : list LockOp :=
  Acquire mtxForSerializingPublicFunctionCalls ::
  (if checkpoints then [Acquire mtxForStartingNewTransactions; Release mtxForStartingNewTransactions] else [])
  ++ [Release mtxForSerializingPublicFunctionCalls].

(** Each thread has the rest of its call; [held] is the set of locked mutexes. *)
Record Threads : Type := mkThreads { held : list Mutex; calls : list (list LockOp) }.

Inductive lockStep : Threads -> Threads -> Prop :=
| lock_acquire i m ops th :
    calls th !! i = Some (Acquire m :: ops) -> m ∉ held th ->
    lockStep th (mkThreads (m :: held th) (<[i := ops]> (calls th)))
| lock_release i m ops th :
    calls th !! i = Some (Release m :: ops) ->
    lockStep th (mkThreads (filter (.≠ m) (held th)) (<[i := ops]> (calls th))).

Lemma lockStep_acquire_inv th th' :
  (forall i ops, calls th !! i = Some ops -> exists m ops', ops = Acquire m :: ops' /\ m ∈ held th) ->
  lockStep th th' -> False.
Proof.
  intros Hall H. destruct H as [i m ops th Hi Hm|i m ops th Hi];
    destruct (Hall _ _ Hi) as (m' & ops' & Heq & Hin); simplify_eq; by apply Hm.
Qed.

(** A transaction that begins while another commits with a checkpoint: each can come to
    wait for the mutex the other holds. *)
Theorem lock_order_deadlock :
  exists th, rtc lockStep (mkThreads [] [beginLocks; commitLocks true]) th /\
    (forall th', ~ lockStep th th') /\ Forall (fun ops => ops <> []) (calls th).
Proof.
  eexists. split; [|split].
  - eapply rtc_l; [apply (lock_acquire 0); [reflexivity|by apply not_elem_of_nil]|].
    eapply rtc_l; [apply (lock_acquire 1); [reflexivity|]|apply rtc_refl].
    cbn. intros H. apply list_elem_of_singleton in H. discriminate.
  - intros th' H. eapply lockStep_acquire_inv; [|exact H]. cbn.
    intros [|[|i]] ops Hi; cbn in Hi; simplify_eq; eexists _, _; (split; [reflexivity|]).
    + apply list_elem_of_here.
    + apply list_elem_of_further, list_elem_of_here.
  - cbn. repeat constructor; discriminate.
Qed.
