(* ===== verification/PropertyCollection.v ===== *)
(** * The properties of a table (src/catalog/property_definition_collection.cpp,
      src/include/catalog/property_definition_collection.h)

    Definitions in order, the column of each, and an index from names to positions.
    Names are compared without case ([case_insensitive_map_t]): the map is keyed by the
    name in lower case.  A definition has its name and a rest (its type and default
    expression) whose serialization is given. *)

From S2P Require Import Prelude Serializer.
From stdpp Require Import base list gmap strings numbers.
From Stdlib Require Import Ascii.
Local Open Scope Z_scope.

(** [StringUtils::caseInsensitiveEquals] compares the two strings in lower case. *)
Definition lowerAscii (a : ascii) : ascii :=
  let n := nat_of_ascii a in
  if decide (65 <= n <= 90)%nat then ascii_of_nat (n + 32) else a.
Fixpoint lower (s : string) : string :=
  match s with
  | EmptyString => EmptyString
  | String a s' => String (lowerAscii a) (lower s')
  end.

Section PropertyCollection.
Context {D : Type} (serializeRest : D -> Writer unit) (deserializeRest : Reader D).

Record PropertyDefinition : Type := mkProperty { getName : string; getRest : D }.
Definition renameDefinition (newName : string) (p : PropertyDefinition) : PropertyDefinition :=
  mkProperty newName (getRest p).
Definition serializeDefinition (p : PropertyDefinition) : Writer unit :=
  serializeString (getName p) ;;; serializeRest (getRest p).
Definition deserializeDefinition : Reader PropertyDefinition :=
  n <- deserializeString ;; r <- deserializeRest ;; sret (mkProperty n r).

Record PropertyDefinitionCollection : Type := mkCollection {
  nextColumnID : Z;
  definitions : list PropertyDefinition;
  columnIDs : list Z;
  nameToPropertyIdxMap : gmap string nat;
}.
Implicit Types c : PropertyDefinitionCollection.

Definition newCollection (next : Z) : PropertyDefinitionCollection := mkCollection next [] [] ∅.

(** [map.insert({name, idx})]: nothing when the name is there. *)
Definition insertName (m : gmap string nat) (name : string) (i : nat) : gmap string nat :=
  match m !! lower name with Some _ => m | None => <[lower name := i]> m end.
Definition contains c (name : string) : bool :=
  bool_decide (is_Some (nameToPropertyIdxMap c !! lower name)).
Definition getIdx c (name : string) : outcome nat :=
  match nameToPropertyIdxMap c !! lower name with Some i => Ok i | None => Err InternalException end.
Definition getDefinitionAt c (i : nat) : outcome PropertyDefinition :=
  match definitions c !! i with Some d => Ok d | None => Err InternalException end.
Definition getDefinition c (name : string) : outcome PropertyDefinition :=
  let* i := getIdx c name in getDefinitionAt c i.
Definition getColumnIDAt c (i : nat) : outcome Z :=
  match columnIDs c !! i with Some d => Ok d | None => Err InternalException end.
Definition getColumnID c (name : string) : outcome Z :=
  let* i := getIdx c name in getColumnIDAt c i.

(** [nextColumnID++] on 32 bits, once for each definition. *)
Fixpoint assignColumnIDs (n : nat) (next : Z) : list Z * Z :=
  match n with
  | O => ([], next)
  | S n' => let '(ids, next') := assignColumnIDs n' (wrapU 32 (next + 1)) in (next :: ids, next')
  end.
Definition vacuumColumnIDs (next : Z) c : PropertyDefinitionCollection :=
  let '(ids, next') := assignColumnIDs (length (definitions c)) next in
  mkCollection next' (definitions c) ids (nameToPropertyIdxMap c).

Definition add (d : PropertyDefinition) c : PropertyDefinitionCollection :=
  mkCollection (wrapU 32 (nextColumnID c + 1)) (definitions c ++ [d])
    (columnIDs c ++ [nextColumnID c])
    (insertName (nameToPropertyIdxMap c) (getName d) (length (definitions c))).

(** The loop that fills the map again: positions from [i] on. *)
Fixpoint indexNames (m : gmap string nat) (ds : list PropertyDefinition) (i : nat) : gmap string nat :=
  match ds with
  | [] => m
  | d :: ds' => indexNames (insertName m (getName d) i) ds' (S i)
  end.

(** [vector.erase(begin() + i)]. *)
Definition eraseAt {A} (i : nat) (l : list A) : list A := take i l ++ drop (S i) l.

Definition drop_ (name : string) c : outcome PropertyDefinitionCollection :=
  let* i := getIdx c name in
  if decide (i < length (definitions c) /\ i < length (columnIDs c))%nat then
    let ds := eraseAt i (definitions c) in
    Ok (mkCollection (nextColumnID c) ds (eraseAt i (columnIDs c)) (indexNames ∅ ds 0))
  else Err UndefinedBehaviour.

Definition rename (name newName : string) c : outcome PropertyDefinitionCollection :=
  let* i := getIdx c name in
  match definitions c !! i with
  | None => Err UndefinedBehaviour
  | Some d =>
      Ok (mkCollection (nextColumnID c) (<[i := renameDefinition newName d]> (definitions c))
            (columnIDs c) (insertName (delete (lower name) (nameToPropertyIdxMap c)) newName i))
  end.

Definition getMaxColumnID c : Z :=
  fold_left (fun maxID id => if maxID <? id then id else maxID) (columnIDs c) 0.

Definition serialize c : Writer unit :=
  serializeU 4 (nextColumnID c) ;;;
  serializeVector serializeDefinition (definitions c) ;;;
  serializeVector (serializeU 4) (columnIDs c).
Definition deserialize : Reader PropertyDefinitionCollection :=
  next <- deserializeU 4 ;;
  ds <- deserializeVector deserializeDefinition ;;
  ids <- deserializeVector (deserializeU 4) ;;
  sret (mkCollection next ds ids (indexNames ∅ ds 0)).

(** ** Well-formed collections *)

Definition key (d : PropertyDefinition) : string := lower (getName d).

Record wf_collection c : Prop := {
  wf_length : length (columnIDs c) = length (definitions c);
  wf_names : NoDup (key <$> definitions c);
  wf_index : forall k i, nameToPropertyIdxMap c !! k = Some i <-> (key <$> definitions c) !! i = Some k;
  wf_columns : NoDup (columnIDs c);
  wf_next : Forall (fun id => 0 <= id < nextColumnID c) (columnIDs c);
  wf_range : 0 <= nextColumnID c < 2 ^ 32;
}.

(** The definition and the column of a name. *)
Definition property c (name : string) : option (PropertyDefinition * Z) :=
  i ← nameToPropertyIdxMap c !! lower name;
  d ← definitions c !! i; id ← columnIDs c !! i; Some (d, id).

Lemma property_spec c name : wf_collection c ->
  match property c name with
  | Some (d, id) => getDefinition c name = Ok d /\ getColumnID c name = Ok id /\
                    contains c name = true /\ key d = lower name
  | None => contains c name = false /\ getDefinition c name = Err InternalException
  end.
Proof.
  intros [Hl _ Hidx _ _ _]. unfold property, getDefinition, getColumnID, getIdx, contains.
  destruct (nameToPropertyIdxMap c !! lower name) as [i|] eqn:Ei; cbn.
  - pose proof (proj1 (Hidx _ _) Ei) as Hk. rewrite list_lookup_fmap in Hk.
    unfold getDefinitionAt, getColumnIDAt.
    destruct (definitions c !! i) as [d|] eqn:Ed; [|done]. cbn in *. simplify_eq.
    assert (Hlt : (i < length (columnIDs c))%nat) by (rewrite Hl; by eapply lookup_lt_Some).
    apply lookup_lt_is_Some_2 in Hlt as [id Hid]. rewrite Hid. cbn.
    by split_and!.
  - done.
Qed.

(** The properties of a collection, by position. *)
Lemma property_at c name d id : wf_collection c ->
  property c name = Some (d, id) <->
  exists i, definitions c !! i = Some d /\ columnIDs c !! i = Some id /\ key d = lower name.
Proof.
  intros [Hl Hnd Hidx _ _ _]. unfold property. split.
  - destruct (nameToPropertyIdxMap c !! lower name) as [i|] eqn:Ei; [|done]. cbn.
    destruct (definitions c !! i) as [d'|] eqn:Ed; [|done]. cbn.
    destruct (columnIDs c !! i) as [id'|] eqn:Eid; [|done]. cbn. intros [= -> ->].
    exists i. split_and!; [done|done|].
    pose proof (proj1 (Hidx _ _) Ei) as Hk. rewrite list_lookup_fmap, Ed in Hk. by injection Hk.
  - intros (i & Hd & Hid & Hk).
    assert (Hi : nameToPropertyIdxMap c !! lower name = Some i).
    { apply Hidx. by rewrite list_lookup_fmap, Hd, <- Hk. }
    by rewrite Hi; cbn; rewrite Hd; cbn; rewrite Hid.
Qed.

Lemma newCollection_wf next : 0 <= next < 2 ^ 32 -> wf_collection (newCollection next).
Proof.
  intros H. split; cbn; auto; try constructor.
  - by rewrite lookup_empty.
  - done.
Qed.

(** Filling the map from definitions with distinct names. *)
Lemma indexNames_spec ds m i :
  NoDup (key <$> ds) -> (forall d, d ∈ ds -> m !! key d = None) ->
  forall k j, indexNames m ds i !! k = Some j <->
    m !! k = Some j \/ exists n, (key <$> ds) !! n = Some k /\ j = (i + n)%nat.
Proof.
  revert m i. induction ds as [|d ds IH]; intros m i Hnd Hfresh k j; cbn.
  - split; [by left|]. intros [H|(n & Hn & _)]; done.
  - cbn in Hnd. apply list.NoDup_cons in Hnd as [Hd Hnd].
    assert (Hm : m !! key d = None) by (apply Hfresh, list_elem_of_here).
    unfold insertName. fold (key d). rewrite Hm.
    rewrite IH; [|done|].
    + destruct (decide (k = key d)) as [->|Hne].
      * rewrite lookup_insert_eq, Hm. split.
        -- intros [[= ->]|(n & Hn & ->)]; [right; exists 0%nat; split; [done|lia]|].
           exfalso. apply Hd. by eapply list_elem_of_lookup_2.
        -- intros [|([|n] & Hn & ->)]; [done| |].
           ++ left. f_equal. lia.
           ++ exfalso. apply Hd. cbn in Hn. by eapply list_elem_of_lookup_2.
      * rewrite lookup_insert_ne by done. split.
        -- intros [H|(n & Hn & ->)]; [by left|]. right. exists (S n). split; [done|lia].
        -- intros [H|([|n] & Hn & ->)]; [by left| |].
           ++ cbn in Hn. congruence.
           ++ right. exists n. split; [done|lia].
    + intros d' Hd'. rewrite lookup_insert_ne.
      * apply Hfresh. by apply list_elem_of_further.
      * intros Heq. apply Hd. rewrite Heq. by apply list_elem_of_fmap_2.
Qed.

Lemma indexNames_fresh ds : NoDup (key <$> ds) ->
  forall k i, indexNames ∅ ds 0 !! k = Some i <-> (key <$> ds) !! i = Some k.
Proof.
  intros Hnd k i. rewrite indexNames_spec; [|done|intros; apply lookup_empty].
  rewrite lookup_empty. split.
  - intros [|(n & Hn & ->)]; [done|]. by cbn.
  - intros H. right. exists i. auto.
Qed.

(** ** The operations *)

Lemma lookup_eraseAt {A} (l : list A) i n :
  eraseAt i l !! n = if decide (n < i)%nat then l !! n else l !! S n.
Proof.
  unfold eraseAt. destruct (decide (i <= length l)%nat) as [Hi|Hi].
  - destruct (decide (n < i)%nat).
    + rewrite lookup_app_l by (rewrite length_take; lia). by rewrite lookup_take_lt.
    + rewrite lookup_app_r by (rewrite length_take; lia).
      rewrite length_take, Nat.min_l by lia. rewrite lookup_drop. f_equal. lia.
  - rewrite take_ge, drop_ge, app_nil_r by lia. destruct (decide (n < i)%nat); [done|].
    rewrite !lookup_ge_None_2 by lia. done.
Qed.

Lemma length_eraseAt {A} (l : list A) i : (i < length l)%nat -> length (eraseAt i l) = pred (length l).
Proof. intros Hi. unfold eraseAt. rewrite length_app, length_take, length_drop. lia. Qed.

(** Positions of the shortened list in the old one. *)
Definition oldIdx (i n : nat) : nat := if decide (n < i)%nat then n else S n.

Lemma lookup_eraseAt_old {A} (l : list A) i n : eraseAt i l !! n = l !! oldIdx i n.
Proof. rewrite lookup_eraseAt. unfold oldIdx. by destruct (decide _). Qed.

Lemma oldIdx_inj i n m : oldIdx i n = oldIdx i m -> n = m.
Proof. unfold oldIdx. destruct (decide (n < i)%nat), (decide (m < i)%nat); lia. Qed.

Lemma oldIdx_ne i n : oldIdx i n <> i.
Proof. unfold oldIdx. destruct (decide (n < i)%nat); lia. Qed.

Lemma oldIdx_surj i n : n <> i -> exists m, oldIdx i m = n.
Proof.
  intros Hne. destruct (decide (n < i)%nat).
  - exists n. unfold oldIdx. by rewrite decide_True.
  - exists (pred n). unfold oldIdx. rewrite decide_False by lia. lia.
Qed.

Lemma NoDup_eraseAt {A} (l : list A) i : NoDup l -> NoDup (eraseAt i l).
Proof.
  intros Hnd. apply NoDup_alt. intros n m x Hn Hm. rewrite !lookup_eraseAt_old in *.
  apply (oldIdx_inj i). by eapply NoDup_lookup.
Qed.

Lemma fmap_eraseAt {A B} (f : A -> B) (l : list A) i : f <$> eraseAt i l = eraseAt i (f <$> l).
Proof. unfold eraseAt. by rewrite fmap_app, fmap_take, fmap_drop. Qed.

Lemma contains_false c name : contains c name = false -> nameToPropertyIdxMap c !! lower name = None.
Proof. unfold contains. intros H%bool_decide_eq_false. by apply eq_None_not_Some. Qed.

Lemma contains_true c name : wf_collection c -> contains c name = true ->
  exists i d id, nameToPropertyIdxMap c !! lower name = Some i /\ definitions c !! i = Some d /\
    columnIDs c !! i = Some id /\ key d = lower name.
Proof.
  intros [Hl _ Hidx _ _ _] [i Hi]%bool_decide_eq_true.
  pose proof (proj1 (Hidx _ _) Hi) as Hk. rewrite list_lookup_fmap in Hk.
  destruct (definitions c !! i) as [d|] eqn:Ed; [|done]. injection Hk as Hkd.
  destruct (lookup_lt_is_Some_2 (columnIDs c) i) as [id Hid]; [|by exists i, d, id].
  rewrite Hl. by eapply lookup_lt_Some.
Qed.

(** The index after appending a definition whose name is free. *)
Lemma add_index c d : wf_collection c -> contains c (getName d) = false ->
  nameToPropertyIdxMap (add d c) = <[key d := length (definitions c)]> (nameToPropertyIdxMap c).
Proof. intros _ Hnone%contains_false. cbn. unfold insertName, key. by rewrite Hnone. Qed.

Lemma add_wf c d : wf_collection c -> contains c (getName d) = false -> nextColumnID c < 2 ^ 32 - 1 ->
  wf_collection (add d c).
Proof.
  intros Hwf Hfree Hnext. pose proof Hwf as [Hl Hnd Hidx Hcol Hlt Hrange].
  pose proof (contains_false _ _ Hfree) as Hnone.
  assert (Hwrap : wrapU 32 (nextColumnID c + 1) = nextColumnID c + 1) by (apply Z.mod_small; lia).
  assert (Hkey : key d ∉ key <$> definitions c).
  { intros [i Hi]%list_elem_of_lookup_1. apply Hidx in Hi. unfold key in *. congruence. }
  split; rewrite ?add_index by done; cbn -[nameToPropertyIdxMap]; rewrite ?Hwrap.
  - rewrite !length_app. cbn. lia.
  - rewrite fmap_app. apply list.NoDup_app. split_and!; [done| |apply NoDup_singleton].
    intros k Hk Hin. apply list_elem_of_singleton in Hin. by subst.
  - intros k i. rewrite fmap_app. destruct (decide (k = key d)) as [->|Hne].
    + rewrite lookup_insert_eq. split.
      * intros [= <-]. rewrite lookup_app_r by (by rewrite length_fmap).
        by rewrite length_fmap, Nat.sub_diag.
      * intros [Hi|[Hge Hi]]%lookup_app_Some.
        -- exfalso. apply Hkey. by eapply list_elem_of_lookup_2.
        -- rewrite length_fmap in *. apply list_lookup_singleton_Some in Hi as [E _]. f_equal. lia.
    + rewrite lookup_insert_ne by done. rewrite Hidx. split.
      * intros Hi. by apply lookup_app_l_Some.
      * intros [Hi|[Hge Hi]]%lookup_app_Some; [done|].
        apply list_lookup_singleton_Some in Hi as [_ <-]. done.
  - apply list.NoDup_app. split_and!; [done| |apply NoDup_singleton].
    intros id Hid Hin. apply list_elem_of_singleton in Hin. subst.
    apply list_elem_of_lookup_1 in Hid as [j Hj]. pose proof (Forall_lookup_1 _ _ _ _ Hlt Hj). cbn in *. lia.
  - apply Forall_app. split; [|by repeat constructor; lia].
    eapply Forall_impl; [|exact Hlt]. cbn. lia.
  - lia.
Qed.

(** Adding a property whose name is free gives it the next column; every other
    property keeps its definition and its column. *)
Theorem add_property c d :
  wf_collection c -> contains c (getName d) = false -> nextColumnID c < 2 ^ 32 - 1 ->
  wf_collection (add d c) /\ property (add d c) (getName d) = Some (d, nextColumnID c) /\
  forall name, lower name <> lower (getName d) -> property (add d c) name = property c name.
Proof.
  intros Hwf Hfree Hnext. pose proof Hwf as [Hl _ Hidx _ _ _].
  pose proof (add_wf _ _ Hwf Hfree Hnext) as Hwf'.
  split_and!; [done| |].
  - apply (property_at _ _ _ _ Hwf'). exists (length (definitions c)). cbn. split_and!; [| |done].
    + by rewrite lookup_app_r, Nat.sub_diag by lia.
    + by rewrite <- Hl, lookup_app_r, Nat.sub_diag by lia.
  - intros name Hne. unfold property. rewrite add_index, lookup_insert_ne by done.
    destruct (nameToPropertyIdxMap c !! lower name) as [i|] eqn:Ei; [|done]. cbn.
    apply Hidx in Ei. apply lookup_lt_Some in Ei. rewrite length_fmap in Ei.
    by rewrite !lookup_app_l by lia.
Qed.

(** Dropping a property keeps the definition and the column of every other one, and
    the dropped column is not given out again. *)
Theorem drop_property c name :
  wf_collection c -> contains c name = true ->
  exists c', drop_ name c = Ok c' /\ wf_collection c' /\ nextColumnID c' = nextColumnID c /\
    property c' name = None /\
    forall other, lower other <> lower name -> property c' other = property c other.
Proof.
  intros Hwf Hin. pose proof Hwf as [Hl Hnd Hidx Hcol Hlt Hrange].
  unfold contains in Hin. apply bool_decide_eq_true in Hin as [i Hi].
  pose proof (proj1 (Hidx _ _) Hi) as Hk.
  assert (Hlen : (i < length (definitions c))%nat).
  { apply lookup_lt_Some in Hk. by rewrite length_fmap in Hk. }
  unfold drop_, getIdx. rewrite Hi. cbn [obind]. rewrite decide_True by lia.
  eexists. split; [reflexivity|].
  set (ds := eraseAt i (definitions c)).
  assert (Hnd' : NoDup (key <$> ds)) by (subst ds; rewrite fmap_eraseAt; by apply NoDup_eraseAt).
  set (c' := mkCollection _ _ _ _).
  assert (Hwf' : wf_collection c').
  { split; cbn; auto.
    - subst ds. rewrite !length_eraseAt by lia. by rewrite Hl.
    - by apply indexNames_fresh.
    - by apply NoDup_eraseAt.
    - unfold eraseAt. apply Forall_app. split; [by apply Forall_take|by apply Forall_drop]. }
  split_and!; [done|done| |].
  - destruct (property c' name) as [[d id]|] eqn:E; [exfalso|done].
    apply (property_at _ _ _ _ Hwf') in E as (n & Hd & _ & Hkd). cbn in Hd. subst ds.
    rewrite lookup_eraseAt_old in Hd. apply (oldIdx_ne i n).
    eapply NoDup_lookup; [exact Hnd| |exact Hk]. by rewrite list_lookup_fmap, Hd, <- Hkd.
  - intros other Hne.
    assert (Hiff : forall d id, property c' other = Some (d, id) <-> property c other = Some (d, id)).
    { intros d id. rewrite (property_at c' other d id Hwf'), (property_at c other d id Hwf). cbn. subst ds.
      setoid_rewrite lookup_eraseAt_old. split.
      - intros (n & Hd & Hid & Hkd). eauto.
      - intros (n & Hd & Hid & Hkd). destruct (decide (n = i)) as [->|Hn].
        + exfalso. rewrite list_lookup_fmap, Hd in Hk. injection Hk as Hk. congruence.
        + destruct (oldIdx_surj i n Hn) as [m <-]. eauto. }
    apply option_eq. intros [d id]. apply Hiff.
Qed.

(** Renaming the definition at a position to a name that is free, or its own. *)
Section rename.
Context c (i : nat) (d : PropertyDefinition) (name newName : string).
Context (Hwf : wf_collection c) (Hi : nameToPropertyIdxMap c !! lower name = Some i).
Context (Hd : definitions c !! i = Some d) (Hkd : key d = lower name).
Context (Hnew : lower newName = lower name \/ contains c newName = false).

Definition renamedCollection : PropertyDefinitionCollection :=
  mkCollection (nextColumnID c) (<[i := renameDefinition newName d]> (definitions c)) (columnIDs c)
    (<[lower newName := i]> (delete (lower name) (nameToPropertyIdxMap c))).

Lemma rename_free : delete (lower name) (nameToPropertyIdxMap c) !! lower newName = None.
Proof.
  destruct (decide (lower newName = lower name)) as [->|Hne]; [apply lookup_delete_eq|].
  destruct Hnew as [|Hc]; [done|]. rewrite lookup_delete_ne by done. by apply contains_false.
Qed.

Lemma rename_run : rename name newName c = Ok renamedCollection.
Proof. unfold rename, getIdx, insertName. rewrite Hi. cbn [obind]. by rewrite Hd, rename_free. Qed.

Lemma rename_other_keys j k : j <> i -> (key <$> definitions c) !! j = Some k ->
  k <> lower newName /\ k <> lower name.
Proof.
  intros Hj Hjk%(wf_index _ Hwf). split; intros ->; [|congruence].
  pose proof rename_free as Hfree. destruct (decide (lower newName = lower name)) as [E|E].
  - rewrite E in Hjk. congruence.
  - rewrite lookup_delete_ne in Hfree by done. congruence.
Qed.

Lemma rename_keys j k : (key <$> definitions renamedCollection) !! j = Some k <->
  (j = i /\ k = lower newName) \/ (j <> i /\ (key <$> definitions c) !! j = Some k).
Proof.
  cbn. rewrite list_fmap_insert. destruct (decide (j = i)) as [->|Hj].
  - rewrite list_lookup_insert_eq by (rewrite length_fmap; by eapply lookup_lt_Some). split.
    + intros [= <-]. by left.
    + intros [[_ ->]|[? _]]; done.
  - rewrite list_lookup_insert_ne by done. split; [by right|]. by intros [[? _]|[_ ?]].
Qed.

Lemma rename_wf : wf_collection renamedCollection.
Proof.
  pose proof Hwf as [Hl Hnd Hidx Hcol Hlt Hrange]. split; auto.
  - cbn. by rewrite length_insert.
  - apply NoDup_alt. intros j1 j2 k H1 H2. apply rename_keys in H1, H2.
    destruct H1 as [[-> ->]|[Hj1 H1]], H2 as [[-> ?]|[Hj2 H2]]; subst; [done| | |].
    + by destruct (rename_other_keys _ _ Hj2 H2).
    + by destruct (rename_other_keys _ _ Hj1 H1).
    + eapply NoDup_lookup; [exact Hnd|exact H1|exact H2].
  - intros k j. rewrite rename_keys. cbn. destruct (decide (k = lower newName)) as [->|Hne].
    + rewrite lookup_insert_eq. split; [intros [= <-]; by left|].
      intros [[-> _]|[Hj H]]; [done|]. by destruct (rename_other_keys _ _ Hj H).
    + rewrite lookup_insert_ne by done. destruct (decide (k = lower name)) as [->|Hne'].
      * rewrite lookup_delete_eq. split; [done|]. intros [[_ ?]|[Hj H]]; [done|].
        by destruct (rename_other_keys _ _ Hj H).
      * rewrite lookup_delete_ne by done. rewrite Hidx. split.
        -- intros H. right. split; [|done]. intros ->.
           rewrite list_lookup_fmap, Hd in H. injection H as H. congruence.
        -- intros [[_ ?]|[_ H]]; done.
Qed.
End rename.

(** Renaming a property to a free name, or to its own in another case, keeps its
    definition and its column under the new name, and every other property. *)
Theorem rename_property c name newName :
  wf_collection c -> contains c name = true ->
  lower newName = lower name \/ contains c newName = false ->
  exists c' d id, rename name newName c = Ok c' /\ wf_collection c' /\
    property c name = Some (d, id) /\
    property c' newName = Some (renameDefinition newName d, id) /\
    forall other, lower other <> lower name -> lower other <> lower newName ->
      property c' other = property c other.
Proof.
  intros Hwf Hin Hnew. destruct (contains_true _ _ Hwf Hin) as (i & d & id & Hi & Hd & Hid & Hkd).
  pose proof (rename_wf c i d name newName Hwf Hi Hd Hkd Hnew) as Hwf'.
  eexists _, d, id. split; [by apply rename_run|]. split_and!; [done| | |].
  - apply (property_at _ _ _ _ Hwf). eauto.
  - apply (property_at _ _ _ _ Hwf'). exists i. cbn. split_and!; [|done|done].
    apply list_lookup_insert_eq. by eapply lookup_lt_Some.
  - intros other Hne1 Hne2. unfold property. cbn. rewrite lookup_insert_ne, lookup_delete_ne by done.
    destruct (nameToPropertyIdxMap c !! lower other) as [j|] eqn:Ej; [|done]. cbn.
    rewrite list_lookup_insert_ne; [done|]. intros ->. apply (wf_index _ Hwf) in Ej.
    rewrite list_lookup_fmap, Hd in Ej. injection Ej as Ej. congruence.
Qed.

(** [vacuumColumnIDs] numbers the columns from the given one. *)
Lemma assignColumnIDs_spec n next :
  0 <= next -> next + Z.of_nat n < 2 ^ 32 ->
  assignColumnIDs n next = (seqZ next (Z.of_nat n), next + Z.of_nat n).
Proof.
  revert next. induction n as [|n IH]; intros next H0 Hn; cbn [assignColumnIDs].
  - cbn. by rewrite Z.add_0_r.
  - unfold wrapU. rewrite Z.mod_small by lia. rewrite IH by lia.
    rewrite (seqZ_cons next (Z.of_nat (S n))) by lia. f_equal; [|lia]. f_equal. f_equal; lia.
Qed.

Lemma getMaxColumnID_fold l z :
  z <= fold_left (fun maxID id => if maxID <? id then id else maxID) l z /\
  Forall (fun id => id <= fold_left (fun maxID id => if maxID <? id then id else maxID) l z) l.
Proof.
  revert z. induction l as [|x l IH]; intros z; cbn; [split; [lia|constructor]|].
  destruct (IH (if z <? x then x else z)) as [H1 H2].
  destruct (Z.ltb_spec z x); (split; [|constructor]); try lia; exact H2.
Qed.

(** After [vacuumColumnIDs] the columns are numbered one after the other, without a
    change to the definitions; the greatest column is the last. *)
Theorem vacuum_columns c next :
  wf_collection c -> 0 <= next -> next + Z.of_nat (length (definitions c)) < 2 ^ 32 ->
  let c' := vacuumColumnIDs next c in
  wf_collection c' /\ definitions c' = definitions c /\
  columnIDs c' = seqZ next (Z.of_nat (length (definitions c))) /\
  Forall (fun id => id <= getMaxColumnID c') (columnIDs c').
Proof.
  intros [Hl Hnd Hidx Hcol Hlt Hrange] H0 Hn c'. subst c'. unfold vacuumColumnIDs.
  rewrite assignColumnIDs_spec by lia. cbn. split_and!; [|done|done|].
  - split; cbn; auto.
    + rewrite length_seqZ. lia.
    + apply NoDup_seqZ.
    + apply Forall_forall. intros id Hid%list_elem_of_In%elem_of_seqZ. lia.
    + lia.
  - apply getMaxColumnID_fold.
Qed.

(** A collection is read back as it was written, its name index rebuilt from the
    definitions. *)
Theorem collection_roundtrip c :
  wf_collection c -> Z.of_nat (length (definitions c)) < 2 ^ 64 ->
  Forall (fun d => Z.of_nat (String.length (getName d)) < 2 ^ 64 /\
                   codec serializeRest deserializeRest (getRest d)) (definitions c) ->
  codec serialize deserialize c.
Proof.
  intros [Hl Hnd Hidx Hcol Hlt Hrange] Hlen Hds.
  destruct (codec_U 4 (nextColumnID c)) as (b1 & W1 & R1); [unfold inU; lia|].
  destruct (codec_Vector serializeDefinition deserializeDefinition (definitions c)) as (b2 & W2 & R2).
  { eapply Forall_impl; [|exact Hds]. intros [n r] [Hn (br & Wr & Rr)].
    destruct (codec_String n Hn) as (bn & Wn & Rn). exists (bn ++ br). split.
    - intros out. unfold serializeDefinition. rewrite (sbind_ok _ _ _ _ _ (Wn out)), Wr. by rewrite app_assoc.
    - intros rest. unfold deserializeDefinition.
      rewrite <- app_assoc, (sbind_ok _ _ _ _ _ (Rn _)), (sbind_ok _ _ _ _ _ (Rr _)). done. }
  { done. }
  destruct (codec_Vector (serializeU 4) (deserializeU 4) (columnIDs c)) as (b3 & W3 & R3).
  { eapply Forall_impl; [|exact Hlt]. intros id Hid. apply codec_U. unfold inU. cbn in Hid. lia. }
  { by rewrite Hl. }
  exists (b1 ++ b2 ++ b3). split.
  - intros out. unfold serialize. rewrite (sbind_ok _ _ _ _ _ (W1 _)), (sbind_ok _ _ _ _ _ (W2 _)), W3.
    by rewrite !app_assoc.
  - intros rest. unfold deserialize. rewrite <- !app_assoc.
    rewrite (sbind_ok _ _ _ _ _ (R1 _)), (sbind_ok _ _ _ _ _ (R2 _)), (sbind_ok _ _ _ _ _ (R3 _)).
    unfold sret. do 2 f_equal. destruct c as [nx ds ids m]. cbn in *. f_equal.
    apply map_eq. intros k. apply option_eq. intros i. rewrite Hidx. by apply indexNames_fresh.
Qed.
End PropertyCollection.

(** ** A concrete collection *)

Definition exampleCollection : PropertyDefinitionCollection (D := Z) :=
  add (mkProperty "age" 7) (add (mkProperty "Name" 5) (newCollection 0)).

Lemma exampleCollection_wf : wf_collection exampleCollection.
Proof.
  unfold exampleCollection. apply add_property; [|vm_compute; reflexivity|vm_compute; reflexivity].
  apply add_property; [|vm_compute; reflexivity|vm_compute; reflexivity].
  apply newCollection_wf. lia.
Qed.

Lemma add_property_witness :
  property (add (mkProperty "email" 9) exampleCollection) "EMAIL" = Some (mkProperty "email" 9, 2).
Proof.
  apply (add_property exampleCollection (mkProperty "email" 9) exampleCollection_wf);
    vm_compute; reflexivity.
Defined.

Lemma drop_property_witness :
  exists c', drop_ "NAME" exampleCollection = Ok c' /\ property c' "age" = Some (mkProperty "age" 7, 1).
Proof.
  destruct (drop_property exampleCollection "NAME" exampleCollection_wf)
    as (c' & H & _ & _ & _ & Hother); [vm_compute; reflexivity|].
  exists c'. split; [exact H|]. rewrite Hother; vm_compute; [reflexivity|discriminate].
Defined.

Lemma rename_property_witness :
  exists c', rename "age" "years" exampleCollection = Ok c' /\
    property c' "years" = Some (mkProperty "years" 7, 1).
Proof.
  destruct (rename_property exampleCollection "age" "years" exampleCollection_wf)
    as (c' & d & id & H & _ & Hold & Hnew & _); [vm_compute; reflexivity|right; vm_compute; reflexivity|].
  vm_compute in Hold. injection Hold as <- <-. exists c'. split; [exact H|exact Hnew].
Defined.

Lemma collection_roundtrip_witness :
  codec (serialize (serializeU 8)) (deserialize (deserializeU 8)) exampleCollection.
Proof.
  apply (collection_roundtrip (serializeU 8) (deserializeU 8) exampleCollection exampleCollection_wf);
    [vm_compute; reflexivity|].
  constructor; [|constructor; [|constructor]]; cbn [getName getRest]; (split; [vm_compute; reflexivity|]);
    apply codec_U; split; [lia|reflexivity|lia|reflexivity].
Defined.
