(* ===== verification/CatalogSet.v ===== *)
(** * Versioned catalog entries (src/catalog/catalog_set.cpp,
      src/include/catalog/catalog_entry/catalog_entry.h, dummy_catalog_entry.h,
      [TableCatalogEntry::alter] of src/catalog/catalog_entry/table_catalog_entry.cpp,
      [Transaction::pushCatalogEntry] of src/transaction/transaction.cpp and the catalog
      records of src/storage/undo_buffer.cpp)

    A set maps names, compared without case, to the newest version of an entry; a version
    owns the older one ([prev]) and points back to the newer one ([next]).  The heap holds
    the entries by address.  A dropped entry is a deleted dummy on top of its chain, and
    the oldest version of every chain has timestamp 0. *)

From S2P Require Import Prelude Transaction UndoBuffer Serializer PropertyCollection.
From stdpp Require Import base list gmap strings numbers.
Local Open Scope Z_scope.

Inductive CatalogEntryType : Type :=
| NODE_TABLE_ENTRY | REL_TABLE_ENTRY | REL_GROUP_ENTRY | RDF_GRAPH_ENTRY | FOREIGN_TABLE_ENTRY
| SCALAR_MACRO_ENTRY
| AGGREGATE_FUNCTION_ENTRY | SCALAR_FUNCTION_ENTRY | REWRITE_FUNCTION_ENTRY
| TABLE_FUNCTION_ENTRY | GDS_FUNCTION_ENTRY | COPY_FUNCTION_ENTRY
| SEQUENCE_ENTRY_TYPE | TYPE_ENTRY | DUMMY_ENTRY.

#[global] Instance CatalogEntryType_eq_dec : EqDecision CatalogEntryType.
Proof. solve_decision. Defined.

Definition INVALID_OID : Z := 2 ^ 64 - 1.

Section CatalogSet.
(** What a property has besides its name, and what an entry that is not a table holds. *)
Context {D X : Type}.

Inductive AlterType : Type :=
| RENAME_TABLE (newName : string)
| RENAME_PROPERTY (oldName newName : string)
| ADD_PROPERTY (d : PropertyDefinition (D := D))
| DROP_PROPERTY (propertyName : string)
| COMMENT (comment : string).
Record BoundAlterInfo : Type := mkAlter { tableName : string; alterType : AlterType }.

Inductive EntryContent : Type :=
| TableContent (comment : string) (properties : PropertyDefinitionCollection (D := D))
| OtherContent (x : X)
| NoContent.

Record CatalogEntry : Type := mkEntry {
  etype : CatalogEntryType;
  ename : string;
  oid : Z;
  timestamp : transaction_t;
  deleted : bool;
  hasParent : bool;
  alterInfo : option BoundAlterInfo;
  content : EntryContent;
  prev : option loc;
  next : option loc;
}.

Definition setTimestamp ts (e : CatalogEntry) : CatalogEntry :=
  mkEntry (etype e) (ename e) (oid e) ts (deleted e) (hasParent e) (alterInfo e) (content e) (prev e) (next e).
Definition setOID o (e : CatalogEntry) : CatalogEntry :=
  mkEntry (etype e) (ename e) o (timestamp e) (deleted e) (hasParent e) (alterInfo e) (content e) (prev e) (next e).
Definition setAlterInfo a (e : CatalogEntry) : CatalogEntry :=
  mkEntry (etype e) (ename e) (oid e) (timestamp e) (deleted e) (hasParent e) a (content e) (prev e) (next e).
Definition setContent x (e : CatalogEntry) : CatalogEntry :=
  mkEntry (etype e) (ename e) (oid e) (timestamp e) (deleted e) (hasParent e) (alterInfo e) x (prev e) (next e).
Definition renameEntry n (e : CatalogEntry) : CatalogEntry :=
  mkEntry (etype e) n (oid e) (timestamp e) (deleted e) (hasParent e) (alterInfo e) (content e) (prev e) (next e).
Definition withPrev p (e : CatalogEntry) : CatalogEntry :=
  mkEntry (etype e) (ename e) (oid e) (timestamp e) (deleted e) (hasParent e) (alterInfo e) (content e) p (next e).
Definition withNext p (e : CatalogEntry) : CatalogEntry :=
  mkEntry (etype e) (ename e) (oid e) (timestamp e) (deleted e) (hasParent e) (alterInfo e) (content e) (prev e) p.

(** [DummyCatalogEntry(name, oid)]. *)
Definition dummyEntry (n : string) (o : Z) : CatalogEntry :=
  mkEntry DUMMY_ENTRY n o 0 true false None NoContent None None.

Record CatalogSet : Type := mkSet {
  nextOID : Z;
  entries : gmap string loc;
  heap : gmap loc CatalogEntry;
}.
Implicit Types (s : CatalogSet) (t : Transaction) (e : CatalogEntry).

Definition emptySet : CatalogSet := mkSet 0 ∅ ∅.

Definition deref (p : loc) : M CatalogSet CatalogEntry :=
  s <- sget ;; match heap s !! p with Some e => sret e | None => sthrow UndefinedBehaviour end.
Definition assign (p : loc) (e : CatalogEntry) : M CatalogSet unit :=
  smodify (fun s => mkSet (nextOID s) (entries s) (<[p := e]> (heap s))).
Definition allocate (e : CatalogEntry) : M CatalogSet loc :=
  s <- sget ;;
  let p := fresh (dom (heap s)) in
  assign p e ;;; sret p.
Definition setEntries (f : gmap string loc -> gmap string loc) : M CatalogSet unit :=
  smodify (fun s => mkSet (nextOID s) (f (entries s)) (heap s)).

(** The destructor of an entry: with it goes the chain of older versions it owns. *)
Fixpoint freeChain (fuel : nat) (h : gmap loc CatalogEntry) (p : option loc) : gmap loc CatalogEntry :=
  match fuel, p with
  | S fuel', Some q =>
      match h !! q with Some e => freeChain fuel' (delete q h) (prev e) | None => h end
  | _, _ => h
  end.
Definition destroy (p : option loc) : M CatalogSet unit :=
  smodify (fun s => mkSet (nextOID s) (entries s) (freeChain (size (heap s)) (heap s) p)).

Definition getPrev (e : CatalogEntry) : outcome loc :=
  match prev e with Some p => Ok p | None => Err InternalException end.
(** [CatalogEntry::movePrev] and [CatalogEntry::setPrev]. *)
Definition movePrev (p : loc) : M CatalogSet (option loc) :=
  e <- deref p ;;
  (match prev e with
   | Some q => old <- deref q ;; assign q (withNext None old)
   | None => sret tt
   end) ;;;
  e <- deref p ;;
  assign p (withPrev None e) ;;;
  sret (prev e).
Definition setPrev (p : loc) (q : option loc) : M CatalogSet unit :=
  e <- deref p ;;
  assign p (withPrev q e) ;;;
  destroy (prev e) ;;;
  match q with
  | Some q => old <- deref q ;; assign q (withNext (Some p) old)
  | None => sret tt
  end.

(** ** Reading *)

Definition checkWWConflict t e : bool :=
  ((START_TRANSACTION_ID <=? timestamp e) && negb (timestamp e =? ID t)) ||
  ((timestamp e <? START_TRANSACTION_ID) && (startTS t <? timestamp e)).

(** The fuel is the number of entries of the heap, more than a chain can have. *)
Fixpoint traverse (fuel : nat) (h : gmap loc CatalogEntry) t (p : loc) : outcome loc :=
  match fuel with
  | O => Err Blocked
  | S fuel' =>
      match h !! p with
      | None => Err UndefinedBehaviour
      | Some e =>
          if timestamp e =? ID t then Ok p
          else if timestamp e <=? startTS t then Ok p
          else let* q := getPrev e in traverse fuel' h t q
      end
  end.
Definition traverseVersionChainsForTransactionNoLock s t (p : loc) : outcome loc :=
  traverse (S (size (heap s))) (heap s) t p.

#[local] Arguments traverseVersionChainsForTransactionNoLock : simpl never.

Definition entryAt s (p : loc) : outcome CatalogEntry :=
  match heap s !! p with Some e => Ok e | None => Err UndefinedBehaviour end.

Definition containsEntryNoLock s t (n : string) : outcome bool :=
  match entries s !! lower n with
  | None => Ok false
  | Some p =>
      let* q := traverseVersionChainsForTransactionNoLock s t p in
      let* e := entryAt s q in
      Ok (negb (deleted e))
  end.
Definition doesNotExist (n : string) : exn := CatalogException (String.append n " does not exist in catalog.").
Definition alreadyExists (n : string) : exn := CatalogException (String.append n " already exists in catalog.").
Definition validateExistNoLock s t (n : string) : outcome unit :=
  let* b := containsEntryNoLock s t n in if b : bool then Ok tt else Err (doesNotExist n).
Definition validateNotExistNoLock s t (n : string) : outcome unit :=
  let* b := containsEntryNoLock s t n in if b : bool then Err (alreadyExists n) else Ok tt.
Definition getEntryNoLock s t (n : string) : outcome loc :=
  let* _ := validateExistNoLock s t n in
  match entries s !! lower n with
  | None => Err UndefinedBehaviour
  | Some p =>
      let* q := traverseVersionChainsForTransactionNoLock s t p in
      let* e := entryAt s q in
      if deleted e then Err InternalException else Ok q
  end.
Fixpoint collectEntries s t (l : list (string * loc)) : outcome (gmap string loc) :=
  match l with
  | [] => Ok ∅
  | (n, p) :: l' =>
      let* q := traverseVersionChainsForTransactionNoLock s t p in
      let* e := entryAt s q in
      let* m := collectEntries s t l' in
      Ok (if deleted e then m else <[n := q]> m)
  end.
Definition getEntries s t : outcome (gmap string loc) := collectEntries s t (map_to_list (entries s)).
Fixpoint findOID s t (o : Z) (l : list (string * loc)) : outcome (option loc) :=
  match l with
  | [] => Ok None
  | (n, p) :: l' =>
      let* h := entryAt s p in
      if negb (oid h =? o) then findOID s t o l'
      else
        let* q := traverseVersionChainsForTransactionNoLock s t p in
        let* e := entryAt s q in
        if deleted e then findOID s t o l' else Ok (Some q)
  end.
Definition getEntryOfOID s t (o : Z) : outcome (option loc) := findOID s t o (map_to_list (entries s)).
Fixpoint entriesOfType s t (ty : CatalogEntryType) (l : list (string * loc)) : outcome (list loc) :=
  match l with
  | [] => Ok []
  | (n, p) :: l' =>
      let* h := entryAt s p in
      if negb (bool_decide (etype h = DUMMY_ENTRY)) && negb (bool_decide (etype h = ty))
      then entriesOfType s t ty l'
      else
        let* q := traverseVersionChainsForTransactionNoLock s t p in
        let* e := entryAt s q in
        let* r := entriesOfType s t ty l' in
        Ok (if negb (bool_decide (etype e = ty)) || deleted e then r else q :: r)
  end.
Definition iterateEntriesOfType s t (ty : CatalogEntryType) : outcome (list loc) :=
  entriesOfType s t ty (map_to_list (entries s)).

(** ** Writing *)

Definition emplaceNoLock (p : loc) : M CatalogSet unit :=
  e <- deref p ;;
  s <- sget ;;
  (match entries s !! lower (ename e) with
   | Some q => setPrev p (Some q) ;;; setEntries (delete (lower (ename e)))
   | None => sret tt
   end) ;;;
  setEntries (fun m => match m !! lower (ename e) with
                       | Some _ => m
                       | None => <[lower (ename e) := p]> m
                       end).
Definition eraseNoLock (n : string) : M CatalogSet unit :=
  s <- sget ;;
  let p := entries s !! lower n in
  setEntries (delete (lower n)) ;;; destroy p.

Definition createConflict (n : string) : exn := CatalogException
  (String.append "Write-write conflict on creating catalog entry with name " (String.append n ".")).
Definition createExists (n : string) : exn := CatalogException
  (String.append "Catalog entry with name " (String.append n " already exists.")).

Definition createEntryNoLock t e : M CatalogSet loc :=
  s <- sget ;;
  slift (validateNotExistNoLock s t (ename e)) ;;;
  let e := setTimestamp (ID t) e in
  (match entries s !! lower (ename e) with
   | Some h =>
       existing <- deref h ;;
       if checkWWConflict t existing then sthrow (createConflict (ename e))
       else if negb (deleted existing) then sthrow (createExists (ename e))
       else sret tt
   | None =>
       d <- allocate (dummyEntry (ename e) (oid e)) ;;
       setEntries (<[lower (ename e) := d]>)
   end) ;;;
  p <- allocate e ;;
  emplaceNoLock p ;;;
  e <- deref p ;;
  slift (getPrev e).
Definition dropEntryNoLock t (n : string) (o : Z) : M CatalogSet loc :=
  s <- sget ;;
  slift (validateExistNoLock s t n) ;;;
  p <- allocate (setTimestamp (ID t) (dummyEntry n o)) ;;
  emplaceNoLock p ;;;
  e <- deref p ;;
  slift (getPrev e).

Definition isTableEntry (ty : CatalogEntryType) : bool :=
  match ty with
  | NODE_TABLE_ENTRY | REL_TABLE_ENTRY | REL_GROUP_ENTRY | RDF_GRAPH_ENTRY => true
  | _ => false
  end.

(** [TableCatalogEntry::alter]: a copy (without the versions and the alter info) with the
    change. *)
Definition copyEntry e : CatalogEntry :=
  mkEntry (etype e) (ename e) (oid e) (timestamp e) (deleted e) (hasParent e) None (content e) None None.
Definition alter (a : BoundAlterInfo) e : outcome CatalogEntry :=
  if deleted e then Err InternalException
  else
    match content (copyEntry e) with
    | TableContent cm ps =>
        match alterType a with
        | RENAME_TABLE n => Ok (renameEntry n (copyEntry e))
        | RENAME_PROPERTY old new =>
            let* ps := rename old new ps in Ok (setContent (TableContent cm ps) (copyEntry e))
        | ADD_PROPERTY d => Ok (setContent (TableContent cm (add d ps)) (copyEntry e))
        | DROP_PROPERTY n => let* ps := drop_ n ps in Ok (setContent (TableContent cm ps) (copyEntry e))
        | COMMENT c => Ok (setContent (TableContent c ps) (copyEntry e))
        end
    | _ => Err UndefinedBehaviour
    end.

(** ** With the transaction's undo buffer and the log *)

Inductive CatalogWALRecord : Type :=
| CreateTableEntryRecord (e : CatalogEntry)
| CreateCatalogEntryRecord (e : CatalogEntry)
| AlterTableEntryRecord (a : BoundAlterInfo)
| DropCatalogEntryRecord (o : Z) (ty : CatalogEntryType).

Record CatalogState : Type := mkState {
  theSet : CatalogSet;
  undo : UndoBuffer;
  cwal : list CatalogWALRecord;
}.
Definition onSet {A} (m : M CatalogSet A) : M CatalogState A :=
  szoom theSet (fun s st => mkState s (undo st) (cwal st)) m.
Definition onUndo {A} (m : M UndoBuffer A) : M CatalogState A :=
  szoom undo (fun u st => mkState (theSet st) u (cwal st)) m.

(** [CatalogEntryTypeUtils::toString]: [TYPE_ENTRY] has no case, which is
    [KU_UNREACHABLE]. *)
Definition catalogEntryTypeToString (ty : CatalogEntryType) : outcome string :=
  match ty with
  | NODE_TABLE_ENTRY => Ok "NODE_TABLE_ENTRY"
  | REL_TABLE_ENTRY => Ok "REL_TABLE_ENTRY"
  | REL_GROUP_ENTRY => Ok "REL_GROUP_ENTRY"
  | RDF_GRAPH_ENTRY => Ok "RDF_GRAPH_ENTRY"
  | FOREIGN_TABLE_ENTRY => Ok "FOREIGN_TABLE_ENTRY"
  | SCALAR_MACRO_ENTRY => Ok "SCALAR_MACRO_ENTRY"
  | AGGREGATE_FUNCTION_ENTRY => Ok "AGGREGATE_FUNCTION_ENTRY"
  | SCALAR_FUNCTION_ENTRY => Ok "SCALAR_FUNCTION_ENTRY"
  | REWRITE_FUNCTION_ENTRY => Ok "REWRITE_FUNCTION_ENTRY"
  | TABLE_FUNCTION_ENTRY => Ok "TABLE_FUNCTION_ENTRY"
  | GDS_FUNCTION_ENTRY => Ok "GDS_FUNCTION_ENTRY"
  | COPY_FUNCTION_ENTRY => Ok "COPY_FUNCTION_ENTRY"
  | DUMMY_ENTRY => Ok "DUMMY_ENTRY"
  | SEQUENCE_ENTRY_TYPE => Ok "SEQUENCE_ENTRY"
  | TYPE_ENTRY => Err InternalException
  end.
Definition notSupported {A} (ty : CatalogEntryType) : outcome A :=
  match catalogEntryTypeToString ty with
  | Ok s => Err (RuntimeException ("Not supported catalog entry type " +:+ s +:+ " yet."))
  | Err e => Err e
  end.
(** What [pushCatalogEntry] logs for the old and the new version of an entry. *)
Definition walRecordFor (old new : CatalogEntry) : outcome (option CatalogWALRecord) :=
  let created := bool_decide (etype old = DUMMY_ENTRY) && deleted old in
  match etype new with
  | NODE_TABLE_ENTRY | REL_TABLE_ENTRY | REL_GROUP_ENTRY | RDF_GRAPH_ENTRY =>
      if bool_decide (etype old = DUMMY_ENTRY) then
        if negb (deleted old) then Err InternalException
        else if hasParent new then Ok None else Ok (Some (CreateTableEntryRecord new))
      else if negb (bool_decide (etype old = etype new)) then Err InternalException
      else match alterInfo old with
           | Some a => Ok (Some (AlterTableEntryRecord a))
           | None => Err UndefinedBehaviour
           end
  | SEQUENCE_ENTRY_TYPE =>
      if negb created then Err InternalException
      else if hasParent new then Ok None else Ok (Some (CreateCatalogEntryRecord new))
  | SCALAR_MACRO_ENTRY | TYPE_ENTRY =>
      if negb created then Err InternalException else Ok (Some (CreateCatalogEntryRecord new))
  | DUMMY_ENTRY =>
      if negb (deleted new) then Err InternalException
      else if hasParent old then Ok None
      else
        match etype old with
        | NODE_TABLE_ENTRY | REL_TABLE_ENTRY | REL_GROUP_ENTRY | RDF_GRAPH_ENTRY =>
            match alterInfo old with
            | Some a => Ok (Some (AlterTableEntryRecord a))
            | None => Ok (Some (DropCatalogEntryRecord (oid old) (etype old)))
            end
        | SEQUENCE_ENTRY_TYPE => Ok (Some (DropCatalogEntryRecord (oid old) (etype old)))
        | SCALAR_FUNCTION_ENTRY => Ok None
        | _ => notSupported (etype old)
        end
  | SCALAR_FUNCTION_ENTRY => Ok None
  | _ => notSupported (etype old)
  end.
Definition pushCatalogEntry (inMemory : bool) t (setLoc p : loc) (skipLoggingToWAL : bool)
    : M CatalogState unit :=
  onUndo (createCatalogEntry setLoc p) ;;;
  if negb (shouldLogToWAL inMemory t) || skipLoggingToWAL then sret tt
  else
    old <- onSet (deref p) ;;
    match next old with
    | None => sthrow UndefinedBehaviour
    | Some q =>
        new <- onSet (deref q) ;;
        r <- slift (walRecordFor old new) ;;
        match r with
        | Some r => smodify (fun st => mkState (theSet st) (undo st) (cwal st ++ [r]))
        | None => sret tt
        end
    end.
Definition logEntryForTrx (inMemory : bool) t (setLoc p : loc) (skip : bool) : M CatalogState unit :=
  if shouldAppendToUndoBuffer t then pushCatalogEntry inMemory t setLoc p skip else sret tt.

Definition createEntry (inMemory : bool) t (setLoc : loc) e : M CatalogState Z :=
  st <- sget ;;
  let o := nextOID (theSet st) in
  onSet (smodify (fun s => mkSet (wrapU 64 (o + 1)) (entries s) (heap s))) ;;;
  p <- onSet (createEntryNoLock t (setOID o e)) ;;
  logEntryForTrx inMemory t setLoc p false ;;;
  sret o.
Definition dropEntry (inMemory : bool) t (setLoc : loc) (n : string) (o : Z) : M CatalogState unit :=
  p <- onSet (dropEntryNoLock t n o) ;;
  logEntryForTrx inMemory t setLoc p false.
Definition alterEntry (inMemory : bool) t (setLoc : loc) (a : BoundAlterInfo) : M CatalogState unit :=
  do (p, created) <- onSet (
    s <- sget ;;
    slift (validateExistNoLock s t (tableName a)) ;;;
    p <- slift (getEntryNoLock s t (tableName a)) ;;
    e <- deref p ;;
    kuAssert (isTableEntry (etype e)) ;;;
    new <- slift (alter a e) ;;
    let new := setOID (oid e) (setTimestamp (ID t) new) in
    created <- (match alterType a with
                | RENAME_TABLE _ =>
                    dropEntryNoLock t (tableName a) (oid e) ;;;
                    c <- createEntryNoLock t new ;;
                    sret (Some c)
                | _ => q <- allocate new ;; emplaceNoLock q ;;; sret None
                end) ;;
    e <- deref p ;;
    assign p (setAlterInfo (Some a) e) ;;;
    sret (p, created)) ;;
  logEntryForTrx inMemory t setLoc p false ;;;
  match created with
  | Some c => logEntryForTrx inMemory t setLoc c true
  | None => sret tt
  end.

(** [UndoBuffer::commitCatalogEntryRecord] and [UndoBuffer::rollbackCatalogEntryRecord];
    the version that was removed from the chain is destroyed. *)
Definition commitCatalogEntryRecord (p : loc) (cts : transaction_t) : M CatalogSet unit :=
  e <- deref p ;;
  match next e with
  | None => sthrow InternalException
  | Some q => new <- deref q ;; assign q (setTimestamp cts new)
  end.
Definition rollbackCatalogEntryRecord (p : loc) : M CatalogSet unit :=
  e <- deref p ;;
  match next e with
  | None => sthrow InternalException
  | Some q =>
      new <- deref q ;;
      (if isTableEntry (etype new) then assign q (setAlterInfo None new) else sret tt) ;;;
      match next new with
      | Some r =>
          older <- movePrev q ;;
          setPrev r older
      | None =>
          older <- movePrev q ;;
          e <- deref p ;;
          eraseNoLock (ename e) ;;;
          match older with Some o => emplaceNoLock o | None => sret tt end
      end
  end.

(** ** Version chains *)

(** The versions from an address on, newest first; [nx] is the version above. *)
Inductive chain (h : gmap loc CatalogEntry) : option loc -> option loc -> list (loc * CatalogEntry) -> Prop :=
| chain_nil nx : chain h nx None []
| chain_cons nx p e es :
    h !! p = Some e -> next e = nx -> chain h (Some p) (prev e) es ->
    chain h nx (Some p) ((p, e) :: es).

Record wf_set s (cs : string -> list (loc * CatalogEntry)) : Prop := {
  wf_chain : forall k, chain (heap s) None (entries s !! k) (cs k);
  wf_nodup : forall k, NoDup (cs k).*1;
  wf_disjoint : forall k k' p, p ∈ (cs k).*1 -> p ∈ (cs k').*1 -> k = k';
  wf_bottom : forall k p e, list.last (cs k) = Some (p, e) -> timestamp e = 0;
  wf_key : forall k p e, (p, e) ∈ cs k -> lower (ename e) = k;
}.

Definition sees t e : bool := visible (startTS t) (ID t) (timestamp e).
Definition firstVisible (es : list (loc * CatalogEntry)) t : option (loc * CatalogEntry) :=
  find (fun x => sees t x.2) es.
(** The entry a transaction sees under a name. *)
Definition seen (es : list (loc * CatalogEntry)) t : option CatalogEntry :=
  match firstVisible es t with
  | Some (_, e) => if deleted e then None else Some e
  | None => None
  end.
(** What a reader reads of an entry: all but its timestamp, its links and the alter info. *)
Definition public e : CatalogEntry :=
  mkEntry (etype e) (ename e) (oid e) 0 (deleted e) (hasParent e) None (content e) None None.

Lemma chain_heap h nx p es q e : chain h nx p es -> (q, e) ∈ es -> h !! q = Some e.
Proof.
  induction 1 as [|nx p e' es Hp Hn Hc IH]; intros Hin; [by apply not_elem_of_nil in Hin|].
  apply elem_of_cons in Hin as [[= -> ->]|Hin]; auto.
Qed.

Lemma entries_chain_length h nx p es : chain h nx p es -> NoDup es.*1 -> (length es <= size h)%nat.
Proof.
  intros Hc Hnd. rewrite <- (length_fmap fst es), <- size_dom.
  rewrite <- (size_list_to_set (C := gset loc)) by done. apply subseteq_size.
  intros q Hq. apply elem_of_list_to_set, list_elem_of_fmap in Hq as ([q' e] & -> & Hin).
  apply elem_of_dom. cbn. exists e. by eapply chain_heap.
Qed.

(** A chain is not touched by writes to other addresses. *)
Lemma chain_frame h h' nx p es :
  chain h nx p es -> (forall q, q ∈ es.*1 -> h' !! q = h !! q) -> chain h' nx p es.
Proof.
  induction 1 as [|nx p e es Hp Hn Hc IH]; intros Hf; constructor.
  - rewrite Hf; [done|]. apply list_elem_of_here.
  - done.
  - apply IH. intros q Hq. apply Hf. by apply list_elem_of_further.
Qed.

Lemma firstVisible_exists es t p e :
  wf_ids (startTS t) (ID t) -> list.last es = Some (p, e) -> timestamp e = 0 ->
  exists x, firstVisible es t = Some x /\ x ∈ es.
Proof.
  intros Ht Hlast H0. destruct (firstVisible es t) as [x|] eqn:E.
  - exists x. split; [done|]. apply find_some in E as [Hin _]. by apply list_elem_of_In.
  - exfalso. apply last_Some_elem_of in Hlast. apply list_elem_of_In in Hlast.
    pose proof (find_none _ _ E _ Hlast) as Hf. unfold sees in Hf. cbn in Hf.
    rewrite H0, zero_visible in Hf; done.
Qed.

Lemma traverse_chain h nx p es t x fuel :
  chain h nx (Some p) es -> (length es <= fuel)%nat -> firstVisible es t = Some x ->
  traverse fuel h t p = Ok x.1.
Proof.
  revert nx p es. induction fuel as [|fuel IH]; intros nx p es Hc Hl Hx.
  { destruct es; [done|cbn in Hl; lia]. }
  inversion Hc as [|nx' p' e es' Hp Hn Hc']; subst. cbn. rewrite Hp.
  cbn in Hx. unfold sees, visible in Hx. cbn in Hx.
  destruct (timestamp e =? ID t); cbn in Hx; [by simplify_eq|].
  destruct (timestamp e <=? startTS t); cbn in Hx; [by simplify_eq|].
  unfold getPrev. destruct (prev e) as [q|]; [|by inversion Hc'; subst].
  cbn. eapply IH; [exact Hc'| |exact Hx]. cbn in Hl. lia.
Qed.

Section reading.
Context (s : CatalogSet) (cs : string -> list (loc * CatalogEntry)) (Hwf : wf_set s cs).
Context (t : Transaction) (Ht : wf_ids (startTS t) (ID t)).

Lemma traverse_spec k p :
  entries s !! k = Some p ->
  exists q e, traverseVersionChainsForTransactionNoLock s t p = Ok q /\ entryAt s q = Ok e /\
    firstVisible (cs k) t = Some (q, e).
Proof.
  intros Hp. destruct Hwf as [Hc Hnd _ Hb _]. specialize (Hc k). rewrite Hp in Hc.
  assert (exists l, list.last (cs k) = Some l) as [[pl el] Hlast].
  { inversion Hc as [|? ? e es ? ? ? E1 E2 E3]; subst. destruct (list.last ((p, e) :: es)) eqn:E; [eauto|].
    by apply last_None in E. }
  destruct (firstVisible_exists (cs k) t pl el Ht Hlast (Hb _ _ _ Hlast)) as ([q e] & Hf & Hin).
  exists q, e. split_and!; [|unfold entryAt; by rewrite (chain_heap _ _ _ _ _ _ Hc Hin)|done].
  eapply (traverse_chain _ _ _ _ _ (q, e)); [exact Hc| |exact Hf].
  pose proof (entries_chain_length _ _ _ _ Hc (Hnd k)). lia.
Qed.

Lemma contains_spec n :
  containsEntryNoLock s t n = Ok (match seen (cs (lower n)) t with Some _ => true | None => false end).
Proof.
  unfold containsEntryNoLock, seen. destruct (entries s !! lower n) as [p|] eqn:Ep.
  - destruct (traverse_spec _ _ Ep) as (q & e & -> & He & ->). cbn. rewrite He. cbn.
    by destruct (deleted e).
  - destruct Hwf as [Hc _ _ _ _]. specialize (Hc (lower n)). rewrite Ep in Hc. by inversion Hc.
Qed.

Lemma getEntry_spec n :
  match seen (cs (lower n)) t with
  | Some e => exists p, getEntryNoLock s t n = Ok p /\ heap s !! p = Some e
  | None => getEntryNoLock s t n = Err (doesNotExist n)
  end.
Proof.
  unfold getEntryNoLock, validateExistNoLock. rewrite contains_spec. cbn.
  destruct (seen (cs (lower n)) t) as [e|] eqn:Es; cbn; [|done].
  unfold seen in Es. destruct (entries s !! lower n) as [p|] eqn:Ep.
  - destruct (traverse_spec _ _ Ep) as (q & e' & -> & He & Hf). rewrite Hf in Es. cbn. rewrite He. cbn.
    destruct (deleted e') eqn:Ed; [done|]. simplify_eq. exists q. split; [done|].
    unfold entryAt in He. destruct (heap s !! q); by simplify_eq.
  - destruct Hwf as [Hc _ _ _ _]. specialize (Hc (lower n)). rewrite Ep in Hc.
    assert (Hnil : cs (lower n) = []) by (by inversion Hc). by rewrite Hnil in Es.
Qed.
End reading.

(** ** Pushing a version *)

Definition chainsUpd (cs : string -> list (loc * CatalogEntry)) (k : string) (es : list (loc * CatalogEntry))
    : string -> list (loc * CatalogEntry) := fun k' => if decide (k' = k) then es else cs k'.

(** Writes below one key, at addresses no other key's chain uses, keep the set. *)
Lemma wf_set_update s cs k o h m es :
  wf_set s cs ->
  (forall k', k' <> k -> m !! k' = entries s !! k') ->
  (forall k' p, k' <> k -> p ∈ (cs k').*1 -> h !! p = heap s !! p /\ p ∉ es.*1) ->
  chain h None (m !! k) es -> NoDup es.*1 ->
  (forall p e, list.last es = Some (p, e) -> timestamp e = 0) ->
  (forall p e, (p, e) ∈ es -> lower (ename e) = k) ->
  wf_set (mkSet o m h) (chainsUpd cs k es).
Proof.
  intros [Hc Hnd Hdisj Hb Hk] Hm Hh Hes Hnd' Hb' Hk'. unfold chainsUpd. split; cbn.
  - intros k'. destruct (decide (k' = k)) as [->|Hne]; [done|]. rewrite Hm by done.
    eapply chain_frame; [apply Hc|]. intros q Hq. by destruct (Hh k' q Hne Hq).
  - intros k'. by destruct (decide (k' = k)).
  - intros k1 k2 p H1 H2. destruct (decide (k1 = k)) as [->|Hn1], (decide (k2 = k)) as [->|Hn2]; [done| | |].
    + by destruct (Hh _ _ Hn2 H2).
    + by destruct (Hh _ _ Hn1 H1).
    + by eapply Hdisj.
  - intros k' p e. destruct (decide (k' = k)) as [->|]; [apply Hb'|apply Hb].
  - intros k' p e. destruct (decide (k' = k)) as [->|]; [apply Hk'|apply Hk].
Qed.

Lemma fresh_heap s cs k p : wf_set s cs -> p = fresh (dom (heap s)) -> heap s !! p = None /\ p ∉ (cs k).*1.
Proof.
  intros [Hc _ _ _ _] ->. assert (Hn : heap s !! fresh (dom (heap s)) = None)
    by (apply not_elem_of_dom; apply is_fresh).
  split; [done|]. intros ([q e] & Heq & Hin)%list_elem_of_fmap. cbn in Heq.
  pose proof (chain_heap _ _ _ _ _ _ (Hc k) Hin) as Hq. rewrite <- Heq in Hq. congruence.
Qed.

(** The set after a version is pushed on a chain. *)
Definition pushed s (k : string) (p q : loc) e old : CatalogSet :=
  mkSet (nextOID s) (<[k := p]> (delete k (entries s)))
    (<[q := withNext (Some p) old]> (<[p := withPrev (Some q) e]> (<[p := e]> (heap s)))).

Lemma freeChain_None fuel h : freeChain fuel h None = h.
Proof. by destruct fuel. Qed.

Lemma deref_ok p e s : heap s !! p = Some e -> deref p s = (Ok e, s).
Proof. intros H. unfold deref, sbind, sget. by rewrite H. Qed.

Lemma setPrev_run s p q e old :
  heap s !! p = Some e -> prev e = None -> heap s !! q = Some old -> p <> q ->
  setPrev p (Some q) s =
    (Ok tt, mkSet (nextOID s) (entries s) (<[q := withNext (Some p) old]> (<[p := withPrev (Some q) e]> (heap s)))).
Proof.
  intros Hp Hprev Hq Hne. unfold setPrev. rewrite (sbind_ok _ _ _ _ _ (deref_ok _ _ _ Hp)).
  erewrite sbind_ok; [|reflexivity]. erewrite sbind_ok; [|reflexivity]. rewrite Hprev. cbn.
  rewrite freeChain_None. erewrite sbind_ok; [|apply deref_ok; cbn; by rewrite lookup_insert_ne]. done.
Qed.

Lemma emplace_run s p q e old :
  heap s !! p = Some e -> prev e = None -> entries s !! lower (ename e) = Some q ->
  heap s !! q = Some old -> p <> q ->
  emplaceNoLock p s =
    (Ok tt, mkSet (nextOID s) (<[lower (ename e) := p]> (delete (lower (ename e)) (entries s)))
              (<[q := withNext (Some p) old]> (<[p := withPrev (Some q) e]> (heap s)))).
Proof.
  intros Hp Hprev Hk Hq Hne. unfold emplaceNoLock. rewrite (sbind_ok _ _ _ _ _ (deref_ok _ _ _ Hp)).
  unfold sbind at 1, sget. rewrite Hk.
  erewrite sbind_ok; [|erewrite sbind_ok; [|by apply setPrev_run]; reflexivity].
  unfold setEntries, smodify. cbn. by rewrite lookup_delete_eq.
Qed.

(** [allocate] and [emplaceNoLock] of a new version push it on the chain of its name. *)
Lemma push_run s cs q old rest e :
  wf_set s cs -> cs (lower (ename e)) = (q, old) :: rest -> prev e = None ->
  let p := fresh (dom (heap s)) in
  (p <- allocate e ;; emplaceNoLock p ;;; e <- deref p ;; slift (getPrev e)) s =
    (Ok q, pushed s (lower (ename e)) p q e old) /\
  (p <- allocate e ;; emplaceNoLock p ;;; sret (@None loc)) s =
    (Ok None, pushed s (lower (ename e)) p q e old).
Proof.
  intros Hwf Hcs Hprev p. set (k := lower (ename e)) in *.
  destruct (fresh_heap s cs k p Hwf eq_refl) as [Hp Hpn].
  assert (Hq : heap s !! q = Some old /\ entries s !! k = Some q /\ p <> q).
  { destruct Hwf as [Hc _ _ _ _]. specialize (Hc k). rewrite Hcs in Hc. inversion Hc; subst. split_and!; auto.
    intros ->. apply Hpn. rewrite Hcs. apply list_elem_of_here. }
  destruct Hq as (Hq & Hkq & Hne).
  assert (Halloc : allocate e s = (Ok p, mkSet (nextOID s) (entries s) (<[p := e]> (heap s)))) by done.
  assert (Hemp : emplaceNoLock p (mkSet (nextOID s) (entries s) (<[p := e]> (heap s))) =
    (Ok tt, pushed s k p q e old)).
  { rewrite (emplace_run _ p q e old); [done| | | | |]; cbn; auto.
    - by rewrite lookup_insert_eq.
    - by rewrite lookup_insert_ne. }
  rewrite !(sbind_ok _ _ _ _ _ Halloc), !(sbind_ok _ _ _ _ _ Hemp). split; [|done].
  erewrite sbind_ok; [|apply deref_ok; cbn; rewrite lookup_insert_ne, lookup_insert_eq by done; reflexivity].
  done.
Qed.

Lemma pushed_wf s cs q old rest e k :
  wf_set s cs -> k = lower (ename e) -> cs k = (q, old) :: rest -> next e = None ->
  let p := fresh (dom (heap s)) in
  wf_set (pushed s k p q e old)
    (chainsUpd cs k ((p, withPrev (Some q) e) :: (q, withNext (Some p) old) :: rest)).
Proof.
  intros Hwf Hk Hcs Hnext p. destruct (fresh_heap s cs k p Hwf eq_refl) as [Hp Hpn].
  pose proof Hwf as [Hc Hnd Hdisj Hb Hkey]. pose proof (Hc k) as Hck. rewrite Hcs in Hck.
  pose proof (Hnd k) as Hndk. rewrite Hcs in Hndk. cbn in Hndk.
  rewrite Hcs in Hpn. cbn in Hpn.
  apply not_elem_of_cons in Hpn as [Hne Hpr]. apply list.NoDup_cons in Hndk as [Hqr Hndr].
  apply (wf_set_update s); [done| | | | | |].
  - intros k' Hk'. by rewrite lookup_insert_ne, lookup_delete_ne.
  - intros k' r Hk' Hr. destruct (fresh_heap s cs k' p Hwf eq_refl) as [_ Hpn'].
    assert (Hrp : r <> p) by (intros ->; done).
    assert (Hrest : r ∉ q :: rest.*1).
    { intros Hin. apply Hk'. eapply Hdisj; [exact Hr|]. by rewrite Hcs. }
    apply not_elem_of_cons in Hrest as [Hrq Hrr].
    rewrite !lookup_insert_ne by done. split; [done|]. cbn.
    apply not_elem_of_cons. split; [done|]. by apply not_elem_of_cons.
  - rewrite lookup_insert_eq. constructor.
    + by rewrite lookup_insert_ne, lookup_insert_eq.
    + done.
    + cbn. constructor.
      * by rewrite lookup_insert_eq.
      * done.
      * cbn. inversion Hck as [|? ? ? ? Hq Hn Hr]; subst. eapply chain_frame; [exact Hr|].
        intros r Hr'. rewrite !lookup_insert_ne; [done| | |]; intros <-; done.
  - cbn. apply list.NoDup_cons. split; [by apply not_elem_of_cons|]. by apply list.NoDup_cons.
  - intros r x Hlast. destruct rest as [|y rest].
    + cbn in Hlast. injection Hlast as <- <-. cbn. apply (Hb k q old). by rewrite Hcs.
    + apply (Hb k r x). by rewrite Hcs.
  - intros r x Hin. apply elem_of_cons in Hin as [[= -> ->]|Hin]; [done|].
    apply elem_of_cons in Hin as [[= -> ->]|Hin].
    + cbn. apply (Hkey k q old). rewrite Hcs. apply list_elem_of_here.
    + apply (Hkey k r x). rewrite Hcs. by apply list_elem_of_further.
Qed.

(** Committing stamps the version above; rolling back takes it off the chain again. *)
Lemma pushed_commit s cs q old rest e k cts :
  wf_set s cs -> k = lower (ename e) -> cs k = (q, old) :: rest -> next e = None ->
  let p := fresh (dom (heap s)) in
  exists s', commitCatalogEntryRecord q cts (pushed s k p q e old) = (Ok tt, s') /\
    wf_set s' (chainsUpd cs k ((p, setTimestamp cts (withPrev (Some q) e)) :: (q, withNext (Some p) old) :: rest)).
Proof.
  intros Hwf Hk Hcs Hnext p.
  pose proof (pushed_wf s cs q old rest e k Hwf Hk Hcs Hnext) as Hwf'. fold p in Hwf'.
  pose proof (pushed_wf s cs q old rest (setTimestamp cts e) k Hwf Hk Hcs Hnext) as Hwf2. fold p in Hwf2.
  destruct (fresh_heap s cs k p Hwf eq_refl) as [Hp Hpn]. rewrite Hcs in Hpn. cbn in Hpn.
  apply not_elem_of_cons in Hpn as [Hne _].
  exists (pushed s k p q (setTimestamp cts e) old). split; [|exact Hwf2].
  unfold commitCatalogEntryRecord, deref, assign, pushed, sbind, sget, sret, smodify. cbn.
  rewrite lookup_insert_eq. cbn. rewrite lookup_insert_ne, lookup_insert_eq by done. cbn.
  do 2 f_equal. apply map_eq. intros r. destruct (decide (r = p)) as [->|Hrp].
  - rewrite lookup_insert_eq, lookup_insert_ne, lookup_insert_eq by done. done.
  - rewrite lookup_insert_ne by done. destruct (decide (r = q)) as [->|Hrq].
    + by rewrite !lookup_insert_eq.
    + by rewrite !lookup_insert_ne.
Qed.

Lemma withNext_same e : next e = None -> withNext None (withNext None e) = e /\ withNext None e = e.
Proof. intros H. destruct e; cbn in *; subst; done. Qed.

(** What [movePrev] does to the top version of a chain. *)
Lemma movePrev_run s p q e old :
  heap s !! p = Some e -> prev e = Some q -> heap s !! q = Some old -> p <> q ->
  movePrev p s =
    (Ok (Some q), mkSet (nextOID s) (entries s) (<[p := withPrev None e]> (<[q := withNext None old]> (heap s)))).
Proof.
  intros Hp Hprev Hq Hne. unfold movePrev. rewrite (sbind_ok _ _ _ _ _ (deref_ok _ _ _ Hp)), Hprev.
  erewrite sbind_ok; [|erewrite sbind_ok; [|by apply deref_ok]; reflexivity].
  erewrite sbind_ok; [|apply deref_ok; cbn; by rewrite lookup_insert_ne]. cbn. by rewrite Hprev.
Qed.

Lemma freeChain_single h p e :
  h !! p = Some e -> prev e = None -> freeChain (size h) h (Some p) = delete p h.
Proof.
  intros Hp Hprev. destruct (size h) as [|n] eqn:E.
  - apply map_size_empty_inv in E. subst. by rewrite lookup_empty in Hp.
  - cbn. rewrite Hp, Hprev. apply freeChain_None.
Qed.

Lemma eraseNoLock_run n s p e :
  entries s !! lower n = Some p -> heap s !! p = Some e -> prev e = None ->
  eraseNoLock n s = (Ok tt, mkSet (nextOID s) (delete (lower n) (entries s)) (delete p (heap s))).
Proof.
  intros Hn Hp Hprev. unfold eraseNoLock. unfold sbind at 1, sget. rewrite Hn.
  erewrite sbind_ok; [|reflexivity]. unfold destroy, smodify. cbn [nextOID entries heap].
  by rewrite (freeChain_single _ _ _ Hp Hprev).
Qed.

Lemma pushed_rollback s cs q old rest e k :
  wf_set s cs -> k = lower (ename e) -> cs k = (q, old) :: rest -> next e = None ->
  let p := fresh (dom (heap s)) in
  exists s', rollbackCatalogEntryRecord q (pushed s k p q e old) = (Ok tt, s') /\ wf_set s' cs /\
    entries s' = entries s /\ heap s' = heap s.
Proof.
  intros Hwf Hk Hcs Hnext p. destruct (fresh_heap s cs k p Hwf eq_refl) as [Hp Hpn].
  rewrite Hcs in Hpn. cbn in Hpn. apply not_elem_of_cons in Hpn as [Hne _].
  assert (Hq : heap s !! q = Some old /\ entries s !! k = Some q /\ next old = None /\ lower (ename old) = k).
  { pose proof Hwf as [Hc _ _ _ Hkey]. specialize (Hc k). rewrite Hcs in Hc. inversion Hc; subst.
    split_and!; auto. apply (Hkey _ q old). rewrite Hcs. apply list_elem_of_here. }
  destruct Hq as (Hq & Hkq & Hold & Hkold).
  assert (Hs : forall o, wf_set (mkSet o (entries s) (heap s)) cs) by (intros o; destruct Hwf; by split).
  exists (mkSet (nextOID s) (entries s) (heap s)). split; [|by split_and!].
  set (s1 := pushed s k p q e old). set (e1 := withPrev (Some q) e).
  assert (Hq1 : heap s1 !! q = Some (withNext (Some p) old)) by (cbn; by rewrite lookup_insert_eq).
  assert (Hp1 : heap s1 !! p = Some e1) by (cbn; rewrite lookup_insert_ne, lookup_insert_eq by done; done).
  unfold rollbackCatalogEntryRecord. rewrite (sbind_ok _ _ _ _ _ (deref_ok _ _ _ Hq1)). cbn [next withNext].
  rewrite (sbind_ok _ _ _ _ _ (deref_ok _ _ _ Hp1)).
  set (e2 := if isTableEntry (etype e1) then setAlterInfo None e1 else e1).
  set (s2 := mkSet (nextOID s) (entries s1) (<[p := e2]> (heap s1))).
  assert (Hreset : (if isTableEntry (etype e1) then assign p (setAlterInfo None e1) else sret tt) s1 = (Ok tt, s2)).
  { unfold s2, e2. destruct (isTableEntry (etype e1)); [done|]. by rewrite (insert_id _ _ _ Hp1). }
  rewrite (sbind_ok _ _ _ _ _ Hreset).
  assert (He1n : next e1 = None) by exact Hnext. rewrite He1n.
  assert (Hp2 : heap s2 !! p = Some e2) by (cbn; by rewrite lookup_insert_eq).
  assert (Hprev2 : prev e2 = Some q) by (unfold e2; by destruct (isTableEntry (etype e1))).
  assert (Hq2 : heap s2 !! q = Some (withNext (Some p) old)) by (cbn; rewrite lookup_insert_ne by done; done).
  rewrite (sbind_ok _ _ _ _ _ (movePrev_run _ _ _ _ _ Hp2 Hprev2 Hq2 Hne)).
  destruct (withNext_same old Hold) as [_ Hold'].
  change (withNext None (withNext (Some p) old)) with (withNext None old). rewrite Hold'.
  erewrite sbind_ok; [|apply deref_ok; cbn; rewrite lookup_insert_ne, lookup_insert_eq by done; reflexivity].
  set (h3 := <[p := withPrev None e2]> (<[q := old]> (heap s2))).
  assert (Hp3 : h3 !! p = Some (withPrev None e2)) by (unfold h3; by rewrite lookup_insert_eq).
  erewrite sbind_ok; [|apply (eraseNoLock_run _ _ p (withPrev None e2)); [cbn; rewrite Hkold, lookup_insert_eq; done|exact Hp3|done]].
  cbn [nextOID entries heap ename withNext]. rewrite Hkold.
  unfold emplaceNoLock. erewrite sbind_ok; [|apply (deref_ok q old); cbn; unfold h3;
    rewrite lookup_delete_ne, lookup_insert_ne, lookup_insert_eq by done; done].
  unfold sbind at 1, sget at 1. cbn [entries]. rewrite Hkold, lookup_delete_eq.
  erewrite sbind_ok; [|reflexivity]. unfold setEntries, smodify. cbn [entries nextOID heap].
  rewrite lookup_delete_eq. do 2 f_equal.
  - cbn. rewrite delete_insert_eq, delete_delete_eq. by apply insert_delete_id.
  - unfold h3. rewrite delete_insert_eq. cbn.
    apply map_eq. intros r. destruct (decide (r = p)) as [->|Hrp]; [by rewrite lookup_delete_eq|].
    rewrite lookup_delete_ne by done. destruct (decide (r = q)) as [->|Hrq]; [by rewrite lookup_insert_eq|].
    by rewrite !lookup_insert_ne.
Qed.

(** ** What transactions see *)

Definition lookupFor (cs : string -> list (loc * CatalogEntry)) t (n : string) : option CatalogEntry :=
  public <$> seen (cs (lower n)) t.

(** A change a transaction made to a name: it sees the new entry (or none), nobody else
    sees a difference until it commits; from the commit on the transactions that start
    later see it; rolling it back leaves no trace. *)
Record isolated_change t (k : string) (new : option CatalogEntry) (cs : string -> list (loc * CatalogEntry))
    (p : loc) s' (cs' : string -> list (loc * CatalogEntry)) : Prop := {
  change_wf : wf_set s' cs';
  change_own : forall n, lower n = k -> lookupFor cs' t n = new;
  change_others : forall u n, wf_ids (startTS u) (ID u) -> ID u <> ID t -> lookupFor cs' u n = lookupFor cs u n;
  change_commit : forall cts, 0 <= cts < START_TRANSACTION_ID ->
    exists s2 cs2, commitCatalogEntryRecord p cts s' = (Ok tt, s2) /\ wf_set s2 cs2 /\
      forall u n, wf_ids (startTS u) (ID u) -> ID u <> ID t ->
        lookupFor cs2 u n = if decide (lower n = k /\ cts <= startTS u) then new else lookupFor cs u n;
  change_rollback :
    exists s3 cs3, rollbackCatalogEntryRecord p s' = (Ok tt, s3) /\ wf_set s3 cs3 /\
      forall u n, wf_ids (startTS u) (ID u) -> lookupFor cs3 u n = lookupFor cs u n;
}.

Lemma seen_cons p e es t :
  seen ((p, e) :: es) t = if sees t e then if deleted e then None else Some e else seen es t.
Proof. unfold seen, firstVisible. cbn. by destruct (sees t e). Qed.

Lemma seen_relinked q old rest x t :
  public <$> seen ((q, withNext x old) :: rest) t = public <$> seen ((q, old) :: rest) t.
Proof.
  rewrite !seen_cons. unfold sees. cbn. destruct (visible _ _ _); [|done]. by destruct (deleted old).
Qed.

Lemma push_isolated s cs q old rest e t :
  wf_set s cs -> wf_ids (startTS t) (ID t) -> cs (lower (ename e)) = (q, old) :: rest ->
  prev e = None -> next e = None -> timestamp e = ID t ->
  let p := fresh (dom (heap s)) in
  exists cs', isolated_change t (lower (ename e)) (if deleted e then None else Some (public e)) cs q
    (pushed s (lower (ename e)) p q e old) cs'.
Proof.
  intros Hwf Ht Hcs Hprev Hnext Hts p. set (k := lower (ename e)) in *.
  eexists. split.
  - exact (pushed_wf s cs q old rest e k Hwf eq_refl Hcs Hnext).
  - intros n Hn. unfold lookupFor, chainsUpd. rewrite decide_True by done. rewrite seen_cons.
    unfold sees. cbn. rewrite Hts, own_visible. by destruct (deleted e).
  - intros u n Hu Hne. unfold lookupFor, chainsUpd. destruct (decide (lower n = k)) as [Hn|]; [|done].
    rewrite seen_cons. unfold sees at 1. cbn [timestamp withPrev]. rewrite Hts, uncommitted_invisible; [|done|apply Ht|done].
    rewrite seen_relinked, Hn, Hcs. done.
  - intros cts Hcts. destruct (pushed_commit s cs q old rest e k cts Hwf eq_refl Hcs Hnext) as (s2 & Hrun & Hwf2).
    eexists s2, _. split_and!; [exact Hrun|exact Hwf2|].
    intros u n Hu Hne. unfold lookupFor, chainsUpd. destruct (decide (lower n = k)) as [Hn|Hn].
    + rewrite seen_cons. unfold sees at 1. cbn [timestamp withPrev setTimestamp].
      rewrite committed_visible by done. destruct (Z.leb_spec cts (startTS u)) as [Hle|Hgt].
      * rewrite decide_True by done. cbn. by destruct (deleted e).
      * rewrite decide_False by lia. rewrite seen_relinked, Hn, Hcs. done.
    + rewrite decide_False by tauto. done.
  - destruct (pushed_rollback s cs q old rest e k Hwf eq_refl Hcs Hnext) as (s3 & Hrun & Hwf3 & _).
    exists s3, cs. split_and!; [exact Hrun|done|done].
Qed.

Lemma no_conflict_sees t e : checkWWConflict t e = false -> sees t e = true.
Proof.
  unfold checkWWConflict, sees, visible. intros H. apply orb_false_iff in H as [H1 H2].
  apply orb_true_iff. destruct (Z.eqb_spec (timestamp e) (ID t)); [by left|right].
  apply Z.leb_le. lia.
Qed.

(** A name that has no versions gets a deleted dummy first, which nobody sees. *)
Definition withDummy s (n : string) (o : Z) : CatalogSet :=
  mkSet (nextOID s) (<[lower n := fresh (dom (heap s))]> (entries s))
    (<[fresh (dom (heap s)) := dummyEntry n o]> (heap s)).

Lemma withDummy_wf s cs n o :
  wf_set s cs -> cs (lower n) = [] ->
  wf_set (withDummy s n o) (chainsUpd cs (lower n) [(fresh (dom (heap s)), dummyEntry n o)]) /\
  forall u n', lookupFor (chainsUpd cs (lower n) [(fresh (dom (heap s)), dummyEntry n o)]) u n' = lookupFor cs u n'.
Proof.
  intros Hwf Hnil. set (d := fresh (dom (heap s))). split.
  - apply (wf_set_update s); cbn; [done| | | | | |].
    + intros k' Hk'. by rewrite lookup_insert_ne.
    + intros k' p Hk' Hp. destruct (fresh_heap s cs k' d Hwf eq_refl) as [_ Hd].
      assert (p <> d) by (intros ->; done). rewrite lookup_insert_ne by done. split; [done|].
      by intros ?%list_elem_of_singleton.
    + rewrite lookup_insert_eq. constructor; [by rewrite lookup_insert_eq|done|constructor].
    + apply NoDup_singleton.
    + by intros p e [= <- <-].
    + intros p e Hin. apply list_elem_of_singleton in Hin. by simplify_eq.
  - intros u n'. unfold lookupFor, chainsUpd. destruct (decide (lower n' = lower n)) as [->|]; [|done].
    rewrite Hnil, seen_cons. cbn. by destruct (sees u _).
Qed.

(** C18. Creating an entry under a name the transaction does not see, when nobody else
    changed the name since the transaction started, succeeds: the transaction sees the
    entry and nobody else a difference; committing shows it exactly to the transactions
    that start at the commit timestamp or later, and rolling it back leaves every
    transaction what it saw before. *)
Theorem create_isolated s cs t e :
  wf_set s cs -> wf_ids (startTS t) (ID t) -> prev e = None -> next e = None -> deleted e = false ->
  lookupFor cs t (ename e) = None ->
  (forall q old rest, cs (lower (ename e)) = (q, old) :: rest -> checkWWConflict t old = false) ->
  exists p s' cs', createEntryNoLock t e s = (Ok p, s') /\
    isolated_change t (lower (ename e)) (Some (public e)) cs p s' cs'.
Proof.
  intros Hwf Ht Hprev Hnext Hdel Hnone Hconf.
  assert (Hval : validateNotExistNoLock s t (ename e) = Ok tt).
  { unfold validateNotExistNoLock. rewrite (contains_spec s cs Hwf t Ht). cbn.
    unfold lookupFor in Hnone. by destruct (seen (cs (lower (ename e))) t). }
  set (e1 := setTimestamp (ID t) e).
  unfold createEntryNoLock. unfold sbind at 1, sget at 1.
  rewrite (sbind_ok _ _ s tt s) by (unfold slift; by rewrite Hval). cbn zeta. fold e1.
  change (ename e1) with (ename e). pose proof Hwf as [Hc _ _ _ _]. specialize (Hc (lower (ename e))).
  destruct (cs (lower (ename e))) as [|[q old] rest] eqn:Hcs.
  - assert (entries s !! lower (ename e) = None) as -> by (by inversion Hc).
    destruct (withDummy_wf s cs (ename e) (oid e) Hwf Hcs) as [Hwf1 Hsame].
    erewrite sbind_ok; [|reflexivity].
    match goal with |- context [_ ?s1 = _] => change s1 with (withDummy s (ename e) (oid e)) end.
    assert (Hcs1 : chainsUpd cs (lower (ename e)) [(fresh (dom (heap s)), dummyEntry (ename e) (oid e))] (lower (ename e1))
      = [(fresh (dom (heap s)), dummyEntry (ename e) (oid e))])
      by (unfold chainsUpd; by rewrite decide_True).
    destruct (push_run _ _ _ _ _ e1 Hwf1 Hcs1 Hprev) as [Hrun _].
    destruct (push_isolated _ _ _ _ _ e1 t Hwf1 Ht Hcs1 Hprev Hnext eq_refl) as [cs' [H1 H2 H3 H4 H5]].
    eexists _, _, cs'. split; [exact Hrun|]. change (deleted e1) with (deleted e) in *. rewrite Hdel in *.
    split; auto.
    + intros u n Hu Hne. rewrite H3 by done. apply Hsame.
    + intros cts Hcts. destruct (H4 cts Hcts) as (s2 & cs2 & Hr & Hw & Hv). exists s2, cs2.
      split_and!; [done|done|]. intros u n Hu Hne. rewrite Hv by done. by rewrite Hsame.
    + destruct H5 as (s3 & cs3 & Hr & Hw & Hv). exists s3, cs3. split_and!; [done|done|].
      intros u n Hu. rewrite Hv by done. apply Hsame.
  - assert (Hq : entries s !! lower (ename e) = Some q /\ heap s !! q = Some old) by (by inversion Hc; subst).
    destruct Hq as [-> Hq]. specialize (Hconf q old rest eq_refl).
    assert (Hdead : deleted old = true).
    { unfold lookupFor in Hnone. rewrite Hcs, seen_cons, (no_conflict_sees t old Hconf) in Hnone.
      by destruct (deleted old). }
    erewrite sbind_ok; [|erewrite sbind_ok; [|by apply deref_ok]; rewrite Hconf, Hdead; reflexivity].
    assert (Hcs1 : cs (lower (ename e1)) = (q, old) :: rest) by done.
    destruct (push_run _ _ _ _ _ e1 Hwf Hcs1 Hprev) as [Hrun _].
    destruct (push_isolated _ _ _ _ _ e1 t Hwf Ht Hcs1 Hprev Hnext eq_refl) as [cs' Hiso].
    change (deleted e1) with (deleted e) in Hiso. rewrite Hdel in Hiso.
    eexists _, _, cs'. split; [exact Hrun|exact Hiso].
Qed.

(** Dropping an entry the transaction sees succeeds: it is gone for the transaction and
    unchanged for everybody else; committing removes it exactly for the transactions that
    start at the commit timestamp or later, and rolling back brings it back. *)
Theorem drop_isolated s cs t n o :
  wf_set s cs -> wf_ids (startTS t) (ID t) -> lookupFor cs t n <> None ->
  exists p s' cs', dropEntryNoLock t n o s = (Ok p, s') /\ isolated_change t (lower n) None cs p s' cs'.
Proof.
  intros Hwf Ht Hsome. set (e := setTimestamp (ID t) (dummyEntry n o)).
  assert (Hval : validateExistNoLock s t n = Ok tt).
  { unfold validateExistNoLock. rewrite (contains_spec s cs Hwf t Ht). cbn.
    unfold lookupFor in Hsome. by destruct (seen (cs (lower n)) t). }
  destruct (cs (lower n)) as [|[q old] rest] eqn:Hcs.
  { exfalso. apply Hsome. unfold lookupFor. by rewrite Hcs. }
  assert (Hcs1 : cs (lower (ename e)) = (q, old) :: rest) by done.
  destruct (push_run _ _ _ _ _ e Hwf Hcs1 eq_refl) as [Hrun _].
  destruct (push_isolated _ _ _ _ _ e t Hwf Ht Hcs1 eq_refl eq_refl eq_refl) as [cs' Hiso].
  eexists _, _, cs'. split; [|exact Hiso].
  unfold dropEntryNoLock. unfold sbind at 1, sget at 1.
  rewrite (sbind_ok _ _ s tt s) by (unfold slift; by rewrite Hval). exact Hrun.
Qed.

(** The errors: creating under a name that is seen, creating under a name another
    transaction has changed, and dropping a name that is not seen leave the set as it was. *)
Theorem catalog_errors s cs t e n o :
  wf_set s cs -> wf_ids (startTS t) (ID t) ->
  (lookupFor cs t (ename e) <> None -> createEntryNoLock t e s = (Err (alreadyExists (ename e)), s)) /\
  (lookupFor cs t (ename e) = None ->
   (exists q old rest, cs (lower (ename e)) = (q, old) :: rest /\ checkWWConflict t old = true) ->
   createEntryNoLock t e s = (Err (createConflict (ename e)), s)) /\
  (lookupFor cs t n = None -> dropEntryNoLock t n o s = (Err (doesNotExist n), s)).
Proof.
  intros Hwf Ht. split_and!.
  - intros Hsome. unfold createEntryNoLock. unfold sbind at 1, sget at 1. apply sbind_err.
    unfold slift, validateNotExistNoLock. rewrite (contains_spec s cs Hwf t Ht). cbn.
    unfold lookupFor in Hsome. by destruct (seen (cs (lower (ename e))) t).
  - intros Hnone (q & old & rest & Hcs & Hconf). unfold createEntryNoLock. unfold sbind at 1, sget at 1.
    rewrite (sbind_ok _ _ s tt s).
    + change (ename (setTimestamp (ID t) e)) with (ename e).
      pose proof Hwf as [Hc _ _ _ _]. specialize (Hc (lower (ename e))). rewrite Hcs in Hc.
      assert (Hq : entries s !! lower (ename e) = Some q /\ heap s !! q = Some old) by (by inversion Hc; subst).
      destruct Hq as [-> Hq]. apply sbind_err. erewrite sbind_ok; [|by apply deref_ok]. by rewrite Hconf.
    + unfold slift, validateNotExistNoLock. rewrite (contains_spec s cs Hwf t Ht). cbn.
      unfold lookupFor in Hnone. by destruct (seen (cs (lower (ename e))) t).
  - intros Hnone. unfold dropEntryNoLock. unfold sbind at 1, sget at 1. apply sbind_err.
    unfold slift, validateExistNoLock. rewrite (contains_spec s cs Hwf t Ht). cbn.
    unfold lookupFor in Hnone. by destruct (seen (cs (lower n)) t).
Qed.

Lemma emptySet_wf : wf_set emptySet (fun _ => []).
Proof.
  split; cbn.
  - intros k. rewrite lookup_empty. constructor.
  - intros k. constructor.
  - intros k k' p Hp. by apply not_elem_of_nil in Hp.
  - done.
  - intros k p e Hp. by apply not_elem_of_nil in Hp.
Qed.
End CatalogSet.

(** ** Concrete sets *)

Definition txnA : Transaction := newTransaction WRITE (START_TRANSACTION_ID + 1) 5.
Definition txnB : Transaction := newTransaction WRITE (START_TRANSACTION_ID + 2) 5.
Definition txnC : Transaction := newTransaction WRITE (START_TRANSACTION_ID + 3) 9.

Lemma wf_txnA : wf_ids (startTS txnA) (ID txnA).
Proof. unfold txnA, START_TRANSACTION_ID. split; cbn; unfold START_TRANSACTION_ID, INVALID_TRANSACTION; lia. Qed.

Definition personTable : CatalogEntry (D := Z) (X := unit) :=
  mkEntry NODE_TABLE_ENTRY "Person" 0 INVALID_TRANSACTION false false None
    (TableContent "" (add (mkProperty "id" 1) (newCollection 0))) None None.

Lemma create_isolated_witness :
  exists p s' cs', createEntryNoLock txnA personTable emptySet = (Ok p, s') /\
    isolated_change txnA "person" (Some (public personTable)) (fun _ => []) p s' cs'.
Proof.
  apply (create_isolated emptySet (fun _ => []) txnA personTable emptySet_wf wf_txnA);
    [reflexivity|reflexivity|reflexivity|reflexivity|discriminate].
Defined.

(** A set with the committed table. *)
Definition personSet : CatalogSet (D := Z) (X := unit) :=
  mkSet 1 {[ "person" := 0%nat ]} {[ 0%nat := setTimestamp 0 personTable ]}.
Definition personChains (k : string) : list (loc * CatalogEntry (D := Z) (X := unit)) :=
  if decide (k = "person") then [(0%nat, setTimestamp 0 personTable)] else [].

Lemma personSet_wf : wf_set personSet personChains.
Proof.
  unfold personChains. split.
  - intros k. unfold personSet. cbn [entries heap]. destruct (decide (k = "person")) as [->|].
    + rewrite lookup_singleton_eq. constructor; [by rewrite lookup_singleton_eq|done|constructor].
    + rewrite lookup_singleton_ne by done. constructor.
  - intros k. destruct (decide (k = "person")); [apply NoDup_singleton|constructor].
  - intros k k' p H1 H2. destruct (decide (k = "person")) as [->|]; [|by apply not_elem_of_nil in H1].
    destruct (decide (k' = "person")) as [->|]; [done|by apply not_elem_of_nil in H2].
  - intros k p e. destruct (decide (k = "person")); [|done]. by intros [= <- <-].
  - intros k p e. destruct (decide (k = "person")) as [->|]; intros Hin.
    + apply list_elem_of_singleton in Hin. by simplify_eq.
    + by apply not_elem_of_nil in Hin.
Qed.

Lemma drop_isolated_witness :
  exists p s' cs', dropEntryNoLock txnA "PERSON" 0 personSet = (Ok p, s') /\
    isolated_change txnA "person" None personChains p s' cs'.
Proof.
  apply (drop_isolated personSet personChains txnA "PERSON" 0 personSet_wf wf_txnA). vm_compute. discriminate.
Defined.

Lemma catalog_errors_witness :
  createEntryNoLock txnA personTable personSet = (Err (alreadyExists "Person"), personSet).
Proof.
  apply (catalog_errors personSet personChains txnA personTable "x" 0 personSet_wf wf_txnA).
  vm_compute. discriminate.
Defined.

(** ** What the code does not catch *)

(** The state after a transaction's operations on the set with the table. *)
Definition personState : CatalogState (D := Z) (X := unit) := mkState personSet [] [].
Definition commentAlter : BoundAlterInfo (D := Z) := mkAlter "Person" (COMMENT "people").

(** Dropping has no check of write-write conflicts: after another transaction altered the
    table, without having committed, the drop succeeds. *)
Theorem drop_ignores_conflict :
  let '(r1, st1) := alterEntry false txnB 0%nat commentAlter personState in
  let '(r2, st2) := dropEntry false txnA 0%nat "Person" 0 st1 in
  r1 = Ok tt /\ r2 = Ok tt /\
  (p ← entries (theSet st1) !! "person"; head ← heap (theSet st1) !! p; Some (checkWWConflict txnA head))
    = Some true.
Proof. vm_compute. auto. Qed.

(** An altered table whose alteration was rolled back keeps the alter info on the old
    version, because the rollback resets it on the new one: dropping the table then
    logs the alteration instead of the drop. *)
Theorem rolled_back_alter_logged_as_drop :
  let '(r1, st1) := alterEntry false txnA 0%nat commentAlter personState in
  let '(r2, s2) := rollbackCatalogEntryRecord 0%nat (theSet st1) in
  let '(r3, st3) := dropEntry false txnC 0%nat "Person" 0 (mkState s2 [] []) in
  r1 = Ok tt /\ r2 = Ok tt /\ r3 = Ok tt /\ cwal st3 = [AlterTableEntryRecord commentAlter].
Proof. vm_compute. auto. Qed.
