(* ===== verification/SequenceEntry.v ===== *)
(** * Sequences (src/catalog/catalog_entry/sequence_catalog_entry.cpp,
      src/include/catalog/catalog_entry/sequence_catalog_entry.h, the sequence records of
      src/storage/undo_buffer.cpp and [Transaction::pushSequenceChange])

    A sequence counts from its start by its increment between a minimum and a maximum,
    all 64-bit; a call for [k] values leaves one undo record with the state before it. *)

From S2P Require Import Prelude Transaction UndoBuffer Serializer.
From stdpp Require Import base list gmap strings numbers.
Local Open Scope Z_scope.

Record SequenceData : Type := mkSequence {
  usageCount : Z;
  currVal : Z;
  increment : Z;
  startValue : Z;
  minValue : Z;
  maxValue : Z;
  cycle : bool;
}.
Implicit Types s : SequenceData.

(** [SequenceData(BoundCreateSequenceInfo)]. *)
Definition newSequence (startWith inc mn mx : Z) (cyc : bool) : SequenceData :=
  mkSequence 0 startWith inc startWith mn mx cyc.

Definition setUsage (u c : Z) s : SequenceData :=
  mkSequence u c (increment s) (startValue s) (minValue s) (maxValue s) (cycle s).

Section SequenceEntry.
(** The name of the entry, in the messages, and [std::to_string]. *)
Context (name : string) (to_string : Z -> string).

Definition quoted : string :=
  let quote := String (Ascii.ascii_of_nat 34) EmptyString in
  String.append quote (String.append name quote).
Definition notYetDefined : exn := CatalogException
  (String.append "currval: sequence " (String.append quoted
    " is not yet defined. To define the sequence, call nextval first.")).
Definition reachedMinimum (v : Z) : exn := CatalogException
  (String.append "nextval: reached minimum value of sequence "
    (String.append quoted (String.append " " (to_string v)))).
Definition reachedMaximum (v : Z) : exn := CatalogException
  (String.append "nextval: reached maximum value of sequence "
    (String.append quoted (String.append " " (to_string v)))).

Definition getCurrVal s : outcome Z :=
  if usageCount s =? 0 then Err notYetDefined else Ok (currVal s).

(** [function::Add::operation] on [int64_t]: [None] is the overflow exception. *)
Definition addInt64 (a b : Z) : option Z :=
  if decide (inS 64 (a + b)) then Some (a + b) else None.

Definition nextValNoLock : M SequenceData unit :=
  s <- sget ;;
  if usageCount s =? 0 then sput (setUsage (wrapU 64 (usageCount s + 1)) (currVal s) s)
  else
    let '(overflow, next) := match addInt64 (currVal s) (increment s) with
                             | Some n => (false, n)
                             | None => (true, currVal s)
                             end in
    next <- (if cycle s then
               sret (if overflow : bool then if increment s <? 0 then maxValue s else minValue s
                     else if next <? minValue s then maxValue s
                     else if maxValue s <? next then minValue s
                     else next)
             else
               let minError := if overflow then increment s <? 0 else next <? minValue s in
               let maxError := if overflow then 0 <? increment s else maxValue s <? next in
               if minError : bool then sthrow (reachedMinimum (minValue s))
               else if maxError : bool then sthrow (reachedMaximum (maxValue s))
               else sret next) ;;
    sput (setUsage (wrapU 64 (usageCount s + 1)) next s).

(** The loop of both [nextKVal]s; the values are the ones the result vector gets. *)
Fixpoint nextValues (count : nat) : M SequenceData (list Z) :=
  match count with
  | O => sret []
  | S n => nextValNoLock ;;; s <- sget ;; vs <- nextValues n ;; sret (currVal s :: vs)
  end.

(** A sequence with the undo buffer of the transaction and the counts logged to the WAL. *)
Record SequenceState : Type := mkSeqState {
  sequenceData : SequenceData;
  undo : UndoBuffer;
  swal : list Z;
}.

Definition pushSequenceChange (inMemory : bool) (t : Transaction) (entry : loc) (kCount : Z)
    (usage curr : Z) : M SequenceState unit :=
  szoom undo (fun u st => mkSeqState (sequenceData st) u (swal st)) (createSequenceChange entry usage curr) ;;;
  if shouldLogToWAL inMemory t
  then smodify (fun st => mkSeqState (sequenceData st) (undo st) (swal st ++ [kCount]))
  else sret tt.

Definition nextKVal (inMemory : bool) (t : Transaction) (entry : loc) (count : nat)
    : M SequenceState (list Z) :=
  kuAssert (0 <? count)%nat ;;;
  st <- sget ;;
  let usage := usageCount (sequenceData st) in
  let curr := currVal (sequenceData st) in
  vs <- szoom sequenceData (fun s st => mkSeqState s (undo st) (swal st)) (nextValues count) ;;
  pushSequenceChange inMemory t entry (Z.of_nat count) usage curr ;;;
  sret vs.

Definition rollbackVal (usage curr : Z) : M SequenceData unit := smodify (setUsage usage curr).

(** ** What a sequence returns *)

(** Every number is a 64-bit one and the current value is between the bounds. *)
Record wf_sequence s : Prop := {
  wf_min : inS 64 (minValue s);
  wf_max : inS 64 (maxValue s);
  wf_inc : inS 64 (increment s) /\ increment s <> 0;
  wf_curr : minValue s <= currVal s <= maxValue s;
  wf_start : inS 64 (startValue s);
  wf_usage : 0 <= usageCount s;
}.

(** The next value, over the integers: past a bound, the other bound or an error. *)
Definition nextSpec s : outcome Z :=
  if usageCount s =? 0 then Ok (currVal s)
  else
    let n := currVal s + increment s in
    if n <? minValue s then if cycle s then Ok (maxValue s) else Err (reachedMinimum (minValue s))
    else if maxValue s <? n then if cycle s then Ok (minValue s) else Err (reachedMaximum (maxValue s))
    else Ok n.

Lemma nextValNoLock_spec s :
  wf_sequence s -> usageCount s < 2 ^ 64 - 1 ->
  nextValNoLock s = match nextSpec s with
                    | Ok v => (Ok tt, setUsage (usageCount s + 1) v s)
                    | Err e => (Err e, s)
                    end.
Proof.
  intros [Hmin Hmax [Hinc Hne] Hcur _ Hu] Hlt. unfold nextValNoLock, nextSpec. unfold sbind at 1, sget.
  assert (Hwrap : wrapU 64 (usageCount s + 1) = usageCount s + 1) by (apply Z.mod_small; lia).
  rewrite Hwrap. destruct (Z.eqb_spec (usageCount s) 0) as [Hz|Hz]; [done|].
  unfold inS in *. unfold addInt64, inS.
  destruct (decide _) as [Hin|Hout]; cbn.
  - unfold sbind, sret, sthrow, sput.
    destruct (cycle s), (currVal s + increment s <? minValue s), (maxValue s <? currVal s + increment s); done.
  - destruct (Z.ltb_spec (increment s) 0) as [Hneg|Hpos].
    + assert (Hl : (currVal s + increment s <? minValue s) = true) by (apply Z.ltb_lt; lia). rewrite Hl.
      by destruct (cycle s).
    + assert (Hl : (currVal s + increment s <? minValue s) = false) by (apply Z.ltb_ge; lia).
      assert (Hg : (maxValue s <? currVal s + increment s) = true) by (apply Z.ltb_lt; lia). rewrite Hl, Hg.
      assert (Hi : (0 <? increment s) = true) by (apply Z.ltb_lt; lia).
      unfold sbind, sret, sthrow, sput. destruct (cycle s); [done|]. by rewrite Hi.
Qed.

Lemma nextSpec_range s v : wf_sequence s -> nextSpec s = Ok v -> minValue s <= v <= maxValue s.
Proof.
  intros [Hmin Hmax _ Hcur _ _]. unfold nextSpec.
  destruct (usageCount s =? 0); [intros [= <-]; lia|].
  destruct (Z.ltb_spec (currVal s + increment s) (minValue s)).
  - destruct (cycle s); [intros [= <-]; lia|done].
  - destruct (Z.ltb_spec (maxValue s) (currVal s + increment s)).
    + destruct (cycle s); [intros [= <-]; lia|done].
    + intros [= <-]. lia.
Qed.

Lemma setUsage_wf s u v :
  wf_sequence s -> 0 <= u -> minValue s <= v <= maxValue s -> wf_sequence (setUsage u v s).
Proof. intros [? ? ? ? ? ?] Hu Hv. by split. Qed.

(** The values of [count] calls, by iterating the specification. *)
Fixpoint valuesSpec (count : nat) s : outcome (list Z) :=
  match count with
  | O => Ok []
  | S n =>
      let* v := nextSpec s in
      let* vs := valuesSpec n (setUsage (usageCount s + 1) v s) in
      Ok (v :: vs)
  end.

Lemma nextValues_spec count s :
  wf_sequence s -> usageCount s + Z.of_nat count < 2 ^ 64 ->
  exists s', wf_sequence s' /\ increment s' = increment s /\
    (exists u c, s' = setUsage u c s) /\
    match valuesSpec count s with
    | Ok vs => nextValues count s = (Ok vs, s') /\ length vs = count /\
               Forall (fun v => minValue s <= v <= maxValue s) vs
    | Err e => nextValues count s = (Err e, s')
    end.
Proof.
  revert s. induction count as [|count IH]; intros s Hwf Hu.
  - exists s. cbn. split_and!; auto. exists (usageCount s), (currVal s). by destruct s.
  - cbn [nextValues valuesSpec]. pose proof (nextValNoLock_spec s Hwf ltac:(lia)) as Hnext.
    destruct (nextSpec s) as [v|e] eqn:Es; cbn [obind].
    + pose proof (nextSpec_range s v Hwf Es) as Hv.
      set (s1 := setUsage (usageCount s + 1) v s) in *.
      assert (Hwf1 : wf_sequence s1) by (apply setUsage_wf; [done|destruct Hwf; lia|done]).
      destruct (IH s1 Hwf1 ltac:(cbn; lia)) as (s' & Hwf' & Hi & (u & c & Hs') & Hm).
      exists s'. split_and!; [done|done|exists u, c; done|].
      rewrite (sbind_ok _ _ _ _ _ Hnext), (sbind_ok sget _ s1 s1 s1) by reflexivity.
      destruct (valuesSpec count s1) as [vs|e]; cbn [obind].
      * destruct Hm as (Hr & Hl & Hf). rewrite (sbind_ok _ _ _ _ _ Hr). split_and!; [done|cbn; by rewrite Hl|].
        constructor; [done|exact Hf].
      * rewrite (sbind_err _ _ _ _ _ Hm). done.
    + exists s. rewrite (sbind_err _ _ _ _ _ Hnext). split_and!; auto.
      exists (usageCount s), (currVal s). by destruct s.
Qed.

(** The undo buffer never fails to take a record. *)
Lemma createSequenceChange_ok entry u c (b : UndoBuffer) es :
  holds b es -> exists b', createSequenceChange entry u c b = (Ok tt, b') /\
    holds b' (es ++ [(SEQUENCE_ENTRY, SequenceEntryRecord entry u c)]).
Proof. apply createRecord_holds. Qed.

(** [nextKVal] returns the next [count] values of the sequence, all between its bounds
    whatever overflows on the way; the record it leaves in the undo buffer restores the
    sequence; when a bound is reached without cycling it is the error of the first value
    that cannot be given. *)
Theorem nextKVal_spec inMemory t entry count st es :
  wf_sequence (sequenceData st) -> (0 < count)%nat ->
  usageCount (sequenceData st) + Z.of_nat count < 2 ^ 64 -> holds (undo st) es ->
  exists st', wf_sequence (sequenceData st') /\
    match valuesSpec count (sequenceData st) with
    | Err e => nextKVal inMemory t entry count st = (Err e, st')
    | Ok vs =>
        nextKVal inMemory t entry count st = (Ok vs, st') /\ length vs = count /\
        Forall (fun v => minValue (sequenceData st) <= v <= maxValue (sequenceData st)) vs /\
        exists u c, holds (undo st') (es ++ [(SEQUENCE_ENTRY, SequenceEntryRecord entry u c)]) /\
          rollbackVal u c (sequenceData st') = (Ok tt, sequenceData st)
    end.
Proof.
  intros Hwf Hc Hu Hb. destruct (nextValues_spec count (sequenceData st) Hwf Hu)
    as (s' & Hwf' & _ & (u' & c' & Hs') & Hm).
  assert (Hassert : kuAssert (0 <? count)%nat st = (Ok tt, st)).
  { unfold kuAssert. by rewrite (proj2 (Nat.ltb_lt 0 count) Hc). }
  unfold nextKVal. rewrite (sbind_ok _ _ _ _ _ Hassert), (sbind_ok sget _ st st st) by reflexivity.
  destruct (valuesSpec count (sequenceData st)) as [vs|e].
  - destruct Hm as (Hr & Hl & Hf).
    set (st1 := mkSeqState s' (undo st) (swal st)).
    rewrite (sbind_ok _ _ st vs st1) by (unfold szoom; by rewrite Hr).
    destruct (createSequenceChange_ok entry (usageCount (sequenceData st)) (currVal (sequenceData st)) _ _ Hb)
      as (b' & Hcr & Hb').
    assert (Hpush : exists w, pushSequenceChange inMemory t entry (Z.of_nat count)
      (usageCount (sequenceData st)) (currVal (sequenceData st)) st1 = (Ok tt, mkSeqState s' b' w)).
    { unfold pushSequenceChange. rewrite (sbind_ok _ _ st1 tt (mkSeqState s' b' (swal st)))
        by (unfold szoom; cbn; by rewrite Hcr).
      destruct (shouldLogToWAL inMemory t); eexists; reflexivity. }
    destruct Hpush as [w Hpush]. exists (mkSeqState s' b' w). split; [done|].
    rewrite (sbind_ok _ _ _ _ _ Hpush). split_and!; [done|done|done|].
    eexists _, _. split; [exact Hb'|]. unfold rollbackVal, smodify. cbn. rewrite Hs'.
    by destruct (sequenceData st).
  - exists (mkSeqState s' (undo st) (swal st)). split; [done|]. apply sbind_err.
    unfold szoom. by rewrite Hm.
Qed.
End SequenceEntry.

(** ** Serialization (the members after the entry's own) *)

Definition serializeSequence s : Writer unit :=
  serializeU 8 (usageCount s) ;;; serializeS 8 (currVal s) ;;; serializeS 8 (increment s) ;;;
  serializeS 8 (startValue s) ;;; serializeS 8 (minValue s) ;;; serializeS 8 (maxValue s) ;;;
  serializeBool (cycle s).
Definition deserializeSequence : Reader SequenceData :=
  u <- deserializeU 8 ;; c <- deserializeS 8 ;; i <- deserializeS 8 ;; st <- deserializeS 8 ;;
  mn <- deserializeS 8 ;; mx <- deserializeS 8 ;; cy <- deserializeBool ;;
  sret (mkSequence u c i st mn mx cy).

(** A sequence is read back as it was written. *)
Theorem sequence_roundtrip s :
  wf_sequence s -> usageCount s < 2 ^ 64 -> codec serializeSequence deserializeSequence s.
Proof.
  intros [Hmin Hmax [Hinc _] Hcur Hst Hu] Hlt.
  assert (Hc : inS 64 (currVal s)) by (unfold inS in *; lia).
  destruct (codec_U 8 (usageCount s)) as (b1 & W1 & R1); [unfold inU; lia|].
  destruct (codec_S 8 (currVal s)) as (b2 & W2 & R2); [lia|done|].
  destruct (codec_S 8 (increment s)) as (b3 & W3 & R3); [lia|done|].
  destruct (codec_S 8 (startValue s)) as (b4 & W4 & R4); [lia|done|].
  destruct (codec_S 8 (minValue s)) as (b5 & W5 & R5); [lia|done|].
  destruct (codec_S 8 (maxValue s)) as (b6 & W6 & R6); [lia|done|].
  destruct (codec_Bool (cycle s)) as (b7 & W7 & R7).
  exists (b1 ++ b2 ++ b3 ++ b4 ++ b5 ++ b6 ++ b7). split.
  - intros out. unfold serializeSequence.
    rewrite (sbind_ok _ _ _ _ _ (W1 _)), (sbind_ok _ _ _ _ _ (W2 _)), (sbind_ok _ _ _ _ _ (W3 _)),
      (sbind_ok _ _ _ _ _ (W4 _)), (sbind_ok _ _ _ _ _ (W5 _)), (sbind_ok _ _ _ _ _ (W6 _)), W7.
    by rewrite !app_assoc.
  - intros rest. unfold deserializeSequence. rewrite <- !app_assoc.
    rewrite (sbind_ok _ _ _ _ _ (R1 _)), (sbind_ok _ _ _ _ _ (R2 _)), (sbind_ok _ _ _ _ _ (R3 _)),
      (sbind_ok _ _ _ _ _ (R4 _)), (sbind_ok _ _ _ _ _ (R5 _)), (sbind_ok _ _ _ _ _ (R6 _)),
      (sbind_ok _ _ _ _ _ (R7 _)).
    by destruct s.
Qed.

Definition exampleSequence : SequenceData := mkSequence 3 9 4 1 1 10 true.

Lemma exampleSequence_wf : wf_sequence exampleSequence.
Proof. split; cbn; unfold inS; lia. Qed.

Lemma nextKVal_spec_witness :
  exists st', nextKVal "seq" (fun _ => EmptyString) true DUMMY_TRANSACTION 0%nat 3
    (mkSeqState exampleSequence [] []) = (Ok [1; 5; 9], st').
Proof.
  destruct (nextKVal_spec "seq" (fun _ => EmptyString) true DUMMY_TRANSACTION 0%nat 3
              (mkSeqState exampleSequence [] []) [] exampleSequence_wf)
    as (st' & _ & H & _); [lia|cbn; lia|apply holds_empty|].
  exists st'. exact H.
Defined.

Lemma sequence_roundtrip_witness : codec serializeSequence deserializeSequence exampleSequence.
Proof. apply (sequence_roundtrip exampleSequence exampleSequence_wf). cbn. lia. Defined.

(** A call that fails after some of its values leaves the sequence advanced, and no undo
    record to take it back. *)
Theorem failed_nextKVal_advances :
  let '(r, st) := nextKVal "seq" (fun _ => EmptyString) true DUMMY_TRANSACTION 0%nat 3
                    (mkSeqState (mkSequence 1 8 1 1 1 10 false) [] []) in
  r = Err (reachedMaximum "seq" (fun _ => EmptyString) 10) /\
  currVal (sequenceData st) = 10 /\ undo st = [].
Proof. vm_compute. auto. Qed.
