(* ===== verification/UndoReplay.v ===== *)
(** * Committing and rolling back a transaction's undo buffer
      ([UndoBuffer::commit], [rollback], [commitRecord], [rollbackRecord] and the version
      records of src/storage/undo_buffer.cpp; the versions of a chunked node group,
      src/storage/store/chunked_node_group.cpp)

    The store holds, by address, what undo records point to: chunked node groups,
    catalog sets, sequences and update infos.  The column data of a node group is not part
    of it: rows are visible or not by their versions alone. *)

From S2P Require Import Prelude Transaction UndoBuffer VectorVersion VersionInfo UpdateInfo Serializer PropertyCollection CatalogSet SequenceEntry.
From stdpp Require Import base list gmap strings numbers.

(** ** [ChunkedNodeGroup] *)

Record ChunkedNodeGroup : Type := mkGroup {
  numRows : nat;
  capacity : nat;
  versionInfo : option VersionInfo;
}.

(** A method of the group's version info: a null one is dereferenced. *)
Definition onVersionInfo {A} (m : M VersionInfo A) : M ChunkedNodeGroup A :=
  g <- sget ;;
  match versionInfo g with
  | None => sthrow UndefinedBehaviour
  | Some _ =>
      szoom (fun g => match versionInfo g with Some vi => vi | None => [] end)
            (fun vi g => mkGroup (numRows g) (capacity g) (Some vi)) m
  end.
Definition setNumRows (n : nat) : M ChunkedNodeGroup unit :=
  smodify (fun g => mkGroup n (capacity g) (versionInfo g)).

Definition commitInsert (startRow n : nat) (cts : transaction_t) : M ChunkedNodeGroup unit :=
  onVersionInfo (VersionInfo.commitInsert startRow n cts).
Definition rollbackInsert (startRow n : nat) : M ChunkedNodeGroup unit :=
  g <- sget ;;
  if bool_decide (startRow = 0) then
    setNumRows 0 ;;; smodify (fun g => mkGroup (numRows g) (capacity g) None)
  else if bool_decide (numRows g <= startRow) then sret tt
  else
    onVersionInfo (VersionInfo.rollbackInsert startRow n) ;;;
    smodify (fun g => mkGroup startRow (capacity g) (versionInfo g)).
Definition commitDelete (startRow n : nat) (cts : transaction_t) : M ChunkedNodeGroup unit :=
  onVersionInfo (VersionInfo.commitDelete startRow n cts).
Definition rollbackDelete (startRow n : nat) : M ChunkedNodeGroup unit :=
  onVersionInfo (VersionInfo.rollbackDelete startRow n).

Definition isDeleted (g : ChunkedNodeGroup) (t : Transaction) (row : nat) : outcome bool :=
  match versionInfo g with None => Ok false | Some vi => VersionInfo.isDeleted vi t row end.
Definition isInserted (g : ChunkedNodeGroup) (t : Transaction) (row : nat) : outcome bool :=
  match versionInfo g with
  | None => Ok (bool_decide (row < numRows g))
  | Some vi => VersionInfo.isInserted vi t row
  end.

(** [append] and [delete_], with the transaction's undo buffer. *)
Record GroupState : Type := mkGroupState { group : ChunkedNodeGroup; gundo : UndoBuffer }.

Definition withVersions {A} (m : M WriteState A) : M GroupState A :=
  fun st =>
    let vi := match versionInfo (group st) with Some vi => vi | None => [] end in
    let '(r, w) := m (mkWrite vi (gundo st)) in
    (r, mkGroupState (mkGroup (numRows (group st)) (capacity (group st)) (Some (versions w))) (VersionInfo.undo w)).
Definition append (t : Transaction) (cng : loc) (numValuesToAppend : nat) : M GroupState nat :=
  st <- sget ;;
  let n := min numValuesToAppend (capacity (group st) - numRows (group st)) in
  (if bool_decide (ID t = DUMMY_TRANSACTION_ID) then sret tt
   else withVersions (VersionInfo.append t cng (numRows (group st)) n)) ;;;
  smodify (fun st => mkGroupState (mkGroup (numRows (group st) + n) (capacity (group st)) (versionInfo (group st)))
                       (gundo st)) ;;;
  sret n.
Definition delete_ (t : Transaction) (cng : loc) (row : nat) : M GroupState bool :=
  withVersions (VersionInfo.delete_ t cng row).

(** ** Replaying records *)

Section UndoReplay.
Context {V D X : Type}.

Record Store : Type := mkStore {
  groups : gmap loc ChunkedNodeGroup;
  catalogs : gmap loc (CatalogSet.CatalogSet (D := D) (X := X));
  sequences : gmap loc SequenceData;
  updates : gmap loc (UpdateInfo.UpdateInfo V);
}.

(** A method of the object at an address. *)
Definition onGroup {A} (p : loc) (m : M ChunkedNodeGroup A) : M Store A :=
  fun st => match groups st !! p with
            | None => (Err UndefinedBehaviour, st)
            | Some g => let '(r, g') := m g in
                (r, mkStore (<[p := g']> (groups st)) (catalogs st) (sequences st) (updates st))
            end.
Definition onCatalog {A} (p : loc) (m : M (CatalogSet.CatalogSet (D := D) (X := X)) A) : M Store A :=
  fun st => match catalogs st !! p with
            | None => (Err UndefinedBehaviour, st)
            | Some s => let '(r, s') := m s in
                (r, mkStore (groups st) (<[p := s']> (catalogs st)) (sequences st) (updates st))
            end.
Definition onSequence {A} (p : loc) (m : M SequenceData A) : M Store A :=
  fun st => match sequences st !! p with
            | None => (Err UndefinedBehaviour, st)
            | Some s => let '(r, s') := m s in
                (r, mkStore (groups st) (catalogs st) (<[p := s']> (sequences st)) (updates st))
            end.
Definition onUpdates {A} (p : loc) (m : M (UpdateInfo.UpdateInfo V) A) : M Store A :=
  fun st => match updates st !! p with
            | None => (Err UndefinedBehaviour, st)
            | Some s => let '(r, s') := m s in
                (r, mkStore (groups st) (catalogs st) (sequences st) (<[p := s']> (updates st)))
            end.

(** [commitVersionInfo] and [rollbackVersionInfo]: a record that is neither of the two
    types is [KU_UNREACHABLE]. *)
Definition commitVersionInfo (ty : UndoRecordType) (p : loc) (startRow n : nat) (cts : transaction_t)
    : M Store unit :=
  match ty with
  | INSERT_INFO => onGroup p (commitInsert startRow n cts)
  | DELETE_INFO => onGroup p (commitDelete startRow n cts)
  | _ => sthrow InternalException
  end.
Definition rollbackVersionInfo (ty : UndoRecordType) (p : loc) (startRow n : nat) : M Store unit :=
  match ty with
  | INSERT_INFO => onGroup p (rollbackInsert startRow n)
  | DELETE_INFO => onGroup p (rollbackDelete startRow n)
  | _ => sthrow InternalException
  end.

(** [commitRecord] and [rollbackRecord]: the type says which payload the bytes are. *)
Definition commitRecord (cts : transaction_t) (r : entry) : M Store unit :=
  match r with
  | (CATALOG_ENTRY, CatalogEntryRecord cs p) => onCatalog cs (commitCatalogEntryRecord p cts)
  | (SEQUENCE_ENTRY, SequenceEntryRecord _ _ _) => sret tt
  | (INSERT_INFO as ty, VersionRecord p startRow n)
  | (DELETE_INFO as ty, VersionRecord p startRow n) => commitVersionInfo ty p startRow n cts
  | (UPDATE_INFO, VectorUpdateRecord ui _ vui) => onUpdates ui (commitVectorUpdateInfo vui cts)
  | _ => sthrow UndefinedBehaviour
  end.
Definition rollbackRecord (t : Transaction) (r : entry) : M Store unit :=
  match r with
  | (CATALOG_ENTRY, CatalogEntryRecord cs p) => onCatalog cs (rollbackCatalogEntryRecord p)
  | (SEQUENCE_ENTRY, SequenceEntryRecord p u c) => onSequence p (rollbackVal u c)
  | (INSERT_INFO as ty, VersionRecord p startRow n)
  | (DELETE_INFO as ty, VersionRecord p startRow n) => rollbackVersionInfo ty p startRow n
  | (UPDATE_INFO, VectorUpdateRecord ui idx vui) => onUpdates ui (rollbackVectorUpdateInfo t idx vui)
  | _ => sthrow UndefinedBehaviour
  end.

Fixpoint replay (f : entry -> M Store unit) (rs : list entry) : M Store unit :=
  match rs with
  | [] => sret tt
  | r :: rs' => f r ;;; replay f rs'
  end.
Definition undoCommit (u : UndoBuffer) (cts : transaction_t) : M Store unit :=
  rs <- slift (iterate u) ;; replay (commitRecord cts) rs.
Definition undoRollback (u : UndoBuffer) (t : Transaction) : M Store unit :=
  rs <- slift (reverseIterate u) ;; replay (rollbackRecord t) rs.

Lemma undoCommit_holds u rs cts st : holds u rs -> undoCommit u cts st = replay (commitRecord cts) rs st.
Proof. intros H. unfold undoCommit, sbind, slift. by rewrite (iterate_holds _ _ H). Qed.

Lemma undoRollback_holds u rs t st : holds u rs -> undoRollback u t st = replay (rollbackRecord t) (rev rs) st.
Proof. intros H. unfold undoRollback, sbind, slift. by rewrite (reverseIterate_holds _ _ H). Qed.

(** The group at an address, in the store. *)
Definition withGroup (st : Store) (p : loc) (g : ChunkedNodeGroup) : Store :=
  mkStore (<[p := g]> (groups st)) (catalogs st) (sequences st) (updates st).

Lemma onGroup_run {A} p (m : M ChunkedNodeGroup A) st g r g' :
  m g = (r, g') -> onGroup p m (withGroup st p g) = (r, withGroup st p g').
Proof.
  intros Hm. unfold onGroup, withGroup. cbn. rewrite lookup_insert_eq, Hm. cbn.
  by rewrite insert_insert_eq.
Qed.

Lemma onVersionInfo_run {A} (m : M VersionInfo A) n c vi r vi' :
  m vi = (r, vi') -> onVersionInfo m (mkGroup n c (Some vi)) = (r, mkGroup n c (Some vi')).
Proof. intros Hm. unfold onVersionInfo, sbind, sget, szoom. cbn. by rewrite Hm. Qed.

(** What a transaction sees of a row: it is inserted and not deleted. *)
Definition sees (g : ChunkedNodeGroup) (t : Transaction) (row : nat) : outcome bool :=
  let* i := isInserted g t row in
  if i : bool then let* d := isDeleted g t row in Ok (negb d) else Ok false.
Definition versionsOf (g : ChunkedNodeGroup) : VersionInfo := default [] (versionInfo g).

Lemma versionsOf_match g : match versionInfo g with Some vi => vi | None => [] end = versionsOf g.
Proof. unfold versionsOf. by destruct (versionInfo g). Qed.

Lemma sees_seen g t row : wf_versions (versionsOf g) -> wf_txn t -> row < numRows g \/ versionInfo g <> None ->
  sees g t row = Ok (VersionInfo.seen (versionsOf g) t row).
Proof.
  intros Hwf Ht Hr. unfold sees, isInserted, isDeleted, versionsOf in *. destruct (versionInfo g) as [vi|]; cbn [default] in *.
  - rewrite isInserted_insV, isDeleted_delV by done. unfold VersionInfo.seen. cbn. by destruct (visible _ _ (insV vi row)).
  - destruct Hr as [Hr|?]; [|done]. rewrite bool_decide_eq_true_2 by done. cbn. unfold VersionInfo.seen, insV, delV. cbn.
    by rewrite zero_visible, invalid_not_visible.
Qed.

Lemma seen_same vi vi' t row : wf_txn t -> insV vi' row = insV vi row -> (insV vi' row <> INVALID_TRANSACTION -> delV vi' row = delV vi row) ->
  VersionInfo.seen vi' t row = VersionInfo.seen vi t row.
Proof.
  intros Ht Hi Hd. unfold VersionInfo.seen. rewrite Hi in *. destruct (decide (insV vi row = INVALID_TRANSACTION)) as [E|E]; [|by rewrite Hd].
  by rewrite E, invalid_not_visible.
Qed.

(** Rows that a transaction appended and has not committed, in a group that others may have changed
    in the meantime. *)
Definition ownedBy (g : ChunkedNodeGroup) (t : Transaction) (row : nat) : Prop := insV (versionsOf g) row = ID t.
Definition holdsRows (g : ChunkedNodeGroup) (t : Transaction) (start n : nat) : Prop :=
  versionInfo g <> None /\ wf_versions (versionsOf g) /\ forall row, start <= row < start + n -> ownedBy g t row.

Lemma commit_appended st p t start n cts u g :
  wf_txn t -> holds u [(INSERT_INFO, VersionRecord p start n)] -> holdsRows g t start n -> committedTS cts -> shouldAppendToUndoBuffer t = true ->
  exists g', undoCommit u cts (withGroup st p g) = (Ok tt, withGroup st p g') /\ numRows g' = numRows g /\
    (forall v row, wf_txn v -> start <= row < start + n -> isInserted g' v row = Ok (cts <=? startTS v)%Z) /\
    (forall v row, wf_txn v -> ~ ownedBy g t row -> sees g' v row = sees g v row).
Proof.
  intros Ht Hu Hg Hcts Hundo. destruct g as [rows c [vi|]]; [|by destruct Hg as [[] _]]. destruct Hg as (_ & Hwf & Hown). unfold ownedBy, versionsOf in *. cbn in Hwf, Hown.
  rewrite (undoCommit_holds _ _ _ _ Hu). cbn [app replay commitRecord commitVersionInfo].
  destruct (commitInsert_rows vi (ID t) start n cts) as (vi2 & E & Hwf2 & Hst & Hdel); [done|by apply txn_uncommitted|by apply committedTS_ne|done|].
  exists (mkGroup rows c (Some vi2)). split; [by erewrite sbind_ok; [|apply onGroup_run, onVersionInfo_run, E]|]. split; [done|]. split.
  - intros v row Hv Hr. unfold isInserted. cbn [versionInfo]. rewrite isInserted_insV by done. destruct (Hst row) as [-> _]; [|done]. f_equal. by apply committed_visible.
  - intros v row Hv Hno. rewrite !sees_seen by (by right || done). f_equal. apply seen_same; [done| |by rewrite Hdel]. cbn in Hno |- *.
    destruct (decide (start <= row < start + n)) as [Hr|Hr]; [by destruct Hno; apply Hown|]. by destruct (proj2 (Hst row) Hr) as [?|[? _]].
Qed.

Lemma rollback_appended st p t start n u g :
  wf_txn t -> holds u [(INSERT_INFO, VersionRecord p start n)] -> holdsRows g t start n -> numRows g = start + n -> 0 < n -> shouldAppendToUndoBuffer t = true ->
  exists g', undoRollback u t (withGroup st p g) = (Ok tt, withGroup st p g') /\ numRows g' = start /\
    (forall v row, wf_txn v -> start <= row < start + n -> isInserted g' v row = Ok false) /\
    (forall v row, wf_txn v -> row < start -> ~ ownedBy g t row -> sees g' v row = sees g v row).
Proof.
  intros Ht Hu Hg Hrows Hn Hundo. destruct g as [rows c [vi|]]; [|by destruct Hg as [[] _]]. destruct Hg as (_ & Hwf & Hown). unfold ownedBy, versionsOf in *. cbn in Hwf, Hown, Hrows.
  rewrite (undoRollback_holds _ _ _ _ Hu). cbn [app rev replay rollbackRecord rollbackVersionInfo]. destruct (decide (start = 0)) as [->|H0].
  - exists (mkGroup 0 c None). split; [by erewrite sbind_ok; [|apply onGroup_run; reflexivity]|]. split; [done|]. split; [|lia].
    intros v row Hv Hr. cbn. by rewrite bool_decide_eq_false_2 by lia.
  - destruct (rollbackInsert_rows vi (ID t) start n) as (vi3 & E & Hwf3 & Hst & Hdel); [done|by apply txn_uncommitted|done|].
    exists (mkGroup start c (Some vi3)). split; [|split; [done|split]].
    + erewrite sbind_ok; [done|]. apply onGroup_run. unfold rollbackInsert.
      rewrite (sbind_ok sget _ _ _ _ eq_refl), bool_decide_eq_false_2 by done. cbn [numRows]. rewrite bool_decide_eq_false_2 by lia.
      erewrite sbind_ok; [|apply onVersionInfo_run, E]. done.
    + intros v row Hv Hr. unfold isInserted. cbn [versionInfo]. rewrite isInserted_insV by done. destruct (Hst row) as [-> _]; [|done]. f_equal. by apply invalid_not_visible.
    + intros v row Hv Hr Hno. rewrite !sees_seen by (by right || done). f_equal. apply seen_same; [done| |apply Hdel]. cbn in Hno |- *.
      by destruct (proj2 (Hst row) ltac:(lia)) as [?|[? _]].
Qed.

(** C1. A transaction that appends rows to a node group sees them and nobody else does, and every
    transaction sees the older rows as before.  The version info is ready for the rows: their vectors
    are not marked as always inserted, a vector without a version info gets rows from its start on, and
    no insertion is recorded for the rows yet.  Whatever others do to the group afterwards, as long as
    the new rows stay the transaction's own, committing its undo buffer shows them to exactly the
    transactions that start at the commit timestamp or later, and leaves what anybody sees of the rows
    of others, appended before or after, as it was.  If no rows were appended behind them, rolling back takes the
    new rows away from everybody and leaves the group with as many rows as before, in which every
    transaction sees the rows of others as it did before the rollback. *)
Theorem appended_rows_transactional st p g t n :
  wf_versions (versionsOf g) -> wf_txn t -> shouldAppendToUndoBuffer t = true ->
  0 < n <= capacity g - numRows g -> appendable (versionsOf g) (numRows g) n ->
  let start := numRows g in
  exists g' u, append t p n (mkGroupState g []) = (Ok n, mkGroupState g' u) /\
    numRows g' = start + n /\ holdsRows g' t start n /\
    (forall v row, wf_txn v -> start <= row < start + n -> isInserted g' v row = Ok (bool_decide (ID v = ID t))) /\
    (forall v row, wf_txn v -> row < start -> sees g' v row = sees g v row) /\
    (forall g1 cts, holdsRows g1 t start n -> committedTS cts ->
       exists g2, undoCommit u cts (withGroup st p g1) = (Ok tt, withGroup st p g2) /\ numRows g2 = numRows g1 /\
         (forall v row, wf_txn v -> start <= row < start + n -> isInserted g2 v row = Ok (cts <=? startTS v)%Z) /\
         (forall v row, wf_txn v -> ~ ownedBy g1 t row -> sees g2 v row = sees g1 v row)) /\
    (forall g1, holdsRows g1 t start n -> numRows g1 = start + n ->
       exists g3, undoRollback u t (withGroup st p g1) = (Ok tt, withGroup st p g3) /\ numRows g3 = start /\
         (forall v row, wf_txn v -> start <= row < start + n -> isInserted g3 v row = Ok false) /\
         (forall v row, wf_txn v -> row < start -> ~ ownedBy g1 t row -> sees g3 v row = sees g1 v row)).
Proof.
  intros Hwf Ht Hundo Hn Happ start.
  destruct (append_run t p start n (mkWrite (versionsOf g) []) [] Hwf Ht Happ ltac:(lia) Hundo holds_empty)
    as ([vi' u] & Happend & Hwf' & Hu & Hrows & Hold & Hdel). cbn [versions VersionInfo.undo app] in *.
  assert (Htid : uncommitted (ID t)) by (by apply txn_uncommitted).
  exists (mkGroup (start + n) (capacity g) (Some vi')), u. split; [|split; [done|split; [done|split; [|split]]]].
  - unfold append. rewrite (sbind_ok sget _ _ _ _ eq_refl). cbn [group].
    rewrite Nat.min_l by lia. rewrite bool_decide_eq_false_2.
    + erewrite sbind_ok; [|unfold withVersions; cbn [group gundo]; rewrite versionsOf_match; fold start; by rewrite Happend]. done.
    + destruct Ht as [_ Hid]. unfold DUMMY_TRANSACTION_ID, START_TRANSACTION_ID in *. lia.
  - intros v row Hv Hr. unfold isInserted. cbn [versionInfo]. rewrite isInserted_insV, Hrows by done. f_equal.
    case_bool_decide as Heq; [rewrite <- Heq; apply own_visible|].
    apply uncommitted_invisible; [done|by destruct Ht as [_ [? _]]|congruence].
  - intros v row Hv Hr. rewrite !sees_seen by (first [done | by right | left; unfold start in *; lia]). f_equal. apply seen_same; [done|by apply Hold|intros _; apply Hdel].
  - split; [intros g1 cts Hg Hc; exact (commit_appended st p t start n cts u g1 Ht Hu Hg Hc Hundo)|].
    intros g1 Hg Hl. exact (rollback_appended st p t start n u g1 Ht Hu Hg Hl ltac:(lia) Hundo).
Qed.
End UndoReplay.

Definition emptyStore : Store (V := Z) (D := Z) (X := unit) := mkStore ∅ ∅ ∅ ∅.
Definition emptyGroup : ChunkedNodeGroup := mkGroup 0 4 None.

Lemma appended_rows_transactional_witness :
  exists g' u g2, append exampleTxn 7 3 (mkGroupState emptyGroup []) = (Ok 3, mkGroupState g' u) /\
    undoCommit u 7%Z (withGroup emptyStore 7 g') = (Ok tt, withGroup emptyStore 7 g2) /\
    isInserted g2 laterTxn 1 = Ok true /\ isInserted g2 exampleTxn 1 = Ok false.
Proof.
  destruct (appended_rows_transactional emptyStore 7 emptyGroup exampleTxn 3 wf_versions_nil wf_exampleTxn)
    as (g' & u & Ha & _ & Hg & _ & _ & Hc & _).
  - by vm_compute.
  - cbn. lia.
  - apply appendable_nil. apply (proj1 (Nat.leb_le _ _)). by vm_compute.
  - destruct (Hc g' 7%Z Hg) as (g2 & Hg2 & _ & Hsee & _); [split; by vm_compute|].
    exists g', u, g2. split_and!; [exact Ha|exact Hg2| |].
    + apply (Hsee laterTxn 1 wf_laterTxn). cbn. lia.
    + apply (Hsee exampleTxn 1 wf_exampleTxn). cbn. lia.
Defined.

(** Two writers append to one node group, and the one that came first rolls back: the
    group forgets all its versions, and committing the other dereferences a null pointer. *)
Theorem rollback_of_first_rows_drops_all :
  let '(r1, st1) := append exampleTxn 7 1 (mkGroupState emptyGroup []) in
  let '(r2, st2) := append laterTxn 7 1 (mkGroupState (group st1) []) in
  let '(r3, st3) := undoRollback (gundo st1) exampleTxn (withGroup emptyStore 7 (group st2)) in
  let '(r4, st4) := undoCommit (gundo st2) 10%Z st3 in
  r1 = Ok 1 /\ r2 = Ok 1 /\ r3 = Ok tt /\ numRows <$> groups st3 !! 7 = Some 0 /\
  r4 = Err UndefinedBehaviour.
Proof. vm_compute. auto 10. Qed.
