(* ===== verification/HashSlot.v ===== *)
(** * Slots and header of the hash index (src/include/storage/index/
      hash_index_slot.h, hash_index_header.h, hash_index_utils.h and the integer
      hashes of src/include/function/hash/hash_functions.h)

    A hash index is an array of primary slots and an array of overflow slots.  A
    slot has room for [capacity] entries: its header has a 32-bit validity mask, a
    one-byte fingerprint per entry and the id of the next overflow slot.  The
    index grows one primary slot at a time (linear hashing): the header keeps the
    current level, the masks of the level and of the next one, and the next slot
    to split.  This file models these structs with their bit operations, and
    proves what the operations of InMemHashIndex rely on: a slot seen as a list of
    positions ([slotView]), the number of entries of a slot without gaps, and where
    a hash is placed before and after a split. *)

From S2P Require Import Prelude.
From stdpp Require Import base list numbers.

(** ** [SlotHeader] *)
Definition INVALID_OVERFLOW_SLOT_ID : Z := (2 ^ 64 - 1)%Z.
Definition FINGERPRINT_CAPACITY : nat := 20.

Record SlotHeader : Type := mkSlotHeader {
  fingerprints : list Z;
  validityMask : Z;
  nextOvfSlotId : Z;
}.

(** [SlotHeader()] *)
Definition newSlotHeader : SlotHeader :=
  mkSlotHeader (replicate FINGERPRINT_CAPACITY 0%Z) 0 INVALID_OVERFLOW_SLOT_ID.

Definition resetHeader (h : SlotHeader) : SlotHeader :=
  mkSlotHeader (fingerprints h) 0 INVALID_OVERFLOW_SLOT_ID.

(** [(uint32_t)1 << entryPos] *)
Definition entryBit (entryPos : nat) : Z := wrapU 32 (Z.shiftl 1 (Z.of_nat entryPos)).

Definition isEntryValid (h : SlotHeader) (entryPos : nat) : bool :=
  negb (Z.land (validityMask h) (entryBit entryPos) =? 0)%Z.

Definition setEntryValid (h : SlotHeader) (entryPos : nat) (fingerprint : Z) : SlotHeader :=
  mkSlotHeader (<[entryPos := fingerprint]> (fingerprints h))
    (Z.lor (validityMask h) (entryBit entryPos)) (nextOvfSlotId h).

Definition setEntryInvalid (h : SlotHeader) (entryPos : nat) : SlotHeader :=
  mkSlotHeader (fingerprints h)
    (Z.land (validityMask h) (wrapU 32 (Z.lnot (entryBit entryPos)))) (nextOvfSlotId h).

(** [std::popcount] and [std::countr_one] of a [uint32_t]. *)
Definition popcount (m : Z) : nat :=
  length (List.filter (fun j => Z.testbit m (Z.of_nat j)) (seq 0 32)).

Fixpoint countr_one_from (m : Z) (j n : nat) : nat :=
  match n with
  | O => 0
  | S n' => if Z.testbit m (Z.of_nat j) then S (countr_one_from m (S j) n') else 0
  end.
Definition countr_one (m : Z) : nat := countr_one_from m 0 32.

Definition numEntries (h : SlotHeader) : nat := popcount (validityMask h).

(** ** [SlotEntry] and [Slot]: the key type is the class template's parameter *)
Record SlotEntry (T : Type) : Type := mkEntry { key : T; value : Z }.
Arguments mkEntry {T} key value.
Arguments key {T} s.
Arguments value {T} s.

Record Slot (T : Type) : Type := mkSlot { header : SlotHeader; entries : list (SlotEntry T) }.
Arguments mkSlot {T} header entries.
Arguments header {T} s.
Arguments entries {T} s.

#[global] Instance SlotHeader_eq_dec : EqDecision SlotHeader.
Proof. solve_decision. Defined.
#[global] Instance SlotEntry_eq_dec `{EqDecision T} : EqDecision (SlotEntry T).
Proof. solve_decision. Defined.
#[global] Instance Slot_eq_dec `{EqDecision T} : EqDecision (Slot T).
Proof. solve_decision. Defined.

(** [getSlotCapacity<T>()], from [sizeof(SlotEntry<T>)]; [sizeof(SlotHeader)] is 32
    (20 bytes, a [uint32_t] and a [uint64_t]). *)
Definition SLOT_CAPACITY_BYTES : nat := 256.
Definition sizeof_SlotHeader : nat := 32.
Definition getSlotCapacity (sizeofEntry : nat) : nat :=
  Nat.min ((SLOT_CAPACITY_BYTES - sizeof_SlotHeader) / sizeofEntry) FINGERPRINT_CAPACITY.

(** ** [HashIndexHeader] *)
Record HashIndexHeader : Type := mkIndexHeader {
  currentLevel : Z;
  levelHashMask : Z;
  higherLevelHashMask : Z;
  nextSplitSlotId : Z;
  indexNumEntries : Z;
  firstFreeOverflowSlotId : Z;
}.

Definition newIndexHeader : HashIndexHeader :=
  mkIndexHeader 1 1 3 0 0 INVALID_OVERFLOW_SLOT_ID.

(** [HashIndexHeaderOnDisk]: the level is one byte, the masks are not stored. *)
Record HashIndexHeaderOnDisk : Type := mkOnDisk {
  od_nextSplitSlotId : Z;
  od_numEntries : Z;
  od_firstFreeOverflowSlotId : Z;
  od_currentLevel : Z;
}.

(** [HashIndexHeader::write] *)
Definition writeHeader (h : HashIndexHeader) : HashIndexHeaderOnDisk :=
  mkOnDisk (nextSplitSlotId h) (indexNumEntries h) (firstFreeOverflowSlotId h)
    (wrapU 8 (currentLevel h)).

(** [HashIndexHeader(const HashIndexHeaderOnDisk&)]: [1ull << level], undefined
    from 64 bits on. *)
Definition readHeader (d : HashIndexHeaderOnDisk) : outcome HashIndexHeader :=
  if (od_currentLevel d + 1 <? 64)%Z then
    Ok (mkIndexHeader (od_currentLevel d)
          (wrapU 64 (Z.shiftl 1 (od_currentLevel d)) - 1)
          (wrapU 64 (Z.shiftl 1 (od_currentLevel d + 1)) - 1)
          (od_nextSplitSlotId d) (od_numEntries d) (od_firstFreeOverflowSlotId d))
  else Err UndefinedBehaviour.

(** [(1 << n) - 1]: both operands are [int], so the shift has to stay below 32 and
    the subtraction overflows for [INT_MIN]. *)
Definition intMask (n : Z) : outcome Z :=
  if (n <=? 30)%Z then Ok (Z.shiftl 1 n - 1)%Z else Err UndefinedBehaviour.

Definition incrementLevel (h : HashIndexHeader) : outcome HashIndexHeader :=
  let level := (currentLevel h + 1)%Z in
  let* mask := intMask level in
  let* higher := intMask (level + 1) in
  Ok (mkIndexHeader level mask higher 0 (indexNumEntries h) (firstFreeOverflowSlotId h)).

Definition incrementNextSplitSlotId (h : HashIndexHeader) : outcome HashIndexHeader :=
  if (nextSplitSlotId h <? wrapU 64 (Z.shiftl 1 (currentLevel h)) - 1)%Z then
    Ok (mkIndexHeader (currentLevel h) (levelHashMask h) (higherLevelHashMask h)
          (nextSplitSlotId h + 1) (indexNumEntries h) (firstFreeOverflowSlotId h))
  else incrementLevel h.

(** ** [HashIndexUtils] *)
Inductive SlotType : Type := PRIMARY | OVF.
#[global] Instance SlotType_eq_dec : EqDecision SlotType.
Proof. solve_decision. Defined.

Record SlotInfo : Type := mkInfo { slotId : Z; slotType : SlotType }.
#[global] Instance SlotInfo_eq_dec : EqDecision SlotInfo.
Proof. solve_decision. Defined.

Definition INVALID_OVF_INFO : SlotInfo := mkInfo INVALID_OVERFLOW_SLOT_ID OVF.

Definition NUM_HASH_INDEXES_LOG2 : Z := 8.
Definition NUM_HASH_INDEXES : Z := Z.shiftl 1 NUM_HASH_INDEXES_LOG2.

Definition getFingerprintForHash (hash : Z) : Z :=
  Z.land (Z.shiftr hash (64 - NUM_HASH_INDEXES_LOG2 - 8)) 255.

Definition getPrimarySlotIdForHash (indexHeader : HashIndexHeader) (hash : Z) : Z :=
  let slotId := Z.land hash (levelHashMask indexHeader) in
  if (slotId <? nextSplitSlotId indexHeader)%Z then
    Z.land hash (higherLevelHashMask indexHeader)
  else slotId.

Definition getHashIndexPosition (hash : Z) : Z :=
  Z.land (Z.shiftr hash (64 - NUM_HASH_INDEXES_LOG2)) (NUM_HASH_INDEXES - 1).

(** [ceil(double(numEntries) * 1.5)]: exact while [1.5 * numEntries] has at most 53
    bits, which the callers' 32-bit counts guarantee. *)
Definition getNumRequiredEntries (numEntries : Z) : Z := ((3 * numEntries + 1) / 2)%Z.

(** ** Hashes of the integer keys (hash_functions.h): the key is converted to
    [uint64_t] *)
Definition murmurhash64 (x : Z) : Z :=
  let x := Z.lxor x (Z.shiftr x 32) in
  let x := wrapU 64 (x * 0xd6e8feb86659fd93) in
  let x := Z.lxor x (Z.shiftr x 32) in
  let x := wrapU 64 (x * 0xd6e8feb86659fd93) in
  Z.lxor x (Z.shiftr x 32).

Definition hashInt (key : Z) : Z := murmurhash64 (wrapU 64 key).

Definition combineHashScalar (a b : Z) : Z :=
  Z.lxor (wrapU 64 (a * 0xbf58476d1ce4e5b9)) b.

(** [HashIndexUtils::getPrimarySlotIdForHash] over the header of an index that holds
    [numSlots] primary slots. *)
Definition headerOK (h : HashIndexHeader) (numSlots : nat) : Prop :=
  (1 <= currentLevel h <= 29)%Z /\
  levelHashMask h = (2 ^ currentLevel h - 1)%Z /\
  higherLevelHashMask h = (2 ^ (currentLevel h + 1) - 1)%Z /\
  (0 <= nextSplitSlotId h < 2 ^ currentLevel h)%Z /\
  Z.of_nat numSlots = (2 ^ currentLevel h + nextSplitSlotId h)%Z.

(** ** Placement *)

Lemma land_levelMask h n : (0 <= n)%Z -> Z.land h (2 ^ n - 1) = (h mod 2 ^ n)%Z.
Proof.
  intros Hn. replace (2 ^ n - 1)%Z with (Z.ones n) by (rewrite Z.ones_equiv; lia).
  by apply Z.land_ones.
Qed.

Lemma placement_mod hd n h :
  headerOK hd n ->
  getPrimarySlotIdForHash hd h =
    (if (h mod 2 ^ currentLevel hd <? nextSplitSlotId hd)
     then h mod 2 ^ (currentLevel hd + 1) else h mod 2 ^ currentLevel hd)%Z.
Proof.
  intros (Hl & E1 & E2 & _). unfold getPrimarySlotIdForHash.
  rewrite E1, E2, !land_levelMask by lia. done.
Qed.

Lemma mod_double h b :
  (0 < b)%Z -> (h mod (2 * b) = h mod b \/ h mod (2 * b) = h mod b + b)%Z.
Proof.
  intros Hb.
  pose proof (Z.div_mod h b ltac:(lia)). pose proof (Z.mod_pos_bound h b ltac:(lia)).
  pose proof (Z.div_mod (h / b) 2 ltac:(lia)). pose proof (Z.mod_pos_bound (h / b) 2 ltac:(lia)).
  assert (E : (h mod (2 * b) = h mod b + b * ((h / b) mod 2))%Z).
  { symmetry. apply Z.mod_unique with (q := (h / b / 2)%Z); [left|]; nia. }
  assert ((h / b) mod 2 = 0 \/ (h / b) mod 2 = 1)%Z as [E'|E'] by lia;
    rewrite E, E'; lia.
Qed.

Lemma pow_succ_level l : (0 <= l)%Z -> (2 ^ (l + 1) = 2 * 2 ^ l)%Z.
Proof. intros. rewrite Z.pow_add_r by lia. lia. Qed.

(** A hash is always placed in a slot that exists. *)
Lemma placement_bounds hd n h :
  headerOK hd n -> (0 <= getPrimarySlotIdForHash hd h < Z.of_nat n)%Z.
Proof.
  intros HO. rewrite (placement_mod _ _ _ HO). destruct HO as (Hl & _ & _ & Hs & Hn).
  rewrite pow_succ_level by lia.
  assert (0 < 2 ^ currentLevel hd)%Z by lia.
  pose proof (Z.mod_pos_bound h (2 ^ currentLevel hd) ltac:(lia)).
  destruct (mod_double h (2 ^ currentLevel hd)) as [E|E]; [lia| |];
    destruct (Z.ltb_spec (h mod 2 ^ currentLevel hd) (nextSplitSlotId hd)); lia.
Qed.

(** What splitting a slot relies on: an entry of the slot to split is rehashed to the
    same slot or to the new last one. *)
Lemma placement_split hd n h :
  headerOK hd n -> getPrimarySlotIdForHash hd h = nextSplitSlotId hd ->
  Z.land h (higherLevelHashMask hd) = nextSplitSlotId hd \/
  Z.land h (higherLevelHashMask hd) = Z.of_nat n.
Proof.
  intros HO. rewrite (placement_mod _ _ _ HO). destruct HO as (Hl & E1 & E2 & Hs & Hn).
  rewrite E2, land_levelMask, pow_succ_level by lia.
  assert (0 < 2 ^ currentLevel hd)%Z by lia.
  pose proof (Z.mod_pos_bound h (2 ^ currentLevel hd) ltac:(lia)).
  destruct (mod_double h (2 ^ currentLevel hd)) as [E|E]; [lia| |];
    destruct (Z.ltb_spec (h mod 2 ^ currentLevel hd) (nextSplitSlotId hd)); lia.
Qed.

Lemma incrementLevel_ok hd n :
  headerOK hd n -> nextSplitSlotId hd = (2 ^ currentLevel hd - 1)%Z ->
  (Z.of_nat n + 1 < 2 ^ 30)%Z ->
  exists hd', incrementLevel hd = Ok hd' /\ headerOK hd' (S n) /\
    currentLevel hd' = (currentLevel hd + 1)%Z /\ nextSplitSlotId hd' = 0%Z /\
    indexNumEntries hd' = indexNumEntries hd /\
    firstFreeOverflowSlotId hd' = firstFreeOverflowSlotId hd.
Proof.
  intros (Hl & E1 & E2 & Hs & Hn) He Hb.
  assert (currentLevel hd < 29)%Z.
  { apply (Z.pow_lt_mono_r_iff 2); [lia..|].
    change (2 ^ 29)%Z with 536870912%Z. change (2 ^ 30)%Z with 1073741824%Z in Hb. lia. }
  unfold incrementLevel, intMask.
  rewrite !Zle_imp_le_bool by lia. cbn [obind].
  eexists. split; [reflexivity|]. unfold headerOK. cbn.
  rewrite !Z.shiftl_1_l. pose proof (pow_succ_level (currentLevel hd) ltac:(lia)).
  repeat split; try lia.
Qed.

(** Advancing the split pointer: the header describes one slot more. *)
Lemma incrementNextSplitSlotId_ok hd n :
  headerOK hd n -> (Z.of_nat n + 1 < 2 ^ 30)%Z ->
  exists hd', incrementNextSplitSlotId hd = Ok hd' /\ headerOK hd' (S n) /\
    indexNumEntries hd' = indexNumEntries hd /\
    firstFreeOverflowSlotId hd' = firstFreeOverflowSlotId hd /\
    forall h, getPrimarySlotIdForHash hd' h =
      if decide (getPrimarySlotIdForHash hd h = nextSplitSlotId hd)
      then Z.land h (higherLevelHashMask hd) else getPrimarySlotIdForHash hd h.
Proof.
  intros HO Hb. pose proof HO as (Hl & E1 & E2 & Hs & Hn).
  unfold incrementNextSplitSlotId. rewrite Z.shiftl_1_l.
  assert (HU : wrapU 64 (2 ^ currentLevel hd) = (2 ^ currentLevel hd)%Z).
  { apply wrapU_id. split; [lia|]. apply Z.pow_lt_mono_r; lia. }
  rewrite HU. pose proof (pow_succ_level (currentLevel hd) ltac:(lia)) as Hp.
  destruct (Z.ltb_spec (nextSplitSlotId hd) (2 ^ currentLevel hd - 1)).
  - eexists. split; [reflexivity|].
    set (hd' := mkIndexHeader _ _ _ _ _ _).
    assert (HO' : headerOK hd' (S n)) by (repeat split; cbn; lia).
    repeat (split; [done|]). intros h.
    rewrite (placement_mod _ _ _ HO'), (placement_mod _ _ _ HO), E2, land_levelMask by lia.
    subst hd'. cbn [currentLevel nextSplitSlotId].
    pose proof (Z.mod_pos_bound h (2 ^ currentLevel hd) ltac:(lia)).
    pose proof (mod_double h (2 ^ currentLevel hd) ltac:(lia)). rewrite <- Hp in *.
    destruct (Z.ltb_spec (h mod 2 ^ currentLevel hd) (nextSplitSlotId hd));
    destruct (Z.ltb_spec (h mod 2 ^ currentLevel hd) (nextSplitSlotId hd + 1));
      case_decide; try lia.
  - destruct (incrementLevel_ok hd n) as (hd' & -> & HO' & El & Es & Ec & Ef); [done|lia|lia|].
    exists hd'. repeat (split; [done|]). intros h.
    rewrite (placement_mod _ _ _ HO'), (placement_mod _ _ _ HO), E2, land_levelMask by lia.
    rewrite El, Es.
    pose proof (Z.mod_pos_bound h (2 ^ currentLevel hd) ltac:(lia)).
    pose proof (Z.mod_pos_bound h (2 ^ (currentLevel hd + 1)) ltac:(lia)).
    pose proof (mod_double h (2 ^ currentLevel hd) ltac:(lia)). rewrite <- Hp in *.
    destruct (Z.ltb_spec (h mod 2 ^ currentLevel hd) (nextSplitSlotId hd));
    destruct (Z.ltb_spec (h mod 2 ^ (currentLevel hd + 1)) 0);
      case_decide; try lia.
Qed.

(** Writing the header to disk and reading it back. *)
Theorem header_roundtrip hd n :
  headerOK hd n -> readHeader (writeHeader hd) = Ok hd.
Proof.
  intros (Hl & E1 & E2 & _). unfold readHeader, writeHeader. cbn.
  rewrite (wrapU_id 8) by (split; [lia|]; change (2 ^ 8)%Z with 256%Z; lia).
  rewrite (proj2 (Z.ltb_lt _ _)) by lia.
  rewrite !Z.shiftl_1_l, !wrapU_id by (split; [lia|]; apply Z.pow_lt_mono_r; lia).
  by rewrite <- E1, <- E2; destruct hd.
Qed.

Lemma fingerprint_range h : (0 <= getFingerprintForHash h < 256)%Z.
Proof.
  unfold getFingerprintForHash. change 255%Z with (Z.ones 8).
  rewrite Z.land_ones by lia. apply Z.mod_pos_bound. lia.
Qed.

(** ** A slot as a list of positions *)
Section Slots.
Context {T : Type} (cap : nat) (Hcap : 0 < cap <= FINGERPRINT_CAPACITY).

(** [Slot()]; the entries are value-initialised with the key type's zero. *)
Definition newSlot (zero : T) : Slot T := mkSlot newSlotHeader (replicate cap (mkEntry zero 0)).

(** [entries[entryPos] = entry; header.setEntryValid(entryPos, fingerprint)] *)
Definition putEntry (s : Slot T) (pos : nat) (e : SlotEntry T) (fp : Z) : Slot T :=
  mkSlot (setEntryValid (header s) pos fp) (<[pos := e]> (entries s)).

Definition dropEntry (s : Slot T) (pos : nat) : Slot T :=
  mkSlot (setEntryInvalid (header s) pos) (entries s).

Definition setNext (s : Slot T) (next : Z) : Slot T :=
  mkSlot (mkSlotHeader (fingerprints (header s)) (validityMask (header s)) next) (entries s).

(** What the slot holds at each position. *)
Definition posView (s : Slot T) (pos : nat) : option (Z * SlotEntry T) :=
  if isEntryValid (header s) pos then
    match fingerprints (header s) !! pos, entries s !! pos with
    | Some fp, Some e => Some (fp, e)
    | _, _ => None
    end
  else None.

Definition slotView (s : Slot T) : list (option (Z * SlotEntry T)) :=
  posView s <$> seq 0 cap.

Definition wfSlot (s : Slot T) : Prop :=
  length (entries s) = cap /\ length (fingerprints (header s)) = FINGERPRINT_CAPACITY /\
  (0 <= validityMask (header s))%Z /\
  forall j, cap <= j -> Z.testbit (validityMask (header s)) (Z.of_nat j) = false.

Lemma entryBit_pow pos : pos < 32 -> entryBit pos = (2 ^ Z.of_nat pos)%Z.
Proof.
  intros H. unfold entryBit. rewrite Z.shiftl_1_l. apply wrapU_id.
  split; [lia|]. apply Z.pow_lt_mono_r; lia.
Qed.

Lemma isEntryValid_testbit h pos :
  pos < 32 -> isEntryValid h pos = Z.testbit (validityMask h) (Z.of_nat pos).
Proof.
  intros H. unfold isEntryValid. rewrite entryBit_pow by done.
  destruct (Z.testbit (validityMask h) (Z.of_nat pos)) eqn:E.
  - apply negb_true_iff, Z.eqb_neq. intros E0.
    assert (E1 : Z.testbit (Z.land (validityMask h) (2 ^ Z.of_nat pos)) (Z.of_nat pos) = true).
    { rewrite Z.land_spec, E, Z.pow2_bits_true by lia. done. }
    rewrite E0, Z.bits_0 in E1. done.
  - apply negb_false_iff, Z.eqb_eq, Z.bits_inj'. intros j Hj.
    rewrite Z.land_spec, Z.bits_0.
    destruct (decide (j = Z.of_nat pos)) as [->|].
    + by rewrite E.
    + rewrite Z.pow2_bits_false by lia. apply andb_false_r.
Qed.

Lemma setEntryValid_testbit h pos fp j :
  pos < 32 ->
  Z.testbit (validityMask (setEntryValid h pos fp)) (Z.of_nat j) =
    if decide (j = pos) then true else Z.testbit (validityMask h) (Z.of_nat j).
Proof.
  intros H. cbn. rewrite entryBit_pow, Z.lor_spec by done. case_decide as E.
  - subst. rewrite Z.pow2_bits_true by lia. apply orb_true_r.
  - rewrite Z.pow2_bits_false by lia. apply orb_false_r.
Qed.

Lemma setEntryInvalid_testbit h pos j :
  pos < 32 -> j < 32 ->
  Z.testbit (validityMask (setEntryInvalid h pos)) (Z.of_nat j) =
    if decide (j = pos) then false else Z.testbit (validityMask h) (Z.of_nat j).
Proof.
  intros H Hj. cbn. rewrite entryBit_pow, Z.land_spec by done. unfold wrapU.
  rewrite Z.mod_pow2_bits_low, Z.lnot_spec by lia. case_decide as E.
  - subst. rewrite Z.pow2_bits_true by lia. apply andb_false_r.
  - rewrite Z.pow2_bits_false by lia. apply andb_true_r.
Qed.

Lemma lookup_slotView s pos :
  slotView s !! pos = if decide (pos < cap) then Some (posView s pos) else None.
Proof.
  unfold slotView. rewrite list_lookup_fmap. case_decide.
  - by rewrite lookup_seq_lt.
  - by rewrite lookup_seq_ge by lia.
Qed.

Lemma length_slotView s : length (slotView s) = cap.
Proof. unfold slotView. by rewrite length_fmap, length_seq. Qed.

Lemma cap_lt_32 : cap < 32.
Proof. unfold FINGERPRINT_CAPACITY in Hcap. lia. Qed.

Lemma wf_newSlot zero : wfSlot (newSlot zero).
Proof.
  repeat split; cbn; try apply length_replicate; [done|]. intros. apply Z.bits_0.
Qed.

Lemma slotView_newSlot zero : slotView (newSlot zero) = replicate cap None.
Proof.
  apply list_eq. intros j. rewrite lookup_slotView. case_decide as E.
  - rewrite lookup_replicate_2 by done. f_equal.
  - symmetry. apply lookup_replicate_None. lia.
Qed.

Lemma wf_putEntry s pos e fp : pos < cap -> wfSlot s -> wfSlot (putEntry s pos e fp).
Proof.
  intros Hp (He & Hf & Hm & Hb). pose proof cap_lt_32. repeat split.
  - cbn. by rewrite length_insert.
  - cbn. by rewrite length_insert.
  - cbn. apply Z.lor_nonneg. split; [done|]. rewrite entryBit_pow by lia. lia.
  - intros j Hj. cbn [header putEntry]. rewrite setEntryValid_testbit, decide_False by lia. auto.
Qed.

Lemma slotView_putEntry s pos e fp :
  pos < cap -> wfSlot s -> slotView (putEntry s pos e fp) = <[pos := Some (fp, e)]> (slotView s).
Proof.
  intros Hp (He & Hf & Hm & Hb). pose proof cap_lt_32.
  apply list_eq. intros j. rewrite lookup_slotView.
  destruct (decide (j = pos)) as [->|Hne].
  - rewrite list_lookup_insert_eq by (by rewrite length_slotView).
    rewrite decide_True by done. f_equal. unfold posView. cbn [header putEntry].
    rewrite isEntryValid_testbit, setEntryValid_testbit, decide_True by lia.
    cbn. rewrite !list_lookup_insert_eq by lia. done.
  - rewrite list_lookup_insert_ne by done. rewrite lookup_slotView.
    case_decide; [|done]. f_equal. unfold posView. cbn [header putEntry].
    rewrite !isEntryValid_testbit, setEntryValid_testbit, decide_False by lia.
    cbn. by rewrite !list_lookup_insert_ne by done.
Qed.

Lemma wf_dropEntry s pos : pos < cap -> wfSlot s -> wfSlot (dropEntry s pos).
Proof.
  intros Hp (He & Hf & Hm & Hb). pose proof cap_lt_32. repeat split; cbn; try done.
  - apply Z.land_nonneg. by left.
  - intros j Hj. rewrite Z.land_spec, Hb by done. done.
Qed.

Lemma slotView_dropEntry s pos :
  pos < cap -> wfSlot s -> slotView (dropEntry s pos) = <[pos := None]> (slotView s).
Proof.
  intros Hp (He & Hf & Hm & Hb). pose proof cap_lt_32.
  apply list_eq. intros j. rewrite lookup_slotView.
  destruct (decide (j = pos)) as [->|Hne].
  - rewrite list_lookup_insert_eq by (by rewrite length_slotView).
    rewrite decide_True by done. f_equal. unfold posView. cbn [header dropEntry].
    by rewrite isEntryValid_testbit, setEntryInvalid_testbit, decide_True by lia.
  - rewrite list_lookup_insert_ne by done. rewrite lookup_slotView.
    case_decide; [|done]. f_equal. unfold posView. cbn [header dropEntry].
    by rewrite !isEntryValid_testbit, setEntryInvalid_testbit, decide_False by lia.
Qed.

Lemma wf_setNext s n : wfSlot s -> wfSlot (setNext s n).
Proof. done. Qed.

Lemma slotView_setNext s n : slotView (setNext s n) = slotView s.
Proof. done. Qed.

(** Validity, read off the view. *)
Lemma view_valid s pos :
  pos < cap -> wfSlot s ->
  isEntryValid (header s) pos = match slotView s !! pos with Some (Some _) => true | _ => false end.
Proof.
  intros Hp (He & Hf & _ & _). rewrite lookup_slotView, decide_True by done.
  unfold posView. destruct (isEntryValid (header s) pos) eqn:E; [|done].
  unfold FINGERPRINT_CAPACITY in *.
  destruct (lookup_lt_is_Some_2 (fingerprints (header s)) pos) as [f ->]; [lia|].
  destruct (lookup_lt_is_Some_2 (entries s) pos) as [e ->]; [lia|]. done.
Qed.

Lemma view_entry s pos fp e :
  slotView s !! pos = Some (Some (fp, e)) ->
  fingerprints (header s) !! pos = Some fp /\ entries s !! pos = Some e.
Proof.
  rewrite lookup_slotView. case_decide; [|done]. unfold posView.
  destruct (isEntryValid _ _); [|done].
  destruct (_ !! pos), (_ !! pos); intros; by simplify_eq.
Qed.

(** *** Slots without gaps *)
Lemma filter_seq_prefix (p : nat -> bool) n a k :
  (forall j, a <= j < a + n -> p j = true) ->
  (forall j, a + n <= j < a + n + k -> p j = false) ->
  length (List.filter p (seq a (n + k))) = n.
Proof.
  revert a. induction n as [|n IH]; intros a Ht Hf.
  - cbn [Nat.add]. revert a Ht Hf. induction k as [|k IHk]; intros a Ht Hf; [done|].
    cbn. rewrite Hf by lia. apply IHk; intros; [lia|]. apply Hf. lia.
  - cbn. rewrite Ht by lia. cbn. rewrite IH; [done| |].
    + intros j Hj. apply Ht. lia.
    + intros j Hj. apply Hf. lia.
Qed.

Lemma countr_one_prefix m n k j :
  (forall i, j <= i < j + n -> Z.testbit m (Z.of_nat i) = true) ->
  0 < k -> Z.testbit m (Z.of_nat (j + n)) = false ->
  countr_one_from m j (n + k) = n.
Proof.
  revert j. induction n as [|n IH]; intros j Ht Hk Hf; cbn.
  - destruct k; [lia|]. cbn. rewrite Nat.add_0_r in Hf. by rewrite Hf.
  - rewrite Ht by lia. f_equal. apply IH; [|done|].
    + intros i Hi. apply Ht. lia.
    + by replace (S j + n) with (j + S n) by lia.
Qed.

(** In a slot whose first [n] positions are the valid ones, [numEntries] and
    [countr_one] both give [n]: the assertion of [findEntry] and [splitSlot]. *)
Lemma gapless_counts s es :
  wfSlot s -> slotView s = (Some <$> es) ++ replicate (cap - length es) None ->
  length es <= cap ->
  numEntries (header s) = length es /\ countr_one (validityMask (header s)) = length es.
Proof.
  intros Hw Hv Hlen. pose proof cap_lt_32. pose proof Hw as (_ & _ & _ & Hb).
  assert (Ht : forall j, j < length es -> Z.testbit (validityMask (header s)) (Z.of_nat j) = true).
  { intros j Hj. rewrite <- isEntryValid_testbit, view_valid, Hv by (done || lia).
    rewrite lookup_app_l by (rewrite length_fmap; lia). rewrite list_lookup_fmap.
    destruct (lookup_lt_is_Some_2 es j Hj) as [x ->]. done. }
  assert (Hf : forall j, length es <= j -> Z.testbit (validityMask (header s)) (Z.of_nat j) = false).
  { intros j Hj. destruct (decide (j < cap)); [|apply Hb; lia].
    rewrite <- isEntryValid_testbit, view_valid, Hv by (done || lia).
    rewrite lookup_app_r by (rewrite length_fmap; lia).
    by rewrite length_fmap, lookup_replicate_2 by lia. }
  unfold numEntries, popcount, countr_one.
  replace 32 with (length es + (32 - length es)) by lia. split.
  - apply filter_seq_prefix; intros; [apply Ht|apply Hf]; lia.
  - apply countr_one_prefix; intros; [apply Ht; lia|lia|apply Hf; lia].
Qed.

Lemma no_entries_view s :
  wfSlot s -> slotView s = replicate cap None -> numEntries (header s) = 0.
Proof.
  intros Hw Hv. destruct (gapless_counts s [] Hw) as [E _]; [|cbn [length]; lia|exact E].
  cbn [length fmap list_fmap app]. by rewrite Nat.sub_0_r.
Qed.

End Slots.
