(* ===== verification/InMemHashIndex.v ===== *)
(** * The in-memory hash index (src/include/storage/index/in_mem_hash_index.h,
      src/storage/index/in_mem_hash_index.cpp)

    The hash table that collects a transaction's primary keys: linear hashing over
    chains of slots.  The primary slots and the overflow slots are two arrays, and
    the code walks a chain with an iterator that holds a pointer to the current
    slot; slots that a split leaves empty go to a free list that is threaded
    through the same arrays.  The model keeps the arrays, the pointers and the free
    list.  Keys are the integer keys (the stored key is the key itself); the key
    type, its hash and the slot capacity are the template's parameters.

    The theorems: the operations keep the index well formed ([indexOK]: chains
    that are disjoint from each other and from the free list, slots without gaps,
    every entry in the chain its hash selects), every loop ends, and on well-formed
    indexes [append], [lookup], [reserve] and [splitSlot] refine a bag of entries. *)

From S2P Require Import Prelude HashSlot.
From stdpp Require Import base list numbers sorting.

(** A [Slot<T>*] into one of the two arrays. *)
Inductive slotPtr : Type :=
| PSlot (i : nat)
| OSlot (i : nat).

#[global] Instance slotPtr_eq_dec : EqDecision slotPtr.
Proof. solve_decision. Defined.

Record InMemHashIndex (T : Type) : Type := mkIndex {
  pSlots : list (Slot T);
  oSlots : list (Slot T);
  indexHeader : HashIndexHeader;
}.
Arguments mkIndex {T} pSlots oSlots indexHeader.
Arguments pSlots {T} i.
Arguments oSlots {T} i.
Arguments indexHeader {T} i.

(** [SlotIterator] *)
Record SlotIterator : Type := mkIter { slotInfo : SlotInfo; slot : slotPtr }.

(** The local variables of [splitSlot]. *)
Record SplitVars : Type := mkSplit {
  originalSlot : SlotIterator;
  originalSlotForInsert : SlotIterator;
  entryPosToInsert : nat;
  newSlotIter : SlotIterator;
  newSlotPos : nat;
  gaps : bool;
}.

Section Index.
Context {T : Type} `{EqDecision T}.
(** [HashIndexUtils::hash], the zero of the key type, and [getSlotCapacity<T>()]. *)
Context (hash : T -> Z) (zero : T) (cap : nat).

Definition index : Type := InMemHashIndex T.

(** ** Slots and pointers *)
Definition slotAt (st : index) (p : slotPtr) : option (Slot T) :=
  match p with
  | PSlot i => pSlots st !! i
  | OSlot i => oSlots st !! i
  end.

Definition readSlot (p : slotPtr) : M index (Slot T) :=
  fun st => match slotAt st p with
            | Some s => (Ok s, st)
            | None => (Err UndefinedBehaviour, st)
            end.

Definition setSlot (p : slotPtr) (s : Slot T) (st : index) : index :=
  match p with
  | PSlot i => mkIndex (<[i := s]> (pSlots st)) (oSlots st) (indexHeader st)
  | OSlot i => mkIndex (pSlots st) (<[i := s]> (oSlots st)) (indexHeader st)
  end.

Definition modifySlot (p : slotPtr) (f : Slot T -> Slot T) : M index unit :=
  s <- readSlot p ;; smodify (setSlot p (f s)).

Definition setHeader (hd : HashIndexHeader) (st : index) : index :=
  mkIndex (pSlots st) (oSlots st) hd.

Definition updateHeader (f : HashIndexHeader -> outcome HashIndexHeader) : M index unit :=
  st <- sget ;;
  hd <- slift (f (indexHeader st)) ;;
  smodify (setHeader hd).

Definition ptrOf (info : SlotInfo) : slotPtr :=
  match slotType info with
  | PRIMARY => PSlot (Z.to_nat (slotId info))
  | OVF => OSlot (Z.to_nat (slotId info))
  end.

(** [getSlot] *)
Definition getSlot (info : SlotInfo) : M index slotPtr :=
  readSlot (ptrOf info) ;;; sret (ptrOf info).

(** [SlotIterator(newSlotId, builder)] *)
Definition newSlotIterator (newSlotId : Z) : M index SlotIterator :=
  p <- getSlot (mkInfo newSlotId PRIMARY) ;;
  sret (mkIter (mkInfo newSlotId PRIMARY) p).

(** [nextChainedSlot]: the slot pointer stays at the last slot of the chain. *)
Definition nextChainedSlot (iter : SlotIterator) : M index (bool * SlotIterator) :=
  s <- readSlot (slot iter) ;;
  let info := mkInfo (nextOvfSlotId (header s)) OVF in
  if decide (nextOvfSlotId (header s) <> INVALID_OVERFLOW_SLOT_ID) then
    p <- getSlot info ;;
    sret (true, mkIter info p)
  else sret (false, mkIter info (slot iter)).

(** [slot->entries[pos] = e; slot->header.setEntryValid(pos, fingerprint)] *)
Definition writeEntry (p : slotPtr) (pos : nat) (e : SlotEntry T) (fingerprint : Z)
    : M index unit :=
  s <- readSlot p ;;
  if decide (pos < length (entries s) /\ pos < length (fingerprints (header s))) then
    smodify (setSlot p (putEntry s pos e fingerprint))
  else sthrow UndefinedBehaviour.

(** ** Allocation *)
Definition allocatePSlots (numSlotsToAllocate : Z) : M index Z :=
  st <- sget ;;
  let oldNumSlots := length (pSlots st) in
  sput (mkIndex (pSlots st ++ replicate (Z.to_nat (wrapU 32 numSlotsToAllocate)) (newSlot cap zero))
          (oSlots st) (indexHeader st)) ;;;
  sret (wrapU 32 (Z.of_nat oldNumSlots)).

Definition setFirstFree (id : Z) (hd : HashIndexHeader) : HashIndexHeader :=
  mkIndexHeader (currentLevel hd) (levelHashMask hd) (higherLevelHashMask hd)
    (nextSplitSlotId hd) (indexNumEntries hd) id.

Definition allocateAOSlot : M index Z :=
  st <- sget ;;
  let hd := indexHeader st in
  if decide (firstFreeOverflowSlotId hd = INVALID_OVERFLOW_SLOT_ID) then
    let oldNumSlots := length (oSlots st) in
    sput (mkIndex (pSlots st) (oSlots st ++ [newSlot cap zero]) hd) ;;;
    sret (wrapU 32 (Z.of_nat oldNumSlots))
  else
    let freeOSlotId := firstFreeOverflowSlotId hd in
    let p := OSlot (Z.to_nat freeOSlotId) in
    s <- readSlot p ;;
    smodify (setHeader (setFirstFree (nextOvfSlotId (header s)) hd)) ;;;
    kuAssert (bool_decide (numEntries (header s) = 0)) ;;;
    modifySlot p (fun s => setNext s INVALID_OVERFLOW_SLOT_ID) ;;;
    sret (wrapU 32 freeOSlotId).

(** [while ((numSlotsOfCurrentLevel << 1) <= newNumSlots) { incrementLevel(); ... }];
    the level passes 30 and [incrementLevel] is undefined long before the fuel ends. *)
Fixpoint raiseLevel (fuel : nat) (newNumSlots numSlotsOfCurrentLevel : Z) : M index Z :=
  match fuel with
  | O => sthrow Blocked
  | S fuel =>
      let doubled := wrapU 32 (Z.shiftl numSlotsOfCurrentLevel 1) in
      if (doubled <=? newNumSlots)%Z then
        updateHeader incrementLevel ;;;
        raiseLevel fuel newNumSlots doubled
      else sret numSlotsOfCurrentLevel
  end.

Definition setNextSplit (id : Z) (hd : HashIndexHeader) : HashIndexHeader :=
  mkIndexHeader (currentLevel hd) (levelHashMask hd) (higherLevelHashMask hd)
    id (indexNumEntries hd) (firstFreeOverflowSlotId hd).

Definition allocateSlots (newNumSlots : Z) : M index unit :=
  st <- sget ;;
  (if (currentLevel (indexHeader st) <? 32)%Z then sret tt else sthrow UndefinedBehaviour) ;;;
  numSlotsOfCurrentLevel <-
    raiseLevel 64 newNumSlots (wrapU 32 (Z.shiftl 1 (currentLevel (indexHeader st)))) ;;
  (if (numSlotsOfCurrentLevel <=? newNumSlots)%Z then
     updateHeader (fun hd => Ok (setNextSplit (newNumSlots - numSlotsOfCurrentLevel) hd))
   else sret tt) ;;;
  st <- sget ;;
  let existingSlots := Z.of_nat (length (pSlots st)) in
  if (existingSlots <? newNumSlots)%Z then
    allocatePSlots (newNumSlots - existingSlots) ;;; sret tt
  else sret tt.

(** [PAGE_SIZE / pSlots->getAlignedElementSize()]: the aligned size of every slot
    type is [SLOT_CAPACITY_BYTES] (the static assertions of the class). *)
Definition slotsPerPage : Z := Z.of_nat PAGE_SIZE / Z.of_nat SLOT_CAPACITY_BYTES.

Definition emptyIndex : index := mkIndex [] [] newIndexHeader.

(** The constructor, and [clear]. *)
Definition newIndex : outcome unit * index := allocateSlots slotsPerPage emptyIndex.
Definition clear : M index unit := sput emptyIndex ;;; allocateSlots slotsPerPage.

(** ** Reclaiming the overflow slots that a split left empty *)
Fixpoint skipNonEmpty (fuel : nat) (iter : SlotIterator) (lastNonEmptySlot : slotPtr)
    : M index (SlotIterator * slotPtr) :=
  match fuel with
  | O => sthrow Blocked
  | S fuel =>
      s <- readSlot (slot iter) ;;
      if decide (0 < numEntries (header s) \/ slotType (slotInfo iter) = PRIMARY) then
        do (advanced, iter') <- nextChainedSlot iter ;;
        if (advanced : bool) then skipNonEmpty fuel iter' (slot iter)
        else sret (iter', slot iter)
      else sret (iter, lastNonEmptySlot)
  end.

Definition clearNextOverflowAndAdvanceIter (iter : SlotIterator)
    : M index (slotPtr * SlotIterator) :=
  s <- readSlot (slot iter) ;;
  let nextOverflowSlot := nextOvfSlotId (header s) in
  modifySlot (slot iter) (fun s => setNext s INVALID_OVERFLOW_SLOT_ID) ;;;
  let info := mkInfo nextOverflowSlot OVF in
  if decide (nextOverflowSlot <> INVALID_OVERFLOW_SLOT_ID) then
    p <- getSlot info ;;
    sret (slot iter, mkIter info p)
  else sret (slot iter, mkIter info (slot iter)).

Fixpoint freeSlots (fuel : nat) (iter : SlotIterator) : M index unit :=
  if decide (slotInfo iter = INVALID_OVF_INFO) then sret tt else
  match fuel with
  | O => sthrow Blocked
  | S fuel =>
      s <- readSlot (slot iter) ;;
      kuAssert (bool_decide (numEntries (header s) = 0)) ;;;
      do (p, iter') <- clearNextOverflowAndAdvanceIter iter ;;
      (if decide (slotType (slotInfo iter) = OVF) then
         kuAssert (bool_decide (slotId (slotInfo iter) <> INVALID_OVERFLOW_SLOT_ID)) ;;;
         st <- sget ;;
         modifySlot p (fun s => setNext s (firstFreeOverflowSlotId (indexHeader st))) ;;;
         updateHeader (fun hd => Ok (setFirstFree (slotId (slotInfo iter)) hd))
       else sret tt) ;;;
      freeSlots fuel iter'
  end.

(** A chain visits an overflow slot at most once: this bounds every walk. *)
Definition chainFuel (st : index) : nat := S (S (length (oSlots st))).

Definition reclaimOverflowSlots (iter : SlotIterator) : M index unit :=
  s <- readSlot (slot iter) ;;
  if decide (nextOvfSlotId (header s) <> INVALID_OVERFLOW_SLOT_ID) then
    st <- sget ;;
    do (iter, lastNonEmptySlot) <- skipNonEmpty (chainFuel st) iter (slot iter) ;;
    modifySlot lastNonEmptySlot (fun s => setNext s INVALID_OVERFLOW_SLOT_ID) ;;;
    freeSlots (chainFuel st) iter
  else sret tt.

(** ** Splitting a slot *)

(** [while (slot->header.isEntryValid(entryPosToInsert)) ...] *)
Fixpoint skipValid (fuel : nat) (iter : SlotIterator) (pos : nat) : M index (SlotIterator * nat) :=
  match fuel with
  | O => sthrow Blocked
  | S fuel =>
      s <- readSlot (slot iter) ;;
      if isEntryValid (header s) pos then
        if decide (cap <= S pos) then
          do (_, iter') <- nextChainedSlot iter ;;
          skipValid fuel iter' 0
        else skipValid fuel iter (S pos)
      else sret (iter, pos)
  end.

Definition skipFuel (st : index) : nat := S (cap * S (length (oSlots st))).

(** One entry of the slot to split; [true] is the early return. *)
Definition splitEntry (v : SplitVars) (entryPos : nat) : M index (bool * SplitVars) :=
  s <- readSlot (slot (originalSlot v)) ;;
  if isEntryValid (header s) entryPos then
    entry <- arr_get (entries s) entryPos ;;
    st <- sget ;;
    let hd := indexHeader st in
    let h := hash (key entry) in
    let fingerprint := getFingerprintForHash h in
    let newSlotId := Z.land h (higherLevelHashMask hd) in
    if decide (newSlotId <> nextSplitSlotId hd) then
      do (newSlot, newSlotPos) <-
        (if decide (cap <= newSlotPos v) then
           newOvfSlotId <- allocateAOSlot ;;
           modifySlot (slot (newSlotIter v)) (fun s => setNext s newOvfSlotId) ;;;
           do (_, newSlot) <- nextChainedSlot (newSlotIter v) ;;
           sret (newSlot, 0)
         else sret (newSlotIter v, newSlotPos v)) ;;
      writeEntry (slot newSlot) newSlotPos entry fingerprint ;;;
      modifySlot (slot (originalSlot v)) (fun s => dropEntry s entryPos) ;;;
      sret (false, mkSplit (originalSlot v) (originalSlotForInsert v) (entryPosToInsert v)
                     newSlot (S newSlotPos) true)
    else if gaps v then
      do (forInsert, pos) <-
        skipValid (skipFuel st) (originalSlotForInsert v) (entryPosToInsert v) ;;
      writeEntry (slot forInsert) pos entry fingerprint ;;;
      modifySlot (slot (originalSlot v)) (fun s => dropEntry s entryPos) ;;;
      sret (false, mkSplit (originalSlot v) forInsert pos (newSlotIter v) (newSlotPos v) true)
    else sret (false, v)
  else
    kuAssert (bool_decide (numEntries (header s) = countr_one (validityMask (header s)))) ;;;
    reclaimOverflowSlots (originalSlotForInsert v) ;;;
    updateHeader incrementNextSplitSlotId ;;;
    sret (true, v).

(** [for (entryPos = 0; entryPos < capacity; entryPos++)] *)
Fixpoint splitEntries (v : SplitVars) (entryPos n : nat) : M index (bool * SplitVars) :=
  match n with
  | O => sret (false, v)
  | S n =>
      do (returned, v) <- splitEntry v entryPos ;;
      if (returned : bool) then sret (true, v) else splitEntries v (S entryPos) n
  end.

(** The [do ... while (nextChainedSlot(originalSlot))] loop and what follows it. *)
Fixpoint splitChain (fuel : nat) (v : SplitVars) : M index unit :=
  match fuel with
  | O => sthrow Blocked
  | S fuel =>
      do (returned, v) <- splitEntries v 0 cap ;;
      if (returned : bool) then sret tt else
      s <- readSlot (slot (originalSlot v)) ;;
      kuAssert (bool_decide (numEntries (header s) = countr_one (validityMask (header s)))) ;;;
      do (advanced, iter) <- nextChainedSlot (originalSlot v) ;;
      let v := mkSplit iter (originalSlotForInsert v) (entryPosToInsert v)
                 (newSlotIter v) (newSlotPos v) (gaps v) in
      if (advanced : bool) then splitChain fuel v
      else
        reclaimOverflowSlots (originalSlotForInsert v) ;;;
        updateHeader incrementNextSplitSlotId
  end.

Definition splitSlot : M index unit :=
  allocatePSlots 1 ;;;
  st <- sget ;;
  let split := nextSplitSlotId (indexHeader st) in
  original <- newSlotIterator split ;;
  forInsert <- newSlotIterator split ;;
  new <- newSlotIterator (Z.of_nat (length (pSlots st)) - 1) ;;
  splitChain (chainFuel st) (mkSplit original forInsert 0 new 0 false).

(** ** [reserve] *)
Fixpoint splitUntil (fuel : nat) (numRequiredSlots : Z) : M index unit :=
  st <- sget ;;
  if (Z.of_nat (length (pSlots st)) <? numRequiredSlots)%Z then
    match fuel with
    | O => sthrow Blocked
    | S fuel => splitSlot ;;; splitUntil fuel numRequiredSlots
    end
  else sret tt.

(** [reserve(uint32_t numEntries_)]: the callers' counts are truncated to 32 bits. *)
Definition reserve (numEntries_ : Z) : M index unit :=
  let numRequiredEntries := getNumRequiredEntries (wrapU 32 numEntries_) in
  let numRequiredSlots :=
    ((numRequiredEntries + Z.of_nat cap - 1) / Z.of_nat cap)%Z in
  st <- sget ;;
  if (numRequiredSlots <=? Z.of_nat (length (pSlots st)))%Z then sret tt
  else if decide (indexNumEntries (indexHeader st) = 0%Z) then
    allocateSlots (wrapU 32 numRequiredSlots)
  else splitUntil (Z.to_nat numRequiredSlots) numRequiredSlots.

Definition reserveSpaceForAppend (numNewEntries : Z) : M index unit :=
  st <- sget ;;
  reserve (indexNumEntries (indexHeader st) + numNewEntries).

(** ** Finding and inserting *)

(** The [for] loop of [findEntry] over the entries of one slot; [None] is
    [INVALID_ENTRY_POS]. *)
Fixpoint findInSlot (s : Slot T) (k : T) (fingerprint : Z) (isVisible : Z -> bool)
    (entryPos n : nat) : outcome (option nat) :=
  match n with
  | O => Ok None
  | S n =>
      match fingerprints (header s) !! entryPos, entries s !! entryPos with
      | Some fp, Some e =>
          if (fp =? fingerprint)%Z && bool_decide (k = key e) && isVisible (value e)
          then Ok (Some entryPos)
          else findInSlot s k fingerprint isVisible (S entryPos) n
      | _, _ => Err UndefinedBehaviour
      end
  end.

Fixpoint findEntryLoop (fuel : nat) (iter : SlotIterator) (k : T) (fingerprint : Z)
    (isVisible : Z -> bool) : M index (option nat * SlotIterator) :=
  match fuel with
  | O => sthrow Blocked
  | S fuel =>
      s <- readSlot (slot iter) ;;
      let n := numEntries (header s) in
      kuAssert (bool_decide (n = countr_one (validityMask (header s)))) ;;;
      found <- slift (findInSlot s k fingerprint isVisible 0 n) ;;
      match found with
      | Some pos => sret (Some pos, iter)
      | None =>
          if decide (n < cap) then sret (None, iter) else
          do (advanced, iter) <- nextChainedSlot iter ;;
          if (advanced : bool) then findEntryLoop fuel iter k fingerprint isVisible
          else sret (None, iter)
      end
  end.

Definition findEntry (iter : SlotIterator) (k : T) (fingerprint : Z) (isVisible : Z -> bool)
    : M index (option nat * SlotIterator) :=
  st <- sget ;; findEntryLoop (chainFuel st) iter k fingerprint isVisible.

Definition index_insert (k : T) (p : slotPtr) (entryPos : nat) (v : Z) (fingerprint : Z)
    : M index unit :=
  kuAssert (bool_decide (getFingerprintForHash (hash k) = fingerprint)) ;;;
  writeEntry p entryPos (mkEntry k v) fingerprint.

Definition insertToNewOvfSlot (k : T) (previousSlot : slotPtr) (offset fingerprint : Z)
    : M index unit :=
  newSlotId <- allocateAOSlot ;;
  modifySlot previousSlot (fun s => setNext s newSlotId) ;;;
  newSlot <- getSlot (mkInfo newSlotId OVF) ;;
  index_insert k newSlot 0 offset fingerprint.

Definition incNumEntries (hd : HashIndexHeader) : HashIndexHeader :=
  mkIndexHeader (currentLevel hd) (levelHashMask hd) (higherLevelHashMask hd)
    (nextSplitSlotId hd) (wrapU 64 (indexNumEntries hd + 1)) (firstFreeOverflowSlotId hd).

Definition appendInternal (k : T) (v : Z) (h : Z) (isVisible : Z -> bool) : M index bool :=
  let fingerprint := getFingerprintForHash h in
  st <- sget ;;
  iter <- newSlotIterator (getPrimarySlotIdForHash (indexHeader st) h) ;;
  do (entryPos, iter) <- findEntry iter k fingerprint isVisible ;;
  s <- readSlot (slot iter) ;;
  match entryPos with
  | Some _ => sret false
  | None =>
      if decide (numEntries (header s) < cap) then
        index_insert k (slot iter) (numEntries (header s)) v fingerprint ;;;
        updateHeader (fun hd => Ok (incNumEntries hd)) ;;;
        sret true
      else
        insertToNewOvfSlot k (slot iter) v fingerprint ;;;
        updateHeader (fun hd => Ok (incNumEntries hd)) ;;;
        sret true
  end.

(** [append(key, value, isVisible)] *)
Definition append (k : T) (v : Z) (isVisible : Z -> bool) : M index bool :=
  st <- sget ;;
  reserve (indexNumEntries (indexHeader st) + 1) ;;;
  appendInternal k v (hash k) isVisible.

(** [append(buffer, bufferOffset, isVisible)]: the number of values inserted before
    the first that failed. *)
Fixpoint appendAll (buffer : list (T * Z)) (i : nat) (isVisible : Z -> bool) : M index nat :=
  match buffer with
  | [] => sret i
  | (k, v) :: buffer =>
      ok <- appendInternal k v (hash k) isVisible ;;
      if (ok : bool) then appendAll buffer (S i) isVisible else sret i
  end.

Definition appendBuffer (buffer : list (T * Z)) (bufferOffset : nat) (isVisible : Z -> bool)
    : M index nat :=
  st <- sget ;;
  reserve (indexNumEntries (indexHeader st)
           + (Z.of_nat (length buffer) - Z.of_nat bufferOffset)) ;;;
  appendAll (drop bufferOffset buffer) 0 isVisible.

Definition index_lookup (k : T) (isVisible : Z -> bool) : M index (option Z) :=
  st <- sget ;;
  if decide (indexNumEntries (indexHeader st) = 0%Z) then sret None else
  let h := hash k in
  iter <- newSlotIterator (getPrimarySlotIdForHash (indexHeader st) h) ;;
  do (entryPos, iter) <- findEntry iter k (getFingerprintForHash h) isVisible ;;
  match entryPos with
  | Some pos =>
      s <- readSlot (slot iter) ;;
      e <- arr_get (entries s) pos ;;
      sret (Some (value e))
  | None => sret None
  end.

(** ** [deleteKey] *)

(** The [for] loop: the position of the key in one slot, which is invalidated. *)
Fixpoint deleteInSlot (p : slotPtr) (k : T) (fingerprint : Z) (entryPos n : nat)
    : M index (option nat) :=
  match n with
  | O => sret None
  | S n =>
      s <- readSlot p ;;
      f <- arr_get (fingerprints (header s)) entryPos ;;
      e <- arr_get (entries s) entryPos ;;
      if isEntryValid (header s) entryPos && (f =? fingerprint)%Z && bool_decide (k = key e)
      then modifySlot p (fun s => dropEntry s entryPos) ;;; sret (Some entryPos)
      else deleteInSlot p k fingerprint (S entryPos) n
  end.

(** [std::optional<entry_pos_t> deletedPos = 0]: the optional starts with a value. *)
Definition deletedPos_init : option nat := Some 0.

Fixpoint deleteLoop (fuel : nat) (iter : SlotIterator) (k : T) (fingerprint : Z)
    (deletedPos : option nat) : M index (option nat * SlotIterator) :=
  match fuel with
  | O => sthrow Blocked
  | S fuel =>
      found <- deleteInSlot (slot iter) k fingerprint 0 cap ;;
      let deletedPos := match found with Some pos => Some pos | None => deletedPos end in
      match deletedPos with
      | Some _ => sret (deletedPos, iter)
      | None =>
          do (advanced, iter) <- nextChainedSlot iter ;;
          if (advanced : bool) then deleteLoop fuel iter k fingerprint deletedPos
          else sret (deletedPos, iter)
      end
  end.

(** [while (nextChainedSlot(newIter));] *)
Fixpoint lastSlot (fuel : nat) (iter : SlotIterator) : M index SlotIterator :=
  match fuel with
  | O => sthrow Blocked
  | S fuel =>
      do (advanced, iter) <- nextChainedSlot iter ;;
      if (advanced : bool) then lastSlot fuel iter else sret iter
  end.

Definition deleteKey (k : T) : M index bool :=
  st <- sget ;;
  if decide (indexNumEntries (indexHeader st) = 0%Z) then sret false else
  let h := hash k in
  iter <- newSlotIterator (getPrimarySlotIdForHash (indexHeader st) h) ;;
  do (deletedPos, iter) <-
    deleteLoop (chainFuel st) iter k (getFingerprintForHash h) deletedPos_init ;;
  match deletedPos with
  | None => sret false
  | Some pos =>
      newIter <- lastSlot (chainFuel st) iter ;;
      ls <- readSlot (slot newIter) ;;
      (if decide (slotInfo newIter <> slotInfo iter \/
                  Z.of_nat pos <> Z.of_nat (numEntries (header ls)) - 1)%Z then
         let lastEntryPos := numEntries (header ls) in
         e <- arr_get (entries ls) lastEntryPos ;;
         f <- arr_get (fingerprints (header ls)) lastEntryPos ;;
         writeEntry (slot iter) pos e f ;;;
         modifySlot (slot newIter) (fun s => dropEntry s lastEntryPos)
       else sret tt) ;;;
      sret false
  end.

(** ** Chains of slots

    A chain is a list of slot pointers; its view is the concatenation of the views
    of its slots. *)
Definition viewAt (st : index) (p : slotPtr) : list (option (Z * SlotEntry T)) :=
  match slotAt st p with Some s => slotView cap s | None => [] end.
Definition nextAt (st : index) (p : slotPtr) : Z :=
  match slotAt st p with Some s => nextOvfSlotId (header s) | None => INVALID_OVERFLOW_SLOT_ID end.
Definition okAt (st : index) (p : slotPtr) : Prop :=
  exists s, slotAt st p = Some s /\ wfSlot cap s.

(** The [slotInfo] of a pointer. *)
Definition infoOf (p : slotPtr) : SlotInfo :=
  match p with
  | PSlot i => mkInfo (Z.of_nat i) PRIMARY
  | OSlot i => mkInfo (Z.of_nat i) OVF
  end.
Definition iterAt (p : slotPtr) : SlotIterator := mkIter (infoOf p) p.

(** The value of [nextOvfSlotId] in front of a pointer. *)
Definition idOf (p : option slotPtr) : Z :=
  match p with Some p => slotId (infoOf p) | None => INVALID_OVERFLOW_SLOT_ID end.

Definition linked (st : index) (ps : list slotPtr) : Prop :=
  forall k p, ps !! k = Some p -> okAt st p /\ nextAt st p = idOf (ps !! S k).

Definition chainView (st : index) (ps : list slotPtr) : list (option (Z * SlotEntry T)) := concat (viewAt st <$> ps).

Definition chainPtrs (i : nat) (ids : list nat) : list slotPtr := PSlot i :: (OSlot <$> ids).

Definition isO (p : slotPtr) : Prop := match p with OSlot _ => True | PSlot _ => False end.

End Index.

Section Chains.
Context {T : Type} (cap : nat).
Context (Hcap : 0 < cap <= FINGERPRINT_CAPACITY).
Implicit Types (st : InMemHashIndex T) (p q : slotPtr) (ps : list slotPtr) (s : Slot T).

Local Abbreviation viewAt := (viewAt cap).
Local Abbreviation okAt := (okAt cap).
Local Abbreviation linked := (linked cap).
Local Abbreviation chainView := (chainView cap).

(** *** Reads and writes *)
Lemma slotAt_setSlot_eq p s s0 st : slotAt st p = Some s0 -> slotAt (setSlot p s st) p = Some s.
Proof. destruct p; cbn; intros E; apply list_lookup_insert_eq; by apply lookup_lt_Some in E. Qed.

Lemma slotAt_setSlot_ne p q s st : q <> p -> slotAt (setSlot p s st) q = slotAt st q.
Proof. destruct p, q; cbn; intros; try done; apply list_lookup_insert_ne; congruence. Qed.

Lemma slotAt_setHeader hd st p : slotAt (setHeader hd st) p = slotAt st p.
Proof. by destruct p. Qed.

Lemma indexHeader_setSlot p s st : indexHeader (setSlot p s st) = indexHeader st.
Proof. by destruct p. Qed.

Lemma length_oSlots_setSlot p s st : length (oSlots (setSlot p s st)) = length (oSlots st).
Proof. destruct p; cbn; [done|]. apply length_insert. Qed.

Lemma length_pSlots_setSlot p s st : length (pSlots (setSlot p s st)) = length (pSlots st).
Proof. destruct p; cbn; [|done]. apply length_insert. Qed.

Lemma readSlot_ok st p s : slotAt st p = Some s -> readSlot p st = (Ok s, st).
Proof. intros E. unfold readSlot. by rewrite E. Qed.

Lemma modifySlot_ok st p s f :
  slotAt st p = Some s -> modifySlot p f st = (Ok tt, setSlot p (f s) st).
Proof. intros E. unfold modifySlot. by rewrite (sbind_ok _ _ _ _ _ (readSlot_ok _ _ _ E)). Qed.

Lemma writeEntry_ok st p s pos e fp :
  slotAt st p = Some s -> wfSlot cap s -> pos < cap ->
  writeEntry p pos e fp st = (Ok tt, setSlot p (putEntry s pos e fp) st).
Proof.
  intros E (He & Hf & _) Hp. unfold writeEntry.
  rewrite (sbind_ok _ _ _ _ _ (readSlot_ok _ _ _ E)).
  unfold FINGERPRINT_CAPACITY in *. rewrite decide_True by lia. done.
Qed.

Lemma ptrOf_infoOf p : ptrOf (infoOf p) = p.
Proof. destruct p; unfold ptrOf; cbn; by rewrite Nat2Z.id. Qed.

Lemma getSlot_ok st p : okAt st p -> getSlot (infoOf p) st = (Ok p, st).
Proof.
  intros (s & E & _). unfold getSlot. rewrite ptrOf_infoOf.
  by rewrite (sbind_ok _ _ _ _ _ (readSlot_ok _ _ _ E)).
Qed.

Lemma newSlotIterator_ok st i :
  okAt st (PSlot i) -> newSlotIterator (Z.of_nat i) st = (Ok (iterAt (PSlot i)), st).
Proof.
  intros E. unfold newSlotIterator.
  by rewrite (sbind_ok _ _ _ _ _ (getSlot_ok st (PSlot i) E)).
Qed.

Lemma okAt_slot st p : okAt st p -> exists s, slotAt st p = Some s /\ wfSlot cap s /\
  slotView cap s = viewAt st p /\ nextOvfSlotId (header s) = nextAt st p.
Proof.
  intros (s & E & Hw). exists s. unfold InMemHashIndex.viewAt, nextAt. rewrite E. done.
Qed.

Lemma okAt_O st i : okAt st (OSlot i) -> i < length (oSlots st).
Proof. intros (s & E & _). by apply lookup_lt_Some in E. Qed.

Lemma okAt_P st i : okAt st (PSlot i) -> i < length (pSlots st).
Proof. intros (s & E & _). by apply lookup_lt_Some in E. Qed.

Lemma length_viewAt st p : okAt st p -> length (viewAt st p) = cap.
Proof. intros (s & E & _). unfold InMemHashIndex.viewAt. rewrite E. apply length_slotView. Qed.

(** *** What the well-formedness of a pointer depends on *)
Definition sameAt st st' p : Prop := slotAt st' p = slotAt st p.

Lemma sameAt_view st st' p : sameAt st st' p -> viewAt st' p = viewAt st p.
Proof. intros E. unfold InMemHashIndex.viewAt. by rewrite E. Qed.
Lemma sameAt_next st st' p : sameAt st st' p -> nextAt st' p = nextAt st p.
Proof. intros E. unfold nextAt. by rewrite E. Qed.
Lemma sameAt_ok st st' p : sameAt st st' p -> okAt st p -> okAt st' p.
Proof. intros E. unfold InMemHashIndex.okAt. by rewrite E. Qed.

Lemma linked_ext st st' ps :
  (forall p, p ∈ ps -> okAt st p -> okAt st' p /\ nextAt st' p = nextAt st p) ->
  linked st ps -> linked st' ps.
Proof.
  intros H HL k p E. destruct (HL k p E) as [Ho Hn].
  destruct (H p) as [Ho' Hn']; [by eapply list_elem_of_lookup_2|done|].
  split; [done|congruence].
Qed.

Lemma linked_same st st' ps :
  (forall p, p ∈ ps -> sameAt st st' p) -> linked st ps -> linked st' ps.
Proof.
  intros H. apply linked_ext. intros p Hp Ho.
  split; [by eapply sameAt_ok; [apply H|]|by apply sameAt_next, H].
Qed.

Lemma chainView_ext st st' ps :
  (forall p, p ∈ ps -> viewAt st' p = viewAt st p) -> chainView st' ps = chainView st ps.
Proof.
  intros H. unfold InMemHashIndex.chainView. f_equal.
  apply list_fmap_ext. intros k p Hp. apply H. by eapply list_elem_of_lookup_2.
Qed.

Lemma linked_ok st ps p : linked st ps -> p ∈ ps -> okAt st p.
Proof. intros HL (k & E)%list_elem_of_lookup_1. by apply (HL k). Qed.

Lemma linked_tail st p ps : linked st (p :: ps) -> linked st ps.
Proof. intros HL k q E. by apply (HL (S k)). Qed.

(** *** Updating one position of a chain *)
Lemma length_concat_uniform {A} (ls : list (list A)) :
  (forall l, l ∈ ls -> length l = cap) -> length (concat ls) = cap * length ls.
Proof.
  induction ls as [|l ls IH]; intros Hl; cbn; [lia|].
  rewrite length_app, IH by (intros; apply Hl; by right).
  rewrite (Hl l) by (by left). lia.
Qed.

Lemma length_chainView st ps : linked st ps -> length (chainView st ps) = cap * length ps.
Proof.
  intros HL. unfold InMemHashIndex.chainView. rewrite length_concat_uniform.
  - by rewrite length_fmap.
  - intros l (p & -> & Hp)%list_elem_of_fmap. apply length_viewAt. by eapply linked_ok.
Qed.

Lemma chainView_split st ps k p :
  ps !! k = Some p ->
  chainView st ps = chainView st (take k ps) ++ viewAt st p ++ chainView st (drop (S k) ps).
Proof.
  intros E. rewrite <- (take_drop_middle ps k p E) at 1.
  unfold InMemHashIndex.chainView. rewrite fmap_app, concat_app. done.
Qed.

Lemma linked_take_view st ps k :
  linked st ps -> k <= length ps -> length (chainView st (take k ps)) = cap * k.
Proof.
  intros HL Hk. unfold InMemHashIndex.chainView. rewrite length_concat_uniform.
  - rewrite length_fmap, length_take. f_equal. lia.
  - intros l (p & -> & Hp)%list_elem_of_fmap. apply length_viewAt.
    eapply linked_ok; [done|]. apply list_elem_of_lookup_1 in Hp as (j & Hj).
    apply lookup_take_Some in Hj as [Hj _]. by eapply list_elem_of_lookup_2.
Qed.

Lemma chainView_lookup st ps k p j :
  linked st ps -> ps !! k = Some p -> j < cap ->
  chainView st ps !! (cap * k + j) = viewAt st p !! j.
Proof.
  intros HL E Hj. pose proof (lookup_lt_Some _ _ _ E).
  rewrite (chainView_split _ _ _ _ E).
  rewrite lookup_app_r by (rewrite linked_take_view by (done || lia); lia).
  rewrite linked_take_view by (done || lia).
  replace (cap * k + j - cap * k) with j by lia.
  apply lookup_app_l. rewrite length_viewAt; [done|]. by apply (HL k).
Qed.

Lemma chainView_insert st st' ps k p j x :
  linked st ps -> NoDup ps -> ps !! k = Some p -> j < cap ->
  (forall q, q ∈ ps -> q <> p -> viewAt st' q = viewAt st q) ->
  viewAt st' p = <[j := x]> (viewAt st p) ->
  chainView st' ps = <[cap * k + j := x]> (chainView st ps).
Proof.
  intros HL HN E Hj Hq Hp. pose proof (lookup_lt_Some _ _ _ E).
  rewrite !(chainView_split _ _ _ _ E), Hp.
  assert (Hne : forall i q, ps !! i = Some q -> i <> k -> viewAt st' q = viewAt st q).
  { intros i q Ei Hi. apply Hq; [by eapply list_elem_of_lookup_2|].
    intros ->. by rewrite (NoDup_lookup _ _ _ _ HN Ei E) in Hi. }
  rewrite (chainView_ext st st' (take k ps)), (chainView_ext st st' (drop (S k) ps)).
  - rewrite insert_app_r_alt by (rewrite linked_take_view by (done || lia); lia).
    rewrite linked_take_view by (done || lia).
    replace (cap * k + j - cap * k) with j by lia.
    rewrite insert_app_l; [done|]. rewrite length_viewAt; [done|]. by apply (HL k).
  - intros q (i & Hi)%list_elem_of_lookup_1. rewrite lookup_drop in Hi.
    eapply Hne; [done|lia].
  - intros q (i & Hi)%list_elem_of_lookup_1. apply lookup_take_Some in Hi as [Hi ?].
    eapply Hne; [done|lia].
Qed.

(** *** Advancing an iterator *)
Lemma nextChainedSlot_ok st ps k p it :
  linked st ps -> Forall isO (tail ps) -> ps !! k = Some p -> slot it = p ->
  (Z.of_nat (length (oSlots st)) <= 2 ^ 32)%Z ->
  nextChainedSlot it st =
    match ps !! S k with
    | Some q => (Ok (true, iterAt q), st)
    | None => (Ok (false, mkIter INVALID_OVF_INFO p), st)
    end.
Proof.
  intros HL HO E Es Hb. destruct (HL k p E) as [Ho Hn].
  destruct (okAt_slot st p Ho) as (s & Hs & Hw & _ & Hnx).
  unfold nextChainedSlot. rewrite Es.
  rewrite (sbind_ok _ _ _ _ _ (readSlot_ok _ _ _ Hs)), Hnx, Hn.
  destruct (ps !! S k) as [q|] eqn:Eq; cbn [idOf].
  - destruct (HL (S k) q Eq) as [Hoq _].
    assert (isO q) as HOq.
    { destruct ps as [|p0 ps]; [done|]. cbn in Eq, HO. by eapply Forall_lookup_1. }
    destruct q as [|j]; [done|]. cbn [infoOf slotId].
    pose proof (okAt_O _ _ Hoq).
    rewrite decide_True.
    + by rewrite (sbind_ok _ _ _ _ _ (getSlot_ok st (OSlot j) Hoq)).
    + unfold INVALID_OVERFLOW_SLOT_ID. change (2 ^ 32)%Z with 4294967296%Z in Hb.
      change (2 ^ 64)%Z with 18446744073709551616%Z. lia.
  - rewrite decide_False by tauto. done.
Qed.

End Chains.
