(* ===== verification/HashIndexSplit.v ===== *)
(** * Splitting a slot of the in-memory hash index
      ([InMemHashIndex::splitSlot], [reclaimOverflowSlots],
      src/storage/index/in_mem_hash_index.cpp)

    [splitSlot] walks the chain of the slot to split once.  Entries whose hash now
    selects the new slot are appended to the new slot's chain; the others are
    moved forward into the gaps this leaves, through a second iterator that follows
    the first; overflow slots that end up empty are pushed on the free list.  The
    proof follows the loop with the view of the chain: after [k] entries it is the
    entries that stay, then gaps, then what has not been visited. *)

From S2P Require Import Prelude HashSlot InMemHashIndex.
From stdpp Require Import base list numbers sorting sets.

Section Split.
Context {T : Type} `{EqDecision T} (hash : T -> Z) (zero : T) (cap : nat).
Context (Hcap : 0 < cap <= FINGERPRINT_CAPACITY).
Implicit Types (st : InMemHashIndex T) (p q : slotPtr) (ps : list slotPtr) (s : Slot T).

Local Abbreviation viewAt := (viewAt cap).
Local Abbreviation okAt := (okAt cap).
Local Abbreviation linked := (linked cap).
Local Abbreviation chainView := (chainView cap).

(** ** Changes of the links only *)
Record keeps st st' : Prop := {
  keeps_view : forall p, viewAt st' p = viewAt st p;
  keeps_ok : forall p, okAt st p -> okAt st' p;
  keeps_p : length (pSlots st') = length (pSlots st);
  keeps_o : length (oSlots st') = length (oSlots st);
}.

Lemma keeps_refl st : keeps st st.
Proof. done. Qed.

Lemma keeps_trans st1 st2 st3 : keeps st1 st2 -> keeps st2 st3 -> keeps st1 st3.
Proof.
  intros [V1 O1 P1 L1] [V2 O2 P2 L2]. split; [|auto|congruence..].
  intros p. by rewrite V2.
Qed.

Lemma keeps_setNext st p s n :
  slotAt st p = Some s -> keeps st (setSlot p (setNext s n) st).
Proof.
  intros E. split.
  - intros q. unfold InMemHashIndex.viewAt. destruct (decide (q = p)) as [->|].
    + rewrite (slotAt_setSlot_eq _ _ _ _ E), E. done.
    + by rewrite slotAt_setSlot_ne.
  - intros q. unfold InMemHashIndex.okAt. destruct (decide (q = p)) as [->|].
    + rewrite (slotAt_setSlot_eq _ _ _ _ E), E. intros (s' & [= <-] & Hw). eauto.
    + by rewrite slotAt_setSlot_ne.
  - apply length_pSlots_setSlot.
  - apply length_oSlots_setSlot.
Qed.

Lemma keeps_setHeader st hd : keeps st (setHeader hd st).
Proof.
  split; [| |done..]; intros p; unfold InMemHashIndex.viewAt, InMemHashIndex.okAt;
    by rewrite slotAt_setHeader.
Qed.

Lemma nextAt_setNext st p s n :
  slotAt st p = Some s -> nextAt (setSlot p (setNext s n) st) p = n.
Proof. intros E. unfold nextAt. by rewrite (slotAt_setSlot_eq _ _ _ _ E). Qed.

Lemma sameAt_setSlot st p q s : q <> p -> sameAt st (setSlot p s st) q.
Proof. apply slotAt_setSlot_ne. Qed.

Lemma sameAt_trans st1 st2 st3 p : sameAt st1 st2 p -> sameAt st2 st3 p -> sameAt st1 st3 p.
Proof. unfold sameAt. congruence. Qed.

(** A chain whose links have not changed. *)
Lemma linked_keeps st st' ps :
  keeps st st' -> (forall p, p ∈ ps -> nextAt st' p = nextAt st p) -> linked st ps -> linked st' ps.
Proof. intros K Hn. apply linked_ext. intros p Hp Ho. split; [by apply K|auto]. Qed.

(** Cutting a chain. *)
Lemma linked_take st st' ps m p :
  linked st ps -> ps !! m = Some p -> keeps st st' ->
  nextAt st' p = INVALID_OVERFLOW_SLOT_ID ->
  (forall q, q ∈ take m ps -> nextAt st' q = nextAt st q) ->
  linked st' (take (S m) ps).
Proof.
  intros HL E K Hp Hq k q Ek. apply lookup_take_Some in Ek as [Ek Hk].
  destruct (HL k q Ek) as [Ho Hn]. split; [by apply K|].
  destruct (decide (k = m)) as [->|].
  - assert (q = p) as -> by congruence. rewrite Hp.
    by rewrite lookup_take_ge by lia.
  - rewrite lookup_take_lt by lia. rewrite Hq, Hn; [done|].
    apply (list_elem_of_lookup_2 _ k). by rewrite lookup_take_lt by lia.
Qed.

Lemma linked_drop st ps m : linked st ps -> linked st (drop m ps).
Proof. intros HL k q E. rewrite lookup_drop in *. rewrite Nat.add_succ_r. by apply HL. Qed.

Lemma linked_cons st p ps :
  okAt st p -> nextAt st p = idOf (ps !! 0) -> linked st ps -> linked st (p :: ps).
Proof. intros Ho Hn HL [|k] q E; cbn in *; [by simplify_eq|by apply HL]. Qed.

Lemma linked_snoc st st' ps p q :
  NoDup ps -> linked st (ps ++ [p]) -> (forall r, r ∈ ps ++ [p] -> okAt st r -> okAt st' r) ->
  (forall r, r ∈ ps -> nextAt st' r = nextAt st r) ->
  nextAt st' p = slotId (infoOf q) -> okAt st' q -> nextAt st' q = INVALID_OVERFLOW_SLOT_ID ->
  linked st' (ps ++ [p; q]).
Proof.
  intros HN HL Hok Hn Hp Hoq Hq k r E.
  destruct (decide (k < length ps)).
  - rewrite lookup_app_l in E by done.
    destruct (HL k r) as [Ho Hr]; [by rewrite lookup_app_l|].
    pose proof (list_elem_of_lookup_2 _ _ _ E).
    split; [apply Hok; [|done]; apply elem_of_app; by left|].
    rewrite Hn, Hr by done. change [p; q] with ([p] ++ [q]). rewrite app_assoc.
    rewrite (lookup_app_l (ps ++ [p])); [done|]. rewrite length_app. cbn. lia.
  - rewrite lookup_app_r in E by lia. destruct (k - length ps) as [|[|d]] eqn:Ek; simplify_eq/=.
    + replace (S k) with (length ps + 1) by lia. rewrite lookup_app_r by lia.
      replace (length ps + 1 - length ps) with 1 by lia. cbn.
      split; [|done]. apply Hok; [apply elem_of_app; right; by left|].
      apply (HL (length ps)). by rewrite lookup_app_r, Nat.sub_diag by lia.
    + split; [done|]. rewrite lookup_ge_None_2; [done|]. rewrite length_app. cbn. lia.
Qed.

(** ** Slots of a chain without gaps *)
Definition gapless (st : InMemHashIndex T) (ps : list slotPtr) (es : list (Z * SlotEntry T)) : Prop :=
  exists r, chainView st ps = (Some <$> es) ++ replicate r None.

Lemma gapless_length st ps es : linked st ps -> gapless st ps es -> length es <= cap * length ps.
Proof.
  intros HL [r E]. rewrite <- (length_chainView cap Hcap st ps HL), E, length_app, length_fmap. lia.
Qed.

Lemma prefix_slot st ps l r rest k p :
  linked st ps -> chainView st ps = (Some <$> l) ++ replicate r None ++ rest ->
  ps !! k = Some p -> cap * S k <= length l + r ->
  let l' := take cap (drop (cap * k) l) in
  viewAt st p = (Some <$> l') ++ replicate (cap - length l') None.
Proof.
  intros HL E Ek Hr l'. apply list_eq. intros j.
  assert (Hlen : length l' = min cap (length l - cap * k)).
  { subst l'. by rewrite length_take, length_drop. }
  pose proof (length_viewAt cap st p ltac:(by apply (HL k))) as Hv.
  destruct (decide (j < cap)) as [Hj|Hj].
  - rewrite <- (chainView_lookup cap Hcap st ps k p j HL Ek Hj), E.
    destruct (decide (cap * k + j < length l)).
    + rewrite !lookup_app_l by (rewrite length_fmap; lia).
      rewrite !list_lookup_fmap. subst l'. rewrite lookup_take_lt by lia. by rewrite lookup_drop.
    + rewrite !(lookup_app_r (Some <$> _)) by (rewrite length_fmap; lia). rewrite !length_fmap.
      rewrite lookup_app_l by (rewrite length_replicate; lia).
      rewrite !lookup_replicate_2 by lia. done.
  - rewrite lookup_ge_None_2 by lia. symmetry. apply lookup_ge_None_2.
    rewrite length_app, length_fmap, length_replicate. lia.
Qed.

Lemma prefix_numEntries st ps l r rest k p s :
  linked st ps -> chainView st ps = (Some <$> l) ++ replicate r None ++ rest ->
  ps !! k = Some p -> cap * S k <= length l + r -> slotAt st p = Some s ->
  numEntries (header s) = min cap (length l - cap * k) /\
  countr_one (validityMask (header s)) = min cap (length l - cap * k).
Proof.
  intros HL E Ek Hr Es. destruct (HL k p Ek) as [(s' & Es' & Hw) _]. simplify_eq.
  pose proof (prefix_slot st ps l r rest k p HL E Ek Hr) as Hv. cbn in Hv.
  unfold InMemHashIndex.viewAt in Hv. rewrite Es in Hv.
  assert (Hl : length (take cap (drop (cap * k) l)) = min cap (length l - cap * k)).
  { by rewrite length_take, length_drop. }
  rewrite <- Hl. eapply gapless_counts; [done|done|done|]. lia.
Qed.

Lemma gapless_prefix st ps es k p :
  linked st ps -> gapless st ps es -> ps !! k = Some p ->
  exists r, chainView st ps = (Some <$> es) ++ replicate r None ++ [] /\ cap * S k <= length es + r.
Proof.
  intros HL [r E] Ek. exists r. rewrite app_nil_r. split; [done|].
  pose proof (length_chainView cap Hcap st ps HL) as Hc.
  rewrite E, length_app, length_fmap, length_replicate in Hc. pose proof (lookup_lt_Some _ _ _ Ek).
  assert (cap * S k <= cap * length ps) by (apply Nat.mul_le_mono_l; lia). lia.
Qed.

Lemma gapless_slot st ps es k p :
  linked st ps -> gapless st ps es -> ps !! k = Some p ->
  let es' := take cap (drop (cap * k) es) in
  viewAt st p = (Some <$> es') ++ replicate (cap - length es') None.
Proof.
  intros HL HG Ek. destruct (gapless_prefix st ps es k p HL HG Ek) as (r & E & Hr).
  by eapply prefix_slot.
Qed.

Lemma gapless_numEntries st ps es k p s :
  linked st ps -> gapless st ps es -> ps !! k = Some p -> slotAt st p = Some s ->
  numEntries (header s) = min cap (length es - cap * k) /\
  countr_one (validityMask (header s)) = min cap (length es - cap * k).
Proof.
  intros HL HG Ek. destruct (gapless_prefix st ps es k p HL HG Ek) as (r & E & Hr).
  by eapply prefix_numEntries.
Qed.

Lemma gapless_take st ps es m :
  linked st ps -> gapless st ps es -> m <= length ps -> length es <= cap * m ->
  gapless st (take m ps) es.
Proof.
  intros HL [r E] Hm Hlen. exists (cap * m - length es).
  assert (Ht : chainView st (take m ps) = take (cap * m) (chainView st ps)).
  { unfold InMemHashIndex.chainView at 2. rewrite <- (take_drop m ps) at 2.
    rewrite fmap_app, concat_app. symmetry. apply take_app_length'. symmetry.
    by apply linked_take_view. }
  rewrite Ht, E, take_app_ge by (by rewrite length_fmap). rewrite length_fmap, take_replicate.
  f_equal. f_equal. pose proof (length_chainView cap Hcap st ps HL) as Hc.
  rewrite E, length_app, length_fmap, length_replicate in Hc.
  assert (cap * m <= cap * length ps) by (apply Nat.mul_le_mono_l; lia). lia.
Qed.

(** ** Reclaiming *)
Section Reclaim.
Context (st : InMemHashIndex T) (ps : list slotPtr) (i : nat).
Context (es : list (Z * SlotEntry T)).
Context (Hps : ps !! 0 = Some (PSlot i)) (HO : Forall isO (tail ps)).
Context (HL : linked st ps) (HG : gapless st ps es).
Context (Hb : (Z.of_nat (length (oSlots st)) <= 2 ^ 32)%Z).

Lemma chain_primary k p : ps !! k = Some p -> slotType (infoOf p) = PRIMARY <-> k = 0.
Proof.
  destruct k as [|k]; intros E; [rewrite Hps in E; by simplify_eq|].
  assert (isO p) by (eapply Forall_lookup_1; [exact HO|]; by rewrite lookup_tail).
  by destruct p.
Qed.

(** Number of slots of the chain that are kept. *)
Definition keptSlots (m : nat) : Prop :=
  1 <= m <= length ps /\ (m = 1 \/ cap * (m - 1) < length es) /\ length es <= cap * m.

(** The iterator in front of position [m] of the chain. *)
Definition iterFrom (m : nat) (it : SlotIterator) : Prop :=
  match ps !! m with
  | Some q => it = iterAt q
  | None => slotInfo it = INVALID_OVF_INFO
  end.

Lemma skipNonEmpty_ok fuel :
  forall a p last,
  length ps - a <= fuel -> ps !! a = Some p ->
  (a = 0 \/ cap * a < length es \/
   (1 <= a /\ ps !! (a - 1) = Some last /\ (a = 1 \/ cap * (a - 1) < length es))) ->
  exists m it lp,
    skipNonEmpty fuel (iterAt p) last st = (Ok (it, lp), st) /\
    keptSlots m /\ ps !! (m - 1) = Some lp /\ iterFrom m it.
Proof.
  induction fuel as [|fuel IH]; intros a p last Hf E Ha.
  { apply lookup_lt_Some in E. lia. }
  pose proof (lookup_lt_Some _ _ _ E) as Hlt.
  destruct (HL a p E) as [(s & Es & Hw) _].
  destruct (gapless_numEntries st ps es a p s HL HG E Es) as [Hn _].
  cbn [skipNonEmpty iterAt slot slotInfo].
  rewrite (sbind_ok _ _ _ _ _ (readSlot_ok _ _ _ Es)), Hn.
  pose proof (chain_primary a p E) as Hprim.
  pose proof (gapless_length st ps es HL HG) as Htot.
  case_decide as Hd.
  - assert (a = 0 \/ cap * a < length es) as Hne.
    { destruct Hd as [Hd|Hd]; [right; lia|left; tauto]. }
    pose proof (nextChainedSlot_ok cap Hcap st ps a p (iterAt p) HL HO E eq_refl Hb) as Hnext.
    destruct (ps !! S a) as [q|] eqn:Eq; rewrite (sbind_ok _ _ _ _ _ Hnext).
    + apply (IH (S a) q p); [lia|done|]. right. right.
      replace (S a - 1) with a by lia. split; [lia|]. split; [done|].
      destruct Hne; [left; lia|by right].
    + unfold sret. cbn [slot]. exists (S a), (mkIter INVALID_OVF_INFO p), p.
      apply lookup_ge_None_1 in Eq. replace (S a - 1) with a by lia.
      split; [done|]. split; [|split; [done|]].
      * split; [lia|]. replace (S a - 1) with a by lia.
        replace (S a) with (length ps) by lia. split; [|done].
        destruct Hne; [left; lia|by right].
      * unfold iterFrom. rewrite lookup_ge_None_2 by lia. done.
  - destruct Ha as [->|[Ha|(Ha & El & Hne)]].
    { exfalso. apply Hd. right. by apply Hprim. }
    { exfalso. apply Hd. left. lia. }
    assert (length es <= cap * a).
    { destruct (decide (cap * a < length es)); [|lia]. exfalso. apply Hd. left. lia. }
    exists a, (iterAt p), last. unfold sret. split; [done|]. split; [|split; [done|]].
    + split; [lia|]. by split.
    + unfold iterFrom. by rewrite E.
Qed.

End Reclaim.

Lemma id_valid st p :
  isO p -> okAt st p -> (Z.of_nat (length (oSlots st)) <= 2 ^ 32)%Z ->
  slotId (infoOf p) <> INVALID_OVERFLOW_SLOT_ID /\ infoOf p <> INVALID_OVF_INFO.
Proof.
  intros HO Ho Hb. destruct p as [|j]; [done|]. pose proof (okAt_O cap _ _ Ho).
  assert (Z.of_nat j <> INVALID_OVERFLOW_SLOT_ID).
  { unfold INVALID_OVERFLOW_SLOT_ID. change (2 ^ 32)%Z with 4294967296%Z in Hb.
    change (2 ^ 64)%Z with 18446744073709551616%Z. lia. }
  split; [done|]. unfold INVALID_OVF_INFO. cbn. congruence.
Qed.

Lemma setFirstFree_twice a b hd : setFirstFree a (setFirstFree b hd) = setFirstFree a hd.
Proof. done. Qed.

Lemma setFirstFree_id hd : setFirstFree (firstFreeOverflowSlotId hd) hd = hd.
Proof. by destruct hd. Qed.

(** Pushing the slots [ds] on the free list [fs]. *)
Lemma freeSlots_ok fuel :
  forall ds fs st it,
  length ds <= fuel -> NoDup (ds ++ fs) -> Forall isO ds ->
  linked st ds -> linked st fs ->
  (forall p, p ∈ ds -> viewAt st p = replicate cap None) ->
  firstFreeOverflowSlotId (indexHeader st) = idOf (fs !! 0) ->
  (Z.of_nat (length (oSlots st)) <= 2 ^ 32)%Z ->
  match ds with p :: _ => it = iterAt p | [] => slotInfo it = INVALID_OVF_INFO end ->
  exists st', freeSlots fuel it st = (Ok tt, st') /\ keeps st st' /\
    linked st' (rev ds ++ fs) /\
    indexHeader st' = setFirstFree (idOf ((rev ds ++ fs) !! 0)) (indexHeader st) /\
    forall p, p ∉ ds -> sameAt st st' p.
Proof.
  induction fuel as [|fuel IH]; intros ds fs st it Hf HN HO HLd HLf Hv Hh Hb Hit.
  all: destruct ds as [|p ds]; cbn [freeSlots].
  1, 3: rewrite decide_True by done; exists st; cbn; rewrite <- Hh, setFirstFree_id; done.
  { cbn in Hf. lia. }
  subst it. inversion_clear HO as [|?? HOp HO'].
  destruct (HLd 0 p eq_refl) as [Hop Hnp]. pose proof Hop as (s & Es & Hw).
  destruct (id_valid st p HOp Hop Hb) as [Hid1 Hid2].
  rewrite decide_False by done.
  rewrite (sbind_ok _ _ _ _ _ (readSlot_ok _ _ _ Es)).
  assert (Hn0 : numEntries (header s) = 0).
  { eapply no_entries_view; [done..|]. specialize (Hv p (list_elem_of_here _ _)).
    unfold InMemHashIndex.viewAt in Hv. by rewrite Es in Hv. }
  rewrite Hn0, bool_decide_true by done. unfold kuAssert at 1, sret at 1, sbind at 1.
  cbn in HN. apply NoDup_cons in HN as [Hnin HN].
  assert (Hnin' : (p ∉ ds) /\ (p ∉ fs)) by (split; intros ?; apply Hnin, elem_of_app; tauto).
  (* clearNextOverflowAndAdvanceIter *)
  set (st1 := setSlot p (setNext s INVALID_OVERFLOW_SLOT_ID) st).
  assert (Es1 : slotAt st1 p = Some (setNext s INVALID_OVERFLOW_SLOT_ID))
    by (by eapply slotAt_setSlot_eq).
  assert (K1 : keeps st st1) by (by apply keeps_setNext).
  assert (exists it', clearNextOverflowAndAdvanceIter (iterAt p) st = (Ok (p, it'), st1) /\
     match ds with q :: _ => it' = iterAt q | [] => slotInfo it' = INVALID_OVF_INFO end)
    as (it' & Ec & Hit').
  { unfold clearNextOverflowAndAdvanceIter. cbn [iterAt slot].
    rewrite (sbind_ok _ _ _ _ _ (readSlot_ok _ _ _ Es)).
    rewrite (sbind_ok _ _ _ _ _ (modifySlot_ok _ _ _ _ Es)). fold st1.
    assert (Enx : nextOvfSlotId (header s) = idOf (ds !! 0)).
    { unfold nextAt in Hnp. by rewrite Es in Hnp. }
    rewrite Enx. destruct ds as [|q ds]; cbn [idOf lookup list_lookup].
    - rewrite decide_False by tauto. by eexists.
    - destruct (HLd 1 q eq_refl) as [Hoq _]. inversion_clear HO' as [|?? HOq _].
      destruct (id_valid st q HOq Hoq Hb) as [Hq _]. rewrite decide_True by done.
      assert (infoOf q = mkInfo (slotId (infoOf q)) OVF) as Hinf by (by destruct q).
      rewrite <- Hinf.
      rewrite (sbind_ok _ _ _ _ _ (getSlot_ok cap st1 q ltac:(by apply K1))).
      by eexists. }
  rewrite (sbind_ok _ _ _ _ _ Ec). cbn [iterAt slotInfo].
  rewrite decide_True by (by destruct p).
  rewrite bool_decide_true by done. unfold kuAssert at 1.
  set (st2 := setHeader (setFirstFree (slotId (infoOf p)) (indexHeader st))
                (setSlot p (setNext s (idOf (fs !! 0))) st)).
  match goal with |- context [sbind ?m _ st1] => assert (Em : m st1 = (Ok tt, st2)) end.
  { unfold sbind at 1, sret at 1. unfold sget, sbind at 1.
    rewrite (sbind_ok _ _ _ _ _ (modifySlot_ok _ _ _ _ Es1)).
    unfold updateHeader, smodify. srun. f_equal. subst st1 st2.
    rewrite !indexHeader_setSlot. rewrite Hh. clear. destruct p; cbn.
    all: unfold setHeader; cbn; by rewrite list_insert_insert_eq. }
  rewrite (sbind_ok _ _ _ _ _ Em).
  set (st2' := setSlot p (setNext s (idOf (fs !! 0))) st) in *.
  assert (K2 : keeps st st2).
  { eapply keeps_trans; [by apply keeps_setNext|apply keeps_setHeader]. }
  assert (Hsame : forall q, q <> p -> sameAt st st2 q).
  { intros q Hq. unfold sameAt, st2. rewrite slotAt_setHeader. by apply sameAt_setSlot. }
  destruct (IH ds (p :: fs) st2 it') as (st' & Er & K' & HL' & Hh' & Hs').
  - cbn in Hf. lia.
  - by rewrite <- Permutation_middle, NoDup_cons.
  - done.
  - apply linked_tail in HLd. eapply linked_same; [|done].
    intros q Hq. apply Hsame. set_unfold. intros ->. tauto.
  - apply linked_cons; [by apply K2| |].
    + unfold nextAt, st2. rewrite slotAt_setHeader. unfold st2'.
      by rewrite (slotAt_setSlot_eq _ _ _ _ Es).
    + eapply linked_same; [|done]. intros q Hq. apply Hsame. intros ->. tauto.
  - intros q Hq. rewrite (keeps_view _ _ K2). apply Hv. by right.
  - done.
  - by rewrite (keeps_o _ _ K2).
  - done.
  - exists st'. rewrite Er. split; [done|]. split; [by eapply keeps_trans|].
    cbn [rev]. rewrite <- app_assoc. split; [done|]. split.
    + rewrite Hh'. unfold st2. cbn [setHeader indexHeader]. by rewrite setFirstFree_twice.
    + intros q Hq. eapply sameAt_trans; [apply Hsame|apply Hs']; set_unfold; tauto.
Qed.

(** [reclaimOverflowSlots]: the chain is cut after its last slot with an entry, and
    the rest is on the free list. *)
Lemma reclaimOverflowSlots_ok st ps i es a p fs :
  ps !! 0 = Some (PSlot i) -> Forall isO (tail ps) -> linked st ps -> gapless st ps es ->
  (Z.of_nat (length (oSlots st)) <= 2 ^ 32)%Z -> NoDup (ps ++ fs) ->
  linked st fs -> firstFreeOverflowSlotId (indexHeader st) = idOf (fs !! 0) ->
  length ps <= S (length (oSlots st)) ->
  ps !! a = Some p -> (a = 0 \/ cap * a < length es) ->
  exists st' m, reclaimOverflowSlots (iterAt p) st = (Ok tt, st') /\
    keptSlots ps es m /\ keeps st st' /\
    linked st' (take m ps) /\ linked st' (rev (drop m ps) ++ fs) /\
    indexHeader st' = setFirstFree (idOf ((rev (drop m ps) ++ fs) !! 0)) (indexHeader st) /\
    forall q, q ∉ ps -> sameAt st st' q.
Proof.
  intros Hps HO HL HG Hb HN HLf Hh Hlen Ea Ha.
  destruct (HL a p Ea) as [Hop Hnp]. pose proof Hop as (s & Es & Hw).
  pose proof (lookup_lt_Some _ _ _ Ea). apply NoDup_app in HN as (HNp & Hdis & HNf).
  unfold reclaimOverflowSlots. cbn [iterAt slot].
  rewrite (sbind_ok _ _ _ _ _ (readSlot_ok _ _ _ Es)).
  assert (nextOvfSlotId (header s) = idOf (ps !! S a)) as -> by
    (unfold nextAt in Hnp; by rewrite Es in Hnp).
  destruct (ps !! S a) as [q|] eqn:Eq.
  - assert (isO q) as HOq by (eapply Forall_lookup_1; [exact HO|]; by rewrite lookup_tail).
    destruct (HL _ _ Eq) as [Hoq _]. destruct (id_valid st q HOq Hoq Hb) as [Hidq _].
    cbn [idOf]. rewrite decide_True by done. unfold sget at 1, sbind at 1.
    destruct (skipNonEmpty_ok st ps i es Hps HO HL HG Hb (chainFuel st) a p p)
      as (m & it & lp & Esk & Hm & Elp & Hit).
    { unfold chainFuel. lia. } { done. }
    { destruct Ha as [->|Ha]; [by left|by right; left]. }
    rewrite (sbind_ok _ _ _ _ _ Esk).
    destruct (HL (m - 1) lp Elp) as [(sl & Esl & Hwl) _].
    rewrite (sbind_ok _ _ _ _ _ (modifySlot_ok _ _ _ _ Esl)).
    set (st1 := setSlot lp (setNext sl INVALID_OVERFLOW_SLOT_ID) st).
    assert (K1 : keeps st st1) by (by apply keeps_setNext).
    assert (Hs1 : forall r, r <> lp -> sameAt st st1 r) by (intros; by apply sameAt_setSlot).
    pose proof Hm as (Hm1 & Hm2 & Hm3).
    assert (Hlp : lp ∈ ps) by (by eapply list_elem_of_lookup_2).
    assert (Hlpd : lp ∉ drop m ps).
    { intros (k & Ek)%list_elem_of_lookup_1. rewrite lookup_drop in Ek.
      pose proof (NoDup_lookup _ _ _ _ HNp Ek Elp). lia. }
    assert (Hsub : forall r, r ∈ drop m ps -> r ∈ ps).
    { intros r (k & Ek)%list_elem_of_lookup_1. rewrite lookup_drop in Ek.
      by eapply list_elem_of_lookup_2. }
    destruct (freeSlots_ok (chainFuel st) (drop m ps) fs st1 it)
      as (st' & Ef & K' & HL' & Hh' & Hs').
    + rewrite length_drop. unfold chainFuel. lia.
    + apply NoDup_app. split; [by eapply sublist_NoDup; [exact HNp|apply sublist_drop]|]. split; [|done].
      intros r Hr. by apply Hdis, Hsub.
    + apply Forall_lookup_2. intros k r Ek. rewrite lookup_drop in Ek.
      eapply Forall_lookup_1; [exact HO|]. rewrite lookup_tail. 
      by replace (S (m + k - 1)) with (m + k) by lia.
    + apply (linked_same cap st); [|by apply linked_drop].
      intros r Hr. apply Hs1. by intros ->.
    + apply (linked_same cap st); [|done]. intros r Hr. apply Hs1. intros ->.
      by apply (Hdis lp).
    + intros r (k & Ek)%list_elem_of_lookup_1. rewrite lookup_drop in Ek.
      rewrite (keeps_view _ _ K1), (gapless_slot st ps es _ _ HL HG Ek).
      rewrite drop_ge by (assert (cap * m <= cap * (m + k)) by (apply Nat.mul_le_mono_l; lia); lia).
      rewrite take_nil. cbn. by rewrite Nat.sub_0_r.
    + unfold st1. by rewrite indexHeader_setSlot.
    + by rewrite (keeps_o _ _ K1).
    + unfold iterFrom in Hit. rewrite <- (Nat.add_0_r m), <- lookup_drop in Hit.
      destruct (drop m ps); exact Hit.
    + exists st', m. split; [done|]. split; [done|]. split; [by eapply keeps_trans|].
      split; [|split; [done|split]].
      * replace m with (S (m - 1)) by lia.
        eapply (linked_take st st'); [done|exact Elp|by eapply keeps_trans| |].
        -- rewrite (sameAt_next _ _ _ (Hs' lp Hlpd)). by apply nextAt_setNext.
        -- intros r (k & Ek)%list_elem_of_lookup_1. apply lookup_take_Some in Ek as [Ek Hk].
           apply sameAt_next. eapply sameAt_trans; [apply Hs1|apply Hs'].
           ++ intros ->. pose proof (NoDup_lookup _ _ _ _ HNp Ek Elp). lia.
           ++ intros (k' & Ek')%list_elem_of_lookup_1. rewrite lookup_drop in Ek'.
              pose proof (NoDup_lookup _ _ _ _ HNp Ek Ek'). lia.
      * rewrite Hh'. unfold st1. by rewrite indexHeader_setSlot.
      * intros r Hr. eapply sameAt_trans; [apply Hs1|apply Hs']; [by intros ->|].
        intros Hr'. by apply Hr, Hsub.
  - cbn [idOf]. rewrite decide_False by tauto. apply lookup_ge_None_1 in Eq.
    exists st, (length ps). unfold sret.
    pose proof (gapless_length st ps es HL HG).
    rewrite drop_ge, take_ge by lia. cbn [rev app].
    split; [done|]. split; [|split; [done|]].
    + split; [lia|]. split; [|lia]. destruct Ha as [->|Ha]; [left; lia|].
      right. by replace (length ps - 1) with a by lia.
    + rewrite <- Hh, setFirstFree_id. done.
Qed.

(** ** Allocating an overflow slot *)
Definition freeListOK (st : InMemHashIndex T) (fs : list slotPtr) : Prop :=
  linked st fs /\ Forall isO fs /\ NoDup fs /\
  (forall p, p ∈ fs -> viewAt st p = replicate cap None) /\
  firstFreeOverflowSlotId (indexHeader st) = idOf (fs !! 0).

Lemma slotAt_grow st s q :
  q <> OSlot (length (oSlots st)) ->
  slotAt (mkIndex (pSlots st) (oSlots st ++ [s]) (indexHeader st)) q = slotAt st q.
Proof.
  destruct q as [|j]; cbn; [done|]. intros Hj.
  destruct (decide (j < length (oSlots st))); [by apply lookup_app_l|].
  rewrite lookup_ge_None_2, lookup_ge_None_2; [done|lia|].
  rewrite length_app. cbn. assert (j <> length (oSlots st)) by congruence. lia.
Qed.

Lemma allocateAOSlot_ok st fs :
  freeListOK st fs -> (Z.of_nat (length (oSlots st)) < 2 ^ 32)%Z ->
  exists st' j fs', allocateAOSlot zero cap st = (Ok (Z.of_nat j), st') /\
    okAt st' (OSlot j) /\ viewAt st' (OSlot j) = replicate cap None /\
    nextAt st' (OSlot j) = INVALID_OVERFLOW_SLOT_ID /\
    (forall q, q <> OSlot j -> sameAt st st' q) /\
    freeListOK st' fs' /\ (OSlot j ∉ fs') /\
    indexHeader st' = setFirstFree (idOf (fs' !! 0)) (indexHeader st) /\
    pSlots st' = pSlots st /\
    ((fs = [] /\ fs' = [] /\ j = length (oSlots st) /\
      length (oSlots st') = S (length (oSlots st))) \/
     (fs = OSlot j :: fs' /\ length (oSlots st') = length (oSlots st))).
Proof.
  intros (HL & HO & HN & Hv & Hh) Hb. unfold allocateAOSlot, sget, sbind at 1. rewrite Hh.
  destruct fs as [|p fs]; cbn [lookup list_lookup].
  - rewrite decide_True by done. unfold sput, sret, sbind.
    set (st' := mkIndex _ _ _). exists st', (length (oSlots st)), [].
    rewrite wrapU_id by (split; lia).
    assert (E : slotAt st' (OSlot (length (oSlots st))) = Some (newSlot cap zero)).
    { cbn. by rewrite lookup_app_r, Nat.sub_diag by lia. }
    unfold InMemHashIndex.okAt, InMemHashIndex.viewAt, nextAt. rewrite E.
    split; [done|]. split; [eauto using wf_newSlot|]. split; [by apply slotView_newSlot|].
    split; [done|]. split; [intros q Hq; by apply slotAt_grow|].
    split. { split; [done|]. split; [done|]. split; [constructor|].
      split; [intros ? ?%elem_of_nil; done|]. done. }
    split; [apply not_elem_of_nil|]. rewrite <- Hh. cbn [st' indexHeader]. rewrite setFirstFree_id.
    split; [done|]. split; [done|]. left. unfold st'. cbn [oSlots]. by rewrite length_app, Nat.add_comm.
  - destruct p as [|j]; [by inversion_clear HO|].
    destruct (HL 0 (OSlot j) eq_refl) as [Hoj Hnj]. pose proof Hoj as (s & Es & Hw).
    assert (Hb' : (Z.of_nat (length (oSlots st)) <= 2 ^ 32)%Z) by lia.
    destruct (id_valid st (OSlot j) I Hoj Hb') as [Hid _].
    cbn [idOf infoOf slotId] in *. rewrite decide_False by done.
    rewrite Nat2Z.id, (sbind_ok _ _ _ _ _ (readSlot_ok _ _ _ Es)).
    unfold smodify, sbind at 1.
    assert (Hn0 : numEntries (header s) = 0).
    { eapply no_entries_view; [done..|]. specialize (Hv _ (list_elem_of_here _ _)).
      unfold InMemHashIndex.viewAt in Hv. by rewrite Es in Hv. }
    rewrite Hn0, bool_decide_true by done. unfold kuAssert, sret at 1, sbind at 1.
    assert (Es1 : slotAt (setHeader (setFirstFree (nextOvfSlotId (header s)) (indexHeader st)) st)
              (OSlot j) = Some s) by done.
    rewrite (sbind_ok _ _ _ _ _ (modifySlot_ok _ _ _ _ Es1)).
    pose proof (okAt_O cap _ _ Hoj). rewrite wrapU_id by (split; lia).
    set (st' := setSlot _ _ _). apply NoDup_cons in HN as [Hnin HN].
    assert (Hs : forall q, q <> OSlot j -> sameAt st st' q).
    { intros q Hq. unfold sameAt, st'. rewrite slotAt_setSlot_ne by done. by rewrite slotAt_setHeader. }
    assert (K : keeps st st').
    { eapply keeps_trans; [apply keeps_setHeader|]. by apply keeps_setNext. }
    assert (Hh' : indexHeader st' = setFirstFree (idOf (fs !! 0)) (indexHeader st)).
    { unfold st'. rewrite indexHeader_setSlot. cbn. unfold nextAt in Hnj. rewrite Es in Hnj.
      by rewrite Hnj. }
    exists st', j, fs. unfold sret. split; [done|].
    split; [by apply K|]. split; [rewrite (keeps_view _ _ K); apply Hv; by left|].
    split; [by apply (nextAt_setNext (setHeader _ st) (OSlot j) s)|].
    split; [done|]. split; [|split; [done|split; [done|split; [done|]]]].
    + apply linked_tail in HL. inversion_clear HO.
      split; [|split; [done|split; [done|split]]].
      * apply (linked_same cap st); [|done]. intros q Hq. apply Hs. by intros ->.
      * intros q Hq. rewrite (keeps_view _ _ K). apply Hv. by right.
      * by rewrite Hh'.
    + right. split; [done|]. apply K.
Qed.

(** *** Linking a new overflow slot behind the last slot of a chain *)
Lemma last_split (qs : list slotPtr) q :
  qs !! (length qs - 1) = Some q -> exists qs0, qs = qs0 ++ [q] /\ length qs0 = length qs - 1.
Proof.
  intros E. pose proof (lookup_lt_Some _ _ _ E). exists (take (length qs - 1) qs).
  rewrite length_take. split; [|lia].
  rewrite <- (take_drop_middle qs _ _ E) at 1. by rewrite drop_ge by lia.
Qed.

Record linkedNew st st' (qs fs fs' : list slotPtr) (lq : slotPtr) (j : nat) : Prop := {
  ln_chain : linked st' (qs ++ [OSlot j]);
  ln_view : viewAt st' (OSlot j) = replicate cap None;
  ln_views : forall q, q <> OSlot j -> viewAt st' q = viewAt st q;
  ln_ok : forall q, okAt st q -> okAt st' q;
  ln_same : forall q, q <> OSlot j -> q <> lq -> sameAt st st' q;
  ln_free : freeListOK st' fs';
  ln_notin : (OSlot j ∉ qs) /\ (OSlot j ∉ fs');
  ln_header : indexHeader st' = setFirstFree (idOf (fs' !! 0)) (indexHeader st);
  ln_p : length (pSlots st') = length (pSlots st);
  ln_case : (fs = [] /\ fs' = [] /\ j = length (oSlots st) /\
      length (oSlots st') = S (length (oSlots st))) \/
     (fs = OSlot j :: fs' /\ length (oSlots st') = length (oSlots st));
}.

Lemma linkNew_ok st qs fs lq :
  freeListOK st fs -> (Z.of_nat (length (oSlots st)) < 2 ^ 32)%Z ->
  linked st qs -> NoDup qs -> qs !! (length qs - 1) = Some lq ->
  (forall q, q ∈ qs -> q ∉ fs) ->
  exists st1 st2 j fs', allocateAOSlot zero cap st = (Ok (Z.of_nat j), st1) /\
    modifySlot lq (fun s => setNext s (Z.of_nat j)) st1 = (Ok tt, st2) /\
    linkedNew st st2 qs fs fs' lq j.
Proof.
  intros Hfree Hb HLq HNq Hlast Hdq.
  destruct (allocateAOSlot_ok st fs Hfree Hb)
    as (st1 & j & fs' & Ea & Hoj & Hvj & Hnj & Hs1 & Hf1 & Hjf & Hh1 & Hp1 & Hcase).
  destruct (last_split qs _ Hlast) as (qs0 & Eqs & Hlen0).
  assert (Hjnot : OSlot j ∉ qs).
  { destruct Hcase as [(Ef & _ & -> & _)|[Ef _]]; intros Hin.
    - pose proof (linked_ok cap _ _ _ HLq Hin) as Hx. apply okAt_O in Hx. lia.
    - apply (Hdq _ Hin). rewrite Ef. by left. }
  assert (Hlq : lq ∈ qs) by (by eapply list_elem_of_lookup_2).
  assert (Hlqj : lq <> OSlot j) by (intros Hx; apply Hjnot; by rewrite <- Hx).
  destruct (HLq _ _ Hlast) as [(s & Es & Hw) _].
  assert (Es1 : slotAt st1 lq = Some s) by (rewrite <- Es; by apply Hs1).
  set (st2 := setSlot lq (setNext s (Z.of_nat j)) st1).
  assert (K2 : keeps st1 st2) by (by apply keeps_setNext).
  assert (Hs2 : forall q, q <> OSlot j -> q <> lq -> sameAt st st2 q).
  { intros q H1 H2. eapply sameAt_trans; [by apply Hs1|by apply sameAt_setSlot]. }
  assert (Hok2 : forall q, okAt st q -> okAt st2 q).
  { intros q Hq. apply K2. destruct (decide (q = OSlot j)) as [->|Hqj]; [done|].
    by eapply sameAt_ok; [apply Hs1|]. }
  exists st1, st2, j, fs'. split; [done|].
  split; [by rewrite (modifySlot_ok _ _ _ _ Es1)|]. split.
  - subst qs. apply NoDup_app in HNq as (HN0 & Hx & _).
    rewrite <- app_assoc. apply (linked_snoc st st2 qs0 lq (OSlot j)); try done.
    + intros r _. apply Hok2.
    + intros r Hr. apply sameAt_next, Hs2.
      * intros ->. apply Hjnot, elem_of_app. by left.
      * intros ->. apply (Hx lq Hr). by left.
    + by apply nextAt_setNext.
    + by apply K2.
    + rewrite (sameAt_next st1 st2); [done|]. by apply sameAt_setSlot.
  - by rewrite (keeps_view _ _ K2).
  - intros q Hq. rewrite (keeps_view _ _ K2). by apply sameAt_view, Hs1.
  - done.
  - done.
  - destruct Hf1 as (HL & HO & HN & Hv & Hhd). split; [|split; [done|split; [done|split]]].
    + apply (linked_same cap st1); [|done]. intros q Hq. apply sameAt_setSlot.
      intros ->. apply (Hdq lq Hlq). destruct Hcase as [(-> & -> & _)|[-> _]]; [done|by right].
    + intros q Hq. rewrite (keeps_view _ _ K2). auto.
    + unfold st2. by rewrite indexHeader_setSlot.
  - done.
  - unfold st2. by rewrite indexHeader_setSlot.
  - rewrite (keeps_p _ _ K2). by rewrite Hp1.
  - by rewrite (keeps_o _ _ K2).
Qed.

(** ** Views of the chain during the split *)
Lemma view_move {A} (l : list A) k y rest :
  length l <= k ->
  <[k := None]> ((Some <$> l) ++ replicate (k - length l) None ++ y :: rest) =
    (Some <$> l) ++ replicate (S k - length l) None ++ rest.
Proof.
  intros Hl. rewrite insert_app_r_alt by (rewrite length_fmap; lia). rewrite length_fmap.
  f_equal. rewrite insert_app_r_alt by (rewrite length_replicate; lia).
  rewrite length_replicate, Nat.sub_diag. cbn.
  replace (S k - length l) with ((k - length l) + 1) by lia.
  by rewrite replicate_add, <- app_assoc.
Qed.

Lemma view_fill {A} (l : list A) x r rest :
  <[length l := Some x]> ((Some <$> l) ++ replicate (S r) None ++ rest) =
    (Some <$> l ++ [x]) ++ replicate r None ++ rest.
Proof.
  rewrite insert_app_r_alt by (rewrite length_fmap; lia).
  rewrite length_fmap, Nat.sub_diag. cbn. by rewrite fmap_app, <- app_assoc.
Qed.

Lemma view_fill_end {A} (l : list A) x r :
  <[length l := Some x]> ((Some <$> l) ++ replicate (S r) None) =
    (Some <$> l ++ [x]) ++ replicate r None.
Proof.
  pose proof (view_fill l x r []) as E. by rewrite !app_nil_r in E.
Qed.

(** The last slot of a gapless chain, seen through its length. *)
Lemma gapless_replicate st ps es :
  linked st ps -> gapless st ps es ->
  chainView st ps = (Some <$> es) ++ replicate (cap * length ps - length es) None.
Proof.
  intros HL [r E]. rewrite E. f_equal. f_equal.
  rewrite <- (length_chainView cap Hcap st ps HL), E, length_app, length_fmap, length_replicate. lia.
Qed.

Lemma gapless_snoc st st' ps p q es :
  linked st (ps ++ [p]) -> gapless st (ps ++ [p]) es ->
  (forall r, r ∈ ps ++ [p] -> viewAt st' r = viewAt st r) ->
  viewAt st' q = replicate cap None -> gapless st' (ps ++ [p; q]) es.
Proof.
  intros HL [r E] Hv Hq. exists (r + cap).
  change [p; q] with ([p] ++ [q]). rewrite app_assoc. unfold InMemHashIndex.chainView.
  rewrite fmap_app, concat_app. cbn. rewrite Hq, app_nil_r.
  rewrite replicate_add, app_assoc, <- E. f_equal. by apply chainView_ext.
Qed.

(** Appending an entry to a chain without gaps, in its last slot. *)
Lemma gapless_append st st' ps k p j fp e es :
  linked st ps -> NoDup ps -> gapless st ps es -> ps !! k = Some p -> j < cap ->
  length es = cap * k + j ->
  (forall q, q ∈ ps -> q <> p -> viewAt st' q = viewAt st q) ->
  viewAt st' p = <[j := Some (fp, e)]> (viewAt st p) ->
  gapless st' ps (es ++ [(fp, e)]).
Proof.
  intros HL HN HG E Hj Hlen Hq Hp. pose proof (lookup_lt_Some _ _ _ E).
  assert (cap * S k <= cap * length ps) by (apply Nat.mul_le_mono_l; lia).
  exists (cap * length ps - S (length es)).
  rewrite (chainView_insert cap Hcap st st' ps k p j (Some (fp, e)) HL HN E Hj Hq Hp).
  rewrite (gapless_replicate st ps es HL HG), <- Hlen.
  replace (cap * length ps - length es) with (S (cap * length ps - S (length es))) by lia.
  apply view_fill_end.
Qed.

Lemma filter_partition {A} (f : A -> bool) l :
  List.filter f l ++ List.filter (fun x => negb (f x)) l ≡ₚ l.
Proof.
  induction l as [|x l IH]; cbn; [done|].
  destruct (f x); cbn; [by rewrite IH|]. by rewrite <- Permutation_middle, IH.
Qed.

(** ** Writing one position of a slot *)
Record cellWrite st st' p (pos : nat) (x : option (Z * SlotEntry T)) : Prop := {
  cw_ok : forall q, okAt st q -> okAt st' q;
  cw_next : forall q, nextAt st' q = nextAt st q;
  cw_view : viewAt st' p = <[pos := x]> (viewAt st p);
  cw_same : forall q, q <> p -> sameAt st st' q;
  cw_header : indexHeader st' = indexHeader st;
  cw_p : length (pSlots st') = length (pSlots st);
  cw_o : length (oSlots st') = length (oSlots st);
}.

Lemma cellWrite_setSlot st p pos x s s' :
  slotAt st p = Some s -> wfSlot cap s' -> nextOvfSlotId (header s') = nextOvfSlotId (header s) ->
  slotView cap s' = <[pos := x]> (slotView cap s) -> cellWrite st (setSlot p s' st) p pos x.
Proof.
  intros E Hw Hn Hv. pose proof (slotAt_setSlot_eq p s' s st E) as E'. split.
  - intros q (sq & Eq & Hq). unfold InMemHashIndex.okAt. destruct (decide (q = p)) as [->|].
    + rewrite E'. eauto.
    + rewrite slotAt_setSlot_ne by done. eauto.
  - intros q. unfold nextAt. destruct (decide (q = p)) as [->|].
    + by rewrite E', E.
    + by rewrite slotAt_setSlot_ne.
  - unfold InMemHashIndex.viewAt. by rewrite E', E.
  - intros q Hq. by apply sameAt_setSlot.
  - apply indexHeader_setSlot.
  - apply length_pSlots_setSlot.
  - apply length_oSlots_setSlot.
Qed.

Lemma writeEntry_cell st p pos e fp :
  okAt st p -> pos < cap ->
  exists st', writeEntry p pos e fp st = (Ok tt, st') /\ cellWrite st st' p pos (Some (fp, e)).
Proof.
  intros (s & E & Hw) Hp. eexists. split; [by eapply writeEntry_ok|].
  eapply cellWrite_setSlot; [done|by apply wf_putEntry|done|by apply slotView_putEntry].
Qed.

Lemma dropEntry_cell st p pos :
  okAt st p -> pos < cap ->
  exists st', modifySlot p (fun s => dropEntry s pos) st = (Ok tt, st') /\
    cellWrite st st' p pos None.
Proof.
  intros (s & E & Hw) Hp. eexists. split; [by eapply modifySlot_ok|].
  eapply cellWrite_setSlot; [done|by apply wf_dropEntry|done|by apply slotView_dropEntry].
Qed.

Lemma linked_cell st st' p pos x ps :
  cellWrite st st' p pos x -> linked st ps -> linked st' ps.
Proof. intros C. apply linked_ext. intros q _ Ho. split; [by apply C|apply C]. Qed.

Lemma view_cell st st' p pos x q : cellWrite st st' p pos x -> q <> p -> viewAt st' q = viewAt st q.
Proof. intros C Hq. by apply sameAt_view, C. Qed.

Lemma chainView_cell st st' p pos x ps k :
  cellWrite st st' p pos x -> linked st ps -> NoDup ps -> ps !! k = Some p -> pos < cap ->
  chainView st' ps = <[cap * k + pos := x]> (chainView st ps).
Proof.
  intros C HL HN E Hp. eapply chainView_insert; [done..| |apply C].
  intros q _ Hq. by eapply view_cell.
Qed.

Lemma chainView_cell_ne st st' p pos x ps :
  cellWrite st st' p pos x -> p ∉ ps -> chainView st' ps = chainView st ps.
Proof.
  intros C Hp. apply chainView_ext. intros q Hq. eapply view_cell; [done|]. by intros ->.
Qed.

Lemma gapless_cell_ne st st' p pos x ps es :
  cellWrite st st' p pos x -> p ∉ ps -> gapless st ps es -> gapless st' ps es.
Proof. intros C Hp [r E]. exists r. by rewrite (chainView_cell_ne _ _ _ _ _ _ C Hp). Qed.

Lemma freeListOK_cell st st' p pos x fs :
  cellWrite st st' p pos x -> p ∉ fs -> freeListOK st fs -> freeListOK st' fs.
Proof.
  intros C Hp (HL & HO & HN & Hv & Hh). split; [by eapply linked_cell|].
  split; [done|]. split; [done|]. split.
  - intros q Hq. rewrite (view_cell _ _ _ _ _ _ C); [auto|]. by intros ->.
  - by rewrite (cw_header _ _ _ _ _ C).
Qed.

(** [skipValid] stops at the first gap of the chain. *)
Lemma skipValid_ok st ps fuel :
  forall a p pos g,
  linked st ps -> Forall isO (tail ps) -> (Z.of_nat (length (oSlots st)) <= 2 ^ 32)%Z ->
  ps !! a = Some p -> pos < cap -> cap * a + pos <= g -> g < cap * length ps ->
  (forall x, x < g -> exists y, chainView st ps !! x = Some (Some y)) ->
  chainView st ps !! g = Some None -> g - (cap * a + pos) < fuel ->
  exists a' p' pos', skipValid cap fuel (iterAt p) pos st = (Ok (iterAt p', pos'), st) /\
    ps !! a' = Some p' /\ pos' < cap /\ cap * a' + pos' = g.
Proof.
  induction fuel as [|fuel IH]; intros a p pos g HL HO Hb E Hpos Hle Hg Hv Hgv Hf; [lia|].
  destruct (HL a p E) as [(s & Es & Hw) _]. cbn [skipValid iterAt slot].
  rewrite (sbind_ok _ _ _ _ _ (readSlot_ok _ _ _ Es)).
  rewrite (view_valid cap Hcap s pos Hpos Hw).
  assert (Ev : slotView cap s !! pos = chainView st ps !! (cap * a + pos)).
  { rewrite (chainView_lookup cap Hcap st ps a p pos HL E Hpos).
    unfold InMemHashIndex.viewAt. by rewrite Es. }
  rewrite Ev. destruct (decide (cap * a + pos = g)) as [<-|Hne].
  - rewrite Hgv. exists a, p, pos. done.
  - destruct (Hv (cap * a + pos)) as [y ->]; [lia|]. case_decide as Hc.
    + assert (cap * a + cap <= g) by lia.
      destruct (ps !! S a) as [q|] eqn:Eq.
      * pose proof (nextChainedSlot_ok cap Hcap st ps a p (iterAt p) HL HO E eq_refl Hb) as Hn.
        rewrite Eq in Hn. rewrite (sbind_ok _ _ _ _ _ Hn). cbn [iterAt].
        apply (IH (S a) q 0 g); try done; lia.
      * apply lookup_ge_None_1 in Eq. exfalso.
        assert (cap * length ps <= cap * S a) by (apply Nat.mul_le_mono_l; lia). lia.
    + apply (IH a p (S pos) g); try done; lia.
Qed.

(** ** The loop of [splitSlot] *)
Section SplitLoop.
(** The state after the new primary slot was added, the chain to split with its
    entries, the free list, and the ids of the two primary slots. *)
Context (st0 : InMemHashIndex T) (ps : list slotPtr) (es : list (Z * SlotEntry T)).
Context (fs0 : list slotPtr) (i n : nat).
Context (Hps : ps !! 0 = Some (PSlot i)) (HOps : Forall isO (tail ps)).
Context (HL0 : linked st0 ps) (HG0 : gapless st0 ps es).
Context (Hfp : Forall (fun x => x.1 = getFingerprintForHash (hash (key x.2))) es).
Context (Hb0 : (Z.of_nat (length (oSlots st0)) + Z.of_nat (length es) < 2 ^ 32)%Z).
Context (Hpslen : length ps <= S (length (oSlots st0))).
Context (Hhd0 : headerOK (indexHeader st0) n) (Hn30 : (Z.of_nat n + 1 < 2 ^ 30)%Z).

(** An entry stays when the wider mask selects the slot to split. *)
Definition stay (x : Z * SlotEntry T) : bool :=
  bool_decide (Z.land (hash (key x.2)) (higherLevelHashMask (indexHeader st0)) =
               nextSplitSlotId (indexHeader st0)).
Definition stays (k : nat) : list (Z * SlotEntry T) := List.filter stay (take k es).
Definition moves (k : nat) : list (Z * SlotEntry T) :=
  List.filter (fun x => negb (stay x)) (take k es).

Lemma stays_moves_length k : k <= length es -> length (stays k) + length (moves k) = k.
Proof.
  intros Hk. unfold stays, moves.
  by rewrite <- length_app, (Permutation_length (filter_partition _ _)), length_take_le.
Qed.

Lemma stays_moves_perm : stays (length es) ++ moves (length es) ≡ₚ es.
Proof using Type. unfold stays, moves. rewrite firstn_all. apply filter_partition. Qed.

Lemma stays_S k x :
  es !! k = Some x -> stays (S k) = stays k ++ (if stay x then [x] else []).
Proof.
  intros E. unfold stays. rewrite (take_S_r _ _ _ E), List.filter_app. cbn. by destruct (stay x).
Qed.

Lemma moves_S k x :
  es !! k = Some x -> moves (S k) = moves k ++ (if stay x then [] else [x]).
Proof.
  intros E. unfold moves. rewrite (take_S_r _ _ _ E), List.filter_app. cbn. by destruct (stay x).
Qed.

(** The view of the chain after [k] entries. *)
Definition viewAfter (k : nat) : list (option (Z * SlotEntry T)) :=
  (Some <$> stays k) ++ replicate (k - length (stays k)) None ++ drop k (chainView st0 ps).

Definition freshSlots (c : nat) : list slotPtr := OSlot <$> seq (length (oSlots st0)) c.

Record splitInv (k : nat) (st : InMemHashIndex T) (v : SplitVars)
    (qs fs : list slotPtr) (c : nat) : Prop := {
  si_header : indexHeader st = setFirstFree (idOf (fs !! 0)) (indexHeader st0);
  si_ps : linked st ps;
  si_view : chainView st ps = viewAfter k;
  si_qs : linked st qs;
  si_q0 : qs !! 0 = Some (PSlot n);
  si_qO : Forall isO (tail qs);
  si_moves : gapless st qs (moves k);
  si_new : qs !! (length qs - 1) = Some (slot (newSlotIter v));
  si_newpos : cap * (length qs - 1) + newSlotPos v = length (moves k);
  si_newle : newSlotPos v <= cap;
  si_gaps : gaps v = bool_decide (length (stays k) < k);
  si_insert : exists a p, ps !! a = Some p /\ originalSlotForInsert v = iterAt p /\
    entryPosToInsert v < cap /\
    (a = 0 /\ entryPosToInsert v = 0 \/ cap * a + entryPosToInsert v < length (stays k));
  si_free : freeListOK st fs;
  si_disj : NoDup (ps ++ qs ++ fs);
  si_perm : tail qs ++ fs ≡ₚ fs0 ++ freshSlots c;
  si_olen : length (oSlots st) = length (oSlots st0) + c;
  si_fresh : c = 0 \/ fs = [];
  si_plen : length (pSlots st) = length (pSlots st0);
  si_frame : forall p, p ∉ ps -> p ∉ qs -> p ∉ fs -> sameAt st0 st p;
}.

Lemma length_view0 : length (chainView st0 ps) = cap * length ps.
Proof. by apply length_chainView. Qed.

Lemma view0_lookup k x : es !! k = Some x -> chainView st0 ps !! k = Some (Some x).
Proof.
  intros E. destruct HG0 as [r ->]. rewrite lookup_app_l.
  - by rewrite list_lookup_fmap, E.
  - rewrite length_fmap. by apply lookup_lt_Some in E.
Qed.

Lemma length_stays_le k : length (stays k) <= k.
Proof.
  unfold stays. pose proof (List.filter_length_le stay (take k es)).
  rewrite length_take in *. lia.
Qed.

(** What is at the visited position: it has not been touched yet. *)
Lemma viewAfter_current k : viewAfter k !! k = chainView st0 ps !! k.
Proof.
  pose proof (length_stays_le k). unfold viewAfter.
  rewrite app_assoc, lookup_app_r by (rewrite length_app, length_fmap, length_replicate; lia).
  rewrite length_app, length_fmap, length_replicate, lookup_drop. f_equal. lia.
Qed.

Lemma splitInv_bound k st v qs fs c :
  k <= length es -> splitInv k st v qs fs c -> (Z.of_nat (length (oSlots st)) < 2 ^ 32)%Z.
Proof.
  intros Hk HI. rewrite (si_olen _ _ _ _ _ _ HI).
  destruct (si_fresh _ _ _ _ _ _ HI) as [->|Hfs]; [lia|].
  pose proof (si_perm _ _ _ _ _ _ HI) as Hp. rewrite Hfs, app_nil_r in Hp.
  apply Permutation_length in Hp. rewrite length_app in Hp.
  unfold freshSlots in Hp. rewrite length_fmap, length_seq in Hp.
  pose proof (si_newpos _ _ _ _ _ _ HI). pose proof (stays_moves_length k Hk).
  assert (length (tail qs) = length qs - 1) by (by destruct qs; cbn; lia).
  assert (1 * (length qs - 1) <= cap * (length qs - 1)) by (apply Nat.mul_le_mono_r; lia).
  lia.
Qed.

Definition withNew (v : SplitVars) (it : SlotIterator) (pos : nat) : SplitVars :=
  mkSplit (originalSlot v) (originalSlotForInsert v) (entryPosToInsert v) it pos (gaps v).

Lemma disj_facts (qs fs : list slotPtr) :
  NoDup (ps ++ qs ++ fs) ->
  NoDup ps /\ NoDup qs /\ NoDup fs /\
  (forall p, p ∈ ps -> (p ∉ qs) /\ (p ∉ fs)) /\ (forall p, p ∈ qs -> p ∉ fs).
Proof.
  intros (H1 & H2 & (H3 & H4 & H5)%NoDup_app)%NoDup_app.
  split; [done|]. split; [done|]. split; [done|]. split; [|done].
  intros p Hp. split; intros Hp'; apply (H2 p Hp), elem_of_app; tauto.
Qed.

(** The new chain's last slot is full: a slot is allocated and linked behind it. *)
Lemma advanceNew_ok k st v qs fs c :
  k <= length es -> splitInv k st v qs fs c -> newSlotPos v = cap ->
  exists st' j fs' c',
    (newOvfSlotId <- allocateAOSlot zero cap ;;
     modifySlot (slot (newSlotIter v)) (fun s => setNext s newOvfSlotId) ;;;
     do (_, newSlot) <- nextChainedSlot (newSlotIter v) ;;
     sret (newSlot, 0)) st = (Ok (iterAt (OSlot j), 0), st') /\
    splitInv k st' (withNew v (iterAt (OSlot j)) 0) (qs ++ [OSlot j]) fs' c'.
Proof.
  intros Hk HI Hfull. pose proof (splitInv_bound _ _ _ _ _ _ Hk HI) as Hb.
  destruct HI as [Hh HLp Hvp HLq Hq0 HqO HGq Hnew Hnp Hnle Hgaps Hins Hfree Hdis Hperm Hol Hfr Hpl Hframe].
  destruct (disj_facts _ _ Hdis) as (HNp & HNq & HNf & Hdp & Hdq).
  destruct (linkNew_ok st qs fs _ Hfree Hb HLq HNq Hnew Hdq) as (st1 & st2 & j & fs' & E1 & E2 & LN).
  rewrite (sbind_ok _ _ _ _ _ E1), (sbind_ok _ _ _ _ _ E2).
  pose proof (ln_case _ _ _ _ _ _ _ LN) as Hcase. pose proof (lookup_lt_Some _ _ _ Hnew) as Hlt.
  assert (HqO2 : Forall isO (tail (qs ++ [OSlot j]))).
  { destruct qs; [done|]. cbn. apply Forall_app. split; [done|by repeat constructor]. }
  assert (Hnext : nextChainedSlot (newSlotIter v) st2 = (Ok (true, iterAt (OSlot j)), st2)).
  { erewrite (nextChainedSlot_ok cap Hcap st2 (qs ++ [OSlot j]) (length qs - 1));
      [|apply LN|done| |reflexivity|destruct Hcase as [(_ & _ & _ & ->)|[_ ->]]; lia].
    - replace (S (length qs - 1)) with (length qs) by lia.
      by rewrite lookup_app_r, Nat.sub_diag by lia.
    - by rewrite lookup_app_l. }
  rewrite (sbind_ok _ _ _ _ _ Hnext). unfold sret.
  exists st2, j, fs', (if decide (fs = []) then S c else c). split; [done|].
  assert (Hjp : OSlot j ∉ ps).
  { destruct Hcase as [(Ef & _ & -> & _)|[Ef _]]; intros Hin.
    - pose proof (linked_ok cap _ _ _ HLp Hin) as Hx. apply okAt_O in Hx. lia.
    - apply (proj2 (Hdp _ Hin)). rewrite Ef. by left. }
  assert (Hlqp : forall p, p ∈ ps -> p <> slot (newSlotIter v)).
  { intros p Hp ->. by apply (proj1 (Hdp _ Hp)), (list_elem_of_lookup_2 _ _ _ Hnew). }
  assert (Hjp' : forall p, p ∈ ps -> p <> OSlot j) by (intros p Hp ->; done).
  split; cbn [withNew newSlotIter newSlotPos gaps originalSlotForInsert entryPosToInsert iterAt slot].
  - rewrite (ln_header _ _ _ _ _ _ _ LN), Hh. done.
  - apply (linked_same cap st); [|done]. intros p Hp. apply LN; auto.
  - rewrite <- Hvp. apply chainView_ext. intros p Hp. apply LN; auto.
  - apply LN.
  - by rewrite lookup_app_l by (by apply lookup_lt_Some in Hq0).
  - done.
  - destruct (last_split qs _ Hnew) as (qs0 & Eqs & _). rewrite Eqs, <- app_assoc.
    eapply (gapless_snoc st); [by rewrite <- Eqs|by rewrite <- Eqs| |apply LN].
    rewrite <- Eqs. intros r Hr. apply LN. intros ->. by apply (proj1 (ln_notin _ _ _ _ _ _ _ LN)).
  - rewrite length_app. cbn. rewrite Nat.add_sub, lookup_app_r, Nat.sub_diag by lia. done.
  - rewrite length_app. cbn. rewrite Nat.add_sub. rewrite <- Hnp, Hfull.
    replace (length qs) with (S (length qs - 1)) at 1 by lia. lia.
  - lia.
  - done.
  - done.
  - apply LN.
  - destruct (ln_notin _ _ _ _ _ _ _ LN) as [Hjq Hjf].
    rewrite <- app_assoc. cbn. rewrite <- Permutation_middle.
    destruct Hcase as [(-> & -> & _)|[-> _]].
    + rewrite app_nil_r. rewrite app_nil_r in Hdis. rewrite <- Permutation_middle.
      apply NoDup_cons. split; [|done]. rewrite elem_of_app. tauto.
    + rewrite <- Permutation_middle in Hdis |- *. by rewrite <- Permutation_middle in Hdis.
  - destruct qs as [|q0 qs']; [done|]. cbn [app tail] in Hperm |- *.
    destruct Hcase as [(-> & -> & -> & _)|[-> _]].
    + rewrite decide_True by done. rewrite app_nil_r in Hperm |- *. rewrite Hperm, <- app_assoc.
      f_equiv. unfold freshSlots. rewrite seq_S, fmap_app, Hol. done.
    + rewrite decide_False by done. by rewrite <- app_assoc.
  - destruct Hcase as [(-> & -> & _ & ->)|[-> ->]]; rewrite Hol;
      [rewrite decide_True by done; lia|by rewrite decide_False].
  - destruct Hcase as [(_ & -> & _)|[-> _]]; [by right|].
    rewrite decide_False by done. destruct Hfr; [by left|done].
  - by rewrite (ln_p _ _ _ _ _ _ _ LN).
  - intros p Hp Hpq Hpf. rewrite elem_of_app, list_elem_of_singleton in Hpq.
    eapply sameAt_trans; [|apply LN].
    + apply Hframe; [done|tauto|]. destruct Hcase as [(-> & _)|[-> _]]; [apply not_elem_of_nil|].
      rewrite elem_of_cons. tauto.
    + tauto.
    + intros ->. apply Hpq. left. by eapply list_elem_of_lookup_2.
Qed.

(** *** One entry *)
Section Step.
Context (k : nat) (st : InMemHashIndex T) (v : SplitVars) (qs fs : list slotPtr) (c : nat).
Context (HI : splitInv k st v qs fs c) (x : Z * SlotEntry T) (Ex : es !! k = Some x).
Context (a : nat) (p : slotPtr) (j : nat).
Context (Ea : ps !! a = Some p) (Hk : k = cap * a + j) (Hj : j < cap).

Lemma step_drop : drop k (chainView st0 ps) = Some x :: drop (S k) (chainView st0 ps).
Proof. apply drop_S. by apply view0_lookup. Qed.

Lemma step_disj : p ∈ ps /\ (p ∉ qs) /\ (p ∉ fs) /\ NoDup ps /\ NoDup qs.
Proof.
  destruct (disj_facts _ _ (si_disj _ _ _ _ _ _ HI)) as (? & ? & _ & Hdp & _).
  assert (p ∈ ps) as Hp by (by eapply list_elem_of_lookup_2). by destruct (Hdp p Hp).
Qed.

Lemma keepEntry_ok : stay x = true -> gaps v = false -> splitInv (S k) st v qs fs c.
Proof.
  intros Hs Hg. pose proof HI as [Hh HLp Hvp HLq Hq0 HqO HGq Hnew Hnp Hnle Hgaps Hins Hfree Hdis
    Hperm Hol Hfr Hpl Hframe].
  assert (Hlen : length (stays k) = k).
  { rewrite Hg in Hgaps. symmetry in Hgaps. apply bool_decide_eq_false in Hgaps.
    pose proof (length_stays_le k). lia. }
  pose proof (stays_S k x Ex) as HsS. pose proof (moves_S k x Ex) as HmS. rewrite Hs in HsS, HmS.
  rewrite app_nil_r in HmS.
  split; try done.
  - rewrite Hvp. unfold viewAfter. rewrite HsS, length_app, Hlen, step_drop.
    cbn [length]. rewrite Nat.add_1_r, !Nat.sub_diag. cbn. by rewrite fmap_app, <- app_assoc.
  - by rewrite HmS.
  - by rewrite HmS.
  - rewrite Hg. symmetry. apply bool_decide_eq_false. rewrite HsS, length_app. cbn. lia.
  - destruct Hins as (b & q & ? & ? & ? & Hor). exists b, q.
    rewrite HsS, length_app. cbn. split; [done|]. split; [done|]. split; [done|].
    destruct Hor; [by left|right; lia].
Qed.

Lemma moveEntry_ok :
  newSlotPos v < cap -> stay x = false ->
  exists st1 st2,
    writeEntry (slot (newSlotIter v)) (newSlotPos v) x.2 x.1 st = (Ok tt, st1) /\
    modifySlot p (fun s => dropEntry s j) st1 = (Ok tt, st2) /\
    splitInv (S k) st2
      (mkSplit (originalSlot v) (originalSlotForInsert v) (entryPosToInsert v)
         (newSlotIter v) (S (newSlotPos v)) true) qs fs c.
Proof.
  intros Hpos Hs. destruct step_disj as (Hp & Hpq & Hpf & HNp & HNq).
  pose proof HI as [Hh HLp Hvp HLq Hq0 HqO HGq Hnew Hnp Hnle Hgaps Hins Hfree Hdis
    Hperm Hol Hfr Hpl Hframe].
  pose proof (stays_S k x Ex) as HsS. pose proof (moves_S k x Ex) as HmS. rewrite Hs in HsS, HmS.
  rewrite app_nil_r in HsS. pose proof (length_stays_le k) as Hsle.
  set (q := slot (newSlotIter v)) in *.
  assert (Hq : q ∈ qs) by (by eapply list_elem_of_lookup_2).
  destruct (disj_facts _ _ Hdis) as (_ & _ & _ & Hdp & Hdq).
  destruct (writeEntry_cell st q (newSlotPos v) x.2 x.1) as (st1 & E1 & C1);
    [by apply (linked_ok cap st qs)|done|].
  assert (HLp1 : linked st1 ps) by (by eapply linked_cell).
  assert (HLq1 : linked st1 qs) by (by eapply linked_cell).
  destruct (dropEntry_cell st1 p j) as (st2 & E2 & C2); [by apply (linked_ok cap st1 ps)|done|].
  assert (Hqps : q ∉ ps) by (intros Hx; by apply (proj1 (Hdp q Hx))).
  exists st1, st2. split; [done|]. split; [done|].
  split; cbn [newSlotIter newSlotPos gaps originalSlotForInsert entryPosToInsert].
  - by rewrite (cw_header _ _ _ _ _ C2), (cw_header _ _ _ _ _ C1).
  - by eapply linked_cell.
  - rewrite (chainView_cell _ _ _ _ _ _ _ C2 HLp1 HNp Ea Hj), <- Hk.
    rewrite (chainView_cell_ne _ _ _ _ _ _ C1 Hqps), Hvp. unfold viewAfter.
    rewrite HsS, step_drop. by apply view_move.
  - by eapply linked_cell.
  - done.
  - done.
  - rewrite HmS. eapply gapless_cell_ne; [exact C2|done|]. destruct x as [fp e].
    eapply (gapless_append st st1 qs _ q); [done..|lia| |apply C1].
    intros r _ Hr. by eapply view_cell.
  - done.
  - rewrite HmS, length_app. cbn. lia.
  - lia.
  - symmetry. apply bool_decide_eq_true. rewrite HsS. lia.
  - by rewrite HsS.
  - eapply freeListOK_cell; [exact C2|done|]. eapply freeListOK_cell; [exact C1|auto|done].
  - done.
  - done.
  - by rewrite (cw_o _ _ _ _ _ C2), (cw_o _ _ _ _ _ C1).
  - done.
  - by rewrite (cw_p _ _ _ _ _ C2), (cw_p _ _ _ _ _ C1).
  - intros r Hr1 Hr2 Hr3. eapply sameAt_trans; [by apply Hframe|].
    eapply sameAt_trans; [apply C1|apply C2]; by intros ->.
Qed.

Lemma view_compact {A} (l : list A) y z rest :
  length l < k ->
  <[k := None]> (<[length l := Some y]>
      ((Some <$> l) ++ replicate (k - length l) None ++ z :: rest)) =
    (Some <$> l ++ [y]) ++ replicate (S k - length (l ++ [y])) None ++ rest.
Proof.
  intros Hl. replace (k - length l) with (S (k - S (length l))) by lia.
  rewrite view_fill, length_app. cbn [length].
  replace (k - S (length l)) with (k - length (l ++ [y])) by (rewrite length_app; cbn; lia).
  rewrite view_move by (rewrite length_app; cbn; lia). rewrite length_app. cbn. done.
Qed.

Lemma compactEntry_ok :
  stay x = true -> gaps v = true ->
  exists it pos st1 st2,
    skipValid cap (skipFuel cap st) (originalSlotForInsert v) (entryPosToInsert v) st =
      (Ok (it, pos), st) /\
    writeEntry (slot it) pos x.2 x.1 st = (Ok tt, st1) /\
    modifySlot p (fun s => dropEntry s j) st1 = (Ok tt, st2) /\
    splitInv (S k) st2
      (mkSplit (originalSlot v) it pos (newSlotIter v) (newSlotPos v) true) qs fs c.
Proof.
  intros Hs Hg. destruct step_disj as (Hp & Hpq & Hpf & HNp & HNq).
  assert (Hke : k <= length es) by (apply lookup_lt_Some in Ex; lia).
  pose proof (splitInv_bound _ _ _ _ _ _ Hke HI) as Hb.
  pose proof HI as [Hh HLp Hvp HLq Hq0 HqO HGq Hnew Hnp Hnle Hgaps Hins Hfree Hdis
    Hperm Hol Hfr Hpl Hframe].
  pose proof (stays_S k x Ex) as HsS. pose proof (moves_S k x Ex) as HmS. rewrite Hs in HsS, HmS.
  rewrite app_nil_r in HmS.
  assert (Hsle : length (stays k) < k).
  { rewrite Hg in Hgaps. symmetry in Hgaps. by apply bool_decide_eq_true in Hgaps. }
  pose proof (lookup_lt_Some _ _ _ Ea) as Ha.
  assert (cap * S a <= cap * length ps) by (apply Nat.mul_le_mono_l; lia).
  assert (cap * length ps <= cap * S (length (oSlots st))) by (apply Nat.mul_le_mono_l; lia).
  destruct Hins as (b & q & Eb & Eit & Hpos & Hor).
  destruct (skipValid_ok st ps (skipFuel cap st) b q (entryPosToInsert v) (length (stays k)))
    as (a' & p' & pos' & Esk & Ea' & Hpos' & Hg').
  { done. } { done. } { lia. } { done. } { done. }
  { destruct Hor as [[-> ->]|]; lia. } { lia. }
  { intros y Hy. rewrite Hvp. unfold viewAfter.
    rewrite lookup_app_l by (by rewrite length_fmap). rewrite list_lookup_fmap.
    destruct (lookup_lt_is_Some_2 (stays k) y Hy) as [z ->]. by eexists. }
  { rewrite Hvp. unfold viewAfter. rewrite lookup_app_r by (rewrite length_fmap; lia).
    rewrite length_fmap, Nat.sub_diag, lookup_app_l by (rewrite length_replicate; lia).
    by rewrite lookup_replicate_2 by lia. }
  { unfold skipFuel. lia. }
  rewrite Eit. exists (iterAt p'), pos'. cbn [iterAt slot].
  assert (Hp' : p' ∈ ps) by (by eapply list_elem_of_lookup_2).
  destruct (disj_facts _ _ Hdis) as (_ & _ & _ & Hdp & Hdq). destruct (Hdp p' Hp') as [Hpq' Hpf'].
  destruct (writeEntry_cell st p' pos' x.2 x.1) as (st1 & E1 & C1); [by apply (linked_ok cap st ps)|done|].
  assert (HLp1 : linked st1 ps) by (by eapply linked_cell).
  destruct (dropEntry_cell st1 p j) as (st2 & E2 & C2); [by apply (linked_ok cap st1 ps)|done|].
  exists st1, st2. split; [done|]. split; [done|]. split; [done|].
  split; cbn [newSlotIter newSlotPos gaps originalSlotForInsert entryPosToInsert].
  - by rewrite (cw_header _ _ _ _ _ C2), (cw_header _ _ _ _ _ C1).
  - by eapply linked_cell.
  - rewrite (chainView_cell _ _ _ _ _ _ _ C2 HLp1 HNp Ea Hj), <- Hk.
    rewrite (chainView_cell _ _ _ _ _ _ _ C1 HLp HNp Ea' Hpos'), Hg', Hvp. unfold viewAfter.
    rewrite HsS, step_drop. destruct x as [fp e]. by apply view_compact.
  - by eapply linked_cell, linked_cell.
  - done.
  - done.
  - rewrite HmS. eapply gapless_cell_ne; [exact C2|done|]. by eapply gapless_cell_ne.
  - done.
  - by rewrite HmS.
  - done.
  - symmetry. apply bool_decide_eq_true. rewrite HsS, length_app. cbn. lia.
  - exists a', p'. split; [done|]. split; [done|]. split; [done|]. right.
    rewrite HsS, length_app. cbn. lia.
  - eapply freeListOK_cell; [exact C2|done|]. by eapply freeListOK_cell.
  - done.
  - done.
  - by rewrite (cw_o _ _ _ _ _ C2), (cw_o _ _ _ _ _ C1).
  - done.
  - by rewrite (cw_p _ _ _ _ _ C2), (cw_p _ _ _ _ _ C1).
  - intros r Hr1 Hr2 Hr3. eapply sameAt_trans; [by apply Hframe|].
    eapply sameAt_trans; [apply C1|apply C2]; by intros ->.
Qed.

End Step.

Definition newOK (qs : list slotPtr) (v : SplitVars) : Prop := length qs = 1 \/ 0 < newSlotPos v.

(** *** The end of the split *)
Record splitDone (st' : InMemHashIndex T) (qs fs : list slotPtr) (m c : nat) : Prop := {
  sd_kept : keptSlots ps (stays (length es)) m;
  sd_ps : linked st' (take m ps);
  sd_stays : gapless st' (take m ps) (stays (length es));
  sd_qs : linked st' qs;
  sd_q0 : qs !! 0 = Some (PSlot n);
  sd_qO : Forall isO (tail qs);
  sd_moves : gapless st' qs (moves (length es));
  sd_new : length qs = 1 \/ cap * (length qs - 1) < length (moves (length es));
  sd_free : freeListOK st' (rev (drop m ps) ++ fs);
  sd_disj : NoDup (ps ++ qs ++ fs);
  sd_perm : tail qs ++ fs ≡ₚ fs0 ++ freshSlots c;
  sd_olen : length (oSlots st') = length (oSlots st0) + c;
  sd_fresh : c = 0 \/ fs = [];
  sd_plen : length (pSlots st') = length (pSlots st0);
  sd_frame : forall p, p ∉ ps -> p ∉ qs -> p ∉ fs -> sameAt st0 st' p;
  sd_header : headerOK (indexHeader st') (S n);
  sd_num : indexNumEntries (indexHeader st') = indexNumEntries (indexHeader st0);
  sd_place : forall h, getPrimarySlotIdForHash (indexHeader st') h =
      if decide (getPrimarySlotIdForHash (indexHeader st0) h = nextSplitSlotId (indexHeader st0))
      then Z.land h (higherLevelHashMask (indexHeader st0))
      else getPrimarySlotIdForHash (indexHeader st0) h;
}.

Lemma viewAfter_all : exists r, viewAfter (length es) = (Some <$> stays (length es)) ++ replicate r None.
Proof.
  destruct HG0 as [r E]. unfold viewAfter. rewrite E, drop_app_ge by (rewrite length_fmap; lia).
  rewrite length_fmap, Nat.sub_diag, drop_0, <- replicate_add. by eexists.
Qed.

Lemma finish_ok st v qs fs c :
  splitInv (length es) st v qs fs c -> newOK qs v ->
  exists st' m,
    (reclaimOverflowSlots (originalSlotForInsert v) ;;;
     updateHeader incrementNextSplitSlotId) st = (Ok tt, st') /\ splitDone st' qs fs m c.
Proof.
  intros HI HN. pose proof (splitInv_bound _ _ _ _ _ _ (Nat.le_refl _) HI) as Hb.
  destruct HI as [Hh HLp Hvp HLq Hq0 HqO HGq Hnew Hnp Hnle Hgaps (a & p & Ea & Eit & Hpos & Hor)
    Hfree Hdis Hperm Hol Hfr Hpl Hframe].
  destruct Hfree as (HLf & HOf & HNf & Hvf & Hhf).
  destruct (disj_facts _ _ Hdis) as (HNp & HNq & _ & Hdp & Hdq).
  assert (HG : gapless st ps (stays (length es))).
  { destruct viewAfter_all as [r E]. exists r. by rewrite Hvp. }
  rewrite Eit.
  destruct (reclaimOverflowSlots_ok st ps i (stays (length es)) a p fs)
    as (st1 & m & Er & Hm & K & HL1 & HLf1 & Hh1 & Hs1); try done.
  { lia. }
  { apply NoDup_app. split; [done|]. split; [|done]. intros q Hq. by apply Hdp. }
  { lia. }
  { destruct Hor as [[-> _]|]; [by left|right; lia]. }
  rewrite (sbind_ok _ _ _ _ _ Er). unfold updateHeader, sget, sbind at 1.
  assert (HO1 : headerOK (indexHeader st1) n) by (by rewrite Hh1, Hh).
  destruct (incrementNextSplitSlotId_ok _ _ HO1 Hn30) as (hd & Ehd & HO' & Hnum & Hff & Hpl').
  rewrite Ehd. unfold slift, sbind, smodify.
  assert (KH := keeps_setHeader st1 hd).
  assert (K' : keeps st (setHeader hd st1)) by (by eapply keeps_trans).
  assert (HLh : forall l, linked st1 l -> linked (setHeader hd st1) l).
  { intros l. apply linked_same. intros q _. apply slotAt_setHeader. }
  assert (Hsub : forall q, q ∈ drop m ps -> q ∈ ps).
  { intros q (k & Ek)%list_elem_of_lookup_1. rewrite lookup_drop in Ek.
    by eapply list_elem_of_lookup_2. }
  pose proof Hm as (Hm1 & Hm2 & Hm3).
  eexists _, m. split; [reflexivity|]. split; try done.
  - destruct (gapless_take st ps _ m HLp HG ltac:(lia) Hm3) as [r E]. exists r.
    rewrite <- E. apply chainView_ext. intros. apply K'.
  - apply HLh. apply (linked_same cap st); [|done]. intros q Hq. apply Hs1. intros Hq'.
    by apply (proj1 (Hdp q Hq')).
  - destruct HGq as [r E]. exists r. rewrite <- E. apply chainView_ext. intros. apply K'.
  - destruct HN as [?|HN]; [by left|right]. lia.
  - split; [by apply HLh|]. split; [|split; [|split]].
    + apply Forall_app. split; [|done]. apply Forall_rev, Forall_lookup_2. intros k q Ek.
      rewrite lookup_drop in Ek. eapply Forall_lookup_1; [exact HOps|]. rewrite lookup_tail.
      by replace (S (m + k - 1)) with (m + k) by lia.
    + apply NoDup_app. rewrite <- (Permutation_rev (drop m ps)).
      split; [by eapply sublist_NoDup; [exact HNp|apply sublist_drop]|]. split; [|done].
      intros q Hq. rewrite <- (Permutation_rev (drop m ps)) in Hq. by apply Hdp, Hsub.
    + intros q [Hq|Hq]%elem_of_app; rewrite (keeps_view _ _ K'); [|auto].
      rewrite <- (Permutation_rev (drop m ps)) in Hq. apply list_elem_of_lookup_1 in Hq as (k & Ek).
      rewrite lookup_drop in Ek. rewrite (gapless_slot st ps _ _ _ HLp HG Ek).
      rewrite drop_ge by (assert (cap * m <= cap * (m + k)) by (apply Nat.mul_le_mono_l; lia); lia).
      rewrite take_nil. cbn. by rewrite Nat.sub_0_r.
    + cbn [setHeader indexHeader]. by rewrite Hff, Hh1.
  - by rewrite (keeps_o _ _ K').
  - by rewrite (keeps_p _ _ K').
  - intros q H1 H2 H3. eapply sameAt_trans; [by apply Hframe|].
    eapply sameAt_trans; [by apply Hs1|]. apply slotAt_setHeader.
  - cbn [setHeader indexHeader]. by rewrite Hnum, Hh1, Hh.
  - intros h. cbn [setHeader indexHeader]. rewrite Hpl', Hh1, Hh. done.
Qed.

(** *** The loops *)
Lemma splitEntry_ok k st v qs fs c a p j :
  splitInv k st v qs fs c -> newOK qs v -> k <= length es ->
  ps !! a = Some p -> k = cap * a + j -> j < cap -> slot (originalSlot v) = p ->
  (k < length es /\ exists st' v' qs' fs' c',
     splitEntry hash zero cap v j st = (Ok (false, v'), st') /\
     splitInv (S k) st' v' qs' fs' c' /\ newOK qs' v' /\ originalSlot v' = originalSlot v) \/
  (k = length es /\ exists st' m,
     splitEntry hash zero cap v j st = (Ok (true, v), st') /\ splitDone st' qs fs m c).
Proof.
  intros HI HN Hke Ea Hk Hj Eo. pose proof HI as [Hh HLp Hvp _ _ _ _ _ _ Hnle Hgaps _ _ _ _ _ _ _ _].
  destruct (HLp a p Ea) as [(s & Es & Hw) _].
  assert (Ev : slotView cap s !! j = chainView st0 ps !! k).
  { rewrite <- viewAfter_current, <- Hvp, Hk.
    rewrite (chainView_lookup cap Hcap st ps a p j HLp Ea Hj).
    unfold InMemHashIndex.viewAt. by rewrite Es. }
  unfold splitEntry. rewrite Eo, (sbind_ok _ _ _ _ _ (readSlot_ok _ _ _ Es)).
  rewrite (view_valid cap Hcap s j Hj Hw), Ev.
  destruct (es !! k) as [x|] eqn:Ex.
  - left. split; [by apply lookup_lt_Some in Ex|]. rewrite (view0_lookup _ _ Ex) in Ev |- *.
    destruct x as [fp e]. destruct (view_entry cap Hcap _ _ _ _ Ev) as [Hf He].
    rewrite (sbind_ok _ _ _ _ _ (ltac:(unfold arr_get; by rewrite He) :
      arr_get (entries s) j st = (Ok e, st))).
    pose proof (Forall_lookup_1 _ _ _ _ Hfp Ex) as Hfe. cbn in Hfe.
    unfold sget, sbind at 1. rewrite Hh. cbn [setFirstFree higherLevelHashMask nextSplitSlotId].
    rewrite <- Hfe. assert (Hst : stay (fp, e) = bool_decide (Z.land (hash (key e))
       (higherLevelHashMask (indexHeader st0)) = nextSplitSlotId (indexHeader st0))) by done.
    destruct (decide (Z.land _ _ <> _)) as [Hd|Hd].
    + rewrite bool_decide_false in Hst by done.
      assert (exists st1 v1 qs1 fs1 c1, (if decide (cap <= newSlotPos v) then
           newOvfSlotId <- allocateAOSlot zero cap ;;
           modifySlot (slot (newSlotIter v)) (fun s => setNext s newOvfSlotId) ;;;
           do (_, newSlot) <- nextChainedSlot (newSlotIter v) ;;
           sret (newSlot, 0)
         else sret (newSlotIter v, newSlotPos v)) st = (Ok (newSlotIter v1, newSlotPos v1), st1) /\
         splitInv k st1 v1 qs1 fs1 c1 /\ newSlotPos v1 < cap /\
         originalSlot v1 = originalSlot v /\ originalSlotForInsert v1 = originalSlotForInsert v /\
         entryPosToInsert v1 = entryPosToInsert v) as (st1 & v1 & qs1 & fs1 & c1 & E1 & HI1 & Hp1 & Eo1 & Ei1 & En1).
      { destruct (decide (cap <= newSlotPos v)) as [Hc|Hc].
        - destruct (advanceNew_ok k st v qs fs c Hke HI ltac:(lia)) as (st1 & j1 & fs1 & c1 & E1 & HI1).
          exists st1, (withNew v (iterAt (OSlot j1)) 0), (qs ++ [OSlot j1]), fs1, c1.
          split; [exact E1|]. split; [exact HI1|]. cbn. split; [lia|done].
        - exists st, v, qs, fs, c. split; [done|]. split; [done|]. split; [lia|done]. }
      rewrite (sbind_ok _ _ _ _ _ E1).
      destruct (moveEntry_ok k st1 v1 qs1 fs1 c1 HI1 (fp, e) Ex a p j Ea Hk Hj Hp1 Hst)
        as (st2 & st3 & E2 & E3 & HI3). cbn [fst snd] in E2.
      rewrite (sbind_ok _ _ _ _ _ E2), (sbind_ok _ _ _ _ _ E3). unfold sret.
      rewrite <- Eo1, <- Ei1, <- En1. do 5 eexists. split; [reflexivity|].
      split; [exact HI3|]. split; [right; cbn; lia|done].
    + rewrite bool_decide_true in Hst by (apply dec_stable in Hd; done).
      destruct (gaps v) eqn:Hg.
      * destruct (compactEntry_ok k st v qs fs c HI (fp, e) Ex a p j Ea Hk Hj Hst Hg)
          as (it & pos & st1 & st2 & E1 & E2 & E3 & HI3). cbn [fst snd] in E2.
        rewrite (sbind_ok _ _ _ _ _ E1), (sbind_ok _ _ _ _ _ E2), (sbind_ok _ _ _ _ _ E3).
        unfold sret. do 5 eexists. split; [reflexivity|]. split; [exact HI3|].
        split; [|done]. destruct HN; [by left|by right].
      * unfold sret. do 5 eexists. split; [reflexivity|].
        split; [by eapply keepEntry_ok|done].
  - right. apply lookup_ge_None_1 in Ex. assert (k = length es) as Hkl by lia. split; [done|].
    assert (chainView st0 ps !! k = Some None) as Hnone.
    { destruct HG0 as [r E]. pose proof length_view0 as Hl.
      rewrite E, length_app, length_fmap, length_replicate in Hl.
      rewrite E, lookup_app_r, length_fmap by (rewrite length_fmap; lia).
      apply lookup_replicate_2. pose proof (lookup_lt_Some _ _ _ Ea).
      assert (cap * S a <= cap * length ps) by (apply Nat.mul_le_mono_l; lia). lia. }
    rewrite Hnone. rewrite Hkl in HI, Hvp.
    assert (HG : gapless st ps (stays (length es))).
    { destruct viewAfter_all as [r E]. exists r. by rewrite Hvp. }
    destruct (gapless_numEntries st ps _ a p s HLp HG Ea Es) as [-> ->].
    rewrite bool_decide_true by done. unfold kuAssert, sret at 1, sbind at 1.
    destruct (finish_ok st v qs fs c HI HN) as (st' & m & Ef & HD).
    exists st', m. split; [|done]. unfold sbind in Ef |- *.
    destruct (reclaimOverflowSlots _ _) as [[[]|] ?]; [|done]. by rewrite Ef.
Qed.

Lemma splitEntries_ok r :
  forall k st v qs fs c a p j,
  splitInv k st v qs fs c -> newOK qs v -> k <= length es ->
  ps !! a = Some p -> k = cap * a + j -> j + r = cap -> slot (originalSlot v) = p ->
  (cap * S a <= length es /\ exists st' v' qs' fs' c',
     splitEntries hash zero cap v j r st = (Ok (false, v'), st') /\
     splitInv (cap * S a) st' v' qs' fs' c' /\ newOK qs' v' /\ originalSlot v' = originalSlot v) \/
  (exists st' v' qs' fs' m c',
     splitEntries hash zero cap v j r st = (Ok (true, v'), st') /\ splitDone st' qs' fs' m c').
Proof.
  induction r as [|r IH]; intros k st v qs fs c a p j HI HN Hke Ea Hk Hj Eo; cbn [splitEntries].
  - left. assert (k = cap * S a) as Ek by lia. split; [lia|]. rewrite <- Ek.
    exists st, v, qs, fs, c. done.
  - destruct (splitEntry_ok k st v qs fs c a p j HI HN Hke Ea Hk ltac:(lia) Eo)
      as [(Hlt & st1 & v1 & qs1 & fs1 & c1 & E1 & HI1 & HN1 & Eo1)|(Hkl & st1 & m & E1 & HD)].
    + rewrite (sbind_ok _ _ _ _ _ E1), <- Eo1.
      eapply IH; [exact HI1|done|lia|done|lia|lia|by rewrite Eo1].
    + right. rewrite (sbind_ok _ _ _ _ _ E1). by do 6 eexists.
Qed.

Lemma splitChain_ok fuel :
  forall st v qs fs c a p,
  splitInv (cap * a) st v qs fs c -> newOK qs v -> cap * a <= length es ->
  ps !! a = Some p -> slot (originalSlot v) = p -> length ps - a <= fuel ->
  exists st' qs' fs' m c',
    splitChain hash zero cap fuel v st = (Ok tt, st') /\ splitDone st' qs' fs' m c'.
Proof.
  induction fuel as [|fuel IH]; intros st v qs fs c a p HI HN Hke Ea Eo Hf.
  { apply lookup_lt_Some in Ea. lia. }
  cbn [splitChain].
  destruct (splitEntries_ok cap _ st v qs fs c a p 0 HI HN Hke Ea ltac:(lia) ltac:(lia) Eo)
    as [(Hle & st1 & v1 & qs1 & fs1 & c1 & E1 & HI1 & HN1 & Eo1)
       |(st1 & v1 & qs1 & fs1 & m & c1 & E1 & HD)];
    rewrite (sbind_ok _ _ _ _ _ E1); [|by do 5 eexists].
  pose proof (splitInv_bound _ _ _ _ _ _ Hle HI1) as Hb.
  pose proof HI1 as [_ HLp Hvp _ _ _ _ _ _ _ _ _ _ _ _ _ _ _ _].
  destruct (HLp a p Ea) as [(s & Es & Hw) _]. rewrite Eo1, Eo.
  rewrite (sbind_ok _ _ _ _ _ (readSlot_ok _ _ _ Es)).
  pose proof (length_stays_le (cap * S a)).
  destruct (prefix_numEntries st1 ps _ _ _ a p s HLp Hvp Ea ltac:(lia) Es) as [-> ->].
  rewrite bool_decide_true by done. unfold kuAssert, sret at 1, sbind at 1.
  pose proof (nextChainedSlot_ok cap Hcap st1 ps a p (originalSlot v) HLp HOps Ea Eo ltac:(lia)) as Hn.
  destruct (ps !! S a) as [q|] eqn:Eq; rewrite (sbind_ok _ _ _ _ _ Hn).
  - eapply (IH _ _ qs1 fs1 c1 (S a) q); [|done|done|done|done|lia].
    by destruct HI1; split.
  - apply lookup_ge_None_1 in Eq. pose proof (lookup_lt_Some _ _ _ Ea).
    pose proof (gapless_length st0 ps es HL0 HG0).
    assert (cap * S a = length es) as Ek by (replace (length ps) with (S a) in * by lia; lia).
    rewrite Ek in HI1. cbn [originalSlotForInsert].
    destruct (finish_ok st1 v1 qs1 fs1 c1 HI1 HN1) as (st' & m & Ef & HD).
    exists st', qs1, fs1, m, c1. done.
Qed.

End SplitLoop.
End Split.
