(* ===== verification/HashIndexSpec.v ===== *)
(** * The in-memory hash index as a bag of entries

    [holds st bag]: the index is well formed and its chains hold the entries of
    [bag].  The theorems say that every operation of the index ends, keeps it well
    formed and does to the bag what its contract says: a split and a reservation
    change nothing, [append] refuses a key that has a visible entry and adds it
    otherwise, [lookup] finds a visible entry of the key when there is one. *)

From S2P Require Import Prelude HashSlot InMemHashIndex HashIndexSplit.
From stdpp Require Import base list numbers sorting sets.

(** A chain: the ids of its overflow slots, and its entries with their fingerprints. *)
Abbreviation chain T := (list nat * list (Z * SlotEntry T))%type.

Section Spec.
Context {T : Type} `{EqDecision T} (hash : T -> Z) (zero : T) (cap : nat).
Context (Hcap : 0 < cap <= FINGERPRINT_CAPACITY).
Implicit Types (st : InMemHashIndex T).

Local Abbreviation viewAt := (viewAt cap).
Local Abbreviation okAt := (okAt cap).
Local Abbreviation linked := (linked cap).
Local Abbreviation chainView := (chainView cap).
Local Abbreviation gapless := (gapless cap).
Local Abbreviation freeListOK := (freeListOK cap).

Definition allIds (chains : list (chain T)) : list nat := concat (fst <$> chains).
Definition allEntries (chains : list (chain T)) : list (Z * SlotEntry T) := concat (snd <$> chains).

(** Where an entry belongs. *)
Definition placed (hd : HashIndexHeader) (i : nat) (x : Z * SlotEntry T) : Prop :=
  x.1 = getFingerprintForHash (hash (key x.2)) /\
  getPrimarySlotIdForHash hd (hash (key x.2)) = Z.of_nat i.

Record chainOK st (i : nat) (c : chain T) : Prop := {
  co_linked : linked st (chainPtrs i c.1);
  co_gapless : gapless st (chainPtrs i c.1) c.2;
  co_used : c.1 = [] \/ cap * length c.1 < length c.2;
  co_placed : Forall (placed (indexHeader st) i) c.2;
}.

Record indexOK st (chains : list (chain T)) (free : list nat) : Prop := {
  ok_header : headerOK (indexHeader st) (length (pSlots st));
  ok_len : length chains = length (pSlots st);
  ok_chain : forall i c, chains !! i = Some c -> chainOK st i c;
  ok_free : freeListOK st (OSlot <$> free);
  ok_ids : NoDup (allIds chains ++ free);
  ok_cover : length (allIds chains) + length free = length (oSlots st);
  ok_num : indexNumEntries (indexHeader st) = Z.of_nat (length (allEntries chains));
  ok_olen : length (oSlots st) <= 2 * length (allEntries chains);
}.

(** The refinement relation. *)
Definition holds st (bag : list (SlotEntry T)) : Prop :=
  exists chains free, indexOK st chains free /\ (snd <$> allEntries chains) ≡ₚ bag.

Lemma holds_perm st bag bag' : bag ≡ₚ bag' -> holds st bag -> holds st bag'.
Proof. intros Hp (chains & free & HI & Hb). exists chains, free. by rewrite <- Hp. Qed.

(** ** Facts about well-formed indexes *)
Lemma allIds_split (l1 l2 : list (chain T)) c : allIds (l1 ++ c :: l2) = allIds l1 ++ c.1 ++ allIds l2.
Proof. unfold allIds. by rewrite fmap_app, concat_app. Qed.

Lemma allEntries_split (l1 l2 : list (chain T)) c :
  allEntries (l1 ++ c :: l2) = allEntries l1 ++ c.2 ++ allEntries l2.
Proof. unfold allEntries. by rewrite fmap_app, concat_app. Qed.

Lemma allIds_snoc (l : list (chain T)) c : allIds (l ++ [c]) = allIds l ++ c.1.
Proof. unfold allIds. rewrite fmap_app, concat_app. cbn. by rewrite app_nil_r. Qed.

Lemma allEntries_snoc (l : list (chain T)) c : allEntries (l ++ [c]) = allEntries l ++ c.2.
Proof. unfold allEntries. rewrite fmap_app, concat_app. cbn. by rewrite app_nil_r. Qed.

Lemma split_at (chains : list (chain T)) i c :
  chains !! i = Some c ->
  exists l1 l2, chains = l1 ++ c :: l2 /\ length l1 = i /\ forall c', <[i := c']> chains = l1 ++ c' :: l2.
Proof.
  intros E. destruct (list_elem_of_split_length _ _ _ E) as (l1 & l2 & -> & ->).
  exists l1, l2. split; [done|]. split; [done|]. intros c'. by rewrite insert_app_r_alt, Nat.sub_diag by lia.
Qed.

Lemma in_allIds (chains : list (chain T)) i c j : chains !! i = Some c -> j ∈ c.1 -> j ∈ allIds chains.
Proof.
  intros E Hj. destruct (split_at _ _ _ E) as (l1 & l2 & -> & _).
  rewrite allIds_split. apply elem_of_app. right. apply elem_of_app. by left.
Qed.

Lemma allIds_disjoint (chains : list (chain T)) i i' c c' j :
  NoDup (allIds chains) -> chains !! i = Some c -> chains !! i' = Some c' -> i <> i' ->
  j ∈ c.1 -> j ∉ c'.1.
Proof.
  intros HN E E' Hne Hj Hj'. destruct (split_at _ _ _ E) as (l1 & l2 & -> & <- & _).
  rewrite allIds_split in HN. apply NoDup_app in HN as (_ & H1 & (_ & H2 & _)%NoDup_app).
  destruct (decide (i' < length l1)).
  - rewrite lookup_app_l in E' by done. apply (H1 j); [by eapply in_allIds|].
    apply elem_of_app. by left.
  - rewrite lookup_app_r in E' by lia. destruct (i' - length l1) as [|d] eqn:Ed; [lia|].
    cbn in E'. apply (H2 j Hj). by eapply in_allIds.
Qed.

Lemma chainPtrs_elem p i ids : p ∈ chainPtrs i ids <-> p = PSlot i \/ exists j, p = OSlot j /\ j ∈ ids.
Proof.
  unfold chainPtrs. by rewrite elem_of_cons, list_elem_of_fmap.
Qed.

Lemma chainPtrs_tail i ids : Forall isO (tail (chainPtrs i ids)).
Proof. cbn. apply Forall_fmap, Forall_true. done. Qed.

#[local] Instance OSlot_inj : Inj (=) (=) OSlot.
Proof. by intros ?? [=]. Qed.

Lemma elem_OSlot (j : nat) (ids : list nat) : OSlot j ∈ (OSlot <$> ids) <-> j ∈ ids.
Proof.
  rewrite list_elem_of_fmap. split; [intros (? & [= ->] & ?); done|by exists j].
Qed.

Lemma NoDup_chainPtrs i ids : NoDup ids -> NoDup (chainPtrs i ids).
Proof.
  intros HN. apply NoDup_cons. split; [|by apply (NoDup_fmap_2 OSlot)].
  intros (j & [=] & _)%list_elem_of_fmap.
Qed.

Lemma chain_ids_NoDup st chains free i c :
  indexOK st chains free -> chains !! i = Some c ->
  NoDup c.1 /\ (forall j, j ∈ c.1 -> j ∉ free) /\ length c.1 <= length (oSlots st).
Proof.
  intros HI E. pose proof (ok_ids _ _ _ HI) as HN. pose proof (ok_cover _ _ _ HI) as HC.
  destruct (split_at _ _ _ E) as (l1 & l2 & Ec & _). rewrite Ec, allIds_split in HN, HC.
  apply NoDup_app in HN as ((_ & _ & (H1 & _ & _)%NoDup_app)%NoDup_app & H2 & _).
  split; [done|]. split.
  - intros j Hj. apply H2. apply elem_of_app. right. apply elem_of_app. by left.
  - rewrite !length_app in HC. lia.
Qed.

Lemma length_allIds_le chains :
  (forall i c, chains !! i = Some c -> c.1 = [] \/ cap * length c.1 < length c.2) ->
  length (allIds chains) <= length (allEntries chains).
Proof.
  induction chains as [|c chains IH]; intros H; [done|].
  unfold allIds, allEntries in *. cbn. rewrite !length_app.
  specialize (IH (fun i => H (S i))).
  assert (length c.1 <= length c.2).
  { destruct (H 0 c eq_refl) as [->|Hlt]; [cbn; lia|].
    assert (1 * length c.1 <= cap * length c.1) by (apply Nat.mul_le_mono_r; lia). lia. }
  lia.
Qed.

Lemma ok_ids_le st chains free :
  indexOK st chains free -> length (allIds chains) <= length (allEntries chains).
Proof. intros HI. apply length_allIds_le. intros i c E. apply (ok_chain _ _ _ HI i c E). Qed.

Lemma id_in_range st chains free j :
  indexOK st chains free -> j ∈ allIds chains ++ free -> j < length (oSlots st).
Proof.
  intros HI [Hj|Hj]%elem_of_app.
  - unfold allIds in Hj. apply list_elem_of_In, in_concat in Hj as (ids & Hids & Hj).
    apply list_elem_of_In in Hids, Hj. apply list_elem_of_fmap in Hids as (c & -> & Hc).
    apply list_elem_of_lookup_1 in Hc as (i & Hc).
    apply (okAt_O cap). eapply linked_ok; [apply (ok_chain _ _ _ HI i c Hc)|].
    apply chainPtrs_elem. right. by exists j.
  - apply (okAt_O cap). eapply linked_ok; [apply (ok_free _ _ _ HI)|]. by apply elem_OSlot.
Qed.

Lemma chain_exists st chains free i :
  indexOK st chains free -> i < length (pSlots st) -> exists c, chains !! i = Some c.
Proof. intros HI Hi. apply lookup_lt_is_Some_2. by rewrite (ok_len _ _ _ HI). Qed.

(** The chain that a hash selects. *)
Lemma chain_of_hash st chains free h :
  indexOK st chains free ->
  exists i c, getPrimarySlotIdForHash (indexHeader st) h = Z.of_nat i /\ chains !! i = Some c.
Proof.
  intros HI. pose proof (placement_bounds _ _ h (ok_header _ _ _ HI)) as Hp.
  exists (Z.to_nat (getPrimarySlotIdForHash (indexHeader st) h)).
  destruct (chain_exists st chains free (Z.to_nat (getPrimarySlotIdForHash (indexHeader st) h)) HI)
    as [c Ec]; [lia|]. exists c. split; [lia|done].
Qed.

Lemma entry_in_its_chain st chains free x :
  indexOK st chains free -> x ∈ allEntries chains ->
  exists i c, chains !! i = Some c /\ x ∈ c.2 /\ placed (indexHeader st) i x.
Proof.
  intros HI Hx. unfold allEntries in Hx.
  apply list_elem_of_In, in_concat in Hx as (es & Hes & Hx).
  apply list_elem_of_In in Hes, Hx. apply list_elem_of_fmap in Hes as (c & -> & Hc).
  apply list_elem_of_lookup_1 in Hc as (i & Hc). exists i, c. split; [done|]. split; [done|].
  pose proof (co_placed _ _ _ (ok_chain _ _ _ HI i c Hc)) as HF. by eapply Forall_forall in HF.
Qed.

Lemma in_allEntries (chains : list (chain T)) i c x : chains !! i = Some c -> x ∈ c.2 -> x ∈ allEntries chains.
Proof.
  intros E Hx. destruct (split_at _ _ _ E) as (l1 & l2 & -> & _).
  rewrite allEntries_split. apply elem_of_app. right. apply elem_of_app. by left.
Qed.
(** A chain that does not touch the changed slots stays well formed. *)
Lemma chainOK_same st st' i c :
  (forall p, p ∈ chainPtrs i c.1 -> sameAt st st' p) ->
  Forall (placed (indexHeader st') i) c.2 -> chainOK st i c -> chainOK st' i c.
Proof.
  intros Hs HP [HL [r HG] HU _]. split; [by eapply linked_same| |done|done].
  exists r. rewrite <- HG. apply chainView_ext. intros p Hp. by apply sameAt_view, Hs.
Qed.

Lemma isO_ids (l : list slotPtr) : Forall isO l -> exists ids, l = OSlot <$> ids.
Proof.
  induction 1 as [|p l Hp _ [ids ->]]; [by exists []|]. destruct p as [|j]; [done|].
  by exists (j :: ids).
Qed.

Definition slotNum (p : slotPtr) : nat := match p with PSlot i => i | OSlot i => i end.

Lemma OSlot_perm (l l' : list nat) : (OSlot <$> l) ≡ₚ (OSlot <$> l') -> l ≡ₚ l'.
Proof.
  intros Hp. assert (E : forall k : list nat, slotNum <$> (OSlot <$> k) = k).
  { intros k. induction k as [|j k IH]; [done|]. cbn. f_equal. exact IH. }
  rewrite <- (E l), <- (E l'). by rewrite Hp.
Qed.

(** ** [splitSlot] *)

(** The state in which the loop of [splitSlot] starts. *)
Definition grown st : InMemHashIndex T :=
  mkIndex (pSlots st ++ [newSlot cap zero]) (oSlots st) (indexHeader st).

Lemma allocatePSlots_1 st :
  exists r, allocatePSlots zero cap 1 st = (Ok r, grown st).
Proof.
  unfold allocatePSlots. srun. change (Z.to_nat (wrapU 32 1)) with 1. by eexists.
Qed.

Lemma slotAt_grown st p : p <> PSlot (length (pSlots st)) -> slotAt (grown st) p = slotAt st p.
Proof.
  destruct p as [i|]; cbn; [|done]. intros Hi.
  destruct (decide (i < length (pSlots st))); [by apply lookup_app_l|].
  rewrite lookup_ge_None_2, lookup_ge_None_2; [done|lia|].
  rewrite length_app. cbn. assert (i <> length (pSlots st)) by congruence. lia.
Qed.

Lemma slotAt_new st : slotAt (grown st) (PSlot (length (pSlots st))) = Some (newSlot cap zero).
Proof. cbn. by rewrite lookup_app_r, Nat.sub_diag by lia. Qed.

Lemma split_start st chains free i c :
  indexOK st chains free -> chains !! i = Some c -> i < length (pSlots st) ->
  splitInv hash cap (grown st) (chainPtrs i c.1) c.2 (OSlot <$> free) (length (pSlots st)) 0 (grown st)
    (mkSplit (iterAt (PSlot i)) (iterAt (PSlot i)) 0 (iterAt (PSlot (length (pSlots st)))) 0 false)
    [PSlot (length (pSlots st))] (OSlot <$> free) 0.
Proof.
  intros HI Ec Hi. set (n := length (pSlots st)).
  destruct (ok_chain _ _ _ HI i c Ec) as [HL HG HU HP].
  destruct (chain_ids_NoDup _ _ _ _ _ HI Ec) as (HNi & Hfree & _).
  assert (Hsame : forall p, p <> PSlot n -> sameAt st (grown st) p) by (intros; by apply slotAt_grown).
  assert (Hchain : forall p, p ∈ chainPtrs i c.1 -> p <> PSlot n).
  { intros p [->|(j & -> & _)]%chainPtrs_elem; [|done]. intros [=]. lia. }
  assert (Hnew : slotAt (grown st) (PSlot n) = Some (newSlot cap zero)) by apply slotAt_new.
  destruct (ok_free _ _ _ HI) as (HLf & HOf & HNf & Hvf & Hhf).
  assert (Hfs : forall p, p ∈ (OSlot <$> free) -> p <> PSlot n)
    by (by intros p (j & -> & _)%list_elem_of_fmap).
  split; cbn [newSlotIter newSlotPos gaps originalSlotForInsert entryPosToInsert iterAt slot length].
  - cbn [grown indexHeader]. by rewrite <- Hhf, setFirstFree_id.
  - apply (linked_same cap st); [|done]. intros p Hp. by apply Hsame, Hchain.
  - unfold viewAfter, stays. rewrite take_0. cbn. done.
  - intros [|k] p E; cbn in E; [|done]. simplify_eq. split; [eexists; by rewrite Hnew; eauto using wf_newSlot|].
    unfold nextAt. by rewrite Hnew.
  - done.
  - by constructor.
  - exists cap. unfold moves. rewrite take_0. cbn. rewrite app_nil_r.
    unfold InMemHashIndex.viewAt. rewrite Hnew. by apply slotView_newSlot.
  - done.
  - unfold moves. rewrite take_0. cbn. lia.
  - lia.
  - symmetry. apply bool_decide_eq_false. lia.
  - exists 0, (PSlot i). split; [done|]. split; [done|]. split; [lia|by left].
  - split; [|split; [done|split; [done|split; [|done]]]].
    + apply (linked_same cap st); [|done]. intros p Hp. by apply Hsame, Hfs.
    + intros p Hp. rewrite (sameAt_view cap st); [auto|]. by apply Hsame, Hfs.
  - apply NoDup_app. split; [by apply NoDup_chainPtrs|]. split.
    + intros p Hp. cbn. rewrite elem_of_cons. intros [->|Hpf]; [by apply (Hchain _ Hp)|].
      apply chainPtrs_elem in Hp as [->|(j & -> & Hj)].
      * by apply list_elem_of_fmap in Hpf as (? & [=] & _).
      * apply (Hfree j Hj). by apply elem_OSlot.
    + apply NoDup_cons. split; [|done]. intros Hx. by apply (Hfs _ Hx).
  - unfold freshSlots. cbn. by rewrite app_nil_r.
  - cbn. lia.
  - by left.
  - done.
  - done.
Qed.

(** The chains after a split. *)
Lemma perm_ids (A ids B qids fids free fresh : list nat) m :
  qids ++ fids ≡ₚ free ++ fresh ->
  (A ++ take m ids ++ B ++ qids) ++ rev (drop m ids) ++ fids ≡ₚ (A ++ ids ++ B) ++ free ++ fresh.
Proof.
  intros Hp. rewrite <- Hp, <- (Permutation_rev (drop m ids)).
  rewrite <- (take_drop m ids) at 3. generalize (take m ids) (drop m ids). intros t d.
  rewrite <- !app_assoc. do 2 apply Permutation_app_head.
  rewrite (app_assoc B), (app_assoc B qids fids). apply Permutation_app_swap_app.
Qed.

Lemma NoDup_fresh (l : list nat) n c :
  NoDup l -> (forall j, j ∈ l -> j < n) -> NoDup (l ++ seq n c).
Proof.
  intros HN Hl. apply NoDup_app. split; [done|]. split; [|apply NoDup_seq].
  intros j Hj Hs%elem_of_seq. specialize (Hl j Hj). lia.
Qed.

Lemma chainPtrs_take i ids m :
  1 <= m -> take m (chainPtrs i ids) = chainPtrs i (take (m - 1) ids) /\
    rev (drop m (chainPtrs i ids)) = OSlot <$> rev (drop (m - 1) ids).
Proof.
  intros Hm. destruct m as [|m]; [lia|]. unfold chainPtrs. cbn [take drop].
  rewrite Nat.sub_succ, Nat.sub_0_r, fmap_take, <- fmap_drop. split; [done|].
  induction (drop m ids) as [|j l IH]; [done|]. cbn. by rewrite fmap_app, IH.
Qed.

Section AfterSplit.
Context st chains free i (c : chain T) (HI : indexOK st chains free) (Ec : chains !! i = Some c).
Context (Hi : nextSplitSlotId (indexHeader st) = Z.of_nat i).
Context (st' : InMemHashIndex T) (qids fids : list nat) (m d : nat).
Let n := length (pSlots st).
Let kept : chain T := (take (m - 1) c.1, stays hash (grown st) c.2 (length c.2)).
Let moved : chain T := (qids, moves hash (grown st) c.2 (length c.2)).
Context (HD : splitDone hash cap (grown st) (chainPtrs i c.1) c.2 (OSlot <$> free) n st'
                (chainPtrs n qids) (OSlot <$> fids) m d).

Definition chainsAfter : list (chain T) := <[i := kept]> chains ++ [moved].
Definition freeAfter : list nat := rev (drop (m - 1) c.1) ++ fids.

Lemma kept_ptrs : take m (chainPtrs i c.1) = chainPtrs i kept.1 /\
  rev (drop m (chainPtrs i c.1)) ++ (OSlot <$> fids) = OSlot <$> freeAfter.
Proof.
  destruct (sd_kept _ _ _ _ _ _ _ _ _ _ _ _ HD) as ((Hm & _) & _).
  unfold freeAfter. rewrite fmap_app. destruct (chainPtrs_take i c.1 m ltac:(lia)) as [-> ->]. done.
Qed.

Lemma perm_free : qids ++ fids ≡ₚ free ++ seq (length (oSlots st)) d.
Proof.
  apply OSlot_perm. rewrite !fmap_app.
  exact (sd_perm _ _ _ _ _ _ _ _ _ _ _ _ HD).
Qed.

Lemma ids_after : allIds chainsAfter ++ freeAfter ≡ₚ (allIds chains ++ free) ++ seq (length (oSlots st)) d.
Proof.
  destruct (split_at _ _ _ Ec) as (l1 & l2 & E & _ & Hins). unfold chainsAfter, freeAfter.
  rewrite Hins, E, allIds_snoc, !allIds_split. cbn [kept moved fst].
  rewrite <- !(app_assoc _ _ (seq _ _)), <- !(app_assoc _ _ qids).
  apply perm_ids, perm_free.
Qed.

Lemma entries_after : allEntries chainsAfter ≡ₚ allEntries chains.
Proof.
  destruct (split_at _ _ _ Ec) as (l1 & l2 & E & _ & Hins). unfold chainsAfter.
  rewrite Hins, E, allEntries_snoc, !allEntries_split. cbn [kept moved snd].
  rewrite <- !app_assoc. f_equiv.
  rewrite (Permutation_app_comm (allEntries l2)), app_assoc. f_equiv. apply stays_moves_perm.
Qed.

Lemma n_ids_after : NoDup (allIds chainsAfter ++ freeAfter).
Proof.
  rewrite ids_after. apply NoDup_fresh; [apply HI|]. intros j. by apply (id_in_range st chains free).
Qed.

Lemma other_untouched i' c' p :
  chains !! i' = Some c' -> i' <> i -> p ∈ chainPtrs i' c'.1 -> sameAt st st' p.
Proof.
  intros Ec' Hne Hp. pose proof (ok_ids _ _ _ HI) as HN. apply NoDup_app in HN as (HN & Hdis & _).
  assert (Hi' : i' < n) by (apply lookup_lt_Some in Ec'; by rewrite (ok_len _ _ _ HI) in Ec').
  assert (Hnot : forall j, j ∈ c'.1 -> j ∉ qids ++ fids).
  { intros j Hj Hq. rewrite perm_free in Hq. apply elem_of_app in Hq as [Hq|Hq%elem_of_seq].
    - apply (Hdis j); [by eapply in_allIds|done].
    - assert (j < length (oSlots st)); [|lia]. apply (id_in_range st chains free); [done|].
      apply elem_of_app. left. by eapply in_allIds. }
  eapply (sameAt_trans _ (grown st)).
  - apply slotAt_grown. apply chainPtrs_elem in Hp as [->|(j & -> & _)]; [|done]. intros [=]. unfold n in Hi'. lia.
  - apply (sd_frame _ _ _ _ _ _ _ _ _ _ _ _ HD).
    + intros Hq%chainPtrs_elem. apply chainPtrs_elem in Hp.
      destruct Hp as [->|(j & -> & Hj)], Hq as [Hq|(j' & Hq & Hj')];
        simplify_eq. by eapply (allIds_disjoint chains i' i).
    + intros Hq%chainPtrs_elem. apply chainPtrs_elem in Hp.
      destruct Hp as [->|(j & -> & Hj)], Hq as [Hq|(j' & Hq & Hj')];
        simplify_eq; [lia|]. apply (Hnot j' Hj), elem_of_app. by left.
    + intros Hq. apply chainPtrs_elem in Hp as [->|(j & -> & Hj)];
        [by apply list_elem_of_fmap in Hq as (? & [=] & _)|].
      apply elem_OSlot in Hq. apply (Hnot j Hj), elem_of_app. by right.
Qed.

Lemma placed_after i' x :
  placed (indexHeader st) i' x ->
  placed (indexHeader st') (if decide (i' = i) then
    (if stay hash (grown st) x then i else n) else i') x.
Proof.
  intros [Hf Hp]. split; [done|]. rewrite (sd_place _ _ _ _ _ _ _ _ _ _ _ _ HD).
  cbn [grown indexHeader]. rewrite Hp, Hi. case_decide as Hd.
  - rewrite decide_True by lia. unfold stay. cbn [grown indexHeader].
    case_bool_decide as Hs; [by rewrite Hs, Hi|].
    destruct (placement_split (indexHeader st) n (hash (key x.2)) (ok_header _ _ _ HI));
      [rewrite Hp, Hi; lia|done|done].
  - rewrite decide_False by lia. done.
Qed.

Lemma chain_after i' c' : chainsAfter !! i' = Some c' -> chainOK st' i' c'.
Proof.
  intros E. unfold chainsAfter in E.
  pose proof (lookup_lt_Some _ _ _ Ec) as Hlt. pose proof (ok_len _ _ _ HI) as Hlen. fold n in Hlen.
  pose proof (co_placed _ _ _ (ok_chain _ _ _ HI i c Ec)) as HP.
  pose proof HD as [Hkept HLp HGs HLq Hq0 HqO HGm Hnew _ _ _ _ _ _ _ _ _ _].
  destruct kept_ptrs as [Etake _]. rewrite Etake in HLp, HGs.
  destruct (decide (i' < length chains)).
  - rewrite lookup_app_l in E by (by rewrite length_insert).
    destruct (decide (i' = i)) as [Ei|Hne].
    + subst i'. rewrite list_lookup_insert_eq in E by done.
      injection E as <-. split; [done|done| |].
      * destruct Hkept as ((Hm1 & Hm2) & Hm3 & _). cbn [kept fst snd] in *.
        rewrite length_take. cbn in Hm2. rewrite length_fmap in Hm2.
        destruct Hm3 as [->|Hm3]; [by left|]. right. by rewrite Nat.min_l by lia.
      * cbn [kept snd]. apply Forall_forall. intros x Hx. unfold stays in Hx.
        rewrite take_ge in Hx by lia. apply list_elem_of_In, filter_In in Hx as [Hx Hs].
        apply list_elem_of_In in Hx. pose proof (placed_after i x) as Hpl.
        rewrite decide_True, Hs in Hpl by done. apply Hpl. by eapply Forall_forall in HP.
    + rewrite list_lookup_insert_ne in E by done.
      eapply chainOK_same; [|  |by apply (ok_chain _ _ _ HI)].
      * intros p. by apply (other_untouched i' c').
      * apply Forall_forall. intros x Hx. pose proof (placed_after i' x) as Hpl.
        rewrite decide_False in Hpl by done. apply Hpl.
        pose proof (co_placed _ _ _ (ok_chain _ _ _ HI i' c' E)) as HP'. by eapply Forall_forall in HP'.
  - rewrite lookup_app_r in E by (rewrite length_insert; lia). rewrite length_insert in E.
    assert (En : i' = n).
    { apply lookup_lt_Some in E. cbn in E. lia. }
    rewrite En, Hlen, Nat.sub_diag in E. cbn in E. injection E as <-. subst i'.
    split; [done|done| |].
    + cbn [moved fst snd]. cbn in Hnew. rewrite length_fmap, Nat.sub_0_r in Hnew.
      destruct Hnew as [Hnew|Hnew]; [|by right]. left. destruct qids; [done|]. cbn in Hnew. lia.
    + cbn [moved snd]. apply Forall_forall. intros x Hx. unfold moves in Hx.
      rewrite take_ge in Hx by lia. apply list_elem_of_In, filter_In in Hx as [Hx Hs%negb_true_iff].
      apply list_elem_of_In in Hx. pose proof (placed_after i x) as Hpl.
      rewrite decide_True, Hs in Hpl by done. apply Hpl. by eapply Forall_forall in HP.
Qed.

Lemma index_after : indexOK st' chainsAfter freeAfter.
Proof.
  pose proof n_ids_after as HN. pose proof ids_after as Hids. pose proof entries_after as Hes.
  pose proof HD as [Hkept _ _ _ _ _ _ Hnew Hfree _ _ Hol Hfr Hpl _ Hhd Hnum _].
  assert (Hlen' : length chainsAfter = S n).
  { unfold chainsAfter. rewrite length_app, length_insert, (ok_len _ _ _ HI). cbn. lia. }
  assert (Hpl' : length (pSlots st') = S n).
  { rewrite Hpl. cbn. rewrite length_app. cbn. subst n. lia. }
  apply Permutation_length in Hids. rewrite !length_app, length_seq in Hids.
  pose proof (ok_cover _ _ _ HI) as Hcov.
  assert (Hused : forall j e, chainsAfter !! j = Some e -> e.1 = [] \/ cap * length e.1 < length e.2).
  { intros j e Ej. by apply (chain_after j e). }
  apply length_allIds_le in Hused.
  split.
  - by rewrite Hpl'.
  - by rewrite Hlen'.
  - apply chain_after.
  - by rewrite <- (proj2 kept_ptrs).
  - done.
  - rewrite Hol. cbn [grown oSlots]. lia.
  - rewrite Hnum, Hes. apply (ok_num _ _ _ HI).
  - rewrite Hol, Hes. cbn [grown oSlots]. destruct Hfr as [->|Hfr].
    + pose proof (ok_olen _ _ _ HI). lia.
    + assert (fids = []) as Hf by (by destruct fids). unfold freeAfter in Hids.
      rewrite Hf, app_nil_r, length_rev, length_drop in Hids. rewrite Hes in Hused.
      assert (length c.1 <= length (allIds chains)).
      { destruct (split_at _ _ _ Ec) as (l1 & l2 & -> & _).
        rewrite allIds_split, !length_app. lia. }
      pose proof (ok_ids_le _ _ _ HI). lia.
Qed.
End AfterSplit.

(** [splitSlot] ends and only adds a slot. *)
Lemma splitSlot_ok st chains free :
  indexOK st chains free -> (Z.of_nat (length (pSlots st)) + 1 < 2 ^ 30)%Z ->
  (Z.of_nat (length (allEntries chains)) < 2 ^ 30)%Z ->
  exists st' chains' free', splitSlot hash zero cap st = (Ok tt, st') /\
    indexOK st' chains' free' /\ allEntries chains' ≡ₚ allEntries chains /\
    length (pSlots st') = S (length (pSlots st)).
Proof.
  intros HI Hp He. pose proof (ok_header _ _ _ HI) as (Hl & _ & _ & Hs & Hn).
  set (i := Z.to_nat (nextSplitSlotId (indexHeader st))).
  assert (Hi : nextSplitSlotId (indexHeader st) = Z.of_nat i) by lia.
  assert (Hilt : i < length (pSlots st)) by lia.
  destruct (chain_exists _ _ _ _ HI Hilt) as [c Ec].
  pose proof (ok_chain _ _ _ HI i c Ec) as [HL HG HU HP].
  destruct (allocatePSlots_1 st) as [r Er]. unfold splitSlot. rewrite (sbind_ok _ _ _ _ _ Er).
  unfold sget, sbind at 1. cbn [grown indexHeader]. rewrite Hi.
  pose proof (split_start st chains free i c HI Ec Hilt) as HI0.
  pose proof (si_ps _ _ _ _ _ _ _ _ _ _ _ _ _ HI0) as HLp.
  pose proof (si_qs _ _ _ _ _ _ _ _ _ _ _ _ _ HI0) as HLq.
  assert (Ho : okAt (grown st) (PSlot i)) by (by apply (HLp 0)).
  assert (Hon : okAt (grown st) (PSlot (length (pSlots st)))) by (by apply (HLq 0)).
  assert (Hlast : (Z.of_nat (length (pSlots (grown st))) - 1)%Z = Z.of_nat (length (pSlots st))).
  { cbn. rewrite length_app. cbn. lia. }
  rewrite !(sbind_ok _ _ _ _ _ (newSlotIterator_ok cap _ _ Ho)), Hlast.
  rewrite (sbind_ok _ _ _ _ _ (newSlotIterator_ok cap _ _ Hon)).
  destruct (chain_ids_NoDup _ _ _ _ _ HI Ec) as (_ & _ & Hids).
  assert (Hce : length c.2 <= length (allEntries chains)).
  { destruct (split_at _ _ _ Ec) as (l1 & l2 & -> & _). rewrite allEntries_split, !length_app. lia. }
  pose proof (ok_olen _ _ _ HI) as Hol.
  assert (HGg : gapless (grown st) (chainPtrs i c.1) c.2).
  { eapply (co_gapless (grown st) i c), (chainOK_same st); [| |done]; [|done].
    intros p Hp'. apply slotAt_grown. apply chainPtrs_elem in Hp' as [->|(j & -> & _)]; [|done].
    intros [=]. lia. }
  assert (HF : Forall (fun x => x.1 = getFingerprintForHash (hash (key x.2))) c.2)
    by (eapply Forall_impl; [exact HP|]; by intros x [? _]).
  assert (Hb : (Z.of_nat (length (oSlots (grown st))) + Z.of_nat (length c.2) < 2 ^ 32)%Z)
    by (cbn [grown oSlots]; lia).
  assert (Hlen : length (chainPtrs i c.1) <= S (length (oSlots (grown st))))
    by (cbn; rewrite length_fmap; lia).
  destruct (splitChain_ok hash zero cap Hcap (grown st) (chainPtrs i c.1) c.2 (OSlot <$> free) i
    (length (pSlots st)) eq_refl (chainPtrs_tail _ _) HLp HGg HF Hb Hlen (ok_header _ _ _ HI) Hp
    (chainFuel (grown st)) _ _ _ _ _ 0 (PSlot i)
    ltac:(rewrite Nat.mul_0_r; exact HI0) ltac:(by left) ltac:(lia) eq_refl eq_refl
    ltac:(unfold chainFuel; lia)) as (st' & qs & fs & m & d & Es & HD).
  rewrite Es.
  assert (exists qids, qs = chainPtrs (length (pSlots st)) qids) as [qids ->].
  { pose proof (sd_q0 _ _ _ _ _ _ _ _ _ _ _ _ HD) as H0. pose proof (sd_qO _ _ _ _ _ _ _ _ _ _ _ _ HD) as HO.
    destruct qs as [|q qs]; [done|]. cbn in H0, HO. simplify_eq.
    destruct (isO_ids _ HO) as [qids ->]. by exists qids. }
  assert (exists fids, fs = OSlot <$> fids) as [fids ->].
  { apply isO_ids. destruct (sd_free _ _ _ _ _ _ _ _ _ _ _ _ HD) as (_ & HO & _).
    by apply Forall_app in HO as [_ HO]. }
  exists st', (chainsAfter st chains i c qids m), (freeAfter c fids m).
  split; [done|]. split; [by eapply index_after|]. split; [by apply (entries_after st chains i c)|].
  rewrite (sd_plen _ _ _ _ _ _ _ _ _ _ _ _ HD). cbn. rewrite length_app. cbn. lia.
Qed.

(** ** Finding an entry *)
Section Find.
Context (k : T) (fp : Z) (isVisible : Z -> bool).

Definition hit (x : Z * SlotEntry T) : Prop :=
  x.1 = fp /\ key x.2 = k /\ isVisible (value x.2) = true.

Lemma findInSlot_ok s l r pos :
  wfSlot cap s -> slotView cap s = (Some <$> l) ++ replicate (cap - length l) None ->
  pos + r = length l ->
  exists res, findInSlot s k fp isVisible pos r = Ok res /\
    match res with
    | Some q => q < length l /\ exists x, l !! q = Some x /\ hit x
    | None => forall q x, pos <= q -> l !! q = Some x -> ~ hit x
    end.
Proof.
  intros Hw Hv. revert pos. induction r as [|r IH]; intros pos Hr; cbn [findInSlot].
  - exists None. split; [done|]. intros q x Hq E. apply lookup_lt_Some in E. lia.
  - destruct (lookup_lt_is_Some_2 l pos) as [[f e] E]; [lia|].
    destruct (view_entry cap Hcap s pos f e) as [-> ->].
    { rewrite Hv, lookup_app_l by (rewrite length_fmap; lia). by rewrite list_lookup_fmap, E. }
    destruct ((f =? fp)%Z && bool_decide (k = key e) && isVisible (value e)) eqn:Ec.
    + apply andb_true_iff in Ec as [[Ef%Z.eqb_eq Ek%bool_decide_eq_true]%andb_true_iff Evis].
      exists (Some pos). split; [done|]. split; [lia|]. exists (f, e). done.
    + destruct (IH (S pos)) as (res & Er & Hres); [lia|]. exists res. split; [done|].
      destruct res as [q|]; [done|]. intros q x Hq Ex.
      destruct (decide (q = pos)) as [->|]; [|by apply (Hres q); [lia|]].
      simplify_eq. intros (H1 & H2 & H3). cbn in H1, H2, H3.
      by rewrite H1, H2, H3, Z.eqb_refl, bool_decide_true in Ec.
Qed.

Lemma findEntryLoop_ok st ps es fuel :
  linked st ps -> Forall isO (tail ps) -> gapless st ps es ->
  (Z.of_nat (length (oSlots st)) <= 2 ^ 32)%Z ->
  forall a p, ps !! a = Some p -> cap * a <= length es -> length ps - a <= fuel ->
  exists res it a' p',
    findEntryLoop cap fuel (iterAt p) k fp isVisible st = (Ok (res, it), st) /\
    slot it = p' /\ ps !! a' = Some p' /\
    match res with
    | Some pos => pos < cap /\ exists x, es !! (cap * a' + pos) = Some x /\ hit x
    | None => (forall q x, cap * a <= q -> es !! q = Some x -> ~ hit x) /\
        cap * a' <= length es /\
        (length es < cap * S a' \/ S a' = length ps /\ length es = cap * S a')
    end.
Proof.
  intros HL HO HG Hb. induction fuel as [|fuel IH]; intros a p Ea Hle Hf.
  { apply lookup_lt_Some in Ea. lia. }
  pose proof (lookup_lt_Some _ _ _ Ea) as Hlt.
  destruct (HL a p Ea) as [(s & Es & Hw) _].
  destruct (gapless_numEntries cap Hcap st ps es a p s HL HG Ea Es) as [Hn Hc].
  pose proof (gapless_slot cap Hcap st ps es a p HL HG Ea) as Hv. cbn in Hv.
  unfold InMemHashIndex.viewAt in Hv. rewrite Es in Hv.
  set (l := take cap (drop (cap * a) es)) in *.
  assert (Hl : length l = min cap (length es - cap * a)) by (subst l; by rewrite length_take, length_drop).
  assert (Hll : forall q x, l !! q = Some x <-> q < cap /\ es !! (cap * a + q) = Some x).
  { intros q x. subst l. rewrite lookup_take_Some, lookup_drop. tauto. }
  cbn [findEntryLoop]. cbn [iterAt slot].
  rewrite (sbind_ok _ _ _ _ _ (readSlot_ok _ _ _ Es)), Hc, Hn, <- Hl.
  rewrite bool_decide_true by done. unfold kuAssert, sret at 1, sbind at 1.
  destruct (findInSlot_ok s l (length l) 0 Hw Hv eq_refl) as (res & Er & Hres).
  rewrite Er. unfold slift, sbind at 1. destruct res as [pos|].
  - exists (Some pos), (iterAt p), a, p. split; [done|]. split; [done|]. split; [done|].
    destruct Hres as (Hpos & x & Ex & Hh). apply Hll in Ex as [? ?]. eauto.
  - case_decide as Hd.
    + exists None, (iterAt p), a, p. split; [done|]. split; [done|]. split; [done|].
      split; [|lia]. intros q x Hq Ex. apply (Hres (q - cap * a)); [lia|]. apply Hll.
      pose proof (lookup_lt_Some _ _ _ Ex). split; [lia|].
      by replace (cap * a + (q - cap * a)) with q by lia.
    + assert (Hfull : cap * S a <= length es) by lia.
      pose proof (nextChainedSlot_ok cap Hcap st ps a p (iterAt p) HL HO Ea eq_refl Hb) as Hnext.
      assert (Hhere : forall q x, cap * a <= q < cap * S a -> es !! q = Some x -> ~ hit x).
      { intros q x Hq Ex. apply (Hres (q - cap * a)); [lia|]. apply Hll. split; [lia|].
        by replace (cap * a + (q - cap * a)) with q by lia. }
      cbn [iterAt] in Hnext |- *.
      destruct (ps !! S a) as [p2|] eqn:Eq; rewrite (sbind_ok _ _ _ _ _ Hnext).
      * destruct (IH (S a) p2 Eq Hfull ltac:(lia)) as (res & it & a' & p' & E1 & E2 & E3 & Hr).
        exists res, it, a', p'. split; [done|]. split; [done|]. split; [done|].
        destruct res; [done|]. destruct Hr as [Hr1 Hr2]. split; [|done].
        intros q x Hq Ex. destruct (decide (q < cap * S a)); [by apply (Hhere q)|].
        apply (Hr1 q); [lia|done].
      * apply lookup_ge_None_1 in Eq. exists None, (mkIter INVALID_OVF_INFO p), a, p.
        pose proof (gapless_length cap Hcap st ps es HL HG) as Htot.
        replace (length ps) with (S a) in * by lia.
        split; [done|]. split; [done|]. split; [done|]. split; [|split; [lia|right; lia]].
        intros q x Hq Ex. pose proof (lookup_lt_Some _ _ _ Ex). apply (Hhere q); [lia|done].
Qed.

End Find.

(** ** Adding an entry to a chain *)
Lemma indexOK_add st st' chains free i c c' free' x d :
  indexOK st chains free -> chains !! i = Some c ->
  headerOK (indexHeader st') (length (pSlots st)) -> length (pSlots st') = length (pSlots st) ->
  (forall h, getPrimarySlotIdForHash (indexHeader st') h = getPrimarySlotIdForHash (indexHeader st) h) ->
  indexNumEntries (indexHeader st') = (indexNumEntries (indexHeader st) + 1)%Z ->
  linked st' (chainPtrs i c'.1) -> gapless st' (chainPtrs i c'.1) c'.2 ->
  (c'.1 = [] \/ cap * length c'.1 < length c'.2) ->
  c'.2 = c.2 ++ [x] -> placed (indexHeader st) i x ->
  (forall p, p ∉ chainPtrs i c'.1 -> sameAt st st' p) ->
  freeListOK st' (OSlot <$> free') ->
  c'.1 ++ free' ≡ₚ (c.1 ++ free) ++ seq (length (oSlots st)) d -> d <= 1 ->
  length (oSlots st') = length (oSlots st) + d ->
  indexOK st' (<[i := c']> chains) free' /\
  allEntries (<[i := c']> chains) ≡ₚ x :: allEntries chains.
Proof.
  intros HI Ec Hhd Hpl Hplace Hnum HL HG HU Hc' Hx Hsame Hfree Hperm Hd Hol.
  destruct (split_at _ _ _ Ec) as (l1 & l2 & E & Hl1 & Hins).
  assert (Hes : allEntries (<[i := c']> chains) ≡ₚ x :: allEntries chains).
  { rewrite Hins, E, !allEntries_split, Hc', <- !app_assoc. cbn.
    by rewrite <- !Permutation_middle. }
  assert (Hids : allIds (<[i := c']> chains) ++ free' ≡ₚ
                 (allIds chains ++ free) ++ seq (length (oSlots st)) d).
  { rewrite Hins, E, !allIds_split, <- !app_assoc. f_equiv.
    rewrite (Permutation_app_swap_app c'.1), (Permutation_app_swap_app c.1), Hperm.
    by rewrite <- !app_assoc. }
  clear E Hins Hl1 l1 l2.
  assert (HP : forall j y, placed (indexHeader st) j y -> placed (indexHeader st') j y).
  { intros j y [H1 H2]. split; [done|]. by rewrite Hplace. }
  pose proof (ok_ids _ _ _ HI) as HN. pose proof (ok_cover _ _ _ HI) as Hcov.
  pose proof (ok_chain _ _ _ HI i c Ec) as [_ _ _ HPc].
  split; [|done]. split.
  - by rewrite Hpl.
  - by rewrite length_insert, Hpl, (ok_len _ _ _ HI).
  - intros i' c2 E2. destruct (decide (i' = i)) as [->|Hne].
    + rewrite list_lookup_insert_eq in E2 by (by apply lookup_lt_Some in Ec). simplify_eq.
      split; [done..|]. rewrite Hc'. apply Forall_app. split; [|apply Forall_singleton, HP, Hx].
      by eapply Forall_impl; [exact HPc|auto].
    + rewrite list_lookup_insert_ne in E2 by done.
      pose proof (ok_chain _ _ _ HI i' c2 E2) as HC.
      apply (chainOK_same st); [|by eapply Forall_impl; [apply HC|auto]|done].
      intros p Hp. apply Hsame. intros Hq. apply chainPtrs_elem in Hp, Hq.
      destruct Hp as [->|(j & -> & Hj)], Hq as [Hq|(j' & Hq & Hj')]; simplify_eq.
      assert (Hin : j' ∈ allIds chains) by (by eapply in_allIds).
      assert (j' ∈ (c.1 ++ free) ++ seq (length (oSlots st)) d) as [[Hc|Hf]%elem_of_app|Hs%elem_of_seq]%elem_of_app.
      { rewrite <- Hperm. apply elem_of_app. by left. }
      * apply NoDup_app in HN as (HN & _). by eapply (allIds_disjoint chains i i').
      * apply NoDup_app in HN as (_ & Hdis & _). by apply (Hdis j').
      * assert (j' < length (oSlots st)); [|lia]. apply (id_in_range st chains free); [done|].
        apply elem_of_app. by left.
  - done.
  - rewrite Hids. apply NoDup_fresh; [done|]. intros j. by apply (id_in_range st chains free).
  - apply Permutation_length in Hids. rewrite !length_app, length_seq in Hids. lia.
  - rewrite Hnum, (ok_num _ _ _ HI), Hes. cbn. lia.
  - pose proof (ok_olen _ _ _ HI). rewrite Hol, Hes. cbn. lia.
Qed.

(** ** [appendInternal] *)
Definition withVisible (k : T) (isVisible : Z -> bool) (bag : list (SlotEntry T)) : Prop :=
  exists e, e ∈ bag /\ key e = k /\ isVisible (value e) = true.

Lemma placement_incNum hd h :
  getPrimarySlotIdForHash (incNumEntries hd) h = getPrimarySlotIdForHash hd h.
Proof. done. Qed.

Lemma cellWrite_header st st' p pos x hd :
  cellWrite cap st st' p pos x -> forall q, sameAt st' (setHeader hd st') q.
Proof. intros _ q. apply slotAt_setHeader. Qed.

Lemma linked_setHeader st hd ps : linked st ps -> linked (setHeader hd st) ps.
Proof. apply linked_same. intros q _. apply slotAt_setHeader. Qed.

Lemma gapless_setHeader st hd ps es : gapless st ps es -> gapless (setHeader hd st) ps es.
Proof.
  intros [r E]. exists r. rewrite <- E. apply chainView_ext. intros q _.
  by apply sameAt_view, slotAt_setHeader.
Qed.

Lemma freeListOK_setHeader st hd fs :
  firstFreeOverflowSlotId hd = firstFreeOverflowSlotId (indexHeader st) ->
  freeListOK st fs -> freeListOK (setHeader hd st) fs.
Proof.
  intros Hf (HL & HO & HN & Hv & Hh). split; [by apply linked_setHeader|].
  split; [done|]. split; [done|]. split; [|cbn; congruence].
  intros q Hq. rewrite (sameAt_view cap st); [auto|apply slotAt_setHeader].
Qed.

Section Append.
Context st chains free (HI : indexOK st chains free) (k : T) (v : Z).
Context (i : nat) (c : chain T) (Ec : chains !! i = Some c).
Context (Hi : getPrimarySlotIdForHash (indexHeader st) (hash k) = Z.of_nat i).
Context (Hnum : (Z.of_nat (length (allEntries chains)) + 1 < 2 ^ 30)%Z).
Let fp := getFingerprintForHash (hash k).
Let x : Z * SlotEntry T := (fp, mkEntry k v).
Let ps := chainPtrs i c.1.

Lemma num_wrap : wrapU 64 (indexNumEntries (indexHeader st) + 1) = (indexNumEntries (indexHeader st) + 1)%Z.
Proof.
  apply wrapU_id. rewrite (ok_num _ _ _ HI). split; [lia|].
  change (2 ^ 64)%Z with 18446744073709551616%Z. change (2 ^ 30)%Z with 1073741824%Z in Hnum. lia.
Qed.

Lemma placed_new : placed (indexHeader st) i x.
Proof. done. Qed.

(** The last slot has room. *)
Lemma appendHere_ok a p :
  ps !! a = Some p -> cap * a <= length c.2 -> length c.2 < cap * S a ->
  exists st' chains' free',
    (index_insert hash k p (length c.2 - cap * a) v fp ;;;
     updateHeader (fun hd => Ok (incNumEntries hd)) ;;;
     sret true) st = (Ok true, st') /\
    indexOK st' chains' free' /\ allEntries chains' ≡ₚ x :: allEntries chains.
Proof.
  intros Ea Hle Hlt. pose proof (ok_chain _ _ _ HI i c Ec) as [HL HG HU HP].
  destruct (chain_ids_NoDup _ _ _ _ _ HI Ec) as (HNi & Hfree & _).
  destruct (HL a p Ea) as [Ho _]. set (pos := length c.2 - cap * a).
  destruct (writeEntry_cell cap Hcap st p pos (mkEntry k v) fp Ho ltac:(lia)) as (st1 & E1 & C1).
  unfold index_insert. rewrite bool_decide_true by done. unfold kuAssert.
  unfold sbind at 2, sret at 1. rewrite (sbind_ok _ _ _ _ _ E1).
  unfold updateHeader. srun.
  set (st' := setHeader (incNumEntries (indexHeader st1)) st1).
  assert (Hp : p ∈ ps) by (by eapply list_elem_of_lookup_2).
  assert (Eh : indexHeader st1 = indexHeader st) by apply C1.
  exists st', (<[i := (c.1, c.2 ++ [x])]> chains), free. split; [done|].
  apply (indexOK_add st st' chains free i c (c.1, c.2 ++ [x]) free x 0); try done.
  - subst st'. cbn [setHeader indexHeader]. rewrite Eh. apply (ok_header _ _ _ HI).
  - apply C1.
  - intros h. subst st'. cbn [setHeader indexHeader]. by rewrite Eh.
  - subst st'. cbn [setHeader indexHeader incNumEntries indexNumEntries]. by rewrite Eh, num_wrap.
  - apply linked_setHeader. by eapply linked_cell.
  - apply gapless_setHeader. eapply (gapless_append cap Hcap st st1 _ a p pos); try done.
    + by apply NoDup_chainPtrs.
    + lia.
    + cbn [snd]. lia.
    + intros q _ Hq. by eapply view_cell.
    + apply C1.
  - cbn [fst snd]. rewrite length_app. cbn. destruct HU; [by left|right; lia].
  - intros q Hq. eapply sameAt_trans; [apply C1; intros ->; done|apply slotAt_setHeader].
  - apply freeListOK_setHeader; [done|]. eapply freeListOK_cell; [exact C1| |apply HI].
    intros Hpf. apply chainPtrs_elem in Hp as [->|(j & -> & Hj)].
    + by apply list_elem_of_fmap in Hpf as (? & [=] & _).
    + apply (Hfree j Hj). by apply elem_OSlot.
  - by rewrite app_nil_r.
  - lia.
  - cbn [setHeader st' oSlots]. rewrite (cw_o _ _ _ _ _ _ C1). lia.
Qed.

(** The chain is full: a new overflow slot. *)
Lemma appendNew_ok a p :
  ps !! a = Some p -> S a = length ps -> length c.2 = cap * S a ->
  exists st' chains' free',
    (insertToNewOvfSlot hash zero cap k p v fp ;;;
     updateHeader (fun hd => Ok (incNumEntries hd)) ;;;
     sret true) st = (Ok true, st') /\
    indexOK st' chains' free' /\ allEntries chains' ≡ₚ x :: allEntries chains.
Proof.
  intros Ea Hlast Hfull. pose proof (ok_chain _ _ _ HI i c Ec) as [HL HG HU HP].
  destruct (chain_ids_NoDup _ _ _ _ _ HI Ec) as (HNi & Hfree & _).
  pose proof (ok_olen _ _ _ HI) as Hol.
  assert (Hb : (Z.of_nat (length (oSlots st)) < 2 ^ 32)%Z).
  { change (2 ^ 32)%Z with 4294967296%Z. change (2 ^ 30)%Z with 1073741824%Z in Hnum. lia. }
  assert (HNp : NoDup ps) by (by apply NoDup_chainPtrs).
  assert (Hdq : forall q, q ∈ ps -> q ∉ (OSlot <$> free)).
  { intros q Hq Hqf. apply chainPtrs_elem in Hq as [->|(j & -> & Hj)].
    - by apply list_elem_of_fmap in Hqf as (? & [=] & _).
    - apply (Hfree j Hj). by apply elem_OSlot. }
  destruct (linkNew_ok zero cap Hcap st ps (OSlot <$> free) p (ok_free _ _ _ HI) Hb HL HNp
    ltac:(by replace (length ps - 1) with a by lia) Hdq) as (st1 & st2 & j & fs' & E1 & E2 & LN).
  assert (exists free', fs' = OSlot <$> free') as [free' ->].
  { apply isO_ids. by destruct (ln_free _ _ _ _ _ _ _ _ LN) as (_ & HO & _). }
  pose proof (ln_chain _ _ _ _ _ _ _ _ LN) as HL2.
  assert (Eps : ps ++ [OSlot j] = chainPtrs i (c.1 ++ [j])).
  { unfold ps, chainPtrs. by rewrite fmap_app. }
  assert (Elast : (ps ++ [OSlot j]) !! length ps = Some (OSlot j)).
  { by rewrite lookup_app_r, Nat.sub_diag by lia. }
  destruct (HL2 _ _ Elast) as [Hoj _].
  destruct (writeEntry_cell cap Hcap st2 (OSlot j) 0 (mkEntry k v) fp Hoj ltac:(lia)) as (st3 & E3 & C3).
  unfold insertToNewOvfSlot, sbind at 1.
  rewrite (sbind_ok _ _ _ _ _ E1), (sbind_ok _ _ _ _ _ E2).
  rewrite (sbind_ok _ _ _ _ _ (getSlot_ok cap st2 (OSlot j) Hoj)).
  unfold index_insert. rewrite bool_decide_true by done. unfold kuAssert.
  unfold sbind at 1, sret at 1. rewrite E3. unfold updateHeader. srun.
  set (st' := setHeader (incNumEntries (indexHeader st3)) st3).
  assert (Eh : indexHeader st3 = setFirstFree (idOf ((OSlot <$> free') !! 0)) (indexHeader st)).
  { rewrite (cw_header _ _ _ _ _ _ C3). apply LN. }
  destruct (ln_notin _ _ _ _ _ _ _ _ LN) as [Hjq Hjf].
  pose proof (ln_case _ _ _ _ _ _ _ _ LN) as Hcase.
  set (d := if decide (free = []) then 1 else 0).
  exists st', (<[i := (c.1 ++ [j], c.2 ++ [x])]> chains), free'. split; [done|].
  apply (indexOK_add st st' chains free i c (c.1 ++ [j], c.2 ++ [x]) free' x d); try done;
    cbn [fst snd].
  - subst st'. cbn [setHeader indexHeader]. rewrite Eh. apply (ok_header _ _ _ HI).
  - cbn [setHeader st' pSlots]. rewrite (cw_p _ _ _ _ _ _ C3). apply LN.
  - intros h. subst st'. cbn [setHeader indexHeader]. by rewrite Eh.
  - subst st'. cbn [setHeader indexHeader incNumEntries indexNumEntries]. rewrite Eh. exact num_wrap.
  - rewrite <- Eps. apply linked_setHeader. by eapply linked_cell.
  - rewrite <- Eps. apply gapless_setHeader.
    eapply (gapless_append cap Hcap st2 st3 _ (length ps) (OSlot j) 0); try done.
    + rewrite Eps. apply NoDup_chainPtrs. apply NoDup_app. split; [done|]. split; [|apply NoDup_singleton].
      intros r Hr ->%list_elem_of_singleton. apply Hjq. apply chainPtrs_elem. right. by exists j.
    + destruct (last_split cap Hcap ps p) as (ps0 & Ep & _); [by replace (length ps - 1) with a by lia|].
      fold ps in HG. rewrite Ep, <- app_assoc. apply (gapless_snoc cap st); [by rewrite <- Ep..| |apply LN].
      rewrite <- Ep. intros r Hr. apply LN. by intros ->.
    + lia.
    + rewrite <- Hlast. lia.
    + intros q _ Hq. by eapply view_cell.
    + apply C3.
  - right. rewrite !length_app. cbn. unfold ps in Hlast. cbn in Hlast. rewrite length_fmap in Hlast.
    rewrite Hfull. replace (length c.1 + 1) with (S a) by lia. lia.
  - intros q Hq. rewrite <- Eps in Hq. eapply sameAt_trans; [apply LN|].
    + intros ->. apply Hq, elem_of_app. right. by left.
    + intros ->. apply Hq, elem_of_app. left. by eapply list_elem_of_lookup_2.
    + eapply sameAt_trans; [apply C3|apply slotAt_setHeader].
      intros ->. apply Hq, elem_of_app. right. by left.
  - apply freeListOK_setHeader; [done|]. eapply freeListOK_cell; [exact C3|done|apply LN].
  - subst d. destruct Hcase as [(Ef & Ef' & -> & _)|[Ef _]].
    + apply fmap_nil_inv in Ef, Ef'. rewrite Ef, Ef', decide_True by done. cbn. by rewrite !app_nil_r.
    + destruct free as [|j0 free0]; [done|]. cbn in Ef. injection Ef as -> Ef.
      apply (inj (fmap OSlot)) in Ef as ->. rewrite decide_False by done. cbn.
      rewrite app_nil_r, <- app_assoc. done.
  - subst d. case_decide; lia.
  - cbn [setHeader st' oSlots]. rewrite (cw_o _ _ _ _ _ _ C3). subst d.
    destruct Hcase as [(Ef & _ & _ & ->)|[Ef ->]].
    + apply fmap_nil_inv in Ef. rewrite decide_True by done. lia.
    + rewrite decide_False; [lia|]. by intros ->.
Qed.

End Append.

(** ** Allocating primary slots for an empty index *)
Definition masksOK (hd : HashIndexHeader) : Prop :=
  (1 <= currentLevel hd <= 29)%Z /\
  levelHashMask hd = (2 ^ currentLevel hd - 1)%Z /\
  higherLevelHashMask hd = (2 ^ (currentLevel hd + 1) - 1)%Z.

Lemma setHeader_id st : setHeader (indexHeader st) st = st.
Proof. by destruct st. Qed.

Lemma raiseLevel_ok fuel :
  forall st new,
  masksOK (indexHeader st) -> (30 - currentLevel (indexHeader st) < Z.of_nat fuel)%Z ->
  (2 ^ currentLevel (indexHeader st) <= new < 2 ^ 30)%Z ->
  exists hd, raiseLevel fuel new (2 ^ currentLevel (indexHeader st)) st =
      (Ok (2 ^ currentLevel hd)%Z, setHeader hd st) /\ masksOK hd /\
    (2 ^ currentLevel hd <= new < 2 ^ (currentLevel hd + 1))%Z /\
    indexNumEntries hd = indexNumEntries (indexHeader st) /\
    firstFreeOverflowSlotId hd = firstFreeOverflowSlotId (indexHeader st).
Proof.
  induction fuel as [|fuel IH]; intros st new (Hl & E1 & E2) Hf Hnew; [lia|].
  set (l := currentLevel (indexHeader st)) in *. cbn [raiseLevel].
  assert (Hd : wrapU 32 (Z.shiftl (2 ^ l) 1) = (2 ^ (l + 1))%Z).
  { rewrite Z.shiftl_mul_pow2, <- Z.pow_add_r by lia. apply wrapU_id.
    split; [lia|]. apply Z.pow_lt_mono_r; lia. }
  rewrite Hd. destruct (Z.leb_spec (2 ^ (l + 1)) new).
  - assert (Hl29 : (l + 1 < 30)%Z) by (apply (Z.pow_lt_mono_r_iff 2); lia).
    set (hd1 := mkIndexHeader (l + 1) (2 ^ (l + 1) - 1) (2 ^ (l + 1 + 1) - 1) 0
      (indexNumEntries (indexHeader st)) (firstFreeOverflowSlotId (indexHeader st))).
    assert (Ei : incrementLevel (indexHeader st) = Ok hd1).
    { unfold incrementLevel, intMask. fold l. rewrite !(proj2 (Z.leb_le _ 30)) by lia. cbn [obind].
      by rewrite !Z.shiftl_1_l. }
    assert (Eu : updateHeader incrementLevel st = (Ok tt, setHeader hd1 st)).
    { unfold updateHeader. srun. by rewrite Ei. }
    rewrite (sbind_ok _ _ _ _ _ Eu).
    destruct (IH (setHeader hd1 st) new) as (hd & Er & HM & Hb & Hn & Hff);
      cbn [setHeader indexHeader hd1 currentLevel] in *; [|lia|lia|].
    + split; cbn; [lia|done].
    + exists hd. by rewrite Er.
  - exists (indexHeader st). rewrite setHeader_id. unfold sret. split; [done|].
    split; [done|]. split; [subst l; lia|done].
Qed.

Lemma allocateSlots_ok st new :
  masksOK (indexHeader st) -> (2 ^ currentLevel (indexHeader st) <= new < 2 ^ 30)%Z ->
  (Z.of_nat (length (pSlots st)) <= new)%Z ->
  exists hd, allocateSlots zero cap new st =
      (Ok tt, mkIndex (pSlots st ++ replicate (Z.to_nat new - length (pSlots st)) (newSlot cap zero))
                (oSlots st) hd) /\
    headerOK hd (Z.to_nat new) /\ indexNumEntries hd = indexNumEntries (indexHeader st) /\
    firstFreeOverflowSlotId hd = firstFreeOverflowSlotId (indexHeader st).
Proof.
  intros HM Hnew Hlen. pose proof HM as (Hl & _). unfold allocateSlots, sget, sbind at 1.
  rewrite (proj2 (Z.ltb_lt _ _)) by lia. unfold sret at 1, sbind at 1.
  rewrite Z.shiftl_1_l, wrapU_id by (split; [lia|]; apply Z.pow_lt_mono_r; lia).
  destruct (raiseLevel_ok 64 st new HM ltac:(lia) Hnew) as (hd & Er & (Hl' & E1 & E2) & Hb & Hn & Hff).
  rewrite (sbind_ok _ _ _ _ _ Er). rewrite (proj2 (Z.leb_le _ _)) by lia.
  set (hd' := setNextSplit (new - 2 ^ currentLevel hd) hd).
  exists hd'. assert (Eu : updateHeader (fun h => Ok (setNextSplit (new - 2 ^ currentLevel hd) h))
    (setHeader hd st) = (Ok tt, setHeader hd' st)) by done.
  rewrite (sbind_ok _ _ _ _ _ Eu). unfold sbind at 1. cbn [setHeader pSlots].
  split; [|split; [|done]].
  - destruct (Z.ltb_spec (Z.of_nat (length (pSlots st))) new).
    + unfold allocatePSlots. srun. cbn [setHeader pSlots oSlots indexHeader].
      rewrite wrapU_id by (split; [lia|]; change (2 ^ 32)%Z with 4294967296%Z;
        change (2 ^ 30)%Z with 1073741824%Z in Hnew; lia).
      by replace (Z.to_nat (new - Z.of_nat (length (pSlots st)))) with
        (Z.to_nat new - length (pSlots st)) by lia.
    + replace (Z.to_nat new - length (pSlots st)) with 0 by lia. cbn. by rewrite app_nil_r.
  - rewrite Z.pow_add_r in Hb by lia.
    split; cbn; [lia|]. split; [done|]. split; [done|]. lia.
Qed.

(** The chains of an index without entries, after more primary slots were added. *)
Lemma indexOK_grow_empty st chains free hd n :
  (forall i c, chains !! i = Some c -> chainOK st i c) -> length chains = length (pSlots st) ->
  freeListOK st (OSlot <$> free) -> NoDup (allIds chains ++ free) ->
  length (allIds chains) + length free = length (oSlots st) -> allEntries chains = [] ->
  length (oSlots st) = 0 ->
  headerOK hd n -> length (pSlots st) <= n -> indexNumEntries hd = 0%Z ->
  firstFreeOverflowSlotId hd = firstFreeOverflowSlotId (indexHeader st) ->
  exists chains', indexOK
    (mkIndex (pSlots st ++ replicate (n - length (pSlots st)) (newSlot cap zero)) (oSlots st) hd)
    chains' free /\ allEntries chains' = [].
Proof.
  intros HC Hlen HF HN Hcov Hes Ho HO Hn Hnum Hff.
  set (st' := mkIndex _ _ _). set (d := n - length (pSlots st)) in *.
  exists (chains ++ replicate d ([], [])).
  assert (Hids : allIds (chains ++ replicate d ([], [])) = allIds chains).
  { unfold allIds. rewrite fmap_app, concat_app, fmap_replicate. cbn.
    clear. induction d; cbn; by rewrite ?app_nil_r in *. }
  assert (Hents : allEntries (chains ++ replicate d ([], [])) = []).
  { unfold allEntries in *. rewrite fmap_app, concat_app, fmap_replicate, Hes. cbn.
    clear. induction d; by cbn. }
  assert (Hsame : forall p, okAt st p -> sameAt st st' p).
  { intros [i|i] Hp; [|done]. apply okAt_P in Hp. unfold sameAt. cbn. by apply lookup_app_l. }
  split; [|done]. split; rewrite ?Hids, ?Hents; try done.
  - cbn. rewrite length_app, length_replicate. by replace (length (pSlots st) + d) with n by lia.
  - cbn. rewrite !length_app, !length_replicate. lia.
  - intros i c E. destruct (decide (i < length chains)).
    + rewrite lookup_app_l in E by done. pose proof (HC i c E) as HCi.
      assert (c.2 = []) as Hc2.
      { destruct (split_at _ _ _ E) as (l1 & l2 & Ec & _). rewrite Ec, allEntries_split in Hes.
        by apply app_eq_nil in Hes as [_ [? _]%app_eq_nil]. }
      apply (chainOK_same st); [|by rewrite Hc2|done].
      intros p Hp. apply Hsame. eapply linked_ok; [apply HCi|done].
    + rewrite lookup_app_r in E by lia. pose proof (lookup_lt_Some _ _ _ E) as Hlt.
      rewrite length_replicate in Hlt. rewrite lookup_replicate_2 in E by done. simplify_eq.
      assert (Enew : slotAt st' (PSlot i) = Some (newSlot cap zero)).
      { cbn. rewrite lookup_app_r by lia. rewrite lookup_replicate_2; [done|]. lia. }
      split; cbn; [| |by left|by constructor].
      * intros [|k] p Ek; cbn in Ek; [|done]. simplify_eq.
        split; [eexists; split; [exact Enew|apply wf_newSlot]|]. unfold nextAt. by rewrite Enew.
      * exists cap. cbn. rewrite app_nil_r. unfold InMemHashIndex.viewAt. rewrite Enew.
        by apply slotView_newSlot.
  - destruct HF as (HL & HOf & HNf & Hv & Hh). split; [|split; [done|split; [done|split]]].
    + apply (linked_same cap st); [|done]. intros p Hp. apply Hsame. by eapply linked_ok.
    + intros p Hp. rewrite (sameAt_view cap st); [auto|]. apply Hsame. by eapply linked_ok.
    + cbn. by rewrite Hff.
  - cbn. rewrite Ho. lia.
Qed.

(** ** The operations on the bag *)

Lemma holds_ok st bag :
  holds st bag -> exists chains free, indexOK st chains free /\
    (snd <$> allEntries chains) ≡ₚ bag /\ length (allEntries chains) = length bag.
Proof.
  intros (chains & free & HI & Hb). exists chains, free. split; [done|]. split; [done|].
  by rewrite <- Hb, length_fmap.
Qed.

Lemma visible_hit st chains free k isVisible i c :
  indexOK st chains free -> chains !! i = Some c ->
  getPrimarySlotIdForHash (indexHeader st) (hash k) = Z.of_nat i ->
  withVisible k isVisible (snd <$> allEntries chains) <->
  exists x, x ∈ c.2 /\ hit k (getFingerprintForHash (hash k)) isVisible x.
Proof.
  intros HI Ec Hi. split.
  - intros (e & (x & -> & Hx)%list_elem_of_fmap & Hk & Hv).
    destruct (entry_in_its_chain st chains free x HI Hx) as (i' & c' & Ec' & Hx' & Hf & Hp).
    rewrite Hk, Hi in Hp. assert (i = i') as <- by lia. assert (c' = c) as -> by congruence.
    exists x. split; [done|]. split; [|done]. by rewrite Hf, Hk.
  - intros (x & Hx & Hf & Hk & Hv). exists x.2. split; [|done].
    apply list_elem_of_fmap_2. by eapply in_allEntries.
Qed.

(** The walk of [findEntry] from the key's primary slot. *)
Lemma findEntry_ok st chains free k isVisible i c :
  indexOK st chains free -> chains !! i = Some c ->
  (Z.of_nat (length (allEntries chains)) < 2 ^ 30)%Z ->
  exists res it a p,
    findEntry cap (iterAt (PSlot i)) k (getFingerprintForHash (hash k)) isVisible st =
      (Ok (res, it), st) /\ slot it = p /\ chainPtrs i c.1 !! a = Some p /\
    match res with
    | Some pos => pos < cap /\ exists x, c.2 !! (cap * a + pos) = Some x /\
        hit k (getFingerprintForHash (hash k)) isVisible x
    | None => (forall x, x ∈ c.2 -> ~ hit k (getFingerprintForHash (hash k)) isVisible x) /\
        cap * a <= length c.2 /\
        (length c.2 < cap * S a \/
         S a = length (chainPtrs i c.1) /\ length c.2 = cap * S a)
    end.
Proof.
  intros HI Ec Hb. pose proof (ok_chain _ _ _ HI i c Ec) as [HL HG _ _].
  destruct (chain_ids_NoDup _ _ _ _ _ HI Ec) as (_ & _ & Hlen). pose proof (ok_olen _ _ _ HI).
  unfold findEntry, sget, sbind at 1.
  destruct (findEntryLoop_ok k (getFingerprintForHash (hash k)) isVisible st
    (chainPtrs i c.1) c.2 (chainFuel st) HL (chainPtrs_tail _ _) HG) with (a := 0) (p := PSlot i)
    as (res & it & a & p & E & Es & Ea & Hr).
  { change (2 ^ 32)%Z with 4294967296%Z. change (2 ^ 30)%Z with 1073741824%Z in Hb. lia. }
  { done. } { lia. } { unfold chainFuel. cbn. rewrite length_fmap. lia. }
  exists res, it, a, p. split; [done|]. split; [done|]. split; [done|].
  destruct res as [pos|]; [done|]. destruct Hr as [Hr1 Hr2]. split; [|done].
  intros x (q & Hq)%list_elem_of_lookup_1. apply (Hr1 q); [lia|done].
Qed.

Lemma appendInternal_ok st bag k v isVisible :
  holds st bag -> (Z.of_nat (length bag) + 1 < 2 ^ 30)%Z ->
  exists b st', appendInternal hash zero cap k v (hash k) isVisible st = (Ok b, st') /\
    if (b : bool) then ~ withVisible k isVisible bag /\ holds st' (mkEntry k v :: bag)
    else withVisible k isVisible bag /\ holds st' bag.
Proof.
  intros Hh Hb. destruct (holds_ok st bag Hh) as (chains & free & HI & Hperm & Hlen).
  rewrite <- Hlen in Hb.
  destruct (chain_of_hash st chains free (hash k) HI) as (i & c & Hi & Ec).
  pose proof (visible_hit st chains free k isVisible i c HI Ec Hi) as Hvis.
  assert (Hvis' : withVisible k isVisible bag <-> withVisible k isVisible (snd <$> allEntries chains)).
  { unfold withVisible. by setoid_rewrite Hperm. }
  pose proof (ok_chain _ _ _ HI i c Ec) as [HL HG _ _].
  unfold appendInternal, sget, sbind at 1. rewrite Hi.
  assert (Ho : okAt st (PSlot i)) by (by apply (HL 0)).
  rewrite (sbind_ok _ _ _ _ _ (newSlotIterator_ok cap _ _ Ho)).
  destruct (findEntry_ok st chains free k isVisible i c HI Ec ltac:(lia))
    as (res & it & a & p & E & Es & Ea & Hr).
  rewrite (sbind_ok _ _ _ _ _ E), Es.
  destruct (HL a p Ea) as [(s & Esl & _) _]. rewrite (sbind_ok _ _ _ _ _ (readSlot_ok _ _ _ Esl)).
  destruct (gapless_numEntries cap Hcap st _ _ a p s HL HG Ea Esl) as [Hn _].
  destruct res as [pos|].
  - destruct Hr as (_ & x & Ex & Hx). exists false, st. split; [done|]. split; [|done].
    apply Hvis', Hvis. exists x. split; [by eapply list_elem_of_lookup_2|done].
  - destruct Hr as (Hno & Hle & Hend).
    assert (Hnot : ~ withVisible k isVisible bag).
    { rewrite Hvis', Hvis. intros (x & Hx & Hhit). by apply (Hno x). }
    rewrite Hn. case_decide as Hd.
    + replace (min cap (length c.2 - cap * a)) with (length c.2 - cap * a) by lia.
      destruct (appendHere_ok st chains free HI k v i c Ec Hi Hb a p Ea Hle ltac:(lia))
        as (st' & chains' & free' & E' & HI' & Hp').
      exists true, st'. split; [done|]. split; [done|]. exists chains', free'.
      split; [done|]. by rewrite Hp', fmap_cons, Hperm.
    + destruct (appendNew_ok st chains free HI k v i c Ec Hi Hb a p Ea ltac:(lia) ltac:(lia))
        as (st' & chains' & free' & E' & HI' & Hp').
      exists true, st'. split; [done|]. split; [done|]. exists chains', free'.
      split; [done|]. by rewrite Hp', fmap_cons, Hperm.
Qed.

(** [lookup] *)
Lemma lookup_ok st bag k isVisible :
  holds st bag -> (Z.of_nat (length bag) < 2 ^ 30)%Z ->
  exists r, index_lookup hash cap k isVisible st = (Ok r, st) /\
    match r with
    | Some v => mkEntry k v ∈ bag /\ isVisible v = true
    | None => ~ withVisible k isVisible bag
    end.
Proof.
  intros Hh Hb. destruct (holds_ok st bag Hh) as (chains & free & HI & Hperm & Hlen).
  unfold index_lookup, sget, sbind at 1. case_decide as Hz.
  { exists None. split; [done|]. rewrite (ok_num _ _ _ HI) in Hz.
    assert (length bag = 0) as Hnil by lia. intros (e & He & _).
    apply nil_length_inv in Hnil as ->. by apply elem_of_nil in He. }
  destruct (chain_of_hash st chains free (hash k) HI) as (i & c & Hi & Ec).
  pose proof (visible_hit st chains free k isVisible i c HI Ec Hi) as Hvis.
  pose proof (ok_chain _ _ _ HI i c Ec) as [HL HG _ _]. rewrite Hi.
  assert (Ho : okAt st (PSlot i)) by (by apply (HL 0)).
  rewrite (sbind_ok _ _ _ _ _ (newSlotIterator_ok cap _ _ Ho)).
  destruct (findEntry_ok st chains free k isVisible i c HI Ec ltac:(lia))
    as (res & it & a & p & E & Es & Ea & Hr).
  rewrite (sbind_ok _ _ _ _ _ E). destruct res as [pos|].
  - destruct Hr as (Hpos & [f e] & Ex & _ & Hk & Hv). cbn in Hk, Hv.
    destruct (HL a p Ea) as [(s & Esl & _) _]. rewrite Es, (sbind_ok _ _ _ _ _ (readSlot_ok _ _ _ Esl)).
    pose proof (gapless_prefix cap Hcap st _ _ a p HL HG Ea) as (r & Er & _).
    pose proof (chainView_lookup cap Hcap st _ a p pos HL Ea Hpos) as Hv1.
    rewrite Er, lookup_app_l in Hv1 by (rewrite length_fmap; by apply lookup_lt_Some in Ex).
    rewrite list_lookup_fmap, Ex in Hv1. unfold InMemHashIndex.viewAt in Hv1. rewrite Esl in Hv1.
    destruct (view_entry cap Hcap s pos f e (eq_sym Hv1)) as [_ He].
    exists (Some (value e)). unfold arr_get. rewrite He. split; [done|]. split; [|done].
    rewrite <- Hperm. apply list_elem_of_fmap. exists (f, e). split; [rewrite <- Hk; by destruct e|].
    eapply in_allEntries; [done|]. by eapply list_elem_of_lookup_2.
  - exists None. split; [done|]. intros Hw. destruct Hr as (Hno & _).
    assert (withVisible k isVisible (snd <$> allEntries chains)) as Hw'.
    { unfold withVisible in *. by setoid_rewrite Hperm. }
    apply Hvis in Hw' as (x & Hx & Hhit). by apply (Hno x).
Qed.

(** [reserve] *)
Lemma splitUntil_ok fuel :
  forall st bag n, holds st bag -> (Z.of_nat (length bag) < 2 ^ 30)%Z -> (n < 2 ^ 30)%Z ->
  (n - Z.of_nat (length (pSlots st)) <= Z.of_nat fuel)%Z ->
  exists st', splitUntil hash zero cap fuel n st = (Ok tt, st') /\ holds st' bag.
Proof.
  induction fuel as [|fuel IH]; intros st bag n Hh Hb Hn Hf; cbn [splitUntil];
    unfold sget, sbind at 1; destruct (Z.ltb_spec (Z.of_nat (length (pSlots st))) n).
  - lia.
  - by exists st.
  - destruct (holds_ok st bag Hh) as (chains & free & HI & Hperm & Hlen).
    destruct (splitSlot_ok st chains free HI ltac:(lia) ltac:(lia))
      as (st1 & chains1 & free1 & E1 & HI1 & Hp1 & Hl1).
    rewrite (sbind_ok _ _ _ _ _ E1). apply (IH st1 bag n); [|done|done|lia].
    exists chains1, free1. split; [done|]. by rewrite Hp1.
  - by exists st.
Qed.

Lemma reserve_ok st bag n :
  holds st bag -> (Z.of_nat (length bag) < 2 ^ 30)%Z -> (0 <= n < 2 ^ 29)%Z ->
  exists st', reserve hash zero cap n st = (Ok tt, st') /\ holds st' bag.
Proof.
  intros Hh Hb Hn. unfold reserve.
  change (2 ^ 29)%Z with 536870912%Z in Hn.
  rewrite (wrapU_id 32) by (split; [lia|]; change (2 ^ 32)%Z with 4294967296%Z; lia).
  set (req := ((getNumRequiredEntries n + Z.of_nat cap - 1) / Z.of_nat cap)%Z).
  assert (Hreq : (0 <= req < 2 ^ 30)%Z).
  { change (2 ^ 30)%Z with 1073741824%Z. subst req. unfold getNumRequiredEntries.
    assert (Hr1 : (0 <= (3 * n + 1) / 2 <= 805306368)%Z).
    { split; [apply Z.div_pos; lia|]. apply Z.div_le_upper_bound; lia. }
    split; [apply Z.div_pos; lia|]. apply Z.div_lt_upper_bound; [lia|].
    assert (Hr2 : (1 * 1073741824 <= Z.of_nat cap * 1073741824)%Z).
    { apply Z.mul_le_mono_nonneg_r; [done|]. clear -Hcap. lia. }
    unfold FINGERPRINT_CAPACITY in Hcap. clear -Hcap Hr1 Hr2. lia. }
  unfold sget, sbind at 1. destruct (Z.leb_spec req (Z.of_nat (length (pSlots st)))).
  { exists st. done. }
  case_decide as Hz.
  - destruct (holds_ok st bag Hh) as (chains & free & HI & Hperm & Hlen).
    rewrite (ok_num _ _ _ HI) in Hz.
    assert (Hes : allEntries chains = []) by (apply nil_length_inv; lia).
    pose proof (ok_header _ _ _ HI) as (Hl & E1 & E2 & Hs & Hnn).
    rewrite wrapU_id by (split; [lia|]; change (2 ^ 32)%Z with 4294967296%Z;
      change (2 ^ 30)%Z with 1073741824%Z in Hreq; lia).
    destruct (allocateSlots_ok st req) as (hd & Ea & HO & Hnum & Hff); [done|lia|lia|].
    pose proof (ok_olen _ _ _ HI) as Hol. rewrite Hes in Hol. cbn in Hol.
    destruct (indexOK_grow_empty st chains free hd (Z.to_nat req)) as (chains' & HI' & Hes'); try done.
    + apply HI.
    + apply HI.
    + apply HI.
    + apply HI.
    + apply HI.
    + lia.
    + lia.
    + by rewrite Hnum, (ok_num _ _ _ HI), Hes.
    + rewrite Ea. eexists. split; [done|]. exists chains', free. split; [done|].
      by rewrite Hes', <- Hperm, Hes.
  - apply splitUntil_ok; try done; lia.
Qed.

(** The constructor and [clear]. *)
Lemma allocate_initial :
  exists st, allocateSlots zero cap slotsPerPage emptyIndex = (Ok tt, st) /\ holds st [].
Proof.
  assert (Hs : slotsPerPage = 16%Z) by (by vm_compute).
  destruct (allocateSlots_ok emptyIndex slotsPerPage) as (hd & Ea & HO & Hnum & Hff).
  { split; cbn; [lia|done]. } { rewrite Hs. cbn. lia. } { rewrite Hs. cbn. lia. }
  rewrite Hs in Ea, HO |- *. clear Hs.
  assert (HF : freeListOK (emptyIndex (T := T)) (OSlot <$> [])).
  { split; [by intros ???|]. split; [constructor|]. split; [constructor|]. split; [|done].
    intros p Hp. by apply elem_of_nil in Hp. }
  destruct (indexOK_grow_empty (emptyIndex (T := T)) [] [] hd 16 ltac:(by intros ???) eq_refl HF
    (NoDup_nil_2 (A := nat)) eq_refl eq_refl eq_refl HO ltac:(cbn; lia) Hnum Hff)
    as (chains' & HI' & Hes').
  rewrite Ea. eexists. split; [done|]. exists chains', []. split; [done|]. by rewrite Hes'.
Qed.

(** ** Sequences of operations *)
Inductive indexOp : Type :=
| OpAppend (k : T) (v : Z) (isVisible : Z -> bool)
| OpLookup (k : T) (isVisible : Z -> bool)
| OpReserve (n : Z)
| OpClear.

Inductive indexResult : Type :=
| RInserted (b : bool)
| RFound (v : option Z)
| RNone.

Definition runOp (op : indexOp) : M (InMemHashIndex T) indexResult :=
  match op with
  | OpAppend k v isVisible => b <- append hash zero cap k v isVisible ;; sret (RInserted b)
  | OpLookup k isVisible => r <- index_lookup hash cap k isVisible ;; sret (RFound r)
  | OpReserve n => reserve hash zero cap n ;;; sret RNone
  | OpClear => clear zero cap ;;; sret RNone
  end.

Fixpoint runOps (ops : list indexOp) : M (InMemHashIndex T) (list indexResult) :=
  match ops with
  | [] => sret []
  | op :: ops => r <- runOp op ;; rs <- runOps ops ;; sret (r :: rs)
  end.

(** The contract: what an operation does to the bag, and what it may return. *)
Inductive bagStep (bag : list (SlotEntry T)) : indexOp -> indexResult -> list (SlotEntry T) -> Prop :=
| bag_append k v isVisible :
    ~ withVisible k isVisible bag ->
    bagStep bag (OpAppend k v isVisible) (RInserted true) (mkEntry k v :: bag)
| bag_refuse k v isVisible :
    withVisible k isVisible bag ->
    bagStep bag (OpAppend k v isVisible) (RInserted false) bag
| bag_found k v isVisible :
    mkEntry k v ∈ bag -> isVisible v = true ->
    bagStep bag (OpLookup k isVisible) (RFound (Some v)) bag
| bag_missing k isVisible :
    ~ withVisible k isVisible bag ->
    bagStep bag (OpLookup k isVisible) (RFound None) bag
| bag_reserve n : bagStep bag (OpReserve n) RNone bag
| bag_clear : bagStep bag OpClear RNone [].

Inductive bagRuns : list (SlotEntry T) -> list indexOp -> list indexResult -> list (SlotEntry T) -> Prop :=
| bag_done bag : bagRuns bag [] [] bag
| bag_next bag op r bag1 ops rs bag2 :
    bagStep bag op r bag1 -> bagRuns bag1 ops rs bag2 -> bagRuns bag (op :: ops) (r :: rs) bag2.

Definition opOK (op : indexOp) : Prop :=
  match op with OpReserve n => (0 <= n < 2 ^ 29)%Z | _ => True end.

Lemma runOp_ok st bag op :
  holds st bag -> (Z.of_nat (length bag) + 1 < 2 ^ 29)%Z -> opOK op ->
  exists r st' bag', runOp op st = (Ok r, st') /\ bagStep bag op r bag' /\ holds st' bag' /\
    length bag' <= S (length bag).
Proof.
  intros Hh Hb Hop. assert (H30 : (2 ^ 30 = 2 * 2 ^ 29)%Z) by done.
  destruct op as [k v isVisible|k isVisible|n|]; cbn [runOp].
  - destruct (holds_ok st bag Hh) as (chains & free & HI & Hperm & Hlen).
    unfold append, sget.
    destruct (reserve_ok st bag (Z.of_nat (length bag) + 1) Hh ltac:(lia) ltac:(lia)) as (st1 & E1 & Hh1).
    destruct (appendInternal_ok st1 bag k v isVisible Hh1 ltac:(lia)) as (b & st2 & E2 & Hr).
    assert (Ea : append hash zero cap k v isVisible st = (Ok b, st2)).
    { unfold append, sget, sbind at 1. rewrite (ok_num _ _ _ HI), Hlen.
      by rewrite (sbind_ok _ _ _ _ _ E1). }
    fold (append hash zero cap k v isVisible). rewrite (sbind_ok _ _ _ _ _ Ea).
    destruct b; destruct Hr as [Hv Hh2]; do 3 eexists; (split; [reflexivity|]);
      (split; [by constructor|]); (split; [done|cbn; lia]).
  - destruct (lookup_ok st bag k isVisible Hh ltac:(lia)) as (r & E & Hr).
    rewrite (sbind_ok _ _ _ _ _ E).
    destruct r as [v|]; do 3 eexists; (split; [reflexivity|]);
      (split; [by constructor; try apply Hr|]); (split; [done|lia]).
  - destruct (reserve_ok st bag n Hh ltac:(lia) Hop) as (st1 & E1 & Hh1).
    rewrite (sbind_ok _ _ _ _ _ E1). do 3 eexists. split; [reflexivity|].
    split; [by constructor|]. split; [done|lia].
  - destruct allocate_initial as (st1 & E1 & Hh1).
    assert (Ec : clear zero cap st = (Ok tt, st1)) by (unfold clear, sput, sbind; exact E1).
    rewrite (sbind_ok _ _ _ _ _ Ec).
    do 3 eexists. split; [reflexivity|]. split; [by constructor|]. split; [done|cbn; lia].
Qed.

Lemma runOps_ok ops :
  forall st bag, holds st bag -> Forall opOK ops ->
  (Z.of_nat (length bag) + Z.of_nat (length ops) < 2 ^ 29)%Z ->
  exists rs st' bag', runOps ops st = (Ok rs, st') /\ bagRuns bag ops rs bag' /\ holds st' bag'.
Proof.
  induction ops as [|op ops IH]; intros st bag Hh HF Hb; cbn [runOps].
  - do 3 eexists. split; [reflexivity|]. split; [constructor|done].
  - inversion_clear HF as [|?? Hop HF']. cbn in Hb.
    destruct (runOp_ok st bag op Hh ltac:(lia) Hop) as (r & st1 & bag1 & E1 & Hs & Hh1 & Hl).
    destruct (IH st1 bag1 Hh1 HF' ltac:(lia)) as (rs & st2 & bag2 & E2 & Hr & Hh2).
    rewrite (sbind_ok _ _ _ _ _ E1), (sbind_ok _ _ _ _ _ E2).
    do 3 eexists. split; [reflexivity|]. split; [by econstructor|done].
Qed.

(** C9. The in-memory hash index refines a bag of entries.  Any sequence of
    [append], [lookup], [reserve] and [clear] calls on a new index ends without an
    error (so every loop over slots, chains and splits ends), its results are the
    ones the contract allows ([append] adds the entry unless the key has a visible
    one, [lookup] returns a visible entry of the key whenever there is one), and the
    index is left well formed with exactly the entries of the bag.  The bound on the
    number of calls keeps the number of slots below [2^30], where the 32-bit level
    arithmetic of the header is defined. *)
Theorem index_refines_bag ops :
  Forall opOK ops -> (Z.of_nat (length ops) < 2 ^ 29)%Z ->
  exists st0 rs st bag,
    newIndex zero cap = (Ok tt, st0) /\ runOps ops st0 = (Ok rs, st) /\
    bagRuns [] ops rs bag /\ holds st bag.
Proof.
  intros HF Hb. destruct allocate_initial as (st0 & E0 & Hh0).
  destruct (runOps_ok ops st0 [] Hh0 HF ltac:(cbn; lia)) as (rs & st & bag & E & Hr & Hh).
  exists st0, rs, st, bag. split; [exact E0|]. split; [exact E|]. split; [exact Hr|exact Hh].
Qed.

(** Splitting a slot of a well-formed index ends, adds one primary slot and keeps
    the index well formed with the same entries: those whose wider hash selects the new
    slot are moved to it, the others close the gaps, and the overflow slots left empty
    go to the free list. *)
Theorem splitSlot_preserves st bag :
  holds st bag -> (Z.of_nat (length (pSlots st)) + 1 < 2 ^ 30)%Z ->
  (Z.of_nat (length bag) < 2 ^ 30)%Z ->
  exists st', splitSlot hash zero cap st = (Ok tt, st') /\ holds st' bag /\
    length (pSlots st') = S (length (pSlots st)).
Proof.
  intros Hh Hp Hb. destruct (holds_ok st bag Hh) as (chains & free & HI & Hperm & Hlen).
  destruct (splitSlot_ok st chains free HI Hp ltac:(lia)) as (st1 & chains1 & free1 & E1 & HI1 & Hp1 & Hl1).
  exists st1. split; [done|]. split; [|done]. exists chains1, free1. split; [done|]. by rewrite Hp1.
Qed.

(** The buffered [append]: it stops at the first key that is refused. *)
Lemma appendAll_ok buffer isVisible :
  forall st bag i, holds st bag ->
  (Z.of_nat (length bag) + Z.of_nat (length buffer) + 1 < 2 ^ 30)%Z ->
  exists n st', appendAll hash zero cap buffer i isVisible st = (Ok (i + n), st') /\
    n <= length buffer /\
    holds st' (rev ((fun kv => mkEntry kv.1 kv.2) <$> take n buffer) ++ bag) /\
    (n = length buffer \/ exists k v, buffer !! n = Some (k, v) /\
       withVisible k isVisible (rev ((fun kv => mkEntry kv.1 kv.2) <$> take n buffer) ++ bag)).
Proof.
  induction buffer as [|[k v] buffer IH]; intros st bag i Hh Hb; cbn [appendAll].
  - exists 0, st. rewrite Nat.add_0_r. split; [done|]. split; [done|]. split; [done|by left].
  - cbn in Hb. destruct (appendInternal_ok st bag k v isVisible Hh ltac:(lia)) as (b & st1 & E1 & Hr).
    rewrite (sbind_ok _ _ _ _ _ E1). destruct b; destruct Hr as [Hv Hh1].
    + destruct (IH st1 (mkEntry k v :: bag) (S i) Hh1) as (n & st2 & E2 & Hn & Hh2 & Hend); [cbn; lia|].
      exists (S n), st2. rewrite E2. split; [f_equal; f_equal; lia|]. split; [cbn; lia|].
      cbn [take fmap list_fmap rev fst snd]. rewrite <- app_assoc. split; [done|].
      destruct Hend as [->|Hend]; [by left|by right].
    + exists 0, st1. rewrite Nat.add_0_r. split; [done|]. split; [lia|]. split; [done|].
      right. by exists k, v.
Qed.

(** [append(buffer, bufferOffset, isVisible)] returns the number of values it inserted:
    they are in the index, and the next one, if any, is a key with a visible entry. *)
Theorem appendBuffer_prefix st bag buffer off isVisible :
  holds st bag -> off <= length buffer ->
  (Z.of_nat (length bag) + Z.of_nat (length buffer) + 1 < 2 ^ 29)%Z ->
  exists n st', appendBuffer hash zero cap buffer off isVisible st = (Ok n, st') /\
    off + n <= length buffer /\
    holds st' (rev ((fun kv => mkEntry kv.1 kv.2) <$> take n (drop off buffer)) ++ bag) /\
    (off + n = length buffer \/ exists k v, buffer !! (off + n) = Some (k, v) /\
       withVisible k isVisible (rev ((fun kv => mkEntry kv.1 kv.2) <$> take n (drop off buffer)) ++ bag)).
Proof.
  intros Hh Hoff Hb. assert (H30 : (2 ^ 30 = 2 * 2 ^ 29)%Z) by done.
  destruct (holds_ok st bag Hh) as (chains & free & HI & Hperm & Hlen).
  unfold appendBuffer, sget, sbind at 1. rewrite (ok_num _ _ _ HI), Hlen.
  destruct (reserve_ok st bag (Z.of_nat (length bag) + (Z.of_nat (length buffer) - Z.of_nat off)) Hh)
    as (st1 & E1 & Hh1); [lia|lia|]. rewrite (sbind_ok _ _ _ _ _ E1).
  destruct (appendAll_ok (drop off buffer) isVisible st1 bag 0 Hh1) as (n & st2 & E2 & Hn & Hh2 & Hend);
    [rewrite length_drop; lia|].
  exists n, st2. rewrite length_drop in *. split; [done|]. split; [lia|]. split; [done|].
  destruct Hend as [Hend|(k & v & Ek & Hv)]; [left; lia|right].
  exists k, v. by rewrite lookup_drop in Ek.
Qed.

End Spec.

(** ** Instances: [int64_t] keys, whose slots hold 14 entries *)
Definition int64Cap : nat := getSlotCapacity 16.

Lemma int64Cap_ok : 0 < int64Cap <= FINGERPRINT_CAPACITY.
Proof. vm_compute. lia. Qed.

Definition allVisible (v : Z) : bool := true.

Lemma index_refines_bag_witness :
  exists st0 rs st bag,
    newIndex 0%Z int64Cap = (Ok tt, st0) /\
    runOps hashInt 0%Z int64Cap [OpAppend 7%Z 1 allVisible; OpAppend 7%Z 2 allVisible; OpLookup 7%Z allVisible] st0
      = (Ok rs, st) /\
    bagRuns [] [OpAppend 7%Z 1 allVisible; OpAppend 7%Z 2 allVisible; OpLookup 7%Z allVisible] rs bag /\
    holds hashInt int64Cap st bag.
Proof.
  apply (index_refines_bag hashInt 0%Z int64Cap int64Cap_ok); [|cbn; lia].
  repeat constructor.
Defined.

Lemma new_int64_index :
  exists st, newIndex 0%Z int64Cap = (Ok tt, st) /\ holds hashInt int64Cap st [].
Proof. exact (allocate_initial hashInt 0%Z int64Cap int64Cap_ok). Qed.

Lemma splitSlot_preserves_witness :
  exists st st', newIndex 0%Z int64Cap = (Ok tt, st) /\
    splitSlot hashInt 0%Z int64Cap st = (Ok tt, st') /\ holds hashInt int64Cap st' [].
Proof.
  destruct new_int64_index as (st & E & Hh). exists st.
  destruct (splitSlot_preserves hashInt 0%Z int64Cap int64Cap_ok st [] Hh) as (st' & E' & Hh' & _).
  - assert (length (pSlots st) = 16) as ->; [|lia].
    change st with (snd (Ok tt, st)). rewrite <- E. by vm_compute.
  - cbn. lia.
  - exists st'. split; [exact E|]. split; [exact E'|exact Hh'].
Defined.

(** ** [deleteKey] as written: a key that is absent takes another key's entry with it *)

(** [deletedPos] starts with the value 0, so after the first slot it "has a value"
    whether or not the key was found, and the entry at position 0 is overwritten: here
    keys 30 and 1 share a slot, only 30 is in the index, and deleting 1 removes 30. *)
Theorem deleteKey_drops_other_key :
  let st := snd (append hashInt 0%Z int64Cap 30%Z 5 allVisible (snd (newIndex 0%Z int64Cap))) in
  let st' := snd (deleteKey hashInt int64Cap 1%Z st) in
  fst (index_lookup hashInt int64Cap 30%Z allVisible st) = Ok (Some 5%Z) /\
  fst (index_lookup hashInt int64Cap 1%Z allVisible st) = Ok None /\
  fst (deleteKey hashInt int64Cap 1%Z st) = Ok false /\
  fst (index_lookup hashInt int64Cap 30%Z allVisible st') = Ok None.
Proof. vm_compute. repeat split. Qed.

(** It always answers that nothing was deleted, also when the key was there. *)
Theorem deleteKey_answers_false :
  let st := snd (append hashInt 0%Z int64Cap 0%Z 5 allVisible (snd (newIndex 0%Z int64Cap))) in
  let st' := snd (deleteKey hashInt int64Cap 0%Z st) in
  fst (deleteKey hashInt int64Cap 0%Z st) = Ok false /\
  fst (index_lookup hashInt int64Cap 0%Z allVisible st') = Ok None /\
  indexNumEntries (indexHeader st') = 1%Z.
Proof. vm_compute. repeat split. Qed.
