(* ===== verification/OrderByKey.v ===== *)
(** * Encoding of ORDER BY keys (src/processor/operator/order_by/
      order_by_key_encoder.cpp, src/include/processor/operator/order_by/
      order_by_key_encoder.h)

    All ORDER BY columns of a tuple are encoded into one string of bytes such that
    comparing two encodings with [memcmp] compares the tuples: every column is a
    null flag followed by the value, big-endian, with the sign bit flipped for
    signed types, and with all bytes inverted for a descending column; eight bytes
    with the tuple's position in the factorized table follow.  Of a string only the
    first 12 bytes and a flag for longer strings are encoded.

    The theorems: on both byte orders an encoding is the big-endian one; [memcmp] on
    encoded rows is the order of the rows (columns in turn, ascending or descending,
    nulls last, or first when descending); the table position round-trips. *)

From S2P Require Import Prelude Serializer.
From stdpp Require Import base list numbers.
Local Open Scope Z_scope.

(** ** [memcmp] *)
Fixpoint memcmp (a b : list Z) : comparison :=
  match a, b with
  | x :: a', y :: b' => match x ?= y with Eq => memcmp a' b' | c => c end
  | _, _ => Eq
  end.

(** ** Byte order *)
Definition BSWAP16 (x : Z) : Z :=
  wrapU 16 (Z.lor (Z.shiftr (Z.land x 0xff00) 8) (Z.shiftl (Z.land x 0x00ff) 8)).

Definition BSWAP32 (x : Z) : Z :=
  wrapU 32 (Z.lor (Z.lor (Z.lor
    (Z.shiftr (Z.land x 0xff000000) 24) (Z.shiftr (Z.land x 0x00ff0000) 8))
    (Z.shiftl (Z.land x 0x0000ff00) 8)) (Z.shiftl (Z.land x 0x000000ff) 24)).

Definition BSWAP64 (x : Z) : Z :=
  wrapU 64 (Z.lor (Z.lor (Z.lor (Z.lor (Z.lor (Z.lor (Z.lor
    (Z.shiftr (Z.land x 0xff00000000000000) 56)
    (Z.shiftr (Z.land x 0x00ff000000000000) 40))
    (Z.shiftr (Z.land x 0x0000ff0000000000) 24))
    (Z.shiftr (Z.land x 0x000000ff00000000) 8))
    (Z.shiftl (Z.land x 0x00000000ff000000) 8))
    (Z.shiftl (Z.land x 0x0000000000ff0000) 24))
    (Z.shiftl (Z.land x 0x000000000000ff00) 40))
    (Z.shiftl (Z.land x 0x00000000000000ff) 56)).

(** [memcpy] of an unsigned integer of [n] bytes, on little- or big-endian hardware. *)
Definition storeBytes (littleEndian : bool) (n : nat) (x : Z) : list Z :=
  if littleEndian then leBytes n x else rev (leBytes n x).

Definition bswap (n : nat) (x : Z) : Z :=
  match n with
  | 2%nat => BSWAP16 x
  | 4%nat => BSWAP32 x
  | 8%nat => BSWAP64 x
  | _ => x
  end.

Definition flipSign (key_byte : Z) : Z := Z.lxor key_byte 128.

(** [resultPtr[0] = flipSign(resultPtr[0])] *)
Definition flipFirst (bs : list Z) : list Z :=
  match bs with [] => [] | b :: bs' => flipSign b :: bs' end.

(** ** [encodeData] *)

(** [encodeData(uintN_t)] and [encodeData(intN_t)], [n] bytes. *)
Definition encodeUInt (littleEndian : bool) (n : nat) (data : Z) : list Z :=
  let swapBytes := littleEndian in
  storeBytes littleEndian n (if swapBytes then bswap n data else data).

Definition encodeInt (littleEndian : bool) (n : nat) (data : Z) : list Z :=
  flipFirst (encodeUInt littleEndian n (wrapU (8 * Z.of_nat n) data)).

(** [encodeData(int128_t)]: the struct has a signed high and an unsigned low word. *)
Definition encodeInt128 (littleEndian : bool) (high low : Z) : list Z :=
  encodeInt littleEndian 8 high ++ encodeUInt littleEndian 8 low.

Definition encodeBool (data : bool) : list Z := [if data then 1 else 0].

(** [data < 0] of a floating point number given by its bits, with [n] bytes and
    [mantissa] bits of fraction: the sign is set, it is no zero and no NaN. *)
Definition floatMagnitude (n : nat) (bits : Z) : Z := bits mod 2 ^ (8 * Z.of_nat n - 1).
Definition floatSign (n : nat) (bits : Z) : bool := Z.testbit bits (8 * Z.of_nat n - 1).
Definition infinityBits (n : nat) (mantissa : Z) : Z := 2 ^ (8 * Z.of_nat n - 1) - 2 ^ mantissa.
Definition isNaN (n : nat) (mantissa bits : Z) : bool :=
  infinityBits n mantissa <? floatMagnitude n bits.
Definition floatNegative (n : nat) (mantissa bits : Z) : bool :=
  floatSign n bits && negb (floatMagnitude n bits =? 0) && negb (isNaN n mantissa bits).

Definition invertBytes (bs : list Z) : list Z := (fun b => wrapU 8 (Z.lnot b)) <$> bs.

(** [encodeData(double)] and [encodeData(float)]: the bytes are swapped in place, then
    all inverted for a negative number. *)
Definition encodeFloat (littleEndian : bool) (n : nat) (mantissa bits : Z) : list Z :=
  let bs := encodeUInt littleEndian n bits in
  if floatNegative n mantissa bits then invertBytes bs else flipFirst bs.

Definition SHORT_STR_LENGTH : nat := 12.
Definition UINT8_MAX : Z := 255.

(** [encodeData(ku_string_t)]: 13 bytes. *)
Definition encodeString (s : list Z) : list Z :=
  let prefix := take (Nat.min SHORT_STR_LENGTH (length s)) s in
  if (length s <=? SHORT_STR_LENGTH)%nat then
    prefix ++ replicate (SHORT_STR_LENGTH + 1 - length s) 0
  else prefix ++ [UINT8_MAX].

Definition DAYS_PER_MONTH : Z := 30.
Definition MICROS_PER_DAY : Z := 86400000000.
Definition MICROS_PER_MONTH : Z := 2592000000000.

(** [Interval::normalizeIntervalEntries]: months, days, micros. *)
Definition normalizeIntervalEntries (months days micros : Z) : Z * Z * Z :=
  let extra_months_d := Z.quot days DAYS_PER_MONTH in
  let extra_months_micros := Z.quot micros MICROS_PER_MONTH in
  let days := days - extra_months_d * DAYS_PER_MONTH in
  let micros := micros - extra_months_micros * MICROS_PER_MONTH in
  let extra_days_micros := Z.quot micros MICROS_PER_DAY in
  let micros := micros - extra_days_micros * MICROS_PER_DAY in
  (months + extra_months_d + extra_months_micros, days + extra_days_micros, micros).

(** [encodeData(interval_t)]: the normalised months and days are truncated to 32 bits. *)
Definition encodeInterval (littleEndian : bool) (months days micros : Z) : list Z :=
  let '(m, d, u) := normalizeIntervalEntries months days micros in
  encodeInt littleEndian 4 (wrapS 32 m) ++ encodeInt littleEndian 4 (wrapS 32 d) ++
  encodeInt littleEndian 8 u.

(** ** Values of the physical types that [getEncodingFunction] accepts *)
Inductive keyValue : Type :=
| KBool (b : bool)
| KInt (size : nat) (v : Z)
| KUInt (size : nat) (v : Z)
| KInt128 (high low : Z)
| KDouble (bits : Z)
| KFloat (bits : Z)
| KString (s : list Z)
| KInterval (months days micros : Z).

Inductive keyType : Type :=
| TBool | TInt (size : nat) | TUInt (size : nat) | TInt128 | TDouble | TFloat | TString | TInterval.

Definition encodeData (littleEndian : bool) (v : keyValue) : list Z :=
  match v with
  | KBool b => encodeBool b
  | KInt n v => encodeInt littleEndian n v
  | KUInt n v => encodeUInt littleEndian n v
  | KInt128 h l => encodeInt128 littleEndian h l
  | KDouble bits => encodeFloat littleEndian 8 52 bits
  | KFloat bits => encodeFloat littleEndian 4 23 bits
  | KString s => encodeString s
  | KInterval m d u => encodeInterval littleEndian m d u
  end.

(** [getEncodingSize]: the null flag, and for strings the flag of long strings. *)
Definition getEncodingSize (t : keyType) : nat :=
  match t with
  | TBool => 1 + 1
  | TInt n | TUInt n => 1 + n
  | TInt128 => 1 + 16
  | TDouble => 1 + 8
  | TFloat => 1 + 4
  | TString => 2 + SHORT_STR_LENGTH
  | TInterval => 1 + 16
  end.

(** [getNumBytesPerTuple] *)
Definition getNumBytesPerTuple (types : list keyType) : nat :=
  fold_right (fun t n => getEncodingSize t + n)%nat 8%nat types.

(** ** Columns and rows *)

(** The body of [encodeFlatVector] and of the loops of [encodeUnflatVector], and
    [flipBytesIfNecessary]. *)
Definition encodeColumn (littleEndian isAsc : bool) (t : keyType) (v : option keyValue) : list Z :=
  let bs := match v with
            | None => replicate (getEncodingSize t) UINT8_MAX
            | Some v => 0 :: encodeData littleEndian v
            end in
  if isAsc then bs else invertBytes bs.

Record keyColumn : Type := mkColumn { colType : keyType; isAscOrder : bool }.

Fixpoint encodeRow (littleEndian : bool) (cols : list keyColumn) (row : list (option keyValue))
    : list Z :=
  match cols, row with
  | c :: cols, v :: row =>
      encodeColumn littleEndian (isAscOrder c) (colType c) v ++ encodeRow littleEndian cols row
  | _, _ => []
  end.

Definition isNullVal (nullByte : Z) (isAsc : bool) : bool :=
  nullByte =? (if isAsc then UINT8_MAX else 0).

(** [*(strBuffer + 13)] of a string column's encoding. *)
Definition isLongStr (col : list Z) (isAsc : bool) : bool :=
  nth 13 col 0 =? (if isAsc then UINT8_MAX else 0).

(** ** Position of the tuple in the factorized table *)
Definition encodeFTInfo (ftBlockIdx ftBlockOffset ftIdx : Z) : list Z :=
  leBytes 4 ftBlockIdx ++ <[3%nat := ftIdx]> (leBytes 4 ftBlockOffset).

Definition getEncodedFTBlockIdx (info : list Z) : Z := leValue (take 4 info).
Definition getEncodedFTBlockOffset (info : list Z) : Z :=
  Z.land (leValue (take 4 (drop 4 info))) 0x00FFFFFF.
Definition getEncodedFTIdx (info : list Z) : Z := nth 7 info 0.

Definition MAX_FT_BLOCK_OFFSET : Z := 2 ^ 24 - 1.

(** The encoder's counters. *)
Record ftPos : Type := mkFtPos { ftBlockIdx : Z; ftBlockOffset : Z }.

(** The inner loop of [encodeFTIdx]: [n] tuples of the current block. *)
Fixpoint encodeBatch (ftIdx : Z) (n : nat) (p : ftPos) : list (list Z) * ftPos :=
  match n with
  | O => ([], p)
  | S n =>
      let info := encodeFTInfo (ftBlockIdx p) (ftBlockOffset p) ftIdx in
      let '(infos, p') := encodeBatch ftIdx n
        (mkFtPos (ftBlockIdx p) (wrapU 32 (ftBlockOffset p + 1))) in
      (info :: infos, p')
  end.

(** [encodeFTIdx]; each round encodes a tuple or ends a block. *)
Fixpoint encodeFTIdx (fuel : nat) (numTuplesPerBlockInFT ftIdx : Z) (remaining : Z) (p : ftPos)
    : outcome (list (list Z) * ftPos) :=
  if remaining <=? 0 then Ok ([], p) else
  match fuel with
  | O => Err Blocked
  | S fuel =>
      let nextBatchOfEntries :=
        Z.min remaining (wrapU 32 (numTuplesPerBlockInFT - ftBlockOffset p)) in
      let '(infos, p) := encodeBatch ftIdx (Z.to_nat nextBatchOfEntries) p in
      let p := if ftBlockOffset p =? numTuplesPerBlockInFT
               then mkFtPos (wrapU 32 (ftBlockIdx p + 1)) 0 else p in
      let* r := encodeFTIdx fuel numTuplesPerBlockInFT ftIdx (remaining - nextBatchOfEntries) p in
      Ok (infos ++ fst r, snd r)
  end.

(** ** Big-endian bytes and their order *)
Definition beBytes (n : nat) (x : Z) : list Z := rev (leBytes n x).

Lemma length_beBytes n x : length (beBytes n x) = n.
Proof. unfold beBytes. by rewrite length_rev, length_leBytes. Qed.

Lemma beBytes_S n x : beBytes (S n) x = beBytes n (x / 256) ++ [x mod 256].
Proof. done. Qed.

Lemma memcmp_refl a : memcmp a a = Eq.
Proof. induction a as [|x a IH]; [done|]. cbn. by rewrite Z.compare_refl. Qed.

Lemma memcmp_app a b a' b' :
  length a = length b ->
  memcmp (a ++ a') (b ++ b') = match memcmp a b with Eq => memcmp a' b' | c => c end.
Proof.
  revert b. induction a as [|x a IH]; intros [|y b] Hl; try done. cbn in *.
  destruct (x ?= y); [|done..]. apply IH. congruence.
Qed.

Lemma memcmp_eq a b : length a = length b -> memcmp a b = Eq -> a = b.
Proof.
  revert b. induction a as [|x a IH]; intros [|y b] Hl; try done. cbn in *.
  destruct (Z.compare_spec x y) as [->| |]; [|done..]. intros. f_equal. apply IH; [congruence|done].
Qed.

Lemma memcmp_opp a b : memcmp b a = CompOpp (memcmp a b).
Proof.
  revert b. induction a as [|x a IH]; intros [|y b]; try done. cbn.
  rewrite Z.compare_antisym. destruct (x ?= y); [apply IH|done..].
Qed.

Lemma compare_divmod x y m :
  0 < m -> (x ?= y) = match x / m ?= y / m with Eq => x mod m ?= y mod m | c => c end.
Proof.
  intros Hm. pose proof (Z.div_mod x m ltac:(lia)). pose proof (Z.div_mod y m ltac:(lia)).
  pose proof (Z.mod_pos_bound x m Hm). pose proof (Z.mod_pos_bound y m Hm).
  destruct (Z.compare_spec (x / m) (y / m)) as [E|E|E].
  - rewrite E in *. destruct (Z.compare_spec (x mod m) (y mod m)).
    + apply Z.compare_eq_iff. lia.
    + apply Z.compare_lt_iff. lia.
    + apply Z.compare_gt_iff. lia.
  - apply Z.compare_lt_iff. nia.
  - apply Z.compare_gt_iff. nia.
Qed.

(** Big-endian bytes are ordered as the numbers. *)
Lemma memcmp_beBytes n x y :
  0 <= x < 256 ^ Z.of_nat n -> 0 <= y < 256 ^ Z.of_nat n ->
  memcmp (beBytes n x) (beBytes n y) = (x ?= y).
Proof.
  revert x y. induction n as [|n IH]; intros x y Hx Hy.
  - cbn in Hx, Hy. assert (x = 0) as -> by lia. assert (y = 0) as -> by lia. done.
  - rewrite Nat2Z.inj_succ, Z.pow_succ_r in Hx, Hy by lia.
    rewrite !beBytes_S, memcmp_app by (by rewrite !length_beBytes).
    rewrite IH.
    + rewrite (compare_divmod x y 256) by lia. destruct (x / 256 ?= y / 256); [|done..].
      cbn. by destruct (_ ?= _).
    + split; [apply Z.div_pos; lia|]. apply Z.div_lt_upper_bound; lia.
    + split; [apply Z.div_pos; lia|]. apply Z.div_lt_upper_bound; lia.
Qed.

(** *** Byte swaps *)
Definition byteAt (x : Z) (k : nat) : Z := (x / 256 ^ Z.of_nat k) mod 256.

Lemma leBytes_byteAt n x : leBytes n x = byteAt x <$> seq 0 n.
Proof.
  revert x. induction n as [|n IH]; intros x; [done|].
  cbn [leBytes seq]. rewrite fmap_cons. f_equal; [unfold byteAt; by rewrite Z.div_1_r|].
  rewrite IH, <- fmap_S_seq, <- list_fmap_compose. apply list_fmap_ext. intros ? k _.
  cbn. unfold byteAt. rewrite Nat2Z.inj_succ, Z.pow_succ_r by lia.
  by rewrite Z.div_div by lia.
Qed.

Lemma byteAt_testbit x k j :
  0 <= x -> 0 <= j < 8 -> Z.testbit (byteAt x k) j = Z.testbit x (8 * Z.of_nat k + j).
Proof.
  intros Hx Hj. unfold byteAt. change 256 with (2 ^ 8) at 2. rewrite Z.mod_pow2_bits_low by lia.
  change 256 with (2 ^ 8). rewrite <- Z.pow_mul_r by lia. rewrite Z.div_pow2_bits by lia.
  f_equal. lia.
Qed.

Lemma byteAt_range x k : 0 <= byteAt x k < 256.
Proof. apply Z.mod_pos_bound. lia. Qed.

Lemma byte_eq a b :
  0 <= a < 256 -> 0 <= b < 256 -> (forall j, 0 <= j < 8 -> Z.testbit a j = Z.testbit b j) -> a = b.
Proof.
  intros Ha Hb Hj. apply Z.bits_inj'. intros j Hj0. destruct (decide (j < 8)); [apply Hj; lia|].
  rewrite !Z.bits_above_log2; try lia; try done.
  - destruct (decide (b = 0)) as [->|]; [cbn; lia|]. apply Z.log2_lt_pow2; [lia|].
    apply (Z.lt_le_trans _ (2 ^ 8)); [lia|]. apply Z.pow_le_mono_r; lia.
  - destruct (decide (a = 0)) as [->|]; [cbn; lia|]. apply Z.log2_lt_pow2; [lia|].
    apply (Z.lt_le_trans _ (2 ^ 8)); [lia|]. apply Z.pow_le_mono_r; lia.
Qed.

(** The bits of a swap, one concrete index at a time. *)
Ltac swap_bits :=
  rewrite ?Z.lor_spec, ?Z.shiftr_spec, ?Z.shiftl_spec, ?Z.land_spec by lia;
  cbn -[Z.testbit Z.land];
  rewrite ?Z.land_spec;
  repeat match goal with
  | |- context [Z.testbit ?m ?i] =>
      match m with Zpos _ => let b := eval vm_compute in (Z.testbit m i) in change (Z.testbit m i) with b end
  end;
  rewrite ?andb_true_r, ?andb_false_r, ?orb_false_r, ?orb_false_l, ?Z.testbit_neg_r by lia;
  try reflexivity.

Lemma byte_cases j : 0 <= j < 8 -> j = 0 \/ j = 1 \/ j = 2 \/ j = 3 \/ j = 4 \/ j = 5 \/ j = 6 \/ j = 7.
Proof. lia. Qed.

(** The [k]-th byte of a swapped integer, for a concrete [k]. *)
Ltac swap_byte :=
  apply byte_eq; [apply byteAt_range..|];
  let j := fresh "j" in let Hj := fresh in
  intros j Hj; rewrite !byteAt_testbit by (done || apply wrapU_range; lia);
  destruct (byte_cases j Hj) as [->|[->|[->|[->|[->|[->|[->| ->]]]]]]];
  unfold BSWAP16, BSWAP32, BSWAP64, wrapU; rewrite Z.mod_pow2_bits_low by lia;
  cbn -[Z.testbit Z.lor Z.land Z.shiftl Z.shiftr]; swap_bits.

Lemma bswap_bytes n x :
  n = 1%nat \/ n = 2%nat \/ n = 4%nat \/ n = 8%nat -> 0 <= x ->
  leBytes n (bswap n x) = beBytes n x.
Proof.
  unfold beBytes. intros Hn Hx.
  rewrite !leBytes_byteAt. destruct Hn as [->|[->|[->| ->]]]; cbn [seq fmap list_fmap rev app bswap].
  - done.
  - repeat (apply (f_equal2 cons); [swap_byte|]); reflexivity.
  - repeat (apply (f_equal2 cons); [swap_byte|]); reflexivity.
  - repeat (apply (f_equal2 cons); [swap_byte|]); reflexivity.
Qed.

Definition intSize (n : nat) : Prop := n = 1%nat \/ n = 2%nat \/ n = 4%nat \/ n = 8%nat.

(** The encoding does not depend on the byte order of the machine. *)
Lemma encodeUInt_be le n x : intSize n -> 0 <= x -> encodeUInt le n x = beBytes n x.
Proof.
  intros Hn Hx. unfold encodeUInt, storeBytes. destruct le; [by apply bswap_bytes|done].
Qed.

(** *** Signed integers *)
Lemma flipSign_add b : 0 <= b < 256 -> flipSign b = (b + 128) mod 256.
Proof.
  intros Hb. assert (H : forallb (fun k => flipSign (Z.of_nat k) =? (Z.of_nat k + 128) mod 256) (seq 0 256) = true)
    by (by vm_compute).
  rewrite forallb_forall in H. specialize (H (Z.to_nat b)). rewrite in_seq, Z2Nat.id, Z.eqb_eq in H by lia.
  apply H. lia.
Qed.

Lemma beBytes_cons n x : beBytes (S n) x = byteAt x n :: beBytes n x.
Proof.
  unfold beBytes. rewrite !leBytes_byteAt, seq_S, fmap_app, rev_app_distr. done.
Qed.

Lemma beBytes_mod n x y : x mod 256 ^ Z.of_nat n = y mod 256 ^ Z.of_nat n -> beBytes n x = beBytes n y.
Proof.
  intros H. unfold beBytes. f_equal. revert x y H. induction n as [|n IH]; intros x y H; [done|].
  rewrite Nat2Z.inj_succ, Z.pow_succ_r, !Z.rem_mul_r in H by lia.
  pose proof (Z.mod_pos_bound x 256). pose proof (Z.mod_pos_bound y 256).
  cbn. f_equal; [lia|]. apply IH. lia.
Qed.

Lemma byteAt_add x n : byteAt (x + 128 * 256 ^ Z.of_nat n) n = (byteAt x n + 128) mod 256.
Proof.
  unfold byteAt. rewrite Z.div_add by lia. by rewrite Z.add_mod_idemp_l by lia.
Qed.

Lemma flipFirst_be n x : flipFirst (beBytes (S n) x) = beBytes (S n) (x + 128 * 256 ^ Z.of_nat n).
Proof.
  rewrite !beBytes_cons. cbn [flipFirst].
  rewrite flipSign_add by apply byteAt_range. rewrite <- byteAt_add. f_equal.
  apply beBytes_mod. by rewrite Z.mod_add by lia.
Qed.

(** Signed integers are shifted by half the range. *)
Definition half (n : nat) : Z := 2 ^ (8 * Z.of_nat n - 1).

Lemma half_pow n : (0 < n)%nat -> 2 ^ (8 * Z.of_nat n) = 2 * half n /\ 256 ^ Z.of_nat n = 2 * half n.
Proof.
  intros Hn. unfold half. change 256 with (2 ^ 8). rewrite <- Z.pow_mul_r, <- Z.pow_succ_r by lia.
  split; f_equal; lia.
Qed.

Lemma half_top n : half (S n) = 128 * 256 ^ Z.of_nat n.
Proof.
  unfold half. change 256 with (2 ^ 8). change 128 with (2 ^ 7).
  rewrite <- Z.pow_mul_r, <- Z.pow_add_r by lia. f_equal. lia.
Qed.

Lemma encodeInt_be le n v :
  intSize n -> inS (8 * Z.of_nat n) v -> encodeInt le n v = beBytes n (v + half n).
Proof.
  intros Hn Hv. unfold encodeInt. rewrite encodeUInt_be; [|done|apply wrapU_range; lia].
  assert (exists m, n = S m) as [m ->] by (destruct Hn as [->|[->|[->| ->]]]; eauto).
  rewrite flipFirst_be, <- half_top. apply beBytes_mod.
  rewrite (proj2 (half_pow (S m) ltac:(lia))). unfold wrapU.
  rewrite (proj1 (half_pow (S m) ltac:(lia))).
  by rewrite Z.add_mod_idemp_l by (unfold half; lia).
Qed.

Lemma memcmp_encodeInt le n v w :
  intSize n -> inS (8 * Z.of_nat n) v -> inS (8 * Z.of_nat n) w ->
  memcmp (encodeInt le n v) (encodeInt le n w) = (v ?= w).
Proof.
  intros Hn Hv Hw. rewrite !encodeInt_be by done.
  assert (0 < n)%nat by (destruct Hn as [->|[->|[->| ->]]]; lia).
  unfold inS in *. fold (half n) in Hv, Hw.
  rewrite memcmp_beBytes.
  - rewrite !(Z.add_comm _ (half n)). apply Z.add_compare_mono_l.
  - rewrite (proj2 (half_pow n ltac:(lia))). lia.
  - rewrite (proj2 (half_pow n ltac:(lia))). lia.
Qed.

Lemma memcmp_encodeUInt le n v w :
  intSize n -> inU (8 * Z.of_nat n) v -> inU (8 * Z.of_nat n) w ->
  memcmp (encodeUInt le n v) (encodeUInt le n w) = (v ?= w).
Proof.
  intros Hn Hv Hw. unfold inU in *.
  assert (0 < n)%nat by (destruct Hn as [->|[->|[->| ->]]]; lia).
  rewrite !encodeUInt_be by (done || lia).
  rewrite (proj1 (half_pow n ltac:(lia))) in *.
  apply memcmp_beBytes; rewrite (proj2 (half_pow n ltac:(lia))); done.
Qed.

Lemma length_flipFirst bs : length (flipFirst bs) = length bs.
Proof. by destruct bs. Qed.

Lemma length_encodeUInt le n v : length (encodeUInt le n v) = n.
Proof. unfold encodeUInt, storeBytes. destruct le; by rewrite ?length_rev, length_leBytes. Qed.

Lemma length_encodeInt le n v : length (encodeInt le n v) = n.
Proof. unfold encodeInt. by rewrite length_flipFirst, length_encodeUInt. Qed.

(** *** Inverted bytes *)
Definition isByte (b : Z) : Prop := 0 <= b < 256.

Lemma invert_byte b : isByte b -> wrapU 8 (Z.lnot b) = 255 - b.
Proof.
  intros Hb. unfold wrapU. change (2 ^ 8) with 256. unfold Z.lnot. unfold isByte in Hb.
  symmetry. apply Z.mod_unique with (q := -1); lia.
Qed.

Lemma memcmp_invert a b :
  Forall isByte a -> Forall isByte b ->
  memcmp (invertBytes a) (invertBytes b) = CompOpp (memcmp a b).
Proof.
  intros Ha. revert b. induction Ha as [|x a Hx Ha IH]; intros [|y b] Hb; try done.
  inversion_clear Hb as [|?? Hy Hb']. cbn. rewrite !invert_byte by done.
  assert ((255 - x ?= 255 - y) = CompOpp (x ?= y)) as ->.
  { rewrite <- Z.compare_antisym. destruct (Z.compare_spec y x) as [->|H|H].
    - apply Z.compare_refl.
    - apply Z.compare_lt_iff. lia.
    - apply Z.compare_gt_iff. lia. }
  destruct (x ?= y); cbn; [|done..]. by apply IH.
Qed.

Lemma leBytes_isByte n x : Forall isByte (leBytes n x).
Proof.
  revert x. induction n as [|n IH]; intros x; [constructor|]. constructor; [|apply IH].
  apply Z.mod_pos_bound. lia.
Qed.

Lemma beBytes_isByte n x : Forall isByte (beBytes n x).
Proof. apply Forall_rev, leBytes_isByte. Qed.

Lemma flipSign_isByte b : isByte b -> isByte (flipSign b).
Proof. intros Hb. rewrite flipSign_add by done. apply Z.mod_pos_bound. lia. Qed.

Lemma flipFirst_isByte bs : Forall isByte bs -> Forall isByte (flipFirst bs).
Proof. destruct 1; constructor; [by apply flipSign_isByte|done]. Qed.

Lemma encodeUInt_isByte le n x : Forall isByte (encodeUInt le n x).
Proof.
  unfold encodeUInt, storeBytes. destruct le; [|apply Forall_rev]; apply leBytes_isByte.
Qed.

Lemma encodeInt_isByte le n x : Forall isByte (encodeInt le n x).
Proof. apply flipFirst_isByte, encodeUInt_isByte. Qed.

Lemma invertBytes_isByte bs : Forall isByte (invertBytes bs).
Proof. apply Forall_fmap, Forall_true. intros b. apply Z.mod_pos_bound. lia. Qed.

(** *** Floating point numbers *)
Lemma invert_be n x :
  0 <= x < 256 ^ Z.of_nat n -> invertBytes (beBytes n x) = beBytes n (256 ^ Z.of_nat n - 1 - x).
Proof.
  revert x. induction n as [|n IH]; intros x Hx; [done|].
  rewrite Nat2Z.inj_succ, Z.pow_succ_r in * by lia. rewrite !beBytes_S.
  pose proof (Z.div_mod x 256 ltac:(lia)). pose proof (Z.mod_pos_bound x 256 ltac:(lia)).
  set (P := 256 ^ Z.of_nat n) in *.
  assert (E1 : (256 * P - 1 - x) / 256 = P - 1 - x / 256).
  { symmetry. apply Z.div_unique with (r := 255 - x mod 256); [left|]; lia. }
  assert (E2 : (256 * P - 1 - x) mod 256 = 255 - x mod 256).
  { symmetry. apply Z.mod_unique with (q := P - 1 - x / 256); [left|]; lia. }
  unfold invertBytes in *. rewrite fmap_app, IH, E1, E2.
  - cbn. by rewrite invert_byte.
  - split; [apply Z.div_pos; lia|]. apply Z.div_lt_upper_bound; lia.
Qed.

(** The order of floating point numbers other than NaN: sign and magnitude. *)
Definition floatOrder (n : nat) (bits : Z) : Z :=
  if floatSign n bits then - floatMagnitude n bits else floatMagnitude n bits.

Definition negativeZero (n : nat) (bits : Z) : Prop := bits = half n.

Lemma testbit_half n bits :
  (0 < n)%nat -> inU (8 * Z.of_nat n) bits -> floatSign n bits = (half n <=? bits).
Proof.
  intros Hn Hb. unfold inU in Hb. rewrite (proj1 (half_pow n Hn)) in Hb. unfold floatSign.
  assert (0 < half n) by (unfold half; lia).
  destruct (Z.leb_spec (half n) bits).
  - apply Z.testbit_true; [lia|]. fold (half n).
    replace (bits / half n) with 1; [done|].
    apply Z.div_unique with (r := bits - half n); [left|]; lia.
  - apply Z.testbit_false; [lia|]. fold (half n). by rewrite Z.div_small by lia.
Qed.

Lemma float_split n bits :
  (0 < n)%nat -> inU (8 * Z.of_nat n) bits ->
  0 <= floatMagnitude n bits < half n /\
  bits = floatMagnitude n bits + (if floatSign n bits then half n else 0).
Proof.
  intros Hn Hb. rewrite (testbit_half n bits Hn Hb). unfold inU in Hb.
  rewrite (proj1 (half_pow n Hn)) in Hb. unfold floatMagnitude. fold (half n).
  assert (0 < half n) by (unfold half; lia).
  split; [apply Z.mod_pos_bound; lia|].
  destruct (Z.leb_spec (half n) bits).
  - assert (bits mod half n = bits - half n) as ->; [|lia].
    symmetry. apply Z.mod_unique with (q := 1); [left|]; lia.
  - rewrite Z.mod_small by lia. lia.
Qed.

Lemma encodeFloat_be le n mant bits :
  intSize n -> inU (8 * Z.of_nat n) bits -> isNaN n mant bits = false -> ~ negativeZero n bits ->
  encodeFloat le n mant bits =
    beBytes n (if floatSign n bits then half n - 1 + floatOrder n bits else half n + floatOrder n bits).
Proof.
  intros Hn Hb Hnan Hz. unfold encodeFloat, floatNegative, floatOrder, negativeZero in *.
  rewrite Hnan. assert (exists m, n = S m) as [m ->] by (destruct Hn as [->|[->|[->| ->]]]; eauto).
  destruct (float_split (S m) bits ltac:(lia) Hb) as [Hm Hs].
  pose proof Hb as Hb'. unfold inU in Hb'. rewrite (proj1 (half_pow (S m) ltac:(lia))) in Hb'.
  rewrite encodeUInt_be by (done || lia).
  destruct (floatSign (S m) bits); cbn [andb negb].
  - destruct (Z.eqb_spec (floatMagnitude (S m) bits) 0); [lia|]. cbn [negb andb].
    rewrite invert_be by (rewrite (proj2 (half_pow (S m) ltac:(lia))); lia).
    f_equal. rewrite (proj2 (half_pow (S m) ltac:(lia))). lia.
  - rewrite flipFirst_be, <- half_top. f_equal. lia.
Qed.

Lemma memcmp_encodeFloat le n mant x y :
  intSize n -> inU (8 * Z.of_nat n) x -> inU (8 * Z.of_nat n) y ->
  isNaN n mant x = false -> isNaN n mant y = false -> ~ negativeZero n x -> ~ negativeZero n y ->
  memcmp (encodeFloat le n mant x) (encodeFloat le n mant y) = (floatOrder n x ?= floatOrder n y).
Proof.
  intros Hn Hx Hy Nx Ny Zx Zy. rewrite !encodeFloat_be by done.
  assert (0 < n)%nat as Hn0 by (destruct Hn as [->|[->|[->| ->]]]; lia).
  destruct (float_split n x Hn0 Hx) as [Mx Sx], (float_split n y Hn0 Hy) as [My Sy].
  unfold negativeZero, floatOrder in *.
  rewrite memcmp_beBytes; rewrite ?(proj2 (half_pow n Hn0));
    destruct (floatSign n x), (floatSign n y); try lia.
  - apply Z.add_compare_mono_l.
  - symmetry. transitivity Lt; [apply Z.compare_lt_iff; lia|symmetry; apply Z.compare_lt_iff; lia].
  - symmetry. transitivity Gt; [apply Z.compare_gt_iff; lia|symmetry; apply Z.compare_gt_iff; lia].
  - apply Z.add_compare_mono_l.
Qed.

(** Negative zero, for which [data < 0] is false: its encoding is the smallest of all, so
    it sorts before every negative number instead of next to zero. *)
Theorem negative_zero_sorts_first le bits :
  inU 64 bits -> isNaN 8 52 bits = false -> floatOrder 8 bits < 0 ->
  memcmp (encodeData le (KDouble (half 8))) (encodeData le (KDouble bits)) = Lt /\
  floatOrder 8 bits < floatOrder 8 (half 8).
Proof.
  intros Hb Hn Ho. assert (H8 : intSize 8) by (unfold intSize; tauto).
  destruct (float_split 8 bits ltac:(lia) Hb) as [Hm Hs]. unfold floatOrder in Ho.
  destruct (floatSign 8 bits) eqn:Es; [|lia].
  unfold isNaN, infinityBits in Hn. apply Z.ltb_ge in Hn. fold (half 8) in Hn.
  assert (E52 : 2 ^ 52 = 4503599627370496) by done.
  split.
  2: { assert (floatOrder 8 (half 8) = 0) as -> by (by vm_compute). unfold floatOrder. by rewrite Es. }
  cbn [encodeData]. rewrite (encodeFloat_be le 8 52 bits H8 Hb).
  2: { unfold isNaN, infinityBits. apply Z.ltb_ge. fold (half 8). lia. }
  2: { unfold negativeZero. lia. }
  assert (encodeFloat le 8 52 (half 8) = beBytes 8 0) as ->.
  { unfold encodeFloat. replace (floatNegative 8 52 (half 8)) with false by (by vm_compute).
    rewrite encodeUInt_be by (done || by vm_compute). by vm_compute. }
  unfold floatOrder. rewrite Es.
  rewrite memcmp_beBytes; rewrite ?(proj2 (half_pow 8 ltac:(lia))); [|lia..].
  apply Z.compare_lt_iff. lia.
Qed.

(** *** Strings *)

(** [memcmp] of the first [n] bytes. *)
Definition memcmpN (n : nat) (a b : list Z) : comparison := memcmp (take n a) (take n b).

Definition PREFIX_LENGTH : nat := 4.

(** [ku_string_t::operator==] and [operator>]: the prefixes first, then the whole strings. *)
Definition kuStringEq (a b : list Z) : bool :=
  if (length a =? length b)%nat &&
     match memcmpN (Nat.min (length a) PREFIX_LENGTH) a b with Eq => true | _ => false end
  then match memcmpN (length a) a b with Eq => true | _ => false end
  else false.

Definition kuStringGreater (a b : list Z) : bool :=
  let sharedLen := Nat.min (length a) (length b) in
  let r := memcmpN (if (sharedLen <=? PREFIX_LENGTH)%nat then sharedLen else PREFIX_LENGTH) a b in
  let r := match r with
           | Eq => if (PREFIX_LENGTH <? length a)%nat then memcmpN sharedLen a b else Eq
           | Lt => Lt
           | Gt => Gt
           end in
  match r with
  | Eq => (length b <? length a)%nat
  | Gt => true
  | Lt => false
  end.

(** [operator<] is [!(>=)]. *)
Definition kuStringLess (a b : list Z) : bool := negb (kuStringGreater a b || kuStringEq a b).

(** The order of strings: bytes first, then the length. *)
Fixpoint strCompare (s t : list Z) : comparison :=
  match s, t with
  | [], [] => Eq
  | [], _ => Lt
  | _, [] => Gt
  | x :: s, y :: t => match x ?= y with Eq => strCompare s t | c => c end
  end.

Lemma strCompare_opp s t : strCompare t s = CompOpp (strCompare s t).
Proof.
  revert t. induction s as [|x s IH]; intros [|y t]; try done. cbn.
  rewrite Z.compare_antisym. destruct (x ?= y); [apply IH|done..].
Qed.

Lemma strCompare_refl s : strCompare s s = Eq.
Proof. induction s as [|x s IH]; [done|]. cbn. by rewrite Z.compare_refl. Qed.

Lemma strCompare_eq s t : strCompare s t = Eq <-> s = t.
Proof.
  split; [|intros ->; apply strCompare_refl].
  revert t. induction s as [|x s IH]; intros [|y t]; try done. cbn.
  destruct (Z.compare_spec x y) as [->| |]; [|done..]. intros E. by rewrite (IH t).
Qed.

(** A shorter common prefix decides what it can. *)
Lemma strCompare_memcmpN n s t :
  (n <= length s)%nat -> (n <= length t)%nat ->
  strCompare s t = match memcmpN n s t with Eq => strCompare (drop n s) (drop n t) | c => c end.
Proof.
  revert s t. induction n as [|n IH]; intros s t Hs Ht; [by destruct s, t|].
  destruct s as [|x s], t as [|y t]; cbn in Hs, Ht; try lia. cbn.
  destruct (x ?= y); [|done..]. apply IH; lia.
Qed.

Lemma strCompare_shared s t :
  strCompare s t = match memcmpN (Nat.min (length s) (length t)) s t with
                   | Eq => (length s ?= length t)%nat | c => c end.
Proof.
  rewrite (strCompare_memcmpN (Nat.min (length s) (length t))) by lia.
  destruct (memcmpN _ _ _); [|done..].
  destruct (Nat.compare_spec (length s) (length t)).
  - by rewrite !drop_ge by lia.
  - rewrite drop_ge by lia. destruct (drop _ t) eqn:E; [|done].
    apply (f_equal length) in E. rewrite length_drop in E. cbn in E. lia.
  - rewrite (drop_ge t) by lia. destruct (drop _ s) eqn:E; [|done].
    apply (f_equal length) in E. rewrite length_drop in E. cbn in E. lia.
Qed.

Lemma memcmpN_le m n a b : (m <= n)%nat -> (n <= length a)%nat -> (n <= length b)%nat ->
  memcmpN n a b = match memcmpN m a b with Eq => memcmpN n a b | c => c end.
Proof.
  intros Hm Ha Hb. destruct (memcmpN m a b) eqn:E; [done|..]; unfold memcmpN in *;
    replace n with (m + (n - m))%nat by lia;
    rewrite <- !take_take_drop, memcmp_app by (rewrite !length_take; lia); by rewrite E.
Qed.

(** The comparisons of [ku_string_t] are the order of strings. *)
Lemma kuStringGreater_spec a b :
  kuStringGreater a b = match strCompare a b with Gt => true | _ => false end.
Proof.
  unfold kuStringGreater. cbv zeta. set (s := Nat.min (length a) (length b)).
  set (m := if (s <=? PREFIX_LENGTH)%nat then s else PREFIX_LENGTH).
  assert (Hm : (m <= s)%nat) by (subst m; destruct (Nat.leb_spec s PREFIX_LENGTH); lia).
  assert (E : (match memcmpN m a b with
               | Eq => if (PREFIX_LENGTH <? length a)%nat then memcmpN s a b else Eq
               | r => r end) = memcmpN s a b).
  { rewrite (memcmpN_le m s a b) at 2 by lia. destruct (memcmpN m a b) eqn:E; [|done..].
    destruct (Nat.ltb_spec PREFIX_LENGTH (length a)); [done|].
    assert (Es : m = s) by (subst m; destruct (Nat.leb_spec s PREFIX_LENGTH); lia). by rewrite <- Es, E. }
  rewrite E, strCompare_shared. fold s. destruct (memcmpN s a b); [|done..].
  destruct (Nat.ltb_spec (length b) (length a)), (Nat.compare_spec (length a) (length b)); lia || done.
Qed.

Lemma kuStringEq_spec a b : kuStringEq a b = match strCompare a b with Eq => true | _ => false end.
Proof.
  unfold kuStringEq. destruct (Nat.eqb_spec (length a) (length b)) as [E|E]; cbn [andb].
  - rewrite strCompare_shared, E, Nat.min_id, Nat.compare_refl.
    destruct (memcmpN (Nat.min (length b) PREFIX_LENGTH) a b) eqn:F.
    + by destruct (memcmpN (length b) a b).
    + rewrite (memcmpN_le (Nat.min (length b) PREFIX_LENGTH)), F by lia. done.
    + rewrite (memcmpN_le (Nat.min (length b) PREFIX_LENGTH)), F by lia. done.
  - destruct (strCompare a b) eqn:F; [|done..]. apply strCompare_eq in F. congruence.
Qed.

Lemma kuStringLess_spec a b : kuStringLess a b = match strCompare a b with Lt => true | _ => false end.
Proof.
  unfold kuStringLess. rewrite kuStringGreater_spec, kuStringEq_spec. by destruct (strCompare a b).
Qed.

Definition pad (n : nat) (s : list Z) : list Z := take n s ++ replicate (n - length s) 0.

Lemma length_pad n s : length (pad n s) = n.
Proof. unfold pad. rewrite length_app, length_take, length_replicate. lia. Qed.

Lemma pad_S n s :
  pad (S n) s = match s with [] => 0 :: pad n [] | x :: s => x :: pad n s end.
Proof. unfold pad. destruct s; cbn; [by rewrite take_nil, Nat.sub_0_r|done]. Qed.

Definition longFlag (s : list Z) : Z := if (length s <=? SHORT_STR_LENGTH)%nat then 0 else UINT8_MAX.

Lemma encodeString_pad s : encodeString s = pad SHORT_STR_LENGTH s ++ [longFlag s].
Proof.
  unfold encodeString, pad, longFlag. destruct (Nat.leb_spec (length s) SHORT_STR_LENGTH).
  - rewrite Nat.min_r, !take_ge by lia. rewrite <- app_assoc. f_equal.
    replace (SHORT_STR_LENGTH + 1 - length s)%nat with ((SHORT_STR_LENGTH - length s) + 1)%nat by lia.
    by rewrite replicate_add.
  - rewrite Nat.min_l by lia. replace (SHORT_STR_LENGTH - length s)%nat with 0%nat by lia.
    cbn. by rewrite app_nil_r.
Qed.

Lemma length_encodeString s : length (encodeString s) = 13%nat.
Proof. by rewrite encodeString_pad, length_app, length_pad. Qed.

Lemma pad_lt n s t :
  Forall isByte s -> Forall isByte t -> memcmp (pad n s) (pad n t) = Lt -> strCompare s t = Lt.
Proof.
  revert s t. induction n as [|n IH]; intros s t Hs Ht; [by destruct s, t|].
  rewrite !pad_S. destruct Hs as [|x s Hx Hs], Ht as [|y t Hy Ht]; cbn; try done.
  - rewrite memcmp_refl. done.
  - destruct (Z.compare_spec x 0); [|unfold isByte in Hx; lia|done].
    intros H'. apply IH in H'; [|done|constructor]. by destruct s.
  - destruct (x ?= y); [|done..]. by apply IH.
Qed.

Lemma pad_eq_short_long n s t :
  (length s <= n)%nat -> (n < length t)%nat -> pad n s = pad n t -> strCompare s t = Lt.
Proof.
  revert s t. induction n as [|n IH]; intros s t Hs Ht.
  - destruct s, t; cbn in *; try lia. done.
  - rewrite !pad_S. destruct s as [|x s], t as [|y t]; cbn in *; try lia; [done|].
    intros [= -> E]. rewrite Z.compare_refl. apply IH; [lia|lia|done].
Qed.

(** What the encoded prefix decides, it decides as the strings do. *)
Lemma encodeString_lt s t :
  Forall isByte s -> Forall isByte t ->
  memcmp (encodeString s) (encodeString t) = Lt -> strCompare s t = Lt.
Proof.
  intros Hs Ht. rewrite !encodeString_pad, memcmp_app by (by rewrite !length_pad).
  destruct (memcmp (pad _ s) (pad _ t)) eqn:E; [|intros; by eapply pad_lt|done].
  apply memcmp_eq in E; [|by rewrite !length_pad]. unfold longFlag.
  destruct (Nat.leb_spec (length s) SHORT_STR_LENGTH), (Nat.leb_spec (length t) SHORT_STR_LENGTH);
    try done. intros _. by eapply pad_eq_short_long.
Qed.

Lemma encodeString_gt s t :
  Forall isByte s -> Forall isByte t ->
  memcmp (encodeString s) (encodeString t) = Gt -> strCompare s t = Gt.
Proof.
  intros Hs Ht H. rewrite strCompare_opp, (encodeString_lt t s Ht Hs); [done|].
  by rewrite memcmp_opp, H.
Qed.

(** Equal encodings: short strings without zero bytes are equal, and so are the flags. *)
Definition noZero (s : list Z) : Prop := Forall (fun b => b <> 0) s.

Lemma pad_inj n s t :
  noZero s -> noZero t -> (length s <= n)%nat -> (length t <= n)%nat -> pad n s = pad n t -> s = t.
Proof.
  revert s t. induction n as [|n IH]; intros s t Hs Ht Ls Ls'.
  { destruct s, t; cbn in *; try lia. done. }
  rewrite !pad_S. destruct Hs as [|x s Hx Hs], Ht as [|y t Hy Ht]; cbn in *; try congruence.
  intros [= -> E]. f_equal. apply IH; [done|done|lia|lia|done].
Qed.

Lemma encodeString_eq s t :
  encodeString s = encodeString t -> pad SHORT_STR_LENGTH s = pad SHORT_STR_LENGTH t /\
    ((length s <= SHORT_STR_LENGTH)%nat <-> (length t <= SHORT_STR_LENGTH)%nat).
Proof.
  rewrite !encodeString_pad. intros E. apply app_inj_1 in E as [E F]; [|by rewrite !length_pad].
  split; [done|]. injection F as F. unfold longFlag in F.
  destruct (Nat.leb_spec (length s) SHORT_STR_LENGTH), (Nat.leb_spec (length t) SHORT_STR_LENGTH);
    try done; split; intros; try lia.
Qed.

Lemma encodeString_short_eq s t :
  noZero s -> noZero t -> (length s <= SHORT_STR_LENGTH)%nat ->
  encodeString s = encodeString t -> s = t.
Proof.
  intros Hs Ht Ls E. destruct (encodeString_eq s t E) as [Ep Hl].
  eapply pad_inj; [done|done|done|by apply Hl|done].
Qed.

(** *** Intervals: [Interval::greaterThan] compares the normalised parts in turn *)
Definition thenCompare (c d : comparison) : comparison := match c with Eq => d | c => c end.

Definition intervalCompare (x y : Z * Z * Z) : comparison :=
  let '(m1, d1, u1) := x in let '(m2, d2, u2) := y in
  thenCompare (m1 ?= m2) (thenCompare (d1 ?= d2) (u1 ?= u2)).

(** [Interval::greaterThan] *)
Definition intervalGreaterThan (x y : Z * Z * Z) : bool :=
  let '(m1, d1, u1) := x in let '(m2, d2, u2) := y in
  let '(lMonths, lDays, lMicros) := normalizeIntervalEntries m1 d1 u1 in
  let '(rMonths, rDays, rMicros) := normalizeIntervalEntries m2 d2 u2 in
  if rMonths <? lMonths then true else if lMonths <? rMonths then false else
  if rDays <? lDays then true else if lDays <? rDays then false else
  rMicros <? lMicros.

Lemma intervalGreaterThan_spec m1 d1 u1 m2 d2 u2 :
  intervalGreaterThan (m1, d1, u1) (m2, d2, u2) =
    match intervalCompare (normalizeIntervalEntries m1 d1 u1) (normalizeIntervalEntries m2 d2 u2) with
    | Gt => true | _ => false end.
Proof.
  unfold intervalGreaterThan. destruct (normalizeIntervalEntries m1 d1 u1) as [[m d] u].
  destruct (normalizeIntervalEntries m2 d2 u2) as [[m' d'] u']. cbn [intervalCompare].
  unfold thenCompare, Z.ltb. rewrite (Z.compare_antisym m m'), (Z.compare_antisym d d'), (Z.compare_antisym u u').
  by destruct (m ?= m'), (d ?= d'), (u ?= u').
Qed.

Definition intervalOK (x : Z * Z * Z) : Prop :=
  let '(m, d, u) := x in inS 32 m /\ inS 32 d /\ inS 64 u.

Lemma memcmp_encodeInterval le m1 d1 u1 m2 d2 u2 :
  intervalOK (normalizeIntervalEntries m1 d1 u1) -> intervalOK (normalizeIntervalEntries m2 d2 u2) ->
  memcmp (encodeInterval le m1 d1 u1) (encodeInterval le m2 d2 u2) =
    intervalCompare (normalizeIntervalEntries m1 d1 u1) (normalizeIntervalEntries m2 d2 u2).
Proof.
  unfold encodeInterval.
  destruct (normalizeIntervalEntries m1 d1 u1) as [[m d] u].
  destruct (normalizeIntervalEntries m2 d2 u2) as [[m' d'] u'].
  intros (Hm & Hd & Hu) (Hm' & Hd' & Hu').
  rewrite !(wrapS_id 32) by (done || lia).
  rewrite !memcmp_app by (by rewrite !length_encodeInt).
  assert (H4 : intSize 4) by (unfold intSize; tauto).
  assert (H8 : intSize 8) by (unfold intSize; tauto).
  rewrite (memcmp_encodeInt le 4 m m' H4 Hm Hm'), (memcmp_encodeInt le 4 d d' H4 Hd Hd').
  rewrite (memcmp_encodeInt le 8 u u' H8 Hu Hu'). cbn [intervalCompare].
  unfold thenCompare. by destruct (m ?= m'), (d ?= d').
Qed.

(** ** The order of keys *)
Definition int128Value (high low : Z) : Z := high * 2 ^ 64 + low.

Definition valueCompare (v w : keyValue) : comparison :=
  match v, w with
  | KBool a, KBool b => (if a then 1 else 0) ?= (if b then 1 else 0)
  | KInt _ a, KInt _ b => a ?= b
  | KUInt _ a, KUInt _ b => a ?= b
  | KInt128 h l, KInt128 h' l' => int128Value h l ?= int128Value h' l'
  | KDouble a, KDouble b => floatOrder 8 a ?= floatOrder 8 b
  | KFloat a, KFloat b => floatOrder 4 a ?= floatOrder 4 b
  | KString a, KString b => strCompare a b
  | KInterval m d u, KInterval m' d' u' =>
      intervalCompare (normalizeIntervalEntries m d u) (normalizeIntervalEntries m' d' u')
  | _, _ => Eq
  end.

(** The values of a type.  Floating point numbers that are NaN or the negative zero,
    and intervals whose normalised months or days do not fit 32 bits, are left out. *)
Definition valueOK (t : keyType) (v : keyValue) : Prop :=
  match t, v with
  | TBool, KBool _ => True
  | TInt n, KInt n' v => n' = n /\ intSize n /\ inS (8 * Z.of_nat n) v
  | TUInt n, KUInt n' v => n' = n /\ intSize n /\ inU (8 * Z.of_nat n) v
  | TInt128, KInt128 h l => inS 64 h /\ inU 64 l
  | TDouble, KDouble b => inU 64 b /\ isNaN 8 52 b = false /\ ~ negativeZero 8 b
  | TFloat, KFloat b => inU 32 b /\ isNaN 4 23 b = false /\ ~ negativeZero 4 b
  | TString, KString s => Forall isByte s
  | TInterval, KInterval m d u => intervalOK (normalizeIntervalEntries m d u)
  | _, _ => False
  end.

Definition compareColumn (isAsc : bool) (v w : option keyValue) : comparison :=
  let c := match v, w with
           | None, None => Eq
           | None, Some _ => Gt
           | Some _, None => Lt
           | Some v, Some w => valueCompare v w
           end in
  if isAsc then c else CompOpp c.

Fixpoint compareRows (cols : list keyColumn) (r1 r2 : list (option keyValue)) : comparison :=
  match cols, r1, r2 with
  | c :: cols, v :: r1, w :: r2 =>
      thenCompare (compareColumn (isAscOrder c) v w) (compareRows cols r1 r2)
  | _, _, _ => Eq
  end.

Definition cellOK (t : keyType) (v : option keyValue) : Prop :=
  match v with None => True | Some v => valueOK t v end.

Lemma length_encodeData le t v : valueOK t v -> length (encodeData le v) = (getEncodingSize t - 1)%nat.
Proof.
  destruct t, v; cbn [valueOK encodeData getEncodingSize]; try done.
  - intros (-> & _). rewrite length_encodeInt. lia.
  - intros (-> & _). rewrite length_encodeUInt. lia.
  - intros _. unfold encodeInt128. by rewrite length_app, length_encodeInt, length_encodeUInt.
  - intros _. unfold encodeFloat. case_bool; unfold invertBytes;
      by rewrite ?length_fmap, ?length_flipFirst, length_encodeUInt.
  - intros _. unfold encodeFloat. case_bool; unfold invertBytes;
      by rewrite ?length_fmap, ?length_flipFirst, length_encodeUInt.
  - intros _. by rewrite length_encodeString.
  - intros _. unfold encodeInterval. destruct (normalizeIntervalEntries _ _ _) as [[? ?] ?].
    by rewrite !length_app, !length_encodeInt.
Qed.

Lemma encodeData_isByte le t v : valueOK t v -> Forall isByte (encodeData le v).
Proof.
  destruct t, v; cbn [valueOK encodeData]; try done.
  - intros _. repeat constructor; destruct b; lia.
  - intros _. apply encodeInt_isByte.
  - intros _. apply encodeUInt_isByte.
  - intros _. apply Forall_app. split; [apply encodeInt_isByte|apply encodeUInt_isByte].
  - intros _. unfold encodeFloat. case_bool; [apply invertBytes_isByte|].
    apply flipFirst_isByte, encodeUInt_isByte.
  - intros _. unfold encodeFloat. case_bool; [apply invertBytes_isByte|].
    apply flipFirst_isByte, encodeUInt_isByte.
  - intros Hs. rewrite encodeString_pad. unfold pad, longFlag, UINT8_MAX.
    repeat (apply Forall_app; split).
    + by apply Forall_take.
    + apply Forall_replicate. split; lia.
    + repeat constructor; case_bool; lia.
  - intros _. unfold encodeInterval. destruct (normalizeIntervalEntries _ _ _) as [[? ?] ?].
    repeat (apply Forall_app; split); apply encodeInt_isByte.
Qed.

(** One value, any type but a string. *)
Lemma memcmp_encodeData le t v w :
  t <> TString -> valueOK t v -> valueOK t w ->
  memcmp (encodeData le v) (encodeData le w) = valueCompare v w.
Proof.
  intros Ht. destruct t, v, w; cbn [valueOK encodeData valueCompare]; try done.
  - intros _ _. cbn. by destruct b, b0.
  - intros (-> & Hn & Hv) (-> & _ & Hw). by apply memcmp_encodeInt.
  - intros (-> & Hn & Hv) (-> & _ & Hw). by apply memcmp_encodeUInt.
  - intros [Hh Hl] [Hh' Hl']. unfold encodeInt128.
    rewrite memcmp_app by (by rewrite !length_encodeInt).
    assert (H8 : intSize 8) by (unfold intSize; tauto).
    rewrite (memcmp_encodeInt le 8 _ _ H8 Hh Hh'), (memcmp_encodeUInt le 8 _ _ H8 Hl Hl').
    unfold int128Value, inU in *.
    rewrite (compare_divmod (high * 2 ^ 64 + low) _ (2 ^ 64)) by lia.
    rewrite !Z.div_add_l, !(Z.div_small _ (2 ^ 64)), !Z.add_0_r by lia.
    by rewrite !(Z.add_comm (_ * 2 ^ 64)), !Z.mod_add, !Z.mod_small by lia.
  - intros (? & ? & ?) (? & ? & ?). apply memcmp_encodeFloat; try done. unfold intSize; tauto.
  - intros (? & ? & ?) (? & ? & ?). apply memcmp_encodeFloat; try done. unfold intSize; tauto.
  - intros H1 H2. by apply memcmp_encodeInterval.
Qed.

Lemma encodeColumn_length le asc t v : cellOK t v -> length (encodeColumn le asc t v) = getEncodingSize t.
Proof.
  intros Hv. unfold encodeColumn. set (bs := match v with None => _ | Some _ => _ end).
  assert (Hl : length bs = getEncodingSize t).
  { subst bs. destruct v as [v|]; [|apply length_replicate]. cbn. rewrite (length_encodeData le t v Hv).
    destruct t; cbn; lia. }
  destruct asc; [done|]. unfold invertBytes. by rewrite length_fmap.
Qed.

Lemma plainColumn_isByte le t v :
  cellOK t v -> Forall isByte (match v with None => replicate (getEncodingSize t) UINT8_MAX
                                          | Some v => 0 :: encodeData le v end).
Proof.
  intros Hv. destruct v as [v|].
  - constructor; [split; lia|]. by eapply encodeData_isByte.
  - apply Forall_replicate. unfold UINT8_MAX. split; lia.
Qed.

(** One column: null flag, direction. *)
Lemma memcmp_encodeColumn le asc t v w :
  t <> TString -> cellOK t v -> cellOK t w ->
  memcmp (encodeColumn le asc t v) (encodeColumn le asc t w) = compareColumn asc v w.
Proof.
  intros Ht Hv Hw. unfold encodeColumn, compareColumn.
  set (c := match v, w with None, None => _ | _, _ => _ end).
  set (bv := match v with None => _ | Some _ => _ end).
  set (bw := match w with None => _ | Some _ => _ end).
  assert (E : memcmp bv bw = c).
  { subst bv bw c. destruct v as [v|], w as [w|].
    - cbn [memcmp]. rewrite Z.compare_refl. by eapply memcmp_encodeData.
    - by destruct t.
    - by destruct t.
    - apply memcmp_refl. }
  destruct asc; [done|]. rewrite memcmp_invert, E; [done| |];
    subst bv bw; by apply plainColumn_isByte.
Qed.

(** ** Rows *)
Definition rowOK (cols : list keyColumn) (row : list (option keyValue)) : Prop :=
  Forall2 (fun c v => cellOK (colType c) v) cols row.

Definition isString (t : keyType) : bool := match t with TString => true | _ => false end.
Definition noStrings (cols : list keyColumn) : Prop :=
  Forall (fun c => isString (colType c) = false) cols.

Lemma length_encodeRow le cols row :
  rowOK cols row ->
  length (encodeRow le cols row) = fold_right (fun c n => getEncodingSize (colType c) + n)%nat 0%nat cols.
Proof.
  induction 1 as [|c v cols row Hc _ IH]; [done|]. cbn.
  by rewrite length_app, IH, encodeColumn_length.
Qed.

Lemma memcmp_encodeRow le cols r1 r2 :
  noStrings cols -> rowOK cols r1 -> rowOK cols r2 ->
  memcmp (encodeRow le cols r1) (encodeRow le cols r2) = compareRows cols r1 r2.
Proof.
  intros HN H1. revert r2 HN. induction H1 as [|c v cols r1 Hv _ IH]; intros r2 HN H2.
  { by inversion_clear H2. }
  inversion H2 as [|? w ? r2' Hw H2' E1 E2]; subst. inversion_clear HN as [|?? Hs HN'].
  cbn [encodeRow compareRows]. rewrite memcmp_app by (by rewrite !encodeColumn_length).
  rewrite memcmp_encodeColumn by (done || by destruct (colType c)). rewrite IH by done.
  unfold thenCompare. by destruct (compareColumn _ _ _).
Qed.

(** C27. Comparing encoded ORDER BY keys with [memcmp] compares the rows: on rows of any
    number of columns of the fixed-size types, whatever the byte order of the machine,
    the encodings compare as the values of the first column that differs, reversed for
    a descending column, with nulls after every value (before, when descending).
    Floating point columns hold no NaN and no negative zero, and the normalized months and days
    of an interval have 32 bits (the encoder truncates them). *)
Theorem encoded_keys_ordered le cols r1 r2 :
  noStrings cols -> rowOK cols r1 -> rowOK cols r2 ->
  memcmp (encodeRow le cols r1) (encodeRow le cols r2) = compareRows cols r1 r2.
Proof. apply memcmp_encodeRow. Qed.

Lemma encoded_keys_ordered_witness :
  memcmp (encodeRow true [mkColumn (TInt 4) false; mkColumn TDouble true] [Some (KInt 4 (-5)); None])
         (encodeRow true [mkColumn (TInt 4) false; mkColumn TDouble true]
            [Some (KInt 4 (-5)); Some (KDouble 0x3ff0000000000000)]) = Gt.
Proof.
  rewrite (encoded_keys_ordered true [mkColumn (TInt 4) false; mkColumn TDouble true]).
  - reflexivity.
  - repeat constructor.
  - constructor; [|constructor; [exact I|constructor]].
    split; [reflexivity|]. split; [unfold intSize; tauto|unfold inS; lia].
  - constructor; [|constructor; [|constructor]].
    + split; [reflexivity|]. split; [unfold intSize; tauto|unfold inS; lia].
    + split; [unfold inU; lia|]. split; [reflexivity|]. intros H. by vm_compute in H.
Defined.

(** A string column decides what its prefix decides. *)
Lemma memcmp_stringColumn le asc v w c :
  cellOK TString v -> cellOK TString w ->
  memcmp (encodeColumn le asc TString v) (encodeColumn le asc TString w) = c -> c <> Eq ->
  compareColumn asc v w = c.
Proof.
  intros Hv Hw E Hc. unfold encodeColumn, compareColumn in *.
  set (d := match v, w with None, None => _ | _, _ => _ end).
  revert E. set (bv := match v with None => _ | Some _ => _ end).
  set (bw := match w with None => _ | Some _ => _ end). intros E.
  assert (HD : forall e, memcmp bv bw = e -> e <> Eq -> d = e).
  { subst bv bw d. intros e He Hne. destruct v as [v|], w as [w|]; try done.
    { cbn in Hv, Hw. destruct v as [| | | | | |s|]; try done. destruct w as [| | | | | |t|]; try done.
      cbn [valueOK] in Hv, Hw. cbn [memcmp encodeData valueCompare] in He |- *.
      rewrite Z.compare_refl in He.
      destruct e; [done|by apply encodeString_lt|by apply encodeString_gt]. } }
  destruct asc; [by apply HD|].
  rewrite memcmp_invert in E; [|subst bv bw; by apply plainColumn_isByte..].
  rewrite (HD (CompOpp c)); [by destruct c| |by destruct c].
  rewrite <- E. by destruct (memcmp bv bw).
Qed.

(** Up to and including the first string column, encoded keys never order two rows
    the wrong way round: when [memcmp] decides, it decides as the rows compare.  (When
    it does not, the 12-byte prefixes agree, and the sort goes back to the strings.) *)
Theorem string_prefix_decides le cols asc r1 r2 v w c :
  noStrings cols -> rowOK cols r1 -> rowOK cols r2 -> cellOK TString v -> cellOK TString w ->
  memcmp (encodeRow le (cols ++ [mkColumn TString asc]) (r1 ++ [v]))
         (encodeRow le (cols ++ [mkColumn TString asc]) (r2 ++ [w])) = c -> c <> Eq ->
  compareRows (cols ++ [mkColumn TString asc]) (r1 ++ [v]) (r2 ++ [w]) = c.
Proof.
  intros HN H1 H2 Hv Hw. revert r2 HN H2. induction H1 as [|k x cols r1 Hx H1 IH]; intros r2 HN H2.
  - inversion_clear H2. cbn [app encodeRow compareRows]. rewrite !app_nil_r. intros E Hc.
    apply memcmp_stringColumn in E; [|done..]. cbn [isAscOrder] in *. rewrite E. by destruct c.
  - inversion H2 as [|? y ? r2' Hy H2' E1 E2]; subst. inversion_clear HN as [|?? Hs HN'].
    cbn [app encodeRow compareRows]. rewrite memcmp_app by (by rewrite !encodeColumn_length).
    rewrite memcmp_encodeColumn by (done || by destruct (colType k)).
    destruct (compareColumn _ _ _); cbn [thenCompare]; [by apply IH|done..].
Qed.

Lemma string_prefix_decides_witness :
  compareRows [mkColumn TString true] [Some (KString [97; 98])] [Some (KString [97; 99])] = Lt.
Proof.
  apply (string_prefix_decides true [] true [] [] (Some (KString [97; 98])) (Some (KString [97; 99])) Lt).
  - constructor.
  - constructor.
  - constructor.
  - repeat constructor; lia.
  - repeat constructor; lia.
  - reflexivity.
  - discriminate.
Defined.

(** Short strings that differ only in trailing zero bytes have the same encoding, and the
    sort treats strings with the same short encoding as equal. *)
Theorem zero_byte_strings_tie :
  encodeString [97] = encodeString [97; 0] /\ strCompare [97] [97; 0] = Lt.
Proof. done. Qed.

(** ** Positions in the factorized table *)
Definition posOf (perBlock t : Z) : ftPos := mkFtPos (t / perBlock) (t mod perBlock).

Lemma land_low24 x : Z.land x 0x00FFFFFF = x mod 2 ^ 24.
Proof. change 0x00FFFFFF with (Z.ones 24). by rewrite Z.land_ones. Qed.

(** The three parts of the table position are read back. *)
Lemma ftInfo_roundtrip blockIdx offset ftIdx :
  inU 32 blockIdx -> 0 <= offset <= MAX_FT_BLOCK_OFFSET -> isByte ftIdx ->
  let info := encodeFTInfo blockIdx offset ftIdx in
  getEncodedFTBlockIdx info = blockIdx /\ getEncodedFTBlockOffset info = offset /\
  getEncodedFTIdx info = ftIdx /\ length info = 8%nat.
Proof.
  intros Hb Ho Hf info. unfold MAX_FT_BLOCK_OFFSET in Ho. change (2 ^ 24) with 16777216 in Ho.
  assert (Hl : length (leBytes 4 blockIdx) = 4%nat) by apply length_leBytes.
  assert (Et : take 4 info = leBytes 4 blockIdx).
  { subst info. unfold encodeFTInfo. rewrite <- Hl. apply take_app_length. }
  assert (Ed : drop 4 info = <[3%nat := ftIdx]> (leBytes 4 offset)).
  { subst info. unfold encodeFTInfo. rewrite <- Hl. apply drop_app_length. }
  unfold getEncodedFTBlockIdx, getEncodedFTBlockOffset, getEncodedFTIdx.
  rewrite Et, Ed, leValue_leBytes. change (8 * Z.of_nat 4) with 32.
  split; [by apply Z.mod_small|]. split; [|split].
  - rewrite land_low24. cbn -[Z.modulo Z.div Z.mul Z.add Z.pow]. change (2 ^ 24) with 16777216.
    rewrite !Z.div_div by lia. change (256 * 256) with 65536. unfold isByte in Hf.
    pose proof (Z.div_mod offset 256 ltac:(lia)). pose proof (Z.mod_pos_bound offset 256 ltac:(lia)).
    pose proof (Z.div_mod (offset / 256) 256 ltac:(lia)). pose proof (Z.mod_pos_bound (offset / 256) 256 ltac:(lia)).
    rewrite Z.div_div in * by lia. change (256 * 256) with 65536 in *.
    assert (offset / 65536 < 256) by (apply Z.div_lt_upper_bound; lia).
    assert (0 <= offset / 65536) by (apply Z.div_pos; lia).
    rewrite (Z.mod_small (offset / 65536)) by lia.
    symmetry. apply Z.mod_unique with (q := ftIdx); [left; lia|]. lia.
  - subst info. unfold encodeFTInfo. cbn. done.
  - subst info. unfold encodeFTInfo. by rewrite length_app, length_insert, !length_leBytes.
Qed.

Lemma encodeBatch_ok ftIdx n perBlock t :
  0 < perBlock < 2 ^ 32 -> 0 <= t -> t mod perBlock + Z.of_nat n <= perBlock ->
  encodeBatch ftIdx n (posOf perBlock t) =
    ((fun i => encodeFTInfo ((t + Z.of_nat i) / perBlock) ((t + Z.of_nat i) mod perBlock) ftIdx) <$> seq 0 n,
     mkFtPos (t / perBlock) (t mod perBlock + Z.of_nat n)).
Proof.
  intros HB Ht Hn. pose proof (Z.mod_pos_bound t perBlock ltac:(lia)) as Hm.
  pose proof (Z.div_mod t perBlock ltac:(lia)) as Hd.
  assert (G : forall n s, t mod perBlock + s + Z.of_nat n <= perBlock -> 0 <= s ->
    encodeBatch ftIdx n (mkFtPos (t / perBlock) (t mod perBlock + s)) =
    ((fun i => encodeFTInfo (t / perBlock) (t mod perBlock + s + Z.of_nat i) ftIdx) <$> seq 0 n,
     mkFtPos (t / perBlock) (t mod perBlock + s + Z.of_nat n))).
  { clear n Hn. intros n. induction n as [|n IH]; intros s Hn Hs.
    - cbn. by rewrite Z.add_0_r.
    - cbn [encodeBatch ftBlockIdx ftBlockOffset].
      rewrite wrapU_id by (split; lia). rewrite <- Z.add_assoc, IH by lia. cbn [seq fmap list_fmap].
      f_equal.
      + f_equal; [by rewrite Z.add_0_r|]. rewrite <- fmap_S_seq, <- list_fmap_compose.
        apply list_fmap_ext. intros ? i _. unfold compose. f_equal. lia.
      + f_equal. lia. }
  unfold posOf. rewrite <- (Z.add_0_r (t mod perBlock)) at 1. rewrite G by lia. f_equal.
  - apply list_fmap_ext. intros k i Hi. apply lookup_seq in Hi as [-> Hk].
    rewrite Z.add_0_r. f_equal.
    + apply Z.div_unique with (r := t mod perBlock + Z.of_nat (0 + k)); [left|]; lia.
    + apply Z.mod_unique with (q := t / perBlock); [left|]; lia.
  - f_equal. lia.
Qed.

Lemma encodeFTIdx_ok fuel :
  forall perBlock ftIdx n t,
  0 < perBlock < 2 ^ 32 -> 0 <= t -> (t + Z.of_nat n) / perBlock < 2 ^ 32 -> (n <= fuel)%nat ->
  encodeFTIdx fuel perBlock ftIdx (Z.of_nat n) (posOf perBlock t) =
    Ok ((fun i => encodeFTInfo ((t + Z.of_nat i) / perBlock) ((t + Z.of_nat i) mod perBlock) ftIdx) <$> seq 0 n,
        posOf perBlock (t + Z.of_nat n)).
Proof.
  induction fuel as [|fuel IH]; intros perBlock ftIdx n t HB Ht Hb Hf.
  { assert (n = 0%nat) as -> by lia. cbn. by rewrite Z.add_0_r. }
  cbn [encodeFTIdx]. destruct (Z.leb_spec (Z.of_nat n) 0).
  { assert (n = 0%nat) as -> by lia. cbn. by rewrite Z.add_0_r. }
  pose proof (Z.mod_pos_bound t perBlock ltac:(lia)) as Hm.
  pose proof (Z.div_mod t perBlock ltac:(lia)) as Hd.
  cbn [posOf ftBlockOffset]. rewrite wrapU_id by (split; lia).
  set (k := Z.to_nat (Z.min (Z.of_nat n) (perBlock - t mod perBlock))).
  assert (Hk : Z.of_nat k = Z.min (Z.of_nat n) (perBlock - t mod perBlock)) by lia.
  fold (posOf perBlock t). rewrite encodeBatch_ok by lia. cbn [ftBlockOffset ftBlockIdx].
  assert (Hp : (if t mod perBlock + Z.of_nat k =? perBlock
                then mkFtPos (wrapU 32 (t / perBlock + 1)) 0
                else mkFtPos (t / perBlock) (t mod perBlock + Z.of_nat k)) = posOf perBlock (t + Z.of_nat k)).
  { unfold posOf. destruct (Z.eqb_spec (t mod perBlock + Z.of_nat k) perBlock) as [E|E].
    - assert (E1 : (t + Z.of_nat k) / perBlock = t / perBlock + 1).
      { symmetry. apply Z.div_unique with (r := 0); [left|]; lia. }
      assert (E2 : (t + Z.of_nat k) mod perBlock = 0).
      { symmetry. apply Z.mod_unique with (q := t / perBlock + 1); [left|]; lia. }
      rewrite E1, E2, wrapU_id; [done|]. split; [pose proof (Z.div_pos t perBlock); lia|].
      rewrite <- E1. eapply Z.le_lt_trans; [apply Z.div_le_mono; [lia|]|exact Hb]. lia.
    - f_equal.
      + apply Z.div_unique with (r := t mod perBlock + Z.of_nat k); [left|]; lia.
      + apply Z.mod_unique with (q := t / perBlock); [left|]; lia. }
  rewrite Hp, <- Hk. replace (Z.of_nat n - Z.of_nat k) with (Z.of_nat (n - k)) by lia.
  rewrite IH; [|done|lia| |lia].
  2: { replace (t + Z.of_nat k + Z.of_nat (n - k)) with (t + Z.of_nat n) by lia. done. }
  cbn [obind fst snd]. f_equal. f_equal; [|f_equal; lia].
  replace n with (k + (n - k))%nat at 2 by lia. rewrite seq_app, fmap_app. f_equal.
  replace (seq (0 + k) (n - k)) with (Nat.add k <$> seq 0 (n - k)) by (rewrite fmap_add_seq; f_equal; lia).
  rewrite <- list_fmap_compose. apply list_fmap_ext. intros ? i _. unfold compose.
  by rewrite Nat2Z.inj_add, Z.add_assoc.
Qed.

(** The tuples of a sorted run carry their position in the factorized table:
    starting at tuple [t] of the table, [encodeFTIdx] ends and gives the [i]-th of [n]
    tuples the block and the offset of tuple [t + i], which the three getters read
    back, for blocks of at most [2^24 - 1] tuples. *)
Theorem table_positions perBlock ftIdx n t i info :
  0 < perBlock <= MAX_FT_BLOCK_OFFSET -> 0 <= t -> (t + Z.of_nat n) / perBlock < 2 ^ 32 ->
  isByte ftIdx ->
  exists infos, encodeFTIdx n perBlock ftIdx (Z.of_nat n) (posOf perBlock t) =
      Ok (infos, posOf perBlock (t + Z.of_nat n)) /\ length infos = n /\
    (infos !! i = Some info ->
     getEncodedFTBlockIdx info = (t + Z.of_nat i) / perBlock /\
     getEncodedFTBlockOffset info = (t + Z.of_nat i) mod perBlock /\
     getEncodedFTIdx info = ftIdx).
Proof.
  intros HB Ht Hb Hf. unfold MAX_FT_BLOCK_OFFSET in HB. change (2 ^ 24) with 16777216 in HB.
  eexists. split; [apply encodeFTIdx_ok; [lia|done|done|lia]|].
  split; [by rewrite length_fmap, length_seq|].
  rewrite list_lookup_fmap. intros (j & Hj & ->)%fmap_Some. apply lookup_seq in Hj as [-> Hi].
  cbn [Nat.add]. pose proof (Z.mod_pos_bound (t + Z.of_nat i) perBlock ltac:(lia)).
  destruct (ftInfo_roundtrip ((t + Z.of_nat i) / perBlock) ((t + Z.of_nat i) mod perBlock) ftIdx)
    as (? & ? & ? & _); try done.
  - split; [apply Z.div_pos; lia|]. eapply Z.le_lt_trans; [apply Z.div_le_mono; [lia|]|exact Hb]. lia.
  - unfold MAX_FT_BLOCK_OFFSET. change (2 ^ 24) with 16777216. lia.
Qed.

Lemma table_positions_witness :
  exists infos, encodeFTIdx 5 3 7 5 (posOf 3 4) = Ok (infos, posOf 3 9) /\ length infos = 5%nat.
Proof.
  destruct (table_positions 3 7 5 4 0 []) as (infos & E & L & _).
  - unfold MAX_FT_BLOCK_OFFSET. lia.
  - lia.
  - reflexivity.
  - unfold isByte. lia.
  - exists infos. split; [exact E|exact L].
Defined.
