(* ===== verification/Compare.v ===== *)
(** * Comparison functions and sorted segments

    Shared by the files that verify sorting.  [CompareOrder] is the interface between a
    three-way comparison and the algorithms that sort by it: the comparisons of the
    ORDER BY keys are instances, the sorting lemmas are proved against the class.
    A block sorted so far is a list of segments of mutually equal tuples ([segsOK]);
    sorting each segment by a further comparison refines it ([segsOK_refine]).
    [bucketSort] is the reference of a counting sort. *)

From S2P Require Import Prelude OrderByKey.
From stdpp Require Import base list numbers sorting.

(** ** Three-way comparisons *)
Class CompareOrder {A : Type} (c : A -> A -> comparison) : Prop := {
  cmp_refl x : c x x = Eq;
  cmp_opp x y : c y x = CompOpp (c x y);
  cmp_trans x y z : c x y <> Gt -> c y z <> Gt -> c x z <> Gt
}.

Definition cmpLe {A} (c : A -> A -> comparison) (x y : A) : Prop := c x y <> Gt.

Section compare.
Context {A : Type} (c : A -> A -> comparison) `{!CompareOrder c}.

Lemma cmp_eq_sym x y : c x y = Eq -> c y x = Eq.
Proof. intros E. by rewrite (cmp_opp (c := c) x y), E. Qed.

Lemma cmp_lt_gt x y : c x y = Lt <-> c y x = Gt.
Proof. rewrite (cmp_opp (c := c) x y). by destruct (c x y). Qed.

(** Equal elements compare alike. *)
Lemma cmp_eq_l x y z : c x y = Eq -> c x z = c y z.
Proof.
  intros E. pose proof (cmp_eq_sym _ _ E) as E'.
  pose proof (cmp_trans (c := c) x y z). pose proof (cmp_trans (c := c) y x z).
  pose proof (cmp_trans (c := c) z x y). pose proof (cmp_trans (c := c) z y x).
  rewrite (cmp_opp (c := c) x z), (cmp_opp (c := c) y z) in *. rewrite E, E' in *.
  destruct (c x z), (c y z); cbn in *; try done; exfalso; naive_solver.
Qed.

Lemma cmp_eq_r x y z : c x y = Eq -> c z x = c z y.
Proof. intros E. rewrite (cmp_opp (c := c) x z), (cmp_opp (c := c) y z). by rewrite (cmp_eq_l x y). Qed.

Lemma cmp_eq_trans x y z : c x y = Eq -> c y z = Eq -> c x z = Eq.
Proof. intros E1 E2. by rewrite (cmp_eq_l _ _ _ E1). Qed.

Lemma cmp_lt_le_trans x y z : c x y = Lt -> c y z <> Gt -> c x z = Lt.
Proof.
  intros H1 H2. destruct (c x z) eqn:E; [|done|].
  - rewrite (cmp_eq_l _ _ _ E) in H1. apply cmp_lt_gt in H1. done.
  - exfalso. apply (cmp_trans (c := c) x y z); [by rewrite H1|done|done].
Qed.

Lemma cmp_le_lt_trans x y z : c x y <> Gt -> c y z = Lt -> c x z = Lt.
Proof.
  intros H1 H2. destruct (c x y) eqn:E; [by rewrite (cmp_eq_l _ _ _ E)| |done].
  apply (cmp_lt_le_trans x y z); [done|by rewrite H2].
Qed.

#[export] Instance cmpLe_refl : Reflexive (cmpLe c).
Proof. intros x. unfold cmpLe. by rewrite cmp_refl. Qed.

#[export] Instance cmpLe_trans : Transitive (cmpLe c).
Proof. intros x y z. apply cmp_trans. Qed.
End compare.

(** *** Instances *)
#[export] Instance Zcompare_order : CompareOrder Z.compare.
Proof.
  split; intros; [apply Z.compare_refl|apply Z.compare_antisym|].
  rewrite Z.compare_ngt_iff in *. lia.
Qed.

#[export] Instance natcompare_order : CompareOrder Nat.compare.
Proof.
  split; intros; [apply Nat.compare_refl|apply Nat.compare_antisym|].
  rewrite Nat.compare_ngt_iff in *. lia.
Qed.

Lemma compare_order_ext {A} (c d : A -> A -> comparison) :
  (forall x y, d x y = c x y) -> CompareOrder c -> CompareOrder d.
Proof.
  intros E H. split; [intros x|intros x y|intros x y z]; rewrite !E;
    [apply cmp_refl|apply cmp_opp|apply cmp_trans].
Qed.

Lemma compareOn_order {A B} (f : A -> B) (c : B -> B -> comparison) :
  CompareOrder c -> CompareOrder (fun x y => c (f x) (f y)).
Proof. intros H. split; intros; [apply H|apply H|by eapply H]. Qed.

Lemma opp_order {A} (c : A -> A -> comparison) :
  CompareOrder c -> CompareOrder (fun x y => CompOpp (c x y)).
Proof.
  intros H. split; [intros x; by rewrite cmp_refl|intros x y; by rewrite (cmp_opp x y)|].
  intros x y z. rewrite <- !cmp_opp. intros. by apply (cmp_trans z y x).
Qed.

Lemma then_order {A} (c d : A -> A -> comparison) :
  CompareOrder c -> CompareOrder d -> CompareOrder (fun x y => thenCompare (c x y) (d x y)).
Proof.
  intros Hc Hd. split.
  - intros x. by rewrite !cmp_refl.
  - intros x y. rewrite (cmp_opp (c := c) x y), (cmp_opp (c := d) x y). by destruct (c x y).
  - intros x y z. unfold thenCompare. destruct (c x y) eqn:E1; [|destruct (c y z) eqn:E2|done].
    + rewrite (cmp_eq_l c _ _ _ E1). destruct (c y z); [|done..]. by apply cmp_trans.
    + rewrite <- (cmp_eq_r c _ _ _ E2), E1. done.
    + rewrite (cmp_lt_le_trans c x y z); [done|done|]. by rewrite E2.
    + done.
Qed.

#[export] Instance strCompare_order : CompareOrder strCompare.
Proof.
  split; [apply strCompare_refl|apply strCompare_opp|].
  intros x. induction x as [|a x IH]; intros [|b y] [|d z]; try done. cbn.
  pose proof (cmp_trans (c := Z.compare) a b d).
  destruct (Z.compare_spec a b), (Z.compare_spec b d), (Z.compare_spec a d);
    intros ??; try done; try lia. by apply (IH y).
Qed.

(** ** Segments *)
Definition before {A} (c : A -> A -> comparison) (s t : list A) : Prop :=
  forall x y, x ∈ s -> y ∈ t -> c x y = Lt.

Definition allEq {A} (c : A -> A -> comparison) (s : list A) : Prop :=
  forall x y, x ∈ s -> y ∈ s -> c x y = Eq.

(** Segments of equal elements, in strictly increasing order. *)
Record segsOK {A} (c : A -> A -> comparison) (segs : list (list A)) : Prop := {
  segs_eq : Forall (allEq c) segs;
  segs_sorted : StronglySorted (before c) segs;
  segs_nonempty : Forall (fun s => s <> []) segs
}.

Lemma StronglySorted_app_intro {A} (R : A -> A -> Prop) l k :
  StronglySorted R l -> StronglySorted R k -> (forall x y, x ∈ l -> y ∈ k -> R x y) ->
  StronglySorted R (l ++ k).
Proof.
  intros. by rewrite StronglySorted_app.
Qed.

Lemma StronglySorted_app_elim {A} (R : A -> A -> Prop) l k :
  StronglySorted R (l ++ k) ->
  StronglySorted R l /\ StronglySorted R k /\ (forall x y, x ∈ l -> y ∈ k -> R x y).
Proof.
  intros H. apply StronglySorted_app in H as (H1 & H2 & H3). done.
Qed.

Lemma StronglySorted_impl {A} (R S : A -> A -> Prop) l :
  (forall x y, x ∈ l -> y ∈ l -> R x y -> S x y) -> StronglySorted R l -> StronglySorted S l.
Proof.
  intros HRS H. induction H as [|x l H IH Hx]; constructor.
  - apply IH. intros a b Ha Hb. apply HRS; by right.
  - apply Forall_forall. intros y Hy. eapply Forall_forall in Hx; [|done].
    apply HRS; [left|by right|done].
Qed.

Section segments.
Context {A : Type}.
Implicit Types c d : A -> A -> comparison.

(** Sorted segments make a sorted list. *)
Lemma segsOK_sorted c segs : segsOK c segs -> StronglySorted (cmpLe c) (mjoin segs).
Proof.
  intros [He Hs _]. induction Hs as [|s segs Hs IH Hb]; [constructor|].
  inversion_clear He as [|?? Hs1 He']. cbn. apply StronglySorted_app_intro.
  - clear -Hs1. induction s as [|x s IHs]; constructor.
    + apply IHs. intros a b ??. apply Hs1; by right.
    + apply Forall_forall. intros y Hy. unfold cmpLe. rewrite Hs1; [done|left|by right].
  - by apply IH.
  - intros x y Hx (t & Hy & Ht)%list_elem_of_join. eapply Forall_forall in Hb; [|done].
    unfold cmpLe. by rewrite (Hb x y).
Qed.

(** The order inside a segment does not matter. *)
Lemma segsOK_single c s : s <> [] -> allEq c s -> segsOK c [s].
Proof. intros. split; repeat constructor; done. Qed.

(** Refining every segment by a further comparison. *)
Definition refines d (s : list A) (news : list (list A)) : Prop := mjoin news ≡ₚ s /\ segsOK d news.

Lemma segsOK_refine c d segs newss :
  segsOK c segs -> Forall2 (refines d) segs newss ->
  segsOK (fun x y => thenCompare (c x y) (d x y)) (mjoin newss).
Proof.
  intros [He Hs Hn] HF. induction HF as [|s news segs newss [HP [He' Hs' Hn']] HF IH].
  { cbn. split; constructor. }
  inversion_clear He as [|?? Es He1]. apply StronglySorted_inv in Hs as [Hs Hb].
  inversion_clear Hn as [|?? Ns Hn1].
  destruct (IH He1 Hs Hn1) as [He2 Hs2 Hn2]. cbn.
  assert (Hin : forall t x, t ∈ news -> x ∈ t -> x ∈ s).
  { intros t x Ht Hx. rewrite <- HP. apply list_elem_of_join. eauto. }
  split.
  - apply Forall_app. split; [|done]. apply Forall_forall. intros t Ht x y Hx Hy.
    rewrite (Es x y) by eauto. cbn. eapply Forall_forall in He'; [|exact Ht]. by apply He'.
  - apply StronglySorted_app_intro; [|done|].
    + eapply StronglySorted_impl; [|exact Hs']. intros t u Ht Hu Hb' x y Hx Hy.
      rewrite (Es x y) by eauto. cbn. by apply Hb'.
    + intros t u Ht Hu x y Hx Hy. apply list_elem_of_join in Hu as (news' & Hu & Hnews).
      apply list_elem_of_lookup in Hnews as [k Hk].
      destruct (Forall2_lookup_r _ _ _ _ _ HF Hk) as (s' & Hk' & HP' & _).
      eapply Forall_lookup_1 in Hb; [|exact Hk'].
      rewrite (Hb x y); [done|by eapply Hin|]. rewrite <- HP'. apply list_elem_of_join. eauto.
  - apply Forall_app. done.
Qed.

Lemma refines_perm d segs newss : Forall2 (refines d) segs newss -> mjoin (mjoin newss) ≡ₚ mjoin segs.
Proof.
  induction 1 as [|s news segs newss [HP _] HF IH]; [done|]. cbn.
  rewrite join_app. by rewrite HP, IH.
Qed.

Lemma refines_singleton d `{!CompareOrder d} x : refines d [x] [[x]].
Proof.
  split; [done|]. apply segsOK_single; [done|].
  intros a b ->%list_elem_of_singleton ->%list_elem_of_singleton. apply cmp_refl.
Qed.
End segments.

(** ** Distribution into buckets *)
Section buckets.
Context {A : Type} (f : A -> nat).

Definition bucket (v : nat) (s : list A) : list A := filter (fun x => f x = v) s.

(** The buckets below [v], one after the other, and how many elements they hold. *)
Definition bucketSort (v : nat) (s : list A) : list A := mjoin ((fun w => bucket w s) <$> seq 0 v).

Definition below (v : nat) (s : list A) : nat := length (filter (fun x => f x < v) s).

Lemma bucketSort_S v s : bucketSort (S v) s = bucketSort v s ++ bucket v s.
Proof. unfold bucketSort. rewrite seq_S, fmap_app, join_app. cbn. by rewrite app_nil_r. Qed.

Lemma filter_lt_S v s :
  filter (fun x => f x < S v) s ≡ₚ filter (fun x => f x < v) s ++ bucket v s.
Proof.
  unfold bucket. induction s as [|x s IH]; [done|]. rewrite !filter_cons.
  destruct (decide (f x < S v)), (decide (f x < v)), (decide (f x = v)); try lia.
  - cbn. by rewrite IH.
  - rewrite <- Permutation_middle. by rewrite IH.
  - done.
Qed.

Lemma below_S v s : below (S v) s = below v s + length (bucket v s).
Proof. unfold below. by rewrite filter_lt_S, length_app. Qed.

Lemma below_0 s : below 0 s = 0.
Proof.
  unfold below. induction s as [|x s IH]; [done|]. rewrite filter_cons_False by lia. done.
Qed.

Lemma below_mono v w s : v <= w -> below v s <= below w s.
Proof. induction 1 as [|w _ IH]; [done|]. rewrite below_S. lia. Qed.

Lemma below_le v s : below v s <= length s.
Proof. apply length_filter. Qed.

Lemma filter_id (P : A -> Prop) `{!forall x, Decision (P x)} s : Forall P s -> filter P s = s.
Proof. induction 1 as [|x s Hx _ IH]; [done|]. by rewrite filter_cons_True, IH. Qed.

Lemma below_all v s : Forall (fun x => f x < v) s -> below v s = length s.
Proof. intros H. unfold below. by rewrite filter_id. Qed.

Lemma bucketSort_length v s : length (bucketSort v s) = below v s.
Proof.
  induction v as [|v IH]; [by rewrite below_0|]. by rewrite bucketSort_S, length_app, IH, below_S.
Qed.

Lemma bucketSort_lt v s x : x ∈ bucketSort v s -> f x < v.
Proof.
  unfold bucketSort. intros (l & Hx & Hl)%list_elem_of_join.
  apply list_elem_of_fmap in Hl as (w & -> & Hw). apply elem_of_seq in Hw.
  apply list_elem_of_filter in Hx. lia.
Qed.

Lemma bucketSort_filter v s : bucketSort v s ≡ₚ filter (fun x => f x < v) s.
Proof.
  induction v as [|v IH].
  - cbn. induction s as [|x s IH]; [done|]. rewrite filter_cons_False by lia. done.
  - by rewrite bucketSort_S, IH, <- filter_lt_S.
Qed.

Lemma bucketSort_perm v s : Forall (fun x => f x < v) s -> bucketSort v s ≡ₚ s.
Proof. intros H. by rewrite bucketSort_filter, filter_id. Qed.

Lemma StronglySorted_filter (R : A -> A -> Prop) (P : A -> Prop) `{!forall x, Decision (P x)} s :
  StronglySorted R s -> StronglySorted R (filter P s).
Proof.
  induction 1 as [|x s Hs IH Hx]; [constructor|]. rewrite filter_cons.
  destruct (decide (P x)); [|done]. constructor; [done|].
  apply Forall_forall. intros y Hy. apply list_elem_of_filter in Hy as [_ Hy].
  by eapply Forall_forall in Hx.
Qed.

(** A stable sort: by [f], and as before where [f] is equal. *)
Lemma bucketSort_sorted (c : A -> A -> comparison) v s :
  StronglySorted (cmpLe c) s ->
  StronglySorted (cmpLe (fun x y => thenCompare (f x ?= f y) (c x y))) (bucketSort v s).
Proof.
  intros Hs. induction v as [|v IH]; [constructor|]. rewrite bucketSort_S.
  apply StronglySorted_app_intro; [done| |].
  - eapply StronglySorted_impl; [|by apply StronglySorted_filter].
    intros x y [Hx _]%list_elem_of_filter [Hy _]%list_elem_of_filter H.
    unfold cmpLe in *. cbn. by rewrite Hx, Hy, Nat.compare_refl.
  - intros x y Hx%bucketSort_lt [Hy _]%list_elem_of_filter. unfold cmpLe.
    by rewrite (proj2 (Nat.compare_lt_iff _ _)) by lia.
Qed.

Lemma bucket_app v s t : bucket v (s ++ t) = bucket v s ++ bucket v t.
Proof. apply filter_app. Qed.

Lemma bucket_cons_eq x s : bucket (f x) (x :: s) = x :: bucket (f x) s.
Proof. unfold bucket. by rewrite filter_cons_True. Qed.

Lemma bucket_cons_ne v x s : f x <> v -> bucket v (x :: s) = bucket v s.
Proof. intros. unfold bucket. by rewrite filter_cons_False. Qed.

Lemma bucket_full v s : length (bucket v s) = length s -> Forall (fun x => f x = v) s.
Proof.
  induction s as [|x s IH]; [constructor|]. unfold bucket. rewrite filter_cons.
  destruct (decide (f x = v)); cbn.
  - intros E. constructor; [done|]. apply IH. unfold bucket. lia.
  - intros E. pose proof (length_filter (fun x => f x = v) s). lia.
Qed.

(** A list that holds every bucket at its place is the sorted list. *)
Lemma bucketSort_unique v s l :
  (forall w k x, w < v -> bucket w s !! k = Some x -> l !! (below w s + k) = Some x) ->
  take (below v s) l = bucketSort v s.
Proof.
  induction v as [|v IH]; intros H; [by rewrite below_0|].
  rewrite below_S, bucketSort_S, <- take_take_drop, IH by (intros; apply H; [lia|done]). f_equal.
  apply list_eq. intros k. destruct (decide (k < length (bucket v s))).
  - rewrite lookup_take_lt by lia. rewrite lookup_drop.
    destruct (lookup_lt_is_Some_2 (bucket v s) k) as [x Hx]; [done|]. rewrite Hx. apply H; [lia|done].
  - rewrite lookup_take_ge by lia. rewrite lookup_ge_None_2 by lia. done.
Qed.
End buckets.
