(* ===== verification/RadixSort.v ===== *)
(** * Radix sort of key blocks (src/processor/operator/order_by/radix_sort.cpp,
      src/include/processor/operator/order_by/radix_sort.h,
      src/processor/operator/order_by/sort_state.cpp)

    A key block holds encoded tuples (file OrderByKey) one after the other.  It is
    sorted column group by column group: the bytes up to and including a string
    column by a least-significant-byte-first radix sort, the tuples that tie there
    by [std::sort] on the full strings of the factorized table, and what still ties
    by the bytes up to the next string column.  The ranges of tied tuples wait in a
    queue.

    A block is the list of its tuples, a tuple the list of its bytes; the pointer
    [keyBlockPtr] with a number of tuples is the sublist it points to.  [std::sort]
    and the contents of the factorized table are arguments.

    The theorems: one pass of the counting sort is a stable distribution into 256
    buckets; the radix sort permutes the tuples and orders them by the bytes it looks
    at; [findTies] and [findStringTies] find exactly the runs of equal tuples; and
    [sortSingleKeyBlock] ends with the tuples in the order of the rows they encode. *)

From S2P Require Import Prelude Serializer OrderByKey Compare.
From stdpp Require Import base list numbers sorting.
Local Open Scope Z_scope.

Local Abbreviation tuple := (list Z).

Definition COUNTING_ARRAY_SIZE : nat := 256.

(** ** Counting sort on one byte *)

(** [*(tuplePtr + i)] *)
Definition byteOf (i : nat) (t : tuple) : nat := Z.to_nat (nth i t 0).

(** [count[*sortBytePtr]++] for every tuple. *)
Fixpoint countBytes (i : nat) (source : list tuple) (count : list nat) : list nat :=
  match source with
  | [] => count
  | t :: source => countBytes i source (alter S (byteOf i t) count)
  end.

(** The loop over [val]: the largest counter, and the counters summed up. *)
Fixpoint accumulate (prev maxCounter : nat) (count : list nat) : list nat * nat :=
  match count with
  | [] => ([], maxCounter)
  | c :: count =>
      let '(sums, m) := accumulate (c + prev) (Nat.max c maxCounter) count in
      ((c + prev)%nat :: sums, m)
  end.

Definition sumCounts (count : list nat) : list nat * nat :=
  match count with
  | [] => ([], 0%nat)
  | c :: count => let '(sums, m) := accumulate c c count in (c :: sums, m)
  end.

(** The loop that moves the tuples, from the last one to the first:
    [targetTupleNum = --count[byte]]. *)
Fixpoint reorder (i : nat) (reversed : list tuple) (count : list nat) (target : list tuple)
    : list tuple :=
  match reversed with
  | [] => target
  | t :: reversed =>
      let targetTupleNum := (count !!! byteOf i t - 1)%nat in
      reorder i reversed (<[byteOf i t := targetTupleNum]> count) (<[targetTupleNum := t]> target)
  end.

(** ** [radixSort] *)
Record radixState : Type := mkRadix {
  keyTuples : list tuple;
  tmpTuples : list tuple;
  isInTmpBlock : bool
}.

(** One round of the loop over [curByteIdx], for the byte [numBytesSorted + curByteOffset]. *)
Definition radixPass (numTuplesToSort numBytesSorted curByteOffset : nat) (st : radixState)
    : radixState :=
  let sourcePtr := if isInTmpBlock st then tmpTuples st else keyTuples st in
  let targetPtr := if isInTmpBlock st then keyTuples st else tmpTuples st in
  let source := take numTuplesToSort sourcePtr in
  let i := (numBytesSorted + curByteOffset)%nat in
  let '(count, maxCounter) :=
    sumCounts (countBytes i source (replicate COUNTING_ARRAY_SIZE 0%nat)) in
  if (maxCounter =? numTuplesToSort)%nat then st
  else
    let target := reorder i (rev source) count targetPtr in
    if isInTmpBlock st then mkRadix target (tmpTuples st) false
    else mkRadix (keyTuples st) target true.

Fixpoint radixLoop (numTuplesToSort numBytesSorted numBytesLeft : nat) (st : radixState)
    : radixState :=
  match numBytesLeft with
  | O => st
  | S curByteOffset =>
      radixLoop numTuplesToSort numBytesSorted curByteOffset
        (radixPass numTuplesToSort numBytesSorted curByteOffset st)
  end.

(** The sorted tuples and the temporary block. *)
Definition radixSort (keyBlock tmpBlock : list tuple) (numTuplesToSort numBytesSorted numBytesToSort : nat)
    : list tuple * list tuple :=
  let st := radixLoop numTuplesToSort numBytesSorted numBytesToSort (mkRadix keyBlock tmpBlock false) in
  (if isInTmpBlock st
   then take numTuplesToSort (tmpTuples st) ++ drop numTuplesToSort (keyTuples st)
   else keyTuples st, tmpTuples st).

(** ** Ties *)
Record TieRange : Type := mkTie { startingTupleIdx : nat; endingTupleIdx : nat }.

Definition getNumTuples (t : TieRange) : nat := (endingTupleIdx t - startingTupleIdx t + 1)%nat.

(** [len] bytes of a tuple from byte [off] on. *)
Definition field (off len : nat) (t : tuple) : list Z := (fun i => nth i t 0) <$> seq off len.

Definition isEq (c : comparison) : bool := match c with Eq => true | _ => false end.

(** The inner loop of [findTies]: how many of the next tuples are equal to this one. *)
Fixpoint equalRun (eq : tuple -> bool) (tuples : list tuple) : nat :=
  match tuples with
  | t :: tuples => if eq t then S (equalRun eq tuples) else 0%nat
  | [] => 0%nat
  end.

(** [findTies], for at least one tuple: [tuples] are the tuples from [iTuplePtr] on. *)
Fixpoint findTiesFrom (fuel off numBytesToSort numTuples baseTupleIdx i : nat) (tuples : list tuple)
    : outcome (list TieRange) :=
  match fuel with
  | O => Err Blocked
  | S fuel =>
      match tuples with
      | t :: tuples =>
          if (i <? numTuples - 1)%nat then
            let k := equalRun (fun u => isEq (memcmp (field off numBytesToSort t)
                                                     (field off numBytesToSort u))) tuples in
            let j := (i + k)%nat in
            let* ties := findTiesFrom fuel off numBytesToSort numTuples baseTupleIdx (j + 1) (drop k tuples) in
            Ok (if (i =? j)%nat then ties else mkTie (i + baseTupleIdx) (j + baseTupleIdx) :: ties)
          else Ok []
      | [] => Ok []
      end
  end.

Definition findTies (tuples : list tuple) (off numBytesToSort baseTupleIdx : nat)
    : outcome (list TieRange) :=
  findTiesFrom (S (length tuples)) off numBytesToSort (length tuples) baseTupleIdx 0 tuples.

(** ** String columns *)
Record StrKeyColInfo : Type := mkStrCol {
  colOffsetInFT : nat;
  colOffsetInEncodedKeyBlock : nat;
  strIsAsc : bool
}.

Definition strEncodingSize : nat := getEncodingSize TString.

Section sorter.
(** [std::sort] of pointers, and [factorizedTable.getData<ku_string_t>]: block index,
    block offset, column offset. *)
Context (stdSort : (nat -> nat -> bool) -> list nat -> list nat).
Context (getData : Z -> Z -> nat -> list Z).
Context (numBytesToRadixSort : nat).

(** [isNullVal] and [isLongStr] at the column's offset, the string of the tuple. *)
Definition strIsNull (col : StrKeyColInfo) (t : tuple) : bool :=
  isNullVal (nth (colOffsetInEncodedKeyBlock col) t 0) (strIsAsc col).

Definition strIsLong (col : StrKeyColInfo) (t : tuple) : bool :=
  isLongStr (drop (colOffsetInEncodedKeyBlock col) t) (strIsAsc col).

Definition tableStr (tupleInfo : list Z) (colOffset : nat) : list Z :=
  getData (getEncodedFTBlockIdx tupleInfo) (getEncodedFTBlockOffset tupleInfo) colOffset.

Definition strValue (col : StrKeyColInfo) (t : tuple) : list Z :=
  tableStr (drop numBytesToRadixSort t) (colOffsetInFT col).

(** The comparator of [solveStringTies]. *)
Definition strTieLess (col : StrKeyColInfo) (left right : tuple) : bool :=
  let isLeftNull := strIsNull col left in
  let isRightNull := strIsNull col right in
  if isLeftNull && isRightNull then false
  else if isLeftNull then negb (strIsAsc col)
  else if isRightNull then strIsAsc col
  else
    let isLeftLongStr := strIsLong col left in
    let isRightLongStr := strIsLong col right in
    if negb isLeftLongStr && negb isRightLongStr then false
    else if isLeftLongStr && negb isRightLongStr then negb (strIsAsc col)
    else if isRightLongStr && negb isLeftLongStr then strIsAsc col
    else
      let leftStr := strValue col left in
      let rightStr := strValue col right in
      if strIsAsc col then kuStringLess leftStr rightStr else kuStringGreater leftStr rightStr.

(** [fillTmpTuplePtrSortingBlock]: a pointer to each tuple, as its index. *)
Definition fillTmpTuplePtrSortingBlock (tuples : list tuple) : list nat := seq 0 (length tuples).

(** [reOrderKeyBlock]: the tuples in the order of the pointers, through the temporary block. *)
Definition reOrderKeyBlock (tuples : list tuple) (ptrs : list nat) (tmpBlock : list tuple)
    : list tuple * list tuple :=
  let sorted := (fun p => tuples !!! p) <$> ptrs in
  let tmpBlock := sorted ++ drop (length sorted) tmpBlock in
  (take (length tuples) tmpBlock, tmpBlock).

(** The inner loop of [findStringTies], [remaining] rounds before [j] passes the end;
    [jp] is the tuple [jTuplePtr] points to.  Nulls and short strings [continue]
    without moving [jTuplePtr]. *)
Fixpoint stringTieEnd (col : StrKeyColInfo) (tuples : list tuple) (isIValNull isIStringLong : bool)
    (iValue : list Z) (remaining j jp : nat) : nat * nat :=
  match remaining with
  | O => (j, jp)
  | S remaining =>
      let t := tuples !!! jp in
      let isJValNull := strIsNull col t in
      if isIValNull && isJValNull
      then stringTieEnd col tuples isIValNull isIStringLong iValue remaining (j + 1) jp
      else if isIValNull || isJValNull then (j, jp)
      else
        let isJStringLong := strIsLong col t in
        if negb isIStringLong && negb isJStringLong
        then stringTieEnd col tuples isIValNull isIStringLong iValue remaining (j + 1) jp
        else if negb (eqb isIStringLong isJStringLong) then (j, jp)
        else if negb (kuStringEq iValue (strValue col t)) then (j, jp)
        else stringTieEnd col tuples isIValNull isIStringLong iValue remaining (j + 1) (jp + 1)
  end.

(** [findStringTies]: [i] counts the tuples of the range, [ip] is the tuple [iTuplePtr]
    points to. *)
Fixpoint findStringTiesFrom (fuel : nat) (col : StrKeyColInfo) (tuples : list tuple) (endingTupleIdx i ip : nat)
    : outcome (list TieRange) :=
  match fuel with
  | O => Err Blocked
  | S fuel =>
      if (i <? endingTupleIdx)%nat then
        let t := tuples !!! ip in
        let isIValNull := strIsNull col t in
        let isIStringLong := strIsLong col t in
        let iValue := if isIValNull then [] else strValue col t in
        let '(j, jp) := stringTieEnd col tuples isIValNull isIStringLong iValue
                          (endingTupleIdx - i) (i + 1) (ip + 1) in
        let j := (j - 1)%nat in
        let* ties := findStringTiesFrom fuel col tuples endingTupleIdx (j + 1) jp in
        Ok (if (i =? j)%nat then ties else mkTie i j :: ties)
      else Ok []
  end.

Definition findStringTies (col : StrKeyColInfo) (keyBlockTie : TieRange) (tuples : list tuple)
    : outcome (list TieRange) :=
  findStringTiesFrom (S (getNumTuples keyBlockTie)) col tuples (endingTupleIdx keyBlockTie)
    (startingTupleIdx keyBlockTie) 0.

(** ** [sortSingleKeyBlock] *)
Record sortState : Type := mkSort {
  keyBlock : list tuple;
  tmpSortingResultBlock : list tuple;
  ties : list TieRange
}.

(** The tuples of a range, and the block with them replaced. *)
Definition tieTuples (t : TieRange) (block : list tuple) : list tuple :=
  take (getNumTuples t) (drop (startingTupleIdx t) block).

Definition putTuples (t : TieRange) (tuples block : list tuple) : list tuple :=
  take (startingTupleIdx t) block ++ tuples ++ drop (startingTupleIdx t + getNumTuples t) block.

(** [solveStringTies] *)
Definition solveStringTies (keyBlockTie : TieRange) (col : StrKeyColInfo) (st : sortState)
    : outcome sortState :=
  let tuples := tieTuples keyBlockTie (keyBlock st) in
  let ptrs := stdSort (fun l r => strTieLess col (tuples !!! l) (tuples !!! r))
                (fillTmpTuplePtrSortingBlock tuples) in
  let '(tuples, tmp) := reOrderKeyBlock tuples ptrs (tmpSortingResultBlock st) in
  let* newTies := findStringTies col keyBlockTie tuples in
  Ok (mkSort (putTuples keyBlockTie tuples (keyBlock st)) tmp (ties st ++ newTies)).

Fixpoint solveAll (newTies : list TieRange) (col : StrKeyColInfo) (st : sortState) : outcome sortState :=
  match newTies with
  | [] => Ok st
  | t :: newTies => let* st := solveStringTies t col st in solveAll newTies col st
  end.

(** [radixSort] on the tuples of a range. *)
Definition radixSortTie (t : TieRange) (numBytesSorted numBytesToSort : nat) (st : sortState) : sortState :=
  let '(tuples, tmp) := radixSort (tieTuples t (keyBlock st)) (tmpSortingResultBlock st) (getNumTuples t)
                          numBytesSorted numBytesToSort in
  mkSort (putTuples t tuples (keyBlock st)) tmp (ties st).

(** The loop over [j]: as many ranges as wait in the queue when it starts. *)
Fixpoint sortTies (numOfTies : nat) (col : StrKeyColInfo) (numBytesSorted numBytesToSort : nat) (st : sortState)
    : outcome sortState :=
  match numOfTies, ties st with
  | O, _ => Ok st
  | S numOfTies, keyBlockTie :: rest =>
      let st := radixSortTie keyBlockTie numBytesSorted numBytesToSort
                  (mkSort (keyBlock st) (tmpSortingResultBlock st) rest) in
      let* newTies := findTies (tieTuples keyBlockTie (keyBlock st)) numBytesSorted numBytesToSort
                        (startingTupleIdx keyBlockTie) in
      let* st := solveAll newTies col st in
      sortTies numOfTies col numBytesSorted numBytesToSort st
  | S _, [] => Err Blocked
  end.

(** The last loop: the bytes after the last string column. *)
Fixpoint sortRest (queue : list TieRange) (numBytesSorted : nat) (st : sortState) : sortState :=
  match queue with
  | [] => st
  | t :: queue =>
      sortRest queue numBytesSorted
        (radixSortTie t numBytesSorted (numBytesToRadixSort - numBytesSorted)
           (mkSort (keyBlock st) (tmpSortingResultBlock st) queue))
  end.

Fixpoint sortStrCols (strKeyColsInfo : list StrKeyColInfo) (numBytesSorted : nat) (st : sortState)
    : outcome sortState :=
  match strKeyColsInfo with
  | [] => Ok (sortRest (ties st) numBytesSorted st)
  | col :: cols =>
      let numBytesToSort :=
        (colOffsetInEncodedKeyBlock col - numBytesSorted + strEncodingSize)%nat in
      let* st := sortTies (length (ties st)) col numBytesSorted numBytesToSort st in
      match ties st with
      | [] => Ok st
      | _ => sortStrCols cols (numBytesSorted + numBytesToSort) st
      end
  end.

Definition sortSingleKeyBlock (strKeyColsInfo : list StrKeyColInfo) (block tmpBlock : list tuple)
    : outcome sortState :=
  sortStrCols strKeyColsInfo 0 (mkSort block tmpBlock [mkTie 0 (length block - 1)]).

End sorter.

(** ** One pass is a stable distribution *)
Local Open Scope nat_scope.

Section pass.
Context (i : nat).
Local Abbreviation f := (byteOf i).

Lemma length_countBytes s count : length (countBytes i s count) = length count.
Proof.
  revert count. induction s as [|t s IH]; intros count; [done|]. cbn. by rewrite IH, length_alter.
Qed.

Lemma countBytes_lookup s count v c :
  count !! v = Some c -> countBytes i s count !! v = Some (c + length (bucket f v s)).
Proof.
  revert count c. induction s as [|t s IH]; intros count c Hc; cbn [countBytes].
  { by rewrite Nat.add_0_r. }
  destruct (decide (f t = v)) as [<-|Hv].
  - rewrite (IH _ (S c)) by (by rewrite list_lookup_alter_eq, Hc). rewrite bucket_cons_eq. cbn. f_equal. lia.
  - rewrite (IH _ c) by (by rewrite list_lookup_alter_ne). by rewrite bucket_cons_ne.
Qed.

Lemma accumulate_spec s count v m :
  (forall k, k < length count -> count !! k = Some (length (bucket f (v + k) s))) ->
  let '(sums, mx) := accumulate (below f v s) m count in
  length sums = length count /\
  (forall k, k < length count -> sums !! k = Some (below f (S (v + k)) s)) /\
  (mx = m \/ exists k, k < length count /\ mx = length (bucket f (v + k) s)).
Proof.
  revert v m. induction count as [|c count IH]; intros v m H; cbn [accumulate].
  { split; [done|]. split; [cbn; lia|by left]. }
  assert (Hc : c = length (bucket f v s)).
  { specialize (H 0). cbn in H. rewrite Nat.add_0_r in H. specialize (H ltac:(lia)). congruence. }
  specialize (IH (S v) (Nat.max c m)).
  replace (below f (S v) s) with (c + below f v s) in IH by (rewrite below_S; lia).
  destruct (accumulate _ _ count) as [sums mx].
  destruct IH as (Hl & Hs & Hm).
  { intros k Hk. specialize (H (S k) ltac:(cbn; lia)). rewrite Nat.add_succ_r in H. exact H. }
  split; [cbn; lia|]. split.
  - intros [|k] Hk; cbn.
    + rewrite Nat.add_0_r, below_S. f_equal. lia.
    + cbn in Hk. rewrite Nat.add_succ_r. apply Hs. lia.
  - destruct Hm as [->|(k & Hk & ->)].
    + destruct (Nat.max_spec c m) as [[_ ->]|[_ ->]]; [by left|].
      right. exists 0. cbn. rewrite Nat.add_0_r. split; [lia|done].
    + right. exists (S k). cbn. rewrite Nat.add_succ_r. split; [lia|done].
Qed.

Lemma sumCounts_spec s count :
  0 < length count ->
  (forall k, k < length count -> count !! k = Some (length (bucket f k s))) ->
  let '(sums, mx) := sumCounts count in
  length sums = length count /\
  (forall k, k < length count -> sums !! k = Some (below f (S k) s)) /\
  (exists k, k < length count /\ mx = length (bucket f k s)).
Proof.
  destruct count as [|c count]; cbn [length]; [lia|]. intros _ H. cbn [sumCounts].
  assert (Hc : c = below f 1 s).
  { rewrite below_S, below_0, Nat.add_0_l. specialize (H 0 ltac:(lia)). by injection H. }
  pose proof (accumulate_spec s count 1 c) as HA. rewrite <- Hc in HA.
  destruct (accumulate c c count) as [sums mx].
  destruct HA as (Hl & Hs & Hm); [intros k Hk; apply (H (S k)); lia|].
  split; [cbn; lia|]. split.
  - intros [|k] Hk; cbn; [congruence|]. apply Hs. lia.
  - destruct Hm as [->|(k & Hk & ->)].
    + exists 0. split; [lia|]. rewrite Hc, below_S, below_0. done.
    + exists (1 + k). split; [lia|done].
Qed.

(** The tuples still to move are [p]; those moved, [done], are at their places. *)
Lemma reorder_spec s p d count target :
  s = p ++ d -> Forall (fun t => f t < length count) s -> length s <= length target ->
  (forall v, v < length count -> count !! v = Some (below f v s + length (bucket f v p))) ->
  (forall v k x, v < length count -> bucket f v d !! k = Some x ->
     target !! (below f v s + length (bucket f v p) + k) = Some x) ->
  let target' := reorder i (rev p) count target in
  length target' = length target /\
  forall v k x, v < length count -> bucket f v s !! k = Some x ->
    target' !! (below f v s + k) = Some x.
Proof.
  revert d count target. induction p as [|x p IH] using rev_ind; intros d count target Hs HF Hl Hc Ht.
  { cbn in Hs. subst d. cbn. split; [done|]. intros v k x Hv Hx.
    specialize (Ht v k x Hv Hx). cbn in Ht. by rewrite Nat.add_0_r in Ht. }
  rewrite rev_app_distr. cbn [rev app reorder].
  assert (Hx : f x < length count).
  { subst s. rewrite !Forall_app in HF. destruct HF as [[_ HF] _]. by inversion HF. }
  set (c := below f (f x) s + length (bucket f (f x) p)).
  assert (Ec : count !!! f x - 1 = c).
  { rewrite (list_lookup_total_correct _ _ _ (Hc (f x) Hx)), bucket_app, length_app, bucket_cons_eq.
    cbn. lia. }
  rewrite Ec.
  assert (Hle : forall v, below f v s + length (bucket f v s) <= length s).
  { intros v. rewrite <- below_S. apply below_le. }
  assert (Hbx : length (bucket f (f x) s) = length (bucket f (f x) p) + S (length (bucket f (f x) d))).
  { rewrite Hs, <- app_assoc, bucket_app, length_app. cbn [app]. by rewrite bucket_cons_eq. }
  assert (Hcl : c < length target).
  { pose proof (Hle (f x)). lia. }
  specialize (IH (x :: d) (<[f x:=c]> count) (<[c:=x]> target)).
  rewrite !length_insert in IH. apply IH; clear IH.
  - by rewrite Hs, <- app_assoc.
  - done.
  - done.
  - intros v Hv. destruct (decide (f x = v)) as [<-|Hvx].
    + by rewrite list_lookup_insert_eq.
    + rewrite list_lookup_insert_ne by done. rewrite Hc by done.
      rewrite bucket_app, bucket_cons_ne by done. cbn. by rewrite app_nil_r.
  - intros v k y Hv Hy. destruct (decide (f x = v)) as [<-|Hvx].
    + rewrite bucket_cons_eq in Hy. fold c. destruct k as [|k]; cbn in Hy.
      * injection Hy as ->. rewrite Nat.add_0_r. by apply list_lookup_insert_eq.
      * rewrite list_lookup_insert_ne by lia. specialize (Ht (f x) k y Hv Hy).
        rewrite bucket_app, length_app, bucket_cons_eq in Ht. cbn in Ht.
        replace (c + S k) with (below f (f x) s + (length (bucket f (f x) p) + 1) + k) by (subst c; lia).
        done.
    + rewrite bucket_cons_ne in Hy by done.
      specialize (Ht v k y Hv Hy). rewrite bucket_app, bucket_cons_ne in Ht by done. cbn in Ht.
      rewrite app_nil_r in Ht. rewrite list_lookup_insert_ne; [done|].
      pose proof (lookup_lt_Some _ _ _ Hy).
      assert (Hbv : length (bucket f v s) = length (bucket f v p) + length (bucket f v d)).
      { rewrite Hs, <- app_assoc, bucket_app, length_app. cbn [app]. by rewrite bucket_cons_ne. }
      destruct (decide (v < f x)).
      * pose proof (below_mono f (S v) (f x) s ltac:(lia)) as Hm. rewrite below_S in Hm. lia.
      * pose proof (below_mono f (S (f x)) v s ltac:(lia)) as Hm. rewrite below_S in Hm. lia.
Qed.
End pass.

(** ** [radixSort] orders the tuples by the bytes it looks at *)
Definition byteTuple (t : tuple) : Prop := forall k, (0 <= nth k t 0 < 256)%Z.

Definition fieldCompare (off len : nat) (x y : tuple) : comparison :=
  memcmp (field off len x) (field off len y).

Lemma fieldCompare_S off len x y :
  fieldCompare off (S len) x y =
    thenCompare (nth off x 0 ?= nth off y 0)%Z (fieldCompare (S off) len x y).
Proof. unfold fieldCompare. cbn. by destruct (_ ?= _)%Z. Qed.

#[export] Instance fieldCompare_order off len : CompareOrder (fieldCompare off len).
Proof.
  revert off. induction len as [|len IH]; intros off; [done|].
  eapply compare_order_ext; [intros x y; apply fieldCompare_S|].
  apply then_order; [|apply IH]. apply (compareOn_order (fun x => nth off x 0%Z)). apply _.
Qed.

Lemma byteOf_compare i x y :
  byteTuple x -> byteTuple y -> (byteOf i x ?= byteOf i y) = (nth i x 0 ?= nth i y 0)%Z.
Proof.
  intros Hx Hy. unfold byteOf. rewrite Z2Nat.inj_compare; [done|apply Hx|apply Hy].
Qed.

Definition currentTuples (numTuples : nat) (st : radixState) : list tuple :=
  take numTuples (if isInTmpBlock st then tmpTuples st else keyTuples st).

(** After the byte [o] of [N]: the tuples [s], sorted by the bytes from [o] on. *)
Record radixInv (s : list tuple) (T nb N o : nat) (st : radixState) : Prop := {
  ri_key : length (keyTuples st) = length s;
  ri_tmp : length (tmpTuples st) = T;
  ri_perm : currentTuples (length s) st ≡ₚ s;
  ri_sorted : StronglySorted (cmpLe (fieldCompare (nb + o) (N - o))) (currentTuples (length s) st)
}.

(** One distribution step on the current tuples, on lists. *)
Lemma distribute_spec i s target count maxCounter :
  Forall byteTuple s -> length s <= length target ->
  sumCounts (countBytes i s (replicate COUNTING_ARRAY_SIZE 0)) = (count, maxCounter) ->
  (exists v, maxCounter = length (bucket (byteOf i) v s)) /\
  length (reorder i (rev s) count target) = length target /\
  take (length s) (reorder i (rev s) count target) = bucketSort (byteOf i) 256 s.
Proof.
  intros HB Hl E.
  assert (Hc : length (countBytes i s (replicate COUNTING_ARRAY_SIZE 0)) = 256).
  { rewrite length_countBytes. apply length_replicate. }
  assert (HF : Forall (fun t => byteOf i t < 256) s).
  { eapply Forall_impl; [exact HB|]. intros t Ht. unfold byteOf. specialize (Ht i). lia. }
  pose proof (sumCounts_spec i s (countBytes i s (replicate COUNTING_ARRAY_SIZE 0))) as HS.
  rewrite E, Hc in HS. destruct HS as (Hcl & Hs & (v & _ & Hv)); [lia| |].
  { intros k Hk. apply (countBytes_lookup i s _ k 0). apply lookup_replicate_2. done. }
  split; [by exists v|].
  destruct (reorder_spec i s s [] count target) as [Hlen Hplace].
  - by rewrite app_nil_r.
  - by rewrite Hcl.
  - done.
  - intros w Hw. rewrite Hs by lia. by rewrite below_S.
  - intros w k x _ Hx. done.
  - split; [done|]. rewrite Hcl in Hplace.
    rewrite <- (below_all (byteOf i) 256 s HF). apply bucketSort_unique. intros w k x Hw.
    by apply Hplace.
Qed.

Lemma radixPass_inv s T nb N o st :
  Forall byteTuple s -> length s <= T -> o < N -> radixInv s T nb N (S o) st ->
  radixInv s T nb N o (radixPass (length s) nb o st).
Proof.
  intros HB HT Ho [Hk Ht HP HS]. unfold radixPass.
  set (cur := currentTuples (length s) st) in *.
  change (take (length s) (if isInTmpBlock st then tmpTuples st else keyTuples st)) with cur.
  set (target := if isInTmpBlock st then keyTuples st else tmpTuples st).
  destruct (sumCounts (countBytes (nb + o) cur _)) as [count maxCounter] eqn:E.
  assert (HBc : Forall byteTuple cur) by (by rewrite HP).
  assert (Hlc : length cur = length s) by (by rewrite HP).
  destruct (distribute_spec (nb + o) cur target count maxCounter) as ((v & Hv) & Hl & Hsort).
  { done. } { rewrite Hlc. subst target. destruct (isInTmpBlock st); lia. } { done. }
  replace (N - o) with (S (N - S o)) by lia. rewrite Nat.add_succ_r in HS.
  assert (Hcmp : forall l, l ≡ₚ s ->
    StronglySorted (cmpLe (fun x y => thenCompare (byteOf (nb + o) x ?= byteOf (nb + o) y)
                                        (fieldCompare (S (nb + o)) (N - S o) x y))) l ->
    StronglySorted (cmpLe (fieldCompare (nb + o) (S (N - S o)))) l).
  { intros l Hl'. apply StronglySorted_impl. intros x y Hx Hy. unfold cmpLe.
    rewrite fieldCompare_S, byteOf_compare; [done|..].
    - rewrite Hl' in Hx. by eapply Forall_forall in HB.
    - rewrite Hl' in Hy. by eapply Forall_forall in HB. }
  assert (Hsame : maxCounter = length s ->
    StronglySorted (cmpLe (fieldCompare (nb + o) (S (N - S o)))) cur).
  { intros Em. apply Hcmp; [done|]. rewrite Hv, <- Hlc in Em. apply bucket_full in Em.
    eapply StronglySorted_impl; [|exact HS]. intros x y Hx Hy HR. unfold cmpLe in *.
    rewrite (proj1 (Forall_forall _ _) Em x Hx), (proj1 (Forall_forall _ _) Em y Hy), Nat.compare_refl.
    done. }
  assert (Hnew : StronglySorted (cmpLe (fieldCompare (nb + o) (S (N - S o))))
                   (bucketSort (byteOf (nb + o)) 256 cur) /\ bucketSort (byteOf (nb + o)) 256 cur ≡ₚ s).
  { assert (HPn : bucketSort (byteOf (nb + o)) 256 cur ≡ₚ s).
    { rewrite bucketSort_perm; [done|]. eapply Forall_impl; [exact HBc|].
      intros t Htb. unfold byteOf. specialize (Htb (nb + o)). lia. }
    split; [|done]. apply Hcmp; [done|]. by apply bucketSort_sorted. }
  destruct Hnew as [Hns HnP]. rewrite Hlc in Hsort.
  destruct (Nat.eqb_spec maxCounter (length s)) as [Em|_].
  - split; [done|done|done|]. replace (N - o) with (S (N - S o)) by lia. by apply Hsame.
  - subst target. destruct (isInTmpBlock st) eqn:Ei;
      split; unfold currentTuples; cbn [keyTuples tmpTuples isInTmpBlock]; rewrite ?Hl, ?Hsort;
      try replace (N - o) with (S (N - S o)) by lia; done || lia.
Qed.

Lemma radixLoop_inv s T nb N o st :
  Forall byteTuple s -> length s <= T -> o <= N -> radixInv s T nb N o st ->
  radixInv s T nb N 0 (radixLoop (length s) nb o st).
Proof.
  intros HB HT. revert st. induction o as [|o IH]; intros st Ho H; cbn; [done|].
  apply IH; [lia|]. apply radixPass_inv; [done|done|lia|done].
Qed.

Lemma StronglySorted_all {A} (R : A -> A -> Prop) l : (forall x y, R x y) -> StronglySorted R l.
Proof. intros H. induction l; constructor; [done|]. apply Forall_forall. auto. Qed.

Lemma radixSort_ok s tmp nb N :
  Forall byteTuple s -> length s <= length tmp ->
  let '(s', tmp') := radixSort s tmp (length s) nb N in
  s' ≡ₚ s /\ StronglySorted (cmpLe (fieldCompare nb N)) s' /\ length tmp' = length tmp.
Proof.
  intros HB Hl. unfold radixSort.
  pose proof (radixLoop_inv s (length tmp) nb N N (mkRadix s tmp false) HB Hl ltac:(lia)) as HI.
  destruct HI as [Hk Ht HP HS].
  { split; cbn [keyTuples tmpTuples isInTmpBlock currentTuples]; [done|done|..]; unfold currentTuples;
      cbn [keyTuples tmpTuples isInTmpBlock]; rewrite take_ge by lia; [done|].
    apply StronglySorted_all. intros x y. unfold cmpLe. by rewrite Nat.sub_diag. }
  rewrite Nat.add_0_r, Nat.sub_0_r in HS. unfold currentTuples in HP, HS.
  destruct (isInTmpBlock _).
  - rewrite (drop_ge (keyTuples _)) by lia. rewrite app_nil_r. done.
  - rewrite take_ge in HP, HS by lia. done.
Qed.

(** ** The ranges of ties *)

(** The queue [q] holds ranges of the segments of a block, which start at [base]: at
    least the segments with more than one tuple. *)
Inductive queued : nat -> list (list tuple) -> list TieRange -> Prop :=
| queued_nil base : queued base [] []
| queued_skip base x segs q : queued (S base) segs q -> queued base ([x] :: segs) q
| queued_range base s segs q :
    s <> [] -> queued (base + length s) segs q ->
    queued base (s :: segs) (mkTie base (base + length s - 1) :: q).

Lemma queued_app base segs segs' q q' :
  queued base segs q -> queued (base + length (mjoin segs)) segs' q' ->
  queued base (segs ++ segs') (q ++ q').
Proof.
  intros H. revert q'. induction H as [|base x segs q H IH|base s segs q Hs H IH]; intros q' H'; cbn in *.
  - by rewrite Nat.add_0_r in H'.
  - constructor. apply IH. by rewrite Nat.add_succ_r in H'.
  - constructor; [done|]. apply IH. by rewrite length_app, Nat.add_assoc in H'.
Qed.

Lemma queued_empty base segs q : queued base segs q -> q = [] -> Forall (fun s => length s = 1) segs.
Proof. induction 1; intros; [constructor|constructor; auto|done]. Qed.

Lemma equalRun_spec eq l :
  Forall (fun u => eq u = true) (take (equalRun eq l) l) /\
  match drop (equalRun eq l) l with [] => True | u :: _ => eq u = false end /\
  equalRun eq l <= length l.
Proof.
  induction l as [|t l IH]; [done|]. cbn. destruct (eq t) eqn:E; cbn.
  - destruct IH as (H1 & H2 & H3). split; [by constructor|]. split; [done|lia].
  - split; [constructor|]. split; [done|lia].
Qed.

(** A run of equal tuples at the front of a sorted list, and the segments of the rest. *)
Lemma run_segs (c : tuple -> tuple -> comparison) `{!CompareOrder c} t l k G :
  StronglySorted (cmpLe c) (t :: l) -> k = equalRun (fun u => isEq (c t u)) l ->
  segsOK c G -> mjoin G = drop k l -> segsOK c ((t :: take k l) :: G).
Proof.
  intros HS -> [He Hs Hn] EG. destruct (equalRun_spec (fun u => isEq (c t u)) l) as (Hr & Hd & _).
  set (k := equalRun _ l) in *.
  assert (Heq : forall x, x ∈ t :: take k l -> c t x = Eq).
  { intros x [->|Hx]%elem_of_cons; [apply cmp_refl|].
    eapply Forall_forall in Hr; [|exact Hx]. cbn in Hr. by destruct (c t x). }
  apply StronglySorted_inv in HS as [HS Ht].
  assert (Hlt : forall y, y ∈ drop k l -> c t y = Lt).
  { rewrite <- (take_drop k l) in Ht, HS. apply Forall_app in Ht as [_ Ht].
    apply StronglySorted_app_elim in HS as (_ & HS & _).
    destruct (drop k l) as [|u rest]; [by intros y ?%not_elem_of_nil|].
    assert (Hu : c t u = Lt).
    { inversion_clear Ht as [|?? Hu _]. unfold cmpLe in Hu. by destruct (c t u). }
    intros y [->|Hy]%elem_of_cons; [done|]. apply StronglySorted_inv in HS as [_ HS].
    eapply Forall_forall in HS; [|exact Hy]. eapply cmp_lt_le_trans; [apply _|exact Hu|exact HS]. }
  split.
  - constructor; [|done]. intros x y Hx Hy. rewrite <- (cmp_eq_l c t x y) by auto. auto.
  - constructor; [done|]. apply Forall_forall. intros g Hg x y Hx Hy.
    rewrite <- (cmp_eq_l c t x y) by auto. apply Hlt. rewrite <- EG. apply list_elem_of_join. eauto.
  - by constructor.
Qed.

(** Its range is queued when it has more than one tuple. *)
Lemma run_queued base i t (l : list tuple) k G q :
  k <= length l -> queued (i + k + 1 + base) G q ->
  queued (i + base) ((t :: take k l) :: G)
    (if i =? i + k then q else mkTie (i + base) (i + k + base) :: q).
Proof.
  intros Hk Hq. destruct (Nat.eqb_spec i (i + k)) as [E|E].
  - replace k with 0 in * by lia. rewrite take_0. constructor.
    by replace (S (i + base)) with (i + 0 + 1 + base) by lia.
  - assert (Hl : length (t :: take k l) = S k) by (cbn; rewrite length_take; lia).
    replace (i + k + base) with (i + base + length (t :: take k l) - 1) by lia.
    constructor; [done|]. by replace (i + base + length (t :: take k l)) with (i + k + 1 + base) by lia.
Qed.

(** The last tuple alone. *)
Lemma run_last (c : tuple -> tuple -> comparison) `{!CompareOrder c} t : segsOK c [[t]].
Proof.
  apply segsOK_single; [done|].
  intros x y ->%list_elem_of_singleton ->%list_elem_of_singleton. apply cmp_refl.
Qed.

Lemma segsOK_nil (c : tuple -> tuple -> comparison) : segsOK c [].
Proof. split; constructor. Qed.

Lemma findTiesFrom_spec fuel off N n base i l :
  StronglySorted (cmpLe (fieldCompare off N)) l -> i + length l = n -> length l < fuel ->
  exists G q, findTiesFrom fuel off N n base i l = Ok q /\ mjoin G = l /\
    segsOK (fieldCompare off N) G /\ queued (i + base) G q.
Proof.
  revert i l. induction fuel as [|fuel IH]; intros i l HS Hn Hf; [lia|].
  destruct l as [|t l]; cbn [findTiesFrom].
  { exists [], []. split; [done|]. split; [done|]. split; [apply segsOK_nil|constructor]. }
  cbn [length] in Hn, Hf. destruct (Nat.ltb_spec i (n - 1)) as [Hi|Hi].
  - change (fun u => isEq (memcmp (field off N t) (field off N u)))
      with (fun u => isEq (fieldCompare off N t u)).
    set (k := equalRun _ l).
    destruct (equalRun_spec (fun u => isEq (fieldCompare off N t u)) l) as (_ & _ & Hk). fold k in Hk.
    destruct (IH (i + k + 1) (drop k l)) as (G & q & E & EG & HG & Hq).
    { apply StronglySorted_inv in HS as [HS _]. rewrite <- (take_drop k l) in HS.
      by apply StronglySorted_app_elim in HS as (_ & ? & _). }
    { rewrite length_drop. lia. } { rewrite length_drop. lia. }
    rewrite E. cbn [obind]. exists ((t :: take k l) :: G).
    assert (HG' : segsOK (fieldCompare off N) ((t :: take k l) :: G))
      by (eapply run_segs; [apply _|exact HS|done|done|done]).
    eexists. split; [reflexivity|].
    split; [change (t :: take k l ++ mjoin G = t :: l); by rewrite EG, take_drop|]. split; [done|].
    by apply run_queued.
  - destruct l; [|cbn in Hn; lia]. exists [[t]], []. split; [done|]. split; [done|].
    split; [apply run_last; apply _|repeat constructor].
Qed.

Lemma findTies_spec off N base l :
  StronglySorted (cmpLe (fieldCompare off N)) l ->
  exists G q, findTies l off N base = Ok q /\ mjoin G = l /\
    segsOK (fieldCompare off N) G /\ queued base G q.
Proof. intros HS. apply (findTiesFrom_spec _ off N (length l) base 0 l); [done|done|lia]. Qed.

(** ** Strings *)

(** What the code relies on of [std::sort]: for a strict weak order it permutes the
    elements so that none is less than an earlier one. *)
Record strictWeakOrder {A : Type} (lt : A -> A -> bool) : Prop := {
  swo_irrefl x : lt x x = false;
  swo_trans x y z : lt x y = true -> lt y z = true -> lt x z = true;
  swo_incomparable x y z :
    lt x y = false -> lt y x = false -> lt y z = false -> lt z y = false ->
    lt x z = false /\ lt z x = false
}.

Definition sortsPointers (stdSort : (nat -> nat -> bool) -> list nat -> list nat) : Prop :=
  forall lt l, strictWeakOrder lt ->
    stdSort lt l ≡ₚ l /\ StronglySorted (fun x y => lt y x = false) (stdSort lt l).

Lemma compare_strictWeakOrder {A} (c : A -> A -> comparison) (lt : A -> A -> bool) :
  CompareOrder c -> (forall x y, lt x y = match c x y with Lt => true | _ => false end) ->
  strictWeakOrder lt.
Proof.
  intros Hc H. split.
  - intros x. by rewrite H, cmp_refl.
  - intros x y z. rewrite !H. destruct (c x y) eqn:E1; [done| |done]. intros _.
    destruct (c y z) eqn:E2; [done| |done]. intros _.
    rewrite (cmp_lt_le_trans c x y z); [done|done|by rewrite E2].
  - intros x y z. rewrite !H, (cmp_opp (c := c) x y), (cmp_opp (c := c) y z), (cmp_opp (c := c) x z).
    destruct (c x y) eqn:E1; [|done|done]. intros _ _. destruct (c y z) eqn:E2; [|done|done].
    intros _ _. by rewrite (cmp_eq_trans c x y z).
Qed.

(** *** The order of encoded tuples *)
Section orders.
(** The string of a tuple, found through the tuple's position in the factorized table:
    position, column offset. *)
Context (tableValue : list Z -> nat -> list Z) (numBytesToRadixSort : nat).

(** The order of a string column: short strings (all tied by their encoding), long
    strings by their contents, nulls. *)
Definition strRank (col : StrKeyColInfo) (t : tuple) : nat :=
  if strIsNull col t then 2 else if strIsLong col t then 1 else 0.

Definition strKey (col : StrKeyColInfo) (t : tuple) : list Z :=
  if strRank col t =? 1 then tableValue (drop numBytesToRadixSort t) (colOffsetInFT col) else [].

Definition strKeyCompare (col : StrKeyColInfo) (x y : tuple) : comparison :=
  let c := thenCompare (strRank col x ?= strRank col y) (strCompare (strKey col x) (strKey col y)) in
  if strIsAsc col then c else CompOpp c.

#[export] Instance strKeyCompare_order col : CompareOrder (strKeyCompare col).
Proof using Type.
  assert (H : CompareOrder (fun x y => thenCompare (strRank col x ?= strRank col y)
                                         (strCompare (strKey col x) (strKey col y)))).
  { apply then_order; [apply (compareOn_order (strRank col))|apply (compareOn_order (strKey col))]; apply _. }
  unfold strKeyCompare. destruct (strIsAsc col); [done|by apply opp_order].
Qed.

(** The comparison of one round: the bytes up to the string column, then the strings. *)
Definition roundCompare (col : StrKeyColInfo) (off N : nat) (x y : tuple) : comparison :=
  thenCompare (fieldCompare off N x y) (strKeyCompare col x y).

#[export] Instance roundCompare_order col off N : CompareOrder (roundCompare col off N).
Proof using Type. apply then_order; apply _. Qed.

(** The order of encoded tuples: round by round, then the remaining bytes. *)
Fixpoint colsCompare (cols : list StrKeyColInfo) (off : nat) (x y : tuple) : comparison :=
  match cols with
  | [] => fieldCompare off (numBytesToRadixSort - off) x y
  | col :: cols =>
      let N := colOffsetInEncodedKeyBlock col - off + strEncodingSize in
      thenCompare (roundCompare col off N x y) (colsCompare cols (off + N) x y)
  end.

#[export] Instance colsCompare_order cols off : CompareOrder (colsCompare cols off).
Proof using Type.
  revert off. induction cols as [|col cols IH]; intros off; [apply fieldCompare_order|].
  apply then_order; [apply _|apply IH].
Qed.

End orders.

Section strings.
Context (stdSort : (nat -> nat -> bool) -> list nat -> list nat) (Hsort : sortsPointers stdSort).
Context (getData : Z -> Z -> nat -> list Z) (numBytesToRadixSort : nat).
Local Abbreviation value := (strValue getData numBytesToRadixSort).
Local Abbreviation strCmp := (strKeyCompare (tableStr getData) numBytesToRadixSort).
Local Abbreviation rndCmp := (roundCompare (tableStr getData) numBytesToRadixSort).
Local Abbreviation colCmp := (colsCompare (tableStr getData) numBytesToRadixSort).

(** The comparator of [solveStringTies] is this order. *)
Lemma strTieLess_spec col x y :
  strTieLess getData numBytesToRadixSort col x y =
    match strCmp col x y with Lt => true | _ => false end.
Proof using Type.
  unfold strTieLess, strCmp, strKey, strRank.
  rewrite kuStringLess_spec, kuStringGreater_spec.
  destruct (strIsNull col x), (strIsNull col y), (strIsLong col x), (strIsLong col y), (strIsAsc col);
    cbn; try done; by destruct (strCompare _ _).
Qed.

Lemma length_sorted_ptrs (s : list tuple) ptrs : ptrs ≡ₚ seq 0 (length s) -> length ptrs = length s.
Proof using Type. intros H. by rewrite H, length_seq. Qed.

Lemma lookup_total_seq (s : list tuple) : (fun p => s !!! p) <$> seq 0 (length s) = s.
Proof using Type.
  apply list_eq. intros k. rewrite list_lookup_fmap.
  destruct (decide (k < length s)) as [Hk|Hk].
  - rewrite lookup_seq_lt by done. cbn. by rewrite list_lookup_lookup_total_lt.
  - rewrite lookup_seq_ge by lia. cbn. rewrite lookup_ge_None_2 by lia. done.
Qed.

(** Sorting the pointers and moving the tuples sorts the tuples. *)
Lemma sort_tuples col s tmp :
  let ptrs := stdSort (fun l r => strTieLess getData numBytesToRadixSort col (s !!! l) (s !!! r))
                (fillTmpTuplePtrSortingBlock s) in
  let '(s', tmp') := reOrderKeyBlock s ptrs tmp in
  s' ≡ₚ s /\ StronglySorted (cmpLe (strCmp col)) s' /\
  length tmp' = Nat.max (length s) (length tmp).
Proof using Hsort.
  set (lt := fun l r => strTieLess _ _ col (s !!! l) (s !!! r)). intros ptrs.
  assert (Hw : strictWeakOrder lt).
  { apply (compare_strictWeakOrder (fun l r => strCmp col (s !!! l) (s !!! r))).
    - apply (compareOn_order (fun l => s !!! l)). apply _.
    - intros x y. apply strTieLess_spec. }
  destruct (Hsort lt (fillTmpTuplePtrSortingBlock s) Hw) as [HP HS]. fold ptrs in HP, HS.
  unfold fillTmpTuplePtrSortingBlock in HP. pose proof (length_sorted_ptrs s ptrs HP) as Hl.
  unfold reOrderKeyBlock. set (sorted := (fun p => s !!! p) <$> ptrs).
  assert (Hls : length sorted = length s) by (subst sorted; by rewrite length_fmap).
  rewrite <- Hls, take_app_length. split; [|split].
  - subst sorted. rewrite HP. by rewrite lookup_total_seq.
  - subst sorted. eapply StronglySorted_fmap; [|exact HS].
    intros x y E. subst lt. cbn in E. rewrite strTieLess_spec in E. unfold cmpLe.
    rewrite (cmp_opp (c := strCmp col) (s !!! y) (s !!! x)).
    by destruct (strCmp col (s !!! y) (s !!! x)).
  - rewrite length_app, length_drop. lia.
Qed.

(** Nulls, and short strings: every round of the inner loop continues. *)
Definition continues (col : StrKeyColInfo) (x y : tuple) : bool :=
  if strIsNull col x then strIsNull col y
  else negb (strIsNull col y) && negb (strIsLong col x) && negb (strIsLong col y).

Lemma stringTieEnd_continues col l t v r j jp :
  continues col t (l !!! jp) = true ->
  stringTieEnd getData numBytesToRadixSort col l (strIsNull col t) (strIsLong col t) v r j jp = (j + r, jp).
Proof using Type.
  unfold continues. revert j. induction r as [|r IH]; intros j H; cbn [stringTieEnd].
  { by rewrite Nat.add_0_r. }
  destruct (strIsNull col t), (strIsNull col (l !!! jp)); cbn in *; try done.
  - rewrite IH by done. f_equal. lia.
  - destruct (strIsLong col t), (strIsLong col (l !!! jp)); cbn in *; try done.
    rewrite IH by done. f_equal. lia.
Qed.

(** Long strings: the loop stops at the first string that differs. *)
Definition isLong (col : StrKeyColInfo) (t : tuple) : Prop := strIsNull col t = false /\ strIsLong col t = true.

Lemma strKeyCompare_long col x y :
  isLong col x -> isLong col y -> isEq (strCmp col x y) = kuStringEq (value col x) (value col y).
Proof using Type.
  intros [Hx Hx'] [Hy Hy']. unfold strKeyCompare, strKey, strRank. rewrite Hx, Hx', Hy, Hy'. cbn.
  rewrite kuStringEq_spec. destruct (strIsAsc col), (strCompare _ _); done.
Qed.

Lemma stringTieEnd_long col l t p u j :
  isLong col t -> Forall (isLong col) u -> l = p ++ u ->
  let k := equalRun (fun x => isEq (strCmp col t x)) u in
  stringTieEnd getData numBytesToRadixSort col l (strIsNull col t) (strIsLong col t) (value col t)
    (length u) j (length p) = (j + k, length p + k).
Proof using Type.
  intros Ht. revert p j. induction u as [|x u IH]; intros p j Hu E; cbn [stringTieEnd length equalRun].
  { by rewrite !Nat.add_0_r. }
  inversion_clear Hu as [|?? Hx Hu']. assert (Ex : l !!! length p = x).
  { subst l. apply list_lookup_total_middle. done. }
  rewrite Ex, strKeyCompare_long by done.
  destruct Ht as [Ht1 Ht2], Hx as [Hx1 Hx2]. rewrite Hx1, Hx2, Ht1, Ht2. cbn [negb andb orb eqb].
  destruct (kuStringEq _ _); cbn [negb]; [|by rewrite !Nat.add_0_r].
  specialize (IH (p ++ [x]) (j + 1) Hu'). rewrite Ht1, Ht2, length_app in IH. cbn [length] in IH.
  rewrite IH by (by rewrite <- app_assoc). cbv zeta. f_equal; lia.
Qed.

Lemma findStringTiesFrom_long fuel col l p u start :
  Forall (isLong col) u -> l = p ++ u -> StronglySorted (cmpLe (strCmp col)) u ->
  length u < fuel ->
  exists G q, findStringTiesFrom getData numBytesToRadixSort fuel col l (start + length l - 1)
                (start + length p) (length p) = Ok q /\ mjoin G = u /\
    segsOK (strCmp col) G /\ queued (start + length p) G q.
Proof using Type.
  revert p u. induction fuel as [|fuel IH]; intros p u Hu E HS Hf; [lia|].
  destruct u as [|t u].
  { exists [], []. cbn [findStringTiesFrom]. rewrite (proj2 (Nat.ltb_ge _ _)) by (rewrite E, app_nil_r; lia).
    split; [done|]. split; [done|]. split; [apply segsOK_nil|constructor]. }
  inversion Hu as [|?? Ht Hu']; subst x l0.
  cbn [findStringTiesFrom length] in *.
  assert (Hll : length l = length p + S (length u)) by (by rewrite E, length_app).
  destruct (Nat.ltb_spec (start + length p) (start + length l - 1)) as [Hi|Hi].
  - assert (Et : l !!! length p = t) by (subst l; by apply list_lookup_total_middle).
    rewrite Et. cbv zeta. replace (if strIsNull col t then [] else value col t) with (value col t)
      by (by rewrite (proj1 Ht)).
    replace (start + length l - 1 - (start + length p)) with (length u) by lia.
    pose proof (stringTieEnd_long col l t (p ++ [t]) u (start + length p + 1) Ht Hu') as HT.
    rewrite length_app in HT. cbn [length] in HT. cbv zeta in HT.
    rewrite HT by (by rewrite E, <- app_assoc). clear HT.
    set (k := equalRun _ u).
    destruct (equalRun_spec (fun x => isEq (strCmp col t x)) u) as (_ & _ & Hk). fold k in Hk.
    replace (start + length p + 1 + k - 1) with (start + length p + k) by lia.
    assert (HSu : StronglySorted (cmpLe (strCmp col)) (drop k u)).
    { apply StronglySorted_inv in HS as [HS' _]. rewrite <- (take_drop k u) in HS'.
      by apply StronglySorted_app_elim in HS' as (_ & ? & _). }
    destruct (IH (p ++ t :: take k u) (drop k u)) as (G & q & E1 & EG & HG & Hq);
      [by apply Forall_drop|by rewrite E, <- app_assoc, <- app_comm_cons, take_drop|done|
       rewrite length_drop; lia|].
    rewrite length_app in E1, Hq. cbn [length] in E1, Hq. rewrite length_take_le in E1, Hq by lia.
    replace (start + (length p + S k)) with (start + length p + k + 1) in E1, Hq by lia.
    replace (length p + S k) with (length p + 1 + k) in E1 by lia.
    rewrite E1. cbn [obind]. exists ((t :: take k u) :: G).
    eexists. split; [reflexivity|].
    split; [change (t :: take k u ++ mjoin G = t :: u); by rewrite EG, take_drop|].
    split; [eapply run_segs; [apply _|exact HS|done|done|done]|].
    pose proof (run_queued 0 (start + length p) t u k G q Hk) as HQ. rewrite !Nat.add_0_r in HQ. by apply HQ.
  - destruct u; [|cbn in Hll; lia]. exists [[t]], []. split; [done|]. split; [done|].
    split; [apply run_last; apply _|repeat constructor].
Qed.

(** Tuples that agree on the bytes of a string column agree on its flags. *)
Definition covers (col : StrKeyColInfo) (off N : nat) : Prop :=
  off <= colOffsetInEncodedKeyBlock col /\ colOffsetInEncodedKeyBlock col + strEncodingSize <= off + N.

Lemma fieldCompare_nth off N x y k :
  fieldCompare off N x y = Eq -> off <= k < off + N -> nth k x 0%Z = nth k y 0%Z.
Proof using Type.
  revert off. induction N as [|N IH]; intros off E Hk; [lia|]. rewrite fieldCompare_S in E.
  destruct (Z.compare_spec (nth off x 0%Z) (nth off y 0%Z)); try done. cbn in E.
  destruct (decide (k = off)) as [->|]; [done|]. apply (IH (S off)); [done|lia].
Qed.

Lemma strFlags col off N x y :
  covers col off N -> fieldCompare off N x y = Eq ->
  strIsNull col x = strIsNull col y /\ strIsLong col x = strIsLong col y.
Proof using Type.
  intros [H1 H2] E. change strEncodingSize with 14 in H2. unfold strIsNull, strIsLong, isLongStr.
  rewrite !nth_skipn. split; f_equal; (apply (fieldCompare_nth off N); [done|lia]).
Qed.

Lemma continues_eq col x y :
  strIsNull col x = strIsNull col y -> strIsLong col x = strIsLong col y -> ~ isLong col x ->
  strCmp col x y = Eq.
Proof using Type.
  intros En El Hn. unfold strKeyCompare, strKey, strRank, isLong in *. rewrite <- En, <- El.
  destruct (strIsNull col x), (strIsLong col x); cbn; try (by destruct (strIsAsc col)). naive_solver.
Qed.

(** [findStringTies] on tuples that tie on the column's encoding: the runs of equal
    strings, although [jTuplePtr] stands still on nulls and short strings. *)
Lemma findStringTies_ok col off N l start :
  covers col off N -> l <> [] -> allEq (fieldCompare off N) l ->
  StronglySorted (cmpLe (strCmp col)) l ->
  exists G q, findStringTies getData numBytesToRadixSort col (mkTie start (start + length l - 1)) l = Ok q /\
    mjoin G = l /\ segsOK (strCmp col) G /\ queued start G q.
Proof using Type.
  intros Hc Hne Heq HS. destruct l as [|t l]; [done|]. clear Hne.
  assert (Hf : forall x, x ∈ t :: l -> strIsNull col t = strIsNull col x /\ strIsLong col t = strIsLong col x).
  { intros x Hx. apply (strFlags col off N); [done|]. apply Heq; [left|done]. }
  unfold findStringTies, getNumTuples. cbn [startingTupleIdx endingTupleIdx].
  destruct (decide (strIsNull col t = false /\ strIsLong col t = true)) as [HL|HL].
  - pose proof (findStringTiesFrom_long (S (start + length (t :: l) - 1 - start + 1)) col (t :: l) [] (t :: l) start) as HT.
    cbn [length] in HT. rewrite Nat.add_0_r in HT. apply HT; [|done|done|lia].
    apply Forall_forall. intros x Hx. destruct (Hf x Hx) as [E1 E2]. unfold isLong. by rewrite <- E1, <- E2.
  - destruct l as [|u l].
    { exists [[t]], []. cbn [length findStringTiesFrom]. rewrite (proj2 (Nat.ltb_ge _ _)) by lia.
      split; [done|]. split; [done|]. split; [apply run_last; apply _|repeat constructor]. }
    cbn [length findStringTiesFrom]. rewrite (proj2 (Nat.ltb_lt _ _)) by lia. cbv zeta.
    change ((t :: u :: l) !!! 0) with t.
    rewrite stringTieEnd_continues.
    2: { destruct (Hf u) as [E1 E2]; [right; left|]. change ((t :: u :: l) !!! (0 + 1)) with u.
         unfold continues. rewrite <- E1, <- E2. destruct (strIsNull col t), (strIsLong col t); try done.
         by destruct HL. }
    replace (start + 1 + (start + S (S (length l)) - 1 - start) - 1) with (start + S (length l)) by lia.
    replace (start + S (S (length l)) - 1 - start + 1) with (S (S (length l))) by lia. cbn [findStringTiesFrom].
    rewrite (proj2 (Nat.ltb_ge _ _)) by lia. cbn [obind]. rewrite (proj2 (Nat.eqb_neq _ _)) by lia.
    exists [t :: u :: l]. eexists. split; [reflexivity|]. split; [cbn; by rewrite app_nil_r|].
    split.
    + apply segsOK_single; [done|]. intros x y Hx Hy. destruct (Hf x Hx), (Hf y Hy).
      apply continues_eq; [congruence|congruence|]. unfold isLong. intros [??]. apply HL. split; congruence.
    + replace (start + S (length l)) with (start + length (t :: u :: l) - 1) by (cbn; lia).
      constructor; [done|constructor].
Qed.

(** ** Blocks *)
Definition rangeOf (a s : list tuple) : TieRange := mkTie (length a) (length a + length s - 1).

Lemma rangeOf_num a s : s <> [] -> getNumTuples (rangeOf a s) = length s.
Proof using Type. intros H. unfold getNumTuples, rangeOf. destruct s; [done|]. cbn. lia. Qed.

Lemma tieTuples_app a s b : s <> [] -> tieTuples (rangeOf a s) (a ++ s ++ b) = s.
Proof using Type.
  intros H. unfold tieTuples. rewrite rangeOf_num by done. cbn [startingTupleIdx rangeOf].
  by rewrite drop_app_length, take_app_length.
Qed.

Lemma putTuples_app a s s' b :
  s <> [] -> putTuples (rangeOf a s) s' (a ++ s ++ b) = a ++ s' ++ b.
Proof using Type.
  intros H. unfold putTuples. rewrite rangeOf_num by done. cbn [startingTupleIdx rangeOf].
  rewrite take_app_length. f_equal. f_equal. by rewrite <- length_app, app_assoc, drop_app_length.
Qed.

Lemma mjoin_cons (s : list tuple) segs : mjoin (s :: segs) = s ++ mjoin segs.
Proof using Type. done. Qed.

(** One range of string ties. *)
Lemma solveStringTies_ok col off N a s b tmp q0 :
  covers col off N -> s <> [] -> allEq (fieldCompare off N) s ->
  exists H q tmp', solveStringTies stdSort getData numBytesToRadixSort (rangeOf a s) col
                     (mkSort (a ++ s ++ b) tmp q0) = Ok (mkSort (a ++ mjoin H ++ b) tmp' (q0 ++ q)) /\
    refines (strCmp col) s H /\ queued (length a) H q /\ length tmp <= length tmp'.
Proof using Hsort.
  intros Hc Hne He. unfold solveStringTies. cbn [keyBlock tmpSortingResultBlock ties].
  rewrite tieTuples_app by done. pose proof (sort_tuples col s tmp) as HT. cbv zeta in HT.
  destruct (reOrderKeyBlock _ _ _) as [s' tmp']. destruct HT as (HP & HS & Hl).
  assert (Hl' : length s' = length s) by (by rewrite HP).
  destruct (findStringTies_ok col off N s' (length a)) as (H & q & E & EH & HH & Hq).
  - done.
  - intros ->. destruct s; [done|discriminate].
  - intros x y. rewrite HP. apply He.
  - done.
  - rewrite Hl' in E. fold (rangeOf a s) in E. rewrite E. cbn [obind].
    rewrite putTuples_app by done. exists H, q, tmp'. rewrite EH.
    split; [done|]. split; [|split; [done|lia]]. split; [by rewrite EH|done].
Qed.

(** All ranges of the segments [G]. *)
Lemma solveAll_ok col off N G base q :
  queued base G q -> covers col off N -> Forall (allEq (fieldCompare off N)) G ->
  forall a b tmp q0, length a = base ->
  exists H q' tmp', solveAll stdSort getData numBytesToRadixSort q col
                      (mkSort (a ++ mjoin G ++ b) tmp q0) =
                    Ok (mkSort (a ++ mjoin (mjoin H) ++ b) tmp' (q0 ++ q')) /\
    Forall2 (refines (strCmp col)) G H /\ queued base (mjoin H) q' /\ length tmp <= length tmp'.
Proof using Hsort.
  intros HQ Hc. induction HQ as [base|base x G q HQ IH|base s G q Hs HQ IH]; intros HE a b tmp q0 Ha.
  - exists [], [], tmp. rewrite app_nil_r. split; [done|]. split; [constructor|].
    split; [constructor|done].
  - inversion_clear HE as [|?? _ HE']. destruct (IH HE' (a ++ [x]) b tmp q0) as (H & q' & tmp' & E & HF & Hq & Hl).
    { rewrite length_app. cbn. lia. }
    exists ([[x]] :: H), q', tmp'. rewrite mjoin_cons, <- !app_assoc in *. cbn [app] in *.
    split; [by rewrite E|]. split; [constructor; [|done]|split; [by constructor|done]].
    apply refines_singleton. apply _.
  - inversion_clear HE as [|?? He HE']. cbn [solveAll]. subst base. fold (rangeOf a s).
    rewrite mjoin_cons, <- app_assoc.
    destruct (solveStringTies_ok col off N a s (mjoin G ++ b) tmp q0) as (H1 & q1 & tmp1 & E1 & HR & Hq1 & Hl1);
      [done..|].
    rewrite E1. cbn [obind]. destruct HR as [HP HR].
    destruct (IH HE' (a ++ mjoin H1) b tmp1 (q0 ++ q1)) as (H & q' & tmp' & E & HF & Hq & Hl).
    { by rewrite length_app, HP. }
    rewrite <- !app_assoc in E. exists (H1 :: H), (q1 ++ q'), tmp'. rewrite E. cbn [mjoin list_join].
    rewrite join_app, <- !app_assoc.
    split; [done|]. split; [constructor; [split; done|done]|]. split; [|lia].
    apply queued_app; [done|]. by rewrite HP.
Qed.

Lemma radixSortTie_ok off N a s b tmp q0 :
  s <> [] -> Forall byteTuple s -> length s <= length tmp ->
  exists s' tmp', radixSortTie (rangeOf a s) off N (mkSort (a ++ s ++ b) tmp q0) =
                    mkSort (a ++ s' ++ b) tmp' q0 /\
    s' ≡ₚ s /\ StronglySorted (cmpLe (fieldCompare off N)) s' /\ length tmp' = length tmp.
Proof using Type.
  intros Hs HB Hl. unfold radixSortTie. cbn [keyBlock tmpSortingResultBlock ties].
  rewrite tieTuples_app, rangeOf_num by done. pose proof (radixSort_ok s tmp off N HB Hl) as HR.
  destruct (radixSort _ _ _ _ _) as [s' tmp']. destruct HR as (HP & HS & Ht).
  rewrite putTuples_app by done. exists s', tmp'. done.
Qed.

(** One round: every queued segment is refined. *)
Lemma sortTies_ok col off N segs base q :
  queued base segs q -> covers col off N -> Forall (Forall byteTuple) segs ->
  forall a b tmp q0, length a = base -> length (mjoin segs) <= length tmp ->
  exists newss q' tmp', sortTies stdSort getData numBytesToRadixSort (length q) col off N
                          (mkSort (a ++ mjoin segs ++ b) tmp (q ++ q0)) =
                        Ok (mkSort (a ++ mjoin (mjoin newss) ++ b) tmp' (q0 ++ q')) /\
    Forall2 (refines (rndCmp col off N)) segs newss /\ queued base (mjoin newss) q' /\
    length tmp <= length tmp'.
Proof using Hsort.
  intros HQ Hc. induction HQ as [base|base x segs q HQ IH|base s segs q Hs HQ IH]; intros HB a b tmp q0 Ha Hl.
  - exists [], [], tmp. cbn [sortTies length]. rewrite app_nil_r. split; [done|]. split; [constructor|].
    split; [constructor|done].
  - inversion_clear HB as [|?? Hx HB']. rewrite mjoin_cons in Hl. cbn [app length] in Hl.
    destruct (IH HB' (a ++ [x]) b tmp q0) as (H & q' & tmp' & E & HF & Hq & Hl').
    { rewrite length_app. cbn. lia. } { lia. }
    exists ([[x]] :: H), q', tmp'. rewrite mjoin_cons, <- !app_assoc in *. cbn [app] in *.
    split; [by rewrite E|]. split; [constructor; [|done]|split; [by constructor|done]].
    apply refines_singleton. apply _.
  - inversion_clear HB as [|?? Hx HB']. cbn [sortTies length ties app]. subst base.
    fold (rangeOf a s). rewrite mjoin_cons, <- app_assoc. rewrite mjoin_cons, length_app in Hl.
    cbn [keyBlock tmpSortingResultBlock].
    destruct (radixSortTie_ok off N a s (mjoin segs ++ b) tmp (q ++ q0)) as (s1 & tmp1 & E1 & HP1 & HS1 & Ht1);
      [done|done|lia|].
    rewrite E1. cbn [keyBlock]. assert (Hl1 : length s1 = length s) by (by rewrite HP1).
    assert (Hs1 : s1 <> []) by (intros ->; destruct s; done).
    assert (ER : rangeOf a s = rangeOf a s1) by (unfold rangeOf; by rewrite Hl1).
    rewrite ER, tieTuples_app by done. cbn [startingTupleIdx rangeOf].
    destruct (findTies_spec off N (length a) s1 HS1) as (G & q1 & E2 & EG & HG & Hq1).
    rewrite E2. cbn [obind].
    destruct (solveAll_ok col off N G (length a) q1 Hq1 Hc (segs_eq _ _ HG) a (mjoin segs ++ b) tmp1 (q ++ q0))
      as (H1 & q2 & tmp2 & E3 & HF1 & Hq2 & Hl2); [done|].
    rewrite EG in E3. rewrite E3. cbn [obind].
    assert (HP2 : mjoin (mjoin H1) ≡ₚ s) by (rewrite (refines_perm _ _ _ HF1), EG; done).
    destruct (IH HB' (a ++ mjoin (mjoin H1)) b tmp2 (q0 ++ q2)) as (H & q' & tmp' & E & HF & Hq & Hl').
    { by rewrite length_app, HP2. } { lia. }
    rewrite <- !app_assoc in E. rewrite <- !app_assoc. rewrite E.
    exists (mjoin H1 :: H), (q2 ++ q'), tmp'. cbn [mjoin list_join]. rewrite join_app, <- !app_assoc.
    split; [done|]. split; [|split; [|lia]].
    + constructor; [|done]. split; [done|]. by apply (segsOK_refine _ _ G).
    + apply queued_app; [done|]. by rewrite HP2.
Qed.

(** The last loop. *)
Lemma sortRest_ok off segs base q :
  queued base segs q -> Forall (Forall byteTuple) segs ->
  forall a b tmp q0, length a = base -> length (mjoin segs) <= length tmp ->
  let st := sortRest numBytesToRadixSort q off (mkSort (a ++ mjoin segs ++ b) tmp q0) in
  exists newss, keyBlock st = a ++ mjoin (mjoin newss) ++ b /\
    Forall2 (refines (fieldCompare off (numBytesToRadixSort - off))) segs newss /\
    length tmp <= length (tmpSortingResultBlock st).
Proof using Type.
  intros HQ. induction HQ as [base|base x segs q HQ IH|base s segs q Hs HQ IH]; intros HB a b tmp q0 Ha Hl.
  - exists []. split; [done|]. split; [constructor|done].
  - inversion_clear HB as [|?? Hx HB']. rewrite mjoin_cons in Hl. cbn [app length] in Hl.
    destruct (IH HB' (a ++ [x]) b tmp q0) as (H & E & HF & Ht).
    { rewrite length_app. cbn. lia. } { lia. }
    exists ([[x]] :: H). rewrite mjoin_cons, <- !app_assoc in *. cbn [app] in *.
    split; [done|]. split; [|done]. constructor; [|done]. apply refines_singleton. apply _.
  - inversion_clear HB as [|?? Hx HB']. cbn [sortRest]. subst base. fold (rangeOf a s).
    rewrite mjoin_cons, <- app_assoc. rewrite mjoin_cons, length_app in Hl. cbn [keyBlock tmpSortingResultBlock].
    set (N := numBytesToRadixSort - off) in *.
    destruct (radixSortTie_ok off N a s (mjoin segs ++ b) tmp q) as (s1 & tmp1 & E1 & HP1 & HS1 & Ht1);
      [done|done|lia|].
    rewrite E1. destruct (findTies_spec off N 0 s1 HS1) as (G & _ & _ & EG & HG & _).
    destruct (IH HB' (a ++ s1) b tmp1 q) as (H & E & HF & Ht).
    { by rewrite length_app, HP1. } { lia. }
    rewrite <- !app_assoc in E, Ht. cbv zeta in *. rewrite E. exists (G :: H).
    cbn [mjoin list_join]. rewrite join_app, <- !app_assoc, EG.
    split; [done|]. split; [|lia]. constructor; [|done]. split; [by rewrite EG|done].
Qed.

(** ** The whole block *)

(** The string columns are listed in the order of their offsets. *)
Fixpoint colsOK (off : nat) (cols : list StrKeyColInfo) : Prop :=
  match cols with
  | [] => True
  | col :: cols => off <= colOffsetInEncodedKeyBlock col /\
                   colsOK (colOffsetInEncodedKeyBlock col + strEncodingSize) cols
  end.

Lemma thenCompare_assoc a b c : thenCompare (thenCompare a b) c = thenCompare a (thenCompare b c).
Proof using Type. by destruct a. Qed.

Lemma singletons_refine d `{!CompareOrder d} (segs : list (list tuple)) :
  Forall (fun s => length s = 1) segs -> Forall2 (refines d) segs ((fun s => [s]) <$> segs).
Proof using Type.
  induction 1 as [|s segs Hs _ IH]; cbn; constructor; [|done].
  destruct s as [|x [|]]; try done. apply refines_singleton. apply _.
Qed.

Lemma mjoin_singletons (segs : list (list tuple)) : mjoin ((fun s => [s]) <$> segs) = segs.
Proof using Type. induction segs as [|s segs IH]; [done|]. cbn. f_equal. exact IH. Qed.

Lemma sortStrCols_ok cols : forall off c segs q tmp,
  segsOK c segs -> queued 0 segs q -> Forall (Forall byteTuple) segs ->
  length (mjoin segs) <= length tmp -> colsOK off cols ->
  exists st, sortStrCols stdSort getData numBytesToRadixSort cols off (mkSort (mjoin segs) tmp q) = Ok st /\
    keyBlock st ≡ₚ mjoin segs /\
    StronglySorted (cmpLe (fun x y => thenCompare (c x y) (colCmp cols off x y))) (keyBlock st) /\
    length tmp <= length (tmpSortingResultBlock st).
Proof using Hsort.
  induction cols as [|col cols IH]; intros off c segs q tmp Hc HQ HB Hl Hcol; cbn [sortStrCols ties].
  - destruct (sortRest_ok off segs 0 q HQ HB [] [] tmp q) as (newss & E & HF & Ht); [done|done|].
    rewrite app_nil_r in E, Ht. cbn [app] in E. eexists. split; [reflexivity|]. rewrite E, app_nil_r.
    split; [by apply refines_perm in HF|]. split; [|done]. apply segsOK_sorted. by apply (segsOK_refine c _ segs).
  - destruct Hcol as [Ho Hcol]. set (N := colOffsetInEncodedKeyBlock col - off + strEncodingSize).
    assert (Hcov : covers col off N) by (unfold covers, N; lia).
    destruct (sortTies_ok col off N segs 0 q HQ Hcov HB [] [] tmp []) as (newss & q' & tmp' & E & HF & HQ' & Hl');
      [done|done|].
    rewrite !app_nil_r in E. cbn [app] in E. rewrite E. cbn [obind ties].
    pose proof (segsOK_refine c _ _ _ Hc HF) as HN. pose proof (refines_perm _ _ _ HF) as HP.
    set (c' := fun x y => thenCompare (c x y) (rndCmp col off N x y)) in HN.
    assert (Hassoc : forall l, StronglySorted (cmpLe (fun x y => thenCompare (c' x y) (colCmp cols (off + N) x y))) l ->
      StronglySorted (cmpLe (fun x y => thenCompare (c x y) (colCmp (col :: cols) off x y))) l).
    { intros l. apply StronglySorted_impl. intros x y _ _. unfold cmpLe, c'. by rewrite thenCompare_assoc. }
    destruct q' as [|t q'].
    + eexists. split; [reflexivity|]. cbn [keyBlock]. split; [done|]. split; [|done]. apply Hassoc.
      rewrite <- (mjoin_singletons (mjoin newss)). apply segsOK_sorted, (segsOK_refine c' _ (mjoin newss)); [done|].
      apply singletons_refine; [apply _|]. by apply (queued_empty 0 _ []).
    + destruct (IH (off + N) c' (mjoin newss) (t :: q') tmp') as (st & E' & HP' & HS' & Ht').
      * done.
      * done.
      * apply Forall_forall. intros s Hs. apply Forall_forall. intros x Hx.
        assert (Hin : x ∈ mjoin segs) by (rewrite <- HP; apply list_elem_of_join; eauto).
        apply list_elem_of_join in Hin as (s' & Hx' & Hs').
        eapply Forall_forall in HB; [|exact Hs']. by eapply Forall_forall in HB.
      * rewrite HP. lia.
      * unfold N. by replace (off + (colOffsetInEncodedKeyBlock col - off + strEncodingSize))
          with (colOffsetInEncodedKeyBlock col + strEncodingSize) by lia.
      * exists st. split; [done|]. split; [by rewrite HP', HP|]. split; [by apply Hassoc|lia].
Qed.

Lemma sortSingleKeyBlock_ok cols block tmp :
  block <> [] -> Forall byteTuple block -> length block <= length tmp -> colsOK 0 cols ->
  exists st, sortSingleKeyBlock stdSort getData numBytesToRadixSort cols block tmp = Ok st /\
    keyBlock st ≡ₚ block /\ StronglySorted (cmpLe (colCmp cols 0)) (keyBlock st) /\
    length tmp <= length (tmpSortingResultBlock st).
Proof using Hsort.
  intros Hne HB Hl Hc. unfold sortSingleKeyBlock.
  destruct (sortStrCols_ok cols 0 (fun _ _ => Eq) [block] [mkTie 0 (length block - 1)] tmp) as (st & E & HP & HS & Ht).
  - by apply segsOK_single.
  - constructor; [done|constructor].
  - by repeat constructor.
  - cbn. by rewrite app_nil_r.
  - done.
  - cbn in E, HP. rewrite app_nil_r in E, HP. by exists st.
Qed.
End strings.
