(* ===== verification/OrderBySort.v ===== *)
(** * ORDER BY within one block (src/processor/operator/order_by/sort_state.cpp)

    [SortSharedState::init] computes where the string columns lie in the encoded tuple
    and in the factorized table; [SortLocalState::finalize] sorts every block that is
    not empty.  The theorems put the encoder (file OrderByKey) and the radix sort (file
    RadixSort) together: a sorted block holds the encodings of the same rows, in the
    order of the ORDER BY clause. *)

From S2P Require Import Prelude Serializer OrderByKey Compare RadixSort.
From stdpp Require Import base list numbers sorting.
Local Open Scope nat_scope.

Local Abbreviation tuple := (list Z).

(** A key column and the offset of its values in the factorized table. *)
Record sortColumn : Type := mkSortColumn { keyCol : keyColumn; ftColOffset : nat }.

Definition NUM_BYTES_FOR_PAYLOAD_IDX : nat := 8.

(** The loop of [SortSharedState::init]. *)
Fixpoint initStrKeyCols (encodedKeyBlockColOffset : nat) (cols : list sortColumn) : list StrKeyColInfo :=
  match cols with
  | [] => []
  | c :: cols =>
      let rest := initStrKeyCols (encodedKeyBlockColOffset + getEncodingSize (colType (keyCol c))) cols in
      if isString (colType (keyCol c))
      then mkStrCol (ftColOffset c) encodedKeyBlockColOffset (isAscOrder (keyCol c)) :: rest
      else rest
  end.

Fixpoint keyBytes (cols : list sortColumn) : nat :=
  match cols with [] => 0 | c :: cols => getEncodingSize (colType (keyCol c)) + keyBytes cols end.

(** [numBytesPerTuple] of [SortSharedState::init]. *)
Definition initNumBytesPerTuple (cols : list sortColumn) : nat := keyBytes cols + NUM_BYTES_FOR_PAYLOAD_IDX.

(** [SortLocalState::finalize]: the blocks that are not empty, sorted. *)
Fixpoint finalize (stdSort : (nat -> nat -> bool) -> list nat -> list nat) (getData : Z -> Z -> nat -> list Z)
    (cols : list sortColumn) (tmpBlock : list tuple) (keyBlocks : list (list tuple))
    : outcome (list (list tuple)) :=
  match keyBlocks with
  | [] => Ok []
  | block :: keyBlocks =>
      if 0 <? length block then
        let* st := sortSingleKeyBlock stdSort getData (initNumBytesPerTuple cols - NUM_BYTES_FOR_PAYLOAD_IDX)
                     (initStrKeyCols 0 cols) block tmpBlock in
        let* sorted := finalize stdSort getData cols (tmpSortingResultBlock st) keyBlocks in
        Ok (keyBlock st :: sorted)
      else finalize stdSort getData cols tmpBlock keyBlocks
  end.

(** ** Encoded tuples *)
Lemma field_app p s q : field (length p) (length s) (p ++ s ++ q) = s.
Proof.
  unfold field. apply list_eq. intros k. rewrite list_lookup_fmap.
  destruct (decide (k < length s)) as [Hk|Hk].
  - rewrite lookup_seq_lt by done. cbn.
    rewrite app_nth2 by lia. replace (length p + k - length p) with k by lia. rewrite app_nth1 by done.
    destruct (lookup_lt_is_Some_2 s k Hk) as [b Hb]. rewrite Hb. f_equal. by apply nth_lookup_Some.
  - rewrite lookup_seq_ge by lia. cbn. by rewrite lookup_ge_None_2 by lia.
Qed.

Lemma fieldCompare_split off a b x y :
  fieldCompare off (a + b) x y = thenCompare (fieldCompare off a x y) (fieldCompare (off + a) b x y).
Proof.
  revert off. induction a as [|a IH]; intros off; cbn [Nat.add].
  - by rewrite Nat.add_0_r.
  - rewrite !fieldCompare_S, IH, thenCompare_assoc. by rewrite Nat.add_succ_r.
Qed.

Lemma fieldCompare_app p p' s s' q q' :
  length p' = length p -> length s' = length s ->
  fieldCompare (length p) (length s) (p ++ s ++ q) (p' ++ s' ++ q') = memcmp s s'.
Proof.
  intros Hp Hs. unfold fieldCompare. rewrite field_app. by rewrite <- Hp, <- Hs, field_app.
Qed.

Section rows.
Context (le : bool) (tableValue : list Z -> nat -> list Z).

(** The factorized table holds the strings of a row at the tuple's position. *)
Definition cellHeld (info : list Z) (c : sortColumn) (v : option keyValue) : Prop :=
  match v with
  | Some (KString s) => tableValue info (ftColOffset c) = s
  | _ => True
  end.

(** Strings of at most 12 bytes hold no zero byte. *)
Definition cellNoZero (v : option keyValue) : Prop :=
  match v with Some (KString s) => length s <= SHORT_STR_LENGTH -> noZero s | _ => True end.

Definition encodesRow (cols : list sortColumn) (row : list (option keyValue)) (t : tuple) : Prop :=
  rowOK (keyCol <$> cols) row /\ Forall cellNoZero row /\
  exists info, length info = NUM_BYTES_FOR_PAYLOAD_IDX /\ Forall isByte info /\
    Forall2 (cellHeld info) cols row /\ t = encodeRow le (keyCol <$> cols) row ++ info.

(** *** A string column *)
Lemma strIsNull_enc ft asc p v q :
  cellOK TString v ->
  strIsNull (mkStrCol ft (length p) asc) (p ++ encodeColumn le asc TString v ++ q) =
    match v with None => true | Some _ => false end.
Proof using Type.
  intros Hv. unfold strIsNull. cbn [colOffsetInEncodedKeyBlock strIsAsc].
  rewrite app_nth2, Nat.sub_diag by lia. by destruct v, asc.
Qed.

Lemma strIsLong_enc ft asc p s q :
  strIsLong (mkStrCol ft (length p) asc) (p ++ encodeColumn le asc TString (Some (KString s)) ++ q) =
    negb (length s <=? SHORT_STR_LENGTH).
Proof using Type.
  unfold strIsLong, isLongStr. cbn [colOffsetInEncodedKeyBlock strIsAsc].
  rewrite drop_app_length. unfold encodeColumn. cbn [encodeData]. rewrite encodeString_pad.
  assert (Hl := length_pad SHORT_STR_LENGTH s). unfold longFlag.
  destruct asc.
  - rewrite app_comm_cons, <- app_assoc, app_nth2; cbn [length]; rewrite Hl; [|unfold SHORT_STR_LENGTH; lia].
    cbn. by destruct (length s <=? SHORT_STR_LENGTH).
  - unfold invertBytes. rewrite app_comm_cons, fmap_app, <- app_assoc, app_nth2;
      rewrite length_fmap; cbn [length]; rewrite Hl; [|unfold SHORT_STR_LENGTH; lia].
    cbn. by destruct (length s <=? SHORT_STR_LENGTH).
Qed.

(** Equal encodings of a string column: both null, or strings with the same encoding. *)
Lemma stringColumn_eq asc v w :
  cellOK TString v -> cellOK TString w ->
  memcmp (encodeColumn le asc TString v) (encodeColumn le asc TString w) = Eq ->
  (v = None /\ w = None) \/
  exists s t, v = Some (KString s) /\ w = Some (KString t) /\ encodeString s = encodeString t.
Proof using Type.
  intros Hv Hw E.
  assert (EP : memcmp (encodeColumn le true TString v) (encodeColumn le true TString w) = Eq).
  { destruct asc; [done|]. unfold encodeColumn in *.
    rewrite memcmp_invert in E; [|by apply plainColumn_isByte..].
    by destruct (memcmp (match v with None => _ | Some _ => _ end) _). }
  apply memcmp_eq in EP; [|by rewrite !encodeColumn_length].
  destruct v as [[| | | | | |s|]|], w as [[| | | | | |t|]|]; try done; [|by left].
  right. exists s, t. split; [done|]. split; [done|]. by injection EP.
Qed.

Lemma strColumn_compare total c asc p p' v w q q' :
  keyCol c = mkColumn TString asc -> length p' = length p ->
  let x := p ++ encodeColumn le asc TString v ++ q in
  let y := p' ++ encodeColumn le asc TString w ++ q' in
  cellHeld (drop total x) c v -> cellHeld (drop total y) c w ->
  cellOK TString v -> cellOK TString w -> cellNoZero v -> cellNoZero w ->
  thenCompare (memcmp (encodeColumn le asc TString v) (encodeColumn le asc TString w))
    (strKeyCompare tableValue total (mkStrCol (ftColOffset c) (length p) asc) x y) = compareColumn asc v w.
Proof using Type.
  intros Hc Hp x y Hx Hy Hv Hw Zv Zw.
  destruct (memcmp _ _) eqn:E; [|symmetry; by eapply memcmp_stringColumn..]. cbn [thenCompare].
  unfold strKeyCompare, strKey, strRank.
  assert (Hnv : strIsNull (mkStrCol (ftColOffset c) (length p) asc) x = match v with None => true | Some _ => false end)
    by (by apply strIsNull_enc).
  assert (Hnw : strIsNull (mkStrCol (ftColOffset c) (length p) asc) y = match w with None => true | Some _ => false end)
    by (rewrite <- Hp; by apply strIsNull_enc).
  rewrite Hnv, Hnw.
  destruct (stringColumn_eq asc v w Hv Hw E) as [[-> ->]|(s & t & -> & -> & Es)]; [cbn; by destruct asc|].
  assert (Hls : strIsLong (mkStrCol (ftColOffset c) (length p) asc) x = negb (length s <=? SHORT_STR_LENGTH))
    by apply strIsLong_enc.
  assert (Hlt : strIsLong (mkStrCol (ftColOffset c) (length p) asc) y = negb (length t <=? SHORT_STR_LENGTH))
    by (rewrite <- Hp; apply strIsLong_enc).
  rewrite Hls, Hlt. cbn [cellHeld] in Hx, Hy. cbn [strIsAsc colOffsetInFT]. unfold compareColumn, valueCompare.
  destruct (encodeString_eq s t Es) as [_ Hl].
  destruct (Nat.leb_spec (length s) SHORT_STR_LENGTH) as [Ls|Ls],
    (Nat.leb_spec (length t) SHORT_STR_LENGTH) as [Lt'|Lt']; try lia; cbn -[SHORT_STR_LENGTH strCompare].
  - rewrite (encodeString_short_eq s t) by (done || auto). rewrite !strCompare_refl. by destruct asc.
  - by rewrite Hx, Hy.
Qed.

(** *** Rows *)
Lemma encodeRow_length cols row :
  rowOK (keyCol <$> cols) row -> length (encodeRow le (keyCol <$> cols) row) = keyBytes cols.
Proof using Type.
  revert row. induction cols as [|c cols IH]; intros row H; inversion H as [|? v ? row' Hv H']; subst; [done|].
  cbn [fmap list_fmap encodeRow keyBytes]. rewrite length_app, encodeColumn_length by done. f_equal. by apply IH.
Qed.

Lemma drop_tuple_info cols row p info :
  rowOK (keyCol <$> cols) row ->
  drop (length p + keyBytes cols) (p ++ encodeRow le (keyCol <$> cols) row ++ info) = info.
Proof using Type.
  intros H. rewrite <- (encodeRow_length cols row H), <- length_app, app_assoc. apply drop_app_length.
Qed.

Lemma colsCompare_rows cols : forall off p p' r1 r2 info1 info2,
  let x := p ++ encodeRow le (keyCol <$> cols) r1 ++ info1 in
  let y := p' ++ encodeRow le (keyCol <$> cols) r2 ++ info2 in
  let total := length p + keyBytes cols in
  length p' = length p -> off <= length p ->
  rowOK (keyCol <$> cols) r1 -> rowOK (keyCol <$> cols) r2 -> Forall cellNoZero r1 -> Forall cellNoZero r2 ->
  Forall2 (cellHeld info1) cols r1 -> Forall2 (cellHeld info2) cols r2 ->
  colsCompare tableValue total (initStrKeyCols (length p) cols) off x y =
    thenCompare (fieldCompare off (length p - off) x y) (compareRows (keyCol <$> cols) r1 r2).
Proof using Type.
  induction cols as [|c cols IH]; intros off p p' r1 r2 info1 info2 x y total Hp Ho H1 H2 Z1 Z2 C1 C2.
  - cbn [initStrKeyCols colsCompare fmap list_fmap compareRows]. subst total. cbn [keyBytes]. rewrite Nat.add_0_r.
    by destruct (fieldCompare _ _ _ _).
  - destruct c as [[ty asc] ft]. inversion C1 as [|? v ? r1' Cv C1']; subst. inversion C2 as [|? w ? r2' Cw C2']; subst.
    inversion H1 as [|? ? ? ? Hv H1']; subst. inversion H2 as [|? ? ? ? Hw H2']; subst.
    inversion_clear Z1 as [|?? Zv Z1']. inversion_clear Z2 as [|?? Zw Z2']. cbn [keyCol colType] in *.
    set (ev := encodeColumn le asc ty v). set (ew := encodeColumn le asc ty w).
    assert (Lv : length ev = getEncodingSize ty) by (by apply encodeColumn_length).
    assert (Lw : length ew = getEncodingSize ty) by (by apply encodeColumn_length).
    assert (Ex : x = (p ++ ev) ++ encodeRow le (keyCol <$> cols) r1' ++ info1)
      by (subst x; cbn [fmap list_fmap encodeRow keyCol colType isAscOrder]; by rewrite <- !app_assoc).
    assert (Ey : y = (p' ++ ew) ++ encodeRow le (keyCol <$> cols) r2' ++ info2)
      by (subst y; cbn [fmap list_fmap encodeRow keyCol colType isAscOrder]; by rewrite <- !app_assoc).
    assert (Et : total = length (p ++ ev) + keyBytes cols)
      by (subst total; cbn [keyBytes keyCol colType]; rewrite length_app; lia).
    assert (Hpl : length (p' ++ ew) = length (p ++ ev)) by (rewrite !length_app; lia).
    assert (Hfield : fieldCompare (length p) (getEncodingSize ty) x y = memcmp ev ew).
    { rewrite Ex, Ey, <- !app_assoc, <- Lv. apply fieldCompare_app; [done|lia]. }
    cbn [fmap list_fmap compareRows initStrKeyCols keyCol colType isAscOrder ftColOffset].
    rewrite <- Lv, <- length_app.
    destruct (isString ty) eqn:Est.
    + destruct ty; try done. cbn [colsCompare colOffsetInEncodedKeyBlock].
      replace (length p - off + strEncodingSize) with ((length p - off) + getEncodingSize TString) by done.
      replace (off + (length p - off + getEncodingSize TString)) with (length (p ++ ev))
        by (rewrite length_app; lia).
      rewrite Et, Ex, Ey, IH, <- Ex, <- Ey by (done || lia). rewrite <- Et, Nat.sub_diag.
      unfold roundCompare. rewrite fieldCompare_split. replace (off + (length p - off)) with (length p) by lia.
      rewrite Hfield. rewrite !thenCompare_assoc. f_equal. rewrite <- thenCompare_assoc. f_equal.
      assert (HD1 : drop total x = info1) by (by apply drop_tuple_info).
      assert (HD2 : drop total y = info2) by (subst total; rewrite <- Hp; by apply drop_tuple_info).
      assert (Ex' : x = p ++ ev ++ (encodeRow le (keyCol <$> cols) r1' ++ info1)) by (by rewrite Ex, <- app_assoc).
      assert (Ey' : y = p' ++ ew ++ (encodeRow le (keyCol <$> cols) r2' ++ info2)) by (by rewrite Ey, <- app_assoc).
      pose proof (strColumn_compare total (mkSortColumn (mkColumn TString asc) ft) asc p p' v w
        (encodeRow le (keyCol <$> cols) r1' ++ info1) (encodeRow le (keyCol <$> cols) r2' ++ info2)) as HS.
      cbv zeta in HS. fold ev ew in HS. rewrite <- Ex', <- Ey', HD1, HD2 in HS. by apply HS.
    + rewrite Et, Ex, Ey, IH, <- Ex, <- Ey by (done || (rewrite ?length_app; lia)).
      rewrite length_app, Lv. replace (length p + getEncodingSize ty - off) with ((length p - off) + getEncodingSize ty) by lia.
      rewrite fieldCompare_split. replace (off + (length p - off)) with (length p) by lia.
      rewrite Hfield, thenCompare_assoc. f_equal. f_equal. apply memcmp_encodeColumn; [|done|done].
      intros ->. done.
Qed.

Lemma encodedRows_compare cols r1 r2 x y :
  encodesRow cols r1 x -> encodesRow cols r2 y ->
  colsCompare tableValue (keyBytes cols) (initStrKeyCols 0 cols) 0 x y = compareRows (keyCol <$> cols) r1 r2.
Proof using Type.
  intros (H1 & Z1 & i1 & _ & _ & C1 & ->) (H2 & Z2 & i2 & _ & _ & C2 & ->).
  by apply (colsCompare_rows cols 0 [] [] r1 r2 i1 i2).
Qed.

Lemma encodeColumn_isByte asc t v : cellOK t v -> Forall isByte (encodeColumn le asc t v).
Proof using Type.
  intros Hv. unfold encodeColumn. destruct asc; [by apply plainColumn_isByte|apply invertBytes_isByte].
Qed.

Lemma encodeRow_isByte cols row : rowOK cols row -> Forall isByte (encodeRow le cols row).
Proof using Type.
  induction 1 as [|c v cols row Hv _ IH]; [constructor|]. cbn. apply Forall_app. split; [|done].
  by apply encodeColumn_isByte.
Qed.

Lemma byteTuple_intro t : Forall isByte t -> byteTuple t.
Proof using Type.
  intros H k. destruct (decide (k < length t)) as [Hk|Hk].
  - eapply (Forall_forall isByte t) in H; [exact H|]. apply list_elem_of_In, nth_In. done.
  - rewrite nth_overflow by lia. lia.
Qed.

Lemma encodesRow_byteTuple cols row t : encodesRow cols row t -> byteTuple t.
Proof using Type.
  intros (H & _ & info & _ & Hi & _ & ->). apply byteTuple_intro, Forall_app. split; [|done].
  by apply encodeRow_isByte.
Qed.

Lemma initStrKeyCols_ok cols off p : off <= p -> colsOK off (initStrKeyCols p cols).
Proof using Type.
  revert off p. induction cols as [|c cols IH]; intros off p Ho; [done|]. cbn [initStrKeyCols].
  destruct (isString _) eqn:E; [|apply IH; lia]. cbn [colsOK colOffsetInEncodedKeyBlock]. split; [done|].
  apply IH. destruct (colType (keyCol c)); try done.
Qed.
End rows.

Lemma Forall2_perm_r {A B} (P : A -> B -> Prop) l k k' :
  Forall2 P l k -> k' ≡ₚ k -> exists l', l' ≡ₚ l /\ Forall2 P l' k'.
Proof.
  intros HF HP. apply Permutation_sym in HP. revert l HF.
  induction HP as [|y k k' HP IH|y z k|k1 k2 k3 _ IH1 _ IH2]; intros l HF.
  - inversion_clear HF. by exists [].
  - inversion_clear HF as [|x ? l1 ? Hx HF']. destruct (IH l1 HF') as (l' & HP' & HF2).
    exists (x :: l'). split; [by rewrite HP'|by constructor].
  - inversion_clear HF as [|a ? l1 ? Ha HF']. inversion_clear HF' as [|b ? l2 ? Hb HF].
    exists (b :: a :: l2). split; [apply perm_swap|by repeat constructor].
  - destruct (IH1 l HF) as (l1 & HP1 & HF1). destruct (IH2 l1 HF1) as (l2 & HP2 & HF2).
    exists l2. split; [by rewrite HP2|done].
Qed.

Lemma StronglySorted_Forall2 {A B} (P : A -> B -> Prop) (R : A -> A -> Prop) (S : B -> B -> Prop) l k :
  Forall2 P l k -> (forall a b x y, P a x -> P b y -> S x y -> R a b) ->
  StronglySorted S k -> StronglySorted R l.
Proof.
  intros HF HR. induction HF as [|a x l k Ha HF IH]; intros HS; [constructor|].
  apply StronglySorted_inv in HS as [HS Hx]. constructor; [by apply IH|].
  clear IH HS. induction HF as [|b y l k Hb HF IH]; constructor.
  - inversion_clear Hx. by eapply HR.
  - apply IH. by inversion_clear Hx.
Qed.

(** Rows in the order of the clause. *)
Definition rowsSorted (cols : list sortColumn) (rows : list (list (option keyValue))) : Prop :=
  StronglySorted (fun r1 r2 => compareRows (keyCol <$> cols) r1 r2 <> Gt) rows.

Section blocks.
Context (stdSort : (nat -> nat -> bool) -> list nat -> list nat) (Hsort : sortsPointers stdSort).
Context (le : bool) (getData : Z -> Z -> nat -> list Z).

Lemma sortBlock_ok cols rows block tmp :
  Forall2 (encodesRow le (tableStr getData) cols) rows block -> block <> [] -> length block <= length tmp ->
  exists st rows', sortSingleKeyBlock stdSort getData (keyBytes cols) (initStrKeyCols 0 cols) block tmp = Ok st /\
    Forall2 (encodesRow le (tableStr getData) cols) rows' (keyBlock st) /\ rows' ≡ₚ rows /\ rowsSorted cols rows' /\
    length tmp <= length (tmpSortingResultBlock st).
Proof using Hsort.
  intros HF Hne Hl.
  destruct (sortSingleKeyBlock_ok stdSort Hsort getData (keyBytes cols) (initStrKeyCols 0 cols) block tmp)
    as (st & E & HP & HS & Ht).
  - done.
  - apply Forall_forall. intros t Ht. apply list_elem_of_lookup in Ht as [k Hk].
    destruct (Forall2_lookup_r _ _ _ _ _ HF Hk) as (row & _ & Hr). by eapply encodesRow_byteTuple.
  - done.
  - by apply initStrKeyCols_ok.
  - destruct (Forall2_perm_r _ _ _ _ HF HP) as (rows' & HP' & HF').
    exists st, rows'. split; [done|]. split; [done|]. split; [done|]. split; [|done].
    eapply StronglySorted_Forall2; [exact HF'| |exact HS]. intros a b x y Ha Hb. unfold cmpLe.
    by rewrite (encodedRows_compare le (tableStr getData) cols a b x y).
Qed.

Lemma finalize_ok cols blocks : forall rowss tmp,
  Forall2 (Forall2 (encodesRow le (tableStr getData) cols)) rowss blocks ->
  Forall (fun block => length block <= length tmp) blocks ->
  exists sorted rowss', finalize stdSort getData cols tmp blocks = Ok sorted /\
    Forall2 (Forall2 (encodesRow le (tableStr getData) cols)) rowss' sorted /\
    Forall (rowsSorted cols) rowss' /\ mjoin rowss' ≡ₚ mjoin rowss.
Proof using Hsort.
  induction blocks as [|block blocks IH]; intros rowss tmp HF Hl; inversion_clear HF as [|rows ? rowss' ? HR HF'].
  { exists [], []. repeat split; constructor. }
  inversion_clear Hl as [|?? Hb Hl']. cbn [finalize].
  replace (initNumBytesPerTuple cols - NUM_BYTES_FOR_PAYLOAD_IDX) with (keyBytes cols)
    by (unfold initNumBytesPerTuple; lia).
  destruct (Nat.ltb_spec 0 (length block)) as [H0|H0].
  - destruct (sortBlock_ok cols rows block tmp HR) as (st & rows' & E & HF1 & HP1 & HS1 & Ht);
      [intros ->; cbn in H0; lia|done|].
    destruct (IH rowss' (tmpSortingResultBlock st) HF') as (sorted & rowss1 & E2 & HF2 & HS2 & HP2).
    { eapply Forall_impl; [exact Hl'|]. cbn. lia. }
    rewrite E. cbn [obind]. rewrite E2. cbn [obind]. exists (keyBlock st :: sorted), (rows' :: rowss1).
    split; [done|]. split; [by constructor|]. split; [by constructor|].
    change (rows' ++ mjoin rowss1 ≡ₚ rows ++ mjoin rowss'). by rewrite HP1, HP2.
  - assert (block = []) as -> by (by apply length_zero_iff_nil; lia). inversion HR; subst.
    exact (IH rowss' tmp HF' Hl').
Qed.
End blocks.

(** C11. The blocks that [finalize] hands to the merge are sorted: for keys of any number
    of columns, strings of any length among them, ascending or descending, with nulls,
    the radix sort ends and every block it returns encodes rows in the order of the ORDER BY
    clause; all blocks together encode the same rows as before.  Short strings hold no
    zero byte, floating point numbers are no NaN and no negative zero, the normalized months and
    days of an interval have 32 bits (the encoder truncates them), and the temporary block has
    room for a block. *)
Theorem order_by_blocks_sorted stdSort le getData cols rowss blocks tmp :
  sortsPointers stdSort -> Forall2 (Forall2 (encodesRow le (tableStr getData) cols)) rowss blocks ->
  Forall (fun block => length block <= length tmp) blocks ->
  exists sorted rowss', finalize stdSort getData cols tmp blocks = Ok sorted /\
    Forall2 (Forall2 (encodesRow le (tableStr getData) cols)) rowss' sorted /\
    Forall (rowsSorted cols) rowss' /\ mjoin rowss' ≡ₚ mjoin rowss.
Proof. intros Hsort. by apply finalize_ok. Qed.

(** *** An instance of [std::sort] *)
Definition notGreater (lt : nat -> nat -> bool) (x y : nat) : Prop := lt y x = false.

#[local] Instance notGreater_dec lt x y : Decision (notGreater lt x y) := decide (lt y x = false).

Definition mergeSort (lt : nat -> nat -> bool) (l : list nat) : list nat :=
  merge_sort (notGreater lt) l.

Lemma mergeSort_sorts : sortsPointers mergeSort.
Proof.
  intros lt l [Hi Ht Hn]. split; [apply merge_sort_Permutation|].
  assert (Htot : Total (notGreater lt)).
  { unfold notGreater. intros x y. destruct (lt y x) eqn:E1; [|by left]. destruct (lt x y) eqn:E2; [|by right].
    pose proof (Hi x). pose proof (Ht x y x E2 E1). congruence. }
  assert (Htr : Transitive (notGreater lt)).
  { unfold notGreater. intros x y z Hxy Hyz. destruct (lt z x) eqn:E; [|done].
    destruct (lt x y) eqn:E1; [by rewrite (Ht z x y E E1) in Hyz|].
    destruct (lt y z) eqn:E2; [by rewrite (Ht y z x E2 E) in Hxy|].
    destruct (Hn x y z) as [_ H]; congruence. }
  apply (StronglySorted_merge_sort (notGreater lt)).
Qed.

(** Two string columns and an integer, rows with long strings that tie on their prefix. *)
Definition exCols : list sortColumn :=
  [mkSortColumn (mkColumn TString false) 0; mkSortColumn (mkColumn (TInt 2) true) 16].

Definition exStr (last : Z) : list Z := replicate 12 97%Z ++ [last].

Definition exRows : list (list (option keyValue)) :=
  [[Some (KString (exStr 98)); Some (KInt 2 5)]; [None; Some (KInt 2 7)];
   [Some (KString (exStr 99)); Some (KInt 2 (-1))]; [Some (KString (exStr 98)); Some (KInt 2 (-3))]].

Definition exData (blockIdx blockOffset : Z) (colOffset : nat) : list Z :=
  match exRows !! Z.to_nat blockOffset with Some (Some (KString s) :: _) => s | _ => [] end.

Definition exBlock : list tuple :=
  zip_with (fun row k => encodeRow true (keyCol <$> exCols) row ++ encodeFTInfo 0 k 0) exRows [0; 1; 2; 3]%Z.

Lemma exRow_encodes row k :
  rowOK (keyCol <$> exCols) row -> Forall cellNoZero row ->
  Forall2 (cellHeld (tableStr exData) (encodeFTInfo 0 k 0)) exCols row ->
  encodesRow true (tableStr exData) exCols row (encodeRow true (keyCol <$> exCols) row ++ encodeFTInfo 0 k 0).
Proof.
  intros H1 H2 H3. split; [done|]. split; [done|]. exists (encodeFTInfo 0 k 0).
  split; [done|]. split; [|done]. unfold encodeFTInfo. apply Forall_app.
  split; [apply leBytes_isByte|apply Forall_insert; [apply leBytes_isByte|split; lia]].
Qed.

Lemma exBlock_encodes : Forall2 (encodesRow true (tableStr exData) exCols) exRows exBlock.
Proof.
  assert (HI : forall v, (-10 < v < 10)%Z -> cellOK (TInt 2) (Some (KInt 2 v))).
  { intros v Hv. cbn. split; [done|]. split; [unfold intSize; tauto|unfold inS; lia]. }
  assert (HZ : forall b, cellNoZero (Some (KString (exStr b)))).
  { intros b. cbn. unfold SHORT_STR_LENGTH. lia. }
  unfold exBlock, exRows. cbn [zip_with].
  repeat apply Forall2_cons_2; try apply Forall2_nil_2; apply exRow_encodes;
    repeat first [apply Forall2_nil_2|apply Forall2_cons_2|apply Forall_nil_2|apply Forall_cons_2];
    first [unfold isByte; lia|apply HI; lia|apply HZ|exact I|reflexivity].
Qed.

Lemma order_by_blocks_sorted_witness :
  exists sorted rowss', finalize mergeSort exData exCols (replicate 4 []) [exBlock; []] = Ok sorted /\
    Forall2 (Forall2 (encodesRow true (tableStr exData) exCols)) rowss' sorted /\
    Forall (rowsSorted exCols) rowss' /\ mjoin rowss' ≡ₚ exRows.
Proof.
  apply (order_by_blocks_sorted mergeSort true exData exCols [exRows; []] [exBlock; []] (replicate 4 [])).
  - apply mergeSort_sorts.
  - apply Forall2_cons_2; [apply exBlock_encodes|].
    apply Forall2_cons_2; [apply Forall2_nil_2|apply Forall2_nil_2].
  - repeat constructor.
Defined.

(** On this block: the null first (descending), then the strings in descending order,
    and equal strings by the number. *)
Lemma exBlock_sorted :
  match finalize mergeSort exData exCols (replicate 4 []) [exBlock] with
  | Ok [block] => (fun t => getEncodedFTBlockOffset (drop 17 t)) <$> block
  | _ => []
  end = [1; 2; 3; 0]%Z.
Proof. vm_compute. reflexivity. Qed.
