(* ===== verification/KeyBlockMerger.v ===== *)
(** * Merging sorted key blocks (src/processor/operator/order_by/key_block_merger.cpp,
      src/include/processor/operator/order_by/key_block_merger.h)

    Sorted runs of encoded tuples are merged pairwise.  A merge task hands out morsels:
    a batch of the left run and the tuples of the right run that belong between them,
    found by binary search.  Threads merge morsels into disjoint parts of the result.
    A run is a list of data blocks of equal capacity; [BlockPtrInfo] walks through it,
    a pointer being a block and a tuple of the block.

    The theorems: the walk through the blocks merges the two ranges of a morsel into its
    part of the result and ends; the binary search finds the boundary; the morsels of a
    task cut both runs so that merging them in any order gives the merge of the whole
    runs; the comparison of tuples is the order of the rows when the last key column is
    a string or there is none, and no string is null, and is not otherwise. *)

From S2P Require Import Prelude Serializer OrderByKey Compare RadixSort OrderBySort.
From stdpp Require Import base list numbers sorting.
Local Open Scope nat_scope.

Local Abbreviation tuple := (list Z).

(** ** [MergedKeyBlocks] *)
Record MergedKeyBlocks : Type := mkMerged {
  numTuplesPerBlock : nat;
  numTuples : nat;
  keyBlocks : list (list tuple)
}.

(** The constructor with a number of tuples: zeroed blocks. *)
Definition newMergedKeyBlocks (numBytesPerTuple perBlock n : nat) : MergedKeyBlocks :=
  let numKeyBlocks := n / perBlock + (if n mod perBlock =? 0 then 0 else 1) in
  mkMerged perBlock n (replicate numKeyBlocks (replicate perBlock (replicate numBytesPerTuple 0%Z))).

(** The constructor from one key block, [n] tuples of it in use. *)
Definition ofKeyBlock (perBlock n : nat) (keyBlock : list tuple) : MergedKeyBlocks :=
  mkMerged perBlock n [keyBlock].

(** Pointers to tuples: a block and an index in it, or [nullptr]. *)
Inductive tuplePtr : Type :=
| nullptr
| At (block idx : nat).

#[global] Instance tuplePtr_eq_dec : EqDecision tuplePtr.
Proof. solve_decision. Defined.

Definition getTuplePtr (mb : MergedKeyBlocks) (tupleIdx : nat) : tuplePtr :=
  At (tupleIdx / numTuplesPerBlock mb) (tupleIdx mod numTuplesPerBlock mb).

Definition readTuple (mb : MergedKeyBlocks) (p : tuplePtr) : tuple :=
  match p with At b i => (keyBlocks mb !!! b) !!! i | nullptr => [] end.

Definition writeTuple (mb : MergedKeyBlocks) (p : tuplePtr) (t : tuple) : MergedKeyBlocks :=
  match p with
  | At b i => mkMerged (numTuplesPerBlock mb) (numTuples mb) (alter (fun block => <[i:=t]> block) b (keyBlocks mb))
  | nullptr => mb
  end.

(** [ptr + n * numBytesPerTuple] *)
Definition advance (p : tuplePtr) (n : nat) : tuplePtr :=
  match p with At b i => At b (i + n) | nullptr => nullptr end.

Definition getBlockEndTuplePtr (mb : MergedKeyBlocks) (blockIdx endTupleIdx endTupleBlockIdx : nat) : tuplePtr :=
  if endTupleIdx =? 0 then At 0 0
  else if blockIdx =? endTupleBlockIdx then advance (getTuplePtr mb (endTupleIdx - 1)) 1
  else At blockIdx (numTuplesPerBlock mb).

(** ** [BlockPtrInfo] *)
Record BlockPtrInfo : Type := mkPtrInfo {
  curTuplePtr : tuplePtr;
  curBlockIdx : nat;
  endBlockIdx : nat;
  curBlockEndTuplePtr : tuplePtr;
  endTuplePtr : tuplePtr;
  endTupleIdx : nat
}.

Definition newBlockPtrInfo (mb : MergedKeyBlocks) (startTupleIdx endIdx : nat) : BlockPtrInfo :=
  let curBlock := startTupleIdx / numTuplesPerBlock mb in
  let endBlock := if endIdx =? 0 then 0 else (endIdx - 1) / numTuplesPerBlock mb in
  if startTupleIdx =? endIdx then mkPtrInfo nullptr curBlock endBlock nullptr nullptr endIdx
  else mkPtrInfo (getTuplePtr mb startTupleIdx) curBlock endBlock
         (getBlockEndTuplePtr mb curBlock endIdx endBlock)
         (getBlockEndTuplePtr mb endBlock endIdx endBlock) endIdx.

Definition hasMoreTuplesToRead (p : BlockPtrInfo) : bool :=
  negb (bool_decide (curTuplePtr p = endTuplePtr p)).

(** [getNumTuplesLeftInCurBlock]: the distance of two pointers into a block. *)
Definition tuplesLeftInCurBlock (p : BlockPtrInfo) : nat :=
  match curBlockEndTuplePtr p, curTuplePtr p with At _ e, At _ i => e - i | _, _ => 0 end.

Definition updateTuplePtrIfNecessary (mb : MergedKeyBlocks) (p : BlockPtrInfo) : BlockPtrInfo :=
  if bool_decide (curTuplePtr p = curBlockEndTuplePtr p) then
    let b := curBlockIdx p + 1 in
    if b <=? endBlockIdx p then
      mkPtrInfo (At b 0) b (endBlockIdx p)
        (getBlockEndTuplePtr mb b (endTupleIdx p) (endBlockIdx p)) (endTuplePtr p) (endTupleIdx p)
    else mkPtrInfo (curTuplePtr p) b (endBlockIdx p) (curBlockEndTuplePtr p) (endTuplePtr p) (endTupleIdx p)
  else p.

(** [curTuplePtr += numBytesPerTuple] *)
Definition bump (p : BlockPtrInfo) : BlockPtrInfo :=
  mkPtrInfo (advance (curTuplePtr p) 1) (curBlockIdx p) (endBlockIdx p) (curBlockEndTuplePtr p)
    (endTuplePtr p) (endTupleIdx p).

(** ** [KeyBlockMerger] *)
Section merger.
(** [factorizedTables[ftIdx]->getData<ku_string_t>]: table, block index, block offset,
    column offset. *)
Context (getTableData : Z -> Z -> Z -> nat -> list Z).
Context (numBytesToCompare : nat) (strKeyColsInfo : list StrKeyColInfo).

Definition mergeTableStr (tupleInfo : list Z) (colOffset : nat) : list Z :=
  getTableData (getEncodedFTIdx tupleInfo) (getEncodedFTBlockIdx tupleInfo)
    (getEncodedFTBlockOffset tupleInfo) colOffset.

Definition mergeStrValue (col : StrKeyColInfo) (t : tuple) : list Z :=
  mergeTableStr (drop numBytesToCompare t) (colOffsetInFT col).

(** The loop of [compareTuplePtrWithStringCol]. *)
Fixpoint compareStrCols (cols : list StrKeyColInfo) (lastComparedBytes : nat) (left right : tuple) : bool :=
  match cols with
  | [] => false
  | col :: cols =>
      let off := colOffsetInEncodedKeyBlock col in
      let result := fieldCompare lastComparedBytes (off - lastComparedBytes + strEncodingSize) left right in
      if strIsNull col left && strIsNull col right
      then compareStrCols cols (off + strEncodingSize) left right
      else
        match result with
        | Eq =>
            let isLeftStrLong := strIsLong col left in
            let isRightStrLong := strIsLong col right in
            if negb isLeftStrLong && negb isRightStrLong
            then compareStrCols cols lastComparedBytes left right
            else if isLeftStrLong && negb isRightStrLong then strIsAsc col
            else if negb isLeftStrLong && isRightStrLong then negb (strIsAsc col)
            else
              let leftStr := mergeStrValue col left in
              let rightStr := mergeStrValue col right in
              if kuStringEq leftStr rightStr
              then compareStrCols cols (off + strEncodingSize) left right
              else eqb (strIsAsc col) (kuStringGreater leftStr rightStr)
        | Gt => true
        | Lt => false
        end
  end.

Definition compareTuplePtr (left right : tuple) : bool :=
  match strKeyColsInfo with
  | [] => match fieldCompare 0 numBytesToCompare left right with Gt => true | _ => false end
  | _ => compareStrCols strKeyColsInfo 0 left right
  end.
End merger.

(** The merge, for a comparison [gt] of tuples ([compareTuplePtr]). *)
Section merge.
Context (gt : tuple -> tuple -> bool).

(** The left, right and result walks, and the result. *)
Record mergeState : Type := mkMergeState {
  leftInfo : BlockPtrInfo;
  rightInfo : BlockPtrInfo;
  resultInfo : BlockPtrInfo;
  resultBlocks : MergedKeyBlocks
}.

Section walk.
Context (left right : MergedKeyBlocks).

(** The inner loop of [mergeKeyBlocks], [n] tuples. *)
Fixpoint mergeTuples (n : nat) (st : mergeState) : mergeState :=
  match n with
  | O => st
  | S n =>
      let l := readTuple left (curTuplePtr (leftInfo st)) in
      let r := readTuple right (curTuplePtr (rightInfo st)) in
      let out := curTuplePtr (resultInfo st) in
      mergeTuples n
        (if gt l r
         then mkMergeState (leftInfo st) (bump (rightInfo st)) (bump (resultInfo st))
                (writeTuple (resultBlocks st) out r)
         else mkMergeState (bump (leftInfo st)) (rightInfo st) (bump (resultInfo st))
                (writeTuple (resultBlocks st) out l))
  end.

Definition updateAll (st : mergeState) : mergeState :=
  mkMergeState (updateTuplePtrIfNecessary left (leftInfo st)) (updateTuplePtrIfNecessary right (rightInfo st))
    (updateTuplePtrIfNecessary (resultBlocks st) (resultInfo st)) (resultBlocks st).

(** The outer loop. *)
Fixpoint mergeLoop (fuel : nat) (st : mergeState) : outcome mergeState :=
  if hasMoreTuplesToRead (leftInfo st) && hasMoreTuplesToRead (rightInfo st) then
    match fuel with
    | O => Err Blocked
    | S fuel =>
        let n := Nat.min (Nat.min (tuplesLeftInCurBlock (leftInfo st)) (tuplesLeftInCurBlock (rightInfo st)))
                   (tuplesLeftInCurBlock (resultInfo st)) in
        mergeLoop fuel (updateAll (mergeTuples n st))
    end
  else Ok st.
End walk.

(** The inner loop of [copyRemainingBlockDataToResult]. *)
Fixpoint copyTuples (source : MergedKeyBlocks) (n : nat) (p out : BlockPtrInfo) (res : MergedKeyBlocks)
    : BlockPtrInfo * BlockPtrInfo * MergedKeyBlocks :=
  match n with
  | O => (p, out, res)
  | S n => copyTuples source n (bump p) (bump out) (writeTuple res (curTuplePtr out) (readTuple source (curTuplePtr p)))
  end.

Fixpoint copyRemainingBlockDataToResult (fuel : nat) (source : MergedKeyBlocks) (p out : BlockPtrInfo)
    (res : MergedKeyBlocks) : outcome (BlockPtrInfo * MergedKeyBlocks) :=
  if curBlockIdx p <=? endBlockIdx p then
    match fuel with
    | O => Err Blocked
    | S fuel =>
        let n := Nat.min (tuplesLeftInCurBlock p) (tuplesLeftInCurBlock out) in
        let '(p, out, res) := copyTuples source n p out res in
        copyRemainingBlockDataToResult fuel source (updateTuplePtrIfNecessary source p)
          (updateTuplePtrIfNecessary res out) res
    end
  else Ok (out, res).

(** ** Morsels *)
Record KeyBlockMergeMorsel : Type := mkMorsel {
  leftKeyBlockStartIdx : nat;
  leftKeyBlockEndIdx : nat;
  rightKeyBlockStartIdx : nat;
  rightKeyBlockEndIdx : nat
}.

Definition mergeKeyBlocks (fuel : nat) (left right : MergedKeyBlocks) (m : KeyBlockMergeMorsel) (res : MergedKeyBlocks)
    : outcome MergedKeyBlocks :=
  let* st := mergeLoop left right fuel
    (mkMergeState (newBlockPtrInfo left (leftKeyBlockStartIdx m) (leftKeyBlockEndIdx m))
       (newBlockPtrInfo right (rightKeyBlockStartIdx m) (rightKeyBlockEndIdx m))
       (newBlockPtrInfo res (leftKeyBlockStartIdx m + rightKeyBlockStartIdx m)
          (leftKeyBlockEndIdx m + rightKeyBlockEndIdx m)) res) in
  let* r := copyRemainingBlockDataToResult fuel right (rightInfo st) (resultInfo st) (resultBlocks st) in
  let* r := copyRemainingBlockDataToResult fuel left (leftInfo st) (fst r) (snd r) in
  Ok (snd r).

Definition batch_size : nat := 100 * 100.

Record KeyBlockMergeTask : Type := mkTask {
  leftKeyBlock : MergedKeyBlocks;
  rightKeyBlock : MergedKeyBlocks;
  leftKeyBlockNextIdx : nat;
  rightKeyBlockNextIdx : nat;
  activeMorsels : nat
}.

(** The loop of [findRightKeyBlockIdx]; [None] is [-1]. *)
Fixpoint findRightFrom (fuel : nat) (right : MergedKeyBlocks) (leftEnd : tuple) (startIdx endIdx : Z) : outcome (option nat) :=
  if (startIdx <=? endIdx)%Z then
    match fuel with
    | O => Err Blocked
    | S fuel =>
        let curTupleIdx := Z.to_nat ((startIdx + endIdx) / 2) in
        let tupleAt i := readTuple right (getTuplePtr right i) in
        if gt leftEnd (tupleAt curTupleIdx) then
          if (curTupleIdx =? numTuples right - 1) || negb (gt leftEnd (tupleAt (curTupleIdx + 1)))
          then Ok (Some curTupleIdx)
          else findRightFrom fuel right leftEnd (Z.of_nat curTupleIdx + 1) endIdx
        else findRightFrom fuel right leftEnd startIdx (Z.of_nat curTupleIdx - 1)
    end
  else Ok None.

Definition findRightKeyBlockIdx (task : KeyBlockMergeTask) (leftEnd : tuple) : outcome (option nat) :=
  findRightFrom (S (numTuples (rightKeyBlock task))) (rightKeyBlock task) leftEnd
    (Z.of_nat (rightKeyBlockNextIdx task)) (Z.of_nat (numTuples (rightKeyBlock task)) - 1).

(** [KeyBlockMergeTask::getMorsel], for any size of a batch. *)
Definition getMorsel (batch : nat) (task : KeyBlockMergeTask) : outcome (KeyBlockMergeMorsel * KeyBlockMergeTask) :=
  let nl := numTuples (leftKeyBlock task) in
  let nr := numTuples (rightKeyBlock task) in
  let active := activeMorsels task + 1 in
  let lStart := leftKeyBlockNextIdx task in
  let rStart := rightKeyBlockNextIdx task in
  if nr <=? rStart then
    Ok (mkMorsel lStart nl nr nr, mkTask (leftKeyBlock task) (rightKeyBlock task) nl rStart active)
  else
    let lNext := lStart + batch in
    if nl <=? lNext then
      Ok (mkMorsel lStart (Nat.min lNext nl) rStart nr,
          mkTask (leftKeyBlock task) (rightKeyBlock task) lNext nr active)
    else
      let leftEnd := readTuple (leftKeyBlock task) (getTuplePtr (leftKeyBlock task) (lNext - 1)) in
      let* rightEndIdx := findRightKeyBlockIdx task leftEnd in
      match rightEndIdx with
      | None =>
          Ok (mkMorsel lStart (Nat.min lNext nl) rStart rStart,
              mkTask (leftKeyBlock task) (rightKeyBlock task) lNext rStart active)
      | Some e =>
          Ok (mkMorsel lStart (Nat.min lNext nl) rStart (e + 1),
              mkTask (leftKeyBlock task) (rightKeyBlock task) lNext (e + 1) active)
      end.

Definition hasMorselLeft (task : KeyBlockMergeTask) : bool :=
  (leftKeyBlockNextIdx task <? numTuples (leftKeyBlock task)) ||
  (rightKeyBlockNextIdx task <? numTuples (rightKeyBlock task)).

End merge.

(** ** Blocks as one list *)
Definition flat (mb : MergedKeyBlocks) : list tuple := mjoin (keyBlocks mb).

Record blocksOK (mb : MergedKeyBlocks) : Prop := {
  bo_per : 0 < numTuplesPerBlock mb;
  bo_blocks : Forall (fun b => length b = numTuplesPerBlock mb) (keyBlocks mb);
  bo_num : numTuples mb <= length (flat mb)
}.

Definition tuplesOf (mb : MergedKeyBlocks) : list tuple := take (numTuples mb) (flat mb).

Lemma mjoin_lookup per (blocks : list (list tuple)) b i :
  Forall (fun bl => length bl = per) blocks -> i < per ->
  mjoin blocks !! (b * per + i) = blocks !! b ≫= (.!! i).
Proof.
  intros HF Hi. revert b. induction HF as [|bl blocks Hl HF IH]; intros b; [by destruct b|].
  change (mjoin (bl :: blocks)) with (bl ++ mjoin blocks). destruct b as [|b]; cbn [Nat.mul].
  - cbn. rewrite lookup_app_l by lia. done.
  - rewrite lookup_app_r by lia. replace (per + b * per + i - length bl) with (b * per + i) by lia. apply IH.
Qed.

Lemma mjoin_alter per (blocks : list (list tuple)) b i t :
  Forall (fun bl => length bl = per) blocks -> i < per ->
  mjoin (alter (fun bl => <[i:=t]> bl) b blocks) = <[b * per + i := t]> (mjoin blocks).
Proof.
  intros HF Hi. revert b. induction HF as [|bl blocks Hl HF IH]; intros b; [by destruct b|].
  destruct b as [|b]; cbn [Nat.mul].
  - change (<[i:=t]> bl ++ mjoin blocks = <[0 + i:=t]> (bl ++ mjoin blocks)).
    rewrite insert_app_l by lia. done.
  - change (bl ++ mjoin (alter (fun bl => <[i:=t]> bl) b blocks) = <[per + b * per + i:=t]> (bl ++ mjoin blocks)).
    rewrite IH, insert_app_r_alt by lia. f_equal. f_equal. lia.
Qed.

Lemma readTuple_flat mb b i :
  blocksOK mb -> i < numTuplesPerBlock mb ->
  readTuple mb (At b i) = flat mb !!! (b * numTuplesPerBlock mb + i).
Proof.
  intros [_ HB _] Hi. cbn [readTuple]. unfold flat. rewrite !list_lookup_total_alt.
  rewrite (mjoin_lookup (numTuplesPerBlock mb)) by done.
  by destruct (keyBlocks mb !! b) as [bl|].
Qed.

Lemma readTuple_index mb k :
  blocksOK mb -> readTuple mb (getTuplePtr mb k) = flat mb !!! k.
Proof.
  intros H. unfold getTuplePtr. pose proof (bo_per _ H).
  rewrite readTuple_flat by (done || apply Nat.mod_upper_bound; lia).
  f_equal. pose proof (Nat.div_mod_eq k (numTuplesPerBlock mb)). lia.
Qed.

Lemma writeTuple_flat mb b i t :
  blocksOK mb -> i < numTuplesPerBlock mb ->
  flat (writeTuple mb (At b i) t) = <[b * numTuplesPerBlock mb + i := t]> (flat mb).
Proof. intros [_ HB _] Hi. by apply mjoin_alter. Qed.

Lemma writeTuple_ok mb p t : blocksOK mb -> blocksOK (writeTuple mb p t).
Proof.
  intros H. destruct p as [|b i]; [done|]. destruct H as [Hp HB Hn]. split; cbn; [done| |].
  - clear Hn. revert b. induction HB as [|bl blocks Hl HB IH]; intros b; [by destruct b|].
    destruct b as [|b]; (constructor; [|]); [by rewrite length_insert|done|done|apply IH].
  - destruct (decide (i < numTuplesPerBlock mb)) as [Hi|Hi].
    + unfold flat in *. cbn. rewrite (mjoin_alter (numTuplesPerBlock mb)) by done. by rewrite length_insert.
    + unfold flat in *. cbn. eapply Nat.le_trans; [exact Hn|]. apply Nat.eq_le_incl.
      clear Hn. revert b. induction HB as [|bl blocks Hl HB IH]; intros b; [by destruct b|].
      destruct b as [|b]; cbn; rewrite !length_app; [by rewrite length_insert|]. f_equal. apply IH.
Qed.

(** ** The walk through the blocks *)
Section walks.
Context (per : nat) (Hper : 0 < per).

Definition lastBlock (e : nat) : nat := (e - 1) / per.
Definition blockEnd (e b : nat) : nat := Nat.min e (S b * per).

(** At tuple [k] in block [b], up to tuple [e]. *)
Definition inBlock (e b k : nat) : BlockPtrInfo :=
  mkPtrInfo (At b (k - b * per)) b (lastBlock e) (At b (blockEnd e b - b * per))
    (At (lastBlock e) (e - lastBlock e * per)) e.

Definition finished (p : BlockPtrInfo) : Prop :=
  curTuplePtr p = endTuplePtr p /\ curTuplePtr p = curBlockEndTuplePtr p /\ endBlockIdx p <= curBlockIdx p.

(** The walk stands at tuple [k]. *)
Definition walk (e k : nat) (p : BlockPtrInfo) : Prop :=
  (k < e /\ p = inBlock e (k / per) k) \/ (k = e /\ finished p).

(** It stands in block [b] with at least [n] tuples before the block's end. *)
Definition within (e b k n : nat) : Prop := b <= lastBlock e /\ b * per <= k /\ k + n <= blockEnd e b.

Lemma lastBlock_spec e : 0 < e -> lastBlock e * per < e <= S (lastBlock e) * per.
Proof using Hper.
  intros He. unfold lastBlock. pose proof (Nat.div_mod_eq (e - 1) per).
  pose proof (Nat.mod_upper_bound (e - 1) per ltac:(lia)). cbn. nia.
Qed.

Lemma div_block b k : b * per <= k < S b * per -> k / per = b.
Proof using Hper. intros H. symmetry. apply (Nat.div_unique k per b (k - b * per)); cbn in *; lia. Qed.

Lemma lastBlock_lt e b : b < lastBlock e -> S b * per < e.
Proof using Hper.
  intros Hb. destruct (decide (e = 0)) as [->|He]; [unfold lastBlock in Hb; cbn in Hb; rewrite Nat.Div0.div_0_l in Hb; lia|].
  pose proof (lastBlock_spec e ltac:(lia)). nia.
Qed.

Lemma div_lastBlock e k : k < e -> k / per <= lastBlock e.
Proof using Hper. intros Hk. apply Nat.Div0.div_le_mono. lia. Qed.

Lemma div_bounds k : k / per * per <= k < S (k / per) * per.
Proof using Hper.
  pose proof (Nat.div_mod_eq k per). pose proof (Nat.mod_upper_bound k per ltac:(lia)). cbn. lia.
Qed.

Lemma blockEndPtr mb e b :
  numTuplesPerBlock mb = per -> 0 < e -> b <= lastBlock e ->
  getBlockEndTuplePtr mb b e (lastBlock e) = At b (blockEnd e b - b * per).
Proof using Hper.
  intros Hp He Hb. unfold getBlockEndTuplePtr, blockEnd. rewrite (proj2 (Nat.eqb_neq _ _)) by lia.
  pose proof (lastBlock_spec e He) as Hl. rewrite Hp. destruct (Nat.eqb_spec b (lastBlock e)) as [->|Hne].
  - unfold getTuplePtr, advance. rewrite Hp. fold (lastBlock e). f_equal.
    pose proof (Nat.div_mod_eq (e - 1) per) as Hd. fold (lastBlock e) in Hd. lia.
  - f_equal. pose proof (lastBlock_lt e b ltac:(lia)). cbn in *. lia.
Qed.

Lemma newBlockPtrInfo_walk mb s e :
  numTuplesPerBlock mb = per -> s <= e -> walk e s (newBlockPtrInfo mb s e).
Proof using Hper.
  intros Hp Hs. unfold newBlockPtrInfo. rewrite Hp. destruct (Nat.eqb_spec s e) as [->|Hne].
  - right. split; [done|]. unfold finished. cbn. split; [done|]. split; [done|].
    destruct (Nat.eqb_spec e 0); [lia|]. apply Nat.Div0.div_le_mono. lia.
  - left. split; [lia|]. rewrite (proj2 (Nat.eqb_neq e 0)) by lia. fold (lastBlock e).
    rewrite !blockEndPtr by (done || lia || apply div_lastBlock; lia).
    unfold inBlock. f_equal; unfold getTuplePtr; rewrite ?Hp; f_equal.
    + pose proof (Nat.div_mod_eq s per). lia.
    + unfold blockEnd. pose proof (lastBlock_spec e ltac:(lia)). lia.
Qed.

Lemma walk_within e k : k < e -> within e (k / per) k (blockEnd e (k / per) - k) /\ 0 < blockEnd e (k / per) - k.
Proof using Hper.
  intros Hk. pose proof (div_bounds k) as Hd. pose proof (div_lastBlock e k Hk).
  unfold within, blockEnd in *. cbn in *. lia.
Qed.

Lemma tuplesLeft_inBlock e b k n : within e b k n -> tuplesLeftInCurBlock (inBlock e b k) = blockEnd e b - k.
Proof using Hper. intros (H1 & H2 & H3). cbn. unfold blockEnd in *. cbn in *. lia. Qed.

Lemma bump_inBlock e b k n : within e b k (S n) -> bump (inBlock e b k) = inBlock e b (S k) /\ within e b (S k) n.
Proof using Hper.
  intros (H1 & H2 & H3). split; [|unfold within; lia]. unfold bump, inBlock. cbn. f_equal. f_equal. lia.
Qed.

Lemma update_inBlock mb e b k :
  numTuplesPerBlock mb = per -> 0 < e -> within e b k 0 ->
  walk e k (updateTuplePtrIfNecessary mb (inBlock e b k)).
Proof using Hper.
  intros Hp He (H1 & H2 & H3). pose proof (lastBlock_spec e He) as Hl.
  assert (Hbe : b * per < blockEnd e b).
  { unfold blockEnd. assert (b * per <= lastBlock e * per) by (apply Nat.mul_le_mono_r; done). cbn in *. lia. }
  unfold updateTuplePtrIfNecessary. cbn [curTuplePtr curBlockEndTuplePtr curBlockIdx endBlockIdx inBlock endTupleIdx].
  destruct (bool_decide (At b (k - b * per) = At b (blockEnd e b - b * per))) eqn:Eb.
  - apply bool_decide_eq_true in Eb. injection Eb as Eb. assert (k = blockEnd e b) as Ek by lia.
    destruct (Nat.leb_spec (b + 1) (lastBlock e)) as [Hlb|Hlb].
    + pose proof (lastBlock_lt e b ltac:(lia)) as Hlt. assert (Hk : k = S b * per) by (unfold blockEnd in Ek; lia).
      left. split; [lia|]. rewrite blockEndPtr by (done || lia).
      rewrite (div_block (S b) k) by (cbn in *; lia). unfold inBlock. rewrite Nat.add_1_r. f_equal. f_equal. lia.
    + assert (b = lastBlock e) as -> by lia. right. assert (Ee : blockEnd e (lastBlock e) = e) by (unfold blockEnd; lia).
      split; [lia|]. unfold finished. cbn. rewrite Ek, Ee. split; [done|]. split; [done|lia].
  - apply bool_decide_eq_false in Eb. left. assert (k <> blockEnd e b) by (intros ->; done).
    unfold blockEnd in *. split; [lia|]. by rewrite (div_block b k) by (cbn in *; lia).
Qed.

Lemma update_finished mb p : finished p -> finished (updateTuplePtrIfNecessary mb p) /\
  endBlockIdx (updateTuplePtrIfNecessary mb p) < curBlockIdx (updateTuplePtrIfNecessary mb p).
Proof using Hper.
  intros (H1 & H2 & H3). unfold updateTuplePtrIfNecessary. rewrite bool_decide_eq_true_2 by done.
  rewrite (proj2 (Nat.leb_gt _ _)) by lia. unfold finished. cbn. split; [|lia]. split; [done|]. split; [done|lia].
Qed.

Lemma hasMore_walk e k p : walk e k p -> hasMoreTuplesToRead p = (k <? e).
Proof using Hper.
  unfold hasMoreTuplesToRead. intros [[Hk ->]|[-> (H1 & _)]].
  - rewrite (proj2 (Nat.ltb_lt _ _)) by done. cbn [curTuplePtr endTuplePtr inBlock].
    rewrite bool_decide_eq_false_2; [done|]. intros [= E1 E2].
    pose proof (lastBlock_spec e ltac:(lia)). pose proof (div_bounds k). rewrite E1 in *. lia.
  - rewrite bool_decide_eq_true_2 by done. by rewrite Nat.ltb_irrefl.
Qed.
End walks.

(** ** Merging ranges *)
Fixpoint mergeLists (gt : tuple -> tuple -> bool) (l : list tuple) : list tuple -> list tuple :=
  fix go (r : list tuple) : list tuple :=
    match l, r with
    | [], _ => r
    | _, [] => l
    | x :: l', y :: r' => if gt x y then y :: go r' else x :: mergeLists gt l' r
    end.

Definition slice (l : list tuple) (i e : nat) : list tuple := take (e - i) (drop i l).

Lemma slice_nil l i : slice l i i = [].
Proof. unfold slice. by rewrite Nat.sub_diag. Qed.

Lemma slice_cons l i e : i < e -> e <= length l -> slice l i e = l !!! i :: slice l (S i) e.
Proof.
  intros Hi He. unfold slice. replace (e - i) with (S (e - S i)) by lia.
  rewrite (drop_S l (l !!! i)) by (apply list_lookup_lookup_total_lt; lia). done.
Qed.

Lemma length_slice l i e : e <= length l -> length (slice l i e) = e - i.
Proof. intros. unfold slice. rewrite length_take, length_drop. lia. Qed.

Lemma mergeLists_nil_r gt l : mergeLists gt l [] = l.
Proof. by destruct l. Qed.

Lemma mergeLists_nil_l gt r : mergeLists gt [] r = r.
Proof. by destruct r. Qed.

Lemma mergeLists_cons gt x l y r :
  mergeLists gt (x :: l) (y :: r) =
    if gt x y then y :: mergeLists gt (x :: l) r else x :: mergeLists gt l (y :: r).
Proof. done. Qed.

(** The result [F] is [F0] with [out] written from [s] to [k]. *)
Definition written (F0 : list tuple) (s k : nat) (out F : list tuple) : Prop :=
  F = take s F0 ++ out ++ drop k F0 /\ length out = k - s /\ s <= k <= length F0.

Lemma written_start F0 s : s <= length F0 -> written F0 s s [] F0.
Proof. intros. unfold written. rewrite Nat.sub_diag. cbn. by rewrite take_drop. Qed.

Lemma written_step F0 s k out F t :
  written F0 s k out F -> k < length F0 -> written F0 s (S k) (out ++ [t]) (<[k := t]> F).
Proof.
  intros (-> & Hl & Hs & Hk) Hk'. split; [|split; [rewrite length_app; cbn; lia|lia]].
  rewrite app_assoc, insert_app_r_alt by (rewrite length_app, length_take; lia).
  rewrite length_app, length_take, Hl. replace (k - (Nat.min s (length F0) + (k - s))) with 0 by lia.
  destruct (drop k F0) as [|u rest] eqn:E.
  - apply (f_equal length) in E. rewrite length_drop in E. cbn in E. lia.
  - rewrite <- !app_assoc. f_equal. f_equal. cbn. f_equal.
    rewrite <- Nat.add_1_r, <- drop_drop, E. done.
Qed.

Lemma within_lt per e b k n : within per e b k (S n) -> k < e.
Proof. intros (_ & _ & H). unfold blockEnd in H. lia. Qed.

Lemma within_le per e b k n m : within per e b k n -> m <= n -> within per e b k m.
Proof. unfold within. lia. Qed.

Lemma within_offset per e b k n : within per e b k (S n) -> k - b * per < per /\ b * per + (k - b * per) = k.
Proof. intros (_ & H & H'). unfold blockEnd in H'. cbn in H'. lia. Qed.

(** Reading and writing at the walk. *)
Lemma read_walk mb e b k n :
  blocksOK mb -> within (numTuplesPerBlock mb) e b k (S n) ->
  readTuple mb (curTuplePtr (inBlock (numTuplesPerBlock mb) e b k)) = flat mb !!! k.
Proof.
  intros Hb Hw. destruct (within_offset _ _ _ _ _ Hw) as [H1 H2]. cbn [curTuplePtr inBlock].
  by rewrite readTuple_flat, H2.
Qed.

Lemma write_walk mb F0 s e b k n out t :
  blocksOK mb -> within (numTuplesPerBlock mb) e b k (S n) -> e <= length F0 ->
  written F0 s k out (flat mb) ->
  let mb' := writeTuple mb (curTuplePtr (inBlock (numTuplesPerBlock mb) e b k)) t in
  written F0 s (S k) (out ++ [t]) (flat mb') /\ blocksOK mb' /\
  numTuplesPerBlock mb' = numTuplesPerBlock mb /\ numTuples mb' = numTuples mb.
Proof.
  intros Hb Hw He HW. destruct (within_offset _ _ _ _ _ Hw) as [H1 H2]. cbn [curTuplePtr inBlock].
  split; [|split; [by apply writeTuple_ok|done]]. cbv zeta. rewrite writeTuple_flat, H2 by done.
  apply written_step; [done|]. apply within_lt in Hw. lia.
Qed.

Lemma walk_split per e k p : 0 < per ->
  walk per e k p -> k < e -> p = inBlock per e (k / per) k /\
    within per e (k / per) k (tuplesLeftInCurBlock p) /\ 0 < tuplesLeftInCurBlock p.
Proof.
  intros Hp [[_ ->]|[-> _]] Hk; [|lia]. destruct (walk_within per Hp e k Hk) as [HW H0].
  rewrite (tuplesLeft_inBlock per Hp _ _ _ _ HW). done.
Qed.

Lemma update_walk mb e k p :
  blocksOK mb -> walk (numTuplesPerBlock mb) e k p ->
  walk (numTuplesPerBlock mb) e k (updateTuplePtrIfNecessary mb p).
Proof.
  intros Hb Hw. pose proof (bo_per _ Hb) as Hp. destruct Hw as [[Hk ->]|[-> Hf]].
  - destruct (walk_within _ Hp e k Hk) as [HW _].
    apply update_inBlock; [done|done|lia|]. eapply within_le; [exact HW|lia].
  - right. split; [done|]. exact (proj1 (update_finished _ Hp mb p Hf)).
Qed.

(** Copying the rest of one range: the walk [p] of [mb] is at [i], up to [e]. *)
Lemma copyTuples_ok mb F0 s e oe n : forall i k b bo out res,
  blocksOK mb -> blocksOK res -> e <= numTuples mb -> oe <= length F0 ->
  within (numTuplesPerBlock mb) e b i n -> within (numTuplesPerBlock res) oe bo k n ->
  written F0 s k out (flat res) ->
  exists res', copyTuples mb n (inBlock (numTuplesPerBlock mb) e b i) (inBlock (numTuplesPerBlock res) oe bo k) res =
      (inBlock (numTuplesPerBlock mb) e b (i + n), inBlock (numTuplesPerBlock res) oe bo (k + n), res') /\
    written F0 s (k + n) (out ++ slice (flat mb) i (i + n)) (flat res') /\ blocksOK res' /\
    numTuplesPerBlock res' = numTuplesPerBlock res /\ numTuples res' = numTuples res /\
    within (numTuplesPerBlock mb) e b (i + n) 0 /\ within (numTuplesPerBlock res) oe bo (k + n) 0.
Proof.
  induction n as [|n IH]; intros i k b bo out res Hmb Hres He Ho W Wo HW.
  { exists res. rewrite !Nat.add_0_r, slice_nil, app_nil_r. done. }
  cbn [copyTuples]. rewrite (read_walk mb e b i n) by done.
  destruct (bump_inBlock _ (bo_per _ Hmb) _ _ _ _ W) as [Bl W'].
  destruct (bump_inBlock _ (bo_per _ Hres) _ _ _ _ Wo) as [Bo Wo'].
  destruct (write_walk res F0 s oe bo k n out (flat mb !!! i)) as (HW' & Hres' & Hper' & Hnum'); [done..|].
  rewrite Bl, Bo. set (res1 := writeTuple res _ _) in *. rewrite <- Hper' in Wo' |- *.
  destruct (IH (S i) (S k) b bo _ res1 Hmb Hres' He Ho W' Wo' HW') as (res' & E & HW2 & Hr & Hp & Hn & R1 & R2).
  exists res'. replace (i + S n) with (S i + n) by lia. replace (k + S n) with (S k + n) by lia.
  rewrite Hp, Hn. split; [done|]. split; [|done].
  rewrite (slice_cons (flat mb) i (S i + n)); [by rewrite <- app_assoc in HW2|lia|].
  apply within_lt in W as Hi. pose proof (bo_num _ Hmb). unfold within, blockEnd in R1. lia.
Qed.

Lemma copyRemaining_ok mb F0 s e oe fuel : forall i k p po out res,
  blocksOK mb -> blocksOK res -> e <= numTuples mb -> oe <= length F0 ->
  walk (numTuplesPerBlock mb) e i p -> walk (numTuplesPerBlock res) oe k po ->
  i <= e -> k + (e - i) <= oe -> e - i < fuel -> written F0 s k out (flat res) ->
  exists po' res', copyRemainingBlockDataToResult fuel mb p po res = Ok (po', res') /\
    written F0 s (k + (e - i)) (out ++ slice (flat mb) i e) (flat res') /\ blocksOK res' /\
    walk (numTuplesPerBlock res) oe (k + (e - i)) po' /\
    numTuplesPerBlock res' = numTuplesPerBlock res /\ numTuples res' = numTuples res.
Proof.
  induction fuel as [|fuel IH]; intros i k p po out res Hmb Hres He Ho W Wo Hi Hk Hf HW; [lia|].
  pose proof (bo_per _ Hmb) as Hp. pose proof (bo_per _ Hres) as Hpr. cbn [copyRemainingBlockDataToResult].
  destruct (decide (i < e)) as [Hlt|Hge].
  - destruct (walk_split _ _ _ _ Hp W Hlt) as (Ep & Wn & H0).
    destruct (walk_split _ _ _ _ Hpr Wo ltac:(lia)) as (Eo & Won & Ho0).
    set (n := Nat.min (tuplesLeftInCurBlock p) (tuplesLeftInCurBlock po)).
    destruct (copyTuples_ok mb F0 s e oe n i k (i / numTuplesPerBlock mb) (k / numTuplesPerBlock res) out res)
      as (res1 & E & HW1 & Hres1 & Hp1 & Hn1 & R1 & R2);
      [done|done|done|done|eapply within_le; [exact Wn|lia]|eapply within_le; [exact Won|lia]|done|].
    assert (Hn : 0 < n) by lia.
    assert (Hc : (curBlockIdx p <=? endBlockIdx p) = true) by (rewrite Ep; by apply Nat.leb_le, div_lastBlock).
    rewrite Hc. cbv zeta. fold n. clearbody n. rewrite Ep, Eo, E. rewrite <- Hp1 in R2 |- *.
    assert (Hie : i + n <= e) by (unfold within, blockEnd in R1; lia).
    destruct (IH (i + n) (k + n) (updateTuplePtrIfNecessary mb (inBlock (numTuplesPerBlock mb) e (i / numTuplesPerBlock mb) (i + n)))
      (updateTuplePtrIfNecessary res1 (inBlock (numTuplesPerBlock res1) oe (k / numTuplesPerBlock res1) (k + n)))
      (out ++ slice (flat mb) i (i + n)) res1) as (po' & res' & E' & HW' & Hres' & Wo' & Hp' & Hn');
      [done|done|done|done|apply update_inBlock; [done|done|lia|done]| |lia|lia|lia|done|].
    { apply update_inBlock; [by rewrite Hp1|done|lia|done]. }
    exists po', res'. rewrite <- app_assoc in HW'.
    replace (slice (flat mb) i (i + n) ++ slice (flat mb) (i + n) e) with (slice (flat mb) i e) in HW'.
    2: { unfold slice. replace (e - i) with ((i + n - i) + (e - (i + n))) by lia.
         rewrite <- take_take_drop, drop_drop. f_equal. f_equal. f_equal. lia. }
    replace (k + (e - i)) with (k + n + (e - (i + n))) by lia.
    split; [done|]. split; [done|]. split; [done|]. split; [done|]. split; congruence.
  - assert (i = e) as -> by lia. rewrite Nat.sub_diag, Nat.add_0_r, slice_nil, app_nil_r.
    destruct W as [[? _]|[_ Hfin]]; [lia|].
    destruct (Nat.leb_spec (curBlockIdx p) (endBlockIdx p)) as [Hc|Hc].
    + assert (E0 : tuplesLeftInCurBlock p = 0).
      { destruct Hfin as (_ & E & _). unfold tuplesLeftInCurBlock. rewrite <- E. destruct (curTuplePtr p); lia. }
      rewrite E0. cbn [Nat.min copyTuples]. destruct (update_finished _ Hp mb p Hfin) as [Hfin' Hlt].
      destruct fuel as [|fuel]; cbn [copyRemainingBlockDataToResult];
        rewrite (proj2 (Nat.leb_gt _ _)) by done; eexists _, res; (split; [reflexivity|]); (split; [done|]);
        (split; [done|]); (split; [by apply update_walk|done]).
    + by exists po, res.
Qed.

Section ranges.
Context (gt : tuple -> tuple -> bool) (left right : MergedKeyBlocks).
Context (Hleft : blocksOK left) (Hright : blocksOK right).
Local Abbreviation lper := (numTuplesPerBlock left).
Local Abbreviation rper := (numTuplesPerBlock right).
Context (ls le rs re : nat) (Hle : le <= numTuples left) (Hre : re <= numTuples right).

Lemma left_len : le <= length (flat left).
Proof using Hleft Hle. eapply Nat.le_trans; [exact Hle|apply bo_num, Hleft]. Qed.

Lemma right_len : re <= length (flat right).
Proof using Hright Hre. eapply Nat.le_trans; [exact Hre|apply bo_num, Hright]. Qed.

(** What remains to be merged when the walks stand at [i] and [j]. *)
Definition remaining (i j : nat) : list tuple :=
  mergeLists gt (slice (flat left) i le) (slice (flat right) j re).

(** The state of the merge: [out] is written, and what is left to write is what the
    merge of the remaining ranges gives. *)
Record mergeInv (F0 : list tuple) (per num i j : nat) (out : list tuple) (res : MergedKeyBlocks) : Prop := {
  mi_res : blocksOK res;
  mi_per : numTuplesPerBlock res = per;
  mi_num : numTuples res = num;
  mi_written : written F0 (ls + rs) (i + j) out (flat res);
  mi_merge : remaining ls rs = out ++ remaining i j
}.

Lemma mergeTuples_ok F0 per num n : forall i j bl br bo out res,
  le + re <= length F0 -> mergeInv F0 per num i j out res ->
  within lper le bl i n -> within rper re br j n -> within per (le + re) bo (i + j) n ->
  exists i' j' out' res', mergeTuples gt left right n
      (mkMergeState (inBlock lper le bl i) (inBlock rper re br j) (inBlock per (le + re) bo (i + j)) res) =
      mkMergeState (inBlock lper le bl i') (inBlock rper re br j') (inBlock per (le + re) bo (i' + j')) res' /\
    i' + j' = i + j + n /\ mergeInv F0 per num i' j' out' res' /\
    within lper le bl i' 0 /\ within rper re br j' 0 /\ within per (le + re) bo (i' + j') 0.
Proof using Hleft Hright Hle Hre.
  induction n as [|n IH]; intros i j bl br bo out res HF HI Wl Wr Wo.
  { exists i, j, out, res. split; [done|]. split; [lia|done]. }
  destruct HI as [Hres Hper Hnum HW HM]. cbn [mergeTuples leftInfo rightInfo resultInfo resultBlocks].
  rewrite (read_walk left le bl i n), (read_walk right re br j n) by done.
  pose proof (within_lt _ _ _ _ _ Wl) as Hi. pose proof (within_lt _ _ _ _ _ Wr) as Hj.
  destruct (bump_inBlock lper (bo_per _ Hleft) _ _ _ _ Wl) as [Bl Wl'].
  destruct (bump_inBlock rper (bo_per _ Hright) _ _ _ _ Wr) as [Br Wr'].
  assert (Hp0 : 0 < per) by (rewrite <- Hper; apply bo_per; done).
  destruct (bump_inBlock per Hp0 _ _ _ _ Wo) as [Bo Wo'].
  assert (Hstep : remaining i j = if gt (flat left !!! i) (flat right !!! j)
    then (flat right !!! j) :: remaining i (S j) else (flat left !!! i) :: remaining (S i) j).
  { unfold remaining at 1. rewrite (slice_cons (flat left) i le), (slice_cons (flat right) j re)
      by (done || apply left_len || apply right_len). rewrite mergeLists_cons. unfold remaining.
    rewrite (slice_cons (flat left) i le) at 1 by (done || apply left_len).
    by rewrite (slice_cons (flat right) j re) at 1 by (done || apply right_len). }
  subst per. rewrite Bo.
  destruct (gt _ _).
  - destruct (write_walk res F0 (ls + rs) (le + re) bo (i + j) n out (flat right !!! j)) as (HW' & Hres' & Hper' & Hnum');
      [done..|].
    rewrite Br. replace (S (i + j)) with (i + S j) in * by lia.
    destruct (IH i (S j) bl br bo _ _ HF ltac:(split; [exact Hres'|exact Hper'|congruence|exact HW'|by rewrite <- app_assoc, HM, Hstep])
      (within_le _ _ _ _ _ n Wl ltac:(lia)) Wr' Wo') as (i' & j' & out' & res' & E & Es & R).
    exists i', j', out', res'. split; [exact E|]. split; [lia|done].
  - destruct (write_walk res F0 (ls + rs) (le + re) bo (i + j) n out (flat left !!! i)) as (HW' & Hres' & Hper' & Hnum');
      [done..|].
    rewrite Bl. change (S (i + j)) with (S i + j) in *.
    destruct (IH (S i) j bl br bo _ _ HF ltac:(split; [exact Hres'|exact Hper'|congruence|exact HW'|by rewrite <- app_assoc, HM, Hstep])
      Wl' (within_le _ _ _ _ _ n Wr ltac:(lia)) Wo') as (i' & j' & out' & res' & E & Es & R).
    exists i', j', out', res'. split; [exact E|]. split; [lia|done].
Qed.

Lemma mergeLoop_ok F0 per num fuel : forall i j out li ri oi res,
  le + re <= length F0 -> mergeInv F0 per num i j out res -> 0 < per ->
  walk lper le i li -> walk rper re j ri -> walk per (le + re) (i + j) oi ->
  i <= le -> j <= re -> (le - i) + (re - j) <= fuel ->
  exists i' j' out' st, mergeLoop gt left right fuel (mkMergeState li ri oi res) = Ok st /\
    (i' = le \/ j' = re) /\ i' <= le /\ j' <= re /\ mergeInv F0 per num i' j' out' (resultBlocks st) /\
    walk lper le i' (leftInfo st) /\ walk rper re j' (rightInfo st) /\
    walk per (le + re) (i' + j') (resultInfo st).
Proof using Hleft Hright Hle Hre.
  pose proof (bo_per _ Hleft) as Hlp. pose proof (bo_per _ Hright) as Hrp.
  induction fuel as [|fuel IH]; intros i j out li ri oi res HF HI Hp Wl Wr Wo Hi Hj Hf;
    cbn [mergeLoop leftInfo rightInfo];
    rewrite (hasMore_walk lper Hlp _ _ _ Wl), (hasMore_walk rper Hrp _ _ _ Wr);
    destruct (Nat.ltb_spec i le) as [Hil|Hil]; cbn [andb]; try (exists i, j, out; eexists; split; [reflexivity|]);
    try (split; [lia|done]); destruct (Nat.ltb_spec j re) as [Hjr|Hjr];
    try (exists i, j, out; eexists; split; [reflexivity|]); try (split; [lia|done]); [lia|].
  destruct (walk_split _ _ _ _ Hlp Wl Hil) as (El & Wl1 & L0).
  destruct (walk_split _ _ _ _ Hrp Wr Hjr) as (Er & Wr1 & R0).
  destruct (walk_split _ _ _ _ Hp Wo ltac:(lia)) as (Eo & Wo1 & O0).
  cbn [resultInfo]. set (n := Nat.min _ _). assert (Hn : 0 < n) by lia.
  destruct (mergeTuples_ok F0 per num n i j (i / lper) (j / rper) ((i + j) / per) out res)
    as (i' & j' & out' & res' & E & Es & HI' & Wl2 & Wr2 & Wo2);
    [done|done|eapply within_le; [exact Wl1|lia]|eapply within_le; [exact Wr1|lia]|eapply within_le; [exact Wo1|lia]|].
  clearbody n. rewrite El, Er, Eo, E. unfold updateAll. cbn [leftInfo rightInfo resultInfo resultBlocks].
  assert (Hi' : i' <= le) by (unfold within, blockEnd in Wl2; lia).
  assert (Hj' : j' <= re) by (unfold within, blockEnd in Wr2; lia).
  apply (IH i' j' out'); [done|done|done|..|done|done|lia].
  - apply update_inBlock; [done|done|lia|done].
  - apply update_inBlock; [done|done|lia|done].
  - apply update_inBlock; [done|by apply (mi_per _ _ _ _ _ _ _ HI')|lia|done].
Qed.

(** A morsel's part of the result is the merge of its ranges; the rest is untouched. *)
Lemma mergeKeyBlocks_ok fuel res :
  blocksOK res -> ls <= le -> rs <= re -> le + re <= length (flat res) ->
  (le - ls) + (re - rs) < fuel ->
  exists res', mergeKeyBlocks gt fuel left right (mkMorsel ls le rs re) res = Ok res' /\
    written (flat res) (ls + rs) (le + re) (remaining ls rs) (flat res') /\ blocksOK res' /\
    numTuplesPerBlock res' = numTuplesPerBlock res /\ numTuples res' = numTuples res.
Proof using Hleft Hright Hle Hre.
  intros Hres Hl Hr HF Hf. pose proof (bo_per _ Hres) as Hp. unfold mergeKeyBlocks.
  cbn [leftKeyBlockStartIdx leftKeyBlockEndIdx rightKeyBlockStartIdx rightKeyBlockEndIdx].
  destruct (mergeLoop_ok (flat res) (numTuplesPerBlock res) (numTuples res) fuel ls rs []
    (newBlockPtrInfo left ls le) (newBlockPtrInfo right rs re) (newBlockPtrInfo res (ls + rs) (le + re)) res)
    as (i & j & out & st & E & Hend & Hi & Hj & [Hres1 Hper1 Hnum1 HW1 HM1] & Wl & Wr & Wo).
  - done.
  - split; [done|done|done|apply written_start; lia|done].
  - done.
  - apply newBlockPtrInfo_walk; [apply (bo_per _ Hleft)|done|lia].
  - apply newBlockPtrInfo_walk; [apply (bo_per _ Hright)|done|lia].
  - apply newBlockPtrInfo_walk; [done|done|lia].
  - lia.
  - lia.
  - lia.
  - rewrite E. cbn [obind]. rewrite <- Hper1 in Wo.
    assert (Hij : ls + rs <= i + j) by (by destruct HW1 as (_ & _ & ? & _)).
    destruct (copyRemaining_ok right (flat res) (ls + rs) re (le + re) fuel j (i + j) (rightInfo st) (resultInfo st) out
      (resultBlocks st)) as (po1 & res1 & E1 & HW2 & Hres2 & Wo2 & Hp2 & Hn2); [done|done|done|done|done|done|lia|lia|lia|done|].
    rewrite E1. cbn [obind fst snd]. rewrite <- Hp2 in Wo2.
    destruct (copyRemaining_ok left (flat res) (ls + rs) le (le + re) fuel i (i + j + (re - j)) (leftInfo st) po1
      (out ++ slice (flat right) j re) res1) as (po2 & res2 & E2 & HW3 & Hres3 & Wo3 & Hp3 & Hn3);
      [done|done|done|done|done|done|lia|lia|lia|done|].
    rewrite E2. cbn [obind snd]. exists res2. split; [done|].
    replace (i + j + (re - j) + (le - i)) with (le + re) in HW3 by lia.
    rewrite HM1. replace (out ++ remaining i j) with ((out ++ slice (flat right) j re) ++ slice (flat left) i le).
    2: { rewrite <- app_assoc. f_equal. unfold remaining. destruct Hend as [-> | ->]; rewrite slice_nil.
         - by rewrite app_nil_r, mergeLists_nil_l.
         - by rewrite mergeLists_nil_r. }
    split; [done|]. split; [done|]. split; congruence.
Qed.
End ranges.
