(* ===== verification/MergeTask.v ===== *)
(** * Merge tasks and their morsels (src/processor/operator/order_by/key_block_merger.cpp)

    The theorems about the merge of two sorted runs (file KeyBlockMerger): what the
    comparison of tuples decides, where it goes wrong, that the binary search finds the
    boundary, that the morsels a task hands out cut both runs into pieces that can be
    merged on their own, and that merging all morsels, in whatever order the threads
    take them, gives the two runs merged into one. *)

From S2P Require Import Prelude Serializer OrderByKey Compare RadixSort OrderBySort KeyBlockMerger.
From stdpp Require Import base list numbers sorting.
Local Open Scope nat_scope.

Local Abbreviation tuple := (list Z).

Definition isGt (c : comparison) : bool := match c with Gt => true | _ => false end.

(** ** The comparison of tuples *)
Section comparison.
Context (getTableData : Z -> Z -> Z -> nat -> list Z) (total : nat).
Local Abbreviation tv := (mergeTableStr getTableData).

(** The last string column is the last column. *)
Fixpoint endsAt (off : nat) (cols : list StrKeyColInfo) : Prop :=
  match cols with
  | [] => off = total
  | col :: cols => endsAt (colOffsetInEncodedKeyBlock col + strEncodingSize) cols
  end.

Definition notBothNull (x y : tuple) (col : StrKeyColInfo) : Prop :=
  strIsNull col x && strIsNull col y = false.

Lemma compareStrCols_spec cols : forall last off x y,
  last <= off -> fieldCompare last (off - last) x y = Eq -> colsOK off cols -> endsAt off cols ->
  Forall (notBothNull x y) cols ->
  compareStrCols getTableData total cols last x y = isGt (colsCompare tv total cols off x y).
Proof using Type.
  induction cols as [|col cols IH]; intros last off x y Ho HE Hc Hend Hn; cbn [compareStrCols colsCompare].
  { cbn in Hend. subst off. by rewrite Nat.sub_diag. }
  destruct Hc as [Hc1 Hc2]. cbn [endsAt] in Hend. inversion_clear Hn as [|?? Hn1 Hn2].
  set (co := colOffsetInEncodedKeyBlock col) in *. unfold notBothNull in Hn1. rewrite Hn1.
  assert (EF : fieldCompare last (co - last + strEncodingSize) x y = fieldCompare off (co - off + strEncodingSize) x y).
  { replace (co - last + strEncodingSize) with ((off - last) + (co - off + strEncodingSize)) by lia.
    rewrite fieldCompare_split, HE. by replace (last + (off - last)) with off by lia. }
  rewrite EF. set (N := co - off + strEncodingSize) in *. unfold roundCompare.
  destruct (fieldCompare off N x y) eqn:E; [|done|done]. cbn [thenCompare].
  assert (Hcov : covers col off N) by (unfold covers, N; fold co; lia).
  destruct (strFlags col off N x y Hcov E) as [Fn Fl].
  assert (EP : off + N = co + strEncodingSize) by (unfold N; lia). rewrite EP.
  assert (Hnx : strIsNull col x = false) by (rewrite <- Fn in Hn1; by destruct (strIsNull col x)).
  unfold strKeyCompare, strKey, strRank. rewrite <- Fn, <- Fl, Hnx.
  assert (HL : fieldCompare last (co + strEncodingSize - last) x y = Eq).
  { replace (co + strEncodingSize - last) with ((off - last) + N) by lia.
    rewrite fieldCompare_split, HE. by replace (last + (off - last)) with off by lia. }
  destruct (strIsLong col x); cbn -[strEncodingSize strCompare].
  - unfold mergeStrValue. rewrite kuStringEq_spec, kuStringGreater_spec.
    destruct (strCompare _ _) eqn:ES; cbn -[strEncodingSize].
    + rewrite (IH _ (co + strEncodingSize)); [|lia|by rewrite Nat.sub_diag|done|done|done].
      by destruct (strIsAsc col).
    + by destruct (strIsAsc col).
    + by destruct (strIsAsc col).
  - rewrite (IH _ (co + strEncodingSize)); [|lia|done|done|done|done]. by destruct (strIsAsc col).
Qed.
End comparison.

(** The columns of a clause: none is a string, or the last one is. *)
Fixpoint lastIsString (cols : list sortColumn) : Prop :=
  match cols with
  | [] => False
  | [c] => isString (colType (keyCol c)) = true
  | _ :: cols => lastIsString cols
  end.

Definition noNullStrings (cols : list sortColumn) (row : list (option keyValue)) : Prop :=
  Forall2 (fun c v => isString (colType (keyCol c)) = true -> v <> None) cols row.

Lemma initStrKeyCols_endsAt cols p total :
  lastIsString cols -> total = p + keyBytes cols -> forall off, endsAt total off (initStrKeyCols p cols).
Proof.
  revert p. induction cols as [|c cols IH]; intros p HL Ht off; [done|]. cbn [initStrKeyCols].
  destruct cols as [|c' cols].
  - cbn in HL. rewrite HL. cbn [initStrKeyCols endsAt colOffsetInEncodedKeyBlock]. cbn [keyBytes] in Ht.
    by destruct (colType (keyCol c)).
  - destruct (isString _) eqn:E.
    + cbn [endsAt colOffsetInEncodedKeyBlock]. destruct (colType (keyCol c)) eqn:Et; try done.
      apply IH; [done|]. subst total. change (p + keyBytes (c :: c' :: cols)) with
        (p + (getEncodingSize (colType (keyCol c)) + keyBytes (c' :: cols))). rewrite Et. lia.
    + apply IH; [done|]. subst total. change (p + keyBytes (c :: c' :: cols)) with
        (p + (getEncodingSize (colType (keyCol c)) + keyBytes (c' :: cols))). lia.
Qed.

Lemma notNull_flag le cols : forall p row info,
  rowOK (keyCol <$> cols) row -> noNullStrings cols row ->
  Forall (fun col => strIsNull col (p ++ encodeRow le (keyCol <$> cols) row ++ info) = false)
    (initStrKeyCols (length p) cols).
Proof.
  induction cols as [|c cols IH]; intros p row info H HN; [constructor|].
  inversion H as [|? v ? row' Hv H']; subst. inversion HN as [|? ? ? ? Hs HN']; subst.
  destruct c as [[ty asc] ft]. cbn [initStrKeyCols keyCol colType fmap list_fmap encodeRow isAscOrder ftColOffset] in *.
  assert (HR : Forall (fun col => strIsNull col (p ++ (encodeColumn le asc ty v ++ encodeRow le (keyCol <$> cols) row') ++ info) = false)
    (initStrKeyCols (length p + getEncodingSize ty) cols)).
  { rewrite <- (encodeColumn_length le asc ty v) by done. rewrite <- length_app.
    specialize (IH (p ++ encodeColumn le asc ty v) row' info H' HN'). by rewrite <- !app_assoc in *. }
  destruct (isString ty) eqn:E; [|done]. constructor; [|done]. destruct ty; try done.
  rewrite <- app_assoc, strIsNull_enc by done. destruct v; [done|]. by destruct Hs.
Qed.

Lemma initStrKeyCols_noStrings cols p : noStrings (keyCol <$> cols) -> initStrKeyCols p cols = [].
Proof.
  revert p. induction cols as [|c cols IH]; intros p H; [done|]. inversion_clear H as [|?? Hc H'].
  cbn [initStrKeyCols]. rewrite Hc. by apply IH.
Qed.

(** Rows the merge compares in the order of the clause. *)
Definition mergeable (cols : list sortColumn) (row : list (option keyValue)) : Prop :=
  noStrings (keyCol <$> cols) \/ (lastIsString cols /\ noNullStrings cols row).

Lemma compareTuplePtr_colsCompare le getTableData cols r1 r2 x y :
  encodesRow le (mergeTableStr getTableData) cols r1 x -> encodesRow le (mergeTableStr getTableData) cols r2 y ->
  mergeable cols r1 -> mergeable cols r2 ->
  compareTuplePtr getTableData (keyBytes cols) (initStrKeyCols 0 cols) x y =
    isGt (colsCompare (mergeTableStr getTableData) (keyBytes cols) (initStrKeyCols 0 cols) 0 x y).
Proof.
  intros H1 H2 M1 M2. unfold compareTuplePtr.
  destruct (initStrKeyCols 0 cols) as [|col scols] eqn:E; [cbn [colsCompare]; by rewrite Nat.sub_0_r|].
  rewrite <- E. destruct M1 as [M1|[HL HN1]]; [by rewrite (initStrKeyCols_noStrings cols 0 M1) in E|].
  destruct M2 as [M2|[_ HN2]]; [by rewrite (initStrKeyCols_noStrings cols 0 M2) in E|].
  apply compareStrCols_spec; [done|done|by apply initStrKeyCols_ok|by apply initStrKeyCols_endsAt|].
  destruct H1 as (H1 & _ & i1 & _ & _ & _ & ->). pose proof (notNull_flag le cols [] r1 i1 H1 HN1) as HF.
  eapply Forall_impl; [exact HF|]. intros c Hc. unfold notBothNull. cbn [app length] in Hc. by rewrite Hc.
Qed.

(** C26. The merge compares encoded tuples in the order of the ORDER BY clause, whichever
    threads' factorized tables hold their strings, when no key column is a string, or the
    last one is and no string is null.  As for the sort, short strings hold no zero byte,
    floating point numbers are no NaN and no negative zero, and the normalized months and days of
    an interval have 32 bits. *)
Theorem merge_compares_rows le getTableData cols r1 r2 x y :
  encodesRow le (mergeTableStr getTableData) cols r1 x -> encodesRow le (mergeTableStr getTableData) cols r2 y ->
  mergeable cols r1 -> mergeable cols r2 ->
  compareTuplePtr getTableData (keyBytes cols) (initStrKeyCols 0 cols) x y =
    isGt (compareRows (keyCol <$> cols) r1 r2).
Proof.
  intros H1 H2 M1 M2. rewrite (compareTuplePtr_colsCompare le _ cols r1 r2) by done.
  by rewrite (encodedRows_compare le _ cols r1 r2).
Qed.

(** *** Examples *)
Definition exKey (asc : bool) (t : keyType) (ft : nat) : sortColumn := mkSortColumn (mkColumn t asc) ft.

Definition encodeTuple (cols : list sortColumn) (row : list (option keyValue)) (pos : Z) : tuple :=
  encodeRow true (keyCol <$> cols) row ++ encodeFTInfo 0 pos 0.

Lemma encodeTuple_encodes tv cols row pos :
  rowOK (keyCol <$> cols) row -> Forall cellNoZero row ->
  Forall2 (cellHeld tv (encodeFTInfo 0 pos 0)) cols row ->
  encodesRow true tv cols row (encodeTuple cols row pos).
Proof.
  intros H1 H2 H3. split; [done|]. split; [done|]. exists (encodeFTInfo 0 pos 0).
  split; [done|]. split; [|done]. unfold encodeFTInfo. apply Forall_app.
  split; [apply leBytes_isByte|apply Forall_insert; [apply leBytes_isByte|split; lia]].
Qed.

Lemma exInt_ok v : (-10 < v < 10)%Z -> cellOK (TInt 2) (Some (KInt 2 v)).
Proof. intros Hv. cbn. split; [done|]. split; [unfold intSize; tauto|unfold inS; lia]. Qed.

(** Solves the side conditions of a concrete row. *)
Ltac row_solve :=
  repeat first [apply Forall2_nil_2|apply Forall2_cons_2|apply Forall_nil_2|apply Forall_cons_2];
  first [unfold isByte; lia|apply exInt_ok; lia|exact I|reflexivity|
         intros _; repeat first [apply Forall_nil_2|apply Forall_cons_2]; lia|idtac].

(** The string "a" and a number; a number and a string. *)
Definition strIntCols : list sortColumn := [exKey true TString 0; exKey true (TInt 2) 16].
Definition intStrCols : list sortColumn := [exKey true (TInt 2) 16; exKey true TString 0].
Definition noTable (ftIdx blockIdx blockOffset : Z) (colOffset : nat) : list Z := [97%Z].

Lemma merge_compares_rows_witness :
  compareTuplePtr noTable (keyBytes intStrCols) (initStrKeyCols 0 intStrCols)
    (encodeTuple intStrCols [Some (KInt 2 2); Some (KString [97%Z])] 0)
    (encodeTuple intStrCols [Some (KInt 2 1); Some (KString [97%Z])] 1) = true.
Proof.
  rewrite (merge_compares_rows true noTable intStrCols [Some (KInt 2 2); Some (KString [97%Z])]
    [Some (KInt 2 1); Some (KString [97%Z])]).
  - reflexivity.
  - apply encodeTuple_encodes; row_solve.
  - apply encodeTuple_encodes; row_solve.
  - right. split; [reflexivity|]. repeat apply Forall2_cons_2; try apply Forall2_nil_2; discriminate.
  - right. split; [reflexivity|]. repeat apply Forall2_cons_2; try apply Forall2_nil_2; discriminate.
Defined.

(** Key columns after the last string column are not compared: with equal strings, the
    tuple with the larger number counts as not greater, and the merge puts it first. *)
Theorem merge_ignores_keys_after_strings :
  let r1 := [Some (KString [97%Z]); Some (KInt 2 2)] in
  let r2 := [Some (KString [97%Z]); Some (KInt 2 1)] in
  let gt := compareTuplePtr noTable (keyBytes strIntCols) (initStrKeyCols 0 strIntCols) in
  let x := encodeTuple strIntCols r1 0 in
  let y := encodeTuple strIntCols r2 1 in
  encodesRow true (mergeTableStr noTable) strIntCols r1 x /\
  encodesRow true (mergeTableStr noTable) strIntCols r2 y /\
  compareRows (keyCol <$> strIntCols) r1 r2 = Gt /\ gt x y = false /\ mergeLists gt [x] [y] = [x; y].
Proof.
  cbv zeta. split; [apply encodeTuple_encodes; row_solve|]. split; [apply encodeTuple_encodes; row_solve|].
  split; [reflexivity|]. split; reflexivity.
Qed.

(** When both strings are null, the columns before them are not compared either. *)
Theorem merge_ignores_keys_before_null_strings :
  let r1 := [Some (KInt 2 2); None] in
  let r2 := [Some (KInt 2 1); None] in
  let gt := compareTuplePtr noTable (keyBytes intStrCols) (initStrKeyCols 0 intStrCols) in
  let x := encodeTuple intStrCols r1 0 in
  let y := encodeTuple intStrCols r2 1 in
  encodesRow true (mergeTableStr noTable) intStrCols r1 x /\
  encodesRow true (mergeTableStr noTable) intStrCols r2 y /\
  compareRows (keyCol <$> intStrCols) r1 r2 = Gt /\ gt x y = false /\ mergeLists gt [x] [y] = [x; y].
Proof.
  cbv zeta. split; [apply encodeTuple_encodes; row_solve|]. split; [apply encodeTuple_encodes; row_solve|].
  split; [reflexivity|]. split; reflexivity.
Qed.

(** ** Merging lists *)
Section merging.
Context (gt : tuple -> tuple -> bool) (c : tuple -> tuple -> comparison) `{!CompareOrder c}.
Context (P : tuple -> Prop) (Hgt : forall x y, P x -> P y -> gt x y = isGt (c x y)).

Lemma gt_le x y : P x -> P y -> gt x y = false <-> c x y <> Gt.
Proof using Hgt. intros Hx Hy. rewrite Hgt by done. by destruct (c x y). Qed.

Lemma gt_lt x y : P x -> P y -> gt x y = true <-> c y x = Lt.
Proof using Hgt CompareOrder0.
  intros Hx Hy. rewrite Hgt by done. rewrite (cmp_opp (c := c) x y). by destruct (c x y).
Qed.

Lemma mergeLists_perm l r : mergeLists gt l r ≡ₚ l ++ r.
Proof using Type.
  revert r. induction l as [|x l IHl]; intros r; [by rewrite mergeLists_nil_l|].
  induction r as [|y r IHr]; [by rewrite mergeLists_nil_r, app_nil_r|].
  rewrite mergeLists_cons. destruct (gt x y).
  - rewrite IHr. cbn. rewrite <- Permutation_middle. by rewrite perm_swap.
  - by rewrite IHl.
Qed.

Lemma mergeLists_sorted l r :
  Forall P l -> Forall P r -> StronglySorted (cmpLe c) l -> StronglySorted (cmpLe c) r ->
  StronglySorted (cmpLe c) (mergeLists gt l r).
Proof using Hgt CompareOrder0.
  intros Pl Pr Hl. revert r Pr. induction Hl as [|x l Hl IHl Hx]; intros r Pr Hr; [by rewrite mergeLists_nil_l|].
  inversion Pl as [|?? Px Pl']; subst.
  induction Hr as [|y r Hr IHr Hy]; [rewrite mergeLists_nil_r; by constructor|].
  inversion Pr as [|?? Py Pr']; subst. rewrite mergeLists_cons. destruct (gt x y) eqn:E.
  - apply gt_lt in E; [|done..]. constructor; [by apply IHr|]. rewrite mergeLists_perm.
    assert (Hyx : cmpLe c y x) by (unfold cmpLe; by rewrite E).
    cbn. constructor; [done|]. apply Forall_app. split; [|done].
    eapply Forall_impl; [exact Hx|]. intros z Hz. by apply (cmp_trans y x z).
  - apply gt_le in E; [|done..]. constructor; [apply IHl; [done|done|by constructor]|].
    rewrite mergeLists_perm. apply Forall_app. split; [done|]. constructor; [done|].
    eapply Forall_impl; [exact Hy|]. intros z Hz. by apply (cmp_trans x y z).
Qed.

(** Two pieces of each run can be merged on their own: the last tuple of the first left
    piece separates the right pieces. *)
Lemma mergeLists_split l1 z l2 r1 r2 :
  Forall P (l1 ++ [z]) -> Forall P r1 -> Forall P r2 -> StronglySorted (cmpLe c) (l1 ++ [z]) ->
  Forall (fun y => gt z y = true) r1 -> Forall (fun y => gt z y = false) r2 ->
  mergeLists gt ((l1 ++ [z]) ++ l2) (r1 ++ r2) = mergeLists gt (l1 ++ [z]) r1 ++ mergeLists gt l2 r2.
Proof using Hgt CompareOrder0.
  intros Pl Pr1 Pr2 HS H1 H2. revert r1 Pr1 H1. induction l1 as [|x l1 IHl]; intros r1 Pr1 H1; cbn [app] in *.
  - induction H1 as [|y r1 Hy H1 IHr].
    + cbn [app]. rewrite mergeLists_nil_r. destruct H2 as [|y r2 Hy _]; [by rewrite !mergeLists_nil_r|].
      rewrite mergeLists_cons, Hy. done.
    + inversion_clear Pr1 as [|?? _ Pr1']. cbn [app]. rewrite !mergeLists_cons, Hy. cbn [app]. f_equal. by apply IHr.
  - inversion Pl as [|?? Px Pl']; subst. apply StronglySorted_inv in HS as [HS Hx].
    assert (Hz : P z) by (by eapply Forall_app in Pl' as [_ Pz]; inversion Pz).
    assert (Hxz : c x z <> Gt) by (eapply Forall_app in Hx as [_ Hx]; by inversion Hx).
    induction r1 as [|y r1 IHr].
    + rewrite mergeLists_nil_r. cbn [app]. destruct H2 as [|y r2 Hy H2']; [by rewrite !mergeLists_nil_r|].
      inversion Pr2 as [|?? Py _]; subst. rewrite mergeLists_cons.
      assert (gt x y = false) as ->.
      { apply gt_le; [done..|]. apply gt_le in Hy; [|done..]. by apply (cmp_trans x z y). }
      f_equal. specialize (IHl Pl' HS [] ltac:(constructor) ltac:(constructor)). cbn [app] in IHl.
      by rewrite mergeLists_nil_r in IHl.
    + inversion Pr1 as [|?? Py Pr1']; subst. inversion H1 as [|?? Hy H1']; subst. cbn [app]. rewrite !mergeLists_cons.
      destruct (gt x y).
      * cbn [app]. f_equal. by apply IHr.
      * cbn [app]. f_equal. by apply (IHl Pl' HS (y :: r1)).
Qed.
End merging.

(** ** Slices *)
Lemma slice_take l n i e : e <= n -> slice (take n l) i e = slice l i e.
Proof.
  intros H. unfold slice. apply list_eq. intros k. destruct (decide (k < e - i)).
  - rewrite !lookup_take_lt, !lookup_drop, lookup_take_lt by lia. done.
  - rewrite !lookup_take_ge by lia. done.
Qed.

Lemma slice_app l i k e : i <= k <= e -> slice l i e = slice l i k ++ slice l k e.
Proof.
  intros H. unfold slice. replace (e - i) with ((k - i) + (e - k)) by lia.
  rewrite <- take_take_drop, drop_drop. f_equal. f_equal. f_equal. lia.
Qed.

Lemma slice_full l : slice l 0 (length l) = l.
Proof. unfold slice. rewrite Nat.sub_0_r, drop_0. by apply take_ge. Qed.

Lemma slice_snoc l i e : i < e <= length l -> slice l i e = slice l i (e - 1) ++ [l !!! (e - 1)].
Proof.
  intros H. rewrite (slice_app l i (e - 1) e) by lia. f_equal.
  rewrite (slice_cons l (e - 1) e) by lia. replace (S (e - 1)) with e by lia. by rewrite slice_nil.
Qed.

Lemma slice_lookup l i e k : slice l i e !! k = if decide (k < e - i) then l !! (i + k) else None.
Proof.
  unfold slice. destruct (decide (k < e - i)).
  - by rewrite lookup_take_lt, lookup_drop by lia.
  - by rewrite lookup_take_ge by lia.
Qed.

Lemma Forall_slice (P : tuple -> Prop) l i e : Forall P l -> Forall P (slice l i e).
Proof. intros. apply Forall_take, Forall_drop. done. Qed.

Lemma StronglySorted_slice R l i e : StronglySorted R l -> StronglySorted R (slice l i e).
Proof.
  intros H. unfold slice. rewrite <- (take_drop i l) in H. apply StronglySorted_app_elim in H as (_ & H & _).
  rewrite <- (take_drop (e - i) (drop i l)) in H. by apply StronglySorted_app_elim in H as (H & _ & _).
Qed.

Lemma Forall_slice_lookup (P : tuple -> Prop) l i e :
  (forall k, i <= k < e -> k < length l -> P (l !!! k)) -> Forall P (slice l i e).
Proof.
  intros H. apply Forall_lookup. intros k x Hx. rewrite slice_lookup in Hx.
  destruct (decide (k < e - i)); [|done]. pose proof (lookup_lt_Some _ _ _ Hx).
  apply list_lookup_total_correct in Hx. rewrite <- Hx. apply H; lia.
Qed.

Lemma tuplesOf_length mb : blocksOK mb -> length (tuplesOf mb) = numTuples mb.
Proof. intros H. unfold tuplesOf. rewrite length_take. pose proof (bo_num _ H). lia. Qed.

Lemma tuplesOf_read mb k :
  blocksOK mb -> k < numTuples mb -> readTuple mb (getTuplePtr mb k) = tuplesOf mb !!! k.
Proof.
  intros H Hk. rewrite readTuple_index by done. unfold tuplesOf.
  rewrite !list_lookup_total_alt, lookup_take_lt by done. done.
Qed.

(** ** The morsels of a task *)
Section tasks.
Context (gt : tuple -> tuple -> bool) (c : tuple -> tuple -> comparison) `{!CompareOrder c}.
Context (P : tuple -> Prop) (Hgt : forall x y, P x -> P y -> gt x y = isGt (c x y)).
Context (left right : MergedKeyBlocks) (Hleft : blocksOK left) (Hright : blocksOK right).
Local Abbreviation L := (tuplesOf left).
Local Abbreviation R := (tuplesOf right).
Local Abbreviation nl := (numTuples left).
Local Abbreviation nr := (numTuples right).
Context (PL : Forall P (tuplesOf left)) (PR : Forall P (tuplesOf right)).
Context (SL : StronglySorted (cmpLe c) (tuplesOf left)) (SR : StronglySorted (cmpLe c) (tuplesOf right)).

Lemma P_left k : k < nl -> P (L !!! k).
Proof using Hleft PL.
  intros Hk. eapply Forall_lookup_1; [exact PL|]. apply list_lookup_lookup_total_lt. by rewrite tuplesOf_length.
Qed.

Lemma P_right k : k < nr -> P (R !!! k).
Proof using Hright PR.
  intros Hk. eapply Forall_lookup_1; [exact PR|]. apply list_lookup_lookup_total_lt. by rewrite tuplesOf_length.
Qed.

Lemma right_sorted i j : i <= j < nr -> c (R !!! i) (R !!! j) <> Gt.
Proof using Hright SR CompareOrder0.
  intros Hij. destruct (decide (i = j)) as [->|]; [by rewrite cmp_refl|].
  rewrite <- (take_drop j R) in SR. apply StronglySorted_app_elim in SR as (_ & _ & H). apply H.
  - apply list_elem_of_lookup. exists i. rewrite lookup_take_lt by lia.
    apply list_lookup_lookup_total_lt. rewrite tuplesOf_length by done. lia.
  - apply list_elem_of_lookup. exists 0. rewrite lookup_drop, Nat.add_0_r.
    apply list_lookup_lookup_total_lt. rewrite tuplesOf_length by done. lia.
Qed.

(** The tuples of the right run below [e] come first. *)
Lemma below_prefix e i j : P e -> i <= j < nr -> gt e (R !!! j) = true -> gt e (R !!! i) = true.
Proof using Hgt Hright PR SR CompareOrder0.
  intros He Hij H. assert (Pi : P (R !!! i)) by (apply P_right; lia). assert (Pj : P (R !!! j)) by (apply P_right; lia).
  apply (gt_lt gt c P Hgt) in H; [|done..]. apply (gt_lt gt c P Hgt); [done..|].
  eapply cmp_le_lt_trans; [done|by apply right_sorted|exact H].
Qed.

(** The binary search ends, and finds the boundary [b]. *)
Definition boundary (e : tuple) (next b : nat) : Prop :=
  next <= b <= nr /\ (forall i, next <= i < b -> gt e (R !!! i) = true) /\
  (forall i, b <= i < nr -> gt e (R !!! i) = false).

Lemma findRightFrom_ok e next fuel : forall s t : Z,
  P e -> next <= nr -> (Z.of_nat next <= s)%Z -> (t < Z.of_nat nr)%Z -> (s <= t + 1)%Z ->
  (t - s + 1 < Z.of_nat fuel)%Z ->
  (Z.of_nat next < s -> gt e (R !!! Z.to_nat s) = true /\ s < Z.of_nat nr)%Z ->
  (forall i, (t < Z.of_nat i)%Z -> i < nr -> gt e (R !!! i) = false) ->
  exists b, boundary e next b /\
    findRightFrom gt fuel right e s t = Ok (if b =? next then None else Some (b - 1)).
Proof using Hgt Hright PR SR CompareOrder0.
  induction fuel as [|fuel IH]; intros s t He Hn Hs Ht Hst Hf Hstart Hend; [lia|].
  cbn [findRightFrom]. destruct (Z.leb_spec s t) as [Hle|Hlt].
  - set (m := ((s + t) / 2)%Z). assert (Hm : (s <= m <= t)%Z).
    { pose proof (Z.div_mod (s + t) 2 ltac:(lia)). pose proof (Z.mod_pos_bound (s + t) 2 ltac:(lia)). lia. }
    assert (Hmn : Z.to_nat m < nr) by lia.
    rewrite tuplesOf_read by done. destruct (gt e (R !!! Z.to_nat m)) eqn:Em.
    + destruct (Nat.eqb_spec (Z.to_nat m) (nr - 1)) as [El|El]; cbn [orb].
      { exists nr. split; [|rewrite (proj2 (Nat.eqb_neq _ _)) by lia; f_equal; f_equal; lia].
        split; [lia|]. split; [|lia]. intros i Hi. apply (below_prefix e i (Z.to_nat m)); [done|lia|done]. }
      rewrite tuplesOf_read by (done || lia).
      destruct (gt e (R !!! (Z.to_nat m + 1))) eqn:En; cbn [negb].
      * rewrite Z2Nat.id by lia. apply IH; try done; try lia.
        intros _. replace (Z.to_nat (m + 1)) with (Z.to_nat m + 1) by lia. split; [done|lia].
      * exists (Z.to_nat m + 1). split; [|rewrite (proj2 (Nat.eqb_neq _ _)) by lia; f_equal; f_equal; lia].
        split; [lia|]. split; intros i Hi; [apply (below_prefix e i (Z.to_nat m)); [done|lia|done]|].
        destruct (gt e (R !!! i)) eqn:Ei; [|done].
        by rewrite (below_prefix e (Z.to_nat m + 1) i) in En by (done || lia).
    + rewrite Z2Nat.id by lia. apply IH; try done; try lia.
      intros i Hi Hin. destruct (decide (i <= Z.to_nat m)) as [Him|Him].
      * replace i with (Z.to_nat m) by lia. done.
      * destruct (gt e (R !!! i)) eqn:Ei; [|done].
        by rewrite (below_prefix e (Z.to_nat m) i) in Em by (done || lia).
  - exists next. rewrite Nat.eqb_refl. split; [|done]. split; [lia|]. split; [lia|].
    intros i Hi. destruct (decide (Z.of_nat next < s)%Z) as [Hns|Hns]; [|apply Hend; lia].
    destruct (Hstart Hns) as [H1 H2]. rewrite (Hend (Z.to_nat s)) in H1 by lia. done.
Qed.

Definition morselMerge (m : KeyBlockMergeMorsel) : list tuple :=
  mergeLists gt (slice L (leftKeyBlockStartIdx m) (leftKeyBlockEndIdx m))
    (slice R (rightKeyBlockStartIdx m) (rightKeyBlockEndIdx m)).

(** What is left to merge from tuples [i] and [j] on. *)
Definition rest (i j : nat) : list tuple := mergeLists gt (slice L i nl) (slice R j nr).

(** The left run is used up last. *)
Definition taskOK (i j : nat) : Prop := j <= nr /\ (nl <= i -> j = nr).

Lemma findRight_ok i j a e :
  P e -> j <= nr ->
  exists b, boundary e j b /\
    findRightKeyBlockIdx gt (mkTask left right i j a) e = Ok (if b =? j then None else Some (b - 1)).
Proof using Hgt Hright PR SR CompareOrder0.
  intros He Hj. unfold findRightKeyBlockIdx. cbn [rightKeyBlock rightKeyBlockNextIdx].
  apply (findRightFrom_ok e j); try done; lia.
Qed.

Lemma rest_split i i' j b :
  i < i' < nl -> boundary (L !!! (i' - 1)) j b ->
  rest i j = mergeLists gt (slice L i i') (slice R j b) ++ rest i' b.
Proof using Hgt Hleft Hright PL PR SL SR CompareOrder0.
  intros Hi (Hb & H1 & H2). unfold rest. pose proof (tuplesOf_length _ Hleft) as Ll.
  rewrite (slice_app L i i' nl), (slice_app R j b nr) by lia.
  rewrite (slice_snoc L i i') by lia. apply (mergeLists_split gt c P Hgt).
  - rewrite <- slice_snoc by lia. by apply Forall_slice.
  - by apply Forall_slice.
  - by apply Forall_slice.
  - rewrite <- slice_snoc by lia. by apply StronglySorted_slice.
  - apply Forall_slice_lookup. intros k Hk _. apply H1. lia.
  - apply Forall_slice_lookup. intros k Hk _. apply H2. lia.
Qed.

Lemma rest_end i j : rest i j = morselMerge (mkMorsel i nl j nr) ++ rest nl nr.
Proof using Type. unfold rest at 2. by rewrite !slice_nil, mergeLists_nil_l, app_nil_r. Qed.

(** [getMorsel] gives a morsel, moves on, and the morsel's merge comes before the rest. *)
Lemma getMorsel_ok batch i j a :
  0 < batch -> taskOK i j -> hasMorselLeft (mkTask left right i j a) = true ->
  exists i' j' m, getMorsel gt batch (mkTask left right i j a) = Ok (m, mkTask left right i' j' (a + 1)) /\
    m = mkMorsel i (Nat.min i' nl) j j' /\ taskOK i' j' /\ i < i' /\ i < nl /\ j <= j' /\
    rest i j = morselMerge m ++ rest (Nat.min i' nl) j'.
Proof using Hgt Hleft Hright PL PR SL SR CompareOrder0.
  intros Hbatch [Hj Hij] Hm. unfold hasMorselLeft in Hm.
  cbn [leftKeyBlock rightKeyBlock leftKeyBlockNextIdx rightKeyBlockNextIdx] in Hm.
  assert (Hi : i < nl).
  { destruct (Nat.ltb_spec i nl); [done|]. rewrite (Hij ltac:(lia)), Nat.ltb_irrefl in Hm. done. }
  unfold getMorsel. cbn [leftKeyBlock rightKeyBlock leftKeyBlockNextIdx rightKeyBlockNextIdx activeMorsels].
  destruct (Nat.leb_spec nr j) as [Hnr|Hnr].
  - assert (j = nr) as -> by lia. exists nl, nr. eexists. split; [reflexivity|]. rewrite Nat.min_id.
    split; [done|]. split; [split; lia|]. split; [lia|]. split; [done|]. split; [done|].
    by rewrite rest_end.
  - destruct (Nat.leb_spec nl (i + batch)) as [Hnl|Hnl].
    + exists (i + batch), nr. eexists. split; [reflexivity|]. split; [done|]. split; [split; lia|].
      split; [lia|]. split; [done|]. split; [lia|]. rewrite Nat.min_r by lia.
      by rewrite rest_end.
    + rewrite tuplesOf_read by (done || lia).
      destruct (findRight_ok i j a (L !!! (i + batch - 1))) as (b & Hb & E); [apply P_left; lia|lia|].
      rewrite E. cbn [obind]. pose proof (proj1 Hb) as Hb1.
      assert (HR := rest_split i (i + batch) j b ltac:(lia) Hb).
      destruct (Nat.eqb_spec b j) as [Ebj|Hne].
      * rewrite Ebj in HR. exists (i + batch), j. eexists. split; [reflexivity|]. split; [done|]. split; [split; lia|].
        split; [lia|]. split; [done|]. split; [lia|]. rewrite Nat.min_l by lia. exact HR.
      * exists (i + batch), b. eexists. replace (b - 1 + 1) with b by lia. split; [reflexivity|]. split; [done|].
        split; [split; lia|]. split; [lia|]. split; [done|]. split; [lia|]. rewrite Nat.min_l by lia. exact HR.
Qed.

(** The morsels in the order they are handed out. *)
Fixpoint takeMorsels (fuel batch : nat) (task : KeyBlockMergeTask) : outcome (list KeyBlockMergeMorsel) :=
  if hasMorselLeft task then
    match fuel with
    | O => Err Blocked
    | S fuel =>
        let* r := getMorsel gt batch task in
        let* ms := takeMorsels fuel batch (snd r) in
        Ok (fst r :: ms)
    end
  else Ok [].

(** They cut both runs from one end to the other. *)
Fixpoint tiled (i j : nat) (ms : list KeyBlockMergeMorsel) : Prop :=
  match ms with
  | [] => i = nl /\ j = nr
  | m :: ms =>
      leftKeyBlockStartIdx m = i /\ rightKeyBlockStartIdx m = j /\
      i <= leftKeyBlockEndIdx m <= nl /\ j <= rightKeyBlockEndIdx m <= nr /\
      tiled (leftKeyBlockEndIdx m) (rightKeyBlockEndIdx m) ms
  end.

Lemma takeMorsels_ok batch fuel : forall i j a,
  0 < batch -> taskOK i j -> nl - i <= fuel ->
  exists ms, takeMorsels fuel batch (mkTask left right i j a) = Ok ms /\ tiled (Nat.min i nl) j ms /\
    rest (Nat.min i nl) j = mjoin (morselMerge <$> ms).
Proof using Hgt Hleft Hright PL PR SL SR CompareOrder0.
  induction fuel as [|fuel IH]; intros i j a Hb HT Hf; cbn [takeMorsels];
    destruct (hasMorselLeft (mkTask left right i j a)) eqn:Eh.
  1: { destruct (getMorsel_ok batch i j a Hb HT Eh) as (? & ? & ? & _ & _ & _ & _ & ? & _). lia. }
  2: { destruct (getMorsel_ok batch i j a Hb HT Eh) as (i' & j' & m & E & Em & HT' & Hi & Hil & Hj & HR).
       rewrite E. cbn [obind fst snd]. destruct (IH i' j' (a + 1) Hb HT' ltac:(lia)) as (ms & E2 & Ht & HR2).
       rewrite E2. cbn [obind]. exists (m :: ms). split; [done|]. rewrite (Nat.min_l i nl) by lia.
       split; [subst m; cbn; destruct HT'; repeat (split; [lia|]); done|].
       cbn. rewrite HR, HR2. done. }
  all: exists []; split; [done|]; unfold hasMorselLeft in Eh; apply orb_false_elim in Eh as [E1 E2];
    apply Nat.ltb_ge in E1, E2; cbn in E1, E2; destruct HT as [HT1 HT2];
    rewrite Nat.min_r by lia; (split; [cbn; lia|]); unfold rest; replace j with nr by lia;
    by rewrite !slice_nil.
Qed.

(** ** Merging all morsels, in any order *)
Definition merged : list tuple := mergeLists gt L R.

Lemma rest_0 : rest 0 0 = merged.
Proof using Hleft Hright.
  unfold rest, merged. rewrite <- (tuplesOf_length left), <- (tuplesOf_length right) by done. by rewrite !slice_full.
Qed.

Lemma merged_length : length merged = nl + nr.
Proof using Hleft Hright. unfold merged. rewrite mergeLists_perm, length_app. by rewrite !tuplesOf_length. Qed.

(** The part of the result a morsel writes. *)
Definition goodMorsel (m : KeyBlockMergeMorsel) : Prop :=
  leftKeyBlockStartIdx m <= leftKeyBlockEndIdx m <= nl /\
  rightKeyBlockStartIdx m <= rightKeyBlockEndIdx m <= nr /\
  morselMerge m = slice merged (leftKeyBlockStartIdx m + rightKeyBlockStartIdx m)
                    (leftKeyBlockEndIdx m + rightKeyBlockEndIdx m).

Definition writes (m : KeyBlockMergeMorsel) (k : nat) : Prop :=
  leftKeyBlockStartIdx m + rightKeyBlockStartIdx m <= k < leftKeyBlockEndIdx m + rightKeyBlockEndIdx m.

Lemma tiled_good ms : forall i j,
  i <= nl -> j <= nr -> tiled i j ms -> mjoin (morselMerge <$> ms) = slice merged (i + j) (nl + nr) ->
  Forall goodMorsel ms /\ forall k, i + j <= k < nl + nr -> exists m, m ∈ ms /\ writes m k.
Proof using Hleft Hright.
  induction ms as [|m ms IH]; intros i j Hi Hj HT HS.
  { destruct HT as [-> ->]. split; [constructor|lia]. }
  destruct HT as (El & Er & Hl & Hr & HT). set (i' := leftKeyBlockEndIdx m) in *. set (j' := rightKeyBlockEndIdx m) in *.
  assert (Hlen : length (morselMerge m) = (i' + j') - (i + j)).
  { unfold morselMerge. rewrite mergeLists_perm, length_app, El, Er. fold i' j'.
    rewrite !length_slice by (rewrite tuplesOf_length by done; lia). lia. }
  change (morselMerge m ++ mjoin (morselMerge <$> ms) = slice merged (i + j) (nl + nr)) in HS.
  rewrite (slice_app merged (i + j) (i' + j') (nl + nr)) in HS by lia.
  apply app_inj_1 in HS as [H1 H2]; [|rewrite length_slice, Hlen; [done|rewrite merged_length; lia]].
  destruct (IH i' j' ltac:(lia) ltac:(lia) HT H2) as [HG HC]. split.
  - constructor; [|done]. unfold goodMorsel. rewrite El, Er. split; [lia|]. split; [lia|done].
  - intros k Hk. destruct (decide (k < i' + j')).
    + exists m. split; [left|]. unfold writes. rewrite El, Er. fold i' j'. lia.
    + destruct (HC k ltac:(lia)) as (m' & Hm' & Hw). exists m'. split; [by right|done].
Qed.

(** The threads merge the morsels one after the other, in some order. *)
Fixpoint runMorsels (fuel : nat) (ms : list KeyBlockMergeMorsel) (res : MergedKeyBlocks) : outcome MergedKeyBlocks :=
  match ms with
  | [] => Ok res
  | m :: ms => let* res := mergeKeyBlocks gt fuel left right m res in runMorsels fuel ms res
  end.

Lemma written_lookup F s k out F' T i :
  written F s k out F' -> out = slice T s k -> k <= length T ->
  F' !! i = if decide (s <= i < k) then T !! i else F !! i.
Proof using Type.
  intros (-> & Hl & Hs & Hk) -> HkT. destruct (decide (s <= i < k)) as [Hi|Hi].
  - rewrite lookup_app_r, lookup_app_l by (rewrite ?length_take, ?length_slice; lia).
    rewrite length_take, slice_lookup. rewrite decide_True by lia. f_equal. lia.
  - destruct (decide (i < s)).
    + rewrite lookup_app_l by (rewrite length_take; lia). by rewrite lookup_take_lt.
    + rewrite !lookup_app_r by (rewrite ?length_take, ?length_slice; lia).
      rewrite length_take, length_slice, lookup_drop by lia. f_equal. lia.
Qed.

#[export] Instance writes_dec m k : Decision (writes m k) := _.

(** One morsel writes its part of the merged run and leaves the rest. *)
Lemma mergeGood_ok fuel m res :
  goodMorsel m -> blocksOK res -> nl + nr <= length (flat res) -> nl + nr < fuel ->
  exists res', mergeKeyBlocks gt fuel left right m res = Ok res' /\ blocksOK res' /\ numTuples res' = numTuples res /\
    nl + nr <= length (flat res') /\
    forall k, flat res' !! k = if decide (writes m k) then merged !! k else flat res !! k.
Proof using Hleft Hright.
  intros (Hl & Hr & Hm) Hres Hlen Hf.
  destruct m as [ls le rs re]. cbn [leftKeyBlockStartIdx leftKeyBlockEndIdx rightKeyBlockStartIdx rightKeyBlockEndIdx] in *.
  destruct (mergeKeyBlocks_ok gt left right Hleft Hright ls le rs re (proj2 Hl) (proj2 Hr) fuel res)
    as (res1 & E & HW & Hres1 & _ & Hnum); [done|lia|lia|lia|lia|].
  exists res1. split; [done|]. split; [done|]. split; [done|].
  assert (Hrem : remaining gt left right le re ls rs = slice merged (ls + rs) (le + re)).
  { rewrite <- Hm. unfold remaining, morselMerge, tuplesOf.
    cbn [leftKeyBlockStartIdx leftKeyBlockEndIdx rightKeyBlockStartIdx rightKeyBlockEndIdx].
    by rewrite !slice_take by lia. }
  split; [destruct HW as (-> & Hout & Hs & Hk); rewrite !length_app, length_take, length_drop; lia|].
  intros k. unfold writes. cbn [leftKeyBlockStartIdx leftKeyBlockEndIdx rightKeyBlockStartIdx rightKeyBlockEndIdx].
  eapply written_lookup; [exact HW|done|rewrite merged_length; lia].
Qed.

(** What a task has handed out and has still to hand out. *)
Definition restOK (i j : nat) : Prop := rest (Nat.min i nl) j = slice merged (Nat.min i nl + j) (nl + nr).

Lemma restOK_0 : restOK 0 0.
Proof using Hleft Hright. unfold restOK. cbn. rewrite rest_0, <- merged_length. by rewrite slice_full. Qed.

Lemma getMorsel_good batch i j a :
  0 < batch -> taskOK i j -> restOK i j -> hasMorselLeft (mkTask left right i j a) = true ->
  exists i' j' m, getMorsel gt batch (mkTask left right i j a) = Ok (m, mkTask left right i' j' (a + 1)) /\
    taskOK i' j' /\ restOK i' j' /\ goodMorsel m /\ i < i' /\ i < nl /\
    forall k, Nat.min i nl + j <= k < Nat.min i' nl + j' -> writes m k.
Proof using Hgt Hleft Hright PL PR SL SR CompareOrder0.
  intros Hb HT HR Hm. destruct (getMorsel_ok batch i j a Hb HT Hm) as (i' & j' & m & E & Em & HT' & Hi & Hil & Hj & HE).
  exists i', j', m. split; [done|]. split; [done|]. unfold restOK in *. rewrite (Nat.min_l i) in * by lia.
  assert (Hlen : length (morselMerge m) = (Nat.min i' nl + j') - (i + j)).
  { subst m. unfold morselMerge. cbn [leftKeyBlockStartIdx leftKeyBlockEndIdx rightKeyBlockStartIdx rightKeyBlockEndIdx].
    destruct HT'. rewrite mergeLists_perm, length_app, !length_slice by (rewrite tuplesOf_length by done; lia). lia. }
  destruct HT' as [HT1 HT2]. rewrite HR, (slice_app merged (i + j) (Nat.min i' nl + j') (nl + nr)) in HE by lia.
  apply app_inj_1 in HE as [H1 H2]; [|rewrite length_slice, Hlen; [done|rewrite merged_length; lia]].
  split; [done|]. split; [|split; [done|split; [done|]]].
  - subst m. unfold goodMorsel. cbn [leftKeyBlockStartIdx leftKeyBlockEndIdx rightKeyBlockStartIdx rightKeyBlockEndIdx].
    split; [lia|]. split; [lia|done].
  - intros k Hk. subst m. unfold writes. cbn. lia.
Qed.

Lemma runMorsels_ok fuel ms : forall res,
  Forall goodMorsel ms -> blocksOK res -> nl + nr <= length (flat res) -> nl + nr < fuel ->
  exists res', runMorsels fuel ms res = Ok res' /\ blocksOK res' /\ numTuples res' = numTuples res /\
    nl + nr <= length (flat res') /\
    forall k, (exists m, m ∈ ms /\ writes m k) \/ flat res !! k = merged !! k -> flat res' !! k = merged !! k.
Proof using Hleft Hright.
  induction ms as [|m ms IH]; intros res HG Hres Hlen Hf; cbn [runMorsels].
  { exists res. split; [done|]. split; [done|]. split; [done|]. split; [done|].
    intros k [(m & Hm & _)|Hk]; [|done]. by apply not_elem_of_nil in Hm. }
  inversion_clear HG as [|?? Hm HG'].
  destruct (mergeGood_ok fuel m res Hm Hres Hlen Hf) as (res1 & E & Hres1 & Hnum & Hlen1 & Hlk).
  rewrite E. cbn [obind].
  destruct (IH res1 HG' Hres1 Hlen1 Hf) as (res' & E' & Hres' & Hn' & Hlen' & HK). exists res'.
  split; [done|]. split; [done|]. split; [congruence|]. split; [done|].
  intros k Hk. apply HK. rewrite Hlk. destruct (decide (writes m k)) as [Hd|Hd]; [by right|].
  destruct Hk as [(m' & [->|Hm']%elem_of_cons & Hw)|Hk]; [done| |by right]. left. by exists m'.
Qed.

(** A result that agrees with the merged run everywhere is the merged run. *)
Lemma result_merged res :
  blocksOK res -> numTuples res = nl + nr -> (forall k, k < nl + nr -> flat res !! k = merged !! k) ->
  tuplesOf res = merged.
Proof using Hleft Hright.
  intros Hres Hn HK. apply list_eq. intros k. unfold tuplesOf. rewrite Hn.
  destruct (decide (k < nl + nr)) as [Hk|Hk].
  - rewrite lookup_take_lt by done. by apply HK.
  - rewrite lookup_take_ge by lia. rewrite lookup_ge_None_2; [done|]. rewrite merged_length. lia.
Qed.

Lemma runMorsels_merged fuel ms ms' res :
  tiled 0 0 ms -> rest 0 0 = mjoin (morselMerge <$> ms) -> ms' ≡ₚ ms ->
  blocksOK res -> numTuples res = nl + nr -> nl + nr < fuel ->
  exists res', runMorsels fuel ms' res = Ok res' /\ blocksOK res' /\ tuplesOf res' = merged.
Proof using Hleft Hright.
  intros HT HR HP Hres Hn Hf.
  destruct (tiled_good ms 0 0 ltac:(lia) ltac:(lia) HT) as [HG HC].
  { rewrite <- HR, rest_0. rewrite <- merged_length. cbn. by rewrite slice_full. }
  destruct (runMorsels_ok fuel ms' res) as (res' & E & Hres' & Hn' & Hlen & HK).
  - by rewrite HP.
  - done.
  - pose proof (bo_num _ Hres). lia.
  - done.
  - exists res'. split; [done|]. split; [done|]. apply result_merged; [done|congruence|].
    intros k Hk. apply HK. left. destruct (HC k ltac:(lia)) as (m & Hm & Hw). exists m. by rewrite HP.
Qed.
End tasks.

(** ** Runs of rows *)
Section runs.
Context (le : bool) (getTableData : Z -> Z -> Z -> nat -> list Z) (cols : list sortColumn).
Local Abbreviation encodes := (encodesRow le (mergeTableStr getTableData) cols).

(** A run: blocks whose tuples encode rows in the order of the clause. *)
Record runOf (mb : MergedKeyBlocks) (rows : list (list (option keyValue))) : Prop := {
  run_blocks : blocksOK mb;
  run_rows : Forall2 encodes rows (tuplesOf mb);
  run_mergeable : Forall (mergeable cols) rows;
  run_sorted : rowsSorted cols rows
}.

Definition rowTuple (t : tuple) : Prop := exists row, encodes row t /\ mergeable cols row.

Definition tupleCompare : tuple -> tuple -> comparison :=
  colsCompare (mergeTableStr getTableData) (keyBytes cols) (initStrKeyCols 0 cols) 0.

Lemma run_rowTuples mb rows : runOf mb rows -> Forall rowTuple (tuplesOf mb).
Proof.
  intros [_ HF HM _]. induction HF as [|row t rows ts Hr HF IH]; [constructor|].
  inversion_clear HM. constructor; [by exists row|by apply IH].
Qed.

Lemma run_tuples_sorted mb rows : runOf mb rows -> StronglySorted (cmpLe tupleCompare) (tuplesOf mb).
Proof.
  intros [_ HF _ HS]. eapply (StronglySorted_Forall2 (flip encodes)); [by apply Forall2_flip| |exact HS].
  intros x y r1 r2 H1 H2. unfold cmpLe, tupleCompare. by rewrite (encodedRows_compare le _ cols r1 r2).
Qed.

Lemma run_gt x y : rowTuple x -> rowTuple y ->
  compareTuplePtr getTableData (keyBytes cols) (initStrKeyCols 0 cols) x y = isGt (tupleCompare x y).
Proof. intros (r1 & H1 & M1) (r2 & H2 & M2). by apply (compareTuplePtr_colsCompare le _ cols r1 r2). Qed.

Lemma merged_run left right rowsL rowsR res :
  runOf left rowsL -> runOf right rowsR -> blocksOK res ->
  tuplesOf res = merged (compareTuplePtr getTableData (keyBytes cols) (initStrKeyCols 0 cols)) left right ->
  exists rows, runOf res rows /\ rows ≡ₚ rowsL ++ rowsR.
Proof.
  intros HL HR Hres E.
  assert (HP : tuplesOf res ≡ₚ tuplesOf left ++ tuplesOf right) by (rewrite E; apply mergeLists_perm).
  destruct (Forall2_perm_r encodes (rowsL ++ rowsR) (tuplesOf left ++ tuplesOf right) (tuplesOf res))
    as (rows & HPr & HF); [apply Forall2_app; [apply HL|apply HR]|done|].
  exists rows. split; [|done]. split; [done|done| |].
  - rewrite HPr. apply Forall_app. split; [apply HL|apply HR].
  - eapply StronglySorted_Forall2; [exact HF| |rewrite E; apply (mergeLists_sorted _ tupleCompare rowTuple run_gt)].
    + intros r1 r2 x y H1 H2. unfold cmpLe, tupleCompare. by rewrite (encodedRows_compare le _ cols r1 r2).
    + by eapply run_rowTuples.
    + by eapply run_rowTuples.
    + by eapply run_tuples_sorted.
    + by eapply run_tuples_sorted.
Qed.
End runs.

(** A merge task merges: from two sorted runs it hands out finitely many morsels, and
    whatever order the threads merge them in, each walk through the blocks ends and the
    result is one sorted run with the rows of both.  For clauses without strings, or
    that end in a string column without nulls. *)
Theorem merge_task_sorts le getTableData cols left right rowsL rowsR res batch :
  runOf le getTableData cols left rowsL -> runOf le getTableData cols right rowsR ->
  0 < numTuples left -> 0 < batch -> blocksOK res -> numTuples res = numTuples left + numTuples right ->
  let gt := compareTuplePtr getTableData (keyBytes cols) (initStrKeyCols 0 cols) in
  exists ms, takeMorsels gt (numTuples left) batch (mkTask left right 0 0 0) = Ok ms /\
  forall ms', ms' ≡ₚ ms ->
  exists res' rows, runMorsels gt left right (S (numTuples left + numTuples right)) ms' res = Ok res' /\
    runOf le getTableData cols res' rows /\ rows ≡ₚ rowsL ++ rowsR.
Proof.
  intros HL HR Hnl Hb Hres Hn gt.
  pose proof (run_blocks _ _ _ _ _ HL) as BL. pose proof (run_blocks _ _ _ _ _ HR) as BR.
  destruct (takeMorsels_ok gt (tupleCompare getTableData cols) (rowTuple le getTableData cols)
    (run_gt le getTableData cols) left right BL BR (run_rowTuples _ _ _ _ _ HL) (run_rowTuples _ _ _ _ _ HR)
    (run_tuples_sorted _ _ _ _ _ HL) (run_tuples_sorted _ _ _ _ _ HR) batch (numTuples left) 0 0 0)
    as (ms & E & HT & HM); [done|split; lia|lia|].
  exists ms. split; [done|]. intros ms' HP. cbn [Nat.min] in HT, HM.
  destruct (runMorsels_merged gt left right BL BR (S (numTuples left + numTuples right)) ms ms' res)
    as (res' & E' & Hres' & HE); [done|done|done|done|done|lia|].
  destruct (merged_run le getTableData cols left right rowsL rowsR res' HL HR Hres' HE) as (rows & Hrun & Hrows).
  exists res', rows. done.
Qed.

Lemma mjoin_replicate_length {A} n (l : list A) : length (mjoin (replicate n l)) = n * length l.
Proof.
  induction n as [|n IH]; [done|]. change (length (l ++ mjoin (replicate n l)) = length l + n * length l).
  by rewrite length_app, IH.
Qed.

(** The result of a task has room for both runs. *)
Lemma newMergedKeyBlocks_ok bytes per n : 0 < per -> blocksOK (newMergedKeyBlocks bytes per n).
Proof.
  intros Hp. split; [done| |].
  - cbn. apply Forall_replicate, length_replicate.
  - unfold flat. cbn. rewrite mjoin_replicate_length, length_replicate.
    pose proof (Nat.div_mod_eq n per). pose proof (Nat.mod_upper_bound n per ltac:(lia)).
    destruct (Nat.eqb_spec (n mod per) 0); nia.
Qed.

Definition intCols : list sortColumn := [exKey true (TInt 2) 0].

Definition intRun (vs : list Z) : MergedKeyBlocks :=
  ofKeyBlock (length vs) (length vs) ((fun v => encodeTuple intCols [Some (KInt 2 v)] v) <$> vs).

Lemma intRun_ok vs :
  vs <> [] -> Forall (fun v => (-10 < v < 10)%Z) vs -> StronglySorted (fun a b => (a <= b)%Z) vs ->
  runOf true noTable intCols (intRun vs) ((fun v => [Some (KInt 2 v)]) <$> vs).
Proof.
  intros Hne Hv HS. split.
  - split; cbn.
    + destruct vs; [done|cbn; lia].
    + repeat constructor. by rewrite length_fmap.
    + unfold flat. cbn. by rewrite app_nil_r, length_fmap.
  - unfold tuplesOf, intRun, flat, ofKeyBlock. cbn [numTuples keyBlocks mjoin list_join].
    rewrite app_nil_r, take_ge by (by rewrite length_fmap). clear Hne HS.
    induction Hv as [|v vs Hv _ IH]; cbn [fmap list_fmap]; constructor; [|done].
    apply encodeTuple_encodes; row_solve.
  - apply Forall_fmap, Forall_true. intros v. left. repeat constructor.
  - unfold rowsSorted. eapply StronglySorted_fmap; [|exact HS]. intros a b Hab. cbv beta in Hab. cbn.
    destruct (Z.compare_spec a b); cbn; [done|done|lia].
Qed.

Lemma merge_task_sorts_witness :
  let gt := compareTuplePtr noTable (keyBytes intCols) (initStrKeyCols 0 intCols) in
  exists ms, takeMorsels gt 3 2 (mkTask (intRun [1; 3; 5]%Z) (intRun [2; 4]%Z) 0 0 0) = Ok ms /\
  forall ms', ms' ≡ₚ ms ->
  exists res' rows, runMorsels gt (intRun [1; 3; 5]%Z) (intRun [2; 4]%Z) 6 ms' (newMergedKeyBlocks 11 2 5) = Ok res' /\
    runOf true noTable intCols res' rows /\
    rows ≡ₚ ((fun v => [Some (KInt 2 v)]) <$> [1; 3; 5]%Z) ++ ((fun v => [Some (KInt 2 v)]) <$> [2; 4]%Z).
Proof.
  apply (merge_task_sorts true noTable intCols (intRun [1; 3; 5]%Z) (intRun [2; 4]%Z)
    ((fun v => [Some (KInt 2 v)]) <$> [1; 3; 5]%Z) ((fun v => [Some (KInt 2 v)]) <$> [2; 4]%Z)
    (newMergedKeyBlocks 11 2 5) 2).
  - apply intRun_ok; [discriminate|repeat constructor|repeat constructor; lia].
  - apply intRun_ok; [discriminate|repeat constructor|repeat constructor; lia].
  - cbn. lia.
  - lia.
  - apply newMergedKeyBlocks_ok. lia.
  - reflexivity.
Defined.
