(* ===== verification/MergeDispatcher.v ===== *)
(** * The merge of all runs (src/processor/operator/order_by/key_block_merger.cpp,
      KeyBlockMergeTaskDispatcher; src/processor/operator/order_by/order_by_merge.cpp)

    Threads ask the dispatcher for a morsel, merge it without holding the dispatcher's
    lock, and give it back.  The dispatcher pairs the sorted runs of its queue into merge
    tasks and puts the result of a task back into the queue when its last morsel is given
    back.

    A state is the dispatcher with the morsels the threads hold; a step is one critical
    section of a thread ([get], [done]) or the merge of a held morsel.  The theorems: in
    every reachable state the queue holds sorted runs and no row is lost or duplicated;
    as long as the merge is not done some thread can take a step; every step decreases a
    measure; so every schedule ends, with one sorted run of all rows. *)

From S2P Require Import Prelude Serializer OrderByKey Compare RadixSort OrderBySort KeyBlockMerger MergeTask.
From stdpp Require Import base list numbers sorting relations.
Local Open Scope nat_scope.

Local Abbreviation tuple := (list Z).
Local Abbreviation row := (list (option keyValue)).

(** A task under way: its identity, its counters and its result. *)
Record activeTask : Type := mkActive {
  taskId : nat;
  mergeTask : KeyBlockMergeTask;
  resultKeyBlock : MergedKeyBlocks
}.

Record KeyBlockMergeTaskDispatcher : Type := mkDispatcher {
  sortedKeyBlocks : list MergedKeyBlocks;
  activeKeyBlockMergeTasks : list activeTask;
  nextTaskId : nat
}.

(** A morsel a thread holds, merged or not. *)
Record heldMorsel : Type := mkHeld {
  heldTask : nat;
  heldRange : KeyBlockMergeMorsel;
  heldMerged : bool
}.

Record system : Type := mkSystem {
  dispatcher : KeyBlockMergeTaskDispatcher;
  held : list heldMorsel
}.

Section operations.
Context (gt : tuple -> tuple -> bool) (batch numBytesPerTuple perBlock : nat).

Definition isDoneMerge (d : KeyBlockMergeTaskDispatcher) : bool :=
  (length (sortedKeyBlocks d) <=? 1) && (length (activeKeyBlockMergeTasks d) =? 0).

(** The second branch of [getMorsel]: a new task for the first two runs of the queue. *)
Definition newMergeTask (d : KeyBlockMergeTaskDispatcher)
    : outcome (option (nat * KeyBlockMergeMorsel) * KeyBlockMergeTaskDispatcher) :=
  match sortedKeyBlocks d with
  | l :: r :: q =>
      let result := newMergedKeyBlocks numBytesPerTuple perBlock (numTuples l + numTuples r) in
      let* m := getMorsel gt batch (mkTask l r 0 0 0) in
      Ok (Some (nextTaskId d, fst m),
          mkDispatcher q (activeKeyBlockMergeTasks d ++ [mkActive (nextTaskId d) (snd m) result])
            (S (nextTaskId d)))
  | _ => Ok (None, d)
  end.

(** [KeyBlockMergeTaskDispatcher::getMorsel] *)
Definition dispatcherGetMorsel (d : KeyBlockMergeTaskDispatcher)
    : outcome (option (nat * KeyBlockMergeMorsel) * KeyBlockMergeTaskDispatcher) :=
  if isDoneMerge d then Ok (None, d)
  else
    match last (activeKeyBlockMergeTasks d) with
    | Some t =>
        if hasMorselLeft (mergeTask t) then
          let* m := getMorsel gt batch (mergeTask t) in
          Ok (Some (taskId t, fst m),
              mkDispatcher (sortedKeyBlocks d)
                (removelast (activeKeyBlockMergeTasks d) ++ [mkActive (taskId t) (snd m) (resultKeyBlock t)])
                (nextTaskId d))
        else newMergeTask d
    | None => newMergeTask d
    end.

Definition setActive (task : KeyBlockMergeTask) (n : nat) : KeyBlockMergeTask :=
  mkTask (leftKeyBlock task) (rightKeyBlock task) (leftKeyBlockNextIdx task) (rightKeyBlockNextIdx task) n.

(** Change the task with an identity. *)
Definition updateTask (id : nat) (f : activeTask -> activeTask) (ts : list activeTask) : list activeTask :=
  (fun t => if taskId t =? id then f t else t) <$> ts.

(** [KeyBlockMergeTaskDispatcher::doneMorsel], for a morsel of the task [t]. *)
Definition doneMorsel (t : activeTask) (d : KeyBlockMergeTaskDispatcher) : KeyBlockMergeTaskDispatcher :=
  let n := activeMorsels (mergeTask t) - 1 in
  if (n =? 0) && negb (hasMorselLeft (mergeTask t)) then
    mkDispatcher (sortedKeyBlocks d ++ [resultKeyBlock t])
      (filter (fun t' => taskId t' <> taskId t) (activeKeyBlockMergeTasks d)) (nextTaskId d)
  else
    mkDispatcher (sortedKeyBlocks d)
      (updateTask (taskId t) (fun t' => mkActive (taskId t') (setActive (mergeTask t') n) (resultKeyBlock t'))
         (activeKeyBlockMergeTasks d))
      (nextTaskId d).

Definition setResult (id : nat) (res : MergedKeyBlocks) (d : KeyBlockMergeTaskDispatcher) : KeyBlockMergeTaskDispatcher :=
  mkDispatcher (sortedKeyBlocks d)
    (updateTask id (fun t => mkActive (taskId t) (mergeTask t) res) (activeKeyBlockMergeTasks d)) (nextTaskId d).

(** [OrderByMerge::executeInternal], one thread alone: take, merge, give back. *)
Fixpoint executeInternal (fuel : nat) (d : KeyBlockMergeTaskDispatcher) : outcome KeyBlockMergeTaskDispatcher :=
  if isDoneMerge d then Ok d
  else
    match fuel with
    | O => Err Blocked
    | S fuel =>
        let* r := dispatcherGetMorsel d in
        match fst r with
        | None => executeInternal fuel (snd r)
        | Some (id, m) =>
            match list_find (fun t => taskId t = id) (activeKeyBlockMergeTasks (snd r)) with
            | None => Err Blocked
            | Some (_, t) =>
                let* res := mergeKeyBlocks gt (S (numTuples (leftKeyBlock (mergeTask t)) + numTuples (rightKeyBlock (mergeTask t))))
                  (leftKeyBlock (mergeTask t)) (rightKeyBlock (mergeTask t)) m (resultKeyBlock t) in
                executeInternal fuel
                  (doneMorsel (mkActive (taskId t) (mergeTask t) res) (setResult (taskId t) res (snd r)))
            end
        end
    end.

(** The steps of the threads ([OrderByMerge::executeInternal]); asking for a morsel in
    vain changes nothing. *)
Inductive step : system -> system -> Prop :=
| step_get d hs id m d' :
    dispatcherGetMorsel d = Ok (Some (id, m), d') ->
    step (mkSystem d hs) (mkSystem d' (hs ++ [mkHeld id m false]))
| step_merge d h1 h2 t m res :
    t ∈ activeKeyBlockMergeTasks d ->
    mergeKeyBlocks gt (S (numTuples (leftKeyBlock (mergeTask t)) + numTuples (rightKeyBlock (mergeTask t))))
      (leftKeyBlock (mergeTask t)) (rightKeyBlock (mergeTask t)) m (resultKeyBlock t) = Ok res ->
    step (mkSystem d (h1 ++ mkHeld (taskId t) m false :: h2))
         (mkSystem (setResult (taskId t) res d) (h1 ++ mkHeld (taskId t) m true :: h2))
| step_done d h1 h2 t m :
    t ∈ activeKeyBlockMergeTasks d ->
    step (mkSystem d (h1 ++ mkHeld (taskId t) m true :: h2)) (mkSystem (doneMorsel t d) (h1 ++ h2)).

End operations.

(** ** The invariant *)
Definition heldOf (id : nat) (hs : list heldMorsel) : list heldMorsel := filter (fun h => heldTask h = id) hs.

Section invariant.
Context (le : bool) (getTableData : Z -> Z -> Z -> nat -> list Z) (cols : list sortColumn).
Context (batch numBytesPerTuple perBlock : nat) (Hbatch : 0 < batch) (HperBlock : 0 < perBlock).
Local Abbreviation gt := (compareTuplePtr getTableData (keyBytes cols) (initStrKeyCols 0 cols)).
Local Abbreviation tstep := (step gt batch numBytesPerTuple perBlock).
Local Abbreviation lefts t := (leftKeyBlock (mergeTask t)).
Local Abbreviation rights t := (rightKeyBlock (mergeTask t)).
Local Abbreviation nextL t := (leftKeyBlockNextIdx (mergeTask t)).
Local Abbreviation nextR t := (rightKeyBlockNextIdx (mergeTask t)).

(** A run of the queue: sorted rows, not empty. *)
Definition queuedRun (mb : MergedKeyBlocks) (rows : list row) : Prop :=
  runOf le getTableData cols mb rows /\ 0 < numTuples mb.

(** Every tuple of the result up to the last morsel handed out is there, or a thread
    holds the morsel that will write it. *)
Definition resultCovered (hs : list heldMorsel) (t : activeTask) : Prop :=
  forall k, k < Nat.min (nextL t) (numTuples (lefts t)) + nextR t ->
    flat (resultKeyBlock t) !! k = merged gt (lefts t) (rights t) !! k \/
    exists h, h ∈ hs /\ heldMerged h = false /\ writes (heldRange h) k.

(** A task with the morsels [hs] held. *)
Record taskInv (hs : list heldMorsel) (t : activeTask) (rows : list row) : Prop := {
  ti_runs : exists rowsL rowsR, rows = rowsL ++ rowsR /\ queuedRun (lefts t) rowsL /\ queuedRun (rights t) rowsR;
  ti_result : blocksOK (resultKeyBlock t);
  ti_num : numTuples (resultKeyBlock t) = numTuples (lefts t) + numTuples (rights t);
  ti_task : taskOK (lefts t) (rights t) (nextL t) (nextR t);
  ti_rest : restOK gt (lefts t) (rights t) (nextL t) (nextR t);
  ti_active : activeMorsels (mergeTask t) = length hs;
  ti_good : Forall (fun h => goodMorsel gt (lefts t) (rights t) (heldRange h)) hs;
  ti_covered : resultCovered hs t;
  ti_busy : hs <> [] \/ hasMorselLeft (mergeTask t) = true
}.

Record sysInv (rows0 : list row) (s : system) : Prop := {
  si_runs : exists rowsQ rowsA,
    Forall2 queuedRun (sortedKeyBlocks (dispatcher s)) rowsQ /\
    Forall2 (fun t => taskInv (heldOf (taskId t) (held s)) t) (activeKeyBlockMergeTasks (dispatcher s)) rowsA /\
    mjoin rowsQ ++ mjoin rowsA ≡ₚ rows0;
  si_nodup : NoDup (taskId <$> activeKeyBlockMergeTasks (dispatcher s));
  si_fresh : Forall (fun t => taskId t < nextTaskId (dispatcher s)) (activeKeyBlockMergeTasks (dispatcher s));
  si_held : Forall (fun h => heldTask h ∈ taskId <$> activeKeyBlockMergeTasks (dispatcher s)) (held s)
}.

Lemma mkTask_eta t : mkTask (leftKeyBlock t) (rightKeyBlock t) (leftKeyBlockNextIdx t) (rightKeyBlockNextIdx t) (activeMorsels t) = t.
Proof. by destruct t. Qed.

Lemma heldOf_other id id' h h1 h2 :
  heldTask h = id -> id' <> id -> heldOf id' (h1 ++ h :: h2) = heldOf id' (h1 ++ h2).
Proof. intros E Hne. unfold heldOf. rewrite !filter_app, filter_cons_False by congruence. done. Qed.

Lemma heldOf_self id h h1 h2 :
  heldTask h = id -> heldOf id (h1 ++ h :: h2) = heldOf id h1 ++ h :: heldOf id h2.
Proof. intros E. unfold heldOf. by rewrite filter_app, filter_cons_True by done. Qed.

(** A task in the list, between the others. *)
Lemma NoDup_middle (pre post : list activeTask) t :
  NoDup (taskId <$> (pre ++ t :: post)) ->
  Forall (fun t' => taskId t' <> taskId t) (pre ++ post) /\ NoDup (taskId <$> (pre ++ post)).
Proof.
  rewrite fmap_app. cbn. intros H. rewrite <- Permutation_middle in H. apply NoDup_cons in H as [Hn Hd].
  rewrite fmap_app. split; [|done]. apply Forall_forall. intros t' Ht' E. apply Hn. rewrite <- E, <- fmap_app.
  by apply list_elem_of_fmap_2.
Qed.

Lemma updateTask_middle pre post t f :
  Forall (fun t' => taskId t' <> taskId t) (pre ++ post) ->
  updateTask (taskId t) f (pre ++ t :: post) = pre ++ f t :: post.
Proof.
  intros H. apply Forall_app in H as [H1 H2]. unfold updateTask. rewrite fmap_app, fmap_cons, Nat.eqb_refl.
  assert (G : forall l, Forall (fun t' => taskId t' <> taskId t) l ->
    (fun t' => if taskId t' =? taskId t then f t' else t') <$> l = l).
  { intros l Hl. induction Hl as [|t' l Ht' _ IH]; [done|]. cbn. rewrite (proj2 (Nat.eqb_neq _ _)) by done.
    f_equal. exact IH. }
  by rewrite !G.
Qed.

Lemma filter_middle (pre post : list activeTask) t :
  Forall (fun t' => taskId t' <> taskId t) (pre ++ post) ->
  filter (fun t' => taskId t' <> taskId t) (pre ++ t :: post) = pre ++ post.
Proof.
  intros H. rewrite filter_app, filter_cons_False by naive_solver. rewrite <- filter_app. by apply filter_id.
Qed.

(** The other tasks do not notice a change of one task's held morsels. *)
Lemma tasks_same hs hs' id (ts : list activeTask) rows :
  Forall (fun t => taskId t <> id) ts -> (forall id', id' <> id -> heldOf id' hs' = heldOf id' hs) ->
  Forall2 (fun t => taskInv (heldOf (taskId t) hs) t) ts rows ->
  Forall2 (fun t => taskInv (heldOf (taskId t) hs') t) ts rows.
Proof.
  intros HN HH HF. induction HF as [|t r ts rows Ht HF IH]; [constructor|].
  inversion_clear HN as [|?? Hn HN']. constructor; [by rewrite HH|by apply IH].
Qed.

(** Replacing the task [t] by [t'], with other held morsels of the task. *)
Lemma replace_task hs hs' pre t t' post rowsA :
  taskId t' = taskId t -> Forall (fun t' => taskId t' <> taskId t) (pre ++ post) ->
  (forall id', id' <> taskId t -> heldOf id' hs' = heldOf id' hs) ->
  (forall rows, taskInv (heldOf (taskId t) hs) t rows -> taskInv (heldOf (taskId t) hs') t' rows) ->
  Forall2 (fun t => taskInv (heldOf (taskId t) hs) t) (pre ++ t :: post) rowsA ->
  Forall2 (fun t => taskInv (heldOf (taskId t) hs') t) (pre ++ t' :: post) rowsA.
Proof.
  intros Eid HN HH HT HF. apply Forall_app in HN as [HN1 HN2].
  apply Forall2_app_inv_l in HF as (r1 & r2 & HF1 & HF2 & ->).
  inversion HF2 as [|? r ? r2' Ht HF2' E1 E2]; subst. apply Forall2_app; [by eapply tasks_same|].
  constructor; [rewrite Eid; by apply HT|by eapply tasks_same].
Qed.

(** *** One task *)
Lemma task_get hs t rows id :
  taskInv hs t rows -> hasMorselLeft (mergeTask t) = true ->
  exists m task', getMorsel gt batch (mergeTask t) = Ok (m, task') /\
    taskInv (hs ++ [mkHeld id m false]) (mkActive (taskId t) task' (resultKeyBlock t)) rows /\
    leftKeyBlock task' = lefts t /\
    nextL t < leftKeyBlockNextIdx task' /\ nextL t < numTuples (lefts t).
Proof using Hbatch HperBlock.
  intros [(rowsL & rowsR & Er & [HL NL] & [HR NR]) Hres Hnum HT HRest HA HG HC _] Hm.
  destruct t as [tid [l r i j a] res]. cbn [mergeTask leftKeyBlock rightKeyBlock leftKeyBlockNextIdx
    rightKeyBlockNextIdx activeMorsels resultKeyBlock taskId] in *.
  destruct (getMorsel_good gt (tupleCompare getTableData cols) (rowTuple le getTableData cols)
    (run_gt le getTableData cols) l r (run_blocks _ _ _ _ _ HL) (run_blocks _ _ _ _ _ HR)
    (run_rowTuples _ _ _ _ _ HL) (run_rowTuples _ _ _ _ _ HR) (run_tuples_sorted _ _ _ _ _ HL)
    (run_tuples_sorted _ _ _ _ _ HR) batch i j a Hbatch HT HRest Hm) as (i' & j' & m & E & HT' & HR' & Hg & Hi & Hil & HW).
  exists m, (mkTask l r i' j' (a + 1)). split; [done|].
  split; [|cbn [leftKeyBlock leftKeyBlockNextIdx]; done].
  split; cbn [mergeTask leftKeyBlock rightKeyBlock leftKeyBlockNextIdx rightKeyBlockNextIdx activeMorsels resultKeyBlock].
  - by exists rowsL, rowsR.
  - done.
  - done.
  - done.
  - done.
  - rewrite length_app. cbn. lia.
  - apply Forall_app. split; [done|]. by constructor.
  - intros k Hk. cbn [mergeTask leftKeyBlock rightKeyBlock leftKeyBlockNextIdx rightKeyBlockNextIdx resultKeyBlock] in *.
    destruct (decide (k < Nat.min i (numTuples l) + j)) as [Hlt|Hge].
    + destruct (HC k Hlt) as [?|(h & Hh & Hhm & Hw)]; [by left|].
      right. exists h. split; [apply elem_of_app; by left|done].
    + right. exists (mkHeld id m false). split; [apply elem_of_app; right; left|]. split; [done|].
      apply HW. lia.
  - left. by destruct hs.
Qed.

Lemma task_new id l r rowsL rowsR :
  queuedRun l rowsL -> queuedRun r rowsR ->
  taskInv [] (mkActive id (mkTask l r 0 0 0) (newMergedKeyBlocks numBytesPerTuple perBlock (numTuples l + numTuples r)))
    (rowsL ++ rowsR) /\ hasMorselLeft (mkTask l r 0 0 0) = true.
Proof using Hbatch HperBlock.
  intros [HL NL] [HR NR].
  assert (Hm : hasMorselLeft (mkTask l r 0 0 0) = true).
  { unfold hasMorselLeft. cbn [leftKeyBlock leftKeyBlockNextIdx]. by rewrite (proj2 (Nat.ltb_lt 0 (numTuples l))). }
  split; [|done].
  split; cbn [mergeTask leftKeyBlock rightKeyBlock leftKeyBlockNextIdx rightKeyBlockNextIdx activeMorsels resultKeyBlock].
  - by exists rowsL, rowsR.
  - by apply newMergedKeyBlocks_ok.
  - done.
  - split; lia.
  - apply restOK_0; [apply HL|apply HR].
  - done.
  - constructor.
  - intros k Hk. cbn in Hk. lia.
  - by right.
Qed.

(** The merge of a held morsel succeeds, and afterwards its part of the result is there. *)
Lemma task_merge h1 h h2 t rows :
  taskInv (h1 ++ h :: h2) t rows ->
  exists res, mergeKeyBlocks gt (S (numTuples (lefts t) + numTuples (rights t))) (lefts t) (rights t)
                (heldRange h) (resultKeyBlock t) = Ok res /\
    taskInv (h1 ++ mkHeld (heldTask h) (heldRange h) true :: h2) (mkActive (taskId t) (mergeTask t) res) rows.
Proof using Hbatch HperBlock.
  intros [(rowsL & rowsR & Er & [HL NL] & [HR NR]) Hres Hnum HT HRest HA HG HC HB].
  pose proof HG as HG'. apply Forall_app in HG' as [HG1 HG2]. inversion_clear HG2 as [|?? Hgm HG2'].
  destruct (mergeGood_ok gt (lefts t) (rights t) (run_blocks _ _ _ _ _ HL) (run_blocks _ _ _ _ _ HR)
    (S (numTuples (lefts t) + numTuples (rights t))) (heldRange h) (resultKeyBlock t))
    as (res & E & Hres' & Hn' & Hlen & HK); [done|done|pose proof (bo_num _ Hres); lia|lia|].
  exists res. split; [done|].
  split; cbn [mergeTask resultKeyBlock].
  - by exists rowsL, rowsR.
  - done.
  - congruence.
  - done.
  - done.
  - rewrite length_app in *. done.
  - apply Forall_app. split; [done|]. by constructor.
  - intros k Hk. cbn [mergeTask resultKeyBlock] in *. rewrite HK.
    destruct (decide (writes (heldRange h) k)) as [Hd|Hd]; [by left|].
    destruct (HC k Hk) as [?|(h' & Hh & Hhm & Hw)]; [by left|]. right. exists h'. split; [|done].
    apply elem_of_app in Hh as [Hh|Hh]; apply elem_of_app; [by left|].
    apply elem_of_cons in Hh as [->|Hh]; [done|]. right. by right.
  - left. by destruct h1.
Qed.

(** Giving a merged morsel back, the task still under way. *)
Lemma task_done h1 h h2 t rows :
  taskInv (h1 ++ h :: h2) t rows -> heldMerged h = true ->
  (activeMorsels (mergeTask t) - 1 =? 0) && negb (hasMorselLeft (mergeTask t)) = false ->
  taskInv (h1 ++ h2) (mkActive (taskId t) (setActive (mergeTask t) (activeMorsels (mergeTask t) - 1)) (resultKeyBlock t)) rows.
Proof using Hbatch HperBlock.
  intros [HR Hres Hnum HT HRest HA HG HC HB] Hm Hbusy.
  assert (Hlen : activeMorsels (mergeTask t) - 1 = length (h1 ++ h2)).
  { rewrite HA, !length_app. cbn. lia. }
  split; cbn [mergeTask resultKeyBlock setActive leftKeyBlock rightKeyBlock leftKeyBlockNextIdx rightKeyBlockNextIdx activeMorsels];
    try done.
  - apply Forall_app in HG as [HG1 HG2]. inversion_clear HG2. apply Forall_app. done.
  - intros k Hk. destruct (HC k Hk) as [?|(h' & Hh & Hhm & Hw)]; [by left|]. right. exists h'. split; [|done].
    apply elem_of_app in Hh as [Hh|Hh]; apply elem_of_app; [by left|].
    apply elem_of_cons in Hh as [->|Hh]; [congruence|by right].
  - rewrite Hlen in Hbusy. destruct (h1 ++ h2); [|by left]. right. cbn in Hbusy.
    by destruct (hasMorselLeft (mergeTask t)) eqn:E; [unfold hasMorselLeft in *|].
Qed.

(** Giving the last morsel back: the result is a sorted run of the task's rows. *)
Lemma task_finish h1 h h2 t rows :
  taskInv (h1 ++ h :: h2) t rows -> heldMerged h = true ->
  (activeMorsels (mergeTask t) - 1 =? 0) && negb (hasMorselLeft (mergeTask t)) = true ->
  h1 ++ h2 = [] /\ exists rows', queuedRun (resultKeyBlock t) rows' /\ rows' ≡ₚ rows.
Proof using Hbatch HperBlock.
  intros [(rowsL & rowsR & -> & [HL NL] & [HR NR]) Hres Hnum HT HRest HA HG HC HB] Hm Hd.
  apply andb_true_iff in Hd as [Hd1 Hd2]. apply Nat.eqb_eq in Hd1. apply negb_true_iff in Hd2.
  unfold hasMorselLeft in Hd2. apply orb_false_elim in Hd2 as [E1 E2]. apply Nat.ltb_ge in E1, E2.
  assert (Hnil : h1 ++ h2 = []).
  { apply length_zero_iff_nil. rewrite HA, !length_app in Hd1. cbn in Hd1. rewrite length_app. lia. }
  split; [done|]. apply app_eq_nil in Hnil as [-> ->]. destruct HT as [HT1 HT2].
  destruct (merged_run le getTableData cols (lefts t) (rights t) rowsL rowsR (resultKeyBlock t) HL HR Hres)
    as (rows' & Hrun & HP).
  - apply result_merged; [apply HL|apply HR|done|done|]. intros k Hk.
    destruct (HC k) as [?|(h' & ->%list_elem_of_singleton & Hhm & _)]; [lia|done|congruence].
  - exists rows'. split; [|done]. split; [done|]. lia.
Qed.

(** *** The measure *)
Definition heldWork (h : heldMorsel) : nat := if heldMerged h then 1 else 2.
Definition taskWork (t : activeTask) : nat := numTuples (lefts t) - nextL t.

Definition work (N : nat) (s : system) : nat :=
  (3 * N + 3) * (4 * length (sortedKeyBlocks (dispatcher s)) + 6 * length (activeKeyBlockMergeTasks (dispatcher s))) +
  3 * sum_list_with taskWork (activeKeyBlockMergeTasks (dispatcher s)) + sum_list_with heldWork (held s).

Lemma queuedRun_length mb rows : queuedRun mb rows -> numTuples mb = length rows.
Proof using Type.
  intros [H _]. rewrite <- (tuplesOf_length mb) by apply H. symmetry. eapply Forall2_length. apply H.
Qed.

(** *** Steps *)
Lemma get_inv rows0 d hs t pre id m d' :
  sysInv rows0 (mkSystem d hs) -> activeKeyBlockMergeTasks d = pre ++ [t] -> hasMorselLeft (mergeTask t) = true ->
  (let* m := getMorsel gt batch (mergeTask t) in
   Ok (Some (taskId t, fst m), mkDispatcher (sortedKeyBlocks d)
        (pre ++ [mkActive (taskId t) (snd m) (resultKeyBlock t)]) (nextTaskId d))) = Ok (Some (id, m), d') ->
  sysInv rows0 (mkSystem d' (hs ++ [mkHeld id m false])) /\
  work (length rows0) (mkSystem d' (hs ++ [mkHeld id m false])) < work (length rows0) (mkSystem d hs).
Proof using Hbatch HperBlock.
  intros [(rowsQ & rowsA & HQ & HA & HP) Hnd Hfr Hhe] Ea Hm E. cbn [dispatcher held] in *. rewrite Ea in *.
  destruct (NoDup_middle pre [] t Hnd) as [HN _].
  assert (exists r, taskInv (heldOf (taskId t) hs) t r) as [r Hr].
  { apply Forall2_app_inv_l in HA as (? & r2 & _ & H2 & _). inversion H2. eauto. }
  destruct (task_get (heldOf (taskId t) hs) t r (taskId t) Hr Hm) as (m' & task' & EG & _ & El & Hi & Hil).
  rewrite EG in E. cbn [obind fst snd] in E. injection E as <- <- <-. split.
  - split; cbn [dispatcher held sortedKeyBlocks activeKeyBlockMergeTasks nextTaskId].
    + exists rowsQ, rowsA. split; [done|]. split; [|done].
      eapply (replace_task hs _ pre t _ []); [done|done| | |exact HA].
      * intros id' Hid. rewrite (heldOf_other (taskId t)) by done. by rewrite app_nil_r.
      * intros rows Ht. destruct (task_get _ t rows (taskId t) Ht Hm) as (m2 & task2 & EG2 & HT2 & _).
        rewrite EG in EG2. injection EG2 as <- <-. by rewrite heldOf_self.
    + by rewrite fmap_app in *.
    + apply Forall_app in Hfr as [Hf1 Hf2]. apply Forall_app. split; [done|]. by inversion_clear Hf2; constructor.
    + rewrite fmap_app in *. apply Forall_app. split; [done|]. constructor; [|constructor].
      apply elem_of_app. right. left.
  - unfold work. cbn [dispatcher held sortedKeyBlocks activeKeyBlockMergeTasks]. rewrite Ea.
    rewrite !length_app, !sum_list_with_app. cbn [sum_list_with length]. unfold taskWork, heldWork.
    cbn [mergeTask heldMerged]. rewrite El. lia.
Qed.

Lemma new_inv rows0 d hs l r q m task' :
  sysInv rows0 (mkSystem d hs) -> sortedKeyBlocks d = l :: r :: q ->
  getMorsel gt batch (mkTask l r 0 0 0) = Ok (m, task') ->
  let d' := mkDispatcher q (activeKeyBlockMergeTasks d ++
    [mkActive (nextTaskId d) task' (newMergedKeyBlocks numBytesPerTuple perBlock (numTuples l + numTuples r))])
    (S (nextTaskId d)) in
  sysInv rows0 (mkSystem d' (hs ++ [mkHeld (nextTaskId d) m false])) /\
  work (length rows0) (mkSystem d' (hs ++ [mkHeld (nextTaskId d) m false])) < work (length rows0) (mkSystem d hs).
Proof using Hbatch HperBlock.
  intros [(rowsQ & rowsA & HQ & HA & HP) Hnd Hfr Hhe] Eq EG d'. cbn [dispatcher held] in *. rewrite Eq in HQ.
  inversion HQ as [|? rl ? rowsQ1 HL HQ1 E1 E2]; subst. inversion HQ1 as [|? rr ? rowsQ2 HR HQ2 E1 E2]; subst.
  destruct (task_new (nextTaskId d) l r rl rr HL HR) as [HT Hm].
  destruct (task_get [] _ _ (nextTaskId d) HT Hm) as (m2 & task2 & EG2 & HT2 & El & Hi & Hil).
  cbn [mergeTask] in EG2. rewrite EG in EG2. injection EG2 as <- <-.
  assert (Hne : Forall (fun t => taskId t <> nextTaskId d) (activeKeyBlockMergeTasks d)).
  { eapply Forall_impl; [exact Hfr|]. cbn. lia. }
  assert (H0 : heldOf (nextTaskId d) hs = []).
  { unfold heldOf. clear -Hhe Hne. induction Hhe as [|h hs Hh _ IH]; [done|].
    rewrite filter_cons_False; [done|]. intros E. apply list_elem_of_fmap in Hh as (t & Et & Ht).
    eapply Forall_forall in Hne; [|exact Ht]. congruence. }
  split.
  - split; cbn [dispatcher held sortedKeyBlocks activeKeyBlockMergeTasks nextTaskId d'].
    + exists rowsQ2, (rowsA ++ [rl ++ rr]). split; [done|]. split.
      * apply Forall2_app.
        -- eapply (tasks_same hs _ (nextTaskId d)); [done| |done].
           intros id' Hid. rewrite (heldOf_other (nextTaskId d)) by done. by rewrite app_nil_r.
        -- constructor; [|constructor]. cbn [taskId]. rewrite heldOf_self by done. rewrite H0. exact HT2.
      * rewrite <- HP, join_app. cbn. rewrite app_nil_r, <- !app_assoc.
        rewrite (Permutation_app_comm (mjoin rowsQ2)), <- !app_assoc.
        rewrite (Permutation_app_comm (mjoin rowsA)), <- !app_assoc. done.
    + rewrite fmap_app. apply NoDup_app. split; [done|]. split; [|repeat constructor; by intros ?%not_elem_of_nil].
      intros i Hi' ->%list_elem_of_singleton. apply list_elem_of_fmap in Hi' as (t & Et & Ht).
      eapply Forall_forall in Hne; [|exact Ht]. cbn in Et. congruence.
    + apply Forall_app. split; [|constructor; [cbn; lia|constructor]]. eapply Forall_impl; [exact Hfr|]. cbn. lia.
    + rewrite fmap_app. apply Forall_app. split.
      * eapply Forall_impl; [exact Hhe|]. cbn. intros h Hh. apply elem_of_app. by left.
      * constructor; [|constructor]. apply elem_of_app. right. left.
  - unfold work. subst d'. cbn [dispatcher held sortedKeyBlocks activeKeyBlockMergeTasks]. rewrite Eq.
    rewrite !length_app, !sum_list_with_app. cbn [sum_list_with length]. unfold taskWork, heldWork.
    cbn [mergeTask heldMerged]. rewrite El. cbn [mergeTask leftKeyBlock].
    assert (numTuples l <= length rows0).
    { rewrite (queuedRun_length _ _ HL), <- HP, !length_app. cbn. rewrite !length_app. lia. }
    nia.
Qed.

(** The task of a held morsel, between the other tasks. *)
Lemma task_split rows0 d hs t :
  sysInv rows0 (mkSystem d hs) -> t ∈ activeKeyBlockMergeTasks d ->
  exists pre post, activeKeyBlockMergeTasks d = pre ++ t :: post /\
    Forall (fun t' => taskId t' <> taskId t) (pre ++ post) /\
    exists rows, taskInv (heldOf (taskId t) hs) t rows.
Proof using Hbatch HperBlock.
  intros [(rowsQ & rowsA & HQ & HA & HP) Hnd _ _] Ht. apply list_elem_of_split in Ht as (pre & post & E).
  cbn [dispatcher held] in *. rewrite E in *. exists pre, post. split; [done|].
  split; [by apply NoDup_middle|]. apply Forall2_app_inv_l in HA as (? & r2 & _ & H2 & _). inversion H2. eauto.
Qed.

Lemma merge_inv rows0 d h1 h2 t m res :
  sysInv rows0 (mkSystem d (h1 ++ mkHeld (taskId t) m false :: h2)) -> t ∈ activeKeyBlockMergeTasks d ->
  mergeKeyBlocks gt (S (numTuples (lefts t) + numTuples (rights t))) (lefts t) (rights t) m (resultKeyBlock t) = Ok res ->
  let s' := mkSystem (setResult (taskId t) res d) (h1 ++ mkHeld (taskId t) m true :: h2) in
  sysInv rows0 s' /\ work (length rows0) s' < work (length rows0) (mkSystem d (h1 ++ mkHeld (taskId t) m false :: h2)).
Proof using Hbatch HperBlock.
  intros HI Ht E s'. destruct (task_split _ _ _ _ HI Ht) as (pre & post & Ea & HN & _).
  destruct HI as [(rowsQ & rowsA & HQ & HA & HP) Hnd Hfr Hhe]. cbn [dispatcher held] in *. rewrite Ea in *.
  assert (Ea' : activeKeyBlockMergeTasks (setResult (taskId t) res d) = pre ++ mkActive (taskId t) (mergeTask t) res :: post).
  { unfold setResult. cbn [activeKeyBlockMergeTasks]. rewrite Ea. by rewrite updateTask_middle. }
  assert (Eid : taskId <$> (pre ++ mkActive (taskId t) (mergeTask t) res :: post) = taskId <$> (pre ++ t :: post)).
  { rewrite !fmap_app. done. }
  split.
  - subst s'. split; cbn [dispatcher held]; rewrite ?Ea', ?Eid; cbn [sortedKeyBlocks setResult nextTaskId].
    + exists rowsQ, rowsA. split; [done|]. split; [|done].
      eapply (replace_task (h1 ++ mkHeld (taskId t) m false :: h2) _ pre t _ post); [done|done| | |exact HA].
      * intros id' Hid. by rewrite !(heldOf_other (taskId t)).
      * intros rows HT. rewrite heldOf_self in HT by done. destruct (task_merge _ _ _ _ _ HT) as (res' & E' & HT').
        cbn [heldRange heldTask] in E', HT'. rewrite E in E'. injection E' as <-. by rewrite heldOf_self.
    + done.
    + apply Forall_app in Hfr as [Hf1 Hf2]. apply Forall_app. split; [done|]. inversion_clear Hf2. by constructor.
    + apply Forall_app in Hhe as [H1 H2]. apply Forall_app. split; [done|]. inversion_clear H2. by constructor.
  - subst s'. unfold work. cbn [dispatcher held]. rewrite Ea', Ea. cbn [sortedKeyBlocks setResult].
    rewrite !length_app, !sum_list_with_app. cbn [sum_list_with length].
    assert (heldWork (mkHeld (taskId t) m true) = 1) as -> by done.
    assert (heldWork (mkHeld (taskId t) m false) = 2) as -> by done. unfold taskWork. cbn [mergeTask]. lia.
Qed.

Lemma done_inv rows0 d h1 h2 t m :
  sysInv rows0 (mkSystem d (h1 ++ mkHeld (taskId t) m true :: h2)) -> t ∈ activeKeyBlockMergeTasks d ->
  let s' := mkSystem (doneMorsel t d) (h1 ++ h2) in
  sysInv rows0 s' /\ work (length rows0) s' < work (length rows0) (mkSystem d (h1 ++ mkHeld (taskId t) m true :: h2)).
Proof using Hbatch HperBlock.
  intros HI Ht s'. destruct (task_split _ _ _ _ HI Ht) as (pre & post & Ea & HN & r0 & HT0).
  destruct HI as [(rowsQ & rowsA & HQ & HA & HP) Hnd Hfr Hhe]. cbn [dispatcher held] in *. rewrite Ea in *.
  rewrite heldOf_self in HT0 by done.
  assert (Hoth : forall id', id' <> taskId t -> heldOf id' (h1 ++ h2) = heldOf id' (h1 ++ mkHeld (taskId t) m true :: h2)).
  { intros id' Hid. by rewrite (heldOf_other (taskId t)). }
  unfold doneMorsel in s'. destruct (_ && _) eqn:Ed in s'; subst s'.
  - destruct (task_finish _ _ _ _ _ HT0 eq_refl Ed) as (Hnil & _).
    apply Forall2_app_inv_l in HA as (rA1 & rA2 & HA1 & HA2 & ->). inversion HA2 as [|? rt ? rA3 HTt HA3 E1 E2]; subst.
    pose proof HTt as HTt'. rewrite heldOf_self in HTt' by done.
    destruct (task_finish _ _ _ _ _ HTt' eq_refl Ed) as (_ & rows' & Hrun & HPr).
    pose proof HN as HN'. apply Forall_app in HN' as [HN1 HN2]. split.
    + split; cbn [dispatcher held sortedKeyBlocks activeKeyBlockMergeTasks nextTaskId]; rewrite ?Ea, ?filter_middle by done.
      * exists (rowsQ ++ [rows']), (rA1 ++ rA3). split; [apply Forall2_app; [done|constructor; [done|constructor]]|].
        split; [apply Forall2_app; by eapply tasks_same|].
        rewrite <- HP, !join_app. cbn. rewrite app_nil_r, HPr, <- !app_assoc. f_equiv.
        rewrite !app_assoc. by rewrite (Permutation_app_comm rt).
      * by apply NoDup_middle in Hnd as [_ ?].
      * apply Forall_app in Hfr as [Hf1 Hf2]. apply Forall_app. split; [done|]. by inversion_clear Hf2.
      * apply Forall_forall. intros h Hh.
        assert (Hh' : heldTask h <> taskId t).
        { intros E. assert (Hin : h ∈ heldOf (taskId t) (h1 ++ h2)) by (by apply list_elem_of_filter).
          unfold heldOf in Hin. rewrite filter_app in Hin. fold (heldOf (taskId t) h1) (heldOf (taskId t) h2) in Hin.
          rewrite Hnil in Hin. by apply not_elem_of_nil in Hin. }
        assert (Hin : h ∈ h1 ++ mkHeld (taskId t) m true :: h2).
        { apply elem_of_app in Hh as [?|?]; apply elem_of_app; [by left|right; by right]. }
        eapply Forall_forall in Hhe; [|exact Hin]. rewrite fmap_app in Hhe |- *.
        apply elem_of_app in Hhe as [?|Hc]; apply elem_of_app; [by left|].
        rewrite fmap_cons in Hc. apply elem_of_cons in Hc as [?|?]; [done|by right].
    + unfold work. cbn [dispatcher held sortedKeyBlocks activeKeyBlockMergeTasks]. rewrite Ea, filter_middle by done.
      rewrite !length_app, !sum_list_with_app. cbn [sum_list_with length].
      assert (heldWork (mkHeld (taskId t) m true) = 1) as -> by done. nia.
  - assert (Eid : forall x, taskId x = taskId t -> taskId <$> (pre ++ x :: post) = taskId <$> (pre ++ t :: post)).
    { intros x Ex. rewrite !fmap_app, !fmap_cons. by rewrite Ex. }
    split.
    + split; cbn [dispatcher held sortedKeyBlocks activeKeyBlockMergeTasks nextTaskId]; rewrite ?Ea, ?updateTask_middle by done;
        rewrite ?Eid by done.
      * exists rowsQ, rowsA. split; [done|]. split; [|done].
        eapply (replace_task _ _ pre t _ post); [done|done|exact Hoth| |exact HA].
        intros rows HT. rewrite heldOf_self in HT by done. apply task_done in HT; [|done|done].
        unfold heldOf. by rewrite filter_app.
      * done.
      * apply Forall_app in Hfr as [Hf1 Hf2]. apply Forall_app. split; [done|]. inversion_clear Hf2. by constructor.
      * apply Forall_app in Hhe as [H1 H2]. apply Forall_app. split; [done|]. by inversion_clear H2.
    + unfold work. cbn [dispatcher held sortedKeyBlocks activeKeyBlockMergeTasks]. rewrite Ea, updateTask_middle by done.
      rewrite !length_app, !sum_list_with_app. cbn [sum_list_with length].
      assert (heldWork (mkHeld (taskId t) m true) = 1) as -> by done. unfold taskWork.
      cbn [mergeTask setActive leftKeyBlock leftKeyBlockNextIdx]. lia.
Qed.

Lemma newTask_inv rows0 d hs id m d' :
  sysInv rows0 (mkSystem d hs) -> newMergeTask gt batch numBytesPerTuple perBlock d = Ok (Some (id, m), d') ->
  sysInv rows0 (mkSystem d' (hs ++ [mkHeld id m false])) /\
  work (length rows0) (mkSystem d' (hs ++ [mkHeld id m false])) < work (length rows0) (mkSystem d hs).
Proof using Hbatch HperBlock.
  intros HI E. unfold newMergeTask in E. destruct (sortedKeyBlocks d) as [|l [|r q]] eqn:Eq; [done|done|].
  destruct (getMorsel gt batch (mkTask l r 0 0 0)) as [[m' task']|] eqn:EG; [|done].
  cbn [obind fst snd] in E. injection E as <- <- <-. by apply (new_inv rows0 d hs l r q).
Qed.

Lemma step_ok rows0 s s' :
  sysInv rows0 s -> tstep s s' -> sysInv rows0 s' /\ work (length rows0) s' < work (length rows0) s.
Proof using Hbatch HperBlock.
  intros HI HS. destruct HS as [d hs id m d' E|d h1 h2 t m res Ht E|d h1 h2 t m Ht].
  - unfold dispatcherGetMorsel in E. destruct (isDoneMerge d); [done|].
    destruct (last (activeKeyBlockMergeTasks d)) as [t|] eqn:El; [|by apply newTask_inv].
    destruct (hasMorselLeft (mergeTask t)) eqn:Em; [|by apply newTask_inv].
    apply last_Some in El as [pre Ea]. rewrite Ea, removelast_last in E. by eapply get_inv.
  - by eapply merge_inv.
  - by eapply done_inv.
Qed.

(** A morsel can be taken from a task that has one. *)
Lemma can_get d hs t pre rows :
  isDoneMerge d = false -> activeKeyBlockMergeTasks d = pre ++ [t] -> taskInv (heldOf (taskId t) hs) t rows ->
  hasMorselLeft (mergeTask t) = true -> exists s', tstep (mkSystem d hs) s'.
Proof using Hbatch HperBlock.
  intros Hd Ea HT Hm. destruct (task_get _ t rows (taskId t) HT Hm) as (m & task' & EG & _).
  eexists. apply step_get. unfold dispatcherGetMorsel. rewrite Hd, Ea, last_snoc, Hm, EG. reflexivity.
Qed.

(** A held morsel can be merged or given back. *)
Lemma can_work rows0 d hs t h :
  sysInv rows0 (mkSystem d hs) -> t ∈ activeKeyBlockMergeTasks d -> h ∈ heldOf (taskId t) hs ->
  exists s', tstep (mkSystem d hs) s'.
Proof using Hbatch HperBlock.
  intros HI Ht Hh. destruct (task_split _ _ _ _ HI Ht) as (pre & post & Ea & HN & rows & HT).
  apply list_elem_of_filter in Hh as [Eh Hh]. apply list_elem_of_split in Hh as (h1 & h2 & ->).
  destruct h as [id m b]. cbn [heldTask] in Eh. subst id. destruct b.
  - eexists. by apply step_done.
  - rewrite heldOf_self in HT by done. destruct (task_merge _ _ _ _ _ HT) as (res & E & _).
    eexists. by eapply step_merge.
Qed.

Lemma progress rows0 s : sysInv rows0 s -> isDoneMerge (dispatcher s) = false -> exists s', tstep s s'.
Proof using Hbatch HperBlock.
  intros HI Hd. pose proof HI as [(rowsQ & rowsA & HQ & HA & HP) _ _ _]. destruct s as [d hs]. cbn [dispatcher held] in *.
  destruct (last (activeKeyBlockMergeTasks d)) as [t|] eqn:El.
  - pose proof El as El'. apply last_Some in El' as [pre Ea].
    assert (Ht : t ∈ activeKeyBlockMergeTasks d) by (rewrite Ea; apply elem_of_app; right; left).
    destruct (task_split _ _ _ _ HI Ht) as (_ & _ & _ & _ & rows & HT).
    destruct (ti_busy _ _ _ HT) as [Hb|Hm]; [|by eapply can_get].
    destruct (heldOf (taskId t) hs) as [|h hs'] eqn:Eh; [done|]. eapply (can_work rows0 d hs t h); [done|done|].
    rewrite Eh. left.
  - apply last_None in El. unfold isDoneMerge in Hd. rewrite El, andb_true_r in Hd. apply Nat.leb_gt in Hd.
    destruct (sortedKeyBlocks d) as [|l [|r q]] eqn:Eq; cbn in Hd; [lia|lia|].
    inversion HQ as [|? rl ? rowsQ1 HL HQ1 E1 E2]; subst. inversion HQ1 as [|? rr ? rowsQ2 HR HQ2 E1 E2]; subst.
    destruct (task_new 0 l r rl rr HL HR) as [HT Hm].
    destruct (task_get [] _ _ 0 HT Hm) as (m & task' & EG & _). cbn [mergeTask] in EG.
    eexists. apply step_get. unfold dispatcherGetMorsel, isDoneMerge, newMergeTask. rewrite El, Eq, EG. reflexivity.
Qed.

Definition initialSystem (runs : list MergedKeyBlocks) : system := mkSystem (mkDispatcher runs [] 0) [].

Lemma initialSystem_inv runs rowsQ : Forall2 queuedRun runs rowsQ -> sysInv (mjoin rowsQ) (initialSystem runs).
Proof using Type.
  intros HQ. split; cbn [dispatcher held initialSystem sortedKeyBlocks activeKeyBlockMergeTasks]; try constructor.
  exists rowsQ, []. split; [done|]. split; [constructor|]. by rewrite app_nil_r.
Qed.

Lemma reach_inv rows0 s s' : sysInv rows0 s -> rtc tstep s s' -> sysInv rows0 s'.
Proof using Hbatch HperBlock. intros HI HR. induction HR as [|s1 s2 s3 HS _ IH]; [done|]. apply IH. by eapply step_ok. Qed.

Lemma steps_bound rows0 n s s' : sysInv rows0 s -> nsteps tstep n s s' -> n <= work (length rows0) s.
Proof using Hbatch HperBlock.
  intros HI HR. induction HR as [s|n s1 s2 s3 HS _ IH]; [lia|].
  destruct (step_ok _ _ _ HI HS) as [HI' Hw]. specialize (IH HI'). lia.
Qed.

Lemma done_sorted rows0 s :
  sysInv rows0 s -> isDoneMerge (dispatcher s) = true ->
  (sortedKeyBlocks (dispatcher s) = [] /\ rows0 = []) \/
  exists mb rows, sortedKeyBlocks (dispatcher s) = [mb] /\ runOf le getTableData cols mb rows /\ rows ≡ₚ rows0.
Proof using Hbatch HperBlock.
  intros [(rowsQ & rowsA & HQ & HA & HP) _ _ _] Hd. unfold isDoneMerge in Hd.
  apply andb_true_iff in Hd as [H1 H2]. apply Nat.leb_le in H1. apply Nat.eqb_eq, length_zero_iff_nil in H2.
  rewrite H2 in HA. inversion HA; subst. rewrite app_nil_r in HP.
  destruct HQ as [|mb rows q rowsQ [Hrun _] HQ].
  - left. split; [done|]. by apply Permutation_nil_l in HP.
  - right. cbn in H1. destruct HQ; [|cbn in H1; lia]. exists mb, rows. split; [done|]. split; [done|].
    cbn in HP. by rewrite app_nil_r in HP.
Qed.
End invariant.

(** C13. The parallel merge of runs that it can compare always ends: whatever the order in which
    the threads take, merge and give back morsels, no schedule takes more than a bounded number of
    steps, and as long as the merge is not done some thread can take one: a morsel is to be had,
    or a thread holds one whose merge ends.  The runs are not empty and sorted, and their rows are
    of the kind whose merge comparison is the order of the clause: no key column is a string, or
    the last one is and no string key is null (keys after the last string, as in ORDER BY name, age,
    are not covered); short strings hold no zero byte, floating point numbers are no NaN and no
    negative zero, and the normalized months and days of an interval have 32 bits. *)
Theorem merge_always_ends le getTableData cols batch bytes per runs rowsQ :
  0 < batch -> 0 < per -> Forall2 (queuedRun le getTableData cols) runs rowsQ ->
  let gt := compareTuplePtr getTableData (keyBytes cols) (initStrKeyCols 0 cols) in
  let s0 := initialSystem runs in
  (forall n s, nsteps (step gt batch bytes per) n s0 s -> n <= work (length (mjoin rowsQ)) s0) /\
  (forall s, rtc (step gt batch bytes per) s0 s -> isDoneMerge (dispatcher s) = false ->
     exists s', step gt batch bytes per s s').
Proof.
  intros Hb Hp HQ gt s0. pose proof (initialSystem_inv le getTableData cols runs rowsQ HQ) as HI. split.
  - intros n s HR. by eapply (steps_bound le getTableData cols batch bytes per Hb Hp).
  - intros s HR. eapply (progress le getTableData cols batch bytes per Hb Hp). exact (reach_inv le getTableData cols batch bytes per Hb Hp _ _ _ HI HR).
Qed.

(** C12. The parallel merge of runs that it can compare is correct: in whatever order the threads
    work, when it is done the queue holds one run, sorted by the ORDER BY clause, with exactly the
    rows of all the runs it started from (or nothing, if there were none).  The runs are not empty
    and sorted, and their rows are of the kind whose merge comparison is the order of the clause:
    no key column is a string, or the last one is and no string key is null (with a key after the
    last string, as in ORDER BY name, age, the code merges wrongly); short strings hold no zero byte,
    floating point numbers are no NaN and no negative zero, and the normalized months and days of
    an interval have 32 bits. *)
Theorem merge_result_sorted le getTableData cols batch bytes per runs rowsQ s :
  0 < batch -> 0 < per -> Forall2 (queuedRun le getTableData cols) runs rowsQ ->
  rtc (step (compareTuplePtr getTableData (keyBytes cols) (initStrKeyCols 0 cols)) batch bytes per)
    (initialSystem runs) s ->
  isDoneMerge (dispatcher s) = true ->
  (sortedKeyBlocks (dispatcher s) = [] /\ mjoin rowsQ = []) \/
  exists mb rows, sortedKeyBlocks (dispatcher s) = [mb] /\ runOf le getTableData cols mb rows /\
    rows ≡ₚ mjoin rowsQ.
Proof.
  intros Hb Hp HQ HR Hd. pose proof (initialSystem_inv le getTableData cols runs rowsQ HQ) as HI.
  apply (done_sorted le getTableData cols batch per Hb Hp); [|done]. by eapply (reach_inv le getTableData cols batch bytes per Hb Hp).
Qed.

(** One thread alone takes such steps. *)
Lemma newMergeTask_none gt batch bytes per d d' : newMergeTask gt batch bytes per d = Ok (None, d') -> d' = d.
Proof.
  unfold newMergeTask. destruct (sortedKeyBlocks d) as [|l [|r q]]; [by intros [=]|by intros [=]|].
  by destruct (getMorsel _ _ _).
Qed.

Lemma getMorsel_none gt batch bytes per d d' : dispatcherGetMorsel gt batch bytes per d = Ok (None, d') -> d' = d.
Proof.
  unfold dispatcherGetMorsel. destruct (isDoneMerge d); [by intros [=]|].
  destruct (last _) as [t|]; [|apply newMergeTask_none]. destruct (hasMorselLeft _); [|apply newMergeTask_none].
  by destruct (getMorsel _ _ _).
Qed.

Lemma executeInternal_steps gt batch bytes per fuel : forall d d',
  executeInternal gt batch bytes per fuel d = Ok d' ->
  rtc (step gt batch bytes per) (mkSystem d []) (mkSystem d' []) /\ isDoneMerge d' = true.
Proof.
  induction fuel as [|fuel IH]; intros d d' E; cbn [executeInternal] in E.
  - destruct (isDoneMerge d) eqn:Ed; [|done]. injection E as <-. split; [apply rtc_refl|done].
  - destruct (isDoneMerge d) eqn:Ed; [injection E as <-; split; [apply rtc_refl|done]|].
    destruct (dispatcherGetMorsel gt batch bytes per d) as [[[[id m]|] d1]|] eqn:EG; cbn [obind fst snd] in E; [| |done].
    + destruct (list_find _ _) as [[k t]|] eqn:EF; [|done]. apply list_find_Some in EF as (Hk & Et & _).
      destruct (mergeKeyBlocks _ _ _ _ _ _) as [res|] eqn:EM; [|done]. cbn [obind] in E.
      apply IH in E as [HR Hd]. split; [|done]. apply list_elem_of_lookup_2 in Hk. subst id.
      eapply rtc_l; [by apply step_get|]. cbn [app].
      eapply rtc_l; [apply (step_merge gt batch bytes per d1 [] [] t m res Hk EM)|]. cbn [app].
      eapply rtc_l; [|exact HR].
      apply (step_done gt batch bytes per (setResult (taskId t) res d1) [] [] (mkActive (taskId t) (mergeTask t) res) m).
      cbn [setResult activeKeyBlockMergeTasks]. unfold updateTask. apply list_elem_of_fmap. exists t.
      by rewrite Nat.eqb_refl.
    + apply getMorsel_none in EG. subst d1. by apply IH.
Qed.

Definition exRuns : list MergedKeyBlocks := [intRun [1; 3; 5]%Z; intRun [2; 4]%Z].

Lemma exRuns_ok :
  Forall2 (queuedRun true noTable intCols) exRuns
    [(fun v => [Some (KInt 2 v)]) <$> [1; 3; 5]%Z; (fun v => [Some (KInt 2 v)]) <$> [2; 4]%Z].
Proof.
  constructor; [|constructor; [|constructor]]; (split; [apply intRun_ok|cbn; lia]);
    first [discriminate|repeat constructor; lia].
Qed.

Lemma merge_always_ends_witness :
  exists s', step (compareTuplePtr noTable (keyBytes intCols) (initStrKeyCols 0 intCols)) 2 11 2
    (initialSystem exRuns) s'.
Proof.
  destruct (merge_always_ends true noTable intCols 2 11 2 exRuns
    [(fun v => [Some (KInt 2 v)]) <$> [1; 3; 5]%Z; (fun v => [Some (KInt 2 v)]) <$> [2; 4]%Z]) as [_ H].
  - lia.
  - lia.
  - apply exRuns_ok.
  - apply H; [apply rtc_refl|reflexivity].
Defined.

(** One thread merges the two runs. *)
Lemma merge_result_sorted_witness :
  exists d mb rows, executeInternal (compareTuplePtr noTable (keyBytes intCols) (initStrKeyCols 0 intCols)) 2 11 2 9
      (mkDispatcher exRuns [] 0) = Ok d /\
    sortedKeyBlocks d = [mb] /\ runOf true noTable intCols mb rows /\
    rows ≡ₚ ((fun v => [Some (KInt 2 v)]) <$> [1; 3; 5; 2; 4]%Z).
Proof.
  destruct (executeInternal (compareTuplePtr noTable (keyBytes intCols) (initStrKeyCols 0 intCols)) 2 11 2 9
    (mkDispatcher exRuns [] 0)) as [d|] eqn:E; [|by vm_compute in E].
  destruct (executeInternal_steps _ _ _ _ _ _ _ E) as [HR Hd].
  destruct (merge_result_sorted true noTable intCols 2 11 2 exRuns
    [(fun v => [Some (KInt 2 v)]) <$> [1; 3; 5]%Z; (fun v => [Some (KInt 2 v)]) <$> [2; 4]%Z] (mkSystem d []))
    as [[_ E2]|(mb & rows & E2 & Hrun & HP)].
  - lia.
  - lia.
  - apply exRuns_ok.
  - exact HR.
  - exact Hd.
  - discriminate E2.
  - exists d, mb, rows. split; [reflexivity|]. split; [exact E2|]. split; [exact Hrun|exact HP].
Defined.
