(* ===== verification/PageState.v ===== *)
(** * The state word of a page (src/include/storage/buffer_manager/page_state.h)

    Every page of a file has one 64-bit word that is read and changed atomically: the upper
    byte is the state (UNLOCKED, LOCKED, MARKED or EVICTED), the next bit says whether the
    frame is dirty, the rest counts the times the page was unlocked.  A word is the number
    the code stores; [pack] is its meaning, and the lemmas say what every operation does to a
    packed word, where the version ends at 2^55 because the dirty bit is above it. *)

From S2P Require Import Prelude.
From stdpp Require Import base list numbers.
Local Open Scope Z_scope.

Definition DIRTY_MASK : Z := 0x0080000000000000.
Definition STATE_MASK : Z := 0xFF00000000000000.
Definition VERSION_MASK : Z := 0x00FFFFFFFFFFFFFF.
Definition NUM_BITS_TO_SHIFT_FOR_STATE : Z := 56.

Definition UNLOCKED : Z := 0.
Definition LOCKED : Z := 1.
Definition MARKED : Z := 2.
Definition EVICTED : Z := 3.

(** The word a page starts with, and what [resetToEvicted] stores. *)
Definition resetToEvicted : Z := Z.shiftl EVICTED NUM_BITS_TO_SHIFT_FOR_STATE.

Definition getState (w : Z) : Z := Z.shiftr (Z.land w STATE_MASK) NUM_BITS_TO_SHIFT_FOR_STATE.
Definition getVersion (w : Z) : Z := Z.land w VERSION_MASK.

Definition updateStateWithSameVersion (w newState : Z) : Z :=
  Z.lor (Z.shiftr (wrapU 64 (Z.shiftl w 8)) 8)
    (wrapU 64 (Z.shiftl newState NUM_BITS_TO_SHIFT_FOR_STATE)).
Definition updateStateAndIncrementVersion (w newState : Z) : Z :=
  Z.lor (wrapU 64 (Z.shiftr (wrapU 64 (Z.shiftl w 8)) 8 + 1))
    (wrapU 64 (Z.shiftl newState NUM_BITS_TO_SHIFT_FOR_STATE)).

(** [compare_exchange_strong(expected, desired)] on a word: whether it succeeded, and the
    word afterwards. *)
Definition compareExchange (w expected desired : Z) : bool * Z :=
  if w =? expected then (true, desired) else (false, w).

Definition tryLock (old w : Z) : bool * Z :=
  compareExchange w old (updateStateWithSameVersion old LOCKED).
(** [KU_ASSERT(getState(old) == MARKED)] holds at its only call. *)
Definition tryClearMark (old w : Z) : bool * Z :=
  compareExchange w old (updateStateWithSameVersion old UNLOCKED).
Definition tryMark (old w : Z) : bool * Z :=
  compareExchange w old (updateStateWithSameVersion old MARKED).

(** [unlock] loads the word and then stores a new one: two accesses. *)
Definition unlock (loaded : Z) : Z := updateStateAndIncrementVersion loaded UNLOCKED.

Definition setDirty (w : Z) : Z := Z.lor w DIRTY_MASK.
Definition clearDirty (w : Z) : Z := Z.land w (2 ^ 64 - 1 - DIRTY_MASK).
Definition isDirty (w : Z) : bool := negb (Z.land w DIRTY_MASK =? 0).

(** ** Words as a state, a dirty bit and a version *)

Definition pack (st : Z) (dirty : bool) (v : Z) : Z := st * 2 ^ 56 + (if dirty then 2 ^ 55 else 0) + v.

Definition goodWord (w : Z) : Prop :=
  exists st d v, w = pack st d v /\ 0 <= st <= 3 /\ 0 <= v < 2 ^ 55.

(** The low 55 bits: the version without the dirty bit. *)
Definition versionOf (w : Z) : Z := w mod 2 ^ 55.

Lemma land_low_bits w n : 0 <= n -> Z.land w (2 ^ n - 1) = w mod 2 ^ n.
Proof. intros Hn. rewrite <- Z.land_ones by lia. f_equal. rewrite Z.ones_equiv. lia. Qed.

Lemma lor_disjoint a b n : 0 <= n -> 0 <= b < 2 ^ n -> a mod 2 ^ n = 0 -> Z.lor b a = b + a.
Proof.
  intros Hn Hb Ha. symmetry. apply Z.add_nocarry_lor.
  apply Z.bits_inj'. intros i Hi. rewrite Z.land_spec, Z.bits_0.
  destruct (Z.ltb_spec i n).
  - rewrite <- (Z.mod_pow2_bits_low a n i), Ha, Z.bits_0 by lia. apply andb_false_r.
  - rewrite <- (Z.mod_small b (2 ^ n)) by lia. rewrite Z.mod_pow2_bits_high by lia. done.
Qed.

Lemma low_bits w : Z.shiftr (wrapU 64 (Z.shiftl w 8)) 8 = w mod 2 ^ 56.
Proof.
  unfold wrapU. rewrite Z.shiftl_mul_pow2, Z.shiftr_div_pow2 by lia.
  change (2 ^ 64) with (2 ^ 56 * 2 ^ 8). rewrite Z.mul_mod_distr_r by lia. by rewrite Z.div_mul by lia.
Qed.

Lemma state_bits st : 0 <= st <= 3 -> wrapU 64 (Z.shiftl st NUM_BITS_TO_SHIFT_FOR_STATE) = st * 2 ^ 56.
Proof.
  intros H. unfold NUM_BITS_TO_SHIFT_FOR_STATE. rewrite Z.shiftl_mul_pow2 by lia.
  apply wrapU_id. unfold inU. lia.
Qed.

Section Packed.
Context (st : Z) (d : bool) (v : Z) (Hst : 0 <= st <= 3) (Hv : 0 <= v < 2 ^ 55).

Lemma pack_range : 0 <= pack st d v < 2 ^ 58.
Proof using Hst Hv. unfold pack. destruct d; lia. Qed.

Lemma pack_low : pack st d v mod 2 ^ 56 = (if d then 2 ^ 55 else 0) + v.
Proof using Hst Hv.
  unfold pack. rewrite <- Z.add_assoc, Z.add_comm, Z.mod_add by lia. apply Z.mod_small. destruct d; lia.
Qed.

Lemma getState_pack : getState (pack st d v) = st.
Proof using Hst Hv.
  unfold getState, NUM_BITS_TO_SHIFT_FOR_STATE. rewrite Z.shiftr_land.
  change (Z.shiftr STATE_MASK 56) with (2 ^ 8 - 1). rewrite land_low_bits, Z.shiftr_div_pow2 by lia.
  unfold pack. rewrite <- Z.add_assoc, Z.div_add_l by lia.
  rewrite (Z.div_small ((if d then 2 ^ 55 else 0) + v)) by (destruct d; lia).
  rewrite Z.add_0_r. apply Z.mod_small. lia.
Qed.

Lemma versionOf_pack : versionOf (pack st d v) = v.
Proof using Hst Hv.
  unfold versionOf, pack.
  replace (st * 2 ^ 56 + (if d then 2 ^ 55 else 0) + v)
    with (v + (st * 2 + (if d then 1 else 0)) * 2 ^ 55) by (destruct d; lia).
  rewrite Z.mod_add by lia. apply Z.mod_small. lia.
Qed.

Lemma updateState_pack n : 0 <= n <= 3 -> updateStateWithSameVersion (pack st d v) n = pack n d v.
Proof using Hst Hv.
  intros Hn. unfold updateStateWithSameVersion. rewrite low_bits, pack_low, state_bits by done.
  rewrite (lor_disjoint _ _ 56) by (destruct d; lia || apply Z.mod_mul; lia). unfold pack. lia.
Qed.

Lemma updateState_incr_pack n :
  0 <= n <= 3 -> v + 1 < 2 ^ 55 -> updateStateAndIncrementVersion (pack st d v) n = pack n d (v + 1).
Proof using Hst Hv.
  intros Hn Hv'. unfold updateStateAndIncrementVersion. rewrite low_bits, pack_low, state_bits by done.
  rewrite wrapU_id by (unfold inU; destruct d; lia).
  rewrite (lor_disjoint _ _ 56) by (destruct d; lia || apply Z.mod_mul; lia). unfold pack. lia.
Qed.

Lemma dirty_bit : Z.land (pack st d v) DIRTY_MASK = if d then DIRTY_MASK else 0.
Proof using Hst Hv.
  apply Z.bits_inj'. intros i Hi. rewrite Z.land_spec.
  change DIRTY_MASK with (2 ^ 55). rewrite (Z.pow2_bits_eqb 55) by lia.
  destruct (Z.eqb_spec 55 i) as [<-|Hne].
  - rewrite andb_true_r. rewrite <- (Z.mod_pow2_bits_low (pack st d v) 56) by lia. rewrite pack_low.
    destruct d.
    + rewrite Z.pow2_bits_true by lia. rewrite Z.testbit_true by lia.
      rewrite <- (Z.mul_1_l (2 ^ 55)) at 1. rewrite Z.div_add_l, (Z.div_small v) by lia. done.
    + rewrite Z.bits_0, Z.testbit_false by lia. rewrite Z.add_0_l, (Z.div_small v) by lia. done.
  - rewrite andb_false_r. destruct d; [by rewrite Z.pow2_bits_false by lia | by rewrite Z.bits_0].
Qed.

Lemma isDirty_pack : isDirty (pack st d v) = d.
Proof using Hst Hv. unfold isDirty. rewrite dirty_bit. by destruct d. Qed.
End Packed.

Section DirtyBit.
Context (st : Z) (d : bool) (v : Z) (Hst : 0 <= st <= 3) (Hv : 0 <= v < 2 ^ 55).

Lemma pack_dirty : pack st true v = Z.lor (pack st false v) DIRTY_MASK.
Proof using Hst Hv.
  rewrite <- Z.add_nocarry_lor by (by rewrite dirty_bit).
  change DIRTY_MASK with (2 ^ 55). unfold pack. lia.
Qed.

Lemma setDirty_pack : setDirty (pack st d v) = pack st true v.
Proof using Hst Hv.
  unfold setDirty. destruct d; [|by rewrite pack_dirty].
  by rewrite pack_dirty, <- Z.lor_assoc, Z.lor_diag.
Qed.

Lemma clearDirty_pack : clearDirty (pack st d v) = pack st false v.
Proof using Hst Hv.
  unfold clearDirty. change (2 ^ 64 - 1 - DIRTY_MASK) with (Z.ldiff (Z.ones 64) DIRTY_MASK).
  assert (Hc : forall w, 0 <= w < 2 ^ 58 -> Z.land w (Z.ldiff (Z.ones 64) DIRTY_MASK) = Z.ldiff w DIRTY_MASK).
  { intros w Hw. rewrite !Z.ldiff_land, Z.land_assoc, Z.land_ones, (Z.mod_small w) by lia. done. }
  rewrite Hc by (by apply pack_range).
  assert (Z.ldiff (pack st false v) DIRTY_MASK = pack st false v) as Hf.
  { apply Z.bits_inj'. intros i Hi. rewrite Z.ldiff_spec.
    pose proof (dirty_bit st false v Hst Hv) as E. apply (f_equal (fun z => Z.testbit z i)) in E.
    rewrite Z.land_spec, Z.bits_0 in E. by destruct (Z.testbit (pack st false v) i), (Z.testbit DIRTY_MASK i). }
  destruct d; [|done]. rewrite pack_dirty, Z.ldiff_land, Z.land_lor_distr_l, Z.land_lnot_diag, Z.lor_0_r.
  by rewrite <- Z.ldiff_land.
Qed.
End DirtyBit.

Lemma evicted_pack : resetToEvicted = pack EVICTED false 0.
Proof. done. Qed.

Lemma pack_good st d v : 0 <= st <= 3 -> 0 <= v < 2 ^ 55 -> goodWord (pack st d v).
Proof. intros. by exists st, d, v. Qed.

(** ** Operations on good words *)

Lemma good_state w : goodWord w -> 0 <= getState w <= 3.
Proof. intros (st & d & v & -> & Hs & Hv). by rewrite getState_pack. Qed.

Lemma good_version w : goodWord w -> 0 <= versionOf w < 2 ^ 55.
Proof. intros (st & d & v & -> & Hs & Hv). by rewrite versionOf_pack. Qed.

(** What a change of the state keeps. *)
Lemma update_good w n :
  goodWord w -> 0 <= n <= 3 ->
  goodWord (updateStateWithSameVersion w n) /\ getState (updateStateWithSameVersion w n) = n /\
  versionOf (updateStateWithSameVersion w n) = versionOf w /\
  isDirty (updateStateWithSameVersion w n) = isDirty w.
Proof.
  intros (st & d & v & -> & Hs & Hv) Hn. rewrite updateState_pack by done.
  rewrite getState_pack, !versionOf_pack, !isDirty_pack by done. eauto using pack_good.
Qed.

Lemma unlock_good w :
  goodWord w -> versionOf w + 1 < 2 ^ 55 ->
  goodWord (unlock w) /\ getState (unlock w) = UNLOCKED /\ versionOf (unlock w) = versionOf w + 1 /\
  isDirty (unlock w) = isDirty w.
Proof.
  intros (st & d & v & -> & Hs & Hv) Hn. rewrite versionOf_pack in * by done.
  unfold unlock. rewrite updateState_incr_pack by (unfold UNLOCKED; lia).
  rewrite getState_pack, versionOf_pack, !isDirty_pack by (unfold UNLOCKED; lia).
  split; [|done]. apply pack_good; unfold UNLOCKED; lia.
Qed.

Lemma setDirty_good w :
  goodWord w -> goodWord (setDirty w) /\ getState (setDirty w) = getState w /\
  versionOf (setDirty w) = versionOf w /\ isDirty (setDirty w) = true.
Proof.
  intros (st & d & v & -> & Hs & Hv). rewrite setDirty_pack by done.
  rewrite !getState_pack, !versionOf_pack, isDirty_pack by done. eauto using pack_good.
Qed.

Lemma clearDirty_good w :
  goodWord w -> goodWord (clearDirty w) /\ getState (clearDirty w) = getState w /\
  versionOf (clearDirty w) = versionOf w /\ isDirty (clearDirty w) = false.
Proof.
  intros (st & d & v & -> & Hs & Hv). rewrite clearDirty_pack by done.
  rewrite !getState_pack, !versionOf_pack, isDirty_pack by done. eauto using pack_good.
Qed.

Lemma evicted_good :
  goodWord resetToEvicted /\ getState resetToEvicted = EVICTED /\ versionOf resetToEvicted = 0 /\
  isDirty resetToEvicted = false.
Proof. rewrite evicted_pack. split; [|done]. apply pack_good; unfold EVICTED; lia. Qed.

(** A word is its state, its version and its dirty bit. *)
Lemma good_word_eq w : goodWord w -> w = pack (getState w) (isDirty w) (versionOf w).
Proof. intros (st & d & v & -> & Hs & Hv). by rewrite getState_pack, isDirty_pack, versionOf_pack. Qed.

#[export] Hint Resolve pack_good : kuzu.

(** [getVersion] keeps the dirty bit, which lies inside [VERSION_MASK]. *)
Lemma getVersion_dirty : getVersion (pack UNLOCKED true 7) <> getVersion (pack UNLOCKED false 7).
Proof. done. Qed.

(** After 2^55 - 1 unlocks of a dirty page the count runs over into the state: the word that
    should say UNLOCKED says LOCKED. *)
Lemma unlock_overflow : getState (unlock (pack LOCKED true (2 ^ 55 - 1))) = LOCKED.
Proof. done. Qed.
