(* ===== verification/Concurrent.v ===== *)
(** * Threads over shared memory

    Code that several threads run at once is a [prog]: a tree of atomic accesses to a shared
    state, with unbounded loops.  A [system] is a pool of threads; a thread is idle or runs
    the code of one call, and a step is one atomic access of one thread, so that every
    interleaving of the calls is a run.  [Safe] is a small program logic for it: every thread
    owns a piece of ghost state, and every access keeps an invariant of the shared state and
    the ghost states of all threads.  [reach_inv] is its soundness.  No code of the repository
    is in this file. *)

From S2P Require Import Prelude.
From stdpp Require Import base list gmap numbers.
From Stdlib Require Import FunctionalExtensionality.

Section Prog.
Context {S : Type}.

(** An access sees a bit of the scheduler, for operations that may fail spuriously. *)
Inductive prog : Type -> Type :=
| Ret {A} (a : A) : prog A
| Act {A R} (f : bool -> S -> R * S) (k : R -> prog A) : prog A
| Iter {A I B} (body : I -> prog (I + B)) (i : I) (k : B -> prog A) : prog A
| Halt {A} : prog A.

Fixpoint bind {A B} (p : prog A) : (A -> prog B) -> prog B :=
  match p in prog A return (A -> prog B) -> prog B with
  | Ret a => fun g => g a
  | Act f k => fun g => Act f (fun r => bind (k r) g)
  | Iter body i k => fun g => Iter body i (fun b => bind (k b) g)
  | Halt => fun _ => Halt
  end.

(** One iteration of a loop, and then the loop again or what follows it. *)
Definition unroll {A I B} (body : I -> prog (I + B)) (i : I) (k : B -> prog A) : prog A :=
  bind (body i) (fun x => match x with inl i' => Iter body i' k | inr b => k b end).

(** One step of a thread; a thread that has returned or halted has none. *)
Definition step1 {A} (c : bool) (p : prog A) (s : S) : option (prog A * S) :=
  match p in prog A return option (prog A * S) with
  | Ret _ | Halt => None
  | Act f k => let '(r, s') := f c s in Some (k r, s')
  | Iter body i k => Some (unroll body i k, s)
  end.

(** An access that cannot fail spuriously, a read, a write. *)
Definition access {R} (f : S -> R * S) : prog R := Act (fun _ => f) Ret.
Definition peek {R} (f : S -> R) : prog R := access (fun s => (f s, s)).
Definition poke (f : S -> S) : prog unit := access (fun s => (tt, f s)).
Definition while {A I} (body : I -> prog (I + A)) (i : I) : prog A := Iter body i Ret.

Lemma bind_assoc {A B C} (p : prog A) (f : A -> prog B) (g : B -> prog C) :
  bind (bind p f) g = bind p (fun a => bind (f a) g).
Proof.
  induction p as [A a|A R h k IH|A I D body IHb i k IHk|A]; cbn [bind]; [done| | |done].
  - f_equal. apply functional_extensionality. intros r. apply IH.
  - f_equal. apply functional_extensionality. intros b. apply IHk.
Qed.

Lemma bind_unroll {A B I D} (body : I -> prog (I + D)) i (k : D -> prog A) (f : A -> prog B) :
  bind (unroll body i k) f = unroll body i (fun b => bind (k b) f).
Proof.
  unfold unroll. rewrite bind_assoc. f_equal. apply functional_extensionality. by intros [i'|b].
Qed.
End Prog.
Arguments prog S A : clear implicits.

Notation "x <~ m ;; k" := (bind m (fun x => k)) (at level 100, m at next level, right associativity) : kuzu_scope.
Notation "m ;;~ k" := (bind m (fun _ => k)) (at level 100, right associativity) : kuzu_scope.

Section Logic.
Context {S T L : Type} `{Countable T}.

(** The invariant and what every step guarantees; the number counts the steps so far, and
    only runs are looked at in which it stays [fine]. *)
Context (fine : nat -> Prop) (Inv : nat -> S -> gmap T L -> Prop) (Guar : S -> S -> Prop).

(** Thread [t], which owns [l], keeps the invariant for [n] steps of [p] and ends with [Q]. *)
Fixpoint safe (n : nat) (t : T) (l : L) {A} (p : prog S A) (Q : A -> L -> Prop) {struct n} : Prop :=
  match n with
  | O => True
  | Datatypes.S n =>
      match p in prog _ A return (A -> L -> Prop) -> Prop with
      | Ret a => fun Q => Q a l
      | Act f k => fun Q => forall c m s G, fine m -> G !! t = Some l -> Inv m s G ->
          exists l', Inv (Datatypes.S m) (f c s).2 (<[t:=l']> G) /\ Guar s (f c s).2 /\
                     safe n t l' (k (f c s).1) Q
      | Iter body i k => fun Q => safe n t l (unroll body i k) Q
      | Halt => fun _ => True
      end Q
  end.

Definition Safe (t : T) (l : L) {A} (p : prog S A) (Q : A -> L -> Prop) : Prop :=
  forall n, safe n t l p Q.

Lemma safe_down n t l {A} (p : prog S A) Q : safe (Datatypes.S n) t l p Q -> safe n t l p Q.
Proof.
  revert l A p Q. induction n as [|n IH]; intros l A p Q HS; [done|].
  destruct p as [A a|A R f k|A I B body i k|A].
  - exact HS.
  - intros c m s G Hf Hl HI. destruct (HS c m s G Hf Hl HI) as (l' & H1 & H2 & H3).
    exists l'. split_and!; [done..|]. by apply IH.
  - change (safe n t l (unroll body i k) Q). apply IH. exact HS.
  - done.
Qed.

Lemma safe_le n m t l {A} (p : prog S A) Q : m <= n -> safe n t l p Q -> safe m t l p Q.
Proof. induction 1; [done|]. intros. by apply IHle, safe_down. Qed.

Lemma safe_mono n t l {A} (p : prog S A) (Q Q' : A -> L -> Prop) :
  (forall a l', Q a l' -> Q' a l') -> safe n t l p Q -> safe n t l p Q'.
Proof.
  revert l A p Q Q'. induction n as [|n IH]; intros l A p Q Q' HQ HS; [done|].
  destruct p as [A a|A R f k|A I B body i k|A].
  - by apply HQ.
  - intros c m s G Hf Hl HI. destruct (HS c m s G Hf Hl HI) as (l' & H1 & H2 & H3).
    exists l'. split_and!; [done..|]. by eapply IH.
  - change (safe n t l (unroll body i k) Q'). by eapply IH; [|exact HS].
  - done.
Qed.

Lemma safe_bind n t l {A B} (p : prog S A) (f : A -> prog S B) (Q : B -> L -> Prop) :
  safe n t l p (fun a l' => safe n t l' (f a) Q) -> safe n t l (bind p f) Q.
Proof.
  revert l A p f. induction n as [|n IH]; intros l A p f HS; [done|].
  destruct p as [A a|A R h k|A I D body i k|A]; [exact HS| | |done].
  - intros c m s G Hf Hl HI. destruct (HS c m s G Hf Hl HI) as (l' & H1 & H2 & H3).
    exists l'. split_and!; [done..|]. apply IH. eapply safe_mono; [|exact H3].
    intros a l''. apply safe_down.
  - change (safe n t l (unroll body i (fun b => bind (k b) f)) Q). rewrite <- bind_unroll. apply IH.
    eapply safe_mono; [|exact HS]. intros a l''. apply safe_down.
Qed.

(** ** The rules *)

Lemma Safe_ret t l {A} (a : A) (Q : A -> L -> Prop) : Q a l -> Safe t l (Ret a) Q.
Proof. by intros HQ [|n]. Qed.

Lemma Safe_halt t l {A} (Q : A -> L -> Prop) : Safe t l Halt Q.
Proof. by intros [|n]. Qed.

Lemma Safe_mono t l {A} (p : prog S A) (Q Q' : A -> L -> Prop) :
  Safe t l p Q -> (forall a l', Q a l' -> Q' a l') -> Safe t l p Q'.
Proof. intros HS HQ n. by eapply safe_mono. Qed.

Lemma Safe_bind t l {A B} (p : prog S A) (f : A -> prog S B) (Q : B -> L -> Prop) :
  Safe t l p (fun a l' => Safe t l' (f a) Q) -> Safe t l (bind p f) Q.
Proof.
  intros HS n. apply safe_bind. eapply safe_mono; [|apply HS]. cbn. intros a l' HQ. apply HQ.
Qed.

(** One access; what the thread owns afterwards may depend on what it saw. *)
Lemma Safe_act t l {A R} (f : bool -> S -> R * S) (k : R -> prog S A) (Q : A -> L -> Prop) :
  (forall c m s G, fine m -> G !! t = Some l -> Inv m s G ->
     exists l', Inv (Datatypes.S m) (f c s).2 (<[t:=l']> G) /\ Guar s (f c s).2 /\
                Safe t l' (k (f c s).1) Q) ->
  Safe t l (Act f k) Q.
Proof.
  intros HS [|n]; [done|]. intros c m s G Hf Hl HI.
  destruct (HS c m s G Hf Hl HI) as (l' & H1 & H2 & H3). exists l'. auto.
Qed.

Lemma Safe_access t l {R} (f : S -> R * S) (Q : R -> L -> Prop) :
  (forall m s G, fine m -> G !! t = Some l -> Inv m s G ->
     exists l', Inv (Datatypes.S m) (f s).2 (<[t:=l']> G) /\ Guar s (f s).2 /\ Q (f s).1 l') ->
  Safe t l (access f) Q.
Proof.
  intros HS. apply Safe_act. intros c m s G Hf Hl HI.
  destruct (HS m s G Hf Hl HI) as (l' & H1 & H2 & H3). exists l'. split_and!; [done..|]. by apply Safe_ret.
Qed.

(** A loop, by an invariant [J] of its variables and of what the thread owns. *)
Lemma Safe_iter {I} (J : I -> L -> Prop) t l {A B} (body : I -> prog S (I + B)) i (k : B -> prog S A)
    (Q : A -> L -> Prop) :
  (forall i l, J i l -> Safe t l (body i)
     (fun x l' => match x with inl i' => J i' l' | inr b => Safe t l' (k b) Q end)) ->
  J i l -> Safe t l (Iter body i k) Q.
Proof.
  intros HB HJ n. revert i l HJ. induction n as [|n IH]; intros i l HJ; [done|].
  change (safe n t l (unroll body i k) Q). apply safe_bind. eapply safe_mono; [|apply HB, HJ].
  intros [i'|b] l' HP; [by apply IH | apply HP].
Qed.

Lemma Safe_while {I} (J : I -> L -> Prop) t l {A} (body : I -> prog S (I + A)) i (Q : A -> L -> Prop) :
  (forall i l, J i l -> Safe t l (body i)
     (fun x l' => match x with inl i' => J i' l' | inr b => Q b l' end)) ->
  J i l -> Safe t l (while body i) Q.
Proof.
  intros HB. apply Safe_iter. intros i' l' HJ. eapply Safe_mono; [by apply HB|].
  intros [i2|b] l2 H2; [done | by apply Safe_ret].
Qed.

Context (Inv_later : forall n s G, Inv n s G -> Inv (Datatypes.S n) s G) (Guar_refl : forall s, Guar s s).

(** A step of a thread that is safe. *)
Lemma safe_step n t l {A} (p p' : prog S A) c m s s' G (Q : A -> L -> Prop) :
  safe (Datatypes.S n) t l p Q -> step1 c p s = Some (p', s') -> fine m -> G !! t = Some l -> Inv m s G ->
  exists l', Inv (Datatypes.S m) s' (<[t:=l']> G) /\ Guar s s' /\ safe n t l' p' Q.
Proof using Inv_later Guar_refl.
  intros HS Hp Hf Hl HI. destruct p as [A a|A R f k|A I B body i k|A]; cbn [step1] in Hp; [done| | |done].
  - destruct (HS c m s G Hf Hl HI) as (l' & HI' & HG & HS'). destruct (f c s) as [r s2]. simplify_eq. eauto.
  - simplify_eq. exists l. rewrite insert_id by done. auto.
Qed.
End Logic.

(** ** Systems: threads that make calls *)

Section System.
Context {S T L : Type} `{Countable T}.

(** [call] is a call with its arguments, [client] what a thread knows between two calls;
    [allowed] is the protocol that callers follow. *)
Context {call client result : Type} (code : call -> prog S result)
  (allowed : client -> call -> Prop) (finish : client -> call -> result -> client).

Inductive thread : Type :=
| Idle (c : client)
| Running (c : client) (what : call) (p : prog S result).

Record system := mkSystem { sh : S; threads : gmap T thread }.

Inductive step : system -> system -> Prop :=
| step_call s pool t c what :
    pool !! t = Some (Idle c) -> allowed c what ->
    step (mkSystem s pool) (mkSystem s (<[t := Running c what (code what)]> pool))
| step_run s s' pool t c what p p' b :
    pool !! t = Some (Running c what p) -> step1 b p s = Some (p', s') ->
    step (mkSystem s pool) (mkSystem s' (<[t := Running c what p']> pool))
| step_return s pool t c what r :
    pool !! t = Some (Running c what (Ret r)) ->
    step (mkSystem s pool) (mkSystem s (<[t := Idle (finish c what r)]> pool)).

(** [run n x y]: [n] steps lead from [x] to [y]. *)
Inductive run : nat -> system -> system -> Prop :=
| run_nil x : run 0 x x
| run_snoc n x y z : run n x y -> step y z -> run (Datatypes.S n) x z.

Context (fine : nat -> Prop) (Inv : nat -> S -> gmap T L -> Prop) (Guar : S -> S -> Prop) (idleOK : client -> L -> Prop).
Context (Inv_later : forall n s G, Inv n s G -> Inv (Datatypes.S n) s G) (Guar_refl : forall s, Guar s s).
Context (code_safe : forall t c what l, allowed c what -> idleOK c l ->
           Safe fine Inv Guar t l (code what) (fun r l' => idleOK (finish c what r) l')).

(** [m] is the number of steps for which the threads are known to be safe. *)
Definition threadOK (m : nat) (t : T) (th : thread) (l : L) : Prop :=
  match th with
  | Idle c => idleOK c l
  | Running c what p => safe fine Inv Guar m t l p (fun r l' => idleOK (finish c what r) l')
  end.

Definition poolOK (m : nat) (pool : gmap T thread) (G : gmap T L) : Prop :=
  forall t, match pool !! t with
            | None => G !! t = None
            | Some th => exists l, G !! t = Some l /\ threadOK m t th l
            end.

Definition sysInv (n m : nat) (x : system) : Prop :=
  exists G, Inv n (sh x) G /\ poolOK m (threads x) G.

Lemma threadOK_down m t th l : threadOK (Datatypes.S m) t th l -> threadOK m t th l.
Proof. destruct th; [done|]. apply safe_down. Qed.

Lemma poolOK_update m pool G t th l :
  poolOK (Datatypes.S m) pool G -> threadOK m t th l -> poolOK m (<[t:=th]> pool) (<[t:=l]> G).
Proof.
  intros HP HT u. destruct (decide (t = u)) as [<-|Hne].
  - rewrite !lookup_insert_eq. eauto.
  - rewrite !lookup_insert_ne by done. specialize (HP u). destruct (pool !! u); [|done].
    destruct HP as (l' & Hl & Hok). eauto using threadOK_down.
Qed.

Lemma poolOK_thread m pool G t th : poolOK m pool G -> pool !! t = Some th -> exists l, G !! t = Some l /\ threadOK m t th l.
Proof. intros HP Ht. specialize (HP t). by rewrite Ht in HP. Qed.

Lemma system_step_inv n m x y :
  fine n -> sysInv n (Datatypes.S m) x -> step x y -> sysInv (Datatypes.S n) m y /\ Guar (sh x) (sh y).
Proof using Inv_later Guar_refl code_safe.
  intros Hf (G & HI & HT) Hs.
  destruct Hs as [s pool t c what Ht Ha|s s' pool t c what p p' b Ht Hp|s pool t c what r Ht]; cbn in *;
    destruct (poolOK_thread _ _ _ _ _ HT Ht) as (l & Hl & Hok); cbn in Hok.
  - split; [|done]. exists G. split; [by apply Inv_later|].
    rewrite <- (insert_id G t l Hl). apply poolOK_update; [done|]. by apply code_safe.
  - destruct (safe_step _ _ _ Inv_later Guar_refl _ _ _ _ _ _ _ _ _ _ _ Hok Hp Hf Hl HI) as (l' & HI' & HG & HS).
    split; [|done]. exists (<[t:=l']> G). split; [done|]. by apply poolOK_update.
  - split; [|done]. exists G. split; [by apply Inv_later|].
    rewrite <- (insert_id G t l Hl). by apply poolOK_update.
Qed.

(** Soundness: a system whose calls are safe keeps the invariant in every run. *)
Lemma run_inv n m k x y :
  (forall i, i < n + k -> fine i) -> run n x y -> sysInv k (n + m) x -> sysInv (n + k) m y.
Proof using Inv_later Guar_refl code_safe.
  intros Hf HR. revert m Hf. induction HR as [x|n x y z HR IH Hs]; intros m Hf HI; [done|].
  apply (system_step_inv (n + k) m y z); [apply Hf; lia| |done]. apply IH.
  - intros i Hi. apply Hf. lia.
  - by rewrite Nat.add_succ_r.
Qed.

(** A pool of idle threads. *)
Lemma poolOK_idle m (cs : gmap T client) (G : gmap T L) :
  (forall t c, cs !! t = Some c -> exists l, G !! t = Some l /\ idleOK c l) ->
  (forall t, cs !! t = None -> G !! t = None) ->
  poolOK m (Idle <$> cs) G.
Proof.
  intros H1 H2 t. rewrite lookup_fmap. destruct (cs !! t) as [c|] eqn:E; cbn; [by apply H1 | by apply H2].
Qed.
End System.
