(* ===== verification/BufferManager.v ===== *)
(** * The buffer manager (src/storage/buffer_manager/buffer_manager.cpp, memory_manager.cpp, spiller.cpp)

    Pages of files are cached in frames; every page has one frame of its own.  A thread that
    wants to change a page pins it, which locks its state word; readers copy bytes out of the
    frame without a lock and check afterwards that the word has not changed.  Memory is
    reserved before a frame is filled, and reserving evicts pages that the eviction queue
    names, in a clock-like order, or spills groups of buffers.

    The functions below are programs of atomic accesses ([Concurrent]), one access for every
    operation on a [std::atomic], every critical section of a mutex, every byte a reader
    copies, and every call of the operating system.  [content] is not part of the code: it is
    the content that the callers gave a page, which the theorems compare with frames and
    files.  [usedMemory] and what is claimed are exact integers, since they count bytes of
    memory that exist; the difference that decides between evicting and spilling wraps around
    as in the code. *)

From S2P Require Import Prelude PageState Concurrent.
From stdpp Require Import base list gmap numbers strings.
Local Open Scope Z_scope.

(** ** Configuration and shared state *)

Definition PAGE_BYTES : Z := 2 ^ 12.
Definition TEMP_PAGE_SIZE : Z := 2 ^ 18.
Definition UINT32_MAX : Z := 2 ^ 32 - 1.
Definition INVALID_PAGE_IDX : Z := UINT32_MAX.

(** A page: the index of its file and its index in the file.  An eviction candidate is such a
    pair as well. *)
Definition pageId : Type := Z * Z.
Definition EMPTY : pageId := (UINT32_MAX, INVALID_PAGE_IDX).

(** The bytes of a page; what was never written is zero. *)
Definition page : Type := gmap nat Z.
Definition byteAt (pg : page) (i : nat) : Z := default 0 (pg !! i).

Inductive PageReadPolicy := READ_PAGE | DONT_READ_PAGE.

Record Config := mkConfig {
  fileFlags : Z -> Z;      (** the flags of every file handle *)
  bufferPoolSize : Z;
  hasSpiller : bool        (** no spiller: a database that is read only or in memory *)
}.

Definition isLargePagedMask : Z := 1.
Definition isNewInMemoryTmpFileMask : Z := 2.
Definition isLargePaged (flags : Z) : bool := negb (Z.land flags isLargePagedMask =? 0).
Definition isNewTmpFile (flags : Z) : bool := negb (Z.land flags isNewInMemoryTmpFileMask =? 0).
Definition isInMemoryMode (flags : Z) : bool := negb (isLargePaged flags) && isNewTmpFile flags.
Definition getPageSize (flags : Z) : Z := if isLargePaged flags then TEMP_PAGE_SIZE else PAGE_BYTES.

(** A group of buffers that may be spilled: whether it is in use, and its buffers' sizes. *)
Record SpillGroup := mkGroup { dataInUse : bool; bufferSizes : list Z }.

Record shared := mkShared {
  words : gmap pageId Z;          (** [FileHandle::pageStates] *)
  frames : gmap pageId page;      (** the virtual memory regions *)
  disk : gmap pageId page;        (** the files *)
  content : gmap pageId page;     (** what the callers gave the pages *)
  resident : gset pageId;         (** the frames that have physical memory *)
  slots : list pageId;            (** [EvictionQueue::data] *)
  insertCursor : Z;
  evictionCursor : Z;
  queueSize : Z;
  usedMemory : Z;
  nonEvictableMemory : Z;
  malloced : Z;                   (** the bytes of buffers that malloc handed out *)
  fullPartitionerGroups : list SpillGroup
}.

(** A page starts in the EVICTED state, a frame and a file with zeros. *)
Definition word (s : shared) (p : pageId) : Z := default resetToEvicted (words s !! p).
Definition frameOf (s : shared) (p : pageId) : page := default ∅ (frames s !! p).
Definition diskOf (s : shared) (p : pageId) : page := default ∅ (disk s !! p).
Definition contentOf (s : shared) (p : pageId) : page := default ∅ (content s !! p).

Definition setWord (p : pageId) (w : Z) (s : shared) : shared :=
  mkShared (<[p:=w]> (words s)) (frames s) (disk s) (content s) (resident s) (slots s) (insertCursor s)
    (evictionCursor s) (queueSize s) (usedMemory s) (nonEvictableMemory s) (malloced s) (fullPartitionerGroups s).
Definition setFrame (p : pageId) (pg : page) (s : shared) : shared :=
  mkShared (words s) (<[p:=pg]> (frames s)) (disk s) (content s) (resident s) (slots s) (insertCursor s)
    (evictionCursor s) (queueSize s) (usedMemory s) (nonEvictableMemory s) (malloced s) (fullPartitionerGroups s).
Definition setDisk (p : pageId) (pg : page) (s : shared) : shared :=
  mkShared (words s) (frames s) (<[p:=pg]> (disk s)) (content s) (resident s) (slots s) (insertCursor s)
    (evictionCursor s) (queueSize s) (usedMemory s) (nonEvictableMemory s) (malloced s) (fullPartitionerGroups s).
Definition setContent (p : pageId) (pg : page) (s : shared) : shared :=
  mkShared (words s) (frames s) (disk s) (<[p:=pg]> (content s)) (resident s) (slots s) (insertCursor s)
    (evictionCursor s) (queueSize s) (usedMemory s) (nonEvictableMemory s) (malloced s) (fullPartitionerGroups s).
Definition setResident (r : gset pageId) (s : shared) : shared :=
  mkShared (words s) (frames s) (disk s) (content s) r (slots s) (insertCursor s)
    (evictionCursor s) (queueSize s) (usedMemory s) (nonEvictableMemory s) (malloced s) (fullPartitionerGroups s).
Definition setQueue (sl : list pageId) (ic ec qs : Z) (s : shared) : shared :=
  mkShared (words s) (frames s) (disk s) (content s) (resident s) sl ic ec qs
    (usedMemory s) (nonEvictableMemory s) (malloced s) (fullPartitionerGroups s).
Definition setMemory (um ne ml : Z) (gs : list SpillGroup) (s : shared) : shared :=
  mkShared (words s) (frames s) (disk s) (content s) (resident s) (slots s) (insertCursor s)
    (evictionCursor s) (queueSize s) um ne ml gs.

Local Abbreviation P := (prog shared).

(** ** Page states, as accesses *)

Definition getStateAndVersion (p : pageId) : P Z := peek (fun s => word s p).
Definition casWord (op : Z -> bool * Z) (p : pageId) : P bool :=
  access (fun s => let '(ok, w) := op (word s p) in (ok, setWord p w s)).
Definition tryLockPage (p : pageId) (old : Z) : P bool := casWord (tryLock old) p.
Definition tryClearMarkPage (p : pageId) (old : Z) : P bool := casWord (tryClearMark old) p.
Definition tryMarkPage (p : pageId) (old : Z) : P bool := casWord (tryMark old) p.
Definition storeWord (p : pageId) (w : Z) : P unit := poke (setWord p w).
Definition unlockPage (p : pageId) : P unit := w <~ getStateAndVersion p ;; storeWord p (unlock w).
Definition resetPage (p : pageId) : P unit := storeWord p resetToEvicted.
(** [KU_ASSERT(getState(stateAndVersion.load()) == LOCKED)] *)
Definition assertLocked (p : pageId) : P unit :=
  w <~ getStateAndVersion p ;; if getState w =? LOCKED then Ret tt else Halt.
Definition setDirtyPage (p : pageId) : P unit :=
  assertLocked p ;;~ poke (fun s => setWord p (setDirty (word s p)) s).
Definition clearDirtyWithoutLock (p : pageId) : P unit :=
  poke (fun s => setWord p (clearDirty (word s p)) s).
Definition clearDirtyPage (p : pageId) : P unit := assertLocked p ;;~ clearDirtyWithoutLock p.

(** ** The eviction queue *)

Section Config.
Context (cfg : Config).

Definition capacity : Z := bufferPoolSize cfg / PAGE_BYTES.

Definition slotAt (s : shared) (i : Z) : pageId := nth (Z.to_nat i) (slots s) EMPTY.
Definition setSlot (i : Z) (c : pageId) (s : shared) : shared :=
  setQueue (<[Z.to_nat i := c]> (slots s)) (insertCursor s) (evictionCursor s) (queueSize s) s.

Definition getSize : P Z := peek queueSize.
Definition loadSlot (i : Z) : P pageId := peek (fun s => slotAt s i).
Definition fetchAddInsertCursor : P Z := access (fun s =>
  (insertCursor s, setQueue (slots s) (wrapU 64 (insertCursor s + 1)) (evictionCursor s) (queueSize s) s)).
Definition fetchAddEvictionCursor : P Z := access (fun s =>
  (evictionCursor s, setQueue (slots s) (insertCursor s) (wrapU 64 (evictionCursor s + 1)) (queueSize s) s)).
Definition addSize (d : Z) : P unit := poke (fun s =>
  setQueue (slots s) (insertCursor s) (evictionCursor s) (wrapU 64 (queueSize s + d)) s).
(** [compare_exchange_weak]: the scheduler may let it fail. *)
Definition casSlotWeak (i : Z) (expected desired : pageId) : P bool :=
  Act (fun spurious s =>
    if bool_decide (slotAt s i = expected) && negb spurious then (true, setSlot i desired s) else (false, s)) Ret.
Definition casSlotStrong (i : Z) (expected desired : pageId) : P bool :=
  access (fun s => if bool_decide (slotAt s i = expected) then (true, setSlot i desired s) else (false, s)).

Definition queueInsert (candidate : pageId) : P bool :=
  while (fun _ : unit =>
    size <~ getSize ;;
    if size <? capacity then
      c <~ fetchAddInsertCursor ;;
      ok <~ casSlotWeak (c mod capacity) EMPTY candidate ;;
      if ok : bool then addSize 1 ;;~ Ret (inr true) else Ret (inl tt)
    else Ret (inr false)) tt.

(** A candidate is the position of its slot. *)
Definition next : P Z :=
  while (fun _ : unit =>
    c <~ fetchAddEvictionCursor ;;
    let i := c mod capacity in
    candidate <~ loadSlot i ;;
    if bool_decide (candidate = EMPTY) then
      size <~ getSize ;; if 0 <? size then Ret (inl tt) else Ret (inr i)
    else Ret (inr i)) tt.

Definition clear (i : Z) : P unit :=
  nonEmpty <~ loadSlot i ;;
  if bool_decide (nonEmpty = EMPTY) then Halt
  else ok <~ casSlotStrong i nonEmpty EMPTY ;;
       if ok : bool then addSize (-1) else Halt.

(** ** Frames, files and memory *)

Definition flagsOf (p : pageId) : Z := fileFlags cfg p.1.
Definition pageSizeOf (p : pageId) : Z := getPageSize (flagsOf p).

(** Physical memory for the frame (VirtualAlloc, or the first write on Linux). *)
Definition commitFrame (p : pageId) : P unit := poke (fun s => setResident ({[p]} ∪ resident s) s).
(** [madvise(MADV_DONTNEED)]: the memory is given back, and the frame reads as zeros. *)
Definition releaseFrameForPage (p : pageId) : P unit :=
  poke (fun s => setFrame p ∅ (setResident (resident s ∖ {[p]}) s)).
Definition readPageFromDisk (p : pageId) : P unit := poke (fun s => setFrame p (diskOf s p) s).
Definition writePage (p : pageId) : P unit := poke (fun s => setDisk p (frameOf s p) s).

Definition freeUsedMemory (size : Z) : P unit := poke (fun s =>
  setMemory (usedMemory s - size) (nonEvictableMemory s) (malloced s) (fullPartitionerGroups s) s).
Definition addUsedMemory (size : Z) : P unit := poke (fun s =>
  setMemory (usedMemory s + size) (nonEvictableMemory s) (malloced s) (fullPartitionerGroups s) s).
Definition addNonEvictable (size : Z) : P unit := poke (fun s =>
  setMemory (usedMemory s) (wrapU 64 (nonEvictableMemory s + size)) (malloced s) (fullPartitionerGroups s) s).
Definition loadUsedMemory : P Z := peek usedMemory.
Definition loadNonEvictable : P Z := peek nonEvictableMemory.
Definition mallocBytes (size : Z) : P unit := poke (fun s =>
  setMemory (usedMemory s) (nonEvictableMemory s) (malloced s + size) (fullPartitionerGroups s) s).
Definition freeBytes (size : Z) : P unit := poke (fun s =>
  setMemory (usedMemory s) (nonEvictableMemory s) (malloced s - size) (fullPartitionerGroups s) s).

Definition flushPageIfDirtyWithoutLock (p : pageId) : P unit :=
  if isInMemoryMode (flagsOf p) then Ret tt
  else w <~ getStateAndVersion p ;;
       if isDirty w then writePage p ;;~ clearDirtyWithoutLock p else Ret tt.

Definition cachePageIntoFrame (p : pageId) (policy : PageReadPolicy) : P unit :=
  clearDirtyPage p ;;~
  match policy with READ_PAGE => readPageFromDisk p | DONT_READ_PAGE => Ret tt end.

(** ** Eviction *)

Definition isEvictable (w : Z) : bool := getState w =? MARKED.
Definition isSecondChanceEvictable (w : Z) : bool := getState w =? UNLOCKED.

Definition tryEvictPage (i : Z) : P Z :=
  candidate <~ loadSlot i ;;
  if candidate.2 =? INVALID_PAGE_IDX then Ret 0
  else
    w <~ getStateAndVersion candidate ;;
    if negb (isEvictable w) then Ret 0
    else
      locked <~ tryLockPage candidate w ;;
      if negb locked then Ret 0
      else
        candidate' <~ loadSlot i ;;
        if bool_decide (candidate' <> candidate) then unlockPage candidate ;;~ Ret 0
        else if isInMemoryMode (flagsOf candidate) then Ret 0
        else
          flushPageIfDirtyWithoutLock candidate ;;~
          releaseFrameForPage candidate ;;~
          resetPage candidate ;;~
          clear i ;;~
          Ret (pageSizeOf candidate).

Definition BATCH_SIZE : nat := 64.

(** The slots found so far and the number of candidates tried. *)
Definition collectCandidates (failureLimit : Z) : P (list Z) :=
  while (fun '(found, tried) =>
    if (bool_decide (length found < BATCH_SIZE)%nat && (tried <? failureLimit)) then
      i <~ next ;;
      candidate <~ loadSlot i ;;
      if bool_decide (candidate = EMPTY) then Ret (inl (found, tried + 1))
      else
        w <~ getStateAndVersion candidate ;;
        if isEvictable w then Ret (inl (found ++ [i], tried + 1))
        else if isSecondChanceEvictable w
        then tryMarkPage candidate w ;;~ Ret (inl (found, tried + 1))
        else Ret (inl (found, tried + 1))
    else Ret (inr found)) ([], 0).

Fixpoint evictAll (candidates : list Z) : P Z :=
  match candidates with
  | [] => Ret 0
  | i :: rest => freed <~ tryEvictPage i ;; more <~ evictAll rest ;; Ret (freed + more)
  end.

Definition evictPages : P Z :=
  size <~ getSize ;;
  candidates <~ collectCandidates (wrapU 64 (size * 2)) ;;
  evictAll candidates.

(** ** Spilling *)

(** The groups are an unordered set, from which [begin()] takes some element: the order of
    the list stands for it. *)
Definition takeGroup : P (option SpillGroup) := access (fun s =>
  match fullPartitionerGroups s with
  | [] => (None, s)
  | g :: rest => (Some g, setMemory (usedMemory s) (nonEvictableMemory s) (malloced s) rest s)
  end).

(** The buffers of a group, one after another: written to the spill file, then freed. *)
Fixpoint spillBuffers (sizes : list Z) : P Z :=
  match sizes with
  | [] => Ret 0
  | z :: rest => freeBytes z ;;~ more <~ spillBuffers rest ;; Ret (z + more)
  end.
Definition spillToDisk (g : SpillGroup) : P Z :=
  if dataInUse g then Ret 0 else spillBuffers (bufferSizes g).
Definition claimNextGroup : P Z :=
  g <~ takeGroup ;;
  match g with None => Ret 0 | Some g => spillToDisk g end.

(** ** Reserving memory *)

Definition needMoreMemory (sizeToReserve totalClaimed : Z) : P bool :=
  if sizeToReserve >? totalClaimed
  then used <~ loadUsedMemory ;; Ret (used - totalClaimed >? bufferPoolSize cfg)
  else Ret false.

(** One round of the loop: the bytes claimed, and those of them that were not evictable. *)
Definition claimMemory : P (Z * Z) :=
  used <~ loadUsedMemory ;;
  nonEvictable <~ loadNonEvictable ;;
  if wrapU 64 (used - nonEvictable) >? bufferPoolSize cfg / 2
  then claimed <~ evictPages ;; Ret (claimed, 0)
  else if hasSpiller cfg then
    claimed <~ claimNextGroup ;;
    if claimed =? 0 then more <~ evictPages ;; Ret (more, 0) else Ret (claimed, claimed)
  else Halt.

(** [totalClaimedMemory] and [nonEvictableClaimedMemory] when the loop ends, or nothing when
    no memory could be found. *)
Definition reserveLoop (size : Z) : P (option (Z * Z)) :=
  while (fun '(total, nonEvictable) =>
    need <~ needMoreMemory size total ;;
    if need : bool then
      claimed <~ claimMemory ;;
      fail <~ (if claimed.1 =? 0 then needMoreMemory size total else Ret false) ;;
      if fail : bool then
        freeUsedMemory (size + total) ;;~
        addNonEvictable (- (nonEvictable + claimed.2)) ;;~
        Ret (inr None)
      else Ret (inl (total + claimed.1, nonEvictable + claimed.2))
    else Ret (inr (Some (total, nonEvictable)))) (0, 0).

Definition reserve (size : Z) : P bool :=
  addUsedMemory size ;;~
  r <~ reserveLoop size ;;
  match r with
  | None => Ret false
  | Some (total, nonEvictable) =>
      (if 0 <? total then freeUsedMemory total ;;~ addNonEvictable (- nonEvictable) else Ret tt) ;;~
      Ret true
  end.

Definition claimAFrame (p : pageId) (policy : PageReadPolicy) : P bool :=
  ok <~ reserve (pageSizeOf p) ;;
  if ok : bool then commitFrame p ;;~ cachePageIntoFrame p policy ;;~ Ret true else Ret false.

(** ** Pinning and reading *)

Definition bufferPoolFull : exn :=
  BufferManagerException "Unable to allocate memory! The buffer pool is full and no memory could be freed!".
Definition evictionQueueFull : exn :=
  BufferManagerException "Eviction queue is full! This should be impossible.".

Definition pin (p : pageId) (policy : PageReadPolicy) : P (outcome unit) :=
  while (fun _ : unit =>
    w <~ getStateAndVersion p ;;
    if getState w =? EVICTED then
      locked <~ tryLockPage p w ;;
      if locked : bool then
        claimed <~ claimAFrame p policy ;;
        if claimed : bool then
          inserted <~ queueInsert p ;;
          if inserted : bool then Ret (inr (Ok tt)) else Ret (inr (Err evictionQueueFull))
        else resetPage p ;;~ Ret (inr (Err bufferPoolFull))
      else Ret (inl tt)
    else if (getState w =? UNLOCKED) || (getState w =? MARKED) then
      locked <~ tryLockPage p w ;;
      if locked : bool then Ret (inr (Ok tt)) else Ret (inl tt)
    else if getState w =? LOCKED then Ret (inl tt)
    else Halt) tt.

Definition unpin (p : pageId) : P unit := unlockPage p.

(** [func(frame)] of an optimistic read: it copies the bytes at [offsets]. *)
Fixpoint copyBytes (p : pageId) (offsets : list nat) : P (list Z) :=
  match offsets with
  | [] => Ret []
  | i :: rest => b <~ peek (fun s => byteAt (frameOf s p) i) ;; more <~ copyBytes p rest ;; Ret (b :: more)
  end.

Definition optimisticRead (p : pageId) (offsets : list nat) : P (outcome (list Z)) :=
  while (fun _ : unit =>
    w <~ getStateAndVersion p ;;
    if getState w =? UNLOCKED then
      bytes <~ copyBytes p offsets ;;
      w' <~ getStateAndVersion p ;;
      if w' =? w then Ret (inr (Ok bytes)) else Ret (inl tt)
    else if getState w =? MARKED then tryClearMarkPage p w ;;~ Ret (inl tt)
    else if getState w =? EVICTED then
      r <~ pin p READ_PAGE ;;
      match r with
      | Ok _ => unpin p ;;~ Ret (inl tt)
      | Err e => Ret (inr (Err e))
      end
    else Ret (inl tt)) tt.

(** ** Buffers that no file backs (src/storage/buffer_manager/memory_manager.cpp) *)

Definition mallocBuffer (size : Z) : P (outcome unit) :=
  ok <~ reserve size ;;
  if ok : bool then addNonEvictable size ;;~ mallocBytes size ;;~ Ret (Ok tt)
  else Ret (Err bufferPoolFull).
Definition freeBlock (size : Z) : P unit :=
  freeBytes size ;;~ freeUsedMemory size ;;~ addNonEvictable (- size).
Definition addUnusedChunk (g : SpillGroup) : P unit := poke (fun s =>
  setMemory (usedMemory s) (nonEvictableMemory s) (malloced s) (fullPartitionerGroups s ++ [g]) s).

(** ** Calls and their protocol *)

(** A page that a thread has pinned: whether its bytes are not yet defined because it was
    pinned without reading it, and whether it was written and marked dirty since. *)
Record pinned := mkPinned { blank : bool; wrote : bool; dirtied : bool }.

(** What a thread knows: its pinned pages, and the sizes of its buffers. *)
Record client := mkClient { pins : gmap pageId pinned; buffers : list Z }.

Inductive call : Type :=
| CPin (p : pageId) (policy : PageReadPolicy)
| CUnpin (p : pageId)
| CSetDirty (p : pageId)
| CWrite (p : pageId) (i : nat) (b : Z)
| CRead (p : pageId) (offsets : list nat)
| CMalloc (size : Z)
| CFree (size : Z)
| CAddChunk (g : SpillGroup).

(** Temporary pages are not written back: their callers never mark them dirty. *)
Definition tracked (p : pageId) : bool := negb (isLargePaged (flagsOf p)).

Fixpoint remove1 (x : Z) (l : list Z) : list Z :=
  match l with [] => [] | y :: l => if x =? y then l else y :: remove1 x l end.
Fixpoint removeSizes (xs l : list Z) : option (list Z) :=
  match xs with
  | [] => Some l
  | x :: xs => if bool_decide (x ∈ l) then removeSizes xs (remove1 x l) else None
  end.

(** The responsibilities of the caller in the comments of [pin] and [unpin]: only a pinned
    page is written, marked dirty or unpinned; a page that was written is marked dirty before
    it is unpinned, and one that was pinned without reading it is written. *)
Definition allowed (c : client) (what : call) : Prop :=
  match what with
  | CPin _ _ | CRead _ _ => True
  | CUnpin p => exists x, pins c !! p = Some x /\
      (tracked p = true -> blank x = false /\ (wrote x = true -> dirtied x = true))
  | CSetDirty p | CWrite p _ _ => is_Some (pins c !! p)
  | CMalloc size => 0 <= size
  | CFree size => size ∈ buffers c
  | CAddChunk g => is_Some (removeSizes (bufferSizes g) (buffers c))
  end.

Definition finish (c : client) (what : call) (r : outcome (list Z)) : client :=
  match what, r with
  | CPin p policy, Ok _ =>
      mkClient (<[p := mkPinned (match policy with DONT_READ_PAGE => true | READ_PAGE => false end) false false]>
        (pins c)) (buffers c)
  | CUnpin p, _ => mkClient (delete p (pins c)) (buffers c)
  | CSetDirty p, _ => mkClient (alter (fun x => mkPinned (blank x) (wrote x) true) p (pins c)) (buffers c)
  | CWrite p _ _, _ => mkClient (alter (fun x => mkPinned false true (dirtied x)) p (pins c)) (buffers c)
  | CMalloc size, Ok _ => mkClient (pins c) (size :: buffers c)
  | CFree size, _ => mkClient (pins c) (remove1 size (buffers c))
  | CAddChunk g, _ => mkClient (pins c) (default (buffers c) (removeSizes (bufferSizes g) (buffers c)))
  | _, _ => c
  end.

(** A caller stores a byte in the frame of a page. *)
Definition writeByte (p : pageId) (i : nat) (b : Z) : P unit := poke (fun s =>
  let pg := <[i:=b]> (frameOf s p) in setContent p pg (setFrame p pg s)).

Definition code (what : call) : P (outcome (list Z)) :=
  match what with
  | CPin p policy =>
      r <~ pin p policy ;; Ret (match r with Ok _ => Ok [] | Err e => Err e end)
  | CUnpin p => unpin p ;;~ Ret (Ok [])
  | CSetDirty p => setDirtyPage p ;;~ Ret (Ok [])
  | CWrite p i b => writeByte p i b ;;~ Ret (Ok [])
  | CRead p offsets => optimisticRead p offsets
  | CMalloc size =>
      r <~ mallocBuffer size ;; Ret (match r with Ok _ => Ok [] | Err e => Err e end)
  | CFree size => freeBlock size ;;~ Ret (Ok [])
  | CAddChunk g => addUnusedChunk g ;;~ Ret (Ok [])
  end.

(** The state the constructor leaves: empty frames, the queue's own memory in use. *)
Definition queueMemory : Z := capacity * 8.
Definition initial (files : gmap pageId page) : shared :=
  mkShared ∅ ∅ files files ∅ (replicate (Z.to_nat capacity) EMPTY) 0 0 0 queueMemory 0 0 [].

Definition idleClient : client := mkClient ∅ [].
Definition bmSystem : Type := system (S := shared) (T := nat) (call := call) (client := client) (result := outcome (list Z)).
Definition bmInitial (files : gmap pageId page) (ids : gset nat) : bmSystem :=
  mkSystem (initial files) (Idle <$> gset_to_gmap idleClient ids).

Definition verifySizeParams (maxDBSize : Z) : outcome unit :=
  if bufferPoolSize cfg <? PAGE_BYTES then
    Err (BufferManagerException "The given buffer pool size should be at least 4096 bytes.")
  else if maxDBSize <? PAGE_BYTES * 2 ^ 10 then
    Err (BufferManagerException "The given max db size should be at least 4194304 bytes.")
  else if negb (Z.land maxDBSize (wrapU 64 (maxDBSize - 1)) =? 0) then
    Err (BufferManagerException "The given max db size should be a power of 2.")
  else Ok tt.
End Config.
