(* ===== verification/BufferManagerInv.v ===== *)
(** * What the threads of the buffer manager own, and the invariant of all threads

    A thread owns the pages whose words it has locked, and for each of them it knows whether
    the frame has memory and where the page's content is ([hold]).  It also owns memory: what
    it has reserved, what it has freed but not yet subtracted from [usedMemory], and how much
    of its reservation is known to fit into the pool ([loc]).  [pagesOK] relates locked pages
    to their holders and all other pages to their content, [memOK] is the accounting.  Every
    access of [BufferManager] keeps both: one lemma for each access. *)

From S2P Require Import Prelude PageState Concurrent BufferManager.
From stdpp Require Import base list gmap numbers strings.
Local Open Scope Z_scope.
#[local] Opaque getState isDirty versionOf unlock setDirty clearDirty updateStateWithSameVersion resetToEvicted.

Inductive hold : Type :=
| Unfilled                    (** no memory for the frame *)
| Filled                     (** the frame has memory, the content is on disk *)
| Pinned (x : pinned)      (** the content is in the frame *)
| Unlocking (w : Z).       (** the word was read in order to be unlocked *)

Record loc := mkLoc { held : gmap pageId hold; reserved : Z; claimed : Z; granted : Z; owned : Z }.

(** Everything the invariant says of one page. *)
Record view := mkView { vWord : Z; vFrame : page; vDisk : page; vContent : page; vResident : bool }.
Definition viewOf (s : shared) (p : pageId) : view :=
  mkView (word s p) (frameOf s p) (diskOf s p) (contentOf s p) (bool_decide (p ∈ resident s)).

(** ** Sums over threads, groups and pages *)

Definition sumZ (l : list Z) : Z := foldr Z.add 0 l.

Lemma sumZ_app l k : sumZ (l ++ k) = sumZ l + sumZ k.
Proof. induction l as [|x l IH]; cbn; [done|]. unfold sumZ in *. lia. Qed.

Lemma sumZ_perm l k : l ≡ₚ k -> sumZ l = sumZ k.
Proof. unfold sumZ. induction 1; cbn; lia. Qed.

Lemma sumZ_nonneg l : Forall (fun x => 0 <= x) l -> 0 <= sumZ l.
Proof. unfold sumZ. induction 1; cbn; lia. Qed.

Definition sumG (f : loc -> Z) (G : gmap nat loc) : Z := sumZ ((f ∘ snd) <$> map_to_list G).

Lemma sumG_fresh f G t l : G !! t = None -> sumG f (<[t:=l]> G) = f l + sumG f G.
Proof. intros Ht. unfold sumG. rewrite (sumZ_perm _ _ (fmap_Permutation _ _ _ (map_to_list_insert G t l Ht))). done. Qed.

Lemma sumG_split f G t l : G !! t = Some l -> sumG f G = f l + sumG f (delete t G).
Proof. intros Ht. rewrite <- (insert_delete_id G t l Ht) at 1. apply sumG_fresh, lookup_delete_eq. Qed.

Lemma sumG_insert f G t l l' : G !! t = Some l -> sumG f (<[t:=l']> G) = sumG f G - f l + f l'.
Proof.
  intros Ht. rewrite (sumG_split f G t l Ht), (sumG_split f (<[t:=l']> G) t l') by apply lookup_insert_eq.
  rewrite delete_insert_eq. lia.
Qed.

Lemma sumG_le f g G : (forall t l, G !! t = Some l -> f l <= g l) -> sumG f G <= sumG g G.
Proof.
  intros HG. unfold sumG. assert (HF : Forall (fun '(_, l) => f l <= g l) (map_to_list G)).
  { apply Forall_forall. intros [t l] Hin. by apply (HG t), elem_of_map_to_list. }
  induction HF as [|[t l] k H1 _ IH]; cbn; [done|]. unfold sumZ in *. lia.
Qed.

Lemma sumG_nonneg f G : (forall t l, G !! t = Some l -> 0 <= f l) -> 0 <= sumG f G.
Proof.
  intros HG. apply sumZ_nonneg. apply Forall_fmap, Forall_forall. intros [t l] Hin.
  by apply (HG t), elem_of_map_to_list.
Qed.

Section Invariant.
Context (cfg : Config).

Definition bytesOf (X : gset pageId) : Z := sumZ (pageSizeOf cfg <$> elements X).
Definition groupBytes (gs : list SpillGroup) : Z := sumZ ((fun g => sumZ (bufferSizes g)) <$> gs).

Lemma pageSize_pos p : 0 < pageSizeOf cfg p.
Proof. unfold pageSizeOf, getPageSize. by case_match. Qed.

Lemma bytesOf_add p X : p ∉ X -> bytesOf ({[p]} ∪ X) = pageSizeOf cfg p + bytesOf X.
Proof.
  intros Hp. unfold bytesOf.
  by rewrite (sumZ_perm _ _ (fmap_Permutation _ _ _ (elements_union_singleton X p Hp))).
Qed.

Lemma bytesOf_remove p X : p ∈ X -> bytesOf (X ∖ {[p]}) = bytesOf X - pageSizeOf cfg p.
Proof.
  intros Hp. pose proof (bytesOf_add p (X ∖ {[p]})) as HA.
  rewrite <- union_difference_L in HA by set_solver. rewrite HA by set_solver. lia.
Qed.

Lemma bytesOf_nonneg X : 0 <= bytesOf X.
Proof.
  apply sumZ_nonneg, Forall_fmap, Forall_forall. intros p _. cbn. pose proof (pageSize_pos p). lia.
Qed.

(** ** The invariant *)

Definition onDisk (p : pageId) (v : view) : Prop := tracked cfg p = true -> vDisk v = vContent v.
Definition inFrame (p : pageId) (v : view) : Prop := tracked cfg p = true -> vFrame v = vContent v.
Definition saved (p : pageId) (v : view) : Prop :=
  tracked cfg p = true -> isDirty (vWord v) = true \/ vDisk v = vContent v.

Definition holdOK (p : pageId) (v : view) (h : hold) : Prop :=
  match h with
  | Unfilled => vResident v = false /\ onDisk p v
  | Filled => vResident v = true /\ onDisk p v
  | Pinned x =>
      vResident v = true /\ (blank x = false -> inFrame p v) /\
      (blank x = false -> wrote x = false -> saved p v) /\ (dirtied x = true -> isDirty (vWord v) = true)
  | Unlocking w => vWord v = w /\ vResident v = true /\ inFrame p v /\ saved p v
  end.

(** A page that nobody has locked. *)
Definition freeOK (p : pageId) (v : view) : Prop :=
  if getState (vWord v) =? EVICTED then vResident v = false /\ onDisk p v
  else vResident v = true /\ inFrame p v /\ saved p v.

Definition wordOK (n : nat) (v : view) : Prop := goodWord (vWord v) /\ versionOf (vWord v) <= Z.of_nat n.

Record pagesOK (n : nat) (s : shared) (G : gmap nat loc) : Prop := {
  po_word : forall p, wordOK n (viewOf s p);
  po_unique : forall t u l l' p, G !! t = Some l -> G !! u = Some l' ->
    is_Some (held l !! p) -> is_Some (held l' !! p) -> t = u;
  po_locked : forall p, getState (word s p) = LOCKED -> exists t l, G !! t = Some l /\ is_Some (held l !! p);
  po_held : forall t l p h, G !! t = Some l -> held l !! p = Some h ->
    getState (word s p) = LOCKED /\ holdOK p (viewOf s p) h;
  po_free : forall p, getState (word s p) <> LOCKED -> freeOK p (viewOf s p)
}.

Record locOK (l : loc) : Prop := {
  lo_reserved : 0 <= reserved l;
  lo_claimed : 0 <= claimed l;
  lo_granted : Z.min (reserved l) (claimed l) <= granted l <= reserved l;
  lo_owned : 0 <= owned l
}.

Record memOK (s : shared) (G : gmap nat loc) : Prop := {
  mo_loc : forall t l, G !! t = Some l -> locOK l;
  mo_groups : Forall (fun g => Forall (fun z => 0 <= z) (bufferSizes g)) (fullPartitionerGroups s);
  mo_used : usedMemory s = queueMemory cfg + bytesOf (resident s) + malloced s +
                           sumG (fun l => reserved l + claimed l) G;
  mo_bound : queueMemory cfg + bytesOf (resident s) + malloced s + sumG granted G <= bufferPoolSize cfg;
  mo_malloced : sumG owned G + groupBytes (fullPartitionerGroups s) <= malloced s
}.

(** Versions of words do not run over within this many steps. *)
Definition fine (n : nat) : Prop := Z.of_nat n < 2 ^ 55 - 1.

Definition Inv (n : nat) (s : shared) (G : gmap nat loc) : Prop := pagesOK n s G /\ memOK s G.

(** What every step guarantees: a word goes on or is reset, and a frame changes only while
    its page is locked. *)
Definition rank (w : Z) : Z := 2 * versionOf w + (if getState w =? LOCKED then 1 else 0).
Definition pageGuar (v v' : view) : Prop :=
  (vWord v' = resetToEvicted \/ rank (vWord v) <= rank (vWord v')) /\
  (vFrame v <> vFrame v' -> getState (vWord v) = LOCKED).
Definition Guar (s s' : shared) : Prop := forall p, pageGuar (viewOf s p) (viewOf s' p).

Lemma pageGuar_refl v : pageGuar v v.
Proof. split; [right; lia | done]. Qed.

Lemma Guar_refl s : Guar s s.
Proof. intros p. apply pageGuar_refl. Qed.

(** ** How accesses keep the invariant *)

Lemma pagesOK_later n s G : pagesOK n s G -> pagesOK (S n) s G.
Proof.
  intros [H1 H2 H3 H4 H5]. split; [|done..]. intros p. destruct (H1 p). split; [done|lia].
Qed.

(** Nobody else holds a page that is not locked, or that the thread itself holds. *)
Definition mine (s : shared) (l : loc) (p : pageId) : Prop :=
  is_Some (held l !! p) \/ getState (word s p) <> LOCKED.

Lemma pagesOK_other n s G t u l l' p :
  pagesOK n s G -> G !! t = Some l -> mine s l p -> G !! u = Some l' -> is_Some (held l' !! p) -> t = u.
Proof.
  intros HP Ht [Hm|Hm] Hu Hh; [by eapply po_unique|].
  destruct Hh as [h Hh]. by destruct (po_held _ _ _ HP u l' p h Hu Hh).
Qed.

(** A thread changes page [p], which nobody else holds, and what it holds of it. *)
Lemma pagesOK_update n s s' G t l l' p ho :
  pagesOK n s G -> G !! t = Some l -> mine s l p ->
  (forall q, q <> p -> viewOf s' q = viewOf s q) ->
  (forall q, q <> p -> held l' !! q = held l !! q) -> held l' !! p = ho ->
  wordOK (S n) (viewOf s' p) ->
  match ho with
  | Some h => getState (word s' p) = LOCKED /\ holdOK p (viewOf s' p) h
  | None => getState (word s' p) <> LOCKED /\ freeOK p (viewOf s' p)
  end ->
  pagesOK (S n) s' (<[t:=l']> G).
Proof.
  intros HP Ht Hm Hv Hl Hp Hw Hho.
  assert (Hword : forall q, q <> p -> word s' q = word s q).
  { intros q Hq. exact (f_equal vWord (Hv q Hq)). }
  assert (Hcases : forall u k, <[t:=l']> G !! u = Some k -> (u = t /\ k = l') \/ (u <> t /\ G !! u = Some k)).
  { intros u k Hk. destruct (decide (t = u)) as [<-|Hne].
    - rewrite lookup_insert_eq in Hk. simplify_eq. auto.
    - rewrite lookup_insert_ne in Hk by done. auto. }
  assert (Hothers : forall u k q, u <> t -> G !! u = Some k -> is_Some (held k !! q) -> q <> p).
  { intros u k q Hu Hk Hq ->. apply Hu. symmetry. by eapply pagesOK_other. }
  split.
  - intros q. destruct (decide (q = p)) as [->|Hq]; [done|]. rewrite Hv by done.
    destruct (po_word _ _ _ HP q). split; [done|lia].
  - intros u1 u2 k1 k2 q H1 H2 Hq1 Hq2.
    assert (Hback : forall u k, <[t:=l']> G !! u = Some k -> is_Some (held k !! q) -> q <> p ->
              exists k0, G !! u = Some k0 /\ is_Some (held k0 !! q)).
    { intros u k Hk Hkq Hne. destruct (Hcases u k Hk) as [[-> ->]|[? ?]]; [|eauto].
      exists l. by rewrite <- Hl by done. }
    destruct (decide (q = p)) as [->|Hne].
    + destruct (Hcases _ _ H1) as [[-> ->]|[Hu1 Hk1]], (Hcases _ _ H2) as [[-> ->]|[Hu2 Hk2]]; [done| | |].
      * by destruct (Hothers _ _ _ Hu2 Hk2 Hq2).
      * by destruct (Hothers _ _ _ Hu1 Hk1 Hq1).
      * by destruct (Hothers _ _ _ Hu1 Hk1 Hq1).
    + destruct (Hback _ _ H1 Hq1 Hne) as (? & ? & ?), (Hback _ _ H2 Hq2 Hne) as (? & ? & ?).
      by eapply po_unique.
  - intros q Hq. destruct (decide (q = p)) as [->|Hne].
    + exists t, l'. rewrite lookup_insert_eq, Hp. split; [done|]. destruct ho; [done|]. by destruct (proj1 Hho).
    + rewrite Hword in Hq by done. destruct (po_locked _ _ _ HP q Hq) as (u & k & Hu & Hk).
      destruct (decide (t = u)) as [<-|Hut].
      * exists t, l'. rewrite lookup_insert_eq, Hl by done. by simplify_eq.
      * exists u, k. by rewrite lookup_insert_ne by done.
  - intros u k q h Hu Hk. destruct (decide (q = p)) as [->|Hne].
    + destruct (Hcases _ _ Hu) as [[-> ->]|[Hut Hk']].
      * rewrite Hp in Hk. rewrite Hk in Hho. exact Hho.
      * by destruct (Hothers _ _ _ Hut Hk' (mk_is_Some _ _ Hk)).
    + rewrite Hword, Hv by done. destruct (Hcases _ _ Hu) as [[-> ->]|[Hut Hk']].
      * rewrite Hl in Hk by done. by eapply po_held.
      * by eapply po_held.
  - intros q Hq. destruct (decide (q = p)) as [->|Hne].
    + destruct ho; [by destruct (Hq (proj1 Hho)) | exact (proj2 Hho)].
    + rewrite Hword in Hq by done. rewrite Hv by done. by apply (po_free _ _ _ HP).
Qed.

(** A thread changes no page and holds the same pages. *)
Lemma pagesOK_frame n s s' G t l l' :
  pagesOK n s G -> G !! t = Some l -> (forall q, viewOf s' q = viewOf s q) -> held l' = held l ->
  pagesOK (S n) s' (<[t:=l']> G).
Proof.
  intros HP Ht Hv Hl. destruct (pagesOK_later _ _ _ HP) as [H1 H2 H3 H4 H5].
  assert (Hword : forall q, word s' q = word s q) by (intros q; exact (f_equal vWord (Hv q))).
  assert (Hback : forall u k, <[t:=l']> G !! u = Some k -> exists k0, G !! u = Some k0 /\ held k = held k0).
  { intros u k Hk. destruct (decide (t = u)) as [<-|Hne].
    - rewrite lookup_insert_eq in Hk. simplify_eq. eauto.
    - rewrite lookup_insert_ne in Hk by done. eauto. }
  split.
  - intros p. by rewrite Hv.
  - intros u1 u2 k1 k2 p Hk1 Hk2. destruct (Hback _ _ Hk1) as (? & ? & ->), (Hback _ _ Hk2) as (? & ? & ->). eauto.
  - intros p Hp. rewrite Hword in Hp. destruct (H3 p Hp) as (u & k & Hu & Hk).
    destruct (decide (t = u)) as [<-|Hne].
    + exists t, l'. rewrite lookup_insert_eq, Hl. by simplify_eq.
    + exists u, k. by rewrite lookup_insert_ne.
  - intros u k p h Hu Hk. destruct (Hback _ _ Hu) as (k0 & Hu0 & Hk0). rewrite Hk0 in Hk.
    rewrite Hword, Hv. eauto.
  - intros p Hp. rewrite Hword in Hp. rewrite Hv. auto.
Qed.

(** The accounting after thread [t] has gone from owning [l] to owning [l']. *)
Lemma memOK_update s s' G t l l' :
  memOK s G -> G !! t = Some l -> locOK l' ->
  Forall (fun g => Forall (fun z => 0 <= z) (bufferSizes g)) (fullPartitionerGroups s') ->
  usedMemory s' - usedMemory s = bytesOf (resident s') - bytesOf (resident s) + (malloced s' - malloced s) +
    (reserved l' + claimed l' - (reserved l + claimed l)) ->
  bytesOf (resident s') + malloced s' + granted l' <= bytesOf (resident s) + malloced s + granted l ->
  owned l' - owned l + groupBytes (fullPartitionerGroups s') - groupBytes (fullPartitionerGroups s)
    <= malloced s' - malloced s ->
  memOK s' (<[t:=l']> G).
Proof.
  intros [H1 H2 H3 H4 H5] Ht Hl' Hg Hu Hb Hm. split.
  - intros u k Hk. destruct (decide (t = u)) as [<-|Hne].
    + rewrite lookup_insert_eq in Hk. by simplify_eq.
    + rewrite lookup_insert_ne in Hk by done. eauto.
  - done.
  - rewrite (sumG_insert _ _ _ _ _ Ht). lia.
  - rewrite (sumG_insert _ _ _ _ _ Ht). lia.
  - rewrite (sumG_insert _ _ _ _ _ Ht). lia.
Qed.

(** Nothing of the accounting changes. *)
Lemma memOK_frame s s' G t l l' :
  memOK s G -> G !! t = Some l -> resident s' = resident s -> usedMemory s' = usedMemory s ->
  malloced s' = malloced s -> fullPartitionerGroups s' = fullPartitionerGroups s ->
  reserved l' = reserved l -> claimed l' = claimed l -> granted l' = granted l -> owned l' = owned l ->
  memOK s' (<[t:=l']> G).
Proof.
  intros HM Ht Hr Hu Hm Hg H1 H2 H3 H4. pose proof (mo_loc _ _ HM t l Ht) as [? ? ? ?].
  eapply memOK_update; [done..| | | | |]; rewrite ?Hr, ?Hu, ?Hm, ?Hg, ?H1, ?H2, ?H3, ?H4; try lia.
  - by split; rewrite ?H1, ?H2, ?H3, ?H4.
  - apply (mo_groups _ _ HM).
Qed.

(** When what is used, apart from what the thread has freed, fits into the pool, then so
    does what the thread has reserved, whatever the other threads are doing. *)
Definition grant (l : loc) : loc := mkLoc (held l) (reserved l) (claimed l) (reserved l) (owned l).

Lemma memOK_grant s G t l :
  memOK s G -> G !! t = Some l -> usedMemory s - claimed l <= bufferPoolSize cfg -> memOK s (<[t:=grant l]> G).
Proof.
  intros [H1 H2 H3 H4 H5] Ht Hc. pose proof (H1 t l Ht) as [? ? ? ?]. split; [|done|..].
  - intros u k Hk. destruct (decide (t = u)) as [<-|Hne].
    + rewrite lookup_insert_eq in Hk. simplify_eq. split; cbn; lia.
    + rewrite lookup_insert_ne in Hk by done. eauto.
  - rewrite (sumG_insert _ _ _ _ _ Ht). cbn. lia.
  - rewrite (sumG_insert _ _ _ _ _ Ht). cbn.
    rewrite (sumG_split granted G t l Ht). rewrite (sumG_split _ G t l Ht) in H3.
    enough (sumG granted (delete t G) <= sumG (fun l => reserved l + claimed l) (delete t G)) by lia.
    apply sumG_le. intros u k Hk. rewrite lookup_delete_Some in Hk. destruct (H1 u k) as [? ? ? ?]; [naive_solver|]. lia.
  - rewrite (sumG_insert _ _ _ _ _ Ht). cbn. lia.
Qed.

Lemma memOK_later s G t l : memOK s G -> G !! t = Some l -> memOK s (<[t:=l]> G).
Proof. intros HM Ht. by rewrite insert_id. Qed.
End Invariant.

(** ** Views after an access *)

Section Views.
Context (p : pageId) (s : shared).

Lemma view_setWord w q : viewOf (setWord p w s) q =
  if decide (q = p) then mkView w (frameOf s p) (diskOf s p) (contentOf s p) (bool_decide (p ∈ resident s)) else viewOf s q.
Proof.
  unfold viewOf, word, setWord; cbn. destruct (decide (q = p)) as [->|Hne].
  - by rewrite lookup_insert_eq.
  - by rewrite lookup_insert_ne by done.
Qed.
Lemma view_setFrame pg q : viewOf (setFrame p pg s) q =
  if decide (q = p) then mkView (word s p) pg (diskOf s p) (contentOf s p) (bool_decide (p ∈ resident s)) else viewOf s q.
Proof.
  unfold viewOf, frameOf, setFrame; cbn. destruct (decide (q = p)) as [->|Hne].
  - by rewrite lookup_insert_eq.
  - by rewrite lookup_insert_ne by done.
Qed.
Lemma view_setDisk pg q : viewOf (setDisk p pg s) q =
  if decide (q = p) then mkView (word s p) (frameOf s p) pg (contentOf s p) (bool_decide (p ∈ resident s)) else viewOf s q.
Proof.
  unfold viewOf, diskOf, setDisk; cbn. destruct (decide (q = p)) as [->|Hne].
  - by rewrite lookup_insert_eq.
  - by rewrite lookup_insert_ne by done.
Qed.
Lemma view_setContent pg q : viewOf (setContent p pg s) q =
  if decide (q = p) then mkView (word s p) (frameOf s p) (diskOf s p) pg (bool_decide (p ∈ resident s)) else viewOf s q.
Proof.
  unfold viewOf, contentOf, setContent; cbn. destruct (decide (q = p)) as [->|Hne].
  - by rewrite lookup_insert_eq.
  - by rewrite lookup_insert_ne by done.
Qed.
Lemma view_add q : viewOf (setResident ({[p]} ∪ resident s) s) q =
  if decide (q = p) then mkView (word s p) (frameOf s p) (diskOf s p) (contentOf s p) true else viewOf s q.
Proof.
  unfold viewOf, setResident; cbn. destruct (decide (q = p)) as [->|Hne]; f_equal.
  - apply bool_decide_true. set_solver.
  - apply bool_decide_ext. set_solver.
Qed.
Lemma view_remove q : viewOf (setResident (resident s ∖ {[p]}) s) q =
  if decide (q = p) then mkView (word s p) (frameOf s p) (diskOf s p) (contentOf s p) false else viewOf s q.
Proof.
  unfold viewOf, setResident; cbn. destruct (decide (q = p)) as [->|Hne]; f_equal.
  - apply bool_decide_false. set_solver.
  - apply bool_decide_ext. set_solver.
Qed.
End Views.

Create Rewrite HintDb views.
#[export] Hint Rewrite view_setWord view_setFrame view_setDisk view_setContent view_add view_remove : views.
