(* ===== verification/BufferManagerRules.v ===== *)
(** * Every access of the buffer manager keeps the invariant

    One rule for every access of [BufferManager]: what a thread owns before it and after it. *)

From S2P Require Import Prelude PageState Concurrent BufferManager BufferManagerInv.
From stdpp Require Import base list gmap numbers strings.
Local Open Scope Z_scope.
#[local] Opaque getState isDirty versionOf unlock setDirty clearDirty updateStateWithSameVersion resetToEvicted.

Definition setHold (p : pageId) (h : hold) (l : loc) : loc :=
  mkLoc (<[p:=h]> (held l)) (reserved l) (claimed l) (granted l) (owned l).
Definition dropHold (p : pageId) (l : loc) : loc :=
  mkLoc (delete p (held l)) (reserved l) (claimed l) (granted l) (owned l).

(** The thread has freed [z] bytes that are still counted as used. *)
Definition claim (z : Z) (l : loc) : loc :=
  mkLoc (held l) (reserved l) (claimed l + z) (Z.max (granted l) (Z.min (reserved l) (claimed l + z))) (owned l).
(** It uses [z] bytes that it has reserved. *)
Definition spend (z : Z) (l : loc) : loc :=
  mkLoc (held l) (reserved l - z) (claimed l) (granted l - z) (owned l).
Definition give (z : Z) (l : loc) : loc :=
  mkLoc (held l) (reserved l) (claimed l) (granted l) (owned l + z).
(** What it has reserved, freed and been granted, anew. *)
Definition account (r c g : Z) (l : loc) : loc := mkLoc (held l) r c g (owned l).

(** What the invariant says of one page, by computation. *)
Ltac page_case :=
  unfold wordOK in *; cbn in *; unfold inFrame, saved, onDisk in *; cbn in *;
  split_and!; try done; first [lia | by right; lia | by auto].

Section Rules.
Context (cfg : Config).
Local Abbreviation SafeT := (Safe fine (Inv cfg) Guar).

(** ** Shapes of accesses *)

Lemma Safe_page t l {R} (f : shared -> R * shared) p (Q : R -> loc -> Prop) :
  (forall n s G, fine n -> G !! t = Some l -> pagesOK cfg n s G -> memOK cfg s G ->
     exists l' ho,
       mine s l p /\ (forall q, q <> p -> viewOf (f s).2 q = viewOf s q) /\
       (forall q, q <> p -> held l' !! q = held l !! q) /\ held l' !! p = ho /\
       wordOK (S n) (viewOf (f s).2 p) /\
       match ho with
       | Some h => getState (word (f s).2 p) = LOCKED /\ holdOK cfg p (viewOf (f s).2 p) h
       | None => getState (word (f s).2 p) <> LOCKED /\ freeOK cfg p (viewOf (f s).2 p)
       end /\
       pageGuar (viewOf s p) (viewOf (f s).2 p) /\ memOK cfg (f s).2 (<[t:=l']> G) /\ Q (f s).1 l') ->
  SafeT t l (access f) Q.
Proof.
  intros HS. apply Safe_access. intros n s G Hf Ht [HP HM].
  destruct (HS n s G Hf Ht HP HM) as (l' & ho & H1 & H2 & H3 & H4 & H5 & H6 & H7 & H8 & H9).
  exists l'. split_and!; [split; [|done]| |done].
  - by eapply pagesOK_update.
  - intros q. destruct (decide (q = p)) as [->|Hq]; [done|]. rewrite H2 by done. apply pageGuar_refl.
Qed.

(** No page changes; the thread's memory may. *)
Lemma Safe_memory t l {R} (f : shared -> R * shared) (Q : R -> loc -> Prop) :
  (forall s q, viewOf (f s).2 q = viewOf s q) ->
  (forall s G, G !! t = Some l -> memOK cfg s G ->
     exists l', held l' = held l /\ memOK cfg (f s).2 (<[t:=l']> G) /\ Q (f s).1 l') ->
  SafeT t l (access f) Q.
Proof.
  intros Hv HS. apply Safe_access. intros n s G Hf Ht [HP HM].
  destruct (HS s G Ht HM) as (l' & Hh & HM' & HQ). exists l'. split_and!; [split| |done].
  - by eapply pagesOK_frame.
  - done.
  - intros q. rewrite Hv. apply pageGuar_refl.
Qed.

(** Neither pages nor memory change. *)
Definition quiet (s s' : shared) : Prop :=
  (forall q, viewOf s' q = viewOf s q) /\ resident s' = resident s /\ usedMemory s' = usedMemory s /\
  malloced s' = malloced s /\ fullPartitionerGroups s' = fullPartitionerGroups s.

Lemma quiet_inv n s s' G t l : quiet s s' -> G !! t = Some l -> Inv cfg n s G -> Inv cfg (S n) s' (<[t:=l]> G) /\ Guar s s'.
Proof.
  intros (Hv & Hr & Hu & Hm & Hg) Ht [HP HM]. split; [split|].
  - by eapply pagesOK_frame.
  - by eapply memOK_frame.
  - intros q. rewrite Hv. apply pageGuar_refl.
Qed.

Lemma Safe_quiet t l {R} (f : shared -> R * shared) (Q : R -> loc -> Prop) :
  (forall s, quiet s (f s).2) -> (forall s, Q (f s).1 l) -> SafeT t l (access f) Q.
Proof.
  intros Hq HQ. apply Safe_access. intros n s G Hf Ht HI. exists l.
  destruct (quiet_inv n s (f s).2 G t l (Hq s) Ht HI). auto.
Qed.

Lemma quiet_refl s : quiet s s.
Proof. done. Qed.

Lemma Safe_look t l {R} (f : shared -> R) (Q : R -> loc -> Prop) :
  (forall r, Q r l) -> SafeT t l (peek f) Q.
Proof. intros HQ. apply Safe_quiet; [intros s; apply quiet_refl | intros s; apply HQ]. Qed.

(** ** Locking and marking *)

Lemma view_setWord_same p s q : viewOf (setWord p (word s p) s) q = viewOf s q.
Proof. rewrite view_setWord. destruct (decide (q = p)) as [->|]; done. Qed.

Lemma rank_lock w : goodWord w -> getState w <> LOCKED -> rank w <= rank (updateStateWithSameVersion w LOCKED).
Proof.
  intros Hg Hs. destruct (update_good w LOCKED Hg) as (_ & H1 & H2 & _); [unfold LOCKED; lia|].
  unfold rank. rewrite H1, H2, Z.eqb_refl. case_match; lia.
Qed.

(** What a thread may assume of a page it has just locked. *)
Definition lockedHold (w : Z) (b : bool) : hold :=
  if getState w =? EVICTED then Unfilled else Pinned (mkPinned b false false).

Lemma locked_hold n s G p w b :
  pagesOK cfg n s G -> word s p = w -> getState w <> LOCKED ->
  let w' := updateStateWithSameVersion w LOCKED in
  wordOK (S n) (viewOf (setWord p w' s) p) /\ getState (word (setWord p w' s) p) = LOCKED /\
  holdOK cfg p (viewOf (setWord p w' s) p) (lockedHold w b) /\
  pageGuar (viewOf s p) (viewOf (setWord p w' s) p).
Proof.
  intros HP Hw Hs w'. pose proof (po_free _ _ _ _ HP p) as HF. pose proof (po_word _ _ _ _ HP p) as [Hg Hn].
  cbn in Hg, Hn. rewrite Hw in *. specialize (HF Hs).
  destruct (update_good w LOCKED Hg) as (G1 & G2 & G3 & G4); [unfold LOCKED; lia|].
  change (getState (word (setWord p w' s) p)) with (getState (vWord (viewOf (setWord p w' s) p))).
  rewrite !view_setWord, decide_True by done. unfold wordOK, pageGuar, lockedHold; cbn. fold w' in G1, G2, G3, G4.
  split_and!; [done|rewrite G3; lia|done| |right; rewrite Hw; by apply rank_lock|done].
  unfold freeOK in HF; cbn in HF. rewrite Hw in HF. destruct (getState w =? EVICTED).
  - unfold holdOK, onDisk in *; cbn in *. exact HF.
  - destruct HF as (H1 & H2 & H3). unfold holdOK, inFrame, saved in *; cbn in *. rewrite Hw in H3.
    split_and!; [done|auto| |done]. rewrite G4. auto.
Qed.

Lemma tryLock_safe t l p w b :
  getState w <> LOCKED ->
  SafeT t l (tryLockPage p w) (fun ok l' =>
    if ok : bool then held l !! p = None /\ l' = setHold p (lockedHold w b) l else l' = l).
Proof.
  intros Hs. apply Safe_access. intros n s G Hf Ht [HP HM]. cbn. unfold tryLock, compareExchange.
  destruct (Z.eqb_spec (word s p) w) as [Hw|Hw]; cbn.
  - assert (Hno : held l !! p = None).
    { destruct (held l !! p) as [h|] eqn:E; [|done].
      destruct (po_held _ _ _ _ HP t l p h Ht E) as [HL _]. congruence. }
    destruct (locked_hold n s G p w b HP Hw Hs) as (H1 & H2 & H3 & H4).
    exists (setHold p (lockedHold w b) l). split_and!; [split| |done|done].
    + apply (pagesOK_update cfg n s _ G t l _ p (Some (lockedHold w b))); try done.
      * right. by rewrite Hw.
      * intros q Hq. by rewrite view_setWord, decide_False by done.
      * intros q Hq. cbn. by rewrite lookup_insert_ne by done.
      * cbn. by rewrite lookup_insert_eq.
    + by eapply memOK_frame.
    + intros q. destruct (decide (q = p)) as [->|Hq]; [done|].
      rewrite view_setWord, decide_False by done. apply pageGuar_refl.
  - exists l. destruct (quiet_inv n s (setWord p (word s p) s) G t l) as [H1 H2]; [|done..|auto].
    split; [|done]. intros q. apply view_setWord_same.
Qed.

(** [tryMark] and [tryClearMark]: between UNLOCKED and MARKED. *)
Lemma remark_safe t l p w st (Q : bool -> loc -> Prop) :
  getState w = UNLOCKED \/ getState w = MARKED -> st = UNLOCKED \/ st = MARKED -> (forall b, Q b l) ->
  SafeT t l (casWord (fun x => compareExchange x w (updateStateWithSameVersion w st)) p) Q.
Proof.
  intros Hs Hst HQ. apply Safe_access. intros n s G Hf Ht [HP HM]. cbn. unfold compareExchange.
  destruct (Z.eqb_spec (word s p) w) as [Hw|Hw]; cbn; exists l.
  - pose proof (po_word _ _ _ _ HP p) as [Hg Hn]. cbn in Hg, Hn. rewrite Hw in Hg, Hn.
    assert (Hnl : getState w <> LOCKED) by (unfold UNLOCKED, MARKED, LOCKED in *; lia).
    assert (Hne : forall z, z = UNLOCKED \/ z = MARKED -> (z =? EVICTED) = false /\ z <> LOCKED /\ 0 <= z <= 3)
      by (unfold UNLOCKED, MARKED, LOCKED, EVICTED in *; lia).
    destruct (Hne _ Hs) as (E1 & _ & _), (Hne _ Hst) as (E2 & E3 & E4).
    destruct (update_good w st Hg E4) as (G1 & G2 & G3 & G4).
    pose proof (po_free _ _ _ _ HP p) as HF. rewrite Hw in HF. specialize (HF Hnl).
    unfold freeOK in HF; cbn in HF. rewrite Hw, E1 in HF.
    assert (Hv : forall q, q <> p -> viewOf (setWord p (updateStateWithSameVersion w st) s) q = viewOf s q).
    { intros q Hq. by rewrite view_setWord, decide_False by done. }
    split_and!; [split| |apply HQ].
    + apply (pagesOK_update cfg n s _ G t l l p (held l !! p)); try done.
      * right. by rewrite Hw.
      * rewrite view_setWord, decide_True by done. split; cbn; [done|rewrite G3; lia].
      * destruct (held l !! p) as [h|] eqn:E.
        { destruct (po_held _ _ _ _ HP t l p h Ht E) as [HL _]. congruence. }
        change (word (setWord p (updateStateWithSameVersion w st) s) p)
          with (vWord (viewOf (setWord p (updateStateWithSameVersion w st) s) p)).
        rewrite view_setWord, decide_True by done. cbn. rewrite G2. split; [done|].
        unfold freeOK; cbn. rewrite G2, E2. unfold inFrame, saved in *; cbn in *. rewrite G4. by rewrite Hw in HF.
    + by eapply memOK_frame.
    + intros q. destruct (decide (q = p)) as [->|Hq]; [|rewrite Hv by done; apply pageGuar_refl].
      rewrite view_setWord, decide_True by done. unfold pageGuar; cbn. rewrite Hw. split; [right|done].
      unfold rank. rewrite G2, G3. by rewrite !(proj2 (Z.eqb_neq _ LOCKED)).
  - destruct (quiet_inv n s (setWord p (word s p) s) G t l) as [H1 H2]; [|done..|auto].
    split; [|done]. intros q. apply view_setWord_same.
Qed.

(** ** Pages that the thread holds *)

Definition ownedOK (n : nat) (p : pageId) (h : hold) (v : view) : Prop :=
  wordOK n v /\ getState (vWord v) = LOCKED /\ holdOK cfg p v h.

(** A write to a page that the thread holds as [h] and afterwards holds as [ho]. *)
Lemma Safe_own t l l' p h ho (f : shared -> shared) (Q : unit -> loc -> Prop) :
  held l !! p = Some h ->
  (forall q, q <> p -> held l' !! q = held l !! q) -> held l' !! p = ho ->
  (forall s q, q <> p -> viewOf (f s) q = viewOf s q) ->
  (forall n s, fine n -> ownedOK n p h (viewOf s p) ->
     exists v, viewOf (f s) p = v /\ wordOK (S n) v /\
     match ho with
     | Some h' => getState (vWord v) = LOCKED /\ holdOK cfg p v h'
     | None => getState (vWord v) <> LOCKED /\ freeOK cfg p v
     end /\ (vWord v = resetToEvicted \/ rank (word s p) <= rank (vWord v))) ->
  (forall s G, G !! t = Some l -> memOK cfg s G -> holdOK cfg p (viewOf s p) h -> memOK cfg (f s) (<[t:=l']> G)) ->
  Q tt l' -> SafeT t l (poke f) Q.
Proof.
  intros Hh Hq Hp Hv Hown Hmem HQ. apply (Safe_page t l _ p). intros n s G Hf Ht HP HM. cbn.
  destruct (po_held _ _ _ _ HP t l p h Ht Hh) as [HL HO].
  destruct (Hown n s Hf) as (v & <- & H1 & H2 & H3). { split_and!; [apply (po_word _ _ _ _ HP)|done..]. }
  exists l', ho. split_and!; auto.
  - left. eauto.
  - split; [done|]. intros _. exact HL.
Qed.

Lemma view_changed_word p s w q : q <> p -> viewOf (setWord p w s) q = viewOf s q.
Proof. intros Hq. by rewrite view_setWord, decide_False by done. Qed.
Lemma view_changed_frame p s pg q : q <> p -> viewOf (setFrame p pg s) q = viewOf s q.
Proof. intros Hq. by rewrite view_setFrame, decide_False by done. Qed.

Lemma setHold_other p h l q : q <> p -> held (setHold p h l) !! q = held l !! q.
Proof. intros Hq. cbn. by rewrite lookup_insert_ne by done. Qed.
Lemma setHold_same p h l : held (setHold p h l) !! p = Some h.
Proof. cbn. by rewrite lookup_insert_eq. Qed.
Lemma dropHold_other p l q : q <> p -> held (dropHold p l) !! q = held l !! q.
Proof. intros Hq. cbn. by rewrite lookup_delete_ne by done. Qed.
Lemma dropHold_same p l : held (dropHold p l) !! p = None.
Proof. cbn. by rewrite lookup_delete_eq. Qed.

(** The page is left as it should be for other threads. *)
Definition canUnlock (p : pageId) (x : pinned) : Prop :=
  tracked cfg p = true -> blank x = false /\ (wrote x = true -> dirtied x = true).

Lemma canUnlock_ok p x v : canUnlock p x -> holdOK cfg p v (Pinned x) -> vResident v = true /\ inFrame cfg p v /\ saved cfg p v.
Proof.
  intros HC (H1 & H2 & H3 & H4). unfold inFrame, saved in *. split_and!; [done| |].
  - intros Ht. destruct (HC Ht) as [Hb _]. auto.
  - intros Ht. destruct (HC Ht) as [Hb Hw]. destruct (wrote x); [left; auto | auto].
Qed.

Lemma loadToUnlock_safe t l p x :
  held l !! p = Some (Pinned x) -> canUnlock p x ->
  SafeT t l (getStateAndVersion p) (fun w l' => l' = setHold p (Unlocking w) l).
Proof.
  intros Hh HC. apply (Safe_page t l _ p). intros n s G Hf Ht HP HM. cbn.
  destruct (po_held _ _ _ _ HP t l p _ Ht Hh) as [HL HO].
  destruct (po_word _ _ _ _ HP p) as [Hg Hn].
  exists (setHold p (Unlocking (word s p)) l), (Some (Unlocking (word s p))). split_and!; try done.
  - left. eauto.
  - intros q Hq. by apply setHold_other.
  - apply setHold_same.
  - split; [done|lia].
  - split; [done|]. by apply (canUnlock_ok _ x).
  - apply pageGuar_refl.
  - by eapply memOK_frame.
Qed.

Lemma storeUnlocked_safe t l p w :
  held l !! p = Some (Unlocking w) ->
  SafeT t l (storeWord p (unlock w)) (fun _ l' => l' = dropHold p l).
Proof.
  intros Hh. apply (Safe_own t l (dropHold p l) p _ None _ _ Hh).
  - intros q. apply dropHold_other.
  - apply dropHold_same.
  - intros s q. apply view_changed_word.
  - intros n s Hf ([Hg Hn] & HL & Hw & Hr & Hi & Hs).
    eexists. split; [by rewrite view_setWord, decide_True by done|]. cbn in *. rewrite Hw in *.
    assert (Hv : versionOf w + 1 < 2 ^ 55) by (unfold fine in Hf; lia).
    destruct (unlock_good w Hg Hv) as (G1 & G2 & G3 & G4).
    unfold wordOK; cbn. rewrite G2, G3. split_and!; [done|lia|done| |].
    + unfold freeOK; cbn. rewrite G2. unfold inFrame, saved in *; cbn in *. rewrite G4. by rewrite Hw in Hs.
    + right. unfold rank. rewrite HL, G2, G3. cbn. lia.
  - intros s G Ht HM _. by eapply memOK_frame.
  - done.
Qed.

Lemma unlock_safe t l p x :
  held l !! p = Some (Pinned x) -> canUnlock p x ->
  SafeT t l (unlockPage p) (fun _ l' => l' = dropHold p l).
Proof.
  intros Hh HC. apply Safe_bind. eapply Safe_mono; [by eapply loadToUnlock_safe|]. intros w l' ->. cbn.
  eapply Safe_mono; [apply storeUnlocked_safe, setHold_same|]. intros _ l' ->.
  unfold dropHold, setHold; cbn. f_equal. by rewrite delete_insert_eq.
Qed.

Lemma reset_safe t l p :
  held l !! p = Some Unfilled -> SafeT t l (resetPage p) (fun _ l' => l' = dropHold p l).
Proof.
  intros Hh. destruct evicted_good as (G1 & G2 & G3 & G4). apply (Safe_own t l (dropHold p l) p _ None _ _ Hh).
  - intros q. apply dropHold_other.
  - apply dropHold_same.
  - intros s q. apply view_changed_word.
  - intros n s Hf (Hw & HL & HO). eexists. split; [by rewrite view_setWord, decide_True by done|].
    unfold wordOK; cbn.
    rewrite G2, G3. split_and!; [done|lia|done| |by left]. unfold freeOK; cbn. by rewrite G2.
  - intros s G Ht HM _. by eapply memOK_frame.
  - done.
Qed.

(** The word keeps its state and version; only its dirty bit changes. *)
Lemma Safe_dirty t l p h h' (f : Z -> Z) (Q : unit -> loc -> Prop) :
  held l !! p = Some h ->
  (forall w, goodWord w -> goodWord (f w) /\ getState (f w) = getState w /\ versionOf (f w) = versionOf w) ->
  (forall s, goodWord (word s p) -> holdOK cfg p (viewOf s p) h ->
     holdOK cfg p (mkView (f (word s p)) (frameOf s p) (diskOf s p) (contentOf s p) (bool_decide (p ∈ resident s))) h') ->
  Q tt (setHold p h' l) ->
  SafeT t l (poke (fun s => setWord p (f (word s p)) s)) Q.
Proof.
  intros Hh Hw Hok HQ. apply (Safe_own t l (setHold p h' l) p h (Some h')); try done.
  - intros q. apply setHold_other.
  - apply setHold_same.
  - intros s q. apply view_changed_word.
  - intros n s Hf ([Hg Hn] & HL & HO). eexists. split; [by rewrite view_setWord, decide_True by done|].
    cbn in Hg, Hn, HL. destruct (Hw (word s p) Hg) as (G1 & G2 & G3). unfold wordOK; cbn. rewrite G2, G3.
    split_and!; [done|lia|done|auto|right]. unfold rank. rewrite G2, G3. lia.
  - intros s G Ht HM _. by eapply memOK_frame.
Qed.

Lemma markDirty_safe t l p x (Q : unit -> loc -> Prop) :
  held l !! p = Some (Pinned x) -> Q tt (setHold p (Pinned (mkPinned (blank x) (wrote x) true)) l) ->
  SafeT t l (poke (fun s => setWord p (setDirty (word s p)) s)) Q.
Proof.
  intros Hh HQ. eapply Safe_dirty; [done| | |exact HQ].
  - intros w Hg. by destruct (setDirty_good w Hg) as (? & ? & ? & ?).
  - intros s Hg (H1 & H2 & H3 & H4). destruct (setDirty_good (word s p) Hg) as (_ & _ & _ & Hd).
    unfold holdOK, inFrame, saved in *; cbn in *. rewrite Hd. auto.
Qed.

(** [clearDirty] on a page whose content is on disk; without reading it the page is then
    pinned with unknown bytes. *)
Lemma clearDirty_safe t l p policy :
  held l !! p = Some Filled ->
  SafeT t l (clearDirtyWithoutLock p) (fun _ l' => l' =
    setHold p (match policy with READ_PAGE => Filled | DONT_READ_PAGE => Pinned (mkPinned true false false) end) l).
Proof.
  intros Hh. eapply Safe_dirty; [done| | |done].
  - intros w Hg. by destruct (clearDirty_good w Hg) as (? & ? & ? & ?).
  - intros s Hg [H1 H2]. by destruct policy.
Qed.

Lemma assertLocked_safe t l p (Q : unit -> loc -> Prop) : Q tt l -> SafeT t l (assertLocked p) Q.
Proof.
  intros HQ. apply Safe_bind, Safe_look. intros w. case_match; [by apply Safe_ret | apply Safe_halt].
Qed.

Lemma readPage_safe t l p :
  held l !! p = Some Filled ->
  SafeT t l (readPageFromDisk p) (fun _ l' => l' = setHold p (Pinned (mkPinned false false false)) l).
Proof.
  intros Hh. apply (Safe_own t l (setHold p (Pinned (mkPinned false false false)) l) p _ (Some (Pinned (mkPinned false false false))) _ _ Hh).
  - intros q. apply setHold_other.
  - apply setHold_same.
  - intros s q. apply view_changed_frame.
  - intros n s Hf ([Hg Hn] & HL & [Hr Hd]). eexists. split; [by rewrite view_setFrame, decide_True by done|].
    page_case.
  - intros s G Ht HM _. by eapply memOK_frame.
  - done.
Qed.

(** The dirty bit decides whether the page has to be written. *)
Lemma loadDirty_safe t l p :
  held l !! p = Some (Pinned (mkPinned false false false)) ->
  SafeT t l (getStateAndVersion p) (fun w l' => if isDirty w then l' = l else l' = setHold p Filled l).
Proof.
  intros Hh. apply (Safe_page t l _ p). intros n s G Hf Ht HP HM. cbn.
  destruct (po_held _ _ _ _ HP t l p _ Ht Hh) as [HL HO]. destruct (po_word _ _ _ _ HP p) as [Hg Hn].
  set (h := if isDirty (word s p) then Pinned (mkPinned false false false) else Filled).
  exists (if isDirty (word s p) then l else setHold p Filled l), (Some h). split_and!; try done.
  - left. eauto.
  - intros q Hq. case_match; [done | by apply setHold_other].
  - unfold h. case_match; [done | apply setHold_same].
  - split; [done|lia].
  - unfold h. destruct (isDirty (word s p)) eqn:E; [done|]. destruct HO as (H1 & H2 & H3 & H4). split; [done|].
    unfold onDisk, saved in *; cbn in *. intros Htr. rewrite E in H3. destruct (H3 eq_refl eq_refl Htr); [congruence|done].
  - apply pageGuar_refl.
  - case_match; by eapply memOK_frame.
  - by case_match.
Qed.

Lemma writePage_safe t l p :
  held l !! p = Some (Pinned (mkPinned false false false)) ->
  SafeT t l (writePage p) (fun _ l' => l' = setHold p Filled l).
Proof.
  intros Hh. apply (Safe_own t l (setHold p Filled l) p _ (Some Filled) _ _ Hh).
  - intros q. apply setHold_other.
  - apply setHold_same.
  - intros s q Hq. by rewrite view_setDisk, decide_False by done.
  - intros n s Hf ([Hg Hn] & HL & (H1 & H2 & _)). eexists. split; [by rewrite view_setDisk, decide_True by done|].
    page_case.
  - intros s G Ht HM _. by eapply memOK_frame.
  - done.
Qed.

Lemma writeByte_safe t l p x i b :
  held l !! p = Some (Pinned x) ->
  SafeT t l (writeByte p i b) (fun _ l' => l' = setHold p (Pinned (mkPinned false true (dirtied x))) l).
Proof.
  intros Hh. set (h := Pinned (mkPinned false true (dirtied x))).
  apply (Safe_own t l (setHold p h l) p _ (Some h) _ _ Hh).
  - intros q. apply setHold_other.
  - apply setHold_same.
  - intros s q Hq. by rewrite view_setContent, decide_False, view_changed_frame by done.
  - intros n s Hf ([Hg Hn] & HL & (H1 & H2 & H3 & H4)). eexists.
    split; [by rewrite view_setContent, decide_True by done|]. cbn in *.
    change (word (setFrame p (<[i:=b]> (frameOf s p)) s) p) with (word s p).
    replace (frameOf (setFrame p (<[i:=b]> (frameOf s p)) s) p) with (<[i:=b]> (frameOf s p))
      by (unfold frameOf, setFrame; cbn; by rewrite lookup_insert_eq).
    page_case.
  - intros s G Ht HM _. by eapply memOK_frame.
  - done.
Qed.

(** ** Memory *)

Lemma release_safe t l p :
  held l !! p = Some Filled ->
  SafeT t l (releaseFrameForPage p) (fun _ l' => l' = claim (pageSizeOf cfg p) (setHold p Unfilled l)).
Proof.
  intros Hh. apply (Safe_own t l (claim (pageSizeOf cfg p) (setHold p Unfilled l)) p _ (Some Unfilled) _ _ Hh).
  - intros q. apply setHold_other.
  - apply setHold_same.
  - intros s q Hq. by rewrite view_changed_frame, view_remove, decide_False by done.
  - intros n s Hf ([Hg Hn] & HL & [Hr Hd]). eexists. split; [by rewrite view_setFrame, decide_True by done|].
    rewrite bool_decide_false by (cbn; set_solver).
    change (word (setResident (resident s ∖ {[p]}) s) p) with (word s p).
    change (diskOf (setResident (resident s ∖ {[p]}) s) p) with (diskOf s p).
    change (contentOf (setResident (resident s ∖ {[p]}) s) p) with (contentOf s p). page_case.
  - intros s G Ht HM [Hr _]. cbn in Hr. apply bool_decide_eq_true in Hr.
    pose proof (mo_loc _ _ _ HM t l Ht) as [? ? ? ?]. pose proof (pageSize_pos cfg p).
    eapply memOK_update; [done..|split; cbn; lia|apply (mo_groups _ _ _ HM)| | |];
      cbn [resident usedMemory malloced fullPartitionerGroups setFrame setResident claim setHold reserved claimed granted owned];
      rewrite ?bytesOf_remove by done; lia.
  - done.
Qed.

Lemma commit_safe t l p :
  held l !! p = Some Unfilled -> reserved l = pageSizeOf cfg p -> granted l = pageSizeOf cfg p -> claimed l = 0 ->
  SafeT t l (commitFrame p) (fun _ l' => l' = spend (pageSizeOf cfg p) (setHold p Filled l)).
Proof.
  intros Hh Hres Hgr Hcl. apply (Safe_own t l (spend (pageSizeOf cfg p) (setHold p Filled l)) p _ (Some Filled) _ _ Hh).
  - intros q. apply setHold_other.
  - apply setHold_same.
  - intros s q Hq. by rewrite view_add, decide_False by done.
  - intros n s Hf ([Hg Hn] & HL & [Hr Hd]). eexists. split; [by rewrite view_add, decide_True by done|]. page_case.
  - intros s G Ht HM [Hr _]. cbn in Hr. apply bool_decide_eq_false in Hr.
    pose proof (mo_loc _ _ _ HM t l Ht) as [? ? ? ?].
    eapply memOK_update; [done..|split; cbn; lia|apply (mo_groups _ _ _ HM)| | |];
      cbn [resident usedMemory malloced fullPartitionerGroups setResident spend setHold reserved claimed granted owned];
      rewrite ?bytesOf_add by done; lia.
  - done.
Qed.

(** An access of the counters, by the numbers alone. *)
Lemma Safe_count t l l' (f : shared -> shared) (Q : unit -> loc -> Prop) :
  (forall s q, viewOf (f s) q = viewOf s q) -> (forall s, resident (f s) = resident s) ->
  (forall s, fullPartitionerGroups (f s) = fullPartitionerGroups s) ->
  held l' = held l -> (locOK l -> locOK l') ->
  (forall s, usedMemory (f s) - usedMemory s - (malloced (f s) - malloced s) =
             reserved l' + claimed l' - (reserved l + claimed l)) ->
  (locOK l -> forall s, malloced (f s) + granted l' <= malloced s + granted l) ->
  (forall s, owned l' - owned l <= malloced (f s) - malloced s) ->
  Q tt l' -> SafeT t l (poke f) Q.
Proof.
  intros Hv Hr Hg Hh Hl Hu Hb Hm HQ. apply Safe_memory; [done|]. intros s G Ht HM.
  exists l'. split_and!; [done| |done]. cbn.
  pose proof (mo_loc _ _ _ HM t l Ht) as HL. pose proof (Hu s). pose proof (Hb HL s). pose proof (Hm s).
  eapply memOK_update; [done..|auto| | | |]; rewrite ?Hr, ?Hg; [apply (mo_groups _ _ _ HM)|lia..].
Qed.

Lemma addUsed_safe t l size :
  0 <= size -> reserved l = 0 -> claimed l = 0 -> granted l = 0 ->
  SafeT t l (addUsedMemory size) (fun _ l' => l' = account size 0 0 l).
Proof.
  intros Hs Hr Hc Hg. apply (Safe_count t l (account size 0 0 l)); cbn; try done; try lia.
  intros [? ? ? ?]. split; cbn; lia.
Qed.

Lemma freeUsed_safe t l size r c g :
  reserved l + claimed l - (r + c) = size -> 0 <= r -> 0 <= c -> Z.min r c <= g <= r -> g <= granted l ->
  SafeT t l (freeUsedMemory size) (fun _ l' => l' = account r c g l).
Proof.
  intros Hs Hr Hc Hg Hg'. apply (Safe_count t l (account r c g l)); cbn; try done; try lia.
  intros [? ? ? ?]. split; cbn; lia.
Qed.

Lemma malloc_safe t l size :
  reserved l = size -> granted l = size -> claimed l = 0 ->
  SafeT t l (mallocBytes size) (fun _ l' => l' = give size (spend size l)).
Proof.
  intros Hs Hr Hc. apply (Safe_count t l (give size (spend size l))); cbn; try done; try lia.
  intros [? ? ? ?]. split; cbn; lia.
Qed.

Lemma freeBytes_safe t l size :
  0 <= size <= owned l -> SafeT t l (freeBytes size) (fun _ l' => l' = claim size (give (- size) l)).
Proof.
  intros Hs. apply (Safe_count t l (claim size (give (- size) l))); cbn; try done; try lia.
  - intros [? ? ? ?]. split; cbn; lia.
  - intros [? ? ? ?] s. lia.
Qed.

Lemma addNonEvictable_safe t l z (Q : unit -> loc -> Prop) : Q tt l -> SafeT t l (addNonEvictable z) Q.
Proof. intros HQ. by apply Safe_quiet. Qed.

(** The check of [reserve]: when it asks for no more, the reservation fits. *)
Lemma needMore_safe t l size total :
  reserved l = size -> claimed l = total -> locOK l ->
  SafeT t l (needMoreMemory cfg size total) (fun need l' => if need : bool then l' = l else l' = grant l).
Proof.
  intros Hr Hc [? ? ? ?]. unfold needMoreMemory. destruct (Z.gtb_spec size total).
  - apply Safe_bind. apply Safe_memory; [done|]. intros s G Ht HM. cbn.
    destruct (Z.gtb_spec (usedMemory s - total) (bufferPoolSize cfg)) as [H1|H1].
    + exists l. rewrite insert_id by done. split_and!; [done..|]. apply Safe_ret. done.
    + exists (grant l). split_and!; [done|apply memOK_grant; [done..|lia]|]. by apply Safe_ret.
  - apply Safe_ret. destruct l as [h r c g o]. unfold grant; cbn in *. f_equal. lia.
Qed.

(** ** The spiller *)

Definition groupOf (g : option SpillGroup) : Z :=
  match g with Some g => if dataInUse g then 0 else sumZ (bufferSizes g) | None => 0 end.
Definition groupGood (g : option SpillGroup) : Prop :=
  match g with Some g => Forall (fun z => 0 <= z) (bufferSizes g) | None => True end.

Lemma takeGroup_safe t l :
  SafeT t l takeGroup (fun g l' => groupGood g /\ l' = give (groupOf g) l).
Proof.
  apply Safe_memory. { intros s q. unfold takeGroup. by destruct (fullPartitionerGroups s). }
  intros s G Ht HM. pose proof (mo_loc _ _ _ HM t l Ht) as [? ? ? ?]. pose proof (mo_groups _ _ _ HM) as HG.
  destruct (fullPartitionerGroups s) as [|g rest] eqn:E; cbn.
  - exists l. rewrite insert_id by done. split_and!; try done. unfold give. destruct l; cbn. f_equal. lia.
  - apply Forall_cons in HG as [Hg HG]. pose proof (sumZ_nonneg _ Hg).
    exists (give (groupOf (Some g)) l). split_and!; try done.
    eapply memOK_update; [done..| | | | |]; cbn; [|done|lia|lia|].
    + split; cbn; try lia. case_match; lia.
    + rewrite E. unfold groupBytes; cbn. unfold sumZ at 2 4; cbn. case_match; lia.
Qed.

Lemma addChunk_safe t l g :
  Forall (fun z => 0 <= z) (bufferSizes g) -> sumZ (bufferSizes g) <= owned l ->
  SafeT t l (addUnusedChunk g) (fun _ l' => l' = give (- sumZ (bufferSizes g)) l).
Proof.
  intros Hg Ho. apply Safe_memory; [done|]. intros s G Ht HM. pose proof (mo_loc _ _ _ HM t l Ht) as [? ? ? ?].
  pose proof (sumZ_nonneg _ Hg). exists (give (- sumZ (bufferSizes g)) l). split_and!; [done| |done].
  eapply memOK_update; [done..| | | | |]; cbn; [split; cbn; lia| |lia|lia|].
  - apply Forall_app. split; [apply (mo_groups _ _ _ HM) | by constructor].
  - unfold groupBytes. rewrite fmap_app, sumZ_app. cbn. lia.
Qed.
End Rules.
