(* ===== verification/BufferManagerProof.v ===== *)
(** * The functions of the buffer manager keep the invariant under every interleaving

    Each function of [BufferManager] is safe: run by one thread while other threads do
    anything that is safe as well, it keeps the invariant of [BufferManagerInv] and ends with
    what it promises its caller. *)

From S2P Require Import Prelude PageState Concurrent BufferManager BufferManagerInv BufferManagerRules.
From stdpp Require Import base list gmap numbers strings.
Local Open Scope Z_scope.
#[local] Opaque getState isDirty versionOf unlock setDirty clearDirty updateStateWithSameVersion resetToEvicted.
#[local] Arguments bind : simpl never.
#[local] Arguments Safe : simpl never.

(** Between calls that allocate, a thread has reserved nothing. *)
Definition settled (l : loc) : Prop := locOK l /\ reserved l = 0 /\ claimed l = 0 /\ granted l = 0.

(** The pages of [l] are held as before, and so are the buffers; a call that ends with a page
    left locked holds more. *)
Definition ext (l l' : loc) : Prop :=
  (forall p h, held l !! p = Some h -> held l' !! p = Some h) /\ owned l' = owned l.

(** Freeing [r] bytes. *)
Definition freed (r : Z) (l l' : loc) : Prop :=
  0 <= r /\ ext l l' /\ locOK l' /\ reserved l' = reserved l /\ claimed l' = claimed l + r.

Lemma ext_refl l : ext l l.
Proof. done. Qed.

Lemma ext_trans l1 l2 l3 : ext l1 l2 -> ext l2 l3 -> ext l1 l3.
Proof. intros [H1 H2] [H3 H4]. split; [auto|congruence]. Qed.

Lemma ext_same l l' : held l' = held l -> owned l' = owned l -> ext l l'.
Proof. intros H1 H2. split; [by rewrite H1|done]. Qed.

Lemma freed_0 l : locOK l -> freed 0 l l.
Proof. intros Hl. unfold freed. split_and!; try done. lia. Qed.

Lemma freed_trans r1 r2 l1 l2 l3 : freed r1 l1 l2 -> freed r2 l2 l3 -> freed (r1 + r2) l1 l3.
Proof.
  intros (A1 & A2 & A3 & A4 & A5) (B1 & B2 & B3 & B4 & B5). unfold freed.
  split_and!; [lia|by eapply ext_trans|done|lia|lia].
Qed.

Lemma locOK_claim z l : 0 <= z -> locOK l -> locOK (claim z l).
Proof. intros Hz [? ? ? ?]. split; cbn; lia. Qed.

Lemma settled_set p h l : settled l -> settled (setHold p h l).
Proof. intros ([? ? ? ?] & ? & ? & ?). by split_and!. Qed.

Lemma settled_drop p l : settled l -> settled (dropHold p l).
Proof. intros ([? ? ? ?] & ? & ? & ?). by split_and!. Qed.

Section Programs.
Context (cfg : Config).
Local Abbreviation SafeT := (Safe fine (Inv cfg) Guar).

(** Sequencing with what is known after the first part. *)
Lemma Safe_seq t l {A B} (p : prog shared A) (f : A -> prog shared B) (Q : A -> loc -> Prop) (Q' : B -> loc -> Prop) :
  SafeT t l p Q -> (forall a l', Q a l' -> SafeT t l' (f a) Q') -> SafeT t l (bind p f) Q'.
Proof. intros H1 H2. apply Safe_bind. by eapply Safe_mono. Qed.

Lemma Safe_look_then t l {R B} (f : shared -> R) (k : R -> prog shared B) (Q : B -> loc -> Prop) :
  (forall r, SafeT t l (k r) Q) -> SafeT t l (bind (peek f) k) Q.
Proof. intros HS. by apply Safe_bind, Safe_look. Qed.

(** ** The eviction queue touches neither pages nor memory *)

Lemma Safe_queue t l {R B} (f : shared -> R * shared) (k : R -> prog shared B) (Q : B -> loc -> Prop) :
  (forall s, quiet s (f s).2) -> (forall r, SafeT t l (k r) Q) -> SafeT t l (bind (access f) k) Q.
Proof. intros Hq HS. apply Safe_bind, Safe_quiet; [done|]. intros s. apply HS. Qed.

Lemma casSlotWeak_safe t l i a b (Q : bool -> loc -> Prop) : (forall r, Q r l) -> SafeT t l (casSlotWeak i a b) Q.
Proof.
  intros HQ. apply Safe_act. intros c n s G Hf Ht HI. exists l.
  destruct (quiet_inv cfg n s (if bool_decide (slotAt s i = a) && negb c then (true, setSlot i b s) else (false, s)).2 G t l)
    as [H1 H2]; [by case_match|done..|]. split_and!; [done..|]. by apply Safe_ret.
Qed.

Lemma queueInsert_safe t l c : SafeT t l (queueInsert cfg c) (fun _ l' => l' = l).
Proof.
  apply (Safe_while _ _ _ (fun _ l' => l' = l)); [|done]. intros _ l1 ->.
  apply Safe_look_then. intros size. case_match; [|by apply Safe_ret].
  apply Safe_queue; [done|]. intros i. apply Safe_bind, casSlotWeak_safe. intros [|]; [|by apply Safe_ret].
  apply Safe_queue; [done|]. intros _. by apply Safe_ret.
Qed.

Lemma next_safe t l : SafeT t l (next cfg) (fun _ l' => l' = l).
Proof.
  apply (Safe_while _ _ _ (fun _ l' => l' = l)); [|done]. intros _ l1 ->.
  apply Safe_queue; [done|]. intros i. apply Safe_look_then. intros c. case_match; [|by apply Safe_ret].
  apply Safe_look_then. intros size. case_match; by apply Safe_ret.
Qed.

Lemma clear_safe t l i : SafeT t l (clear i) (fun _ l' => l' = l).
Proof.
  apply Safe_look_then. intros c. case_match; [apply Safe_halt|].
  apply Safe_queue; [intros s; by case_match|]. intros [|]; [|apply Safe_halt]. by apply Safe_quiet.
Qed.

Lemma collectCandidates_safe t l limit : SafeT t l (collectCandidates cfg limit) (fun _ l' => l' = l).
Proof.
  apply (Safe_while _ _ _ (fun _ l' => l' = l)); [|done]. intros [found tried] l1 ->.
  case_match; [|by apply Safe_ret].
  eapply Safe_seq; [apply next_safe|]. intros i l1 ->. apply Safe_look_then. intros c.
  case_match; [by apply Safe_ret|]. apply Safe_look_then. intros w. case_match; [by apply Safe_ret|].
  destruct (isSecondChanceEvictable w) eqn:E; [|by apply Safe_ret].
  apply Safe_bind, remark_safe; [left; by apply Z.eqb_eq|by right|]. intros _. by apply Safe_ret.
Qed.

(** ** Eviction *)

Local Abbreviation clean := (Pinned (mkPinned false false false)).

Lemma setHold_setHold p h h' l : setHold p h' (setHold p h l) = setHold p h' l.
Proof. unfold setHold; cbn. by rewrite insert_insert_eq. Qed.

Lemma dropHold_setHold p h l : held l !! p = None -> dropHold p (setHold p h l) = l.
Proof. intros Hp. unfold dropHold, setHold; cbn. rewrite delete_insert_id by done. by destruct l. Qed.

Lemma canUnlock_clean p : canUnlock cfg p (mkPinned false false false).
Proof. by intros _. Qed.

Lemma flush_safe t l p :
  isInMemoryMode (flagsOf cfg p) = false -> held l !! p = Some clean ->
  SafeT t l (flushPageIfDirtyWithoutLock cfg p) (fun _ l' => l' = setHold p Filled l).
Proof.
  intros Hm Hh. unfold flushPageIfDirtyWithoutLock. rewrite Hm.
  eapply Safe_seq; [by apply loadDirty_safe|]. intros w l1. cbv beta. destruct (isDirty w); intros ->; [|by apply Safe_ret].
  eapply Safe_seq; [by apply writePage_safe|]. intros _ l1 ->.
  eapply Safe_mono; [apply (clearDirty_safe cfg t _ p READ_PAGE), setHold_same|]. intros _ l1 ->. cbn.
  by rewrite setHold_setHold.
Qed.

Lemma tryEvictPage_safe t l i : locOK l -> SafeT t l (tryEvictPage cfg i) (fun r l' => freed r l l').
Proof.
  intros Hl. apply Safe_look_then. intros p. case_match; [by apply Safe_ret, freed_0|].
  apply Safe_look_then. intros w. destruct (isEvictable w) eqn:Ew; cbn; [|by apply Safe_ret, freed_0].
  apply Z.eqb_eq in Ew.
  eapply Safe_seq. { apply (tryLock_safe cfg t l p w false). rewrite Ew. done. }
  intros [|] l1; cbn; [|intros ->; by apply Safe_ret, freed_0].
  unfold lockedHold. rewrite Ew. cbn. intros [Hno ->].
  apply Safe_look_then. intros p'. case_match.
  { eapply Safe_seq; [eapply (unlock_safe cfg t _ p); [apply setHold_same | apply canUnlock_clean]|].
    intros _ l1 ->. rewrite dropHold_setHold by done. by apply Safe_ret, freed_0. }
  destruct (isInMemoryMode (flagsOf cfg p)) eqn:Em.
  { apply Safe_ret. unfold freed. split_and!; cbn; try lia; [|by destruct Hl].
    split; [|done]. intros q h Hq. cbn. rewrite lookup_insert_ne; [done|]. intros <-. congruence. }
  eapply Safe_seq; [by apply flush_safe, setHold_same|]. intros _ l1 ->. rewrite setHold_setHold.
  eapply Safe_seq; [by apply release_safe, setHold_same|]. intros _ l1 ->. rewrite setHold_setHold.
  eapply Safe_seq; [apply reset_safe; apply setHold_same|]. intros _ l1 ->.
  eapply Safe_seq; [apply clear_safe|]. intros _ l1 ->. apply Safe_ret.
  pose proof (pageSize_pos cfg p). unfold freed. split_and!; [lia| | |done|done].
  - apply ext_same; [|done]. cbn. by rewrite delete_insert_id.
  - destruct (locOK_claim (pageSizeOf cfg p) l ltac:(lia) Hl) as [? ? ? ?]. by split.
Qed.

Lemma evictAll_safe t l cs : locOK l -> SafeT t l (evictAll cfg cs) (fun r l' => freed r l l').
Proof.
  revert l. induction cs as [|i cs IH]; intros l Hl; cbn; [by apply Safe_ret, freed_0|].
  eapply Safe_seq; [by apply tryEvictPage_safe|]. intros r1 l1 H1.
  eapply Safe_seq; [apply IH, H1|]. intros r2 l2 H2. apply Safe_ret. exact (freed_trans _ _ _ _ _ H1 H2).
Qed.

Lemma evictPages_safe t l : locOK l -> SafeT t l (evictPages cfg) (fun r l' => freed r l l').
Proof.
  intros Hl. apply Safe_look_then. intros size. eapply Safe_seq; [apply collectCandidates_safe|].
  intros cs l1 ->. by apply evictAll_safe.
Qed.

(** ** Spilling *)

(** The buffers of the group that was taken are the thread's until they are freed. *)
Lemma spillBuffers_safe t l k sizes :
  locOK l -> 0 <= k -> Forall (fun z => 0 <= z) sizes ->
  SafeT t (give (k + sumZ sizes) l) (spillBuffers sizes) (fun r l' => freed r (give k l) l').
Proof.
  revert l k. induction sizes as [|z sizes IH]; intros l k Hl Hk Hs; cbn.
  - apply Safe_ret. rewrite Z.add_0_r. apply freed_0. destruct Hl. by split; cbn; lia.
  - apply Forall_cons in Hs as [Hz Hs]. pose proof (sumZ_nonneg _ Hs). destruct Hl as [? ? ? ?].
    eapply Safe_seq. { apply freeBytes_safe. unfold sumZ in *; cbn. lia. }
    intros _ l1 ->.
    assert (E : claim z (give (- z) (give (k + (z + foldr Z.add 0 sizes)) l)) = give (k + sumZ sizes) (claim z l)).
    { unfold claim, give, sumZ; cbn. f_equal. lia. }
    rewrite E. eapply Safe_seq. { apply IH; [|done|done]. apply locOK_claim; [done|by split]. }
    intros r l2 (A1 & A2 & A3 & A4 & A5). apply Safe_ret. unfold freed.
    split_and!; [lia| |done|done|cbn in *; lia]. eapply ext_trans; [|exact A2]. by apply ext_same.
Qed.

Lemma give_0 l : give 0 l = l.
Proof. destruct l. unfold give; cbn. f_equal. lia. Qed.

Lemma claimNextGroup_safe t l : locOK l -> SafeT t l claimNextGroup (fun r l' => freed r l l').
Proof.
  intros Hl. eapply Safe_seq; [apply takeGroup_safe|]. intros [g|] l1 [Hg ->]; cbn.
  - unfold spillToDisk. destruct (dataInUse g) eqn:E.
    + apply Safe_ret. rewrite give_0. by apply freed_0.
    + pose proof (spillBuffers_safe t l 0 (bufferSizes g) Hl ltac:(lia) Hg) as HS. by rewrite give_0 in HS.
  - apply Safe_ret. rewrite give_0. by apply freed_0.
Qed.

Lemma claimMemory_safe t l : locOK l -> SafeT t l (claimMemory cfg) (fun r l' => freed r.1 l l').
Proof.
  intros Hl. apply Safe_look_then. intros used. apply Safe_look_then. intros ne. case_match.
  - eapply Safe_seq; [by apply evictPages_safe|]. intros r l1 H1. by apply Safe_ret.
  - case_match; [|apply Safe_halt]. eapply Safe_seq; [by apply claimNextGroup_safe|]. intros r l1 H1.
    destruct (Z.eqb_spec r 0) as [->|]; [|by apply Safe_ret].
    eapply Safe_seq; [apply evictPages_safe, H1|]. intros r2 l2 H2. apply Safe_ret. cbn.
    by apply (freed_trans 0 r2 l l1 l2).
Qed.

(** ** Reserving memory *)

Lemma locOK_grant l : locOK l -> locOK (grant l).
Proof. intros [? ? ? ?]. split; cbn; lia. Qed.

Lemma freed_grant r l l' : freed r (grant l) l' -> freed r l l'.
Proof. intros (A1 & A2 & A3 & A4 & A5). unfold freed. split_and!; try done. Qed.

Definition inLoop (size total : Z) (l l' : loc) : Prop :=
  ext l l' /\ locOK l' /\ reserved l' = size /\ claimed l' = total.

Lemma inLoop_freed size total r l l1 l2 : inLoop size total l l1 -> freed r l1 l2 -> inLoop size (total + r) l l2.
Proof.
  intros (A1 & A2 & A3 & A4) (B1 & B2 & B3 & B4 & B5). unfold inLoop.
  split_and!; [by eapply ext_trans|done|lia|lia].
Qed.

(** What [reserve] promises: a reservation that fits into the pool, or nothing. *)
Definition reservedOK (size : Z) (ok : bool) (l l' : loc) : Prop :=
  ext l l' /\ locOK l' /\ claimed l' = 0 /\ reserved l' = (if ok then size else 0) /\ granted l' = reserved l'.

Lemma reserveLoop_safe t l size :
  0 <= size -> locOK l -> reserved l = size -> claimed l = 0 ->
  SafeT t l (reserveLoop cfg size) (fun r l' =>
    match r with
    | Some (total, _) => inLoop size total l l' /\ granted l' = size
    | None => reservedOK size false l l'
    end).
Proof.
  intros Hs Hl Hr Hc. apply (Safe_while _ _ _ (fun i l' => inLoop size i.1 l l')); [|done].
  intros [total ne] l1 (A1 & A2 & A3 & A4). cbn in A4.
  eapply Safe_seq; [by apply needMore_safe|]. intros [|] l2; cbn; intros ->.
  - eapply Safe_seq; [by apply claimMemory_safe|]. intros r l2 H2.
    assert (H3 : inLoop size (total + r.1) l l2) by (by eapply inLoop_freed).
    destruct (Z.eqb_spec r.1 0) as [E|E].
    + rewrite E, Z.add_0_r in *. destruct H3 as (B1 & B2 & B3 & B4).
      eapply Safe_seq; [by apply needMore_safe|]. intros [|] l3; cbn; intros ->.
      * eapply Safe_seq. { apply (freeUsed_safe cfg t l2 (size + total) 0 0 0); destruct B2; lia. }
        intros _ l3 ->. apply Safe_bind, addNonEvictable_safe, Safe_ret. unfold reservedOK.
        split_and!; try done. destruct B2. split; cbn; lia.
      * apply Safe_ret. cbn. unfold inLoop. split_and!; [|by apply locOK_grant|done|cbn; lia].
        eapply ext_trans; [done|]. by apply ext_same.
    + apply Safe_bind, Safe_ret, Safe_ret. exact H3.
  - apply Safe_ret. split; [|done]. unfold inLoop. split_and!; [|by apply locOK_grant|done|done].
    eapply ext_trans; [done|]. by apply ext_same.
Qed.

Lemma reserve_safe t l size :
  0 <= size -> settled l -> SafeT t l (reserve cfg size) (fun ok l' => reservedOK size ok l l').
Proof.
  intros Hs (Hl & Hr & Hc & Hg). eapply Safe_seq; [by apply addUsed_safe|]. intros _ l1 ->.
  eapply Safe_seq; [apply reserveLoop_safe; cbn; [done|destruct Hl; split; cbn; lia|done..]|].
  intros [[total ne]|] l1; cbn.
  - intros ((A1 & A2 & A3 & A4) & A5). assert (A6 : ext l l1) by exact A1.
    apply (Safe_seq t l1 _ _ (fun _ l' => reservedOK size true l l')).
    + destruct (Z.ltb_spec 0 total).
      * eapply Safe_seq. { apply (freeUsed_safe cfg t l1 total size 0 size); destruct A2; lia. }
        intros _ l2 ->. apply addNonEvictable_safe. unfold reservedOK. split_and!; try done.
        destruct A2. split; cbn; lia.
      * apply Safe_ret. unfold reservedOK. split_and!; try done; destruct A2; lia.
    + intros _ l2 H2. by apply Safe_ret.
  - intros H1. apply Safe_ret. exact H1.
Qed.

(** ** Pinning *)

Lemma pageSize_nonneg p : 0 <= pageSizeOf cfg p.
Proof. pose proof (pageSize_pos cfg p). lia. Qed.

Definition pinOf (policy : PageReadPolicy) : pinned :=
  mkPinned (match policy with DONT_READ_PAGE => true | READ_PAGE => false end) false false.

Lemma cachePage_safe t l p policy :
  held l !! p = Some Filled ->
  SafeT t l (cachePageIntoFrame p policy) (fun _ l' => l' = setHold p (Pinned (pinOf policy)) l).
Proof.
  intros Hh. unfold cachePageIntoFrame, clearDirtyPage.
  apply (Safe_seq t l _ _ (fun _ l' => l' = setHold p (match policy with READ_PAGE => Filled | DONT_READ_PAGE => Pinned (mkPinned true false false) end) l)).
  - apply Safe_bind, assertLocked_safe. by apply clearDirty_safe.
  - intros _ l1 ->. destruct policy; [|by apply Safe_ret].
    eapply Safe_mono; [apply readPage_safe, setHold_same|]. intros _ l2 ->. by rewrite setHold_setHold.
Qed.

Lemma claimAFrame_safe t l p policy :
  held l !! p = Some Unfilled -> settled l ->
  SafeT t l (claimAFrame cfg p policy) (fun ok l' =>
    settled l' /\ ext (if ok : bool then setHold p (Pinned (pinOf policy)) l else l) l').
Proof.
  intros Hh Hl. eapply Safe_seq; [apply reserve_safe; [apply pageSize_nonneg|done]|].
  intros [|] l1 ([A0 A1] & A2 & A3 & A4 & A5).
  - pose proof (A0 _ _ Hh) as Hh1.
    eapply Safe_seq; [apply commit_safe; congruence|]. intros _ l2 ->.
    eapply Safe_seq; [apply cachePage_safe, setHold_same|]. intros _ l2 ->. apply Safe_ret. split.
    + destruct A2. split_and!; cbn; [split; cbn; lia|lia..].
    + split; [|done]. intros q h. cbn. destruct (decide (q = p)) as [->|Hq].
      * by rewrite !lookup_insert_eq.
      * rewrite !lookup_insert_ne by done. apply A0.
  - apply Safe_ret. split; [|done]. split_and!; [done..|congruence].
Qed.

Lemma ext_settled_set p h l l' : held l !! p = None -> ext (setHold p h l) l' -> ext l l'.
Proof.
  intros Hp [H1 H2]. split; [|done]. intros q k Hq. apply H1. cbn. rewrite lookup_insert_ne; [done|]. intros <-. congruence.
Qed.

Lemma pin_safe t l p policy :
  settled l ->
  SafeT t l (pin cfg p policy) (fun r l' => settled l' /\ ext l l' /\
    match r with Ok _ => held l !! p = None /\ ext (setHold p (Pinned (pinOf policy)) l) l' | Err _ => True end).
Proof.
  intros Hl. apply (Safe_while _ _ _ (fun _ l' => l' = l)); [|done]. intros _ l0 ->.
  apply Safe_look_then. intros w. destruct (Z.eqb_spec (getState w) EVICTED) as [E|E].
  - eapply Safe_seq. { apply (tryLock_safe cfg t l p w false). rewrite E. done. }
    intros [|] l1; cbn; [|intros ->; by apply Safe_ret]. unfold lockedHold. rewrite E. cbn. intros [Hno ->].
    eapply Safe_seq; [apply (claimAFrame_safe t _ p policy); [apply setHold_same|by apply settled_set]|].
    intros [|] l1 [A1 A2]; cbv beta iota in A2; rewrite ?setHold_setHold in A2.
    + eapply Safe_seq; [apply queueInsert_safe|]. intros ok l2 ->.
      assert (ext l l1) by (by eapply ext_settled_set). by destruct ok; apply Safe_ret.
    + assert (H1 : held l1 !! p = Some Unfilled) by (apply A2, setHold_same).
      eapply Safe_seq; [by apply reset_safe|]. intros _ l2 ->. apply Safe_ret. split_and!; [by apply settled_drop| |done].
      destruct A2 as [B1 B2]. split; [|done]. intros q h Hq. cbn.
      assert (q <> p) by (intros ->; congruence). rewrite lookup_delete_ne by done. apply B1. cbn.
      by rewrite lookup_insert_ne.
  - destruct ((getState w =? UNLOCKED) || (getState w =? MARKED)) eqn:E2.
    + eapply Safe_seq. { apply (tryLock_safe cfg t l p w (blank (pinOf policy))).
        unfold UNLOCKED, MARKED, LOCKED in *. destruct (Z.eqb_spec (getState w) 0), (Z.eqb_spec (getState w) 2); cbn in E2; lia. }
      intros [|] l1; cbn; [|intros ->; by apply Safe_ret]. unfold lockedHold.
      rewrite (proj2 (Z.eqb_neq _ _) E). intros [Hno ->]. apply Safe_ret.
      split_and!; [by apply settled_set| |done|by destruct policy].
      eapply ext_settled_set; [done|apply ext_refl].
    + case_match; [by apply Safe_ret | apply Safe_halt].
Qed.

(** ** Reading without a lock *)

Lemma copyBytes_safe t l p offsets : SafeT t l (copyBytes p offsets) (fun _ l' => l' = l).
Proof.
  induction offsets as [|i offsets IH]; cbn; [by apply Safe_ret|]. apply Safe_look_then. intros b.
  eapply Safe_seq; [exact IH|]. intros bs l' ->. by apply Safe_ret.
Qed.

Lemma optimisticRead_safe t l p offsets :
  settled l -> SafeT t l (optimisticRead cfg p offsets) (fun _ l' => settled l' /\ ext l l').
Proof.
  intros Hl. apply (Safe_while _ _ _ (fun _ l' => settled l' /\ ext l l')); [|done]. intros _ l0 [Hs He].
  apply Safe_look_then. intros w. destruct (Z.eqb_spec (getState w) UNLOCKED).
  { eapply Safe_seq; [apply copyBytes_safe|]. intros bs l1 ->. apply Safe_look_then. intros w'.
    case_match; by apply Safe_ret. }
  destruct (Z.eqb_spec (getState w) MARKED).
  { apply Safe_bind, remark_safe; [by right|by left|]. intros _. by apply Safe_ret. }
  case_match; [|by apply Safe_ret].
  eapply Safe_seq; [by apply pin_safe|]. intros [u|e] l1 (A1 & A2 & A3).
  - destruct A3 as [Hno [B1 B2]]. eapply Safe_seq.
    { apply (unlock_safe cfg t l1 p (pinOf READ_PAGE)); [apply B1, setHold_same | apply canUnlock_clean]. }
    intros _ l2 ->. apply Safe_ret. split.
    + by apply settled_drop.
    + eapply ext_trans; [done|]. split; [|exact B2]. intros q h Hq. cbn.
      rewrite lookup_delete_ne by (intros <-; congruence). by apply A2.
  - apply Safe_ret. split; [done|]. by eapply ext_trans.
Qed.

(** ** Buffers *)

Lemma mallocBuffer_safe t l size :
  0 <= size -> settled l ->
  SafeT t l (mallocBuffer cfg size) (fun r l' => settled l' /\
    ext (match r with Ok _ => give size l | Err _ => l end) l').
Proof.
  intros Hs Hl. eapply Safe_seq; [by apply reserve_safe|]. intros [|] l1 ([A0 A1] & A2 & A3 & A4 & A5).
  - apply Safe_bind, addNonEvictable_safe. eapply Safe_seq; [apply malloc_safe; [done|congruence|done]|].
    intros _ l2 ->. apply Safe_ret. split.
    + destruct A2. split_and!; cbn; [split; cbn; lia|lia..].
    + split; [exact A0|]. cbn. lia.
  - apply Safe_ret. split; [|done]. split_and!; [done..|congruence].
Qed.

Lemma freeBlock_safe t l size :
  0 <= size <= owned l -> settled l ->
  SafeT t l (freeBlock size) (fun _ l' => settled l' /\ ext (give (- size) l) l').
Proof.
  intros Hs (Hl & Hr & Hc & Hg). eapply Safe_seq; [by apply freeBytes_safe|]. intros _ l1 ->.
  eapply Safe_seq. { apply (freeUsed_safe cfg t _ size 0 0 0); cbn; lia. }
  intros _ l1 ->. apply addNonEvictable_safe. split; [|by apply ext_same].
  destruct Hl. split_and!; try done. split; cbn; lia.
Qed.
End Programs.
