(* ===== verification/BufferManagerSpec.v ===== *)
(** * What the buffer manager promises, for every number of threads and every interleaving

    Pinned pages are exclusive, memory stays within the pool, no page loses its content, and
    an optimistic read that validates has seen one version of the page, unless the page was
    evicted in between.  The theorems at the end are runs in which the code does not do what
    it means to. *)

From S2P Require Import Prelude PageState Concurrent BufferManager BufferManagerInv BufferManagerRules BufferManagerProof.
From stdpp Require Import base list gmap numbers strings.
Local Open Scope Z_scope.
#[local] Opaque getState isDirty versionOf unlock setDirty clearDirty updateStateWithSameVersion resetToEvicted.
#[local] Arguments bind : simpl never.
#[local] Arguments Safe : simpl never.

(** ** Calls *)

(** What a thread owns between calls is what its caller knows. *)
Definition idleOK (c : client) (l : loc) : Prop :=
  settled l /\ owned l = sumZ (buffers c) /\ Forall (fun z => 0 <= z) (buffers c) /\
  (forall p x, pins c !! p = Some x -> held l !! p = Some (Pinned x)).

Lemma remove1_perm x l : x ∈ l -> l ≡ₚ x :: remove1 x l.
Proof.
  induction l as [|y l IH]; [by rewrite elem_of_nil|]. intros Hx. cbn.
  destruct (Z.eqb_spec x y) as [->|Hne]; [done|]. apply elem_of_cons in Hx as [|Hx]; [done|].
  etransitivity; [apply perm_skip, (IH Hx) | apply perm_swap].
Qed.

Lemma removeSizes_perm xs l k : removeSizes xs l = Some k -> l ≡ₚ xs ++ k.
Proof.
  revert l. induction xs as [|x xs IH]; intros l Hk; cbn in Hk; [by simplify_eq|].
  case_bool_decide; [|done]. etransitivity; [by apply remove1_perm|]. cbn. by apply perm_skip, IH.
Qed.

Lemma idleOK_ext c l l' c' z :
  idleOK c l -> settled l' -> ext (give z l) l' -> pins c' = pins c ->
  sumZ (buffers c') = sumZ (buffers c) + z -> Forall (fun z => 0 <= z) (buffers c') -> idleOK c' l'.
Proof.
  intros (H1 & H2 & H3 & H4) Hs [E1 E2] Hp Hb Hf. unfold idleOK. split_and!; [done| |done|].
  - cbn in E2. lia.
  - rewrite Hp. intros p x Hx. apply E1. by apply H4.
Qed.

Section Spec.
Context (cfg : Config).
Local Abbreviation SafeT := (Safe fine (Inv cfg) Guar).

Lemma idleOK_set c l p x y :
  idleOK c l -> pins c !! p = Some x ->
  idleOK (mkClient (<[p:=y]> (pins c)) (buffers c)) (setHold p (Pinned y) l).
Proof.
  intros (H1 & H2 & H3 & H4) Hp. unfold idleOK. split_and!; [by apply settled_set|done|done|].
  intros q z. cbn. destruct (decide (p = q)) as [<-|Hq].
  - rewrite !lookup_insert_eq. naive_solver.
  - rewrite !lookup_insert_ne by done. apply H4.
Qed.

Lemma code_safe t c what l :
  allowed cfg c what -> idleOK c l ->
  SafeT t l (code cfg what) (fun r l' => idleOK (finish c what r) l').
Proof.
  intros Ha Hi. pose proof Hi as (Hl & Ho & Hb & Hp).
  destruct what as [p policy|p|p|p i b|p offsets|size|size|g]; cbn [code].
  - eapply Safe_seq; [by apply pin_safe|]. intros [u|e] l1 (A1 & A2 & A3); apply Safe_ret; cbn.
    + destruct A3 as [Hno [B1 B2]]. unfold idleOK; cbn. split_and!; [done|by rewrite B2|done|].
      intros q x. destruct (decide (p = q)) as [<-|Hq].
      * rewrite lookup_insert_eq. intros [= <-]. apply B1, setHold_same.
      * rewrite lookup_insert_ne by done. intros Hx. by apply A2, Hp.
    + eapply (idleOK_ext c l l1 c 0); [done..|by rewrite give_0|done|lia|done].
  - destruct Ha as (x & Hx & Hc). eapply Safe_seq; [by apply (unlock_safe cfg t l p x); [apply Hp|]|].
    intros _ l1 ->. apply Safe_ret. unfold idleOK; cbn. split_and!; [by apply settled_drop|done|done|].
    intros q y Hq. apply lookup_delete_Some in Hq as [Hne Hq]. rewrite lookup_delete_ne by done. by apply Hp.
  - destruct Ha as [x Hx]. eapply Safe_seq.
    { apply Safe_bind, assertLocked_safe. apply (markDirty_safe cfg t l p x (fun _ l' => l' = setHold p (Pinned (mkPinned (blank x) (wrote x) true)) l)); [by apply Hp|done]. }
    intros _ l1 ->. apply Safe_ret. cbn. rewrite (alter_alt_Some _ _ _ _ Hx). by eapply idleOK_set.
  - destruct Ha as [x Hx]. eapply Safe_seq; [apply (writeByte_safe cfg t l p x); by apply Hp|].
    intros _ l1 ->. apply Safe_ret. cbn. rewrite (alter_alt_Some _ _ _ _ Hx). by eapply idleOK_set.
  - eapply Safe_mono; [by apply optimisticRead_safe|]. intros r l1 [A1 A2]. cbn.
    eapply (idleOK_ext c l l1 c 0); [done..|by rewrite give_0|done|lia|done].
  - eapply Safe_seq; [by apply mallocBuffer_safe|]. intros [u|e] l1 [A1 A2]; apply Safe_ret; cbn.
    + eapply (idleOK_ext c l l1 _ size); [done..|cbn; unfold sumZ; cbn; lia|by constructor].
    + eapply (idleOK_ext c l l1 c 0); [done..|by rewrite give_0|done|lia|done].
  - cbn in Ha. pose proof (remove1_perm _ _ Ha) as HP. pose proof (sumZ_perm _ _ HP) as HS.
    rewrite HP in Hb. apply Forall_cons in Hb as [Hz Hb']. pose proof (sumZ_nonneg _ Hb').
    eapply Safe_seq; [apply freeBlock_safe; [unfold sumZ in *; cbn in *; lia|done]|].
    intros _ l1 [A1 A2]. apply Safe_ret. cbn.
    eapply (idleOK_ext c l l1 _ (- size)); [done..|cbn; unfold sumZ in *; cbn in *; lia|done].
  - destruct Ha as [k Hk]. pose proof (removeSizes_perm _ _ _ Hk) as HP. pose proof (sumZ_perm _ _ HP) as HS.
    rewrite sumZ_app in HS. rewrite HP in Hb. apply Forall_app in Hb as [Hz Hb']. pose proof (sumZ_nonneg _ Hb').
    eapply Safe_seq; [apply addChunk_safe; [done|lia]|]. intros _ l1 ->. apply Safe_ret. cbn. rewrite Hk. cbn.
    eapply (idleOK_ext c l _ _ (- sumZ (bufferSizes g))); [done| |apply ext_refl|done|cbn [buffers]; lia|done].
    destruct Hl as ([? ? ? ?] & ? & ? & ?). split_and!; try done. split; cbn; lia.
Qed.

(** ** Reachable states *)

Local Abbreviation bmStep := (step (T := nat) (code cfg) (allowed cfg) finish).
Local Abbreviation bmRun := (run (T := nat) (code cfg) (allowed cfg) finish).
Local Abbreviation bmInv := (sysInv (T := nat) (L := loc) (call := call) finish fine (Inv cfg) Guar idleOK).

Definition idleLoc : loc := mkLoc ∅ 0 0 0 0.

Lemma idle_locOK : locOK idleLoc.
Proof. by split. Qed.

Lemma sumG_zero f (ids : gset nat) : f idleLoc = 0 -> sumG f (gset_to_gmap idleLoc ids) = 0.
Proof.
  intros Hf. assert (H0 : forall t l, gset_to_gmap idleLoc ids !! t = Some l -> f l = 0).
  { intros t l Hl. apply lookup_gset_to_gmap_Some in Hl as [_ <-]. done. }
  pose proof (sumG_nonneg f (gset_to_gmap idleLoc ids)) as H1.
  pose proof (sumG_nonneg (fun l => - f l) (gset_to_gmap idleLoc ids)) as H2.
  assert (H3 : sumG (fun l => - f l) (gset_to_gmap idleLoc ids) = - sumG f (gset_to_gmap idleLoc ids)).
  { unfold sumG. induction (map_to_list _) as [|[t l] k IH]; cbn; [done|]. unfold sumZ in *. lia. }
  rewrite H3 in H2. enough (0 <= sumG f (gset_to_gmap idleLoc ids) /\ 0 <= - sumG f (gset_to_gmap idleLoc ids)) by lia.
  split; [apply H1 | apply H2]; intros t l Hl; rewrite (H0 t l Hl); lia.
Qed.

Lemma initial_pagesOK files ids : pagesOK cfg 0 (initial cfg files) (gset_to_gmap idleLoc ids).
Proof.
  destruct evicted_good as (G1 & G2 & G3 & G4).
  assert (Hw : forall p, word (initial cfg files) p = resetToEvicted) by done.
  assert (Hh : forall t l p, gset_to_gmap idleLoc ids !! t = Some l -> held l !! p = None).
  { intros t l p Hl. by apply lookup_gset_to_gmap_Some in Hl as [_ <-]. }
  split.
  - intros p. split; cbn; rewrite Hw; [done|lia].
  - intros t u l l' p Ht _ Hp _. rewrite (Hh t l p Ht) in Hp. by destruct Hp.
  - intros p Hp. rewrite Hw, G2 in Hp. done.
  - intros t l p h Ht Hp. by rewrite (Hh t l p Ht) in Hp.
  - intros p _. unfold freeOK; cbn. rewrite Hw, G2; cbn. split; [|done]. apply bool_decide_false. set_solver.
Qed.

Lemma initial_memOK files ids : 0 <= bufferPoolSize cfg -> memOK cfg (initial cfg files) (gset_to_gmap idleLoc ids).
Proof.
  intros Hp. assert (Hc : queueMemory cfg <= bufferPoolSize cfg).
  { unfold queueMemory, capacity, PAGE_BYTES.
    pose proof (Z.mul_div_le (bufferPoolSize cfg) (2 ^ 12) ltac:(lia)). pose proof (Z.div_pos (bufferPoolSize cfg) (2 ^ 12)). lia. }
  assert (Hb : bytesOf cfg ∅ = 0) by (unfold bytesOf; by rewrite elements_empty).
  split; cbn; rewrite ?Hb, ?sumG_zero by done; try lia; [|done].
  intros t l Hl. apply lookup_gset_to_gmap_Some in Hl as [_ <-]. apply idle_locOK.
Qed.

Lemma bmInitial_inv files ids m : 0 <= bufferPoolSize cfg -> bmInv 0%nat m (bmInitial cfg files ids).
Proof.
  intros Hp. exists (gset_to_gmap idleLoc ids). split; [split; [apply initial_pagesOK | by apply initial_memOK]|].
  apply poolOK_idle.
  - intros t c Hc. apply lookup_gset_to_gmap_Some in Hc as [Hc <-]. exists idleLoc.
    split; [by apply lookup_gset_to_gmap_Some|]. split; [by split|]. split_and!; [done..|].
    by intros p x Hx.
  - intros t Ht. apply lookup_gset_to_gmap_None in Ht. by apply lookup_gset_to_gmap_None.
Qed.

Lemma Inv_later n s G : Inv cfg n s G -> Inv cfg (S n) s G.
Proof. intros [H1 H2]. split; [by apply pagesOK_later | done]. Qed.

(** A state that a run of [n] steps reaches. *)
Definition reachable (files : gmap pageId page) (ids : gset nat) (n : nat) (x : bmSystem) : Prop :=
  0 <= bufferPoolSize cfg /\ Z.of_nat n < 2 ^ 55 /\ bmRun n (bmInitial cfg files ids) x.

Lemma bmReachable_inv files ids n x m : reachable files ids n x -> bmInv n m x.
Proof.
  intros (Hp & Hn & HR). rewrite <- (Nat.add_0_r n).
  eapply run_inv; [intros; by apply Inv_later|apply Guar_refl|intros; by apply code_safe| |done|by apply bmInitial_inv].
  intros i Hi. unfold fine. lia.
Qed.

Lemma idle_thread n m x t c :
  bmInv n m x -> threads x !! t = Some (Idle c) ->
  exists G l, Inv cfg n (sh x) G /\ G !! t = Some l /\ idleOK c l.
Proof. intros (G & HI & HP) Ht. destruct (poolOK_thread _ _ _ _ _ _ _ _ _ _ HP Ht) as (l & Hl & Hok). eauto. Qed.

(** ** Properties *)

(** C14. Memory stays within the pool: in every reachable state, whatever the threads are
    doing, the eviction queue, the frames that have memory and the buffers handed out fit into
    the buffer pool, although [usedMemory] itself may exceed it while threads reserve. *)
Theorem memory_within_pool files ids n x :
  reachable files ids n x ->
  0 <= malloced (sh x) /\
  queueMemory cfg + bytesOf cfg (resident (sh x)) + malloced (sh x) <= bufferPoolSize cfg.
Proof.
  intros HR. destruct (bmReachable_inv _ _ _ _ 0 HR) as (G & [_ [H1 H2 H3 H4 H5]] & _).
  assert (0 <= sumG owned G) by (apply sumG_nonneg; intros t l Hl; by destruct (H1 t l Hl)).
  assert (0 <= sumG granted G) by (apply sumG_nonneg; intros t l Hl; destruct (H1 t l Hl); lia).
  assert (0 <= groupBytes (fullPartitionerGroups (sh x))).
  { apply sumZ_nonneg, Forall_fmap. eapply Forall_impl; [exact H2|]. intros g Hg. by apply sumZ_nonneg. }
  lia.
Qed.

(** C15. A pinned page is exclusive: while a thread has a page pinned, the page is locked, its
    frame has memory and holds the content the callers gave the page (unless it was pinned
    without reading and not yet written), and no other thread has it pinned. *)
Theorem pinned_pages_exclusive files ids n x t c p v :
  reachable files ids n x -> threads x !! t = Some (Idle c) -> pins c !! p = Some v ->
  getState (word (sh x) p) = LOCKED /\ p ∈ resident (sh x) /\
  (tracked cfg p = true -> blank v = false -> frameOf (sh x) p = contentOf (sh x) p) /\
  (forall u c', u <> t -> threads x !! u = Some (Idle c') -> pins c' !! p = None).
Proof.
  intros HR Ht Hp. destruct (bmReachable_inv _ _ _ _ 0 HR) as (G & [HP HM] & HT).
  destruct (poolOK_thread _ _ _ _ _ _ _ _ _ _ HT Ht) as (l & Hl & (_ & _ & _ & Hh)).
  destruct (po_held _ _ _ _ HP t l p _ Hl (Hh _ _ Hp)) as [HL (H1 & H2 & _)].
  split_and!; [done|by apply bool_decide_eq_true in H1|intros Htr Hb; by apply (H2 Hb)|].
  intros u c' Hu Hc'. destruct (pins c' !! p) as [v'|] eqn:E; [|done].
  destruct (poolOK_thread _ _ _ _ _ _ _ _ _ _ HT Hc') as (l' & Hl' & (_ & _ & _ & Hh')).
  destruct Hu. eapply (po_unique _ _ _ _ HP); [exact Hl'|exact Hl|eexists; by apply Hh'|eexists; by apply Hh].
Qed.

(** C5. No page loses its content: a page that nobody has locked and that is written back has
    the content the callers gave it, in its frame when it is cached, where it is marked dirty
    or equal to the file, and in the file when it is evicted. *)
Theorem pages_keep_content files ids n x p :
  reachable files ids n x -> tracked cfg p = true -> getState (word (sh x) p) <> LOCKED ->
  if getState (word (sh x) p) =? EVICTED
  then diskOf (sh x) p = contentOf (sh x) p
  else frameOf (sh x) p = contentOf (sh x) p /\
       (isDirty (word (sh x) p) = true \/ diskOf (sh x) p = contentOf (sh x) p).
Proof.
  intros HR Ht HL. destruct (bmReachable_inv _ _ _ _ 0 HR) as (G & [HP HM] & HT).
  pose proof (po_free _ _ _ _ HP p HL) as HF. unfold freeOK in HF. cbn in HF.
  destruct (getState (word (sh x) p) =? EVICTED).
  - by apply HF.
  - destruct HF as (_ & H1 & H2). split; [by apply H1 | by apply H2].
Qed.

(** ** Optimistic reads *)

(** The states after [x], in order. *)
Inductive trace : bmSystem -> list bmSystem -> Prop :=
| trace_nil x : trace x []
| trace_cons x y l : bmStep x y -> trace y l -> trace x (y :: l).

Definition final (x : bmSystem) (l : list bmSystem) : bmSystem := List.last l x.

Lemma final_cons x y l : final x (y :: l) = final y l.
Proof. revert x y. induction l as [|z l IH]; intros x y; [done|]. unfold final in *. cbn in *. destruct l; [done|]. apply (IH x y). Qed.

Lemma final_le (f : bmSystem -> Z) x l : Forall (fun y => f x <= f y) l -> f x <= f (final x l).
Proof.
  intros HF. destruct l as [|y l]; [done|]. revert y HF. induction l as [|z l IH]; intros y HF.
  - by apply Forall_cons in HF as [? _].
  - apply Forall_cons in HF as [_ HF]. by apply (IH z).
Qed.

Lemma reachable_guar files ids n x y :
  reachable files ids n x -> Z.of_nat n < 2 ^ 55 - 1 -> bmStep x y ->
  reachable files ids (S n) y /\ Guar (sh x) (sh y).
Proof.
  intros HR Hn Hs. split.
  - destruct HR as (H1 & H2 & H3). split_and!; [done|lia|by eapply run_snoc].
  - pose proof (bmReachable_inv _ _ _ _ 1 HR) as HI. assert (Hf : fine n) by exact Hn.
    eapply system_step_inv; [| | |exact Hf|exact HI|done].
    + intros; by apply Inv_later.
    + apply Guar_refl.
    + intros; by apply code_safe.
Qed.

(** Along a trace in which page [p] is not evicted its rank only grows, and its frame is the
    same in all states up to the first in which it is locked. *)
Lemma trace_rank files ids n x l p :
  reachable files ids n x -> Z.of_nat n + Z.of_nat (length l) < 2 ^ 55 -> trace x l ->
  Forall (fun y => getState (word (sh y) p) <> EVICTED) l ->
  Forall (fun y => rank (word (sh x) p) <= rank (word (sh y) p)) l /\
  (rank (word (sh x) p) = rank (word (sh (final x l)) p) -> getState (word (sh x) p) <> LOCKED ->
   Forall (fun y => frameOf (sh y) p = frameOf (sh x) p) l).
Proof.
  intros HR Hn HT. revert n HR Hn. induction HT as [x|x y l Hs HT IH]; intros n HR Hn HE; [done|].
  apply Forall_cons in HE as [HE1 HE]. cbn [length] in Hn.
  destruct (reachable_guar _ _ _ _ _ HR ltac:(lia) Hs) as [HR' HG].
  destruct (IH (S n) HR' ltac:(lia) HE) as [I1 I2].
  destruct (HG p) as [[Hreset|Hrank] Hframe]; cbn [vWord vFrame viewOf] in *.
  { destruct evicted_good as (_ & G2 & _). by rewrite Hreset, G2 in HE1. }
  split.
  - constructor; [done|]. eapply Forall_impl; [exact I1|]. cbn. lia.
  - rewrite final_cons. intros Hlast HL. pose proof (final_le (fun z => rank (word (sh z) p)) y l I1) as Hle. cbn in Hle.
    assert (Hxy : rank (word (sh y) p) = rank (word (sh x) p)) by lia.
    assert (HLy : getState (word (sh y) p) <> LOCKED).
    { intros E. unfold rank in Hxy. rewrite E, (proj2 (Z.eqb_neq _ _) HL) in Hxy. cbn in Hxy. lia. }
    assert (Hf : frameOf (sh y) p = frameOf (sh x) p).
    { destruct (decide (frameOf (sh x) p = frameOf (sh y) p)) as [|Hne]; [done|]. by destruct HL, Hframe. }
    constructor; [done|]. eapply Forall_impl; [apply I2; [lia|done]|]. cbn. congruence.
Qed.

(** C17. An optimistic read that validates is consistent: when the word of an unlocked page is
    the same at two moments, and the page was not evicted in between, then the frame held the
    page's content all the time, so that every byte copied out of it is a byte of one version
    of the page. *)
Theorem optimistic_read_consistent files ids n x l p :
  reachable files ids n x -> Z.of_nat n + Z.of_nat (length l) < 2 ^ 55 -> trace x l -> tracked cfg p = true ->
  getState (word (sh x) p) = UNLOCKED -> word (sh (final x l)) p = word (sh x) p ->
  Forall (fun y => getState (word (sh y) p) <> EVICTED) l ->
  Forall (fun y => frameOf (sh y) p = contentOf (sh x) p) (x :: l).
Proof.
  intros HR Hn HT Htr HU Hw HE. assert (HL : getState (word (sh x) p) <> LOCKED) by (by rewrite HU).
  destruct (trace_rank files ids n x l p HR Hn HT HE) as [_ HF]. specialize (HF ltac:(by rewrite Hw) HL).
  destruct (bmReachable_inv _ _ _ _ 0 HR) as (G & [HP HM] & _). pose proof (po_free _ _ _ _ HP p HL) as HF0.
  unfold freeOK in HF0. cbn in HF0. rewrite HU in HF0. destruct HF0 as (_ & H1 & _). specialize (H1 Htr). cbn in H1.
  constructor; [done|]. eapply Forall_impl; [exact HF|]. cbn. congruence.
Qed.
End Spec.
