(* ===== verification/BufferManagerRuns.v ===== *)
(** * Runs of the buffer manager

    Schedules of threads, executed.  The witnesses of [BufferManagerSpec] are runs, and so are
    the theorems at the end, in which the code does not do what it means to. *)

From S2P Require Import Prelude PageState Concurrent BufferManager BufferManagerInv BufferManagerSpec.
From stdpp Require Import base list gmap numbers strings.
Local Open Scope Z_scope.

(** A move of the scheduler: thread [t] makes a call, makes [n] accesses, or returns. *)
Inductive move : Type :=
| Start (t : nat) (what : call)
| Go (t : nat) (n : nat)
| Return (t : nat).

Section Exec.
Context (cfg : Config).

Definition allowedb (c : client) (what : call) : bool :=
  match what with
  | CPin _ _ | CRead _ _ => true
  | CUnpin p =>
      match pins c !! p with
      | Some x => negb (tracked cfg p) || (negb (blank x) && (negb (wrote x) || dirtied x))
      | None => false
      end
  | CSetDirty p | CWrite p _ _ => match pins c !! p with Some _ => true | None => false end
  | CMalloc size => 0 <=? size
  | CFree size => bool_decide (size ∈ buffers c)
  | CAddChunk g => match removeSizes (bufferSizes g) (buffers c) with Some _ => true | None => false end
  end.

Lemma allowedb_ok c what : allowedb c what = true -> allowed cfg c what.
Proof.
  destruct what; cbn; try done.
  - intros Ha. destruct (pins c !! p) as [[b w d]|]; [|done]. eexists. split; [done|]. cbn in *.
    intros Ht. rewrite Ht in Ha. by destruct b, w, d.
  - by destruct (pins c !! p).
  - by destruct (pins c !! p).
  - apply Z.leb_le.
  - by intros ?%bool_decide_eq_true.
  - by destruct (removeSizes _ _).
Qed.

Definition returned {A} (p : prog shared A) : option A :=
  match p in prog _ A return option A with Ret a => Some a | _ => None end.

Lemma returned_ret {A} (p : prog shared A) a : returned p = Some a -> p = Ret a.
Proof. destruct p; cbn; congruence. Qed.

Fixpoint goN (n : nat) (t : nat) (x : bmSystem) : option bmSystem :=
  match n with
  | O => Some x
  | S n =>
      match threads x !! t with
      | Some (Running c what p) =>
          match step1 false p (sh x) with
          | Some (p', s') => goN n t (mkSystem s' (<[t := Running c what p']> (threads x)))
          | None => None
          end
      | _ => None
      end
  end.

Definition doMove (m : move) (x : bmSystem) : option bmSystem :=
  match m with
  | Start t what =>
      match threads x !! t with
      | Some (Idle c) =>
          if allowedb c what then Some (mkSystem (sh x) (<[t := Running c what (code cfg what)]> (threads x))) else None
      | _ => None
      end
  | Go t n => goN n t x
  | Return t =>
      match threads x !! t with
      | Some (Running c what p) =>
          match returned p with
          | Some r => Some (mkSystem (sh x) (<[t := Idle (finish c what r)]> (threads x)))
          | None => None
          end
      | _ => None
      end
  end.

Fixpoint exec (ms : list move) (x : bmSystem) : option bmSystem :=
  match ms with
  | [] => Some x
  | m :: ms => match doMove m x with Some y => exec ms y | None => None end
  end.

Definition cost (m : move) : nat := match m with Go _ n => n | _ => 1%nat end.

Local Abbreviation bmRun := (run (T := nat) (code cfg) (allowed cfg) finish).

Lemma run_trans n m x y z : bmRun n x y -> bmRun m y z -> bmRun (m + n) x z.
Proof. intros H1 H2. induction H2; [done|]. eapply run_snoc; eauto. Qed.

Lemma run_one x y : step (code cfg) (allowed cfg) finish x y -> bmRun 1%nat x y.
Proof. intros Hs. eapply run_snoc; [apply run_nil|done]. Qed.

Lemma goN_run n t x y : goN n t x = Some y -> bmRun n x y.
Proof.
  revert x. induction n as [|n IH]; intros x Hy; cbn in Hy; [simplify_eq; apply run_nil|].
  destruct x as [s pool]; cbn in *. destruct (pool !! t) as [[c|c what p]|] eqn:E; [done| |done].
  destruct (step1 false p s) as [[p' s']|] eqn:E2; [|done].
  rewrite <- Nat.add_1_r. eapply run_trans; [|by apply IH]. apply run_one. by eapply step_run.
Qed.

Lemma doMove_run m x y : doMove m x = Some y -> bmRun (cost m) x y.
Proof.
  destruct x as [s pool], m as [t what|t n|t]; cbn.
  - destruct (pool !! t) as [[c|c w p]|] eqn:E; [|done..]. destruct (allowedb c what) eqn:Ea; [|done].
    intros [= <-]. apply run_one. apply step_call; [done|by apply allowedb_ok].
  - apply goN_run.
  - destruct (pool !! t) as [[c|c w p]|] eqn:E; [done| |done]. destruct (returned p) as [r|] eqn:Er; [|done].
    intros [= <-]. apply run_one. apply step_return. apply returned_ret in Er. by subst p.
Qed.

Lemma exec_run ms x y : exec ms x = Some y -> bmRun (sum_list_with cost ms) x y.
Proof.
  revert x. induction ms as [|m ms IH]; intros x Hy; cbn in Hy; [simplify_eq; apply run_nil|].
  destruct (doMove m x) as [z|] eqn:E; [|done]. cbn. rewrite Nat.add_comm.
  eapply run_trans; [by apply doMove_run | by apply IH].
Qed.

(** The moves are possible; the state they lead to. *)
Definition possible (ms : list move) (x : bmSystem) : bool :=
  match exec ms x with Some _ => true | None => false end.
Definition after (ms : list move) (x : bmSystem) : bmSystem := default x (exec ms x).

Lemma exec_reachable ms files ids :
  possible ms (bmInitial cfg files ids) = true ->
  0 <= bufferPoolSize cfg -> Z.of_nat (sum_list_with cost ms) < 2 ^ 55 ->
  reachable cfg files ids (sum_list_with cost ms) (after ms (bmInitial cfg files ids)).
Proof.
  unfold possible, after. intros Hx Hp Hn. destruct (exec ms _) as [x|] eqn:E; [|done].
  split_and!; [done..|by apply exec_run].
Qed.

(** The states that single moves lead through. *)
Fixpoint execStates (ms : list move) (x : bmSystem) : option (list bmSystem) :=
  match ms with
  | [] => Some []
  | m :: ms =>
      match doMove m x with
      | Some y => match execStates ms y with Some l => Some (y :: l) | None => None end
      | None => None
      end
  end.

Lemma single_step x y : bmRun 1%nat x y -> step (code cfg) (allowed cfg) finish x y.
Proof. inversion 1 as [|? ? ? ? H1 H2]; subst. by inversion H1; subst. Qed.

Lemma execStates_trace ms x l :
  execStates ms x = Some l -> forallb (fun m => cost m =? 1)%nat ms = true -> trace cfg x l.
Proof.
  revert x l. induction ms as [|m ms IH]; intros x l Hl HF; cbn in Hl; [simplify_eq; constructor|].
  destruct (doMove m x) as [y|] eqn:E; [|done]. destruct (execStates ms y) as [l'|] eqn:E2; [|done]. simplify_eq.
  apply andb_true_iff in HF as [Hm HF]. apply Nat.eqb_eq in Hm. constructor; [|by apply IH]. apply single_step.
  rewrite <- Hm. by apply doMove_run.
Qed.

Definition statesAfter (ms : list move) (x : bmSystem) : list bmSystem := default [] (execStates ms x).

Lemma statesAfter_trace ms x :
  (match execStates ms x with Some _ => true | None => false end) = true ->
  forallb (fun m => cost m =? 1)%nat ms = true -> trace cfg x (statesAfter ms x).
Proof.
  unfold statesAfter. destruct (execStates ms x) as [l|] eqn:E; [|done]. intros _. by apply execStates_trace.
Qed.
End Exec.

(** ** A pool of two pages, one of which the eviction queue's memory takes *)

Definition smallPool : Config := mkConfig (fun _ => 0) (2 * PAGE_BYTES) true.
Definition pageA : pageId := (0, 0).
Definition pageB : pageId := (0, 1).
Definition filesAB : gmap pageId page := {[ pageA := {[ 0%nat := 7 ]} ]}.
Definition threeThreads : gset nat := {[ 1; 2; 3 ]}%nat.
Definition startAB : bmSystem := bmInitial smallPool filesAB threeThreads.


(** What thread [t] has returned, and whether it has run into [KU_UNREACHABLE] or a null pointer. *)
Definition resultOf (x : bmSystem) (t : nat) : option (outcome (list Z)) :=
  match threads x !! t with Some (Running _ _ p) => returned p | _ => None end.
Definition isHalt {A} (p : prog shared A) : bool := match p with Halt => true | _ => false end.
Definition halted (x : bmSystem) (t : nat) : bool :=
  match threads x !! t with Some (Running _ _ p) => isHalt p | _ => false end.

(** Pin and unpin, without interference. *)
Definition pinUnpin (t : nat) (p : pageId) (accesses : nat) : list move :=
  [Start t (CPin p READ_PAGE); Go t accesses; Return t; Start t (CUnpin p); Go t 2; Return t].

(** ** Witnesses *)

(** Thread 1 has pinned page A, has written it and marked it dirty. *)
Definition writerMoves : list move :=
  [Start 1 (CPin pageA READ_PAGE); Go 1 15; Return 1; Start 1 (CWrite pageA 1 5); Go 1 1; Return 1;
   Start 1 (CSetDirty pageA); Go 1 2; Return 1].
Definition writerState : bmSystem := after smallPool writerMoves startAB.

Lemma memory_within_pool_witness :
  queueMemory smallPool + bytesOf smallPool (resident (sh writerState)) + malloced (sh writerState) = 16 + 4096 /\
  queueMemory smallPool + bytesOf smallPool (resident (sh writerState)) + malloced (sh writerState) <= 8192.
Proof.
  split; [by vm_compute|].
  apply (memory_within_pool smallPool filesAB threeThreads (sum_list_with cost writerMoves) writerState).
  apply exec_reachable; vm_compute; done.
Defined.

Lemma pinned_pages_exclusive_witness :
  getState (word (sh writerState) pageA) = LOCKED /\ frameOf (sh writerState) pageA = contentOf (sh writerState) pageA.
Proof.
  destruct (pinned_pages_exclusive smallPool filesAB threeThreads (sum_list_with cost writerMoves) writerState
    1%nat (mkClient {[ pageA := mkPinned false true true ]} []) pageA (mkPinned false true true)) as (H1 & _ & H3 & _).
  - apply exec_reachable; vm_compute; done.
  - vm_compute; done.
  - vm_compute; done.
  - split; [exact H1|]. apply H3; vm_compute; done.
Defined.

(** Page A was written by thread 1, and thread 2 has evicted it by pinning page B. *)
Definition evictedMoves : list move :=
  writerMoves ++ [Start 1 (CUnpin pageA); Go 1 2; Return 1; Start 2 (CPin pageB READ_PAGE); Go 2 51; Return 2].
Definition evictedState : bmSystem := after smallPool evictedMoves startAB.

Lemma pages_keep_content_witness :
  getState (word (sh evictedState) pageA) = EVICTED /\
  diskOf (sh evictedState) pageA = contentOf (sh evictedState) pageA /\ byteAt (contentOf (sh evictedState) pageA) 1 = 5.
Proof.
  split; [by vm_compute|]. split; [|by vm_compute].
  assert (HR : reachable smallPool filesAB threeThreads (sum_list_with cost evictedMoves) evictedState)
    by (apply exec_reachable; vm_compute; done).
  exact (pages_keep_content smallPool filesAB threeThreads _ evictedState pageA HR eq_refl ltac:(vm_compute; done)).
Defined.

(** Page A is cached and unlocked; thread 3 reads two of its bytes while thread 2 starts to
    pin page B, and validates. *)
Definition cachedState : bmSystem := after smallPool (pinUnpin 1 pageA 15) startAB.
Definition readerMoves : list move :=
  [Start 3 (CRead pageA [0; 1]); Go 3 1; Go 3 1; Start 2 (CPin pageB READ_PAGE); Go 3 1; Go 2 1; Go 3 1; Go 3 1]%nat.
Definition readerStates : list bmSystem := statesAfter smallPool readerMoves cachedState.

Lemma optimistic_read_consistent_witness :
  resultOf (final cachedState readerStates) 3 = Some (Ok [7; 0]) /\
  Forall (fun y => frameOf (sh y) pageA = contentOf (sh cachedState) pageA) (cachedState :: readerStates).
Proof.
  split; [by vm_compute|].
  apply (optimistic_read_consistent smallPool filesAB threeThreads (sum_list_with cost (pinUnpin 1 pageA 15))).
  - apply exec_reachable; vm_compute; done.
  - vm_compute; done.
  - apply statesAfter_trace; vm_compute; done.
  - vm_compute; done.
  - vm_compute; done.
  - vm_compute; done.
  - apply Forall_forall. intros y Hy E. apply list_elem_of_In, (proj1 (forallb_forall (fun y => negb (getState (word (sh y) pageA) =? EVICTED)) readerStates)) in Hy; [|vm_compute; done].
    by rewrite E in Hy.
Defined.

(** ** Runs in which the code does not do what it means to *)

(** An optimistic read can return bytes that the page never had.  Thread 3 reads the word of
    page A, which is unlocked at version 1; thread 2 evicts A, and thread 3 copies a byte of
    the released frame; thread 1 pins and unpins A.  [resetToEvicted] has set the version to
    0, so that A is unlocked at version 1 again and the read validates: it returns 0, where
    the page's byte is and always was 7. *)
Definition staleMoves : list move :=
  pinUnpin 1 pageA 15 ++
  [Start 3 (CRead pageA [0%nat]); Go 3 2; Start 2 (CPin pageB READ_PAGE); Go 2 49; Go 3 1; Return 2;
   Start 2 (CUnpin pageB); Go 2 2; Return 2] ++
  pinUnpin 1 pageA 49 ++ [Go 3 1]%nat.

Theorem optimistic_read_stale :
  exists n x, reachable smallPool filesAB threeThreads n x /\ resultOf x 3 = Some (Ok [0]) /\
    contentOf (sh startAB) pageA = {[ 0%nat := 7 ]} /\ contentOf (sh x) pageA = {[ 0%nat := 7 ]}.
Proof.
  exists (sum_list_with cost staleMoves), (after smallPool staleMoves startAB). split_and!.
  - apply exec_reachable; vm_compute; done.
  - vm_compute. done.
  - done.
  - vm_compute. done.
Qed.

(** [tryEvictPage] resets the page before it clears the candidate's slot.  In between another
    thread can pin and unpin the page and a third can evict it again, through the same slot;
    the first thread then finds the slot empty, which [clear] calls unreachable. *)
Definition threePages : Config := mkConfig (fun _ => 0) (3 * PAGE_BYTES) true.
Definition pageC : pageId := (0, 2).
Definition pageD : pageId := (0, 3).
Definition clearMoves : list move :=
  pinUnpin 1 pageA 15 ++ pinUnpin 1 pageB 15 ++
  [Start 1 (CPin pageC READ_PAGE); Go 1 47] ++ pinUnpin 2 pageA 65 ++
  [Start 3 (CPin pageD READ_PAGE); Go 3 50; Go 1 1]%nat.

Theorem eviction_queue_race :
  exists n x, reachable threePages filesAB threeThreads n x /\ halted x 1 = true.
Proof.
  exists (sum_list_with cost clearMoves), (after threePages clearMoves (bmInitial threePages filesAB threeThreads)).
  split; [apply exec_reachable; vm_compute; done | vm_compute; done].
Qed.

(** Without a spiller, that is for a database that is read only or in memory, a reservation
    that does not fit while most of the pool is not evictable calls the spiller that is not
    there, instead of failing. *)
Definition noSpiller : Config := mkConfig (fun _ => 0) (2 * PAGE_BYTES) false.
Definition spillMoves : list move :=
  [Start 1 (CMalloc 6000); Go 1 5; Return 1; Start 1 (CMalloc 3000); Go 1 5]%nat.

Theorem reserve_without_spiller :
  exists n x, reachable noSpiller ∅ threeThreads n x /\ halted x 1 = true.
Proof.
  exists (sum_list_with cost spillMoves), (after noSpiller spillMoves (bmInitial noSpiller ∅ threeThreads)).
  split; [apply exec_reachable; vm_compute; done | vm_compute; done].
Qed.
