(* ===== verification/ConcurrentVector.v ===== *)
(** * A vector whose elements do not move (src/include/common/concurrent_vector.h)

    The elements are an initial block and further blocks of [BLOCK_SIZE] elements.  Pointers to
    the blocks are in index nodes of [INDEX_SIZE] pointers each, which are chained, so that a
    reader finds an element without looking at the vectors that own blocks and nodes.  A block
    or a node is its position in the vector that owns it; the theorems show that access through
    the chain is access to one array, and that growing keeps every element where it is. *)

From S2P Require Import Prelude.
From stdpp Require Import base list numbers.
Local Open Scope nat_scope.

Section ConcurrentVector.
Context {T : Type} (initial : T) (BLOCK_SIZE INDEX_SIZE : nat).
Context (HB : 0 < BLOCK_SIZE) (HI : 0 < INDEX_SIZE).

Record BlockIndex := mkIndex { nextIndex : option nat; indexBlocks : list nat }.
Definition numBlocks (ix : BlockIndex) : nat := length (indexBlocks ix).

Record ConcurrentVector := mkVector {
  numElements : nat;
  initialBlock : list T;
  initialBlockSize : nat;
  firstIndex : option nat;
  blocks : list (list T);
  indices : list BlockIndex
}.

Definition newVector (initialNumElements size : nat) : ConcurrentVector :=
  mkVector initialNumElements (replicate size initial) size None [] [].

(** One new block: into a first node, into the last node, or into a new node after it. *)
Definition addBlock (v : ConcurrentVector) : ConcurrentVector :=
  let b := length (blocks v) in
  let newBlock := replicate BLOCK_SIZE initial in
  match indices v !! (length (indices v) - 1) with
  | None =>
      mkVector (numElements v) (initialBlock v) (initialBlockSize v) (Some 0) (blocks v ++ [newBlock])
        [mkIndex None [b]]
  | Some ix =>
      let i := length (indices v) - 1 in
      if numBlocks ix <? INDEX_SIZE then
        mkVector (numElements v) (initialBlock v) (initialBlockSize v) (firstIndex v) (blocks v ++ [newBlock])
          (<[i := mkIndex (nextIndex ix) (indexBlocks ix ++ [b])]> (indices v))
      else
        mkVector (numElements v) (initialBlock v) (initialBlockSize v) (firstIndex v) (blocks v ++ [newBlock])
          (<[i := mkIndex (Some (length (indices v))) (indexBlocks ix)]> (indices v) ++ [mkIndex None [b]])
  end.

(** The loop of [resize]; [fuel] bounds the blocks it can add. *)
Fixpoint addBlocks (fuel newSize : nat) (v : ConcurrentVector) : ConcurrentVector :=
  match fuel with
  | O => v
  | S fuel =>
      if initialBlockSize v + length (blocks v) * BLOCK_SIZE <? newSize
      then addBlocks fuel newSize (addBlock v) else v
  end.
Definition resize (newSize : nat) (v : ConcurrentVector) : ConcurrentVector :=
  let v := addBlocks newSize newSize v in
  mkVector newSize (initialBlock v) (initialBlockSize v) (firstIndex v) (blocks v) (indices v).

(** The node that the chain reaches from [ix] after [n] steps. *)
Fixpoint walk (ixs : list BlockIndex) (ix : option nat) (n : nat) : outcome BlockIndex :=
  match ix ≫= (fun i => ixs !! i) with
  | None => Err InternalException
  | Some node => match n with O => Ok node | S n => walk ixs (nextIndex node) n end
  end.

(** Where [operator[]] finds an element: in the initial block or at a position of a block. *)
Inductive place := Initial (pos : nat) | InBlock (block pos : nat).

Definition locate (v : ConcurrentVector) (elemPos : nat) : outcome place :=
  if elemPos <? initialBlockSize v then Ok (Initial elemPos)
  else
    let blockNum := (elemPos - initialBlockSize v) / BLOCK_SIZE in
    let posInBlock := (elemPos - initialBlockSize v) mod BLOCK_SIZE in
    let* node := walk (indices v) (firstIndex v) (blockNum / INDEX_SIZE) in
    match indexBlocks node !! (blockNum mod INDEX_SIZE) with
    | None => Err InternalException
    | Some b => Ok (InBlock b posInBlock)
    end.

Definition readPlace (v : ConcurrentVector) (pl : place) : option T :=
  match pl with
  | Initial i => initialBlock v !! i
  | InBlock b i => blocks v !! b ≫= (fun blk => blk !! i)
  end.
Definition writePlace (pl : place) (x : T) (v : ConcurrentVector) : ConcurrentVector :=
  match pl with
  | Initial i =>
      mkVector (numElements v) (<[i:=x]> (initialBlock v)) (initialBlockSize v) (firstIndex v) (blocks v) (indices v)
  | InBlock b i =>
      mkVector (numElements v) (initialBlock v) (initialBlockSize v) (firstIndex v)
        (alter (fun blk => <[i:=x]> blk) b (blocks v)) (indices v)
  end.

Definition get (v : ConcurrentVector) (i : nat) : outcome T :=
  let* pl := locate v i in
  match readPlace v pl with Some x => Ok x | None => Err UndefinedBehaviour end.
Definition set (i : nat) (x : T) (v : ConcurrentVector) : outcome ConcurrentVector :=
  let* pl := locate v i in Ok (writePlace pl x v).
Definition push_back (x : T) (v : ConcurrentVector) : outcome ConcurrentVector :=
  set (numElements v) x (resize (numElements v + 1) v).

(** ** The chain of nodes numbers the blocks *)

Definition nodeOf (n count i : nat) : BlockIndex :=
  mkIndex (if decide (S i < count) then Some (S i) else None)
    (seq (i * INDEX_SIZE) (min INDEX_SIZE (n - i * INDEX_SIZE))).

Record vectorOK (v : ConcurrentVector) : Prop := {
  vo_initial : length (initialBlock v) = initialBlockSize v;
  vo_blocks : Forall (fun b => length b = BLOCK_SIZE) (blocks v);
  vo_first : firstIndex v = match blocks v with [] => None | _ => Some 0 end;
  vo_count : length (blocks v) <= length (indices v) * INDEX_SIZE < length (blocks v) + INDEX_SIZE;
  vo_nodes : forall i node, indices v !! i = Some node ->
    node = nodeOf (length (blocks v)) (length (indices v)) i
}.

Definition capacityOf (v : ConcurrentVector) : nat := initialBlockSize v + length (blocks v) * BLOCK_SIZE.
(** The vector as one array. *)
Definition elementsOf (v : ConcurrentVector) : list T := initialBlock v ++ mjoin (blocks v).

Lemma newVector_ok n size : vectorOK (newVector n size).
Proof using HB HI. split; cbn; [by rewrite length_replicate|done|done|lia|done]. Qed.

Lemma elements_length v : vectorOK v -> length (elementsOf v) = capacityOf v.
Proof.
  intros [H1 H2 _ _ _]. unfold elementsOf, capacityOf. rewrite length_app, H1. f_equal.
  induction H2 as [|b bs Hb _ IH]; cbn; [done|]. rewrite length_app. cbn in Hb. rewrite Hb. f_equal. exact IH.
Qed.

Lemma addBlock_ok v : vectorOK v -> vectorOK (addBlock v).
Proof using HB HI.
  intros [H1 H2 H3 H4 H5]. unfold addBlock.
  assert (HF : Forall (fun b => length b = BLOCK_SIZE) (blocks v ++ [replicate BLOCK_SIZE initial])).
  { apply Forall_app. split; [done|]. constructor; [by rewrite length_replicate | done]. }
  destruct (indices v !! (length (indices v) - 1)) as [ix|] eqn:E.
  - pose proof (lookup_lt_Some _ _ _ E) as Hlt. pose proof (H5 _ _ E) as Hix.
    set (n := length (blocks v)) in *. set (k := length (indices v)) in *.
    assert (Hk : S (k - 1) = k) by lia.
    assert (Hn0 : 0 < n) by nia.
    assert (Hnb : numBlocks ix = min INDEX_SIZE (n - (k - 1) * INDEX_SIZE)) by (rewrite Hix; unfold numBlocks; cbn; apply length_seq).
    assert (Hprev : (k - 1) * INDEX_SIZE + INDEX_SIZE = k * INDEX_SIZE) by (rewrite <- Hk at 2; lia).
    destruct (Nat.ltb_spec (numBlocks ix) INDEX_SIZE).
    + split; cbn; [done..| | |].
      * rewrite H3. destruct (blocks v); [cbn in Hn0; lia | done].
      * rewrite length_app, length_insert. cbn. fold n k. lia.
      * intros i node Hi. rewrite length_app, length_insert. cbn. fold n k.
        destruct (decide (i = k - 1)) as [->|Hne].
        -- rewrite list_lookup_insert_eq in Hi by (fold k; lia). injection Hi as <-. rewrite Hix at 1 2. unfold nodeOf; cbn [nextIndex indexBlocks]. f_equal.
           rewrite Hnb in *. replace (min INDEX_SIZE (n + 1 - (k - 1) * INDEX_SIZE)) with (S (min INDEX_SIZE (n - (k - 1) * INDEX_SIZE))) by lia.
           rewrite seq_S. do 2 f_equal. lia.
        -- rewrite list_lookup_insert_ne in Hi by done. rewrite (H5 _ _ Hi). pose proof (lookup_lt_Some _ _ _ Hi) as Hi'. fold k in Hi'.
           unfold nodeOf. f_equal. f_equal. assert (i * INDEX_SIZE + INDEX_SIZE <= (k - 1) * INDEX_SIZE) by nia. lia.
    + assert (Hn : n = k * INDEX_SIZE) by lia.
      split; cbn; [done..| | |].
      * rewrite H3. destruct (blocks v); [cbn in Hn0; lia | done].
      * rewrite !length_app, length_insert. cbn. fold n k. lia.
      * intros i node Hi. rewrite !length_app, length_insert in *. cbn. fold n k in Hi |- *.
        assert (Hi2 : i < k + 1) by (apply lookup_lt_Some in Hi; rewrite length_app, length_insert in Hi; cbn in Hi; fold k in Hi; lia).
        destruct (decide (i = k)) as [->|Hne].
        -- rewrite lookup_app_r in Hi by (rewrite length_insert; fold k; lia). rewrite length_insert in Hi. fold k in Hi.
           rewrite Nat.sub_diag in Hi. injection Hi as <-. unfold nodeOf. f_equal.
           ++ by rewrite decide_False by lia.
           ++ replace (min INDEX_SIZE (n + 1 - k * INDEX_SIZE)) with 1 by lia. cbn. f_equal. done.
        -- rewrite lookup_app_l in Hi by (rewrite length_insert; fold k; lia).
           destruct (decide (i = k - 1)) as [->|Hne2].
           ++ rewrite list_lookup_insert_eq in Hi by (fold k; lia). injection Hi as <-. rewrite Hix. unfold nodeOf; cbn [nextIndex indexBlocks]. f_equal.
              ** rewrite decide_True by lia. f_equal. lia.
              ** f_equal. lia.
           ++ rewrite list_lookup_insert_ne in Hi by done. rewrite (H5 _ _ Hi). unfold nodeOf. f_equal.
              ** fold k. by rewrite !decide_True by lia.
              ** f_equal. assert (i * INDEX_SIZE + INDEX_SIZE <= (k - 1) * INDEX_SIZE) by nia. lia.
  - assert (Hnil : indices v = []).
    { apply lookup_ge_None in E. destruct (indices v); [done|cbn in E; lia]. }
    rewrite Hnil in *. cbn in H4. assert (Hb : blocks v = []) by (destruct (blocks v); [done|cbn in H4; lia]).
    rewrite Hb in *. split; cbn; [done..|lia|]. intros [|i] node Hi; [|done]. cbn in Hi. simplify_eq.
    unfold nodeOf. rewrite decide_False by lia. f_equal. replace (min INDEX_SIZE (1 - 0 * INDEX_SIZE)) with 1 by lia. done.
Qed.

Lemma addBlock_elements v : elementsOf (addBlock v) = elementsOf v ++ replicate BLOCK_SIZE initial.
Proof.
  unfold elementsOf, addBlock. repeat case_match; cbn; rewrite join_app; cbn; by rewrite app_nil_r, app_assoc.
Qed.

Lemma addBlock_size v :
  length (blocks (addBlock v)) = S (length (blocks v)) /\ initialBlockSize (addBlock v) = initialBlockSize v.
Proof. unfold addBlock. repeat case_match; cbn; rewrite length_app; cbn; lia. Qed.

Lemma addBlocks_ok fuel newSize v :
  vectorOK v -> newSize <= capacityOf v + fuel ->
  let v' := addBlocks fuel newSize v in
  vectorOK v' /\ newSize <= capacityOf v' /\ initialBlockSize v' = initialBlockSize v /\
  exists k, elementsOf v' = elementsOf v ++ replicate k initial.
Proof using HB HI.
  revert v. induction fuel as [|fuel IH]; intros v Hv Hn; cbv zeta; cbn [addBlocks].
  - split_and!; [done|lia|done|]. exists 0. by rewrite app_nil_r.
  - fold (capacityOf v). destruct (Nat.ltb_spec (capacityOf v) newSize).
    + destruct (addBlock_size v) as [E1 E2].
      assert (Hc : capacityOf (addBlock v) = capacityOf v + BLOCK_SIZE) by (unfold capacityOf; rewrite E1, E2; lia).
      destruct (IH (addBlock v)) as (H1 & H2 & H3 & k & H4); [by apply addBlock_ok|lia|].
      split_and!; [done|done|congruence|]. exists (BLOCK_SIZE + k).
      rewrite H4, addBlock_elements, <- app_assoc. by rewrite replicate_add.
    + split_and!; [done|lia|done|]. exists 0. by rewrite app_nil_r.
Qed.

(** ** Access through the chain is access to the array *)

Lemma walk_ok v j n :
  vectorOK v -> j + n < length (indices v) ->
  walk (indices v) (Some j) n = Ok (nodeOf (length (blocks v)) (length (indices v)) (j + n)).
Proof.
  intros Hv. revert j. induction n as [|n IH]; intros j Hj; cbn.
  - rewrite Nat.add_0_r in *. destruct (lookup_lt_is_Some_2 (indices v) j Hj) as [node Hn]. rewrite Hn.
    by rewrite (vo_nodes v Hv _ _ Hn).
  - destruct (lookup_lt_is_Some_2 (indices v) j) as [node Hn]; [lia|]. rewrite Hn.
    rewrite (vo_nodes v Hv _ _ Hn). cbn [nodeOf nextIndex]. rewrite decide_True by lia.
    rewrite IH by lia. do 2 f_equal. lia.
Qed.

Lemma locate_ok v i :
  vectorOK v -> i < capacityOf v ->
  locate v i = Ok (if i <? initialBlockSize v then Initial i
                   else InBlock ((i - initialBlockSize v) / BLOCK_SIZE) ((i - initialBlockSize v) mod BLOCK_SIZE)).
Proof using HB HI.
  intros Hv Hi. unfold locate. destruct (Nat.ltb_spec i (initialBlockSize v)); [done|].
  set (b := (i - initialBlockSize v) / BLOCK_SIZE). unfold capacityOf in Hi.
  assert (Hb : b < length (blocks v)) by (apply Nat.Div0.div_lt_upper_bound; lia).
  pose proof (vo_count v Hv) as Hc.
  assert (Hq : b / INDEX_SIZE < length (indices v)) by (apply Nat.Div0.div_lt_upper_bound; lia).
  rewrite (vo_first v Hv). destruct (blocks v) as [|b0 bs] eqn:Eb; [cbn in Hb; lia|]. rewrite <- Eb in *.
  rewrite (walk_ok v 0) by (try done; lia). cbn [obind nodeOf indexBlocks].
  pose proof (Nat.mod_upper_bound b INDEX_SIZE ltac:(lia)) as Hm. pose proof (Nat.div_mod_eq b INDEX_SIZE) as Hd.
  rewrite lookup_seq_lt by lia. do 2 f_equal. cbn. lia.
Qed.

Lemma join_lookup (bs : list (list T)) b p :
  Forall (fun b => length b = BLOCK_SIZE) bs -> p < BLOCK_SIZE ->
  mjoin bs !! (b * BLOCK_SIZE + p) = bs !! b ≫= (fun blk => blk !! p).
Proof.
  intros HF Hp. revert b. induction HF as [|x bs Hx HF IH]; intros b; [by rewrite lookup_nil|].
  destruct b as [|b]; cbn.
  - rewrite lookup_app_l by lia. done.
  - rewrite lookup_app_r by lia. rewrite <- IH. f_equal. lia.
Qed.

Lemma join_insert (bs : list (list T)) b p x :
  Forall (fun b => length b = BLOCK_SIZE) bs -> p < BLOCK_SIZE ->
  mjoin (alter (fun blk => <[p:=x]> blk) b bs) = <[b * BLOCK_SIZE + p := x]> (mjoin bs).
Proof.
  intros HF Hp. revert b. induction HF as [|y bs Hy HF IH]; intros b; [by destruct b|].
  destruct b as [|b]; cbn.
  - rewrite insert_app_l by lia. done.
  - change (alter _ (S b) (y :: bs)) with (y :: alter (fun blk => <[p:=x]> blk) b bs). cbn.
    rewrite insert_app_r_alt by lia. rewrite IH. do 2 f_equal. lia.
Qed.

Definition inBlocks (v : ConcurrentVector) (i : nat) : Prop := initialBlockSize v <= i.

Lemma block_pos v i : initialBlockSize v <= i ->
  (i - initialBlockSize v) / BLOCK_SIZE * BLOCK_SIZE + (i - initialBlockSize v) mod BLOCK_SIZE = i - initialBlockSize v /\
  (i - initialBlockSize v) mod BLOCK_SIZE < BLOCK_SIZE.
Proof using HB HI.
  intros Hi. pose proof (Nat.div_mod_eq (i - initialBlockSize v) BLOCK_SIZE).
  pose proof (Nat.mod_upper_bound (i - initialBlockSize v) BLOCK_SIZE). lia.
Qed.

(** Reading and writing through the chain of index nodes are reading and writing one array,
    and neither fails below the capacity. *)
Theorem vector_access v i x :
  vectorOK v -> i < capacityOf v ->
  (exists y, get v i = Ok y /\ elementsOf v !! i = Some y) /\
  (exists v', set i x v = Ok v' /\ vectorOK v' /\ elementsOf v' = <[i:=x]> (elementsOf v) /\ numElements v' = numElements v).
Proof using HB HI.
  intros Hv Hi. unfold get, set. rewrite (locate_ok v i Hv Hi). cbn [obind].
  assert (Hs : is_Some (elementsOf v !! i)) by (apply lookup_lt_is_Some_2; by rewrite elements_length).
  pose proof Hv as [H1 H2 H3 H4 H5].
  destruct (Nat.ltb_spec i (initialBlockSize v)) as [Hlt|Hge]; cbn [readPlace writePlace].
  - split.
    + destruct Hs as [y Hy]. exists y. split; [|done]. unfold elementsOf in Hy. rewrite lookup_app_l in Hy by lia. by rewrite Hy.
    + eexists. split; [done|]. split_and!; [|unfold elementsOf; cbn; by rewrite insert_app_l by lia|done].
      split; cbn; [by rewrite length_insert|done..].
  - destruct (block_pos v i Hge) as [Hp1 Hp2]. split.
    + destruct Hs as [y Hy]. exists y. split; [|done]. unfold elementsOf in Hy. rewrite lookup_app_r in Hy by lia.
      rewrite H1, <- Hp1, join_lookup in Hy by done. by rewrite Hy.
    + eexists. split; [done|]. split_and!.
      * split; cbn; rewrite ?length_alter; [done| |by destruct (blocks v), ((i - initialBlockSize v) / BLOCK_SIZE)|done|done].
        apply Forall_alter; [done|]. intros blk _ Hb. by rewrite length_insert.
      * unfold elementsOf; cbn. rewrite join_insert by done. rewrite Hp1, insert_app_r_alt by lia. by rewrite H1.
      * done.
Qed.

(** The loop ends before it could run out of fuel. *)
Lemma addBlocks_fuel fuel fuel' newSize v :
  newSize <= capacityOf v + fuel -> newSize <= capacityOf v + fuel' ->
  addBlocks fuel newSize v = addBlocks fuel' newSize v.
Proof using HB HI.
  revert fuel' v. induction fuel as [|fuel IH]; intros [|fuel'] v H1 H2; cbn [addBlocks]; fold (capacityOf v); [done|..].
  - destruct (Nat.ltb_spec (capacityOf v) newSize); [lia|done].
  - destruct (Nat.ltb_spec (capacityOf v) newSize); [lia|done].
  - destruct (Nat.ltb_spec (capacityOf v) newSize); [|done]. destruct (addBlock_size v) as [E1 E2].
    assert (Hc : capacityOf (addBlock v) = capacityOf v + BLOCK_SIZE) by (unfold capacityOf; rewrite E1, E2; lia).
    apply IH; lia.
Qed.

(** C38. The loop of [resize] ends, after at most as many blocks as the new size has elements:
    more iterations would change nothing, and the new size fits.  Growing keeps the elements and
    moves none of them: a place that was found before is found again. *)
Theorem vector_resize v n :
  vectorOK v ->
  let v' := resize n v in
  vectorOK v' /\ numElements v' = n /\ n <= capacityOf v' /\
  (forall fuel, n <= fuel -> addBlocks fuel n v = addBlocks n n v) /\
  (exists k, elementsOf v' = elementsOf v ++ replicate k initial) /\
  (forall i, i < capacityOf v -> locate v' i = locate v i).
Proof using HB HI.
  intros Hv v'. destruct (addBlocks_ok n n v Hv) as (H1 & H2 & H3 & k & H4); [lia|].
  set (w := addBlocks n n v) in *.
  assert (Hw : vectorOK v') by (destruct H1; by split).
  assert (Hle : capacityOf v <= capacityOf w).
  { rewrite <- !elements_length by done. rewrite H4, length_app. lia. }
  split_and!; [done|done|done|intros fuel Hf; apply addBlocks_fuel; lia|by exists k|]. intros i Hi.
  rewrite (locate_ok v i Hv Hi), (locate_ok v' i Hw) by (change (capacityOf v') with (capacityOf w); lia).
  change (initialBlockSize v') with (initialBlockSize w). by rewrite H3.
Qed.
End ConcurrentVector.

(** Blocks of two elements, one pointer in a node, one element before the blocks. *)
Definition exVector : ConcurrentVector := addBlock 0%Z 2 1 (addBlock 0%Z 2 1 (newVector 0%Z 0 1)).

Lemma exVector_ok : vectorOK 2 1 exVector.
Proof. apply addBlock_ok; [lia..|]. apply addBlock_ok; [lia..|]. apply newVector_ok; lia. Qed.

Lemma vector_access_witness :
  exists v', set 2 1 4 7%Z exVector = Ok v' /\ elementsOf v' = [0; 0; 0; 0; 7]%Z.
Proof.
  destruct (proj2 (vector_access 2 1 ltac:(lia) ltac:(lia) exVector 4 7%Z exVector_ok ltac:(vm_compute; lia)))
    as (v' & E & _ & Hv & _).
  exists v'. split; [exact E|]. rewrite Hv. reflexivity.
Defined.

Lemma vector_resize_witness : 8 <= capacityOf 2 (resize 0%Z 2 1 8 exVector).
Proof. exact (proj1 (proj2 (proj2 (vector_resize 0%Z 2 1 ltac:(lia) ltac:(lia) exVector 8 exVector_ok)))). Defined.
