(* ===== verification/FileHandle.v ===== *)
(** * File handles and virtual memory regions (src/storage/file_handle.cpp, vm_region.cpp)

    A file has pages in groups of 1024; for every group its file handle takes a group of frames
    from the virtual memory region of its page size, so that a page has a frame of its own as
    long as the handle has it.  A [world] is the two regions and all file handles.  The arrays
    [pageStates] and [frameGroupIdxes] are lists here ([ConcurrentVector] shows that they are
    arrays).  Pinning a new page of an in-memory file is its success: the page is locked. *)

From S2P Require Import Prelude PageState BufferManager.
From stdpp Require Import base list numbers strings.
Local Open Scope Z_scope.

Definition PAGE_GROUP_SIZE_LOG2 : Z := 10.
Definition PAGE_GROUP_SIZE : Z := Z.shiftl 1 PAGE_GROUP_SIZE_LOG2.
Definition PAGE_IDX_IN_GROUP_MASK : Z := Z.shiftl 1 PAGE_GROUP_SIZE_LOG2 - 1.

(** ** Virtual memory regions *)

Record VMRegion := mkRegion { frameSize : Z; numFrameGroups : Z; maxNumFrameGroups : Z }.

Definition newRegion (size maxRegionSize : Z) : VMRegion :=
  let numBytesForFrameGroup := size * PAGE_GROUP_SIZE in
  mkRegion size 0 ((maxRegionSize + numBytesForFrameGroup - 1) / numBytesForFrameGroup).
Definition getMaxRegionSize (r : VMRegion) : Z := maxNumFrameGroups r * frameSize r * PAGE_GROUP_SIZE.
(** The offset of a frame in the region. *)
Definition getFrame (r : VMRegion) (frameIdx : Z) : Z := frameIdx * frameSize r.

Definition addNewFrameGroup : M VMRegion Z :=
  r <- sget ;;
  if maxNumFrameGroups r <=? numFrameGroups r
  then sthrow (BufferManagerException "No more frame groups can be added to the allocator.")
  else sput (mkRegion (frameSize r) (numFrameGroups r + 1) (maxNumFrameGroups r)) ;;; sret (numFrameGroups r).

(** ** File handles *)

Record FileHandle := mkHandle {
  fhFlags : Z;
  numPages : Z;
  pageCapacity : Z;
  pageStates : list Z;
  frameGroupIdxes : list Z
}.

(** A handle and the region of its page size. *)
Definition FS : Type := FileHandle * VMRegion.

(** [ceil(numPages / PAGE_GROUP_SIZE)] *)
Definition getNumPageGroups (fh : FileHandle) : Z := (numPages fh + PAGE_GROUP_SIZE - 1) / PAGE_GROUP_SIZE.

(** [frame_idx_t] and [page_group_idx_t] have 32 bits, and so has the shifted group. *)
Definition getFrameIdx (fh : FileHandle) (pageIdx : Z) : outcome Z :=
  if negb (pageIdx <? pageCapacity fh) then Err InternalException
  else match frameGroupIdxes fh !! Z.to_nat (Z.shiftr pageIdx PAGE_GROUP_SIZE_LOG2) with
       | None => Err UndefinedBehaviour
       | Some g => Ok (wrapU 32 (Z.lor (wrapU 32 (Z.shiftl g PAGE_GROUP_SIZE_LOG2)) (Z.land pageIdx PAGE_IDX_IN_GROUP_MASK)))
       end.

(** [frameGroupIdxes.push_back(bm->addNewFrameGroup(pageSizeClass))] *)
Definition pushFrameGroup : M FS unit :=
  g <- szoom snd (fun r x => (x.1, r)) addNewFrameGroup ;;
  smodify (fun x => (mkHandle (fhFlags x.1) (numPages x.1) (pageCapacity x.1) (pageStates x.1)
                       (frameGroupIdxes x.1 ++ [g]), x.2)).

Definition addNewPageGroupWithoutLock : M FS unit :=
  x <- sget ;;
  let fh := x.1 in
  let capacity := wrapU 32 (pageCapacity fh + PAGE_GROUP_SIZE) in
  let states := pageStates fh ++ replicate (Z.to_nat capacity - length (pageStates fh)) resetToEvicted in
  smodify (fun x => (mkHandle (fhFlags fh) (numPages fh) capacity states (frameGroupIdxes fh), x.2)) ;;;
  pushFrameGroup.

Definition addNewPageWithoutLock : M FS Z :=
  x <- sget ;;
  (if numPages x.1 =? pageCapacity x.1 then addNewPageGroupWithoutLock else sret tt) ;;;
  y <- sget ;;
  let fh := y.1 in
  let pageIdx := numPages fh in
  let w := if isInMemoryMode (fhFlags fh) then updateStateWithSameVersion resetToEvicted LOCKED else resetToEvicted in
  states <- arr_set (pageStates fh) (Z.to_nat pageIdx) w ;;
  sput (mkHandle (fhFlags fh) (wrapU 32 (numPages fh + 1)) (pageCapacity fh) states (frameGroupIdxes fh), y.2) ;;;
  sret pageIdx.

Definition addNewPages (numNewPages : Z) : M FS Z :=
  x <- sget ;;
  sfor 0 (Z.to_nat numNewPages) (fun _ => addNewPageWithoutLock ;;; sret tt) ;;;
  sret (numPages x.1).

Definition removePageIdxAndTruncateIfNecessary (pageIdx : Z) (fh : FileHandle) : outcome FileHandle :=
  if numPages fh <=? pageIdx then Ok fh
  else
    let fh' := mkHandle (fhFlags fh) pageIdx (pageCapacity fh) (pageStates fh) (frameGroupIdxes fh) in
    let numPageGroups := getNumPageGroups fh' in
    if numPageGroups =? Z.of_nat (length (frameGroupIdxes fh)) then Ok fh'
    else if negb (numPageGroups <? Z.of_nat (length (frameGroupIdxes fh))) then Err InternalException
    else Ok (mkHandle (fhFlags fh) pageIdx (numPageGroups * PAGE_GROUP_SIZE) (pageStates fh)
               (take (Z.to_nat numPageGroups) (frameGroupIdxes fh))).

(** A handle of a file of [fileLength] bytes, before it has frames. *)
Definition openHandle (flags fileLength : Z) : FileHandle :=
  let size := getPageSize flags in
  let n := if isNewTmpFile flags then 0 else (fileLength + size - 1) / size in
  let capacity := (n + PAGE_GROUP_SIZE - 1) / PAGE_GROUP_SIZE * PAGE_GROUP_SIZE in
  mkHandle flags n capacity (replicate (Z.to_nat capacity) resetToEvicted) [].

Definition constructHandle (flags fileLength : Z) : M FS unit :=
  smodify (fun x => (openHandle flags fileLength, x.2)) ;;;
  sfor 0 (Z.to_nat (getNumPageGroups (openHandle flags fileLength))) (fun _ => pushFrameGroup).

(** ** All handles of one page size *)

Definition world : Type := VMRegion * list FileHandle.

(** A call that throws leaves what it had done. *)
Inductive worldStep : world -> world -> Prop :=
| world_open r fs flags fileLength fh fh0 r' :
    constructHandle flags fileLength (fh0, r) = (Ok tt, (fh, r')) -> worldStep (r, fs) (r', fs ++ [fh])
| world_open_throws r fs flags fileLength e fh fh0 r' :
    constructHandle flags fileLength (fh0, r) = (Err e, (fh, r')) -> worldStep (r, fs) (r', fs)
| world_add r fs i fh n res fh' r' :
    fs !! i = Some fh -> addNewPages n (fh, r) = (res, (fh', r')) -> worldStep (r, fs) (r', <[i:=fh']> fs)
| world_truncate r fs i fh p fh' :
    fs !! i = Some fh -> removePageIdxAndTruncateIfNecessary p fh = Ok fh' -> worldStep (r, fs) (r, <[i:=fh']> fs).

Inductive worldReach (size maxRegionSize : Z) : world -> Prop :=
| world_init : worldReach size maxRegionSize (newRegion size maxRegionSize, [])
| world_next w w' : worldReach size maxRegionSize w -> worldStep w w' -> worldReach size maxRegionSize w'.

(** *** Handles take frame groups that nobody has *)

Definition grows (x y : FS) : Prop :=
  numFrameGroups x.2 <= numFrameGroups y.2 /\
  (numFrameGroups x.2 <= maxNumFrameGroups x.2 -> numFrameGroups y.2 <= maxNumFrameGroups y.2) /\
  maxNumFrameGroups y.2 = maxNumFrameGroups x.2 /\ frameSize y.2 = frameSize x.2 /\
  exists l, frameGroupIdxes y.1 = frameGroupIdxes x.1 ++ l /\ NoDup l /\
            Forall (fun g => numFrameGroups x.2 <= g < numFrameGroups y.2) l.

Lemma grows_refl x y : y.2 = x.2 -> frameGroupIdxes y.1 = frameGroupIdxes x.1 -> grows x y.
Proof.
  intros E1 E2. unfold grows. rewrite E1, E2. split_and!; try done.
  exists []. rewrite app_nil_r. split_and!; [done|constructor..].
Qed.

Lemma grows_trans x y z : grows x y -> grows y z -> grows x z.
Proof.
  intros (A1 & A2 & A3 & A4 & l & A5 & A6 & A7) (B1 & B2 & B3 & B4 & k & B5 & B6 & B7).
  unfold grows. split_and!; [lia|auto|lia|lia|]. exists (l ++ k). split_and!.
  - by rewrite B5, A5, app_assoc.
  - apply NoDup_app. split_and!; [done| |done]. intros g Hg Hk.
    rewrite Forall_forall in A7, B7. pose proof (A7 g Hg). pose proof (B7 g Hk). lia.
  - apply Forall_app. split; (eapply Forall_impl; [eassumption|]); cbn; lia.
Qed.

(** A call that only lets its handle grow. *)
Definition growing {A} (m : M FS A) : Prop := forall x, grows x (m x).2.

Lemma growing_bind {A B} (m : M FS A) (k : A -> M FS B) :
  growing m -> (forall a, growing (k a)) -> growing (sbind m k).
Proof.
  intros Hm Hk x. unfold sbind. pose proof (Hm x) as H1. destruct (m x) as [[a|e] y]; [|done].
  eapply grows_trans; [exact H1 | apply Hk].
Qed.

Lemma growing_quiet {A} (m : M FS A) :
  (forall x, (m x).2.2 = x.2 /\ frameGroupIdxes (m x).2.1 = frameGroupIdxes x.1) -> growing m.
Proof. intros Hm x. destruct (Hm x). by apply grows_refl. Qed.

Lemma growing_for n s (body : nat -> M FS unit) : (forall i, growing (body i)) -> growing (sfor s n body).
Proof.
  intros Hb. revert s. induction n as [|n IH]; intros s; cbn; [by apply growing_quiet|].
  apply growing_bind; [done|]. intros _. apply IH.
Qed.

Lemma growing_group : growing pushFrameGroup.
Proof.
  intros [fh r]. unfold pushFrameGroup, sbind, szoom, addNewFrameGroup, sget, sthrow, sput, sret, smodify; cbn.
  destruct (Z.leb_spec (maxNumFrameGroups r) (numFrameGroups r)); cbn; [by apply grows_refl|].
  unfold grows; cbn. split_and!; [lia|lia|done|done|]. exists [numFrameGroups r].
  split_and!; [done|apply NoDup_singleton|constructor; [lia|done]].
Qed.

Lemma growing_get {A} (k : FS -> M FS A) : (forall x, grows x (k x x).2) -> growing (x <- sget ;; k x).
Proof. intros Hk x. apply Hk. Qed.

(** A change of the handle that keeps its frame groups, and then [k]. *)
Lemma grows_then {A} x y (k : M FS A) :
  y.2 = x.2 -> frameGroupIdxes y.1 = frameGroupIdxes x.1 -> growing k -> grows x (k y).2.
Proof. intros E1 E2 Hk. eapply grows_trans; [by apply (grows_refl x y) | apply Hk]. Qed.

Lemma growing_addGroup : growing addNewPageGroupWithoutLock.
Proof.
  apply growing_get. intros [fh r].
  exact (grows_then (fh, r) (mkHandle _ _ _ _ _, r) pushFrameGroup eq_refl eq_refl growing_group).
Qed.

Lemma growing_addPage : growing addNewPageWithoutLock.
Proof.
  apply growing_get. intros x.
  assert (HG : growing (if numPages x.1 =? pageCapacity x.1 then addNewPageGroupWithoutLock else sret tt)).
  { case_match; [apply growing_addGroup | by apply growing_quiet]. }
  revert x HG. intros x HG. unfold sbind at 1. pose proof (HG x) as H1.
  destruct ((if numPages x.1 =? pageCapacity x.1 then addNewPageGroupWithoutLock else sret tt) x) as [[u|e] y]; [|done].
  eapply grows_trans; [exact H1|]. unfold sbind, sget, sput, sret; cbn.
  unfold arr_set. case_decide; by apply grows_refl.
Qed.

Lemma growing_addPages n : growing (addNewPages n).
Proof.
  apply growing_get. intros x. apply (growing_bind _ (fun _ => sret (numPages x.1))).
  - apply growing_for. intros i. apply growing_bind; [apply growing_addPage|]. intros a. by apply growing_quiet.
  - intros _. by apply growing_quiet.
Qed.

(** Opening a handle forgets the old one: its groups are all new. *)
Lemma construct_grows flags len fh0 r res fh r' :
  constructHandle flags len (fh0, r) = (res, (fh, r')) -> grows (openHandle flags len, r) (fh, r').
Proof.
  intros HC. unfold constructHandle in HC. unfold sbind at 1, smodify at 1 in HC. cbn [fst snd] in HC.
  match type of HC with ?m ?x = _ => assert (HG : grows x (m x).2) end.
  { apply growing_for. intros i. apply growing_group. }
  by rewrite HC in HG.
Qed.

(** *** The invariant of a world *)

Record worldOK (size maxGroups : Z) (w : world) : Prop := {
  wo_region : frameSize w.1 = size /\ maxNumFrameGroups w.1 = maxGroups /\ 0 <= numFrameGroups w.1 <= maxGroups;
  wo_range : forall i f a g, w.2 !! i = Some f -> frameGroupIdxes f !! a = Some g -> 0 <= g < numFrameGroups w.1;
  wo_unique : forall i j f f' a b g, w.2 !! i = Some f -> w.2 !! j = Some f' ->
    frameGroupIdxes f !! a = Some g -> frameGroupIdxes f' !! b = Some g -> i = j /\ a = b
}.

(** Handle [i] has grown, or is new. *)
Lemma world_grow size mx r fs i fh fh' r' :
  worldOK size mx (r, fs) -> grows (fh, r) (fh', r') ->
  (fs !! i = Some fh \/ (fs !! i = None /\ frameGroupIdxes fh = [])) ->
  forall fs', (forall j, fs' !! j = if decide (j = i) then Some fh' else fs !! j) -> worldOK size mx (r', fs').
Proof.
  intros [(R1 & R2 & R3) R4 R5] (G1 & G2 & G3 & G4 & l & G5 & G6 & G7) Hi fs' Hfs'. cbn in *.
  assert (Hold : forall a g, frameGroupIdxes fh !! a = Some g -> fs !! i = Some fh /\ 0 <= g < numFrameGroups r).
  { intros a g Ha. destruct Hi as [Hi|[_ Hi]]; [|by rewrite Hi, lookup_nil in Ha]. eauto. }
  assert (Hnew : forall a g, frameGroupIdxes fh' !! a = Some g ->
            (frameGroupIdxes fh !! a = Some g /\ 0 <= g < numFrameGroups r) \/
            (numFrameGroups r <= g < numFrameGroups r' /\ l !! (a - length (frameGroupIdxes fh))%nat = Some g /\ (length (frameGroupIdxes fh) <= a)%nat)).
  { intros a g Ha. rewrite G5 in Ha. destruct (decide (a < length (frameGroupIdxes fh))%nat).
    - rewrite lookup_app_l in Ha by done. left. split; [done|]. by apply (Hold a).
    - rewrite lookup_app_r in Ha by lia. right. split; [|split; [done|lia]].
      rewrite Forall_forall in G7. apply G7. by apply list_elem_of_lookup_2 in Ha. }
  split; cbn.
  - split_and!; lia.
  - intros j f a g Hj Ha. rewrite Hfs' in Hj. case_decide; simplify_eq.
    + destruct (Hnew _ _ Ha) as [[_ ?]|(? & _)]; lia.
    + pose proof (R4 _ _ _ _ Hj Ha). lia.
  - assert (Hcross : forall j f a b g, j <> i -> fs !! j = Some f -> frameGroupIdxes f !! a = Some g -> frameGroupIdxes fh' !! b = Some g -> False).
    { intros j f a b g Hne Hj Ha Hb. pose proof (R4 _ _ _ _ Hj Ha) as Hg. destruct (Hnew _ _ Hb) as [[Hb' _]|(? & _)]; [|lia].
      destruct (Hold _ _ Hb') as [Hi' _]. by destruct (R5 _ _ _ _ _ _ _ Hj Hi' Ha Hb'). }
    intros j j' f f' a b g Hj Hj' Ha Hb. rewrite Hfs' in Hj, Hj'. repeat case_decide; simplify_eq.
    + split; [done|]. destruct (Hnew _ _ Ha) as [[Ha' Ha2]|(Ha1 & Ha2 & Ha3)], (Hnew _ _ Hb) as [[Hb' Hb2]|(Hb1 & Hb2 & Hb3)]; try lia.
      * destruct (Hold _ _ Ha') as [Hi' _]. by destruct (R5 _ _ _ _ _ _ _ Hi' Hi' Ha' Hb').
      * pose proof (NoDup_lookup _ _ _ _ G6 Ha2 Hb2). lia.
    + exfalso. eapply Hcross; [|eassumption..]. done.
    + exfalso. eapply Hcross; [|eassumption..]. done.
    + by eapply R5.
Qed.

Lemma truncate_groups p fh fh' :
  removePageIdxAndTruncateIfNecessary p fh = Ok fh' -> exists n, frameGroupIdxes fh' = take n (frameGroupIdxes fh).
Proof.
  unfold removePageIdxAndTruncateIfNecessary. intros Ht. repeat case_match; simplify_eq; cbn.
  - exists (length (frameGroupIdxes fh')). by rewrite firstn_all.
  - exists (length (frameGroupIdxes fh)). by rewrite firstn_all.
  - by eexists.
Qed.

Lemma world_ok size mx w w' : worldOK size mx w -> worldStep w w' -> worldOK size mx w'.
Proof.
  intros HW Hs. destruct Hs as [r fs flags len fh fh0 r' HC|r fs flags len e fh fh0 r' HC|r fs i fh n res fh' r' Hi Ha|r fs i fh p fh' Hi Ht].
  - apply (world_grow size mx r fs (length fs) (openHandle flags len) fh r' HW (construct_grows _ _ _ _ _ _ _ HC)).
    + right. split; [by apply lookup_ge_None|done].
    + intros j. case_decide; subst.
      * by rewrite lookup_app_r, Nat.sub_diag by lia.
      * destruct (decide (j < length fs)%nat); [by rewrite lookup_app_l|].
        rewrite lookup_app_r, (lookup_ge_None_2 fs) by lia. by apply lookup_ge_None; cbn; lia.
  - destruct (construct_grows _ _ _ _ _ _ _ HC) as (G1 & G2 & G3 & G4 & _). destruct HW as [(R1 & R2 & R3) R4 R5]. cbn in *.
    split; cbn; [split_and!; lia| |done]. intros i f a g Hi Ha. pose proof (R4 _ _ _ _ Hi Ha). lia.
  - pose proof (growing_addPages n (fh, r)) as HG. rewrite Ha in HG. apply (world_grow size mx r fs i fh fh' r' HW HG); [by left|].
    intros j. case_decide; subst; [apply list_lookup_insert_eq; by apply lookup_lt_Some in Hi | by apply list_lookup_insert_ne].
  - destruct (truncate_groups _ _ _ Ht) as [n Hn]. destruct HW as [R3 R4 R5]. cbn in *.
    assert (Hback : forall j f a g, <[i:=fh']> fs !! j = Some f -> frameGroupIdxes f !! a = Some g ->
              exists f0, fs !! j = Some f0 /\ frameGroupIdxes f0 !! a = Some g).
    { intros j f a g Hj Hg. apply list_lookup_insert_Some in Hj as [(-> & -> & _)|[_ Hj]]; [|eauto].
      exists fh. split; [done|]. rewrite Hn in Hg. by apply lookup_take_Some in Hg as [? _]. }
    split; cbn; [done| |].
    + intros j f a g Hj Hg. destruct (Hback _ _ _ _ Hj Hg) as (f0 & Hj0 & Hg0). eauto.
    + intros j k f f' a b g Hj Hk Ha Hb. destruct (Hback _ _ _ _ Hj Ha) as (? & ? & ?), (Hback _ _ _ _ Hk Hb) as (? & ? & ?). eauto.
Qed.

Lemma world_reach_ok size mx w :
  0 < size -> 0 <= mx -> worldReach size mx w -> worldOK size (maxNumFrameGroups (newRegion size mx)) w.
Proof.
  intros Hs Hm HR. induction HR as [|w w' _ IH Hst]; [|by eapply world_ok].
  split; cbn; [split_and!; try done|done..]. change PAGE_GROUP_SIZE with 1024.
  apply Z.div_pos; lia.
Qed.

(** The frame of a page, without overflow. *)
Lemma frameIdx_value fh p a :
  getFrameIdx fh p = Ok a -> 0 <= p -> (forall i g, frameGroupIdxes fh !! i = Some g -> 0 <= g < 2 ^ 22) ->
  exists g, frameGroupIdxes fh !! Z.to_nat (p / 1024) = Some g /\ a = g * 1024 + p mod 1024.
Proof.
  unfold getFrameIdx. change PAGE_GROUP_SIZE_LOG2 with 10. change PAGE_IDX_IN_GROUP_MASK with (2 ^ 10 - 1).
  intros Ha Hp Hg. destruct (negb (p <? pageCapacity fh)); [done|]. rewrite Z.shiftr_div_pow2 in Ha by lia.
  change (2 ^ 10) with 1024 in *. destruct (frameGroupIdxes fh !! Z.to_nat (p / 1024)) as [g|] eqn:E; [|done].
  simplify_eq. pose proof (Hg _ _ E) as Hr. exists g. split; [done|].
  rewrite Z.shiftl_mul_pow2 by lia. change (2 ^ 10) with 1024. rewrite (wrapU_id 32 (g * 1024)) by (unfold inU; lia).
  change (1024 - 1) with (2 ^ 10 - 1). rewrite land_low_bits by lia. change (2 ^ 10) with 1024.
  pose proof (Z.mod_pos_bound p 1024 ltac:(lia)). rewrite Z.lor_comm.
  rewrite (lor_disjoint (g * 1024) (p mod 1024) 10) by (try apply Z.mod_mul; lia).
  rewrite wrapU_id by (unfold inU; lia). lia.
Qed.

(** Every page has a frame of its own: two pages of any file handles of one page size, in any
      state that opening, growing and truncating files reaches, have different frames, and a
      frame lies inside the region, as long as the region has at most 2^32 frames. *)
Theorem frames_unique size mx w i j f g p q a b :
  0 < size -> 0 <= mx -> maxNumFrameGroups (newRegion size mx) <= 2 ^ 22 -> worldReach size mx w ->
  w.2 !! i = Some f -> w.2 !! j = Some g -> 0 <= p -> 0 <= q ->
  getFrameIdx f p = Ok a -> getFrameIdx g q = Ok b ->
  (a = b -> i = j /\ p = q) /\ 0 <= getFrame w.1 a /\ getFrame w.1 a + frameSize w.1 <= getMaxRegionSize w.1.
Proof.
  intros Hs Hm Hmax HR Hi Hj Hp Hq Ha Hb. pose proof (world_reach_ok _ _ _ Hs Hm HR) as [(R1 & R2 & R3) R4 R5].
  destruct (frameIdx_value f p a Ha Hp) as (x & Hx & ->). { intros k y Hk. pose proof (R4 _ _ _ _ Hi Hk). lia. }
  destruct (frameIdx_value g q b Hb Hq) as (y & Hy & ->). { intros k z Hk. pose proof (R4 _ _ _ _ Hj Hk). lia. }
  pose proof (Z.mod_pos_bound p 1024 ltac:(lia)). pose proof (Z.mod_pos_bound q 1024 ltac:(lia)).
  pose proof (R4 _ _ _ _ Hi Hx). split_and!.
  - intros E. assert (x = y /\ p mod 1024 = q mod 1024) as [<- Em] by lia.
    destruct (R5 _ _ _ _ _ _ _ Hi Hj Hx Hy) as [-> Eg].
    pose proof (Z.div_pos p 1024 Hp ltac:(lia)). pose proof (Z.div_pos q 1024 Hq ltac:(lia)).
    split; [done|]. rewrite (Z.div_mod p 1024), (Z.div_mod q 1024) by lia. apply Z2Nat.inj in Eg; lia.
  - unfold getFrame. nia.
  - unfold getFrame, getMaxRegionSize. change PAGE_GROUP_SIZE with 1024. nia.
Qed.

(** ** Runs in which the code does not do what it means to *)

(** A region of more than 2^32 frames (16 TB of pages): the shifted frame group has 32 bits, and
    two pages share a frame. *)
Theorem frames_alias :
  let f := mkHandle 0 1 1024 (replicate 1024 resetToEvicted) [0] in
  let g := mkHandle 0 1 1024 (replicate 1024 resetToEvicted) [2 ^ 22] in
  getFrameIdx f 0 = Ok 0 /\ getFrameIdx g 0 = Ok 0.
Proof. by vm_compute. Qed.

(** [addNewPageGroupWithoutLock] raises the capacity before it takes a frame group.  When the
    region has none left it throws, and the next call of [addNewPage] succeeds with a page that
    has no frame. *)
Theorem page_without_frame :
  let r := mkRegion 4096 1 1 in
  let fh := mkHandle 0 1024 1024 (replicate 1024 resetToEvicted) [0] in
  let x := addNewPages 1 (fh, r) in
  let y := addNewPages 1 x.2 in
  (exists e, x.1 = Err e) /\ y.1 = Ok 1024 /\ getFrameIdx y.2.1 1024 = Err UndefinedBehaviour.
Proof. split; [eexists; vm_compute; reflexivity|]. split; vm_compute; reflexivity. Qed.

(** ** Witness: two files of two pages each *)

Definition region8T : VMRegion := newRegion 4096 (2 ^ 43).
Definition twoFiles : world :=
  let x := constructHandle 0 5000 (openHandle 0 0, region8T) in
  let y := constructHandle 0 5000 (openHandle 0 0, x.2.2) in
  (y.2.2, [x.2.1; y.2.1]).

Lemma twoFiles_reach : worldReach 4096 (2 ^ 43) twoFiles.
Proof.
  eapply (world_next _ _ ((constructHandle 0 5000 (openHandle 0 0, region8T)).2.2, [(constructHandle 0 5000 (openHandle 0 0, region8T)).2.1])).
  - eapply world_next; [apply world_init|]. apply (world_open _ [] 0 5000 _ (openHandle 0 0)). vm_compute. reflexivity.
  - apply (world_open _ [_] 0 5000 _ (openHandle 0 0)). vm_compute. reflexivity.
Qed.

Lemma frames_unique_witness :
  getFrameIdx (default (openHandle 0 0) (twoFiles.2 !! 1%nat)) 1 = Ok 1025 /\ getFrame twoFiles.1 1025 + 4096 <= 2 ^ 43.
Proof.
  split; [vm_compute; reflexivity|].
  apply (frames_unique 4096 (2 ^ 43) twoFiles 1%nat 1%nat (default (openHandle 0 0) (twoFiles.2 !! 1%nat))
           (default (openHandle 0 0) (twoFiles.2 !! 1%nat)) 1 1 1025 1025); try apply twoFiles_reach; vm_compute; done.
Defined.
