(* ===== verification/ShadowFile.v ===== *)
(** * Shadow pages and checkpoints (src/storage/wal/shadow_file.cpp, shadow_utils.cpp,
      checkpointNoLock of src/transaction/transaction_manager.cpp)

    A checkpoint does not change the pages of the database files.  It writes to copies of them
    in the shadow file, flushes the shadow file with a list of records that say which page each
    copy stands for, logs a checkpoint record, and only then copies the shadow pages over the
    originals.

    A checkpoint is made by one thread while no transaction is active.  The buffer manager is
    seen as that thread sees it ([BufferManagerSpec]): a page is cached or not, a cached page is
    dirty or not, and whenever a page is pinned the buffer manager may evict pages that are not
    pinned, or find no memory; which, the list [evictions] says, so that the theorems hold for
    all choices. *)

From S2P Require Import Prelude BufferManager.
From stdpp Require Import base list gmap numbers strings.
Local Open Scope Z_scope.

(** A database file has an identity on disk, and an index in the buffer manager. *)
Definition DBFileID : Type := Z.

Record ShadowPageRecord := mkRecord { dbFileID : DBFileID; originalFileIdx : Z; originalPageIdx : Z }.

Record state := mkState {
  cached : gmap pageId (page * bool);    (** frames, with their dirty bits *)
  file : gmap (DBFileID * Z) page;       (** pages on disk *)
  locked : gset pageId;
  evictions : list (option (list pageId));
  numShadowPages : Z;                    (** [shadowingFH->getNumPages()] *)
  shadowPagesMap : gmap pageId Z;
  shadowPageRecords : list ShadowPageRecord
}.

Definition setCached c s := mkState c (file s) (locked s) (evictions s) (numShadowPages s) (shadowPagesMap s) (shadowPageRecords s).
Definition setFile f s := mkState (cached s) f (locked s) (evictions s) (numShadowPages s) (shadowPagesMap s) (shadowPageRecords s).
Definition setLocked l s := mkState (cached s) (file s) l (evictions s) (numShadowPages s) (shadowPagesMap s) (shadowPageRecords s).
Definition setEvictions e s := mkState (cached s) (file s) (locked s) e (numShadowPages s) (shadowPagesMap s) (shadowPageRecords s).
Definition setShadow n m r s := mkState (cached s) (file s) (locked s) (evictions s) n m r.

Section Shadow.
(** The identity of every file of the buffer manager, and the index of the shadow file. *)
Context (dbOf : Z -> DBFileID) (shadowFH : Z).

Definition onFile (p : pageId) : DBFileID * Z := (dbOf p.1, p.2).
Definition readFile (s : state) (p : pageId) : page := default ∅ (file s !! onFile p).

(** ** The buffer manager, for one thread *)

(** [tryEvictPage]: a dirty page is written first. *)
Definition evict (s : state) (p : pageId) : state :=
  if decide (p ∈ locked s) then s
  else match cached s !! p with
       | None => s
       | Some (pg, dirty) =>
           setCached (delete p (cached s)) (if dirty : bool then setFile (<[onFile p := pg]> (file s)) s else s)
       end.
(** [claimAFrame]: reserving memory evicts pages, or fails. *)
Definition reserveFrame : M state bool := fun s =>
  match evictions s with
  | [] => (Ok true, s)
  | Some ps :: rest => (Ok true, setEvictions rest (foldl evict s ps))
  | None :: rest => (Ok false, setEvictions rest s)
  end.

Definition pinPage (p : pageId) (policy : PageReadPolicy) : M state unit :=
  s <- sget ;;
  if decide (p ∈ locked s) then sthrow Blocked
  else
    smodify (setLocked ({[p]} ∪ locked s)) ;;;
    match cached s !! p with
    | Some _ => sret tt
    | None =>
        ok <- reserveFrame ;;
        if ok : bool then
          smodify (fun s => setCached
            (<[p := (match policy with READ_PAGE => readFile s p | DONT_READ_PAGE => ∅ end, false)]> (cached s)) s)
        else smodify (fun s => setLocked (locked s ∖ {[p]}) s) ;;; sthrow bufferPoolFull
    end.

(** [PageState::unlock] does not look at the state: a page that is not cached becomes
    UNLOCKED, with a frame of zeros. *)
Definition unpinPage (p : pageId) : M state unit := smodify (fun s =>
  setLocked (locked s ∖ {[p]}) (match cached s !! p with Some _ => s | None => setCached (<[p := (∅, false)]> (cached s)) s end)).

Definition setLockedPageDirty (p : pageId) : M state unit :=
  s <- sget ;;
  kuAssert (bool_decide (p ∈ locked s)) ;;;
  smodify (fun s => setCached (alter (fun x => (x.1, true)) p (cached s)) s).

Definition frame (s : state) (p : pageId) : page := match cached s !! p with Some (pg, _) => pg | None => ∅ end.
(** A write to the frame of a pinned page. *)
Definition writeFrame (p : pageId) (pg : page) : M state unit :=
  smodify (fun s => setCached (alter (fun x => (pg, x.2)) p (cached s)) s).

Definition optimisticReadPage (p : pageId) : M state page :=
  s <- sget ;;
  if decide (p ∈ locked s) then sthrow Blocked
  else match cached s !! p with
       | Some (pg, _) => sret pg
       | None => pinPage p READ_PAGE ;;; unpinPage p ;;; s <- sget ;; sret (frame s p)
       end.

(** ** The shadow file *)

Definition shadowPage (i : Z) : pageId := (shadowFH, i).

Definition hasShadowPage (s : state) (originalFile originalPage : Z) : bool :=
  bool_decide (is_Some (shadowPagesMap s !! (originalFile, originalPage))).
Definition clearShadowPage (originalFile originalPage : Z) : M state unit := smodify (fun s =>
  setShadow (numShadowPages s) (delete (originalFile, originalPage) (shadowPagesMap s)) (shadowPageRecords s) s).

Definition getOrCreateShadowPage (id : DBFileID) (originalFile originalPage : Z) : M state Z :=
  s <- sget ;;
  match shadowPagesMap s !! (originalFile, originalPage) with
  | Some i => sret i
  | None =>
      let i := numShadowPages s in
      smodify (setShadow (i + 1) (<[(originalFile, originalPage) := i]> (shadowPagesMap s))
                 (shadowPageRecords s ++ [mkRecord id originalFile originalPage])) ;;;
      sret i
  end.
Definition getShadowPage (originalFile originalPage : Z) : M state Z :=
  s <- sget ;;
  match shadowPagesMap s !! (originalFile, originalPage) with Some i => sret i | None => sthrow InternalException end.

Definition createShadowVersionIfNecessaryAndPinPage (p : pageId) (insertingNewPage : bool) (id : DBFileID) : M state Z :=
  s <- sget ;;
  let has := hasShadowPage s p.1 p.2 in
  i <- getOrCreateShadowPage id p.1 p.2 ;;
  (if has then pinPage (shadowPage i) READ_PAGE
   else
     pinPage (shadowPage i) DONT_READ_PAGE ;;;
     if insertingNewPage then sret tt
     else pg <- optimisticReadPage p ;; writeFrame (shadowPage i) pg) ;;;
  setLockedPageDirty (shadowPage i) ;;;
  sret i.

Definition unpinShadowPage (originalPageIdx shadowPageIdx : Z) : M state unit :=
  if originalPageIdx =? INVALID_PAGE_IDX then sret tt else unpinPage (shadowPage shadowPageIdx).

(** [updateOp] writes to the frame, and may throw after having written. *)
Definition updatePage (p : pageId) (isInsertingNewPage : bool) (id : DBFileID)
    (updateOp : page -> page * outcome unit) : M state unit :=
  i <- createShadowVersionIfNecessaryAndPinPage p isInsertingNewPage id ;;
  s <- sget ;;
  let r := updateOp (frame s (shadowPage i)) in
  writeFrame (shadowPage i) r.1 ;;;
  unpinShadowPage p.2 i ;;;
  slift r.2.

(** A new page of a file, [newOriginalPage] of [fileHandle.addNewPage()], in its shadow only. *)
Definition insertNewPage (newOriginalPage : pageId) (id : DBFileID) (insertOp : page -> page) : M state unit :=
  s <- sget ;;
  kuAssert (negb (hasShadowPage s newOriginalPage.1 newOriginalPage.2)) ;;;
  i <- getOrCreateShadowPage id newOriginalPage.1 newOriginalPage.2 ;;
  pinPage (shadowPage i) DONT_READ_PAGE ;;;
  s <- sget ;;
  writeFrame (shadowPage i) (insertOp (frame s (shadowPage i))) ;;;
  setLockedPageDirty (shadowPage i) ;;;
  unpinPage (shadowPage i).

Definition readShadowVersionOfPage (p : pageId) : M state page :=
  s <- sget ;;
  kuAssert (hasShadowPage s p.1 p.2) ;;;
  i <- getShadowPage p.1 p.2 ;;
  pinPage (shadowPage i) READ_PAGE ;;;
  s <- sget ;;
  unpinShadowPage i p.2 ;;;
  sret (frame s (shadowPage i)).

(** Where a checkpoint reads a page. *)
Definition pageToPin (s : state) (p : pageId) : pageId :=
  match shadowPagesMap s !! p with Some i => shadowPage i | None => p end.

(** [flushAllDirtyPagesInFrames] of the shadow file, page by page. *)
Definition flushPageIfDirty (s : state) (p : pageId) : state :=
  match cached s !! p with
  | Some (pg, true) => setCached (<[p := (pg, false)]> (cached s)) (setFile (<[onFile p := pg]> (file s)) s)
  | _ => s
  end.
Definition shadowPages (s : state) : list pageId := shadowPage <$> seqZ 0 (numShadowPages s).
(** The header page and the records are written as well; [headerPage] stands for the header. *)
Context (headerPage : nat -> page).
Definition flushAll : M state unit :=
  s <- sget ;;
  smodify (setFile (<[onFile (shadowPage 0) := headerPage (length (shadowPageRecords s))]> (file s))) ;;;
  smodify (fun s => foldl flushPageIfDirty s (shadowPages s)) ;;;
  s <- sget ;;
  kuAssert (Z.of_nat (length (shadowPageRecords s)) + 1 =? numShadowPages s).

Definition updateFrameIfPageIsInFrameWithoutLock (p : pageId) (pg : page) (s : state) : state :=
  setCached (alter (fun x => (pg, x.2)) p (cached s)) s.

(** One record: the shadow page is read from disk, written over the original page on disk, and
    over its frame if it has one. *)
Definition replayRecord (s : state) (i : Z) (r : ShadowPageRecord) : state :=
  let pg := readFile s (shadowPage i) in
  updateFrameIfPageIsInFrameWithoutLock (originalFileIdx r, originalPageIdx r) pg
    (setFile (<[(dbFileID r, originalPageIdx r) := pg]> (file s)) s).
Fixpoint replayRecords (i : Z) (rs : list ShadowPageRecord) (s : state) : state :=
  match rs with
  | [] => s
  | r :: rs => replayRecords (i + 1) rs (replayRecord s i r)
  end.
Definition replayShadowPageRecords (s : state) : state := replayRecords 1 (shadowPageRecords s) s.

(** [removeFilePagesFromFrames] drops frames without writing them; the file is truncated, and
    gets its header page again. *)
Definition clearAll (s : state) : state :=
  setShadow 1 ∅ []
    (setFile (filter (fun x => x.1.1 <> dbOf shadowFH) (file s))
       (setCached (filter (fun x => x.1.1 <> shadowFH) (cached s)) s)).
End Shadow.
