(* ===== verification/ShadowCheckpoint.v ===== *)
(** * Shadow pages make a checkpoint atomic

    The pages that a checkpoint sees are the last shadow versions of pages, and the originals
    where there are none ([shadowView]).  Changing pages through the shadow file changes this
    view like an array of pages and leaves the database files alone; flushing and replaying
    makes the database files equal to it. *)

From S2P Require Import Prelude BufferManager ShadowFile.
From stdpp Require Import base list gmap numbers strings.
Local Open Scope Z_scope.

Definition recordPage (r : ShadowPageRecord) : pageId := (originalFileIdx r, originalPageIdx r).

(** The position of the last record of a page. *)
Fixpoint lastIdx (o : pageId) (rs : list ShadowPageRecord) : option nat :=
  match rs with
  | [] => None
  | r :: rs =>
      match lastIdx o rs with
      | Some k => Some (S k)
      | None => if decide (recordPage r = o) then Some 0%nat else None
      end
  end.

Lemma lastIdx_snoc o rs r :
  lastIdx o (rs ++ [r]) = if decide (recordPage r = o) then Some (length rs) else lastIdx o rs.
Proof.
  induction rs as [|x rs IH]; cbn; [done|]. rewrite IH. case_decide; [done|]. done.
Qed.

Lemma lastIdx_lt o rs k : lastIdx o rs = Some k -> (k < length rs)%nat.
Proof.
  revert k. induction rs as [|r rs IH]; intros k Hk; cbn in *; [done|].
  destruct (lastIdx o rs) as [j|]; [simplify_eq; pose proof (IH j eq_refl); lia|]. case_decide; [simplify_eq; lia|done].
Qed.

(** A sequence that ends well, step by step. *)
Lemma sbind_inv {S A B} (m : M S A) (k : A -> M S B) s b s' :
  sbind m k s = (Ok b, s') -> exists a s1, m s = (Ok a, s1) /\ k a s1 = (Ok b, s').
Proof. unfold sbind. destruct (m s) as [[a|e] s1]; [eauto|done]. Qed.

Section Checkpoint.
Context (dbOf : Z -> DBFileID) (shadowFH : Z) (headerPage : nat -> page).
Context (dbOf_inj : forall f g, dbOf f = dbOf g -> f = g).

Local Abbreviation sp := (shadowPage shadowFH).
Local Abbreviation read := (readFile dbOf).

(** A page as a reader sees it: its frame, or the file. *)
Definition logical (s : state) (q : pageId) : page :=
  match cached s !! q with Some (pg, _) => pg | None => read s q end.

Definition shadowView (s : state) (o : pageId) : page :=
  match lastIdx o (shadowPageRecords s) with
  | Some k => logical s (sp (Z.of_nat k + 1))
  | None => logical s o
  end.

Record shadowOK (s : state) : Prop := {
  so_count : numShadowPages s = Z.of_nat (length (shadowPageRecords s)) + 1;
  so_records : Forall (fun r => originalFileIdx r <> shadowFH /\ dbFileID r = dbOf (originalFileIdx r)) (shadowPageRecords s);
  so_map : forall (o : pageId) i, shadowPagesMap s !! o = Some i ->
    exists k, lastIdx o (shadowPageRecords s) = Some k /\ i = Z.of_nat k + 1;
  so_dirty : forall (q : pageId) pg, cached s !! q = Some (pg, true) -> q.1 = shadowFH;
  so_clean : forall q pg, q ∉ locked s -> cached s !! q = Some (pg, false) -> pg = read s q;
  so_header : cached s !! sp 0 = None
}.

(** What no change of frames and files may touch: pages, and what is on disk of the originals. *)
Record sameShadow (s s' : state) : Prop := {
  ss_count : numShadowPages s' = numShadowPages s;
  ss_map : shadowPagesMap s' = shadowPagesMap s;
  ss_records : shadowPageRecords s' = shadowPageRecords s;
  ss_file : forall q, q.1 <> shadowFH -> read s' q = read s q
}.

Lemma sameShadow_refl s : sameShadow s s.
Proof. done. Qed.

Lemma sameShadow_trans s1 s2 s3 : sameShadow s1 s2 -> sameShadow s2 s3 -> sameShadow s1 s3.
Proof.
  intros [A1 A2 A3 A4] [B1 B2 B3 B4]. split; [congruence..|]. intros q Hq. rewrite B4, A4; done.
Qed.

Lemma onFile_inj p q : onFile dbOf p = onFile dbOf q -> p = q.
Proof using dbOf_inj.
  destruct p as [f i], q as [g j]. unfold onFile; cbn. intros E. simplify_eq. by rewrite (dbOf_inj f g).
Qed.

Lemma read_insert s p pg q :
  read (setFile (<[onFile dbOf p := pg]> (file s)) s) q = if decide (q = p) then pg else read s q.
Proof using dbOf_inj.
  unfold readFile; cbn. case_decide as E.
  - subst. by rewrite lookup_insert_eq.
  - rewrite lookup_insert_ne; [done|]. intros E2. by apply E, onFile_inj.
Qed.

(** ** Evictions change nothing that can be seen *)

Definition invisible (s s' : state) : Prop :=
  shadowOK s' /\ sameShadow s s' /\ locked s' = locked s /\ (forall q, logical s' q = logical s q) /\
  (forall q, q ∈ locked s -> cached s' !! q = cached s !! q).

Lemma invisible_refl s : shadowOK s -> invisible s s.
Proof. intros Hs. by split_and!. Qed.

Lemma invisible_trans s1 s2 s3 : invisible s1 s2 -> invisible s2 s3 -> invisible s1 s3.
Proof.
  intros (A1 & A2 & A3 & A4 & A5) (B1 & B2 & B3 & B4 & B5). split_and!; [done|by eapply sameShadow_trans|congruence|..].
  - intros q. by rewrite B4, A4.
  - intros q Hq. rewrite B5, A5; [done..|]. by rewrite A3.
Qed.

Lemma evict_invisible s p : shadowOK s -> invisible s (evict dbOf s p).
Proof using dbOf_inj.
  intros Hs. unfold evict. case_decide as Hl; [by apply invisible_refl|].
  destruct (cached s !! p) as [[pg d]|] eqn:E; [|by apply invisible_refl]. pose proof Hs as [H1 H2 H3 H4 H5 H6].
  set (s1 := if d then setFile (<[onFile dbOf p := pg]> (file s)) s else s).
  assert (Hr : forall q, read s1 q = if decide (q = p) then (if d then pg else read s q) else read s q).
  { intros q. unfold s1. destruct d; [apply read_insert | by case_decide]. }
  assert (Hc : cached s1 = cached s) by (unfold s1; by destruct d).
  assert (Hm : numShadowPages s1 = numShadowPages s /\ shadowPagesMap s1 = shadowPagesMap s /\
               shadowPageRecords s1 = shadowPageRecords s /\ locked s1 = locked s) by (unfold s1; by destruct d).
  destruct Hm as (M1 & M2 & M3 & M4).
  assert (Hrd : forall q, read (setCached (delete p (cached s)) s1) q = read s1 q) by done.
  split_and!.
  - split; cbn; rewrite ?M1, ?M2, ?M3, ?M4; try done.
    + intros q x Hq. apply lookup_delete_Some in Hq as [_ Hq]. eauto.
    + intros q x Hql Hq. apply lookup_delete_Some in Hq as [Hne Hq]. rewrite Hrd, Hr, decide_False by done. eauto.
    + rewrite lookup_delete_None. auto.
  - split; cbn; [done..|]. intros q Hq. rewrite Hrd, Hr. case_decide as Eq; [subst|done].
    destruct d; [|done]. destruct Hq. by eapply H4.
  - done.
  - intros q. unfold logical. cbn. rewrite Hrd, Hr. destruct (decide (q = p)) as [->|Hne].
    + rewrite lookup_delete_eq, E. destruct d; [done|]. symmetry. by apply H5.
    + by rewrite lookup_delete_ne by done.
  - intros q Hq. cbn. rewrite lookup_delete_ne; [done|]. intros <-. done.
Qed.

Lemma evictAll_invisible ps s : shadowOK s -> invisible s (foldl (evict dbOf) s ps).
Proof using dbOf_inj.
  revert s. induction ps as [|p ps IH]; intros s Hs; cbn; [by apply invisible_refl|].
  pose proof (evict_invisible s p Hs) as H1. eapply invisible_trans; [exact H1|]. apply IH, H1.
Qed.

Lemma setEvictions_invisible s s' e : invisible s s' -> invisible s (setEvictions e s').
Proof. intros ([? ? ? ? ? ?] & [? ? ? ?] & ? & ? & ?). by split_and!. Qed.

Lemma reserveFrame_invisible s : shadowOK s -> exists b, invisible s (reserveFrame dbOf s).2 /\ (reserveFrame dbOf s).1 = Ok b.
Proof using dbOf_inj.
  intros Hs. unfold reserveFrame. destruct (evictions s) as [|[ps|] rest]; cbn.
  - exists true. split; [by apply invisible_refl|done].
  - exists true. split; [|done]. by apply setEvictions_invisible, evictAll_invisible.
  - exists false. split; [|done]. by apply setEvictions_invisible, invisible_refl.
Qed.

(** ** Pinning, writing and unpinning one page *)

(** Page [q] has been changed and is locked; nothing else has. *)
Record pinnedAt (s s' : state) (q : pageId) (pg : page) (d : bool) : Prop := {
  pa_ok : shadowOK s';
  pa_same : sameShadow s s';
  pa_locked : locked s' = {[q]} ∪ locked s;
  pa_free : q ∉ locked s;
  pa_cached : cached s' !! q = Some (pg, d);
  pa_other : forall p, p <> q -> logical s' p = logical s p;
  pa_held : forall p, p ∈ locked s -> cached s' !! p = cached s !! p
}.

Lemma lock_ok s q : shadowOK s -> shadowOK (setLocked ({[q]} ∪ locked s) s).
Proof. intros [H1 H2 H3 H4 H5 H6]. split; try done. cbn. intros p pg Hp. apply H5. set_solver. Qed.

Lemma pin_ok s q policy s' :
  shadowOK s -> q <> sp 0 -> pinPage dbOf q policy s = (Ok tt, s') ->
  exists pg d, pinnedAt s s' q pg d /\ (policy = READ_PAGE -> pg = logical s q /\ (d = false -> pg = read s' q)).
Proof using dbOf_inj.
  intros Hs Hq0. unfold pinPage, sbind, sget, smodify, sthrow, sret; cbn. case_decide as Hl; [done|].
  pose proof (lock_ok s q Hs) as Hs1. destruct (cached s !! q) as [[pg d]|] eqn:E.
  - intros [= <-]. exists pg, d. split; [by split|]. intros _. unfold logical. rewrite E. split; [done|].
    intros ->. by apply (so_clean s Hs q pg).
  - destruct (reserveFrame_invisible _ Hs1) as (b & (A1 & A2 & A3 & A4 & A5) & E1).
    destruct (reserveFrame dbOf (setLocked ({[q]} ∪ locked s) s)) as [r s2]. cbn in *. subst r.
    destruct b; [|discriminate]. intros [= <-]. cbn in A3, A5. set (pg := match policy with READ_PAGE => read s2 q | DONT_READ_PAGE => ∅ end).
    assert (Hc2 : cached s2 !! q = None) by (rewrite A5 by set_solver; done).
    exists pg, false. split.
    + split; cbn; [|destruct A2; by split|done|done|by rewrite lookup_insert_eq|..].
      * destruct A1 as [H1 H2 H3 H4 H5 H6]. split; cbn; try done.
        -- intros p x. destruct (decide (p = q)) as [->|Hne]; [by rewrite lookup_insert_eq|]. rewrite lookup_insert_ne by done. apply H4.
        -- intros p x Hp. destruct (decide (p = q)) as [->|Hne]; [set_solver|]. rewrite lookup_insert_ne by done. by apply H5.
        -- by rewrite lookup_insert_ne.
      * intros p Hp. unfold logical; cbn. rewrite lookup_insert_ne by done. apply A4.
      * intros p Hp. rewrite lookup_insert_ne by (intros ->; done). apply A5. set_solver.
    + intros ->. unfold pg. pose proof (A4 q) as Hlog. unfold logical in Hlog. cbn in Hlog. rewrite Hc2, E in Hlog.
      unfold logical. by rewrite E.
Qed.

Lemma write_ok s s1 q pg d pg' :
  pinnedAt s s1 q pg d -> pinnedAt s (writeFrame q pg' s1).2 q pg' d.
Proof.
  intros [H1 H2 H3 H4 H5 H6 H7]. cbn. split; cbn; [|destruct H2; by split|done|done| |..].
  - destruct H1 as [A1 A2 A3 A4 A5 A6]. split; cbn; try done.
    + intros p x. destruct (decide (p = q)) as [->|Hne].
      * rewrite lookup_alter_eq, H5. cbn. intros E. simplify_eq. by apply (A4 q pg).
      * rewrite lookup_alter_ne by done. apply A4.
    + intros p x Hp. destruct (decide (p = q)) as [->|Hne]; [set_solver|]. rewrite lookup_alter_ne by done. by apply A5.
    + destruct (decide (sp 0 = q)) as [<-|Hne]; [by rewrite A6 in H5|]. by rewrite lookup_alter_ne.
  - by rewrite lookup_alter_eq, H5.
  - intros p Hp. unfold logical; cbn. rewrite lookup_alter_ne by done. by apply H6.
  - intros p Hp. rewrite lookup_alter_ne by (intros ->; done). by apply H7.
Qed.

Lemma dirty_ok s s1 q pg d s2 :
  pinnedAt s s1 q pg d -> q.1 = shadowFH -> setLockedPageDirty q s1 = (Ok tt, s2) -> pinnedAt s s2 q pg true.
Proof.
  intros [H1 H2 H3 H4 H5 H6 H7] Hq. unfold setLockedPageDirty, sbind, sget, kuAssert, sthrow, sret, smodify.
  case_bool_decide as Hb; [|done]. intros [= <-]. split; cbn; [|destruct H2; by split|done|done| |..].
  - destruct H1 as [A1 A2 A3 A4 A5 A6]. split; cbn; try done.
    + intros p x. destruct (decide (p = q)) as [->|Hne]; [done|]. rewrite lookup_alter_ne by done. apply A4.
    + intros p x Hp. destruct (decide (p = q)) as [->|Hne]; [set_solver|]. rewrite lookup_alter_ne by done. by apply A5.
    + destruct (decide (sp 0 = q)) as [<-|Hne]; [by rewrite A6 in H5|]. by rewrite lookup_alter_ne.
  - by rewrite lookup_alter_eq, H5.
  - intros p Hp. unfold logical; cbn. rewrite lookup_alter_ne by done. by apply H6.
  - intros p Hp. rewrite lookup_alter_ne by (intros ->; done). by apply H7.
Qed.

(** A dirty page, or one that is as on disk, can be unpinned. *)
Lemma unpin_ok s s1 q pg d :
  pinnedAt s s1 q pg d -> (d = false -> pg = read s1 q) ->
  let s2 := (unpinPage q s1).2 in
  shadowOK s2 /\ sameShadow s s2 /\ locked s2 = locked s /\ logical s2 q = pg /\
  (forall p, p <> q -> logical s2 p = logical s p) /\ (forall p, p ∈ locked s -> cached s2 !! p = cached s !! p).
Proof.
  intros [H1 H2 H3 H4 H5 H6 H7] Hd. cbn. rewrite H5. split_and!.
  - destruct H1 as [A1 A2 A3 A4 A5 A6]. split; cbn; try done. intros p x Hp Hx.
    destruct (decide (p = q)) as [->|Hne]; [rewrite H5 in Hx; simplify_eq; by apply Hd|]. apply A5; [set_solver|done].
  - destruct H2. by split.
  - cbn. rewrite H3. set_solver.
  - unfold logical; cbn. by rewrite H5.
  - intros p Hp. by apply H6.
  - intros p Hp. by apply H7.
Qed.

Lemma optimisticRead_ok s o pg s' :
  shadowOK s -> o <> sp 0 -> optimisticReadPage dbOf o s = (Ok pg, s') -> invisible s s' /\ pg = logical s o.
Proof using dbOf_inj.
  intros Hs Ho. unfold optimisticReadPage. unfold sbind at 1, sget at 1. case_decide as Hl; [done|].
  destruct (cached s !! o) as [[x d]|] eqn:E.
  - unfold sret. intros [= <- <-]. split; [by apply invisible_refl|]. unfold logical. by rewrite E.
  - unfold sbind at 1. destruct (pinPage dbOf o READ_PAGE s) as [[[]|e] s1] eqn:EP; [|done].
    destruct (pin_ok s o READ_PAGE s1 Hs Ho EP) as (x & d & HP & Hx). specialize (Hx eq_refl).
    destruct (unpin_ok s s1 o x d HP (proj2 Hx)) as (U1 & U2 & U3 & U4 & U5 & U6).
    unfold sbind, sget, sret, smodify. unfold unpinPage, smodify in *. cbn [fst snd] in *.
    intros [= <- <-]. split.
    + split_and!; [done..| |done]. intros q. destruct (decide (q = o)) as [->|Hq]; [|by apply U5]. rewrite U4. apply Hx.
    + rewrite <- (proj1 Hx), <- U4. unfold frame, logical. cbn [cached setLocked].
      destruct (cached s1 !! o) as [[y e]|] eqn:E1; cbn [cached setCached]; rewrite ?E1; [done|].
      by rewrite (pa_cached _ _ _ _ _ HP) in E1.
Qed.

(** ** Changing pages through the shadow file *)

Definition viewIs (s : state) (V : pageId -> page) : Prop :=
  shadowOK s /\ locked s = ∅ /\ forall o, o.1 <> shadowFH -> shadowView s o = V o.

Lemma lastIdx_record o rs k : lastIdx o rs = Some k -> exists r, rs !! k = Some r /\ recordPage r = o.
Proof.
  revert k. induction rs as [|r rs IH]; intros k Hk; cbn in *; [done|].
  destruct (lastIdx o rs) as [j|]; [simplify_eq; by apply IH|]. case_decide; simplify_eq. by exists r.
Qed.

Lemma sp_inj i j : sp i = sp j -> i = j.
Proof using Type. by intros [=]. Qed.

(** The last shadow version of [o] changes, and no other page. *)
Lemma view_change s s1 V o k pg :
  viewIs s V -> sameShadow s s1 -> lastIdx o (shadowPageRecords s) = Some k ->
  logical s1 (sp (Z.of_nat k + 1)) = pg -> (forall p, p <> sp (Z.of_nat k + 1) -> logical s1 p = logical s p) ->
  forall q, q.1 <> shadowFH -> shadowView s1 q = if decide (q = o) then pg else V q.
Proof.
  intros (Hs & _ & HV) HS Hk Hpg Hother q Hq. unfold shadowView. rewrite (ss_records _ _ HS).
  destruct (decide (q = o)) as [->|Hne]; [by rewrite Hk|]. rewrite <- HV by done. unfold shadowView.
  destruct (lastIdx q (shadowPageRecords s)) as [j|] eqn:Ej.
  - apply Hother. intros E%sp_inj. assert (j = k) as -> by lia.
    destruct (lastIdx_record _ _ _ Hk) as (r & Hr & E1), (lastIdx_record _ _ _ Ej) as (r' & Hr' & E2). congruence.
  - apply Hother. intros ->. done.
Qed.

(** The shadow page that [getOrCreateShadowPage] makes. *)
Definition withNewRecord (s : state) (o : pageId) : state :=
  setShadow (numShadowPages s + 1) (<[o := numShadowPages s]> (shadowPagesMap s))
    (shadowPageRecords s ++ [mkRecord (dbOf o.1) o.1 o.2]) s.

Lemma newRecord_ok s o : shadowOK s -> o.1 <> shadowFH -> shadowOK (withNewRecord s o).
Proof.
  intros [H1 H2 H3 H4 H5 H6] Ho. split; cbn; try done.
  - rewrite length_app. cbn. lia.
  - apply Forall_app. split; [done|]. constructor; [done|done].
  - intros q i Hq. rewrite lastIdx_snoc. destruct o as [f p]. unfold recordPage; cbn.
    case_decide as Hd; [subst q|].
    + rewrite lookup_insert_eq in Hq. injection Hq as <-. eexists. split; [done|]. lia.
    + rewrite lookup_insert_ne in Hq by done. by apply H3.
Qed.

Lemma newRecord_view s o q : q <> o -> shadowView (withNewRecord s o) q = shadowView s q.
Proof.
  intros Hq. unfold shadowView. cbn. rewrite lastIdx_snoc, decide_False; [done|]. unfold recordPage; cbn. by destruct o.
Qed.

(** The end of an update: the frame is written and the page unpinned. *)
Lemma finish_update s s1 V o k pg d pg' :
  viewIs s V -> lastIdx o (shadowPageRecords s) = Some k -> pinnedAt s s1 (sp (Z.of_nat k + 1)) pg d -> d = true ->
  let s2 := (unpinPage (sp (Z.of_nat k + 1)) (writeFrame (sp (Z.of_nat k + 1)) pg' s1).2).2 in
  viewIs s2 (fun q => if decide (q = o) then pg' else V q) /\ sameShadow s s2.
Proof.
  intros HV Hk HP Hd s2. pose proof (write_ok _ _ _ _ _ pg' HP) as HP'.
  destruct (unpin_ok _ _ _ _ _ HP') as (U1 & U2 & U3 & U4 & U5 & U6); [by subst d|]. fold s2 in U1, U2, U3, U4, U5, U6.
  split; [|done]. pose proof HV as (_ & HL & _). split_and!; [done|by rewrite U3|].
  by eapply view_change.
Qed.

Lemma shadowPage_pos k : sp (Z.of_nat k + 1) <> sp 0.
Proof. intros E%sp_inj. lia. Qed.

(** A page that has a shadow version already. *)
Lemma update_again s V o i k op s' :
  viewIs s V -> o.1 <> shadowFH -> o.2 <> INVALID_PAGE_IDX ->
  shadowPagesMap s !! o = Some i -> lastIdx o (shadowPageRecords s) = Some k -> i = Z.of_nat k + 1 ->
  forall ins, updatePage dbOf shadowFH o ins (dbOf o.1) op s = (Ok tt, s') ->
  viewIs s' (fun q => if decide (q = o) then (op (V o)).1 else V q) /\ sameShadow s s'.
Proof using dbOf_inj.
  intros HV Ho Hinv Hm Hk -> ins Hu. pose proof HV as (Hs & HL & HVo).
  unfold updatePage, createShadowVersionIfNecessaryAndPinPage, hasShadowPage, getOrCreateShadowPage in Hu.
  destruct o as [f p]; cbn [fst snd] in *.
  apply sbind_inv in Hu as (i & s1 & H1 & Hu). apply sbind_inv in H1 as (s0 & t & E & H1). unfold sget in E. injection E as <- <-.
  rewrite bool_decide_true in H1 by (by rewrite Hm).
  apply sbind_inv in H1 as (j & s2 & E & H1). unfold sbind, sget, sret in E. rewrite Hm in E. injection E as <- <-.
  apply sbind_inv in H1 as ([] & s3 & HP & H1). apply sbind_inv in H1 as ([] & s4 & HD & E). unfold sret in E. injection E as <- <-.
  destruct (pin_ok s (sp (Z.of_nat k + 1)) READ_PAGE s3 Hs (shadowPage_pos k) HP) as (pg & d & HP3 & Hpg).
  pose proof (dirty_ok _ _ _ _ _ _ HP3 eq_refl HD) as HP4.
  apply sbind_inv in Hu as (s5 & t & E & Hu). unfold sget in E. injection E as <- <-.
  assert (Hf : frame s4 (sp (Z.of_nat k + 1)) = V (f, p)).
  { unfold frame. rewrite (pa_cached _ _ _ _ _ HP4). rewrite (proj1 (Hpg eq_refl)), <- HVo by done.
    unfold shadowView. by rewrite Hk. }
  rewrite Hf in Hu.
  apply sbind_inv in Hu as ([] & s6 & HW & Hu). apply sbind_inv in Hu as ([] & s7 & HUn & Hu).
  unfold unpinShadowPage in HUn. rewrite (proj2 (Z.eqb_neq _ _) Hinv) in HUn.
  destruct (finish_update s s4 V (f, p) k pg true (op (V (f, p))).1 HV Hk HP4 eq_refl) as [F1 F2].
  rewrite HW in F1, F2. cbn [snd] in F1, F2. rewrite HUn in F1, F2. cbn [snd] in F1, F2.
  unfold slift in Hu. destruct (op (V (f, p))).2; [|done]. by injection Hu as _ <-.
Qed.

Lemma viewIs_ext s V V' : viewIs s V -> (forall q, q.1 <> shadowFH -> V q = V' q) -> viewIs s V'.
Proof. intros (H1 & H2 & H3) HV. split_and!; [done..|]. intros q Hq. by rewrite H3, HV. Qed.

(** A record for a page that has none: its view is what is in the new shadow page. *)
Lemma newRecord_viewIs s V o :
  viewIs s V -> o.1 <> shadowFH ->
  let n := length (shadowPageRecords s) in
  viewIs (withNewRecord s o) (fun q => if decide (q = o) then logical s (sp (Z.of_nat n + 1)) else V q) /\
  lastIdx o (shadowPageRecords (withNewRecord s o)) = Some n.
Proof.
  intros (Hs & HL & HV) Ho n.
  assert (Hk : lastIdx o (shadowPageRecords (withNewRecord s o)) = Some n).
  { cbn. rewrite lastIdx_snoc, decide_True; [done|]. by destruct o. }
  split; [|done]. split_and!; [by apply newRecord_ok|done|]. intros q Hq. case_decide as E.
  - subst q. unfold shadowView. by rewrite Hk.
  - rewrite newRecord_view by done. by apply HV.
Qed.

(** An eviction elsewhere leaves a pinned page alone. *)
Lemma pinned_invisible s s1 s2 q pg d : pinnedAt s s1 q pg d -> invisible s1 s2 -> pinnedAt s s2 q pg d.
Proof.
  intros [H1 H2 H3 H4 H5 H6 H7] (A1 & A2 & A3 & A4 & A5). split; [done|by eapply sameShadow_trans|congruence|done|..].
  - rewrite A5; [done|]. rewrite H3. set_solver.
  - intros p Hp. by rewrite A4, H6.
  - intros p Hp. rewrite A5, H7; [done..|]. rewrite H3. set_solver.
Qed.

Lemma sameFiles_newRecord s o s' :
  sameShadow (withNewRecord s o) s' -> forall q, q.1 <> shadowFH -> read s' q = read s q.
Proof. intros [_ _ _ H] q Hq. by rewrite H. Qed.

Lemma getOrCreate_new s o :
  shadowPagesMap s !! o = None ->
  getOrCreateShadowPage (dbOf o.1) o.1 o.2 s = (Ok (numShadowPages s), withNewRecord s o).
Proof. destruct o as [f p]. intros Hm. unfold getOrCreateShadowPage, sbind, sget. cbn [fst snd]. by rewrite Hm. Qed.

(** A page gets its first shadow version: the original, unless the page is new. *)
Lemma update_new s V o op s' ins :
  viewIs s V -> o.1 <> shadowFH -> o.2 <> INVALID_PAGE_IDX ->
  shadowPagesMap s !! o = None -> lastIdx o (shadowPageRecords s) = None ->
  updatePage dbOf shadowFH o ins (dbOf o.1) op s = (Ok tt, s') ->
  exists old, (ins = false -> old = V o) /\
    viewIs s' (fun q => if decide (q = o) then (op old).1 else V q) /\ sameShadow (withNewRecord s o) s'.
Proof using dbOf_inj.
  intros HV Ho Hinv Hm Hk Hu. destruct (newRecord_viewIs s V o HV Ho) as [HV0 Hk0].
  set (n := length (shadowPageRecords s)) in *. set (s0 := withNewRecord s o) in *. pose proof HV as (Hs & HL & HVo).
  unfold updatePage, createShadowVersionIfNecessaryAndPinPage, hasShadowPage in Hu.
  apply sbind_inv in Hu as (i & s1 & H1 & Hu). apply sbind_inv in H1 as (s00 & t & E & H1). unfold sget in E. injection E as <- <-.
  rewrite bool_decide_false in H1 by (destruct o; cbn; rewrite Hm; by intros [? ?]).
  apply sbind_inv in H1 as (j & s2 & E & H1). rewrite (getOrCreate_new s o Hm) in E. injection E as <- <-. fold s0 in H1.
  rewrite (so_count s Hs) in H1. fold n in H1.
  apply sbind_inv in H1 as ([] & s3 & HP & H1). apply sbind_inv in H1 as ([] & s4 & HD & E). unfold sret in E. injection E as <- <-.
  apply sbind_inv in HP as ([] & s5 & HP & HC).
  destruct (pin_ok s0 (sp (Z.of_nat n + 1)) DONT_READ_PAGE s5 (proj1 HV0) (shadowPage_pos n) HP) as (pg & d & HP5 & _).
  assert (H3 : exists pg3 d3, pinnedAt s0 s3 (sp (Z.of_nat n + 1)) pg3 d3 /\ (ins = false -> pg3 = V o)).
  { destruct ins; [unfold sret in HC; injection HC as <-; by exists pg, d|].
    apply sbind_inv in HC as (pg0 & s6 & HR & HW).
    destruct (optimisticRead_ok s5 o pg0 s6 (pa_ok _ _ _ _ _ HP5)) as [HI ->]; [by intros -> |done|].
    pose proof (pinned_invisible _ _ _ _ _ _ HP5 HI) as HP6. pose proof (write_ok _ _ _ _ _ (logical s5 o) HP6) as HP7.
    rewrite HW in HP7. cbn [snd] in HP7. eexists _, d. split; [exact HP7|]. intros _.
    rewrite (pa_other _ _ _ _ _ HP5) by (by intros ->). rewrite <- (HVo o Ho). unfold shadowView. by rewrite Hk. }
  destruct H3 as (pg3 & d3 & HP3 & Hpg3). pose proof (dirty_ok _ _ _ _ _ _ HP3 eq_refl HD) as HP4.
  apply sbind_inv in Hu as (s7 & t & E & Hu). unfold sget in E. injection E as <- <-.
  assert (Hf : frame s4 (sp (Z.of_nat n + 1)) = pg3) by (unfold frame; by rewrite (pa_cached _ _ _ _ _ HP4)).
  rewrite Hf in Hu. exists pg3. split; [done|].
  apply sbind_inv in Hu as ([] & s8 & HW & Hu). apply sbind_inv in Hu as ([] & s9 & HUn & Hu).
  unfold unpinShadowPage in HUn. rewrite (proj2 (Z.eqb_neq _ _) Hinv) in HUn.
  destruct (finish_update s0 s4 _ o n pg3 true (op pg3).1 HV0 Hk0 HP4 eq_refl) as [F1 F2].
  rewrite HW in F1, F2. cbn [snd] in F1, F2. rewrite HUn in F1, F2. cbn [snd] in F1, F2.
  unfold slift in Hu. destruct (op pg3).2; [|done]. injection Hu as _ <-. split; [|done].
  eapply viewIs_ext; [exact F1|]. intros q _. cbn. by case_decide.
Qed.

Lemma insertNewPage_ok s V o op s' :
  viewIs s V -> o.1 <> shadowFH -> lastIdx o (shadowPageRecords s) = None ->
  insertNewPage dbOf shadowFH o (dbOf o.1) op s = (Ok tt, s') ->
  exists old, viewIs s' (fun q => if decide (q = o) then op old else V q) /\ sameShadow (withNewRecord s o) s'.
Proof using dbOf_inj.
  intros HV Ho Hk Hu. destruct (newRecord_viewIs s V o HV Ho) as [HV0 Hk0].
  set (n := length (shadowPageRecords s)) in *. set (s0 := withNewRecord s o) in *. pose proof HV as (Hs & HL & HVo).
  unfold insertNewPage, hasShadowPage in Hu.
  apply sbind_inv in Hu as (s00 & t & E & Hu). unfold sget in E. injection E as <- <-.
  apply sbind_inv in Hu as ([] & t & E & Hu). unfold kuAssert, sret, sthrow in E.
  case_bool_decide as Hb; [done|]. injection E as <-.
  assert (Hm : shadowPagesMap s !! o = None) by (destruct o; by apply eq_None_not_Some).
  apply sbind_inv in Hu as (j & s2 & E & Hu). rewrite (getOrCreate_new s o Hm) in E. injection E as <- <-. fold s0 in Hu.
  rewrite (so_count s Hs) in Hu. fold n in Hu.
  apply sbind_inv in Hu as ([] & s3 & HP & Hu).
  destruct (pin_ok s0 (sp (Z.of_nat n + 1)) DONT_READ_PAGE s3 (proj1 HV0) (shadowPage_pos n) HP) as (pg & d & HP3 & _).
  apply sbind_inv in Hu as (s4 & t & E & Hu). unfold sget in E. injection E as <- <-.
  apply sbind_inv in Hu as ([] & s5 & HW & Hu). apply sbind_inv in Hu as ([] & s6 & HD & HUn).
  set (old := frame s3 (sp (Z.of_nat n + 1))) in *. exists old.
  pose proof (write_ok _ _ _ _ _ (op old) HP3) as HP5. rewrite HW in HP5. cbn [snd] in HP5.
  pose proof (dirty_ok _ _ _ _ _ _ HP5 eq_refl HD) as HP6.
  destruct (unpin_ok _ _ _ _ _ HP6) as (U1 & U2 & U3 & U4 & U5 & U6); [done|].
  rewrite HUn in *. cbn [snd] in *. split; [|done].
  apply (viewIs_ext s' (fun q => if decide (q = o) then op old else if decide (q = o) then logical s (sp (Z.of_nat n + 1)) else V q)).
  - split_and!; [done|by rewrite U3|]. by eapply view_change.
  - intros q _. cbn. by case_decide.
Qed.

(** Without the map entry, the record still stands. *)
Lemma clearShadowPage_ok s V o s' :
  viewIs s V -> clearShadowPage o.1 o.2 s = (Ok tt, s') -> viewIs s' V /\ shadowPageRecords s' = shadowPageRecords s.
Proof.
  intros ([H1 H2 H3 H4 H5 H6] & HL & HV) [= <-]. split; [|done]. split_and!; [|done|done].
  split; try done. cbn. intros q i Hq. apply lookup_delete_Some in Hq as [_ Hq]. by apply H3.
Qed.

(** ** A sequence of changes *)

Inductive pageChange :=
  | Update (o : pageId) (isInsertingNewPage : bool) (updateOp : page -> page * outcome unit)
  | InsertPage (o : pageId) (insertOp : page -> page)
  | ClearVersion (o : pageId).

Definition applyChange (c : pageChange) : M state unit :=
  match c with
  | Update o ins op => updatePage dbOf shadowFH o ins (dbOf o.1) op
  | InsertPage o op => insertNewPage dbOf shadowFH o (dbOf o.1) op
  | ClearVersion o => clearShadowPage o.1 o.2
  end.
Fixpoint applyChanges (cs : list pageChange) : M state unit :=
  match cs with [] => sret tt | c :: cs => applyChange c ;;; applyChanges cs end.

(** Changes are to pages of other files, and not to a page whose version was cleared. *)
Fixpoint validChanges (cleared : gset pageId) (cs : list pageChange) : Prop :=
  match cs with
  | [] => True
  | Update o _ _ :: cs => o.1 <> shadowFH /\ o.2 <> INVALID_PAGE_IDX /\ (o ∉ cleared) /\ validChanges cleared cs
  | InsertPage o _ :: cs => o.1 <> shadowFH /\ (o ∉ cleared) /\ validChanges cleared cs
  | ClearVersion o :: cs => validChanges ({[o]} ∪ cleared) cs
  end.

(** What the changes mean for an array of pages; a new page starts with any content. *)
Inductive effects : (pageId -> page) -> list pageChange -> (pageId -> page) -> Prop :=
  | effects_nil V : effects V [] V
  | effects_update V o ins op old cs V' :
      (ins = false -> old = V o) -> effects (fun q => if decide (q = o) then (op old).1 else V q) cs V' ->
      effects V (Update o ins op :: cs) V'
  | effects_insert V o op old cs V' :
      effects (fun q => if decide (q = o) then op old else V q) cs V' -> effects V (InsertPage o op :: cs) V'
  | effects_clear V o cs V' : effects V cs V' -> effects V (ClearVersion o :: cs) V'.

(** A record without a map entry is that of a cleared page. *)
Definition clearedOK (cleared : gset pageId) (s : state) : Prop :=
  forall o, is_Some (lastIdx o (shadowPageRecords s)) -> is_Some (shadowPagesMap s !! o) \/ o ∈ cleared.

Lemma clearedOK_same cleared s s' : sameShadow s s' -> clearedOK cleared s -> clearedOK cleared s'.
Proof. intros [_ E1 E2 _] H o. rewrite E1, E2. apply H. Qed.

Lemma clearedOK_new cleared s o : clearedOK cleared s -> clearedOK cleared (withNewRecord s o).
Proof.
  intros H q. cbn. rewrite lastIdx_snoc. destruct o as [f p]. unfold recordPage; cbn. case_decide as E.
  - subst q. intros _. left. by rewrite lookup_insert_eq.
  - rewrite lookup_insert_ne by done. apply H.
Qed.

Lemma applyChange_ok c cs cleared s V s1 :
  viewIs s V -> clearedOK cleared s -> validChanges cleared (c :: cs) -> applyChange c s = (Ok tt, s1) ->
  exists V1 cleared1, viewIs s1 V1 /\ clearedOK cleared1 s1 /\ validChanges cleared1 cs /\
    (forall V', effects V1 cs V' -> effects V (c :: cs) V').
Proof using dbOf_inj.
  intros HV HC Hc Hu. destruct c as [o ins op|o op|o]; cbn in Hc, Hu.
  - destruct Hc as (Ho & Hinv & Hcl & Hcs). destruct (shadowPagesMap s !! o) as [i|] eqn:Em.
    + destruct (so_map s (proj1 HV) o i Em) as (k & Hk & Ei).
      destruct (update_again s V o i k op s1 HV Ho Hinv Em Hk Ei ins Hu) as [HV1 HS].
      eexists _, cleared. split_and!; [exact HV1|by eapply clearedOK_same|done|]. intros V' HE. by eapply effects_update.
    + assert (Hk : lastIdx o (shadowPageRecords s) = None).
      { apply eq_None_not_Some. intros H. destruct (HC o H) as [[i E]|]; [by rewrite Em in E|done]. }
      destruct (update_new s V o op s1 ins HV Ho Hinv Em Hk Hu) as (old & Hold & HV1 & HS).
      eexists _, cleared. split_and!; [exact HV1| |done|].
      * eapply clearedOK_same; [exact HS|]. by apply clearedOK_new.
      * intros V' HE. by eapply effects_update.
  - destruct Hc as (Ho & Hcl & Hcs).
    assert (Hk : lastIdx o (shadowPageRecords s) = None).
    { apply eq_None_not_Some. intros H. destruct (HC o H) as [HM|]; [|done].
      unfold insertNewPage, sbind, sget, kuAssert, hasShadowPage in Hu. destruct o as [f p]. cbn [fst snd] in Hu.
      by rewrite bool_decide_true in Hu. }
    destruct (insertNewPage_ok s V o op s1 HV Ho Hk Hu) as (old & HV1 & HS).
    eexists _, cleared. split_and!; [exact HV1| |done|].
    + eapply clearedOK_same; [exact HS|]. by apply clearedOK_new.
    + intros V' HE. by eapply effects_insert.
  - destruct (clearShadowPage_ok s V o s1 HV Hu) as [HV1 HR]. exists V, ({[o]} ∪ cleared). split_and!; [done| |done|].
    + intros q Hq. rewrite HR in Hq. destruct (HC q Hq) as [[i Hi]|]; [|set_solver].
      unfold clearShadowPage, smodify in Hu. injection Hu as <-. cbn. destruct (decide (q = o)) as [->|Hne]; [set_solver|].
      left. destruct o. cbn. rewrite lookup_delete_ne by done. by rewrite Hi.
    + intros V'. apply effects_clear.
Qed.

Lemma applyChanges_ok cs cleared s V s' :
  viewIs s V -> clearedOK cleared s -> validChanges cleared cs -> applyChanges cs s = (Ok tt, s') ->
  exists V', effects V cs V' /\ viewIs s' V'.
Proof using dbOf_inj.
  revert cleared s V. induction cs as [|c cs IH]; intros cleared s V HV HC Hcs Hu.
  - injection Hu as <-. exists V. split; [constructor|done].
  - cbn [applyChanges] in Hu. apply sbind_inv in Hu as ([] & s1 & H1 & Hu).
    destruct (applyChange_ok c cs cleared s V s1 HV HC Hcs H1) as (V1 & cl & HV1 & HC1 & Hcs1 & HE).
    destruct (IH cl s1 V1 HV1 HC1 Hcs1 Hu) as (V' & HE' & HV'). exists V'. auto.
Qed.

(** ** Flushing the shadow file *)

Definition clean (s : state) (q : pageId) : Prop := forall pg, cached s !! q <> Some (pg, true).

Lemma clean_read s q : shadowOK s -> locked s = ∅ -> clean s q -> read s q = logical s q.
Proof.
  intros Hs HL Hc. unfold logical. destruct (cached s !! q) as [[pg []]|] eqn:E; [by destruct (Hc pg)| |done].
  symmetry. apply (so_clean s Hs); [|done]. rewrite HL. set_solver.
Qed.

Lemma flushPage_ok s (q : pageId) :
  shadowOK s -> locked s = ∅ -> q.1 = shadowFH ->
  let s' := flushPageIfDirty dbOf s q in
  shadowOK s' /\ sameShadow s s' /\ locked s' = ∅ /\ (forall p, logical s' p = logical s p) /\
  clean s' q /\ (forall p, clean s p -> clean s' p).
Proof using dbOf_inj.
  intros Hs HL Hq. pose proof Hs as [H1 H2 H3 H4 H5 H6]. unfold flushPageIfDirty.
  destruct (cached s !! q) as [[pg []]|] eqn:E; cbn zeta;
    [|split_and!; [exact Hs|apply sameShadow_refl|done|done|intros x; by rewrite E|done]..].
  assert (Hr : forall p, read (setCached (<[q := (pg, false)]> (cached s)) (setFile (<[onFile dbOf q := pg]> (file s)) s)) p
    = if decide (p = q) then pg else read s p) by apply read_insert.
  split_and!.
  - split; try done.
    + cbn. intros p x. destruct (decide (p = q)) as [->|Hne]; [by rewrite lookup_insert_eq|]. rewrite lookup_insert_ne by done. apply H4.
    + intros p x Hp Hx. rewrite Hr. cbn in Hp, Hx. destruct (decide (p = q)) as [->|Hne].
      * rewrite lookup_insert_eq in Hx. by injection Hx as <-.
      * rewrite lookup_insert_ne in Hx by done. by apply H5.
    + cbn. rewrite lookup_insert_ne; [done|]. intros ->. by rewrite H6 in E.
  - split; try done. intros p Hp. rewrite Hr, decide_False; [done|]. by intros ->.
  - done.
  - intros p. unfold logical. rewrite Hr. cbn. destruct (decide (p = q)) as [->|Hne].
    + by rewrite lookup_insert_eq, E.
    + by rewrite lookup_insert_ne by done.
  - intros x. cbn. by rewrite lookup_insert_eq.
  - intros p Hp x. cbn. destruct (decide (p = q)) as [->|Hne]; [by rewrite lookup_insert_eq|]. rewrite lookup_insert_ne by done. apply Hp.
Qed.

Lemma flushPages_ok qs s :
  shadowOK s -> locked s = ∅ -> Forall (fun q => q.1 = shadowFH) qs ->
  let s' := foldl (flushPageIfDirty dbOf) s qs in
  shadowOK s' /\ sameShadow s s' /\ locked s' = ∅ /\ (forall p, logical s' p = logical s p) /\
  Forall (clean s') qs /\ (forall p, clean s p -> clean s' p).
Proof using dbOf_inj.
  revert s. induction qs as [|q qs IH]; intros s Hs HL Hqs; cbn.
  - by split_and!.
  - apply Forall_cons in Hqs as [Hq Hqs].
    destruct (flushPage_ok s q Hs HL Hq) as (A1 & A2 & A3 & A4 & A5 & A6).
    destruct (IH _ A1 A3 Hqs) as (B1 & B2 & B3 & B4 & B5 & B6). split_and!; [done|by eapply sameShadow_trans|done|..].
    + intros p. by rewrite B4, A4.
    + constructor; [|done]. by apply B6.
    + intros p Hp. by apply B6, A6.
Qed.

(** After [flushAll] the shadow file holds the view. *)
Lemma flushAll_ok s V :
  viewIs s V ->
  exists s', flushAll dbOf shadowFH headerPage s = (Ok tt, s') /\ viewIs s' V /\ sameShadow s s' /\
    forall k, (k < length (shadowPageRecords s))%nat -> read s' (sp (Z.of_nat k + 1)) = logical s' (sp (Z.of_nat k + 1)).
Proof using dbOf_inj.
  intros (Hs & HL & HV). unfold flushAll, sbind, sget, smodify, kuAssert, sret. cbn [fst snd].
  set (s1 := setFile _ s).
  assert (Hr : forall p, read s1 p = if decide (p = sp 0) then headerPage (length (shadowPageRecords s)) else read s p) by apply read_insert.
  assert (Hlog : forall o, o <> sp 0 -> logical s1 o = logical s o).
  { intros o Ho. unfold logical. by rewrite Hr, decide_False. }
  assert (Hs1 : shadowOK s1).
  { destruct Hs as [H1 H2 H3 H4 H5 H6]. split; try done. intros q pg Hq Hc. cbn in Hc. rewrite Hr, decide_False; [by apply H5|].
    intros ->. by rewrite H6 in Hc. }
  assert (HS1 : sameShadow s s1). { split; try done. intros q Hq. rewrite Hr, decide_False; [done|]. by intros ->. }
  destruct (flushPages_ok (shadowPages shadowFH s1) s1 Hs1 HL) as (B1 & B2 & B3 & B4 & B5 & B6).
  { apply Forall_fmap, Forall_true. done. }
  set (s2 := foldl _ s1 _) in *. pose proof (sameShadow_trans _ _ _ HS1 B2) as HS2.
  rewrite (ss_records _ _ HS2), (ss_count _ _ HS2), (so_count s Hs), Z.eqb_refl. exists s2. split; [done|]. split_and!; [split_and!; [done|done|]|done|].
  - intros o Ho. rewrite <- HV by done. unfold shadowView. rewrite (ss_records _ _ HS2).
    destruct (lastIdx o (shadowPageRecords s)) as [k|]; rewrite B4; apply Hlog; [apply shadowPage_pos|]. by intros ->.
  - intros k Hk. apply clean_read; [done..|]. rewrite Forall_forall in B5. apply B5.
    unfold shadowPages. apply list_elem_of_fmap. exists (Z.of_nat k + 1). split; [done|].
    apply elem_of_seqZ. rewrite (ss_count _ _ HS1), (so_count s Hs). lia.
Qed.

(** ** Replaying the records *)

Lemma replayRecord_other s i r q :
  originalFileIdx r <> shadowFH -> dbFileID r = dbOf (originalFileIdx r) -> 
  read (replayRecord dbOf shadowFH s i r) q = if decide (q = recordPage r) then read s (sp i) else read s q.
Proof using dbOf_inj. intros Hf Hid. unfold replayRecord. rewrite Hid. apply (read_insert s (recordPage r)). Qed.

Lemma replayRecord_logical s i r q :
  originalFileIdx r <> shadowFH -> dbFileID r = dbOf (originalFileIdx r) ->
  logical (replayRecord dbOf shadowFH s i r) q = if decide (q = recordPage r) then read s (sp i) else logical s q.
Proof using dbOf_inj.
  intros Hf Hid. unfold logical at 1. rewrite replayRecord_other by done. cbn. case_decide as E.
  - subst q. unfold recordPage. rewrite lookup_alter_eq. by destruct (cached s !! _).
  - unfold logical. by rewrite lookup_alter_ne by (intros <-; done).
Qed.

Lemma replayRecords_ok rs i s :
  Forall (fun r => originalFileIdx r <> shadowFH /\ dbFileID r = dbOf (originalFileIdx r)) rs ->
  let s' := replayRecords dbOf shadowFH i rs s in
  (forall q, q.1 = shadowFH -> read s' q = read s q) /\
  (forall o, o.1 <> shadowFH ->
     read s' o = match lastIdx o rs with Some k => read s (sp (i + Z.of_nat k)) | None => read s o end /\
     logical s' o = match lastIdx o rs with Some k => read s (sp (i + Z.of_nat k)) | None => logical s o end).
Proof using dbOf_inj.
  revert i s. induction rs as [|r rs IH]; intros i s Hrs; cbn [replayRecords lastIdx]; [done|].
  apply Forall_cons in Hrs as [[Hf Hid] Hrs]. destruct (IH (i + 1) (replayRecord dbOf shadowFH s i r) Hrs) as [A B].
  assert (Hsh : forall q, q.1 = shadowFH -> read (replayRecord dbOf shadowFH s i r) q = read s q).
  { intros q Hq. rewrite replayRecord_other, decide_False by (try done; intros ->; done). done. }
  split.
  - intros q Hq. by rewrite A, Hsh.
  - intros o Ho. destruct (B o Ho) as [B1 B2]. rewrite B1, B2. destruct (lastIdx o rs) as [k|].
    + rewrite Hsh by done. replace (i + 1 + Z.of_nat k) with (i + Z.of_nat (S k)) by lia. done.
    + rewrite replayRecord_other, replayRecord_logical by done. destruct (decide (recordPage r = o)) as [<-|Hne].
      * by rewrite !decide_True, Z.add_0_r.
      * by rewrite !decide_False by congruence.
Qed.

(** ** A whole checkpoint *)

(** Between checkpoints there are no shadow pages, and no database page is dirty. *)
Record ready (s : state) : Prop := {
  rd_ok : shadowOK s;
  rd_records : shadowPageRecords s = [];
  rd_locked : locked s = ∅
}.

Definition checkpoint (cs : list pageChange) : M state unit :=
  applyChanges cs ;;;
  flushAll dbOf shadowFH headerPage ;;;
  smodify (replayShadowPageRecords dbOf shadowFH) ;;;
  smodify (clearAll dbOf shadowFH).

Lemma ready_view s : ready s -> viewIs s (read s) /\ clearedOK ∅ s.
Proof.
  intros [Hs HR HL]. split; [split_and!; [done..|]|].
  - intros o Ho. unfold shadowView. rewrite HR. cbn. symmetry. apply clean_read; [done..|].
    intros pg Hc. by apply Ho, (so_dirty s Hs o pg).
  - intros o. rewrite HR. by intros [? ?].
Qed.

Lemma clearAll_file s q : q.1 <> shadowFH -> read (clearAll dbOf shadowFH s) q = read s q.
Proof using dbOf_inj.
  intros Hq. unfold readFile, clearAll. cbn. destruct (file s !! onFile dbOf q) as [pg|] eqn:E.
  - rewrite (map_lookup_filter_Some_2 _ _ _ pg); [done|done|]. cbn. by intros ?%dbOf_inj.
  - by rewrite map_lookup_filter_None_2 by (by left).
Qed.

Lemma clearAll_cached s (q : pageId) : cached (clearAll dbOf shadowFH s) !! q = if decide (q.1 = shadowFH) then None else cached s !! q.
Proof.
  unfold clearAll. cbn. case_decide as E.
  - apply map_lookup_filter_None_2. right. by intros ? ? [].
  - destruct (cached s !! q) as [x|] eqn:Eq.
    + by apply map_lookup_filter_Some_2.
    + apply map_lookup_filter_None_2. by left.
Qed.

(** Frames of the originals stay clean: the replay writes frame and file. *)
Lemma replay_clean rs i s :
  Forall (fun r => originalFileIdx r <> shadowFH /\ dbFileID r = dbOf (originalFileIdx r)) rs ->
  (forall (q : pageId) pg, q.1 <> shadowFH -> cached s !! q = Some (pg, true) -> False) ->
  forall (q : pageId) pg, q.1 <> shadowFH -> cached (replayRecords dbOf shadowFH i rs s) !! q = Some (pg, true) -> False.
Proof.
  revert i s. induction rs as [|r rs IH]; intros i s Hrs Hc; [done|]. apply Forall_cons in Hrs as [_ Hrs].
  cbn [replayRecords]. apply IH; [done|]. cbn. intros q pg Hq.
  destruct (decide ((originalFileIdx r, originalPageIdx r) = q)) as [<-|Hne].
  - rewrite lookup_alter_eq. destruct (cached s !! _) as [[x []]|] eqn:E; cbn; [|done..]. intros _. by eapply Hc.
  - rewrite lookup_alter_ne by done. by apply Hc.
Qed.
Lemma replay_locked rs i s : locked (replayRecords dbOf shadowFH i rs s) = locked s.
Proof. revert i s. induction rs as [|r rs IH]; intros i s; [done|]. cbn [replayRecords]. by rewrite IH. Qed.

(** After the replay the database files and frames show the view. *)
Lemma replay_view s V :
  viewIs s V ->
  (forall k, (k < length (shadowPageRecords s))%nat -> read s (sp (Z.of_nat k + 1)) = logical s (sp (Z.of_nat k + 1))) ->
  forall o, o.1 <> shadowFH ->
    read (replayShadowPageRecords dbOf shadowFH s) o = V o /\ logical (replayShadowPageRecords dbOf shadowFH s) o = V o.
Proof using dbOf_inj.
  intros (Hs & HL & HV) Hfl o Ho. rewrite <- HV by done.
  destruct (replayRecords_ok (shadowPageRecords s) 1 s (so_records s Hs)) as [_ HR].
  destruct (HR o Ho) as [E1 E2]. unfold replayShadowPageRecords. rewrite E1, E2. unfold shadowView.
  destruct (lastIdx o (shadowPageRecords s)) as [k|] eqn:Ek.
  - replace (1 + Z.of_nat k) with (Z.of_nat k + 1) by lia. rewrite Hfl by (by eapply lastIdx_lt). done.
  - split; [|done]. apply clean_read; [done..|]. intros pg Hc. by apply Ho, (so_dirty s Hs o pg).
Qed.

Lemma clearAll_ready s V :
  shadowOK s -> locked s = ∅ ->
  let s1 := replayShadowPageRecords dbOf shadowFH s in
  (forall o, o.1 <> shadowFH -> read s1 o = V o /\ logical s1 o = V o) ->
  ready (clearAll dbOf shadowFH s1) /\
  forall o, o.1 <> shadowFH -> read (clearAll dbOf shadowFH s1) o = V o /\ logical (clearAll dbOf shadowFH s1) o = V o.
Proof using dbOf_inj.
  intros Hs HL s1 HV.
  assert (HV' : forall o, o.1 <> shadowFH -> read (clearAll dbOf shadowFH s1) o = V o /\ logical (clearAll dbOf shadowFH s1) o = V o).
  { intros o Ho. unfold logical. rewrite clearAll_cached, clearAll_file, decide_False by done. by apply HV. }
  split; [|done]. split; [|done|].
  - split; try done.
    + intros q pg. rewrite clearAll_cached. case_decide as E; [done|]. intros Hc. exfalso.
      eapply (replay_clean (shadowPageRecords s) 1 s); [apply (so_records s Hs)| |exact E|exact Hc].
      intros p x Hp Hx. by apply Hp, (so_dirty s Hs p x).
    + intros q pg _ Hc. rewrite clearAll_cached in Hc. case_decide as E; [done|].
      destruct (HV q E) as [E1 E2]. rewrite clearAll_file, E1 by done. rewrite <- E2. unfold logical. by rewrite Hc.
    + rewrite clearAll_cached. by rewrite decide_True.
  - cbn. unfold s1, replayShadowPageRecords. by rewrite replay_locked.
Qed.

(** C6. A checkpoint applies its changes: for any choice of evictions, when it ends without an
    error, every page of the database files is what the changes, made one after the other on
    an array of pages, give; the frames of the buffer manager agree; and the shadow file is
    ready for the next checkpoint. *)
Theorem checkpoint_applies cs s s' :
  ready s -> validChanges ∅ cs -> checkpoint cs s = (Ok tt, s') ->
  ready s' /\ exists V, effects (read s) cs V /\ forall o, o.1 <> shadowFH -> read s' o = V o /\ logical s' o = V o.
Proof using dbOf_inj.
  intros Hr Hcs Hc. destruct (ready_view s Hr) as [HV HC]. unfold checkpoint in Hc.
  apply sbind_inv in Hc as ([] & s1 & H1 & Hc).
  destruct (applyChanges_ok cs ∅ s (read s) s1 HV HC Hcs H1) as (V & HE & HV1).
  apply sbind_inv in Hc as ([] & s2 & H2 & Hc).
  destruct (flushAll_ok s1 V HV1) as (t & Ef & HV2 & HS & Hfl). rewrite Ef in H2. injection H2 as <-.
  rewrite <- (ss_records _ _ HS) in Hfl. pose proof (replay_view t V HV2 Hfl) as HR.
  unfold sbind, smodify in Hc. injection Hc as <-.
  destruct (clearAll_ready t V (proj1 HV2) (proj1 (proj2 HV2)) HR) as [A B]. split; [done|]. by exists V.
Qed.

(** ** Failures *)

(** Whatever its outcome, a step leaves the database files as they were. *)
Definition calm (s : state) : Prop := forall (q : pageId) pg, cached s !! q = Some (pg, true) -> q.1 = shadowFH.
Definition keeps {A} (m : M state A) : Prop :=
  forall s, calm s -> calm (m s).2 /\ forall q, q.1 <> shadowFH -> read (m s).2 q = read s q.

Lemma keeps_ret {A} (a : A) : keeps (sret a).
Proof. done. Qed.
Lemma keeps_throw {A} e : keeps (@sthrow state A e).
Proof. done. Qed.
Lemma keeps_get : keeps sget.
Proof. done. Qed.
Lemma keeps_assert b : keeps (kuAssert b).
Proof. by destruct b. Qed.
Lemma keeps_lift {A} (x : outcome A) : keeps (slift x).
Proof. by destruct x. Qed.
Lemma keeps_bind {A B} (m : M state A) (k : A -> M state B) : keeps m -> (forall a, keeps (k a)) -> keeps (sbind m k).
Proof.
  intros Hm Hk s Hs. destruct (Hm s Hs) as [A1 A2]. unfold sbind. destruct (m s) as [[a|e] s1]; [|done].
  destruct (Hk a s1 A1) as [B1 B2]. split; [done|]. intros q Hq. by rewrite B2, A2.
Qed.
Lemma keeps_shadow f : (forall s, cached (f s) = cached s /\ file (f s) = file s) -> keeps (smodify f).
Proof.
  intros H s Hs. destruct (H s) as [E1 E2]. cbn. split.
  - intros q pg. rewrite E1. apply Hs.
  - intros q Hq. unfold readFile. by rewrite E2.
Qed.
(** Frames may change, but only the shadow file's may become dirty. *)
Lemma keeps_frames f :
  (forall s (q : pageId) pg, cached (f s) !! q = Some (pg, true) -> q.1 = shadowFH \/ exists pg', cached s !! q = Some (pg', true)) ->
  (forall s, file (f s) = file s) -> keeps (smodify f).
Proof.
  intros H1 H2 s Hs. cbn. split.
  - intros q pg Hq. destruct (H1 s q pg Hq) as [|[pg' E]]; [done|]. by eapply Hs.
  - intros q Hq. unfold readFile. by rewrite H2.
Qed.

Lemma keeps_evict s p :
  calm s -> calm (evict dbOf s p) /\ forall q, q.1 <> shadowFH -> read (evict dbOf s p) q = read s q.
Proof using dbOf_inj.
  intros Hs. unfold evict. case_decide; [done|]. destruct (cached s !! p) as [[pg d]|] eqn:E; [|done]. split.
  - intros q x. cbn. intros [_ Hq]%lookup_delete_Some. by eapply Hs.
  - intros q Hq. destruct d; [|done]. transitivity (read (setFile (<[onFile dbOf p := pg]> (file s)) s) q); [done|].
    rewrite read_insert, decide_False; [done|]. intros ->. by apply Hq, (Hs p pg).
Qed.

Lemma keeps_reserve : keeps (reserveFrame dbOf).
Proof using dbOf_inj.
  intros s Hs. unfold reserveFrame. destruct (evictions s) as [|[ps|] rest]; [done| |done]. cbn.
  enough (calm (foldl (evict dbOf) s ps) /\ forall q, q.1 <> shadowFH -> read (foldl (evict dbOf) s ps) q = read s q) by done.
  revert s Hs. induction ps as [|p ps IH]; intros s Hs; [done|]. cbn.
  destruct (keeps_evict s p Hs) as [A1 A2]. destruct (IH _ A1) as [B1 B2]. split; [done|]. intros q Hq. by rewrite B2, A2.
Qed.

Lemma keeps_pin (p : pageId) policy : keeps (pinPage dbOf p policy).
Proof using dbOf_inj.
  unfold pinPage. apply keeps_bind; [done|]. intros s. case_decide; [done|]. apply keeps_bind; [by apply keeps_shadow|]. intros _.
  destruct (cached s !! p); [done|]. apply keeps_bind; [apply keeps_reserve|]. intros [].
  - apply keeps_frames; [|done]. intros t q pg. cbn. destruct (decide (q = p)) as [->|Hne].
    + by rewrite lookup_insert_eq.
    + rewrite lookup_insert_ne by done. eauto.
  - apply keeps_bind; [by apply keeps_shadow|done].
Qed.

Lemma keeps_unpin (p : pageId) : keeps (unpinPage p).
Proof.
  apply keeps_frames; intros s; [|by destruct (cached s !! p) as [?|]]. intros q pg. cbn.
  destruct (cached s !! p) as [x|] eqn:E; cbn; [eauto|]. destruct (decide (q = p)) as [->|Hne].
  - by rewrite lookup_insert_eq.
  - rewrite lookup_insert_ne by done. eauto.
Qed.

Lemma keeps_write (p : pageId) pg : keeps (writeFrame p pg).
Proof.
  apply keeps_frames; [|done]. intros s q x. cbn. destruct (decide (q = p)) as [->|Hne].
  - rewrite lookup_alter_eq. destruct (cached s !! p) as [[y d]|]; cbn; [|done]. intros [= -> ->]. eauto.
  - rewrite lookup_alter_ne by done. eauto.
Qed.

Lemma keeps_dirty i : keeps (setLockedPageDirty (sp i)).
Proof.
  unfold setLockedPageDirty. apply keeps_bind; [done|]. intros s. apply keeps_bind; [apply keeps_assert|]. intros _.
  apply keeps_frames; [|done]. intros t q pg. cbn. destruct (decide (q = sp i)) as [->|Hne]; [by left|].
  rewrite lookup_alter_ne by done. eauto.
Qed.

Ltac keeping := repeat (intros; first
  [ simple apply keeps_bind | simple apply keeps_ret | simple apply keeps_throw | simple apply keeps_get
  | simple apply keeps_assert | simple apply keeps_lift | simple apply keeps_pin | simple apply keeps_unpin
  | simple apply keeps_write | simple apply keeps_dirty | case_match ]).

Lemma keeps_read (p : pageId) : keeps (optimisticReadPage dbOf p).
Proof using dbOf_inj. unfold optimisticReadPage. keeping. Qed.

Lemma keeps_getOrCreate id f p : keeps (getOrCreateShadowPage id f p).
Proof. unfold getOrCreateShadowPage. keeping. Qed.

Lemma keeps_change c : keeps (applyChange c).
Proof using dbOf_inj.
  destruct c as [o ins op|o op|o]; cbn; [..|by apply keeps_shadow].
  - unfold updatePage, createShadowVersionIfNecessaryAndPinPage, unpinShadowPage.
    keeping; first [apply keeps_getOrCreate | apply keeps_read].
  - unfold insertNewPage. keeping. apply keeps_getOrCreate.
Qed.

Lemma keeps_changes cs : keeps (applyChanges cs).
Proof using dbOf_inj. induction cs as [|c cs IH]; cbn; [done|]. apply keeps_bind; [apply keeps_change|done]. Qed.

Lemma keeps_flushPages (qs : list pageId) s :
  calm s -> Forall (fun q => q.1 = shadowFH) qs ->
  calm (foldl (flushPageIfDirty dbOf) s qs) /\ forall q, q.1 <> shadowFH -> read (foldl (flushPageIfDirty dbOf) s qs) q = read s q.
Proof using dbOf_inj.
  revert s. induction qs as [|p qs IH]; intros s Hs Hqs; [done|]. apply Forall_cons in Hqs as [Hp Hqs]. cbn.
  enough (H : calm (flushPageIfDirty dbOf s p) /\ forall q, q.1 <> shadowFH -> read (flushPageIfDirty dbOf s p) q = read s q).
  { destruct H as [A1 A2]. destruct (IH _ A1 Hqs) as [B1 B2]. split; [done|]. intros q Hq. by rewrite B2, A2. }
  unfold flushPageIfDirty. destruct (cached s !! p) as [[pg []]|] eqn:E; [|done..]. split.
  - intros q x. cbn. destruct (decide (q = p)) as [->|Hne]; [by rewrite lookup_insert_eq|]. rewrite lookup_insert_ne by done. apply Hs.
  - intros q Hq. transitivity (read (setFile (<[onFile dbOf p := pg]> (file s)) s) q); [done|].
    rewrite read_insert, decide_False; [done|]. by intros ->.
Qed.

Lemma keeps_flushAll : keeps (flushAll dbOf shadowFH headerPage).
Proof using dbOf_inj.
  intros s Hs. unfold flushAll. unfold sbind at 1 2, sget at 1, smodify at 1. set (s1 := setFile _ s).
  assert (Hr : forall q, q.1 <> shadowFH -> read s1 q = read s q).
  { intros q Hq. unfold s1. rewrite read_insert, decide_False; [done|]. by intros ->. }
  assert (K : keeps (smodify (fun s => foldl (flushPageIfDirty dbOf) s (shadowPages shadowFH s)) ;;;
    s <- sget ;; kuAssert (Z.of_nat (length (shadowPageRecords s)) + 1 =? numShadowPages s))).
  { apply keeps_bind; [|intros _; apply keeps_bind; [done|intros t; apply keeps_assert]].
    intros t Ht. cbn. apply keeps_flushPages; [done|]. apply Forall_fmap, Forall_true. done. }
  destruct (K s1 Hs) as [A B]. split; [done|]. intros q Hq. rewrite <- Hr by done. by apply B.
Qed.

Lemma lastIdx_last o rs :
  match lastIdx o rs with
  | Some k => exists r, rs !! k = Some r /\ recordPage r = o /\ forall k' r', (k < k')%nat -> rs !! k' = Some r' -> recordPage r' <> o
  | None => forall r, r ∈ rs -> recordPage r <> o
  end.
Proof.
  induction rs as [|r rs IH]; cbn [lastIdx]; [intros r []%elem_of_nil|]. destruct (lastIdx o rs) as [k|].
  - destruct IH as (r' & Hk & Hp & Hl). exists r'. split_and!; try done. intros [|k'] x Hlt; [lia|]. apply Hl. lia.
  - case_decide as Hp.
    + exists r. split_and!; try done. intros [|k'] x Hlt Hx; [lia|]. by apply IH, (list_elem_of_lookup_2 _ k').
    + intros x [->|Hx]%elem_of_cons; [done|by apply IH].
Qed.

(** C16. A checkpoint that fails before its replay changes nothing, and a replay that is cut off
    mixes no page.  Until the replay begins, however the changes and the flush end, the database
    files are those before the checkpoint.  If the process dies after any number of records of the
    replay, every page of the database files is what it was before the checkpoint if none of its
    records was replayed, and otherwise the whole shadow page of the last one that was; the shadow
    file still has all shadow pages.  (The code has no way to go on with such a replay after a restart.) *)
Theorem checkpoint_crash_safe cs s s' r :
  ready s -> (applyChanges cs ;;; flushAll dbOf shadowFH headerPage) s = (r, s') ->
  (forall o, o.1 <> shadowFH -> read s' o = read s o) /\
  (validChanges ∅ cs -> r = Ok tt ->
   forall j, let rs := shadowPageRecords s' in
     let cut := replayRecords dbOf shadowFH 1 (take j rs) s' in
     (forall q, q.1 = shadowFH -> read cut q = read s' q) /\
     forall o, o.1 <> shadowFH ->
       (forall r, r ∈ take j rs -> recordPage r <> o) /\ read cut o = read s o \/
       exists k r, (k < j)%nat /\ rs !! k = Some r /\ recordPage r = o /\
         (forall k' r', (k < k' < j)%nat -> rs !! k' = Some r' -> recordPage r' <> o) /\ read cut o = read s' (sp (1 + Z.of_nat k))).
Proof using dbOf_inj.
  intros Hr E. assert (Hkeep : forall o, o.1 <> shadowFH -> read s' o = read s o).
  { assert (K : keeps (applyChanges cs ;;; flushAll dbOf shadowFH headerPage)).
    { apply keeps_bind; [apply keeps_changes|]. intros _. apply keeps_flushAll. }
    destruct (K s (so_dirty s (rd_ok s Hr))) as [_ H]. by rewrite E in H. }
  split; [done|]. intros Hcs ->. destruct (ready_view s Hr) as [HV HC].
  apply sbind_inv in E as ([] & s1 & H1 & H2).
  destruct (applyChanges_ok cs ∅ s (read s) s1 HV HC Hcs H1) as (V & _ & HV1).
  destruct (flushAll_ok s1 V HV1) as (t & Ef & HV2 & _ & _). rewrite Ef in H2. injection H2 as <-.
  intros j rs cut. pose proof (so_records t (proj1 HV2)) as Hrs. fold rs in Hrs.
  destruct (replayRecords_ok (take j rs) 1 t) as [A1 A2]; [by apply Forall_take|]. split; [exact A1|].
  intros o Ho. destruct (A2 o Ho) as [E1 _]. pose proof (lastIdx_last o (take j rs)) as Hl. destruct (lastIdx o (take j rs)) as [k|].
  - right. destruct Hl as (r & Hk & Hp & Hlast). apply lookup_take_Some in Hk as [Hk Hkj]. exists k, r. split_and!; try done.
    intros k' r' [Hk1 Hk2] Hr'. apply (Hlast k' r'); [done|]. apply lookup_take_Some. done.
  - left. split; [done|]. unfold cut. by rewrite E1, Hkeep.
Qed.

(** Evicting pages moves no lock and no shadow page. *)
Lemma reserve_locks s : 
  locked (reserveFrame dbOf s).2 = locked s /\ shadowPagesMap (reserveFrame dbOf s).2 = shadowPagesMap s.
Proof using Type.
  unfold reserveFrame. destruct (evictions s) as [|[ps|] rest]; [done| |done]. cbn.
  revert s. induction ps as [|q ps IH]; intros s; [done|]. cbn. destruct (IH (evict dbOf s q)) as [-> ->].
  unfold evict. case_decide; [done|]. by destruct (cached s !! q) as [[? []]|].
Qed.

Lemma pin_locks q policy s s' :
  pinPage dbOf q policy s = (Ok tt, s') -> q ∈ locked s' /\ shadowPagesMap s' = shadowPagesMap s.
Proof using shadowFH.
  unfold pinPage, sbind, sget, smodify, sthrow, sret; cbn. case_decide; [intros; discriminate|]. destruct (cached s !! q).
  - intros [= <-]. cbn. clear dbOf_inj. set_solver.
  - destruct (reserve_locks (setLocked ({[q]} ∪ locked s) s)) as [E1 E2].
    destruct (reserveFrame dbOf _) as [[[]|] s2]; [|intros; discriminate..]. intros [= <-]. cbn in *. rewrite E1, E2. clear dbOf_inj. set_solver.
Qed.

(** [readShadowVersionOfPage] unpins the wrong page: the shadow page stays locked, unless it
    happens to have the number of the original, and the next update of the page blocks. *)
Theorem shadow_read_stays_locked s p i pg s' :
  shadowPagesMap s !! p = Some i -> i <> p.2 ->
  readShadowVersionOfPage dbOf shadowFH p s = (Ok pg, s') ->
  sp i ∈ locked s' /\ forall ins op, (updatePage dbOf shadowFH p ins (dbOf p.1) op s').1 = Err Blocked.
Proof using Type.
  intros Hm Hi Hu. unfold readShadowVersionOfPage in Hu. destruct p as [f n]. cbn [fst snd] in *.
  apply sbind_inv in Hu as (s0 & t & E & Hu). unfold sget in E. injection E as <- <-.
  apply sbind_inv in Hu as ([] & t & E & Hu). assert (t = s) as -> by (unfold kuAssert, sret, sthrow in E; case_match; by simplify_eq).
  clear E. apply sbind_inv in Hu as (j & t & E & Hu). unfold getShadowPage, sbind, sget in E. rewrite Hm in E. injection E as <- <-.
  apply sbind_inv in Hu as ([] & s1 & HP & Hu). destruct (pin_locks _ _ _ _ HP) as [HL1 HM1].
  apply sbind_inv in Hu as (s2 & t & E & Hu). unfold sget in E. injection E as <- <-.
  apply sbind_inv in Hu as ([] & s3 & HUn & E). unfold sret in E. injection E as _ <-.
  assert (Hend : sp i ∈ locked s3 /\ shadowPagesMap s3 !! (f, n) = Some i).
  { unfold unpinShadowPage in HUn. case_match; injection HUn as <-; [by rewrite HM1|].
    destruct (cached s1 !! sp n); cbn; rewrite HM1; (split; [|done]); apply elem_of_difference; (split; [done|]);
      intros E%elem_of_singleton; by apply Hi, sp_inj. }
  destruct Hend as [HL HM]. split; [done|]. intros ins op.
  unfold updatePage, createShadowVersionIfNecessaryAndPinPage, hasShadowPage, getOrCreateShadowPage, sbind, sget. cbn [fst snd].
  rewrite bool_decide_true by (by rewrite HM). rewrite HM. unfold pinPage, sret, sbind, sget. by rewrite decide_True.
Qed.
End Checkpoint.

(** ** An example: two database pages, one of them new; the shadow file is file 9 *)

Definition exPage (x : Z) : page := {[ 0%nat := x ]}.
Definition exState : state :=
  mkState ∅ {[ (0, 5) := exPage 7; (0, 8) := exPage 3 ]} ∅ [Some []; Some [(9, 1); (0, 5)]; Some [(9, 1)]] 1 ∅ [].
Definition exChanges : list pageChange :=
  [ Update (0, 5) false (fun pg => (<[1%nat := 1]> pg, Ok tt));
    InsertPage (0, 6) (fun pg => <[0%nat := 2]> pg);
    Update (0, 5) false (fun pg => (<[2%nat := 4]> pg, Ok tt)) ].
Definition exDb (f : Z) : DBFileID := f.
Definition exHeader (n : nat) : page := exPage (Z.of_nat n).

Lemma exState_ready : ready exDb 9 exState.
Proof. split; [|done|done]. by split. Qed.

Lemma exDb_inj f g : exDb f = exDb g -> f = g.
Proof. done. Qed.

Lemma exChanges_valid : validChanges 9 ∅ exChanges.
Proof. cbn. repeat split; try done; set_solver. Qed.

Definition okOutcome {A} (x : outcome A) : bool := match x with Ok _ => true | Err _ => false end.

Lemma checkpoint_applies_witness :
  exists s', checkpoint exDb 9 exHeader exChanges exState = (Ok tt, s') /\ ready exDb 9 s'.
Proof.
  destruct (checkpoint exDb 9 exHeader exChanges exState) as [r s'] eqn:E.
  assert (Hr : okOutcome (checkpoint exDb 9 exHeader exChanges exState).1 = true) by (vm_compute; reflexivity).
  rewrite E in Hr. destruct r as [[]|]; [|discriminate Hr]. exists s'. split; [reflexivity|].
  exact (proj1 (checkpoint_applies exDb 9 exHeader exDb_inj exChanges exState s' exState_ready exChanges_valid E)).
Defined.

Lemma checkpoint_crash_safe_witness :
  exists s', (applyChanges exDb 9 exChanges ;;; flushAll exDb 9 exHeader) exState = (Ok tt, s') /\
    readFile exDb s' (0, 5) = exPage 7.
Proof.
  destruct ((applyChanges exDb 9 exChanges ;;; flushAll exDb 9 exHeader) exState) as [r s'] eqn:E.
  assert (Hr : okOutcome ((applyChanges exDb 9 exChanges ;;; flushAll exDb 9 exHeader) exState).1 = true) by (vm_compute; reflexivity).
  rewrite E in Hr. destruct r as [[]|]; [|discriminate Hr]. exists s'. split; [reflexivity|].
  rewrite (proj1 (checkpoint_crash_safe exDb 9 exHeader exDb_inj exChanges exState s' (Ok tt) exState_ready E) (0, 5)); [reflexivity|done].
Defined.

(** The pages after the checkpoint. *)
Example exCheckpoint_pages :
  let s' := (checkpoint exDb 9 exHeader exChanges exState).2 in
  map_to_list (readFile exDb s' (0, 5)) ≡ₚ [(0%nat, 7); (1%nat, 1); (2%nat, 4)] /\
  map_to_list (readFile exDb s' (0, 6)) = [(0%nat, 2)] /\ map_to_list (readFile exDb s' (0, 8)) = [(0%nat, 3)].
Proof. vm_compute. split_and!; [|reflexivity..]. solve_Permutation. Qed.

Definition exRead : outcome page * state :=
  (updatePage exDb 9 (0, 5) false (exDb 0) (fun pg => (pg, Ok tt)) ;;; readShadowVersionOfPage exDb 9 (0, 5)) exState.

Lemma shadow_read_stays_locked_witness : exists s pg s',
  readShadowVersionOfPage exDb 9 (0, 5) s = (Ok pg, s') /\ (9, 1) ∈ locked s'.
Proof.
  destruct (updatePage exDb 9 (0, 5) false (exDb 0) (fun pg => (pg, Ok tt)) exState) as [r s] eqn:E.
  exists s. destruct (readShadowVersionOfPage exDb 9 (0, 5) s) as [[pg|e] s'] eqn:E2.
  - exists pg, s'. split; [reflexivity|].
    refine (proj1 (shadow_read_stays_locked exDb 9 s (0, 5) 1 pg s' _ _ E2)); [|done].
    replace s with (updatePage exDb 9 (0, 5) false (exDb 0) (fun pg => (pg, Ok tt)) exState).2 by (by rewrite E).
    vm_compute. reflexivity.
  - exfalso. assert (H : okOutcome exRead.1 = true) by (vm_compute; reflexivity).
    unfold exRead, sbind in H. rewrite E in H. destruct r; [|discriminate H]. rewrite E2 in H. discriminate H.
Defined.
