(* ===== verification/Bitpacking.v ===== *)
(** * Packed fields of bits (src/storage/compression/bitpacking_utils.cpp, bitpacking_int128.cpp)

    A page of compressed integers is a sequence of fields of [bitWidth] bits.  The code reads and
    writes it through pointers to words of different sizes.  Here a buffer is the number whose
    bytes, the lowest first, the buffer holds, so that a word of any size is a range of its bits,
    as on a little-endian machine.

    [packSingle] and [unpackSingle] write and read one field word by word; the packing of
    32 fields at once comes from the fastpfor library for integers of up to 64 bits, whose
    contract is the class [ChunkPacker], and from [Int128Packer] for 128 bits, which is shown to
    keep it. *)

From S2P Require Import Prelude.
From stdpp Require Import base list numbers.
Local Open Scope Z_scope.

(** ** Ranges of bits *)

Definition getField (m off w : Z) : Z := Z.land (Z.shiftr m off) (Z.ones w).
Definition setField (m off w v : Z) : Z :=
  Z.lor (Z.ldiff m (Z.shiftl (Z.ones w) off)) (Z.shiftl (Z.land v (Z.ones w)) off).

Lemma testbit_ones w i : 0 <= w -> 0 <= i -> Z.testbit (Z.ones w) i = (i <? w).
Proof.
  intros Hw Hi. destruct (Z.ltb_spec i w); [by apply Z.ones_spec_low|]. by apply Z.ones_spec_high.
Qed.

Lemma testbit_getField m off w i :
  0 <= off -> 0 <= w -> 0 <= i -> Z.testbit (getField m off w) i = Z.testbit m (off + i) && (i <? w).
Proof.
  intros. unfold getField. rewrite Z.land_spec, Z.shiftr_spec, testbit_ones by lia. by rewrite Z.add_comm.
Qed.

Lemma testbit_shiftl x k i : 0 <= k -> 0 <= i -> Z.testbit (Z.shiftl x k) i = (k <=? i) && Z.testbit x (i - k).
Proof.
  intros. rewrite Z.shiftl_spec by lia. destruct (Z.leb_spec k i); [done|]. by rewrite Z.testbit_neg_r by lia.
Qed.

Lemma testbit_setField m off w v i :
  0 <= off -> 0 <= w -> 0 <= i ->
  Z.testbit (setField m off w v) i = if (off <=? i) && (i <? off + w) then Z.testbit v (i - off) else Z.testbit m i.
Proof.
  intros. unfold setField. rewrite Z.lor_spec, Z.ldiff_spec, !testbit_shiftl by lia.
  destruct (Z.leb_spec off i); cbn [andb].
  - rewrite Z.land_spec, testbit_ones by lia. destruct (Z.ltb_spec i (off + w)), (Z.ltb_spec (i - off) w); try lia;
      by destruct (Z.testbit m i), (Z.testbit v (i - off)).
  - by destruct (Z.testbit m i).
Qed.

Lemma getField_range m off w : 0 <= w -> inU w (getField m off w).
Proof. intros Hw. unfold getField. rewrite Z.land_ones by done. apply Z.mod_pos_bound. lia. Qed.

Lemma getField_same m off w v : 0 <= off -> 0 <= w -> getField (setField m off w v) off w = wrapU w v.
Proof.
  intros Ho Hw. unfold wrapU. rewrite <- Z.land_ones by done. apply Z.bits_inj'. intros i Hi.
  rewrite testbit_getField, testbit_setField, Z.land_spec, testbit_ones by lia.
  destruct (Z.ltb_spec i w); rewrite ?andb_false_r, ?andb_true_r; [|done].
  rewrite (proj2 (Z.leb_le off (off + i))), (proj2 (Z.ltb_lt (off + i) (off + w))) by lia.
  cbn [andb]. f_equal. lia.
Qed.

Lemma getField_other m off w v off' w' :
  0 <= off -> 0 <= w -> 0 <= off' -> 0 <= w' -> off' + w' <= off \/ off + w <= off' ->
  getField (setField m off w v) off' w' = getField m off' w'.
Proof.
  intros Ho Hw Ho' Hw' Hd. apply Z.bits_inj'. intros i Hi. rewrite !testbit_getField, testbit_setField by lia.
  destruct (Z.ltb_spec i w'); rewrite ?andb_false_r, ?andb_true_r; [|done].
  destruct (Z.leb_spec off (off' + i)), (Z.ltb_spec (off' + i) (off + w)); cbn [andb]; try done. lia.
Qed.

Lemma setField_nonneg m off w v : 0 <= m -> 0 <= off -> 0 <= w -> 0 <= setField m off w v.
Proof.
  intros Hm Ho Hw. unfold setField. apply Z.lor_nonneg. split.
  - apply Z.ldiff_nonneg. by left.
  - apply Z.shiftl_nonneg, Z.land_nonneg. right. rewrite Z.ones_equiv. pose proof (Z.pow_pos_nonneg 2 w). lia.
Qed.

Lemma testbit_wrapU w x i : 0 <= w -> 0 <= i -> Z.testbit (wrapU w x) i = (i <? w) && Z.testbit x i.
Proof.
  intros Hw Hi. unfold wrapU. destruct (Z.ltb_spec i w); cbn [andb].
  - by apply Z.mod_pow2_bits_low.
  - apply Z.mod_pow2_bits_high. lia.
Qed.

Section Packing.
(** [c] is the bits of [CompressedType], [n] those of [UncompressedType]; the pointer to the
    fields points to the bit [start] of the buffer. *)
Context (c n start : Z).

Definition loadWord (m k : Z) : Z := getField m (start + c * k) c.
Definition storeWord (m k x : Z) : Z := setField m (start + c * k) c x.

Definition all1sMask (numBits : Z) : Z :=
  if n =? 128 then
    let numBitsToDiscard := wrapU 64 (127 - numBits) in
    if numBitsToDiscard <? 128 then Z.shiftr (2 ^ 127 - 1) numBitsToDiscard else 0
  else if numBits =? n then 2 ^ n - 1 else wrapU n (2 ^ numBits - 1).

(** ** Reading *)

Fixpoint unpackSingleField (field : nat) (m k shiftRight : Z) : Z :=
  match field with
  | O => Z.shiftr (loadWord m k) shiftRight
  | S field' =>
      let out := unpackSingleField field' m k shiftRight in
      let f := Z.of_nat field in
      wrapU n (Z.lor out (Z.shiftl (loadWord m (k + f)) (f * c - shiftRight)))
  end.

(** How many words after the first one a field reaches. *)
Definition lastField (bits : Z) : nat :=
  if bits <=? c then 0
  else if (c <? bits) && (bits <=? 2 * c) then 1
  else if (2 * c <? bits) && (bits <=? 3 * c) then 2
  else if (3 * c <? bits) && (bits <=? 4 * c) then 3
  else 4.

Definition unpackSingleValueInPlace (m k delta shiftRight : Z) : Z :=
  Z.land (unpackSingleField (lastField (delta + shiftRight)) m k shiftRight) (all1sMask delta).

Definition unpackSingle (m bitWidth srcOffset : Z) : Z :=
  unpackSingleValueInPlace m (srcOffset * bitWidth / c) bitWidth (srcOffset * bitWidth mod c).

(** ** Writing *)

Definition setValueForBitsMatchingMask (right : bool) (out unshiftedValue unshiftedMask shift : Z) : Z :=
  let valueToSet := if right then wrapU c (Z.shiftr (Z.land unshiftedValue unshiftedMask) shift)
                    else wrapU c (wrapU n (Z.shiftl (Z.land unshiftedValue unshiftedMask) shift)) in
  let mask := if right then wrapU c (Z.shiftr unshiftedMask shift)
              else wrapU c (wrapU n (Z.shiftl unshiftedMask shift)) in
  let bitsToSet := Z.land valueToSet mask in
  let bitsToClear := Z.lor (wrapU c (Z.lnot mask)) valueToSet in
  Z.land (Z.lor out bitsToSet) bitsToClear.

Fixpoint packSingleField (field : nat) (v m k shiftLeft mask : Z) : Z :=
  match field with
  | O => storeWord m k (setValueForBitsMatchingMask false (loadWord m k) v mask shiftLeft)
  | S field' =>
      let m := packSingleField field' v m k shiftLeft mask in
      let f := Z.of_nat field in
      storeWord m (k + f) (setValueForBitsMatchingMask true (loadWord m (k + f)) v mask (f * c - shiftLeft))
  end.

Definition packSingleImpl (v m k delta shiftLeft mask : Z) : Z :=
  packSingleField (lastField (delta + shiftLeft)) v m k shiftLeft mask.

Definition packSingle (v m bitWidth dstOffset : Z) : Z :=
  packSingleImpl v m (dstOffset * bitWidth / c) bitWidth (dstOffset * bitWidth mod c) (all1sMask bitWidth).

(** Fields one after the other, from number [i] on. *)
Fixpoint packEach (vs : list Z) (width i m : Z) : Z :=
  match vs with
  | [] => m
  | v :: vs => packEach vs width (i + 1) (packSingle v m width i)
  end.
Fixpoint unpackEach (count : nat) (width i m : Z) : list Z :=
  match count with
  | O => []
  | S count => unpackSingle m width i :: unpackEach count width (i + 1) m
  end.

(** ** Both are the range of bits *)

Context (Hc : 0 < c) (Hcn : c <= n) (Hn4 : n <= 4 * c) (Hst : 0 <= start).

Lemma lastField_covers bits : bits <= 5 * c -> bits <= (Z.of_nat (lastField bits) + 1) * c.
Proof using Hc Hcn Hn4 Hst.
  intros Hb. unfold lastField.
  destruct (Z.leb_spec bits c); [lia|]. destruct (Z.leb_spec bits (2 * c)), (Z.ltb_spec c bits); cbn [andb]; try lia.
  destruct (Z.leb_spec bits (3 * c)), (Z.ltb_spec (2 * c) bits); cbn [andb]; try lia.
  destruct (Z.leb_spec bits (4 * c)), (Z.ltb_spec (3 * c) bits); cbn [andb]; lia.
Qed.

(** Widths below the size of the type. *)
Definition widthOK (w : Z) : Prop := 0 <= w /\ (if n =? 128 then w < n else w <= n).

Lemma all1sMask_ones w : widthOK w -> all1sMask w = Z.ones w.
Proof using Hc Hcn Hn4 Hst.
  unfold widthOK, all1sMask. destruct (Z.eqb_spec n 128) as [->|Hn]; intros [Hw0 Hw].
  - rewrite wrapU_id by (unfold inU; lia). rewrite (proj2 (Z.ltb_lt _ _)) by lia.
    rewrite Z.shiftr_div_pow2, Z.ones_equiv by lia. replace (2 ^ 127) with (2 ^ w * 2 ^ (127 - w)) by (rewrite <- Z.pow_add_r by lia; f_equal; lia).
    pose proof (Z.pow_pos_nonneg 2 w). pose proof (Z.pow_pos_nonneg 2 (127 - w)).
    symmetry. apply (Z.div_unique_pos _ _ _ (2 ^ (127 - w) - 1)); nia.
  - rewrite Z.ones_equiv. destruct (Z.eqb_spec w n) as [->|]; [lia|].
    pose proof (Z.pow_pos_nonneg 2 w). pose proof (Z.pow_le_mono_r 2 w n). apply wrapU_id. unfold inU. lia.
Qed.

Lemma testbit_unpackField field m k shift i :
  0 <= k -> 0 <= shift < c -> 0 <= i < n ->
  Z.testbit (unpackSingleField field m k shift) i =
  Z.testbit m (start + c * k + shift + i) && (i <? (Z.of_nat field + 1) * c - shift).
Proof using Hc Hcn Hn4 Hst.
  intros Hk Hs Hi. revert i Hi. induction field as [|field IH]; intros i Hi; cbn [unpackSingleField].
  - unfold loadWord. rewrite Z.shiftr_spec, testbit_getField by nia. f_equal; [f_equal; lia|].
    destruct (Z.ltb_spec (i + shift) c), (Z.ltb_spec i ((Z.of_nat 0 + 1) * c - shift)); lia.
  - cbv zeta. rewrite testbit_wrapU, (proj2 (Z.ltb_lt i n)), Z.lor_spec, IH by lia. cbn [andb].
    set (f := Z.of_nat (S field)). replace (Z.of_nat field + 1) with f by lia.
    rewrite testbit_shiftl by nia. unfold loadWord. destruct (Z.leb_spec (f * c - shift) i).
    + rewrite testbit_getField by nia. rewrite (proj2 (Z.ltb_ge i (f * c - shift))) by lia. rewrite andb_false_r. cbn [andb orb].
      f_equal; [f_equal; nia|]. destruct (Z.ltb_spec (i - (f * c - shift)) c), (Z.ltb_spec i ((f + 1) * c - shift)); nia.
    + rewrite (proj2 (Z.ltb_lt i (f * c - shift))), (proj2 (Z.ltb_lt i ((f + 1) * c - shift))) by nia.
      cbn [andb]. by rewrite orb_false_r.
Qed.

Lemma unpackSingle_field m w pos : 0 <= pos -> widthOK w -> unpackSingle m w pos = getField m (start + pos * w) w.
Proof using Hc Hcn Hn4 Hst.
  intros Hp Hw. unfold unpackSingle, unpackSingleValueInPlace. rewrite all1sMask_ones by done.
  assert (Hw' : 0 <= w <= n) by (unfold widthOK in Hw; destruct (n =? 128); lia).
  pose proof (Z.div_mod (pos * w) c ltac:(lia)) as E. pose proof (Z.mod_pos_bound (pos * w) c Hc) as Hs.
  set (k := pos * w / c) in *. set (s := pos * w mod c) in *.
  assert (Hk : 0 <= k) by (apply Z.div_pos; nia). pose proof (lastField_covers (w + s) ltac:(lia)) as Hl.
  apply Z.bits_inj'. intros i Hi. rewrite Z.land_spec, testbit_ones, testbit_getField by lia.
  destruct (Z.ltb_spec i w); rewrite ?andb_true_r, ?andb_false_r; [|done].
  rewrite testbit_unpackField, (proj2 (Z.ltb_lt i _)) by lia. rewrite andb_true_r. f_equal. lia.
Qed.

Lemma testbit_setMasked (right : bool) out v mask shift i :
  0 <= shift -> 0 <= i < c ->
  let p := if right then i + shift else i - shift in
  Z.testbit (setValueForBitsMatchingMask right out v mask shift) i =
  if Z.testbit mask p then Z.testbit v p else Z.testbit out i.
Proof using Hc Hcn Hn4 Hst.
  intros Hs Hi p. unfold setValueForBitsMatchingMask. cbv zeta.
  assert (Hb : forall x, Z.testbit (if right then wrapU c (Z.shiftr x shift) else wrapU c (wrapU n (Z.shiftl x shift))) i = Z.testbit x p).
  { intros x. unfold p. destruct right; rewrite !testbit_wrapU by lia; rewrite (proj2 (Z.ltb_lt i c)) by lia; cbn [andb].
    - apply Z.shiftr_spec. lia.
    - rewrite (proj2 (Z.ltb_lt i n)) by lia. cbn [andb]. apply Z.shiftl_spec. lia. }
  rewrite Z.land_spec, !Z.lor_spec, Z.land_spec, testbit_wrapU, Z.lnot_spec, !Hb by lia.
  rewrite (proj2 (Z.ltb_lt i c)) by lia. rewrite !Z.land_spec. cbn [andb].
  by destruct (Z.testbit mask p), (Z.testbit v p), (Z.testbit out i).
Qed.

Lemma testbit_packField field v m k shift w i :
  0 <= k -> 0 <= shift < c -> 0 <= w -> 0 <= i ->
  let base := start + c * k + shift in
  Z.testbit (packSingleField field v m k shift (Z.ones w)) i =
  if (start + c * k <=? i) && (i <? start + c * (k + Z.of_nat field + 1)) && ((base <=? i) && (i <? base + w))
  then Z.testbit v (i - base) else Z.testbit m i.
Proof using Hc Hcn Hn4 Hst.
  intros Hk Hs Hw Hi base. induction field as [|field IH]; cbn [packSingleField]; cbv zeta.
  - unfold storeWord, loadWord. rewrite testbit_setField by nia.
    replace (start + c * k + c) with (start + c * (k + Z.of_nat 0 + 1)) by lia.
    destruct ((start + c * k <=? i) && (i <? start + c * (k + Z.of_nat 0 + 1))) eqn:E; cbn [andb]; [|done].
    apply andb_true_iff in E as [E1%Z.leb_le E2%Z.ltb_lt]. rewrite testbit_setMasked by lia.
    rewrite testbit_getField by lia. rewrite (proj2 (Z.ltb_lt (i - (start + c * k)) c)), andb_true_r by lia.
    replace (start + c * k + (i - (start + c * k))) with i by lia. replace (i - (start + c * k) - shift) with (i - base) by lia.
    destruct (Z.leb_spec base i).
    + rewrite testbit_ones by lia. destruct (Z.ltb_spec (i - base) w), (Z.ltb_spec i (base + w)); cbn [andb]; try lia; done.
    + by rewrite Z.testbit_neg_r by lia.
  - set (f := Z.of_nat (S field)) in *. replace (k + Z.of_nat field + 1) with (k + f) in IH by lia.
    unfold storeWord at 1. rewrite testbit_setField by nia.
    replace (start + c * (k + f) + c) with (start + c * (k + f + 1)) by lia.
    destruct (Z.leb_spec (start + c * (k + f)) i); cbn [andb].
    + rewrite (proj2 (Z.leb_le (start + c * k) i)) by nia. cbn [andb].
      destruct (Z.ltb_spec i (start + c * (k + f + 1))); cbn [andb].
      * rewrite testbit_setMasked by nia. unfold loadWord. rewrite testbit_getField by nia.
        rewrite (proj2 (Z.ltb_lt (i - (start + c * (k + f))) c)), andb_true_r by lia.
        replace (start + c * (k + f) + (i - (start + c * (k + f)))) with i by lia.
        replace (i - (start + c * (k + f)) + (f * c - shift)) with (i - base) by lia. rewrite testbit_ones by nia. rewrite IH.
        rewrite (proj2 (Z.ltb_ge i (start + c * (k + f)))) by lia. rewrite andb_false_r. cbn [andb].
        rewrite (proj2 (Z.leb_le base i)) by nia. cbn [andb].
        destruct (Z.ltb_spec (i - base) w), (Z.ltb_spec i (base + w)); try lia; done.
      * rewrite IH, (proj2 (Z.ltb_ge i (start + c * (k + f)))) by lia. by rewrite andb_false_r.
    + rewrite IH, (proj2 (Z.ltb_lt i (start + c * (k + f)))), (proj2 (Z.ltb_lt i (start + c * (k + f + 1)))) by nia. done.
Qed.

Lemma packSingle_field v m w pos : 0 <= pos -> widthOK w -> packSingle v m w pos = setField m (start + pos * w) w v.
Proof using Hc Hcn Hn4 Hst.
  intros Hp Hw. unfold packSingle, packSingleImpl. rewrite all1sMask_ones by done.
  assert (Hw' : 0 <= w <= n) by (unfold widthOK in Hw; destruct (n =? 128); lia).
  pose proof (Z.div_mod (pos * w) c ltac:(lia)) as E. pose proof (Z.mod_pos_bound (pos * w) c Hc) as Hs.
  set (k := pos * w / c) in *. set (s := pos * w mod c) in *.
  assert (Hk : 0 <= k) by (apply Z.div_pos; nia). pose proof (lastField_covers (w + s) ltac:(lia)) as Hl.
  apply Z.bits_inj'. intros i Hi. rewrite testbit_packField, testbit_setField by nia.
  replace (start + c * k + s) with (start + pos * w) by lia.
  destruct ((start + pos * w <=? i) && (i <? start + pos * w + w)) eqn:Eb; [|by rewrite andb_false_r].
  apply andb_true_iff in Eb as [E1%Z.leb_le E2%Z.ltb_lt].
  rewrite (proj2 (Z.leb_le (start + c * k) i)), (proj2 (Z.ltb_lt i _)) by nia. done.
Qed.
End Packing.

(** ** Sequences of fields *)

Fixpoint setFields (m off w : Z) (vs : list Z) : Z :=
  match vs with
  | [] => m
  | v :: vs => setFields (setField m off w v) (off + w) w vs
  end.
Fixpoint getFields (m off w : Z) (count : nat) : list Z :=
  match count with
  | O => []
  | S count => getField m off w :: getFields m (off + w) w count
  end.

Lemma getField_setFields_other m off w vs off' w' :
  0 <= off -> 0 <= w -> 0 <= off' -> 0 <= w' -> off' + w' <= off \/ off + w * Z.of_nat (length vs) <= off' ->
  getField (setFields m off w vs) off' w' = getField m off' w'.
Proof.
  intros Ho Hw Ho' Hw'. revert m off Ho. induction vs as [|v vs IH]; intros m off Ho Hd; cbn [setFields length] in *; [done|].
  rewrite IH by lia. apply getField_other; lia.
Qed.

Lemma setFields_app m off w vs vs' :
  setFields m off w (vs ++ vs') = setFields (setFields m off w vs) (off + w * Z.of_nat (length vs)) w vs'.
Proof.
  revert m off. induction vs as [|v vs IH]; intros m off; cbn [setFields app length]; [f_equal; lia|].
  rewrite IH. f_equal. lia.
Qed.

Lemma getFields_app m off w a b : getFields m off w (a + b) = getFields m off w a ++ getFields m (off + w * Z.of_nat a) w b.
Proof.
  revert off. induction a as [|a IH]; intros off; cbn [getFields Nat.add app]; [f_equal; lia|].
  rewrite IH. do 2 f_equal. f_equal. lia.
Qed.

Lemma length_getFields m off w k : length (getFields m off w k) = k.
Proof. revert off. induction k as [|k IH]; intros off; cbn; [done|]. by rewrite IH. Qed.

Lemma getFields_other m off w vs off' w' k :
  0 <= off -> 0 <= w -> 0 <= off' -> 0 <= w' ->
  off' + w' * Z.of_nat k <= off \/ off + w * Z.of_nat (length vs) <= off' ->
  getFields (setFields m off w vs) off' w' k = getFields m off' w' k.
Proof.
  intros Ho Hw Ho' Hw'. revert off' Ho'. induction k as [|k IH]; intros off' Ho' Hd; cbn [getFields]; [done|].
  rewrite getField_setFields_other by lia. by rewrite IH by lia.
Qed.

Lemma getFields_same m off w vs :
  0 <= off -> 0 <= w -> getFields (setFields m off w vs) off w (length vs) = wrapU w <$> vs.
Proof.
  intros Ho Hw. revert m off Ho. induction vs as [|v vs IH]; intros m off Ho; cbn [setFields getFields length fmap list_fmap]; [done|].
  rewrite getField_setFields_other, getField_same by lia. f_equal. by apply IH; lia.
Qed.

Section Each.
Context (c n start : Z) (Hc : 0 < c) (Hcn : c <= n) (Hn4 : n <= 4 * c) (Hst : 0 <= start).

Lemma packEach_fields vs w i m :
  0 <= i -> widthOK n w -> packEach c n start vs w i m = setFields m (start + i * w) w vs.
Proof using Hc Hcn Hn4 Hst.
  revert i m. induction vs as [|v vs IH]; intros i m Hi Hw; cbn [packEach setFields]; [done|].
  rewrite IH, packSingle_field by (try done; lia). f_equal. lia.
Qed.

Lemma unpackEach_fields count w i m :
  0 <= i -> widthOK n w -> unpackEach c n start count w i m = getFields m (start + i * w) w count.
Proof using Hc Hcn Hn4 Hst.
  revert i. induction count as [|count IH]; intros i Hi Hw; cbn [unpackEach getFields]; [done|].
  rewrite IH, unpackSingle_field by (try done; lia). f_equal. f_equal. lia.
Qed.
End Each.

(** One field may be written in two parts. *)
Lemma setField_split m off a b v :
  0 <= off -> 0 <= a -> 0 <= b ->
  setField (setField m off a v) (off + a) b (Z.shiftr v a) = setField m off (a + b) v.
Proof.
  intros Ho Ha Hb. apply Z.bits_inj'. intros i Hi. rewrite !testbit_setField by lia.
  destruct (Z.leb_spec (off + a) i), (Z.ltb_spec i (off + a + b)), (Z.leb_spec off i), (Z.ltb_spec i (off + a)),
    (Z.ltb_spec i (off + (a + b))); cbn [andb]; try lia; try done.
  rewrite Z.shiftr_spec by lia. f_equal. lia.
Qed.

Lemma setField_wrap m off w v : 0 <= off -> 0 <= w -> setField m off w (wrapU w v) = setField m off w v.
Proof.
  intros Ho Hw. apply Z.bits_inj'. intros i Hi. rewrite !testbit_setField by lia.
  destruct (Z.leb_spec off i), (Z.ltb_spec i (off + w)); cbn [andb]; try done.
  rewrite testbit_wrapU, (proj2 (Z.ltb_lt _ _)) by lia. done.
Qed.

Lemma setField_0 m off v : 0 <= off -> setField m off 0 v = m.
Proof.
  intros Ho. apply Z.bits_inj'. intros i Hi. rewrite testbit_setField by lia.
  destruct (Z.leb_spec off i), (Z.ltb_spec i (off + 0)); cbn [andb]; try done. lia.
Qed.

Lemma getField_0 m off : getField m off 0 = 0.
Proof. unfold getField. by rewrite Z.land_0_r. Qed.

(** ** The packing of 32 values at once *)

(** Chunks of [CHUNK_SIZE] values; the buffer starts [off] bytes after the page. *)
Definition CHUNK_SIZE : nat := 32.

Class ChunkPacker (n : Z) : Type := {
  fastpack : list Z -> Z -> Z -> Z -> Z;      (** values, buffer, [off], width *)
  fastunpack : Z -> Z -> Z -> list Z          (** buffer, [off], width *)
}.
Arguments fastpack n {_} vs m off w.
Arguments fastunpack n {_} m off w.

Class ChunkPackerOK (n : Z) `{ChunkPacker n} : Prop := {
  fastpack_fields vs m off w :
    length vs = CHUNK_SIZE -> 0 <= off -> 0 <= w <= n -> fastpack n vs m off w = setFields m (8 * off) w vs;
  fastunpack_fields m off w :
    0 <= off -> 0 <= w <= n -> fastunpack n m off w = getFields m (8 * off) w CHUNK_SIZE
}.

(** ** [Int128Packer] *)

Section Int128Packer.
Context (start : Z).

Local Abbreviation load := (loadWord 32 start).
Local Abbreviation store := (storeWord 32 start).

(** [packDelta32] to [packDelta128]: [d] words for each value. *)
Fixpoint storeWords (d : nat) (m k v : Z) : Z :=
  match d with
  | O => m
  | S d => store (storeWords d m k v) (k + Z.of_nat d) (wrapU 32 (Z.shiftr v (32 * Z.of_nat d)))
  end.
Fixpoint packDelta (d : nat) (vs : list Z) (i m : Z) : Z :=
  match vs with
  | [] => m
  | v :: vs => packDelta d vs (i + 1) (storeWords d m (Z.of_nat d * i) v)
  end.

(** [unpackDelta0] to [unpackDelta128]. *)
Fixpoint loadWords (d : nat) (m k : Z) : Z :=
  match d with
  | O => 0
  | S d => Z.lor (loadWords d m k) (Z.shiftl (load m (k + Z.of_nat d)) (32 * Z.of_nat d))
  end.
Fixpoint unpackDelta (d count : nat) (m i : Z) : list Z :=
  match count with
  | O => []
  | S count => loadWords d m (Z.of_nat d * i) :: unpackDelta d count m (i + 1)
  end.

(** The words of the last value, from [k] on. *)
Definition unpackLast (m k delta : Z) : Z :=
  let SHIFT := delta * 31 mod 32 in
  let out := Z.shiftr (load m k) SHIFT in
  let out := if 32 <? delta then wrapU 128 (Z.lor out (Z.shiftl (load m (k + 1)) (1 * 32 - SHIFT))) else out in
  let out := if 64 <? delta then wrapU 128 (Z.lor out (Z.shiftl (load m (k + 2)) (2 * 32 - SHIFT))) else out in
  if 96 <? delta then wrapU 128 (Z.lor out (Z.shiftl (load m (k + 3)) (3 * 32 - SHIFT))) else out.
End Int128Packer.

Definition Int128Packer_pack (vs : list Z) (m off width : Z) : Z :=
  let start := 8 * off in
  if width =? 0 then m
  else if width =? 32 then packDelta start 1 vs 0 m
  else if width =? 64 then packDelta start 2 vs 0 m
  else if width =? 96 then packDelta start 3 vs 0 m
  else if width =? 128 then packDelta start 4 vs 0 m
  else packEach 32 128 start vs width 0 m.

Definition Int128Packer_unpack (m off width : Z) : list Z :=
  let start := 8 * off in
  if width =? 0 then unpackDelta start 0 CHUNK_SIZE m 0
  else if width =? 32 then unpackDelta start 1 CHUNK_SIZE m 0
  else if width =? 64 then unpackDelta start 2 CHUNK_SIZE m 0
  else if width =? 96 then unpackDelta start 3 CHUNK_SIZE m 0
  else if width =? 128 then unpackDelta start 4 CHUNK_SIZE m 0
  else unpackEach 32 128 start (CHUNK_SIZE - 1) width 0 m ++ [unpackLast start m (31 * width / 32) width].

#[global] Instance packer128 : ChunkPacker 128 := {|
  fastpack := Int128Packer_pack;
  fastunpack := Int128Packer_unpack
|}.

Section Int128PackerOK.
Context (start : Z) (Hst : 0 <= start).

Lemma storeWords_field d m k v :
  0 <= k -> storeWords start d m k v = setField m (start + 32 * k) (32 * Z.of_nat d) v.
Proof using Hst.
  intros Hk. induction d as [|d IH]; cbn [storeWords].
  - by rewrite setField_0 by lia.
  - rewrite IH. unfold storeWord. rewrite setField_wrap by lia.
    replace (start + 32 * (k + Z.of_nat d)) with (start + 32 * k + 32 * Z.of_nat d) by lia.
    rewrite setField_split by lia. f_equal. lia.
Qed.

Lemma packDelta_fields d vs i m :
  0 <= i -> packDelta start d vs i m = setFields m (start + 32 * Z.of_nat d * i) (32 * Z.of_nat d) vs.
Proof using Hst.
  revert i m. induction vs as [|v vs IH]; intros i m Hi; cbn [packDelta setFields]; [done|].
  rewrite IH, storeWords_field by lia. f_equal; [f_equal; lia|lia].
Qed.

Lemma loadWords_field d m k : 0 <= k -> loadWords start d m k = getField m (start + 32 * k) (32 * Z.of_nat d).
Proof using Hst.
  intros Hk. induction d as [|d IH]; cbn [loadWords].
  - by rewrite getField_0.
  - rewrite IH. unfold loadWord. apply Z.bits_inj'. intros i Hi.
    rewrite Z.lor_spec, testbit_shiftl, (testbit_getField m (start + 32 * k)), (testbit_getField m (start + 32 * k)) by lia.
    destruct (Z.leb_spec (32 * Z.of_nat d) i); cbn [andb].
    + rewrite testbit_getField by lia. rewrite (proj2 (Z.ltb_ge i (32 * Z.of_nat d))), andb_false_r by lia. cbn [orb].
      f_equal; [f_equal; lia|]. destruct (Z.ltb_spec (i - 32 * Z.of_nat d) 32), (Z.ltb_spec i (32 * Z.of_nat (S d))); lia.
    + rewrite orb_false_r, !(proj2 (Z.ltb_lt i _)) by lia. done.
Qed.

Lemma unpackDelta_fields d count m i :
  0 <= i -> unpackDelta start d count m i = getFields m (start + 32 * Z.of_nat d * i) (32 * Z.of_nat d) count.
Proof using Hst.
  revert i. induction count as [|count IH]; intros i Hi; cbn [unpackDelta getFields]; [done|].
  rewrite IH, loadWords_field by lia. f_equal; f_equal; lia.
Qed.

Lemma unpackSingleField_range field m k shift :
  0 <= shift -> inU 128 (unpackSingleField 32 128 start field m k shift).
Proof using Hst.
  intros Hs. destruct field; cbn [unpackSingleField]; [|apply wrapU_range; lia].
  pose proof (getField_range m (start + 32 * k) 32 ltac:(lia)) as Hg. unfold inU in *. rewrite Z.shiftr_div_pow2 by done.
  pose proof (Z.pow_pos_nonneg 2 shift). unfold loadWord. split; [apply Z.div_pos; lia|].
  eapply Z.le_lt_trans; [apply Z.div_le_upper_bound; [lia|]; instantiate (1 := 2 ^ 32); nia|lia].
Qed.

Lemma unpackLast_field m w :
  0 < w < 128 -> w mod 32 <> 0 -> unpackLast start m (31 * w / 32) w = getField m (start + 31 * w) w.
Proof using Hst.
  intros Hw Hm. set (field := if 96 <? w then 3%nat else if 64 <? w then 2%nat else if 32 <? w then 1%nat else 0%nat).
  assert (E : unpackLast start m (31 * w / 32) w = unpackSingleField 32 128 start field m (31 * w / 32) (w * 31 mod 32)).
  { unfold unpackLast, field. cbv zeta. destruct (Z.ltb_spec 32 w), (Z.ltb_spec 64 w), (Z.ltb_spec 96 w); try lia; reflexivity. }
  rewrite E. rewrite (Z.mul_comm w 31).
  pose proof (Z.div_mod (31 * w) 32 ltac:(lia)) as D. pose proof (Z.mod_pos_bound (31 * w) 32 ltac:(lia)).
  assert (Hf : (Z.of_nat field + 1) * 32 - 31 * w mod 32 = w).
  { unfold field. clear E. destruct (Z.ltb_spec 96 w), (Z.ltb_spec 64 w), (Z.ltb_spec 32 w); try lia;
      Z.div_mod_to_equations; lia. }
  assert (Hk : 0 <= 31 * w / 32) by (apply Z.div_pos; lia).
  apply Z.bits_inj'. intros i Hi. rewrite testbit_getField by lia. destruct (Z.ltb_spec i 128).
  - rewrite testbit_unpackField by lia. rewrite Hf. f_equal. f_equal. lia.
  - rewrite (proj2 (Z.ltb_ge i w)), andb_false_r by lia.
    pose proof (unpackSingleField_range field m (31 * w / 32) (31 * w mod 32) ltac:(lia)) as Hr.
    rewrite <- (wrapU_id _ _ Hr), testbit_wrapU by lia. by rewrite (proj2 (Z.ltb_ge i 128)) by lia.
Qed.
End Int128PackerOK.

#[global] Instance packer128_ok : ChunkPackerOK 128.
Proof.
  split.
  - intros vs m off w Hl Ho Hw. cbn [fastpack packer128]. unfold Int128Packer_pack. cbv zeta.
    destruct (Z.eqb_spec w 0) as [->|].
    { clear Hl. enough (H : forall o, 0 <= o -> setFields m o 0 vs = m) by (rewrite H by lia; done).
      induction vs as [|v vs IH]; intros o Hoo; cbn [setFields]; [done|]. rewrite setField_0 by done. apply IH. lia. }
    destruct (Z.eqb_spec w 32) as [->|]; [rewrite packDelta_fields by lia; f_equal; lia|].
    destruct (Z.eqb_spec w 64) as [->|]; [rewrite packDelta_fields by lia; f_equal; lia|].
    destruct (Z.eqb_spec w 96) as [->|]; [rewrite packDelta_fields by lia; f_equal; lia|].
    destruct (Z.eqb_spec w 128) as [->|]; [rewrite packDelta_fields by lia; f_equal; lia|].
    rewrite packEach_fields by (try lia; unfold widthOK; cbn; lia). f_equal. lia.
  - intros m off w Ho Hw. cbn [fastunpack packer128]. unfold Int128Packer_unpack. cbv zeta.
    destruct (Z.eqb_spec w 0) as [->|]; [rewrite unpackDelta_fields by lia; f_equal; lia|].
    destruct (Z.eqb_spec w 32) as [->|]; [rewrite unpackDelta_fields by lia; f_equal; lia|].
    destruct (Z.eqb_spec w 64) as [->|]; [rewrite unpackDelta_fields by lia; f_equal; lia|].
    destruct (Z.eqb_spec w 96) as [->|]; [rewrite unpackDelta_fields by lia; f_equal; lia|].
    destruct (Z.eqb_spec w 128) as [->|]; [rewrite unpackDelta_fields by lia; f_equal; lia|].
    rewrite unpackEach_fields by (try lia; unfold widthOK; cbn; lia).
    rewrite unpackLast_field by (try lia; Z.div_mod_to_equations; lia).
    change CHUNK_SIZE with (31 + 1)%nat. rewrite getFields_app. replace (31 + 1 - 1)%nat with 31%nat by lia.
    rewrite Z.mul_0_l, Z.add_0_r. f_equal. change (getFields m ?o w 1) with [getField m o w]. do 2 f_equal. lia.
Qed.

(** A packer that keeps the contract at every width, for the other sizes. *)
#[global] Instance plainPacker (n : Z) : ChunkPacker n | 100 := {|
  fastpack vs m off w := setFields m (8 * off) w vs;
  fastunpack m off w := getFields m (8 * off) w CHUNK_SIZE
|}.
#[global] Instance plainPacker_ok n : @ChunkPackerOK n (plainPacker n) | 100.
Proof. by split. Qed.
