(* ===== verification/IntegerBitpacking.v ===== *)
(** * Bit-packed integers (class IntegerBitpacking of src/storage/compression/compression.cpp)

    A chunk of a column is stored with the smallest number of bits that its minimum and maximum
    need, after subtracting an offset if that saves bits.  [T] is an integer type of [n] bits,
    signed or not; a value in memory is its bit pattern, a number below [2 ^ n].  A page is a
    buffer of [Bitpacking]. *)

From S2P Require Import Prelude NullMask Bitpacking.
From stdpp Require Import base list numbers strings sets.
Local Open Scope Z_scope.

Inductive CompressionType := UNCOMPRESSED | INTEGER_BITPACKING | BOOLEAN_BITPACKING | CONSTANT | ALP.
#[global] Instance CompressionType_eq_dec : EqDecision CompressionType.
Proof. solve_decision. Defined.

(** The union [StorageValue] is its 128 bits. *)
Definition StorageValue : Type := Z.

Record CompressionMetadata := mkMeta { min : StorageValue; max : StorageValue; compression : CompressionType }.

(** [numeric_utils::bitWidth] of an unsigned pattern. *)
Definition bitWidthOf (x : Z) : Z := if x =? 0 then 0 else Z.log2 x + 1.

Record BitpackInfo := mkInfo { bitWidth : Z; hasNegative : bool; offset : Z }.

Section IntegerBitpacking.
Context (n : Z) (sg : bool).

(** ** The type [T] *)

(** A value of [T], and its pattern. *)
Definition toT (x : Z) : Z := if sg then wrapS n x else wrapU n x.
Definition toU (v : Z) : Z := wrapU n v.
Definition inT (v : Z) : Prop := if sg then inS n v else inU n v.

(** Integers up to 64 bits are in the lower half of a [StorageValue], whose upper half is zero. *)
Definition storageValue (v : Z) : StorageValue := if n =? 128 then wrapU 128 v else wrapU 64 v.
Definition get (x : StorageValue) : Z := toT x.

(** [abs<T>]: small types are promoted to [int] and the result is converted back; the smallest
    [int] or [int64_t] has no absolute value, and negating the smallest 128-bit integer throws. *)
Definition absT (v : Z) : outcome Z :=
  if negb sg then Ok v
  else if n =? 128 then
    if 0 <=? v then Ok v
    else if v =? - 2 ^ 127 then Err (StdOverflowError "INT128 is out of range: cannot negate INT128_MIN")
    else Ok (- v)
  else if n <? 32 then Ok (wrapS n (Z.abs v))
  else if v =? - 2 ^ (n - 1) then Err UndefinedBehaviour
  else Ok (Z.abs v).

(** ** The packing of a chunk *)

Definition getPackingInfo (metadata : CompressionMetadata) : outcome BitpackInfo :=
  let mx := get (max metadata) in
  let mn := get (min metadata) in
  if (0 <? mn) && (0 <? mx) && (bitWidthOf (toU (mx - mn)) <? bitWidthOf (toU mx)) then
    Ok (mkInfo (wrapU 8 (bitWidthOf (toU (mx - mn)))) false mn)
  else if (mn <? 0) && (mx <? 0) && (bitWidthOf (toU (mn - mx)) <? bitWidthOf (toU mx)) then
    Ok (mkInfo (wrapU 8 (wrapU 8 (bitWidthOf (toU (mn - mx))) + 1)) true (toT (toU mx)))
  else
    let* a := absT mn in
    let* b := absT mx in
    if mn <? 0 then Ok (mkInfo (wrapU 8 (wrapU 8 (bitWidthOf (toU (Z.max a b))) + 1)) true 0)
    else Ok (mkInfo (wrapU 8 (bitWidthOf (toU (Z.max a b)))) false 0).

Definition numValues (dataSize : Z) (info : BitpackInfo) : Z :=
  if bitWidth info =? 0 then 2 ^ 64 - 1 else dataSize * 8 / bitWidth info.

(** ** Minimum and maximum of values *)

Fixpoint minMaxLoop (data : list Z) (nullMask : NullMask) (pos : nat) (acc : option (StorageValue * StorageValue))
    : outcome (option (StorageValue * StorageValue)) :=
  match data with
  | [] => Ok acc
  | x :: data =>
      let* null := isNull (NullMask.data nullMask) pos in
      let v := toT x in
      minMaxLoop data nullMask (S pos)
        (if null : bool then acc
         else match acc with
              | None => Some (storageValue v, storageValue v)
              | Some (mn, mx) =>
                  Some (if v <? get mn then storageValue v else mn, if get mx <? v then storageValue v else mx)
              end)
  end.

Definition getTypedMinMax (data : list Z) (nullMask : option NullMask) (nullMaskOffset : nat)
    : outcome (option (StorageValue * StorageValue)) :=
  match data with
  | [] => Err InternalException
  | x :: rest =>
      match nullMask with
      | Some m =>
          if hasNoNullsGuarantee m
          then Ok (Some (storageValue (foldl Z.min (toT x) (toT <$> rest)), storageValue (foldl Z.max (toT x) (toT <$> rest))))
          else minMaxLoop data m nullMaskOffset None
      | None =>
          Ok (Some (storageValue (foldl Z.min (toT x) (toT <$> rest)), storageValue (foldl Z.max (toT x) (toT <$> rest))))
      end
  end.

(** Whether values fit the packing that a chunk has already. *)
Definition canUpdateInPlace (values : list Z) (metadata : CompressionMetadata) (nullMask : option NullMask)
    (nullMaskOffset : nat) : outcome bool :=
  let* info := getPackingInfo metadata in
  let* mm := getTypedMinMax values nullMask nullMaskOffset in
  match mm with
  | None => Ok true
  | Some (mn, mx) =>
      let newMetadata := mkMeta (storageValue (Z.min (get (min metadata)) (get mn)))
                                (storageValue (Z.max (get (max metadata)) (get mx))) (compression metadata) in
      let* newInfo := getPackingInfo newMetadata in
      Ok (negb (negb (bitWidth info =? bitWidth newInfo) || xorb (hasNegative info) (hasNegative newInfo) ||
                negb (offset info =? offset newInfo)))
  end.

(** ** Writing *)

Context `{PK : ChunkPacker n}.

(** The words of [BitpackingUtils]. *)
Definition compressedBits : Z := if 32 <=? n then 32 else 8.

(** [buffer] is where the page's pointer points, in bytes. *)
Definition packPartialChunk (srcBuffer : list Z) (dst buffer : Z) (posInDst : Z) (info : BitpackInfo) : Z :=
  packEach compressedBits n (8 * buffer) srcBuffer (bitWidth info) posInDst dst.
(** Values at null positions, which need not fit, may overflow in the subtraction; here it wraps. *)
Definition copyValuesToTempChunkWithOffset (srcBuffer : list Z) (info : BitpackInfo) : list Z :=
  (fun x => toU (toT x - offset info)) <$> srcBuffer.
Definition setPartialChunkInPlace (srcBuffer : list Z) (dst posInDst : Z) (header : BitpackInfo) : Z :=
  packPartialChunk (copyValuesToTempChunkWithOffset srcBuffer header) dst 0 posInDst header.

(** Whole chunks from value [dstIndex] on. *)
Fixpoint packChunks (count : nat) (srcBuffer : list Z) (dst dstIndex : Z) (convert : list Z -> list Z) (w : Z) : Z :=
  match count with
  | O => dst
  | S count =>
      packChunks count (drop CHUNK_SIZE srcBuffer)
        (fastpack n (convert (take CHUNK_SIZE srcBuffer)) dst (dstIndex * w / 8) w) (dstIndex + 32) convert w
  end.

(** The values [posInSrc] to [posInSrc + numValues] of the source are [src]. *)
Fixpoint allUpdatable (src : list Z) (metadata : CompressionMetadata) (nullMask : option NullMask) (pos : nat) : outcome bool :=
  match src with
  | [] => Ok true
  | x :: src =>
      let* null := match nullMask with Some m => isNull (NullMask.data m) pos | None => Ok false end in
      let* ok := if null : bool then Ok true else canUpdateInPlace [x] metadata None 0 in
      let* rest := allUpdatable src metadata nullMask (S pos) in
      Ok (ok && rest)
  end.

Definition setValuesFromUncompressed (srcBuffer : list Z) (posInSrc : nat) (dst posInDst : Z) (count : nat)
    (metadata : CompressionMetadata) (nullMask : option NullMask) : outcome Z :=
  let* header := getPackingInfo metadata in
  let src := take count (drop posInSrc srcBuffer) in
  let* ok := allUpdatable src metadata nullMask posInSrc in
  if negb ok then Err InternalException
  else
    let valuesInFirstChunk := Z.min (32 - posInDst mod 32) (Z.of_nat count) in
    let first := if valuesInFirstChunk <? 32 then Z.to_nat valuesInFirstChunk else 0%nat in
    let dst := if valuesInFirstChunk <? 32 then setPartialChunkInPlace (take first src) dst posInDst header else dst in
    let full := ((count - first) / CHUNK_SIZE)%nat in
    let dst := packChunks full (drop first src) dst (posInDst + Z.of_nat first)
                 (fun vs => copyValuesToTempChunkWithOffset vs header) (bitWidth header) in
    let lastChunkIndexOffset := (first + full * CHUNK_SIZE)%nat in
    let unalignedValuesToPack := (count - lastChunkIndexOffset)%nat in
    Ok (if (0 <? unalignedValuesToPack)%nat
        then setPartialChunkInPlace (drop lastChunkIndexOffset src) dst (posInDst + Z.of_nat lastChunkIndexOffset) header
        else dst).

(** The number of bytes used, the values consumed, and the page. *)
Definition compressNextPage (srcBuffer : list Z) (numValuesRemaining dst dstBufferSize : Z) (metadata : CompressionMetadata)
    : outcome (Z * nat * Z) :=
  match compression metadata with
  | UNCOMPRESSED =>
      let count := Z.min numValuesRemaining (dstBufferSize / (n / 8)) in
      Ok (count * (n / 8), Z.to_nat count, setFields dst 0 n (take (Z.to_nat count) srcBuffer))
  | INTEGER_BITPACKING =>
      let* info := getPackingInfo metadata in
      let w := bitWidth info in
      if w =? 0 then Ok (0, 0%nat, dst)
      else
        let count := Z.min numValuesRemaining (numValues dstBufferSize info) in
        let sizeToCompress := count * w / 8 + (if count * w mod 8 =? 0 then 0 else 1) in
        if (dstBufferSize <? 32) || (dstBufferSize <? sizeToCompress) then Err InternalException
        else
          let convert vs := if offset info =? 0 then vs else copyValuesToTempChunkWithOffset vs info in
          let k := Z.to_nat count in
          let full := (k / CHUNK_SIZE)%nat in
          let lastFullChunkEnd := (full * CHUNK_SIZE)%nat in
          let src := take k srcBuffer in
          let dst := packChunks full src dst 0 convert w in
          let dst := if (0 <? k mod CHUNK_SIZE)%nat
                     then packPartialChunk (convert (drop lastFullChunkEnd src)) dst (Z.of_nat lastFullChunkEnd * w / 8) 0 info
                     else dst in
          Ok (sizeToCompress, k, dst)
  | _ => Err InternalException
  end.

(** ** Reading *)

(** [SignExtend], for one value. *)
Definition SignExtend (x width : Z) : outcome Z :=
  if negb (width <? n) then Err InternalException
  else
    let mask := 2 ^ (width - 1) in
    let value := Z.land x (Z.ones width) in
    Ok (toU (Z.lxor value mask - mask)).

Definition decode (header : BitpackInfo) (x : Z) : outcome Z :=
  let* x := if hasNegative header && (0 <? bitWidth header) then SignExtend x (bitWidth header) else Ok x in
  Ok (if offset header =? 0 then x else toU (toT x + offset header)).
Fixpoint decodeAll (header : BitpackInfo) (xs : list Z) : outcome (list Z) :=
  match xs with
  | [] => Ok []
  | x :: xs => let* y := decode header x in let* ys := decodeAll header xs in Ok (y :: ys)
  end.

Definition getValues (m chunkStart pos : Z) (numValuesToRead : nat) (header : BitpackInfo) : outcome (list Z) :=
  if 32 <? pos + Z.of_nat numValuesToRead then Err InternalException
  else decodeAll header (unpackEach compressedBits n (8 * chunkStart) numValuesToRead (bitWidth header) pos m).

Fixpoint unpackChunks (count : nat) (m srcCursor : Z) (info : BitpackInfo) : outcome (list Z) :=
  match count with
  | O => Ok []
  | S count =>
      let* chunk := decodeAll info (fastunpack n m srcCursor (bitWidth info)) in
      let* rest := unpackChunks count m (srcCursor + 32 / 8 * bitWidth info) info in
      Ok (chunk ++ rest)
  end.

(** The values that are written to the destination. *)
Definition decompressFromPage (m srcOffset : Z) (count : nat) (metadata : CompressionMetadata) : outcome (list Z) :=
  let* info := getPackingInfo metadata in
  let srcCursor := srcOffset / 32 * bitWidth info * 32 / 8 in
  let valuesInFirstChunk := Z.min (32 - srcOffset mod 32) (Z.of_nat count) in
  let bytesPerChunk := 32 / 8 * bitWidth info in
  let* r := if valuesInFirstChunk <? 32
            then let* vs := getValues m srcCursor (srcOffset mod 32) (Z.to_nat valuesInFirstChunk) info in
                 Ok (vs, srcCursor + bytesPerChunk)
            else Ok ([], srcCursor) in
  let first := length (fst r) in
  if (valuesInFirstChunk <? 32) && (first =? count)%nat then Ok (fst r)
  else
    let full := ((count - first) / CHUNK_SIZE)%nat in
    let* chunks := unpackChunks full m (snd r) info in
    let done := (first + full * CHUNK_SIZE)%nat in
    let* last := if (done <? count)%nat
                 then getValues m (snd r + Z.of_nat full * bytesPerChunk) 0 (count - done) info
                 else Ok [] in
    Ok (fst r ++ chunks ++ last).
End IntegerBitpacking.

(** ** Arithmetic of patterns *)

Lemma wrapU_wrapU n k v : 0 <= n <= k -> wrapU n (wrapU k v) = wrapU n v.
Proof.
  intros Hn. unfold wrapU. replace (2 ^ k) with (2 ^ n * 2 ^ (k - n)) by (rewrite <- Z.pow_add_r by lia; f_equal; lia).
  apply Z.mod_mod_divide, Z.divide_factor_l.
Qed.

Lemma wrapS_wrapU_le n k v : 0 < n <= k -> wrapS n (wrapU k v) = wrapS n v.
Proof.
  intros Hn. unfold wrapS. f_equal. rewrite <- (Zplus_mod_idemp_l (wrapU k v)), <- (Zplus_mod_idemp_l v).
  fold (wrapU n (wrapU k v)). fold (wrapU n v). by rewrite wrapU_wrapU by lia.
Qed.

Lemma wrapU_wrapS n v : 0 < n -> wrapU n (wrapS n v) = wrapU n v.
Proof.
  intros Hn. unfold wrapU, wrapS. rewrite Zminus_mod_idemp_l. f_equal. lia.
Qed.

Lemma wrapU_mod_eq n a b : a mod 2 ^ n = b mod 2 ^ n -> wrapU n a = wrapU n b.
Proof. done. Qed.

Lemma bitWidth_bound x : 0 <= x -> x < 2 ^ bitWidthOf x /\ 0 <= bitWidthOf x.
Proof.
  intros Hx. unfold bitWidthOf. destruct (Z.eqb_spec x 0) as [->|]; [done|].
  pose proof (Z.log2_spec x ltac:(lia)). pose proof (Z.log2_nonneg x). rewrite Z.add_1_r. lia.
Qed.

Lemma bitWidth_le x k : 0 <= x < 2 ^ k -> 0 <= k -> bitWidthOf x <= k.
Proof.
  intros Hx Hk. unfold bitWidthOf. destruct (Z.eqb_spec x 0) as [->|]; [lia|].
  pose proof (Z.log2_lt_pow2 x k ltac:(lia)). lia.
Qed.

Lemma bitWidth_ge x k : 2 ^ (k - 1) <= x -> 0 < k -> k <= bitWidthOf x.
Proof.
  intros Hx Hk. pose proof (Z.pow_pos_nonneg 2 (k - 1)). unfold bitWidthOf. destruct (Z.eqb_spec x 0) as [->|]; [lia|].
  pose proof (Z.log2_le_pow2 x (k - 1) ltac:(lia)). lia.
Qed.

Lemma pow2_half n : 0 < n -> 2 ^ n = 2 * 2 ^ (n - 1).
Proof. intros Hn. rewrite <- Z.pow_succ_r by lia. f_equal. lia. Qed.

Lemma lxor_top x k : 0 <= k -> 0 <= x < 2 ^ k -> Z.lxor x (2 ^ k) = x + 2 ^ k.
Proof.
  intros Hk Hx. symmetry. apply Z.add_nocarry_lxor. apply Z.bits_inj'. intros i Hi.
  rewrite Z.land_spec, Z.pow2_bits_eqb, Z.bits_0 by done. destruct (Z.eqb_spec k i) as [<-|]; [|apply andb_false_r].
  rewrite andb_true_r. destruct (Z.eq_dec x 0) as [->|]; [apply Z.bits_0|].
  apply Z.bits_above_log2; [lia|]. apply Z.log2_lt_pow2; lia.
Qed.

(** The two complement's pattern of [w] bits, extended. *)
Lemma signExtend_value d w :
  0 < w -> - 2 ^ (w - 1) <= d < 2 ^ (w - 1) -> Z.lxor (wrapU w d) (2 ^ (w - 1)) - 2 ^ (w - 1) = d.
Proof.
  intros Hw Hd. pose proof (pow2_half w Hw). unfold wrapU. destruct (Z.leb_spec 0 d).
  - rewrite Z.mod_small, lxor_top by lia. lia.
  - rewrite <- (Z.mod_add _ 1) by lia. rewrite Z.mod_small by lia.
    replace (d + 1 * 2 ^ w) with (d + 2 ^ (w - 1) + 2 ^ (w - 1)) by lia. rewrite <- lxor_top by lia.
    rewrite Z.lxor_assoc, Z.lxor_nilpotent, Z.lxor_0_r. lia.
Qed.

(** The integer types of the code. *)
Definition intType (n : Z) (sg : bool) : Prop :=
  (n = 8 \/ n = 16 \/ n = 32 \/ n = 64 \/ n = 128) /\ (n = 128 -> sg = true).

Lemma intType_bounds n sg : intType n sg -> 8 <= n <= 128.
Proof. unfold intType. lia. Qed.

Section Facts.
Context (n : Z) (sg : bool) (HT : intType n sg).

Local Abbreviation get := (get n sg).
Local Abbreviation toT := (toT n sg).
Local Abbreviation toU := (toU n).
Local Abbreviation inT := (inT n sg).
Local Abbreviation storageValue := (storageValue n).
Local Abbreviation getPackingInfo := (getPackingInfo n sg).

Lemma toT_range x : inT (toT x).
Proof using HT. pose proof (intType_bounds _ _ HT). unfold inT, toT. destruct sg; [apply wrapS_range|apply wrapU_range]; lia. Qed.

Lemma toT_id v : inT v -> toT v = v.
Proof using HT. pose proof (intType_bounds _ _ HT). unfold inT, toT. destruct sg; intros Hv; [apply wrapS_id; [lia|done]|by apply wrapU_id]. Qed.

Lemma toT_toU v : toT (toU v) = toT v.
Proof using HT.
  pose proof (intType_bounds _ _ HT). unfold toT, toU. destruct sg; [apply wrapS_wrapU_le; lia|apply wrapU_wrapU; lia].
Qed.

Lemma toU_toT x : toU (toT x) = toU x.
Proof using HT.
  pose proof (intType_bounds _ _ HT). unfold toT, toU. destruct sg; [apply wrapU_wrapS; lia|apply wrapU_wrapU; lia].
Qed.

Lemma get_storageValue v : inT v -> get (storageValue v) = v.
Proof using HT.
  intros Hv. transitivity (toT v); [|by apply toT_id]. destruct HT as [Hn Hs].
  unfold IntegerBitpacking.get, IntegerBitpacking.storageValue, toT.
  destruct (Z.eqb_spec n 128); destruct sg; first [apply wrapS_wrapU_le; lia | apply wrapU_wrapU; lia].
Qed.

(** ** The packing fits all values between minimum and maximum *)

Definition fits (info : BitpackInfo) (v : Z) : Prop :=
  if hasNegative info then - 2 ^ (bitWidth info - 1) <= v - offset info < 2 ^ (bitWidth info - 1)
  else 0 <= v - offset info < 2 ^ bitWidth info.

Record infoOK (info : BitpackInfo) : Prop := {
  io_width : 0 <= bitWidth info <= n;
  io_negative : hasNegative info = true -> 1 <= bitWidth info /\ sg = true;
  io_offset : inT (offset info)
}.

(** Minimum and maximum are in order, and the minimum is not the smallest value of a signed type. *)
Definition metaOK (md : CompressionMetadata) : Prop :=
  get (min md) <= get (max md) /\ (sg = true -> get (min md) <> - 2 ^ (n - 1)).

Lemma absT_ok v : inT v -> (sg = true -> v <> - 2 ^ (n - 1)) -> absT n sg v = Ok (Z.abs v).
Proof using HT.
  intros Hv Hm. destruct HT as [Hn Hs]. unfold absT, inT in *. destruct sg; cbn [negb].
  - specialize (Hm eq_refl). unfold inS in Hv. destruct (Z.eqb_spec n 128) as [->|].
    + destruct (Z.leb_spec 0 v); [by rewrite Z.abs_eq|]. change (2 ^ 127) with (2 ^ (128 - 1)).
      rewrite (proj2 (Z.eqb_neq _ _) Hm). by rewrite Z.abs_neq by lia.
    + destruct (Z.ltb_spec n 32).
      * rewrite wrapS_id; [done|lia|]. unfold inS. lia.
      * by rewrite (proj2 (Z.eqb_neq _ _) Hm).
  - unfold inU in Hv. by rewrite Z.abs_eq by lia.
Qed.

Lemma infoOK_mk w neg o : 0 <= w <= n -> (neg = true -> 1 <= w /\ sg = true) -> inT o -> infoOK (mkInfo (wrapU 8 w) neg o).
Proof using HT.
  intros Hw Hneg Ho. pose proof (intType_bounds _ _ HT). rewrite wrapU_id by (unfold inU; lia). by split.
Qed.

Lemma inT_0 : inT 0.
Proof using HT. pose proof (intType_bounds _ _ HT). pose proof (Z.pow_pos_nonneg 2 (n - 1)). pose proof (Z.pow_pos_nonneg 2 n). unfold inT, inS, inU. destruct sg; lia. Qed.

(** Two negative numbers that differ have a difference of full width. *)
Lemma negative_width mn mx :
  inT mn -> mn < 0 -> mx < 0 -> mn <= mx ->
  bitWidthOf (toU (mn - mx)) < bitWidthOf (toU mx) -> mn = mx.
Proof using HT.
  pose proof (intType_bounds _ _ HT) as Hb. intros Hi Hmn Hmx Hle Hlt. destruct (decide (mn = mx)) as [|Hne]; [done|]. exfalso.
  assert (Hmin : - 2 ^ (n - 1) <= mn) by (unfold inT, inS, inU in Hi; destruct sg; lia).
  pose proof (pow2_half n ltac:(lia)). pose proof (Z.pow_pos_nonneg 2 (n - 1)).
  assert (E : toU (mn - mx) = mn - mx + 2 ^ n).
  { unfold IntegerBitpacking.toU, wrapU. rewrite <- (Z.mod_add _ 1) by lia. rewrite Z.mod_small; lia. }
  assert (n <= bitWidthOf (toU (mn - mx))) by (apply bitWidth_ge; lia).
  assert (bitWidthOf (toU mx) <= n) by (apply bitWidth_le; [apply wrapU_range|]; lia). lia.
Qed.

Lemma getPackingInfo_ok md :
  metaOK md ->
  exists info, getPackingInfo md = Ok info /\ infoOK info /\ forall v, get (min md) <= v <= get (max md) -> fits info v.
Proof using HT.
  intros [Hle Hmin]. pose proof (intType_bounds _ _ HT) as Hb. unfold IntegerBitpacking.getPackingInfo.
  pose proof (toT_range (min md)) as Hi1. pose proof (toT_range (max md)) as Hi2.
  fold (get (min md)) in Hi1. fold (get (max md)) in Hi2. set (mn := get (min md)) in *. set (mx := get (max md)) in *.
  pose proof (pow2_half n ltac:(lia)) as Hp. pose proof (Z.pow_pos_nonneg 2 (n - 1) ltac:(lia) ltac:(lia)) as Hpp.
  assert (Hr : mx < 2 ^ n /\ - 2 ^ (n - 1) <= mn) by (unfold inT, inS, inU in Hi1, Hi2; destruct sg; lia).
  destruct ((0 <? mn) && (0 <? mx) && _) eqn:E1.
  - apply andb_true_iff in E1 as [E1 E1c%Z.ltb_lt]. apply andb_true_iff in E1 as [E1a%Z.ltb_lt E1b%Z.ltb_lt].
    assert (Eu : toU (mx - mn) = mx - mn) by (apply wrapU_id; unfold inU; lia). rewrite Eu in *.
    destruct (bitWidth_bound (mx - mn) ltac:(lia)). pose proof (bitWidth_le (mx - mn) n ltac:(lia) ltac:(lia)).
    eexists. split; [done|]. split; [apply infoOK_mk; [lia|done|done]|].
    intros v Hv. unfold fits. cbn [hasNegative offset bitWidth]. rewrite wrapU_id by (unfold inU; lia). lia.
  - clear E1. destruct ((mn <? 0) && (mx <? 0) && _) eqn:E2.
    + apply andb_true_iff in E2 as [E2 E2c%Z.ltb_lt]. apply andb_true_iff in E2 as [E2a%Z.ltb_lt E2b%Z.ltb_lt].
      assert (E : mn = mx) by (by apply negative_width). rewrite E. rewrite Z.sub_diag. change (toU 0) with (0 mod 2 ^ n). rewrite Zmod_0_l.
      change (wrapU 8 (bitWidthOf 0) + 1) with 1. eexists. split; [done|]. rewrite toT_toU. split.
      * apply infoOK_mk; [lia| |apply toT_range]. intros _. split; [lia|]. unfold inT, inU in Hi1. destruct sg; [done|lia].
      * intros v Hv. unfold fits. cbn [hasNegative offset bitWidth]. rewrite toT_id by done. change (wrapU 8 1) with 1. cbn. lia.
    + clear E2. rewrite (absT_ok mn), (absT_ok mx) by (try done; intros Hsg; specialize (Hmin Hsg); lia). cbn [obind].
      set (A := Z.max (Z.abs mn) (Z.abs mx)). assert (Ha : 0 <= A < 2 ^ n) by (unfold A; lia).
      assert (Eu : toU A = A) by (by apply wrapU_id). rewrite Eu. destruct (bitWidth_bound A ltac:(lia)) as [Hw1 Hw2].
      destruct (Z.ltb_spec mn 0).
      * assert (Hsg : sg = true) by (unfold inT, inU in Hi1; destruct sg; [done|lia]).
        assert (Hs2 : mx < 2 ^ (n - 1)) by (unfold inT, inS in Hi2; rewrite Hsg in Hi2; lia).
        assert (Hlt : A < 2 ^ (n - 1)) by (specialize (Hmin Hsg); unfold A; lia).
        pose proof (bitWidth_le A (n - 1) ltac:(lia) ltac:(lia)) as Hw3. rewrite (wrapU_id 8 (bitWidthOf A)) by (unfold inU; lia).
        eexists. split; [done|]. split; [apply infoOK_mk; [lia|intros _; split; [lia|done]|apply inT_0]|].
        intros v Hv. unfold fits. cbn [hasNegative offset bitWidth]. rewrite wrapU_id by (unfold inU; lia).
        rewrite Z.add_simpl_r. unfold A in *. lia.
      * pose proof (bitWidth_le A n ltac:(lia) ltac:(lia)) as Hw3. eexists. split; [done|]. split; [apply infoOK_mk; [lia|done|apply inT_0]|].
        intros v Hv. unfold fits. cbn [hasNegative offset bitWidth]. rewrite wrapU_id by (unfold inU; lia). unfold A in *. lia.
Qed.

(** ** Decoding *)

Lemma toU_add_toT x o : toU (toT x + o) = toU (x + o).
Proof using HT.
  unfold IntegerBitpacking.toU, wrapU. rewrite <- (Zplus_mod_idemp_l (toT x)), <- (Zplus_mod_idemp_l x).
  fold (wrapU n (toT x)) (wrapU n x). f_equal. f_equal. apply toU_toT.
Qed.

Lemma decode_fits info v :
  infoOK info -> (hasNegative info = true -> bitWidth info < n) -> fits info v ->
  decode n sg info (wrapU (bitWidth info) (toU (v - offset info))) = Ok (toU v).
Proof using HT.
  intros [Hw Hneg Ho] Hlt Hf. unfold IntegerBitpacking.toU at 1. rewrite wrapU_wrapU by lia.
  set (d := v - offset info) in *. unfold decode, fits in *. destruct (hasNegative info) eqn:E; cbn [andb].
  - destruct (Hneg eq_refl) as [Hw1 _]. specialize (Hlt eq_refl). rewrite (proj2 (Z.ltb_lt 0 _)) by lia.
    unfold SignExtend. rewrite (proj2 (Z.ltb_lt _ n) Hlt). cbn [negb].
    assert (Hl : Z.land (wrapU (bitWidth info) d) (Z.ones (bitWidth info)) = wrapU (bitWidth info) d).
    { rewrite Z.land_ones by lia. apply Z.mod_mod. pose proof (Z.pow_pos_nonneg 2 (bitWidth info)). lia. }
    rewrite Hl, signExtend_value by lia. cbn [obind]. destruct (Z.eqb_spec (offset info) 0) as [E0|].
    + do 2 f_equal. lia.
    + rewrite toU_add_toT. unfold IntegerBitpacking.toU. f_equal. unfold wrapU. rewrite Zplus_mod_idemp_l. f_equal. lia.
  - cbn [obind]. rewrite wrapU_id by done. destruct (Z.eqb_spec (offset info) 0) as [E0|].
    + replace d with v in * by lia. f_equal. symmetry. apply wrapU_id. pose proof (Z.pow_le_mono_r 2 (bitWidth info) n). unfold inU. lia.
    + rewrite toU_add_toT. do 2 f_equal. lia.
Qed.

Lemma decodeAll_fits info vs :
  infoOK info -> (hasNegative info = true -> bitWidth info < n) -> Forall (fits info) vs ->
  decodeAll n sg info ((fun v => wrapU (bitWidth info) (toU (v - offset info))) <$> vs) = Ok (toU <$> vs).
Proof using HT.
  intros Hi Hlt Hvs. induction Hvs as [|v vs Hv _ IH]; [done|]. rewrite !fmap_cons. cbn [decodeAll].
  rewrite decode_fits by done. cbn [obind]. by rewrite IH.
Qed.

Lemma decodeAll_app info xs ys :
  decodeAll n sg info (xs ++ ys) = (let* a := decodeAll n sg info xs in let* b := decodeAll n sg info ys in Ok (a ++ b)).
Proof.
  induction xs as [|x xs IH]; cbn [app decodeAll].
  - cbn [obind]. by destruct (decodeAll n sg info ys).
  - rewrite IH. destruct (decode n sg info x); cbn [obind]; [|done]. destruct (decodeAll n sg info xs); cbn [obind]; [|done].
    by destruct (decodeAll n sg info ys).
Qed.

Lemma decodeAll_length info xs ys : decodeAll n sg info xs = Ok ys -> length ys = length xs.
Proof.
  revert ys. induction xs as [|x xs IH]; intros ys; cbn [decodeAll]; [by intros [= <-]|].
  destruct (decode n sg info x); cbn [obind]; [|done]. destruct (decodeAll n sg info xs) as [zs|]; cbn [obind]; [|done].
  intros [= <-]. cbn. f_equal. by apply IH.
Qed.
End Facts.

(** ** Pages are sequences of fields *)

Section Pages.
Context (n : Z) (sg : bool) (HT : intType n sg) `{PK : ChunkPackerOK n}.

Lemma compressedBits_ok : 0 < compressedBits n /\ compressedBits n <= n /\ n <= 4 * compressedBits n.
Proof using HT. destruct HT as [Hn _]. unfold compressedBits. destruct (Z.leb_spec 32 n); lia. Qed.

Lemma widthOK_range w : widthOK n w -> 0 <= w <= n.
Proof. unfold widthOK. destruct (n =? 128); lia. Qed.

(** A width with which pages can be written and read: only the unsigned types up to 64 bits can
    use all of theirs. *)
Definition usable (info : BitpackInfo) : Prop :=
  widthOK n (bitWidth info) /\ (hasNegative info = true -> bitWidth info < n).

Lemma packPartialChunk_fields vs dst buffer pos info :
  0 <= buffer -> 0 <= pos -> widthOK n (bitWidth info) ->
  packPartialChunk n vs dst buffer pos info = setFields dst (8 * buffer + pos * bitWidth info) (bitWidth info) vs.
Proof using HT.
  intros Hb Hp Hw. destruct compressedBits_ok as (H1 & H2 & H3). apply packEach_fields; try done; lia.
Qed.

Lemma packChunks_fields count src dst k convert f w :
  (forall vs, convert vs = f <$> vs) -> 0 <= k -> 0 <= w <= n -> (count * 32 <= length src)%nat ->
  packChunks n count src dst (32 * k) convert w = setFields dst (32 * k * w) w (f <$> take (count * 32) src).
Proof using HT PK.
  intros Hc Hk Hw. revert src dst k Hk. induction count as [|count IH]; intros src dst k Hk Hl; cbn [packChunks]; [done|].
  unfold CHUNK_SIZE in *. replace (32 * k + 32) with (32 * (k + 1)) by lia.
  rewrite IH by (try (rewrite length_drop); lia). rewrite Hc, fastpack_fields.
  - replace (8 * (32 * k * w / 8)) with (32 * k * w).
    2: { replace (32 * k * w) with (4 * k * w * 8) by lia. rewrite Z.div_mul by lia. lia. }
    replace (S count * 32)%nat with (32 + count * 32)%nat by lia. rewrite <- (take_take_drop src 32 (count * 32)).
    rewrite fmap_app, setFields_app. f_equal. rewrite length_fmap, length_take, Nat.min_l by lia. lia.
  - rewrite length_fmap, length_take. unfold CHUNK_SIZE. lia.
  - apply Z.div_pos; [nia|lia].
  - done.
Qed.

Lemma unpackChunks_fields count m cursor info :
  0 <= cursor -> 0 <= bitWidth info <= n ->
  unpackChunks n sg count m cursor info = decodeAll n sg info (getFields m (8 * cursor) (bitWidth info) (count * 32)).
Proof using HT PK.
  intros Hc Hw. revert cursor Hc. induction count as [|count IH]; intros cursor Hc; cbn [unpackChunks]; [done|].
  change (32 / 8) with 4. rewrite fastunpack_fields, IH by lia. change (S count * 32)%nat with (32 + count * 32)%nat.
  rewrite getFields_app, decodeAll_app. unfold CHUNK_SIZE.
  replace (8 * (cursor + 4 * bitWidth info)) with (8 * cursor + bitWidth info * Z.of_nat 32) by lia. done.
Qed.

Lemma getValues_fields m chunkStart pos k info :
  0 <= chunkStart -> 0 <= pos -> pos + Z.of_nat k <= 32 -> widthOK n (bitWidth info) ->
  getValues n sg m chunkStart pos k info =
  decodeAll n sg info (getFields m (8 * chunkStart + pos * bitWidth info) (bitWidth info) k).
Proof using HT.
  intros Hc Hp Hk Hw. unfold getValues. rewrite (proj2 (Z.ltb_ge 32 _)) by lia.
  destruct compressedBits_ok as (H1 & H2 & H3). rewrite unpackEach_fields; try done; lia.
Qed.

Lemma decompress_fields m srcOffset count md info :
  0 <= srcOffset -> getPackingInfo n sg md = Ok info -> widthOK n (bitWidth info) ->
  decompressFromPage n sg m srcOffset count md =
  decodeAll n sg info (getFields m (srcOffset * bitWidth info) (bitWidth info) count).
Proof using HT PK.
  intros Ho Hi Hw0. pose proof (widthOK_range _ Hw0) as Hw. unfold decompressFromPage. rewrite Hi. cbn [obind]. set (w := bitWidth info) in *.
  change (32 / 8) with 4. pose proof (Z.div_mod srcOffset 32 ltac:(lia)) as D. pose proof (Z.mod_pos_bound srcOffset 32 ltac:(lia)) as Hm.
  set (q := srcOffset / 32) in *. set (r := srcOffset mod 32) in *. assert (Hq : 0 <= q) by (apply Z.div_pos; lia).
  assert (Hcur : q * w * 32 / 8 = 4 * q * w).
  { replace (q * w * 32) with (4 * q * w * 8) by lia. apply Z.div_mul. lia. }
  rewrite Hcur. set (first := Z.min (32 - r) (Z.of_nat count)).
  assert (Hrest : forall cursor done, 0 <= cursor -> (done <= count)%nat -> 8 * cursor = (srcOffset + Z.of_nat done) * w ->
    (let full := ((count - done) / CHUNK_SIZE)%nat in
     let* chunks := unpackChunks n sg full m cursor info in
     let* last := if (done + full * CHUNK_SIZE <? count)%nat
                  then getValues n sg m (cursor + Z.of_nat full * (4 * w)) 0 (count - (done + full * CHUNK_SIZE)) info else Ok [] in
     Ok (chunks ++ last)) = decodeAll n sg info (getFields m ((srcOffset + Z.of_nat done) * w) w (count - done))).
  { intros cursor dn Hcr Hd Hc8. cbv zeta. unfold CHUNK_SIZE.
    pose proof (Nat.div_mod_eq (count - dn) 32). pose proof (Nat.mod_upper_bound (count - dn) 32).
    set (full := ((count - dn) / 32)%nat) in *.
    replace (count - dn)%nat with (full * 32 + (count - (dn + full * 32)))%nat by lia.
    rewrite getFields_app, decodeAll_app, unpackChunks_fields by lia. fold w. rewrite Hc8.
    destruct (decodeAll n sg info (getFields m ((srcOffset + Z.of_nat dn) * w) w (full * 32))); cbn [obind]; [|done].
    destruct (Nat.ltb_spec (dn + full * 32) count).
    - rewrite getValues_fields by (try done; try lia; nia). fold w. f_equal. f_equal. f_equal. nia.
    - by replace (count - (dn + full * 32))%nat with 0%nat by lia. }
  cbv zeta in Hrest. destruct (Z.ltb_spec first 32) as [Hf|Hf].
  - rewrite getValues_fields by (try done; unfold first in *; lia). fold w. replace (8 * (4 * q * w) + r * w) with (srcOffset * w) by nia.
    set (k := Z.to_nat first). assert (Hk : (k <= count)%nat) by (unfold k, first; lia).
    replace (getFields m (srcOffset * w) w count) with (getFields m (srcOffset * w) w (k + (count - k))) by (f_equal; lia).
    rewrite getFields_app, decodeAll_app.
    destruct (decodeAll n sg info (getFields m (srcOffset * w) w k)) as [vs|] eqn:Ev; cbn [obind fst snd]; [|done].
    pose proof (decodeAll_length _ _ _ _ _ Ev) as Hl. rewrite length_getFields in Hl. rewrite Hl. cbn [andb].
    destruct (Nat.eqb_spec k count) as [Ek|Ek].
    + replace (count - k)%nat with 0%nat by lia. cbn. by rewrite app_nil_r.
    + assert (Hal : r + Z.of_nat k = 32) by (unfold k, first in *; lia).
      specialize (Hrest (4 * q * w + 4 * w) k ltac:(nia) Hk ltac:(nia)).
      replace (srcOffset * w + w * Z.of_nat k) with ((srcOffset + Z.of_nat k) * w) by lia. rewrite <- Hrest.
      destruct (unpackChunks n sg _ m (4 * q * w + 4 * w) info); cbn [obind]; [|done]. by destruct (if (_ <? count)%nat then _ else _).
  - cbn [obind fst snd length andb app]. assert (r = 0) by (unfold first in *; lia).
    specialize (Hrest (4 * q * w) 0%nat ltac:(nia) ltac:(lia) ltac:(nia)). cbn [Nat.add] in Hrest.
    rewrite Nat.sub_0_r, Z.add_0_r in Hrest. rewrite <- Hrest. cbn [Nat.add]. rewrite Nat.sub_0_r. done.
Qed.
End Pages.

(** ** One page, compressed and read again *)

Lemma getFields_slice m w vs off cnt :
  0 <= w -> (off + cnt <= length vs)%nat ->
  getFields (setFields m 0 w vs) (Z.of_nat off * w) w cnt = wrapU w <$> take cnt (drop off vs).
Proof.
  intros Hw Hl. rewrite <- (take_drop off vs) at 1. rewrite <- (take_drop cnt (drop off vs)) at 1.
  rewrite !setFields_app. rewrite length_take, Nat.min_l by lia. rewrite length_take, length_drop, Nat.min_l by lia.
  rewrite getFields_other by lia. replace (0 + w * Z.of_nat off) with (Z.of_nat off * w) by lia.
  pose proof (getFields_same (setFields m 0 w (take off vs)) (Z.of_nat off * w) w (take cnt (drop off vs)) ltac:(lia) Hw) as E.
  rewrite length_take, length_drop, Nat.min_l in E by lia. exact E.
Qed.

Section RoundTrip.
Context (n : Z) (sg : bool) (HT : intType n sg) `{PK : ChunkPackerOK n}.

Local Abbreviation toU := (toU n).

Lemma compress_fields src dst size md info k :
  getPackingInfo n sg md = Ok info -> compression md = INTEGER_BITPACKING -> widthOK n (bitWidth info) -> bitWidth info <> 0 -> 32 <= size ->
  k = Z.to_nat (Z.min (Z.of_nat (length src)) (numValues size info)) ->
  let f x := if offset info =? 0 then x else toU (toT n sg x - offset info) in
  exists used, compressNextPage n sg src (Z.of_nat (length src)) dst size md =
      Ok (used, k, setFields dst 0 (bitWidth info) (f <$> take k src)) /\ used <= size.
Proof using HT PK.
  intros Hi Hc Hw0 Hz Hs -> f. pose proof (widthOK_range n _ Hw0) as Hw. unfold compressNextPage. rewrite Hc, Hi. cbn [obind].
  rewrite (proj2 (Z.eqb_neq (bitWidth info) 0)) by lia. set (count := Z.min _ _).
  assert (Hcount : 0 <= count /\ count * bitWidth info <= size * 8).
  { unfold count, numValues. rewrite (proj2 (Z.eqb_neq (bitWidth info) 0)) by lia.
    pose proof (Z.mul_div_le (size * 8) (bitWidth info) ltac:(lia)). assert (0 <= size * 8 / bitWidth info) by (apply Z.div_pos; lia). nia. }
  set (w := bitWidth info) in *. set (used := count * w / 8 + (if count * w mod 8 =? 0 then 0 else 1)).
  assert (Hused : used <= size) by (unfold used; destruct (Z.eqb_spec (count * w mod 8) 0); Z.div_mod_to_equations; lia).
  rewrite (proj2 (Z.ltb_ge size 32)), (proj2 (Z.ltb_ge size used)) by lia. cbn [orb].
  exists used. split; [|done]. do 2 f_equal. set (k := Z.to_nat count).
  assert (Hk : (k <= length src)%nat) by (unfold k, count; lia).
  assert (Hconv : forall vs, (if offset info =? 0 then vs else copyValuesToTempChunkWithOffset n sg vs info) = f <$> vs).
  { intros vs. unfold f, copyValuesToTempChunkWithOffset. destruct (offset info =? 0); [by rewrite list_fmap_id|done]. }
  unfold CHUNK_SIZE. pose proof (Nat.div_mod_eq k 32) as D. pose proof (Nat.mod_upper_bound k 32 ltac:(lia)) as Hmod.
  set (full := (k / 32)%nat) in *. replace 0 with (32 * 0) at 1 by lia.
  rewrite (packChunks_fields n sg HT full (take k src) dst 0 _ f w Hconv) by (try rewrite length_take; lia).
  rewrite Hconv. rewrite Z.mul_0_r, Z.mul_0_l. rewrite take_take, Nat.min_l by lia.
  destruct (Nat.ltb_spec 0 (k mod 32)).
  - rewrite (packPartialChunk_fields n sg HT) by (try done; try apply Z.div_pos; nia). fold w.
    rewrite <- (take_drop (full * 32) (take k src)) at 2. rewrite fmap_app, setFields_app, take_take, Nat.min_l by lia.
    f_equal. rewrite length_fmap, length_take, Nat.min_l by lia.
    replace (Z.of_nat (full * 32) * w) with (4 * Z.of_nat full * w * 8) by lia. rewrite Z.div_mul by lia. lia.
  - do 3 f_equal. lia.
Qed.

(** Compressing a page and reading it back gives the values: for every integer type, every
    minimum and maximum of a chunk that are in order and not the smallest value of the type, and
    every list of values between them, [compressNextPage] stores as many values as fit into the
    page, and [decompressFromPage] gives any range of them back, bit by bit, whether the range
    is aligned to chunks or not. *)
Theorem page_roundtrip md info vs dst size :
  metaOK n sg md -> getPackingInfo n sg md = Ok info -> compression md = INTEGER_BITPACKING ->
  usable n info -> bitWidth info <> 0 -> 32 <= size ->
  Forall (fun v => get n sg (min md) <= v <= get n sg (max md)) vs ->
  exists used k m', compressNextPage n sg (toU <$> vs) (Z.of_nat (length vs)) dst size md = Ok (used, k, m') /\
    used <= size /\ k = Z.to_nat (Z.min (Z.of_nat (length vs)) (size * 8 / bitWidth info)) /\
    forall off cnt, (off + cnt <= k)%nat ->
      decompressFromPage n sg m' (Z.of_nat off) cnt md = Ok (toU <$> take cnt (drop off vs)).
Proof using HT PK.
  intros Hm Hi Hc [Hw Hneg] Hz Hs Hvs. destruct (getPackingInfo_ok n sg HT md Hm) as (info' & Hi' & Hok & Hfit).
  pose proof (widthOK_range n _ Hw) as Hw'.
  rewrite Hi in Hi'. injection Hi' as <-.
  destruct (compress_fields (toU <$> vs) dst size md info _ Hi Hc Hw Hz Hs eq_refl) as (used & E & Hu).
  rewrite length_fmap in E. unfold numValues in E. rewrite (proj2 (Z.eqb_neq (bitWidth info) 0)) in E by lia.
  eexists _, _, _. split; [exact E|]. split; [done|]. split; [done|]. set (k := Z.to_nat _). intros off cnt Hr.
  assert (Hk : (k <= length vs)%nat) by (unfold k; lia).
  rewrite (decompress_fields n sg HT _ _ _ _ info) by (try done; lia).
  rewrite getFields_slice by (rewrite ?length_fmap, ?length_take, ?length_fmap; lia).
  rewrite <- fmap_take, <- list_fmap_compose, <- fmap_drop, <- fmap_take, <- list_fmap_compose.
  assert (Ht : take cnt (drop off (take k vs)) = take cnt (drop off vs)).
  { rewrite <- (take_drop k vs) at 2. rewrite drop_app_le by (rewrite length_take; lia).
    rewrite take_app_le; [done|]. rewrite length_drop, length_take. lia. }
  rewrite Ht. rewrite <- (decodeAll_fits n sg HT info (take cnt (drop off vs))); [|done|done|].
  - f_equal. apply list_fmap_ext. intros i v Hv. cbn. f_equal.
    assert (Hin : inT n sg v).
    { rewrite Forall_forall in Hvs. assert (Hv' : v ∈ vs).
      { apply list_elem_of_lookup_2 in Hv. apply elem_of_take in Hv as (j & Hv & _). rewrite lookup_drop in Hv. by eapply list_elem_of_lookup_2. }
      specialize (Hvs v Hv'). pose proof (toT_range n sg HT (min md)). pose proof (toT_range n sg HT (max md)).
      unfold get in Hvs. unfold inT, inS, inU in *. destruct sg; lia. }
    destruct (Z.eqb_spec (offset info) 0) as [->|]; [by rewrite Z.sub_0_r|].
    f_equal. f_equal. rewrite toT_toU by done. by apply toT_id.
  - apply Forall_take, Forall_drop. eapply Forall_impl; [exact Hvs|]. intros v Hv. by apply Hfit.
Qed.
End RoundTrip.

(** ** Updates in place *)

(** The packing of a range, where it is defined. *)
Definition packOf (mn mx : Z) : BitpackInfo :=
  if (0 <? mn) && (bitWidthOf (mx - mn) <? bitWidthOf mx) then mkInfo (bitWidthOf (mx - mn)) false mn
  else if (mn <? 0) && (mn =? mx) then mkInfo 1 true mx
  else if mn <? 0 then mkInfo (bitWidthOf (Z.max (Z.abs mn) (Z.abs mx)) + 1) true 0
  else mkInfo (bitWidthOf mx) false 0.

Lemma bitWidth_mono x y : 0 <= x <= y -> bitWidthOf x <= bitWidthOf y.
Proof.
  intros H. unfold bitWidthOf. destruct (Z.eqb_spec x 0), (Z.eqb_spec y 0); try lia.
  - pose proof (Z.log2_nonneg y). lia.
  - pose proof (Z.log2_le_mono x y). lia.
Qed.

Lemma bitWidth_nonneg x : 0 <= bitWidthOf x.
Proof. unfold bitWidthOf. pose proof (Z.log2_nonneg x). destruct (x =? 0); lia. Qed.

Lemma bitWidth_pos x : 0 < x -> 0 < bitWidthOf x.
Proof. intros H. unfold bitWidthOf. pose proof (Z.log2_nonneg x). destruct (Z.eqb_spec x 0); lia. Qed.

(** A range between two ranges with the same packing has it as well. *)
Lemma packOf_between a b a1 b1 a2 b2 :
  a2 <= a1 <= a -> b <= b1 <= b2 -> a <= b -> packOf a b = packOf a2 b2 -> packOf a1 b1 = packOf a b.
Proof.
  intros Ha Hb Hab E.
  pose proof (f_equal bitWidth E) as Ew. pose proof (f_equal hasNegative E) as En. pose proof (f_equal offset E) as Eo. clear E.
  assert (D1 : bitWidthOf (b - a) <= bitWidthOf (b1 - a1) <= bitWidthOf (b2 - a2)) by (split; apply bitWidth_mono; lia).
  assert (D2 : 0 <= b -> bitWidthOf b <= bitWidthOf b1 <= bitWidthOf b2) by (intros; split; apply bitWidth_mono; lia).
  assert (D3 : bitWidthOf (Z.max (Z.abs a) (Z.abs b)) <= bitWidthOf (Z.max (Z.abs a1) (Z.abs b1)) <= bitWidthOf (Z.max (Z.abs a2) (Z.abs b2)))
    by (split; apply bitWidth_mono; lia).
  unfold packOf in *. destruct (Z.ltb_spec a 0).
  - rewrite (proj2 (Z.ltb_ge 0 a)) in Ew, En, Eo by lia. rewrite (proj2 (Z.ltb_ge 0 a2)) in Ew, En, Eo by lia.
    rewrite !(proj2 (Z.ltb_ge 0 _)) by lia. rewrite (proj2 (Z.ltb_lt a2 0)) in Ew, En, Eo by lia. rewrite (proj2 (Z.ltb_lt a1 0)) by lia.
    cbn [andb] in *. destruct (Z.eqb_spec a b), (Z.eqb_spec a2 b2), (Z.eqb_spec a1 b1); cbn [bitWidth offset hasNegative] in *; try lia; f_equal; lia.
  - destruct (Z.ltb_spec a2 0); 
      [exfalso; rewrite (proj2 (Z.ltb_ge 0 a2)) in En by lia;
       cbn [andb] in En; destruct ((0 <? a) && _), (a2 =? b2); cbn in En; discriminate|].
    rewrite (proj2 (Z.ltb_ge a1 0)) by lia. cbn [andb] in *. specialize (D2 ltac:(lia)).
    destruct (Z.ltb_spec 0 a), (Z.ltb_spec 0 a2), (Z.ltb_spec 0 a1); try lia; cbn [andb] in *;
    destruct (Z.ltb_spec (bitWidthOf (b - a)) (bitWidthOf b)), (Z.ltb_spec (bitWidthOf (b2 - a2)) (bitWidthOf b2)),
      (Z.ltb_spec (bitWidthOf (b1 - a1)) (bitWidthOf b1)); cbn [bitWidth offset hasNegative] in *; try lia; f_equal; lia.
Qed.

(** Two values that leave the packing of a range as it is do so together. *)
Lemma packOf_union a b x y :
  a <= b -> x <= y -> packOf (Z.min a x) (Z.max b x) = packOf a b -> packOf (Z.min a y) (Z.max b y) = packOf a b ->
  packOf (Z.min a x) (Z.max b y) = packOf a b.
Proof.
  intros Hab Hxy E1 E2. destruct (Z.le_gt_cases a x) as [Hx|Hx].
  { rewrite Z.min_l in E2 |- * by lia. done. }
  destruct (Z.le_gt_cases y b) as [Hy|Hy].
  { rewrite Z.max_l in E1 |- * by lia. done. }
  rewrite Z.min_r, Z.max_l in E1 by lia. rewrite Z.min_l, Z.max_r in E2 by lia. rewrite Z.min_r, Z.max_r by lia.
  pose proof (f_equal bitWidth E1) as W1. pose proof (f_equal hasNegative E1) as N1. pose proof (f_equal offset E1) as O1.
  pose proof (f_equal bitWidth E2) as W2. pose proof (f_equal hasNegative E2) as N2. pose proof (f_equal offset E2) as O2. clear E1 E2.
  assert (D1 : bitWidthOf (b - a) <= bitWidthOf (y - a) <= bitWidthOf (y - x)) by (split; apply bitWidth_mono; lia).
  assert (D2 : 0 <= b -> bitWidthOf b <= bitWidthOf y) by (intros; apply bitWidth_mono; lia).
  assert (D3 : Z.max (Z.abs x) (Z.abs y) = Z.max (Z.max (Z.abs x) (Z.abs b)) (Z.max (Z.abs a) (Z.abs y)) \/ 0 <= x \/ y < 0) by lia.
  assert (D4 : forall u v, 0 <= u -> 0 <= v -> bitWidthOf u = bitWidthOf v -> bitWidthOf (Z.max u v) = bitWidthOf u)
    by (intros u v _ _ E; destruct (Z.max_spec u v) as [[_ ->]|[_ ->]]; done).
  unfold packOf in *. destruct (Z.ltb_spec x 0) as [Hx0|Hx0].
  - rewrite (proj2 (Z.ltb_ge 0 x)) in * by lia. cbn [andb] in *. rewrite (proj2 (Z.eqb_neq x b)) in W1, N1, O1 by lia.
    rewrite (proj2 (Z.eqb_neq x y)) by lia. cbn [bitWidth hasNegative offset] in *.
    destruct (Z.ltb_spec a 0) as [Ha0|Ha0].
    + rewrite (proj2 (Z.ltb_ge 0 a)) in * by lia. cbn [andb] in *. rewrite (proj2 (Z.eqb_neq a y)) in W2, N2, O2 by lia.
      cbn [bitWidth hasNegative offset] in *. destruct (Z.eqb_spec a b); cbn [bitWidth hasNegative offset] in *; [lia|]. f_equal.
      destruct (Z.le_gt_cases 0 y) as [Hy0|Hy0].
      * destruct D3 as [-> |[?|?]]; [|lia|lia]. rewrite D4; lia.
      * replace (Z.max (Z.abs x) (Z.abs y)) with (Z.max (Z.abs x) (Z.abs b)) by lia. lia.
    + exfalso. destruct ((0 <? a) && _); cbn in N1; discriminate.
  - rewrite (proj2 (Z.ltb_ge a 0)) in * by lia. cbn [andb] in *. specialize (D2 ltac:(lia)).
    rewrite (proj2 (Z.ltb_lt 0 a)) in * by lia. cbn [andb] in *.
    destruct (Z.ltb_spec (bitWidthOf (b - a)) (bitWidthOf b)), (Z.ltb_spec (bitWidthOf (y - a)) (bitWidthOf y)); cbn [bitWidth hasNegative offset] in *; try lia.
    + destruct ((0 <? x) && _); cbn in O1; lia.
    + rewrite (proj2 (Z.ltb_ge (bitWidthOf (y - x)) (bitWidthOf y))) by lia. rewrite andb_false_r. f_equal; lia.
Qed.

Section Update.
Context (n : Z) (sg : bool) (HT : intType n sg).

Local Abbreviation toU := (toU n).
Local Abbreviation toT := (toT n sg).
Local Abbreviation get := (get n sg).

Lemma packing_value md : metaOK n sg md -> getPackingInfo n sg md = Ok (packOf (get (min md)) (get (max md))).
Proof using HT.
  intros [Hle Hmin]. pose proof (intType_bounds _ _ HT) as Hb. unfold getPackingInfo, packOf.
  pose proof (toT_range n sg HT (min md)) as Hi1. pose proof (toT_range n sg HT (max md)) as Hi2.
  fold (get (min md)) in Hi1. fold (get (max md)) in Hi2. set (mn := get (min md)) in *. set (mx := get (max md)) in *.
  pose proof (pow2_half n ltac:(lia)) as Hp. pose proof (Z.pow_pos_nonneg 2 (n - 1) ltac:(lia) ltac:(lia)) as Hpp.
  assert (Hr : mx < 2 ^ n /\ - 2 ^ (n - 1) <= mn) by (unfold inT, inS, inU in Hi1, Hi2; destruct sg; lia).
  rewrite (absT_ok n sg HT mn), (absT_ok n sg HT mx) by (try done; intros Hsg; specialize (Hmin Hsg); lia). cbn [obind].
  assert (W8 : forall x, 0 <= x < 2 ^ n -> wrapU 8 (bitWidthOf x) = bitWidthOf x).
  { intros x Hx. pose proof (bitWidth_le x n Hx ltac:(lia)). pose proof (bitWidth_nonneg x). apply wrapU_id. unfold inU. lia. }
  assert (U : forall x, 0 <= x < 2 ^ n -> toU x = x) by (intros x Hx; by apply wrapU_id).
  assert (HA : 0 <= Z.max (Z.abs mn) (Z.abs mx) < 2 ^ n) by lia.
  destruct (Z.ltb_spec 0 mn); cbn [andb].
  - rewrite (proj2 (Z.ltb_lt 0 mx)) by lia. rewrite !(U (mx - mn)), !(U mx), (W8 (mx - mn)) by lia. cbn [andb].
    destruct (_ <? bitWidthOf mx); [done|]. rewrite (proj2 (Z.ltb_ge mn 0)) by lia. cbn [andb].
    rewrite (U (Z.max _ _)), W8 by done. do 3 f_equal. lia.
  - destruct (Z.ltb_spec mn 0); cbn [andb].
    + destruct (Z.ltb_spec mx 0); cbn [andb].
      * destruct (Z.eqb_spec mn mx) as [->|Hne].
        -- rewrite Z.sub_diag, U by lia. change (bitWidthOf 0) with 0. change (wrapU 8 (wrapU 8 0 + 1)) with 1.
           assert (Hpos : 0 < bitWidthOf (toU mx)).
           { apply bitWidth_pos. pose proof (Z.mod_pos_bound mx (2 ^ n) ltac:(lia)). unfold IntegerBitpacking.toU, wrapU.
             rewrite <- (Z.mod_add _ 1) by lia. rewrite Z.mod_small; lia. }
           rewrite (proj2 (Z.ltb_lt 0 _) Hpos). by rewrite toT_toU, toT_id.
        -- destruct (Z.ltb_spec (bitWidthOf (toU (mn - mx))) (bitWidthOf (toU mx))).
           { destruct Hne. apply (negative_width n sg HT); try done; lia. }
           rewrite U, W8 by done. f_equal. f_equal. apply wrapU_id.
           pose proof (bitWidth_le (Z.max (Z.abs mn) (Z.abs mx)) n ltac:(lia) ltac:(lia)). pose proof (bitWidth_nonneg (Z.max (Z.abs mn) (Z.abs mx))). unfold inU. lia.
      * rewrite (proj2 (Z.eqb_neq mn mx)) by lia. rewrite U, W8 by done. f_equal. f_equal. apply wrapU_id.
        pose proof (bitWidth_le (Z.max (Z.abs mn) (Z.abs mx)) n ltac:(lia) ltac:(lia)). pose proof (bitWidth_nonneg (Z.max (Z.abs mn) (Z.abs mx))). unfold inU. lia.
    + rewrite U, W8 by done. do 3 f_equal. lia.
Qed.

(** ** Minimum and maximum of the values that are not null *)

Definition maskOK (mask : option NullMask) (pos len : nat) : Prop :=
  match mask with None => True | Some m => wf_mask m /\ (pos + len <= 64 * length (NullMask.data m))%nat end.
Definition selected (mask : option NullMask) (i : nat) : bool :=
  match mask with None => true | Some m => negb (maskBit m i) end.

(** A pair of bounds that values of a list attain. *)
Definition boundsOf (P : Z -> Prop) (r : option (StorageValue * StorageValue)) : Prop :=
  match r with
  | None => forall v, ~ P v
  | Some (a, b) => exists lo hi, a = storageValue n lo /\ b = storageValue n hi /\ P lo /\ P hi /\ forall v, P v -> lo <= v <= hi
  end.

Lemma boundsOf_ext P Q r : (forall v, P v <-> Q v) -> boundsOf P r -> boundsOf Q r.
Proof.
  intros H. destruct r as [[a b]|]; cbn.
  - intros (lo & hi & -> & -> & H1 & H2 & H3). exists lo, hi. rewrite <- !H. split_and!; try done. intros v Hv. by apply H3, H.
  - intros HP v Hv. by apply (HP v), H.
Qed.

Lemma minMaxLoop_ok data m pos acc P :
  wf_mask m -> (pos + length data <= 64 * length (NullMask.data m))%nat -> boundsOf P acc -> (forall v, P v -> inT n sg v) ->
  exists r, minMaxLoop n sg data m pos acc = Ok r /\
    boundsOf (fun v => P v \/ exists i x, data !! i = Some x /\ v = toT x /\ maskBit m (pos + i) = false) r.
Proof using HT.
  intros Hm. revert pos acc P. induction data as [|x data IH]; intros pos acc P Hl HP Hin; cbn [minMaxLoop length] in *.
  - exists acc. split; [done|]. eapply boundsOf_ext; [|exact HP]. intros v. split; [by left|]. intros [|(i & y & E & _)]; [done|by rewrite lookup_nil in E].
  - destruct (setNull_isNull (NullMask.data m) pos false (proj1 Hm) ltac:(lia)) as [-> _]. cbn [obind]. fold (maskBit m pos).
    set (P' := fun v => P v \/ (maskBit m pos = false /\ v = toT x)).
    match goal with |- context [minMaxLoop n sg data m (S pos) ?a] => destruct (IH (S pos) a P') as (r & -> & Hr) end; [lia| | |].
    3: { exists r. split; [done|]. eapply boundsOf_ext; [|exact Hr]. intros v. unfold P'. split.
      - intros [[Hv|[Hb ->]]|(i & y & E & -> & Hb)]; [by left|right; exists 0%nat, x; by rewrite Nat.add_0_r|].
        right. exists (S i), y. by rewrite Nat.add_succ_r.
      - intros [Hv|(i & y & E & -> & Hb)]; [by left; left|]. destruct i as [|i].
        + injection E as <-. left. right. by rewrite Nat.add_0_r in Hb.
        + right. exists i, y. by rewrite Nat.add_succ_r in Hb. }
    2: { intros v [Hv|[_ ->]]; [by apply Hin|]. by apply toT_range. }
    unfold P'. destruct (maskBit m pos); cbn.
    + eapply boundsOf_ext; [|exact HP]. intros v. split; [by left|]. by intros [|[? _]].
    + destruct acc as [[a b]|]; cbn in *.
      * destruct HP as (lo & hi & -> & -> & H1 & H2 & H3). rewrite !get_storageValue by auto.
        exists (Z.min lo (toT x)), (Z.max hi (toT x)). split_and!.
        -- destruct (Z.ltb_spec (toT x) lo); f_equal; lia.
        -- destruct (Z.ltb_spec hi (toT x)); f_equal; lia.
        -- destruct (Z.min_spec lo (toT x)) as [[_ ->]|[_ ->]]; auto.
        -- destruct (Z.max_spec hi (toT x)) as [[_ ->]|[_ ->]]; auto.
        -- intros v [Hv|[_ ->]]; [specialize (H3 v Hv)|]; lia.
      * exists (toT x), (toT x). split_and!; auto. intros v [Hv|[_ ->]]; [by destruct (HP v)|lia].
Qed.

Lemma fold_min_bounds x l : forall v, v = x \/ v ∈ l -> foldl Z.min x l <= v.
Proof.
  revert x. induction l as [|y l IH]; intros x v Hv; cbn; [destruct Hv as [->|Hv]; [lia|set_solver]|].
  destruct Hv as [->|Hv].
  - transitivity (Z.min x y); [|lia]. apply IH. by left.
  - apply elem_of_cons in Hv as [->|Hv]; [|apply IH; by right]. transitivity (Z.min x y); [|lia]. apply IH. by left.
Qed.
Lemma fold_max_bounds x l : forall v, v = x \/ v ∈ l -> v <= foldl Z.max x l.
Proof.
  revert x. induction l as [|y l IH]; intros x v Hv; cbn; [destruct Hv as [->|Hv]; [lia|set_solver]|].
  destruct Hv as [->|Hv].
  - transitivity (Z.max x y); [lia|]. apply IH. by left.
  - apply elem_of_cons in Hv as [->|Hv]; [|apply IH; by right]. transitivity (Z.max x y); [lia|]. apply IH. by left.
Qed.
Lemma fold_attained (f : Z -> Z -> Z) x l :
  (forall a b, f a b = a \/ f a b = b) -> foldl f x l = x \/ foldl f x l ∈ l.
Proof.
  intros Hf. revert x. induction l as [|y l IH]; intros x; cbn; [by left|].
  destruct (IH (f x y)) as [->|Hin]; [|right; set_solver]. destruct (Hf x y) as [->| ->]; [by left|right; set_solver].
Qed.

Lemma getTypedMinMax_ok data mask pos :
  data <> [] -> maskOK mask pos (length data) ->
  exists r, getTypedMinMax n sg data mask pos = Ok r /\
    boundsOf (fun v => exists i x, data !! i = Some x /\ v = toT x /\ selected mask (pos + i) = true) r.
Proof using HT.
  intros Hd Hm. destruct data as [|x rest]; [done|].
  assert (Hall : (forall i, selected mask i = true) ->
    boundsOf (fun v => exists i y, (x :: rest) !! i = Some y /\ v = toT y /\ selected mask (pos + i) = true)
      (Some (storageValue n (foldl Z.min (toT x) (toT <$> rest)), storageValue n (foldl Z.max (toT x) (toT <$> rest))))).
  { intros Hs. cbn. set (Q := fun v => v = toT x \/ v ∈ (toT <$> rest)).
    assert (HQ : forall v, Q v <-> exists i y, (x :: rest) !! i = Some y /\ v = toT y /\ selected mask (pos + i) = true).
    { intros v. unfold Q. split.
      - intros [->|(y & -> & Hy)%list_elem_of_fmap]; [exists 0%nat, x; auto|]. apply list_elem_of_lookup in Hy as [i Hi]. exists (S i), y. auto.
      - intros ([|i] & y & E & -> & _); [injection E as <-; by left|]. right. apply list_elem_of_fmap. exists y. split; [done|]. by eapply list_elem_of_lookup_2. }
    eexists _, _. split_and!; [done|done|apply HQ..|].
    - destruct (fold_attained Z.min (toT x) (toT <$> rest)) as [->|]; [lia|by left|by right].
    - destruct (fold_attained Z.max (toT x) (toT <$> rest)) as [->|]; [lia|by left|by right].
    - intros v Hv%HQ. split; [by apply fold_min_bounds|by apply fold_max_bounds]. }
  unfold getTypedMinMax. destruct mask as [m|]; [|eexists; split; [done|by apply Hall]]. destruct Hm as [Hw Hl].
  destruct (hasNoNullsGuarantee m) eqn:Eg.
  - eexists. split; [done|]. apply Hall. intros i. cbn. apply negb_true_iff, (proj2 Hw). by apply negb_true_iff in Eg.
  - destruct (minMaxLoop_ok (x :: rest) m pos None (fun _ => False) Hw Hl) as (r & -> & Hr); [by intros ? []|by intros ? []|].
    exists r. split; [done|]. eapply boundsOf_ext; [|exact Hr]. intros v. cbn [selected]. setoid_rewrite negb_true_iff. tauto.
Qed.
(** ** A value that leaves the packing of a chunk as it is *)

Definition samePacking (md : CompressionMetadata) (v : Z) : Prop :=
  packOf (Z.min (get (min md)) v) (Z.max (get (max md)) v) = packOf (get (min md)) (get (max md)).
Definition notSmallest (v : Z) : Prop := sg = true -> v <> - 2 ^ (n - 1).

Definition widened (md : CompressionMetadata) (lo hi : Z) : CompressionMetadata :=
  mkMeta (storageValue n (Z.min (get (min md)) lo)) (storageValue n (Z.max (get (max md)) hi)) (compression md).

Lemma get_range x : inT n sg (get x).
Proof using HT. by apply toT_range. Qed.

Lemma get_widened md lo hi :
  inT n sg lo -> inT n sg hi ->
  get (min (widened md lo hi)) = Z.min (get (min md)) lo /\ get (max (widened md lo hi)) = Z.max (get (max md)) hi.
Proof using HT.
  intros Hlo Hhi. pose proof (get_range (min md)). pose proof (get_range (max md)). unfold widened. cbn [min max].
  rewrite !get_storageValue; [done|done| |done|]; unfold inT, inS, inU in *; destruct sg; lia.
Qed.

Lemma widened_meta md lo hi :
  metaOK n sg md -> inT n sg lo -> inT n sg hi -> lo <= hi -> notSmallest lo -> metaOK n sg (widened md lo hi).
Proof using HT.
  intros [H1 H2] Hlo Hhi Hle Hns. destruct (get_widened md lo hi Hlo Hhi) as [E1 E2].
  split; [rewrite E1, E2; lia|]. intros Hsg. rewrite E1. specialize (H2 Hsg). specialize (Hns Hsg). lia.
Qed.

Lemma widened_packing md lo hi :
  metaOK n sg md -> inT n sg lo -> inT n sg hi -> lo <= hi -> notSmallest lo ->
  getPackingInfo n sg (widened md lo hi) = Ok (packOf (Z.min (get (min md)) lo) (Z.max (get (max md)) hi)).
Proof using HT.
  intros Hm Hlo Hhi Hle Hns. rewrite packing_value by by apply widened_meta.
  by destruct (get_widened md lo hi Hlo Hhi) as [-> ->].
Qed.

Lemma samePacking_fits md info v :
  metaOK n sg md -> getPackingInfo n sg md = Ok info -> inT n sg v -> notSmallest v -> samePacking md v -> fits info v.
Proof using HT.
  intros Hm Hi Hv Hns Hs. pose proof (widened_packing md v v Hm Hv Hv ltac:(lia) Hns) as E.
  destruct (getPackingInfo_ok n sg HT _ (widened_meta md v v Hm Hv Hv ltac:(lia) Hns)) as (info' & Hi' & _ & Hf).
  destruct (get_widened md v v Hv Hv) as [E1 E2]. rewrite E1, E2 in Hf. rewrite E in Hi'. injection Hi' as <-.
  rewrite packing_value in Hi by done. injection Hi as <-. rewrite <- Hs. apply Hf. lia.
Qed.

(** The comparison of two packings. *)
Lemma same_info (a b : BitpackInfo) :
  negb (negb (bitWidth a =? bitWidth b) || xorb (hasNegative a) (hasNegative b) || negb (offset a =? offset b)) = true <-> a = b.
Proof.
  destruct a as [w1 h1 o1], b as [w2 h2 o2]. cbn. rewrite negb_true_iff, !orb_false_iff, !negb_false_iff, !Z.eqb_eq.
  split; [|intros [= -> -> ->]; by destruct h2]. intros [[-> Hx] ->]. by destruct h1, h2.
Qed.

Lemma canUpdate_value md x :
  metaOK n sg md -> notSmallest (toT x) -> samePacking md (toT x) ->
  canUpdateInPlace n sg [x] md None 0 = Ok true.
Proof using HT.
  intros Hm Hns Hs. unfold canUpdateInPlace. rewrite packing_value by done. cbn [obind getTypedMinMax fmap list_fmap foldl].
  rewrite get_storageValue by (try done; by apply toT_range). fold (widened md (toT x) (toT x)).
  rewrite widened_packing by (try done; try lia; by apply toT_range). cbn [obind]. f_equal. by apply same_info.
Qed.

(** A batch that can be updated in place has only values that leave the packing as it is. *)
Lemma canUpdate_batch md values mask pos :
  metaOK n sg md -> values <> [] -> maskOK mask pos (length values) ->
  (forall i x, values !! i = Some x -> selected mask (pos + i) = true -> notSmallest (toT x)) ->
  canUpdateInPlace n sg values md mask pos = Ok true ->
  forall i x, values !! i = Some x -> selected mask (pos + i) = true -> samePacking md (toT x).
Proof using HT.
  intros Hm Hv Hmask Hns Hc i x Hx Hsel. unfold canUpdateInPlace in Hc. rewrite packing_value in Hc by done. cbn [obind] in Hc.
  destruct (getTypedMinMax_ok values mask pos Hv Hmask) as (r & Hr & Hb). rewrite Hr in Hc. cbn [obind] in Hc.
  destruct r as [[a b]|].
  - cbn [boundsOf] in Hb. destruct Hb as (lo & hi & -> & -> & (i1 & x1 & H1 & -> & Hs1) & (i2 & x2 & H2 & -> & Hs2) & Hle).
    pose proof (toT_range n sg HT x1). pose proof (toT_range n sg HT x2).
    assert (Hxle : toT x1 <= toT x <= toT x2) by (apply Hle; eauto). rewrite !get_storageValue in Hc by done.
    fold (widened md (toT x1) (toT x2)) in Hc. rewrite widened_packing in Hc by (try done; try lia; by eapply Hns).
    cbn [obind] in Hc. injection Hc as Hc%same_info. unfold samePacking. destruct Hm as [Hm _]. eapply packOf_between; try exact Hc; lia.
  - destruct (Hb (toT x)). eauto.
Qed.

Lemma allUpdatable_ok md src mask pos :
  metaOK n sg md -> maskOK mask pos (length src) ->
  (forall i x, src !! i = Some x -> selected mask (pos + i) = true -> notSmallest (toT x) /\ samePacking md (toT x)) ->
  allUpdatable n sg src md mask pos = Ok true.
Proof using HT.
  intros Hm. revert pos. induction src as [|x src IH]; intros pos Hmask Hs; cbn [allUpdatable]; [done|].
  rewrite (IH (S pos)).
  - destruct mask as [m|]; cbn [obind].
    + destruct Hmask as [Hw Hl]. cbn [length] in Hl. destruct (setNull_isNull (NullMask.data m) pos false (proj1 Hw) ltac:(lia)) as [-> _].
      cbn [obind]. fold (maskBit m pos). destruct (maskBit m pos) eqn:Eb; [done|].
      destruct (Hs 0%nat x eq_refl) as [H1 H2]; [cbn; by rewrite Nat.add_0_r, Eb|]. by rewrite canUpdate_value.
    + destruct (Hs 0%nat x eq_refl eq_refl) as [H1 H2]. by rewrite canUpdate_value.
  - destruct mask; [|done]. destruct Hmask. cbn [length] in *. split; [done|lia].
  - intros i y Hy Hsel. apply (Hs (S i) y); [done|]. by rewrite Nat.add_succ_r.
Qed.
End Update.

Lemma lookup_getFields m off w k i :
  (i < k)%nat -> getFields m off w k !! i = Some (getField m (off + w * Z.of_nat i) w).
Proof.
  revert off i. induction k as [|k IH]; intros off i Hi; cbn [getFields]; [lia|]. destruct i as [|i]; [cbn; do 2 f_equal; lia|].
  cbn [lookup list_lookup]. rewrite IH by lia. do 2 f_equal. lia.
Qed.

(** Reading one field of a sequence that was written. *)
Lemma getField_setFields m off w vs i v :
  0 <= off -> 0 <= w -> vs !! i = Some v -> getField (setFields m off w vs) (off + w * Z.of_nat i) w = wrapU w v.
Proof.
  intros Ho Hw Hv. pose proof (lookup_lt_Some _ _ _ Hv) as Hi. pose proof (getFields_same m off w vs Ho Hw) as E.
  apply (f_equal (.!! i)) in E. rewrite lookup_getFields, list_lookup_fmap, Hv in E by done. by injection E.
Qed.

Section InPlace.
Context (n : Z) (sg : bool) (HT : intType n sg) `{PK : ChunkPackerOK n}.

Local Abbreviation toU := (toU n).

Lemma setPartial_fields vs dst pos info :
  0 <= pos -> widthOK n (bitWidth info) ->
  setPartialChunkInPlace n sg vs dst pos info =
  setFields dst (pos * bitWidth info) (bitWidth info) ((fun x => toU (toT n sg x - offset info)) <$> vs).
Proof using HT. intros Hp Hw. unfold setPartialChunkInPlace. rewrite (packPartialChunk_fields n sg HT) by (try done; lia). done. Qed.

(** An update writes one field for each value, whatever the alignment. *)
Lemma setValues_fields src posInSrc dst posInDst count md info mask :
  (posInSrc + count <= length src)%nat -> 0 <= posInDst -> getPackingInfo n sg md = Ok info -> widthOK n (bitWidth info) ->
  allUpdatable n sg (take count (drop posInSrc src)) md mask posInSrc = Ok true ->
  setValuesFromUncompressed n sg src posInSrc dst posInDst count md mask =
  Ok (setFields dst (posInDst * bitWidth info) (bitWidth info)
        ((fun x => toU (toT n sg x - offset info)) <$> take count (drop posInSrc src))).
Proof using HT PK.
  intros Hl Hp Hi Hw0 Hu. pose proof (widthOK_range n _ Hw0) as Hw. unfold setValuesFromUncompressed. rewrite Hi. cbn [obind]. rewrite Hu. cbn [obind negb]. f_equal.
  set (vs := take count (drop posInSrc src)) in *. set (f := fun x => toU (toT n sg x - offset info)).
  assert (Hvs : length vs = count) by (unfold vs; rewrite length_take, length_drop; lia). set (w := bitWidth info) in *.
  pose proof (Z.div_mod posInDst 32 ltac:(lia)) as D. pose proof (Z.mod_pos_bound posInDst 32 ltac:(lia)) as Hr.
  set (q := posInDst / 32) in *. set (r := posInDst mod 32) in *. assert (Hq : 0 <= q) by (apply Z.div_pos; lia).
  set (vf := Z.min (32 - r) (Z.of_nat count)). set (first := if vf <? 32 then Z.to_nat vf else 0%nat).
  assert (Hfirst : (first <= count)%nat /\ (first = count \/ r + Z.of_nat first = 32 \/ (r = 0 /\ first = 0%nat)))
    by (unfold first; destruct (Z.ltb_spec vf 32); unfold vf in *; lia).
  assert (E1 : (if vf <? 32 then setPartialChunkInPlace n sg (take first vs) dst posInDst info else dst) =
               setFields dst (posInDst * w) w (f <$> take first vs)).
  { unfold first. destruct (Z.ltb_spec vf 32); [by apply setPartial_fields|done]. }
  rewrite E1. unfold CHUNK_SIZE. pose proof (Nat.div_mod_eq (count - first) 32) as Dn. pose proof (Nat.mod_upper_bound (count - first) 32 ltac:(lia)) as Hmod.
  set (full := ((count - first) / 32)%nat) in *.
  assert (E2 : forall d, packChunks n full (drop first vs) d (posInDst + Z.of_nat first) (fun ws => copyValuesToTempChunkWithOffset n sg ws info) w =
               setFields d ((posInDst + Z.of_nat first) * w) w (f <$> take (full * 32) (drop first vs))).
  { intros d. destruct (decide (full = 0%nat)) as [->|]; [done|].
    assert (Hk : exists k, 0 <= k /\ posInDst + Z.of_nat first = 32 * k) by (destruct Hfirst as [? [?|[?|[? ?]]]]; [lia|exists (q + 1); lia|exists q; lia]).
    destruct Hk as (k & Hk & ->). apply (packChunks_fields n sg HT); [done|done|lia|]. rewrite length_drop. lia. }
  rewrite E2. set (lci := (first + full * 32)%nat) in *.
  assert (E3 : forall d, (if (0 <? count - lci)%nat then setPartialChunkInPlace n sg (drop lci vs) d (posInDst + Z.of_nat lci) info else d) =
               setFields d ((posInDst + Z.of_nat lci) * w) w (f <$> drop lci vs)).
  { intros d. destruct (Nat.ltb_spec 0 (count - lci)); [apply setPartial_fields; [lia|done]|]. by rewrite drop_ge by lia. }
  rewrite E3. rewrite <- (take_drop first vs) at 4. rewrite <- (take_drop (full * 32) (drop first vs)) at 2.
  rewrite !fmap_app, !setFields_app, !length_fmap, drop_drop, !length_take, length_drop, !Nat.min_l by lia.
  unfold lci. replace (posInDst * w + w * Z.of_nat first) with ((posInDst + Z.of_nat first) * w) by lia. f_equal. lia.
Qed.

(** If [canUpdateInPlace] accepts a batch, the batch can be written over a compressed page
    without compressing it again: [setValuesFromUncompressed] does not fail, every value of the
    batch that is not null is read back at its place, and every range of values outside the batch
    reads as before, whatever the alignment of the batch and of the range. *)
Theorem update_in_place vs posInSrc dst posInDst count md mask info :
  metaOK n sg md -> getPackingInfo n sg md = Ok info -> usable n info ->
  (0 < count)%nat -> (posInSrc + count <= length vs)%nat -> 0 <= posInDst -> maskOK mask posInSrc count ->
  Forall (inT n sg) vs ->
  (forall i v, (i < count)%nat -> vs !! (posInSrc + i)%nat = Some v -> selected mask (posInSrc + i) = true -> notSmallest n sg v) ->
  canUpdateInPlace n sg (take count (drop posInSrc (toU <$> vs))) md mask posInSrc = Ok true ->
  exists m', setValuesFromUncompressed n sg (toU <$> vs) posInSrc dst posInDst count md mask = Ok m' /\
    (forall i v, (i < count)%nat -> vs !! (posInSrc + i)%nat = Some v -> selected mask (posInSrc + i) = true ->
       decompressFromPage n sg m' (posInDst + Z.of_nat i) 1 md = Ok [toU v]) /\
    (forall off cnt, 0 <= off -> off + Z.of_nat cnt <= posInDst \/ posInDst + Z.of_nat count <= off ->
       decompressFromPage n sg m' off cnt md = decompressFromPage n sg dst off cnt md).
Proof using HT PK.
  intros Hm Hi [Hw0 Hneg] H0 Hl Hp Hmask Hin Hns Hc. pose proof (widthOK_range n _ Hw0) as Hw. set (src := take count (drop posInSrc (toU <$> vs))) in *.
  assert (Hlen : length src = count) by (unfold src; rewrite length_take, length_drop, length_fmap; lia).
  assert (Hsrc : forall i x, src !! i = Some x -> exists v, (i < count)%nat /\ vs !! (posInSrc + i)%nat = Some v /\ toT n sg x = v).
  { intros i x Hx. unfold src in Hx. apply lookup_take_Some in Hx as [Hx Hlt]. rewrite lookup_drop, list_lookup_fmap in Hx.
    apply fmap_Some in Hx as (v & Hv & ->). exists v. split_and!; [done|done|]. rewrite toT_toU by done.
    apply toT_id; [done|]. by eapply Forall_lookup_1 in Hin. }
  assert (Hsame : forall i x, src !! i = Some x -> selected mask (posInSrc + i) = true -> notSmallest n sg (toT n sg x) /\ samePacking n sg md (toT n sg x)).
  { intros i x Hx Hsel. assert (Hnx : forall j y, src !! j = Some y -> selected mask (posInSrc + j) = true -> notSmallest n sg (toT n sg y)).
    { intros j y Hy Hs. destruct (Hsrc j y Hy) as (v & Hj & Hv & ->). by eapply Hns. }
    split; [by eapply Hnx|]. eapply canUpdate_batch; try done; [by intros E; rewrite E in Hlen; cbn in Hlen; lia|by rewrite Hlen]. }
  eexists. split; [apply setValues_fields; try done; [by rewrite length_fmap|apply allUpdatable_ok; try done; fold src; by rewrite Hlen]|].
  fold src. split.
  - intros i v Hlt Hv Hsel. rewrite (decompress_fields n sg HT _ _ _ _ info) by (try done; lia). cbn [getFields].
    assert (Hx : src !! i = Some (toU v)) by (unfold src; rewrite lookup_take_lt, lookup_drop, list_lookup_fmap, Hv by done; done).
    replace ((posInDst + Z.of_nat i) * bitWidth info) with (posInDst * bitWidth info + bitWidth info * Z.of_nat i) by lia.
    rewrite (getField_setFields _ _ _ _ i (toU (v - offset info))); [|nia|lia|].
    2: { rewrite list_lookup_fmap, Hx. cbn. do 3 f_equal. rewrite toT_toU by done. apply toT_id; [done|]. by eapply Forall_lookup_1 in Hin. }
    cbn [decodeAll]. destruct (Hsame i _ Hx Hsel) as [H1 H2]. destruct (getPackingInfo_ok n sg HT md Hm) as (info' & Hi' & Hok & _).
    rewrite Hi in Hi'. injection Hi' as <-. assert (Hv' : inT n sg v) by by eapply Forall_lookup_1 in Hin.
    rewrite toT_toU, toT_id in H1, H2 by done. rewrite decode_fits; [done|done|done|done|by eapply samePacking_fits].
  - intros off cnt Ho Hd. rewrite !(decompress_fields n sg HT _ _ _ _ info) by (try done; lia). f_equal.
    apply getFields_other; try nia. rewrite length_fmap, Hlen. destruct Hd; [left|right]; nia.
Qed.
End InPlace.

(** ** Examples *)

Definition exMeta (n mn mx : Z) : CompressionMetadata := mkMeta (storageValue n mn) (storageValue n mx) INTEGER_BITPACKING.
Definition exValues : list Z := (fun i => 1000 + Z.of_nat i) <$> seq 0 70.

(** Signed 32-bit integers from 1000 to 1069 take seven bits each. *)
Lemma page_roundtrip_witness :
  exists used k m', compressNextPage 32 true (toU 32 <$> exValues) 70 0 4096 (exMeta 32 1000 1069) = Ok (used, k, m') /\
    used <= 4096 /\ k = 70%nat /\
    forall off cnt, (off + cnt <= k)%nat ->
      decompressFromPage 32 true m' (Z.of_nat off) cnt (exMeta 32 1000 1069) = Ok (toU 32 <$> take cnt (drop off exValues)).
Proof.
  apply (page_roundtrip 32 true ltac:(split; [lia|done]) (exMeta 32 1000 1069) (mkInfo 7 false 1000) exValues 0 4096).
  - split; vm_compute; congruence.
  - reflexivity.
  - reflexivity.
  - split; [split; cbn; lia|done].
  - done.
  - lia.
  - apply Forall_forall. intros v (i & -> & Hi)%list_elem_of_fmap. apply elem_of_seq in Hi.
    change (get 32 true (min (exMeta 32 1000 1069))) with 1000. change (get 32 true (max (exMeta 32 1000 1069))) with 1069. lia.
Defined.

(** Signed 128-bit integers, one of the batch null, over a page of zeros. *)
Definition exMask : NullMask := mkNullMask [2] true.
Lemma update_in_place_witness :
  exists m', setValuesFromUncompressed 128 true (toU 128 <$> [7; 1000000; -9; -127]) 0 0 30 4 (exMeta 128 (-100) 100) (Some exMask) = Ok m' /\
    (forall i v, (i < 4)%nat -> [7; 1000000; -9; -127] !! (0 + i)%nat = Some v -> selected (Some exMask) (0 + i) = true ->
       decompressFromPage 128 true m' (30 + Z.of_nat i) 1 (exMeta 128 (-100) 100) = Ok [toU 128 v]) /\
    (forall off cnt, 0 <= off -> off + Z.of_nat cnt <= 30 \/ 30 + Z.of_nat 4 <= off ->
       decompressFromPage 128 true m' off cnt (exMeta 128 (-100) 100) = decompressFromPage 128 true 0 off cnt (exMeta 128 (-100) 100)).
Proof.
  apply (update_in_place 128 true ltac:(split; [lia|done]) [7; 1000000; -9; -127] 0 0 30 4 (exMeta 128 (-100) 100)
           (Some exMask) (mkInfo 8 true 0)).
  - split; vm_compute; congruence.
  - reflexivity.
  - split; [split|]; cbn; lia.
  - lia.
  - cbn. lia.
  - lia.
  - split; [|cbn; lia]. split; [|done]. repeat constructor; vm_compute; congruence.
  - repeat constructor; vm_compute; congruence.
  - intros i v Hi Hv _ _. do 4 (destruct i as [|i]; [injection Hv as <-; vm_compute; congruence|]). lia.
  - vm_compute. reflexivity.
Defined.

(** The smallest value of a small type is its own absolute value, and the maximum of -128 and 5 is
    5: the chunk -128, 5 of 8-bit integers gets four bits, and the page gives 0 back for -128.
    [metaOK] excludes it. *)
Example smallest_int8 : getPackingInfo 8 true (exMeta 8 (-128) 5) = Ok (mkInfo 4 true 0).
Proof. reflexivity. Qed.
Example smallest_int8_lost :
  exists m, compressNextPage 8 true (toU 8 <$> [-128; 5]) 2 0 4096 (exMeta 8 (-128) 5) = Ok (1, 2%nat, m) /\
    decompressFromPage 8 true m 0 2 (exMeta 8 (-128) 5) = Ok (toU 8 <$> [0; 5]).
Proof. eexists. split; vm_compute; reflexivity. Qed.
(** For larger types the absolute value of the smallest one is undefined or throws. *)
Example smallest_int64 : getPackingInfo 64 true (exMeta 64 (- 2 ^ 63) 5) = Err UndefinedBehaviour.
Proof. reflexivity. Qed.

(** All-negative chunks with more than one value do not use a frame of reference: -1000 to -990
    take eleven bits, where the distances take four and a sign. *)
Example negative_chunk : getPackingInfo 32 true (exMeta 32 (-1000) (-990)) = Ok (mkInfo 11 true 0).
Proof. reflexivity. Qed.
