(* ===== verification/Compression.v ===== *)
(** * Compressed column chunks (src/storage/compression/compression.cpp, compression.h,
      src/storage/store/column_chunk_metadata.cpp)

    The choice of a compression for a chunk, and the reading and writing of a page by the
    physical type and the compression of its chunk.  Pages and buffers are numbers as in
    [Bitpacking]: a buffer of values of [B] bits has value [i] in its bits from [B * i] on, and
    the values of a boolean chunk are single bits.

    The compression of floating-point numbers (class FloatCompression) is the class
    [FloatCompression]; the packing of 32 values at once by the fastpfor library is [fast]. *)

From stdpp Require Import base list numbers strings sets.
From S2P Require Import Prelude NullMask Bitpacking IntegerBitpacking.
Local Open Scope Z_scope.

(** ** Physical types *)

Inductive PhysicalTypeID :=
| ANY | BOOL | INT64 | INT32 | INT16 | INT8 | UINT64 | UINT32 | UINT16 | UINT8 | INT128 | DOUBLE | FLOAT
| INTERVAL | INTERNAL_ID | ALP_EXCEPTION_FLOAT | ALP_EXCEPTION_DOUBLE | STRING | LIST | ARRAY | STRUCT | POINTER.
#[global] Instance PhysicalTypeID_eq_dec : EqDecision PhysicalTypeID.
Proof. solve_decision. Defined.

Definition getFixedTypeSize (t : PhysicalTypeID) : outcome Z :=
  match t with
  | BOOL | INT8 | UINT8 => Ok 1
  | INT16 | UINT16 => Ok 2
  | INT32 | UINT32 | FLOAT => Ok 4
  | INT64 | UINT64 | DOUBLE => Ok 8
  | INT128 | INTERVAL | INTERNAL_ID => Ok 16
  | ALP_EXCEPTION_FLOAT => Ok 8
  | ALP_EXCEPTION_DOUBLE => Ok 12
  | _ => Err InternalException
  end.

Definition getDataTypeSizeInChunk (t : PhysicalTypeID) : outcome Z :=
  match t with
  | STRING | ARRAY | LIST | STRUCT => Ok 0
  | INTERNAL_ID => Ok 8
  | _ => let* size := getFixedTypeSize t in
         if size <=? Z.of_nat PAGE_SIZE then Ok size else Err InternalException
  end.

Record ColumnChunkMetadata := mkChunkMeta { pageIdx : Z; numPages : Z; chunkValues : Z; compMeta : CompressionMetadata }.

Definition UINT64_MAX : Z := 2 ^ 64 - 1.
Definition INVALID_PAGE : Z := 2 ^ 32 - 1.

(** The operations of FloatCompression<T>, for [FLOAT] and [DOUBLE]. *)
Class FloatCompression := {
  float_setValues : PhysicalTypeID -> Z -> nat -> Z -> nat -> nat -> CompressionMetadata -> option NullMask -> outcome Z;
  float_decompress : PhysicalTypeID -> Z -> nat -> Z -> nat -> nat -> CompressionMetadata -> outcome Z;
  float_canUpdate : PhysicalTypeID -> Z -> nat -> nat -> CompressionMetadata -> option NullMask -> outcome bool;
  float_numValues : PhysicalTypeID -> Z -> CompressionMetadata -> Z;
  float_metadata : PhysicalTypeID -> Z -> Z -> Z -> StorageValue -> StorageValue -> outcome ColumnChunkMetadata;
  float_minMax : PhysicalTypeID -> Z -> nat -> nat -> option NullMask -> outcome (option (StorageValue * StorageValue));
  float_gt : StorageValue -> StorageValue -> bool;
  double_to_float : Z -> Z
}.

(** ** Copies *)

Definition memcpy (dst dstByte src srcByte bytes : Z) : Z := setField dst (8 * dstByte) (8 * bytes) (getField src (8 * srcByte) (8 * bytes)).

(** The 64-bit words of a buffer that hold its first bits. *)
Definition words (m : Z) (nbits : nat) : entries := getFields m 0 64 (nbits / 64 + 1).
Definition ofWords (m : Z) (l : entries) : Z := setFields m 0 64 l.

(** ** [Uncompressed] *)

Definition Uncompressed_setValues (numBytesPerValue src : Z) (srcOffset : nat) (dst : Z) (dstOffset count : nat) : Z :=
  memcpy dst (Z.of_nat dstOffset * numBytesPerValue) src (Z.of_nat srcOffset * numBytesPerValue) (numBytesPerValue * Z.of_nat count).
Definition Uncompressed_decompressFromPage (numBytesPerValue src : Z) (srcOffset : nat) (dst : Z) (dstOffset count : nat) : Z :=
  memcpy dst (Z.of_nat dstOffset * numBytesPerValue) src (Z.of_nat srcOffset * numBytesPerValue) (Z.of_nat count * numBytesPerValue).
Definition Uncompressed_numValues (dataSize : Z) (t : PhysicalTypeID) : outcome Z :=
  let* numBytesPerValue := getDataTypeSizeInChunk t in
  Ok (if numBytesPerValue =? 0 then UINT64_MAX else dataSize / numBytesPerValue).
(** The bytes used, the values consumed, and the page; the source is the list of its values. *)
Definition Uncompressed_compressNextPage (numBytesPerValue : Z) (src : list Z) (numValuesRemaining dst dstBufferSize : Z) : Z * nat * Z :=
  if numBytesPerValue =? 0 then (0, 0%nat, dst)
  else let count := Z.min numValuesRemaining (dstBufferSize / numBytesPerValue) in
       (count * numBytesPerValue, Z.to_nat count, setFields dst 0 (8 * numBytesPerValue) (take (Z.to_nat count) src)).

(** ** [BooleanBitpacking] *)

Definition BooleanBitpacking_copyFromPage (src : Z) (srcOffset : nat) (dst : Z) (dstOffset count : nat) : outcome Z :=
  let* r := copyNullMask (words src (srcOffset + count)) srcOffset (words dst (dstOffset + count)) dstOffset count false in
  Ok (ofWords dst (snd r)).

Fixpoint setBools (src : Z) (srcOffset : nat) (dst : entries) (dstOffset count : nat) : outcome entries :=
  match count with
  | O => Ok dst
  | S count =>
      let* dst := setNull dst dstOffset (negb (getField src (8 * Z.of_nat srcOffset) 8 =? 0)) in
      setBools src (S srcOffset) dst (S dstOffset) count
  end.
Definition BooleanBitpacking_setValues (src : Z) (srcOffset : nat) (dst : Z) (dstOffset count : nat) : outcome Z :=
  let* l := setBools src srcOffset (words dst (dstOffset + count)) dstOffset count in Ok (ofWords dst l).

Fixpoint BooleanBitpacking_decompressFromPage (src : Z) (srcOffset : nat) (dst : Z) (dstOffset count : nat) : outcome Z :=
  match count with
  | O => Ok dst
  | S count =>
      let* b := isNull (words src srcOffset) srcOffset in
      BooleanBitpacking_decompressFromPage src (S srcOffset) (setField dst (8 * Z.of_nat dstOffset) 8 (Z.b2z b)) (S dstOffset) count
  end.
Definition BooleanBitpacking_numValues (dataSize : Z) : Z := dataSize * 8.

(** ** Statistics of a chunk *)

Definition signedInt (x : StorageValue) : Z := wrapS 64 x.
Definition unsignedInt (x : StorageValue) : Z := wrapU 64 x.
Definition signedInt128 (x : StorageValue) : Z := wrapS 128 x.

Definition getChildCount (c : CompressionType) : nat := match c with ALP => 1%nat | _ => 0%nat end.

Definition canAlwaysUpdateInPlace (md : CompressionMetadata) : bool :=
  match compression md with
  | BOOLEAN_BITPACKING | UNCOMPRESSED => true
  | CONSTANT | ALP | INTEGER_BITPACKING => false
  end.

Definition isMaskNull (nullMask : option NullMask) (pos : nat) : outcome bool :=
  match nullMask with Some m => isNull (NullMask.data m) pos | None => Ok false end.

(** [i] runs over the positions of the values. *)
Fixpoint allSame (same : nat -> outcome bool) (nullMask : option NullMask) (i count : nat) : outcome bool :=
  match count with
  | O => Ok true
  | S count =>
      let* null := isMaskNull nullMask i in
      if null : bool then allSame same nullMask (S i) count
      else let* b := same i in if b : bool then allSame same nullMask (S i) count else Ok false
  end.

Section Types.
Context `{FC : FloatCompression} (fast : forall n, ChunkPacker n).

Definition gt (t : PhysicalTypeID) (x other : StorageValue) : outcome bool :=
  match t with
  | BOOL | LIST | ARRAY | INTERNAL_ID | STRING | UINT64 | UINT32 | UINT16 | UINT8 => Ok (unsignedInt other <? unsignedInt x)
  | INT128 => Ok (signedInt128 other <? signedInt128 x)
  | INT64 | INT32 | INT16 | INT8 => Ok (signedInt other <? signedInt x)
  | FLOAT | DOUBLE => Ok (float_gt x other)
  | _ => Err InternalException
  end.

(** An integer type, and how 32 of its values are packed. *)
Record IntegerType := mkInteger { bits : Z; isSigned : bool; packer : ChunkPacker bits }.
Definition sized (n : Z) (sg : bool) : IntegerType := mkInteger n sg (fast n).

(** The type with which TypeUtils::visit calls a function of an IntegerBitpackingType. *)
Definition integerType (t : PhysicalTypeID) : option IntegerType :=
  match t with
  | INT128 => Some (mkInteger 128 true packer128)
  | INT64 => Some (sized 64 true)
  | INT32 => Some (sized 32 true)
  | INT16 => Some (sized 16 true)
  | INT8 => Some (sized 8 true)
  | UINT64 => Some (sized 64 false)
  | UINT32 => Some (sized 32 false)
  | UINT16 => Some (sized 16 false)
  | UINT8 => Some (sized 8 false)
  | _ => None
  end.
(** Internal IDs are packed as their offsets. *)
Definition packedType (t : PhysicalTypeID) : option IntegerType :=
  match t with INTERNAL_ID => Some (sized 64 false) | _ => integerType t end.

Definition notPacked : string := "INTEGER_BITPACKING is not implemented for this type".

Definition canUpdateInPlace (md : CompressionMetadata) (data : Z) (pos count : nat) (t : PhysicalTypeID)
    (nullMask : option NullMask) : outcome bool :=
  if canAlwaysUpdateInPlace md then Ok true
  else match compression md with
  | CONSTANT =>
      match t with
      | BOOL => allSame (fun i => let* b := isNull (words data (pos + count)) i in
                                  Ok (eqb b (negb (unsignedInt (min md) =? 0)))) nullMask pos count
      | _ => let* size := getDataTypeSizeInChunk t in
             allSame (fun i => Ok (getField data (8 * (Z.of_nat i * size)) (8 * size) =? wrapU (8 * size) (min md))) nullMask pos count
      end
  | BOOLEAN_BITPACKING | UNCOMPRESSED => Ok true
  | ALP => match t with
           | FLOAT | DOUBLE => float_canUpdate t data pos count md nullMask
           | _ => Err (StorageException "float compression of an unsupported physical type")
           end
  | INTEGER_BITPACKING =>
      match packedType t with
      | Some T => IntegerBitpacking.canUpdateInPlace (bits T) (isSigned T)
                    (getFields data (bits T * Z.of_nat pos) (bits T) count) md nullMask 0
      | None => Err (StorageException "integer bitpacking of an unsupported physical type")
      end
  end.

Definition numValues (md : CompressionMetadata) (pageSize : Z) (t : PhysicalTypeID) : outcome Z :=
  match compression md with
  | CONSTANT => Ok UINT64_MAX
  | UNCOMPRESSED => Uncompressed_numValues pageSize t
  | INTEGER_BITPACKING =>
      match packedType t with
      | Some T => let* info := getPackingInfo (bits T) (isSigned T) md in Ok (IntegerBitpacking.numValues pageSize info)
      | None => Err (StorageException "integer bitpacking of an unsupported physical type")
      end
  | ALP => match t with
           | FLOAT | DOUBLE => Ok (float_numValues t pageSize md)
           | _ => Err (StorageException "float compression of an unsupported physical type")
           end
  | BOOLEAN_BITPACKING => Ok (BooleanBitpacking_numValues pageSize)
  end.

(** ** [ConstantCompression] *)

Definition decompressValues (dst : Z) (dstOffset count : nat) (t : PhysicalTypeID) (numBytesPerValue : Z)
    (md : CompressionMetadata) : outcome Z :=
  let fill x := Ok (setFields dst (8 * (Z.of_nat dstOffset * numBytesPerValue)) (8 * numBytesPerValue) (replicate count x)) in
  match t with
  | INTERNAL_ID => fill (wrapU 64 (min md))
  | BOOL => fill (if wrapU 64 (min md) =? 0 then 0 else 1)
  | DOUBLE => fill (wrapU 64 (min md))
  | FLOAT => fill (double_to_float (wrapU 64 (min md)))
  | _ => match integerType t with
         | Some T => fill (toU (bits T) (get (bits T) (isSigned T) (min md)))
         | None => Err (NotImplementedException "CONSTANT compression is not implemented for this type")
         end
  end.
Definition Constant_copyFromPage (t : PhysicalTypeID) (numBytesPerValue dst : Z) (dstOffset count : nat)
    (md : CompressionMetadata) : outcome Z :=
  match t with
  | BOOL => let* l := setNullRange (words dst (dstOffset + count)) dstOffset count (negb (unsignedInt (min md) =? 0)) in
            Ok (ofWords dst l)
  | _ => decompressValues dst dstOffset count t numBytesPerValue md
  end.

(** ** Pages *)

(** Into the data of a vector; [elemPosInPage] is the position of the cursor. *)
Definition ReadCompressedValuesFromPageToVector (t : PhysicalTypeID) (frame : Z) (elemPosInPage : nat) (result : Z)
    (posInVector count : nat) (md : CompressionMetadata) : outcome Z :=
  let* numBytesPerValue := getDataTypeSizeInChunk t in
  match compression md with
  | CONSTANT => decompressValues result posInVector count t numBytesPerValue md
  | UNCOMPRESSED => Ok (Uncompressed_decompressFromPage numBytesPerValue frame elemPosInPage result posInVector count)
  | ALP => match t with
           | FLOAT | DOUBLE => float_decompress t frame elemPosInPage result posInVector count md
           | _ => Err (NotImplementedException "Float Compression is not implemented for this type")
           end
  | INTEGER_BITPACKING =>
      match packedType t with
      | Some T => let* vs := @decompressFromPage (bits T) (isSigned T) (packer T) frame (Z.of_nat elemPosInPage) count md in
                  Ok (setFields result (bits T * Z.of_nat posInVector) (bits T) vs)
      | None => Err (NotImplementedException notPacked)
      end
  | BOOLEAN_BITPACKING => BooleanBitpacking_decompressFromPage frame elemPosInPage result posInVector count
  end.

(** The case [UINT8] of the reader into chunks uses the signed type. *)
Definition chunkReaderType (t : PhysicalTypeID) : option IntegerType :=
  match t with UINT8 => Some (sized 8 true) | _ => packedType t end.

Definition ReadCompressedValuesFromPage (t : PhysicalTypeID) (frame : Z) (elemPosInPage : nat) (result : Z)
    (startPosInResult count : nat) (md : CompressionMetadata) : outcome Z :=
  let* numBytesPerValue := getDataTypeSizeInChunk t in
  match compression md with
  | CONSTANT => Constant_copyFromPage t numBytesPerValue result startPosInResult count md
  | UNCOMPRESSED => Ok (Uncompressed_decompressFromPage numBytesPerValue frame elemPosInPage result startPosInResult count)
  | ALP => match t with
           | FLOAT | DOUBLE => float_decompress t frame elemPosInPage result startPosInResult count md
           | _ => Err (NotImplementedException "Float Compression is not implemented for this type")
           end
  | INTEGER_BITPACKING =>
      match chunkReaderType t with
      | Some T => let* vs := @decompressFromPage (bits T) (isSigned T) (packer T) frame (Z.of_nat elemPosInPage) count md in
                  Ok (setFields result (bits T * Z.of_nat startPosInResult) (bits T) vs)
      | None => Err (NotImplementedException notPacked)
      end
  | BOOLEAN_BITPACKING => BooleanBitpacking_copyFromPage frame elemPosInPage result startPosInResult count
  end.

Definition WriteCompressedValuesToPage (t : PhysicalTypeID) (frame : Z) (posInFrame : nat) (data : Z) (dataOffset count : nat)
    (md : CompressionMetadata) (nullMask : option NullMask) : outcome Z :=
  let* numBytesPerValue := getDataTypeSizeInChunk t in
  match compression md with
  | CONSTANT => Ok frame
  | UNCOMPRESSED => Ok (Uncompressed_setValues numBytesPerValue data dataOffset frame posInFrame count)
  | INTEGER_BITPACKING =>
      match packedType t with
      | Some T => @setValuesFromUncompressed (bits T) (isSigned T) (packer T)
                    (getFields data 0 (bits T) (dataOffset + count)) dataOffset frame (Z.of_nat posInFrame) count md nullMask
      | None => Err (NotImplementedException notPacked)
      end
  | ALP => match t with
           | FLOAT | DOUBLE => float_setValues t data dataOffset frame posInFrame count md nullMask
           | _ => Err (NotImplementedException "FLOAT_COMPRESSION is not implemented for this type")
           end
  | BOOLEAN_BITPACKING => BooleanBitpacking_copyFromPage data dataOffset frame posInFrame count
  end.

(** ** Minimum and maximum of a chunk *)

Fixpoint boolMinMax (l : entries) (nullMask : NullMask) (i count : nat) (acc : option (bool * bool)) : outcome (option (bool * bool)) :=
  match count with
  | O => Ok acc
  | S count =>
      let* null := isNull (NullMask.data nullMask) i in
      if null : bool then boolMinMax l nullMask (S i) count acc
      else let* b := isNull l i in
           boolMinMax l nullMask (S i) count
             (match acc with None => Some (b, b) | Some (mn, mx) => Some (mn && b, mx || b) end)
  end.

Definition getMinMaxStorageValue (data : Z) (offset count : nat) (t : PhysicalTypeID) (nullMask : option NullMask)
    (valueRequiredIfUnsupported : bool) : outcome (option (StorageValue * StorageValue)) :=
  match t with
  | BOOL =>
      if (count =? 0)%nat then Ok None
      else match nullMask with
           | Some m => if hasNoNullsGuarantee m
                       then let* r := getMinMax (words data count) count in Ok (Some (Z.b2z (fst r), Z.b2z (snd r)))
                       else let* r := boolMinMax (words data count) m 0 count None in
                            Ok (match r with Some (mn, mx) => Some (Z.b2z mn, Z.b2z mx) | None => None end)
           | None => let* r := getMinMax (words data count) count in Ok (Some (Z.b2z (fst r), Z.b2z (snd r)))
           end
  | FLOAT | DOUBLE => if (count =? 0)%nat then Ok None else float_minMax t data offset count nullMask
  | INTERVAL | STRUCT | STRING | LIST | ARRAY =>
      Ok (if valueRequiredIfUnsupported then Some (0, UINT64_MAX) else None)
  | _ => match packedType t with
         | Some T => if (count =? 0)%nat then Ok None
                     else getTypedMinMax (bits T) (isSigned T) (getFields data (bits T * Z.of_nat offset) (bits T) count) nullMask offset
         | None => Err InternalException
         end
  end.

(** ** The compression of a chunk *)

(** The kind of compression that getCompression chooses for a type. *)
Definition getCompression (t : PhysicalTypeID) (enableCompression : bool) : CompressionType :=
  if negb enableCompression then UNCOMPRESSED
  else match t with
       | FLOAT | DOUBLE => ALP
       | _ => match packedType t with Some _ => INTEGER_BITPACKING | None => UNCOMPRESSED end
       end.

Definition getNumPagesForBytes (numBytes : Z) : Z := (numBytes + Z.of_nat PAGE_SIZE - 1) / Z.of_nat PAGE_SIZE.

Definition GetBitpackingMetadata (t : PhysicalTypeID) (alg : CompressionType) (capacity count : Z) (mn mx : StorageValue)
    : outcome ColumnChunkMetadata :=
  let* md := match alg, integerType t with
             | INTEGER_BITPACKING, Some T =>
                 let* info := getPackingInfo (bits T) (isSigned T) (mkMeta mn mx alg) in
                 Ok (mkMeta mn mx (if bits T <=? bitWidth info then UNCOMPRESSED else alg))
             | _, _ => Ok (mkMeta mn mx alg)
             end in
  let* numValuesPerPage := numValues md (Z.of_nat PAGE_SIZE) t in
  let pages := if numValuesPerPage =? UINT64_MAX then 0
               else capacity / numValuesPerPage + (if capacity mod numValuesPerPage =? 0 then 0 else 1) in
  Ok (mkChunkMeta INVALID_PAGE pages count md).

Definition GetCompressionMetadata (t : PhysicalTypeID) (alg : CompressionType) (buffer bufferSize capacity count : Z)
    (mn mx : StorageValue) : outcome ColumnChunkMetadata :=
  if mn =? mx then Ok (mkChunkMeta INVALID_PAGE 0 count (mkMeta mn mx CONSTANT))
  else match t with
       | BOOL => Ok (mkChunkMeta INVALID_PAGE (getNumPagesForBytes bufferSize) count (mkMeta mn mx BOOLEAN_BITPACKING))
       | STRING | ARRAY | LIST | INT64 | INT32 | INT16 | INT8 | INTERNAL_ID | UINT64 | UINT32 | UINT16 | UINT8 | INT128 =>
           GetBitpackingMetadata t alg capacity count mn mx
       | DOUBLE | FLOAT => float_metadata t buffer capacity count mn mx
       | _ => Ok (mkChunkMeta INVALID_PAGE (getNumPagesForBytes bufferSize) count (mkMeta mn mx UNCOMPRESSED))
       end.
End Types.
