(* ===== verification/PageCodec.v ===== *)
(** * What a column asks of the compression of its pages

    The class [PageCodec] is the contract between a column, which reads and writes ranges of
    values of pages, and a compression: a page holds a cell for each position, reading gives the
    cells, writing sets the cells of the values that are not null if the compression accepts
    them, leaves all others, and stays inside the page.  The instances show that constant
    compression, no compression, bit-packed booleans and bit-packed integers keep the contract,
    as the dispatch of [Compression] selects them. *)

From stdpp Require Import base list numbers strings sets.
From S2P Require Import Prelude NullMask Bitpacking IntegerBitpacking Compression.
Local Open Scope Z_scope.

(** ** Values in a buffer *)

Definition value (B : Z) (m : Z) (i : nat) : Z := getField m (B * Z.of_nat i) B.

Lemma field_value_range B m i : 0 <= B -> inU B (value B m i).
Proof. intros HB. by apply getField_range. Qed.

Lemma value_setFields B m start vs i :
  0 <= B -> value B (setFields m (B * Z.of_nat start) B vs) i =
    match (if decide (start <= i)%nat then vs !! (i - start)%nat else None) with
    | Some v => wrapU B v
    | None => value B m i
    end.
Proof.
  intros HB. unfold value. case_decide.
  - destruct (vs !! (i - start)%nat) as [v|] eqn:E.
    + replace (B * Z.of_nat i) with (B * Z.of_nat start + B * Z.of_nat (i - start)) by (rewrite Nat2Z.inj_sub, Z.mul_sub_distr_l by lia; lia).
      apply getField_setFields; try done; lia.
    + apply lookup_ge_None_1 in E. apply getField_setFields_other; nia.
  - apply getField_setFields_other; nia.
Qed.

Lemma getFields_values B m start k i : (i < k)%nat -> getFields m (B * Z.of_nat start) B k !! i = Some (value B m (start + i)).
Proof. intros Hi. rewrite lookup_getFields by done. unfold value. do 2 f_equal. lia. Qed.

Lemma getField_getField m off W o w : 0 <= off -> 0 <= o -> 0 <= w -> o + w <= W -> getField (getField m off W) o w = getField m (off + o) w.
Proof.
  intros H1 H2 H3 H4. apply Z.bits_inj'. intros i Hi. rewrite !testbit_getField by lia.
  destruct (Z.ltb_spec i w); rewrite ?andb_false_r, ?andb_true_r; [|done]. rewrite (proj2 (Z.ltb_lt (o + i) W)), andb_true_r by lia. f_equal. lia.
Qed.

Lemma getField_inside m off W v o w :
  0 <= off -> 0 <= W -> 0 <= w -> off <= o -> o + w <= off + W -> getField (setField m off W v) o w = getField v (o - off) w.
Proof.
  intros H1 H2 H3 H4 H5. apply Z.bits_inj'. intros i Hi. rewrite !testbit_getField, testbit_setField by lia.
  destruct (Z.ltb_spec i w); rewrite ?andb_false_r, ?andb_true_r; [|done].
  rewrite (proj2 (Z.leb_le off (o + i))), (proj2 (Z.ltb_lt (o + i) (off + W))) by lia. cbn [andb]. f_equal. lia.
Qed.

(** [memcpy] of values of [nb] bytes. *)
Lemma value_memcpy nb dst src dpos spos k i :
  0 <= nb ->
  value (8 * nb) (memcpy dst (Z.of_nat dpos * nb) src (Z.of_nat spos * nb) (nb * Z.of_nat k)) i =
  if decide (dpos <= i < dpos + k)%nat then value (8 * nb) src (spos + (i - dpos)) else value (8 * nb) dst i.
Proof.
  intros Hn. unfold value, memcpy. case_decide.
  - rewrite getField_inside by nia. rewrite getField_getField by nia. f_equal. nia.
  - destruct (decide (i < dpos)%nat); apply getField_other; nia.
Qed.

(** ** Bits in words *)

Lemma value_bit m i : value 1 m i = Z.b2z (Z.testbit m (Z.of_nat i)).
Proof.
  unfold value. apply Z.bits_inj'. intros j Hj. rewrite testbit_getField by lia. rewrite Z.mul_1_l.
  destruct (Z.eq_dec j 0) as [->|]; [rewrite Z.add_0_r, andb_true_r; by destruct (Z.testbit m _)|].
  rewrite (proj2 (Z.ltb_ge j 1)), andb_false_r by lia. destruct (Z.testbit m (Z.of_nat i)); cbn; [|by rewrite Z.bits_0].
  symmetry. rewrite Z.bits_above_log2; [done|done|cbn; lia].
Qed.

Lemma words_length m k : length (words m k) = (k / 64 + 1)%nat.
Proof. apply length_getFields. Qed.

Lemma words_enough m k : (k <= 64 * length (words m k))%nat.
Proof. rewrite words_length. pose proof (Nat.div_mod_eq k 64). pose proof (Nat.mod_upper_bound k 64). lia. Qed.

Lemma words_wf m k : wf_entries (words m k).
Proof.
  unfold wf_entries, words. generalize 0 as off. induction (k / 64 + 1)%nat as [|c IH]; intros off; constructor.
  - by apply getField_range.
  - apply IH.
Qed.

Lemma words_bit m k i : (i < 64 * length (words m k))%nat -> bit (words m k) i = Z.testbit m (Z.of_nat i).
Proof.
  intros Hi. rewrite words_length in Hi. unfold bit, words. rewrite lookup_getFields.
  2: { apply Nat.Div0.div_lt_upper_bound. lia. }
  unfold tb. pose proof (Nat.div_mod_eq i 64). pose proof (Nat.mod_upper_bound i 64 ltac:(lia)).
  rewrite testbit_getField by lia. rewrite (proj2 (Z.ltb_lt _ 64)), andb_true_r by lia. f_equal. lia.
Qed.

Lemma ofWords_bit m l i :
  wf_entries l -> Z.testbit (ofWords m l) (Z.of_nat i) = if decide (i < 64 * length l)%nat then bit l i else Z.testbit m (Z.of_nat i).
Proof.
  intros Hl. pose proof (Nat.div_mod_eq i 64). pose proof (Nat.mod_upper_bound i 64 ltac:(lia)).
  assert (E : forall x, Z.testbit x (Z.of_nat i) = Z.testbit (getField x (0 + 64 * Z.of_nat (i / 64)) 64) (Z.of_nat (i mod 64))).
  { intros x. rewrite testbit_getField by lia. rewrite (proj2 (Z.ltb_lt _ 64)), andb_true_r by lia. f_equal. lia. }
  rewrite E. unfold ofWords. case_decide.
  - destruct (lookup_lt_is_Some_2 l (i / 64)) as [w Hw]; [apply Nat.Div0.div_lt_upper_bound; lia|].
    rewrite (getField_setFields _ _ _ _ _ w) by (try done; lia). unfold bit, tb. rewrite Hw.
    rewrite wrapU_id; [done|]. by eapply wf_lookup.
  - rewrite getField_setFields_other; [by rewrite <- E|lia..|]. right.
    assert (length l <= i / 64)%nat by (apply Nat.div_le_lower_bound; lia). lia.
Qed.

(** Copying bits with [copyNullMask], and setting a range of them. *)
Lemma copyBits_ok src so dst d k :
  exists r, BooleanBitpacking_copyFromPage src so dst d k = Ok r /\
    forall i, Z.testbit r (Z.of_nat i) = if decide (d <= i < d + k)%nat then Z.testbit src (Z.of_nat (so + (i - d))) else Z.testbit dst (Z.of_nat i).
Proof.
  unfold BooleanBitpacking_copyFromPage. pose proof (words_enough src (so + k)). pose proof (words_enough dst (d + k)).
  destruct (copyNullMask_spec (words src (so + k)) so (words dst (d + k)) d k false) as (l & -> & Hw & Hl & Hb); try apply words_wf; try done.
  cbn [obind snd]. eexists. split; [done|]. intros i. rewrite ofWords_bit, Hl by done. case_decide.
  - rewrite Hb. case_decide; [|by apply words_bit]. cbn [xorb]. rewrite words_bit by lia. by destruct (Z.testbit src _).
  - rewrite decide_False by lia. done.
Qed.

Lemma setBits_ok dst d k b :
  exists l, setNullRange (words dst (d + k)) d k b = Ok l /\
    forall i, Z.testbit (ofWords dst l) (Z.of_nat i) = if decide (d <= i < d + k)%nat then b else Z.testbit dst (Z.of_nat i).
Proof.
  pose proof (words_enough dst (d + k)).
  destruct (setNullRange_spec (words dst (d + k)) d k b) as (l & -> & Hw & Hl & Hb); try apply words_wf; try done.
  eexists. split; [done|]. intros i. rewrite ofWords_bit, Hl by done. case_decide.
  - rewrite Hb. case_decide; [done|by apply words_bit].
  - by rewrite decide_False by lia.
Qed.

(** ** The contract *)

Class PageCodec (B perPage : Z) (accepts : Z -> Prop) (cell : Z -> nat -> Z)
    (read : Z -> nat -> Z -> nat -> nat -> outcome Z)
    (write : Z -> nat -> Z -> nat -> nat -> option NullMask -> outcome Z) : Prop := {
  cell_read frame pos result start count :
    Z.of_nat (pos + count) <= perPage ->
    exists r, read frame pos result start count = Ok r /\
      forall i, value B r i = if decide (start <= i < start + count)%nat then cell frame (pos + (i - start))%nat else value B result i;
  cell_write frame pos data off count mask :
    (0 < count)%nat -> Z.of_nat (pos + count) <= perPage -> maskOK mask off count ->
    (forall i, (i < count)%nat -> selected mask (off + i) = true -> accepts (value B data (off + i))) ->
    exists f, write frame pos data off count mask = Ok f /\
      (forall i, (i < count)%nat -> selected mask (off + i) = true -> cell f (pos + i)%nat = value B data (off + i)) /\
      (forall i, (i < pos \/ pos + count <= i)%nat -> cell f i = cell frame i) /\
      (forall i, 8 * Z.of_nat PAGE_SIZE <= i -> Z.testbit f i = Z.testbit frame i)
}.

Lemma setFields_above m off w vs i :
  0 <= off -> 0 <= w -> 0 <= i -> off + w * Z.of_nat (length vs) <= i -> Z.testbit (setFields m off w vs) i = Z.testbit m i.
Proof.
  intros Ho Hw Hi. revert m off Ho. induction vs as [|v vs IH]; intros m off Ho Hl; cbn [setFields length] in *; [done|].
  rewrite IH by lia. rewrite testbit_setField by lia. rewrite (proj2 (Z.ltb_ge i (off + w))) by lia. by rewrite andb_false_r.
Qed.

Section Codecs.
Context `{FC : FloatCompression} (fast : forall n, ChunkPacker n) (HF : forall n, @ChunkPackerOK n (fast n)).

(** The reader of chunks, the reader of vectors and the writer of a chunk's pages. *)
Definition pageRead (t : PhysicalTypeID) (md : CompressionMetadata) (frame : Z) (pos : nat) (result : Z) (start count : nat) : outcome Z :=
  ReadCompressedValuesFromPage fast t frame pos result start count md.
Definition pageReadToVector (t : PhysicalTypeID) (md : CompressionMetadata) (frame : Z) (pos : nat) (result : Z) (start count : nat) : outcome Z :=
  ReadCompressedValuesFromPageToVector fast t frame pos result start count md.
Definition pageWrite (t : PhysicalTypeID) (md : CompressionMetadata) (frame : Z) (pos : nat) (data : Z) (off count : nat)
    (mask : option NullMask) : outcome Z :=
  WriteCompressedValuesToPage fast t frame pos data off count md mask.

(** The bits of a value in a chunk's buffer. *)
Definition valueBits (t : PhysicalTypeID) : Z :=
  match t with BOOL => 1 | _ => match getDataTypeSizeInChunk t with Ok s => 8 * s | Err _ => 0 end end.

Lemma integerType_ok t T :
  integerType fast t = Some T ->
  intType (bits T) (isSigned T) /\ @ChunkPackerOK (bits T) (packer T) /\ getDataTypeSizeInChunk t = Ok (bits T / 8) /\ valueBits t = bits T.
Proof using HF.
  destruct t; cbn [integerType]; intros [= <-]; (split; [split; [cbn; lia|done]|]);
    (split; [first [apply HF | apply packer128_ok]|split; vm_compute; reflexivity]).
Qed.

Lemma packedType_ok t T :
  packedType fast t = Some T ->
  intType (bits T) (isSigned T) /\ @ChunkPackerOK (bits T) (packer T) /\ getDataTypeSizeInChunk t = Ok (bits T / 8) /\ valueBits t = bits T.
Proof using HF.
  destruct (decide (t = INTERNAL_ID)) as [->|].
  - intros [= <-]. split; [split; [cbn; lia|done]|]. split; [apply HF|]. split; vm_compute; reflexivity.
  - intros H. apply integerType_ok. by destruct t.
Qed.

(** ** Bit-packed integers *)

Section Integers.
Context (T : IntegerType) (HT : intType (bits T) (isSigned T)) (HP : @ChunkPackerOK (bits T) (packer T)).
Context (md : CompressionMetadata) (info : BitpackInfo) (Hm : metaOK (bits T) (isSigned T) md).
Context (Hi : getPackingInfo (bits T) (isSigned T) md = Ok info) (Hu : usable (bits T) info).

Local Abbreviation n := (bits T).
Local Abbreviation sg := (isSigned T).
Local Abbreviation w := (bitWidth info).

Definition decoded (x : Z) : Z := match decode n sg info x with Ok y => y | Err _ => 0 end.
Definition packedCell (frame : Z) (i : nat) : Z := decoded (getField frame (Z.of_nat i * w) w).

(** A value that leaves the packing of the chunk as it is. *)
Definition packable (x : Z) : Prop := notSmallest n sg (toT n sg x) /\ samePacking n sg md (toT n sg x).

Lemma decode_total x : inU w x -> decode n sg info x = Ok (decoded x) /\ inU n (decoded x).
Proof using HT Hu.
  intros Hx. pose proof (intType_bounds _ _ HT) as Hn. destruct Hu as [Hw Hneg]. pose proof (widthOK_range n _ Hw) as Hr. unfold decoded, decode.
  assert (Hbase : exists y, (if hasNegative info && (0 <? w) then SignExtend n x w else Ok x) = Ok y /\ inU n y).
  { destruct (hasNegative info) eqn:E; cbn [andb].
    - specialize (Hneg eq_refl). destruct (0 <? w); [|exists x].
      + unfold SignExtend. rewrite (proj2 (Z.ltb_lt w n)) by lia. eexists. split; [done|]. apply wrapU_range. lia.
      + split; [done|]. unfold inU in *. pose proof (Z.pow_le_mono_r 2 w n). lia.
    - exists x. split; [done|]. unfold inU in *. pose proof (Z.pow_le_mono_r 2 w n). lia. }
  destruct Hbase as (y & -> & Hy). cbn [obind]. split; [done|]. destruct (offset info =? 0); [done|]. apply wrapU_range. lia.
Qed.

Lemma decodeAll_total xs : Forall (inU w) xs -> decodeAll n sg info xs = Ok (decoded <$> xs).
Proof using HT Hu.
  induction 1 as [|x xs Hx _ IH]; [done|]. cbn [decodeAll fmap list_fmap]. destruct (decode_total x Hx) as [-> _]. cbn [obind]. by rewrite IH.
Qed.

Lemma getFields_range m off k : Forall (inU w) (getFields m off w k).
Proof using Hu.
  destruct Hu as [Hw _]. pose proof (widthOK_range n _ Hw) as Hr. revert off. induction k as [|k IH]; intros off; cbn [getFields]; [constructor|]. constructor; [apply getField_range; lia|apply IH].
Qed.

Lemma packed_read frame pos result start count :
  exists r, (let* vs := @decompressFromPage n sg (packer T) frame (Z.of_nat pos) count md in
             Ok (setFields result (n * Z.of_nat start) n vs)) = Ok r /\
    forall i, value n r i = if decide (start <= i < start + count)%nat then packedCell frame (pos + (i - start)) else value n result i.
Proof using HT HP Hi Hu.
  pose proof (intType_bounds _ _ HT) as Hn. rewrite (decompress_fields n sg HT _ _ _ _ info) by (first [done | lia | by destruct Hu]).
  rewrite decodeAll_total by apply getFields_range. cbn [obind]. eexists. split; [done|]. intros i. rewrite value_setFields by lia.
  case_decide as H1.
  - rewrite list_lookup_fmap. case_decide as H2.
    + rewrite lookup_getFields by lia. cbn. replace (Z.of_nat pos * w + w * Z.of_nat (i - start)) with (Z.of_nat (pos + (i - start)) * w) by lia.
      apply wrapU_id. unfold packedCell. apply decode_total, getField_range. destruct Hu as [Hw _]. apply (widthOK_range n) in Hw. lia.
    + rewrite (proj2 (lookup_ge_None (getFields _ _ _ _) _)); [done|]. rewrite length_getFields. lia.
  - by rewrite decide_False by lia.
Qed.

Lemma packed_write frame pos data off count mask :
  (0 < count)%nat -> maskOK mask off count ->
  (forall i, (i < count)%nat -> selected mask (off + i) = true -> packable (value n data (off + i))) ->
  exists f, @setValuesFromUncompressed n sg (packer T) (getFields data 0 n (off + count)) off frame (Z.of_nat pos) count md mask = Ok f /\
    (forall i, (i < count)%nat -> selected mask (off + i) = true -> packedCell f (pos + i) = value n data (off + i)) /\
    (forall i, (i < pos \/ pos + count <= i)%nat -> packedCell f i = packedCell frame i) /\
    (forall i, Z.of_nat (pos + count) * w <= i -> Z.testbit f i = Z.testbit frame i).
Proof using HT HP Hm Hi Hu.
  intros H0 Hmask Hacc. pose proof (intType_bounds _ _ HT) as Hn. destruct Hu as [Hw Hneg]. pose proof (widthOK_range n _ Hw) as Hr.
  set (src := take count (drop off (getFields data 0 n (off + count)))).
  assert (Hlen : length src = count) by (unfold src; rewrite length_take, length_drop, length_getFields; lia).
  assert (Hsrc : forall i, (i < count)%nat -> src !! i = Some (value n data (off + i))).
  { intros i Hlt. unfold src. rewrite lookup_take_lt, lookup_drop by done. replace 0 with (n * Z.of_nat 0) by lia. rewrite getFields_values by lia. done. }
  eexists. split.
  { apply (setValues_fields n sg HT _ _ _ _ _ _ info); try done; [rewrite length_getFields; lia|lia|].
    apply allUpdatable_ok; try done; fold src; [by rewrite Hlen|]. intros i x Hx Hsel. pose proof (lookup_lt_Some _ _ _ Hx) as Hlt.
    rewrite Hsrc in Hx by lia. injection Hx as <-. apply Hacc; [lia|done]. }
  fold src. set (f := fun x => toU n (toT n sg x - offset info)). unfold packedCell. split_and!.
  - intros i Hlt Hsel. replace (Z.of_nat (pos + i) * w) with (Z.of_nat pos * w + w * Z.of_nat i) by lia.
    rewrite (getField_setFields _ _ _ _ i (f (value n data (off + i)))); [|nia|lia|by rewrite list_lookup_fmap, Hsrc].
    destruct (Hacc i Hlt Hsel) as [H1 H2]. destruct (getPackingInfo_ok n sg HT md Hm) as (info' & Hi' & Hok & _).
    rewrite Hi in Hi'. injection Hi' as <-. unfold decoded, f. rewrite decode_fits; [|done|done|done|].
    + rewrite toU_toT by done. apply wrapU_id, field_value_range. lia.
    + eapply samePacking_fits; try done. by apply toT_range.
  - intros i Hout. f_equal. apply getField_setFields_other; try nia. rewrite length_fmap, Hlen. nia.
  - intros i Hge. apply setFields_above; try nia. rewrite length_fmap, Hlen. nia.
Qed.
End Integers.

(** ** The dispatch keeps the contract *)

Definition constantValue (t : PhysicalTypeID) (md : CompressionMetadata) : Z :=
  match t with BOOL => Z.b2z (negb (unsignedInt (min md) =? 0)) | _ => wrapU (valueBits t) (min md) end.

Lemma constantValue_int t md : t <> BOOL -> constantValue t md = wrapU (valueBits t) (min md).
Proof. by destruct t. Qed.

Definition cellOf (t : PhysicalTypeID) (md : CompressionMetadata) (frame : Z) (i : nat) : Z :=
  match compression md with
  | CONSTANT => constantValue t md
  | INTEGER_BITPACKING =>
      match packedType fast t with
      | Some T => match getPackingInfo (bits T) (isSigned T) md with Ok info => packedCell T info frame i | Err _ => 0 end
      | None => 0
      end
  | _ => value (valueBits t) frame i
  end.

Definition acceptsOf (t : PhysicalTypeID) (md : CompressionMetadata) (x : Z) : Prop :=
  match compression md with
  | CONSTANT => x = constantValue t md
  | INTEGER_BITPACKING => match packedType fast t with Some T => packable T md x | None => False end
  | _ => True
  end.

(** A compression that a type can have. *)
Definition chunkOK (t : PhysicalTypeID) (md : CompressionMetadata) : Prop :=
  match compression md with
  | CONSTANT => t = BOOL \/ packedType fast t <> None
  | UNCOMPRESSED => t <> BOOL /\ exists s, getDataTypeSizeInChunk t = Ok s /\ 0 < s
  | BOOLEAN_BITPACKING => t = BOOL
  | INTEGER_BITPACKING =>
      exists T info, packedType fast t = Some T /\ metaOK (bits T) (isSigned T) md /\
        getPackingInfo (bits T) (isSigned T) md = Ok info /\ usable (bits T) info /\ bitWidth info <> 0
  | ALP => False
  end.

Lemma constant_read t md dst start count :
  compression md = CONSTANT -> chunkOK t md ->
  exists r, (let* nb := getDataTypeSizeInChunk t in Constant_copyFromPage fast t nb dst start count md) = Ok r /\
    forall i, value (valueBits t) r i = if decide (start <= i < start + count)%nat then constantValue t md else value (valueBits t) dst i.
Proof using HF.
  intros Hc Hok. unfold chunkOK in Hok. rewrite Hc in Hok. destruct (decide (t = BOOL)) as [->|Hb].
  - change (getDataTypeSizeInChunk BOOL) with (if 1 <=? Z.of_nat PAGE_SIZE then Ok 1 else Err InternalException).
    replace (1 <=? Z.of_nat PAGE_SIZE) with true by (vm_compute; reflexivity). cbn [obind Constant_copyFromPage].
    destruct (setBits_ok dst start count (negb (unsignedInt (min md) =? 0))) as (l & -> & Hl). cbn [obind].
    eexists. split; [done|]. intros i. cbn [valueBits constantValue]. rewrite !value_bit, Hl. by case_decide.
  - destruct Hok as [|Hp]; [done|]. destruct (packedType fast t) as [T|] eqn:E; [|done].
    destruct (packedType_ok t T E) as (HT & _ & Hs & Hv). pose proof (intType_bounds _ _ HT) as Hn. rewrite Hs. cbn [obind].
    assert (H8 : 8 * (bits T / 8) = bits T) by (destruct HT as [[?|[?|[?|[?|?]]]] _]; Z.div_mod_to_equations; lia).
    assert (Hx : Constant_copyFromPage fast t (bits T / 8) dst start count md =
                 Ok (setFields dst (bits T * Z.of_nat start) (bits T) (replicate count (constantValue t md)))).
    { assert (Hcv : constantValue t md = wrapU (bits T) (min md)) by (by rewrite constantValue_int, Hv).
      rewrite Hcv. replace (bits T * Z.of_nat start) with (8 * (Z.of_nat start * (bits T / 8))) by lia. rewrite <- H8 at 4.
      destruct t; try discriminate E; try done; injection E as <-; cbn [Constant_copyFromPage decompressValues integerType bits isSigned sized];
        f_equal; f_equal; f_equal; unfold get; by rewrite toU_toT. }
    rewrite Hx. eexists. split; [done|]. intros i. rewrite Hv, value_setFields by lia. case_decide as H1.
    + case_decide as H2; [rewrite lookup_replicate_2 by lia|rewrite (proj2 (lookup_ge_None _ _)) by (rewrite length_replicate; lia); done].
      rewrite constantValue_int, Hv by done. apply wrapU_id, wrapU_range. lia.
    + by rewrite decide_False by lia.
Qed.

Lemma uncompressed_codec t md nb perPage :
  compression md = UNCOMPRESSED -> getDataTypeSizeInChunk t = Ok nb -> 0 < nb -> t <> BOOL ->
  numValues fast md (Z.of_nat PAGE_SIZE) t = Ok perPage ->
  PageCodec (valueBits t) perPage (acceptsOf t md) (cellOf t md) (pageRead t md) (pageWrite t md).
Proof.
  intros Hc Hs Hnb Ht Hp. unfold numValues, Uncompressed_numValues in Hp. rewrite Hc, Hs in Hp. cbn [obind] in Hp.
  rewrite (proj2 (Z.eqb_neq nb 0)) in Hp by lia. injection Hp as <-.
  assert (Hv : valueBits t = 8 * nb) by (unfold valueBits; rewrite Hs; by destruct t).
  pose proof (Z.mul_div_le (Z.of_nat PAGE_SIZE) nb Hnb) as Hle.
  split.
  - intros frame pos result start count Hr. unfold pageRead, ReadCompressedValuesFromPage, cellOf. rewrite Hs, Hc. cbn [obind].
    eexists. split; [done|]. intros i. rewrite Hv. unfold Uncompressed_decompressFromPage. rewrite (Z.mul_comm (Z.of_nat count)).
    by apply value_memcpy; lia.
  - intros frame pos data off count mask H0 Hr Hmask _. unfold pageWrite, WriteCompressedValuesToPage, cellOf. rewrite Hs, Hc. cbn [obind].
    eexists. split; [done|]. rewrite Hv. unfold Uncompressed_setValues. split_and!.
    + intros i Hi Hsel. rewrite value_memcpy by lia. rewrite decide_True by lia. f_equal. lia.
    + intros i Hi. rewrite value_memcpy by lia. by rewrite decide_False by lia.
    + intros i Hi. unfold memcpy. rewrite testbit_setField by nia. rewrite (proj2 (Z.ltb_ge i _)) by nia. by rewrite andb_false_r.
Qed.

Lemma boolean_codec md perPage :
  compression md = BOOLEAN_BITPACKING -> numValues fast md (Z.of_nat PAGE_SIZE) BOOL = Ok perPage ->
  PageCodec (valueBits BOOL) perPage (acceptsOf BOOL md) (cellOf BOOL md) (pageRead BOOL md) (pageWrite BOOL md).
Proof.
  intros Hc Hp. unfold numValues in Hp. rewrite Hc in Hp. injection Hp as <-. unfold BooleanBitpacking_numValues.
  assert (Hs : getDataTypeSizeInChunk BOOL = Ok 1) by (vm_compute; reflexivity). split.
  - intros frame pos result start count Hr. unfold pageRead, ReadCompressedValuesFromPage, cellOf. rewrite Hs, Hc. cbn [obind valueBits].
    destruct (copyBits_ok frame pos result start count) as (r & -> & Hb). eexists. split; [done|]. intros i. rewrite !value_bit, Hb. by case_decide.
  - intros frame pos data off count mask H0 Hr Hmask _. unfold pageWrite, WriteCompressedValuesToPage, cellOf. rewrite Hs, Hc. cbn [obind valueBits].
    destruct (copyBits_ok data off frame pos count) as (f & -> & Hb). eexists. split; [done|]. split_and!.
    + intros i Hi Hsel. rewrite !value_bit, Hb, decide_True by lia. do 3 f_equal. lia.
    + intros i Hi. rewrite !value_bit, Hb. by rewrite decide_False by lia.
    + intros i Hi. rewrite <- (Z2Nat.id i) by lia. rewrite Hb. by rewrite decide_False by lia.
Qed.

Lemma integer_codec t md T info perPage read :
  (forall frame pos result start count, read frame pos result start count =
     (let* vs := @decompressFromPage (bits T) (isSigned T) (packer T) frame (Z.of_nat pos) count md in
      Ok (setFields result (bits T * Z.of_nat start) (bits T) vs))) ->
  compression md = INTEGER_BITPACKING -> packedType fast t = Some T -> metaOK (bits T) (isSigned T) md ->
  getPackingInfo (bits T) (isSigned T) md = Ok info -> usable (bits T) info ->
  numValues fast md (Z.of_nat PAGE_SIZE) t = Ok perPage -> bitWidth info <> 0 ->
  PageCodec (valueBits t) perPage (acceptsOf t md) (cellOf t md) read (pageWrite t md).
Proof using HF.
  intros Hread Hc HT Hm Hi Hu Hp Hz. destruct (packedType_ok t T HT) as (Hint & HP & Hs & Hv).
  unfold numValues in Hp. rewrite Hc, HT, Hi in Hp. cbn [obind] in Hp. injection Hp as <-. unfold IntegerBitpacking.numValues.
  rewrite (proj2 (Z.eqb_neq _ 0)) by done. pose proof (widthOK_range (bits T) _ (proj1 Hu)) as Hw.
  pose proof (Z.mul_div_le (Z.of_nat PAGE_SIZE * 8) (bitWidth info) ltac:(lia)) as Hle. rewrite Hv.
  assert (Hcell : forall f i, cellOf t md f i = packedCell T info f i) by (intros; unfold cellOf; by rewrite Hc, HT, Hi). split.
  - intros frame pos result start count Hr. rewrite Hread. destruct (packed_read T Hint HP md info Hi Hu frame pos result start count) as (r & Er & Hr').
    exists r. split; [exact Er|]. intros i. by rewrite Hr', Hcell.
  - intros frame pos data off count mask H0 Hr Hmask Hacc. unfold pageWrite, WriteCompressedValuesToPage. rewrite Hs, Hc, HT. cbn [obind].
    setoid_rewrite Hcell. destruct (packed_write T Hint HP md info Hm Hi Hu frame pos data off count mask) as (f & -> & H1 & H2 & H3); try done.
    + intros i Hlt Hsel. specialize (Hacc i Hlt Hsel). unfold acceptsOf in Hacc. by rewrite Hc, HT in Hacc.
    + exists f. split_and!; try done. intros i Hge. apply H3. nia.
Qed.

Lemma constant_codec t md perPage :
  compression md = CONSTANT -> chunkOK t md ->
  PageCodec (valueBits t) perPage (acceptsOf t md) (cellOf t md) (pageRead t md) (pageWrite t md).
Proof using HF.
  intros Hc Hok. assert (Hs : exists nb, getDataTypeSizeInChunk t = Ok nb).
  { unfold chunkOK in Hok. rewrite Hc in Hok. destruct Hok as [->|Hp]; [eexists; vm_compute; reflexivity|].
    destruct (packedType fast t) as [T|] eqn:E; [|done]. destruct (packedType_ok t T E) as (_ & _ & -> & _). eauto. }
  destruct Hs as [nb Hs]. assert (Hcell : forall f i, cellOf t md f i = constantValue t md) by (intros; unfold cellOf; by rewrite Hc). split.
  - intros frame pos result start count Hr. unfold pageRead, ReadCompressedValuesFromPage.
    destruct (constant_read t md result start count Hc Hok) as (r & Er & Hr'). rewrite Hs in Er |- *. rewrite Hc.
    exists r. split; [exact Er|]. intros i. by rewrite Hr', Hcell.
  - intros frame pos data off count mask H0 Hr Hmask Hacc. unfold pageWrite, WriteCompressedValuesToPage. rewrite Hs, Hc. cbn [obind].
    eexists. split; [done|]. setoid_rewrite Hcell. split_and!; try done. intros i Hi Hsel. specialize (Hacc i Hi Hsel).
    unfold acceptsOf in Hacc. by rewrite Hc in Hacc.
Qed.

(** The reader of chunks, for all types but [UINT8]. *)
Lemma pageCodec_ok t md perPage :
  chunkOK t md -> t <> UINT8 -> numValues fast md (Z.of_nat PAGE_SIZE) t = Ok perPage ->
  PageCodec (valueBits t) perPage (acceptsOf t md) (cellOf t md) (pageRead t md) (pageWrite t md).
Proof using HF.
  intros Hok Ht Hp. pose proof Hok as Hok'. unfold chunkOK in Hok'. destruct (compression md) eqn:Hc.
  - destruct Hok' as (Hb & s & Hs & Hpos). by eapply uncompressed_codec.
  - destruct Hok' as (T & info & HT & Hm & Hi & Hu & Hz). eapply integer_codec; try done.
    intros frame pos result start count. destruct (packedType_ok t T HT) as (_ & _ & Hs & _).
    unfold pageRead, ReadCompressedValuesFromPage. rewrite Hs, Hc. cbn [obind].
    by replace (chunkReaderType fast t) with (Some T) by (rewrite <- HT; by destruct t).
  - subst t. by apply boolean_codec.
  - by apply constant_codec.
  - done.
Qed.

(** The reader of vectors, for all types but [BOOL], whose vectors hold bytes. *)
Lemma vectorCodec_ok t md perPage :
  chunkOK t md -> t <> BOOL -> numValues fast md (Z.of_nat PAGE_SIZE) t = Ok perPage ->
  PageCodec (valueBits t) perPage (acceptsOf t md) (cellOf t md) (pageReadToVector t md) (pageWrite t md).
Proof using HF.
  intros Hok Ht Hp. destruct (decide (compression md = INTEGER_BITPACKING)) as [Hc|Hc].
  - unfold chunkOK in Hok. rewrite Hc in Hok. destruct Hok as (T & info & HT & Hm & Hi & Hu & Hz). eapply integer_codec; try done.
    intros frame pos result start count. destruct (packedType_ok t T HT) as (_ & _ & Hs & _).
    unfold pageReadToVector, ReadCompressedValuesFromPageToVector. by rewrite Hs, Hc, HT.
  - assert (Hsame : forall frame pos result start count, pageReadToVector t md frame pos result start count = pageRead t md frame pos result start count).
    { intros. unfold pageReadToVector, pageRead, ReadCompressedValuesFromPageToVector, ReadCompressedValuesFromPage.
      unfold chunkOK in Hok. destruct (getDataTypeSizeInChunk t); cbn [obind]; [|done]. destruct (compression md); try done. by destruct t. }
    assert (HC : PageCodec (valueBits t) perPage (acceptsOf t md) (cellOf t md) (pageRead t md) (pageWrite t md)).
    { unfold chunkOK in Hok. pose proof Hok as Hok'. destruct (compression md) eqn:E; try done.
      - destruct Hok' as (_ & s & Hs & Hpos). by eapply uncompressed_codec.
      - apply constant_codec; [done|]. unfold chunkOK. by rewrite E. }
    split; [|apply HC]. intros frame pos result start count Hr. rewrite Hsame. by apply HC.
Qed.

(** ** What [canUpdateInPlace] accepts *)

Lemma isMaskNull_ok mask pos count i :
  maskOK mask pos count -> (i < count)%nat -> isMaskNull mask (pos + i) = Ok (negb (selected mask (pos + i))).
Proof.
  destruct mask as [m|]; [|done]. intros [Hw Hl] Hi. cbn [isMaskNull selected]. rewrite negb_involutive.
  apply isNull_bit; [apply Hw|lia].
Qed.

Lemma allSame_true same mask pos count :
  maskOK mask pos count -> allSame same mask pos count = Ok true ->
  forall i, (i < count)%nat -> selected mask (pos + i) = true -> same (pos + i)%nat = Ok true.
Proof.
  revert pos. induction count as [|count IH]; intros pos Hm Ha i Hi Hsel; [lia|]. cbn [allSame] in Ha.
  pose proof (isMaskNull_ok mask pos (S count) 0 Hm ltac:(lia)) as E. rewrite Nat.add_0_r in E. rewrite E in Ha. cbn [obind] in Ha.
  assert (Hm' : maskOK mask (S pos) count) by (destruct mask; [destruct Hm; split; [done|lia]|done]).
  destruct i as [|i].
  - rewrite Nat.add_0_r in Hsel |- *. rewrite Hsel in Ha. cbn [negb] in Ha. destruct (same pos) as [[]|]; done.
  - rewrite Nat.add_succ_r in Hsel |- *. rewrite <- Nat.add_succ_l in Hsel |- *. destruct (negb (selected mask pos)).
    + apply (IH (S pos)); try done. lia.
    + destruct (same pos) as [[]|]; cbn [obind] in Ha; try done. apply (IH (S pos)); try done. lia.
Qed.

(** The values that are not null and are not the smallest value of their type. *)
Definition plainValues (t : PhysicalTypeID) (data : Z) (count : nat) (mask : option NullMask) : Prop :=
  forall T i, packedType fast t = Some T -> (i < count)%nat -> selected mask i = true ->
    notSmallest (bits T) (isSigned T) (toT (bits T) (isSigned T) (value (bits T) data i)).

Lemma canUpdate_accepts t md data count mask :
  chunkOK t md -> (0 < count)%nat -> maskOK mask 0 count -> (compression md = INTEGER_BITPACKING -> plainValues t data count mask) ->
  canUpdateInPlace fast md data 0 count t mask = Ok true ->
  forall i, (i < count)%nat -> selected mask i = true -> acceptsOf t md (value (valueBits t) data i).
Proof using HF.
  intros Hok H0 Hm Hpl Hc i Hi Hsel. unfold canUpdateInPlace, canAlwaysUpdateInPlace, acceptsOf, chunkOK in *.
  destruct (compression md) eqn:E; try done.
  - specialize (Hpl eq_refl). destruct Hok as (T & info & HT & Hmd & _). rewrite HT in Hc |- *. destruct (packedType_ok t T HT) as (Hint & _ & _ & ->).
    rewrite Z.mul_0_r in Hc. pose proof (fun j Hj => getFields_values (bits T) data 0 count j Hj) as Hv. cbn [Nat.add] in Hv. rewrite Z.mul_0_r in Hv.
    split; [by apply Hpl|]. eapply (canUpdate_batch _ _ Hint md _ mask 0); try done.
    + intros En. pose proof (length_getFields data 0 (bits T) count) as L. rewrite En in L. cbn in L. lia.
    + by rewrite length_getFields.
    + intros j x Hx Hs. pose proof (lookup_lt_Some _ _ _ Hx) as Hlt. rewrite length_getFields in Hlt. rewrite Hv in Hx by done. injection Hx as <-. by apply Hpl.
    + by apply Hv.
  - destruct (decide (t = BOOL)) as [->|Hb].
    + eapply allSame_true in Hc; [|done|exact Hi|done]. cbn [Nat.add] in Hc. cbn [valueBits constantValue]. rewrite value_bit.
      pose proof (words_enough data count). rewrite isNull_bit in Hc by (try apply words_wf; lia). cbn [obind] in Hc.
      injection Hc as Hc%eqb_prop. rewrite words_bit in Hc by lia. by rewrite Hc.
    + destruct Hok as [|Hp]; [done|]. destruct (packedType fast t) as [T|] eqn:ET; [|done].
      destruct (packedType_ok t T ET) as (Hint & _ & Hs & Hv). rewrite Hs in Hc. cbn [obind] in Hc.
      assert (H8 : 8 * (bits T / 8) = bits T) by (destruct Hint as [[?|[?|[?|[?|?]]]] _]; Z.div_mod_to_equations; lia).
      assert (Ha : allSame (fun i => Ok (getField data (8 * (Z.of_nat i * (bits T / 8))) (8 * (bits T / 8)) =? wrapU (8 * (bits T / 8)) (min md)))
                     mask 0 count = Ok true) by (by destruct t).
      eapply allSame_true in Ha; [|done|exact Hi|done]. injection Ha as Ha%Z.eqb_eq. cbn [Nat.add] in Ha. rewrite H8 in Ha.
      rewrite constantValue_int, Hv by done.
      unfold value. rewrite <- Ha. f_equal. lia.
Qed.
End Codecs.
