(* ===== verification/Column.v ===== *)
(** * Columns on disk (src/storage/store/column.cpp, column_reader_writer.cpp,
      compression_flush_buffer.cpp, column_chunk_data.cpp)

    The values of a column chunk are spread over consecutive pages of the data file.  A chunk is
    flushed to new pages; a checkpoint either writes the changed rows over the pages of the chunk,
    if its compression allows that, or reads the chunk, applies the changes and flushes it again.

    A file is the pages that the reader sees, through the shadow file during a checkpoint
    ([ShadowFile]); the column has no null column of its own: the null column is the column of
    type [BOOL] next to it.  The statistics [min] and [max] of a chunk also serve to skip chunks
    that no row of a query can be in ([checkZoneMap]). *)

From stdpp Require Import base list gmap numbers strings.
From S2P Require Import Prelude NullMask Bitpacking IntegerBitpacking Compression PageCodec.
Local Open Scope Z_scope.

Record DataFile := mkFile { pages : gmap Z Z; filePages : Z }.
Definition pageAt (f : DataFile) (p : Z) : Z := default 0 (pages f !! p).
Definition setPage (p x : Z) (f : DataFile) : DataFile := mkFile (<[p := x]> (pages f)) (filePages f).

(** [addNewPages]: the first new page, and the file. *)
Definition addNewPages (k : Z) (f : DataFile) : Z * DataFile := (filePages f, mkFile (pages f) (filePages f + k)).

(** A chunk that is scanned or written to. *)
Record ChunkState := mkChunkState { metadata : ColumnChunkMetadata; numValuesPerPage : Z }.

(** A chunk of new values: its buffer, its null mask and its number of values. *)
Record ChunkData := mkChunkData { buffer : Z; nullMask : option NullMask; numRows : nat }.

Record ChunkCheckpointState := mkCheckpointState { chunkData : ChunkData; startRow : nat }.

Definition getPageCursorForPos (elementPos : nat) (numElementsPerPage : Z) : outcome (Z * nat) :=
  let k := wrapU 32 numElementsPerPage in
  if k =? 0 then Err UndefinedBehaviour
  else if Z.of_nat elementPos / k <? 2 ^ 32 - 1
       then Ok (Z.of_nat elementPos / k, Z.to_nat (Z.of_nat elementPos mod k))
       else Err InternalException.

Definition getPageCursorForOffsetInGroup (offsetInChunk : nat) (groupPageIdx perPage : Z) : outcome (Z * nat) :=
  let* c := getPageCursorForPos offsetInChunk perPage in Ok (wrapU 32 (fst c + groupPageIdx), snd c).

Definition isPageIdxValid (p : Z) (m : ColumnChunkMetadata) : bool :=
  ((pageIdx m <=? p) && (p <? pageIdx m + numPages m)) ||
  ((p =? INVALID_PAGE) && bool_decide (compression (compMeta m) = CONSTANT)).

Section Column.
Context `{FC : FloatCompression} (fast : forall n, ChunkPacker n) (t : PhysicalTypeID).
(** [CompressedFloatFlushBuffer]. *)
Context (floatFlush : Z -> Z -> ColumnChunkMetadata -> DataFile -> outcome (ColumnChunkMetadata * DataFile)).

(** ** Writing to the pages of a chunk *)

Definition updatePageWithCursor (p : Z) (md : CompressionMetadata) (writeOp : Z -> outcome Z) (f : DataFile) : outcome DataFile :=
  if p =? INVALID_PAGE then
    (** a null pointer, which only constant compression does not use *)
    match compression md with CONSTANT => let* _ := writeOp 0 in Ok f | _ => Err UndefinedBehaviour end
  else
    let* f := if filePages f <=? p
              then if p =? filePages f then Ok (mkFile (<[p := 0]> (pages f)) (filePages f + 1)) else Err InternalException
              else Ok f in
    let* x := writeOp (pageAt f p) in
    Ok (setPage p x f).

(** [written] of [count] values are written; every round writes one at least. *)
Fixpoint writeLoop (fuel : nat) (md : CompressionMetadata) (perPage : Z) (p : Z) (elemPosInPage : nat) (data : Z)
    (srcOffset written count : nat) (mask : option NullMask) (f : DataFile) : outcome DataFile :=
  if (written <? count)%nat then
    match fuel with
    | O => Err UndefinedBehaviour
    | S fuel =>
        let k := Z.to_nat (Z.min (Z.of_nat (count - written)) (perPage - Z.of_nat elemPosInPage)) in
        let* f := updatePageWithCursor p md
                    (fun frame => WriteCompressedValuesToPage fast t frame elemPosInPage data (srcOffset + written) k md mask) f in
        writeLoop fuel md perPage (wrapU 32 (p + 1)) 0 data srcOffset (written + k) count mask f
    end
  else Ok f.

Definition writeValuesToPage (s : ChunkState) (dstOffset : nat) (data : Z) (srcOffset count : nat) (mask : option NullMask)
    (f : DataFile) : outcome DataFile :=
  let* c := getPageCursorForOffsetInGroup dstOffset (pageIdx (metadata s)) (numValuesPerPage s) in
  writeLoop count (compMeta (metadata s)) (numValuesPerPage s) (fst c) (snd c) data srcOffset 0 count mask f.

(** ** Reading *)

(** [Filterer]: whether the next selected position is in a range of positions; past the end of the
    selected positions the vector holds some other number. *)
Fixpoint skipBelow (sel : list nat) (endIdx : nat) : list nat :=
  match sel with p :: sel' => if (p <? endIdx)%nat then skipBelow sel' endIdx else sel | [] => [] end.
Definition filterer (stale : nat) (sel : list nat) (startIdx endIdx : nat) : bool * list nat :=
  let next := match sel with p :: _ => p | [] => stale end in
  ((startIdx <=? next)%nat && (next <? endIdx)%nat, skipBelow sel endIdx).

Section Reading.
Context (read : Z -> nat -> Z -> nat -> nat -> outcome Z).

(** A filter is the positions that are still to come. *)
Fixpoint readLoop (fuel : nat) (m : ColumnChunkMetadata) (perPage : Z) (p : Z) (elemPosInPage : nat) (result : Z)
    (startOffsetInResult scanned count : nat) (stale : nat) (filter : option (list nat)) (f : DataFile) : outcome Z :=
  if (scanned <? count)%nat then
    match fuel with
    | O => Err UndefinedBehaviour
    | S fuel =>
        let k := Z.to_nat (Z.min (perPage - Z.of_nat elemPosInPage) (Z.of_nat (count - scanned))) in
        if negb (isPageIdxValid p m) then Err InternalException
        else
          let '(go, filter') := match filter with
                                | None => (true, None)
                                | Some sel => let '(b, sel') := filterer stale sel scanned (scanned + k) in (b, Some sel')
                                end in
          let* result := if go : bool
                         then read (if p =? INVALID_PAGE then 0 else pageAt f p) elemPosInPage result (scanned + startOffsetInResult) k
                         else Ok result in
          readLoop fuel m perPage (wrapU 32 (p + 1)) 0 result startOffsetInResult (scanned + k) count stale filter' f
    end
  else Ok result.

Definition readCompressedValues (s : ChunkState) (result : Z) (startOffsetInResult startNodeOffset endNodeOffset : nat)
    (stale : nat) (filter : option (list nat)) (f : DataFile) : outcome Z :=
  let count := (endNodeOffset - startNodeOffset)%nat in
  if (count =? 0)%nat then Ok result
  else
    let* c := getPageCursorForOffsetInGroup startNodeOffset (pageIdx (metadata s)) (numValuesPerPage s) in
    if negb (isPageIdxValid (fst c) (metadata s)) then Err InternalException
    else readLoop count (metadata s) (numValuesPerPage s) (fst c) (snd c) result startOffsetInResult 0 count stale filter f.
End Reading.

(** Into a vector, with the positions that are selected or all of them. *)
Definition scanInternal (s : ChunkState) (startOffsetInChunk count : nat) (result : Z) (stale : nat) (sel : option (list nat))
    (f : DataFile) : outcome Z :=
  readCompressedValues (pageReadToVector fast t (compMeta (metadata s))) s result 0 startOffsetInChunk (startOffsetInChunk + count) stale sel f.

(** Into a chunk: the buffer and the number of values. *)
Definition scanToChunk (s : ChunkState) (startOffset endOffset : nat) (result : Z) (f : DataFile) : outcome (Z * nat) :=
  let startOffset := Nat.min startOffset (Z.to_nat (chunkValues (metadata s))) in
  let endOffset := Nat.min endOffset (Z.to_nat (chunkValues (metadata s))) in
  if (endOffset <? startOffset)%nat then Err InternalException
  else
    let count := (endOffset - startOffset)%nat in
    let* size := getDataTypeSizeInChunk t in
    if size =? 0 then Ok (result, count)
    else
      let* r := readCompressedValues (pageRead fast t (compMeta (metadata s))) s result 0 startOffset endOffset 0 None f in
      Ok (r, count).

(** ** Statistics *)

Definition sanityCheckForWrites (m : ColumnChunkMetadata) : outcome bool :=
  match compression (compMeta m) with
  | ALP => Ok true
  | CONSTANT => Ok (numPages m =? 0)
  | _ => let* perPage := numValues fast (compMeta m) (Z.of_nat PAGE_SIZE) t in
         Ok (if perPage =? UINT64_MAX then numPages m =? 0
             else (chunkValues m + perPage - 1) / perPage <=? numPages m)
  end.

Definition setMin (x : StorageValue) (md : CompressionMetadata) : CompressionMetadata := mkMeta x (max md) (compression md).
Definition setMax (x : StorageValue) (md : CompressionMetadata) : CompressionMetadata := mkMeta (min md) x (compression md).
Definition setCompMeta (md : CompressionMetadata) (m : ColumnChunkMetadata) : ColumnChunkMetadata :=
  mkChunkMeta (pageIdx m) (numPages m) (chunkValues m) md.

Definition updateStatistics (m : ColumnChunkMetadata) (maxIndex : Z) (mm : option (StorageValue * StorageValue))
    : outcome ColumnChunkMetadata :=
  let* m := if chunkValues m <=? maxIndex
            then let m := mkChunkMeta (pageIdx m) (numPages m) (maxIndex + 1) (compMeta m) in
                 let* ok := sanityCheckForWrites m in
                 if ok : bool then Ok m else Err InternalException
            else Ok m in
  match mm with
  | None => Ok m
  | Some (mn, mx) =>
      let* larger := gt t mx (max (compMeta m)) in
      if larger : bool then Ok (setCompMeta (setMax mx (compMeta m)) m)
      else
        let* smaller := gt t (min (compMeta m)) mn in
        if smaller : bool then Ok (setCompMeta (setMin mn (compMeta m)) m) else Ok m
  end.

(** [Column::write]: the file and the metadata of the persistent chunk. *)
Definition columnWrite (s : ChunkState) (dstOffset : nat) (data : ChunkData) (srcOffset count : nat)
    (fm : DataFile * ColumnChunkMetadata) : outcome (DataFile * ColumnChunkMetadata) :=
  let* f := writeValuesToPage s dstOffset (buffer data) srcOffset count (nullMask data) (fst fm) in
  let* m := if bool_decide (t = ALP_EXCEPTION_DOUBLE \/ t = ALP_EXCEPTION_FLOAT) then Ok (snd fm)
            else let* mm := getMinMaxStorageValue fast (buffer data) srcOffset count t (nullMask data) false in
                 updateStatistics (snd fm) (Z.of_nat (dstOffset + count) - 1) mm in
  Ok (f, m).

(** ** Checkpoints *)

Definition maxRowIdxToWrite (states : list ChunkCheckpointState) : nat :=
  foldl (fun r c => Nat.max r (startRow c + numRows (chunkData c))) 0%nat states.

Definition isMaxOffsetOutOfPagesCapacity (m : ColumnChunkMetadata) (maxOffset : nat) : outcome bool :=
  if decide (compression (compMeta m) = CONSTANT) then Ok false
  else let* perPage := numValues fast (compMeta m) (Z.of_nat PAGE_SIZE) t in
       Ok (wrapU 64 (perPage * numPages m) <=? Z.of_nat maxOffset + 1).

Fixpoint allCanUpdate (md : CompressionMetadata) (states : list ChunkCheckpointState) : outcome bool :=
  match states with
  | [] => Ok true
  | c :: states =>
      let data := chunkData c in
      let* ok := if (numRows data =? 0)%nat then Ok true
                 else canUpdateInPlace fast md (buffer data) 0 (numRows data) t (nullMask data) in
      if ok : bool then allCanUpdate md states else Ok false
  end.

Definition canCheckpointInPlace (s : ChunkState) (m : ColumnChunkMetadata) (states : list ChunkCheckpointState) : outcome bool :=
  let* out := isMaxOffsetOutOfPagesCapacity m (maxRowIdxToWrite states) in
  if out : bool then Ok false
  else if canAlwaysUpdateInPlace (compMeta m) then Ok true
  else allCanUpdate (compMeta (metadata s)) states.

Fixpoint checkpointColumnChunkInPlace (s : ChunkState) (states : list ChunkCheckpointState)
    (fm : DataFile * ColumnChunkMetadata) : outcome (DataFile * ColumnChunkMetadata) :=
  match states with
  | [] => Ok fm
  | c :: states =>
      if (numRows (chunkData c) =? 0)%nat then Err InternalException
      else
        let* fm := columnWrite s (startRow c) (chunkData c) 0 (numRows (chunkData c)) fm in
        checkpointColumnChunkInPlace s states fm
  end.

(** ** Flushing a chunk to new pages *)

Definition getBufferSize (capacity : Z) : outcome Z :=
  match t with
  | BOOL => Ok ((capacity + 63) / 64 * 8)
  | _ => let* size := getDataTypeSizeInChunk t in Ok (size * capacity)
  end.

Definition getMetadataToFlush (enableCompression : bool) (data : ChunkData) (capacity : Z) : outcome ColumnChunkMetadata :=
  if capacity <? Z.of_nat (numRows data) then Err InternalException
  else
    let* mm := if 0 <? capacity
               then getMinMaxStorageValue fast (buffer data) 0 (numRows data) t (nullMask data) true
               else Ok None in
    let '(mn, mx) := match mm with Some p => p | None => (0, 0) end in
    let* bufferSize := getBufferSize capacity in
    GetCompressionMetadata fast t (getCompression fast t enableCompression) (buffer data) bufferSize capacity
      (Z.of_nat (numRows data)) mn mx.

Definition compressNextPageOf (alg : CompressionType) (src : list Z) (remaining dst : Z) (md : CompressionMetadata)
    : outcome (Z * nat * Z) :=
  match alg, packedType fast t with
  | INTEGER_BITPACKING, Some T => @compressNextPage (bits T) (isSigned T) (packer T) src remaining dst (Z.of_nat PAGE_SIZE) md
  | UNCOMPRESSED, _ =>
      let* size := getDataTypeSizeInChunk t in Ok (Uncompressed_compressNextPage size src remaining dst (Z.of_nat PAGE_SIZE))
  | _, _ => Err InternalException
  end.

(** [k] pages are written, [consumed] values are compressed; the page buffer is used again. *)
Fixpoint flushLoop (fuel : nat) (alg : CompressionType) (data : Z) (consumed : nat) (remaining : Z) (page perPage startPage k : Z)
    (m : ColumnChunkMetadata) (f : DataFile) : outcome (Z * DataFile) :=
  if 0 <? remaining then
    match fuel with
    | O => Err UndefinedBehaviour
    | S fuel =>
        let* r := compressNextPageOf alg (getFields data (valueBits t * Z.of_nat consumed) (valueBits t) (Z.to_nat remaining)) remaining page (compMeta m) in
        let '(size, used, page) := r in
        let remaining := if remaining <? perPage then 0 else remaining - perPage in
        let page := if size <? Z.of_nat PAGE_SIZE then setField page (8 * size) (8 * (Z.of_nat PAGE_SIZE - size)) 0 else page in
        if negb ((k <? numPages m) && (startPage + k <? filePages f)) then Err InternalException
        else flushLoop fuel alg data (consumed + used) remaining page perPage startPage (k + 1) m (setPage (startPage + k) page f)
    end
  else Ok (k, f).

Definition CompressedFlushBuffer (inMemoryMode : bool) (alg : CompressionType) (data : Z) (startPage : Z) (m : ColumnChunkMetadata)
    (f : DataFile) : outcome (ColumnChunkMetadata * DataFile) :=
  let* perPage := numValues fast (compMeta m) (Z.of_nat PAGE_SIZE) t in
  if wrapU 64 (perPage * numPages m) <? chunkValues m then Err InternalException
  else
    let* r := flushLoop (Z.to_nat (chunkValues m)) alg data 0 (chunkValues m) 0 perPage startPage 0 m f in
    let f := if negb inMemoryMode && (fst r <? numPages m) then setPage (startPage + numPages m - 1) 0 (snd r) else snd r in
    Ok (mkChunkMeta startPage (numPages m) (chunkValues m) (compMeta m), f).

(** [writePagesToFile]: the bytes of the buffer, page after page. *)
Fixpoint writePagesToFile (count : nat) (data size startPage k : Z) (f : DataFile) : DataFile :=
  match count with
  | O => f
  | S count =>
      let bytes := Z.min (Z.of_nat PAGE_SIZE) (size - k * Z.of_nat PAGE_SIZE) in
      writePagesToFile count data size startPage (k + 1)
        (setPage (startPage + k) (setField (pageAt f (startPage + k)) 0 (8 * bytes) (getField data (8 * (k * Z.of_nat PAGE_SIZE)) (8 * bytes))) f)
  end.

Definition uncompressedFlushBuffer (data size startPage : Z) (m : ColumnChunkMetadata) (f : DataFile)
    : outcome (ColumnChunkMetadata * DataFile) :=
  if filePages f <? startPage + numPages m then Err InternalException
  else Ok (mkChunkMeta startPage (numPages m) (chunkValues m) (compMeta m),
           writePagesToFile (Z.to_nat (getNumPagesForBytes size)) data size startPage 0 f).

Definition flushBuffer (inMemoryMode enableCompression : bool) (data : ChunkData) (capacity startPage : Z) (m : ColumnChunkMetadata)
    (f : DataFile) : outcome (ColumnChunkMetadata * DataFile) :=
  let* size := getBufferSize capacity in
  if bool_decide (compression (compMeta m) = CONSTANT) || (size =? 0) then Ok (m, f)
  else match t with
       | STRING | INT64 | INT32 | INT16 | INT8 | INTERNAL_ID | ARRAY | LIST | UINT64 | UINT32 | UINT16 | UINT8 | INT128 =>
           CompressedFlushBuffer inMemoryMode (getCompression fast t enableCompression) (buffer data) startPage m f
       | DOUBLE | FLOAT => floatFlush (buffer data) startPage m f
       | _ => uncompressedFlushBuffer (buffer data) size startPage m f
       end.

Definition flush (inMemoryMode enableCompression : bool) (data : ChunkData) (capacity : Z) (f : DataFile)
    : outcome (ColumnChunkMetadata * DataFile) :=
  let* m := getMetadataToFlush enableCompression data capacity in
  let '(startPage, f) := addNewPages (numPages m) f in
  flushBuffer inMemoryMode enableCompression data capacity startPage m f.
End Column.
