(* ===== verification/ColumnProof.v ===== *)
(** * Reading and writing the pages of a chunk

    Against the contract [PageCodec] of a compression: the loops over the pages of a chunk read
    and write the cells of its rows, whatever pages a range of rows touches. *)

From stdpp Require Import base list sorting gmap numbers strings.
From S2P Require Import Prelude NullMask Bitpacking IntegerBitpacking Compression PageCodec Column.
Local Open Scope Z_scope.

Lemma pageAt_setPage f p x q : pageAt (setPage p x f) q = if decide (q = p) then x else pageAt f q.
Proof.
  unfold pageAt, setPage. cbn [pages]. case_decide as H; [subst; by rewrite lookup_insert_eq|by rewrite lookup_insert_ne].
Qed.

(** A row is in a page, at a place in the page. *)
Lemma row_div K a e : (e < K)%nat -> ((K * a + e) / K = a)%nat /\ ((K * a + e) mod K = e)%nat.
Proof.
  intros He. split.
  - symmetry. by apply (Nat.div_unique _ K a e).
  - symmetry. by apply (Nat.mod_unique _ K a e).
Qed.

Lemma row_split K r : (0 < K)%nat -> r = (K * (r / K) + r mod K)%nat /\ (r mod K < K)%nat.
Proof. intros HK. pose proof (Nat.div_mod_eq r K). pose proof (Nat.mod_upper_bound r K). lia. Qed.

(** The positions that a filter asks for. *)
Definition wanted (filter : option (list nat)) (j : nat) : Prop := match filter with None => True | Some sel => j ∈ sel end.
Definition filterOK (filter : option (list nat)) (from : nat) : Prop :=
  match filter with None => True | Some sel => StronglySorted lt sel /\ Forall (le from) sel end.

Lemma skipBelow_ok sel to :
  StronglySorted lt sel ->
  StronglySorted lt (skipBelow sel to) /\ Forall (le to) (skipBelow sel to) /\
  forall j, (to <= j)%nat -> j ∈ sel -> j ∈ skipBelow sel to.
Proof.
  induction 1 as [|p sel Hs IH Hp]; cbn [skipBelow].
  - split_and!; [constructor|constructor|done].
  - destruct (Nat.ltb_spec p to).
    + destruct IH as (H1 & H2 & H3). split_and!; [done|done|]. intros j Hj [->|Hin]%elem_of_cons; [lia|by apply H3].
    + split_and!; [by constructor| |done]. constructor; [done|]. eapply Forall_impl; [exact Hp|]. cbn. lia.
Qed.

Lemma filter_step stale filter from to :
  filterOK filter from -> (from <= to)%nat ->
  exists go filter', match filter with
                     | None => (true, None)
                     | Some sel => let '(b, sel') := filterer stale sel from to in (b, Some sel')
                     end = (go, filter') /\
    filterOK filter' to /\ (forall j, (to <= j)%nat -> wanted filter j -> wanted filter' j) /\
    (go = false -> forall j, (from <= j < to)%nat -> ~ wanted filter j).
Proof.
  intros Hf Hle. destruct filter as [sel|]; [|by exists true, None].
  destruct Hf as [Hs Hg]. destruct (skipBelow_ok sel to Hs) as (H1 & H2 & H3). eexists _, _. split; [done|]. split; [done|]. split; [done|].
  unfold filterer. cbn [wanted]. destruct sel as [|p sel]; [intros _ j _ Hj; by apply elem_of_nil in Hj|].
  inversion_clear Hg as [|? ? Hp _]. apply StronglySorted_inv in Hs as [_ Hall].
  intros Hgo j Hj Hin. rewrite (proj2 (Nat.leb_le from p) Hp) in Hgo. cbn [andb] in Hgo. apply Nat.ltb_ge in Hgo.
  apply elem_of_cons in Hin as [->|Hin]; [lia|]. rewrite Forall_forall in Hall. specialize (Hall j Hin). lia.
Qed.

Section Loops.
Context `{FC : FloatCompression} (fast : forall n, ChunkPacker n) (t : PhysicalTypeID).
Context (md : CompressionMetadata) (K : nat) (HK : (0 < K)%nat) (HK32 : Z.of_nat K < 2 ^ 32).
Context (base : Z) (N : nat) (Hbase : 0 <= base).

Local Abbreviation B := (valueBits t).
Local Abbreviation accepts := (acceptsOf fast t md).
Local Abbreviation cell := (cellOf fast t md).

Definition rowCell (f : DataFile) (r : nat) : Z := cell (pageAt f (base + Z.of_nat (r / K))) (r mod K).

(** The pages of the chunk are in the file. *)
Definition inFile (f : DataFile) : Prop := base + Z.of_nat N <= filePages f /\ filePages f <= INVALID_PAGE.

Lemma page_lt r a e : r = (K * a + e)%nat -> (r < K * N)%nat -> (a < N)%nat.
Proof. intros -> Hr. nia. Qed.

Lemma writeLoop_ok read fuel p a e data src written count mask f row0 :
  PageCodec B (Z.of_nat K) accepts cell read (pageWrite fast t md) ->
  (count - written <= fuel)%nat -> (written <= count)%nat -> inFile f -> p = base + Z.of_nat a ->
  (row0 + written = K * a + e)%nat -> (e < K)%nat -> (row0 + count <= K * N)%nat -> maskOK mask src count ->
  (forall i, (i < count)%nat -> selected mask (src + i) = true -> accepts (value B data (src + i))) ->
  exists f', writeLoop fast t fuel md (Z.of_nat K) p e data src written count mask f = Ok f' /\ filePages f' = filePages f /\
    (forall i, (written <= i < count)%nat -> selected mask (src + i) = true -> rowCell f' (row0 + i) = value B data (src + i)) /\
    (forall r, (r < row0 + written \/ row0 + count <= r)%nat -> rowCell f' r = rowCell f r) /\
    (forall q, q < base \/ base + Z.of_nat N <= q -> pageAt f' q = pageAt f q).
Proof using HK HK32 Hbase.
  intros HC. revert p a e written f. induction fuel as [|fuel IH]; intros p a e written f Hf Hwc Hin -> Hrow He Hcap Hmask Hacc; cbn [writeLoop].
  - rewrite (proj2 (Nat.ltb_ge written count)) by lia. exists f. split_and!; try done. intros; lia.
  - destruct (Nat.ltb_spec written count) as [Hlt|Hge].
    2: { exists f. split_and!; try done. intros; lia. }
    set (k := Z.to_nat (Z.min (Z.of_nat (count - written)) (Z.of_nat K - Z.of_nat e))).
    assert (Hk : k = Nat.min (count - written) (K - e)) by (unfold k; lia).
    assert (Ha : (a < N)%nat) by (eapply (page_lt (row0 + written)); [done|lia]).
    destruct Hin as [Hin1 Hin2]. unfold updatePageWithCursor.
    rewrite (proj2 (Z.eqb_neq (base + Z.of_nat a) INVALID_PAGE)) by lia.
    rewrite (proj2 (Z.leb_gt (filePages f) (base + Z.of_nat a))) by lia. cbn [obind].
    destruct (cell_write (PageCodec := HC) (pageAt f (base + Z.of_nat a)) e data (src + written) k mask) as (x & Ex & Hx1 & Hx2 & _).
    { lia. } { lia. } { destruct mask; [destruct Hmask; split; [done|lia]|done]. }
    { intros i Hi Hsel. rewrite <- Nat.add_assoc in Hsel |- *. apply Hacc; [lia|done]. }
    change (WriteCompressedValuesToPage fast t (pageAt f (base + Z.of_nat a)) e data (src + written) k md mask)
      with (pageWrite fast t md (pageAt f (base + Z.of_nat a)) e data (src + written) k mask).
    rewrite Ex. cbn [obind]. set (f1 := setPage (base + Z.of_nat a) x f).
    assert (Hcell1 : forall r, rowCell f1 r = if decide (r / K = a)%nat then cell x (r mod K) else rowCell f r).
    { intros r. unfold rowCell, f1. rewrite pageAt_setPage. case_decide; case_decide; try lia; try done. }
    assert (Hrest : exists f', writeLoop fast t fuel md (Z.of_nat K) (wrapU 32 (base + Z.of_nat a + 1)) 0 data src (written + k) count mask f1 = Ok f' /\
      filePages f' = filePages f1 /\
      (forall i, (written + k <= i < count)%nat -> selected mask (src + i) = true -> rowCell f' (row0 + i) = value B data (src + i)) /\
      (forall r, (r < row0 + (written + k) \/ row0 + count <= r)%nat -> rowCell f' r = rowCell f1 r) /\
      (forall q, q < base \/ base + Z.of_nat N <= q -> pageAt f' q = pageAt f1 q)).
    { destruct (decide (written + k = count)%nat) as [Eq|Ne].
      - exists f1. split; [|split_and!; try done; intros; lia]. destruct fuel; cbn [writeLoop]; by rewrite (proj2 (Nat.ltb_ge (written + k) count)) by lia.
      - eapply (IH _ (S a) 0%nat); try done; try lia.
        rewrite wrapU_id; [lia|]. unfold inU, INVALID_PAGE in *. lia. }
    destruct Hrest as (f' & -> & Hn & H1 & H2 & H3). exists f'. split_and!; [done|done| | |].
    + intros i Hi Hsel. destruct (decide (i < written + k)%nat) as [Hlo|Hhi]; [|apply H1; [lia|done]].
      rewrite H2 by lia. rewrite Hcell1. destruct (row_div K a (e + (i - written)) ltac:(lia)) as [D M].
      replace (row0 + i)%nat with (K * a + (e + (i - written)))%nat by lia. rewrite D, M, decide_True by done.
      rewrite Hx1; [f_equal; lia|lia|]. by replace (src + written + (i - written))%nat with (src + i)%nat by lia.
    + intros r Hr. rewrite H2 by lia. rewrite Hcell1. case_decide as Hp; [|done]. rewrite Hx2; [by unfold rowCell; rewrite Hp|].
      destruct (row_split K r HK) as [Er Em]. rewrite Hp in Er. lia.
    + intros q Hq. rewrite H3 by done. unfold f1. rewrite pageAt_setPage. rewrite decide_False by lia. done.
Qed.

Lemma readLoop_ok read m fuel p a e result start scanned count stale filter f row0 :
  PageCodec B (Z.of_nat K) accepts cell read (pageWrite fast t md) -> pageIdx m = base -> numPages m = Z.of_nat N ->
  (count - scanned <= fuel)%nat -> (scanned <= count)%nat -> inFile f -> p = base + Z.of_nat a ->
  (row0 + scanned = K * a + e)%nat -> (e < K)%nat -> (row0 + count <= K * N)%nat -> filterOK filter scanned ->
  exists r, readLoop read fuel m (Z.of_nat K) p e result start scanned count stale filter f = Ok r /\
    (forall j, (scanned <= j < count)%nat -> wanted filter j -> value B r (start + j) = rowCell f (row0 + j)) /\
    (forall i, (i < start + scanned \/ start + count <= i)%nat -> value B r i = value B result i).
Proof using HK HK32 Hbase.
  intros HC Hm1 Hm2. revert p a e scanned result filter.
  induction fuel as [|fuel IH]; intros p a e scanned result filter Hf Hsc Hin -> Hrow He Hcap Hfil; cbn [readLoop].
  - rewrite (proj2 (Nat.ltb_ge scanned count)) by lia. exists result. split_and!; try done. intros; lia.
  - destruct (Nat.ltb_spec scanned count) as [Hlt|Hge].
    2: { exists result. split_and!; try done. intros; lia. }
    set (k := Z.to_nat (Z.min (Z.of_nat K - Z.of_nat e) (Z.of_nat (count - scanned)))).
    assert (Hk : k = Nat.min (count - scanned) (K - e)) by (unfold k; lia).
    assert (Ha : (a < N)%nat) by (eapply (page_lt (row0 + scanned)); [done|lia]). destruct Hin as [Hin1 Hin2].
    assert (Hv : isPageIdxValid (base + Z.of_nat a) m = true).
    { unfold isPageIdxValid. rewrite Hm1, Hm2, (proj2 (Z.leb_le base _)), (proj2 (Z.ltb_lt (base + Z.of_nat a) _)) by lia. done. }
    rewrite Hv. cbn [negb]. destruct (filter_step stale filter scanned (scanned + k) Hfil ltac:(lia)) as (go & filter' & -> & Hf1 & Hf2 & Hf3).
    rewrite (proj2 (Z.eqb_neq (base + Z.of_nat a) INVALID_PAGE)) by lia.
    assert (Hread : exists r1, (if go then read (pageAt f (base + Z.of_nat a)) e result (scanned + start)%nat k else Ok result) = Ok r1 /\
      (forall j, (scanned <= j < scanned + k)%nat -> wanted filter j -> value B r1 (start + j) = rowCell f (row0 + j)) /\
      (forall i, (i < start + scanned \/ start + (scanned + k) <= i)%nat -> value B r1 i = value B result i)).
    { destruct go.
      - destruct (cell_read (PageCodec := HC) (pageAt f (base + Z.of_nat a)) e result (scanned + start) k ltac:(lia)) as (r1 & -> & Hr1).
        exists r1. split_and!; [done| |].
        + intros j Hj _. rewrite Hr1, decide_True by lia. unfold rowCell.
          destruct (row_div K a (e + (j - scanned)) ltac:(lia)) as [D M].
          replace (row0 + j)%nat with (K * a + (e + (j - scanned)))%nat by lia. rewrite D, M. f_equal. lia.
        + intros i Hi. rewrite Hr1, decide_False by lia. done.
      - exists result. split_and!; try done. intros j Hj Hw. by destruct (Hf3 eq_refl j Hj). }
    destruct Hread as (r1 & -> & Hr1 & Hr2). cbn [obind].
    assert (Hrest : exists r, readLoop read fuel m (Z.of_nat K) (wrapU 32 (base + Z.of_nat a + 1)) 0 r1 start (scanned + k) count stale filter' f = Ok r /\
      (forall j, (scanned + k <= j < count)%nat -> wanted filter' j -> value B r (start + j) = rowCell f (row0 + j)) /\
      (forall i, (i < start + (scanned + k) \/ start + count <= i)%nat -> value B r i = value B r1 i)).
    { destruct (decide (scanned + k = count)%nat) as [Eq|Ne].
      - exists r1. split; [|split_and!; try done; intros; lia]. destruct fuel; cbn [readLoop]; by rewrite (proj2 (Nat.ltb_ge (scanned + k) count)) by lia.
      - eapply (IH _ (S a) 0%nat); try done; try lia.
        rewrite wrapU_id; [lia|]. unfold inU, INVALID_PAGE in *. lia. }
    destruct Hrest as (r & -> & H1 & H2). exists r. split_and!; [done| |].
    + intros j Hj Hw. destruct (decide (j < scanned + k)%nat); [rewrite H2 by lia; apply Hr1; [lia|done]|].
      apply H1; [lia|]. apply Hf2; [lia|done].
    + intros i Hi. rewrite H2 by lia. apply Hr2. lia.
Qed.
End Loops.
