(* ===== verification/ColumnCheckpoint.v ===== *)
(** * Checkpoints of a column chunk

    A checkpoint that writes the changed rows of a chunk in place leaves every row readable: the
    rows that were written hold their new values, all others their old ones, though the
    statistics of the chunk, from which the packing of its pages is computed whenever a page is
    read, change with every write. *)

From stdpp Require Import base list sorting gmap numbers strings.
From S2P Require Import Prelude NullMask Bitpacking IntegerBitpacking Compression PageCodec Column ColumnProof.
Local Open Scope Z_scope.

Lemma PAGE_SIZE_value : Z.of_nat PAGE_SIZE = 4096.
Proof. vm_compute. reflexivity. Qed.

Lemma size_in_page t s : getDataTypeSizeInChunk t = Ok s -> s <= 4096.
Proof. unfold getDataTypeSizeInChunk. rewrite PAGE_SIZE_value. destruct t; cbn; intros [= <-]; lia. Qed.

Section Chunks.
Context `{FC : FloatCompression} (fast : forall n, ChunkPacker n) (HF : forall n, @ChunkPackerOK n (fast n)) (t : PhysicalTypeID).

Local Abbreviation B := (valueBits t).
Local Abbreviation perPageOf md := (numValues fast md (Z.of_nat PAGE_SIZE) t).

(** Columns of integers, internal IDs and booleans. *)
Definition simpleColumn : Prop := t = BOOL \/ packedType fast t <> None.

Definition isConstant (m : ColumnChunkMetadata) : bool := bool_decide (compression (compMeta m) = CONSTANT).

(** The rows that the pages of a chunk have room for; rows are numbered with 32 bits. *)
Definition capacity (m : ColumnChunkMetadata) (perPage : Z) : Z :=
  if isConstant m then 2 ^ 32 - 2 else perPage * numPages m.

Record chunkLayout (f : DataFile) (m : ColumnChunkMetadata) (perPage : Z) : Prop := {
  cl_ok : chunkOK fast t (compMeta m);
  cl_per : perPageOf (compMeta m) = Ok perPage;
  cl_pages : if isConstant m then pageIdx m = INVALID_PAGE /\ numPages m = 0
             else 0 <= pageIdx m /\ 0 <= numPages m /\ pageIdx m + numPages m <= filePages f /\ filePages f <= INVALID_PAGE;
  cl_values : 0 <= chunkValues m <= capacity m perPage
}.

(** The value that reading a row of the chunk gives. *)
Definition chunkCell (m : ColumnChunkMetadata) (f : DataFile) (r : nat) : Z :=
  if isConstant m then constantValue t (compMeta m)
  else match perPageOf (compMeta m) with
       | Ok perPage => rowCell fast t (compMeta m) (Z.to_nat perPage) (pageIdx m) f r
       | Err _ => 0
       end.

Lemma isConstant_true m : isConstant m = true <-> compression (compMeta m) = CONSTANT.
Proof. apply bool_decide_eq_true. Qed.

Lemma perPage_bounds md perPage :
  chunkOK fast t md -> compression md <> CONSTANT -> perPageOf md = Ok perPage -> 0 < perPage < 2 ^ 32.
Proof using HF.
  intros Hok Hc Hp. unfold numValues, chunkOK in *. rewrite PAGE_SIZE_value in Hp. destruct (compression md) eqn:E; try done.
  - destruct Hok as (_ & s & Hs & Hpos). unfold Uncompressed_numValues in Hp. rewrite Hs in Hp. cbn [obind] in Hp.
    rewrite (proj2 (Z.eqb_neq s 0)) in Hp by lia. injection Hp as <-.
    pose proof (size_in_page t s Hs).
    split; [apply Z.div_str_pos; lia|]. apply Z.div_lt_upper_bound; lia.
  - destruct Hok as (T & info & HT & Hm & Hi & Hu & Hz). rewrite HT, Hi in Hp. cbn [obind] in Hp. injection Hp as <-.
    destruct (packedType_ok fast HF t T HT) as (Hint & _). pose proof (intType_bounds _ _ Hint). pose proof (widthOK_range _ _ (proj1 Hu)).
    unfold IntegerBitpacking.numValues. rewrite (proj2 (Z.eqb_neq _ 0)) by done.
    split; [apply Z.div_str_pos; lia|]. apply Z.div_lt_upper_bound; lia.
  - injection Hp as <-. unfold BooleanBitpacking_numValues. lia.
Qed.

Lemma cursor_ok base r K N :
  (0 < K)%nat -> Z.of_nat K < 2 ^ 32 -> 0 <= base -> base + Z.of_nat N <= INVALID_PAGE -> (r < K * N)%nat ->
  getPageCursorForOffsetInGroup r base (Z.of_nat K) = Ok (base + Z.of_nat (r / K), (r mod K)%nat).
Proof.
  intros HK HK32 Hb Hin Hr. unfold getPageCursorForOffsetInGroup, getPageCursorForPos.
  rewrite wrapU_id by (unfold inU; lia). rewrite (proj2 (Z.eqb_neq (Z.of_nat K) 0)) by lia.
  assert (Hd : (r / K < N)%nat) by (apply Nat.Div0.div_lt_upper_bound; lia).
  rewrite <- Nat2Z.inj_div, <- Nat2Z.inj_mod. rewrite (proj2 (Z.ltb_lt _ _)) by (unfold INVALID_PAGE in *; lia).
  cbn [obind fst snd]. rewrite Nat2Z.id. rewrite wrapU_id by (unfold inU, INVALID_PAGE in *; lia). do 2 f_equal. lia.
Qed.

Lemma cursor_constant r :
  Z.of_nat r < 2 ^ 32 - 1 -> getPageCursorForOffsetInGroup r INVALID_PAGE UINT64_MAX = Ok (INVALID_PAGE, r).
Proof.
  intros Hr. unfold getPageCursorForOffsetInGroup, getPageCursorForPos. change (wrapU 32 UINT64_MAX) with (2 ^ 32 - 1).
  rewrite (proj2 (Z.eqb_neq (2 ^ 32 - 1) 0)) by lia. rewrite Z.div_small, Z.mod_small by lia. rewrite (proj2 (Z.ltb_lt 0 _)) by lia.
  cbn [obind fst snd]. by rewrite Nat2Z.id.
Qed.

(** ** Writing a range of rows *)

Lemma chunk_write f m perPage row0 data src count mask :
  chunkLayout f m perPage -> (0 < count)%nat -> Z.of_nat (row0 + count) <= capacity m perPage -> maskOK mask src count ->
  (forall i, (i < count)%nat -> selected mask (src + i) = true -> acceptsOf fast t (compMeta m) (value B data (src + i))) ->
  exists f', writeValuesToPage fast t (mkChunkState m perPage) row0 data src count mask f = Ok f' /\ filePages f' = filePages f /\
    (forall i, (i < count)%nat -> selected mask (src + i) = true -> chunkCell m f' (row0 + i) = value B data (src + i)) /\
    (forall r, (r < row0 \/ row0 + count <= r)%nat -> chunkCell m f' r = chunkCell m f r) /\
    (forall q, q < pageIdx m \/ pageIdx m + numPages m <= q -> pageAt f' q = pageAt f q).
Proof using HF.
  intros [Hok Hper Hpg Hval] H0 Hcap Hmask Hacc. unfold writeValuesToPage, chunkCell, capacity in *. cbn [metadata numValuesPerPage].
  destruct (isConstant m) eqn:Ec.
  - apply isConstant_true in Ec. destruct Hpg as [Hp1 Hp2].
    assert (perPage = UINT64_MAX) as -> by (unfold numValues in Hper; rewrite Ec in Hper; congruence). rewrite Hp1, cursor_constant by lia. cbn [obind fst snd].
    exists f. split; [|split_and!; try done].
    + destruct count as [|count]; [lia|]. cbn [writeLoop]. rewrite (proj2 (Nat.ltb_lt 0 (S count))) by lia.
      set (k := Z.to_nat (Z.min (Z.of_nat (S count - 0)) (UINT64_MAX - Z.of_nat row0))). assert (k = S count) as -> by (unfold k, UINT64_MAX; lia).
      unfold updatePageWithCursor. rewrite Z.eqb_refl, Ec.
      destruct (cell_write (PageCodec := constant_codec fast HF t (compMeta m) UINT64_MAX Ec Hok) 0 row0 data (src + 0) (S count) mask) as (x & Ex & _).
      { lia. } { unfold UINT64_MAX. lia. } { by rewrite Nat.add_0_r. } { by rewrite Nat.add_0_r. }
      unfold pageWrite in Ex. rewrite Ex. cbn [obind]. destruct count; cbn [writeLoop]; by rewrite (proj2 (Nat.ltb_ge _ _)) by lia.
    + intros i Hi Hsel. specialize (Hacc i Hi Hsel). unfold acceptsOf in Hacc. rewrite Ec in Hacc. by symmetry.
  - rewrite Hper. assert (Hc : compression (compMeta m) <> CONSTANT) by (intros E; apply isConstant_true in E; congruence).
    pose proof (perPage_bounds _ _ Hok Hc Hper) as Hb. destruct Hpg as (Hp1 & Hp2 & Hp3 & Hp4).
    set (K := Z.to_nat perPage). assert (EK : perPage = Z.of_nat K) by (unfold K; lia). rewrite EK in *. clear EK.
    set (N := Z.to_nat (numPages m)). assert (EN : numPages m = Z.of_nat N) by (unfold N; lia). rewrite EN in *.
    rewrite (cursor_ok _ _ _ N) by lia. cbn [obind fst snd]. destruct (row_split K row0 ltac:(lia)) as [Er Em].
    assert (HC : exists read, PageCodec B (Z.of_nat K) (acceptsOf fast t (compMeta m)) (cellOf fast t (compMeta m)) read (pageWrite fast t (compMeta m))).
    { destruct (decide (t = UINT8)) as [->|Hu].
      - eexists. eapply vectorCodec_ok; try done.
      - eexists. eapply pageCodec_ok; try done. }
    destruct HC as [read HC].
    destruct (writeLoop_ok fast t (compMeta m) K ltac:(lia) ltac:(lia) (pageIdx m) N Hp1 read count (pageIdx m + Z.of_nat (row0 / K))
                (row0 / K) (row0 mod K) data src 0 count mask f row0 HC) as (f' & E & H1 & H2 & H3 & H4); try done; try lia.
    exists f'. split_and!; try done.
    + intros i Hi. apply H2. lia.
    + intros r Hr. apply H3. lia.
Qed.

(** ** Reading a range of rows *)

Lemma chunk_read read f m perPage result start r0 count stale filter :
  chunkLayout f m perPage -> 
  PageCodec B perPage (acceptsOf fast t (compMeta m)) (cellOf fast t (compMeta m)) read (pageWrite fast t (compMeta m)) ->
  Z.of_nat (r0 + count) <= capacity m perPage -> filterOK filter 0 ->
  exists r, readCompressedValues read (mkChunkState m perPage) result start r0 (r0 + count) stale filter f = Ok r /\
    (forall j, (j < count)%nat -> wanted filter j -> value B r (start + j) = chunkCell m f (r0 + j)) /\
    (forall i, (i < start \/ start + count <= i)%nat -> value B r i = value B result i).
Proof using HF.
  intros [Hok Hper Hpg Hval] HC Hcap Hfil. unfold readCompressedValues, chunkCell, capacity in *. cbn [metadata numValuesPerPage].
  replace (r0 + count - r0)%nat with count by lia. destruct (Nat.eqb_spec count 0) as [->|H0].
  { exists result. split_and!; try done. intros; lia. }
  destruct (isConstant m) eqn:Ec.
  - apply isConstant_true in Ec. destruct Hpg as [Hp1 Hp2].
    assert (perPage = UINT64_MAX) as -> by (unfold numValues in Hper; rewrite Ec in Hper; congruence). rewrite Hp1, cursor_constant by lia. cbn [obind fst snd].
    assert (Hv : isPageIdxValid INVALID_PAGE m = true).
    { unfold isPageIdxValid. rewrite Z.eqb_refl, bool_decide_eq_true_2 by done. apply orb_true_r. }
    rewrite Hv. cbn [negb]. destruct count as [|count]; [lia|]. cbn [readLoop]. rewrite (proj2 (Nat.ltb_lt 0 (S count))) by lia.
    set (k := Z.to_nat (Z.min (UINT64_MAX - Z.of_nat r0) (Z.of_nat (S count - 0)))). assert (k = S count) as -> by (unfold k, UINT64_MAX; lia).
    rewrite Hv. cbn [negb]. destruct (filter_step stale filter 0 (0 + S count) Hfil ltac:(lia)) as (go & filter' & -> & _ & _ & Hf3).
    rewrite Z.eqb_refl. cbn [Nat.add] in *.
    assert (Hend : forall r, readLoop read count m UINT64_MAX (wrapU 32 (INVALID_PAGE + 1)) 0 r start (S count) (S count) stale filter' f = Ok r)
      by (intros r; destruct count; cbn [readLoop]; by rewrite (proj2 (Nat.ltb_ge _ _)) by lia).
    destruct go.
    + destruct (cell_read (PageCodec := HC) 0 r0 result start (S count)) as (r & -> & Hr); [unfold UINT64_MAX; lia|]. cbn [obind]. rewrite Hend.
      exists r. split_and!; [done| |].
      * intros j Hj _. rewrite Hr, decide_True by lia. unfold cellOf. by rewrite Ec.
      * intros i Hi. by rewrite Hr, decide_False by lia.
    + cbn [obind]. rewrite Hend. exists result. split_and!; try done. intros j Hj Hw. destruct (Hf3 eq_refl j); [lia|done].
  - rewrite Hper. assert (Hc : compression (compMeta m) <> CONSTANT) by (intros E; apply isConstant_true in E; congruence).
    pose proof (perPage_bounds _ _ Hok Hc Hper) as Hb. destruct Hpg as (Hp1 & Hp2 & Hp3 & Hp4).
    set (K := Z.to_nat perPage). assert (EK : perPage = Z.of_nat K) by (unfold K; lia). rewrite EK in *. clear EK.
    set (N := Z.to_nat (numPages m)). assert (EN : numPages m = Z.of_nat N) by (unfold N; lia). rewrite EN in *.
    rewrite (cursor_ok _ _ _ N) by lia. cbn [obind fst snd]. destruct (row_split K r0 ltac:(lia)) as [Er Em].
    assert (Hd : (r0 / K < N)%nat) by (apply Nat.Div0.div_lt_upper_bound; lia).
    assert (Hv : isPageIdxValid (pageIdx m + Z.of_nat (r0 / K)) m = true).
    { unfold isPageIdxValid. rewrite EN, (proj2 (Z.leb_le (pageIdx m) _)), (proj2 (Z.ltb_lt (pageIdx m + _) _)) by lia. done. }
    rewrite Hv. cbn [negb].
    destruct (readLoop_ok fast t (compMeta m) K ltac:(lia) ltac:(lia) (pageIdx m) N Hp1 read m count (pageIdx m + Z.of_nat (r0 / K))
                (r0 / K) (r0 mod K) result start 0 count stale filter f r0 HC) as (r & E & H1 & H2); try done; try lia.
    exists r. split_and!; try done.
    + intros j Hj. apply H1. lia.
    + intros i Hi. apply H2. lia.
Qed.

(** ** Statistics *)

(** A value of the type of the column, and its encoding in statistics. *)
Definition typed (x : Z) : Z := match packedType fast t with Some T => toT (bits T) (isSigned T) x | None => x end.
Definition encoded (v : Z) : StorageValue := match packedType fast t with Some T => storageValue (bits T) v | None => v end.
Definition inType (v : Z) : Prop := match packedType fast t with Some T => inT (bits T) (isSigned T) v | None => v = 0 \/ v = 1 end.

(** The minimum and maximum of a chunk are the encoding of values of its type. *)
Definition statsOK (md : CompressionMetadata) : Prop :=
  (exists a, min md = encoded a /\ inType a) /\ (exists b, max md = encoded b /\ inType b) /\
  (compression md = CONSTANT -> min md = max md).

Lemma gt_value T a b :
  packedType fast t = Some T -> inT (bits T) (isSigned T) a -> inT (bits T) (isSigned T) b ->
  gt t (storageValue (bits T) a) (storageValue (bits T) b) = Ok (b <? a).
Proof using HF.
  intros HT Ha Hb. assert (H64 : forall v, - 2 ^ 63 <= v < 2 ^ 63 -> signedInt (wrapU 64 v) = v).
  { intros v Hv. unfold signedInt. rewrite wrapS_wrapU_le by lia. apply wrapS_id; [lia|]. unfold inS. lia. }
  assert (HU : forall v, 0 <= v < 2 ^ 64 -> unsignedInt (wrapU 64 v) = v).
  { intros v Hv. unfold unsignedInt. rewrite wrapU_wrapU by lia. by apply wrapU_id. }
  destruct t; try discriminate HT; injection HT as <-; cbn [bits isSigned sized] in *; unfold inT, inS, inU in Ha, Hb; unfold gt;
    lazymatch goal with
    | |- context [signedInt128] =>
        change (storageValue 128 a) with (wrapU 128 a); change (storageValue 128 b) with (wrapU 128 b); unfold signedInt128;
        rewrite !wrapS_wrapU_le, !wrapS_id by (try lia; unfold inS; lia); done
    | |- context [signedInt] =>
        unfold storageValue; cbn [Z.eqb Pos.eqb]; rewrite !H64 by lia; done
    | |- _ => unfold storageValue; cbn [Z.eqb Pos.eqb]; rewrite !HU by lia; done
    end.
Qed.

(** Statistics that have followed writes of values that the compression accepts. *)
Definition tracks (md0 md : CompressionMetadata) : Prop :=
  compression md = compression md0 /\ statsOK md /\
  match compression md0, packedType fast t with
  | CONSTANT, _ => md = md0
  | INTEGER_BITPACKING, Some T =>
      let mn := get (bits T) (isSigned T) (min md) in
      let mx := get (bits T) (isSigned T) (max md) in
      mn <= get (bits T) (isSigned T) (min md0) /\ get (bits T) (isSigned T) (max md0) <= mx /\
      samePacking (bits T) (isSigned T) md0 mn /\ samePacking (bits T) (isSigned T) md0 mx /\ notSmallest (bits T) (isSigned T) mn
  | _, _ => True
  end.

Lemma tracks_refl md : chunkOK fast t md -> statsOK md -> tracks md md.
Proof.
  intros Hok Hs. split; [done|]. split; [done|]. unfold chunkOK in Hok. destruct (compression md); try done.
  destruct Hok as (T & info & -> & [Hle Hns] & _). unfold samePacking. split_and!; [lia|lia|..|exact Hns]; f_equal; lia.
Qed.

Lemma tracks_packing md0 md :
  chunkOK fast t md0 -> tracks md0 md ->
  chunkOK fast t md /\ perPageOf md = perPageOf md0 /\ forall f i, cellOf fast t md f i = cellOf fast t md0 f i.
Proof using HF.
  intros Hok (Hc & _ & Ht). destruct (decide (compression md0 = CONSTANT)) as [E|E].
  - rewrite E in Ht. by subst md.
  - unfold chunkOK, numValues, cellOf in *. rewrite Hc. destruct (compression md0) eqn:Ec; try done.
    destruct Hok as (T & info & HT & Hm & Hi & Hu & Hz). rewrite HT in *. destruct (packedType_ok fast HF t T HT) as (Hint & _).
    destruct Ht as (H1 & H2 & H3 & H4 & H5).
    assert (Hm' : metaOK (bits T) (isSigned T) md) by (split; [destruct Hm; lia|done]).
    assert (E' : getPackingInfo (bits T) (isSigned T) md = Ok info).
    { rewrite <- Hi. rewrite !packing_value by done. f_equal. destruct Hm as [Hle _].
      rewrite <- (packOf_union _ _ _ _ Hle (Z.le_trans _ _ _ H1 (Z.le_trans _ _ _ Hle H2)) H3 H4). f_equal; lia. }
    rewrite E', Hi. split; [|done]. exists T, info. done.
Qed.

Lemma tracks_cell md0 m m0 f r :
  compMeta m0 = md0 -> chunkOK fast t md0 -> tracks md0 (compMeta m) -> pageIdx m = pageIdx m0 -> chunkCell m f r = chunkCell m0 f r.
Proof using HF.
  intros <- Hok Ht Hp. destruct (tracks_packing _ _ Hok Ht) as (_ & Hper & Hcell). unfold chunkCell, isConstant.
  rewrite (proj1 Ht). case_bool_decide as Hc.
  - specialize (Hcell 0 0%nat). unfold cellOf in Hcell. by rewrite (proj1 Ht), Hc in Hcell.
  - rewrite Hper. destruct (perPageOf (compMeta m0)); [|done]. unfold rowCell. by rewrite Hp, Hcell.
Qed.

(** ** Minimum and maximum of a batch *)

(** The values of a batch that are not null. *)
Definition inBatch (data : Z) (count : nat) (mask : option NullMask) (v : Z) : Prop :=
  exists i, (i < count)%nat /\ selected mask i = true /\ v = typed (value B data i).

(** Bounds that are attained. *)
Definition bounds (P : Z -> Prop) (r : option (StorageValue * StorageValue)) : Prop :=
  match r with
  | None => forall v, ~ P v
  | Some (mn, mx) => exists lo hi, mn = encoded lo /\ mx = encoded hi /\ P lo /\ P hi /\ forall v, P v -> lo <= v <= hi
  end.

Definition boolBounds (P : bool -> Prop) (r : option (bool * bool)) : Prop :=
  match r with
  | None => forall b, ~ P b
  | Some (mn, mx) => P mn /\ P mx /\ forall b, P b -> (mn = true -> b = true) /\ (b = true -> mx = true)
  end.

Lemma boolBounds_ext P Q r : (forall b, P b <-> Q b) -> boolBounds P r -> boolBounds Q r.
Proof.
  intros H. destruct r as [[mn mx]|]; cbn.
  - rewrite !H. intros (H1 & H2 & H3). split_and!; [done|done|]. intros b Hb. by apply H3, H.
  - intros HP b Hb. by apply (HP b), H.
Qed.

Lemma boolMinMax_ok data mask i count acc P :
  wf_mask mask -> (i + count <= 64 * length (NullMask.data mask))%nat -> boolBounds P acc ->
  exists r, boolMinMax (words data (i + count)) mask i count acc = Ok r /\
    boolBounds (fun b => P b \/ exists j, (i <= j < i + count)%nat /\ maskBit mask j = false /\ b = Z.testbit data (Z.of_nat j)) r.
Proof.
  intros Hw. revert i acc P. induction count as [|count IH]; intros i acc P Hl HP; cbn [boolMinMax].
  - exists acc. split; [done|]. eapply boolBounds_ext; [|exact HP]. intros b. split; [by left|]. intros [|(j & Hj & _)]; [done|lia].
  - rewrite (isNull_bit (NullMask.data mask) i (proj1 Hw)) by lia. cbn [obind]. fold (maskBit mask i).
    replace (i + S count)%nat with (S i + count)%nat by lia. set (x := Z.testbit data (Z.of_nat i)).
    set (P' := fun b => P b \/ maskBit mask i = false /\ b = x).
    assert (Hext : forall b, (P' b \/ exists j, (S i <= j < S i + count)%nat /\ maskBit mask j = false /\ b = Z.testbit data (Z.of_nat j)) <->
                             (P b \/ exists j, (i <= j < S i + count)%nat /\ maskBit mask j = false /\ b = Z.testbit data (Z.of_nat j))).
    { intros b. unfold P'. split.
      - intros [[Hb|[Hm ->]]|(j & Hj & Hb)]; [by left|right; exists i; split; [lia|done]|right; exists j; split; [lia|done]].
      - intros [Hb|(j & Hj & Hm & ->)]; [by left; left|]. destruct (decide (j = i)) as [->|]; [left; right; done|].
        right. exists j. split; [lia|done]. }
    destruct (maskBit mask i) eqn:Em.
    + destruct (IH (S i) acc P' ltac:(lia)) as (r & -> & Hr).
      { eapply boolBounds_ext; [|exact HP]. intros b. unfold P'. split; [by left|]. by intros [|[? _]]. }
      exists r. split; [done|]. eapply boolBounds_ext; [apply Hext|exact Hr].
    + pose proof (words_enough data (S i + count)). rewrite isNull_bit by (try apply words_wf; lia). cbn [obind]. rewrite words_bit by lia. fold x.
      destruct (IH (S i) (match acc with None => Some (x, x) | Some (mn, mx) => Some (mn && x, mx || x) end) P' ltac:(lia)) as (r & -> & Hr).
      { unfold P'. destruct acc as [[a b]|]; cbn in *.
        - destruct HP as (H1 & H2 & H3). split_and!; [destruct a, x; auto|destruct b, x; auto|]. intros c [Hc|[_ ->]];
            [specialize (H3 _ Hc); destruct a, b, c, x; cbn; tauto|destruct a, b, x; cbn; tauto].
        - split_and!; auto. intros c [Hc|[_ ->]]; [by destruct (HP c)|done]. }
      exists r. split; [done|]. eapply boolBounds_ext; [apply Hext|exact Hr].
Qed.

Lemma minMax_all data count :
  (0 < count)%nat ->
  exists mn mx, getMinMax (words data count) count = Ok (mn, mx) /\
    boolBounds (fun b => exists j, (j < count)%nat /\ b = Z.testbit data (Z.of_nat j)) (Some (mn, mx)).
Proof.
  intros H0. pose proof (words_enough data count). rewrite getMinMax_spec by (try apply words_wf; lia). eexists _, _. split; [done|]. unfold boolBounds.
  assert (Hbit : forall j, (j < count)%nat -> bit (words data count) j = Z.testbit data (Z.of_nat j)) by (intros; apply words_bit; lia).
  split_and!.
  - destruct (forallb (bit (words data count)) (seq 0 count)) eqn:E.
    + exists 0%nat. split; [done|]. rewrite forallb_forall in E. rewrite <- Hbit by done. symmetry. apply E, in_seq. lia.
    + destruct (existsb (fun j => negb (bit (words data count) j)) (seq 0 count)) eqn:E'.
      * apply existsb_exists in E' as (j & Hj%in_seq & Hb%negb_true_iff). exists j. split; [lia|]. rewrite <- Hbit by lia. by symmetry.
      * exfalso. apply not_true_iff_false in E. apply E, forallb_forall. intros j Hj. apply negb_false_iff.
        destruct (negb (bit (words data count) j)) eqn:En; [|done]. apply not_true_iff_false in E'. destruct E'. apply existsb_exists. eauto.
  - destruct (existsb (bit (words data count)) (seq 0 count)) eqn:E.
    + apply existsb_exists in E as (j & Hj%in_seq & Hb). exists j. split; [lia|]. rewrite <- Hbit by lia. by symmetry.
    + exists 0%nat. split; [done|]. rewrite <- Hbit by done. symmetry. apply not_true_iff_false. intros Hb. apply not_true_iff_false in E. destruct E.
      apply existsb_exists. exists 0%nat. split; [apply in_seq; lia|done].
  - intros b (j & Hj & ->). rewrite <- Hbit by done. split.
    + intros E. rewrite forallb_forall in E. apply E, in_seq. lia.
    + intros Hb. apply existsb_exists. exists j. split; [apply in_seq; lia|done].
Qed.

Lemma bool_bounds data count mask r :
  t = BOOL -> boolBounds (fun b => exists j, (j < count)%nat /\ selected mask j = true /\ b = Z.testbit data (Z.of_nat j)) r ->
  bounds (inBatch data count mask) (match r with Some (mn, mx) => Some (Z.b2z mn, Z.b2z mx) | None => None end).
Proof.
  intros Ht Hb. assert (HP : forall v, inBatch data count mask v <-> exists j, (j < count)%nat /\ selected mask j = true /\ v = Z.b2z (Z.testbit data (Z.of_nat j))).
  { intros v. unfold inBatch, typed. rewrite Ht. cbn [packedType integerType valueBits]. setoid_rewrite value_bit. done. }
  assert (He : forall v, encoded v = v) by (intros; unfold encoded; by rewrite Ht).
  destruct r as [[mn mx]|]; cbn in *.
  - destruct Hb as ((j1 & H1 & S1 & ->) & (j2 & H2 & S2 & ->) & H3). eexists _, _. rewrite !He. split; [done|]. split; [done|]. rewrite !HP.
    split; [eauto|]. split; [eauto|]. intros v (j & Hj & Sj & ->)%HP. destruct (H3 (Z.testbit data (Z.of_nat j))) as [Ha Hc]; [eauto|].
    destruct (Z.testbit data (Z.of_nat j)), (Z.testbit data (Z.of_nat j1)), (Z.testbit data (Z.of_nat j2)); cbn; try lia; naive_solver.
  - intros v (j & Hj & Sj & ->)%HP. apply (Hb (Z.testbit data (Z.of_nat j))). eauto.
Qed.

Lemma getMinMax_int T data offset count mask flag :
  packedType fast t = Some T -> (0 < count)%nat ->
  getMinMaxStorageValue fast data offset count t mask flag =
  getTypedMinMax (bits T) (isSigned T) (getFields data (bits T * Z.of_nat offset) (bits T) count) mask offset.
Proof.
  intros HT H0. assert (E : (count =? 0)%nat = false) by (apply Nat.eqb_neq; lia).
  unfold getMinMaxStorageValue. destruct t; try discriminate HT; rewrite HT, E; done.
Qed.

Lemma minMax_batch data count mask flag :
  simpleColumn -> (0 < count)%nat -> maskOK mask 0 count ->
  exists r, getMinMaxStorageValue fast data 0 count t mask flag = Ok r /\ bounds (inBatch data count mask) r.
Proof using HF.
  intros Hs H0 Hm. destruct (packedType fast t) as [T|] eqn:HT.
  - destruct (packedType_ok fast HF t T HT) as (Hint & _ & _ & Hv). rewrite (getMinMax_int T) by done. rewrite Z.mul_0_r.
    assert (Hl : length (getFields data 0 (bits T) count) = count) by apply length_getFields.
    destruct (getTypedMinMax_ok _ _ Hint (getFields data 0 (bits T) count) mask 0) as (r & -> & Hr).
    { intros E. rewrite E in Hl. cbn in Hl. lia. } { by rewrite Hl. }
    exists r. split; [done|].
    assert (HP : forall v, (exists i x, getFields data 0 (bits T) count !! i = Some x /\ v = toT (bits T) (isSigned T) x /\ selected mask (0 + i) = true) <->
                           inBatch data count mask v).
    { intros v. unfold inBatch, typed. rewrite HT, Hv. pose proof (fun j Hj => getFields_values (bits T) data 0 count j Hj) as Hg.
      cbn [Nat.add] in *. rewrite Z.mul_0_r in Hg. split.
      - intros (i & x & Hx & -> & Hsel). pose proof (lookup_lt_Some _ _ _ Hx) as Hlt. rewrite Hl in Hlt. rewrite Hg in Hx by done. injection Hx as <-. eauto.
      - intros (i & Hi & Hsel & ->). exists i, (value (bits T) data i). by rewrite Hg. }
    destruct r as [[a b]|]; cbn in *.
    + destruct Hr as (lo & hi & -> & -> & H1 & H2 & H3). exists lo, hi. unfold encoded. rewrite HT. rewrite <- !HP. split_and!; try done.
      intros v Hv'. by apply H3, HP.
    + intros v Hv'. by apply (Hr v), HP.
  - destruct Hs as [Ht|]; [|done]. unfold getMinMaxStorageValue. rewrite Ht. rewrite (proj2 (Nat.eqb_neq count 0)) by lia.
    assert (Hall : (forall j, selected mask j = true) ->
      exists r, (let* r := getMinMax (words data count) count in Ok (Some (Z.b2z (fst r), Z.b2z (snd r)))) = Ok r /\ bounds (inBatch data count mask) r).
    { intros Hsel. destruct (minMax_all data count H0) as (mn & mx & -> & Hb). cbn [obind fst snd]. eexists. split; [done|].
      apply (bool_bounds data count mask (Some (mn, mx)) Ht). eapply boolBounds_ext; [|exact Hb]. intros b. split; [intros (j & ? & ->); eauto|intros (j & ? & _ & ->); eauto]. }
    destruct mask as [m|]; [|by apply Hall]. destruct Hm as [Hw Hl]. destruct (hasNoNullsGuarantee m) eqn:Eg.
    + apply Hall. intros j. cbn. apply negb_true_iff, (proj2 Hw). by apply negb_true_iff in Eg.
    + destruct (boolMinMax_ok data m 0 count None (fun _ => False) Hw Hl) as (r & E & Hb); [by intros ? []|]. cbn [Nat.add] in E. rewrite E. cbn [obind].
      eexists. split; [done|]. apply (bool_bounds data count (Some m) r Ht). eapply boolBounds_ext; [|exact Hb]. intros b. cbn [selected]. split.
      * intros [[]|(j & Hj & Hmb & ->)]. exists j. split; [lia|]. by rewrite Hmb.
      * intros (j & Hj & Hmb%negb_true_iff & ->). right. exists j. split; [lia|done].
Qed.

(** ** The statistics follow the writes *)

Lemma gt_encoded a b : simpleColumn -> inType a -> inType b -> gt t (encoded a) (encoded b) = Ok (b <? a).
Proof using HF.
  unfold inType, encoded. intros Hs Ha Hb. destruct (packedType fast t) as [T|] eqn:HT; [by apply gt_value|].
  destruct Hs as [->|]; [|done]. unfold gt, unsignedInt. by destruct Ha as [-> | ->], Hb as [-> | ->].
Qed.

Lemma typed_range data i : simpleColumn -> inType (typed (value B data i)).
Proof using HF.
  intros Hs. unfold inType, typed. destruct (packedType fast t) as [T|] eqn:HT.
  - apply toT_range. by destruct (packedType_ok fast HF t T HT).
  - destruct Hs as [->|]; [|done]. cbn [valueBits]. rewrite value_bit. destruct (Z.testbit data _); cbn; lia.
Qed.

Lemma get_encoded T a : packedType fast t = Some T -> inType a -> get (bits T) (isSigned T) (encoded a) = a.
Proof using HF.
  intros HT. unfold inType, encoded. rewrite HT. apply get_storageValue. by destruct (packedType_ok fast HF t T HT).
Qed.

(** The constant of a constant chunk. *)
Lemma constant_typed md a : simpleColumn -> min md = encoded a -> inType a -> typed (constantValue t md) = a.
Proof using HF.
  intros Hs Hm Ha. pose proof Ha as Ha'. unfold inType, typed, encoded in *. destruct (packedType fast t) as [T|] eqn:HT.
  - destruct (packedType_ok fast HF t T HT) as (Hint & _ & _ & Hv). rewrite constantValue_int by (by intros ->). rewrite Hv.
    change (wrapU (bits T) (min md)) with (toU (bits T) (min md)). rewrite toT_toU by done.
    fold (get (bits T) (isSigned T) (min md)). rewrite Hm. by apply get_storageValue.
  - destruct Hs as [->|]; [|done]. unfold constantValue. rewrite Hm. by destruct Ha as [-> | ->].
Qed.

Lemma grow_ok md0 m perPage maxIndex :
  chunkOK fast t md0 -> tracks md0 (compMeta m) -> perPageOf md0 = Ok perPage -> (isConstant m = true -> numPages m = 0) ->
  0 <= maxIndex -> maxIndex + 1 <= capacity m perPage ->
  sanityCheckForWrites fast t (mkChunkMeta (pageIdx m) (numPages m) (maxIndex + 1) (compMeta m)) = Ok true.
Proof using HF.
  intros Hok Ht Hper Hc H0 Hcap. destruct (tracks_packing _ _ Hok Ht) as (Hok' & Hper' & _). rewrite Hper in Hper'.
  unfold sanityCheckForWrites, capacity, isConstant in *. cbn [compMeta numPages chunkValues].
  destruct (decide (compression (compMeta m) = CONSTANT)) as [E|E].
  - rewrite E in *. by rewrite (Hc eq_refl).
  - rewrite bool_decide_eq_false_2 in Hcap by done. pose proof (perPage_bounds _ _ Hok' E Hper') as Hb. rewrite Hper'. cbn [obind].
    assert (Hr : (if perPage =? UINT64_MAX then numPages m =? 0 else (maxIndex + 1 + perPage - 1) / perPage <=? numPages m) = true).
    { rewrite (proj2 (Z.eqb_neq perPage UINT64_MAX)) by (unfold UINT64_MAX; lia). apply Z.leb_le.
      apply Z.lt_succ_r, Z.div_lt_upper_bound; lia. }
    rewrite Hr. unfold chunkOK in Hok'. by destruct (compression (compMeta m)).
Qed.

Lemma update_tracks md0 m perPage maxIndex data count mask r :
  simpleColumn -> chunkOK fast t md0 -> tracks md0 (compMeta m) -> perPageOf md0 = Ok perPage ->
  (isConstant m = true -> numPages m = 0) -> 0 <= maxIndex -> maxIndex + 1 <= capacity m perPage ->
  (forall i, (i < count)%nat -> selected mask i = true -> acceptsOf fast t md0 (value B data i)) ->
  (forall T v, compression md0 = INTEGER_BITPACKING -> packedType fast t = Some T -> inBatch data count mask v -> notSmallest (bits T) (isSigned T) v) ->
  bounds (inBatch data count mask) r ->
  exists m', updateStatistics fast t m maxIndex r = Ok m' /\ tracks md0 (compMeta m') /\ pageIdx m' = pageIdx m /\ numPages m' = numPages m /\
    chunkValues m' = Z.max (chunkValues m) (maxIndex + 1).
Proof using HF.
  intros Hs Hok Ht Hper Hc0 H0 Hcap Hacc Hns Hb. unfold updateStatistics. cbv zeta.
  set (m1 := mkChunkMeta (pageIdx m) (numPages m) (Z.max (chunkValues m) (maxIndex + 1)) (compMeta m)).
  assert (E1 : (if chunkValues m <=? maxIndex
                then let* ok := sanityCheckForWrites fast t (mkChunkMeta (pageIdx m) (numPages m) (maxIndex + 1) (compMeta m)) in
                     if ok : bool then Ok (mkChunkMeta (pageIdx m) (numPages m) (maxIndex + 1) (compMeta m)) else Err InternalException
                else Ok m) = Ok m1).
  { destruct (Z.leb_spec (chunkValues m) maxIndex).
    - rewrite (grow_ok md0 m perPage) by done. cbn [obind]. unfold m1. do 2 f_equal. lia.
    - unfold m1. destruct m. cbn in *. do 2 f_equal. lia. }
  rewrite E1. cbn [obind]. destruct r as [[mn mx]|]; [|by exists m1].
  cbn [bounds] in Hb. destruct Hb as (lo & hi & -> & -> & Hlo & Hhi & Hall).
  assert (Hin : forall v, inBatch data count mask v -> inType v) by (intros v (i & _ & _ & ->); by apply typed_range).
  pose proof (Hin _ Hlo) as Tlo. pose proof (Hin _ Hhi) as Thi. destruct Ht as (Hcomp & ((a & Ha & Ta) & (b & Hbm & Tb) & Hcst) & Htr).
  change (compMeta m1) with (compMeta m). rewrite Ha, Hbm.
  rewrite !gt_encoded by done. cbn [obind].
  assert (Hsame : forall v, inBatch data count mask v -> match compression md0, packedType fast t with
            | CONSTANT, _ => v = a /\ v = b
            | INTEGER_BITPACKING, Some T => samePacking (bits T) (isSigned T) md0 v
            | _, _ => True end).
  { intros v (i & Hi & Hsel & ->). specialize (Hacc i Hi Hsel). unfold acceptsOf in Hacc. destruct (compression md0) eqn:E; try done.
    - destruct (packedType fast t) as [T|] eqn:HT; [|done]. unfold typed. rewrite HT. apply Hacc.
    - rewrite Hacc. subst md0. rewrite (constant_typed (compMeta m) a) by done. split; [done|].
      specialize (Hcst E). rewrite Ha, Hbm in Hcst. destruct (packedType fast t) as [T|] eqn:HT.
      + rewrite <- (get_encoded T a), <- (get_encoded T b) by done. by rewrite Hcst.
      + unfold encoded in Hcst. by rewrite HT in Hcst. }
  assert (Hfin : forall a' b', (a' = a \/ a' = lo /\ lo < a) -> (b' = b \/ b' = hi /\ b < hi) ->
            tracks md0 (mkMeta (encoded a') (encoded b') (compression (compMeta m)))).
  { intros a' b' Ha' Hb'. split; [done|]. split.
    - split; [exists a'; split; [done|]; by destruct Ha' as [->|[-> _]]|]. split; [exists b'; split; [done|]; by destruct Hb' as [->|[-> _]]|]. cbn [compression min max].
      intros Ec. rewrite Hcomp in Ec. pose proof (Hsame _ Hlo) as S1. pose proof (Hsame _ Hhi) as S2. rewrite Ec in S1, S2.
      specialize (Hcst (eq_trans Hcomp Ec)). rewrite Ha, Hbm in Hcst.
      destruct Ha' as [->|[-> ?]]; [|lia]. destruct Hb' as [->|[-> ?]]; [|lia]. done.
    - pose proof (Hsame _ Hlo) as S1. pose proof (Hsame _ Hhi) as S2. destruct (compression md0) eqn:Ec; try done.
      + destruct (packedType fast t) as [T|] eqn:HT; [|done]. cbn [min max]. rewrite !(get_encoded T) by (done || (by destruct Ha' as [->|[-> _]]) || (by destruct Hb' as [->|[-> _]])).
        rewrite Ha, Hbm, !(get_encoded T) in Htr by done. destruct Htr as (T1 & T2 & T3 & T4 & T5).
        pose proof (Hns T lo eq_refl eq_refl Hlo) as Hn. destruct Ha' as [->|[-> ?]], Hb' as [->|[-> ?]]; split_and!; try done; lia.
      + destruct Ha' as [->|[-> ?]]; [|lia]. destruct Hb' as [->|[-> ?]]; [|lia]. subst md0. rewrite <- Ha, <- Hbm. by destruct (compMeta m). }
  destruct (Z.ltb_spec b hi).
  - eexists. split; [done|]. split; [|done]. unfold setCompMeta, setMax. cbn [compMeta]. change (compMeta m1) with (compMeta m). rewrite Ha. apply Hfin; auto.
  - destruct (Z.ltb_spec lo a).
    + eexists. split; [done|]. split; [|done]. unfold setCompMeta, setMin. cbn [compMeta]. change (compMeta m1) with (compMeta m). rewrite Hbm. apply Hfin; auto.
    + exists m1. split; [done|]. split; [|done]. change (compMeta m1) with (compMeta m).
      replace (compMeta m) with (mkMeta (encoded a) (encoded b) (compression (compMeta m))) by (rewrite <- Ha, <- Hbm; by destruct (compMeta m)). apply Hfin; auto.
Qed.

(** ** Checkpoints in place *)

(** The last value that is written to a row, if it is not null. *)
Fixpoint newValue (states : list ChunkCheckpointState) (r : nat) : option (option Z) :=
  match states with
  | [] => None
  | c :: states =>
      match newValue states r with
      | Some v => Some v
      | None =>
          if decide (startRow c <= r < startRow c + numRows (chunkData c))%nat
          then Some (if selected (nullMask (chunkData c)) (r - startRow c) then Some (value B (buffer (chunkData c)) (r - startRow c)) else None)
          else None
      end
  end.

Record batchOK (md : CompressionMetadata) (c : ChunkCheckpointState) : Prop := {
  bo_rows : (0 < numRows (chunkData c))%nat;
  bo_mask : maskOK (nullMask (chunkData c)) 0 (numRows (chunkData c));
  bo_plain : compression md = INTEGER_BITPACKING -> plainValues fast t (buffer (chunkData c)) (numRows (chunkData c)) (nullMask (chunkData c))
}.

Definition accepted (md : CompressionMetadata) (c : ChunkCheckpointState) : Prop :=
  forall i, (i < numRows (chunkData c))%nat -> selected (nullMask (chunkData c)) i = true -> acceptsOf fast t md (value B (buffer (chunkData c)) i).

Lemma allCanUpdate_accepts md states :
  chunkOK fast t md -> Forall (batchOK md) states -> allCanUpdate fast t md states = Ok true -> Forall (accepted md) states.
Proof using HF.
  intros Hok Hst. induction Hst as [|c states [H1 H2 H3] _ IH]; [done|]. cbn [allCanUpdate]. rewrite (proj2 (Nat.eqb_neq _ 0)) by lia.
  destruct (canUpdateInPlace _ _ _ _ _ _ _) as [[]|] eqn:E; cbn [obind]; try done. intros Hr. constructor; [|by apply IH].
  intros i Hi Hsel. by eapply canUpdate_accepts.
Qed.

Lemma maxRow_spec states r : 
  (r <= foldl (fun r c => Nat.max r (startRow c + numRows (chunkData c))) r states)%nat /\
  Forall (fun c => (startRow c + numRows (chunkData c) <= foldl (fun r c => Nat.max r (startRow c + numRows (chunkData c))) r states)%nat) states.
Proof.
  revert r. induction states as [|c states IH]; intros r; cbn [foldl]; [done|].
  destruct (IH (Nat.max r (startRow c + numRows (chunkData c)))) as [H1 H2]. split; [lia|]. constructor; [lia|done].
Qed.

Definition endRow (c : ChunkCheckpointState) : Z := Z.of_nat (startRow c + numRows (chunkData c)).

Lemma columnWrite_ok m0 perPage c f m :
  simpleColumn -> chunkLayout f m0 perPage -> tracks (compMeta m0) (compMeta m) -> numPages m = numPages m0 ->
  batchOK (compMeta m0) c -> accepted (compMeta m0) c -> endRow c <= capacity m0 perPage ->
  exists f' m', columnWrite fast t (mkChunkState m0 perPage) (startRow c) (chunkData c) 0 (numRows (chunkData c)) (f, m) = Ok (f', m') /\
    tracks (compMeta m0) (compMeta m') /\ pageIdx m' = pageIdx m /\ numPages m' = numPages m /\ filePages f' = filePages f /\
    chunkValues m' = Z.max (chunkValues m) (endRow c) /\
    (forall r, match newValue [c] r with
               | Some (Some v) => chunkCell m0 f' r = v
               | Some None => True
               | None => chunkCell m0 f' r = chunkCell m0 f r
               end) /\
    (forall q, q < pageIdx m0 \/ pageIdx m0 + numPages m0 <= q -> pageAt f' q = pageAt f q).
Proof using HF.
  intros Hs Hlay Htr Hnp [H0 Hmask Hpl] Hacc Hend. unfold columnWrite. set (data := chunkData c) in *. set (k := numRows data) in *.
  destruct (chunk_write f m0 perPage (startRow c) (buffer data) 0 k (nullMask data)) as (f' & E & Hf & H1 & H2 & H3); try done.
  cbn [fst snd]. rewrite E. cbn [obind]. rewrite bool_decide_eq_false_2.
  2: { unfold simpleColumn in Hs. intros [Et|Et]; rewrite Et in Hs; destruct Hs as [Hx|Hx]; [discriminate Hx|by apply Hx|discriminate Hx|by apply Hx]. }
  destruct (minMax_batch (buffer data) k (nullMask data) false Hs H0 Hmask) as (r & -> & Hb). cbn [obind].
  assert (Hok : chunkOK fast t (compMeta m0)) by apply Hlay.
  assert (Hc : isConstant m = isConstant m0) by (unfold isConstant; by rewrite (proj1 Htr)).
  destruct (update_tracks (compMeta m0) m perPage (Z.of_nat (startRow c + k) - 1) (buffer data) k (nullMask data) r) as (m' & -> & T1 & T2 & T3 & T4); try done.
  { apply Hlay. } { rewrite Hc, Hnp. intros Ec. destruct Hlay as [_ _ Hp _]. rewrite Ec in Hp. apply Hp. } { lia. }
  { unfold capacity in *. rewrite Hc, Hnp. unfold endRow in Hend. fold data k in Hend. lia. }
  { intros T v Hi HT (i & Hlt & Hsel & ->). unfold typed. rewrite HT. pose proof (Hpl Hi T i HT Hlt Hsel) as Hp.
    destruct (packedType_ok fast HF t T HT) as (_ & _ & _ & ->). exact Hp. }
  cbn [obind]. exists f', m'. split; [done|]. split_and!; try done.
  - rewrite T4. unfold endRow. fold data k. lia.
  - intros r'. cbn [newValue]. fold data k. case_decide as Hr.
    + destruct (selected (nullMask data) (r' - startRow c)) eqn:Es; [|done].
      replace r' with (startRow c + (r' - startRow c))%nat at 1 by lia. apply (H1 (r' - startRow c)%nat); [lia|done].
    + apply H2. lia.
Qed.

Lemma layout_file f f' m perPage : filePages f' = filePages f -> chunkLayout f m perPage -> chunkLayout f' m perPage.
Proof. intros Hf [H1 H2 H3 H4]. split; try done. by rewrite Hf. Qed.

Lemma inPlace_ok m0 perPage states f m :
  simpleColumn -> chunkLayout f m0 perPage -> tracks (compMeta m0) (compMeta m) -> pageIdx m = pageIdx m0 -> numPages m = numPages m0 ->
  Forall (batchOK (compMeta m0)) states -> Forall (accepted (compMeta m0)) states -> Forall (fun c => endRow c <= capacity m0 perPage) states ->
  exists f' m', checkpointColumnChunkInPlace fast t (mkChunkState m0 perPage) states (f, m) = Ok (f', m') /\
    tracks (compMeta m0) (compMeta m') /\ pageIdx m' = pageIdx m0 /\ numPages m' = numPages m0 /\ filePages f' = filePages f /\
    (chunkValues m <= chunkValues m' <= Z.max (chunkValues m) (capacity m0 perPage) /\ Forall (fun c => endRow c <= chunkValues m') states) /\
    (forall r, match newValue states r with
               | Some (Some v) => chunkCell m0 f' r = v
               | Some None => True
               | None => chunkCell m0 f' r = chunkCell m0 f r
               end) /\
    (forall q, q < pageIdx m0 \/ pageIdx m0 + numPages m0 <= q -> pageAt f' q = pageAt f q).
Proof using HF.
  intros Hs Hlay Htr Hp Hn Hok. revert f m Hlay Htr Hp Hn. induction Hok as [|c states Hc _ IH]; intros f m Hlay Htr Hp Hn Hacc Hcap.
  - exists f, m. split_and!; try done. lia.
  - inversion_clear Hacc as [|? ? Ha Hacc']. inversion_clear Hcap as [|? ? Hca Hcap']. cbn [checkpointColumnChunkInPlace].
    rewrite (proj2 (Nat.eqb_neq _ 0)) by (destruct Hc; lia).
    destruct (columnWrite_ok m0 perPage c f m) as (f1 & m1 & -> & T1 & T2 & T3 & T4 & T5 & T6 & T7); try done. cbn [obind].
    destruct (IH f1 m1) as (f' & m' & -> & U1 & U2 & U3 & U4 & (U5 & U6) & U7 & U8); try done; try congruence; [by eapply layout_file|].
    exists f', m'. split; [done|]. split_and!; try done; try congruence; try lia.
    + constructor; [lia|done].
    + intros r. specialize (U7 r). specialize (T6 r). cbn [newValue] in *. destruct (newValue states r) as [[v|]|]; [done|done|].
      destruct (decide _); [|by rewrite U7]. destruct (selected _ _); [by rewrite U7|done].
    + intros q Hq. by rewrite U8, T7.
Qed.

Lemma canCheckpoint_accepts f m perPage states :
  chunkLayout f m perPage -> Forall (batchOK (compMeta m)) states -> (isConstant m = true -> Z.of_nat (maxRowIdxToWrite states) <= 2 ^ 32 - 2) ->
  canCheckpointInPlace fast t (mkChunkState m perPage) m states = Ok true ->
  Forall (accepted (compMeta m)) states /\ Forall (fun c => endRow c <= capacity m perPage) states.
Proof using HF.
  intros [Hok Hper Hpg Hval] Hst Hrow. unfold canCheckpointInPlace, isMaxOffsetOutOfPagesCapacity.
  destruct (maxRow_spec states 0) as [_ Hmax]. fold (maxRowIdxToWrite states) in Hmax.
  assert (Hacc : canAlwaysUpdateInPlace (compMeta m) = true -> Forall (accepted (compMeta m)) states).
  { intros Ha. apply Forall_forall. intros c _ i Hi Hsel. unfold canAlwaysUpdateInPlace, acceptsOf in *. by destruct (compression (compMeta m)). }
  unfold capacity, isConstant in *. cbn [metadata]. case_decide as Ec.
  - rewrite bool_decide_eq_true_2 in * by done. cbn [obind]. intros Hc. split.
    + destruct (canAlwaysUpdateInPlace (compMeta m)) eqn:Ea; [by apply Hacc|]. by apply allCanUpdate_accepts.
    + eapply Forall_impl; [exact Hmax|]. cbn. unfold endRow. specialize (Hrow eq_refl). lia.
  - rewrite bool_decide_eq_false_2 in * by done. rewrite Hper. cbn [obind]. pose proof (perPage_bounds _ _ Hok Ec Hper) as Hb.
    destruct Hpg as (P1 & P2 & P3 & P4). rewrite wrapU_id by (unfold inU, INVALID_PAGE in *; nia).
    destruct (Z.leb_spec (perPage * numPages m) (Z.of_nat (maxRowIdxToWrite states) + 1)); [done|]. intros Hc. split.
    + destruct (canAlwaysUpdateInPlace (compMeta m)) eqn:Ea; [by apply Hacc|]. by apply allCanUpdate_accepts.
    + eapply Forall_impl; [exact Hmax|]. cbn. unfold endRow. lia.
Qed.

(** C7. A checkpoint in place of a column of booleans, integers or internal ids is right, whether the
    chunk is constant, uncompressed or bit-packed (floating-point columns are not covered).  If a
    bit-packed chunk has signed integers, neither its minimum nor a changed value that is not null is
    the smallest value of the type, whose packing is wrong in the code; the statistics of the chunk
    are values of its type and rows have 32-bit numbers.  If the checks of [canCheckpointInPlace] pass, the writes of all changed ranges of rows succeed, and afterwards
    each row of the chunk, read with the statistics that the writes have left, gives the last
    value that was written to it if that is not null, and what it gave before if no range
    contains it; no page of another chunk changes, and the chunk can be read and written again. *)
Theorem checkpoint_in_place f m perPage states :
  simpleColumn -> chunkLayout f m perPage -> statsOK (compMeta m) -> Forall (batchOK (compMeta m)) states ->
  (isConstant m = true -> Z.of_nat (maxRowIdxToWrite states) <= 2 ^ 32 - 2) ->
  canCheckpointInPlace fast t (mkChunkState m perPage) m states = Ok true ->
  exists f' m', checkpointColumnChunkInPlace fast t (mkChunkState m perPage) states (f, m) = Ok (f', m') /\
    chunkLayout f' m' perPage /\ statsOK (compMeta m') /\ Forall (fun c => endRow c <= chunkValues m') states /\
    (forall r, match newValue states r with
               | Some (Some v) => chunkCell m' f' r = v
               | Some None => True
               | None => chunkCell m' f' r = chunkCell m f r
               end) /\
    (forall q, q < pageIdx m \/ pageIdx m + numPages m <= q -> pageAt f' q = pageAt f q).
Proof using HF.
  intros Hs Hlay Hst Hb Hrow Hc. destruct (canCheckpoint_accepts f m perPage states Hlay Hb Hrow Hc) as [Hacc Hcap].
  assert (Hok : chunkOK fast t (compMeta m)) by apply Hlay.
  destruct (inPlace_ok m perPage states f m) as (f' & m' & E & T1 & T2 & T3 & T4 & (T5 & T6) & T7 & T8); try done; [by apply tracks_refl|].
  destruct (tracks_packing _ _ Hok T1) as (Hok' & Hper' & _).
  assert (Hic : isConstant m' = isConstant m) by (unfold isConstant; by rewrite (proj1 T1)).
  assert (Hca : capacity m' perPage = capacity m perPage) by (unfold capacity; by rewrite Hic, T3).
  destruct Hlay as [L1 L2 L3 L4]. exists f', m'. split; [done|]. split_and!; try done.
  - split; [done|congruence| |rewrite Hca; lia]. rewrite Hic, T2, T3, T4. done.
  - apply T1.
  - intros r. specialize (T7 r). rewrite (tracks_cell (compMeta m) m' m) by done. done.
Qed.
End Chunks.
