(* ===== verification/ColumnFlush.v ===== *)
(** * Flushing a chunk to new pages and scanning it

    A chunk that is flushed, with the compression that its values allow, can be scanned from its
    pages: every value that is not null comes back. *)

From stdpp Require Import base list sorting gmap numbers strings.
From S2P Require Import Prelude NullMask Bitpacking IntegerBitpacking Compression PageCodec Column ColumnProof ColumnCheckpoint.
Local Open Scope Z_scope.

Section Flush.
Context `{FC : FloatCompression} (fast : forall n, ChunkPacker n) (HF : forall n, @ChunkPackerOK n (fast n)) (t : PhysicalTypeID).

Local Abbreviation B := (valueBits t).
Local Abbreviation perPageOf md := (numValues fast md (Z.of_nat PAGE_SIZE) t).

(** ** Scans *)


(** ** Compressing one page *)

(** Clearing the end of a page does not change fields before it. *)
Lemma clear_field page size off w :
  0 <= off -> 0 <= w -> 0 <= size -> off + w <= 8 * size -> size <= Z.of_nat PAGE_SIZE ->
  getField (if size <? Z.of_nat PAGE_SIZE then setField page (8 * size) (8 * (Z.of_nat PAGE_SIZE - size)) 0 else page) off w = getField page off w.
Proof. intros. destruct (Z.ltb_spec size (Z.of_nat PAGE_SIZE)); [|done]. apply getField_other; lia. Qed.

Definition cleared (size page : Z) : Z :=
  if size <? Z.of_nat PAGE_SIZE then setField page (8 * size) (8 * (Z.of_nat PAGE_SIZE - size)) 0 else page.

(** The compression that is chosen for a chunk. *)
Record chosen (alg : CompressionType) (md : CompressionMetadata) (perPage : Z) : Prop := {
  ch_ok : chunkOK fast t md;
  ch_per : perPageOf md = Ok perPage;
  ch_alg : (alg = INTEGER_BITPACKING /\ (compression md = INTEGER_BITPACKING \/ compression md = UNCOMPRESSED)) \/
           (alg = UNCOMPRESSED /\ compression md = UNCOMPRESSED);
  ch_type : packedType fast t <> None
}.

(** The values of a chunk that are not null are between its statistics. *)
Definition within (md : CompressionMetadata) (x : Z) : Prop :=
  forall T, packedType fast t = Some T -> compression md = INTEGER_BITPACKING ->
    get (bits T) (isSigned T) (min md) <= toT (bits T) (isSigned T) x <= get (bits T) (isSigned T) (max md).

Lemma compress_ok alg md perPage data consumed rem page :
  chosen alg md perPage -> (0 < rem)%nat ->
  exists size used page', compressNextPageOf fast t alg (getFields data (B * Z.of_nat consumed) B rem) (Z.of_nat rem) page md = Ok (size, used, page') /\
    used = Z.to_nat (Z.min (Z.of_nat rem) perPage) /\
    forall i, (i < used)%nat -> within md (value B data (consumed + i)) -> cellOf fast t md (cleared size page') i = value B data (consumed + i).
Proof using HF.
  intros [Hok Hper Halg Hty] Hrem. destruct (packedType fast t) as [T|] eqn:HT; [|done].
  destruct (packedType_ok fast HF t T HT) as (Hint & HP & Hs & Hv). pose proof (intType_bounds _ _ Hint) as Hn.
  assert (H8 : 8 * (bits T / 8) = bits T) by (destruct Hint as [[?|[?|[?|[?|?]]]] _]; Z.div_mod_to_equations; lia).
  assert (Hlen : length (getFields data (B * Z.of_nat consumed) B rem) = rem) by apply length_getFields.
  assert (Hsrc : forall i, (i < rem)%nat -> getFields data (B * Z.of_nat consumed) B rem !! i = Some (value B data (consumed + i))) by (intros; by apply getFields_values).
  set (src := getFields data (B * Z.of_nat consumed) B rem) in *. rewrite PAGE_SIZE_value in *.
  assert (Hun : compression md = UNCOMPRESSED ->
    perPage = 4096 / (bits T / 8) /\
    forall size used page', size = Z.min (Z.of_nat rem) perPage * (bits T / 8) -> used = Z.to_nat (Z.min (Z.of_nat rem) perPage) ->
      page' = setFields page 0 (bits T) (take used src) ->
      forall i, (i < used)%nat -> cellOf fast t md (cleared size page') i = value B data (consumed + i)).
  { intros Hc. unfold numValues, Uncompressed_numValues in Hper. rewrite Hc, Hs in Hper. cbn [obind] in Hper.
    rewrite (proj2 (Z.eqb_neq (bits T / 8) 0)) in Hper by lia. injection Hper as <-. split; [done|]. intros size used page' -> -> -> i Hi.
    pose proof (Z.mul_div_le 4096 (bits T / 8) ltac:(lia)) as Hle. unfold cellOf, cleared, value. rewrite Hc, Hv.
    rewrite clear_field by (rewrite ?PAGE_SIZE_value; nia).
    replace (bits T * Z.of_nat i) with (0 + bits T * Z.of_nat i) by lia. rewrite (getField_setFields _ _ _ _ i (value (bits T) data (consumed + i))); [|lia|lia|].
    - unfold value. apply wrapU_id, getField_range. lia.
    - rewrite lookup_take_lt by done. rewrite Hsrc by lia. by rewrite Hv. }
  destruct Halg as [[-> Hc]|[-> Hc]]; unfold compressNextPageOf; rewrite ?HT, ?PAGE_SIZE_value.
  - destruct Hc as [Hc|Hc].
    + unfold chunkOK in Hok. rewrite Hc in Hok. destruct Hok as (T' & info & HT' & Hm & Hi & Hu & Hz). rewrite HT in HT'. injection HT' as <-.
      unfold numValues in Hper. rewrite Hc, HT, Hi in Hper. cbn [obind] in Hper. injection Hper as <-.
      destruct (@compress_fields (bits T) (isSigned T) Hint (packer T) HP src page 4096 md info _ Hi Hc (proj1 Hu) Hz ltac:(lia) eq_refl) as (used & E & Hused).
      rewrite Hlen in E. set (k := Z.to_nat _) in E. eexists _, _, _. split; [exact E|]. split; [done|]. intros i Hik Hwit.
      pose proof (widthOK_range _ _ (proj1 Hu)) as Hw.
      assert (Hsz : Z.of_nat k * bitWidth info <= 8 * used /\ 0 <= used).
      { unfold compressNextPage in E. rewrite Hc, Hi in E. cbn [obind] in E. rewrite (proj2 (Z.eqb_neq (bitWidth info) 0)) in E by done.
        set (cnt := Z.min (Z.of_nat rem) (IntegerBitpacking.numValues 4096 info)) in *.
        assert (Hcnt : 0 <= cnt). { unfold cnt, IntegerBitpacking.numValues. rewrite (proj2 (Z.eqb_neq (bitWidth info) 0)) by done. apply Z.min_glb; [lia|]. apply Z.div_pos; lia. }
        destruct ((4096 <? 32) || _); [done|]. injection E as <- _. assert (Z.of_nat k = cnt) as -> by (unfold k; lia).
        destruct (Z.eqb_spec (cnt * bitWidth info mod 8) 0); Z.div_mod_to_equations; nia. }
      unfold cellOf. rewrite Hc, HT, Hi. unfold packedCell, cleared.
      rewrite clear_field by (rewrite ?PAGE_SIZE_value; nia).
      replace (Z.of_nat i * bitWidth info) with (0 + bitWidth info * Z.of_nat i) by lia.
      rewrite (getField_setFields _ _ _ _ i (if offset info =? 0 then value B data (consumed + i) else toU (bits T) (toT (bits T) (isSigned T) (value B data (consumed + i)) - offset info))); [|lia|lia|].
      2: { rewrite list_lookup_fmap, lookup_take_lt by done. rewrite Hsrc by (unfold k in *; lia). done. }
      rewrite Hv in *. set (x := value (bits T) data (consumed + i)) in *.
      assert (Hx : toU (bits T) (toT (bits T) (isSigned T) x) = x) by (rewrite toU_toT by done; apply wrapU_id, field_value_range; lia).
      replace (if offset info =? 0 then x else toU (bits T) (toT (bits T) (isSigned T) x - offset info))
        with (toU (bits T) (toT (bits T) (isSigned T) x - offset info)).
      2: { destruct (Z.eqb_spec (offset info) 0) as [->|]; [rewrite Z.sub_0_r; done|done]. }
      destruct (getPackingInfo_ok _ _ Hint md Hm) as (info' & Hi' & Hiok & Hfit). rewrite Hi in Hi'. injection Hi' as <-.
      unfold decoded. rewrite decode_fits; [done|done|done|apply Hu|]. apply Hfit. by apply (Hwit T HT Hc).
    + destruct (Hun Hc) as [-> Hcell]. unfold compressNextPage. rewrite Hc. eexists _, _, _. split; [done|]. split; [done|].
      intros i Hi _. by eapply Hcell.
  - destruct (Hun Hc) as [-> Hcell]. rewrite Hs. cbn [obind]. unfold Uncompressed_compressNextPage.
    rewrite (proj2 (Z.eqb_neq (bits T / 8) 0)) by lia. rewrite H8. eexists _, _, _. split; [done|]. split; [done|].
    intros i Hi _. by eapply Hcell.
Qed.

(** ** The pages of a chunk, one after the other *)

Lemma flushLoop_ok alg data perPage start m mask total fuel consumed page k f :
  chosen alg (compMeta m) perPage -> compression (compMeta m) <> CONSTANT ->
  (forall i, (i < total)%nat -> selected mask i = true -> within (compMeta m) (value B data i)) ->
  (total - consumed <= fuel)%nat -> Z.of_nat consumed = Z.min (k * perPage) (Z.of_nat total) -> 0 <= k ->
  Z.of_nat total <= perPage * numPages m -> start + numPages m <= filePages f ->
  exists k' f', flushLoop fast t fuel alg data consumed (Z.of_nat total - Z.of_nat consumed) page perPage start k m f = Ok (k', f') /\
    filePages f' = filePages f /\ k <= k' <= Z.max k (numPages m) /\ Z.of_nat total <= k' * perPage /\
    (forall i, (consumed <= i < total)%nat -> selected mask i = true ->
       cellOf fast t (compMeta m) (pageAt f' (start + Z.of_nat (i / Z.to_nat perPage))) (i mod Z.to_nat perPage) = value B data i) /\
    (forall q, q < start + k \/ start + k' <= q -> pageAt f' q = pageAt f q).
Proof using HF.
  intros Hch Hnc Hwit. assert (Hb : 0 < perPage < 2 ^ 32) by (destruct Hch as [H1 H2 _ _]; by eapply perPage_bounds).
  revert consumed page k f. induction fuel as [|fuel IH]; intros consumed page k f Hfuel Hcon Hk Hcap Hfile; cbn [flushLoop].
  - rewrite (proj2 (Z.ltb_ge 0 _)) by lia. exists k, f. split_and!; try done; try lia; intros; lia.
  - destruct (Z.ltb_spec 0 (Z.of_nat total - Z.of_nat consumed)) as [Hlt|Hge].
    2: { exists k, f. split_and!; try done; try lia; intros; lia. }
    assert (Hconk : Z.of_nat consumed = k * perPage) by lia.
    replace (Z.to_nat (Z.of_nat total - Z.of_nat consumed)) with (total - consumed)%nat by lia.
    replace (Z.of_nat total - Z.of_nat consumed) with (Z.of_nat (total - consumed)) by lia.
    destruct (compress_ok alg (compMeta m) perPage data consumed (total - consumed) page Hch ltac:(lia)) as (size & used & page' & -> & Hused & Hcell).
    cbn [obind]. fold (cleared size page').
    assert (Hkn : k < numPages m) by nia.
    rewrite (proj2 (Z.ltb_lt k (numPages m))), (proj2 (Z.ltb_lt (start + k) (filePages f))) by lia. cbn [andb negb].
    assert (Hrem : (if Z.of_nat (total - consumed) <? perPage then 0 else Z.of_nat (total - consumed) - perPage) = Z.of_nat total - Z.of_nat (consumed + used)).
    { destruct (Z.ltb_spec (Z.of_nat (total - consumed)) perPage); lia. }
    rewrite Hrem. set (f1 := setPage (start + k) (cleared size page') f).
    destruct (IH (consumed + used)%nat (cleared size page') (k + 1) f1) as (k' & f' & -> & H1 & H2 & H3 & H4 & H5); try lia; [done|].
    exists k', f'. split; [done|]. split; [done|]. split; [lia|]. split; [done|]. split.
    + intros i Hi Hsel. destruct (decide (consumed + used <= i)%nat); [apply H4; [lia|done]|].
      set (K := Z.to_nat perPage). assert (EK : perPage = Z.of_nat K) by lia.
      assert (Hcn : consumed = (K * Z.to_nat k)%nat) by nia.
      destruct (row_div K (Z.to_nat k) (i - consumed) ltac:(lia)) as [D M].
      replace i with (K * Z.to_nat k + (i - consumed))%nat at 1 2 by lia. rewrite D, M.
      rewrite Z2Nat.id by done. rewrite H5 by lia. unfold f1. rewrite pageAt_setPage, decide_True by done.
      rewrite Hcell; [f_equal; lia|lia|]. replace (consumed + (i - consumed))%nat with i by lia. apply Hwit; [lia|done].
    + intros q Hq. rewrite H5 by lia. unfold f1. rewrite pageAt_setPage, decide_False by lia. done.
Qed.

(** The bits of a buffer, page after page. *)
Lemma writePages_ok count data size start k f :
  0 <= k -> 0 <= size -> k + Z.of_nat count = getNumPagesForBytes size ->
  let f' := writePagesToFile count data size start k f in
  filePages f' = filePages f /\
  (forall i, 8 * (k * 4096) <= i < 8 * size -> Z.testbit (pageAt f' (start + i / 32768)) (i mod 32768) = Z.testbit data i) /\
  (forall q, q < start + k \/ start + k + Z.of_nat count <= q -> pageAt f' q = pageAt f q).
Proof.
  unfold getNumPagesForBytes. rewrite PAGE_SIZE_value. revert k f. induction count as [|count IH]; intros k f Hk Hs Hn; cbn [writePagesToFile].
  - split_and!; try done. intros i Hi. exfalso. assert (8 * size <= 8 * (k * 4096)) by (Z.div_mod_to_equations; lia). lia.
  - set (bytes := Z.min (Z.of_nat PAGE_SIZE) (size - k * Z.of_nat PAGE_SIZE)).
    set (x := setField (pageAt f (start + k)) 0 (8 * bytes) (getField data (8 * (k * Z.of_nat PAGE_SIZE)) (8 * bytes))).
    assert (Hb : bytes = Z.min 4096 (size - k * 4096)) by (unfold bytes; by rewrite PAGE_SIZE_value).
    assert (Hpos : 0 < bytes) by (rewrite Hb; Z.div_mod_to_equations; lia).
    destruct (IH (k + 1) (setPage (start + k) x f)) as (H1 & H2 & H3); [lia|lia|lia|]. split_and!; [done| |].
    + intros i Hi. destruct (Z.lt_ge_cases i (8 * ((k + 1) * 4096))) as [Hlo|Hhi]; [|apply H2; lia].
      assert (Hq : i / 32768 = k) by (symmetry; apply (Z.div_unique i 32768 k (i - 32768 * k)); lia).
      assert (Hr : i mod 32768 = i - 32768 * k) by (symmetry; apply (Z.mod_unique i 32768 k); lia).
      rewrite Hq, Hr, H3 by lia. rewrite pageAt_setPage, decide_True by done. unfold x. rewrite PAGE_SIZE_value.
      rewrite testbit_setField by lia. rewrite (proj2 (Z.leb_le 0 _)), (proj2 (Z.ltb_lt _ _)) by lia. cbn [andb].
      rewrite testbit_getField by lia. rewrite (proj2 (Z.ltb_lt _ (8 * bytes))), andb_true_r by lia. f_equal. lia.
    + intros q Hq. rewrite H3 by lia. rewrite pageAt_setPage, decide_False by lia. done.
Qed.

(** ** The compression that is chosen *)

Lemma encoded_inj a b : inType fast t a -> inType fast t b -> encoded fast t a = encoded fast t b -> a = b.
Proof using HF.
  intros Ha Hb E. destruct (packedType fast t) as [T|] eqn:HT.
  - rewrite <- (get_encoded fast HF t T a), <- (get_encoded fast HF t T b) by done. by rewrite E.
  - unfold encoded in E. by rewrite HT in E.
Qed.

Lemma inType_0 : inType fast t 0.
Proof using HF.
  unfold inType. destruct (packedType fast t) as [T|] eqn:HT; [|by left]. apply inT_0. by destruct (packedType_ok fast HF t T HT).
Qed.

Lemma encoded_0 : encoded fast t 0 = 0.
Proof. unfold encoded, storageValue. destruct (packedType fast t) as [T|]; [|done]. by destruct (bits T =? 128). Qed.

(** The statistics of a chunk bound the values that are not null; they are zero if there are none. *)
Record statistics (data : ChunkData) (mn mx : StorageValue) (lo hi : Z) : Prop := {
  st_min : mn = encoded fast t lo;
  st_max : mx = encoded fast t hi;
  st_lo : inType fast t lo;
  st_hi : inType fast t hi;
  st_le : lo <= hi;
  st_in : forall v, inBatch fast t (buffer data) (numRows data) (nullMask data) v -> lo <= v <= hi;
  st_some : lo = hi \/ inBatch fast t (buffer data) (numRows data) (nullMask data) lo /\ (0 < numRows data)%nat
}.

Lemma statistics_ok data cap :
  simpleColumn fast t -> maskOK (nullMask data) 0 (numRows data) -> Z.of_nat (numRows data) <= cap ->
  exists mm, (if 0 <? cap then getMinMaxStorageValue fast (buffer data) 0 (numRows data) t (nullMask data) true else Ok None) = Ok mm /\
    exists lo hi, let '(mn, mx) := match mm with Some p => p | None => (0, 0) end in statistics data mn mx lo hi.
Proof using HF.
  intros Hs Hm Hcap. set (P := inBatch fast t (buffer data) (numRows data) (nullMask data)).
  assert (Hb : exists mm, (if 0 <? cap then getMinMaxStorageValue fast (buffer data) 0 (numRows data) t (nullMask data) true else Ok None) = Ok mm /\ bounds fast t P mm).
  { destruct (decide (0 < numRows data)%nat) as [H0|H0].
    - rewrite (proj2 (Z.ltb_lt 0 cap)) by lia. by apply minMax_batch.
    - exists None. assert (Hn : numRows data = 0%nat) by lia. split; [|intros v (i & Hi & _); lia]. rewrite Hn. destruct (0 <? cap); [|done].
      unfold getMinMaxStorageValue. destruct (packedType fast t) as [T|] eqn:HT.
      + destruct t; try discriminate HT; done.
      + destruct Hs as [->|]; done. }
  destruct Hb as (mm & E & Hb). exists mm. split; [done|]. destruct mm as [[mn mx]|]; cbn [bounds] in Hb.
  - destruct Hb as (lo & hi & -> & -> & Hlo & Hhi & Hall). exists lo, hi.
    assert (Ht : forall v, P v -> inType fast t v) by (intros v (i & _ & _ & ->); by apply typed_range).
    split; auto.
    + destruct (Hall hi Hhi). lia.
    + right. split; [done|]. destruct Hlo as (i & Hi & _). lia.
  - exists 0, 0. split; [by rewrite encoded_0|by rewrite encoded_0|apply inType_0|apply inType_0|lia| |by left]. intros v Hv. by destruct (Hb v).
Qed.

Lemma ceil_pages cap perPage :
  0 <= cap -> 0 < perPage -> let k := cap / perPage + (if cap mod perPage =? 0 then 0 else 1) in cap <= perPage * k /\ 0 <= k <= cap.
Proof.
  intros Hc Hp. cbv zeta. pose proof (Z.div_mod cap perPage ltac:(lia)). pose proof (Z.mod_pos_bound cap perPage Hp).
  assert (0 <= cap / perPage) by (apply Z.div_pos; lia). destruct (Z.eqb_spec (cap mod perPage) 0); nia.
Qed.

Lemma bitpacking_metadata data ec cap mn mx lo hi T :
  packedType fast t = Some T -> statistics data mn mx lo hi -> lo <> hi -> 0 <= cap ->
  (ec = true -> plainValues fast t (buffer data) (numRows data) (nullMask data)) ->
  exists md perPage pg, GetBitpackingMetadata fast t (getCompression fast t ec) cap (Z.of_nat (numRows data)) mn mx =
      Ok (mkChunkMeta INVALID_PAGE pg (Z.of_nat (numRows data)) md) /\
    chosen (getCompression fast t ec) md perPage /\ compression md <> CONSTANT /\ min md = mn /\ max md = mx /\ 0 <= pg <= cap /\ cap <= perPage * pg.
Proof using HF.
  intros HT [-> -> Tlo Thi Hle Hin Hsome] Hne Hcap Hpl. destruct (packedType_ok fast HF t T HT) as (Hint & HP & Hs & Hv).
  pose proof (intType_bounds _ _ Hint) as Hn.
  assert (Hfin : forall md alg, chunkOK fast t md -> compression md <> CONSTANT -> min md = encoded fast t lo -> max md = encoded fast t hi ->
    (alg = INTEGER_BITPACKING /\ (compression md = INTEGER_BITPACKING \/ compression md = UNCOMPRESSED)) \/ (alg = UNCOMPRESSED /\ compression md = UNCOMPRESSED) ->
    exists perPage pg, (let* numValuesPerPage := perPageOf md in
      let pages := if numValuesPerPage =? UINT64_MAX then 0 else cap / numValuesPerPage + (if cap mod numValuesPerPage =? 0 then 0 else 1) in
      Ok (mkChunkMeta INVALID_PAGE pages (Z.of_nat (numRows data)) md)) = Ok (mkChunkMeta INVALID_PAGE pg (Z.of_nat (numRows data)) md) /\
      chosen alg md perPage /\ compression md <> CONSTANT /\ min md = encoded fast t lo /\ max md = encoded fast t hi /\ 0 <= pg <= cap /\ cap <= perPage * pg).
  { intros md alg Hok Hc Hmn Hmx Halg.
    assert (Hper : exists perPage, perPageOf md = Ok perPage).
    { unfold numValues, Uncompressed_numValues, chunkOK in *. destruct (compression md); try (by destruct Halg as [[_ [?|?]]|[_ ?]]).
      - rewrite Hs. eauto.
      - destruct Hok as (T' & info & -> & _ & -> & _). eauto. }
    destruct Hper as [perPage Hper]. rewrite Hper. cbn [obind]. pose proof (perPage_bounds fast HF t md perPage Hok Hc Hper) as Hb.
    rewrite (proj2 (Z.eqb_neq perPage UINT64_MAX)) by (unfold UINT64_MAX; lia). destruct (ceil_pages cap perPage Hcap ltac:(lia)) as [C1 C2].
    eexists _, _. split; [done|]. split; [split; try done; by rewrite HT|]. done. }
  assert (Hunc : chunkOK fast t (mkMeta (encoded fast t lo) (encoded fast t hi) UNCOMPRESSED)).
  { unfold chunkOK. cbn [compression]. split; [by intros ->|]. exists (bits T / 8). split; [done|].
    destruct Hint as [[?|[?|[?|[?|?]]]] _]; Z.div_mod_to_equations; lia. }
  destruct ec.
  - assert (Halg : getCompression fast t true = INTEGER_BITPACKING) by (unfold getCompression; cbn [negb]; rewrite HT; destruct t; done || discriminate HT).
    rewrite Halg. set (md := mkMeta (encoded fast t lo) (encoded fast t hi) INTEGER_BITPACKING).
    assert (Hm : metaOK (bits T) (isSigned T) md).
    { split; unfold md; cbn [min max]; rewrite !(get_encoded fast HF t T) by done; [done|].
      destruct Hsome as [|[(i & Hi & Hsel & ->) _]]; [done|]. unfold typed. rewrite HT, Hv. by apply (Hpl eq_refl T i HT Hi Hsel). }
    destruct (getPackingInfo_ok _ _ Hint md Hm) as (info & Hi & Hiok & Hfit).
    assert (Hz : bitWidth info <> 0).
    { intros Hz. unfold md in Hfit. cbn [min max] in Hfit. rewrite !(get_encoded fast HF t T) in Hfit by done.
      pose proof (Hfit lo ltac:(lia)) as F1. pose proof (Hfit hi ltac:(lia)) as F2. unfold fits in F1, F2.
      destruct (hasNegative info) eqn:En; [destruct Hiok as [_ Hx _]; destruct (Hx En); lia|]. rewrite Hz in F1, F2. cbn in F1, F2. lia. }
    assert (Hpack : usable (bits T) info -> chunkOK fast t md) by (intros Hu; exists T, info; done).
    unfold GetBitpackingMetadata. fold md. destruct (integerType fast t) as [T'|] eqn:HT'.
    + assert (T' = T) as -> by (destruct t; try discriminate HT'; cbn in HT, HT'; congruence).
      rewrite Hi. cbn [obind]. destruct (Z.leb_spec (bits T) (bitWidth info)).
      * eexists. by apply Hfin; auto.
      * eexists. apply (Hfin md); [|done|done|done|by left; auto]. apply Hpack. split; [|lia]. unfold widthOK. destruct Hiok as [Hx _ _]. destruct (bits T =? 128); lia.
    + assert (t = INTERNAL_ID) as Ht by (destruct t; try discriminate HT'; try discriminate HT; done).
      eexists. apply (Hfin md); [|done|done|done|by left; auto]. apply Hpack. rewrite Ht in HT. injection HT as <-. destruct Hiok as [Hx Hy _]. cbn in *.
      split; [unfold widthOK; cbn; lia|]. intros En. by destruct (Hy En).
  - assert (Halg : getCompression fast t false = UNCOMPRESSED) by done. rewrite Halg. unfold GetBitpackingMetadata.
    eexists. by apply Hfin; auto.
Qed.

(** ** Flush, then read *)

Lemma typed_inj x y : simpleColumn fast t -> inU B x -> inU B y -> typed fast t x = typed fast t y -> x = y.
Proof using HF.
  intros Hs Hx Hy. unfold typed. destruct (packedType fast t) as [T|] eqn:HT; [|done].
  destruct (packedType_ok fast HF t T HT) as (Hint & _ & _ & Hv). rewrite Hv in *. intros E.
  rewrite <- (wrapU_id _ _ Hx), <- (wrapU_id _ _ Hy). fold (toU (bits T) x) (toU (bits T) y).
  rewrite <- (toU_toT _ _ Hint x), <- (toU_toT _ _ Hint y). by rewrite E.
Qed.

Lemma valueBits_nonneg : simpleColumn fast t -> 0 <= B.
Proof using HF.
  intros [->|Hp]; [done|]. destruct (packedType fast t) as [T|] eqn:HT; [|done].
  destruct (packedType_ok fast HF t T HT) as (Hint & _ & _ & ->). pose proof (intType_bounds _ _ Hint). lia.
Qed.

Lemma constantValue_range md : simpleColumn fast t -> inU B (constantValue t md).
Proof using HF.
  intros Hs. destruct (decide (t = BOOL)) as [->|Hb].
  - cbn [valueBits constantValue]. unfold inU. destruct (unsignedInt (min md) =? 0); cbn; lia.
  - rewrite constantValue_int by done. apply wrapU_range. by apply valueBits_nonneg.
Qed.

Lemma bufferSize_ok cap : simpleColumn fast t ->
  getBufferSize t cap = Ok (if decide (t = BOOL) then (cap + 63) / 64 * 8 else B / 8 * cap).
Proof using HF.
  intros Hs. unfold getBufferSize. case_decide as Hb; [by rewrite Hb|]. destruct Hs as [|Hp]; [done|].
  destruct (packedType fast t) as [T|] eqn:HT; [|done]. destruct (packedType_ok fast HF t T HT) as (_ & _ & Hs & Hv). rewrite Hv, Hs. by destruct t.
Qed.

(** The outcome of a flush. *)
Record flushed (data : ChunkData) (f : DataFile) (m : ColumnChunkMetadata) (f' : DataFile) (perPage : Z) : Prop := {
  fl_layout : chunkLayout fast t f' m perPage;
  fl_stats : statsOK fast t (compMeta m);
  fl_values : chunkValues m = Z.of_nat (numRows data);
  fl_cells : forall i, (i < numRows data)%nat -> selected (nullMask data) i = true -> chunkCell fast t m f' i = value B (buffer data) i;
  fl_pages : forall q, q < filePages f -> pageAt f' q = pageAt f q;
  fl_bounds : exists lo hi, statistics data (min (compMeta m)) (max (compMeta m)) lo hi
}.

Lemma flush_constant data cap f md lo hi :
  simpleColumn fast t -> compression md = CONSTANT -> statistics data (min md) (max md) lo hi -> min md = max md ->
  Z.of_nat (numRows data) <= cap -> 0 < filePages f -> filePages f + cap <= INVALID_PAGE ->
  flushed data f (mkChunkMeta INVALID_PAGE 0 (Z.of_nat (numRows data)) md) (mkFile (pages f) (filePages f + 0)) UINT64_MAX.
Proof using HF.
  intros Hs Hc Hst Heq Hrows Hf0 Hf1. pose proof Hst as [E1 E2 Tlo Thi Hle Hin _].
  assert (Hic : forall a b c, isConstant (mkChunkMeta a b c md) = true) by (intros; apply bool_decide_eq_true; done).
  assert (lo = hi) as <- by (apply encoded_inj; try done; congruence). split.
  - split; [unfold chunkOK; cbn [compMeta]; by rewrite Hc|unfold numValues; cbn [compMeta]; by rewrite Hc|by rewrite Hic|].
    unfold capacity. rewrite Hic. cbn [compMeta chunkValues]. unfold INVALID_PAGE in *. lia.
  - cbn [compMeta]. split; [eauto|]. split; [eauto|done].
  - done.
  - intros i Hi Hsel. unfold chunkCell. rewrite Hic. cbn [compMeta]. apply typed_inj; [done|by apply constantValue_range|apply field_value_range; by apply valueBits_nonneg|].
    rewrite (constant_typed fast HF t md lo) by done. destruct (Hin (typed fast t (value B (buffer data) i))); [exists i; done|lia].
  - done.
  - by exists lo, lo.
Qed.

Lemma flush_bits data cap f md lo hi pg :
  t = BOOL -> compression md = BOOLEAN_BITPACKING -> statistics data (min md) (max md) lo hi -> pg = getNumPagesForBytes ((cap + 63) / 64 * 8) ->
  Z.of_nat (numRows data) <= cap -> 0 < cap -> 0 < filePages f -> filePages f + cap <= INVALID_PAGE ->
  exists f', uncompressedFlushBuffer (buffer data) ((cap + 63) / 64 * 8) (filePages f) (mkChunkMeta INVALID_PAGE pg (Z.of_nat (numRows data)) md)
      (mkFile (pages f) (filePages f + pg)) = Ok (mkChunkMeta (filePages f) pg (Z.of_nat (numRows data)) md, f') /\
    flushed data f (mkChunkMeta (filePages f) pg (Z.of_nat (numRows data)) md) f' 32768.
Proof using HF.
  intros Ht Hc Hst -> Hrows Hcap Hf0 Hf1. pose proof Hst as [E1 E2 Tlo Thi Hle Hin _]. unfold uncompressedFlushBuffer. cbn [numPages filePages chunkValues compMeta].
  set (size := (cap + 63) / 64 * 8). set (pg := getNumPagesForBytes size).
  assert (Hsz : cap <= 8 * size /\ 0 < size) by (unfold size; Z.div_mod_to_equations; lia).
  assert (Hpg : size <= 4096 * pg /\ 0 < pg <= cap).
  { unfold pg, getNumPagesForBytes. rewrite PAGE_SIZE_value. unfold size. Z.div_mod_to_equations; lia. }
  rewrite (proj2 (Z.ltb_ge _ _)) by lia. eexists. split; [done|].
  destruct (writePages_ok (Z.to_nat pg) (buffer data) size (filePages f) 0 (mkFile (pages f) (filePages f + pg)) ltac:(lia) ltac:(lia) ltac:(lia)) as (W1 & W2 & W3).
  assert (Hic : isConstant (mkChunkMeta (filePages f) pg (Z.of_nat (numRows data)) md) = false) by (apply bool_decide_eq_false; cbn; congruence).
  assert (Hper : numValues fast md (Z.of_nat PAGE_SIZE) t = Ok 32768) by (unfold numValues; rewrite Hc, PAGE_SIZE_value; done). split.
  - split; [unfold chunkOK; cbn [compMeta]; by rewrite Hc|done| |].
    + rewrite Hic, W1. cbn [filePages pageIdx numPages]. lia.
    + unfold capacity. rewrite Hic. cbn [numPages chunkValues]. lia.
  - cbn [compMeta]. split; [eauto|]. split; [eauto|]. by rewrite Hc.
  - done.
  - intros i Hi Hsel. unfold chunkCell. rewrite Hic. cbn [compMeta pageIdx]. rewrite Hper. unfold rowCell, cellOf. rewrite Hc, Ht. cbn [valueBits].
    rewrite !value_bit. f_equal. rewrite Nat2Z.inj_div, Nat2Z.inj_mod, Z2Nat.id by lia. apply W2. lia.
  - intros q Hq. rewrite W3 by lia. done.
  - by exists lo, hi.
Qed.

Lemma flush_pages inMem alg data cap f md perPage pg lo hi T :
  packedType fast t = Some T -> statistics data (min md) (max md) lo hi -> chosen alg md perPage -> compression md <> CONSTANT ->
  0 <= pg <= cap -> cap <= perPage * pg -> Z.of_nat (numRows data) <= cap -> 0 < filePages f -> filePages f + cap <= INVALID_PAGE ->
  exists f', CompressedFlushBuffer fast t inMem alg (buffer data) (filePages f) (mkChunkMeta INVALID_PAGE pg (Z.of_nat (numRows data)) md)
      (mkFile (pages f) (filePages f + pg)) = Ok (mkChunkMeta (filePages f) pg (Z.of_nat (numRows data)) md, f') /\
    flushed data f (mkChunkMeta (filePages f) pg (Z.of_nat (numRows data)) md) f' perPage.
Proof using HF.
  intros HT Hst Hch Hc Hpg Hcap Hrows Hf0 Hf1. pose proof Hst as [E1 E2 Tlo Thi Hle Hin _]. unfold CompressedFlushBuffer. cbn [compMeta numPages chunkValues].
  pose proof Hch as [Hok Hper _ _]. rewrite Hper. cbn [obind]. pose proof (perPage_bounds fast HF t md perPage Hok Hc Hper) as Hb.
  rewrite wrapU_id by (unfold inU, INVALID_PAGE in *; nia). rewrite (proj2 (Z.ltb_ge _ _)) by lia.
  set (m := mkChunkMeta INVALID_PAGE pg (Z.of_nat (numRows data)) md). set (f0 := mkFile (pages f) (filePages f + pg)).
  destruct (packedType_ok fast HF t T HT) as (Hint & _ & _ & Hv).
  assert (Hwit : forall i, (i < numRows data)%nat -> selected (nullMask data) i = true -> within md (value B (buffer data) i)).
  { intros i Hi Hsel T' HT' _. rewrite HT in HT'. injection HT' as <-. rewrite E1, E2, !(get_encoded fast HF t T) by done.
    apply Hin. exists i. split; [done|]. split; [done|]. unfold typed. by rewrite HT. }
  destruct (flushLoop_ok alg (buffer data) perPage (filePages f) m (nullMask data) (numRows data) (numRows data) 0 0 0 f0) as (k' & f' & E & F1 & F2 & F3 & F4 & F5);
    try done; try lia; [unfold m; cbn [numPages]; lia|].
  rewrite Nat2Z.id. rewrite Z.sub_0_r in E. rewrite E. cbn [obind fst snd]. eexists. split; [done|].
  set (f2 := if negb inMem && (k' <? pg) then _ else _).
  assert (Hf2 : filePages f2 = filePages f + pg /\ (forall q, q < filePages f + pg - 1 \/ k' = pg -> pageAt f2 q = pageAt f' q)).
  { unfold f2. destruct (negb inMem && (k' <? pg)) eqn:Ek.
    - split; [exact F1|]. intros q Hq. apply andb_true_iff in Ek as [_ Ek%Z.ltb_lt]. rewrite pageAt_setPage, decide_False by lia. done.
    - split; [exact F1|done]. }
  destruct Hf2 as [G1 G2]. unfold m in F2. cbn [numPages] in F2.
  assert (Hic : isConstant (mkChunkMeta (filePages f) pg (Z.of_nat (numRows data)) md) = false) by (by apply bool_decide_eq_false). split.
  - split; [done|done| |].
    + rewrite Hic, G1. cbn [pageIdx numPages]. lia.
    + unfold capacity. rewrite Hic. cbn [numPages chunkValues]. lia.
  - cbn [compMeta]. split; [eauto|]. split; [eauto|]. intros Hcc. by destruct Hc.
  - done.
  - intros i Hi Hsel. unfold chunkCell. rewrite Hic. cbn [compMeta pageIdx]. rewrite Hper. unfold rowCell. rewrite <- (F4 i) by (done || lia). cbn [compMeta m].
    f_equal. apply G2. assert (Hd : Z.of_nat (i / Z.to_nat perPage) < k').
    { rewrite Nat2Z.inj_div, Z2Nat.id by lia. apply Z.div_lt_upper_bound; lia. } lia.
  - intros q Hq. rewrite G2 by lia. rewrite F5 by lia. done.
  - by exists lo, hi.
Qed.

Context (floatFlush : Z -> Z -> ColumnChunkMetadata -> DataFile -> outcome (ColumnChunkMetadata * DataFile)).

Lemma flush_ok inMem ec data cap f :
  simpleColumn fast t -> maskOK (nullMask data) 0 (numRows data) -> Z.of_nat (numRows data) <= cap ->
  (ec = true -> plainValues fast t (buffer data) (numRows data) (nullMask data)) -> 0 < filePages f -> filePages f + cap <= INVALID_PAGE ->
  exists m f' perPage, flush fast t floatFlush inMem ec data cap f = Ok (m, f') /\ flushed data f m f' perPage.
Proof using HF floatFlush.
  intros Hs Hm Hrows Hpl Hf0 Hf1. unfold flush, getMetadataToFlush. rewrite (proj2 (Z.ltb_ge cap _)) by lia.
  destruct (statistics_ok data cap Hs Hm Hrows) as (mm & -> & lo & hi & Hst). cbn [obind].
  destruct (match mm with Some p => p | None => (0, 0) end) as [mn mx]. rewrite (bufferSize_ok cap Hs). cbn [obind]. unfold GetCompressionMetadata.
  destruct (Z.eqb_spec mn mx) as [Heq|Hne].
  - cbn [obind addNewPages numPages]. unfold flushBuffer. rewrite (bufferSize_ok cap Hs). cbn [obind compMeta compression].
    rewrite bool_decide_eq_true_2 by done. cbn [orb]. eexists _, _, _. split; [done|]. by eapply flush_constant.
  - assert (Hlh : lo <> hi) by (intros ->; destruct Hst; congruence).
    assert (H0 : (0 < numRows data)%nat) by (destruct Hst as [_ _ _ _ _ _ [?|[_ ?]]]; done).
    destruct (decide (t = BOOL)) as [Ht|Ht].
    + rewrite Ht. cbn [obind addNewPages numPages]. unfold flushBuffer.
      replace (getBufferSize BOOL cap) with (Ok (A := Z) ((cap + 63) / 64 * 8)) by done. cbn [obind compMeta compression].
      rewrite bool_decide_eq_false_2 by done. cbn [orb].
      rewrite (proj2 (Z.eqb_neq _ 0)) by (Z.div_mod_to_equations; lia).
      destruct (flush_bits data cap f (mkMeta mn mx BOOLEAN_BITPACKING) lo hi _ Ht eq_refl Hst eq_refl) as (f' & -> & Hfl); try done; [lia|].
      eexists _, _, _. split; [done|exact Hfl].
    + destruct Hs as [|Hp]; [done|]. destruct (packedType fast t) as [T|] eqn:HT; [|done].
      destruct (bitpacking_metadata data ec cap mn mx lo hi T HT Hst Hlh ltac:(lia) Hpl) as (md & perPage & pg & Em & Hch & Hc & Hmn & Hmx & Hpg & Hcap).
      assert (E1 : match t with
         | BOOL => Ok (mkChunkMeta INVALID_PAGE (getNumPagesForBytes (B / 8 * cap)) (Z.of_nat (numRows data)) (mkMeta mn mx BOOLEAN_BITPACKING))
         | STRING | ARRAY | LIST | INT64 | INT32 | INT16 | INT8 | INTERNAL_ID | UINT64 | UINT32 | UINT16 | UINT8 | INT128 =>
             GetBitpackingMetadata fast t (getCompression fast t ec) cap (Z.of_nat (numRows data)) mn mx
         | DOUBLE | FLOAT => float_metadata t (buffer data) cap (Z.of_nat (numRows data)) mn mx
         | _ => Ok (mkChunkMeta INVALID_PAGE (getNumPagesForBytes (B / 8 * cap)) (Z.of_nat (numRows data)) (mkMeta mn mx UNCOMPRESSED))
         end = Ok (mkChunkMeta INVALID_PAGE pg (Z.of_nat (numRows data)) md)) by (destruct t; try discriminate HT; exact Em).
      rewrite E1. cbn [obind addNewPages numPages]. unfold flushBuffer. rewrite (bufferSize_ok cap ltac:(right; by rewrite HT)), decide_False by done.
      cbn [obind compMeta]. rewrite bool_decide_eq_false_2 by done. cbn [orb].
      destruct (packedType_ok fast HF t T HT) as (Hint & _ & _ & Hv). pose proof (intType_bounds _ _ Hint).
      rewrite (proj2 (Z.eqb_neq _ 0)). 2: { rewrite Hv. destruct Hint as [[?|[?|[?|[?|?]]]] _]; Z.div_mod_to_equations; nia. }
      rewrite <- Hmn, <- Hmx in Hst.
      destruct (flush_pages inMem (getCompression fast t ec) data cap f md perPage pg lo hi T HT Hst Hch Hc Hpg Hcap Hrows Hf0 Hf1) as (f' & Ef & Hfl).
      eexists _, _, _. split; [|exact Hfl]. destruct t; try discriminate HT; exact Ef.
Qed.

(** C8. Flushing a chunk of booleans, integers or internal ids keeps its values: whatever compression its
    statistics choose, constant, bit-packed or none, the flush succeeds, takes new pages only, and
    every row that is not null reads as the value of the buffer; the chunk is then ready for scans and
    checkpoints.  If compression is enabled, no value of a signed type that is not null is the smallest
    one of its type, whose packing is wrong in the code.  Floating-point columns are not covered. *)
Theorem flush_keeps_values inMem ec data cap f :
  simpleColumn fast t -> maskOK (nullMask data) 0 (numRows data) -> Z.of_nat (numRows data) <= cap ->
  (ec = true -> plainValues fast t (buffer data) (numRows data) (nullMask data)) -> 0 < filePages f -> filePages f + cap <= INVALID_PAGE ->
  exists m f' perPage, flush fast t floatFlush inMem ec data cap f = Ok (m, f') /\ flushed data f m f' perPage.
Proof using HF floatFlush.
  intros Hs Hm Hrows Hpl Hf0 Hf1. exact (flush_ok inMem ec data cap f Hs Hm Hrows Hpl Hf0 Hf1).
Qed.
End Flush.
