(* ===== verification/ZoneMap.v ===== *)
(** * Skipping chunks by their statistics (src/storage/predicate/)

    A predicate of a query compares a column with a constant.  [checkZoneMap] decides from the
    minimum and maximum of a chunk alone whether a row of the chunk can satisfy it.  Also here:
    the examples of all files about columns, on concrete chunks. *)

From stdpp Require Import base list sorting gmap numbers strings.
From S2P Require Import Prelude NullMask Bitpacking IntegerBitpacking Compression PageCodec Column ColumnProof ColumnCheckpoint ColumnFlush.
Local Open Scope Z_scope.

Inductive ExpressionType := EQUALS | NOT_EQUALS | GREATER_THAN | GREATER_THAN_EQUALS | LESS_THAN | LESS_THAN_EQUALS.
Inductive ZoneMapCheckResult := ALWAYS_SCAN | SKIP_SCAN.
#[global] Instance ZoneMapCheckResult_eq_dec : EqDecision ZoneMapCheckResult.
Proof. solve_decision. Defined.

Definition inRange (mn mx v : Z) : bool := (mn <=? v) && (v <=? mx).

(** The minimum, the maximum and the constant are values of the type. *)
Definition checkZoneMapSwitch (mn mx constant : Z) (e : ExpressionType) : ZoneMapCheckResult :=
  match e with
  | EQUALS => if negb (inRange mn mx constant) then SKIP_SCAN else ALWAYS_SCAN
  | NOT_EQUALS => if (constant =? mn) && (constant =? mx) then SKIP_SCAN else ALWAYS_SCAN
  | GREATER_THAN => if mx <=? constant then SKIP_SCAN else ALWAYS_SCAN
  | GREATER_THAN_EQUALS => if mx <? constant then SKIP_SCAN else ALWAYS_SCAN
  | LESS_THAN => if constant <=? mn then SKIP_SCAN else ALWAYS_SCAN
  | LESS_THAN_EQUALS => if constant <? mn then SKIP_SCAN else ALWAYS_SCAN
  end.


Section ZoneMap.
Context `{FC : FloatCompression} (fast : forall n, ChunkPacker n).
(** The check for floating-point columns. *)
Context (floatZone : CompressionMetadata -> ExpressionType -> Z -> ZoneMapCheckResult).

Definition checkZoneMap (t : PhysicalTypeID) (md : CompressionMetadata) (e : ExpressionType) (constant : Z) : ZoneMapCheckResult :=
  match t with
  | BOOL => checkZoneMapSwitch (Z.b2z (negb (unsignedInt (min md) =? 0))) (Z.b2z (negb (unsignedInt (max md) =? 0))) constant e
  | FLOAT | DOUBLE => floatZone md e constant
  | _ => match integerType fast t with
         | Some T => checkZoneMapSwitch (get (bits T) (isSigned T) (min md)) (get (bits T) (isSigned T) (max md)) constant e
         | None => ALWAYS_SCAN
         end
  end.



Context (HF : forall n, @ChunkPackerOK n (fast n)).


End ZoneMap.

(** ** Examples *)

(** A class without floating-point columns. *)
#[local] Instance noFloats : FloatCompression := {|
  float_setValues _ _ _ _ _ _ _ _ := Err InternalException;
  float_decompress _ _ _ _ _ _ _ := Err InternalException;
  float_canUpdate _ _ _ _ _ _ := Err InternalException;
  float_numValues _ _ _ := 0;
  float_metadata _ _ _ _ _ _ := Err InternalException;
  float_minMax _ _ _ _ _ := Err InternalException;
  float_gt _ _ := false;
  double_to_float x := x
|}.
Definition exFast (n : Z) : ChunkPacker n := plainPacker n.
Lemma exFast_ok n : @ChunkPackerOK n (exFast n).
Proof. apply plainPacker_ok. Qed.
Definition exFloatFlush (_ _ : Z) (_ : ColumnChunkMetadata) (_ : DataFile) : outcome (ColumnChunkMetadata * DataFile) := Err InternalException.

Definition exFile : DataFile := mkFile ∅ 1.
(** The signed 64-bit integers 5, 200, 77; the second is null. *)
Definition exChunk : ChunkData := mkChunkData (setFields 0 0 64 [5; 200; 77]) (Some (mkNullMask [2] true)) 3.
(** The same without a null. *)
Definition exChunk' : ChunkData := mkChunkData (setFields 0 0 64 [5; 200; 77]) None 3.
Definition exMetaOf (r : outcome (ColumnChunkMetadata * DataFile)) : ColumnChunkMetadata :=
  match r with Ok x => fst x | Err _ => mkChunkMeta 0 0 0 (mkMeta 0 0 CONSTANT) end.
Definition exFileOf (r : outcome (ColumnChunkMetadata * DataFile)) : DataFile := match r with Ok x => snd x | Err _ => exFile end.
Definition exFlush (c : ChunkData) : outcome (ColumnChunkMetadata * DataFile) := flush exFast INT64 exFloatFlush false true c 3 exFile.

Lemma ex_simple t : packedType exFast t <> None -> simpleColumn exFast t.
Proof. by right. Qed.

Lemma exChunk_mask : maskOK (nullMask exChunk) 0 (numRows exChunk).
Proof. split; [|cbn; lia]. split; [|done]. repeat constructor; vm_compute; congruence. Qed.

Ltac small_cases i Hi := do 3 (destruct i as [|i]; [vm_compute; congruence|]); cbn in Hi; lia.

Lemma flush_keeps_values_witness :
  exists m f' perPage, exFlush exChunk = Ok (m, f') /\ flushed exFast INT64 exChunk exFile m f' perPage.
Proof.
  apply (flush_keeps_values exFast exFast_ok INT64 exFloatFlush false true exChunk 3 exFile).
  - by apply ex_simple.
  - apply exChunk_mask.
  - cbn. lia.
  - intros _ T i [= <-] Hi _. small_cases i Hi.
  - cbn. lia.
  - cbn. unfold INVALID_PAGE. lia.
Defined.

Definition exMeta' : ColumnChunkMetadata := mkChunkMeta 1 1 3 (mkMeta 5 200 INTEGER_BITPACKING).

Lemma ex_flushed c m perPage :
  (c = exChunk \/ c = exChunk') -> exMetaOf (exFlush c) = m -> numValues exFast (compMeta m) (Z.of_nat PAGE_SIZE) INT64 = Ok perPage ->
  flushed exFast INT64 c exFile m (exFileOf (exFlush c)) perPage.
Proof.
  intros Hc Em Ep. destruct (flush_ok exFast exFast_ok INT64 exFloatFlush false true c 3 exFile) as (m0 & f' & k & E & Hfl).
  - by apply ex_simple.
  - destruct Hc as [-> | ->]; [apply exChunk_mask|done].
  - destruct Hc as [-> | ->]; cbn; lia.
  - intros _ T i [= <-] Hi _. destruct Hc as [-> | ->]; small_cases i Hi.
  - cbn. lia.
  - cbn. unfold INVALID_PAGE. lia.
  - unfold exFlush in *. rewrite E in *. cbn [exMetaOf exFileOf fst snd] in *. subst m0.
    pose proof (cl_per _ _ _ _ _ (fl_layout _ _ _ _ _ _ _ Hfl)) as Hk. assert (k = perPage) as -> by congruence. done.
Qed.


(** Row 1 gets 99 and row 2 the value 255, which needs no more bits. *)
Definition exStates : list ChunkCheckpointState := [mkCheckpointState (mkChunkData (setFields 0 0 64 [99; 255]) None 2) 1].

Lemma checkpoint_in_place_witness :
  exists f' m', checkpointColumnChunkInPlace exFast INT64 (mkChunkState exMeta' 4096) exStates (exFileOf (exFlush exChunk'), exMeta') = Ok (f', m') /\
    chunkCell exFast INT64 m' f' 0 = 5 /\ chunkCell exFast INT64 m' f' 1 = 99 /\ chunkCell exFast INT64 m' f' 2 = 255.
Proof.
  assert (Hfl : flushed exFast INT64 exChunk' exFile exMeta' (exFileOf (exFlush exChunk')) 4096)
    by (apply (ex_flushed exChunk'); [by right| |]; by vm_compute).
  destruct (checkpoint_in_place exFast exFast_ok INT64 (exFileOf (exFlush exChunk')) exMeta' 4096 exStates) as (f' & m' & E & _ & _ & _ & Hv & _).
  - by apply ex_simple.
  - apply Hfl.
  - apply Hfl.
  - unfold exStates. apply Forall_singleton. split; [cbn; lia|done|]. intros _ T i [= <-] Hi _. do 2 (destruct i as [|i]; [vm_compute; congruence|]). cbn in Hi. lia.
  - done.
  - by vm_compute.
  - exists f', m'. split; [exact E|]. split; [|split].
    + transitivity (chunkCell exFast INT64 exMeta' (exFileOf (exFlush exChunk')) 0); [exact (Hv 0%nat)|by vm_compute].
    + exact (Hv 1%nat).
    + exact (Hv 2%nat).
Defined.


(** *** What the examples show *)

(** The statistics after an update in place may exclude a value of the chunk: the batch 3, 250
    raises the maximum from 200 to 250, and the minimum stays 5.  Row 0 then reads 3, and a
    search for 3 skips the chunk. *)
Example minimum_not_updated :
  let batch := [mkCheckpointState (mkChunkData (setFields 0 0 64 [3; 250]) None 2) 0] in
  let s := mkChunkState exMeta' 4096 in
  canCheckpointInPlace exFast INT64 s exMeta' batch = Ok true /\
  exists f' m', checkpointColumnChunkInPlace exFast INT64 s batch (exFileOf (exFlush exChunk'), exMeta') = Ok (f', m') /\
    compMeta m' = mkMeta 5 250 INTEGER_BITPACKING /\ chunkCell exFast INT64 m' f' 0 = 3 /\
    checkZoneMap exFast (fun _ _ _ => ALWAYS_SCAN) INT64 (compMeta m') EQUALS 3 = SKIP_SCAN.
Proof.
  cbv zeta. split; [by vm_compute|]. eexists _, _. split; [vm_compute; reflexivity|]. by vm_compute.
Qed.

(** Unsigned 8-bit values are read into a chunk with the signed reader: 100, 200 are packed with
    7 bits from the offset 100, the vector reader gives them back, the chunk reader does not
    add the offset. *)
Example uint8_chunk_reader :
  let data := mkChunkData (setFields 0 0 8 [100; 200]) None 2 in
  let r := flush exFast UINT8 exFloatFlush false true data 2 exFile in
  let s := mkChunkState (exMetaOf r) 4681 in
  scanInternal exFast UINT8 s 0 2 0 0 None (exFileOf r) = Ok (setFields 0 0 8 [100; 200]) /\
  scanToChunk exFast UINT8 s 0 2 0 (exFileOf r) = Ok (setFields 0 0 8 [0; 100], 2%nat).
Proof. by vm_compute. Qed.
