(* ===== verification/LogicalType.v ===== *)
(** * Logical types (src/common/types/types.cpp, src/include/common/types/types.h)

    A logical type is its identifier, the physical type that stores its values, and for decimals
    and nested types an object with the rest: precision and scale, the type of the elements, the
    fields.  This file has the data, the factories, equality, the classification of identifiers
    and the serialized form.  Names are lists of characters. *)

From Stdlib Require Import Ascii.
From stdpp Require Import base numbers strings list sets.
From S2P Require Import Prelude Serializer Compression.
Local Open Scope Z_scope.

Abbreviation name := (list ascii).
Definition str (s : string) : name := String.list_ascii_of_string s.

Module ID.
Inductive LogicalTypeID :=
| ANY | NODE | REL | RECURSIVE_REL | SERIAL
| BOOL | INT64 | INT32 | INT16 | INT8 | UINT64 | UINT32 | UINT16 | UINT8 | INT128 | DOUBLE | FLOAT
| DATE | TIMESTAMP | TIMESTAMP_SEC | TIMESTAMP_MS | TIMESTAMP_NS | TIMESTAMP_TZ | INTERVAL | DECIMAL | INTERNAL_ID
| STRING | BLOB | LIST | ARRAY | STRUCT | MAP | UNION | RDF_VARIANT | POINTER | UUID.
#[global] Instance LogicalTypeID_eq_dec : EqDecision LogicalTypeID.
Proof. solve_decision. Defined.

Definition all : list LogicalTypeID :=
  [ANY; NODE; REL; RECURSIVE_REL; SERIAL; BOOL; INT64; INT32; INT16; INT8; UINT64; UINT32; UINT16; UINT8; INT128; DOUBLE; FLOAT;
   DATE; TIMESTAMP; TIMESTAMP_SEC; TIMESTAMP_MS; TIMESTAMP_NS; TIMESTAMP_TZ; INTERVAL; DECIMAL; INTERNAL_ID;
   STRING; BLOB; LIST; ARRAY; STRUCT; MAP; UNION; RDF_VARIANT; POINTER; UUID].

(** The values of the enumerators. *)
Definition toByte (id : LogicalTypeID) : Z :=
  match id with
  | ANY => 0 | NODE => 10 | REL => 11 | RECURSIVE_REL => 12 | SERIAL => 13
  | BOOL => 22 | INT64 => 23 | INT32 => 24 | INT16 => 25 | INT8 => 26 | UINT64 => 27 | UINT32 => 28 | UINT16 => 29 | UINT8 => 30
  | INT128 => 31 | DOUBLE => 32 | FLOAT => 33 | DATE => 34 | TIMESTAMP => 35 | TIMESTAMP_SEC => 36 | TIMESTAMP_MS => 37
  | TIMESTAMP_NS => 38 | TIMESTAMP_TZ => 39 | INTERVAL => 40 | DECIMAL => 41 | INTERNAL_ID => 42 | STRING => 50 | BLOB => 51
  | LIST => 52 | ARRAY => 53 | STRUCT => 54 | MAP => 55 | UNION => 56 | RDF_VARIANT => 57 | POINTER => 58 | UUID => 59
  end.
End ID.
Abbreviation LogicalTypeID := ID.LogicalTypeID.

Definition physicalByte (t : PhysicalTypeID) : Z :=
  match t with
  | ANY => 0 | BOOL => 1 | INT64 => 2 | INT32 => 3 | INT16 => 4 | INT8 => 5 | UINT64 => 6 | UINT32 => 7 | UINT16 => 8 | UINT8 => 9
  | INT128 => 10 | DOUBLE => 11 | FLOAT => 12 | INTERVAL => 13 | INTERNAL_ID => 14 | ALP_EXCEPTION_FLOAT => 15 | ALP_EXCEPTION_DOUBLE => 16
  | STRING => 20 | LIST => 22 | ARRAY => 23 | STRUCT => 24 | POINTER => 25
  end.
Definition physicalTypes : list PhysicalTypeID :=
  [ANY; BOOL; INT64; INT32; INT16; INT8; UINT64; UINT32; UINT16; UINT8; INT128; DOUBLE; FLOAT; INTERVAL; INTERNAL_ID;
   ALP_EXCEPTION_FLOAT; ALP_EXCEPTION_DOUBLE; STRING; LIST; ARRAY; STRUCT; POINTER].

(** An [ArrayTypeInfo] is a [ListTypeInfo] with a number of elements. *)
Inductive ExtraTypeInfo (T : Type) :=
| DecimalTypeInfo (precision scale : Z)
| ListTypeInfo (childType : T)
| ArrayTypeInfo (childType : T) (numElements : Z)
| StructTypeInfo (fields : list (name * T)).
Arguments DecimalTypeInfo {T} precision scale.
Arguments ListTypeInfo {T} childType.
Arguments ArrayTypeInfo {T} childType numElements.
Arguments StructTypeInfo {T} fields.

#[warnings="-register-all"]
Inductive LogicalType := mkLogicalType { typeID : LogicalTypeID; physicalType : PhysicalTypeID; extraTypeInfo : option (ExtraTypeInfo LogicalType) }.

(** ** Induction over the types inside a type *)

Definition childTypes (e : option (ExtraTypeInfo LogicalType)) : list LogicalType :=
  match e with
  | Some (ListTypeInfo c) | Some (ArrayTypeInfo c _) => [c]
  | Some (StructTypeInfo fs) => snd <$> fs
  | _ => []
  end.

Fixpoint height (t : LogicalType) : nat :=
  match extraTypeInfo t with
  | Some (ListTypeInfo c) | Some (ArrayTypeInfo c _) => S (height c)
  | Some (StructTypeInfo fs) => S (foldr Nat.max 0%nat (map (fun f => height (snd f)) fs))
  | _ => O
  end.

Lemma height_child t c : c ∈ childTypes (extraTypeInfo t) -> (height c < height t)%nat.
Proof.
  destruct t as [id p e]. cbn [extraTypeInfo]. destruct e as [[p' s|c'|c' k|fs]|]; cbn [childTypes]; rewrite ?elem_of_nil; try done.
  - rewrite list_elem_of_singleton. intros ->. cbn. lia.
  - rewrite list_elem_of_singleton. intros ->. cbn. lia.
  - intros Hc. change (height c < S (foldr Nat.max 0%nat (map (fun f => height (snd f)) fs)))%nat.
    induction fs as [|[n d] fs IH]; [by apply elem_of_nil in Hc|]. rewrite fmap_cons in Hc. cbn [map foldr snd] in *.
    apply elem_of_cons in Hc as [->|Hc]; [lia|]. specialize (IH Hc). lia.
Qed.

Lemma LogicalType_ind' (P : LogicalType -> Prop) :
  (forall id p e, Forall P (childTypes e) -> P (mkLogicalType id p e)) -> forall t, P t.
Proof.
  intros Hstep t. remember (height t) as n eqn:Hn. revert t Hn. induction n as [n IH] using lt_wf_ind. intros [id p e] Hn.
  apply Hstep, Forall_forall. intros c Hc. apply (IH (height c)); [|done]. rewrite Hn. exact (height_child (mkLogicalType id p e) c Hc).
Qed.

(** ** Factories *)

Definition getIncompleteTypeErrMsg : string := "Trying to create a nested type without child information.".

Definition getPhysicalType (id : LogicalTypeID) (extra : option (ExtraTypeInfo LogicalType)) : outcome PhysicalTypeID :=
  match id with
  | ID.ANY => Ok ANY
  | ID.BOOL => Ok BOOL
  | ID.TIMESTAMP_MS | ID.TIMESTAMP_NS | ID.TIMESTAMP_TZ | ID.TIMESTAMP_SEC | ID.TIMESTAMP | ID.SERIAL | ID.INT64 => Ok INT64
  | ID.DATE | ID.INT32 => Ok INT32
  | ID.INT16 => Ok INT16
  | ID.INT8 => Ok INT8
  | ID.UINT64 => Ok UINT64
  | ID.UINT32 => Ok UINT32
  | ID.UINT16 => Ok UINT16
  | ID.UINT8 => Ok UINT8
  | ID.UUID | ID.INT128 => Ok INT128
  | ID.DOUBLE => Ok DOUBLE
  | ID.FLOAT => Ok FLOAT
  | ID.DECIMAL =>
      match extra with
      | None => Err (BinderException getIncompleteTypeErrMsg)
      | Some (DecimalTypeInfo precision _) =>
          if precision <=? 4 then Ok INT16
          else if precision <=? 9 then Ok INT32
          else if precision <=? 18 then Ok INT64
          else if precision <=? 38 then Ok INT128
          else Err (BinderException "Precision of decimal must be no greater than 38")
      | Some _ => Err InternalException
      end
  | ID.INTERVAL => Ok INTERVAL
  | ID.INTERNAL_ID => Ok INTERNAL_ID
  | ID.BLOB | ID.STRING => Ok STRING
  | ID.MAP | ID.LIST => Ok LIST
  | ID.ARRAY => Ok ARRAY
  | ID.NODE | ID.REL | ID.RECURSIVE_REL | ID.UNION | ID.STRUCT | ID.RDF_VARIANT => Ok STRUCT
  | ID.POINTER => Ok POINTER
  end.

(** The constructor without further information, and the one with it. *)
Definition newType (id : LogicalTypeID) : outcome LogicalType :=
  match id with
  | ID.DECIMAL | ID.LIST | ID.ARRAY | ID.STRUCT | ID.MAP | ID.UNION | ID.RDF_VARIANT => Err (BinderException getIncompleteTypeErrMsg)
  | _ => let* p := getPhysicalType id None in Ok (mkLogicalType id p None)
  end.
Definition newTypeWith (id : LogicalTypeID) (e : ExtraTypeInfo LogicalType) : outcome LogicalType :=
  let* p := getPhysicalType id (Some e) in Ok (mkLogicalType id p (Some e)).

Definition DECIMAL (precision scale : Z) : outcome LogicalType := newTypeWith ID.DECIMAL (DecimalTypeInfo precision scale).
Definition newStruct (fields : list (name * LogicalType)) : LogicalType := mkLogicalType ID.STRUCT STRUCT (Some (StructTypeInfo fields)).
Definition newList (childType : LogicalType) : LogicalType := mkLogicalType ID.LIST LIST (Some (ListTypeInfo childType)).
Definition newArray (childType : LogicalType) (numElements : Z) : LogicalType := mkLogicalType ID.ARRAY ARRAY (Some (ArrayTypeInfo childType numElements)).
Definition MAP_KEY : name := str "KEY".
Definition MAP_VALUE : name := str "VALUE".
Definition newMap (keyType valueType : LogicalType) : LogicalType :=
  mkLogicalType ID.MAP LIST (Some (ListTypeInfo (newStruct [(MAP_KEY, keyType); (MAP_VALUE, valueType)]))).
Definition TAG_FIELD : name * LogicalType := (str "tag", mkLogicalType ID.INT8 INT8 None).
Definition newUnion (fields : list (name * LogicalType)) : LogicalType :=
  mkLogicalType ID.UNION STRUCT (Some (StructTypeInfo (TAG_FIELD :: fields))).
Definition RDF_VARIANT : LogicalType :=
  mkLogicalType ID.RDF_VARIANT STRUCT
    (Some (StructTypeInfo [(str "_type", mkLogicalType ID.UINT8 UINT8 None); (str "_value", mkLogicalType ID.BLOB STRING None)])).

(** The factories call the constructor, whose physical type is the one written above. *)
Lemma factories_call_constructor f c k :
  newTypeWith ID.STRUCT (StructTypeInfo f) = Ok (newStruct f) /\ newTypeWith ID.LIST (ListTypeInfo c) = Ok (newList c) /\
  newTypeWith ID.ARRAY (ArrayTypeInfo c k) = Ok (newArray c k) /\ newTypeWith ID.UNION (StructTypeInfo (TAG_FIELD :: f)) = Ok (newUnion f).
Proof. done. Qed.

(** ** Classification of identifiers *)

Definition isTimestamp (id : LogicalTypeID) : bool :=
  match id with ID.TIMESTAMP | ID.TIMESTAMP_SEC | ID.TIMESTAMP_MS | ID.TIMESTAMP_NS => true | _ => false end.
Definition isUnsigned (id : LogicalTypeID) : bool :=
  match id with ID.UINT64 | ID.UINT32 | ID.UINT16 | ID.UINT8 => true | _ => false end.
Definition isIntegral (id : LogicalTypeID) : bool :=
  match id with
  | ID.INT64 | ID.INT32 | ID.INT16 | ID.INT8 | ID.UINT64 | ID.UINT32 | ID.UINT16 | ID.UINT8 | ID.INT128 | ID.SERIAL => true
  | _ => false
  end.
Definition isNumerical (id : LogicalTypeID) : bool :=
  match id with
  | ID.INT64 | ID.INT32 | ID.INT16 | ID.INT8 | ID.UINT64 | ID.UINT32 | ID.UINT16 | ID.UINT8 | ID.INT128
  | ID.DOUBLE | ID.FLOAT | ID.SERIAL | ID.DECIMAL => true
  | _ => false
  end.
Definition isNested (id : LogicalTypeID) : bool :=
  match id with
  | ID.STRUCT | ID.LIST | ID.ARRAY | ID.UNION | ID.MAP | ID.NODE | ID.REL | ID.RECURSIVE_REL | ID.RDF_VARIANT => true
  | _ => false
  end.

(** ** Access *)

Definition getPrecision (t : LogicalType) : outcome Z :=
  if decide (typeID t = ID.DECIMAL) then
    match extraTypeInfo t with Some (DecimalTypeInfo p _) => Ok p | Some _ => Err InternalException | None => Err UndefinedBehaviour end
  else Err InternalException.
Definition getScale (t : LogicalType) : outcome Z :=
  if decide (typeID t = ID.DECIMAL) then
    match extraTypeInfo t with Some (DecimalTypeInfo _ s) => Ok s | Some _ => Err InternalException | None => Err UndefinedBehaviour end
  else Err InternalException.
Definition listChild (t : LogicalType) : outcome LogicalType :=
  if decide (physicalType t = LIST \/ physicalType t = ARRAY) then
    match extraTypeInfo t with
    | Some (ListTypeInfo c) | Some (ArrayTypeInfo c _) => Ok c
    | Some _ => Err InternalException
    | None => Err UndefinedBehaviour
    end
  else Err InternalException.
Definition arrayChild (t : LogicalType) : outcome LogicalType :=
  if decide (physicalType t = ARRAY) then
    match extraTypeInfo t with Some (ArrayTypeInfo c _) => Ok c | Some _ => Err InternalException | None => Err UndefinedBehaviour end
  else Err InternalException.
Definition getNumElements (t : LogicalType) : outcome Z :=
  if decide (physicalType t = ARRAY) then
    match extraTypeInfo t with Some (ArrayTypeInfo _ k) => Ok k | Some _ => Err InternalException | None => Err UndefinedBehaviour end
  else Err InternalException.
Definition getFields (t : LogicalType) : outcome (list (name * LogicalType)) :=
  if decide (physicalType t = STRUCT) then
    match extraTypeInfo t with Some (StructTypeInfo fs) => Ok fs | Some _ => Err InternalException | None => Err UndefinedBehaviour end
  else Err InternalException.
Definition getKeyType (t : LogicalType) : outcome LogicalType :=
  if decide (typeID t = ID.MAP) then
    let* c := listChild t in let* fs := getFields c in
    match fs !! 0%nat with Some f => Ok (snd f) | None => Err UndefinedBehaviour end
  else Err InternalException.
Definition getValueType (t : LogicalType) : outcome LogicalType :=
  if decide (typeID t = ID.MAP) then
    let* c := listChild t in let* fs := getFields c in
    match fs !! 1%nat with Some f => Ok (snd f) | None => Err UndefinedBehaviour end
  else Err InternalException.

Definition toupper (c : ascii) : ascii :=
  let n := nat_of_ascii c in if (97 <=? n)%nat && (n <=? 122)%nat then ascii_of_nat (n - 32) else c.
Definition getUpper (s : name) : name := toupper <$> s.

(** [fieldNameToIdxMap] has the first field of every name, without case. *)
Fixpoint fieldIdx (fields : list (name * LogicalType)) (upperName : name) : option nat :=
  match fields with
  | [] => None
  | f :: fields => if decide (getUpper (fst f) = upperName) then Some O else S <$> fieldIdx fields upperName
  end.
Definition hasField (fields : list (name * LogicalType)) (fieldName : name) : bool := bool_decide (is_Some (fieldIdx fields (getUpper fieldName))).
Definition getStructField (fields : list (name * LogicalType)) (fieldName : name) : outcome (name * LogicalType) :=
  match fieldIdx fields (getUpper fieldName) with
  | None => Err (BinderException "Cannot find field in STRUCT.")
  | Some i => match fields !! i with Some f => Ok f | None => Err UndefinedBehaviour end
  end.

Fixpoint containsAny (t : LogicalType) : bool :=
  match extraTypeInfo t with
  | Some (DecimalTypeInfo _ _) => false
  | Some (ListTypeInfo c) | Some (ArrayTypeInfo c _) => containsAny c
  | Some (StructTypeInfo fs) => existsb (fun f => containsAny (snd f)) fs
  | None => bool_decide (typeID t = ID.ANY)
  end.

(** [operator==]; [None] as the further information of the other type only is a null pointer that
    is dereferenced.  The names of fields do not count. *)
Section Same.
Variable sameType : LogicalType -> LogicalType -> outcome bool.
Fixpoint sameFields (fs gs : list (name * LogicalType)) : outcome bool :=
  match fs, gs with
  | [], [] => Ok true
  | f :: fs, g :: gs => let* b := sameType (snd f) (snd g) in if b : bool then sameFields fs gs else Ok false
  | _, _ => Ok false
  end.
End Same.

Fixpoint sameType (t u : LogicalType) {struct t} : outcome bool :=
  if decide (typeID t = typeID u) then
    match extraTypeInfo t, extraTypeInfo u with
    | None, _ => Ok true
    | Some _, None => Err UndefinedBehaviour
    | Some (DecimalTypeInfo p s), Some (DecimalTypeInfo p' s') => Ok ((p =? p') && (s =? s'))
    | Some (ListTypeInfo c), Some (ListTypeInfo c') | Some (ListTypeInfo c), Some (ArrayTypeInfo c' _) => sameType c c'
    | Some (ArrayTypeInfo c k), Some (ArrayTypeInfo c' k') => let* b := sameType c c' in Ok (b && (k =? k'))
    | Some (StructTypeInfo fs), Some (StructTypeInfo gs) => if (length fs =? length gs)%nat then sameFields sameType fs gs else Ok false
    | Some _, Some _ => Err InternalException
    end
  else Ok false.

(** ** Well-formed types *)

(** What the further information of an identifier has to be. *)
Definition shape (id : LogicalTypeID) (e : option (ExtraTypeInfo LogicalType)) : Prop :=
  match id, e with
  | ID.DECIMAL, Some (DecimalTypeInfo p s) => 1 <= p <= 38 /\ 0 <= s <= p
  | ID.LIST, Some (ListTypeInfo _) => True
  | ID.ARRAY, Some (ArrayTypeInfo _ k) => inU 64 k
  | ID.MAP, Some (ListTypeInfo c) => exists k v, c = newStruct [(MAP_KEY, k); (MAP_VALUE, v)]
  | (ID.STRUCT | ID.NODE | ID.REL | ID.RECURSIVE_REL), Some (StructTypeInfo _) => True
  | ID.UNION, Some (StructTypeInfo fs) => exists gs, fs = TAG_FIELD :: gs
  | ID.RDF_VARIANT, _ => e = extraTypeInfo RDF_VARIANT
  | (ID.DECIMAL | ID.LIST | ID.ARRAY | ID.MAP | ID.STRUCT | ID.NODE | ID.REL | ID.RECURSIVE_REL | ID.UNION), _ => False
  | _, e => e = None
  end.

#[warnings="-register-all"]
Inductive wellFormed : LogicalType -> Prop :=
| wellFormed_intro id p e : shape id e -> getPhysicalType id e = Ok p -> Forall wellFormed (childTypes e) -> wellFormed (mkLogicalType id p e).

Lemma wellFormed_inv t :
  wellFormed t -> shape (typeID t) (extraTypeInfo t) /\ getPhysicalType (typeID t) (extraTypeInfo t) = Ok (physicalType t) /\
    Forall wellFormed (childTypes (extraTypeInfo t)).
Proof. by intros []. Qed.

Lemma wellFormed_new id t : newType id = Ok t -> id ∉ [ID.NODE; ID.REL; ID.RECURSIVE_REL] -> wellFormed t /\ typeID t = id.
Proof. intros Ht Hid. destruct id; try discriminate Ht; try (by destruct Hid; set_solver); injection Ht as <-; by repeat constructor. Qed.

Lemma wellFormed_decimal p s : 1 <= p <= 38 -> 0 <= s <= p -> exists t, DECIMAL p s = Ok t /\ wellFormed t /\ typeID t = ID.DECIMAL /\ extraTypeInfo t = Some (DecimalTypeInfo p s).
Proof.
  intros Hp Hs. unfold DECIMAL, newTypeWith.
  destruct (getPhysicalType ID.DECIMAL (Some (DecimalTypeInfo p s))) as [q|e] eqn:E.
  - eexists. split; [done|]. split; [|done]. constructor; [done|done|constructor].
  - exfalso. revert E. cbn. repeat case_match; try done. apply Z.leb_gt in H2. lia.
Qed.

Lemma wellFormed_list c : wellFormed c -> wellFormed (newList c).
Proof. by repeat constructor. Qed.
Lemma wellFormed_array c k : wellFormed c -> inU 64 k -> wellFormed (newArray c k).
Proof. intros. constructor; [done|done|]. by apply Forall_singleton. Qed.
Lemma wellFormed_struct fs : Forall wellFormed (snd <$> fs) -> wellFormed (newStruct fs).
Proof. by constructor. Qed.
Lemma wellFormed_map k v : wellFormed k -> wellFormed v -> wellFormed (newMap k v).
Proof.
  intros. constructor; [cbn; eauto|done|]. cbn [childTypes]. apply Forall_singleton, wellFormed_struct. by repeat constructor.
Qed.
Lemma wellFormed_tag : wellFormed (snd TAG_FIELD).
Proof. by repeat constructor. Qed.
Lemma wellFormed_union fs : Forall wellFormed (snd <$> fs) -> wellFormed (newUnion fs).
Proof. intros. constructor; [cbn; eauto|done|]. cbn [childTypes]. rewrite fmap_cons. constructor; [apply wellFormed_tag|done]. Qed.
Lemma wellFormed_rdf : wellFormed RDF_VARIANT.
Proof. by repeat constructor. Qed.
#[export] Hint Resolve wellFormed_list wellFormed_array wellFormed_struct wellFormed_map wellFormed_union wellFormed_rdf : kuzu.

(** ** Serialization *)

Definition serializeName (n : name) : Writer unit := serializeString (String.string_of_list_ascii n).
Definition deserializeName : Reader name := s <- deserializeString ;; sret (String.list_ascii_of_string s).

Fixpoint serializeType (t : LogicalType) : Writer unit :=
  serializeU 1 (ID.toByte (typeID t)) ;;;
  serializeU 1 (physicalByte (physicalType t)) ;;;
  match extraTypeInfo t with
  | None => sret tt
  | Some (DecimalTypeInfo precision scale) => serializeU 4 precision ;;; serializeU 4 scale
  | Some (ListTypeInfo c) => serializeType c
  | Some (ArrayTypeInfo c k) => serializeType c ;;; serializeU 8 k
  | Some (StructTypeInfo fs) => serializeVector (fun f => serializeName (fst f) ;;; serializeType (snd f)) fs
  end.

(** A byte that is no enumerator stays in the member and reaches [KU_UNREACHABLE] in the first
    switch over it; here the call ends at once. *)
Definition readEnum {A} (values : list A) (byte : A -> Z) : Reader A :=
  b <- deserializeU 1 ;;
  match list_find (fun a => byte a = b) values with Some (_, a) => sret a | None => sthrow InternalException end.

Fixpoint deserializeType (fuel : nat) : Reader LogicalType :=
  match fuel with
  | O => sthrow UndefinedBehaviour
  | S fuel =>
      id <- readEnum ID.all ID.toByte ;;
      p <- readEnum physicalTypes physicalByte ;;
      e <- match p with
           | LIST => c <- deserializeType fuel ;; sret (Some (ListTypeInfo c))
           | ARRAY => c <- deserializeType fuel ;; k <- deserializeU 8 ;; sret (Some (ArrayTypeInfo c k))
           | STRUCT =>
               fs <- deserializeVector (n <- deserializeName ;; c <- deserializeType fuel ;; sret (n, c)) ;;
               sret (Some (StructTypeInfo fs))
           | _ => if decide (id = ID.DECIMAL)
                  then precision <- deserializeU 4 ;; scale <- deserializeU 4 ;; sret (Some (DecimalTypeInfo precision scale))
                  else sret None
           end ;;
      sret (mkLogicalType id p e)
  end.

(** The sizes of names and lists of fields have 64 bits. *)
Definition sizesHere (e : option (ExtraTypeInfo LogicalType)) : Prop :=
  match e with
  | Some (StructTypeInfo fs) => Z.of_nat (length fs) < 2 ^ 64 /\ Forall (fun f => Z.of_nat (length (fst f)) < 2 ^ 64) fs
  | _ => True
  end.
#[warnings="-register-all"]
Inductive sizesFit : LogicalType -> Prop :=
| sizesFit_intro id p e : sizesHere e -> Forall sizesFit (childTypes e) -> sizesFit (mkLogicalType id p e).

Lemma codec_enum {A} (values : list A) (byte : A -> Z) a :
  a ∈ values -> inU 8 (byte a) -> (forall b, byte b = byte a -> b = a) -> codec (fun a => serializeU 1 (byte a)) (readEnum values byte) a.
Proof.
  intros Ha Hb Hinj. destruct (codec_U 1 (byte a) Hb) as (bs & Hw & Hr). exists bs. split; [done|]. intros rest.
  unfold readEnum. rewrite (sbind_ok _ _ _ _ _ (Hr rest)).
  destruct (list_find_elem_of (fun b => byte b = byte a) values a) as [[i b] Hf]; [done|done|].
  rewrite Hf. apply list_find_Some in Hf as (_ & Hb' & _). by rewrite (Hinj b Hb').
Qed.

Lemma codec_id id : codec (fun a => serializeU 1 (ID.toByte a)) (readEnum ID.all ID.toByte) id.
Proof. apply codec_enum; [destruct id; unfold ID.all; set_solver|destruct id; by vm_compute|]. intros b. by destruct id, b. Qed.
Lemma codec_physical p : codec (fun a => serializeU 1 (physicalByte a)) (readEnum physicalTypes physicalByte) p.
Proof. apply codec_enum; [destruct p; unfold physicalTypes; set_solver|destruct p; by vm_compute|]. intros b. by destruct p, b. Qed.

Lemma codec_name n : Z.of_nat (length n) < 2 ^ 64 -> codec serializeName deserializeName n.
Proof.
  intros Hn. destruct (codec_String (String.string_of_list_ascii n)) as (bs & Hw & Hr).
  { assert (El : String.length (String.string_of_list_ascii n) = length n) by (clear; induction n as [|a n IH]; cbn; [done|by rewrite IH]). lia. }
  exists bs. split; [done|]. intros rest. unfold deserializeName. rewrite (sbind_ok _ _ _ _ _ (Hr rest)).
  unfold sret. by rewrite String.list_ascii_of_string_of_list_ascii.
Qed.

(** Writing one value after the other. *)
Lemma codec_pair {A B} (ser1 : A -> Writer unit) deser1 (ser2 : B -> Writer unit) deser2 a b :
  codec ser1 deser1 a -> codec ser2 deser2 b ->
  codec (fun p => ser1 (fst p) ;;; ser2 (snd p)) (x <- deser1 ;; y <- deser2 ;; sret (x, y)) (a, b).
Proof.
  intros (bs & Hw & Hr) (bs' & Hw' & Hr'). exists (bs ++ bs'). split.
  - intros out. cbn [fst snd]. rewrite (sbind_ok _ _ _ _ _ (Hw out)), Hw'. by rewrite app_assoc.
  - intros rest. rewrite <- app_assoc, (sbind_ok _ _ _ _ _ (Hr _)), (sbind_ok _ _ _ _ _ (Hr' _)). done.
Qed.

(** What follows the two identifiers. *)
Definition serializeExtra (e : option (ExtraTypeInfo LogicalType)) : Writer unit :=
  match e with
  | None => sret tt
  | Some (DecimalTypeInfo precision scale) => serializeU 4 precision ;;; serializeU 4 scale
  | Some (ListTypeInfo c) => serializeType c
  | Some (ArrayTypeInfo c k) => serializeType c ;;; serializeU 8 k
  | Some (StructTypeInfo fs) => serializeVector (fun f => serializeName (fst f) ;;; serializeType (snd f)) fs
  end.
Definition deserializeExtra (fuel : nat) (id : LogicalTypeID) (p : PhysicalTypeID) : Reader (option (ExtraTypeInfo LogicalType)) :=
  match p with
  | LIST => c <- deserializeType fuel ;; sret (Some (ListTypeInfo c))
  | ARRAY => c <- deserializeType fuel ;; k <- deserializeU 8 ;; sret (Some (ArrayTypeInfo c k))
  | STRUCT =>
      fs <- deserializeVector (n <- deserializeName ;; c <- deserializeType fuel ;; sret (n, c)) ;;
      sret (Some (StructTypeInfo fs))
  | _ => if decide (id = ID.DECIMAL)
         then precision <- deserializeU 4 ;; scale <- deserializeU 4 ;; sret (Some (DecimalTypeInfo precision scale))
         else sret None
  end.

Lemma codec_header id p e fuel :
  codec serializeExtra (deserializeExtra fuel id p) e -> codec serializeType (deserializeType (S fuel)) (mkLogicalType id p e).
Proof.
  intros (b3 & W3 & R3). destruct (codec_id id) as (b1 & W1 & R1). destruct (codec_physical p) as (b2 & W2 & R2).
  exists (b1 ++ b2 ++ b3). split.
  - intros out. cbn [serializeType typeID physicalType extraTypeInfo]. rewrite (sbind_ok _ _ _ _ _ (W1 out)), (sbind_ok _ _ _ _ _ (W2 _)).
    rewrite !app_assoc. apply (W3 ((out ++ b1) ++ b2)).
  - intros rest. cbn [deserializeType]. rewrite <- !app_assoc, (sbind_ok _ _ _ _ _ (R1 _)), (sbind_ok _ _ _ _ _ (R2 _)).
    by rewrite (sbind_ok _ _ _ _ _ (R3 rest)).
Qed.

Lemma codec_none fuel id p : shape id None -> getPhysicalType id None = Ok p -> codec serializeExtra (deserializeExtra fuel id p) None.
Proof. intros Hs Hp. exists []. split; [intros; cbn; by rewrite app_nil_r|]. intros rest. destruct id; try done; by injection Hp as <-. Qed.

Lemma codec_decimal fuel p s q :
  shape ID.DECIMAL (Some (DecimalTypeInfo p s)) -> getPhysicalType ID.DECIMAL (Some (DecimalTypeInfo p s)) = Ok q ->
  codec serializeExtra (deserializeExtra fuel ID.DECIMAL q) (Some (DecimalTypeInfo p s)).
Proof.
  intros [Hp Hs] Hq. destruct (codec_U 4 p) as (b1 & W1 & R1); [unfold inU; lia|]. destruct (codec_U 4 s) as (b2 & W2 & R2); [unfold inU; lia|].
  exists (b1 ++ b2). split.
  - intros out. cbn [serializeExtra]. by rewrite (sbind_ok _ _ _ _ _ (W1 out)), W2, app_assoc.
  - intros rest. assert (deserializeExtra fuel ID.DECIMAL q = (precision <- deserializeU 4 ;; scale <- deserializeU 4 ;; sret (Some (DecimalTypeInfo precision scale)))) as ->.
    { revert Hq. cbn [getPhysicalType]. repeat case_match; try done; by intros [= <-]. }
    by rewrite <- app_assoc, (sbind_ok _ _ _ _ _ (R1 _)), (sbind_ok _ _ _ _ _ (R2 _)).
Qed.

Lemma codec_fields fuel fs :
  Forall (codec serializeType (deserializeType fuel)) (snd <$> fs) -> sizesHere (Some (StructTypeInfo fs)) ->
  codec (serializeVector (fun f => serializeName (fst f) ;;; serializeType (snd f)))
    (deserializeVector (n <- deserializeName ;; c <- deserializeType fuel ;; sret (n, c))) fs.
Proof.
  intros Hc [Hl Hn]. apply codec_Vector; [|done]. rewrite Forall_fmap in Hc. eapply Forall_impl; [exact (proj2 (Forall_and _ _) (conj Hc Hn))|].
  intros [n c] [H1 H2]. apply codec_pair; [by apply codec_name|done].
Qed.

Lemma codec_LogicalType t fuel : wellFormed t -> sizesFit t -> (height t < fuel)%nat -> codec serializeType (deserializeType fuel) t.
Proof.
  revert fuel. induction t as [id p e IH] using LogicalType_ind'. intros fuel Hw Hs Hf. destruct fuel as [|fuel]; [lia|]. apply codec_header.
  apply wellFormed_inv in Hw as (Hsh & Hp & Hcw). cbn in Hsh, Hp, Hcw. inversion Hs as [? ? ? Hsz Hcs]; subst; clear Hs.
  assert (Hch : Forall (codec serializeType (deserializeType fuel)) (childTypes e)).
  { apply Forall_forall. intros c Hc. pose proof (height_child (mkLogicalType id p e) c Hc).
    rewrite Forall_forall in IH, Hcw, Hcs. apply IH; auto. lia. }
  destruct e as [[q s|c|c k|fs]|]; [| | | |by apply codec_none].
  - assert (id = ID.DECIMAL) as -> by (by destruct id). by apply codec_decimal.
  - assert (p = LIST) as -> by (destruct id; try done; by injection Hp). apply Forall_singleton in Hch as (bs & W & R). exists bs.
    split; [done|]. intros rest. cbn [deserializeExtra]. by rewrite (sbind_ok _ _ _ _ _ (R rest)).
  - assert (p = ARRAY /\ inU 64 k) as [-> Hk] by (destruct id; try done; by injection Hp). apply Forall_singleton in Hch as (bs & W & R).
    destruct (codec_U 8 k Hk) as (b2 & W2 & R2). exists (bs ++ b2). split.
    + intros out. cbn [serializeExtra]. by rewrite (sbind_ok _ _ _ _ _ (W out)), W2, app_assoc.
    + intros rest. cbn [deserializeExtra]. by rewrite <- app_assoc, (sbind_ok _ _ _ _ _ (R _)), (sbind_ok _ _ _ _ _ (R2 _)).
  - assert (p = STRUCT) as -> by (destruct id; try done; by injection Hp). destruct (codec_fields fuel fs Hch Hsz) as (bs & W & R). exists bs.
    split; [done|]. intros rest. cbn [deserializeExtra]. by rewrite (sbind_ok _ _ _ _ _ (R rest)).
Qed.

(** A logical type that was written to a catalog or a file is read back: for every well-formed
    type, however nested, [deserialize] consumes exactly the bytes that [serialize] wrote and
    returns the type, if its recursion may go as deep as the type is nested. *)
Theorem types_serialized t fuel : wellFormed t -> sizesFit t -> (height t < fuel)%nat -> codec serializeType (deserializeType fuel) t.
Proof. apply codec_LogicalType. Qed.

(** ** Examples *)

(** A node type without fields, which the constructor with the identifier alone makes, is written
    without its fields and cannot be read back. *)
Example incomplete_node_not_read_back :
  let t := mkLogicalType ID.NODE STRUCT None in
  newType ID.NODE = Ok t /\ serializeType t [] = (Ok tt, [10; 24]) /\
  fst (deserializeType 10 [10; 24]) = Err (RuntimeException "Reading past the end of the file").
Proof. cbv zeta. split; [done|]. split; [by vm_compute|]. by vm_compute. Qed.

(** Equality of types ignores the names of fields. *)
Example same_ignores_names :
  let int64 := mkLogicalType ID.INT64 INT64 None in sameType (newStruct [(str "a", int64)]) (newStruct [(str "b", int64)]) = Ok true.
Proof. reflexivity. Qed.

(** STRUCT(a INT64[3], b MAP(STRING, DECIMAL(10, 2))). *)
Definition exType : LogicalType :=
  newStruct [(str "a", newArray (mkLogicalType ID.INT64 INT64 None) 3);
             (str "b", newMap (mkLogicalType ID.STRING STRING None) (mkLogicalType ID.DECIMAL INT64 (Some (DecimalTypeInfo 10 2))))].
Lemma exType_ok : wellFormed exType.
Proof.
  apply wellFormed_struct. constructor; [apply wellFormed_array; [by repeat constructor|by vm_compute]|].
  constructor; [|constructor]. apply wellFormed_map; [by repeat constructor|]. constructor; [cbn; lia|done|constructor].
Qed.

Lemma types_serialized_witness : codec serializeType (deserializeType 5) exType.
Proof.
  apply types_serialized.
  - apply exType_ok.
  - repeat constructor; cbn; lia.
  - vm_compute. lia.
Defined.
