(* ===== verification/TypeText.v ===== *)
(** * Logical types as text (src/common/types/types.cpp, src/common/string_utils.cpp)

    [toString] prints a type as it is written in DDL, [convertFromString] reads one: lists and
    arrays by their last bracket, structs, maps and unions by splitting what is between the
    brackets at its commas.  The recursion of the reader is bounded by fuel; running out of it
    stands for a recursion that does not end and overflows the stack. *)

From Stdlib Require Import Ascii.
From stdpp Require Import base numbers strings list sets.
From S2P Require Import Prelude Serializer DateText Compression LogicalType.
Local Open Scope Z_scope.

(** ** Strings *)

Definition ltrim (s : name) : name := skipSpaces s.
Definition rtrim (s : name) : name := rev (skipSpaces (rev s)).
Definition trim (s : name) : name := ltrim (rtrim s).
Definition startsWith (p s : name) : bool := bool_decide (take (length p) s = p).
Definition endsWith (p s : name) : bool := bool_decide (drop (length s - length p) s = p).
(** [std::string::find] and [find_last_of] of one character. *)
Definition find (c : ascii) (s : name) : option nat := fst <$> list_find (fun d => d = c) s.
Definition findLast (c : ascii) (s : name) : option nat := (fun i => length s - S i)%nat <$> find c (rev s).
(** [s.substr(left + 1, right - left - 1)], where the position of the right bracket may be
    [npos] or before the left one, which makes the count larger than the string. *)
Definition between (s : name) (lpos : nat) (rpos : option nat) : name :=
  match rpos with
  | Some rpos => if (lpos <? rpos)%nat then take (rpos - lpos - 1) (drop (lpos + 1) s) else drop (lpos + 1) s
  | None => drop (lpos + 1) s
  end.

Definition lparen : ascii := ch 40.
Definition rparen : ascii := ch 41.
Definition comma : ascii := ch 44.
Definition lbracket : ascii := ch 91.
Definition rbracket : ascii := ch 93.

(** [std::to_string] of an unsigned number of 64 bits. *)
Fixpoint toDigits (fuel : nat) (v : Z) (acc : name) : name :=
  match fuel with
  | O => acc
  | S fuel => if v <? 10 then digitChar v :: acc else toDigits fuel (v / 10) (digitChar (v mod 10) :: acc)
  end.
Definition to_string (v : Z) : name := toDigits 20 v [].

(** [std::strtoll] with base 0: a leading 0x means hexadecimal, another leading 0 octal. *)
Definition digitOf (c : ascii) : Z :=
  if isDigit c then digitValue c
  else if (65 <=? code c) && (code c <=? 90) then code c - 55
  else if (97 <=? code c) && (code c <=? 122) then code c - 87
  else 36.
Fixpoint strDigits (base : Z) (s : name) (acc : Z) : Z :=
  match s with
  | c :: s => if digitOf c <? base then strDigits base s (acc * base + digitOf c) else acc
  | [] => acc
  end.
Definition strMagnitude (s : name) : Z :=
  match s with
  | z :: s' =>
      if code z =? 48 then
        match s' with
        | x :: h :: s'' => if (code (toupper x) =? 88) && (digitOf h <? 16) then strDigits 16 (h :: s'') 0 else strDigits 8 s 0
        | _ => strDigits 8 s 0
        end
      else strDigits 10 s 0
  | [] => 0
  end.
Definition strtoll (s : name) : Z :=
  match skipSpaces s with
  | c :: s' =>
      if code c =? 45 then Z.max (- 2 ^ 63) (- strMagnitude s')
      else Z.min (2 ^ 63 - 1) (strMagnitude (if code c =? 43 then s' else c :: s'))
  | [] => 0
  end.

(** ** Printing *)

Definition idToString (id : LogicalTypeID) : name :=
  str match id with
  | ID.ANY => "ANY" | ID.NODE => "NODE" | ID.REL => "REL" | ID.RECURSIVE_REL => "RECURSIVE_REL" | ID.INTERNAL_ID => "INTERNAL_ID"
  | ID.BOOL => "BOOL" | ID.INT64 => "INT64" | ID.INT32 => "INT32" | ID.INT16 => "INT16" | ID.INT8 => "INT8"
  | ID.UINT64 => "UINT64" | ID.UINT32 => "UINT32" | ID.UINT16 => "UINT16" | ID.UINT8 => "UINT8" | ID.INT128 => "INT128"
  | ID.DOUBLE => "DOUBLE" | ID.FLOAT => "FLOAT" | ID.DATE => "DATE" | ID.TIMESTAMP_NS => "TIMESTAMP_NS" | ID.TIMESTAMP_MS => "TIMESTAMP_MS"
  | ID.TIMESTAMP_SEC => "TIMESTAMP_SEC" | ID.TIMESTAMP_TZ => "TIMESTAMP_TZ" | ID.TIMESTAMP => "TIMESTAMP" | ID.INTERVAL => "INTERVAL"
  | ID.DECIMAL => "DECIMAL" | ID.BLOB => "BLOB" | ID.UUID => "UUID" | ID.STRING => "STRING" | ID.LIST => "LIST" | ID.ARRAY => "ARRAY"
  | ID.STRUCT => "STRUCT" | ID.RDF_VARIANT => "RDF_VARIANT" | ID.SERIAL => "SERIAL" | ID.MAP => "MAP" | ID.UNION => "UNION"
  | ID.POINTER => "POINTER"
  end%string.

Section Print.
Variable toString : LogicalType -> outcome name.
(** The loops of [STRUCT] and [UNION]: a separator after every field but the last, where [last]
    follows it. *)
Fixpoint printFields (last : name) (fs : list (name * LogicalType)) : outcome name :=
  match fs with
  | [] => Ok []
  | f :: fs =>
      let* t := toString (snd f) in
      let* rest := printFields last fs in
      Ok (fst f ++ str " " ++ t ++ (if fs is [] then last else str ", ") ++ rest)
  end.
End Print.

Fixpoint toString (t : LogicalType) : outcome name :=
  match typeID t with
  | ID.MAP =>
      match extraTypeInfo t with
      | Some (ListTypeInfo (mkLogicalType _ p (Some (StructTypeInfo fs)))) =>
          if decide (p = STRUCT) then
            match map (fun f => toString (snd f)) fs with
            | k :: v :: _ => let* k := k in let* v := v in Ok (str "MAP(" ++ k ++ str ", " ++ v ++ str ")")
            | _ => Err UndefinedBehaviour
            end
          else Err InternalException
      | _ => Err InternalException
      end
  | ID.LIST =>
      match extraTypeInfo t with
      | Some (ListTypeInfo c) | Some (ArrayTypeInfo c _) => let* s := toString c in Ok (s ++ str "[]")
      | _ => Err InternalException
      end
  | ID.ARRAY =>
      match extraTypeInfo t with
      | Some (ArrayTypeInfo c k) => let* s := toString c in Ok (s ++ str "[" ++ to_string k ++ str "]")
      | _ => Err InternalException
      end
  | ID.UNION =>
      match extraTypeInfo t with
      | Some (StructTypeInfo (_ :: fs)) => let* s := printFields toString (str ")") fs in Ok (str "UNION(" ++ s)
      | Some (StructTypeInfo []) => Ok (str "UNION(")
      | _ => Err InternalException
      end
  | ID.STRUCT =>
      match extraTypeInfo t with
      | Some (StructTypeInfo fs) => let* s := printFields toString [] fs in Ok (str "STRUCT(" ++ s ++ str ")")
      | _ => Err InternalException
      end
  | ID.DECIMAL =>
      match extraTypeInfo t with
      | Some (DecimalTypeInfo p s) => Ok (str "DECIMAL(" ++ to_string p ++ str ", " ++ to_string s ++ str ")")
      | _ => Err InternalException
      end
  | ID.POINTER => Err InternalException
  | id => Ok (idToString id)
  end.

(** ** Reading *)

Definition tryGetIDFromString (s : name) : option LogicalTypeID :=
  let upper := getUpper s in
  let named x := bool_decide (str x = upper) in
  if named "INTERNAL_ID" then Some ID.INTERNAL_ID
  else if named "INT64" then Some ID.INT64
  else if named "INT32" || named "INT" then Some ID.INT32
  else if named "INT16" then Some ID.INT16
  else if named "INT8" then Some ID.INT8
  else if named "UINT64" then Some ID.UINT64
  else if named "UINT32" then Some ID.UINT32
  else if named "UINT16" then Some ID.UINT16
  else if named "UINT8" then Some ID.UINT8
  else if named "INT128" then Some ID.INT128
  else if named "DOUBLE" || named "FLOAT8" then Some ID.DOUBLE
  else if named "FLOAT" || named "FLOAT4" || named "REAL" then Some ID.FLOAT
  else if named "DECIMAL" || named "NUMERIC" then Some ID.DECIMAL
  else if named "BOOLEAN" || named "BOOL" then Some ID.BOOL
  else if named "BYTEA" || named "BLOB" then Some ID.BLOB
  else if named "UUID" then Some ID.UUID
  else if named "STRING" then Some ID.STRING
  else if named "DATE" then Some ID.DATE
  else if named "TIMESTAMP" then Some ID.TIMESTAMP
  else if named "TIMESTAMP_NS" then Some ID.TIMESTAMP_NS
  else if named "TIMESTAMP_MS" then Some ID.TIMESTAMP_MS
  else if named "TIMESTAMP_SEC" || named "TIMESTAMP_S" then Some ID.TIMESTAMP_SEC
  else if named "TIMESTAMP_TZ" then Some ID.TIMESTAMP_TZ
  else if named "INTERVAL" || named "DURATION" then Some ID.INTERVAL
  else if named "SERIAL" then Some ID.SERIAL
  else None.

(** [parseStructFields]: [cur] has the characters since the last split, in reverse; the number of
    open brackets has 32 bits. *)
Fixpoint parseStructFields (s : name) (numOpenBrackets : Z) (cur : name) : list name :=
  match s with
  | [] => [ltrim (rev cur)]
  | c :: s =>
      if decide (c = lparen) then parseStructFields s (wrapU 32 (numOpenBrackets + 1)) (c :: cur)
      else if decide (c = rparen) then parseStructFields s (wrapU 32 (numOpenBrackets - 1)) (c :: cur)
      else if decide (c = comma) then
        if numOpenBrackets =? 0 then ltrim (rev cur) :: parseStructFields s numOpenBrackets []
        else parseStructFields s numOpenBrackets (c :: cur)
      else parseStructFields s numOpenBrackets (c :: cur)
  end.

(** [StringUtils::splitComma]: the text before and after the first comma outside brackets. *)
Fixpoint splitComma (s : name) (lvl : Z) (cur : name) : name * name :=
  match s with
  | [] => (rev cur, [])
  | c :: s =>
      if decide (c = lparen) then splitComma s (wrapU 32 (lvl + 1)) (c :: cur)
      else if decide (c = rparen) then splitComma s (wrapU 32 (lvl - 1)) (c :: cur)
      else if (lvl =? 0) && bool_decide (c = comma) then (rev cur, s)
      else splitComma s lvl (c :: cur)
  end.

Definition parseDecimalType (s : name) : outcome LogicalType :=
  match findLast lparen s with
  | None => DECIMAL 18 3
  | Some lpos =>
      let param := trim (between s lpos (findLast rparen s)) in
      match findLast comma param with
      | None => Err (BinderException "Only found 1 parameter for NUMERIC/DECIMAL type, expected 2")
      | Some pos =>
          let precision := strtoll (trim (take pos param)) in
          let scale := strtoll (trim (drop (pos + 1) param)) in
          if (precision <=? 0) || (38 <? precision) then
            Err (BinderException "Precision of DECIMAL/NUMERIC must be a positive integer no greater than 38")
          else if (scale <? 0) || (precision <? scale) then
            Err (BinderException "Scale of DECIMAL/NUMERIC must be a nonnegative integer no greater than the precision")
          else DECIMAL precision scale
      end
  end.

Section Parse.
(** The recursive call. *)
Variable convert : name -> outcome LogicalType.

Definition parseListType (s : name) : outcome LogicalType :=
  let* c := convert (take (length s - 2) s) in Ok (newList c).

Definition parseArrayType (s : name) : outcome LogicalType :=
  let lpos := findLast lbracket s in
  let rpos := findLast rbracket s in
  let* c := convert (match lpos with Some lpos => take lpos s | None => s end) in
  let count := strtoll (match lpos with Some lpos => between s lpos rpos
                                      | None => match rpos with Some rpos => take rpos s | None => s end end) in
  if count <=? 0 then Err (BinderException "The number of elements in an array must be greater than 0.")
  else Ok (newArray c count).

Fixpoint parseFields (fs : list name) : outcome (list (name * LogicalType)) :=
  match fs with
  | [] => Ok []
  | f :: fs =>
      let '(fieldName, fieldType) := match find space f with Some pos => (take pos f, drop (pos + 1) f) | None => (f, f) end in
      let* t := convert fieldType in
      let* rest := parseFields fs in
      Ok ((fieldName, t) :: rest)
  end.

Definition parseStructTypeInfo (s : name) : outcome (list (name * LogicalType)) :=
  match find lparen s, findLast rparen s with
  | Some lpos, Some rpos => parseFields (parseStructFields (between s lpos (Some rpos)) 0 [])
  | _, _ => Err (BaseException "Cannot parse struct type")
  end.
Definition parseStructType (s : name) : outcome LogicalType := let* fs := parseStructTypeInfo s in Ok (newStruct fs).
Definition parseUnionType (s : name) : outcome LogicalType := let* fs := parseStructTypeInfo s in Ok (newUnion fs).

Definition parseMapType (s : name) : outcome LogicalType :=
  match find lparen s, findLast rparen s with
  | Some lpos, Some rpos =>
      let '(k, v) := splitComma (between s lpos (Some rpos)) 0 [] in
      let* k := convert k in let* v := convert v in Ok (newMap k v)
  | _, _ => Err (BaseException "Cannot parse map type")
  end.
End Parse.

(** The type of a name in the catalog, if there is a client context. *)
Definition Context : Type := option (name -> outcome LogicalType).

Definition convertStep (context : Context) (convert : name -> outcome LogicalType) (s : name) : outcome LogicalType :=
  let trimmed := trim s in
  let upper := getUpper trimmed in
  if endsWith (str "[]") upper then parseListType convert trimmed
  else if endsWith (str "]") upper then parseArrayType convert trimmed
  else if startsWith (str "STRUCT") upper then parseStructType convert trimmed
  else if startsWith (str "MAP") upper then parseMapType convert trimmed
  else if startsWith (str "UNION") upper then parseUnionType convert trimmed
  else if startsWith (str "DECIMAL") upper || startsWith (str "NUMERIC") upper then parseDecimalType trimmed
  else if bool_decide (upper = str "RDF_VARIANT") then Ok RDF_VARIANT
  else match tryGetIDFromString upper with
       | Some id => let* p := getPhysicalType id None in Ok (mkLogicalType id p None)
       | None => match context with
                 | Some getType => getType upper
                 | None => Err (RuntimeException "Invalid datatype string")
                 end
       end.

Fixpoint convertFromString (context : Context) (fuel : nat) (s : name) : outcome LogicalType :=
  match fuel with
  | O => Err UndefinedBehaviour
  | S fuel => convertStep context (convertFromString context fuel) s
  end.

(** [isBuiltInType]: the same cases without a context, with every exception caught. *)
Definition isBuiltInType (fuel : nat) (s : name) : outcome bool :=
  match convertFromString None fuel s with Ok _ => Ok true | Err UndefinedBehaviour => Err UndefinedBehaviour | Err _ => Ok false end.

Definition shown (r : outcome name) : string := match r with Ok s => String.string_of_list_ascii s | Err _ => "error" end.

(** ** Examples *)
Example shown_exType : shown (toString exType) = "STRUCT(a INT64[3], b MAP(STRING, DECIMAL(10, 2)))"%string.
Proof. by vm_compute. Qed.
Example read_exType : convertFromString None 40 (str "  struct(a Int64[3], b MAP(string,numeric( 10 ,2)) ) ") = Ok exType.
Proof. by vm_compute. Qed.
Example read_hex : convertFromString None 40 (str "INT8[0x10]") = Ok (newArray (mkLogicalType ID.INT8 INT8 None) 16).
Proof. by vm_compute. Qed.

(** ** Trimming, searching *)

Lemma skipSpaces_head s c : head s = Some c -> isSpace c = false -> skipSpaces s = s.
Proof. destruct s; [done|]. cbn. intros [= ->] E. by rewrite E. Qed.

(** Texts without space at either end. *)
Definition tight (s : name) : Prop :=
  (exists c, head s = Some c /\ isSpace c = false) /\ (exists c, last s = Some c /\ isSpace c = false).

Lemma trim_tight s : tight s -> trim s = s.
Proof.
  intros [(c & Hc & Ec) (d & Hd & Ed)]. unfold trim, rtrim, ltrim. rewrite (skipSpaces_head (rev s) d), rev_involutive.
  - by apply (skipSpaces_head _ c).
  - apply last_Some in Hd as (l & ->). by rewrite rev_app_distr.
  - done.
Qed.

Lemma head_app {A} (a b : list A) x : head a = Some x -> head (a ++ b) = Some x.
Proof. by destruct a. Qed.
Lemma tight_app a b c d : head a = Some c -> isSpace c = false -> last b = Some d -> isSpace d = false -> tight (a ++ b).
Proof.
  intros Hc Ec Hd Ed. split; [exists c|exists d]; split; try done; [by apply head_app|]. rewrite last_app, Hd. done.
Qed.

Lemma find_at (c : ascii) a b : c ∉ a -> find c (a ++ c :: b) = Some (length a).
Proof.
  intros Hc. unfold find. replace (list_find (fun d => d = c) (a ++ c :: b)) with (Some (length a, c)); [done|]. symmetry.
  apply list_find_Some. split; [by apply list_lookup_middle|]. split; [done|]. intros j y Hj Hlt ->.
  rewrite lookup_app_l in Hj by done. by apply Hc, (list_elem_of_lookup_2 _ j).
Qed.

Lemma findLast_at (c : ascii) a b : c ∉ b -> findLast c (a ++ c :: b) = Some (length a).
Proof.
  intros Hc. unfold findLast. rewrite rev_app_distr. cbn [rev]. rewrite <- app_assoc. cbn [app]. rewrite find_at.
  - cbn. rewrite length_app, length_rev. cbn. f_equal. lia.
  - by rewrite <- list_elem_of_In, <- in_rev, list_elem_of_In in Hc || (rewrite list_elem_of_In in *; by rewrite <- in_rev).
Qed.

Lemma between_at a (l r : ascii) m : between (a ++ l :: m ++ [r]) (length a) (Some (length (a ++ l :: m))) = m.
Proof.
  unfold between. rewrite length_app. cbn [length]. rewrite (proj2 (Nat.ltb_lt _ _)) by lia.
  replace (length a + 1)%nat with (length (a ++ [l])) by (rewrite length_app; cbn; lia).
  replace (a ++ l :: m ++ [r]) with ((a ++ [l]) ++ (m ++ [r])) by (by rewrite <- app_assoc).
  rewrite drop_app_length. replace (length a + S (length m) - length a - 1)%nat with (length m) by lia. by rewrite take_app_length.
Qed.

Lemma endsWith_app p a b : length b = length p -> endsWith p (a ++ b) = bool_decide (b = p).
Proof.
  intros Hl. unfold endsWith. rewrite length_app, <- Hl. replace (length a + length b - length b)%nat with (length a) by lia.
  by rewrite drop_app_length.
Qed.

Lemma getUpper_app a b : getUpper (a ++ b) = getUpper a ++ getUpper b.
Proof. apply fmap_app. Qed.

(** ** Numbers *)

Lemma toDigits_app fuel v acc : toDigits fuel v acc = toDigits fuel v [] ++ acc.
Proof.
  revert v acc. induction fuel as [|fuel IH]; intros v acc; [done|]. cbn [toDigits]. destruct (v <? 10); [done|].
  rewrite IH, (IH _ [_]), <- app_assoc. done.
Qed.

(** The printed digits: none but digits, the first is not zero, their value is the number. *)
Lemma toDigits_ok fuel v :
  0 <= v < 10 ^ Z.of_nat fuel -> (0 < fuel)%nat ->
  Forall isDigitChar (toDigits fuel v []) /\ decimal (toDigits fuel v []) 0 = v /\
  exists d ds, toDigits fuel v [] = digitChar d :: ds /\ 0 <= d < 10 /\ (0 < v -> 0 < d).
Proof.
  revert v. induction fuel as [|fuel IH]; intros v Hv Hf; [lia|]. cbn [toDigits]. destruct (Z.ltb_spec v 10) as [Hlt|Hge].
  - destruct (digitChar_spec v) as (Hd & Hval & _); [lia|]. split; [by repeat constructor|]. split; [cbn; lia|]. exists v, []. split; [done|]. lia.
  - rewrite toDigits_app. destruct fuel as [|fuel]; [cbn in Hv; lia|].
    rewrite Nat2Z.inj_succ, Z.pow_succ_r in Hv by lia.
    destruct (IH (v / 10)) as (H1 & H2 & d & ds & H3 & H4 & H5); [split; [apply Z.div_pos; lia|apply Z.div_lt_upper_bound; lia]|lia|].
    pose proof (Z.mod_pos_bound v 10 ltac:(lia)) as Hm. destruct (digitChar_spec (v mod 10)) as (Hd & Hval & _); [lia|].
    split; [apply Forall_app; split; [done|by repeat constructor]|]. split.
    + rewrite decimal_app, H2. cbn. rewrite Hval. pose proof (Z.div_mod v 10). lia.
    + exists d, (ds ++ [digitChar (v mod 10)]). rewrite H3. split; [done|]. split; [done|]. intros _. apply H5, Z.div_str_pos. lia.
Qed.

Lemma digitChar_code d : 0 <= d < 10 -> code (digitChar d) = 48 + d.
Proof. intros H. destruct (digitChar_spec d H) as (_ & E & _). unfold digitValue in E. lia. Qed.

Lemma strDigits_decimal ds acc : Forall isDigitChar ds -> strDigits 10 ds acc = decimal ds acc.
Proof.
  intros H. revert acc. induction H as [|c ds Hc _ IH]; intros acc; [done|]. cbn [strDigits decimal]. unfold digitOf. rewrite Hc.
  pose proof (digit_range c Hc). rewrite (proj2 (Z.ltb_lt _ _)) by lia. rewrite IH. f_equal. lia.
Qed.

Lemma strtoll_to_string v : 0 <= v < 2 ^ 63 -> strtoll (to_string v) = v.
Proof.
  intros Hv. destruct (decide (v = 0)) as [->|H0]; [by vm_compute|].
  destruct (toDigits_ok 20 v) as (H1 & H2 & d & ds & H3 & H4 & H5); [lia|lia|]. unfold to_string, strtoll. rewrite H3 in *.
  destruct (digitChar_spec d H4) as (_ & _ & Hsp & _). rewrite (skipSpaces_head _ (digitChar d)) by done.
  rewrite digitChar_code by done. rewrite !(proj2 (Z.eqb_neq _ _)) by lia. unfold strMagnitude. rewrite digitChar_code by done.
  rewrite (proj2 (Z.eqb_neq _ _)) by lia. rewrite strDigits_decimal by done. lia.
Qed.

Lemma to_string_shape v : 0 <= v < 2 ^ 64 -> Forall isDigitChar (to_string v) /\ to_string v <> [].
Proof. intros Hv. destruct (toDigits_ok 20 v) as (H1 & _ & d & ds & H3 & _); [lia|lia|]. unfold to_string. split; [done|]. by rewrite H3. Qed.

Lemma digit_other c : isDigitChar c -> c <> lbracket /\ c <> rbracket /\ c <> lparen /\ c <> rparen /\ c <> comma /\ isSpace c = false /\ toupper c = c.
Proof.
  intros Hc. unfold isDigitChar, isDigit in Hc. apply andb_true_iff in Hc as [H1 H2]. apply Z.leb_le in H1, H2.
  assert (Hn : forall d, code d < 48 \/ 57 < code d -> c <> d) by (intros d [?|?] ->; lia).
  split_and!; try (apply Hn; vm_compute; tauto).
  - unfold isSpace. rewrite (proj2 (Z.eqb_neq _ _)), (proj2 (Z.leb_gt (code c) 13)) by lia. apply andb_false_r.
  - unfold toupper. unfold code in *. rewrite (proj2 (Nat.leb_gt 97 _)) by lia. done.
Qed.

(** ** Brackets *)

(** The nesting after a text that starts at a nesting, if no bracket closes and no comma stands
    outside brackets. *)
Fixpoint level (n : nat) (s : name) : option nat :=
  match s with
  | [] => Some n
  | c :: s =>
      if decide (c = lparen) then level (S n) s
      else if decide (c = rparen) then match n with O => None | S n => level n s end
      else if decide (c = comma) then match n with O => None | S _ => level n s end
      else level n s
  end.
Definition flat (s : name) : Prop := level 0 s = Some 0%nat.

Lemma level_app n s t : level n (s ++ t) = match level n s with Some m => level m t | None => None end.
Proof. revert n. induction s as [|c s IH]; intros n; [done|]. cbn. repeat case_decide; try apply IH; destruct n; try done; apply IH. Qed.

Lemma level_deeper n m k s : level n s = Some m -> level (n + k) s = Some (m + k)%nat.
Proof.
  revert n. induction s as [|c s IH]; intros n; cbn; [by intros [= ->]|]. repeat case_decide; try destruct n as [|n]; try done; cbn; apply IH.
Qed.

Lemma level_plain n s : Forall (fun c => c <> lparen /\ c <> rparen /\ c <> comma) s -> level n s = Some n.
Proof. induction 1 as [|c s (H1 & H2 & H3) _ IH]; [done|]. cbn. by rewrite !decide_False. Qed.

Lemma flat_app s t : flat s -> flat t -> flat (s ++ t).
Proof. unfold flat. intros Hs Ht. by rewrite level_app, Hs. Qed.

(** A text in brackets is flat, whatever its commas. *)
Lemma flat_brackets p s :
  Forall (fun c => c <> lparen /\ c <> rparen /\ c <> comma) p -> level 1 s = Some 1%nat -> flat (p ++ lparen :: s ++ [rparen]).
Proof.
  intros Hp Hs. unfold flat. rewrite level_app, (level_plain 0 p Hp). change (level 0 (lparen :: s ++ [rparen])) with (level 1 (s ++ [rparen])).
  by rewrite level_app, Hs.
Qed.

Lemma level_bound n m s : level n s = Some m -> (m <= n + length s)%nat.
Proof.
  revert n. induction s as [|c s IH]; intros n; cbn [level length]; [intros [= ->]; lia|].
  repeat case_decide; try destruct n as [|n]; try done; intros Hm%IH; lia.
Qed.

Lemma parseStructFields_level s n m rest cur :
  level n s = Some m -> Z.of_nat (n + length s) < 2 ^ 32 ->
  parseStructFields (s ++ rest) (Z.of_nat n) cur = parseStructFields rest (Z.of_nat m) (rev s ++ cur).
Proof.
  revert n cur. induction s as [|c s IH]; intros n cur; cbn [level length app parseStructFields rev]; [by intros [= ->]|].
  intros Hl Hb. rewrite <- app_assoc. cbn [app]. repeat case_decide; try destruct n as [|n]; try done.
  all: try (rewrite IH by (done || lia); done).
  - replace (wrapU 32 (Z.of_nat 0 + 1)) with (Z.of_nat 1) by done. rewrite IH by (done || lia). done.
  - rewrite wrapU_id by (unfold inU; lia). replace (Z.of_nat (S n) + 1) with (Z.of_nat (S (S n))) by lia. rewrite IH by (done || lia). done.
  - rewrite wrapU_id by (unfold inU; lia). replace (Z.of_nat (S n) - 1) with (Z.of_nat n) by lia. rewrite IH by (done || lia). done.
  - rewrite (proj2 (Z.eqb_neq _ _)) by lia. rewrite IH by (done || lia). done.
Qed.

Lemma splitComma_level s n m rest cur :
  level n s = Some m -> Z.of_nat (n + length s) < 2 ^ 32 ->
  splitComma (s ++ rest) (Z.of_nat n) cur = splitComma rest (Z.of_nat m) (rev s ++ cur).
Proof.
  revert n cur. induction s as [|c s IH]; intros n cur; cbn [level length app splitComma rev]; [by intros [= ->]|].
  intros Hl Hb. rewrite <- app_assoc. cbn [app]. repeat case_decide; try destruct n as [|n]; try done.
  - replace (wrapU 32 (Z.of_nat 0 + 1)) with (Z.of_nat 1) by done. rewrite IH by (done || lia). done.
  - rewrite wrapU_id by (unfold inU; lia). replace (Z.of_nat (S n) + 1) with (Z.of_nat (S (S n))) by lia. rewrite IH by (done || lia). done.
  - rewrite wrapU_id by (unfold inU; lia). replace (Z.of_nat (S n) - 1) with (Z.of_nat n) by lia. rewrite IH by (done || lia). done.
  - rewrite (proj2 (Z.eqb_neq _ _)) by lia. cbn [andb]. rewrite IH by (done || lia). done.
  - rewrite bool_decide_eq_false_2, andb_false_r by done. rewrite IH by (done || lia). done.
  - rewrite bool_decide_eq_false_2, andb_false_r by done. rewrite IH by (done || lia). done.
Qed.

(** ** Fields *)

(** A field as it is printed: its name and the text of its type. *)
Definition fieldText (f : name * name) : name := fst f ++ str " " ++ snd f.
Fixpoint joinFields (l : list (name * name)) : name :=
  match l with [] => [] | [f] => fieldText f | f :: l => fieldText f ++ str ", " ++ joinFields l end.

(** Names that a field can be read with. *)
Definition goodName (n : name) : Prop := n <> [] /\ Forall (fun c => c <> lparen /\ c <> rparen /\ c <> comma /\ isSpace c = false) n.

(** The texts of types. *)
Definition typeText (s : name) : Prop := flat s /\ tight s.

Lemma goodName_head n : goodName n -> exists c, head n = Some c /\ isSpace c = false.
Proof. intros [Hn Hc]. destruct n as [|c n]; [done|]. inversion Hc; subst. exists c. tauto. Qed.

Lemma fieldText_flat f : goodName (fst f) -> typeText (snd f) -> flat (fieldText f).
Proof.
  intros [_ Hn] [Hf _]. unfold fieldText. apply flat_app; [|apply flat_app; [by vm_compute|done]]. apply level_plain.
  eapply Forall_impl; [exact Hn|]. cbn. tauto.
Qed.

Lemma ltrim_fieldText f : goodName (fst f) -> ltrim (fieldText f) = fieldText f.
Proof. intros (c & Hc & Ec)%goodName_head. apply (skipSpaces_head _ c); [|done]. by apply head_app. Qed.

Lemma parse_flat s rest cur :
  flat s -> Z.of_nat (length s) < 2 ^ 32 -> parseStructFields (s ++ rest) 0 cur = parseStructFields rest 0 (rev s ++ cur).
Proof. intros Hs Hb. exact (parseStructFields_level s 0 0 rest cur Hs Hb). Qed.
Lemma split_flat s rest cur :
  flat s -> Z.of_nat (length s) < 2 ^ 32 -> splitComma (s ++ rest) 0 cur = splitComma rest 0 (rev s ++ cur).
Proof. intros Hs Hb. exact (splitComma_level s 0 0 rest cur Hs Hb). Qed.

(** Space before a field, in reverse. *)
Lemma ltrim_spaces f cur :
  goodName (fst f) -> Forall (fun c => isSpace c = true) cur -> ltrim (rev (rev (fieldText f) ++ cur)) = fieldText f.
Proof.
  intros Hn Hc. rewrite rev_app_distr, rev_involutive.
  assert (Hr : Forall (fun c => isSpace c = true) (rev cur)) by (apply Forall_rev; done).
  induction Hr as [|c r Hc' _ IH]; [by apply ltrim_fieldText|]. unfold ltrim in *. cbn. by rewrite Hc'.
Qed.

Lemma split_fields l cur :
  Forall (fun f => goodName (fst f) /\ typeText (snd f)) l -> l <> [] -> Forall (fun c => isSpace c = true) cur ->
  Z.of_nat (length (joinFields l)) < 2 ^ 32 -> parseStructFields (joinFields l) 0 cur = fieldText <$> l.
Proof.
  intros H. revert cur. induction H as [|f l [Hn Ht] Hl IH]; intros cur Hne Hcur Hb; [done|]. pose proof (fieldText_flat f Hn Ht) as Hf.
  destruct l as [|g l].
  - cbn [joinFields fmap list_fmap] in *. rewrite <- (app_nil_r (fieldText f)) at 1. rewrite parse_flat by done. cbn [parseStructFields].
    by rewrite ltrim_spaces.
  - change (joinFields (f :: g :: l)) with (fieldText f ++ comma :: space :: joinFields (g :: l)) in *.
    rewrite length_app in Hb. change (length (comma :: space :: joinFields (g :: l))) with (2 + length (joinFields (g :: l)))%nat in Hb.
    rewrite parse_flat by (done || lia).
    change (parseStructFields (comma :: space :: joinFields (g :: l)) 0 (rev (fieldText f) ++ cur))
      with (ltrim (rev (rev (fieldText f) ++ cur)) :: parseStructFields (joinFields (g :: l)) 0 [space]).
    rewrite ltrim_spaces by done. rewrite fmap_cons. f_equal. apply IH; [done|by repeat constructor|lia].
Qed.

Lemma parseFields_ok convert l ts :
  Forall2 (fun f t => goodName (fst f) /\ convert (snd f) = Ok t) l ts ->
  parseFields convert (fieldText <$> l) = Ok (zip (fst <$> l) ts).
Proof.
  induction 1 as [|f t l ts [[_ Hn] Ht] _ IH]; [done|]. rewrite !fmap_cons. cbn [parseFields].
  assert (find space (fieldText f) = Some (length (fst f))) as ->.
  { apply find_at. intros Hin. rewrite Forall_forall in Hn. apply Hn in Hin. destruct Hin as (_ & _ & _ & Hs). by vm_compute in Hs. }
  change (fieldText f) with (fst f ++ space :: snd f). rewrite take_app_length.
  replace (length (fst f) + 1)%nat with (length (fst f ++ [space])) by (rewrite length_app; done).
  change (fst f ++ space :: snd f) with (fst f ++ [space] ++ snd f). rewrite app_assoc, drop_app_length, Ht. cbn [obind].
  by rewrite IH.
Qed.

(** ** Reading what was printed *)

Section Roundtrip.
Context (context : Context).

Lemma startsWith_upper p s : getUpper p = p -> startsWith p (getUpper (p ++ s)) = true.
Proof. intros E. unfold startsWith. rewrite getUpper_app, E, take_app_length. by apply bool_decide_eq_true_2. Qed.

(** What ends with a closing parenthesis is neither a list nor an array. *)
Lemma endsWith_paren s : endsWith (str "[]") (getUpper (s ++ [rparen])) = false /\ endsWith (str "]") (getUpper (s ++ [rparen])) = false.
Proof.
  rewrite getUpper_app. change (getUpper [rparen]) with [rparen]. split.
  - unfold endsWith. apply bool_decide_eq_false_2. intros E. apply (f_equal last) in E.
    rewrite length_app in E. destruct (getUpper s) as [|c u] eqn:Eu; [by vm_compute in E|].
    rewrite drop_app_le in E by (cbn; lia). rewrite last_snoc in E. by vm_compute in E.
  - rewrite endsWith_app by done. by apply bool_decide_eq_false_2.
Qed.

Lemma convert_list convert s c : typeText s -> convert s = Ok c -> convertStep context convert (s ++ str "[]") = Ok (newList c).
Proof.
  intros [_ [(a & Ha & Ea) _]] Hc. unfold convertStep. cbv zeta. rewrite trim_tight by (by apply (tight_app _ _ a rbracket)).
  rewrite getUpper_app, endsWith_app, bool_decide_eq_true_2 by done. unfold parseListType. rewrite length_app.
  replace (length s + length (str "[]") - 2)%nat with (length s) by (cbn; lia). rewrite take_app_length, Hc. done.
Qed.

Lemma convert_array convert s c k :
  typeText s -> convert s = Ok c -> 1 <= k < 2 ^ 63 -> convertStep context convert (s ++ str "[" ++ to_string k ++ str "]") = Ok (newArray c k).
Proof.
  intros [_ [(a & Ha & Ea) _]] Hc Hk. destruct (to_string_shape k) as [Hd Hne]; [lia|].
  assert (Hlast : exists ds d, to_string k = ds ++ [d] /\ isDigitChar d).
  { destruct (to_string k) as [|d ds _] using rev_ind; [done|]. apply Forall_app in Hd as [_ Hd]. inversion Hd; eauto. }
  destruct Hlast as (ds & d & Eds & Hdd). destruct (digit_other d Hdd) as (D1 & _ & _ & _ & _ & _ & D2).
  set (text := s ++ str "[" ++ to_string k ++ str "]").
  assert (E1 : text = (s ++ str "[" ++ ds) ++ [d; rbracket]) by (unfold text; rewrite Eds, <- !app_assoc; done).
  assert (E2 : text = s ++ lbracket :: (to_string k ++ [rbracket])) by done.
  unfold convertStep. cbv zeta. rewrite trim_tight by (apply (tight_app _ _ a rbracket); try done; rewrite !last_app; done).
  assert (H1 : endsWith (str "[]") (getUpper text) = false).
  { rewrite E1, getUpper_app, endsWith_app by done. apply bool_decide_eq_false_2. cbn. rewrite D2. intros [= ->]. by destruct D1. }
  assert (H2 : endsWith (str "]") (getUpper text) = true).
  { rewrite E1, getUpper_app. change (getUpper [d; rbracket]) with ([toupper d] ++ str "]"). rewrite app_assoc, endsWith_app by done. by apply bool_decide_eq_true_2. }
  rewrite H1, H2. unfold parseArrayType. rewrite E2. rewrite findLast_at.
  2: { intros Hin. apply elem_of_app in Hin as [Hin|Hin]; [|apply list_elem_of_singleton in Hin; by vm_compute in Hin].
       rewrite Forall_forall in Hd. by destruct (digit_other _ (Hd _ Hin)) as (? & _). }
  rewrite take_app_length, Hc. cbn [obind].
  assert (findLast rbracket (s ++ lbracket :: to_string k ++ [rbracket]) = Some (length (s ++ lbracket :: to_string k))) as ->.
  { change (s ++ lbracket :: to_string k ++ [rbracket]) with (s ++ (lbracket :: to_string k) ++ [rbracket]). rewrite app_assoc. apply findLast_at. set_solver. }
  rewrite between_at, strtoll_to_string by lia. rewrite (proj2 (Z.leb_gt _ _)) by lia. done.
Qed.

Lemma brackets_found p body :
  lparen ∉ p ->
  find lparen (p ++ lparen :: body ++ [rparen]) = Some (length p) /\
  findLast rparen (p ++ lparen :: body ++ [rparen]) = Some (length (p ++ lparen :: body)) /\
  between (p ++ lparen :: body ++ [rparen]) (length p) (Some (length (p ++ lparen :: body))) = body.
Proof.
  intros Hp. split; [by apply find_at|]. split; [|apply between_at].
  change (p ++ lparen :: body ++ [rparen]) with (p ++ (lparen :: body) ++ [rparen]). rewrite app_assoc. apply findLast_at. set_solver.
Qed.

(** The case of [convertFromString] for a keyword in front of brackets. *)
Lemma convert_brackets convert p body c :
  head p = Some c -> isSpace c = false ->
  convertStep context convert (p ++ lparen :: body ++ [rparen]) =
    let s := p ++ lparen :: body ++ [rparen] in
    let upper := getUpper s in
    if startsWith (str "STRUCT") upper then parseStructType convert s
    else if startsWith (str "MAP") upper then parseMapType convert s
    else if startsWith (str "UNION") upper then parseUnionType convert s
    else if startsWith (str "DECIMAL") upper || startsWith (str "NUMERIC") upper then parseDecimalType s
    else convertStep context convert s.
Proof.
  intros Hc Ec. unfold convertStep. cbv zeta.
  assert (E : p ++ lparen :: body ++ [rparen] = (p ++ lparen :: body) ++ [rparen]) by (by rewrite <- app_assoc).
  rewrite trim_tight. 2: { rewrite E. apply (tight_app _ _ c rparen); try done. by apply head_app. }
  destruct (endsWith_paren (p ++ lparen :: body)) as [H1 H2]. rewrite <- E in H1, H2. rewrite H1, H2. repeat case_match; done.
Qed.

Lemma convert_fields convert p l ts :
  lparen ∉ p -> l <> [] -> Forall (fun f => typeText (snd f)) l -> Z.of_nat (length (joinFields l)) < 2 ^ 32 ->
  Forall2 (fun f t => goodName (fst f) /\ convert (snd f) = Ok t) l ts ->
  parseStructTypeInfo convert (p ++ lparen :: joinFields l ++ [rparen]) = Ok (zip (fst <$> l) ts).
Proof.
  intros Hp Hl Ht Hb Hts. unfold parseStructTypeInfo. destruct (brackets_found p (joinFields l) Hp) as (-> & -> & ->).
  rewrite split_fields; [by apply parseFields_ok| |done|constructor|done].
  clear -Ht Hts. induction Hts as [|f t l ts [Hn _] _ IH]; [constructor|]. inversion Ht; subst. constructor; [done|auto].
Qed.

Lemma convert_struct convert l ts :
  l <> [] -> Forall (fun f => typeText (snd f)) l -> Z.of_nat (length (joinFields l)) < 2 ^ 32 ->
  Forall2 (fun f t => goodName (fst f) /\ convert (snd f) = Ok t) l ts ->
  convertStep context convert (str "STRUCT(" ++ joinFields l ++ str ")") = Ok (newStruct (zip (fst <$> l) ts)).
Proof.
  intros. change (str "STRUCT(" ++ joinFields l ++ str ")") with (str "STRUCT" ++ lparen :: joinFields l ++ [rparen]).
  rewrite (convert_brackets _ _ _ "S"%char) by done. cbv zeta. rewrite startsWith_upper by done.
  unfold parseStructType. by rewrite (convert_fields _ _ l ts) by (done || by apply (bool_decide_unpack _)).
Qed.

Lemma convert_union convert l ts :
  l <> [] -> Forall (fun f => typeText (snd f)) l -> Z.of_nat (length (joinFields l)) < 2 ^ 32 ->
  Forall2 (fun f t => goodName (fst f) /\ convert (snd f) = Ok t) l ts ->
  convertStep context convert (str "UNION(" ++ joinFields l ++ str ")") = Ok (newUnion (zip (fst <$> l) ts)).
Proof.
  intros. change (str "UNION(" ++ joinFields l ++ str ")") with (str "UNION" ++ lparen :: joinFields l ++ [rparen]).
  rewrite (convert_brackets _ _ _ "U"%char) by done. cbv zeta.
  assert (startsWith (str "STRUCT") (getUpper (str "UNION" ++ lparen :: joinFields l ++ [rparen])) = false) as -> by (by apply bool_decide_eq_false_2).
  assert (startsWith (str "MAP") (getUpper (str "UNION" ++ lparen :: joinFields l ++ [rparen])) = false) as -> by (by apply bool_decide_eq_false_2).
  rewrite startsWith_upper by done.
  unfold parseUnionType. by rewrite (convert_fields _ _ l ts) by (done || by apply (bool_decide_unpack _)).
Qed.

Lemma convert_map convert k v tk tv :
  typeText k -> Z.of_nat (length k) < 2 ^ 32 -> convert k = Ok tk -> convert (space :: v) = Ok tv ->
  convertStep context convert (str "MAP(" ++ k ++ str ", " ++ v ++ str ")") = Ok (newMap tk tv).
Proof.
  intros [Hf _] Hb Hk Hv. set (body := k ++ comma :: space :: v).
  replace (str "MAP(" ++ k ++ str ", " ++ v ++ str ")") with (str "MAP" ++ lparen :: body ++ [rparen]) by (unfold body; rewrite <- !app_assoc; done).
  rewrite (convert_brackets _ _ _ "M"%char) by done. cbv zeta.
  assert (startsWith (str "STRUCT") (getUpper (str "MAP" ++ lparen :: body ++ [rparen])) = false) as -> by (by apply bool_decide_eq_false_2).
  rewrite startsWith_upper by done. unfold parseMapType.
  destruct (brackets_found (str "MAP") body) as (-> & -> & ->); [by apply (bool_decide_unpack _)|]. unfold body. rewrite split_flat by done.
  change (splitComma (comma :: space :: v) 0 (rev k ++ [])) with (rev (rev k ++ []), space :: v). rewrite app_nil_r, rev_involutive, Hk, Hv. done.
Qed.

(** Leading space does not matter. *)
Lemma convert_space fuel s : tight s -> convertFromString context fuel (space :: s) = convertFromString context fuel s.
Proof.
  intros Hs. destruct fuel as [|fuel]; [done|]. cbn [convertFromString]. unfold convertStep.
  assert (trim (space :: s) = trim s) as ->; [|done].
  rewrite (trim_tight s Hs). destruct Hs as [(c & Hc & Ec) (d & Hd & Ed)].
  unfold trim, rtrim, ltrim. rewrite (skipSpaces_head (rev (space :: s)) d), rev_involutive; [cbn; by apply (skipSpaces_head s c)| |done].
  apply last_Some in Hd as (l & ->). change (space :: l ++ [d]) with ((space :: l) ++ [d]). by rewrite rev_app_distr.
Qed.

Definition decimalText (p s : Z) : name := str "DECIMAL(" ++ to_string p ++ str ", " ++ to_string s ++ str ")".
Definition decimalRead (p s : Z) : bool :=
  bool_decide (level 0 (decimalText p s) = Some 0%nat) &&
  match parseDecimalType (decimalText p s) with
  | Ok (mkLogicalType id q (Some (DecimalTypeInfo p' s'))) =>
      bool_decide (id = ID.DECIMAL) && bool_decide (Ok q = getPhysicalType ID.DECIMAL (Some (DecimalTypeInfo p s))) && (p' =? p) && (s' =? s)
  | _ => false
  end.

Lemma decimals_read p s : 1 <= p <= 38 -> 0 <= s <= p -> decimalRead p s = true.
Proof.
  intros Hp Hs. assert (H : forallb (fun p => forallb (fun s => decimalRead (Z.of_nat p) (Z.of_nat s)) (seq 0 (S p))) (seq 1 38) = true) by (by vm_compute).
  rewrite forallb_forall in H. specialize (H (Z.to_nat p)). rewrite forallb_forall in H.
  specialize (H ltac:(apply in_seq; lia) (Z.to_nat s) ltac:(apply in_seq; lia)). by rewrite !Z2Nat.id in H by lia.
Qed.

Lemma convert_decimal convert p s t :
  1 <= p <= 38 -> 0 <= s <= p -> DECIMAL p s = Ok t -> flat (decimalText p s) /\ convertStep context convert (decimalText p s) = Ok t.
Proof.
  intros Hp Hs Ht. pose proof (decimals_read p s Hp Hs) as H. unfold decimalRead in H. apply andb_true_iff in H as [H1 H2].
  split; [by apply bool_decide_eq_true_1 in H1|]. clear H1. set (body := to_string p ++ str ", " ++ to_string s).
  assert (E : decimalText p s = str "DECIMAL" ++ lparen :: body ++ [rparen]) by (unfold decimalText, body; rewrite <- !app_assoc; done).
  rewrite E in *. rewrite (convert_brackets _ _ _ "D"%char) by done. cbv zeta.
  assert (forall x, x ∈ ["STRUCT"; "MAP"; "UNION"]%string -> startsWith (str x) (getUpper (str "DECIMAL" ++ lparen :: body ++ [rparen])) = false) as Hno.
  { intros x Hx. rewrite !elem_of_cons, elem_of_nil in Hx. destruct Hx as [-> | [-> | [-> | []]]]; by apply bool_decide_eq_false_2. }
  rewrite !Hno by (by apply (bool_decide_unpack _)). rewrite startsWith_upper by done. cbn [orb].
  destruct (parseDecimalType _) as [[id q [[p' s'| | |]|]]|]; try done. rewrite !andb_true_iff, !bool_decide_eq_true, !Z.eqb_eq in H2.
  destruct H2 as [[[-> Hq] ->] ->]. unfold DECIMAL, newTypeWith in Ht. rewrite <- Hq in Ht. done.
Qed.
End Roundtrip.

(** ** The types that can be written down *)

Definition isSimple (id : LogicalTypeID) : bool :=
  bool_decide (tryGetIDFromString (idToString id) = Some id) && negb (bool_decide (id = ID.DECIMAL)).

(** Nested as deep as one likes; the fields of structs and unions need at least one field and
    names without space, comma and parenthesis. *)
#[warnings="-register-all"]
Inductive printable : LogicalType -> Prop :=
| printable_simple id p : isSimple id = true -> getPhysicalType id None = Ok p -> printable (mkLogicalType id p None)
| printable_rdf : printable RDF_VARIANT
| printable_decimal p s t : 1 <= p <= 38 -> 0 <= s <= p -> DECIMAL p s = Ok t -> printable t
| printable_list c : printable c -> printable (newList c)
| printable_array c k : printable c -> 1 <= k < 2 ^ 63 -> printable (newArray c k)
| printable_map k v : printable k -> printable v -> printable (newMap k v)
| printable_struct fs : fs <> [] -> Forall goodName (fst <$> fs) -> Forall printable (snd <$> fs) -> printable (newStruct fs)
| printable_union fs : fs <> [] -> Forall goodName (fst <$> fs) -> Forall printable (snd <$> fs) -> printable (newUnion fs).

Lemma simple_text id : isSimple id = true -> typeText (idToString id) /\ (forall p, toString (mkLogicalType id p None) = Ok (idToString id)).
Proof.
  intros H. split; [|intros p; by destruct id].
  assert (C : bool_decide (level 0 (idToString id) = Some 0%nat) &&
    match head (idToString id), last (idToString id) with Some c, Some d => negb (isSpace c) && negb (isSpace d) | _, _ => false end = true)
    by (destruct id; by vm_compute).
  apply andb_true_iff in C as [C1 C2]. split; [by apply bool_decide_eq_true_1 in C1|]. unfold tight.
  destruct (head _), (last _); try done. apply andb_true_iff in C2 as [C2 C3]. apply negb_true_iff in C2, C3.
  split; eexists; (split; [reflexivity|done]).
Qed.

Lemma convert_simple context convert id p :
  isSimple id = true -> getPhysicalType id None = Ok p -> convertStep context convert (idToString id) = Ok (mkLogicalType id p None).
Proof. intros H Hp. destruct id; try discriminate H; injection Hp as <-; reflexivity. Qed.

Lemma level_join l :
  Forall (fun f => goodName (fst f) /\ typeText (snd f)) l -> level 1 (joinFields l) = Some 1%nat.
Proof.
  assert (Hf : forall f, goodName (fst f) /\ typeText (snd f) -> level 1 (fieldText f) = Some 1%nat).
  { intros f [Hn Ht]. exact (level_deeper 0 0 1 _ (fieldText_flat f Hn Ht)). }
  induction 1 as [|f l H _ IH]; [done|]. destruct l as [|g l]; [by apply Hf|].
  change (joinFields (f :: g :: l)) with (fieldText f ++ str ", " ++ joinFields (g :: l)). rewrite level_app, Hf by done.
  by rewrite level_app.
Qed.

Lemma brackets_text p body c :
  Forall (fun c => c <> lparen /\ c <> rparen /\ c <> comma) p -> head p = Some c -> isSpace c = false -> level 1 body = Some 1%nat ->
  typeText (p ++ lparen :: body ++ [rparen]).
Proof.
  intros Hp Hc Ec Hb. split; [by apply flat_brackets|].
  change (p ++ lparen :: body ++ [rparen]) with (p ++ (lparen :: body) ++ [rparen]). rewrite app_assoc. apply (tight_app _ _ c rparen); try done. by apply head_app.
Qed.

Lemma list_text s : typeText s -> typeText (s ++ str "[]").
Proof. intros [Hf [(c & Hc & Ec) _]]. split; [apply flat_app; [done|by vm_compute]|by apply (tight_app _ _ c rbracket)]. Qed.
Lemma array_text s k : typeText s -> 0 <= k < 2 ^ 64 -> typeText (s ++ str "[" ++ to_string k ++ str "]").
Proof.
  intros [Hf [(c & Hc & Ec) _]] Hk. destruct (to_string_shape k Hk) as [Hd _]. split.
  - apply flat_app; [done|]. apply flat_app; [by vm_compute|]. apply flat_app; [|by vm_compute]. apply level_plain. eapply Forall_impl; [exact Hd|].
    intros d Hd'. destruct (digit_other d Hd') as (_ & _ & ? & ? & ? & _). done.
  - apply (tight_app _ _ c rbracket); try done. rewrite !last_app. done.
Qed.

(** What [toString] prints of a type, and that it is read back. *)
Definition readBack (t : LogicalType) (s : name) : Prop :=
  toString t = Ok s /\ typeText s /\
  (Z.of_nat (length s) < 2 ^ 32 -> forall context fuel, (length s < fuel)%nat -> convertFromString context fuel s = Ok t).

Lemma joinFields_length l f : f ∈ l -> (length (snd f) <= length (joinFields l))%nat.
Proof.
  induction l as [|g l IH]; intros Hf; [by apply elem_of_nil in Hf|]. destruct l as [|h l].
  - apply list_elem_of_singleton in Hf as ->. unfold joinFields, fieldText. rewrite !length_app. lia.
  - change (joinFields (g :: h :: l)) with (fieldText g ++ str ", " ++ joinFields (h :: l)). rewrite !length_app.
    apply elem_of_cons in Hf as [->|Hf]; [unfold fieldText; rewrite !length_app; lia|]. specialize (IH Hf). lia.
Qed.

(** Printing and reading the fields of a struct or union. *)
Lemma fields_back last fs :
  Forall goodName (fst <$> fs) -> Forall (fun t => exists s, readBack t s) (snd <$> fs) -> fs <> [] ->
  exists l, printFields toString last fs = Ok (joinFields l ++ last) /\ l <> [] /\
    Forall (fun f => goodName (fst f) /\ typeText (snd f)) l /\ fst <$> l = fst <$> fs /\
    Forall2 (fun f t => readBack t (snd f)) l (snd <$> fs).
Proof.
  induction fs as [|[n t] fs IH]; intros Hn Ht Hne; [done|]. rewrite !fmap_cons in *. inversion Hn as [|? ? Hn1 Hn2]; subst.
  inversion Ht as [|? ? [s Hs] Ht2]; subst. cbn [fst snd] in *. destruct fs as [|g fs].
  - exists [(n, s)]. cbn [printFields fst snd]. rewrite (proj1 Hs). cbn [obind].
    split; [unfold joinFields, fieldText; cbn [fst snd]; rewrite <- !app_assoc, app_nil_r; done|]. split; [done|].
    split; [constructor; [|constructor]; split; [done|apply Hs]|]. split; [done|]. constructor; [done|constructor].
  - destruct (IH Hn2 Ht2 ltac:(done)) as (l & Hp & Hl & Hg & Hnm & H2). exists ((n, s) :: l). destruct l as [|h l]; [done|].
    split.
    + change (printFields toString last ((n, t) :: g :: fs)) with
        (let* u := toString t in let* rest := printFields toString last (g :: fs) in Ok (n ++ str " " ++ u ++ str ", " ++ rest)).
      rewrite (proj1 Hs), Hp. cbn [obind].
      change (joinFields ((n, s) :: h :: l)) with ((n ++ str " " ++ s) ++ str ", " ++ joinFields (h :: l)). by rewrite <- !app_assoc.
    + split; [done|]. split; [constructor; [split; [done|apply Hs]|done]|]. split; [rewrite fmap_cons; cbn [fst]; by rewrite Hnm|]. by constructor.
Qed.

(** The types of the fields, read from their texts. *)
Lemma fields_converted l ts context fuel :
  Forall2 (fun f t => readBack t (snd f)) l ts -> Forall (fun f => goodName (fst f) /\ typeText (snd f)) l ->
  Z.of_nat (length (joinFields l)) < 2 ^ 32 -> (length (joinFields l) < fuel)%nat ->
  Forall2 (fun f t => goodName (fst f) /\ convertFromString context fuel (snd f) = Ok t) l ts.
Proof.
  intros H2 Hg Hb Hf. assert (Hlen : forall f, f ∈ l -> (length (snd f) <= length (joinFields l))%nat) by (intros; by apply joinFields_length).
  revert Hlen. generalize (joinFields l), Hb, Hf. clear Hb Hf. intros J Hb Hf.
  induction H2 as [|f t l ts (_ & _ & Hr) _ IH]; intros Hlen; [constructor|]. inversion Hg as [|? ? [Hn _] Hg']; subst.
  pose proof (Hlen f ltac:(left)). constructor; [split; [done|apply Hr; lia]|]. apply IH; [done|]. intros g Hin. apply Hlen. by right.
Qed.

Lemma zip_fields (fs : list (name * LogicalType)) l : fst <$> l = fst <$> fs -> zip (@fst name name <$> l) (snd <$> fs) = fs.
Proof. intros ->. induction fs as [|[n t] fs IH]; [done|]. cbn. by f_equal. Qed.

(** *** One lemma per form of type *)

Lemma back_simple id p : isSimple id = true -> getPhysicalType id None = Ok p -> readBack (mkLogicalType id p None) (idToString id).
Proof.
  intros Hs Hp. destruct (simple_text id Hs) as [Ht Hpr]. split; [done|]. split; [done|].
  intros _ context [|fuel] Hf; [lia|]. by apply convert_simple.
Qed.

Lemma back_rdf : readBack RDF_VARIANT (str "RDF_VARIANT").
Proof.
  split; [done|]. split; [split; [by vm_compute|]; split; eexists; (split; [vm_compute; reflexivity|by vm_compute])|].
  intros _ context [|fuel] Hf; [lia|]. reflexivity.
Qed.

Lemma back_decimal p s t : 1 <= p <= 38 -> 0 <= s <= p -> DECIMAL p s = Ok t -> readBack t (decimalText p s).
Proof.
  intros Hp Hs Ht. destruct (wellFormed_decimal p s Hp Hs) as (t' & Ht' & _ & Hid & He). assert (t' = t) as -> by congruence.
  split; [destruct t; cbn in *; subst; done|]. split.
  - split; [by destruct (convert_decimal None (fun _ => Err UndefinedBehaviour) p s t Hp Hs Ht)|].
    unfold decimalText. rewrite !app_assoc. apply (tight_app _ _ "D"%char rparen); done.
  - intros _ context [|fuel] Hf; [lia|]. by apply convert_decimal.
Qed.

Lemma back_list c s : readBack c s -> readBack (newList c) (s ++ str "[]").
Proof.
  intros (Hs & Ht & Hr). split; [cbn; by rewrite Hs|]. split; [by apply list_text|]. rewrite length_app.
  intros Hb context [|fuel] Hf; [lia|]. apply convert_list; [done|]. apply Hr; cbn in Hf; lia.
Qed.

Lemma back_array c s k : readBack c s -> 1 <= k < 2 ^ 63 -> readBack (newArray c k) (s ++ str "[" ++ to_string k ++ str "]").
Proof.
  intros (Hs & Ht & Hr) Hk. split; [cbn [toString typeID newArray extraTypeInfo]; by rewrite Hs|]. split; [apply array_text; [done|lia]|].
  rewrite !length_app. intros Hb context [|fuel] Hf; [lia|]. apply convert_array; [done| |lia]. apply Hr; cbn in Hf; lia.
Qed.

Lemma back_map k v s u : readBack k s -> readBack v u -> readBack (newMap k v) (str "MAP(" ++ s ++ str ", " ++ u ++ str ")").
Proof.
  intros (Hs & Ht & Hr) (Hu & Htu & Hru).
  split; [cbn [toString typeID newMap newStruct extraTypeInfo map snd]; rewrite decide_True, Hs, Hu by done; done|]. split.
  - replace (str "MAP(" ++ s ++ str ", " ++ u ++ str ")") with (str "MAP" ++ lparen :: (s ++ str ", " ++ u) ++ [rparen]) by (rewrite <- !app_assoc; done).
    apply (brackets_text _ _ "M"%char); try done; [repeat constructor; done|].
    pose proof (level_deeper 0 0 1 s (proj1 Ht)) as Ls. pose proof (level_deeper 0 0 1 u (proj1 Htu)) as Lu. cbn in Ls, Lu.
    rewrite level_app, Ls, level_app. exact Lu.
  - rewrite !length_app. intros Hb context [|fuel] Hf; [lia|]. change (length (str "MAP(")) with 4%nat in *.
    apply convert_map; [done|lia| |]; [apply Hr; lia|]. rewrite convert_space by apply Htu. apply Hru; lia.
Qed.

Lemma back_struct fs :
  fs <> [] -> Forall goodName (fst <$> fs) -> Forall (fun t => exists s, readBack t s) (snd <$> fs) -> exists s, readBack (newStruct fs) s.
Proof.
  intros Hne Hg Hb. destruct (fields_back [] fs) as (l & Hpf & Hl & Hgl & Hnm & H2); try done. rewrite app_nil_r in Hpf.
  exists (str "STRUCT(" ++ joinFields l ++ str ")"). split; [cbn [toString typeID newStruct extraTypeInfo]; by rewrite Hpf|]. split.
  - apply (brackets_text (str "STRUCT") _ "S"%char); try done; [repeat constructor; done|by apply level_join].
  - rewrite !length_app. intros Hlen context [|fuel] Hf; [lia|]. change (length (str "STRUCT(")) with 7%nat in *.
    rewrite <- (zip_fields fs l Hnm). cbn [convertFromString]. apply convert_struct; [done| |lia|]; [eapply Forall_impl; [exact Hgl|]; cbn; tauto|].
    apply fields_converted; (done || lia).
Qed.

Lemma back_union fs :
  fs <> [] -> Forall goodName (fst <$> fs) -> Forall (fun t => exists s, readBack t s) (snd <$> fs) -> exists s, readBack (newUnion fs) s.
Proof.
  intros Hne Hg Hb. destruct (fields_back (str ")") fs) as (l & Hpf & Hl & Hgl & Hnm & H2); try done.
  exists (str "UNION(" ++ joinFields l ++ str ")"). split; [cbn [toString typeID newUnion extraTypeInfo]; by rewrite Hpf|]. split.
  - apply (brackets_text (str "UNION") _ "U"%char); try done; [repeat constructor; done|by apply level_join].
  - rewrite !length_app. intros Hlen context [|fuel] Hf; [lia|]. change (length (str "UNION(")) with 6%nat in *.
    rewrite <- (zip_fields fs l Hnm). cbn [convertFromString]. apply convert_union; [done| |lia|]; [eapply Forall_impl; [exact Hgl|]; cbn; tauto|].
    apply fields_converted; (done || lia).
Qed.

Lemma printable_back t : printable t -> exists s, readBack t s.
Proof.
  remember (height t) as n eqn:Hn. revert t Hn. induction n as [n IH] using lt_wf_ind. intros t -> Hp.
  assert (Hchild : forall c, (height c < height t)%nat -> printable c -> exists s, readBack c s) by (intros c Hc; by apply (IH (height c))). clear IH.
  destruct Hp as [id p Hs Hph| |p s t Hp Hs Ht|c Hc|c k Hc Hk|k v Hk Hv|fs Hne Hg Hpr|fs Hne Hg Hpr].
  - eexists. by apply back_simple.
  - eexists. apply back_rdf.
  - eexists. by apply back_decimal.
  - destruct (Hchild c ltac:(cbn; lia) Hc) as [s Hs]. eexists. by apply back_list.
  - destruct (Hchild c ltac:(cbn; lia) Hc) as [s Hs]. eexists. by apply back_array.
  - destruct (Hchild k ltac:(cbn; lia) Hk) as [s Hs]. destruct (Hchild v ltac:(cbn; lia) Hv) as [u Hu]. eexists. by apply back_map.
  - apply back_struct; [done|done|]. rewrite Forall_forall in *. intros c Hc. apply Hchild; [by apply (height_child (newStruct fs))|auto].
  - apply back_union; [done|done|]. rewrite Forall_forall in *. intros c Hc. apply Hchild; [|auto].
    apply (height_child (newUnion fs)). cbn [newUnion extraTypeInfo childTypes]. rewrite fmap_cons. by right.
Qed.

(** C30. What is printed as a type is read as the same type: every type that can be written down,
    however nested, is printed, and [convertFromString] reads the text back as exactly that
    type, in every catalog, with recursion no deeper than the text is long. *)
Theorem types_text_roundtrip t :
  printable t ->
  exists s, toString t = Ok s /\
    (Z.of_nat (length s) < 2 ^ 32 -> forall context fuel, (length s < fuel)%nat -> convertFromString context fuel s = Ok t).
Proof. intros (s & Hs & _ & Hr)%printable_back. by exists s. Qed.

Lemma exType_printable : printable exType.
Proof.
  apply printable_struct; [done|by repeat constructor|]. constructor; [|constructor; [|constructor]].
  - apply printable_array; [by apply printable_simple|lia].
  - apply printable_map; [by apply printable_simple|]. by apply (printable_decimal 10 2); [lia|lia|].
Qed.

Lemma types_text_roundtrip_witness :
  exists s, toString exType = Ok s /\
    (Z.of_nat (length s) < 2 ^ 32 -> forall context fuel, (length s < fuel)%nat -> convertFromString context fuel s = Ok exType).
Proof. apply types_text_roundtrip. apply exType_printable. Defined.

(** ** What is not read back *)

(** A closing bracket without an opening one: the recursive call gets the same text, and the
    recursion does not end. *)
Theorem unmatched_bracket_never_ends context fuel : convertFromString context fuel (str "INT64]") = Err UndefinedBehaviour.
Proof.
  induction fuel as [|fuel IH]; [done|]. cbn [convertFromString].
  change (convertStep context (convertFromString context fuel) (str "INT64]"))
    with (let* c := convertFromString context fuel (str "INT64]") in
          let count := strtoll (str "INT64") in
          if count <=? 0 then Err (BinderException "The number of elements in an array must be greater than 0.") else Ok (newArray c count)).
  by rewrite IH.
Qed.

(** A name that starts with DECIMAL is the type DECIMAL(18, 3), also if the catalog has a type of
    that name. *)
Example decimal_prefix_shadows_type :
  convertFromString (Some (fun _ => Ok RDF_VARIANT)) 40 (str "decimal_price") = DECIMAL 18 3.
Proof. reflexivity. Qed.

(** Array sizes with a leading zero are octal. *)
Example octal_array : convertFromString None 40 (str "INT64[010]") = Ok (newArray (mkLogicalType ID.INT64 INT64 None) 8).
Proof. by vm_compute. Qed.

(** A union without fields is printed without its closing bracket. *)
Example empty_union_unclosed : shown (toString (newUnion [])) = "UNION("%string.
Proof. reflexivity. Qed.
