(* ===== verification/TypeJoin.v ===== *)
(** * The common type of two types (src/common/types/types.cpp,
      src/function/built_in_function_utils.cpp)

    Expressions of different types are cast to a common one, which [tryGetMaxLogicalType] finds;
    [combineTypes] is the variant for schemas that are sniffed from files, which falls back to
    STRING.  Both follow the nesting of the two types; their recursion is bounded by fuel. *)

From Stdlib Require Import Ascii.
From stdpp Require Import base numbers strings list sets.
From S2P Require Import Prelude Serializer DateText Compression LogicalType TypeText.
Local Open Scope Z_scope.

(** ** The cost of an implicit cast *)

Definition UNDEFINED_CAST_COST : Z := 2 ^ 32 - 1.

Definition getTargetTypeCost (id : LogicalTypeID) : Z :=
  match id with
  | ID.SERIAL | ID.INT16 => 100
  | ID.INT64 => 101
  | ID.INT32 => 102
  | ID.INT128 => 103
  | ID.DECIMAL => 104
  | ID.DOUBLE => 105
  | ID.TIMESTAMP => 120
  | ID.STRING => 149
  | ID.STRUCT | ID.MAP | ID.ARRAY | ID.LIST | ID.UNION => 160
  | ID.RDF_VARIANT => 170
  | _ => 110
  end.

Definition castInt64 (t : LogicalTypeID) : Z :=
  match t with
  | ID.INT128 | ID.FLOAT | ID.DOUBLE | ID.DECIMAL => getTargetTypeCost t
  | ID.SERIAL => 0
  | _ => UNDEFINED_CAST_COST
  end.
Definition castInt32 (t : LogicalTypeID) : Z :=
  match t with
  | ID.SERIAL | ID.INT64 | ID.INT128 | ID.FLOAT | ID.DOUBLE | ID.DECIMAL => getTargetTypeCost t
  | _ => UNDEFINED_CAST_COST
  end.
Definition castInt16 (t : LogicalTypeID) : Z :=
  match t with
  | ID.SERIAL | ID.INT32 | ID.INT64 | ID.INT128 | ID.FLOAT | ID.DOUBLE | ID.DECIMAL => getTargetTypeCost t
  | _ => UNDEFINED_CAST_COST
  end.
Definition castInt8 (t : LogicalTypeID) : Z :=
  match t with
  | ID.SERIAL | ID.INT16 | ID.INT32 | ID.INT64 | ID.INT128 | ID.FLOAT | ID.DOUBLE | ID.DECIMAL => getTargetTypeCost t
  | _ => UNDEFINED_CAST_COST
  end.
Definition castUInt64 (t : LogicalTypeID) : Z :=
  match t with
  | ID.INT128 | ID.FLOAT | ID.DOUBLE | ID.DECIMAL => getTargetTypeCost t
  | _ => UNDEFINED_CAST_COST
  end.
Definition castUInt32 (t : LogicalTypeID) : Z :=
  match t with
  | ID.SERIAL | ID.INT64 | ID.INT128 | ID.UINT64 | ID.FLOAT | ID.DOUBLE | ID.DECIMAL => getTargetTypeCost t
  | _ => UNDEFINED_CAST_COST
  end.
Definition castUInt16 (t : LogicalTypeID) : Z :=
  match t with
  | ID.INT32 | ID.SERIAL | ID.INT64 | ID.INT128 | ID.UINT32 | ID.UINT64 | ID.FLOAT | ID.DOUBLE | ID.DECIMAL => getTargetTypeCost t
  | _ => UNDEFINED_CAST_COST
  end.
Definition castUInt8 (t : LogicalTypeID) : Z :=
  match t with
  | ID.INT16 | ID.INT32 | ID.SERIAL | ID.INT64 | ID.INT128 | ID.UINT16 | ID.UINT32 | ID.UINT64 | ID.FLOAT | ID.DOUBLE | ID.DECIMAL => getTargetTypeCost t
  | _ => UNDEFINED_CAST_COST
  end.
Definition castInt128 (t : LogicalTypeID) : Z :=
  match t with
  | ID.FLOAT | ID.DOUBLE | ID.DECIMAL => getTargetTypeCost t
  | _ => UNDEFINED_CAST_COST
  end.
Definition castUUID (t : LogicalTypeID) : Z := match t with ID.STRING => getTargetTypeCost t | _ => UNDEFINED_CAST_COST end.
Definition castDouble (t : LogicalTypeID) : Z := UNDEFINED_CAST_COST.
Definition castFloat (t : LogicalTypeID) : Z := match t with ID.DOUBLE => getTargetTypeCost t | _ => UNDEFINED_CAST_COST end.
Definition castDecimal (t : LogicalTypeID) : Z := match t with ID.FLOAT | ID.DOUBLE => getTargetTypeCost t | _ => UNDEFINED_CAST_COST end.
Definition castDate (t : LogicalTypeID) : Z := match t with ID.TIMESTAMP => getTargetTypeCost t | _ => UNDEFINED_CAST_COST end.
Definition castSerial (t : LogicalTypeID) : Z := match t with ID.INT64 => 0 | _ => UNDEFINED_CAST_COST end.
Definition castTimestamp (t : LogicalTypeID) : Z := match t with ID.TIMESTAMP => getTargetTypeCost t | _ => UNDEFINED_CAST_COST end.
Definition castFromString (input : LogicalTypeID) : Z :=
  match input with
  | ID.BLOB | ID.INTERNAL_ID | ID.NODE | ID.REL | ID.RECURSIVE_REL => UNDEFINED_CAST_COST
  | _ => getTargetTypeCost ID.STRING
  end.
Definition castFromRDFVariant (input : LogicalTypeID) : Z :=
  match input with
  | ID.STRUCT | ID.LIST | ID.ARRAY | ID.UNION | ID.MAP | ID.NODE | ID.REL | ID.RECURSIVE_REL | ID.RDF_VARIANT => UNDEFINED_CAST_COST
  | _ => getTargetTypeCost ID.RDF_VARIANT
  end.
Definition castList (t : LogicalTypeID) : Z := match t with ID.ARRAY => getTargetTypeCost t | _ => UNDEFINED_CAST_COST end.
Definition castArray (t : LogicalTypeID) : Z := match t with ID.LIST => getTargetTypeCost t | _ => UNDEFINED_CAST_COST end.

Definition getCastCost (input target : LogicalTypeID) : Z :=
  if decide (input = target) then 0
  else if decide (input = ID.ANY \/ target = ID.ANY \/ input = ID.RDF_VARIANT) then 1
  else if decide (target = ID.RDF_VARIANT) then castFromRDFVariant input
  else if decide (target = ID.STRING) then castFromString input
  else match input with
       | ID.INT64 => castInt64 target
       | ID.INT32 => castInt32 target
       | ID.INT16 => castInt16 target
       | ID.INT8 => castInt8 target
       | ID.UINT64 => castUInt64 target
       | ID.UINT32 => castUInt32 target
       | ID.UINT16 => castUInt16 target
       | ID.UINT8 => castUInt8 target
       | ID.INT128 => castInt128 target
       | ID.DOUBLE => castDouble target
       | ID.FLOAT => castFloat target
       | ID.DECIMAL => castDecimal target
       | ID.DATE => castDate target
       | ID.UUID => castUUID target
       | ID.SERIAL => castSerial target
       | ID.TIMESTAMP_SEC | ID.TIMESTAMP_MS | ID.TIMESTAMP_NS | ID.TIMESTAMP_TZ => castTimestamp target
       | ID.LIST => castList target
       | ID.ARRAY => castArray target
       | _ => UNDEFINED_CAST_COST
       end.

(** ** The common identifier *)

Definition joinToWiderType (a b : LogicalTypeID) : outcome LogicalTypeID :=
  if negb (isIntegral a && isIntegral b) then Err InternalException
  else
    let* pa := getPhysicalType a None in let* pb := getPhysicalType b None in
    let* sa := getFixedTypeSize pa in let* sb := getFixedTypeSize pb in
    Ok (if sb <? sa then a else b).

Definition tryUnsignedToSigned (input : LogicalTypeID) : option LogicalTypeID :=
  match input with
  | ID.UINT8 => Some ID.INT16
  | ID.UINT16 => Some ID.INT32
  | ID.UINT32 => Some ID.INT64
  | ID.UINT64 => Some ID.INT128
  | _ => None
  end.

Definition joinDifferentSignIntegrals (signedType unsignedType : LogicalTypeID) : outcome LogicalTypeID :=
  match tryUnsignedToSigned unsignedType with
  | None => Ok ID.DOUBLE
  | Some unsignedToSigned => joinToWiderType signedType unsignedToSigned
  end.

Definition internalTimeOrder (id : LogicalTypeID) : Z :=
  match id with
  | ID.DATE => 50 | ID.TIMESTAMP_SEC => 51 | ID.TIMESTAMP_MS => 52 | ID.TIMESTAMP => 53 | ID.TIMESTAMP_TZ => 54 | ID.TIMESTAMP_NS => 55
  | _ => 0
  end.
Definition alwaysCastOrder (id : LogicalTypeID) : Z := match id with ID.ANY => 0 | ID.RDF_VARIANT => 1 | ID.STRING => 2 | _ => -1 end.
Definition canAlwaysCast (id : LogicalTypeID) : bool := match id with ID.ANY | ID.STRING | ID.RDF_VARIANT => true | _ => false end.

Definition tryGetMaxLogicalTypeID (a b : LogicalTypeID) : outcome (option LogicalTypeID) :=
  if canAlwaysCast a && canAlwaysCast b then Ok (Some (if alwaysCastOrder b <? alwaysCastOrder a then a else b))
  else if bool_decide (a = b) || canAlwaysCast a then Ok (Some b)
  else if canAlwaysCast b then Ok (Some a)
  else if negb ((getCastCost a b =? UNDEFINED_CAST_COST) && (getCastCost b a =? UNDEFINED_CAST_COST)) then
    Ok (Some (if getCastCost a b <? getCastCost b a then b else a))
  else if isIntegral a && isIntegral b && isUnsigned a && negb (isUnsigned b) then let* id := joinDifferentSignIntegrals b a in Ok (Some id)
  else if isIntegral a && isIntegral b && isUnsigned b && negb (isUnsigned a) then let* id := joinDifferentSignIntegrals a b in Ok (Some id)
  else if negb (internalTimeOrder a =? 0) && negb (internalTimeOrder b =? 0) then
    Ok (Some (if internalTimeOrder b <? internalTimeOrder a then a else b))
  else Ok None.

(** ** The common type *)

Definition isSemanticallyNested (id : LogicalTypeID) : bool := isNested id && negb (bool_decide (id = ID.RDF_VARIANT)).
Definition DECIMAL_PRECISION_LIMIT : Z := 38.

Definition tryCombineDecimalTypes (l r : LogicalType) : outcome (option LogicalType) :=
  let* pl := getPrecision l in let* sl := getScale l in
  let* pr := getPrecision r in let* sr := getScale r in
  let scale := Z.max sl sr in
  let precision := wrapU 32 (Z.max (wrapU 32 (pl - sl)) (wrapU 32 (pr - sr)) + scale) in
  if DECIMAL_PRECISION_LIMIT <? precision then let* t := newType ID.DOUBLE in Ok (Some t)
  else let* t := DECIMAL precision scale in Ok (Some t).

(** [NumericLimits<T>::digits()]. *)
Definition requiredDigits (id : LogicalTypeID) : Z :=
  match id with
  | ID.INT8 | ID.UINT8 => 3
  | ID.INT16 | ID.UINT16 => 5
  | ID.INT32 | ID.UINT32 => 10
  | ID.INT64 => 19
  | ID.UINT64 => 20
  | ID.INT128 => 39
  | _ => DECIMAL_PRECISION_LIMIT + 1
  end.

Definition tryCombineDecimalWithNumeric (dec nonDec : LogicalType) : outcome (option LogicalType) :=
  let* precision := getPrecision dec in let* scale := getScale dec in
  let digits := requiredDigits (typeID nonDec) in
  if DECIMAL_PRECISION_LIMIT <? wrapU 32 (digits + scale) then let* t := newType ID.DOUBLE in Ok (Some t)
  else let* t := DECIMAL (Z.max (wrapU 32 (digits + scale)) precision) scale in Ok (Some t).

Section Combine.
(** The recursive call. *)
Variable tryMax : LogicalType -> LogicalType -> outcome (option LogicalType).

Definition tryCombineListTypes (l r : LogicalType) : outcome (option LogicalType) :=
  let* cl := listChild l in let* cr := listChild r in
  let* c := tryMax cl cr in Ok (newList <$> c).

Definition tryCombineArrayTypes (l r : LogicalType) : outcome (option LogicalType) :=
  let* kl := getNumElements l in let* kr := getNumElements r in
  if negb (kl =? kr) then tryCombineListTypes l r
  else
    let* cl := arrayChild l in let* cr := arrayChild r in
    let* c := tryMax cl cr in Ok ((fun c => newArray c kl) <$> c).

Definition tryCombineListArrayTypes (l r : LogicalType) : outcome (option LogicalType) :=
  let* cl := listChild l in let* cr := arrayChild r in
  let* c := tryMax cl cr in Ok (newList <$> c).

Fixpoint tryCombineFields (fs gs : list (name * LogicalType)) : outcome (option (list (name * LogicalType))) :=
  match fs, gs with
  | f :: fs, g :: gs =>
      if decide (fst f = fst g) then
        let* t := tryMax (snd f) (snd g) in
        match t with
        | Some t => let* rest := tryCombineFields fs gs in Ok ((cons (fst f, t)) <$> rest)
        | None => Ok None
        end
      else Ok None
  | _, _ => Ok (Some [])
  end.
Definition tryCombineStructTypes (l r : LogicalType) : outcome (option LogicalType) :=
  let* fs := getFields l in let* gs := getFields r in
  if negb (length fs =? length gs)%nat then Ok None
  else let* hs := tryCombineFields fs gs in Ok (newStruct <$> hs).

Definition tryCombineMapTypes (l r : LogicalType) : outcome (option LogicalType) :=
  let* kl := getKeyType l in let* vl := getValueType l in
  let* kr := getKeyType r in let* vr := getValueType r in
  let* k := tryMax kl kr in
  match k with
  | None => Ok None
  | Some k => let* v := tryMax vl vr in Ok (newMap k <$> v)
  end.

Definition tryMaxStep (l r : LogicalType) : outcome (option LogicalType) :=
  if canAlwaysCast (typeID l) && canAlwaysCast (typeID r) then
    Ok (Some (if alwaysCastOrder (typeID r) <? alwaysCastOrder (typeID l) then l else r))
  else
    let* same := sameType l r in
    if same || canAlwaysCast (typeID l) then Ok (Some r)
    else if canAlwaysCast (typeID r) then Ok (Some l)
    else if bool_decide (typeID l = ID.DECIMAL) && bool_decide (typeID r = ID.DECIMAL) then tryCombineDecimalTypes l r
    else if bool_decide (typeID l = ID.DECIMAL) && isNumerical (typeID r) then tryCombineDecimalWithNumeric l r
    else if bool_decide (typeID r = ID.DECIMAL) && isNumerical (typeID l) then tryCombineDecimalWithNumeric r l
    else if isSemanticallyNested (typeID l) || isSemanticallyNested (typeID r) then
      match typeID l, typeID r with
      | ID.LIST, ID.ARRAY => tryCombineListArrayTypes l r
      | ID.ARRAY, ID.LIST => tryCombineListArrayTypes r l
      | a, b =>
          if decide (a = b) then
            match a with
            | ID.LIST => tryCombineListTypes l r
            | ID.ARRAY => tryCombineArrayTypes l r
            | ID.STRUCT => tryCombineStructTypes l r
            | ID.MAP => tryCombineMapTypes l r
            | ID.UNION => Err (ConversionException "Union casting is not supported")
            | _ => Err InternalException
            end
          else Ok None
      end
    else
      let* id := tryGetMaxLogicalTypeID (typeID l) (typeID r) in
      match id with
      | None => Ok None
      | Some id =>
          if decide (id = typeID l) then Ok (Some l)
          else if decide (id = typeID r) then Ok (Some r)
          else let* t := newType id in Ok (Some t)
      end.
End Combine.

Fixpoint tryGetMaxLogicalType (fuel : nat) (l r : LogicalType) : outcome (option LogicalType) :=
  match fuel with
  | O => Err UndefinedBehaviour
  | S fuel => tryMaxStep (tryGetMaxLogicalType fuel) l r
  end.

(** Of a list of types: they are joined one after the other, from ANY on. *)
Fixpoint joinAll (fuel : nat) (types : list LogicalType) (combinedType : LogicalType) : outcome (option LogicalType) :=
  match types with
  | [] => Ok (Some combinedType)
  | t :: types =>
      let* c := tryGetMaxLogicalType fuel combinedType t in
      match c with None => Ok None | Some c => joinAll fuel types c end
  end.
Definition ANY_TYPE : LogicalType := mkLogicalType ID.ANY ANY None.
Definition tryGetMaxOf (fuel : nat) (types : list LogicalType) : outcome (option LogicalType) := joinAll fuel types ANY_TYPE.

(** ** The common type of sniffed values *)

Definition STRING_TYPE : LogicalType := mkLogicalType ID.STRING STRING None.

Section CombineTypes.
Variable combine : LogicalType -> LogicalType -> outcome LogicalType.
(** The fields of the left struct, combined with those of the right one that have the same name. *)
Fixpoint combineLeft (fs gs : list (name * LogicalType)) : outcome (list (name * LogicalType)) :=
  match fs with
  | [] => Ok []
  | f :: fs =>
      let* h := if hasField gs (fst f)
                then let* g := getStructField gs (fst f) in let* t := combine (snd f) (snd g) in Ok (fst f, t)
                else Ok f in
      let* rest := combineLeft fs gs in
      Ok (h :: rest)
  end.
Definition combineFields (fs gs : list (name * LogicalType)) : outcome (list (name * LogicalType)) :=
  let* hs := combineLeft fs gs in Ok (hs ++ List.filter (fun g => negb (hasField fs (fst g))) gs).
End CombineTypes.

Fixpoint combineTypes (fuel : nat) (l r : LogicalType) : outcome LogicalType :=
  match fuel with
  | O => Err UndefinedBehaviour
  | S fuel' =>
      if bool_decide (typeID l = ID.STRING \/ typeID r = ID.STRING) then Ok STRING_TYPE
      else
        let other := let* m := tryGetMaxLogicalType fuel l r in Ok (default STRING_TYPE m) in
        if decide (typeID l = typeID r) then
          match typeID l with
          | ID.STRUCT =>
              let* fs := getFields l in let* gs := getFields r in
              let* hs := combineFields (combineTypes fuel') fs gs in Ok (newStruct hs)
          | ID.LIST =>
              let* cl := listChild l in let* cr := listChild r in
              let* c := combineTypes fuel' cl cr in Ok (newList c)
          | ID.MAP =>
              let* kl := getKeyType l in let* vl := getValueType l in
              let* kr := getKeyType r in let* vr := getValueType r in
              let* k := combineTypes fuel' kl kr in let* v := combineTypes fuel' vl vr in Ok (newMap k v)
          | _ => other
          end
        else other
  end.

(** [purgeAny]: the type with every ANY replaced. *)
Fixpoint purgeAny (t replacement : LogicalType) : outcome LogicalType :=
  match typeID t with
  | ID.ANY => Ok replacement
  | ID.LIST =>
      match extraTypeInfo t with
      | Some (ListTypeInfo c) | Some (ArrayTypeInfo c _) => let* c := purgeAny c replacement in Ok (newList c)
      | Some _ => Err InternalException
      | None => Err UndefinedBehaviour
      end
  | ID.ARRAY =>
      match extraTypeInfo t with
      | Some (ArrayTypeInfo c k) => let* c := purgeAny c replacement in Ok (newArray c k)
      | Some _ => Err InternalException
      | None => Err UndefinedBehaviour
      end
  | ID.MAP =>
      match extraTypeInfo t with
      | Some (ListTypeInfo (mkLogicalType _ _ (Some (StructTypeInfo fs)))) =>
          match map (fun f => purgeAny (snd f) replacement) fs with
          | k :: v :: _ => let* k := k in let* v := v in Ok (newMap k v)
          | _ => Err UndefinedBehaviour
          end
      | Some _ => Err InternalException
      | None => Err UndefinedBehaviour
      end
  | ID.STRUCT =>
      match extraTypeInfo t with
      | Some (StructTypeInfo fs) =>
          let* fs := (fix go fs := match fs with
                                   | [] => Ok []
                                   | f :: fs => let* c := purgeAny (snd f) replacement in let* rest := go fs in Ok ((fst f, c) :: rest)
                                   end) fs in
          Ok (newStruct fs)
      | Some _ => Err InternalException
      | None => Err UndefinedBehaviour
      end
  | _ => Ok t
  end.

(** ** The common type is well formed and exists *)

(** No UNION, NODE, REL or RECURSIVE_REL at any depth: the types that can be joined. *)
#[warnings="-register-all"]
Inductive plain : LogicalType -> Prop :=
| plain_intro id p e : id ∉ [ID.UNION; ID.NODE; ID.REL; ID.RECURSIVE_REL] -> Forall plain (childTypes e) -> plain (mkLogicalType id p e).

(** [good true] types are well formed and plain; [good false] ones well formed. *)
Definition good (total : bool) (t : LogicalType) : Prop := wellFormed t /\ (total = true -> plain t).
Definition goodOption (total : bool) (o : option LogicalType) : Prop := forall t, o = Some t -> good total t.

(** The call returns a value with the property, or fails if it is allowed to. *)
Definition yields {A} (total : bool) (P : A -> Prop) (o : outcome A) : Prop :=
  match o with Ok a => P a | Err _ => total = false end.

Lemma yields_bind {A B} b (P : A -> Prop) (Q : B -> Prop) (o : outcome A) (k : A -> outcome B) :
  yields b P o -> (forall a, P a -> yields b Q (k a)) -> yields b Q (let* a := o in k a).
Proof. destruct o; cbn; auto. Qed.
Lemma yields_ok {A} b (P : A -> Prop) a : P a -> yields b P (Ok a).
Proof. done. Qed.
Lemma yields_err {A} (P : A -> Prop) e : yields false P (Err e).
Proof. done. Qed.
Lemma yields_mono {A} b (P Q : A -> Prop) o : yields b P o -> (forall a, P a -> Q a) -> yields b Q o.
Proof. destruct o; cbn; auto. Qed.
#[local] Hint Resolve yields_ok : core.

Lemma goodOption_some b t : good b t -> goodOption b (Some t).
Proof. by intros ? ? [= <-]. Qed.
Lemma goodOption_none b : goodOption b None.
Proof. by intros ?. Qed.
#[local] Hint Resolve goodOption_some goodOption_none : core.
Lemma goodOption_fmap b (f : LogicalType -> LogicalType) o : goodOption b o -> (forall t, good b t -> good b (f t)) -> goodOption b (f <$> o).
Proof. intros Ho Hf t Ht. apply fmap_Some in Ht as (u & Hu & ->). auto. Qed.

Lemma good_intro b id p e :
  shape id e -> getPhysicalType id e = Ok p -> (b = true -> id ∉ [ID.UNION; ID.NODE; ID.REL; ID.RECURSIVE_REL]) ->
  Forall (good b) (childTypes e) -> good b (mkLogicalType id p e).
Proof.
  intros Hs Hp Hid Hc. split.
  - constructor; [done|done|]. eapply Forall_impl; [exact Hc|]. by intros ? [].
  - intros Hb. constructor; [auto|]. eapply Forall_impl; [exact Hc|]. intros ? []. auto.
Qed.
Lemma good_inv b t :
  good b t -> shape (typeID t) (extraTypeInfo t) /\ getPhysicalType (typeID t) (extraTypeInfo t) = Ok (physicalType t) /\
    (b = true -> typeID t ∉ [ID.UNION; ID.NODE; ID.REL; ID.RECURSIVE_REL]) /\ Forall (good b) (childTypes (extraTypeInfo t)).
Proof.
  intros [Hw Hp]. apply wellFormed_inv in Hw as (Hs & Hq & Hc). split; [done|]. split; [done|]. split.
  - intros Hb. by destruct (Hp Hb).
  - apply Forall_forall. intros c Hin. rewrite Forall_forall in Hc. split; [auto|]. intros Hb. destruct (Hp Hb) as [? ? ? _ Hcp].
    rewrite Forall_forall in Hcp. auto.
Qed.

Lemma not_special id : bool_decide (id ∈ [ID.UNION; ID.NODE; ID.REL; ID.RECURSIVE_REL]) = false -> id ∉ [ID.UNION; ID.NODE; ID.REL; ID.RECURSIVE_REL].
Proof. by intros ?%bool_decide_eq_false. Qed.
#[local] Hint Extern 1 (_ ∉ [ID.UNION; ID.NODE; ID.REL; ID.RECURSIVE_REL]) => (apply not_special; reflexivity) : core.

Lemma good_list b c : good b c -> good b (newList c).
Proof. intros. apply good_intro; [done|done|auto|]. by apply Forall_singleton. Qed.
Lemma good_array b c k : good b c -> inU 64 k -> good b (newArray c k).
Proof. intros. apply good_intro; [done|done|auto|]. by apply Forall_singleton. Qed.
Lemma good_struct b fs : Forall (good b) (snd <$> fs) -> good b (newStruct fs).
Proof. intros. by apply good_intro; [done|done|auto|]. Qed.
Lemma good_map b k v : good b k -> good b v -> good b (newMap k v).
Proof. intros. apply good_intro; [cbn; eauto|done|auto|]. apply Forall_singleton, good_struct, Forall_cons_2; [done|]. by apply Forall_singleton. Qed.
Lemma good_new b id t : newType id = Ok t -> id ∉ [ID.UNION; ID.NODE; ID.REL; ID.RECURSIVE_REL] -> good b t.
Proof.
  intros Ht Hid. destruct id; try discriminate Ht; try (by destruct Hid; apply (bool_decide_unpack _)); injection Ht as <-;
    apply good_intro; auto; constructor.
Qed.
Lemma good_string b : good b STRING_TYPE.
Proof. apply (good_new b ID.STRING); auto. Qed.
#[local] Hint Resolve good_list good_struct good_map good_string : core.

(** The parts of a good type, by its identifier. *)
Lemma good_decimal_inv b t : good b t -> typeID t = ID.DECIMAL ->
  exists p s, getPrecision t = Ok p /\ getScale t = Ok s /\ 1 <= p <= 38 /\ 0 <= s <= p.
Proof.
  intros (Hs & _)%good_inv Hid. unfold getPrecision, getScale. rewrite decide_True, decide_True by done. rewrite Hid in Hs.
  destruct (extraTypeInfo t) as [[p s|c|c k|fs]|]; try done. exists p, s. by destruct Hs.
Qed.
Lemma good_list_inv b t : good b t -> typeID t = ID.LIST \/ typeID t = ID.ARRAY ->
  exists c, listChild t = Ok c /\ good b c /\ (height c < height t)%nat.
Proof.
  intros (Hs & Hp & _ & Hc)%good_inv Hid. pose proof (height_child t) as Hh. unfold listChild.
  destruct Hid as [Hid|Hid]; rewrite Hid in Hs, Hp; injection Hp as Hp; symmetry in Hp; rewrite decide_True by auto;
    destruct (extraTypeInfo t) as [[p s|c|c k|fs]|]; try done; exists c; cbn [childTypes] in Hc; rewrite Forall_singleton in Hc; (do 2 (split; [done|]));
    apply Hh; by apply list_elem_of_singleton.
Qed.
Lemma good_array_inv b t : good b t -> typeID t = ID.ARRAY ->
  exists c k, arrayChild t = Ok c /\ getNumElements t = Ok k /\ inU 64 k /\ good b c /\ (height c < height t)%nat.
Proof.
  intros (Hs & Hp & _ & Hc)%good_inv Hid. pose proof (height_child t) as Hh. unfold arrayChild, getNumElements.
  rewrite Hid in Hs, Hp. injection Hp as Hp; symmetry in Hp. rewrite !decide_True by auto.
  destruct (extraTypeInfo t) as [[p s|c|c k|fs]|]; try done. exists c, k. cbn [childTypes] in Hc; rewrite Forall_singleton in Hc. (do 4 (split; [done|])).
  apply Hh. by apply list_elem_of_singleton.
Qed.
Lemma good_struct_inv b t : good b t -> typeID t = ID.STRUCT ->
  exists fs, getFields t = Ok fs /\ Forall (good b) (snd <$> fs) /\ forall c, c ∈ snd <$> fs -> (height c < height t)%nat.
Proof.
  intros (Hs & Hp & _ & Hc)%good_inv Hid. pose proof (height_child t) as Hh. unfold getFields.
  rewrite Hid in Hs, Hp. injection Hp as Hp; symmetry in Hp. rewrite !decide_True by auto.
  destruct (extraTypeInfo t) as [[p s|c|c k|fs]|]; try done. by exists fs.
Qed.
Lemma good_map_inv b t : good b t -> typeID t = ID.MAP ->
  exists k v, getKeyType t = Ok k /\ getValueType t = Ok v /\ good b k /\ good b v /\ (height k < height t)%nat /\ (height v < height t)%nat.
Proof.
  intros (Hs & Hp & _ & Hc)%good_inv Hid. pose proof (height_child t) as Hh. unfold getKeyType, getValueType, listChild.
  rewrite Hid in Hs, Hp. injection Hp as Hp; symmetry in Hp. rewrite !decide_True by auto.
  destruct (extraTypeInfo t) as [[p s|c|c k|fs]|]; try done. destruct Hs as (k & v & ->). exists k, v. cbn [childTypes] in Hc; rewrite Forall_singleton in Hc.
  specialize (Hh _ (proj2 (list_elem_of_singleton _ _) eq_refl)). do 2 (split; [done|]).
  apply good_inv in Hc as (_ & _ & _ & Hc). cbn in Hc. inversion Hc as [|? ? Hk Hv]; subst. inversion Hv; subst. do 2 (split; [done|]).
  cbn in Hh. cbn. lia.
Qed.

(** Comparing well-formed types dereferences no null pointer and makes no bad cast. *)
Lemma sameFields_ok fs : forall gs,
  Forall (fun t => forall u, wellFormed u -> exists b, sameType t u = Ok b) (snd <$> fs) -> Forall wellFormed (snd <$> gs) ->
  exists b, sameFields sameType fs gs = Ok b.
Proof.
  induction fs as [|f fs IH]; intros [|g gs] Hf Hg; cbn [sameFields]; eauto. rewrite fmap_cons in Hf, Hg.
  apply Forall_cons in Hf as [Hf Hfs], Hg as [Hg Hgs]. destruct (Hf _ Hg) as [b ->]. cbn. destruct b; eauto.
Qed.

Lemma sameType_ok t u : wellFormed t -> wellFormed u -> exists b, sameType t u = Ok b.
Proof.
  revert u. induction t as [id p e IH] using LogicalType_ind'. intros [id' p' e'] Hw Hu.
  apply wellFormed_inv in Hw as (Hs & _ & Hc), Hu as (Hs' & _ & Hc'). cbn [typeID extraTypeInfo] in *. cbn [sameType typeID extraTypeInfo].
  destruct (decide (id = id')) as [<-|]; [|eauto].
  assert (IHc : Forall (fun t => forall u, wellFormed u -> exists b, sameType t u = Ok b) (childTypes e)).
  { apply Forall_forall. intros c Hin u Hu. rewrite Forall_forall in IH, Hc. auto. }
  clear IH Hc. destruct e as [[q s|c|c k|fs]|]; [| | | |eauto]; (destruct e' as [[q' s'|c'|c' k'|gs]|]; try (by destruct id)); eauto;
    try (by destruct id; rewrite ?Hs, ?Hs'); cbn [childTypes] in *.
  - rewrite !Forall_singleton in IHc, Hc'. auto.
  - rewrite !Forall_singleton in IHc, Hc'. destruct (IHc _ Hc') as [b ->]. cbn. eauto.
  - destruct (length fs =? length gs)%nat; [|eauto]. by apply sameFields_ok.
Qed.

(** The identifier that two identifiers are joined to is one of them, or one that needs no further information. *)
Definition joinsWell (a b : LogicalTypeID) : bool :=
  match tryGetMaxLogicalTypeID a b with
  | Ok None => true
  | Ok (Some id) => bool_decide (id = a) || bool_decide (id = b) ||
      (match newType id with Ok _ => true | Err _ => false end && negb (bool_decide (id ∈ [ID.UNION; ID.NODE; ID.REL; ID.RECURSIVE_REL])))
  | Err _ => false
  end.
Lemma all_join_well : forallb (fun a => forallb (joinsWell a) ID.all) ID.all = true.
Proof. by vm_compute. Qed.
Lemma in_all id : In id ID.all.
Proof. destruct id; cbn; tauto. Qed.
Lemma join_well a b : joinsWell a b = true.
Proof. pose proof all_join_well as H. rewrite forallb_forall in H. specialize (H a (in_all a)). rewrite forallb_forall in H. apply H, in_all. Qed.

Lemma maxID_good tot l r : good tot l -> good tot r ->
  yields tot (goodOption tot)
    (let* id := tryGetMaxLogicalTypeID (typeID l) (typeID r) in
     match id with
     | None => Ok None
     | Some id => if decide (id = typeID l) then Ok (Some l) else if decide (id = typeID r) then Ok (Some r) else let* t := newType id in Ok (Some t)
     end).
Proof.
  intros Hl Hr. pose proof (join_well (typeID l) (typeID r)) as Hj. unfold joinsWell in Hj.
  destruct (tryGetMaxLogicalTypeID _ _) as [[id|]|]; cbn; auto; [|done].
  destruct (decide (id = typeID l)) as [|Hn]; cbn; auto. destruct (decide (id = typeID r)) as [|Hn']; cbn; auto.
  rewrite !bool_decide_eq_false_2 in Hj by done. destruct (newType id) as [t|] eqn:Ht; cbn in Hj; [|done]. cbn.
  apply goodOption_some, (good_new _ id); [done|]. by apply negb_true_iff, bool_decide_eq_false in Hj.
Qed.

(** Decimals. *)
Lemma good_decimal b p s : 1 <= p <= 38 -> 0 <= s <= p -> exists t, DECIMAL p s = Ok t /\ good b t.
Proof.
  intros Hp Hs. destruct (wellFormed_decimal p s Hp Hs) as (t & Ht & Hw & Hid & He). exists t. split; [done|]. split; [done|].
  intros _. destruct t as [id q e]. cbn in Hid, He. subst. constructor; [auto|constructor].
Qed.
Definition DOUBLE_TYPE : LogicalType := mkLogicalType ID.DOUBLE DOUBLE None.
Lemma good_double b : good b DOUBLE_TYPE.
Proof. apply (good_new b ID.DOUBLE); auto. Qed.
#[local] Hint Resolve good_double : core.

Lemma decimals_good b l r : good b l -> good b r -> typeID l = ID.DECIMAL -> typeID r = ID.DECIMAL ->
  yields b (goodOption b) (tryCombineDecimalTypes l r).
Proof.
  intros Hl Hr Hil Hir. destruct (good_decimal_inv _ _ Hl Hil) as (p & s & Hp & Hs & Hpr & Hsr).
  destruct (good_decimal_inv _ _ Hr Hir) as (p' & s' & Hp' & Hs' & Hpr' & Hsr').
  unfold tryCombineDecimalTypes, DECIMAL_PRECISION_LIMIT. rewrite Hp, Hs, Hp', Hs'. cbn [obind].
  rewrite (wrapU_id 32 (p - s)), (wrapU_id 32 (p' - s')), wrapU_id by (unfold inU; lia). case_match eqn:E; [cbn; auto|]. apply Z.ltb_ge in E.
  destruct (good_decimal b (Z.max (p - s) (p' - s') + Z.max s s') (Z.max s s')) as (t & -> & Ht); [lia|lia|]. cbn. auto.
Qed.
Lemma decimal_numeric_good b d n : good b d -> typeID d = ID.DECIMAL -> yields b (goodOption b) (tryCombineDecimalWithNumeric d n).
Proof.
  intros Hd Hid. destruct (good_decimal_inv _ _ Hd Hid) as (p & s & Hp & Hs & Hpr & Hsr).
  unfold tryCombineDecimalWithNumeric, DECIMAL_PRECISION_LIMIT. rewrite Hp, Hs. cbn [obind].
  assert (Hq : 3 <= requiredDigits (typeID n) <= 39) by (unfold requiredDigits, DECIMAL_PRECISION_LIMIT; case_match; lia).
  rewrite !wrapU_id by (unfold inU; lia). case_match eqn:E; [cbn; auto|]. apply Z.ltb_ge in E.
  destruct (good_decimal b (Z.max (requiredDigits (typeID n) + s) p) s) as (t & -> & Ht); [lia|lia|]. cbn. auto.
Qed.

(** The recursive call may go deep enough. *)
Definition enough (tot : bool) (n : nat) (l r : LogicalType) : Prop := tot = true -> (height l < n /\ height r < n)%nat.

Section CombineProof.
Context (tot : bool) (n : nat) (tryMax : LogicalType -> LogicalType -> outcome (option LogicalType)).
(** What the recursive call promises for types that are nested less deeply. *)
Hypothesis tryMax_good : forall c d, good tot c -> good tot d -> enough tot n c d -> yields tot (goodOption tot) (tryMax c d).
Context (l r : LogicalType) (Hl : good tot l) (Hr : good tot r) (Hn : enough tot (S n) l r).

Lemma enough_child c d : (height c < height l)%nat -> (height d < height r)%nat -> enough tot n c d.
Proof. intros Hc Hd Ht. specialize (Hn Ht). lia. Qed.

Lemma listTypes_good :
  typeID l = ID.LIST \/ typeID l = ID.ARRAY -> typeID r = ID.LIST \/ typeID r = ID.ARRAY -> yields tot (goodOption tot) (tryCombineListTypes tryMax l r).
Proof.
  intros Hil Hir. destruct (good_list_inv _ _ Hl Hil) as (c & Hc & Gc & Lc), (good_list_inv _ _ Hr Hir) as (d & Hd & Gd & Ld).
  unfold tryCombineListTypes. rewrite Hc, Hd. cbn [obind]. eapply yields_bind; [apply tryMax_good; auto using enough_child|].
  intros o Ho. apply yields_ok, goodOption_fmap; auto.
Qed.
Lemma arrayTypes_good : typeID l = ID.ARRAY -> typeID r = ID.ARRAY -> yields tot (goodOption tot) (tryCombineArrayTypes tryMax l r).
Proof.
  intros Hil Hir. pose proof (listTypes_good (or_intror Hil) (or_intror Hir)) as Hlist.
  destruct (good_array_inv _ _ Hl Hil) as (c & k & Hc & Hk & Bk & Gc & Lc), (good_array_inv _ _ Hr Hir) as (d & k' & Hd & Hk' & _ & Gd & Ld).
  unfold tryCombineArrayTypes. rewrite Hc, Hd, Hk, Hk'. cbn [obind]. destruct (negb _); [done|].
  eapply yields_bind; [apply tryMax_good; auto using enough_child|].
  intros o Ho. apply yields_ok, (goodOption_fmap _ (fun c => newArray c k)); auto using good_array.
Qed.
Lemma listArrayTypes_good : typeID l = ID.LIST -> typeID r = ID.ARRAY -> yields tot (goodOption tot) (tryCombineListArrayTypes tryMax l r).
Proof.
  intros Hil Hir. destruct (good_list_inv _ _ Hl (or_introl Hil)) as (c & Hc & Gc & Lc), (good_array_inv _ _ Hr Hir) as (d & k' & Hd & _ & _ & Gd & Ld).
  unfold tryCombineListArrayTypes. rewrite Hc, Hd. cbn [obind]. eapply yields_bind; [apply tryMax_good; auto using enough_child|].
  intros o Ho. apply yields_ok, goodOption_fmap; auto.
Qed.
Lemma fields_good fs : forall gs,
  Forall (good tot) (snd <$> fs) -> Forall (good tot) (snd <$> gs) -> (forall c d, c ∈ snd <$> fs -> d ∈ snd <$> gs -> enough tot n c d) ->
  yields tot (fun o => forall hs, o = Some hs -> Forall (good tot) (snd <$> hs)) (tryCombineFields tryMax fs gs).
Proof.
  induction fs as [|f fs IH]; intros [|g gs] Hf Hg Hh; cbn [tryCombineFields]; try (apply yields_ok; by intros ? [= <-]).
  rewrite fmap_cons in Hf, Hg, Hh. rewrite fmap_cons in Hh. apply Forall_cons in Hf as [Hf Hfs], Hg as [Hg Hgs]. case_decide; [|by apply yields_ok].
  eapply yields_bind; [apply tryMax_good; [done|done|]; apply Hh; by left|]. intros [t|] Ht; [|by apply yields_ok].
  eapply yields_bind; [apply IH; [done|done|]; intros c d Hc Hd; apply Hh; by right|]. intros [hs|] Hhs; apply yields_ok; [|done].
  intros ? [= <-]. rewrite fmap_cons. apply Forall_cons. cbn. auto.
Qed.
Lemma structTypes_good : typeID l = ID.STRUCT -> typeID r = ID.STRUCT -> yields tot (goodOption tot) (tryCombineStructTypes tryMax l r).
Proof.
  intros Hil Hir. destruct (good_struct_inv _ _ Hl Hil) as (fs & Hfs & Gf & Lf), (good_struct_inv _ _ Hr Hir) as (gs & Hgs & Gg & Lg).
  unfold tryCombineStructTypes. rewrite Hfs, Hgs. cbn [obind]. destruct (negb _); [by apply yields_ok|].
  eapply yields_bind; [apply fields_good; [done|done|]; intros c d Hc Hd; apply enough_child; auto|].
  intros [hs|] Hhs; apply yields_ok; cbn; auto.
Qed.
Lemma mapTypes_good : typeID l = ID.MAP -> typeID r = ID.MAP -> yields tot (goodOption tot) (tryCombineMapTypes tryMax l r).
Proof.
  intros Hil Hir. destruct (good_map_inv _ _ Hl Hil) as (k & v & Hk & Hv & Gk & Gv & Lk & Lv).
  destruct (good_map_inv _ _ Hr Hir) as (k' & v' & Hk' & Hv' & Gk' & Gv' & Lk' & Lv').
  unfold tryCombineMapTypes. rewrite Hk, Hv, Hk', Hv'. cbn [obind]. eapply yields_bind; [apply tryMax_good; auto using enough_child|].
  intros [kt|] Hkt; [|by apply yields_ok]. eapply yields_bind; [apply tryMax_good; auto using enough_child|].
  intros o Ho. apply yields_ok, goodOption_fmap; auto.
Qed.
End CombineProof.

Lemma enough_sym tot n l r : enough tot n l r -> enough tot n r l.
Proof. intros H Ht. destruct (H Ht). lia. Qed.

Lemma tryMaxStep_good tot n tryMax l r :
  (forall c d, good tot c -> good tot d -> enough tot n c d -> yields tot (goodOption tot) (tryMax c d)) ->
  good tot l -> good tot r -> enough tot (S n) l r -> yields tot (goodOption tot) (tryMaxStep tryMax l r).
Proof.
  intros Hmax Hl Hr Hn. unfold tryMaxStep. destruct (_ && _); [apply yields_ok; case_match; auto|].
  destruct (sameType_ok l r) as [same ->]; [apply Hl|apply Hr|]. cbn [obind]. destruct (same || _); [apply yields_ok; auto|].
  destruct (canAlwaysCast _); [apply yields_ok; auto|]. case_match eqn:E1.
  { apply andb_true_iff in E1 as [?%bool_decide_eq_true ?%bool_decide_eq_true]. by apply decimals_good. } clear E1. case_match eqn:E1.
  { apply andb_true_iff in E1 as [?%bool_decide_eq_true _]. by apply decimal_numeric_good. } clear E1. case_match eqn:E1.
  { apply andb_true_iff in E1 as [?%bool_decide_eq_true _]. by apply decimal_numeric_good. } clear E1. case_match eqn:E1; [|by apply maxID_good].
  assert (Hs : tot = true -> typeID l ∉ [ID.UNION; ID.NODE; ID.REL; ID.RECURSIVE_REL]) by apply (good_inv _ _ Hl).
  assert (Hs' : tot = true -> typeID r ∉ [ID.UNION; ID.NODE; ID.REL; ID.RECURSIVE_REL]) by apply (good_inv _ _ Hr).
  pose proof (listArrayTypes_good tot n tryMax Hmax r l Hr Hl (enough_sym _ _ _ _ Hn)) as Hsym.
  destruct (typeID l) eqn:Eil, (typeID r) eqn:Eir;
    try (by apply yields_ok); try done; try (by rewrite ?decide_False by done; apply yields_ok).
  all: rewrite ?decide_True by done; eauto using listTypes_good, arrayTypes_good, structTypes_good, mapTypes_good, listArrayTypes_good.
  all: destruct tot; [exfalso|by apply yields_err]. all: apply (Hs eq_refl), (bool_decide_unpack _); reflexivity.
Qed.

Lemma tryGetMax_good tot fuel l r : good tot l -> good tot r -> enough tot fuel l r -> yields tot (goodOption tot) (tryGetMaxLogicalType fuel l r).
Proof.
  revert l r. induction fuel as [|fuel IH]; intros l r Hl Hr Hn.
  - destruct tot; [destruct (Hn eq_refl); lia|by apply yields_err].
  - by apply (tryMaxStep_good tot fuel).
Qed.

Lemma joinAll_good tot fuel types c :
  Forall (good tot) types -> good tot c -> (tot = false) -> yields tot (goodOption tot) (joinAll fuel types c).
Proof.
  intros Ht Hc Htot. revert c Hc. induction Ht as [|t types Hgt Hts IH]; intros c Hc; cbn [joinAll]; [apply yields_ok; auto|].
  eapply yields_bind; [apply tryGetMax_good; [done|done|]; intros Hx; congruence|]. intros [d|] Hd; [auto|by apply yields_ok].
Qed.

Lemma fieldIdx_in fs n i : fieldIdx fs n = Some i -> exists f, fs !! i = Some f.
Proof.
  revert i. induction fs as [|f fs IH]; intros i; cbn [fieldIdx]; [done|]. case_decide; [intros [= <-]; by eexists|].
  intros Hi. apply fmap_Some in Hi as (j & Hj & ->). destruct (IH _ Hj) as [g Hg]. by exists g.
Qed.
Lemma getStructField_in fs n : hasField fs n = true -> exists f, getStructField fs n = Ok f /\ f ∈ fs.
Proof.
  unfold hasField, getStructField. intros [i Hi]%bool_decide_eq_true. destruct (fieldIdx_in _ _ _ Hi) as [f Hf]. rewrite Hi, Hf.
  eauto using list_elem_of_lookup_2.
Qed.

Lemma combineFields_good tot n comb fs gs :
  (forall c d, good tot c -> good tot d -> enough tot n c d -> yields tot (good tot) (comb c d)) ->
  Forall (good tot) (snd <$> fs) -> Forall (good tot) (snd <$> gs) -> (forall c d, c ∈ snd <$> fs -> d ∈ snd <$> gs -> enough tot n c d) ->
  yields tot (fun hs : list (name * LogicalType) => Forall (good tot) (snd <$> hs)) (combineFields comb fs gs).
Proof.
  intros Hcomb Hf Hg Hn. unfold combineFields. eapply yields_bind; [|intros hs Hhs; apply yields_ok].
  - instantiate (1 := fun hs : list (name * LogicalType) => Forall (good tot) (snd <$> hs)). revert Hf Hn. induction fs as [|f fs IH]; intros Hf Hn; cbn [combineLeft]; [by apply yields_ok|].
    rewrite fmap_cons in Hf, Hn. apply Forall_cons in Hf as [Hf Hfs]. eapply (yields_bind _ (fun h => good tot (snd h))).
    + destruct (hasField gs (fst f)) eqn:E; [|by apply yields_ok]. destruct (getStructField_in _ _ E) as (g & -> & Hin). cbn [obind].
      assert (Hgin : snd g ∈ snd <$> gs) by (by apply list_elem_of_fmap_2).
      eapply yields_bind; [apply Hcomb; [done| |apply Hn; [by left|done]]; by apply (proj1 (Forall_forall _ _) Hg)|]. intros t Ht. by apply yields_ok.
    + intros h Hh. eapply yields_bind; [apply IH; [done|]; intros c d Hc; apply Hn; by right|]. intros rest Hrest. apply yields_ok.
      rewrite fmap_cons. by apply Forall_cons.
  - rewrite fmap_app. apply Forall_app. split; [done|]. rewrite Forall_fmap in Hg |- *. apply Forall_forall. intros g Hin.
    apply list_elem_of_In, filter_In in Hin as [Hin _]. apply (proj1 (Forall_forall _ _) Hg). by apply list_elem_of_In.
Qed.

Lemma combineTypes_good tot fuel l r : good tot l -> good tot r -> enough tot fuel l r -> yields tot (good tot) (combineTypes fuel l r).
Proof.
  revert l r. induction fuel as [|fuel IH]; intros l r Hl Hr Hn.
  { destruct tot; [destruct (Hn eq_refl); lia|by apply yields_err]. }
  cbn [combineTypes]. case_match; [apply yields_ok; auto|].
  assert (Hother : yields tot (good tot) (let* m := tryGetMaxLogicalType (S fuel) l r in Ok (default STRING_TYPE m))).
  { eapply yields_bind; [by apply tryGetMax_good|]. intros [t|] Ht; apply yields_ok; cbn; auto. }
  destruct (decide (typeID l = typeID r)) as [He|]; [|done]. destruct (typeID l) eqn:Eil; try done; symmetry in He.
  - destruct (good_list_inv _ _ Hl (or_introl Eil)) as (c & Hc & Gc & Lc), (good_list_inv _ _ Hr (or_introl He)) as (d & Hd & Gd & Ld).
    rewrite Hc, Hd. cbn [obind]. eapply yields_bind; [apply IH; eauto using enough_child|]. intros t Ht. apply yields_ok. auto.
  - destruct (good_struct_inv _ _ Hl Eil) as (fs & Hfs & Gf & Lf), (good_struct_inv _ _ Hr He) as (gs & Hgs & Gg & Lg).
    rewrite Hfs, Hgs. cbn [obind]. eapply yields_bind; [apply (combineFields_good tot fuel); eauto using enough_child|].
    intros hs Hhs. apply yields_ok. auto.
  - destruct (good_map_inv _ _ Hl Eil) as (k & v & Hk & Hv & Gk & Gv & Lk & Lv), (good_map_inv _ _ Hr He) as (k' & v' & Hk' & Hv' & Gk' & Gv' & Lk' & Lv').
    rewrite Hk, Hv, Hk', Hv'. cbn [obind]. eapply yields_bind; [apply IH; eauto using enough_child|]. intros kt Hkt.
    eapply yields_bind; [apply IH; eauto using enough_child|]. intros vt Hvt. apply yields_ok. auto.
Qed.

(** [purgeAny] *)
Definition withoutAny (t : LogicalType) : Prop := containsAny t = false.

Lemma purgeFields_good tot fs u :
  Forall (fun c => yields true (fun c => good tot c /\ (tot = true -> withoutAny c)) (purgeAny c u)) (snd <$> fs) ->
  yields true (fun hs : list (name * LogicalType) => Forall (good tot) (snd <$> hs) /\ (tot = true -> Forall withoutAny (snd <$> hs)))
    ((fix go fs := match fs with
                   | [] => Ok []
                   | f :: fs => let* c := purgeAny (snd f) u in let* rest := go fs in Ok ((fst f, c) :: rest)
                   end) fs).
Proof.
  induction fs as [|f fs IH]; intros Hf; [apply yields_ok; by split|]. rewrite fmap_cons in Hf. apply Forall_cons in Hf as [Hf Hfs].
  eapply yields_bind; [exact Hf|]. intros c [Hc Ha]. eapply yields_bind; [exact (IH Hfs)|]. intros rest [Hr Hra]. apply yields_ok.
  rewrite fmap_cons. split; [by apply Forall_cons|]. intros Ht. apply Forall_cons. auto.
Qed.

Lemma withoutAny_struct fs : Forall withoutAny (snd <$> fs) -> withoutAny (newStruct fs).
Proof.
  intros Hf. unfold withoutAny. cbn. apply not_true_iff_false. intros (f & Hin & Hc)%existsb_exists.
  rewrite Forall_fmap in Hf. rewrite (proj1 (Forall_forall _ _) Hf f) in Hc; [done|]. by apply list_elem_of_In.
Qed.

Lemma purgeAny_good tot t u :
  good tot t -> good tot u -> (tot = true -> withoutAny u) -> yields true (fun v => good tot v /\ (tot = true -> withoutAny v)) (purgeAny t u).
Proof.
  intros Ht Hu Ha. induction t as [id p e IH] using LogicalType_ind'. pose proof (good_inv _ _ Ht) as (Hs & Hp & Hid & Hc).
  cbn [typeID extraTypeInfo physicalType] in *.
  assert (IHc : Forall (fun c => yields true (fun c => good tot c /\ (tot = true -> withoutAny c)) (purgeAny c u)) (childTypes e)).
  { apply Forall_forall. intros c Hin. rewrite Forall_forall in IH, Hc. auto. } clear IH.
  assert (Hkeep : id ∉ [ID.ANY; ID.LIST; ID.ARRAY; ID.MAP; ID.STRUCT] -> tot = true -> withoutAny (mkLogicalType id p e)).
  { intros Hni Htot. specialize (Hid Htot). unfold withoutAny. cbn. destruct id; try (by destruct Hni; apply (bool_decide_unpack _));
      try (by destruct Hid; apply (bool_decide_unpack _)); try (by rewrite Hs); by destruct e as [[]|]. }
  cbn [purgeAny typeID extraTypeInfo]. destruct id; try (apply yields_ok; split; [done|]; apply Hkeep; by apply (bool_decide_unpack _)).
  - by apply yields_ok.
  - destruct e as [[q s|c|c k|fs]|]; try done. cbn [childTypes] in IHc. rewrite Forall_singleton in IHc.
    eapply yields_bind; [exact IHc|]. intros c' [Hc' Ha']. apply yields_ok. split; auto.
  - destruct e as [[q s|c|c k|fs]|]; try done. cbn [childTypes] in IHc. rewrite Forall_singleton in IHc.
    eapply yields_bind; [exact IHc|]. intros c' [Hc' Ha']. apply yields_ok. split; auto using good_array.
  - destruct e as [[q s|c|c k|fs]|]; try done. cbn [childTypes] in IHc. eapply yields_bind; [exact (purgeFields_good _ _ _ IHc)|].
    intros hs [Hh Hha]. apply yields_ok. split; auto using withoutAny_struct.
  - destruct e as [[q s|c|c k|fs]|]; try done. destruct Hs as (k & v & ->). cbn [childTypes] in IHc. rewrite Forall_singleton in IHc.
    cbn [newStruct map snd]. revert IHc. cbn [newStruct purgeAny typeID extraTypeInfo fst snd].
    destruct (purgeAny k u) as [k'|]; [|done]. cbn [obind]. destruct (purgeAny v u) as [v'|]; [|done]. cbn [obind yields]. intros [Hg Hga].
    apply good_inv in Hg as (_ & _ & _ & Hg). cbn in Hg. rewrite !Forall_cons in Hg. destruct Hg as (Hk & Hv & _). split; auto.
Qed.

(** ** What the joins promise *)

(** C29. Every type that the engine computes from well-formed types is well formed: the common type
    of two types and of a list of types, the type that sniffed values are combined to, and the type with ANY replaced have
    the physical type of their identifier and the further information their identifier needs, at
    every depth; [purgeAny] always returns, and if the type has no UNION, NODE or REL inside it
    leaves no ANY. *)
Theorem types_well_formed :
  (forall fuel l r t, wellFormed l -> wellFormed r -> tryGetMaxLogicalType fuel l r = Ok (Some t) -> wellFormed t) /\
  (forall fuel types t, Forall wellFormed types -> tryGetMaxOf fuel types = Ok (Some t) -> wellFormed t) /\
  (forall fuel l r t, wellFormed l -> wellFormed r -> combineTypes fuel l r = Ok t -> wellFormed t) /\
  (forall t u, wellFormed t -> wellFormed u ->
     exists v, purgeAny t u = Ok v /\ wellFormed v /\ (plain t -> plain u -> containsAny u = false -> plain v /\ containsAny v = false)).
Proof.
  assert (Hg : forall t, wellFormed t -> good false t) by done.
  split; [|split; [|split]].
  - intros fuel l r t Hl Hr E. pose proof (tryGetMax_good false fuel l r) as H. rewrite E in H. cbn in H.
    by eapply H; [apply Hg|apply Hg| |].
  - intros fuel types t Hts E. pose proof (joinAll_good false fuel types ANY_TYPE) as H. unfold tryGetMaxOf in E. rewrite E in H. cbn in H.
    eapply H; [by eapply Forall_impl|apply (good_new _ ID.ANY); auto|done|done].
  - intros fuel l r t Hl Hr E. pose proof (combineTypes_good false fuel l r) as H. rewrite E in H. cbn in H. by apply H; [apply Hg|apply Hg|].
  - intros t u Ht Hu. assert (H : yields true (fun v => good false v /\ (false = true -> withoutAny v)) (purgeAny t u)) by (by apply purgeAny_good).
    destruct (purgeAny t u) as [v|] eqn:E; cbn in H; [|done].
    exists v. split; [done|]. split; [by apply H|]. intros Pt Pu Hn.
    pose proof (purgeAny_good true t u (conj Ht (fun _ => Pt)) (conj Hu (fun _ => Pu)) (fun _ => Hn)) as H'. rewrite E in H'. cbn in H'.
    destruct H' as [[_ Hp] Ha]. split; [by apply Hp|by apply Ha].
Qed.

(** C32. The search for a common type ends and never fails for well-formed types without UNION, NODE
    and REL, however deep they are nested: [tryGetMaxLogicalType] answers (with a type or with none)
    and [combineTypes] always finds one, when the recursion may go as deep as the types. *)
Theorem common_type_total l r fuel :
  wellFormed l -> wellFormed r -> plain l -> plain r -> (height l < fuel)%nat -> (height r < fuel)%nat ->
  (exists o, tryGetMaxLogicalType fuel l r = Ok o) /\ (exists t, combineTypes fuel l r = Ok t /\ plain t).
Proof.
  intros Hl Hr Pl Pr Fl Fr. assert (Gl : good true l) by done. assert (Gr : good true r) by done. assert (Hn : enough true fuel l r) by done.
  pose proof (tryGetMax_good true fuel l r Gl Gr Hn) as H1. pose proof (combineTypes_good true fuel l r Gl Gr Hn) as H2.
  destruct (tryGetMaxLogicalType fuel l r) as [o|]; [|done]. destruct (combineTypes fuel l r) as [t|]; [|done].
  split; [eauto|]. exists t. split; [done|]. by apply H2.
Qed.

(** The values of an integer type. *)
Definition integerRange (id : LogicalTypeID) : option (Z * Z) :=
  match id with
  | ID.INT8 => Some (-2 ^ 7, 2 ^ 7 - 1)
  | ID.INT16 => Some (-2 ^ 15, 2 ^ 15 - 1)
  | ID.INT32 => Some (-2 ^ 31, 2 ^ 31 - 1)
  | ID.INT64 | ID.SERIAL => Some (-2 ^ 63, 2 ^ 63 - 1)
  | ID.INT128 => Some (-2 ^ 127, 2 ^ 127 - 1)
  | ID.UINT8 => Some (0, 2 ^ 8 - 1)
  | ID.UINT16 => Some (0, 2 ^ 16 - 1)
  | ID.UINT32 => Some (0, 2 ^ 32 - 1)
  | ID.UINT64 => Some (0, 2 ^ 64 - 1)
  | _ => None
  end.
Definition rangeIn (a b : LogicalTypeID) : bool :=
  match integerRange a, integerRange b with Some (lo, hi), Some (lo', hi') => (lo' <=? lo) && (hi <=? hi') | _, _ => false end.
Definition isLeastUpper (a b c : LogicalTypeID) : bool :=
  rangeIn a c && rangeIn b c && forallb (fun d => negb (rangeIn a d && rangeIn b d) || rangeIn c d) ID.all.
Definition serialWithInt128 (a b : LogicalTypeID) : bool :=
  bool_decide (a = ID.SERIAL /\ b = ID.INT128) || bool_decide (a = ID.INT128 /\ b = ID.SERIAL).

Lemma integers_join_least :
  forallb (fun a => forallb (fun b => negb (isIntegral a && isIntegral b) || serialWithInt128 a b ||
    match tryGetMaxLogicalTypeID a b with Ok (Some c) => isLeastUpper a b c | _ => false end) ID.all) ID.all = true.
Proof. by vm_compute. Qed.
Lemma integers_join a b : isIntegral a = true -> isIntegral b = true -> serialWithInt128 a b = false ->
  exists c, tryGetMaxLogicalTypeID a b = Ok (Some c) /\ isLeastUpper a b c = true.
Proof.
  intros Ha Hb Hs. pose proof integers_join_least as H. rewrite forallb_forall in H. specialize (H a (in_all a)).
  rewrite forallb_forall in H. specialize (H b (in_all b)). rewrite Ha, Hb, Hs in H. cbn in H.
  destruct (tryGetMaxLogicalTypeID a b) as [[c|]|]; try done. eauto.
Qed.
(** The integer is a value of the type. *)
Definition holds (id : LogicalTypeID) (v : Z) : Prop := match integerRange id with Some (lo, hi) => lo <= v <= hi | None => False end.
Lemma rangeIn_holds a b : isIntegral a = true -> isIntegral b = true -> rangeIn a b = true <-> forall v, holds a v -> holds b v.
Proof.
  intros Ha Hb. unfold rangeIn, holds.
  assert (exists lo hi lo' hi', integerRange a = Some (lo, hi) /\ lo <= hi /\ integerRange b = Some (lo', hi')) as (lo & hi & lo' & hi' & -> & Hle & ->).
  { destruct a; try done; destruct b; try done; do 4 eexists; (split; [reflexivity|split; [|reflexivity]]); by vm_compute. }
  rewrite andb_true_iff, !Z.leb_le. split; [intros [? ?] v ?; lia|]. intros H. pose proof (H lo). pose proof (H hi). lia.
Qed.
Lemma isLeastUpper_holds a b c : isIntegral a = true -> isIntegral b = true -> isLeastUpper a b c = true ->
  isIntegral c = true /\ (forall v, holds a v \/ holds b v -> holds c v) /\
  (forall d, isIntegral d = true -> (forall v, holds a v \/ holds b v -> holds d v) -> forall v, holds c v -> holds d v).
Proof.
  intros Ha Hb. unfold isLeastUpper. rewrite !andb_true_iff, forallb_forall. intros [[H1 H2] H3].
  assert (Hc : isIntegral c = true) by (revert H1; unfold rangeIn; destruct (integerRange a) as [[]|]; [|done]; by destruct c).
  split; [done|]. rewrite rangeIn_holds in H1, H2 by done. split; [intros v [Hv|Hv]; auto|]. intros d Hd Hup. apply rangeIn_holds; [done|done|].
  specialize (H3 d (in_all d)). rewrite (proj2 (rangeIn_holds a d Ha Hd)), (proj2 (rangeIn_holds b d Hb Hd)) in H3 by auto. done.
Qed.

(** The digits of every value of an integer type. *)
Lemma digits_enough id lo hi v :
  integerRange id = Some (lo, hi) -> lo <= v <= hi -> id <> ID.SERIAL -> Z.abs v < 10 ^ requiredDigits id.
Proof. intros Hr Hv Hs. destruct id; try done; injection Hr as <- <-; cbn [requiredDigits]; cbn in Hv |- *; lia. Qed.

(** Fewer digits are not enough. *)
Lemma digits_needed id :
  isIntegral id = true -> id <> ID.SERIAL -> exists v, holds id v /\ 10 ^ (requiredDigits id - 1) <= Z.abs v.
Proof.
  intros Hi Hs. assert (exists lo hi, integerRange id = Some (lo, hi)) as (lo & hi & Hr) by (destruct id; try done; by repeat eexists).
  exists hi. unfold holds. rewrite Hr. destruct id; try done; injection Hr as <- <-; cbn; lia.
Qed.
Lemma scale_needed v p s : 10 ^ p <= Z.abs v -> 0 <= p -> 0 <= s -> 10 ^ (p + s) <= Z.abs (v * 10 ^ s).
Proof.
  intros Hv Hp Hs. rewrite Z.abs_mul, (Z.abs_eq (10 ^ s)), Z.pow_add_r by (try apply Z.pow_nonneg; lia).
  apply Z.mul_le_mono_nonneg_r; [|done]. apply Z.pow_nonneg. lia.
Qed.

Lemma scale_up v p s k : Z.abs v < 10 ^ p -> 0 <= p -> 0 <= k -> p + k <= s -> Z.abs (v * 10 ^ k) < 10 ^ s.
Proof.
  intros Hv Hp Hk Hs. rewrite Z.abs_mul, (Z.abs_eq (10 ^ k)) by (apply Z.pow_nonneg; lia).
  apply Z.lt_le_trans with (10 ^ (p + k)); [|apply Z.pow_le_mono_r; lia]. rewrite Z.pow_add_r by done.
  apply Z.mul_lt_mono_pos_r; [|done]. by apply Z.pow_pos_nonneg.
Qed.

(** A decimal type by its parameters. *)
Definition isDecimal (t : LogicalType) (p s : Z) : Prop := DECIMAL p s = Ok t /\ 1 <= p <= 38 /\ 0 <= s <= p.
Lemma isDecimal_info t p s : isDecimal t p s -> typeID t = ID.DECIMAL /\ extraTypeInfo t = Some (DecimalTypeInfo p s) /\ getPrecision t = Ok p /\ getScale t = Ok s.
Proof.
  intros (Ht & Hp & Hs). destruct (wellFormed_decimal p s Hp Hs) as (t' & Ht' & _ & Hid & He). rewrite Ht in Ht'. injection Ht' as <-.
  unfold getPrecision, getScale. rewrite !decide_True, He by done. done.
Qed.

Lemma decimals_join l r pl sl pr sr fuel :
  isDecimal l pl sl -> isDecimal r pr sr -> let s := Z.max sl sr in let p := Z.max (pl - sl) (pr - sr) + s in
  tryGetMaxLogicalType (S fuel) l r = (if 38 <? p then Ok (Some DOUBLE_TYPE) else let* t := DECIMAL p s in Ok (Some t)).
Proof.
  intros Hl Hr s p. destruct (isDecimal_info _ _ _ Hl) as (Il & El & Pl & Sl), (isDecimal_info _ _ _ Hr) as (Ir & Er & Pr & Sr).
  destruct Hl as (Dl & Bl & Cl), Hr as (Dr & Br & Cr).
  cbn [tryGetMaxLogicalType]. unfold tryMaxStep. rewrite !Il, !Ir. cbn [canAlwaysCast andb].
  assert (sameType l r = Ok ((pl =? pr) && (sl =? sr))) as ->.
  { destruct l as [? ? ?], r as [? ? ?]. cbn in Il, Ir, El, Er. subst. done. }
  cbn [obind]. rewrite orb_false_r. case_match eqn:E.
  - apply andb_true_iff in E as [E1%Z.eqb_eq E2%Z.eqb_eq]. subst pr sr. assert (p = pl) as -> by lia. assert (s = sl) as -> by lia.
    rewrite (proj2 (Z.ltb_ge 38 pl)) by lia. by rewrite Dr.
  - rewrite !bool_decide_eq_true_2 by done. cbn [andb]. unfold tryCombineDecimalTypes, DECIMAL_PRECISION_LIMIT.
    rewrite Pl, Sl, Pr, Sr. cbn [obind]. rewrite (wrapU_id 32 (pl - sl)), (wrapU_id 32 (pr - sr)), wrapU_id by (unfold inU; lia). done.
Qed.

Lemma decimal_integer_join d p s n fuel :
  isDecimal d p s -> isIntegral (typeID n) = true -> let q := requiredDigits (typeID n) + s in
  let joined := if 38 <? q then Ok (Some DOUBLE_TYPE) else let* t := DECIMAL (Z.max q p) s in Ok (Some t) in
  tryGetMaxLogicalType (S fuel) d n = joined /\ tryGetMaxLogicalType (S fuel) n d = joined.
Proof.
  intros Hd Hn q joined. destruct (isDecimal_info _ _ _ Hd) as (Id & Ed & Pd & Sd). destruct Hd as (Dd & Bd & Cd).
  assert (Hc : canAlwaysCast (typeID n) = false) by (by destruct (typeID n)).
  assert (Hne : typeID n <> ID.DECIMAL) by (by intros Hne; rewrite Hne in Hn).
  assert (Hnum : isNumerical (typeID n) = true) by (by destruct (typeID n)).
  assert (Hq : 3 <= requiredDigits (typeID n) <= 39) by (unfold requiredDigits, DECIMAL_PRECISION_LIMIT; case_match; lia).
  assert (tryCombineDecimalWithNumeric d n = joined) as Hj.
  { unfold tryCombineDecimalWithNumeric, DECIMAL_PRECISION_LIMIT. rewrite Pd, Sd. cbn [obind]. rewrite !wrapU_id by (unfold inU; lia). done. }
  assert (forall t u, typeID t <> typeID u -> sameType t u = Ok false) as Hsame by (intros [] [] Ht; cbn in *; by rewrite decide_False).
  cbn [tryGetMaxLogicalType]. unfold tryMaxStep. rewrite !Id, !Hc, !Hnum. cbn [canAlwaysCast andb].
  rewrite (Hsame d n), (Hsame n d) by (rewrite Id; done). cbn [obind orb]. rewrite (bool_decide_eq_false_2 (typeID n = ID.DECIMAL)) by done.
  rewrite (bool_decide_eq_true_2 (ID.DECIMAL = ID.DECIMAL)) by done. cbn [andb]. done.
Qed.

(** The join of a decimal and an integer type is wide enough for both, and no wider. *)
Lemma decimal_integer_least n p s :
  isIntegral (typeID n) = true -> typeID n <> ID.SERIAL -> 1 <= p <= 38 -> 0 <= s <= p ->
  let joined := if 38 <? requiredDigits (typeID n) + s then Ok (Some DOUBLE_TYPE)
                else let* t := DECIMAL (Z.max (requiredDigits (typeID n) + s) p) s in Ok (Some t) in
  joined = Ok (Some DOUBLE_TYPE) /\ (exists v, holds (typeID n) v /\ 10 ^ 38 <= Z.abs (v * 10 ^ s)) \/
  exists t q, joined = Ok (Some t) /\ isDecimal t q s /\ p <= q /\ (forall v, holds (typeID n) v -> Z.abs (v * 10 ^ s) < 10 ^ q) /\
    (q = p \/ exists v, holds (typeID n) v /\ 10 ^ (q - 1) <= Z.abs (v * 10 ^ s)).
Proof.
  intros Hn Hser Hp Hs joined. subst joined. destruct (digits_needed _ Hn Hser) as (m & Hm & Hbig).
  assert (Hq : 3 <= requiredDigits (typeID n)) by (unfold requiredDigits, DECIMAL_PRECISION_LIMIT; case_match; lia).
  apply scale_needed with (s := s) in Hbig; [|lia..]. set (k := requiredDigits (typeID n)) in *.
  destruct (Z.ltb_spec 38 (k + s)) as [E|E].
  - left. split; [done|]. exists m. split; [done|]. etransitivity; [|exact Hbig]. apply Z.pow_le_mono_r; lia.
  - right. destruct (good_decimal true (Z.max (k + s) p) s) as (t & Ht & _); [lia|lia|]. rewrite Ht. exists t, (Z.max (k + s) p).
    split; [done|]. split; [by repeat split; [|lia..]|]. split; [lia|]. split.
    + intros v Hv. unfold holds in Hv. destruct (integerRange (typeID n)) as [[lo hi]|] eqn:Er; [|done].
      eapply scale_up; [by eapply digits_enough|lia..].
    + destruct (Z.le_gt_cases (k + s) p); [left; lia|]. right. exists m. split; [done|].
      replace (Z.max (k + s) p - 1) with (k - 1 + s) by lia. done.
Qed.

Lemma wellFormed_integral t : wellFormed t -> isIntegral (typeID t) = true -> newType (typeID t) = Ok t.
Proof. intros (Hs & Hp & _)%wellFormed_inv Hi. destruct t as [id p e]. cbn in *. destruct id; try discriminate Hi; cbn in Hs, Hp; subst e; by injection Hp as <-. Qed.

Lemma integer_types_join l r fuel :
  wellFormed l -> wellFormed r -> isIntegral (typeID l) = true -> isIntegral (typeID r) = true -> serialWithInt128 (typeID l) (typeID r) = false ->
  exists t, tryGetMaxLogicalType (S fuel) l r = Ok (Some t) /\ isLeastUpper (typeID l) (typeID r) (typeID t) = true.
Proof.
  intros Hl Hr Il Ir Hs. destruct (integers_join _ _ Il Ir Hs) as (c & Hc & Hleast).
  apply wellFormed_integral in Hl as Nl; [|done]. apply wellFormed_integral in Hr as Nr; [|done].
  destruct l as [a pa ea], r as [b pb eb]. cbn [typeID] in *.
  destruct a; try discriminate Il; injection Nl as <- <-; destruct b; try discriminate Ir; injection Nr as <- <-;
    try discriminate Hs; (injection Hc as <-; eexists; split; [reflexivity|exact Hleast]).
Qed.

(** C31. Joining numeric types to an integer or decimal type loses no value, and the join is as narrow
    as it can be; SERIAL apart, it is DOUBLE only when 38 digits are too few.  Two integer types
    (other than SERIAL with INT128) have as their common type an integer type that has all values of
    both, and every integer type that has them has all values of the common type.  Two decimals are joined
    to the decimal with the larger scale and enough digits before the point, so that every value of
    either, rescaled, fits its precision; with more than 38 digits the join is DOUBLE.  A decimal and
    an integer type other than SERIAL, in either order, are joined to a decimal of the same scale that
    has all values of both, whose precision is the decimal's own or one that no smaller precision
    could replace, since some value of the integer type would not fit it; or they are joined to
    DOUBLE, and then some value of the integer type does not fit 38 digits at the scale.  A decimal and SERIAL are joined to DOUBLE
    whatever their digits. *)
Theorem numeric_join_bounds fuel :
  (forall l r, wellFormed l -> wellFormed r -> isIntegral (typeID l) = true -> isIntegral (typeID r) = true ->
     serialWithInt128 (typeID l) (typeID r) = false ->
     exists t, tryGetMaxLogicalType (S fuel) l r = Ok (Some t) /\ isIntegral (typeID t) = true /\
       (forall v, holds (typeID l) v \/ holds (typeID r) v -> holds (typeID t) v) /\
       (forall id, isIntegral id = true -> (forall v, holds (typeID l) v \/ holds (typeID r) v -> holds id v) -> forall v, holds (typeID t) v -> holds id v)) /\
  (forall l r pl sl pr sr, isDecimal l pl sl -> isDecimal r pr sr ->
     let s := Z.max sl sr in let p := Z.max (pl - sl) (pr - sr) + s in
     (38 < p -> tryGetMaxLogicalType (S fuel) l r = Ok (Some DOUBLE_TYPE)) /\
     (p <= 38 -> exists t, tryGetMaxLogicalType (S fuel) l r = Ok (Some t) /\ isDecimal t p s /\
        (forall v, Z.abs v < 10 ^ pl -> Z.abs (v * 10 ^ (s - sl)) < 10 ^ p) /\ (forall v, Z.abs v < 10 ^ pr -> Z.abs (v * 10 ^ (s - sr)) < 10 ^ p))) /\
  (forall d n p s, isDecimal d p s -> isIntegral (typeID n) = true ->
     tryGetMaxLogicalType (S fuel) d n = tryGetMaxLogicalType (S fuel) n d /\
     (typeID n = ID.SERIAL -> tryGetMaxLogicalType (S fuel) d n = Ok (Some DOUBLE_TYPE)) /\
     (typeID n <> ID.SERIAL ->
      tryGetMaxLogicalType (S fuel) d n = Ok (Some DOUBLE_TYPE) /\ (exists v, holds (typeID n) v /\ 10 ^ 38 <= Z.abs (v * 10 ^ s)) \/
      exists t q, tryGetMaxLogicalType (S fuel) d n = Ok (Some t) /\ isDecimal t q s /\ p <= q /\
        (forall v, holds (typeID n) v -> Z.abs (v * 10 ^ s) < 10 ^ q) /\
        (q = p \/ exists v, holds (typeID n) v /\ 10 ^ (q - 1) <= Z.abs (v * 10 ^ s)))).
Proof.
  split; [|split].
  - intros l r Hl Hr Il Ir Hs. destruct (integer_types_join l r fuel Hl Hr Il Ir Hs) as (t & Ht & Hleast). exists t. split; [done|].
    by apply isLeastUpper_holds.
  - intros l r pl sl pr sr Hl Hr s p. rewrite (decimals_join _ _ _ _ _ _ fuel Hl Hr). fold s p. destruct Hl as (_ & Bl & Cl), Hr as (_ & Br & Cr). split.
    + intros Hp. by rewrite (proj2 (Z.ltb_lt 38 p)).
    + intros Hp. rewrite (proj2 (Z.ltb_ge 38 p)) by done. destruct (good_decimal true p s) as (t & Ht & _); [lia|lia|]. rewrite Ht. exists t.
      split; [done|]. split; [by repeat split; [|lia..]|]. split; intros v Hv; (eapply scale_up; [exact Hv|lia..]).
  - intros d n p s Hd Hn. destruct (decimal_integer_join d p s n fuel Hd Hn) as [-> ->]. split; [done|]. destruct Hd as (_ & Bd & Cd). split.
    + intros ->. change (requiredDigits ID.SERIAL) with 39. by rewrite (proj2 (Z.ltb_lt 38 (39 + s))) by lia.
    + intros Hser. by apply decimal_integer_least.
Qed.

(** ** Witnesses and examples *)

Definition INT32_TYPE : LogicalType := mkLogicalType ID.INT32 INT32 None.
Definition INT64_TYPE : LogicalType := mkLogicalType ID.INT64 INT64 None.

(** STRUCT(a ANY, b INT32[]), and STRUCT(b INT64[], c STRING). *)
Definition exLeft : LogicalType := newStruct [(str "a", ANY_TYPE); (str "b", newList INT32_TYPE)].
Definition exRight : LogicalType := newStruct [(str "b", newList INT64_TYPE); (str "c", STRING_TYPE)].
Lemma exLeft_good : good true exLeft.
Proof.
  apply good_struct, Forall_cons_2; [apply (good_new _ ID.ANY); auto|]. apply Forall_singleton, good_list, (good_new _ ID.INT32); auto.
Qed.
Lemma exRight_good : good true exRight.
Proof. apply good_struct, Forall_cons_2; [|by apply Forall_singleton, good_string]. apply good_list, (good_new _ ID.INT64); auto. Qed.

Lemma types_well_formed_witness :
  exists v, purgeAny exLeft STRING_TYPE = Ok v /\ wellFormed v /\ (plain exLeft -> plain STRING_TYPE -> containsAny STRING_TYPE = false -> plain v /\ containsAny v = false).
Proof. apply (proj2 (proj2 (proj2 types_well_formed))); [apply exLeft_good|apply (good_string true)]. Defined.

Lemma common_type_total_witness :
  (exists o, tryGetMaxLogicalType 3 exLeft exRight = Ok o) /\ (exists t, combineTypes 3 exLeft exRight = Ok t /\ plain t).
Proof.
  apply common_type_total.
  - apply exLeft_good.
  - apply exRight_good.
  - apply exLeft_good. reflexivity.
  - apply exRight_good. reflexivity.
  - vm_compute. lia.
  - vm_compute. lia.
Defined.

Lemma numeric_join_bounds_witness :
  exists t, tryGetMaxLogicalType 1 INT32_TYPE INT64_TYPE = Ok (Some t) /\ isIntegral (typeID t) = true /\
    (forall v, holds ID.INT32 v \/ holds ID.INT64 v -> holds (typeID t) v) /\
    (forall id, isIntegral id = true -> (forall v, holds ID.INT32 v \/ holds ID.INT64 v -> holds id v) -> forall v, holds (typeID t) v -> holds id v).
Proof. apply (proj1 (numeric_join_bounds 0)); by repeat constructor. Defined.

(** The combined struct has the fields of both. *)
Example structs_combined :
  combineTypes 3 exLeft exRight = Ok (newStruct [(str "a", ANY_TYPE); (str "b", newList INT64_TYPE); (str "c", STRING_TYPE)]) /\
  tryGetMaxLogicalType 3 exLeft exRight = Ok None.
Proof. by vm_compute. Qed.

(** Two structs whose labels differ have a common type if the types of their fields are equal, as
    equality ignores the labels, and none otherwise. *)
Example labels_ignored :
  let t a c := newStruct [(str a, c)] in
  tryGetMaxLogicalType 3 (t "a" INT64_TYPE) (t "b" INT64_TYPE) = Ok (Some (t "b" INT64_TYPE)) /\
  tryGetMaxLogicalType 3 (t "a" INT64_TYPE) (t "b" INT32_TYPE) = Ok None.
Proof. by vm_compute. Qed.

(** [combineTypes] throws for different unions. *)
Example unions_not_combined :
  combineTypes 3 (newUnion [(str "a", INT64_TYPE)]) (newUnion [(str "a", STRING_TYPE)]) = Err (ConversionException "Union casting is not supported").
Proof. by vm_compute. Qed.

(** [purgeAny] does not look into unions. *)
Example union_keeps_any : let t := newUnion [(str "a", ANY_TYPE)] in purgeAny t STRING_TYPE = Ok t /\ containsAny t = true.
Proof. by vm_compute. Qed.

(** SERIAL, whose values are INT64, has no common type with INT128 and with DOUBLE. *)
Example serial_not_widened :
  tryGetMaxLogicalTypeID ID.SERIAL ID.INT128 = Ok None /\ tryGetMaxLogicalTypeID ID.SERIAL ID.DOUBLE = Ok None /\
  tryGetMaxLogicalTypeID ID.INT64 ID.INT128 = Ok (Some ID.INT128) /\ tryGetMaxLogicalTypeID ID.INT64 ID.DOUBLE = Ok (Some ID.DOUBLE).
Proof. by vm_compute. Qed.

(** SERIAL with DECIMAL(5, 2) is joined to DOUBLE, INT64 with it to DECIMAL(21, 2). *)
Example serial_with_decimal :
  let join t := let* d := DECIMAL 5 2 in tryGetMaxLogicalType 1 t d in
  join (mkLogicalType ID.SERIAL INT64 None) = Ok (Some DOUBLE_TYPE) /\ join INT64_TYPE = (let* t := DECIMAL 21 2 in Ok (Some t)).
Proof. by vm_compute. Qed.
