(* ===== verification/NumericText.v ===== *)
(** * Numbers as text (src/include/function/cast/functions/cast_string_non_nested_functions.h,
      src/common/types/types.cpp)

    Casting strings to integers of every width and to decimals, and printing decimals.  The code is
    a template over an operation that takes in one digit: one for the machine integers, which checks
    every digit for overflow, and one for 128-bit integers, which collects digits in a 64-bit
    intermediate number and flushes it into the result.  The operation is the class [CastOp] here, and what
    the parsers need of it the class [CastOpOK]; both operations are instances. *)

From Stdlib Require Import Ascii.
From stdpp Require Import base numbers strings list sets pretty.
From S2P Require Import Prelude Date Int128 Serializer DateText Compression LogicalType TypeText.
Local Open Scope Z_scope.

(** ** Integer types *)

Record intType := mkInt { isSigned : bool; width : Z }.
Definition minOf (t : intType) : Z := if isSigned t then - 2 ^ (width t - 1) else 0.
Definition maxOf (t : intType) : Z := if isSigned t then 2 ^ (width t - 1) - 1 else 2 ^ width t - 1.
Definition inType (t : intType) (z : Z) : Prop := minOf t <= z <= maxOf t.
(** Conversion to the type. *)
Definition toType (t : intType) (z : Z) : Z := if isSigned t then wrapS (width t) z else wrapU (width t) z.
Definition machineInt (t : intType) : Prop := width t ∈ [8; 16; 32; 64].

(** ** Digits *)

Definition removeCStringWhiteSpaces (input : name) : name := rtrim (ltrim input).

Class CastOp (D : Type) := {
  startData : D;
  handleDigit : bool -> D -> Z -> option D;
  finalize : D -> option D;
  resultOf : D -> Z;
}.

Section IntegerCast.
Context {D} {op : CastOp D}.

Fixpoint digitsLoop (negative : bool) (input : name) (result : D) : option D :=
  match input with
  | [] => Some result
  | c :: input =>
      if isDigit c then
        match handleDigit negative result (digitValue c) with
        | Some result => digitsLoop negative input result
        | None => None
        end
      else None
  end.
Definition integerCastLoop (negative : bool) (input : name) (result : D) : option D :=
  let input := if negative then drop 1 input else input in
  match digitsLoop negative input result with
  | None => None
  | Some result => match finalize result with
                   | None => None
                   | Some result => if input is [] then None else Some result
                   end
  end.

Definition tryIntegerCast (signed : bool) (input : name) (result : D) : option D :=
  match removeCStringWhiteSpaces input with
  | [] => None
  | c :: rest =>
      if code c =? 45 then
        if negb signed && negb (forallb (fun d => code d =? 48) rest) then None
        else integerCastLoop true (c :: rest) result
      else if bool_decide (rest <> []) && (code c =? 48) then None
      else integerCastLoop false (c :: rest) result
  end.
End IntegerCast.

(** [IntegerCastOperation]. *)
Definition IntegerHandleDigit (t : intType) (negative : bool) (result digit : Z) : option Z :=
  if negative then
    if result <? Z.quot (minOf t + digit) 10 then None else Some (toType t (result * 10 - digit))
  else
    if Z.quot (maxOf t - digit) 10 <? result then None else Some (toType t (result * 10 + digit)).
#[global] Instance IntegerCastOperation (t : intType) : CastOp Z :=
  { startData := 0; handleDigit := IntegerHandleDigit t; finalize := Some; resultOf := id }.

(** [Int128CastData] and [Int128CastOperation]; the count of digits has 8 bits. *)
Record Int128CastData := mkData { result : int128_t; intermediate : Z; numDigits : Z }.

(** The multiplication cannot throw, as the result is never the smallest number. *)
Definition flush (d : Int128CastData) : option Int128CastData :=
  if (numDigits d =? 0) && (intermediate d =? 0) then Some d
  else
    let scaled :=
      if negb (low (result d) =? 0) || negb (high (result d) =? 0) then
        if 38 <? numDigits d then None
        else match powerOf10 !! Z.to_nat (numDigits d) with
             | Some p => match tryMultiply multiplyBuiltin (result d) p with Ok r => r | Err _ => None end
             | None => None
             end
      else Some (result d) in
    match scaled with
    | None => None
    | Some r => let '(ok, r) := addInPlace r (castTo (intermediate d)) in if ok then Some (mkData r 0 0) else None
    end.
Definition Int128HandleDigit (negative : bool) (d : Int128CastData) (digit : Z) : option Int128CastData :=
  let flushed :=
    if negative then if intermediate d <? Z.quot (- 2 ^ 63 + digit) 10 then flush d else Some d
    else if Z.quot (2 ^ 63 - 1 - digit) 10 <? intermediate d then flush d else Some d in
  match flushed with
  | None => None
  | Some d => Some (mkData (result d) (intermediate d * 10 + (if negative then - digit else digit)) (wrapU 8 (numDigits d + 1)))
  end.
#[global] Instance Int128CastOperation : CastOp Int128CastData :=
  { startData := mkData (mk128 0 0) 0 0; handleDigit := Int128HandleDigit; finalize := flush; resultOf := fun d => value (result d) }.

Definition trySimpleIntegerCast (t : intType) (input : name) : option Z :=
  tryIntegerCast (op := IntegerCastOperation t) (isSigned t) input 0.
Definition trySimpleInt128Cast (input : name) : option int128_t :=
  result <$> tryIntegerCast true input (startData (CastOp := Int128CastOperation)).

Definition simpleIntegerCast (t : intType) (input : name) : outcome Z :=
  match trySimpleIntegerCast t input with Some v => Ok v | None => Err (ConversionException "Cast failed. Could not convert.") end.
Definition simpleInt128Cast (input : name) : outcome int128_t :=
  match trySimpleInt128Cast input with Some v => Ok v | None => Err (ConversionException "Cast failed. Not within INT128 range.") end.

(** ** What the parsers need of an operation *)

(** [rep neg st m n]: the data stands for the number of magnitude [m], after [n] digits. *)
Class CastOpOK {D} (op : CastOp D) := {
  opSigned : bool;
  limit : bool -> Z;
  room : nat -> Prop;
  rep : bool -> D -> Z -> nat -> Prop;
  room_le n n' : (n <= n')%nat -> room n' -> room n;
  rep_start neg : rep neg startData 0 0;
  rep_nonneg neg st m n : rep neg st m n -> 0 <= m;
  rep_digit neg st m n d :
    rep neg st m n -> room (S n) -> 0 <= d < 10 -> (neg = true -> opSigned = true \/ d = 0) ->
    match handleDigit neg st d with Some st' => rep neg st' (m * 10 + d) (S n) | None => limit neg <= m * 10 + d end;
  rep_final neg st m n :
    rep neg st m n -> match finalize st with
                      | Some st' => rep neg st' m n /\ resultOf st' = (if neg then - m else m) /\ m < limit neg
                      | None => limit neg <= m
                      end;
}.

(** The machine integers. *)
Lemma toType_id t z : 0 < width t -> inType t z -> toType t z = z.
Proof.
  unfold inType, minOf, maxOf, toType. intros Hw Hz. destruct (isSigned t).
  - apply wrapS_id; [done|]. unfold inS. lia.
  - apply wrapU_id. unfold inU. lia.
Qed.

Definition repInt (t : intType) (neg : bool) (st m : Z) (n : nat) : Prop :=
  st = (if neg then - m else m) /\ 0 <= m /\ (if neg then minOf t <= - m else m <= maxOf t).

Lemma quot_le a b : (b < Z.quot a 10 <-> b * 10 < a - Z.rem a 10) /\ (Z.quot a 10 < b <-> a - Z.rem a 10 < b * 10).
Proof. pose proof (Z.quot_rem a 10). lia. Qed.

Lemma machine_max t : machineInt t -> 0 < width t /\ 9 <= maxOf t /\ minOf t <= 0 /\ (isSigned t = true -> minOf t <= -9).
Proof.
  unfold machineInt, maxOf, minOf. destruct t as [s w]. cbn [isSigned width]. rewrite !elem_of_cons, elem_of_nil.
  intros [->|[->|[->|[->|[]]]]]; destruct s; cbn; lia.
Qed.

Lemma repInt_digit t neg st m n d :
  machineInt t -> repInt t neg st m n -> 0 <= d < 10 -> (neg = true -> isSigned t = true \/ d = 0) ->
  match IntegerHandleDigit t neg st d with
  | Some st' => repInt t neg st' (m * 10 + d) (S n)
  | None => (if neg then 1 - minOf t else maxOf t + 1) <= m * 10 + d
  end.
Proof.
  intros (Hw & Hmax & Hmin & Hmin')%machine_max (-> & Hm & Hb) Hd Hs. unfold IntegerHandleDigit. destruct neg.
  - assert (Hr : minOf t + d <= 0) by (destruct Hs; [done|specialize (Hmin' H); lia|lia]).
    pose proof (quot_le (minOf t + d) (- m)) as [Hq _]. pose proof (Z.rem_nonpos (minOf t + d) 10 ltac:(lia) Hr).
    pose proof (Z.rem_bound_abs (minOf t + d) 10 ltac:(lia)). destruct (_ <? _) eqn:E.
    + apply Z.ltb_lt, Hq in E. lia.
    + apply Z.ltb_ge in E. assert (minOf t <= - (m * 10 + d)) by lia. rewrite toType_id; [|done|unfold inType; lia].
      unfold repInt. lia.
  - pose proof (quot_le (maxOf t - d) m) as [_ Hq]. pose proof (Z.rem_bound_pos (maxOf t - d) 10 ltac:(lia) ltac:(lia)). destruct (_ <? _) eqn:E.
    + apply Z.ltb_lt, Hq in E. lia.
    + apply Z.ltb_ge in E. assert (m * 10 + d <= maxOf t) by lia. rewrite toType_id; [|done|unfold inType; lia].
      unfold repInt. lia.
Qed.

#[refine, global] Instance IntegerCastOK (t : intType) (Ht : machineInt t) : CastOpOK (IntegerCastOperation t) :=
  { opSigned := isSigned t;
    limit neg := if neg then 1 - minOf t else maxOf t + 1;
    room _ := True;
    rep := repInt t }.
Proof.
  - done.
  - intros neg. apply machine_max in Ht. unfold repInt. destruct neg; cbn; lia.
  - by intros neg st m n (_ & ? & _).
  - intros neg st m n d Hr _ Hd Hs. by apply repInt_digit.
  - intros neg st m n Hr. pose proof Hr as (-> & Hm & Hb). cbn. split; [done|]. split; [done|]. destruct neg; lia.
Defined.

(** 128-bit integers: the result times a power of ten, and the digits not yet flushed. *)
Definition signed (neg : bool) (m : Z) : Z := if neg then - m else m.
Record rep128 (neg : bool) (st : Int128CastData) (m : Z) (n : nat) : Prop := {
  r_wf : wf128 (result st);
  r_nonneg : 0 <= signed neg (value (result st)) < 2 ^ 127;
  r_inter : 0 <= signed neg (intermediate st) < 10 ^ numDigits st;
  r_inter64 : inS 64 (intermediate st);
  r_digits : 0 <= numDigits st <= Z.of_nat n /\ Z.of_nat n <= 255;
  r_value : m = signed neg (value (result st)) * 10 ^ numDigits st + signed neg (intermediate st);
}.

Lemma signed_twice neg m : signed neg (signed neg m) = m.
Proof. destruct neg; cbn; lia. Qed.
Lemma signed_mul neg a b : signed neg (a * b) = signed neg a * b.
Proof. destruct neg; cbn; lia. Qed.
Lemma signed_add neg a b : signed neg (a + b) = signed neg a + signed neg b.
Proof. destruct neg; cbn; lia. Qed.
Lemma signed_range neg z : 0 <= signed neg z < 2 ^ 127 -> z <> MIN128.
Proof. unfold MIN128. destruct neg; cbn; lia. Qed.

Lemma castTo_ok z : inS 64 z -> wf128 (castTo z) /\ value (castTo z) = z.
Proof. unfold inS, castTo. intros Hz. destruct (Z.ltb_spec z 0); unfold128; lia. Qed.

Definition powerOK (k : Z) : bool :=
  match powerOf10 !! Z.to_nat k with
  | Some p => (0 <=? low p) && (low p <? 18446744073709551616) && (-9223372036854775808 <=? high p) && (high p <? 9223372036854775808) && (value p =? 10 ^ k)
  | None => false
  end.
Lemma powerOf10_at k : 0 <= k <= 38 -> exists p, powerOf10 !! Z.to_nat k = Some p /\ wf128 p /\ value p = 10 ^ k.
Proof.
  intros Hk. assert (Hb : powerOK k = true) by (apply (all_range powerOK 0 39); [by vm_compute|lia]). unfold powerOK in Hb.
  destruct (powerOf10 !! Z.to_nat k) as [p|]; [|done]. exists p. split; [done|]. unfold wf128. lia.
Qed.

Lemma scale_result neg x k : wf128 x -> 0 <= signed neg (value x) < 2 ^ 127 -> 0 <= k <= 38 ->
  exists p, powerOf10 !! Z.to_nat k = Some p /\
    if signed neg (value x) * 10 ^ k <? 2 ^ 127
    then exists r, tryMultiply multiplyBuiltin x p = Ok (Some r) /\ wf128 r /\ signed neg (value r) = signed neg (value x) * 10 ^ k
    else tryMultiply multiplyBuiltin x p = Ok None.
Proof.
  intros Hx Hr Hk. destruct (powerOf10_at k Hk) as (p & Hp & Wp & Vp). exists p. split; [done|].
  assert (Hpow : 0 < 10 ^ k) by (apply Z.pow_pos_nonneg; lia).
  assert (Hneg : MIN128 < 0) by (by vm_compute). assert (Hne : value p <> MIN128) by lia.
  pose proof (tryMultiply_spec x p Hx Wp (signed_range neg _ Hr) Hne) as H. rewrite Vp in H.
  assert (Ea : Z.abs (value x * 10 ^ k) = signed neg (value x) * 10 ^ k).
  { rewrite Z.abs_mul, (Z.abs_eq (10 ^ k)) by lia. f_equal. clear -Hr. unfold signed in *; destruct neg; lia. }
  rewrite Ea in H. unfold MAX128 in H. destruct (Z.ltb_spec (signed neg (value x) * 10 ^ k) (2 ^ 127)).
  - rewrite (proj2 (Z.leb_le _ _)) in H by lia. destruct H as (r & -> & Hrw & Hv). exists r. split; [done|]. split; [done|]. by rewrite Hv, signed_mul.
  - by rewrite (proj2 (Z.leb_gt _ _)) in H by lia.
Qed.

Lemma add_signed neg x z : wf128 x -> 0 <= signed neg (value x) -> inS 64 z -> 0 <= signed neg z ->
  if signed neg (value x) + signed neg z <? 2 ^ 127
  then exists r, addInPlace x (castTo z) = (true, r) /\ wf128 r /\ signed neg (value r) = signed neg (value x) + signed neg z
  else exists r, addInPlace x (castTo z) = (false, r).
Proof.
  intros Hx Hs Hz Hsz. destruct (castTo_ok z Hz) as [Wz Vz]. pose proof (add_spec x (castTo z) Hx Wz) as H. cbn zeta in H. rewrite Vz in H.
  rewrite <- signed_add in *. destruct (Z.ltb_spec (signed neg (value x + z)) (2 ^ 127)).
  - rewrite (proj2 (Z.ltb_lt _ _)), (proj2 (Z.leb_le _ _)) in H by (unfold MIN128, MAX128; unfold signed in *; destruct neg; lia).
    destruct H as (r & -> & Hr & Hv). exists r. split; [done|]. split; [done|]. by rewrite Hv.
  - assert ((MIN128 <? value x + z) && (value x + z <=? MAX128) = false) as E.
    { unfold MIN128, MAX128. unfold signed in *; destruct neg; [rewrite (proj2 (Z.ltb_ge _ _)) by lia; done|rewrite (proj2 (Z.leb_gt _ _)) by lia; apply andb_false_r]. }
    by rewrite E in H.
Qed.

Lemma flush_spec neg st m n : rep128 neg st m n ->
  match flush st with
  | Some st' => wf128 (result st') /\ signed neg (value (result st')) = m /\ 0 <= m < 2 ^ 127 /\ intermediate st' = 0 /\ numDigits st' = 0
  | None => 2 ^ 127 <= m
  end.
Proof.
  intros [Hw Hr Hi Hi64 Hd ->]. unfold flush. set (k := numDigits st) in *. set (x := result st) in *.
  assert (Hpow : 0 < 10 ^ k) by (apply Z.pow_pos_nonneg; lia).
  destruct ((k =? 0) && (intermediate st =? 0)) eqn:E0.
  { apply andb_true_iff in E0 as [Ek%Z.eqb_eq Ei%Z.eqb_eq]. fold x k. rewrite Ek, Ei. assert (signed neg 0 = 0) as -> by (by destruct neg).
    rewrite Z.pow_0_r, Z.mul_1_r, Z.add_0_r. done. }
  clear E0. set (z := intermediate st) in *.
  assert (Hadd : forall r, wf128 r -> signed neg (value r) = signed neg (value x) * 10 ^ k ->
            match (let '(ok, r) := addInPlace r (castTo z) in if ok then Some (mkData r 0 0) else None) with
            | Some st' => wf128 (result st') /\ signed neg (value (result st')) = signed neg (value x) * 10 ^ k + signed neg z /\
                0 <= signed neg (value x) * 10 ^ k + signed neg z < 2 ^ 127 /\ intermediate st' = 0 /\ numDigits st' = 0
            | None => 2 ^ 127 <= signed neg (value x) * 10 ^ k + signed neg z
            end).
  { intros r Hrw Hv. assert (0 <= signed neg (value x) * 10 ^ k) by (apply Z.mul_nonneg_nonneg; lia).
    pose proof (add_signed neg r z Hrw ltac:(lia) Hi64 ltac:(lia)) as H'. rewrite Hv in H'.
    destruct (Z.ltb_spec (signed neg (value x) * 10 ^ k + signed neg z) (2 ^ 127)); destruct H' as [r' H'].
    - destruct H' as (-> & Hw' & Hv'). cbn. split; [done|]. split; [by rewrite Hv'|]. split; [lia|done].
    - rewrite H'. cbn. lia. }
  destruct (negb (low x =? 0) || negb (high x =? 0)) eqn:Enz.
  - assert (Hpos : 1 <= signed neg (value x)).
    { destruct x as [l h]. cbn [low high] in Enz. clear -Enz Hr Hw. unfold signed in *. unfold128. destruct neg; lia. }
    destruct (Z.ltb_spec 38 k) as [Hk|Hk].
    { assert (10 ^ 39 <= 10 ^ k) by (apply Z.pow_le_mono_r; lia). assert (2 ^ 127 <= 10 ^ 39) by (by vm_compute). nia. }
    destruct (scale_result neg x k Hw Hr) as (p & -> & Hs); [lia|].
    destruct (Z.ltb_spec (signed neg (value x) * 10 ^ k) (2 ^ 127)); [|rewrite Hs; lia]. destruct Hs as (r & -> & Hrw & Hv). by apply Hadd.
  - assert (signed neg (value x) = 0) as Ez.
    { destruct x as [l h]. cbn [low high] in Enz. apply orb_false_iff in Enz as [El Eh]. apply negb_false_iff, Z.eqb_eq in El, Eh. subst. by destruct neg. }
    apply Hadd; [done|]. by rewrite Ez.
Qed.

Lemma flushed_rep neg st m n : rep128 neg st m n ->
  match flush st with
  | Some st' => rep128 neg st' m n /\ intermediate st' = 0 /\ numDigits st' = 0 /\ signed neg (value (result st')) = m /\ m < 2 ^ 127
  | None => 2 ^ 127 <= m
  end.
Proof.
  intros Hr. pose proof (flush_spec neg st m n Hr) as H. destruct Hr as [_ _ _ _ Hd _]. destruct (flush st) as [st'|]; [|done].
  destruct H as (Hw & Hv & Hm & Hi & Hn). split; [|split_and!; [done..|lia]]. assert (E0 : signed neg 0 = 0) by (by destruct neg). constructor.
  - done.
  - by rewrite Hv.
  - rewrite Hi, Hn, E0. cbn. lia.
  - rewrite Hi. unfold inS. lia.
  - rewrite Hn. lia.
  - rewrite Hi, Hn, Hv, E0. cbn. lia.
Qed.

(** One more digit for the intermediate number. *)
Lemma rep128_more neg st m n d : rep128 neg st m n -> (S n <= 255)%nat -> 0 <= d < 10 ->
  inS 64 (intermediate st * 10 + signed neg d) ->
  rep128 neg (mkData (result st) (intermediate st * 10 + signed neg d) (wrapU 8 (numDigits st + 1))) (m * 10 + d) (S n).
Proof.
  intros [Hw Hr Hi Hi64 Hd ->] Hn Hdig H64. rewrite wrapU_id by (unfold inU; lia).
  assert (Ep : 10 ^ (numDigits st + 1) = 10 * 10 ^ numDigits st) by (rewrite Z.add_1_r, Z.pow_succ_r by lia; done).
  assert (Es : signed neg (intermediate st * 10 + signed neg d) = signed neg (intermediate st) * 10 + d).
  { by rewrite signed_add, signed_mul, signed_twice. }
  constructor; cbn [result intermediate numDigits]; [done|done|rewrite Es, Ep; lia|done|lia|]. rewrite Es, Ep. ring.
Qed.

Lemma rep128_digit neg st m n d : rep128 neg st m n -> (S n <= 255)%nat -> 0 <= d < 10 ->
  match Int128HandleDigit neg st d with Some st' => rep128 neg st' (m * 10 + d) (S n) | None => 2 ^ 127 <= m * 10 + d end.
Proof.
  intros Hr Hn Hd. unfold Int128HandleDigit. change (if neg then - d else d) with (signed neg d).
  assert (Hflush : match flush st with
                   | Some d' => rep128 neg (mkData (result d') (intermediate d' * 10 + signed neg d) (wrapU 8 (numDigits d' + 1))) (m * 10 + d) (S n)
                   | None => 2 ^ 127 <= m * 10 + d
                   end).
  { pose proof (flushed_rep neg st m n Hr) as H. destruct (flush st) as [st'|]; [|lia]. destruct H as (Hr' & Hi & _).
    apply rep128_more; [done|done|done|]. rewrite Hi. unfold inS, signed. destruct neg; lia. }
  pose proof Hr as [_ _ Hi Hi64 _ _]. unfold inS in Hi64. destruct neg.
  - pose proof (quot_le (- 2 ^ 63 + d) (intermediate st)) as [Hq _]. pose proof (Z.rem_nonpos (- 2 ^ 63 + d) 10 ltac:(lia) ltac:(lia)).
    destruct (Z.ltb_spec (intermediate st) (Z.quot (- 2 ^ 63 + d) 10)) as [E|E]; [by destruct (flush st)|].
    apply rep128_more; [done|done|done|]. unfold inS, signed in *. pose proof (Z.rem_bound_abs (- 2 ^ 63 + d) 10 ltac:(lia)). lia.
  - pose proof (quot_le (2 ^ 63 - 1 - d) (intermediate st)) as [_ Hq]. pose proof (Z.rem_bound_pos (2 ^ 63 - 1 - d) 10 ltac:(lia) ltac:(lia)).
    destruct (Z.ltb_spec (Z.quot (2 ^ 63 - 1 - d) 10) (intermediate st)) as [E|E]; [by destruct (flush st)|].
    apply rep128_more; [done|done|done|]. unfold inS, signed in *. lia.
Qed.

#[refine, global] Instance Int128CastOK : CastOpOK Int128CastOperation :=
  { opSigned := true; limit _ := 2 ^ 127; room n := (n <= 255)%nat; rep := rep128 }.
Proof.
  - intros; lia.
  - intros neg. destruct neg; constructor; by vm_compute.
  - intros neg st m n [Hw Hr Hi _ Hd ->]. assert (0 < 10 ^ numDigits st) by (apply Z.pow_pos_nonneg; lia).
    assert (0 <= signed neg (value (result st)) * 10 ^ numDigits st) by (apply Z.mul_nonneg_nonneg; lia). lia.
  - intros neg st m n d Hr Hn Hd _. by apply rep128_digit.
  - intros neg st m n Hr. pose proof (flushed_rep neg st m n Hr) as H. cbn. destruct (flush st) as [st'|]; [|done].
    destruct H as (Hr' & _ & _ & Hv & Hm). split; [done|]. split; [|done]. rewrite <- Hv. by destruct neg; cbn; rewrite ?Z.opp_involutive.
Defined.

(** ** Parsing integers *)

Definition minus : ascii := ch 45.
Definition point : ascii := ch 46.

Section Parsers.
Context {D} {op : CastOp D} {ok : CastOpOK op}.

Lemma digitsLoop_spec neg ds st m n :
  Forall isDigitChar ds -> rep neg st m n -> room (n + length ds) -> (neg = true -> opSigned = true \/ Forall (fun c => digitValue c = 0) ds) ->
  match digitsLoop neg ds st with
  | Some st' => rep neg st' (decimal ds m) (n + length ds)
  | None => limit neg <= decimal ds m
  end.
Proof.
  intros Hds. revert st m n. induction Hds as [|c ds Hc Hds IH]; intros st m n Hr Hn Hs; cbn [digitsLoop decimal length].
  - by rewrite Nat.add_0_r.
  - unfold isDigitChar in Hc. rewrite Hc. pose proof (digit_range c Hc) as Hd. rewrite (Z.add_comm (digitValue c)).
    pose proof (rep_digit neg st m n (digitValue c) Hr) as H.
    assert (Hroom : room (S n)) by (eapply room_le; [|exact Hn]; cbn; lia).
    assert (Hs1 : neg = true -> opSigned = true \/ digitValue c = 0).
    { intros E. destruct (Hs E) as [?|Hz]; [by left|right]. by inversion Hz. }
    specialize (H Hroom Hd Hs1). destruct (handleDigit neg st (digitValue c)) as [st'|].
    + cbn [length] in Hn. replace (n + S (length ds))%nat with (S n + length ds)%nat in * by lia. apply IH; [done|done|].
      intros E. destruct (Hs E) as [?|Hz]; [by left|right]. by inversion Hz.
    + pose proof (decimal_ge ds (m * 10 + digitValue c) Hds). pose proof (rep_nonneg _ _ _ _ Hr). lia.
Qed.

(** The digits of a text, up to the limit of the type. *)
Lemma castLoop_spec neg ds :
  Forall isDigitChar ds -> ds <> [] -> room (length ds) -> (neg = true -> opSigned = true \/ Forall (fun c => digitValue c = 0) ds) ->
  resultOf <$> integerCastLoop neg (if neg then minus :: ds else ds) startData =
    if decimal ds 0 <? limit neg then Some (signed neg (decimal ds 0)) else None.
Proof.
  intros Hds Hne Hroom Hs. unfold integerCastLoop.
  assert ((if neg then drop 1 (if neg then minus :: ds else ds) else if neg then minus :: ds else ds) = ds) as -> by (by destruct neg).
  pose proof (digitsLoop_spec neg ds startData 0 0 Hds (rep_start neg) Hroom Hs) as H.
  destruct (digitsLoop neg ds startData) as [st|]; [|by rewrite (proj2 (Z.ltb_ge _ _))].
  pose proof (rep_final neg st _ _ H) as H'. destruct (finalize st) as [st'|]; [|by rewrite (proj2 (Z.ltb_ge _ _))].
  destruct H' as (_ & Hv & Hl). rewrite (proj2 (Z.ltb_lt _ _)) by done. destruct ds; [done|]. cbn. by rewrite Hv.
Qed.

(** A number is written without a leading zero. *)
Definition canonical (ds : name) : Prop := Forall isDigitChar ds /\ ds <> [] /\ (length ds = 1%nat \/ head ds <> Some (ch 48)).

Lemma code_inj c d : code c = code d -> c = d.
Proof. unfold code. intros H. apply Nat2Z.inj in H. rewrite <- (ascii_nat_embedding c), <- (ascii_nat_embedding d). by rewrite H. Qed.

Lemma parse_unsigned sg input ds :
  canonical ds -> removeCStringWhiteSpaces input = ds -> room (length ds) ->
  resultOf <$> tryIntegerCast sg input startData = if decimal ds 0 <? limit false then Some (decimal ds 0) else None.
Proof.
  intros (Hds & Hne & Hz) Hin Hroom. unfold tryIntegerCast. rewrite Hin. destruct ds as [|c ds]; [done|].
  assert (Hc : 48 <= code c <= 57) by (inversion Hds as [|? ? Hd]; subst; unfold isDigitChar, isDigit in Hd; lia).
  rewrite (proj2 (Z.eqb_neq (code c) 45)) by lia.
  assert (bool_decide (ds <> []) && (code c =? 48) = false) as ->.
  { destruct Hz as [Hz|Hz]; [by destruct ds|]. apply andb_false_iff. right. apply Z.eqb_neq. intros E. apply Hz. cbn. f_equal. by apply code_inj. }
  apply (castLoop_spec false); [done|done|done|done].
Qed.

Lemma parse_negative input ds :
  Forall isDigitChar ds -> ds <> [] -> removeCStringWhiteSpaces input = minus :: ds -> room (length ds) -> opSigned = true ->
  resultOf <$> tryIntegerCast true input startData = if decimal ds 0 <? limit true then Some (- decimal ds 0) else None.
Proof.
  intros Hds Hne Hin Hroom Hsg. unfold tryIntegerCast. rewrite Hin. change (code minus =? 45) with true. cbn [negb andb].
  apply (castLoop_spec true); auto.
Qed.
End Parsers.

(** [std::to_string]. *)
Definition printInt (v : Z) : name := if v <? 0 then minus :: toDigits 40 (- v) [] else toDigits 40 v [].

Lemma digits_tight s c : head s = Some c -> isSpace c = false -> Forall (fun c => isSpace c = false) s -> removeCStringWhiteSpaces s = s.
Proof.
  intros Hh Hc Hs. unfold removeCStringWhiteSpaces, ltrim, rtrim. rewrite (skipSpaces_head s c) by done.
  destruct (rev s) as [|d r] eqn:Er; [|rewrite (skipSpaces_head (d :: r) d); [by rewrite <- Er, rev_involutive|done|]].
  - apply (f_equal (@rev ascii)) in Er. rewrite rev_involutive in Er. by subst.
  - rewrite Forall_forall in Hs. apply Hs. apply list_elem_of_In, in_rev. rewrite Er. by left.
Qed.

Lemma printInt_digits v : 0 <= v < 10 ^ 40 ->
  canonical (toDigits 40 v []) /\ decimal (toDigits 40 v []) 0 = v /\ removeCStringWhiteSpaces (toDigits 40 v []) = toDigits 40 v [] /\
  removeCStringWhiteSpaces (minus :: toDigits 40 v []) = minus :: toDigits 40 v [] /\ (length (toDigits 40 v []) <= 40)%nat.
Proof.
  intros Hv. destruct (toDigits_ok 40 v) as (H1 & H2 & d & ds & H3 & H4 & H5); [done|lia|].
  assert (Hsp : Forall (fun c => isSpace c = false) (toDigits 40 v [])) by (eapply Forall_impl; [exact H1|]; by intros c (_ & _ & _ & _ & _ & ? & _)%digit_other).
  split; [|split; [done|split; [|split]]].
  - split; [done|]. rewrite H3. split; [done|]. destruct (decide (v = 0)) as [->|Hn]; [left|right].
    + revert H3. vm_compute. by intros [= _ <-].
    + cbn. intros [= E]. apply (f_equal code) in E. rewrite digitChar_code in E by done. assert (0 < d) by (apply H5; lia).
      change (code (ch 48)) with 48 in E. lia.
  - apply (digits_tight _ (digitChar d)); [by rewrite H3|by apply digitChar_spec|done].
  - apply (digits_tight _ minus); [done|done|]. by constructor.
  - clear. assert (H : forall n v, (length (toDigits n v []) <= n)%nat); [|apply H]. intros n. induction n as [|n IH]; intros w; cbn [toDigits]; [done|].
    destruct (w <? 10); [cbn; lia|]. rewrite toDigits_app, length_app. cbn. specialize (IH (w / 10)). lia.
Qed.

Lemma parse_int t input ds : machineInt t -> canonical ds -> removeCStringWhiteSpaces input = ds ->
  trySimpleIntegerCast t input = if decimal ds 0 <=? maxOf t then Some (decimal ds 0) else None.
Proof.
  intros Ht Hds Hin. pose proof (parse_unsigned (ok := IntegerCastOK t Ht) (isSigned t) input ds Hds Hin I) as H.
  cbn in H. rewrite option_fmap_id in H. unfold trySimpleIntegerCast. rewrite H.
  destruct (Z.ltb_spec (decimal ds 0) (maxOf t + 1)), (Z.leb_spec (decimal ds 0) (maxOf t)); done || lia.
Qed.
Lemma parse_negative_int t input ds :
  machineInt t -> isSigned t = true -> Forall isDigitChar ds -> ds <> [] -> removeCStringWhiteSpaces input = minus :: ds ->
  trySimpleIntegerCast t input = if minOf t <=? - decimal ds 0 then Some (- decimal ds 0) else None.
Proof.
  intros Ht Hs Hds Hne Hin. pose proof (parse_negative (ok := IntegerCastOK t Ht) input ds Hds Hne Hin I Hs) as H.
  cbn in H. rewrite option_fmap_id in H. unfold trySimpleIntegerCast. rewrite Hs, H.
  destruct (Z.ltb_spec (decimal ds 0) (1 - minOf t)), (Z.leb_spec (minOf t) (- decimal ds 0)); done || lia.
Qed.
Lemma parse_int128 input ds : canonical ds -> (length ds <= 255)%nat -> removeCStringWhiteSpaces input = ds ->
  value <$> trySimpleInt128Cast input = if decimal ds 0 <? 2 ^ 127 then Some (decimal ds 0) else None.
Proof.
  intros Hds Hl Hin. unfold trySimpleInt128Cast. rewrite <- option_fmap_compose. by apply (parse_unsigned (ok := Int128CastOK)).
Qed.
Lemma parse_negative_int128 input ds : Forall isDigitChar ds -> ds <> [] -> (length ds <= 255)%nat -> removeCStringWhiteSpaces input = minus :: ds ->
  value <$> trySimpleInt128Cast input = if decimal ds 0 <? 2 ^ 127 then Some (- decimal ds 0) else None.
Proof.
  intros Hds Hne Hl Hin. unfold trySimpleInt128Cast. rewrite <- option_fmap_compose. by apply (parse_negative (ok := Int128CastOK)).
Qed.

Lemma machine_small t v : machineInt t -> inType t v -> - 10 ^ 40 < v < 10 ^ 40.
Proof.
  unfold machineInt, inType, maxOf, minOf. destruct t as [s w]. cbn [isSigned width]. rewrite !elem_of_cons, elem_of_nil.
  intros [->|[->|[->|[->|[]]]]]; destruct s; lia.
Qed.

(** Text is cast to an integer exactly: digits without a leading zero, or a minus sign and digits,
    with spaces around them, give the number they denote if the type of 8, 16, 32, 64 or 128 bits has
    it and an error otherwise, without a wrapped result (for 128 bits up to 255 digits, and the
    smallest number excepted); so every number of every type that is printed is read back. *)
Theorem integers_text :
  (forall t input ds, machineInt t -> canonical ds -> removeCStringWhiteSpaces input = ds ->
     trySimpleIntegerCast t input = if decimal ds 0 <=? maxOf t then Some (decimal ds 0) else None) /\
  (forall t input ds, machineInt t -> isSigned t = true -> Forall isDigitChar ds -> ds <> [] -> removeCStringWhiteSpaces input = minus :: ds ->
     trySimpleIntegerCast t input = if minOf t <=? - decimal ds 0 then Some (- decimal ds 0) else None) /\
  (forall input ds neg, canonical ds -> (length ds <= 255)%nat -> removeCStringWhiteSpaces input = (if neg : bool then minus :: ds else ds) ->
     value <$> trySimpleInt128Cast input = if decimal ds 0 <? 2 ^ 127 then Some (signed neg (decimal ds 0)) else None) /\
  (forall t v, machineInt t -> inType t v -> trySimpleIntegerCast t (printInt v) = Some v) /\
  (forall v, - 2 ^ 127 < v < 2 ^ 127 -> value <$> trySimpleInt128Cast (printInt v) = Some v).
Proof.
  split; [exact parse_int|]. split; [exact parse_negative_int|]. split; [|split].
  - intros input ds neg Hds Hl Hin. destruct neg; [|by apply parse_int128]. destruct Hds as (? & ? & _). by apply parse_negative_int128.
  - intros t v Ht Hv. pose proof (machine_small t v Ht Hv) as Hb. unfold printInt. destruct (Z.ltb_spec v 0) as [Hn|Hn].
    + destruct (printInt_digits (- v)) as ((Hds & Hne & _) & Hdec & _ & Htrim & _); [lia|].
      assert (Hs : isSigned t = true) by (destruct t as [[] w]; [done|]; unfold inType, minOf in Hv; cbn in Hv; lia).
      rewrite (parse_negative_int t _ _ Ht Hs Hds Hne Htrim), Hdec, Z.opp_involutive. unfold inType in Hv. by rewrite (proj2 (Z.leb_le _ _)) by lia.
    + destruct (printInt_digits v) as (Hcan & Hdec & Htrim & _); [lia|]. rewrite (parse_int t _ _ Ht Hcan Htrim), Hdec.
      unfold inType in Hv. by rewrite (proj2 (Z.leb_le _ _)) by lia.
  - intros v Hv. unfold printInt. destruct (Z.ltb_spec v 0) as [Hn|Hn].
    + destruct (printInt_digits (- v)) as ((Hds & Hne & _) & Hdec & _ & Htrim & Hl); [lia|].
      rewrite (parse_negative_int128 _ _ Hds Hne ltac:(lia) Htrim), Hdec, Z.opp_involutive. by rewrite (proj2 (Z.ltb_lt _ _)) by lia.
    + destruct (printInt_digits v) as (Hcan & Hdec & Htrim & _ & Hl); [lia|]. rewrite (parse_int128 _ _ Hcan ltac:(lia) Htrim), Hdec.
      by rewrite (proj2 (Z.ltb_lt _ _)) by lia.
Qed.

Lemma integers_text_witness : trySimpleIntegerCast (mkInt true 16) (str "  -32768 ") = Some (-32768).
Proof.
  apply (proj1 (proj2 integers_text) (mkInt true 16) _ (str "32768")).
  - by apply (bool_decide_unpack _).
  - reflexivity.
  - by repeat constructor.
  - done.
  - by vm_compute.
Defined.

(** After the first flush 256 zeros make the count of digits wrap: the zeros are lost. *)
Example int128_drops_zeros :
  value <$> trySimpleInt128Cast (str "9223372036854775807" ++ replicate 256 (ch 48)) = Some 9223372036854775807.
Proof. by vm_compute. Qed.
(** The smallest 128-bit integer is not read. *)
Example int128_min_not_read : trySimpleInt128Cast (str "-170141183460469231731687303715884105728") = None.
Proof. by vm_compute. Qed.
