(* ===== verification/DecimalCast.v ===== *)
(** * Decimals as text (src/include/function/cast/functions/cast_string_non_nested_functions.h,
      src/common/types/types.cpp)

    A decimal of precision [p] and scale [s] is an integer [v] with |v| < 10^p that stands for
    v / 10^s.  This file has the parser of decimals, which rounds digits it cannot keep, and the
    printer, which puts a point into the printed integer. *)

From Stdlib Require Import Ascii.
From stdpp Require Import base numbers strings list sets pretty.
From S2P Require Import Prelude Date Int128 Serializer DateText Compression LogicalType TypeText NumericText.
Local Open Scope Z_scope.

(** ** Parsing *)

(** Adding one to the result, and the size of the table of powers of ten of the type. *)
Class DecimalOp {D} (op : CastOp D) := {
  addOne : D -> outcome D;
  numPowers : Z;
}.

Section DecimalParser.
Context {D} {op : CastOp D} {dop : DecimalOp op}.

Definition pow10 (k : Z) : outcome Z := if (0 <=? k) && (k <? numPowers) then Ok (10 ^ k) else Err UndefinedBehaviour.

(** The loop over the characters: [None] is the result [false], otherwise the data, the characters
    that are left when the digit limit is reached, and the positions. *)
Fixpoint parseLoop (scale : Z) (input : name) (pos periodPos : Z) (res : D) : option (D * name * Z * Z) :=
  match input with
  | [] => Some (res, [], pos, periodPos)
  | chr :: input' =>
      if code chr =? 46 then parseLoop scale input' (pos + 1) pos res
      else if (periodPos <? pos) && (scale <? pos - periodPos) then Some (res, input, pos, periodPos)
      else if isDigit chr then
        match handleDigit false res (digitValue chr) with
        | Some res => parseLoop scale input' (pos + 1) periodPos res
        | None => None
        end
      else None
  end.

(** The trailing zeros. *)
Fixpoint zerosLoop (fuel : nat) (scale pos periodPos : Z) (res : D) : outcome (option D) :=
  match fuel with
  | O => Err UndefinedBehaviour
  | S fuel =>
      if wrapU 64 (pos - periodPos) <? scale + 1 then
        match handleDigit false res 0 with
        | Some res => zerosLoop fuel scale (pos + 1) periodPos res
        | None => Ok None
        end
      else Ok (Some res)
  end.

(** The final digit decides about rounding. *)
Definition roundFinal (rest : name) (res : D) : outcome (option D) :=
  match rest with
  | [] => Ok (Some res)
  | c :: _ =>
      if isDigit c then
        match finalize res with
        | None => Ok None
        | Some res => if 53 <=? code c then let* res := addOne res in Ok (Some res) else Ok (Some res)
        end
      else Ok None
  end.

Definition tryDecimalCast (input : name) (precision scale : Z) : outcome (option Z) :=
  match removeCStringWhiteSpaces input with
  | [] => Ok None
  | c :: rest =>
      let negativeFlag := code c =? 45 in
      let input := if negativeFlag then rest else c :: rest in
      match parseLoop scale input 0 (wrapU 64 (Z.of_nat (length input) - 1)) startData with
      | None => Ok None
      | Some (res, rest, pos, periodPos) =>
          let* r := roundFinal rest res in
          match r with
          | None => Ok None
          | Some res =>
              let* z := zerosLoop (Z.to_nat scale + 2) scale pos periodPos res in
              match z with
              | None => Ok None
              | Some res =>
                  match finalize res with
                  | None => Ok None
                  | Some res =>
                      let* p := pow10 precision in
                      Ok (if p <=? resultOf res then None else Some (if negativeFlag then - resultOf res else resultOf res))
                  end
              end
          end
      end
  end.
End DecimalParser.

(** The instances: 16 bits wrap around, wider machine integers have no value on overflow. *)
Definition IntegerAddOne (t : intType) (r : Z) : outcome Z :=
  if r + 1 <=? maxOf t then Ok (r + 1) else if width t <? 32 then Ok (toType t (r + 1)) else Err UndefinedBehaviour.
Definition Int128AddOne (d : Int128CastData) : outcome Int128CastData :=
  let '(ok, r) := addInPlace (result d) (castTo 1) in
  if ok then Ok (mkData r (intermediate d) (numDigits d)) else Err (OverflowException "INT128 is out of range: cannot add in place.").

Definition int16 : intType := mkInt true 16.
Definition int32 : intType := mkInt true 32.
Definition int64 : intType := mkInt true 64.
Definition digitsOfWidth (w : Z) : Z := if w =? 16 then 5 else if w =? 32 then 10 else 19.
#[global] Instance IntegerDecimal (t : intType) : DecimalOp (IntegerCastOperation t) :=
  { addOne := IntegerAddOne t; numPowers := digitsOfWidth (width t) }.
#[global] Instance Int128Decimal : DecimalOp Int128CastOperation := { addOne := Int128AddOne; numPowers := 39 }.

(** [decimalCast] of a decimal type, by its physical type. *)
Definition tryCastDecimalOf (type : LogicalType) (input : name) : outcome (option Z) :=
  let* precision := getPrecision type in let* scale := getScale type in
  match physicalType type with
  | INT16 => tryDecimalCast (op := IntegerCastOperation int16) input precision scale
  | INT32 => tryDecimalCast (op := IntegerCastOperation int32) input precision scale
  | INT64 => tryDecimalCast (op := IntegerCastOperation int64) input precision scale
  | INT128 => tryDecimalCast (op := Int128CastOperation) input precision scale
  | _ => Err InternalException
  end.
Definition decimalCast (type : LogicalType) (input : name) : outcome Z :=
  let* r := tryCastDecimalOf type input in
  match r with Some v => Ok v | None => Err (ConversionException "Cast failed. Not in range.") end.

(** ** Printing *)

Definition insertDecimalPoint (value : name) (positionFromEnd : Z) : name :=
  if positionFromEnd =? 0 then value
  else
    let size := length value in
    let n := Z.to_nat positionFromEnd in
    if (size <? n)%nat then str "0." ++ replicate (n - size) (ch 48) ++ value
    else
      let lessBy := (size - n)%nat in
      let retval := take lessBy value in
      (if decide (retval = [] \/ retval = [minus]) then retval ++ [ch 48] else retval) ++ [point] ++ drop lessBy value.

(** The halves of a 128-bit integer. *)
Definition of128 (v : Z) : int128_t := mk128 (u64 v) (v / 2 ^ 64).

(** [Value::decimalToString] and the cast of a decimal to a string, by the integer that is stored. *)
Definition decimalToString (type : LogicalType) (v : Z) : outcome name :=
  let* scale := getScale type in
  match physicalType type with
  | INT16 | INT32 | INT64 => Ok (insertDecimalPoint (printInt v) scale)
  | INT128 => let* s := ToString (of128 v) in Ok (insertDecimalPoint (str s) scale)
  | _ => Err InternalException
  end.

Definition shownAs (type : outcome LogicalType) (v : Z) : string :=
  match (let* t := type in decimalToString t v) with Ok s => String.string_of_list_ascii s | Err _ => "error" end.
Definition readAs (type : outcome LogicalType) (s : string) : outcome (option Z) := let* t := type in tryCastDecimalOf t (str s).

Example shown1 : shownAs (DECIMAL 5 3) 12345 = "12.345"%string. Proof. by vm_compute. Qed.
Example shown2 : shownAs (DECIMAL 5 3) 5 = "0.005"%string. Proof. by vm_compute. Qed.
Example shown3 : shownAs (DECIMAL 5 3) (-1005) = "-1.005"%string. Proof. by vm_compute. Qed.
Example read1 : readAs (DECIMAL 5 3) " -1.0055 " = Ok (Some (-1006)). Proof. by vm_compute. Qed.
Example read2 : readAs (DECIMAL 38 10) "1234567890123456789.5" = Ok (Some 12345678901234567895000000000). Proof. by vm_compute. Qed.

(** ** Texts that should not be read, or are read wrongly *)

(** The zeros that fill up the fraction come before the sign. *)
Example negative_decimal_text : shownAs (DECIMAL 5 3) (-5) = "0.0-5"%string /\ shownAs (DECIMAL 5 2) (-5) = "0.-5"%string.
Proof. by vm_compute. Qed.
(** Several points, a lone sign or point, and anything after the digit that decides about rounding. *)
Example malformed_decimals :
  readAs (DECIMAL 5 1) "1.2.3" = Ok (Some 123) /\ readAs (DECIMAL 5 1) "-" = Ok (Some 0) /\ readAs (DECIMAL 5 1) "." = Ok (Some 0) /\
  readAs (DECIMAL 5 1) "1.25abc" = Ok (Some 13).
Proof. by vm_compute. Qed.
(** Rounding up the largest 16-bit integer wraps around, and the result passes the check of the precision. *)
Example decimal_rounding_wraps : readAs (DECIMAL 4 0) "32767.5" = Ok (Some (-32768)).
Proof. by vm_compute. Qed.

(** The digits behind the first 64-bit number are counted in 8 bits: 218 zeros and the 38 of the scale
    are 256, and the number is read as if they were not there. *)
Example digit_count_wraps :
  (let* t := DECIMAL 38 38 in decimalCast t (str "9223372036854775807" ++ repeat "0"%char 218)) = Ok 9223372036854775807.
Proof. by vm_compute. Qed.

(** ** What the parser needs of an operation *)

Class DecimalOpOK {D} {op : CastOp D} (ok : CastOpOK op) (dop : DecimalOp op) := {
  addOne_rep st0 st m n :
    rep false st0 m n -> finalize st0 = Some st -> m + 1 < limit false -> exists st', addOne st = Ok st' /\ rep false st' (m + 1) n;
  powers_fit : 10 ^ (numPowers - 1) <= limit false;
}.

Lemma decimal_machine t : width t ∈ [16; 32; 64] -> machineInt t.
Proof. unfold machineInt. intros H. right. exact H. Qed.

#[global] Instance IntegerDecimalOK (t : intType) (Ht : machineInt t) (Hs : isSigned t = true) (Hw : width t ∈ [16; 32; 64]) :
  DecimalOpOK (IntegerCastOK t Ht) (IntegerDecimal t).
Proof.
  constructor.
  - intros st0 st m n (-> & Hm & Hb) [= <-] Hl. cbn in Hl. exists (m + 1). cbn. unfold IntegerAddOne. rewrite (proj2 (Z.leb_le _ _)) by lia.
    split; [done|]. unfold repInt. lia.
  - cbn. unfold maxOf. rewrite Hs. revert Hw. rewrite !elem_of_cons, elem_of_nil. intros [->|[->|[->|[]]]]; by vm_compute.
Qed.

#[global] Instance Int128DecimalOK : DecimalOpOK Int128CastOK Int128Decimal.
Proof.
  constructor; [|by vm_compute]. intros st0 st m n Hr Hf Hl. pose proof (flushed_rep false st0 m n Hr) as H. cbn in Hf, Hl. rewrite Hf in H.
  destruct H as (Hr' & Hi & Hn & Hv & Hm). pose proof Hr' as [Hw Hp _ _ Hd _]. cbn [signed] in Hv, Hp.
  pose proof (add_signed false (result st) 1 Hw) as Ha. cbn [signed] in Ha. rewrite Hv in Ha.
  rewrite (proj2 (Z.ltb_lt _ _)) in Ha by lia. destruct Ha as (r & Ha & Hrw & Hrv); [lia|unfold inS; lia|lia|].
  exists (mkData r 0 0). cbn. unfold Int128AddOne. rewrite Ha, Hi, Hn. split; [done|].
  constructor; cbn [result intermediate numDigits signed]; [done|lia|lia|unfold inS; lia|lia|]. rewrite Hrv. lia.
Qed.

(** ** What is parsed *)

(** Digits, and perhaps a point and more digits. *)
Record numberText (s ds fs : name) : Prop := {
  nt_digits : Forall isDigitChar ds;
  nt_fraction : Forall isDigitChar fs;
  nt_text : s = ds ++ point :: fs \/ s = ds /\ fs = [] /\ ds <> [];
}.

(** The digits that are kept, the number they make with zeros to fill up, and the rounding. *)
Definition keptDigits (ds fs : name) (scale : nat) : Z := decimal (ds ++ take scale fs) 0.
Definition roundUp (fs : name) (scale : nat) : Z := match fs !! scale with Some c => if 53 <=? code c then 1 else 0 | None => 0 end.
Definition roundedValue (ds fs : name) (scale : nat) : Z :=
  keptDigits ds fs scale * 10 ^ Z.of_nat (scale - length fs) + roundUp fs scale.

Lemma digit_not_point c : isDigitChar c -> (code c =? 46) = false.
Proof. unfold isDigitChar, isDigit. intros H. apply Z.eqb_neq. lia. Qed.

Section ParserProof.
Context {D} {op : CastOp D} {ok : CastOpOK op} {dop : DecimalOp op} {dok : DecimalOpOK ok dop}.

(** Digits that are not beyond the limit are taken in. *)
Lemma parse_digits scale ds : forall rest pos periodPos st m n,
  Forall isDigitChar ds -> rep false st m n -> room (n + length ds) ->
  (pos + Z.of_nat (length ds) <= periodPos + 1 \/ (periodPos < pos /\ pos + Z.of_nat (length ds) <= periodPos + 1 + scale)) ->
  match digitsLoop false ds st with
  | Some st' => rep false st' (decimal ds m) (n + length ds) /\
      parseLoop scale (ds ++ rest) pos periodPos st = parseLoop scale rest (pos + Z.of_nat (length ds)) periodPos st'
  | None => limit false <= decimal ds m /\ parseLoop scale (ds ++ rest) pos periodPos st = None
  end.
Proof.
  intros rest pos periodPos st m n Hds Hr Hn Hpos.
  assert (Hloop : parseLoop scale (ds ++ rest) pos periodPos st =
    match digitsLoop false ds st with Some st' => parseLoop scale rest (pos + Z.of_nat (length ds)) periodPos st' | None => None end).
  { clear Hr Hn m n. revert pos st Hpos. induction Hds as [|c ds Hc Hds IH]; intros pos st Hpos; cbn [parseLoop digitsLoop app length].
    - by rewrite Z.add_0_r.
    - rewrite (digit_not_point c Hc). cbn [length] in Hpos. rewrite Nat2Z.inj_succ in Hpos.
      assert ((periodPos <? pos) && (scale <? pos - periodPos) = false) as -> by (apply andb_false_iff; rewrite !Z.ltb_ge; lia).
      unfold isDigitChar in Hc. rewrite Hc. destruct (handleDigit false st (digitValue c)); [|done].
      rewrite IH by lia. rewrite Nat2Z.inj_succ, Z.add_1_r, Z.add_succ_l, Z.add_succ_r. done. }
  pose proof (digitsLoop_spec false ds st m n Hds Hr Hn ltac:(done)) as H. rewrite Hloop. destruct (digitsLoop false ds st); [by split|by split].
Qed.

Lemma zeros_spec fuel scale periodPos : forall pos st m n,
  rep false st m n -> 1 <= pos - periodPos < 2 ^ 33 -> 0 <= scale < 2 ^ 32 -> (Z.to_nat (scale + 1 - (pos - periodPos)) < fuel)%nat ->
  room (n + Z.to_nat (scale + 1 - (pos - periodPos))) ->
  let v := m * 10 ^ Z.max 0 (scale + 1 - (pos - periodPos)) in
  (exists st' n', zerosLoop fuel scale pos periodPos st = Ok (Some st') /\ rep false st' v n') \/
  (zerosLoop fuel scale pos periodPos st = Ok None /\ limit false <= v).
Proof.
  induction fuel as [|fuel IH]; intros pos st m n Hr Hp Hs Hf Hroom; [lia|]. cbn [zerosLoop]. rewrite wrapU_id by (unfold inU; lia).
  destruct (Z.ltb_spec (pos - periodPos) (scale + 1)) as [Hlt|Hge].
  - pose proof (rep_digit false st m n 0 Hr) as H.
    assert (Hroom1 : room (S n)) by (eapply room_le; [|exact Hroom]; lia). specialize (H Hroom1 ltac:(lia) ltac:(done)). rewrite Z.add_0_r in H.
    assert (Ev : 10 ^ Z.max 0 (scale + 1 - (pos - periodPos)) = 10 * 10 ^ Z.max 0 (scale + 1 - (pos + 1 - periodPos))).
    { rewrite <- Z.pow_succ_r by lia. f_equal. lia. }
    cbn zeta. rewrite Ev, Z.mul_assoc. destruct (handleDigit false st 0) as [st'|].
    + apply (IH (pos + 1) st' (m * 10) (S n) H); [lia|lia|lia|].
      replace (S n + Z.to_nat (scale + 1 - (pos + 1 - periodPos)))%nat with (n + Z.to_nat (scale + 1 - (pos - periodPos)))%nat by lia. done.
    + right. split; [done|]. pose proof (rep_nonneg _ _ _ _ Hr).
      assert (1 <= 10 ^ Z.max 0 (scale + 1 - (pos + 1 - periodPos))) by (assert (0 < 10 ^ Z.max 0 (scale + 1 - (pos + 1 - periodPos))) by (apply Z.pow_pos_nonneg; lia); lia).
      nia.
  - left. exists st, n. rewrite Z.max_l, Z.pow_0_r, Z.mul_1_r by lia. done.
Qed.

Lemma decimal_kept_ge ds fs k : Forall isDigitChar ds -> Forall isDigitChar fs -> decimal ds 0 <= keptDigits ds fs k.
Proof.
  intros Hd Hf. unfold keptDigits. rewrite decimal_app. apply decimal_ge; [by apply Forall_take|]. by apply (decimal_ge ds 0).
Qed.

Lemma parse_number s ds fs (scale : nat) :
  numberText s ds fs -> room (length ds + length fs + scale) -> Z.of_nat (length s) < 2 ^ 32 ->
  match parseLoop (Z.of_nat scale) s 0 (wrapU 64 (Z.of_nat (length s) - 1)) startData with
  | Some (st, rest, pos, periodPos) =>
      rep false st (keptDigits ds fs scale) (length ds + length (take scale fs)) /\ rest = drop scale fs /\
      pos - periodPos = 1 + Z.of_nat (length (take scale fs))
  | None => limit false <= keptDigits ds fs scale
  end.
Proof.
  intros [Hds Hfs Hs] Hroom Hlen. assert (Hne : (1 <= length s)%nat).
  { destruct Hs as [->|(-> & _ & Hn)]; [rewrite length_app; cbn; lia|by destruct ds; [|cbn; lia]]. }
  rewrite wrapU_id by (unfold inU; lia).
  assert (Hroom1 : room (0 + length ds)) by (eapply room_le; [|exact Hroom]; lia).
  assert (Hroom2 : room (length ds + length (take scale fs))) by (eapply room_le; [|exact Hroom]; rewrite length_take; lia).
  destruct Hs as [->|(-> & -> & Hn)].
  - rewrite length_app in *. cbn [length] in *.
    pose proof (parse_digits (Z.of_nat scale) ds (point :: fs) 0 (Z.of_nat (length ds + S (length fs)) - 1) startData 0 0 Hds (rep_start false) Hroom1 ltac:(lia)) as H.
    destruct (digitsLoop false ds startData) as [st|]; destruct H as [H ->]; [|pose proof (decimal_kept_ge ds fs scale Hds Hfs); lia].
    rewrite Z.add_0_l. cbn [parseLoop]. change (code point =? 46) with true. cbn match.
    pose proof (parse_digits (Z.of_nat scale) (take scale fs) (drop scale fs) (Z.of_nat (length ds) + 1) (Z.of_nat (length ds)) st (decimal ds 0) (length ds)
      (Forall_take _ _ _ Hfs) H Hroom2 ltac:(rewrite length_take; lia)) as H2. rewrite take_drop in H2.
    unfold keptDigits. rewrite decimal_app. destruct (digitsLoop false (take scale fs) st) as [st2|]; destruct H2 as [H2 ->]; [|done].
    destruct (drop scale fs) as [|c rest] eqn:Ed; cbn [parseLoop]; [split; [done|]; split; [done|lia]|].
    assert (Hc : isDigitChar c) by (apply (Forall_drop _ scale) in Hfs; rewrite Ed in Hfs; by inversion Hfs).
    assert (Hk : (scale < length fs)%nat) by (apply (f_equal length) in Ed; rewrite length_drop in Ed; cbn in Ed; lia).
    rewrite (digit_not_point c Hc), length_take, (Nat.min_l scale) by lia.
    assert ((Z.of_nat (length ds) <? Z.of_nat (length ds) + 1 + Z.of_nat scale) && (Z.of_nat scale <? Z.of_nat (length ds) + 1 + Z.of_nat scale - Z.of_nat (length ds)) = true) as ->
      by (apply andb_true_iff; rewrite !Z.ltb_lt; lia).
    rewrite length_take, Nat.min_l in H2 by lia. split; [done|]. split; [done|lia].
  - pose proof (parse_digits (Z.of_nat scale) ds [] 0 (Z.of_nat (length ds) - 1) startData 0 0 Hds (rep_start false) Hroom1 ltac:(lia)) as H.
    rewrite app_nil_r in H. unfold keptDigits. rewrite take_nil, drop_nil, app_nil_r, Nat.add_0_r. cbn [length].
    destruct (digitsLoop false ds startData) as [st|]; destruct H as [H ->]; [|done]. cbn [parseLoop]. split; [done|]. split; [done|lia].
Qed.

Lemma roundFinal_spec fs (scale : nat) st m n :
  Forall isDigitChar fs -> rep false st m n -> m + 1 <> limit false ->
  (exists st', roundFinal (drop scale fs) st = Ok (Some st') /\ rep false st' (m + roundUp fs scale) n) \/
  (roundFinal (drop scale fs) st = Ok None /\ limit false <= m).
Proof.
  intros Hfs Hr Hmax. unfold roundUp. assert (E : fs !! scale = head (drop scale fs)) by (by rewrite head_lookup, lookup_drop, Nat.add_0_r).
  rewrite E. pose proof (Forall_drop _ scale _ Hfs) as Hd. destruct (drop scale fs) as [|c rest]; cbn [roundFinal head].
  - left. exists st. by rewrite Z.add_0_r.
  - inversion Hd as [|? ? Hc]; subst. unfold isDigitChar in Hc. rewrite Hc. pose proof (rep_final false st m n Hr) as Hfin.
    destruct (finalize st) as [st'|] eqn:Ef; [|right; by split]. destruct Hfin as (Hst' & _ & Hl). left. destruct (53 <=? code c).
    + destruct (addOne_rep st st' m n Hr Ef) as (st2 & -> & H2); [lia|]. by exists st2.
    + exists st'. by rewrite Z.add_0_r.
Qed.

Lemma pow10_ok k : 0 <= k < numPowers -> pow10 k = Ok (10 ^ k).
Proof. intros Hk. unfold pow10. by rewrite (proj2 (Z.leb_le _ _)), (proj2 (Z.ltb_lt _ _)) by lia. Qed.

Lemma roundUp_bounds fs scale : 0 <= roundUp fs scale <= 1 /\ (roundUp fs scale <> 0 -> (scale < length fs)%nat).
Proof. unfold roundUp. destruct (fs !! scale) eqn:E; [apply lookup_lt_Some in E; destruct (_ <=? _); lia|lia]. Qed.

Lemma kept_nonneg ds fs scale : Forall isDigitChar ds -> Forall isDigitChar fs -> 0 <= keptDigits ds fs scale.
Proof. intros Hd Hf. unfold keptDigits. apply (decimal_ge _ 0); [|done]. apply Forall_app. split; [done|by apply Forall_take]. Qed.

Lemma tryDecimalCast_spec input s ds fs (neg : bool) (scale : nat) precision :
  numberText s ds fs -> removeCStringWhiteSpaces input = (if neg then minus :: s else s) ->
  room (length ds + length fs + scale) -> Z.of_nat (length s) < 2 ^ 32 -> Z.of_nat scale < 2 ^ 32 -> 0 <= precision < numPowers ->
  keptDigits ds fs scale + 1 <> limit false ->
  tryDecimalCast input precision (Z.of_nat scale) =
    Ok (if roundedValue ds fs scale <? 10 ^ precision then Some (signed neg (roundedValue ds fs scale)) else None).
Proof.
  intros Hnt Hin Hroom Hlen Hsc Hp Hmax. pose proof Hnt as [Hds Hfs Hs]. unfold tryDecimalCast. rewrite Hin.
  assert (Hbig : forall z, limit false <= z -> (z <? 10 ^ precision) = false).
  { intros z Hz. apply Z.ltb_ge. etrans; [|exact Hz]. etrans; [|apply powers_fit]. apply Z.pow_le_mono_r; lia. }
  assert (Hge : keptDigits ds fs scale <= roundedValue ds fs scale).
  { pose proof (kept_nonneg ds fs scale Hds Hfs). pose proof (roundUp_bounds fs scale) as [? _]. unfold roundedValue.
    assert (0 < 10 ^ Z.of_nat (scale - length fs)) by (apply Z.pow_pos_nonneg; lia). nia. }
  assert (Hhead : exists c rest, (if neg then minus :: s else s) = c :: rest /\ (code c =? 45) = neg /\ (if neg then rest else c :: rest) = s).
  { destruct neg; [by exists minus, s|]. destruct s as [|c rest]; [exfalso; destruct Hs as [Hs|(Hs & _ & Hn)]; [by destruct ds|by subst]|].
    exists c, rest. split; [done|]. split; [|done].
    assert (Hc : isDigitChar c \/ c = point).
    { destruct Hs as [Hs|(Hs & _)]; destruct ds as [|d ds]; try done; injection Hs as -> _; [by right|left; by inversion Hds|left; by inversion Hds]. }
    destruct Hc as [Hc| ->]; [|done]. unfold isDigitChar, isDigit in Hc. lia. }
  destruct Hhead as (c & rest & Hcons & Hsign & Htail). rewrite Hcons. cbn zeta match. rewrite !Hsign, Htail.
  pose proof (parse_number s ds fs scale Hnt Hroom Hlen) as Hparse.
  destruct (parseLoop _ s 0 _ startData) as [[[[st rest'] pos] periodPos]|]; [|by rewrite Hbig by lia].
  destruct Hparse as (Hrep & -> & Hdiff).
  destruct (roundFinal_spec fs scale st _ _ Hfs Hrep Hmax) as [(st' & -> & Hrep')|[-> Hl]]; [|by cbn; rewrite Hbig by lia].
  cbn [obind]. rewrite length_take in *.
  assert (Ev : (keptDigits ds fs scale + roundUp fs scale) * 10 ^ Z.max 0 (Z.of_nat scale + 1 - (pos - periodPos)) = roundedValue ds fs scale).
  { unfold roundedValue. pose proof (roundUp_bounds fs scale) as [_ Hru].
    replace (Z.max 0 (Z.of_nat scale + 1 - (pos - periodPos))) with (Z.of_nat (scale - length fs)) by lia.
    destruct (decide (roundUp fs scale = 0)) as [->|Hn]; [by rewrite !Z.add_0_r|]. specialize (Hru Hn).
    replace (scale - length fs)%nat with 0%nat by lia. change (Z.of_nat 0) with 0. rewrite Z.pow_0_r. lia. }
  destruct (zeros_spec (Z.to_nat (Z.of_nat scale) + 2) (Z.of_nat scale) periodPos pos st' _ _ Hrep') as [(st2 & n' & -> & H2)|[-> Hl]];
    [lia|lia|lia|eapply room_le; [|exact Hroom]; lia| |rewrite Ev in Hl; cbn; by rewrite Hbig by lia].
  cbn [obind]. rewrite Ev in H2. pose proof (rep_final false st2 _ _ H2) as H3.
  destruct (finalize st2) as [st3|]; [|by rewrite Hbig by lia]. destruct H3 as (_ & Hres & _).
  rewrite pow10_ok by done. cbn [obind]. rewrite Hres. unfold signed.
  destruct (Z.leb_spec (10 ^ precision) (roundedValue ds fs scale)), (Z.ltb_spec (roundedValue ds fs scale) (10 ^ precision)); done || lia.
Qed.
End ParserProof.

(** ** What is printed *)

Lemma decimal_below ds : Forall isDigitChar ds -> decimal ds 0 < 10 ^ Z.of_nat (length ds).
Proof.
  intros Hds. induction Hds as [|c ds Hc Hds IH]; [by vm_compute|]. pose proof (digit_range c Hc). cbn [decimal length]. rewrite decimal_split.
  rewrite Nat2Z.inj_succ, Z.pow_succ_r by lia. nia.
Qed.

(** The printed integer with the point in it. *)
Lemma point_unsigned D (n : nat) :
  Forall isDigitChar D -> (1 <= n)%nat ->
  exists ds fs, insertDecimalPoint D (Z.of_nat n) = ds ++ point :: fs /\ Forall isDigitChar ds /\ Forall isDigitChar fs /\
    length fs = n /\ decimal (ds ++ fs) 0 = decimal D 0 /\ (length ds <= S (length D))%nat.
Proof.
  intros HD Hn. unfold insertDecimalPoint. rewrite (proj2 (Z.eqb_neq _ _)), Nat2Z.id by lia. destruct (Nat.ltb_spec (length D) n) as [Hlt|Hge].
  - exists [ch 48], (replicate (n - length D) (ch 48) ++ D). split; [done|]. split; [by repeat constructor|]. split; [|split; [|split; [|cbn; lia]]].
    + apply Forall_app. split; [|done]. by apply Forall_replicate.
    + rewrite length_app, length_replicate. lia.
    + apply (decimal_zeros (S (n - length D)) D).
  - assert (Hnm : take (length D - n) D <> [minus]).
    { intros E. apply (Forall_take _ (length D - n)) in HD. rewrite E in HD. by inversion HD. }
    destruct (decide (take (length D - n) D = [] \/ take (length D - n) D = [minus])) as [[E|]|Hne]; [|done|].
    + exists [ch 48], (drop (length D - n) D). rewrite E. split; [done|]. split; [by repeat constructor|]. split; [by apply Forall_drop|].
      split; [rewrite length_drop; lia|]. split; [|cbn; lia]. pose proof (take_drop (length D - n) D) as Ht. rewrite E in Ht. cbn [app] in Ht. by rewrite Ht.
    + exists (take (length D - n) D), (drop (length D - n) D). split; [done|]. split; [by apply Forall_take|]. split; [by apply Forall_drop|].
      split; [rewrite length_drop; lia|]. split; [by rewrite take_drop|]. rewrite length_take. lia.
Qed.

Lemma point_negative D (n : nat) : Forall isDigitChar D -> (n <= length D)%nat -> insertDecimalPoint (minus :: D) (Z.of_nat n) = minus :: insertDecimalPoint D (Z.of_nat n).
Proof.
  intros HD Hn. unfold insertDecimalPoint. destruct (Z.eqb_spec (Z.of_nat n) 0) as [|Hn0]; [done|]. rewrite Nat2Z.id. cbn [length].
  rewrite !(proj2 (Nat.ltb_ge _ _)) by lia. replace (S (length D) - n)%nat with (S (length D - n)) by lia. cbn [take drop].
  assert (Hnm : take (length D - n) D <> [minus]).
  { intros E. apply (Forall_take _ (length D - n)) in HD. rewrite E in HD. by inversion HD. }
  destruct (take (length D - n) D) as [|d r] eqn:E; [done|].
  rewrite !decide_False; [done|by intros [|]|by intros [|[=]]].
Qed.

(** Printed with [n] digits after the point, and read as that many digits. *)
Lemma printed_number v (n : nat) :
  - 10 ^ 40 < v < 10 ^ 40 -> 0 <= v \/ n = O \/ 10 ^ (Z.of_nat n - 1) <= - v ->
  exists s ds fs, insertDecimalPoint (printInt v) (Z.of_nat n) = (if v <? 0 then minus :: s else s) /\ numberText s ds fs /\
    length fs = n /\ decimal (ds ++ fs) 0 = Z.abs v /\ (length ds <= 41)%nat.
Proof.
  intros Hv Hneg. destruct (printInt_digits (Z.abs v)) as ((HD & HDne & _) & Hdec & _ & _ & HDl); [lia|]. set (D := toDigits 40 (Z.abs v) []) in *.
  assert (Hbody : exists ds fs, numberText (insertDecimalPoint D (Z.of_nat n)) ds fs /\ length fs = n /\ decimal (ds ++ fs) 0 = Z.abs v /\ (length ds <= 41)%nat).
  { destruct n as [|n]; [|destruct (point_unsigned D (S n) HD ltac:(lia)) as (ds & fs & Ht & H1 & H2 & H3 & H4 & H5)].
    - exists D, []. split; [constructor; [done|constructor|by right]|]. split; [done|]. rewrite app_nil_r. split; [done|lia].
    - exists ds, fs. split; [constructor; [done|done|by left]|]. split; [done|]. split; [by rewrite H4|lia]. }
  destruct Hbody as (ds & fs & Hnt & Hl & Hval & Hds). exists (insertDecimalPoint D (Z.of_nat n)), ds, fs. split; [|done].
  unfold printInt. destruct (Z.ltb_spec v 0) as [Hlt|Hge].
  - rewrite <- (Z.abs_neq v) by lia. fold D. apply point_negative; [done|].
    destruct Hneg as [?|[->|Hbig]]; [lia|lia|]. pose proof (decimal_below D HD) as Hb. rewrite Hdec in Hb.
    destruct (Nat.le_gt_cases n (length D)) as [|Hgt]; [done|exfalso].
    assert (10 ^ Z.of_nat (length D) <= 10 ^ (Z.of_nat n - 1)) by (apply Z.pow_le_mono_r; lia). lia.
  - rewrite <- (Z.abs_eq v) at 1 by lia. done.
Qed.

(** ** Decimals of every precision *)

(** The bits of the integer that stores a decimal of the precision. *)
Definition decimalBits (precision : Z) : Z :=
  if precision <=? 4 then 16 else if precision <=? 9 then 32 else if precision <=? 18 then 64 else 128.

Lemma decimal_type p s type : DECIMAL p s = Ok type -> 1 <= p <= 38 -> 0 <= s <= p ->
  getPrecision type = Ok p /\ getScale type = Ok s /\
  physicalType type = (if p <=? 4 then INT16 else if p <=? 9 then INT32 else if p <=? 18 then INT64 else INT128).
Proof.
  intros Ht Hp Hs. destruct (wellFormed_decimal p s Hp Hs) as (t' & Ht' & _ & Hid & He). rewrite Ht in Ht'. injection Ht' as <-.
  unfold getPrecision, getScale. rewrite !decide_True, He by done. split; [done|]. split; [done|].
  revert Ht. unfold DECIMAL, newTypeWith. cbn [getPhysicalType]. destruct (p <=? 4), (p <=? 9), (p <=? 18); try (by intros [= <-]).
  rewrite (proj2 (Z.leb_le p 38)) by lia. by intros [= <-].
Qed.

Lemma decimal_parsed type p (s : nat) input text ds fs (neg : bool) :
  DECIMAL p (Z.of_nat s) = Ok type -> 1 <= p <= 38 -> Z.of_nat s <= p ->
  numberText text ds fs -> removeCStringWhiteSpaces input = (if neg then minus :: text else text) -> Z.of_nat (length text) < 2 ^ 32 ->
  (18 < p -> (length ds + length fs + s <= 255)%nat) -> keptDigits ds fs s + 1 <> 2 ^ (decimalBits p - 1) ->
  tryCastDecimalOf type input = Ok (if roundedValue ds fs s <? 10 ^ p then Some (signed neg (roundedValue ds fs s)) else None).
Proof.
  intros Ht Hp Hs Hnt Hin Hlen Hroom Hmax. destruct (decimal_type p (Z.of_nat s) type Ht Hp ltac:(lia)) as (Hpr & Hsc & Hph).
  unfold tryCastDecimalOf. rewrite Hpr, Hsc, Hph. cbn [obind]. unfold decimalBits in Hmax.
  assert (Hint : forall t, isSigned t = true -> width t ∈ [16; 32; 64] -> p < digitsOfWidth (width t) -> keptDigits ds fs s + 1 <> 2 ^ (width t - 1) ->
    tryDecimalCast (op := IntegerCastOperation t) input p (Z.of_nat s) = Ok (if roundedValue ds fs s <? 10 ^ p then Some (signed neg (roundedValue ds fs s)) else None)).
  { intros t Hsg Hw Hpw Hm. pose proof (decimal_machine t Hw) as Hmi. pose proof (IntegerDecimalOK t Hmi Hsg Hw).
    eapply (tryDecimalCast_spec (ok := IntegerCastOK t Hmi)); [done|done|done|done|lia|cbn; lia|]. cbn. unfold maxOf. rewrite Hsg. lia. }
  destruct (Z.leb_spec p 4); [apply Hint; [done|by apply (bool_decide_unpack _)|cbn; lia|done]|].
  destruct (Z.leb_spec p 9); [apply Hint; [done|by apply (bool_decide_unpack _)|cbn; lia|done]|].
  destruct (Z.leb_spec p 18); [apply Hint; [done|by apply (bool_decide_unpack _)|cbn; lia|done]|].
  apply (tryDecimalCast_spec (ok := Int128CastOK) input text ds fs neg); [done|done|cbn; lia|done|lia|cbn; lia|done].
Qed.

(** [Int128_t::ToString] prints the same text. *)
Lemma toDigits_go fuel n acc : 0 < Z.of_N n < 10 ^ Z.of_nat fuel ->
  str (pretty_N_go n acc) = toDigits fuel (Z.of_N n) (str acc).
Proof.
  revert n acc. induction fuel as [|fuel IH]; intros n acc Hn; [cbn in Hn; lia|]. rewrite pretty_N_go_step by lia. cbn [toDigits].
  assert (Hc : pretty_N_char (n mod 10)%N = digitChar (Z.of_N n mod 10)).
  { assert (Hm : (n mod 10 < 10)%N) by (apply N.mod_lt; done). change 10 with (Z.of_N 10). rewrite <- N2Z.inj_mod.
    destruct (n mod 10)%N as [|q]; [done|]. do 4 (destruct q as [q|q|]; try done). }
  rewrite Nat2Z.inj_succ, Z.pow_succ_r in Hn by lia. destruct (Z.ltb_spec (Z.of_N n) 10) as [Hlt|Hge].
  - assert ((n / 10)%N = 0%N) as -> by (apply N.div_small; lia). rewrite pretty_N_go_0. unfold str. cbn [String.list_ascii_of_string].
    rewrite Hc. by rewrite Z.mod_small by lia.
  - rewrite IH; rewrite N2Z.inj_div; change (Z.of_N 10) with 10.
    + unfold str. cbn [String.list_ascii_of_string]. by rewrite Hc.
    + split; [apply Z.div_str_pos; lia|apply Z.div_lt_upper_bound; lia].
Qed.

Lemma ToString_printInt v : - 2 ^ 127 < v < 2 ^ 127 -> exists s, ToString (of128 v) = Ok s /\ str s = printInt v.
Proof.
  intros Hv. assert (Hw : wf128 (of128 v) /\ value (of128 v) = v) by (unfold of128; unfold128; lia). destruct Hw as [Hw Hval].
  assert (Hm : value (of128 v) <> MIN128) by (rewrite Hval; unfold MIN128; lia).
  rewrite (ToString_decimal _ Hw Hm), Hval. eexists. split; [done|]. unfold printInt.
  assert (Hpos : forall q, Z.pos q < 2 ^ 127 -> str (pretty (N.pos q)) = toDigits 40 (Z.pos q) []).
  { intros q Hq. unfold pretty, pretty_N. rewrite decide_False by done. apply (toDigits_go 40 (N.pos q) EmptyString). cbn -[Z.pow] in *. lia. }
  destruct v as [|q|q]; [done| |].
  - rewrite (proj2 (Z.ltb_ge _ _)) by lia. apply Hpos. lia.
  - rewrite (proj2 (Z.ltb_lt _ _)) by lia. change (- Z.neg q) with (Z.pos q). rewrite <- Hpos by lia. done.
Qed.

(** C34. Text is cast to a decimal by rounding: digits with a point anywhere among them or none,
    after an optional minus sign (a plus sign is no part of a number here) and with spaces around, are
    read as the decimal that is nearest at the scale, halves away from zero, if it has at most the
    digits of the precision, and are an error otherwise, for decimals of every precision from 1 to 38
    and every scale up to the precision.  The text is shorter than 2^32 characters; above 18 digits of
    precision its digits before and after the point and the scale are at most 255 together, since the
    parser counts them in 8 bits; and the digits before rounding are not the largest number of the
    integer that stores the decimal. *)
Theorem decimals_parsed type p (s : nat) input text ds fs (neg : bool) :
  DECIMAL p (Z.of_nat s) = Ok type -> 1 <= p <= 38 -> Z.of_nat s <= p ->
  numberText text ds fs -> removeCStringWhiteSpaces input = (if neg then minus :: text else text) -> Z.of_nat (length text) < 2 ^ 32 ->
  (18 < p -> (length ds + length fs + s <= 255)%nat) -> keptDigits ds fs s + 1 <> 2 ^ (decimalBits p - 1) ->
  let v := decimal (ds ++ take s fs) 0 * 10 ^ Z.of_nat (s - length fs) + roundUp fs s in
  decimalCast type input =
    if v <? 10 ^ p then Ok (if neg then - v else v) else Err (ConversionException "Cast failed. Not in range.").
Proof.
  intros Ht Hp Hs Hnt Hin Hlen Hroom Hmax v. unfold decimalCast. rewrite (decimal_parsed type p s input text ds fs neg) by done.
  change (roundedValue ds fs s) with v. cbn [obind]. by destruct (v <? 10 ^ p).
Qed.

(** A decimal that is printed is read back: for every precision and scale, the text of a decimal
    that is not negative, or whose digits are at least as many as the scale, is cast to the same
    decimal. *)
Theorem decimals_text_roundtrip type p s v :
  DECIMAL p s = Ok type -> 1 <= p <= 38 -> 0 <= s <= p -> - 10 ^ p < v < 10 ^ p -> 0 <= v \/ s = 0 \/ 10 ^ (s - 1) <= - v ->
  exists text, decimalToString type v = Ok text /\ decimalCast type text = Ok v.
Proof.
  intros Ht Hp Hs Hv Hneg. destruct (decimal_type p s type Ht Hp Hs) as (_ & Hsc & Hph).
  assert (H38 : 10 ^ p <= 10 ^ 38) by (apply Z.pow_le_mono_r; lia).
  destruct (printed_number v (Z.to_nat s)) as (text & ds & fs & Htext & Hnt & Hlf & Hval & Hld); [lia|rewrite Z2Nat.id by lia; lia|].
  rewrite Z2Nat.id in Htext by lia.
  assert (Hprint : decimalToString type v = Ok (insertDecimalPoint (printInt v) s)).
  { unfold decimalToString. rewrite Hsc, Hph. cbn [obind]. destruct (p <=? 4), (p <=? 9), (p <=? 18); try done.
    destruct (ToString_printInt v) as (str' & -> & <-); [lia|done]. }
  exists (insertDecimalPoint (printInt v) s). split; [done|]. pose proof Hnt as [Hds Hfs Hform].
  assert (Hkept : keptDigits ds fs (Z.to_nat s) = Z.abs v) by (unfold keptDigits; rewrite take_ge by lia; done).
  assert (Hrounded : roundedValue ds fs (Z.to_nat s) = Z.abs v).
  { unfold roundedValue, roundUp. rewrite Hkept, Hlf, Nat.sub_diag, (lookup_ge_None_2 fs) by lia. cbn. lia. }
  assert (Hlen : (length text <= 41 + 1 + 38)%nat).
  { destruct Hform as [->|(-> & -> & _)]; [rewrite length_app; cbn; lia|lia]. }
  unfold decimalCast. rewrite (decimal_parsed type p (Z.to_nat s) _ text ds fs (v <? 0)); rewrite ?Z2Nat.id by lia; try done; try lia.
  - rewrite Hrounded, (proj2 (Z.ltb_lt _ _)) by lia. cbn [obind]. f_equal. unfold signed. destruct (Z.ltb_spec v 0); lia.
  - rewrite Htext.
    assert (Hsp : Forall (fun c => isSpace c = false) text).
    { assert (Hd : forall l, Forall isDigitChar l -> Forall (fun c => isSpace c = false) l) by (intros l Hl; eapply Forall_impl; [exact Hl|]; by intros c (_ & _ & _ & _ & _ & ? & _)%digit_other).
      destruct Hform as [->|(-> & -> & _)]; [apply Forall_app; split; [auto|constructor; [done|auto]]|auto]. }
    destruct (v <? 0); [apply (digits_tight _ minus); [done|done|by constructor]|].
    destruct text as [|c r] eqn:Et; [destruct Hform as [Hform|(<- & _ & Hn)]; [by destruct ds|done]|]. apply (digits_tight _ c); [done|by inversion Hsp|done].
  - rewrite Hkept. unfold decimalBits. assert (Hpow : forall a b, a <= b -> 10 ^ a <= 10 ^ b) by (intros; apply Z.pow_le_mono_r; lia).
    pose proof (Hpow p 4). pose proof (Hpow p 9). pose proof (Hpow p 18).
    destruct (Z.leb_spec p 4), (Z.leb_spec p 9), (Z.leb_spec p 18); cbn -[Z.pow Z.abs]; lia.
Qed.

Definition exDecimal : LogicalType := mkLogicalType ID.DECIMAL INT32 (Some (DecimalTypeInfo 5 3)).
Lemma decimals_parsed_witness : decimalCast exDecimal (str " -1.0055 ") = Ok (-1006).
Proof.
  apply (decimals_parsed exDecimal 5 3 _ (str "1.0055") (str "1") (str "0055") true).
  - reflexivity.
  - lia.
  - cbn. lia.
  - constructor; [by repeat constructor|by repeat constructor|by left].
  - by vm_compute.
  - cbn. lia.
  - cbn. lia.
  - by vm_compute.
Defined.

Lemma decimals_text_roundtrip_witness : exists text, decimalToString exDecimal 5 = Ok text /\ decimalCast exDecimal text = Ok 5.
Proof.
  apply (decimals_text_roundtrip exDecimal 5 3 5).
  - reflexivity.
  - lia.
  - lia.
  - lia.
  - lia.
Defined.
