(* ===== verification/NumericCast.v ===== *)
(** * Casts between numbers (src/include/function/cast/functions/numeric_cast.h, numeric_limits.h,
      cast_decimal.h)

    Casts between machine integers, from decimals to integers, from integers to decimals and between
    decimals.  The templates are instantiated at integer types; arithmetic is done in the type that the
    conversions of C++ give, where signed overflow has no value and unsigned arithmetic wraps around. *)

From stdpp Require Import base numbers strings list sets pretty.
From S2P Require Import Prelude Date Int128 Serializer DateText Compression LogicalType TypeText NumericText DecimalCast.
Local Open Scope Z_scope.

(** ** Types and limits *)

Definition int128 : intType := mkInt true 128.
(** [NumericLimits<T>::digits()]. *)
Definition digits (t : intType) : Z :=
  if width t =? 8 then 3 else if width t =? 16 then 5 else if width t =? 32 then 10
  else if width t =? 64 then if isSigned t then 19 else 20 else 39.
(** [NumericLimits<T>::minimum()] and [maximum()]; those of 128 bits pass the halves in the wrong order. *)
Definition minimum (t : intType) : Z := if width t =? 128 then value (mk128 (2 ^ 63) 1) else minOf t.
Definition maximum (t : intType) : Z := if width t =? 128 then value (mk128 (2 ^ 63 - 1) (-1)) else maxOf t.
(** The table of the 128-bit powers of ten, which is written out in the code. *)
Definition pow10Sequence128 : list int128_t :=
  [mk128 1 0; mk128 10 0; mk128 100 0; mk128 1000 0;
   mk128 10000 0; mk128 100000 0; mk128 1000000 0; mk128 10000000 0;
   mk128 100000000 0; mk128 1000000000 0; mk128 10000000000 0; mk128 100000000000 0;
   mk128 1000000000000 0; mk128 10000000000000 0; mk128 100000000000000 0; mk128 1000000000000000 0;
   mk128 10000000000000000 0; mk128 100000000000000000 0; mk128 1000000000000000000 0; mk128 10000000000000000000 0;
   mk128 7766279631452241920 5; mk128 3875820019684212736 54; mk128 1864712049423024128 542; mk128 200376420520689664 5421;
   mk128 2003764205206896640 54210; mk128 1590897978359414784 542101; mk128 15908979783594147840 5421010; mk128 11515845246265065472 54210108;
   mk128 4477988020393345024 542101086; mk128 7886392056514347008 5421010862; mk128 5076944270305263616 54210108624; mk128 13875954555633532928 542101086242;
   mk128 9632337040368467968 5421010862427; mk128 4089650035136921600 54210108624275; mk128 4003012203950112768 542101086242752; mk128 3136633892082024448 5421010862427522;
   mk128 12919594847110692864 54210108624275221; mk128 68739955140067328 542101086242752217; mk128 687399551400673280 5421010862427522170].
Lemma pow10Sequence128_ok : value <$> pow10Sequence128 = (fun k => 10 ^ Z.of_nat k) <$> seq 0 39.
Proof. by vm_compute. Qed.
(** An element of [pow10Sequence<T>()]; the loop of the other types multiplies by ten. *)
Definition pow10At (t : intType) (k : Z) : outcome Z := if (0 <=? k) && (k <? digits t) then Ok (10 ^ k) else Err UndefinedBehaviour.

(** The type an operand is promoted to, and the result of an operation in a type. *)
Definition promoted (t : intType) : intType := if width t <? 32 then mkInt true 32 else t.
Definition arith (t : intType) (z : Z) : outcome Z :=
  if isSigned t then
    if width t =? 128 then if (- 2 ^ 127 <? z) && (z <=? maxOf t) then Ok z else Err (OverflowException "INT128 is out of range.")
    else if (minOf t <=? z) && (z <=? maxOf t) then Ok z else Err UndefinedBehaviour
  else Ok (toType t z).
(** The type of an arithmetic operation on operands of both types. *)
Definition commonType (a b : intType) : intType :=
  let a := promoted a in let b := promoted b in
  if width a <? width b then b else if width b <? width a then a else if isSigned a then b else a.

(** ** Between machine integers *)

Definition tryCastWithOverflowCheck (src dst : intType) (value : Z) : option Z :=
  if negb (Bool.eqb (isSigned src) (isSigned dst)) then
    if isSigned src then
      if digits dst <? digits src then
        if (value <? 0) || (toType src (maximum dst) <? value) then None else Some (toType dst value)
      else if value <? 0 then None else Some (toType dst value)
    else
      if digits dst <=? digits src then
        if value <=? toType src (maximum dst) then Some (toType dst value) else None
      else Some (toType dst value)
  else
    if digits src <=? digits dst then Some (toType dst value)
    else if (value <? toType src (minimum dst)) || (toType src (maximum dst) <? value) then None
    else Some (toType dst value).

(** ** Decimals *)

(** [pickDecimalPhysicalType]. *)
Definition pickDecimalPhysicalType (a b : intType) : intType := if width b <? width a then a else b.

Definition CastDecimalTo (src dst : intType) (scale input : Z) : outcome Z :=
  let T := pickDecimalPhysicalType src dst in
  let A := promoted T in
  let roundconst := if input <? 0 then -5 else 5 in
  let* half := (if 0 <? scale then let* p := pow10At T (scale - 1) in arith A (p * toType A roundconst) else Ok 0) in
  let* sum := arith A (half + toType A input) in
  let* p := pow10At T scale in
  let tmp := Z.quot sum p in
  if (tmp <? minimum dst) || (maximum dst <? tmp) then Err (OverflowException "Cast Failed: not in range") else Ok (toType dst tmp).

Definition CastToDecimal (src dst : intType) (precision scale input : Z) : outcome Z :=
  let A := commonType dst src in
  let* p := pow10At dst scale in
  let* product := arith A (toType A p * toType A input) in
  let output := toType dst product in
  let* limit := pow10At dst precision in
  if (output <=? - limit) || (limit <=? output) then Err (OverflowException "To Decimal Cast Failed: not in range") else Ok output.

Definition CastBetweenDecimal (src dst : intType) (inputScale outputScale outputPrecision input : Z) : outcome Z :=
  let T := pickDecimalPhysicalType src dst in
  let A := promoted T in
  let* output :=
    (if inputScale =? outputScale then Ok (toType dst input)
     else if inputScale <? outputScale then
       let* p := pow10At T (outputScale - inputScale) in let* r := arith A (p * input) in Ok (toType dst r)
     else
       let roundconst := if input <? 0 then -5 else 5 in
       let* p := pow10At T (inputScale - outputScale - 1) in
       let* half := arith A (p * roundconst) in
       let* sum := arith A (half + input) in
       let* q := pow10At T (inputScale - outputScale) in
       Ok (toType dst (Z.quot sum q))) in
  let* limit := pow10At T outputPrecision in
  if (limit <=? output) || (output <=? - limit) then Err (OverflowException "Decimal Cast Failed: not in range") else Ok output.

(** ** Casts that go wrong *)

Definition uint64 : intType := mkInt false 64.
(** The result is narrowed to the type of the decimal before its range is checked. *)
Example cast_to_decimal_wraps : CastToDecimal int64 int16 4 0 65537 = Ok 1 /\ CastBetweenDecimal int32 int16 0 0 4 65537 = Ok 1.
Proof. by vm_compute. Qed.
(** Every decimal is out of the range of the 128-bit integers. *)
Example decimal_to_int128_throws : CastDecimalTo int64 int128 2 100 = Err (OverflowException "Cast Failed: not in range").
Proof. by vm_compute. Qed.
(** A negative decimal becomes a large unsigned integer instead of an error. *)
Example negative_decimal_to_unsigned : CastDecimalTo int16 uint64 1 (-15) = Ok 1844674407370955159.
Proof. by vm_compute. Qed.
(** No decimal can be cast to a 128-bit integer. *)
Theorem decimal_never_int128 src scale v r : CastDecimalTo src int128 scale v <> Ok r.
Proof.
  unfold CastDecimalTo. set (A := promoted _). set (T := pickDecimalPhysicalType _ _).
  destruct (if 0 <? scale then _ else _) as [half|]; [|done]. cbn [obind]. destruct (arith A _) as [sum|]; [|done]. cbn [obind].
  destruct (pow10At T scale) as [p|]; [|done]. cbn [obind].
  assert (E : (Z.quot sum p <? minimum int128) || (maximum int128 <? Z.quot sum p) = true); [|by rewrite E].
  apply orb_true_iff. rewrite !Z.ltb_lt. change (minimum int128) with (2 ^ 64 + 2 ^ 63). change (maximum int128) with (- 2 ^ 63 - 1). lia.
Qed.

(** ** Casts between machine integers are exact *)

Definition machineTypes : list intType :=
  [mkInt true 8; mkInt true 16; mkInt true 32; mkInt true 64; mkInt false 8; mkInt false 16; mkInt false 32; mkInt false 64].
Lemma machineInt_in t : machineInt t -> In t machineTypes.
Proof.
  unfold machineInt. destruct t as [s w]. cbn [width]. rewrite !elem_of_cons, elem_of_nil. intros [->|[->|[->|[->|[]]]]]; destruct s; cbn; tauto.
Qed.

(** The values a cast accepts. *)
Definition acceptedFrom (src dst : intType) : Z :=
  if negb (Bool.eqb (isSigned src) (isSigned dst)) then if isSigned src then 0 else minOf src
  else if digits src <=? digits dst then minOf src else toType src (minimum dst).
Definition acceptedTo (src dst : intType) : Z :=
  if negb (Bool.eqb (isSigned src) (isSigned dst)) then
    if isSigned src then if digits dst <? digits src then toType src (maximum dst) else maxOf src
    else if digits dst <=? digits src then toType src (maximum dst) else maxOf src
  else if digits src <=? digits dst then maxOf src else toType src (maximum dst).

Lemma cast_accepts src dst v : inType src v ->
  tryCastWithOverflowCheck src dst v = if (acceptedFrom src dst <=? v) && (v <=? acceptedTo src dst) then Some (toType dst v) else None.
Proof.
  unfold inType. intros [Hlo Hhi]. unfold tryCastWithOverflowCheck, acceptedFrom, acceptedTo.
  destruct (negb _), (isSigned src), (digits dst <? digits src), (digits dst <=? digits src), (digits src <=? digits dst);
    rewrite ?(proj2 (Z.leb_le _ _) Hlo), ?(proj2 (Z.leb_le _ _) Hhi), ?(Z.ltb_antisym _ v), ?(Z.ltb_antisym v);
    repeat destruct (_ <=? _); reflexivity.
Qed.

(** They are the values both types have. *)
Definition acceptsExactly (src dst : intType) : bool :=
  (Z.max (minOf src) (acceptedFrom src dst) =? Z.max (minOf src) (minOf dst)) && (Z.min (maxOf src) (acceptedTo src dst) =? Z.min (maxOf src) (maxOf dst)).
Lemma all_accept_exactly : forallb (fun src => forallb (acceptsExactly src) machineTypes) machineTypes = true.
Proof. by vm_compute. Qed.

(** Casts between the eight machine integer types are exact: a value is kept if the target type
    has it, and the cast reports an overflow otherwise. *)
Theorem integer_casts_exact src dst v :
  machineInt src -> machineInt dst -> inType src v ->
  tryCastWithOverflowCheck src dst v = if (minOf dst <=? v) && (v <=? maxOf dst) then Some v else None.
Proof.
  intros Hsrc Hdst Hv. rewrite cast_accepts by done. pose proof all_accept_exactly as H. rewrite forallb_forall in H.
  specialize (H src (machineInt_in _ Hsrc)). rewrite forallb_forall in H. specialize (H dst (machineInt_in _ Hdst)).
  apply andb_true_iff in H as [H1%Z.eqb_eq H2%Z.eqb_eq]. unfold inType in Hv.
  assert ((acceptedFrom src dst <=? v) && (v <=? acceptedTo src dst) = (minOf dst <=? v) && (v <=? maxOf dst)) as -> by lia.
  destruct ((minOf dst <=? v) && (v <=? maxOf dst)) eqn:E; [|done]. apply andb_true_iff in E. rewrite !Z.leb_le in E.
  rewrite toType_id; [done|by apply machine_max|done].
Qed.

(** ** Casts of decimals *)

(** The integer that stores a decimal of the precision. *)
Definition storage (p : Z) : intType := if p <=? 4 then int16 else if p <=? 9 then int32 else if p <=? 18 then int64 else int128.
(** The decimal [v] without its last [k] digits, halves rounded away from zero. *)
Definition roundHalf (v k : Z) : Z := Z.sgn v * ((2 * Z.abs v + 10 ^ k) / (2 * 10 ^ k)).

Lemma pow_split k : 1 <= k -> 10 ^ k = 10 * 10 ^ (k - 1) /\ 0 < 10 ^ (k - 1).
Proof. intros Hk. rewrite <- Z.pow_succ_r by lia. split; [f_equal; lia|apply Z.pow_pos_nonneg; lia]. Qed.

Lemma quot_rounds v k : 1 <= k -> Z.quot (10 ^ (k - 1) * (if v <? 0 then -5 else 5) + v) (10 ^ k) = roundHalf v k.
Proof.
  intros Hk. destruct (pow_split k Hk) as [-> Hp]. unfold roundHalf. destruct (pow_split k Hk) as [-> _]. set (h := 10 ^ (k - 1)) in *. clearbody h.
  assert (Hdiv : forall w, 0 <= w -> (2 * w + 10 * h) / (2 * (10 * h)) = (h * 5 + w) / (10 * h)).
  { intros w Hw. replace (2 * w + 10 * h) with (2 * (h * 5 + w)) by ring. by rewrite Z.div_mul_cancel_l by lia. }
  destruct (Z.ltb_spec v 0).
  - rewrite Z.sgn_neg, Z.abs_neq, Hdiv by lia. replace (h * -5 + v) with (- (h * 5 + - v)) by ring.
    rewrite Z.quot_opp_l, Z.quot_div_nonneg by lia. lia.
  - rewrite Z.abs_eq, Hdiv, Z.quot_div_nonneg by lia. destruct (decide (v = 0)) as [->|]; [|rewrite Z.sgn_pos by lia; lia].
    cbn. apply Z.div_small. lia.
Qed.

Lemma roundHalf_small v k : 0 <= k -> Z.abs (roundHalf v k) <= Z.abs v.
Proof.
  intros Hk. assert (Hp : 1 <= 10 ^ k) by (assert (0 < 10 ^ k) by (apply Z.pow_pos_nonneg; lia); lia). unfold roundHalf. rewrite Z.abs_mul.
  destruct (decide (v = 0)) as [->|Hv]; [cbn; lia|]. assert (Z.abs (Z.sgn v) = 1) as -> by (destruct v; done). rewrite Z.mul_1_l.
  rewrite Z.abs_eq by (apply Z.div_pos; lia). apply Z.lt_succ_r, Z.div_lt_upper_bound; [lia|]. nia.
Qed.

(** Operations that stay in the type. *)
Lemma arith_ok t z : 0 < width t -> Z.abs z <= maxOf t -> isSigned t = true \/ 0 <= z -> arith t z = Ok z /\ toType t z = z.
Proof.
  intros Hw Hz Hs. assert (Hin : inType t z).
  { unfold inType, minOf, maxOf in *. destruct (isSigned t); [|destruct Hs; [done|lia]]. lia. }
  pose proof (toType_id t z Hw Hin) as Hid. split; [|done]. unfold arith. rewrite Hid. unfold inType, minOf, maxOf in *.
  destruct (isSigned t) eqn:E; [|done]. destruct (Z.eqb_spec (width t) 128) as [Ew|].
  - rewrite Ew in *. rewrite (proj2 (Z.ltb_lt _ _)), (proj2 (Z.leb_le _ _)) by lia. done.
  - by rewrite (proj2 (Z.leb_le _ _)), (proj2 (Z.leb_le z _)) by lia.
Qed.

(** The widest of the types has room for a decimal and half a unit, and its table for the powers. *)
Definition roomFor (p : Z) (dst : intType) : bool :=
  let T := pickDecimalPhysicalType (storage p) dst in
  (0 <? width (promoted T)) && (15 * 10 ^ p <=? 10 * maxOf (promoted T)) && (p <? digits T) && (maxOf dst <=? maxOf (promoted T)) && (digits dst <=? digits T).
Definition targetTypes : list intType := int128 :: machineTypes.
Lemma room_for p dst : 1 <= p <= 38 -> In dst targetTypes -> roomFor p dst = true.
Proof.
  intros Hp Hdst. assert (H : forallb (roomFor p) targetTypes = true) by (apply (all_range (fun p => forallb (roomFor p) targetTypes) 1 38); [by vm_compute|lia]).
  rewrite forallb_forall in H. auto.
Qed.

Section Widest.
Context (p : Z) (dst : intType) (Hp : 1 <= p <= 38) (Hdst : In dst targetTypes).
Let T := pickDecimalPhysicalType (storage p) dst.
Lemma room_facts : 0 < width (promoted T) /\ 15 * 10 ^ p <= 10 * maxOf (promoted T) /\ p < digits T /\ maxOf dst <= maxOf (promoted T) /\ digits dst <= digits T.
Proof. pose proof (room_for p dst Hp Hdst) as H. unfold roomFor in H. fold T in H. rewrite !andb_true_iff, !Z.ltb_lt, !Z.leb_le in H. tauto. Qed.

Lemma arith_room z : 10 * Z.abs z <= 15 * 10 ^ p -> isSigned (promoted T) = true \/ 0 <= z -> arith (promoted T) z = Ok z /\ toType (promoted T) z = z.
Proof. intros Hz Hs. destruct room_facts as (Hw & Hr & _). apply arith_ok; [done|lia|done]. Qed.

Lemma pow10At_ok k : 0 <= k <= p \/ 0 <= k < digits dst -> pow10At T k = Ok (10 ^ k).
Proof.
  intros Hk. destruct room_facts as (_ & _ & Hd & _ & Hd'). unfold pow10At. by rewrite (proj2 (Z.leb_le _ _)), (proj2 (Z.ltb_lt _ _)) by lia.
Qed.

(** Rounding in the widest type. *)
Lemma half_bounds v k : 1 <= k <= p -> - 10 ^ p < v < 10 ^ p -> let h := 10 ^ (k - 1) * (if v <? 0 then -5 else 5) in
  10 * Z.abs h <= 15 * 10 ^ p /\ 10 * Z.abs (h + v) <= 15 * 10 ^ p /\ (0 <= v -> 0 <= h).
Proof.
  intros Hk Hv h. destruct (pow_split k ltac:(lia)) as [E Hpos]. assert (10 ^ k <= 10 ^ p) by (apply Z.pow_le_mono_r; lia).
  unfold h. destruct (Z.ltb_spec v 0); lia.
Qed.
End Widest.

Lemma roundHalf_0 v : roundHalf v 0 = v.
Proof. unfold roundHalf. change (10 ^ 0) with 1. rewrite Z.mul_1_r. destruct v; cbn; Z.to_euclidean_division_equations; lia. Qed.

Lemma pow10_ge p : 1 <= p -> 10 <= 10 ^ p.
Proof. intros Hp. change 10 with (10 ^ 1) at 1. apply Z.pow_le_mono_r; lia. Qed.

Lemma decimal_to_integer p s v dst :
  1 <= p <= 38 -> 0 <= s <= p -> - 10 ^ p < v < 10 ^ p -> machineInt dst ->
  isSigned (promoted (pickDecimalPhysicalType (storage p) dst)) = true \/ 0 <= v ->
  CastDecimalTo (storage p) dst s v =
    if (minOf dst <=? roundHalf v s) && (roundHalf v s <=? maxOf dst) then Ok (roundHalf v s) else Err (OverflowException "Cast Failed: not in range").
Proof.
  intros Hp Hs Hv Hdst Hsg. assert (Hin : In dst targetTypes) by (right; by apply machineInt_in).
  pose proof (pow10_ge p ltac:(lia)) as H10. unfold CastDecimalTo.
  set (T := pickDecimalPhysicalType (storage p) dst) in *. set (A := promoted T) in *.
  assert (Harith : forall z, 10 * Z.abs z <= 15 * 10 ^ p -> isSigned A = true \/ 0 <= z -> arith A z = Ok z /\ toType A z = z) by (intros; by apply arith_room).
  assert (Hround : toType A (if v <? 0 then -5 else 5) = (if v <? 0 then -5 else 5)).
  { apply Harith; destruct (Z.ltb_spec v 0); try lia. destruct Hsg; [by left|lia]. }
  assert (Hinput : toType A v = v) by (apply Harith; [lia|done]). rewrite Hround, Hinput.
  assert (Hpow : forall k, 0 <= k <= p -> pow10At T k = Ok (10 ^ k)) by (intros; apply pow10At_ok; auto).
  assert (Hlim : minimum dst = minOf dst /\ maximum dst = maxOf dst).
  { unfold minimum, maximum. rewrite (proj2 (Z.eqb_neq (width dst) 128)); [done|]. unfold machineInt in Hdst. rewrite !elem_of_cons, elem_of_nil in Hdst. lia. }
  destruct Hlim as [-> ->].
  assert (Hend : forall sum, Z.quot sum (10 ^ s) = roundHalf v s -> 10 * Z.abs sum <= 15 * 10 ^ p -> isSigned A = true \/ 0 <= sum ->
    (let* sum := arith A sum in let* p := pow10At T s in
     if (Z.quot sum p <? minOf dst) || (maxOf dst <? Z.quot sum p) then Err (OverflowException "Cast Failed: not in range") else Ok (toType dst (Z.quot sum p))) =
    if (minOf dst <=? roundHalf v s) && (roundHalf v s <=? maxOf dst) then Ok (roundHalf v s) else Err (OverflowException "Cast Failed: not in range")).
  { intros sum Hq Hb Hsum. destruct (Harith sum Hb Hsum) as [-> _]. cbn [obind]. rewrite Hpow by lia. cbn [obind]. rewrite Hq, !Z.ltb_antisym, <- negb_andb.
    destruct ((minOf dst <=? roundHalf v s) && (roundHalf v s <=? maxOf dst)) eqn:E; [|done]. cbn [negb]. f_equal.
    apply toType_id; [by apply machine_max|]. unfold inType. lia. }
  destruct (Z.ltb_spec 0 s) as [Hs0|Hs0].
  - rewrite Hpow by lia. cbn [obind]. destruct (half_bounds p Hp v s ltac:(lia) Hv) as (H1 & H2 & H3).
    assert (Hsgh : isSigned A = true \/ 0 <= 10 ^ (s - 1) * (if v <? 0 then -5 else 5)) by (destruct Hsg; [by left|right; auto]).
    destruct (Harith _ H1 Hsgh) as [-> _]. cbn [obind]. apply Hend; [apply quot_rounds; lia|done|]. destruct Hsg; [by left|right]. pose proof (H3 H). lia.
  - assert (s = 0) as -> by lia. cbn [obind]. rewrite Z.add_0_l. apply Hend; [|lia|done]. rewrite roundHalf_0. change (10 ^ 0) with 1. apply Z.quot_1_r.
Qed.

(** From an integer type to a decimal: the common type has the values of both. *)
Definition commonRoom (p : Z) (src : intType) : bool :=
  let A := commonType (storage p) src in
  (0 <? width A) && (maxOf (storage p) <=? maxOf A) && (maxOf src <=? maxOf A) && (isSigned A || (minOf src =? 0)) &&
  (if isSigned A then minOf A <=? minOf src else true) && (10 ^ p <=? maxOf (storage p)) && (p <? digits (storage p)) && (0 <? width (storage p)) && isSigned (storage p).
Lemma common_room p src : 1 <= p <= 38 -> In src targetTypes -> commonRoom p src = true.
Proof.
  intros Hp Hsrc. assert (H : forallb (commonRoom p) targetTypes = true) by (apply (all_range (fun p => forallb (commonRoom p) targetTypes) 1 38); [by vm_compute|lia]).
  rewrite forallb_forall in H. auto.
Qed.

Lemma pow10At_storage p k : 1 <= p <= 38 -> 0 <= k <= p -> pow10At (storage p) k = Ok (10 ^ k).
Proof.
  intros Hp Hk. pose proof (common_room p int128 Hp (or_introl eq_refl)) as H. unfold commonRoom in H. rewrite !andb_true_iff, !Z.ltb_lt in H.
  unfold pow10At. by rewrite (proj2 (Z.leb_le _ _)), (proj2 (Z.ltb_lt _ _)) by lia.
Qed.
Lemma toType_storage p z : 1 <= p <= 38 -> Z.abs z <= maxOf (storage p) -> toType (storage p) z = z.
Proof.
  intros Hp Hz. pose proof (common_room p int128 Hp (or_introl eq_refl)) as H. unfold commonRoom in H. rewrite !andb_true_iff, !Z.ltb_lt in H.
  apply (arith_ok (storage p)); [tauto|done|tauto].
Qed.
(** The check of the precision. *)
Lemma check_precision r limit e :
  (if (r <=? - limit) || (limit <=? r) then Err e else Ok r) = (if Z.abs r <? limit then Ok r else Err e : outcome Z).
Proof. destruct (Z.ltb_spec (Z.abs r) limit), (Z.leb_spec r (- limit)), (Z.leb_spec limit r); cbn; done || lia. Qed.

Lemma integer_to_decimal p s v src :
  1 <= p <= 38 -> 0 <= s <= p -> In src targetTypes -> inType src v -> Z.abs (v * 10 ^ s) <= maxOf (storage p) ->
  CastToDecimal src (storage p) p s v =
    if Z.abs (v * 10 ^ s) <? 10 ^ p then Ok (v * 10 ^ s) else Err (OverflowException "To Decimal Cast Failed: not in range").
Proof.
  intros Hp Hs Hsrc Hv Hfit. pose proof (common_room p src Hp Hsrc) as H. unfold commonRoom in H. rewrite !andb_true_iff, !Z.ltb_lt, !Z.leb_le in H.
  destruct H as ((((((((Hw & Hm1) & Hm2) & Hu) & Hlo) & Hpm) & _) & _) & _). unfold CastToDecimal. set (A := commonType (storage p) src) in *.
  assert (Hpow : 0 < 10 ^ s <= 10 ^ p) by (split; [apply Z.pow_pos_nonneg; lia|apply Z.pow_le_mono_r; lia]).
  assert (Hsg : isSigned A = true \/ 0 <= v).
  { apply orb_true_iff in Hu as [Hu|Hu%Z.eqb_eq]; [by left|right]. unfold inType in Hv. lia. }
  rewrite pow10At_storage by lia. cbn [obind].
  assert (toType A (10 ^ s) = 10 ^ s) as -> by (apply arith_ok; [done|lia|right; lia]).
  assert (toType A v = v) as ->.
  { apply toType_id; [done|]. unfold inType in *. destruct (isSigned A) eqn:E; [rewrite Z.leb_le in Hlo; lia|].
    destruct Hsg as [|Hv0]; [done|]. unfold minOf at 1. rewrite E. lia. }
  rewrite (Z.mul_comm (10 ^ s)). destruct (arith_ok A (v * 10 ^ s) Hw) as [-> _]; [lia|destruct Hsg; [by left|right; lia]|]. cbn [obind].
  rewrite toType_storage by done. rewrite pow10At_storage by lia. cbn [obind]. apply check_precision.
Qed.

(** The decimal at another scale. *)
Definition rescale (v from to : Z) : Z := if from <=? to then v * 10 ^ (to - from) else roundHalf v (from - to).

Lemma storage_target p : In (storage p) targetTypes.
Proof. unfold storage, targetTypes, machineTypes. repeat case_match; cbn; tauto. Qed.
Lemma widest_signed p q : isSigned (promoted (pickDecimalPhysicalType (storage p) (storage q))) = true.
Proof. unfold pickDecimalPhysicalType, storage. repeat case_match; done. Qed.

Lemma decimal_to_decimal p s q u v :
  1 <= p <= 38 -> 0 <= s <= p -> 1 <= q <= 38 -> 0 <= u <= q -> - 10 ^ p < v < 10 ^ p -> Z.abs (rescale v s u) <= maxOf (storage q) ->
  CastBetweenDecimal (storage p) (storage q) s u q v =
    if Z.abs (rescale v s u) <? 10 ^ q then Ok (rescale v s u) else Err (OverflowException "Decimal Cast Failed: not in range").
Proof.
  intros Hp Hs Hq Hu Hv Hfit. pose proof (storage_target q) as Hin. pose proof (widest_signed p q) as Hsg. pose proof (pow10_ge p ltac:(lia)) as H10.
  pose proof (room_facts p (storage q) Hp Hin) as (Hw & _ & Hdp & Hmax & Hdq).
  pose proof (common_room q int128 Hq (or_introl eq_refl)) as Hcr. unfold commonRoom in Hcr. rewrite !andb_true_iff, !Z.ltb_lt in Hcr.
  unfold CastBetweenDecimal. set (T := pickDecimalPhysicalType (storage p) (storage q)) in *. set (A := promoted T) in *.
  assert (Hpow : forall k, 0 <= k <= p \/ 0 <= k <= q -> pow10At T k = Ok (10 ^ k)) by (intros k Hk; apply pow10At_ok; [done|done|lia]).
  assert (Harith : forall z, 10 * Z.abs z <= 15 * 10 ^ p -> arith A z = Ok z) by (intros z Hz; apply (arith_room p (storage q)); auto).
  assert (Hout : (if s =? u then Ok (toType (storage q) v)
     else if s <? u then let* p := pow10At T (u - s) in let* r := arith A (p * v) in Ok (toType (storage q) r)
     else let roundconst := if v <? 0 then -5 else 5 in
       let* p := pow10At T (s - u - 1) in let* half := arith A (p * roundconst) in let* sum := arith A (half + v) in
       let* q' := pow10At T (s - u) in Ok (toType (storage q) (Z.quot sum q'))) = Ok (rescale v s u)).
  { unfold rescale in *. destruct (Z.eqb_spec s u) as [->|Hne].
    - rewrite (proj2 (Z.leb_le u u)) in * by lia. rewrite Z.sub_diag, Z.pow_0_r, Z.mul_1_r in *. by rewrite toType_storage.
    - destruct (Z.ltb_spec s u) as [Hlt|Hge].
      + rewrite (proj2 (Z.leb_le s u)) in * by lia. rewrite Hpow by lia. cbn [obind]. rewrite (Z.mul_comm _ v).
        destruct (arith_ok A (v * 10 ^ (u - s)) Hw) as [-> _]; [lia|auto|]. cbn [obind]. by rewrite toType_storage.
      + rewrite (proj2 (Z.leb_gt s u)) in * by lia. cbn zeta. rewrite Hpow by lia. cbn [obind].
        destruct (half_bounds p Hp v (s - u) ltac:(lia) Hv) as (H1 & H2 & _). rewrite (Harith _ H1). cbn [obind]. rewrite (Harith _ H2). cbn [obind].
        rewrite Hpow by lia. cbn [obind]. rewrite quot_rounds by lia. by rewrite toType_storage. }
  cbn zeta in Hout |- *. rewrite Hout. cbn [obind]. rewrite Hpow by lia. cbn [obind]. rewrite orb_comm. apply check_precision.
Qed.

(** C35. Casts of decimals, for every precision, scale and value.  From a decimal to a machine integer
    the value is rounded, halves away from zero, and is an overflow if the type does not have it; the
    arithmetic stays in its type (for decimals that are negative, provided the computation is not done
    in an unsigned type).  From an integer to a decimal, and from a decimal to one of another scale,
    the value is scaled or rounded and is an overflow if it has too many digits, whenever it fits the
    integer that stores the target. *)
Theorem decimal_casts p s v :
  1 <= p <= 38 -> 0 <= s <= p -> - 10 ^ p < v < 10 ^ p ->
  (forall dst, machineInt dst -> isSigned (promoted (pickDecimalPhysicalType (storage p) dst)) = true \/ 0 <= v ->
     CastDecimalTo (storage p) dst s v =
       if (minOf dst <=? roundHalf v s) && (roundHalf v s <=? maxOf dst) then Ok (roundHalf v s) else Err (OverflowException "Cast Failed: not in range")) /\
  (forall src z, In src targetTypes -> inType src z -> Z.abs (z * 10 ^ s) <= maxOf (storage p) ->
     CastToDecimal src (storage p) p s z =
       if Z.abs (z * 10 ^ s) <? 10 ^ p then Ok (z * 10 ^ s) else Err (OverflowException "To Decimal Cast Failed: not in range")) /\
  (forall q u, 1 <= q <= 38 -> 0 <= u <= q -> Z.abs (rescale v s u) <= maxOf (storage q) ->
     CastBetweenDecimal (storage p) (storage q) s u q v =
       if Z.abs (rescale v s u) <? 10 ^ q then Ok (rescale v s u) else Err (OverflowException "Decimal Cast Failed: not in range")).
Proof.
  intros Hp Hs Hv. split; [|split].
  - intros dst Hdst Hsg. by apply decimal_to_integer.
  - intros src z Hsrc Hz Hfit. by apply integer_to_decimal.
  - intros q u Hq Hu Hfit. by apply decimal_to_decimal.
Qed.

Lemma integer_casts_exact_witness : tryCastWithOverflowCheck int64 (mkInt false 8) 255 = Some 255.
Proof.
  apply (integer_casts_exact int64 (mkInt false 8) 255).
  - by apply (bool_decide_unpack _).
  - by apply (bool_decide_unpack _).
  - by vm_compute.
Defined.

(** -12.500 as an 8-bit integer. *)
Lemma decimal_casts_witness : CastDecimalTo int32 (mkInt true 8) 3 (-12500) = Ok (-13).
Proof.
  apply (proj1 (decimal_casts 5 3 (-12500) ltac:(lia) ltac:(lia) ltac:(lia)) (mkInt true 8)).
  - by apply (bool_decide_unpack _).
  - by left.
Defined.
