(* ===== verification/Interval.v ===== *)
(** * Intervals (src/common/types/interval_t.cpp, src/include/common/types/interval_t.h,
      IntervalToStringCast of src/include/common/types/cast_helpers.h)

    An interval has months, days and microseconds, which are kept apart: a month has no fixed
    number of days.  Arithmetic, comparison, parts, and the text of intervals. *)

From Stdlib Require Import Ascii.
From stdpp Require Import base numbers strings list sets.
From S2P Require Import Prelude Date Timestamp Int128 Serializer DateText Compression LogicalType TypeText NumericText DecimalCast NumericCast.
Local Open Scope Z_scope.

Definition DAYS_PER_MONTH : Z := 30.
Definition DAYS_PER_WEEK : Z := 7.
Definition MONTHS_PER_MILLENIUM : Z := 12000.
Definition MONTHS_PER_CENTURY : Z := 1200.
Definition MONTHS_PER_DECADE : Z := 120.
Definition MICROS_PER_MONTH : Z := MICROS_PER_DAY * DAYS_PER_MONTH.
Definition NANOS_PER_MICRO : Z := 1000.

(** ** Arithmetic *)

Definition intervalAdd (a b : interval_t) : outcome interval_t :=
  let* m := i32 (months a + months b) in let* d := i32 (days a + days b) in let* us := i64 (micros a + micros b) in Ok (mkInterval m d us).
Definition intervalSub (a b : interval_t) : outcome interval_t :=
  let* m := i32 (months a - months b) in let* d := i32 (days a - days b) in let* us := i64 (micros a - micros b) in Ok (mkInterval m d us).

(** [operator/]: the divisor is unsigned and has 64 bits, and so has every dividend. *)
Definition intervalDiv (a : interval_t) (rhs : Z) : outcome interval_t :=
  if rhs =? 0 then Err UndefinedBehaviour
  else
    let monthsRemainder := wrapS 32 (wrapU 64 (months a) mod rhs) in
    let* scaled := i64 (days a + monthsRemainder * DAYS_PER_MONTH) in
    let daysRemainder := wrapS 32 (wrapU 64 scaled mod rhs) in
    let* us := i64 (micros a + daysRemainder * MICROS_PER_DAY) in
    Ok (mkInterval (wrapS 32 (wrapU 64 (months a) / rhs)) (wrapS 32 (wrapU 64 scaled / rhs)) (wrapS 64 (wrapU 64 us / rhs))).

Definition getMicro (i : interval_t) : outcome Z :=
  let* m := i64 (months i * MICROS_PER_MONTH) in let* s := i64 (micros i + m) in let* d := i64 (days i * MICROS_PER_DAY) in i64 (s + d).
Definition getNanoseconds (i : interval_t) : outcome Z := let* us := getMicro i in i64 (us * NANOS_PER_MICRO).

(** ** Comparison *)

Definition normalizeIntervalEntries (i : interval_t) : Z * Z * Z :=
  let extra_months_d := days i ÷ DAYS_PER_MONTH in
  let extra_months_micros := micros i ÷ MICROS_PER_MONTH in
  let d := days i - extra_months_d * DAYS_PER_MONTH in
  let us := micros i - extra_months_micros * MICROS_PER_MONTH in
  let extra_days_micros := us ÷ MICROS_PER_DAY in
  let us := us - extra_days_micros * MICROS_PER_DAY in
  (months i + extra_months_d + extra_months_micros, d + extra_days_micros, us).

Definition greaterThan (l r : interval_t) : bool :=
  let '(lMonths, lDays, lMicros) := normalizeIntervalEntries l in
  let '(rMonths, rDays, rMicros) := normalizeIntervalEntries r in
  if rMonths <? lMonths then true else if lMonths <? rMonths then false
  else if rDays <? lDays then true else if lDays <? rDays then false
  else rMicros <? lMicros.
Definition intervalEquals (l r : interval_t) : bool := (days l =? days r) && (months l =? months r) && (micros l =? micros r).
Definition greaterEquals (l r : interval_t) : bool := greaterThan l r || intervalEquals l r.
Definition lessThan (l r : interval_t) : bool := negb (greaterEquals l r).
Definition lessEquals (l r : interval_t) : bool := negb (greaterThan l r).

(** ** Parts *)

Definition getIntervalPart (specifier : DatePartSpecifier) (i : interval_t) : outcome Z :=
  let month := Z.rem (months i) MONTHS_PER_YEAR in
  let microsecond := wrapS 32 (Z.rem (micros i) MICROS_PER_MINUTE) in
  match specifier with
  | YEAR => Ok (months i ÷ MONTHS_PER_YEAR)
  | MONTH => Ok month
  | DAY => Ok (days i)
  | DECADE => Ok (months i ÷ MONTHS_PER_DECADE)
  | CENTURY => Ok (months i ÷ MONTHS_PER_CENTURY)
  | MILLENNIUM => Ok (months i ÷ MONTHS_PER_MILLENIUM)
  | QUARTER => Ok (month ÷ MONTHS_PER_QUARTER + 1)
  | MICROSECOND => Ok microsecond
  | MILLISECOND => Ok (microsecond ÷ MICROS_PER_MSEC)
  | SECOND => Ok (microsecond ÷ MICROS_PER_SEC)
  | MINUTE => Ok (Z.rem (micros i) MICROS_PER_HOUR ÷ MICROS_PER_MINUTE)
  | HOUR => Ok (wrapS 32 (micros i ÷ MICROS_PER_HOUR))
  | WEEK => Err InternalException
  end.

(** ** Reading *)

Definition tolower (c : ascii) : ascii :=
  let n := nat_of_ascii c in if (65 <=? n)%nat && (n <=? 90)%nat then ascii_of_nat (n + 32) else c.
Definition isOneOf (s : name) (words : list string) : bool := existsb (fun w => bool_decide (s = str w)) words.

Definition tryGetDatePartSpecifier (specifier : name) : outcome DatePartSpecifier :=
  let s := tolower <$> specifier in
  if isOneOf s ["year"; "yr"; "y"; "years"; "yrs"]%string then Ok YEAR
  else if isOneOf s ["month"; "mon"; "months"; "mons"]%string then Ok MONTH
  else if isOneOf s ["day"; "days"; "d"; "dayofmonth"]%string then Ok DAY
  else if isOneOf s ["decade"; "dec"; "decades"; "decs"]%string then Ok DECADE
  else if isOneOf s ["century"; "cent"; "centuries"; "c"]%string then Ok CENTURY
  else if isOneOf s ["millennium"; "mil"; "millenniums"; "millennia"; "mils"; "millenium"; "milleniums"]%string then Ok MILLENNIUM
  else if isOneOf s ["microseconds"; "microsecond"; "us"; "usec"; "usecs"; "usecond"; "useconds"]%string then Ok MICROSECOND
  else if isOneOf s ["milliseconds"; "millisecond"; "ms"; "msec"; "msecs"; "msecond"; "mseconds"]%string then Ok MILLISECOND
  else if isOneOf s ["second"; "sec"; "seconds"; "secs"; "s"]%string then Ok SECOND
  else if isOneOf s ["minute"; "min"; "minutes"; "mins"; "m"]%string then Ok MINUTE
  else if isOneOf s ["hour"; "hr"; "hours"; "hrs"; "h"]%string then Ok HOUR
  else if isOneOf s ["week"; "weeks"; "w"; "weekofyear"]%string then Ok WEEK
  else if isOneOf s ["quarter"; "quarters"]%string then Ok QUARTER
  else Err (ConversionException "Unrecognized interval specifier string.").

(** [intervalTryAddition] to a target of 32 or 64 bits. *)
Definition inRangeOr (w : Z) (z : Z) (msg : string) : outcome Z :=
  if (- 2 ^ (w - 1) <=? z) && (z <? 2 ^ (w - 1)) then Ok z else Err (OverflowException msg).
Definition intervalTryCastInteger (w input : Z) : outcome Z :=
  match tryCastWithOverflowCheck int64 (mkInt true w) input with Some r => Ok r | None => Err (OverflowException "Value is not within range") end.
Definition intervalTryAddition (w target input multiplier fraction : Z) : outcome Z :=
  let* addition := inRangeOr 64 (input * multiplier) "Interval value is out of range" in
  let* additionBase := intervalTryCastInteger w addition in
  let* target := inRangeOr w (target + additionBase) "Interval value is out of range" in
  if fraction =? 0 then Ok target
  else
    let* product := i64 (fraction * multiplier) in
    let* additionBase := intervalTryCastInteger w (product ÷ MICROS_PER_SEC) in
    inRangeOr w (target + additionBase) "Interval fraction is out of range".

(** The switch over the specifier. *)
Definition addMonths (i : interval_t) (number multiplier fraction : Z) : outcome interval_t :=
  let* m := intervalTryAddition 32 (months i) number multiplier fraction in Ok (mkInterval m (days i) (micros i)).
Definition addDays (i : interval_t) (number multiplier fraction : Z) : outcome interval_t :=
  let* d := intervalTryAddition 32 (days i) number multiplier fraction in Ok (mkInterval (months i) d (micros i)).
Definition addMicros (i : interval_t) (number multiplier fraction : Z) : outcome interval_t :=
  let* us := intervalTryAddition 64 (micros i) number multiplier fraction in Ok (mkInterval (months i) (days i) us).
Definition addPart (specifier : DatePartSpecifier) (number fraction : Z) (i : interval_t) : outcome interval_t :=
  match specifier with
  | MILLENNIUM => addMonths i number MONTHS_PER_MILLENIUM fraction
  | CENTURY => addMonths i number MONTHS_PER_CENTURY fraction
  | DECADE => addMonths i number MONTHS_PER_DECADE fraction
  | YEAR => addMonths i number MONTHS_PER_YEAR fraction
  | QUARTER =>
      let* i := addMonths i number MONTHS_PER_QUARTER fraction in
      addDays i 0 DAYS_PER_MONTH (Z.rem (fraction * MONTHS_PER_QUARTER) MICROS_PER_SEC)
  | MONTH => let* i := addMonths i number 1 0 in addDays i 0 DAYS_PER_MONTH fraction
  | DAY => let* i := addDays i number 1 0 in addMicros i 0 MICROS_PER_DAY fraction
  | WEEK =>
      let* i := addDays i number DAYS_PER_WEEK fraction in
      addMicros i 0 MICROS_PER_DAY (Z.rem (fraction * DAYS_PER_WEEK) MICROS_PER_SEC)
  | HOUR => addMicros i number MICROS_PER_HOUR fraction
  | MINUTE => addMicros i number MICROS_PER_MINUTE fraction
  | SECOND => addMicros i number MICROS_PER_SEC fraction
  | MILLISECOND => addMicros i number MICROS_PER_MSEC fraction
  | MICROSECOND => let* number := i64 (number + (fraction * 2) ÷ MICROS_PER_SEC) in addMicros i number 1 0
  end.

(** The loops over a run of characters. *)
Fixpoint span (p : ascii -> bool) (s : name) : name * name :=
  match s with
  | c :: s' => if p c then let '(a, b) := span p s' in (c :: a, b) else ([], s)
  | [] => ([], [])
  end.

Definition tryConvertInterval (buf : name) : option Z :=
  match tryConvertTimeInternal buf with
  | Some (t, rest) => if skipSpaces rest is [] then Some t else None
  | None => None
  end.

Definition parseFailure : exn := ConversionException "Error occurred during parsing interval.".

(** [fromCString] from the label [parse_interval] on. *)
Fixpoint parseInterval (fuel : nat) (s : name) (i : interval_t) (foundAny : bool) : outcome interval_t :=
  match fuel with
  | O => Err UndefinedBehaviour
  | S fuel =>
      match skipSpaces s with
      | [] => if foundAny then Ok i else Err parseFailure
      | (c :: _) as s =>
          if negb (isDigit c) then Err parseFailure
          else
            match span isDigit s with
            | (_, []) => Err (ConversionException "Error occurred during parsing interval. Field name is missing.")
            | (ds, c :: rest) =>
                if bool_decide (c = colon) then
                  match tryConvertInterval s with
                  | None => Err (ConversionException "Error occurred during parsing time.")
                  | Some t => let* us := i64 (micros i + t) in Ok (mkInterval (months i) (days i) us)
                  end
                else
                  let* number := simpleIntegerCast int64 ds in
                  let '(fraction, rest) := if bool_decide (c = dot) then parseMicros rest 100000 0 else (0, c :: rest) in
                  let '(word, rest) := span (fun c => negb (isSpace c)) (skipSpaces rest) in
                  if bool_decide (word = []) then Err (ConversionException "Error occurred during parsing interval. Field name is missing.")
                  else
                    let* specifier := tryGetDatePartSpecifier word in
                    let* i := addPart specifier number fraction i in
                    parseInterval fuel rest i true
            end
      end
  end.
Definition zeroInterval : interval_t := mkInterval 0 0 0.
Definition intervalFromCString (s : name) : outcome interval_t :=
  match s with
  | [] => Err (ConversionException "Error occurred during parsing interval. Given empty string.")
  | c :: rest => let s := if code c =? 64 then rest else s in parseInterval (S (length s)) s zeroInterval false
  end.

(** ** Printing *)

Definition getUnsignedInt64Length (value : Z) : Z :=
  let add length bounds := fold_left (fun l b => if b <=? value then l + 1 else l) bounds length in
  if 10 ^ 10 <=? value then
    if 10 ^ 15 <=? value then add 16 [10 ^ 16; 10 ^ 17; 10 ^ 18; 10 ^ 19] else add 11 [10 ^ 11; 10 ^ 12; 10 ^ 13; 10 ^ 14]
  else
    if 10 ^ 5 <=? value then add 6 [10 ^ 6; 10 ^ 7; 10 ^ 8; 10 ^ 9] else add 1 [10; 10 ^ 2; 10 ^ 3; 10 ^ 4].

(** [FormatSignedNumber] reserves the length and writes the digits from its end; they have to fill it. *)
Definition FormatSignedNumber (value : Z) : outcome name :=
  let sign := if value <? 0 then -1 else 0 in
  let unsigned_value := wrapU 64 (Z.lxor value sign - sign) in
  let* ds := FormatUnsigned 10 unsigned_value [] in
  if Z.of_nat (length ds) =? getUnsignedInt64Length unsigned_value then Ok (if value <? 0 then minus :: ds else ds) else Err UndefinedBehaviour.

Definition FormatIntervalValue (value : Z) (buffer : name) (word : string) : outcome name :=
  if value =? 0 then Ok buffer
  else
    let* n := FormatSignedNumber value in
    Ok (buffer ++ (if decide (buffer = []) then [] else [space]) ++ n ++ str word ++ (if value =? 1 then [] else str "s")).

Definition FormatTime (us : Z) : outcome name :=
  let hour := us ÷ MICROS_PER_HOUR in
  let us := us - hour * MICROS_PER_HOUR in
  let min := us ÷ MICROS_PER_MINUTE in
  let us := us - min * MICROS_PER_MINUTE in
  let sec := us ÷ MICROS_PER_SEC in
  let us := us - sec * MICROS_PER_SEC in
  let* h := FormatSignedNumber hour in
  let* m := FormatTwoDigits min in
  let* s := FormatTwoDigits sec in
  let hms := (if hour <? 10 then [ch 48] else []) ++ h ++ colon :: m ++ colon :: s in
  if us =? 0 then Ok hms
  else
    let* p := FormatMicros us in
    let '(w, trailing_zeros) := p in
    Ok (hms ++ dot :: take (6 - trailing_zeros) w).

Definition intervalToString (i : interval_t) : outcome name :=
  let* buffer :=
    (if negb (months i =? 0) then
       let years := months i ÷ 12 in
       let* buffer := FormatIntervalValue years [] " year" in
       FormatIntervalValue (months i - years * 12) buffer " month"
     else Ok []) in
  let* buffer := (if negb (days i =? 0) then FormatIntervalValue (days i) buffer " day" else Ok buffer) in
  if negb (micros i =? 0) then
    let* us := (if micros i <? 0 then i64 (- micros i) else Ok (micros i)) in
    let* t := FormatTime us in
    Ok (buffer ++ (if decide (buffer = []) then [] else [space]) ++ (if micros i <? 0 then [minus] else []) ++ t)
  else if decide (buffer = []) then Ok (str "00:00:00") else Ok buffer.

(** ** Examples *)

Example interval_shown : intervalToString (mkInterval 14 3 (4 * MICROS_PER_HOUR + 5000007)) = Ok (str "1 year 2 months 3 days 04:00:05.000007").
Proof. by vm_compute. Qed.
Example interval_read : intervalFromCString (str "1 year 2 months 3 days 04:00:05.000007") = Ok (mkInterval 14 3 (4 * MICROS_PER_HOUR + 5000007)).
Proof. by vm_compute. Qed.
Example interval_fraction : intervalFromCString (str "1.5 weeks 2 quarters") = Ok (mkInterval 6 10 (MICROS_PER_DAY ÷ 2)).
Proof. by vm_compute. Qed.

(** ** What goes wrong *)

(** Thirty days and one month are each less than the other. *)
Example days_and_month : let a := mkInterval 0 30 0 in let b := mkInterval 1 0 0 in
  lessThan a b = true /\ lessThan b a = true /\ greaterThan a b = false /\ greaterThan b a = false.
Proof. by vm_compute. Qed.
(** 29 days and 48 hours, 31 days together, are less than one month of 30 days. *)
Example not_by_length : greaterThan (mkInterval 1 0 0) (mkInterval 0 29 (2 * MICROS_PER_DAY)) = true.
Proof. by vm_compute. Qed.
(** Half of minus one month is not minus 15 days. *)
Example negative_interval_divided : intervalDiv (mkInterval (-1) 0 0) 2 = Ok (mkInterval (-1) 15 0).
Proof. by vm_compute. Qed.
(** A negative interval is printed, and its text is not read. *)
Example negative_interval_not_read :
  intervalToString (mkInterval 0 (-1) 0) = Ok (str "-1 days") /\ intervalFromCString (str "-1 days") = Err parseFailure.
Proof. by vm_compute. Qed.

(** ** Numbers in the text *)

Lemma getUnsignedInt64Length_ok v : 0 <= v < 2 ^ 64 ->
  let l := getUnsignedInt64Length v in 1 <= l <= 20 /\ v < 10 ^ l /\ (1 < l -> 10 ^ (l - 1) <= v).
Proof.
  intros Hv. unfold getUnsignedInt64Length. cbn [fold_left].
  repeat match goal with |- context [if ?a <=? v then _ else _] => destruct (Z.leb_spec a v) end; cbn zeta;
    try (exfalso; lia); cbn -[Z.pow]; lia.
Qed.

(** The digits of a number: as many as its length, without a leading zero. *)
Lemma digitsOf_canonical v ds : digitsOf v ds -> canonical ds.
Proof.
  intros (Hd & Hval & Hlen & Hk). split; [done|]. split; [by destruct ds; [cbn in Hlen; lia|]|].
  destruct ds as [|c ds]; [cbn in Hlen; lia|]. destruct (decide (ds = [])) as [->|Hne]; [by left|right]. cbn. intros [= ->].
  inversion Hd as [|? ? _ Hds]; subst. assert (Hl : (1 <= length ds)%nat) by (destruct ds; [done|cbn; lia]).
  pose proof (decimal_below ds Hds) as Hb. specialize (Hk (Z.of_nat (length ds)) ltac:(lia)).
  change (decimal (ch 48 :: ds) 0) with (decimal ds 0) in Hk. specialize (Hk Hb). cbn [length] in Hk. lia.
Qed.
Lemma digitsOf_length v ds : digitsOf v ds -> 0 <= v < 2 ^ 64 -> Z.of_nat (length ds) = getUnsignedInt64Length v.
Proof.
  intros (Hd & Hval & Hlen & Hk) Hv. destruct (getUnsignedInt64Length_ok v Hv) as (Hl & Hlt & Hge). set (l := getUnsignedInt64Length v) in *.
  pose proof (Hk l ltac:(lia) Hlt) as Hle. destruct (decide (l = 1)) as [->|]; [lia|]. specialize (Hge ltac:(lia)).
  pose proof (decimal_below ds Hd) as Hb. rewrite Hval in Hb.
  assert (l - 1 < Z.of_nat (length ds)); [|lia]. apply (Z.pow_lt_mono_r_iff 10); lia.
Qed.

Lemma FormatSigned_nonneg v : 0 <= v < 2 ^ 63 -> exists ds, FormatSignedNumber v = Ok ds /\ canonical ds /\ decimal ds 0 = v /\ (v < 10 -> length ds = 1%nat) /\
  (forall k, 1 <= k -> v < 10 ^ k -> Z.of_nat (length ds) <= k).
Proof.
  intros Hv. unfold FormatSignedNumber. rewrite (proj2 (Z.ltb_ge v 0)) by lia. rewrite Z.lxor_0_r, Z.sub_0_r, wrapU_id by (unfold inU; lia).
  destruct (FormatUnsigned_spec 10 v []) as (ds & -> & Hds); [lia|]. rewrite app_nil_r. cbn [obind].
  rewrite (digitsOf_length v ds Hds) by lia. rewrite Z.eqb_refl. exists ds. split; [done|]. split; [by eapply digitsOf_canonical|].
  destruct Hds as (_ & Hval & Hlen & Hk). split; [done|]. split; [|done]. intros H10. specialize (Hk 1 ltac:(lia) ltac:(lia)). lia.
Qed.

Lemma span_app (p : ascii -> bool) a b : Forall (fun c => p c = true) a -> match b with c :: _ => p c = false | [] => True end -> span p (a ++ b) = (a, b).
Proof. intros Ha Hb. induction Ha as [|c a Hc _ IH]; cbn [span app]; [by destruct b as [|c b]; cbn; [|rewrite Hb]|]. by rewrite Hc, IH. Qed.

Lemma skipSpaces_digits ds rest : Forall isDigitChar ds -> ds <> [] -> skipSpaces (ds ++ rest) = ds ++ rest.
Proof.
  intros Hd Hne. destruct ds as [|c ds]; [done|]. apply (skipSpaces_head _ c); [done|]. inversion Hd; subst. by apply digit_other.
Qed.

(** One value with its unit. *)
Lemma parse_value ds word sp v i i' rest fuel found :
  canonical ds -> decimal ds 0 = v -> v < 2 ^ 63 -> tryGetDatePartSpecifier word = Ok sp -> word <> [] -> Forall (fun c => isSpace c = false) word ->
  rest = [] \/ (exists r, rest = space :: r) -> addPart sp v 0 i = Ok i' ->
  parseInterval (S fuel) (ds ++ space :: word ++ rest) i found = parseInterval fuel rest i' true.
Proof.
  intros Hcan Hval Hv Hsp Hne Hword Hrest Hadd. pose proof Hcan as (Hds & Hdne & _). cbn [parseInterval]. rewrite skipSpaces_digits by done.
  destruct (ds ++ space :: word ++ rest) as [|c s] eqn:Es; [by destruct ds|].
  assert (Hc : isDigit c = true) by (destruct ds as [|d ds]; [done|]; injection Es as <- _; by inversion Hds).
  rewrite Hc. cbn [negb]. rewrite <- Es, span_app by done. rewrite bool_decide_eq_false_2 by done.
  assert (simpleIntegerCast int64 ds = Ok v) as ->.
  { unfold simpleIntegerCast. rewrite (parse_int int64 ds ds); [|by apply (bool_decide_unpack _)|done|].
    - rewrite Hval, (proj2 (Z.leb_le _ _)); [done|]. cbn -[Z.pow]. lia.
    - destruct ds as [|d ds']; [done|]. apply (digits_tight _ d); [done|inversion Hds; subst; by apply digit_other|].
      eapply Forall_impl; [exact Hds|]. by intros x (_ & _ & _ & _ & _ & ? & _)%digit_other. }
  cbn [obind]. rewrite bool_decide_eq_false_2 by done. cbn [skipSpaces]. change (isSpace space) with true. cbn match.
  assert (skipSpaces (word ++ rest) = word ++ rest) as -> by (destruct word as [|w word]; [done|]; inversion Hword; subst; by apply (skipSpaces_head _ w)).
  rewrite span_app; [|eapply Forall_impl; [exact Hword|]; by intros x ->|destruct Hrest as [->|[r ->]]; done].
  rewrite bool_decide_eq_false_2 by done. rewrite Hsp. cbn [obind]. rewrite Hadd. done.
Qed.

(** ** Reading what was printed *)

Definition follows (rest : name) : Prop := rest = [] \/ exists r, rest = space :: r.
(** The text is read from one interval to another, whatever follows. *)
Definition startsDigit (s : name) : Prop := match s with c :: _ => isDigit c = true | [] => False end.
Definition reads (s : name) (i i' : interval_t) : Prop :=
  startsDigit s /\ exists k, (k <= length s)%nat /\
    forall rest fuel found, follows rest -> parseInterval (k + fuel) (s ++ rest) i found = parseInterval fuel rest i' true.
Definition built (s : name) (i : interval_t) : Prop := s = [] /\ i = zeroInterval \/ reads s zeroInterval i.

Lemma parse_space fuel s i found : parseInterval fuel (space :: s) i found = parseInterval fuel s i found.
Proof. by destruct fuel. Qed.

Lemma built_piece s i p i' :
  built s i -> reads p i i' -> built (s ++ (if decide (s = []) then [] else [space]) ++ p) i'.
Proof.
  intros [[-> ->]|(Hne & k & Hk & Hs)] (Hp & k' & Hk' & Hr); right; [by split; [|exists k']|]. rewrite decide_False by (by destruct s).
  split; [by destruct s|]. exists (k + k')%nat. split; [rewrite !length_app; cbn; lia|]. intros rest fuel found Hf.
  rewrite <- Nat.add_assoc, <- !app_assoc. cbn [app]. rewrite Hs by (right; by eexists). rewrite parse_space. by apply Hr.
Qed.

(** Units are named in the singular for one and in the plural otherwise. *)
Definition unitNamed (word : string) (sp : DatePartSpecifier) : Prop :=
  tryGetDatePartSpecifier (str word) = Ok sp /\ tryGetDatePartSpecifier (str word ++ str "s") = Ok sp /\ word <> EmptyString /\ Forall (fun c => isSpace c = false) (str word).

Lemma built_value s i v word sp i' :
  built s i -> 0 <= v < 2 ^ 31 -> unitNamed word sp -> addPart sp v 0 i = Ok i' -> (v = 0 -> i' = i) ->
  exists s', FormatIntervalValue v s (String (ch 32) word) = Ok s' /\ built s' i'.
Proof.
  intros Hb Hv (Hsp & Hsps & Hne & Hw) Hadd H0. unfold FormatIntervalValue. destruct (Z.eqb_spec v 0) as [Hz|Hnz]; [exists s; by rewrite H0|].
  destruct (FormatSigned_nonneg v) as (ds & -> & Hcan & Hval & _); [lia|]. cbn [obind]. eexists. split; [done|].
  assert (Hwne : str word <> []) by (by destruct word). apply built_piece with i; [done|]. pose proof Hcan as (Hdd & Hdne & _).
  split; [destruct ds; [done|by inversion Hdd]|]. exists 1%nat. split; [rewrite length_app; destruct ds; [done|cbn; lia]|]. intros rest fuel found Hf.
  set (w := str word ++ (if v =? 1 then [] else str "s")).
  assert (Eq : (ds ++ str (String (ch 32) word) ++ (if v =? 1 then [] else str "s")) ++ rest = ds ++ space :: w ++ rest) by (unfold w; by rewrite <- !app_assoc).
  rewrite Eq. apply (parse_value ds w sp v); [done|done|lia| | | |done|done]; unfold w; destruct (v =? 1); rewrite ?app_nil_r; try done.
  - by destruct (str word).
  - apply Forall_app. split; [done|]. by repeat constructor.
Qed.

Lemma parseHour_digits ds : forall left acc c rest, Forall isDigitChar ds -> (length ds <= left)%nat -> isDigit c = false ->
  parseHour left (ds ++ c :: rest) acc = Some (decimal ds acc, c :: rest).
Proof.
  induction ds as [|d ds IH]; intros left acc c rest Hd Hl Hc; cbn [parseHour app decimal].
  - destruct left; cbn [parseHour]; by rewrite Hc.
  - inversion Hd as [|? ? Hdd Hds]; subst. cbn [length] in Hl. destruct left as [|left]; [lia|]. cbn [parseHour]. unfold isDigitChar in Hdd. rewrite Hdd.
    rewrite IH; [|done|lia|done]. do 3 f_equal. lia.
Qed.

(** The time of day, with hours of up to nine digits. *)
Lemma FormatTime_read us : 0 <= us < 10 ^ 9 * MICROS_PER_HOUR ->
  exists hh rest, FormatTime us = Ok (hh ++ colon :: rest) /\ Forall isDigitChar hh /\ hh <> [] /\ tryConvertInterval (hh ++ colon :: rest) = Some us.
Proof.
  unfold MICROS_PER_HOUR. intros Hus. unfold FormatTime, MICROS_PER_HOUR, MICROS_PER_MINUTE, MICROS_PER_SEC.
  set (h := us ÷ 3600000000). set (r1 := us - h * 3600000000). set (m := r1 ÷ 60000000). set (r2 := r1 - m * 60000000).
  set (s := r2 ÷ 1000000). set (u := r2 - s * 1000000).
  assert (Hh : 0 <= h < 10 ^ 9 /\ 0 <= r1 < 3600000000) by (unfold r1, h; rewrite Z.quot_div_nonneg by lia; lia).
  assert (Hm : 0 <= m < 60 /\ 0 <= r2 < 60000000) by (unfold r2, m; rewrite Z.quot_div_nonneg by lia; lia).
  assert (Hs : 0 <= s < 60 /\ 0 <= u < 1000000) by (unfold u, s; rewrite Z.quot_div_nonneg by lia; lia).
  assert (Hsum : fromTimeInternal h m s u = us) by (unfold fromTimeInternal, MINS_PER_HOUR, SECS_PER_MINUTE, MICROS_PER_SEC, u, r2, r1; lia).
  clearbody h r1 m r2 s u. cbn zeta.
  destruct (FormatSigned_nonneg h) as (ds & -> & (Hds & Hdne & _) & Hval & H1 & Hlen); [lia|]. cbn [obind]. rewrite !twoDigits by lia. cbn [obind].
  set (hh := (if h <? 10 then [ch 48] else []) ++ ds).
  assert (Hhh : Forall isDigitChar hh) by (apply Forall_app; split; [destruct (h <? 10); by repeat constructor|done]).
  assert (Hhne : hh <> []) by (unfold hh; destruct (h <? 10); [done|by destruct ds]).
  assert (Hhl : (length hh <= 9)%nat) by (unfold hh; rewrite length_app; specialize (Hlen 9 ltac:(lia) ltac:(lia)); destruct (Z.ltb_spec h 10); [specialize (H1 ltac:(lia)); cbn; lia|cbn; lia]).
  assert (Hhv : decimal hh 0 = h) by (unfold hh; by destruct (h <? 10)).
  assert (Hrun : forall tail, tryConvertTimeInternal (hh ++ colon :: [digitChar (m / 10); digitChar (m mod 10)] ++ colon :: [digitChar (s / 10); digitChar (s mod 10)] ++ tail) =
    let '(us, rest) := match tail with c :: rest' => if bool_decide (c = dot) then parseMicros rest' 100000 0 else (0, tail) | [] => (0, tail) end in
    Some (fromTimeInternal h m s us, rest)).
  { intros tail. unfold tryConvertTimeInternal. rewrite skipSpaces_digits by done.
    destruct (hh ++ _) as [|c l] eqn:El; [by destruct hh|]. assert (isDigit c = true) as -> by (destruct hh as [|d hh']; [done|]; injection El as <- _; by inversion Hhh).
    cbn [negb]. rewrite <- El, parseHour_digits, Hhv by done. rewrite bool_decide_eq_true_2 by done. cbn [negb app].
    rewrite parseSixty_two by lia. rewrite bool_decide_eq_true_2 by done. cbn [negb]. by rewrite parseSixty_two by lia. }
  unfold tryConvertInterval. rewrite !app_assoc. fold hh. destruct (Z.eqb_spec u 0) as [Hu|Hu].
  - exists hh, ([digitChar (m / 10); digitChar (m mod 10)] ++ colon :: [digitChar (s / 10); digitChar (s mod 10)]). split; [done|]. split; [done|]. split; [done|].
    specialize (Hrun []). rewrite app_nil_r in Hrun. rewrite Hrun. cbn. by rewrite <- Hu, Hsum.
  - destruct (FormatMicros_spec u) as (w & tz & -> & Hw & Hl & Htz & Hu'); [lia|]. cbn [obind].
    exists hh, ([digitChar (m / 10); digitChar (m mod 10)] ++ colon :: [digitChar (s / 10); digitChar (s mod 10)] ++ dot :: take (6 - tz) w).
    split; [by rewrite <- !app_assoc|]. split; [done|]. split; [done|]. rewrite Hrun. rewrite bool_decide_eq_true_2 by done.
    change 100000 with (10 ^ 5). rewrite parseMicros_digits; [|by apply Forall_take|lia|rewrite length_take; lia].
    rewrite length_take, Hl. replace (5 + 1 - Z.of_nat ((6 - tz) `min` 6)) with (Z.of_nat tz) by lia. by rewrite Z.add_0_l, <- Hu', Hsum.
Qed.

Lemma parse_time hh rest us fuel i found :
  Forall isDigitChar hh -> hh <> [] -> tryConvertInterval (hh ++ colon :: rest) = Some us -> micros i = 0 -> - 2 ^ 63 <= us < 2 ^ 63 ->
  parseInterval (S fuel) (hh ++ colon :: rest) i found = Ok (mkInterval (months i) (days i) us).
Proof.
  intros Hhh Hne Hus Hi Hb. cbn [parseInterval]. rewrite skipSpaces_digits by done.
  destruct (hh ++ colon :: rest) as [|c l] eqn:El; [by destruct hh|].
  assert (isDigit c = true) as -> by (destruct hh as [|d hh']; [done|]; injection El as <- _; by inversion Hhh). cbn [negb].
  rewrite <- El, span_app by done. rewrite bool_decide_eq_true_2 by done. rewrite El, Hus. cbn [obind]. rewrite Hi, Z.add_0_l.
  unfold i64. by rewrite (proj2 (Z.leb_le _ _)), (proj2 (Z.ltb_lt _ _)) by lia.
Qed.

Lemma inRangeOr_ok w z msg : - 2 ^ (w - 1) <= z < 2 ^ (w - 1) -> inRangeOr w z msg = Ok z.
Proof. intros H. unfold inRangeOr. by rewrite (proj2 (Z.leb_le _ _)), (proj2 (Z.ltb_lt _ _)) by lia. Qed.

Lemma tryAddition_ok w target input multiplier : w = 32 \/ w = 64 ->
  - 2 ^ (w - 1) <= input * multiplier < 2 ^ (w - 1) -> - 2 ^ (w - 1) <= target + input * multiplier < 2 ^ (w - 1) ->
  intervalTryAddition w target input multiplier 0 = Ok (target + input * multiplier).
Proof.
  intros Hw Hp Ht. unfold intervalTryAddition. assert (H64 : 2 ^ (w - 1) <= 2 ^ 63) by (destruct Hw as [->| ->]; by vm_compute).
  rewrite inRangeOr_ok by (change (64 - 1) with 63; lia). cbn [obind]. unfold intervalTryCastInteger.
  rewrite integer_casts_exact; [|by apply (bool_decide_unpack _)|destruct Hw as [->| ->]; by apply (bool_decide_unpack _)|unfold inType; cbn -[Z.pow]; lia].
  unfold minOf, maxOf. cbn [isSigned width]. rewrite (proj2 (Z.leb_le _ _)), (proj2 (Z.leb_le _ _)) by lia. cbn [andb obind].
  rewrite inRangeOr_ok by done. done.
Qed.

Lemma addMonths_ok i n k : 0 <= months i -> 0 <= n * k -> months i + n * k < 2 ^ 31 -> addMonths i n k 0 = Ok (mkInterval (months i + n * k) (days i) (micros i)).
Proof. intros Hi Hn Hs. unfold addMonths. by rewrite tryAddition_ok by (auto; change (32 - 1) with 31; lia). Qed.
Lemma addDays_ok i n k : 0 <= days i -> 0 <= n * k -> days i + n * k < 2 ^ 31 -> addDays i n k 0 = Ok (mkInterval (months i) (days i + n * k) (micros i)).
Proof. intros Hi Hn Hs. unfold addDays. by rewrite tryAddition_ok by (auto; change (32 - 1) with 31; lia). Qed.
Lemma addMicros_0 i k : inS 64 (micros i) -> addMicros i 0 k 0 = Ok i.
Proof. unfold inS. intros Hi. unfold addMicros. rewrite tryAddition_ok by (auto; change (64 - 1) with 63 in *; lia). rewrite Z.add_0_r. by destruct i. Qed.

Lemma years_named : unitNamed "year" YEAR. Proof. split_and!; [done|done|done|by repeat constructor]. Qed.
Lemma months_named : unitNamed "month" MONTH. Proof. split_and!; [done|done|done|by repeat constructor]. Qed.
Lemma days_named : unitNamed "day" DAY. Proof. split_and!; [done|done|done|by repeat constructor]. Qed.

(** The years, months and days. *)
Lemma dates_built m d : 0 <= m < 2 ^ 31 -> 0 <= d < 2 ^ 31 ->
  exists s, (let* buffer := (if negb (m =? 0) then let years := m ÷ 12 in let* buffer := FormatIntervalValue years [] " year" in FormatIntervalValue (m - years * 12) buffer " month" else Ok []) in
             (if negb (d =? 0) then FormatIntervalValue d buffer " day" else Ok buffer)) = Ok s /\ built s (mkInterval m d 0).
Proof.
  intros Hm Hd. assert (Hmonths : exists s, (if negb (m =? 0) then let years := m ÷ 12 in let* buffer := FormatIntervalValue years [] " year" in FormatIntervalValue (m - years * 12) buffer " month" else Ok []) = Ok s /\
      built s (mkInterval m 0 0)).
  { destruct (Z.eqb_spec m 0) as [->|Hm0]; cbn [negb]; [exists []; split; [done|by left]|]. set (y := m ÷ 12). cbn zeta.
    assert (Hy : 0 <= y /\ 0 <= m - y * 12 < 12) by (unfold y; rewrite Z.quot_div_nonneg by lia; lia).
    destruct (built_value [] zeroInterval y "year" YEAR (mkInterval (y * 12) 0 0)) as (s1 & E1 & B1);
      [by left|lia|apply years_named|apply (addMonths_ok zeroInterval y 12); cbn; lia|intros ->; done|]. change " year"%string with (String (ch 32) "year"). rewrite E1. cbn [obind].
    destruct (built_value s1 (mkInterval (y * 12) 0 0) (m - y * 12) "month" MONTH (mkInterval m 0 0)) as (s2 & E2 & B2); [done|lia|apply months_named| |intros H; f_equal; lia|].
    - cbn [addPart]. rewrite addMonths_ok by (cbn; lia). cbn [obind months days micros]. rewrite addDays_ok by (cbn; lia). cbn. do 2 f_equal. lia.
    - change " month"%string with (String (ch 32) "month"). rewrite E2. by exists s2. }
  destruct Hmonths as (s & -> & Hb). cbn [obind]. destruct (Z.eqb_spec d 0) as [->|Hd0]; cbn [negb]; [by exists s|].
  apply (built_value s (mkInterval m 0 0) d "day" DAY); [done|lia|apply days_named| |done].
  cbn [addPart]. rewrite addDays_ok by (cbn; lia). cbn [obind]. rewrite addMicros_0 by (cbn; unfold inS; lia). cbn. do 2 f_equal. lia.
Qed.

(** An interval without negative parts, of fewer than a billion hours, is read back from its text. *)
Theorem intervals_text_roundtrip i :
  0 <= months i < 2 ^ 31 -> 0 <= days i < 2 ^ 31 -> 0 <= micros i < 10 ^ 9 * MICROS_PER_HOUR ->
  exists s, intervalToString i = Ok s /\ intervalFromCString s = Ok i.
Proof.
  destruct i as [m d us]. cbn [months days micros]. intros Hm Hd Hus. assert (H64 : us < 2 ^ 63) by (unfold MICROS_PER_HOUR in Hus; lia).
  unfold intervalToString. cbn [months days micros].
  destruct (dates_built m d Hm Hd) as (s & Hs & Hb).
  destruct (if negb (m =? 0) then _ else _) as [s0|]; [|done]. cbn [obind] in *. rewrite Hs. cbn [obind].
  assert (Hfrom : forall t i', startsDigit t -> parseInterval (S (length t)) t zeroInterval false = Ok i' -> intervalFromCString t = Ok i').
  { intros [|c t] i' Hc Ht; [done|]. cbn in Hc. unfold intervalFromCString. unfold isDigit in Hc. rewrite (proj2 (Z.eqb_neq (code c) 64)) by lia. done. }
  destruct (Z.eqb_spec us 0) as [->|Hne]; cbn [negb].
  - destruct Hb as [[-> [= -> ->]]|(Hst & k & Hk & Hr)]; [rewrite decide_True by done; eexists; split; [done|]; by vm_compute|].
    rewrite decide_False by (by destruct s). exists s. split; [done|]. apply Hfrom; [done|].
    specialize (Hr [] (S (length s - k)) false (or_introl eq_refl)). rewrite app_nil_r in Hr.
    replace (S (length s)) with (k + S (length s - k))%nat by lia. by rewrite Hr.
  - rewrite (proj2 (Z.ltb_ge us 0)) by lia. cbn [obind app]. destruct (FormatTime_read us) as (hh & rest & -> & Hhh & Hhne & Ht); [lia|]. cbn [obind].
    assert (Hstt : startsDigit (hh ++ colon :: rest)) by (destruct hh as [|c hh]; [done|by inversion Hhh]).
    destruct Hb as [[-> [= -> ->]]|(Hst & k & Hk & Hr)].
    + rewrite decide_True by done. eexists. split; [done|]. apply Hfrom; [done|]. cbn [app]. rewrite (parse_time hh rest us) by (done || lia). done.
    + rewrite decide_False by (by destruct s). eexists. split; [done|]. apply Hfrom; [by destruct s|]. cbn [app].
      rewrite length_app. cbn [length]. replace (S (length s + S (length (hh ++ colon :: rest)))) with (k + S (length s + S (length (hh ++ colon :: rest)) - k))%nat by lia.
      rewrite Hr by (right; by eexists). rewrite parse_space. rewrite (parse_time hh rest us) by (done || lia). done.
Qed.

Lemma intervals_text_roundtrip_witness : exists s, intervalToString (mkInterval 14 3 5000007) = Ok s /\ intervalFromCString s = Ok (mkInterval 14 3 5000007).
Proof.
  apply intervals_text_roundtrip.
  - cbn. lia.
  - cbn. lia.
  - by vm_compute.
Defined.

(** ** The order of intervals *)

(** [greaterThan] compares the normalized entries from the months to the microseconds: it is a strict
    order that any two intervals with different normalized entries are related by. *)
Theorem interval_order a b c :
  greaterThan a a = false /\
  (greaterThan a b = true -> greaterThan b c = true -> greaterThan a c = true) /\
  (normalizeIntervalEntries a = normalizeIntervalEntries b \/ greaterThan a b = true \/ greaterThan b a = true).
Proof.
  unfold greaterThan. destruct (normalizeIntervalEntries a) as [[ma da] ua], (normalizeIntervalEntries b) as [[mb db] ub], (normalizeIntervalEntries c) as [[mc dc] uc].
  split; [by rewrite !Z.ltb_irrefl|]. split.
  - destruct (Z.ltb_spec mb ma), (Z.ltb_spec mc mb), (Z.ltb_spec ma mb), (Z.ltb_spec mb mc), (Z.ltb_spec mc ma), (Z.ltb_spec ma mc); try lia; try done.
    destruct (Z.ltb_spec db da), (Z.ltb_spec dc db), (Z.ltb_spec da db), (Z.ltb_spec db dc), (Z.ltb_spec dc da), (Z.ltb_spec da dc); try lia; try done.
  - destruct (Z.ltb_spec mb ma), (Z.ltb_spec ma mb); auto. destruct (Z.ltb_spec db da), (Z.ltb_spec da db); auto.
    destruct (Z.ltb_spec ub ua), (Z.ltb_spec ua ub); auto. left. repeat f_equal; lia.
Qed.
