(* ===== verification/Value.v ===== *)
(** * Values (src/common/types/value/value.cpp, src/include/common/types/value/value.h)

    A value has its type, a null flag, a union with a member for every physical type of fixed size,
    a string and the values of its elements or fields.  [val] is the content of the member of the
    union that the type selects, as the unsigned number its bytes spell.  Default values are made
    for a type before a serialized value is read into them. *)

From stdpp Require Import base numbers strings list.
From S2P Require Import Prelude Serializer Compression LogicalType.
Local Open Scope Z_scope.

#[warnings="-register-all"]
Inductive Value := mkValue {
  dataType : LogicalType;
  isNull_ : bool;
  val : Z;
  strVal : string;
  children : list Value;
  childrenSize : Z;
}.

(** ** Constructors *)

Definition simple (id : LogicalTypeID) (p : PhysicalTypeID) : LogicalType := mkLogicalType id p None.
Definition newValue (t : LogicalType) (v : Z) : Value := mkValue t false v "" [] 0.
Definition newStringValue (t : LogicalType) (s : string) : Value := mkValue t false 0 s [] 0.
Definition newNestedValue (t : LogicalType) (cs : list Value) : Value := mkValue t false 0 "" cs (wrapU 32 (Z.of_nat (length cs))).
Definition createNullValue (t : LogicalType) : Value := mkValue t true 0 "" [] 0.

Fixpoint traverse {A B} (f : A -> outcome B) (l : list A) : outcome (list B) :=
  match l with [] => Ok [] | a :: l => let* b := f a in let* bs := traverse f l in Ok (b :: bs) end.

Fixpoint createDefaultValue (t : LogicalType) : outcome Value :=
  match typeID t with
  | ID.SERIAL | ID.INT64 => Ok (newValue (simple ID.INT64 INT64) 0)
  | ID.INT32 => Ok (newValue (simple ID.INT32 INT32) 0)
  | ID.INT16 => Ok (newValue (simple ID.INT16 INT16) 0)
  | ID.INT8 => Ok (newValue (simple ID.INT8 INT8) 0)
  | ID.UINT64 => Ok (newValue (simple ID.UINT64 UINT64) 0)
  | ID.UINT32 => Ok (newValue (simple ID.UINT32 UINT32) 0)
  | ID.UINT16 => Ok (newValue (simple ID.UINT16 UINT16) 0)
  | ID.UINT8 => Ok (newValue (simple ID.UINT8 UINT8) 0)
  | ID.INT128 => Ok (newValue (simple ID.INT128 INT128) 0)
  | ID.BOOL => Ok (newValue (simple ID.BOOL BOOL) 1)
  | ID.DOUBLE => Ok (newValue (simple ID.DOUBLE DOUBLE) 0)
  | ID.DATE => Ok (newValue (simple ID.DATE INT32) 0)
  | ID.TIMESTAMP_NS => Ok (newValue (simple ID.TIMESTAMP_NS INT64) 0)
  | ID.TIMESTAMP_MS => Ok (newValue (simple ID.TIMESTAMP_MS INT64) 0)
  | ID.TIMESTAMP_SEC => Ok (newValue (simple ID.TIMESTAMP_SEC INT64) 0)
  | ID.TIMESTAMP_TZ => Ok (newValue (simple ID.TIMESTAMP_TZ INT64) 0)
  | ID.TIMESTAMP => Ok (newValue (simple ID.TIMESTAMP INT64) 0)
  | ID.INTERVAL => Ok (newValue (simple ID.INTERVAL INTERVAL) 0)
  | ID.INTERNAL_ID => Ok (newValue (simple ID.INTERNAL_ID INTERNAL_ID) 0)
  | ID.BLOB => Ok (newStringValue (simple ID.BLOB STRING) "")
  | ID.UUID => Ok (newStringValue (simple ID.UUID INT128) "")
  | ID.STRING => Ok (newStringValue (simple ID.STRING STRING) "")
  | ID.FLOAT => Ok (newValue (simple ID.FLOAT FLOAT) 0)
  | ID.DECIMAL => Ok (newValue t 0)
  | ID.ARRAY =>
      match extraTypeInfo t with
      | Some (ArrayTypeInfo childType arraySize) =>
          if arraySize =? 0 then Ok (newNestedValue t [])
          else let* child := createDefaultValue childType in Ok (newNestedValue t (replicate (Z.to_nat arraySize) child))
      | _ => Err UndefinedBehaviour
      end
  | ID.MAP | ID.LIST => Ok (newNestedValue t [])
  | ID.UNION => Ok (newNestedValue t [createNullValue (simple ID.ANY ANY)])
  | ID.NODE | ID.REL | ID.RECURSIVE_REL | ID.STRUCT | ID.RDF_VARIANT =>
      match extraTypeInfo t with
      | Some (StructTypeInfo fields) => let* cs := traverse (fun f => createDefaultValue (snd f)) fields in Ok (newNestedValue t cs)
      | _ => Err UndefinedBehaviour
      end
  | ID.ANY => Ok (createNullValue (simple ID.ANY ANY))
  | ID.POINTER => Err InternalException
  end.

(** The size of the member of the union, and the types whose values have children. *)
Definition fixedSize (p : PhysicalTypeID) : option nat :=
  match p with
  | BOOL | INT8 | UINT8 => Some 1%nat
  | INT16 | UINT16 => Some 2%nat
  | INT32 | UINT32 | FLOAT => Some 4%nat
  | INT64 | UINT64 | DOUBLE => Some 8%nat
  | INT128 | INTERVAL | INTERNAL_ID => Some 16%nat
  | _ => None
  end.
Definition isNestedType (p : PhysicalTypeID) : bool := match p with ARRAY | LIST | STRUCT => true | _ => false end.

(** [Value(const Value&)] with [copyValueFrom]: only the member that the physical type selects is
    copied, nothing of a null value but its type and [childrenSize]. *)
Fixpoint copyValue (v : Value) : outcome Value :=
  let t := dataType v in
  if isNull_ v then Ok (mkValue t true 0 "" [] (childrenSize v))
  else
    match fixedSize (physicalType t) with
    | Some _ => Ok (mkValue t false (val v) "" [] (childrenSize v))
    | None =>
        match physicalType t with
        | STRING => Ok (mkValue t false 0 (strVal v) [] (childrenSize v))
        | ARRAY | LIST | STRUCT => let* cs := traverse copyValue (children v) in Ok (mkValue t false 0 "" cs (childrenSize v))
        | POINTER => Ok (mkValue t false (val v) "" [] (childrenSize v))
        | _ => Err InternalException
        end
    end.

(** ** Serialization *)

(** [for (i < childrenSize) children[i]->serialize(serializer)]. *)
Fixpoint serializeChildren {A} (ser : A -> Writer unit) (cs : list A) (n : nat) : Writer unit :=
  match n, cs with
  | O, _ => sret tt
  | S n, c :: cs => ser c ;;; serializeChildren ser cs n
  | S _, [] => sthrow UndefinedBehaviour
  end.

Fixpoint serializeVal (v : Value) : Writer unit :=
  serializeType (dataType v) ;;;
  serializeBool (isNull_ v) ;;;
  serializeU 4 (childrenSize v) ;;;
  let p := physicalType (dataType v) in
  match fixedSize p with
  | Some n => serializeU n (val v)
  | None =>
      match p with
      | STRING => serializeString (strVal v)
      | ARRAY | LIST | STRUCT => serializeChildren serializeVal (children v) (Z.to_nat (childrenSize v))
      | ANY => if isNull_ v then sret tt else sthrow InternalException
      | _ => sthrow InternalException
      end
  end.

Fixpoint deserializeVal (fuel : nat) : Reader Value :=
  match fuel with
  | O => sthrow UndefinedBehaviour
  | S fuel =>
      t <- deserializeType fuel ;;
      d <- slift (createDefaultValue t) ;;
      isNull <- deserializeBool ;;
      size <- deserializeU 4 ;;
      let p := physicalType t in
      match fixedSize p with
      | Some n => x <- deserializeU n ;; sret (mkValue (dataType d) isNull x (strVal d) (children d) size)
      | None =>
          match p with
          | STRING => s <- deserializeString ;; sret (mkValue (dataType d) isNull (val d) s (children d) size)
          | ARRAY | LIST | STRUCT =>
              cs <- deserializeArray (deserializeVal fuel) (Z.to_nat size) ;;
              sret (mkValue (dataType d) isNull (val d) (strVal d) cs size)
          | ANY => if isNull : bool then sret (mkValue (dataType d) isNull (val d) (strVal d) (children d) size) else sthrow InternalException
          | _ => sthrow InternalException
          end
      end
  end.

(** ** Round trip *)

(** A default value of type SERIAL has the type INT64, and so has the value read into it. *)
Definition defaultType (t : LogicalType) : LogicalType := if decide (typeID t = ID.SERIAL) then simple ID.INT64 INT64 else t.
Fixpoint reread (v : Value) : Value :=
  mkValue (defaultType (dataType v)) (isNull_ v) (val v) (strVal v) (map reread (children v)) (childrenSize v).

Fixpoint vheight (v : Value) : nat := S (Nat.max (S (height (dataType v))) (foldr Nat.max 0%nat (map vheight (children v)))).

(** The members that the type does not use have their initial contents. *)
Definition payloadOK (v : Value) : Prop :=
  match fixedSize (physicalType (dataType v)) with
  | Some n => inU (8 * Z.of_nat n) (val v) /\ strVal v = "" /\ children v = [] /\ inU 32 (childrenSize v)
  | None =>
      match physicalType (dataType v) with
      | STRING => val v = 0 /\ Z.of_nat (String.length (strVal v)) < 2 ^ 64 /\ children v = [] /\ inU 32 (childrenSize v)
      | ARRAY | LIST | STRUCT => val v = 0 /\ strVal v = "" /\ childrenSize v = Z.of_nat (length (children v)) /\ Z.of_nat (length (children v)) < 2 ^ 32
      | ANY => isNull_ v = true /\ val v = 0 /\ strVal v = "" /\ children v = [] /\ inU 32 (childrenSize v)
      | _ => False
      end
  end.

#[warnings="-register-all"]
Inductive valueOK : Value -> Prop :=
| valueOK_intro v d :
    wellFormed (dataType v) -> sizesFit (dataType v) -> createDefaultValue (dataType v) = Ok d -> payloadOK v ->
    Forall valueOK (children v) -> valueOK v.

Lemma Value_ind' (P : Value -> Prop) :
  (forall v, Forall P (children v) -> P v) -> forall v, P v.
Proof.
  intros Hstep. fix IH 1. intros v. apply Hstep. destruct v as [t n x s cs k]. cbn [children].
  induction cs as [|c cs IHcs]; constructor; [apply IH|exact IHcs].
Qed.

(** A value without any of type SERIAL in it is read as it is. *)
#[warnings="-register-all"]
Inductive serialFree : Value -> Prop :=
| serialFree_intro v : typeID (dataType v) <> ID.SERIAL -> Forall serialFree (children v) -> serialFree v.

Lemma reread_same v : serialFree v -> reread v = v.
Proof.
  induction v as [v IH] using Value_ind'. intros Hs. destruct Hs as [v Ht Hc]. destruct v as [t n x s cs k]. cbn [dataType children reread isNull_ val strVal childrenSize] in *.
  unfold defaultType. rewrite decide_False by done. f_equal. induction cs as [|c cs IHcs]; [done|]. cbn.
  apply Forall_cons in Hc as [Hc Hcs], IH as [IHc IHr]. by rewrite IHc, IHcs.
Qed.

Lemma vheight_child v c : c ∈ children v -> (vheight c < vheight v)%nat.
Proof.
  destruct v as [t n x s cs k]. cbn [children]. intros Hc.
  change (vheight c < S (Nat.max (S (height t)) (foldr Nat.max 0%nat (map vheight cs))))%nat.
  induction cs as [|c' cs IH]; [by apply elem_of_nil in Hc|]. cbn [map foldr].
  apply elem_of_cons in Hc as [->|Hc]; [lia|]. specialize (IH Hc). lia.
Qed.

Lemma default_shape t d : wellFormed t -> createDefaultValue t = Ok d ->
  dataType d = defaultType t /\ strVal d = "" /\ (isNestedType (physicalType t) = false -> children d = []) /\
  (fixedSize (physicalType t) = None -> val d = 0).
Proof.
  intros Hw Hd. apply wellFormed_inv in Hw as (Hs & Hp & _). destruct t as [id p e]. cbn [typeID physicalType extraTypeInfo] in *.
  destruct id; cbn [createDefaultValue typeID extraTypeInfo] in Hd; cbn [shape] in Hs;
    try (destruct e as [[| | |]|]; (done || discriminate Hs || idtac)); cbn [getPhysicalType] in Hp;
    revert Hd; unfold obind; repeat case_match; try discriminate; intros [= <-];
    repeat match goal with H : Ok _ = Ok _ |- _ => injection H as <- end; by repeat split.
Qed.

Lemma codec_children {A B} (ser : A -> Writer unit) (deser : Reader B) (f : A -> B) cs :
  Forall (fun c => codecR (ser c) deser (f c)) cs ->
  codecR (serializeChildren ser cs (length cs)) (deserializeArray deser (length cs)) (map f cs).
Proof.
  induction 1 as [|c cs Hc _ IH]; cbn [serializeChildren deserializeArray length map]; [apply codecR_ret|].
  eapply codecR_bind; [exact Hc|]. by apply (codecR_last _ _ (fun l => f c :: l)).
Qed.

(** A value that was written, to a catalog or to the log, is read back: for every value of a
    well-formed type that has default values, null or not and however nested, reading consumes
    exactly the bytes that were written and gives the value again, except that a value of type
    SERIAL comes back with the type INT64. *)
Theorem values_serialized v fuel : valueOK v -> (vheight v <= fuel)%nat -> codecR (serializeVal v) (deserializeVal fuel) (reread v).
Proof.
  revert fuel. induction v as [v IH] using Value_ind'. intros fuel Hv Hf.
  destruct Hv as [v d Hw Hs Hd Hp Hc]. destruct fuel as [|fuel]; [destruct v; cbn in Hf; lia|].
  assert (Hch : Forall (fun c => codecR (serializeVal c) (deserializeVal fuel) (reread c)) (children v)).
  { rewrite Forall_forall in *. intros c Hin. apply IH; [done|by apply Hc|]. pose proof (vheight_child v c Hin). lia. }
  assert (Hht : (height (dataType v) < fuel)%nat) by (destruct v; cbn in *; lia).
  destruct (default_shape _ _ Hw Hd) as (Dt & Ds & Dc & Dv). 
  destruct v as [t n x s cs k]. cbn [dataType isNull_ val strVal children childrenSize] in *.
  cbn [serializeVal deserializeVal dataType isNull_ val strVal children childrenSize reread].
  eapply codecR_bind; [by apply codec_LogicalType|]. rewrite Hd.
  eapply codecR_ext; [intros; unfold slift, sbind at 1; reflexivity|]. cbn beta iota.
  rewrite Dt, Ds. assert (Hk : inU 32 k) by (revert Hp; unfold payloadOK, inU; cbn; repeat case_match; intuition lia).
  eapply codecR_bind; [apply codec_Bool|]. eapply codecR_bind; [by apply (codec_U 4)|].
  unfold payloadOK in Hp. cbn [dataType isNull_ val strVal children childrenSize] in Hp. destruct (fixedSize (physicalType t)) as [m|] eqn:Em.
  - destruct Hp as (Hx & -> & -> & _). rewrite Dc by (by destruct (physicalType t)).
    apply (codecR_last _ _ (fun y => mkValue _ _ y _ _ _)). by apply codec_U.
  - rewrite Dv by done. destruct (physicalType t); try done.
    + destruct Hp as (-> & -> & -> & -> & _). rewrite Dc by done. apply codecR_ret.
    + destruct Hp as (-> & Hl & -> & _). rewrite Dc by done. apply (codecR_last _ _ (fun y => mkValue _ _ _ y _ _)). by apply codec_String.
    + destruct Hp as (-> & -> & -> & _). rewrite Nat2Z.id. apply (codecR_last _ _ (fun y => mkValue _ _ _ _ y _)). by apply codec_children.
    + destruct Hp as (-> & -> & -> & _). rewrite Nat2Z.id. apply (codecR_last _ _ (fun y => mkValue _ _ _ _ y _)). by apply codec_children.
    + destruct Hp as (-> & -> & -> & _). rewrite Nat2Z.id. apply (codecR_last _ _ (fun y => mkValue _ _ _ _ y _)). by apply codec_children.
Qed.

Lemma traverse_same {A} (f : A -> outcome A) l : Forall (fun a => f a = Ok a) l -> traverse f l = Ok l.
Proof. induction 1 as [|a l Ha _ IH]; cbn [traverse]; [done|]. by rewrite Ha, IH. Qed.

(** A copy of a value is the value, if null values inside it have no children. *)
#[warnings="-register-all"]
Inductive nullsEmpty : Value -> Prop :=
| nullsEmpty_intro v : (isNull_ v = true -> val v = 0 /\ strVal v = "" /\ children v = []) -> Forall nullsEmpty (children v) -> nullsEmpty v.

Theorem copy_same v : valueOK v -> nullsEmpty v -> copyValue v = Ok v.
Proof.
  induction v as [v IH] using Value_ind'. intros Hv He. destruct Hv as [v d Hw _ Hd Hp Hc]. destruct He as [v Hn He].
  destruct v as [t n x s cs k]. cbn [dataType isNull_ val strVal children childrenSize copyValue] in *.
  destruct n; [destruct (Hn eq_refl) as (-> & -> & ->); done|].
  assert (Hcs : Forall (fun c => copyValue c = Ok c) cs).
  { rewrite Forall_forall in *. intros c Hin. by apply IH; auto. }
  unfold payloadOK in Hp. cbn [dataType isNull_ val strVal children childrenSize] in Hp. destruct (fixedSize (physicalType t)) as [m|] eqn:Em.
  - by destruct Hp as (_ & -> & -> & _).
  - destruct (physicalType t); try done.
    + by destruct Hp.
    + by destruct Hp as (-> & _ & -> & _).
    + destruct Hp as (-> & -> & _). by rewrite traverse_same.
    + destruct Hp as (-> & -> & _). by rewrite traverse_same.
    + destruct Hp as (-> & -> & _). by rewrite traverse_same.
Qed.

(** ** Examples *)

(** [{a: [1, NULL], b: "x"}], with a null element. *)
Definition exInt : LogicalType := simple ID.INT32 INT32.
Definition exValue : Value :=
  newNestedValue (newStruct [(str "a", newList exInt); (str "b", simple ID.STRING STRING)])
    [newNestedValue (newList exInt) [newValue exInt 1; createNullValue exInt]; newStringValue (simple ID.STRING STRING) "x"].

Lemma exValue_ok : valueOK exValue.
Proof.
  eapply valueOK_intro; [by repeat constructor|repeat constructor; cbn; lia|reflexivity|repeat split; cbn; lia|].
  constructor; [|constructor; [|constructor]].
  - eapply valueOK_intro; [by repeat constructor|repeat constructor; cbn; lia|reflexivity|repeat split; cbn; lia|].
    repeat constructor; (eapply valueOK_intro; [by repeat constructor|repeat constructor; cbn; lia|reflexivity|repeat split; cbn; lia|constructor]).
  - eapply valueOK_intro; [by repeat constructor|repeat constructor; cbn; lia|reflexivity|repeat split; cbn; lia|constructor].
Qed.

Lemma values_serialized_witness : codecR (serializeVal exValue) (deserializeVal 10) (reread exValue).
Proof. apply values_serialized; [apply exValue_ok|cbn; lia]. Defined.

Lemma copy_same_witness : copyValue exValue = Ok exValue.
Proof. apply copy_same; [apply exValue_ok|]. repeat (constructor; [try (intros; discriminate); by intros _|]); repeat constructor; done. Defined.

(** A SERIAL value is read as an INT64. *)
Example serial_reread :
  let v := newValue (simple ID.SERIAL INT64) 7 in
  deserializeVal 5 (snd (serializeVal v [])) = (Ok (newValue (simple ID.INT64 INT64) 7), []).
Proof. by vm_compute. Qed.

(** A null struct that still has its children loses them in a copy but keeps their number:
    serializing the copy reads past its children. *)
Example null_copy_not_serializable :
  let t := newStruct [(str "a", exInt)] in
  let v := mkValue t true 0 "" [newValue exInt 0] 1 in
  copyValue v = Ok (mkValue t true 0 "" [] 1) /\ fst (serializeVal (mkValue t true 0 "" [] 1) []) = Err UndefinedBehaviour.
Proof. split; [done|by vm_compute]. Qed.
