(* ===== verification/ParsedExpression.v ===== *)
(** * Parsed expressions (src/parser/expression/, src/include/parser/expression/,
      src/include/common/enums/expression_type.h)

    The default of a property and the body of a macro are kept as the parser made them, in the
    catalog and in the log.  An expression has a type, an alias, the text it came from and its
    children; the subclass of the object adds the rest.  The pattern of a subquery has no part in
    what is modelled: it is never written. *)

From stdpp Require Import base numbers strings list sets.
From S2P Require Import Prelude Serializer Compression LogicalType Value.
Local Open Scope Z_scope.

Module ExprType.
Inductive ExpressionType :=
| OR | XOR | AND | NOT
| EQUALS | NOT_EQUALS | GREATER_THAN | GREATER_THAN_EQUALS | LESS_THAN | LESS_THAN_EQUALS
| IS_NULL | IS_NOT_NULL | PROPERTY | LITERAL | STAR | VARIABLE | PATH | PATTERN | PARAMETER | FUNCTION | AGGREGATE_FUNCTION
| SUBQUERY | CASE_ELSE | GRAPH | LAMBDA | INVALID.
#[global] Instance ExpressionType_eq_dec : EqDecision ExpressionType.
Proof. solve_decision. Defined.
Definition all : list ExpressionType :=
  [OR; XOR; AND; NOT; EQUALS; NOT_EQUALS; GREATER_THAN; GREATER_THAN_EQUALS; LESS_THAN; LESS_THAN_EQUALS;
   IS_NULL; IS_NOT_NULL; PROPERTY; LITERAL; STAR; VARIABLE; PATH; PATTERN; PARAMETER; FUNCTION; AGGREGATE_FUNCTION;
   SUBQUERY; CASE_ELSE; GRAPH; LAMBDA; INVALID].
(** The values of the enumerators. *)
Definition byte (t : ExpressionType) : Z :=
  match t with
  | OR => 0 | XOR => 1 | AND => 2 | NOT => 3
  | EQUALS => 10 | NOT_EQUALS => 11 | GREATER_THAN => 12 | GREATER_THAN_EQUALS => 13 | LESS_THAN => 14 | LESS_THAN_EQUALS => 15
  | IS_NULL => 50 | IS_NOT_NULL => 51 | PROPERTY => 60 | LITERAL => 70 | STAR => 80 | VARIABLE => 90 | PATH => 91 | PATTERN => 92
  | PARAMETER => 100 | FUNCTION => 110 | AGGREGATE_FUNCTION => 130 | SUBQUERY => 190 | CASE_ELSE => 200 | GRAPH => 210
  | LAMBDA => 220 | INVALID => 255
  end.
End ExprType.
Abbreviation ExpressionType := ExprType.ExpressionType.

(** The members of the subclasses; [PlainExpression] is an object of the base class. *)
Inductive Subclass (T : Type) :=
| PlainExpression
| ParsedCaseExpression (caseExpression : option T) (caseAlternatives : list (T * T)) (elseExpression : option T)
| ParsedFunctionExpression (isDistinct : bool) (functionName : string)
| ParsedLambdaExpression (varNames : list string) (functionExpr : T)
| ParsedLiteralExpression (value : Value)
| ParsedParameterExpression (parameterName : string)
| ParsedPropertyExpression (propertyName : string)
| ParsedSubqueryExpression
| ParsedVariableExpression (variableName : string).
Arguments PlainExpression {T}.
Arguments ParsedCaseExpression {T} caseExpression caseAlternatives elseExpression.
Arguments ParsedFunctionExpression {T} isDistinct functionName.
Arguments ParsedLambdaExpression {T} varNames functionExpr.
Arguments ParsedLiteralExpression {T} value.
Arguments ParsedParameterExpression {T} parameterName.
Arguments ParsedPropertyExpression {T} propertyName.
Arguments ParsedSubqueryExpression {T}.
Arguments ParsedVariableExpression {T} variableName.

#[warnings="-register-all"]
Inductive ParsedExpression := mkExpr {
  exprType : ExpressionType;
  alias : string;
  rawName : string;
  exprChildren : list ParsedExpression;
  subclass : Subclass ParsedExpression;
}.

(** [serializeInternal] and [deserialize] of the subclasses; [ser] and [deser] are those of
    expressions. *)
Definition serializeCaseAlternative (ser : ParsedExpression -> Writer unit) (a : ParsedExpression * ParsedExpression) : Writer unit :=
  ser (fst a) ;;; ser (snd a).
Definition deserializeCaseAlternative (deser : Reader ParsedExpression) : Reader (ParsedExpression * ParsedExpression) :=
  w <- deser ;; t <- deser ;; sret (w, t).
Definition serializeCase (ser : ParsedExpression -> Writer unit) (c : option ParsedExpression) (alts : list (ParsedExpression * ParsedExpression))
    (els : option ParsedExpression) : Writer unit :=
  serializeOptionalValue ser c ;;; serializeVector (serializeCaseAlternative ser) alts ;;; serializeOptionalValue ser els.
Definition deserializeCase (deser : Reader ParsedExpression) : Reader (Subclass ParsedExpression) :=
  c <- deserializeOptionalValue deser ;;
  alts <- deserializeVector (deserializeCaseAlternative deser) ;;
  els <- deserializeOptionalValue deser ;;
  sret (ParsedCaseExpression c alts els).
Definition serializeFunction (isDistinct : bool) (functionName : string) : Writer unit := serializeBool isDistinct ;;; serializeString functionName.
Definition deserializeFunction : Reader (Subclass ParsedExpression) :=
  d <- deserializeBool ;; n <- deserializeString ;; sret (ParsedFunctionExpression d n).
(** The value is copied into the expression. *)
Definition deserializeLiteral (fuel : nat) : Reader (Subclass ParsedExpression) :=
  v <- deserializeVal fuel ;; v' <- slift (copyValue v) ;; sret (ParsedLiteralExpression v').
Definition deserializePropertyExpression : Reader (Subclass ParsedExpression) := n <- deserializeString ;; sret (ParsedPropertyExpression n).
Definition deserializeVariableExpression : Reader (Subclass ParsedExpression) := n <- deserializeString ;; sret (ParsedVariableExpression n).

Fixpoint serializeExpr (e : ParsedExpression) : Writer unit :=
  serializeU 1 (ExprType.byte (exprType e)) ;;;
  serializeString (alias e) ;;;
  serializeString (rawName e) ;;;
  serializeVector serializeExpr (exprChildren e) ;;;
  match subclass e with
  | ParsedCaseExpression c alts els => serializeCase serializeExpr c alts els
  | ParsedFunctionExpression isDistinct functionName => serializeFunction isDistinct functionName
  | ParsedLiteralExpression v => serializeVal v
  | ParsedPropertyExpression n | ParsedVariableExpression n => serializeString n
  | ParsedParameterExpression _ | ParsedSubqueryExpression => sthrow InternalException
  | ParsedLambdaExpression _ _ | PlainExpression => sret tt
  end.

(** The switch over the type: parameters and subqueries throw, other types have no case. *)
Definition deserializeSubclass (deser : Reader ParsedExpression) (fuel : nat) (t : ExpressionType) : Reader (Subclass ParsedExpression) :=
  match t with
  | ExprType.CASE_ELSE => deserializeCase deser
  | ExprType.FUNCTION => deserializeFunction
  | ExprType.LITERAL => deserializeLiteral fuel
  | ExprType.PROPERTY => deserializePropertyExpression
  | ExprType.VARIABLE => deserializeVariableExpression
  | _ => sthrow InternalException
  end.

Fixpoint deserializeExpr (fuel : nat) : Reader ParsedExpression :=
  match fuel with
  | O => sthrow UndefinedBehaviour
  | S fuel =>
      t <- readEnum ExprType.all ExprType.byte ;;
      alias <- deserializeString ;;
      rawName <- deserializeString ;;
      children <- deserializeVector (deserializeExpr fuel) ;;
      s <- deserializeSubclass (deserializeExpr fuel) fuel t ;;
      sret (mkExpr t alias rawName children s)
  end.

(** [ParsedExpressionUtils::getSerialDefaultExpr]. *)
Definition getSerialDefaultExpr (sequenceName : string) : ParsedExpression :=
  mkExpr ExprType.FUNCTION "" "" [mkExpr ExprType.LITERAL "" "" [] (ParsedLiteralExpression (newStringValue (simple ID.STRING STRING) sequenceName))]
    (ParsedFunctionExpression false "NEXTVAL").

(** ** Round trip *)

(** The expressions inside an object. *)
Definition inner (e : ParsedExpression) : list ParsedExpression :=
  exprChildren e ++
  match subclass e with
  | ParsedCaseExpression c alts els => option_list c ++ (alts ≫= fun a => [fst a; snd a]) ++ option_list els
  | ParsedLambdaExpression _ f => [f]
  | _ => []
  end.

Definition max_list (l : list nat) : nat := foldr Nat.max 0%nat l.
Fixpoint eheight (e : ParsedExpression) : nat :=
  S (Nat.max (max_list (map eheight (exprChildren e)))
       match subclass e with
       | ParsedCaseExpression c alts els =>
           Nat.max (match c with Some c => eheight c | None => O end)
             (Nat.max (max_list (map (fun a => Nat.max (eheight (fst a)) (eheight (snd a))) alts))
                (match els with Some c => eheight c | None => O end))
       | ParsedLambdaExpression _ f => eheight f
       | ParsedLiteralExpression v => vheight v
       | _ => O
       end).

(** The object is of the subclass that its type names, and the sizes have 64 bits. *)
Definition textOK (s : string) : Prop := Z.of_nat (String.length s) < 2 ^ 64.
Definition partsOK (e : ParsedExpression) : Prop :=
  textOK (alias e) /\ textOK (rawName e) /\ Z.of_nat (length (exprChildren e)) < 2 ^ 64 /\
  match exprType e, subclass e with
  | ExprType.CASE_ELSE, ParsedCaseExpression _ alts _ => Z.of_nat (length alts) < 2 ^ 64
  | ExprType.FUNCTION, ParsedFunctionExpression _ n => textOK n
  | ExprType.LITERAL, ParsedLiteralExpression v => valueOK v /\ nullsEmpty v /\ reread v = v
  | ExprType.PROPERTY, ParsedPropertyExpression n => textOK n
  | ExprType.VARIABLE, ParsedVariableExpression n => textOK n
  | _, _ => False
  end.
#[warnings="-register-all"]
Inductive exprOK : ParsedExpression -> Prop :=
| exprOK_intro e : partsOK e -> Forall exprOK (inner e) -> exprOK e.

Lemma max_list_elem n l : n ∈ l -> (n <= max_list l)%nat.
Proof. induction 1 as [|m l' Hn IH]; cbn; [lia|]. unfold max_list in *. lia. Qed.
Lemma max_list_map {A} (f : A -> nat) a l : a ∈ l -> (f a <= max_list (map f l))%nat.
Proof. intros Ha. apply max_list_elem. by apply list_elem_of_fmap_2. Qed.

Lemma inner_height e x : x ∈ inner e -> (eheight x < eheight e)%nat.
Proof.
  destruct e as [t a r cs s]. unfold inner. cbn [exprChildren subclass]. rewrite elem_of_app.
  set (m := match s with ParsedCaseExpression c alts els => _ | _ => _ end). intros Hx.
  assert (Hm : (eheight x <= max_list (map eheight cs) \/ eheight x <= pred (eheight (mkExpr t a r cs s)))%nat).
  { destruct Hx as [Hx|Hx]; [left; by apply max_list_map|right]. cbn [eheight exprChildren subclass pred].
    destruct s as [|c alts els| |vs f| | | | |]; unfold m in Hx; try by apply elem_of_nil in Hx.
    - rewrite !elem_of_app in Hx. destruct Hx as [Hx|[Hx|Hx]].
      + destruct c as [c|]; [|by apply elem_of_nil in Hx]. apply list_elem_of_singleton in Hx as ->. lia.
      + apply list_elem_of_bind in Hx as (p & Hx & Hp). pose proof (max_list_map (fun p => Nat.max (eheight (fst p)) (eheight (snd p))) p alts Hp).
        cbv beta in H. apply elem_of_cons in Hx as [->|Hx]; [lia|]. apply list_elem_of_singleton in Hx as ->. lia.
      + destruct els as [c'|]; [|by apply elem_of_nil in Hx]. apply list_elem_of_singleton in Hx as ->. lia.
    - apply list_elem_of_singleton in Hx as ->. lia. }
  cbn [eheight exprChildren subclass pred] in *. lia.
Qed.

Lemma codec_exprType t : codec (fun a => serializeU 1 (ExprType.byte a)) (readEnum ExprType.all ExprType.byte) t.
Proof. apply codec_enum; [destruct t; unfold ExprType.all; set_solver|destruct t; by vm_compute|]. intros b. by destruct t, b. Qed.

(** A parsed expression that was written is read back, if it and everything inside it is a case, a
    function call, a literal, a property or a variable. *)
Theorem expressions_serialized fuel e : exprOK e -> (eheight e <= fuel)%nat -> codec serializeExpr (deserializeExpr fuel) e.
Proof.
  revert e. induction fuel as [|fuel IH]; intros e He Hf; [destruct e; cbn in Hf; lia|].
  destruct He as [e Hp Hin].
  assert (Hi : Forall (codec serializeExpr (deserializeExpr fuel)) (inner e)).
  { rewrite Forall_forall in *. intros x Hx. apply IH; [by apply Hin|]. pose proof (inner_height e x Hx). lia. }
  destruct e as [t a r cs s]. destruct Hp as (Ha & Hr & Hc & Hs). unfold inner in Hi. cbn [exprType alias rawName exprChildren subclass] in *.
  apply Forall_app in Hi as [Hics His]. unfold codec. cbn [serializeExpr deserializeExpr exprType alias rawName exprChildren subclass].
  eapply codecR_bind; [apply codec_exprType|]. eapply codecR_bind; [by apply codec_String|].
  eapply codecR_bind; [by apply codec_String|]. eapply codecR_bind; [by apply codec_Vector|].
  apply (codecR_last _ _ (fun s => mkExpr _ _ _ _ s)).
  destruct t, s as [|c alts els|d n| |v|n|n| |n]; try done; cbn [deserializeSubclass];
    unfold serializeCase, deserializeCase, serializeFunction, deserializeFunction, deserializeLiteral, deserializePropertyExpression, deserializeVariableExpression.
  - apply codecR_last. by apply codec_String.
  - destruct Hs as (Hv & Hn & Hre). eapply codecR_then; [apply values_serialized; [done|]|].
    + revert Hf. cbn. lia.
    + intros src. by rewrite Hre, copy_same.
  - apply codecR_last. by apply codec_String.
  - eapply codecR_bind; [apply codec_Bool|]. apply codecR_last. by apply codec_String.
  - rewrite !Forall_app in His. destruct His as (Hc1 & Ha1 & He1).
    eapply codecR_bind; [apply codec_Optional; intros x ->; by inversion Hc1|].
    eapply codecR_bind; [apply codec_Vector; [|done]|apply codecR_last, codec_Optional; intros x ->; by inversion He1].
    apply Forall_forall. intros [w th] Hw. rewrite Forall_bind in Ha1. rewrite Forall_forall in Ha1. specialize (Ha1 _ Hw).
    unfold compose in Ha1. cbn in Ha1. apply Forall_cons in Ha1 as [H1 H2]. apply codec_pair; [done|]. by inversion H2.
Qed.

(** The operators of Cypher do not survive a restart: an expression of any other type, such as a
    comparison, a connective or a null test over readable operands, is written without an error,
    and reading what was written throws. *)
Theorem operators_not_read_back e fuel :
  subclass e = PlainExpression -> exprType e ∉ [ExprType.CASE_ELSE; ExprType.FUNCTION; ExprType.LITERAL; ExprType.PROPERTY; ExprType.VARIABLE] ->
  textOK (alias e) -> textOK (rawName e) -> Z.of_nat (length (exprChildren e)) < 2 ^ 64 ->
  Forall exprOK (exprChildren e) -> (eheight e <= fuel)%nat ->
  exists bs, serializeExpr e [] = (Ok tt, bs) /\ forall rest, fst (deserializeExpr fuel (bs ++ rest)) = Err InternalException.
Proof.
  intros Hs Ht Ha Hr Hl Hc Hf. destruct fuel as [|fuel]; [destruct e; cbn in Hf; lia|].
  assert (Hcs : Forall (codec serializeExpr (deserializeExpr fuel)) (exprChildren e)).
  { rewrite Forall_forall in *. intros x Hx. apply expressions_serialized; [by apply Hc|].
    pose proof (inner_height e x ltac:(unfold inner; set_solver)). lia. }
  destruct e as [t a r cs s]. cbn [exprType alias rawName exprChildren subclass] in *. subst s.
  destruct (codec_exprType t) as (b1 & W1 & R1), (codec_String a Ha) as (b2 & W2 & R2), (codec_String r Hr) as (b3 & W3 & R3).
  destruct (codec_Vector serializeExpr (deserializeExpr fuel) cs Hcs Hl) as (b4 & W4 & R4).
  exists (b1 ++ b2 ++ b3 ++ b4). split.
  - cbn [serializeExpr exprType alias rawName exprChildren subclass].
    rewrite (sbind_ok _ _ _ _ _ (W1 _)), (sbind_ok _ _ _ _ _ (W2 _)), (sbind_ok _ _ _ _ _ (W3 _)), (sbind_ok _ _ _ _ _ (W4 _)).
    unfold sret. by rewrite <- !app_assoc.
  - intros rest. cbn [deserializeExpr]. rewrite <- !app_assoc.
    rewrite (sbind_ok _ _ _ _ _ (R1 _)), (sbind_ok _ _ _ _ _ (R2 _)), (sbind_ok _ _ _ _ _ (R3 _)), (sbind_ok _ _ _ _ _ (R4 _)).
    destruct t; try done; exfalso; apply Ht; set_solver.
Qed.

(** ** Examples *)

Definition exVariable (x : string) : ParsedExpression := mkExpr ExprType.VARIABLE "" x [] (ParsedVariableExpression x).
Definition exLiteral (n : Z) : ParsedExpression := mkExpr ExprType.LITERAL "" "" [] (ParsedLiteralExpression (newValue (simple ID.INT64 INT64) n)).
(** CASE x WHEN 35 THEN x END. *)
Definition exCase : ParsedExpression :=
  mkExpr ExprType.CASE_ELSE "" "" [] (ParsedCaseExpression (Some (exVariable "x")) [(exLiteral 35, exVariable "x")] None).

Lemma exVariable_ok x : textOK x -> exprOK (exVariable x).
Proof. intros Hx. constructor; [repeat split; (done || by vm_compute)|constructor]. Qed.
Lemma exLiteral_ok n : inU 64 n -> exprOK (exLiteral n).
Proof.
  intros Hn. constructor; [|constructor]. split; [by vm_compute|]. split; [by vm_compute|]. split; [by vm_compute|]. cbn.
  split; [|split; [by repeat constructor|done]]. eapply valueOK_intro; [by repeat constructor|by repeat constructor|reflexivity| |constructor].
  repeat split; cbn; try lia; apply Hn.
Qed.
Lemma exCase_ok : exprOK exCase.
Proof.
  constructor; [by repeat split|]. assert (exprOK (exVariable "x")) by (by apply exVariable_ok; vm_compute).
  change (Forall exprOK [exVariable "x"; exLiteral 35; exVariable "x"]). constructor; [done|].
  constructor; [by apply exLiteral_ok; vm_compute|]. constructor; [done|constructor].
Qed.

Lemma expressions_serialized_witness : codec serializeExpr (deserializeExpr 20) exCase.
Proof. apply expressions_serialized; [apply exCase_ok|vm_compute; lia]. Defined.

(** CREATE MACRO m(x) AS x > 35. *)
Lemma operators_not_read_back_witness :
  exists bs, serializeExpr (mkExpr ExprType.GREATER_THAN "" "" [exVariable "x"; exLiteral 35] PlainExpression) [] = (Ok tt, bs) /\
    forall rest, fst (deserializeExpr 20 (bs ++ rest)) = Err InternalException.
Proof.
  apply operators_not_read_back; try by vm_compute.
  - rewrite !not_elem_of_cons. split_and!; try discriminate; apply not_elem_of_nil.
  - constructor; [by apply exVariable_ok; vm_compute|]. constructor; [by apply exLiteral_ok; vm_compute|constructor].
  - vm_compute. lia.
Defined.
