(* ===== verification/CatalogEntry.v ===== *)
(** * Catalog entries in files (src/catalog/catalog_entry/, src/binder/bind/ddl/bound_create_table_info.cpp,
      src/binder/ddl/property_definition.cpp, src/function/scalar_macro_function.cpp)

    What the catalog file and the log have of an entry: its type, name, identifier and whether it
    belongs to another entry; then, by its type, the properties and the rest of a table, a macro, a
    sequence or a user-defined type.  The log has the creation of a table as the information that
    the binder collected for it.  The type of an entry is the type of its contents. *)

From stdpp Require Import base numbers strings list sets.
From S2P Require Import Prelude Serializer Compression LogicalType Value ParsedExpression PropertyCollection SequenceEntry.
Local Open Scope Z_scope.

(** ** Enumerations *)

Inductive TableType := UNKNOWN_TABLE | NODE_TABLE | REL_TABLE | RDF_TABLE | REL_GROUP_TABLE | FOREIGN_TABLE.
Inductive ConflictAction := ON_CONFLICT_THROW | ON_CONFLICT_DO_NOTHING | INVALID_CONFLICT.
Inductive RelMultiplicity := MANY | ONE.
Inductive CatalogEntryType :=
| NODE_TABLE_ENTRY | REL_TABLE_ENTRY | REL_GROUP_ENTRY | RDF_GRAPH_ENTRY | FOREIGN_TABLE_ENTRY | SCALAR_MACRO_ENTRY
| AGGREGATE_FUNCTION_ENTRY | SCALAR_FUNCTION_ENTRY | REWRITE_FUNCTION_ENTRY | TABLE_FUNCTION_ENTRY | GDS_FUNCTION_ENTRY
| COPY_FUNCTION_ENTRY | SEQUENCE_ENTRY | TYPE_ENTRY | DUMMY_ENTRY.
#[global] Instance TableType_eq_dec : EqDecision TableType.
Proof. solve_decision. Defined.
#[global] Instance CatalogEntryType_eq_dec : EqDecision CatalogEntryType.
Proof. solve_decision. Defined.

Definition tableTypeByte (t : TableType) : Z :=
  match t with UNKNOWN_TABLE => 0 | NODE_TABLE => 1 | REL_TABLE => 2 | RDF_TABLE => 3 | REL_GROUP_TABLE => 4 | FOREIGN_TABLE => 5 end.
Definition conflictByte (t : ConflictAction) : Z :=
  match t with ON_CONFLICT_THROW => 0 | ON_CONFLICT_DO_NOTHING => 1 | INVALID_CONFLICT => 255 end.
Definition multiplicityByte (t : RelMultiplicity) : Z := match t with MANY => 0 | ONE => 1 end.
Definition entryTypeByte (t : CatalogEntryType) : Z :=
  match t with
  | NODE_TABLE_ENTRY => 0 | REL_TABLE_ENTRY => 1 | REL_GROUP_ENTRY => 2 | RDF_GRAPH_ENTRY => 3 | FOREIGN_TABLE_ENTRY => 4
  | SCALAR_MACRO_ENTRY => 10 | AGGREGATE_FUNCTION_ENTRY => 20 | SCALAR_FUNCTION_ENTRY => 21 | REWRITE_FUNCTION_ENTRY => 22
  | TABLE_FUNCTION_ENTRY => 23 | GDS_FUNCTION_ENTRY => 24 | COPY_FUNCTION_ENTRY => 25 | SEQUENCE_ENTRY => 40 | TYPE_ENTRY => 41
  | DUMMY_ENTRY => 100
  end.
Definition tableTypes : list TableType := [UNKNOWN_TABLE; NODE_TABLE; REL_TABLE; RDF_TABLE; REL_GROUP_TABLE; FOREIGN_TABLE].
Definition conflictActions : list ConflictAction := [ON_CONFLICT_THROW; ON_CONFLICT_DO_NOTHING; INVALID_CONFLICT].
Definition multiplicities : list RelMultiplicity := [MANY; ONE].
Definition entryTypes : list CatalogEntryType :=
  [NODE_TABLE_ENTRY; REL_TABLE_ENTRY; REL_GROUP_ENTRY; RDF_GRAPH_ENTRY; FOREIGN_TABLE_ENTRY; SCALAR_MACRO_ENTRY;
   AGGREGATE_FUNCTION_ENTRY; SCALAR_FUNCTION_ENTRY; REWRITE_FUNCTION_ENTRY; TABLE_FUNCTION_ENTRY; GDS_FUNCTION_ENTRY;
   COPY_FUNCTION_ENTRY; SEQUENCE_ENTRY; TYPE_ENTRY; DUMMY_ENTRY].

Definition readTableType : Reader TableType := readEnum tableTypes tableTypeByte.
Definition readMultiplicity : Reader RelMultiplicity := readEnum multiplicities multiplicityByte.

(** ** Definitions of properties *)

Abbreviation Definition_ := (PropertyDefinition (D := LogicalType * ParsedExpression)).
Abbreviation Collection := (PropertyDefinitionCollection (D := LogicalType * ParsedExpression)).

Definition serializeRest (r : LogicalType * ParsedExpression) : Writer unit := serializeType (fst r) ;;; serializeExpr (snd r).
Definition deserializeRest (fuel : nat) : Reader (LogicalType * ParsedExpression) :=
  t <- deserializeType fuel ;; e <- deserializeExpr fuel ;; sret (t, e).
Definition serializeProperty : Definition_ -> Writer unit := serializeDefinition serializeRest.
Definition deserializeProperty (fuel : nat) : Reader Definition_ := deserializeDefinition (deserializeRest fuel).

(** ** The creation of a table *)

Inductive BoundExtraCreateInfo (T : Type) :=
| BoundExtraCreateNodeTableInfo (propertyDefinitions : list Definition_) (primaryKeyName : string)
| BoundExtraCreateRelTableInfo (propertyDefinitions : list Definition_) (srcMultiplicity dstMultiplicity : RelMultiplicity) (srcTableID dstTableID : Z)
| BoundExtraCreateRelTableGroupInfo (infos : list T)
| BoundExtraCreateRdfGraphInfo (resourceInfo literalInfo resourceTripleInfo literalTripleInfo : T).
Arguments BoundExtraCreateNodeTableInfo {T} propertyDefinitions primaryKeyName.
Arguments BoundExtraCreateRelTableInfo {T} propertyDefinitions srcMultiplicity dstMultiplicity srcTableID dstTableID.
Arguments BoundExtraCreateRelTableGroupInfo {T} infos.
Arguments BoundExtraCreateRdfGraphInfo {T} resourceInfo literalInfo resourceTripleInfo literalTripleInfo.

#[warnings="-register-all"]
Inductive BoundCreateTableInfo := mkCreateTable {
  createType : TableType;
  tableName : string;
  onConflict : ConflictAction;
  infoHasParent : bool;
  extraInfo : BoundExtraCreateInfo BoundCreateTableInfo;
}.

Definition serializeNodeTableInfo (ds : list Definition_) (pk : string) : Writer unit := serializeVector serializeProperty ds ;;; serializeString pk.
Definition serializeRelTableInfo (ds : list Definition_) (sm dm : RelMultiplicity) (src dst : Z) : Writer unit :=
  serializeVector serializeProperty ds ;;;
  serializeU 1 (multiplicityByte sm) ;;; serializeU 1 (multiplicityByte dm) ;;; serializeU 8 src ;;; serializeU 8 dst.
Definition serializeRdfGraphInfo (ser : BoundCreateTableInfo -> Writer unit) (a b c d : BoundCreateTableInfo) : Writer unit :=
  ser a ;;; ser b ;;; ser c ;;; ser d.
Definition serializeCreateExtra (ser : BoundCreateTableInfo -> Writer unit) (e : BoundExtraCreateInfo BoundCreateTableInfo) : Writer unit :=
  match e with
  | BoundExtraCreateNodeTableInfo ds pk => serializeNodeTableInfo ds pk
  | BoundExtraCreateRelTableInfo ds sm dm src dst => serializeRelTableInfo ds sm dm src dst
  | BoundExtraCreateRelTableGroupInfo infos => serializeVector ser infos
  | BoundExtraCreateRdfGraphInfo a b c d => serializeRdfGraphInfo ser a b c d
  end.
Fixpoint serializeCreate (i : BoundCreateTableInfo) : Writer unit :=
  serializeU 1 (tableTypeByte (createType i)) ;;;
  serializeString (tableName i) ;;;
  serializeU 1 (conflictByte (onConflict i)) ;;;
  serializeBool (infoHasParent i) ;;;
  serializeCreateExtra serializeCreate (extraInfo i).

(** The properties are read by the base class and put into what the subclass made. *)
Definition deserializeNodeTableInfo (fuel : nat) : Reader (BoundExtraCreateInfo BoundCreateTableInfo) :=
  ds <- deserializeVector (deserializeProperty fuel) ;; pk <- deserializeString ;; sret (BoundExtraCreateNodeTableInfo ds pk).
Definition deserializeRelTableInfo (fuel : nat) : Reader (BoundExtraCreateInfo BoundCreateTableInfo) :=
  ds <- deserializeVector (deserializeProperty fuel) ;;
  sm <- readMultiplicity ;; dm <- readMultiplicity ;; src <- deserializeU 8 ;; dst <- deserializeU 8 ;;
  sret (BoundExtraCreateRelTableInfo ds sm dm src dst).
Definition deserializeRelTableGroupInfo (deser : Reader BoundCreateTableInfo) : Reader (BoundExtraCreateInfo BoundCreateTableInfo) :=
  infos <- deserializeVector deser ;; sret (BoundExtraCreateRelTableGroupInfo infos).
Definition deserializeRdfGraphInfo (deser : Reader BoundCreateTableInfo) : Reader (BoundExtraCreateInfo BoundCreateTableInfo) :=
  a <- deser ;; b <- deser ;; c <- deser ;; d <- deser ;; sret (BoundExtraCreateRdfGraphInfo a b c d).
Definition deserializeCreateExtra (deser : Reader BoundCreateTableInfo) (fuel : nat) (t : TableType) : Reader (BoundExtraCreateInfo BoundCreateTableInfo) :=
  match t with
  | NODE_TABLE => deserializeNodeTableInfo fuel
  | REL_TABLE => deserializeRelTableInfo fuel
  | RDF_TABLE => deserializeRdfGraphInfo deser
  | REL_GROUP_TABLE => deserializeRelTableGroupInfo deser
  | _ => sthrow InternalException
  end.
Fixpoint deserializeCreate (fuel : nat) : Reader BoundCreateTableInfo :=
  match fuel with
  | O => sthrow UndefinedBehaviour
  | S fuel =>
      t <- readTableType ;;
      n <- deserializeString ;;
      c <- readEnum conflictActions conflictByte ;;
      p <- deserializeBool ;;
      e <- deserializeCreateExtra (deserializeCreate fuel) fuel t ;;
      sret (mkCreateTable t n c p e)
  end.

(** ** Entries *)

Record ScalarMacroFunction := mkMacro {
  expression : ParsedExpression;
  positionalArgs : list string;
  defaultArgs : list (string * ParsedExpression);
}.
Definition serializeMacro (m : ScalarMacroFunction) : Writer unit :=
  serializeExpr (expression m) ;;;
  serializeVector serializeString (positionalArgs m) ;;;
  serializeVector (fun a => serializeString (fst a) ;;; serializeExpr (snd a)) (defaultArgs m).
Definition deserializeMacro (fuel : nat) : Reader ScalarMacroFunction :=
  e <- deserializeExpr fuel ;;
  ps <- deserializeVector deserializeString ;;
  ds <- deserializeVector (k <- deserializeString ;; v <- deserializeExpr fuel ;; sret (k, v)) ;;
  sret (mkMacro e ps ds).

Inductive TableBody :=
| NodeTableEntry (primaryKeyName : string)
| RelTableEntry (srcMultiplicity dstMultiplicity : RelMultiplicity) (srcTableID dstTableID : Z)
| RelGroupEntry (relTableIDs : list Z)
| RDFGraphEntry (resourceTableID literalTableID resourceTripleTableID literalTripleTableID : Z).
Inductive EntryBody :=
| TableCatalogEntry (comment : string) (propertyCollection : Collection) (body : TableBody)
| ScalarMacroCatalogEntry (macroFunction : ScalarMacroFunction)
| SequenceCatalogEntry (sequenceData : SequenceData)
| TypeCatalogEntry (type : LogicalType).
Record CatalogEntry := mkEntry { entryName : string; oid : Z; hasParent_ : bool; entryBody : EntryBody }.

Definition tableEntryType (b : TableBody) : CatalogEntryType :=
  match b with
  | NodeTableEntry _ => NODE_TABLE_ENTRY | RelTableEntry _ _ _ _ => REL_TABLE_ENTRY
  | RelGroupEntry _ => REL_GROUP_ENTRY | RDFGraphEntry _ _ _ _ => RDF_GRAPH_ENTRY
  end.
Definition entryType (b : EntryBody) : CatalogEntryType :=
  match b with
  | TableCatalogEntry _ _ b => tableEntryType b
  | ScalarMacroCatalogEntry _ => SCALAR_MACRO_ENTRY | SequenceCatalogEntry _ => SEQUENCE_ENTRY | TypeCatalogEntry _ => TYPE_ENTRY
  end.

Definition serializeRelTable (sm dm : RelMultiplicity) (src dst : Z) : Writer unit :=
  serializeU 1 (multiplicityByte sm) ;;; serializeU 1 (multiplicityByte dm) ;;; serializeU 8 src ;;; serializeU 8 dst.
Definition serializeRdfGraph (a b c d : Z) : Writer unit := serializeU 8 a ;;; serializeU 8 b ;;; serializeU 8 c ;;; serializeU 8 d.
Definition serializeTableBody (b : TableBody) : Writer unit :=
  match b with
  | NodeTableEntry pk => serializeString pk
  | RelTableEntry sm dm src dst => serializeRelTable sm dm src dst
  | RelGroupEntry ids => serializeVector (serializeU 8) ids
  | RDFGraphEntry a b c d => serializeRdfGraph a b c d
  end.
Definition deserializeNodeTable : Reader TableBody := pk <- deserializeString ;; sret (NodeTableEntry pk).
Definition deserializeRelTable : Reader TableBody :=
  sm <- readMultiplicity ;; dm <- readMultiplicity ;; src <- deserializeU 8 ;; dst <- deserializeU 8 ;; sret (RelTableEntry sm dm src dst).
Definition deserializeRelGroup : Reader TableBody := ids <- deserializeVector (deserializeU 8) ;; sret (RelGroupEntry ids).
Definition deserializeRdfGraph : Reader TableBody :=
  a <- deserializeU 8 ;; b <- deserializeU 8 ;; c <- deserializeU 8 ;; d <- deserializeU 8 ;; sret (RDFGraphEntry a b c d).
Definition deserializeTableBody (t : CatalogEntryType) : Reader TableBody :=
  match t with
  | NODE_TABLE_ENTRY => deserializeNodeTable
  | REL_TABLE_ENTRY => deserializeRelTable
  | REL_GROUP_ENTRY => deserializeRelGroup
  | RDF_GRAPH_ENTRY => deserializeRdfGraph
  | _ => sthrow InternalException
  end.

Definition serializeEntryBody (b : EntryBody) : Writer unit :=
  match b with
  | TableCatalogEntry comment coll b => serializeString comment ;;; PropertyCollection.serialize serializeRest coll ;;; serializeTableBody b
  | ScalarMacroCatalogEntry m => serializeMacro m
  | SequenceCatalogEntry s => serializeSequence s
  | TypeCatalogEntry t => serializeType t
  end.
Definition deserializeTableEntry (fuel : nat) (t : CatalogEntryType) : Reader EntryBody :=
  comment <- deserializeString ;;
  coll <- PropertyCollection.deserialize (deserializeRest fuel) ;;
  b <- deserializeTableBody t ;;
  sret (TableCatalogEntry comment coll b).
Definition deserializeEntryBody (fuel : nat) (t : CatalogEntryType) : Reader EntryBody :=
  match t with
  | NODE_TABLE_ENTRY | REL_TABLE_ENTRY | REL_GROUP_ENTRY | RDF_GRAPH_ENTRY => deserializeTableEntry fuel t
  | SCALAR_MACRO_ENTRY => m <- deserializeMacro fuel ;; sret (ScalarMacroCatalogEntry m)
  | SEQUENCE_ENTRY => s <- deserializeSequence ;; sret (SequenceCatalogEntry s)
  | TYPE_ENTRY => t <- deserializeType fuel ;; sret (TypeCatalogEntry t)
  | _ => sthrow InternalException
  end.

Definition serializeEntry (e : CatalogEntry) : Writer unit :=
  serializeU 1 (entryTypeByte (entryType (entryBody e))) ;;;
  serializeString (entryName e) ;;;
  serializeU 8 (oid e) ;;;
  serializeBool (hasParent_ e) ;;;
  serializeEntryBody (entryBody e).
Definition deserializeEntry (fuel : nat) : Reader CatalogEntry :=
  t <- readEnum entryTypes entryTypeByte ;;
  n <- deserializeString ;;
  o <- deserializeU 8 ;;
  p <- deserializeBool ;;
  b <- deserializeEntryBody fuel t ;;
  sret (mkEntry n o p b).

(** ** Round trips *)

Lemma codec_tableType t : codec (fun a => serializeU 1 (tableTypeByte a)) readTableType t.
Proof. apply codec_enum; [destruct t; unfold tableTypes; set_solver|destruct t; by vm_compute|]. intros b. by destruct t, b. Qed.
Lemma codec_conflict t : codec (fun a => serializeU 1 (conflictByte a)) (readEnum conflictActions conflictByte) t.
Proof. apply codec_enum; [destruct t; unfold conflictActions; set_solver|destruct t; by vm_compute|]. intros b. by destruct t, b. Qed.
Lemma codec_multiplicity t : codec (fun a => serializeU 1 (multiplicityByte a)) readMultiplicity t.
Proof. apply codec_enum; [destruct t; unfold multiplicities; set_solver|destruct t; by vm_compute|]. intros b. by destruct t, b. Qed.
Lemma codec_entryType t : codec (fun a => serializeU 1 (entryTypeByte a)) (readEnum entryTypes entryTypeByte) t.
Proof. apply codec_enum; [destruct t; unfold entryTypes; set_solver|destruct t; by vm_compute|]. intros b. by destruct t, b. Qed.
Lemma codec_U8 z : inU 64 z -> codec (serializeU 8) (deserializeU 8) z.
Proof. apply (codec_U 8). Qed.

(** A type and a default expression that can be read back. *)
Definition restOK (r : LogicalType * ParsedExpression) : Prop := wellFormed (fst r) /\ sizesFit (fst r) /\ exprOK (snd r).
Definition definitionOK (d : Definition_) : Prop := textOK (getName d) /\ restOK (getRest d).

Lemma readable_rest r : restOK r -> readable serializeRest deserializeRest r.
Proof.
  intros (Hw & Hs & He). exists (S (Nat.max (height (fst r)) (eheight (snd r)))). intros fuel Hf. destruct r as [t e].
  apply codec_pair; [apply codec_LogicalType|apply expressions_serialized]; cbn [fst snd] in *; (done || lia).
Qed.
Lemma readable_property d : definitionOK d -> readable serializeProperty deserializeProperty d.
Proof.
  intros [Hn Hr]. destruct (readable_rest _ Hr) as (n & H). exists n. intros fuel Hf. destruct d as [nm r].
  unfold codec, serializeProperty, serializeDefinition, deserializeProperty, deserializeDefinition.
  eapply codecR_bind; [by apply codec_String|]. apply (codecR_last _ _ (fun r => mkProperty nm r)). by apply H.
Qed.
Lemma readable_properties ds : Forall definitionOK ds -> Z.of_nat (length ds) < 2 ^ 64 ->
  readable (serializeVector serializeProperty) (fun fuel => deserializeVector (deserializeProperty fuel)) ds.
Proof.
  intros Hd Hl. destruct (readable_Forall serializeProperty deserializeProperty ds) as (n & H).
  { eapply Forall_impl; [exact Hd|apply readable_property]. }
  exists n. intros fuel Hf. apply codec_Vector; [by apply H|done].
Qed.

(** The information of a table that is created, and of the tables it consists of. *)
Definition innerInfos (i : BoundCreateTableInfo) : list BoundCreateTableInfo :=
  match extraInfo i with
  | BoundExtraCreateRelTableGroupInfo infos => infos
  | BoundExtraCreateRdfGraphInfo a b c d => [a; b; c; d]
  | _ => []
  end.
Definition createParts (i : BoundCreateTableInfo) : Prop :=
  textOK (tableName i) /\
  match createType i, extraInfo i with
  | NODE_TABLE, BoundExtraCreateNodeTableInfo ds pk => Forall definitionOK ds /\ Z.of_nat (length ds) < 2 ^ 64 /\ textOK pk
  | REL_TABLE, BoundExtraCreateRelTableInfo ds _ _ src dst => Forall definitionOK ds /\ Z.of_nat (length ds) < 2 ^ 64 /\ inU 64 src /\ inU 64 dst
  | REL_GROUP_TABLE, BoundExtraCreateRelTableGroupInfo infos => Z.of_nat (length infos) < 2 ^ 64
  | RDF_TABLE, BoundExtraCreateRdfGraphInfo _ _ _ _ => True
  | _, _ => False
  end.
#[warnings="-register-all"]
Inductive createOK : BoundCreateTableInfo -> Prop :=
| createOK_intro i : createParts i -> Forall createOK (innerInfos i) -> createOK i.

Lemma createOK_ind' (P : BoundCreateTableInfo -> Prop) :
  (forall i, createParts i -> Forall P (innerInfos i) -> P i) -> forall i, createOK i -> P i.
Proof.
  intros Hstep. fix IH 2. intros i [i' Hp Hin]. apply Hstep; [done|].
  induction Hin as [|j l Hj Hl IHl]; constructor; [by apply IH|done].
Qed.

(** The four integers of a relationship or of an RDF graph. *)
Lemma codec_ends {B} sm dm src dst (f : RelMultiplicity -> RelMultiplicity -> Z -> Z -> B) : inU 64 src -> inU 64 dst ->
  codecR (serializeU 1 (multiplicityByte sm) ;;; serializeU 1 (multiplicityByte dm) ;;; serializeU 8 src ;;; serializeU 8 dst)
    (sm <- readMultiplicity ;; dm <- readMultiplicity ;; src <- deserializeU 8 ;; dst <- deserializeU 8 ;; sret (f sm dm src dst)) (f sm dm src dst).
Proof.
  intros Hs Ht. eapply codecR_bind; [apply codec_multiplicity|]. eapply codecR_bind; [apply codec_multiplicity|].
  eapply codecR_bind; [by apply codec_U8|]. apply (codecR_last _ _ (fun dst => f sm dm src dst)). by apply codec_U8.
Qed.

Lemma readable_createExtra i : createParts i -> Forall (readable serializeCreate deserializeCreate) (innerInfos i) ->
  exists n, forall fuel, (n <= fuel)%nat ->
    codec (serializeCreateExtra serializeCreate) (deserializeCreateExtra (deserializeCreate fuel) fuel (createType i)) (extraInfo i).
Proof.
  intros [_ Hp] (m & Hm)%readable_Forall. destruct i as [t nm c p e]. cbn [createType extraInfo] in *. unfold innerInfos in Hm. cbn [extraInfo] in Hm.
  destruct t, e as [ds pk|ds sm dm src dst|infos|a b c' d]; try done; unfold codec; cbn [deserializeCreateExtra serializeCreateExtra];
    unfold serializeNodeTableInfo, serializeRelTableInfo, serializeRdfGraphInfo, deserializeNodeTableInfo, deserializeRelTableInfo, deserializeRelTableGroupInfo, deserializeRdfGraphInfo.
  - destruct Hp as (Hd & Hl & Hpk). destruct (readable_properties ds Hd Hl) as (k & Hk). exists k. intros fuel Hf.
    eapply codecR_bind; [by apply Hk|]. apply codecR_last. by apply codec_String.
  - destruct Hp as (Hd & Hl & Hs & Ht). destruct (readable_properties ds Hd Hl) as (k & Hk). exists k. intros fuel Hf.
    eapply codecR_bind; [by apply Hk|]. by apply (codec_ends _ _ _ _ (BoundExtraCreateRelTableInfo ds)).
  - exists m. intros fuel Hf. specialize (Hm fuel Hf). rewrite !Forall_cons in Hm. destruct Hm as (Ha & Hb & Hc & Hd & _).
    do 3 (eapply codecR_bind; [done|]). by apply codecR_last.
  - exists m. intros fuel Hf. apply codecR_last. apply codec_Vector; [by apply Hm|done].
Qed.

Lemma createTable_serialized i : createOK i -> readable serializeCreate deserializeCreate i.
Proof.
  revert i. apply createOK_ind'. intros i Hp Hin. destruct (readable_createExtra i Hp Hin) as (n & Hn). exists (S n). intros fuel Hf.
  destruct fuel as [|fuel]; [lia|]. destruct i as [t nm c p e]. destruct Hp as [Ht _]. cbn [createType extraInfo tableName] in *.
  unfold codec. cbn [serializeCreate deserializeCreate createType tableName onConflict infoHasParent extraInfo].
  eapply codecR_bind; [apply codec_tableType|]. eapply codecR_bind; [by apply codec_String|]. eapply codecR_bind; [apply codec_conflict|].
  eapply codecR_bind; [apply codec_Bool|]. apply codecR_last. apply Hn. lia.
Qed.

(** Entries. *)
Definition tableBodyOK (b : TableBody) : Prop :=
  match b with
  | NodeTableEntry pk => textOK pk
  | RelTableEntry _ _ src dst => inU 64 src /\ inU 64 dst
  | RelGroupEntry ids => Forall (inU 64) ids /\ Z.of_nat (length ids) < 2 ^ 64
  | RDFGraphEntry a b c d => Forall (inU 64) [a; b; c; d]
  end.
Definition macroOK (m : ScalarMacroFunction) : Prop :=
  exprOK (expression m) /\ Forall textOK (positionalArgs m) /\ Z.of_nat (length (positionalArgs m)) < 2 ^ 64 /\
  Forall (fun a => textOK (fst a) /\ exprOK (snd a)) (defaultArgs m) /\ Z.of_nat (length (defaultArgs m)) < 2 ^ 64.
Definition entryBodyOK (b : EntryBody) : Prop :=
  match b with
  | TableCatalogEntry comment coll b =>
      textOK comment /\ wf_collection coll /\ Z.of_nat (length (definitions coll)) < 2 ^ 64 /\ Forall definitionOK (definitions coll) /\ tableBodyOK b
  | ScalarMacroCatalogEntry m => macroOK m
  | SequenceCatalogEntry s => wf_sequence s /\ usageCount s < 2 ^ 64
  | TypeCatalogEntry t => wellFormed t /\ sizesFit t
  end.
Definition entryOK (e : CatalogEntry) : Prop := textOK (entryName e) /\ inU 64 (oid e) /\ entryBodyOK (entryBody e).

Lemma codec_tableBody b : tableBodyOK b -> codec serializeTableBody (deserializeTableBody (tableEntryType b)) b.
Proof.
  destruct b as [pk|sm dm src dst|ids|w x y z]; cbn [tableBodyOK]; unfold codec; cbn [serializeTableBody deserializeTableBody tableEntryType];
    unfold serializeRelTable, serializeRdfGraph, deserializeNodeTable, deserializeRelTable, deserializeRelGroup, deserializeRdfGraph.
  - intros. apply codecR_last. by apply codec_String.
  - intros [Hs Ht]. by apply (codec_ends _ _ _ _ RelTableEntry).
  - intros [Hi Hl]. apply codecR_last, codec_Vector; [|done]. eapply Forall_impl; [exact Hi|]. by apply codec_U8.
  - rewrite !Forall_cons. intros (Hw & Hx & Hy & Hz & _). do 3 (eapply codecR_bind; [by apply codec_U8|]). apply codecR_last. by apply codec_U8.
Qed.

Lemma readable_macro m : macroOK m -> readable serializeMacro deserializeMacro m.
Proof.
  intros (He & Hp & Hpl & Hd & Hdl).
  destruct (readable_Forall (fun a => serializeString (fst a) ;;; serializeExpr (snd a))
    (fun fuel => k <- deserializeString ;; v <- deserializeExpr fuel ;; sret (k, v)) (defaultArgs m)) as (n & Hn).
  { eapply Forall_impl; [exact Hd|]. intros [k v] [Hk Hv]. exists (eheight v). intros fuel Hf.
    apply codec_pair; [by apply codec_String|by apply expressions_serialized]. }
  exists (Nat.max (eheight (expression m)) n). intros fuel Hf. destruct m as [e ps ds]. cbn [expression positionalArgs defaultArgs] in *.
  unfold codec, serializeMacro, deserializeMacro. cbn [expression positionalArgs defaultArgs].
  eapply codecR_bind; [apply expressions_serialized; [done|lia]|].
  eapply codecR_bind; [apply codec_Vector; [eapply Forall_impl; [exact Hp|]; by apply codec_String|done]|].
  apply codecR_last, codec_Vector; [|done]. apply Hn. lia.
Qed.

Lemma readable_tableEntry comment coll b : entryBodyOK (TableCatalogEntry comment coll b) ->
  exists n, forall fuel, (n <= fuel)%nat ->
    codecR (serializeEntryBody (TableCatalogEntry comment coll b)) (deserializeTableEntry fuel (tableEntryType b)) (TableCatalogEntry comment coll b).
Proof.
  intros (Hc & Hw & Hl & Hd & Hb).
  destruct (readable_Forall serializeRest deserializeRest (getRest <$> definitions coll)) as (n & Hn).
  { apply Forall_fmap. eapply Forall_impl; [exact Hd|]. intros d [_ Hr]. by apply readable_rest. }
  exists n. intros fuel Hf. unfold serializeEntryBody, deserializeTableEntry. eapply codecR_bind; [by apply codec_String|].
  eapply codecR_bind; [|apply codecR_last; by apply codec_tableBody]. apply collection_roundtrip; [done|done|].
  specialize (Hn fuel Hf). rewrite Forall_fmap in Hn. rewrite Forall_forall in *. intros d Hin. split; [by apply Hd|by apply Hn].
Qed.

Lemma readable_entryBody b : entryBodyOK b ->
  exists n, forall fuel, (n <= fuel)%nat -> codec serializeEntryBody (deserializeEntryBody fuel (entryType b)) b.
Proof.
  destruct b as [comment coll b|m|s|t].
  - intros (n & Hn)%readable_tableEntry. exists n. intros fuel Hf. specialize (Hn fuel Hf). by destruct b.
  - intros (n & Hn)%readable_macro. exists n. intros fuel Hf. apply codecR_last. by apply Hn.
  - intros [Hw Hu]. exists 0%nat. intros fuel _. apply codecR_last. by apply sequence_roundtrip.
  - intros [Hw Hs]. exists (S (height t)). intros fuel Hf. apply codecR_last. by apply codec_LogicalType.
Qed.

Lemma readable_entry e : entryOK e -> readable serializeEntry deserializeEntry e.
Proof.
  intros (Hn & Ho & Hb). destruct (readable_entryBody _ Hb) as (n & H). exists n. intros fuel Hf. destruct e as [nm o p b].
  cbn [entryName oid entryBody hasParent_] in *. unfold codec, serializeEntry, deserializeEntry. cbn [entryName oid entryBody hasParent_].
  eapply codecR_bind; [apply codec_entryType|]. eapply codecR_bind; [by apply codec_String|]. eapply codecR_bind; [by apply codec_U8|].
  eapply codecR_bind; [apply codec_Bool|]. apply codecR_last. by apply H.
Qed.

(** C20. Catalog entries with readable expressions survive a restart: a table with its properties,
    types and defaults, a group of relationships, an RDF graph, a macro, a sequence or a type.  What
    [serialize] wrote of it is read back as the same entry, and the bytes that follow stay.  The
    expressions of the entry, the defaults of properties and the bodies and default arguments of
    macros, consist of cases, function calls, literals, properties and variables, where a literal has
    no value of type SERIAL and nothing under a null; comparisons, connectives and the other operators
    are not covered, as they are written but not read back.  Types and the collection of properties
    are well formed, the value of a sequence is between its bounds, and numbers and sizes are in
    the ranges of their members. *)
Theorem entries_serialized e : entryOK e -> readable serializeEntry deserializeEntry e.
Proof. apply readable_entry. Qed.

(** ** Examples *)

(** CREATE MACRO pick(x, y := 3) AS CASE x WHEN 35 THEN x END. *)
Definition exMacro : CatalogEntry := mkEntry "pick" 4 false (ScalarMacroCatalogEntry (mkMacro exCase ["x"] [("y", exLiteral 3)])).
Lemma exMacro_ok : entryOK exMacro.
Proof.
  split; [by vm_compute|]. split; [by vm_compute|]. split; [apply exCase_ok|]. split; [by repeat constructor|].
  split; [by vm_compute|]. split; [|by vm_compute]. constructor; [|constructor]. split; [by vm_compute|by apply exLiteral_ok; vm_compute].
Qed.
Lemma entries_serialized_witness : readable serializeEntry deserializeEntry exMacro.
Proof. apply entries_serialized, exMacro_ok. Defined.
