(* ===== verification/BufferedFile.v ===== *)
(** * Buffered files (src/common/serializer/buffered_file.cpp,
      src/include/common/serializer/buffered_file.h, and the reads and writes of
      src/common/file_system/local_file_system.cpp)

    The writer behind a serializer collects the bytes of small writes in a buffer of one page and
    writes the page when it is full; the reader behind a deserializer fetches page by page.  A file
    is the list of its bytes.  Offsets are natural numbers: files stay below 2^64 bytes. *)

From S2P Require Import Prelude Serializer.
From stdpp Require Import base list strings numbers.

(** ** Files of the local file system *)

(** [pwrite]: a hole between the end of the file and the offset reads as zeros. *)
Definition pwrite (file data : bytes) (offset : nat) : bytes :=
  take offset (file ++ replicate (offset - length file) 0%Z) ++ data ++ drop (offset + length data) file.

(** [pread]: fewer bytes than asked for at the end of the file. *)
Definition pread (file : bytes) (n position : nat) : bytes := take n (drop position file).

(** [LocalFileSystem::writeFile]: at most [maxBytes] bytes (one gigabyte) in one call. *)
Fixpoint writeLoop (fuel maxBytes : nat) (file data : bytes) (offset : nat) : bytes :=
  match fuel, data with
  | S fuel', _ :: _ =>
      let numBytesToWrite := Nat.min (length data) maxBytes in
      writeLoop fuel' maxBytes (pwrite file (take numBytesToWrite data) offset) (drop numBytesToWrite data) (offset + numBytesToWrite)
  | _, _ => file
  end.
Definition writeFile (maxBytes : nat) (file data : bytes) (offset : nat) : bytes := writeLoop (length data) maxBytes file data offset.

(** [LocalFileSystem::readFromFile] into the memory [buffer]: a read that stops short throws unless
    it stopped at the end of the file; the rest of the memory stays as it was. *)
Definition readFromFile (file buffer : bytes) (numBytes position : nat) : outcome bytes :=
  let got := pread file numBytes position in
  if decide (length got <> numBytes /\ length file <> position + length got) then Err (IOException "Cannot read from file")
  else Ok (got ++ drop (length got) buffer).

(** [memcpy(dst + pos, src, src.size())]. *)
Definition memcpy (dst : bytes) (pos : nat) (src : bytes) : outcome bytes :=
  if decide (pos + length src <= length dst) then Ok (take pos dst ++ src ++ drop (pos + length src) dst) else Err UndefinedBehaviour.

Section BufferedFile.
Context (BUFFER_SIZE maxBytes : nat).

(** ** BufferedFileWriter *)

Record BufferedFileWriter := mkWriter { wFile : bytes; wBuffer : bytes; wFileOffset : nat; wBufferOffset : nat }.

Definition newWriter (file : bytes) : BufferedFileWriter := mkWriter file (replicate BUFFER_SIZE 0%Z) 0 0.
Definition setFileOffset (offset : nat) : M BufferedFileWriter unit :=
  smodify (fun w => mkWriter (wFile w) (wBuffer w) offset (wBufferOffset w)).
Definition resetOffsets : M BufferedFileWriter unit := smodify (fun w => mkWriter (wFile w) (wBuffer w) 0 0).

Definition flush : M BufferedFileWriter unit :=
  w <- sget ;;
  if decide (wBufferOffset w = 0) then sret tt
  else
    sput (mkWriter (writeFile maxBytes (wFile w) (take (wBufferOffset w) (wBuffer w)) (wFileOffset w))
            (replicate BUFFER_SIZE 0%Z) (wFileOffset w + wBufferOffset w) 0).

(** [memcpy(&buffer[bufferOffset], data, size); bufferOffset += size]. *)
Definition append (data : bytes) : M BufferedFileWriter unit :=
  w <- sget ;;
  buffer <- slift (memcpy (wBuffer w) (wBufferOffset w) data) ;;
  sput (mkWriter (wFile w) buffer (wFileOffset w) (wBufferOffset w + length data)).

Definition writeData (data : bytes) : M BufferedFileWriter unit :=
  if decide (BUFFER_SIZE < length data) then
    flush ;;;
    smodify (fun w => mkWriter (writeFile maxBytes (wFile w) data (wFileOffset w)) (wBuffer w) (wFileOffset w + length data) (wBufferOffset w))
  else
    w <- sget ;;
    if decide (wBufferOffset w + length data <= BUFFER_SIZE) then append data
    else
      let toCopy := BUFFER_SIZE - wBufferOffset w in
      append (take toCopy data) ;;;
      flush ;;;
      append (drop toCopy data).

Definition getFileSize (w : BufferedFileWriter) : nat := length (wFile w) + wBufferOffset w.

(** ** BufferedFileReader *)

Record BufferedFileReader := mkReader {
  rFile : bytes;
  rBuffer : bytes;
  rFileOffset : nat;
  rBufferOffset : nat;
  fileSize : nat;
  bufferSize : nat;
}.

Definition readNextPage : M BufferedFileReader unit :=
  r <- sget ;;
  if decide (fileSize r <= rFileOffset r) then sthrow (RuntimeException "Reading past the end of the file")
  else
    let size := Nat.min (fileSize r - rFileOffset r) BUFFER_SIZE in
    sput (mkReader (rFile r) (rBuffer r) (rFileOffset r) (rBufferOffset r) (fileSize r) size) ;;;
    buffer <- slift (readFromFile (rFile r) (rBuffer r) size (rFileOffset r)) ;;
    sput (mkReader (rFile r) buffer (rFileOffset r + size) 0 (fileSize r) size).

Definition newReader (file : bytes) : outcome BufferedFileReader :=
  match readNextPage (mkReader file (replicate BUFFER_SIZE 0%Z) 0 0 (length file) 0) with
  | (Ok _, r) => Ok r
  | (Err e, _) => Err e
  end.

(** [read(data, size)] into the caller's memory [data], of [size] bytes.  In the last branch the
    subtraction wraps around when an earlier call moved [bufferOffset] past [bufferSize]. *)
Definition readData (data : bytes) : M BufferedFileReader bytes :=
  r <- sget ;;
  let size := length data in
  if decide (BUFFER_SIZE < size) then
    let offset := rFileOffset r - bufferSize r + rBufferOffset r in
    sput (mkReader (rFile r) (rBuffer r) offset (rBufferOffset r) (fileSize r) (bufferSize r)) ;;;
    result <- slift (readFromFile (rFile r) data size offset) ;;
    sput (mkReader (rFile r) (rBuffer r) (offset + size) (bufferSize r) (fileSize r) (bufferSize r)) ;;;
    sret result
  else if decide (rBufferOffset r + size <= bufferSize r) then
    sput (mkReader (rFile r) (rBuffer r) (rFileOffset r) (rBufferOffset r + size) (fileSize r) (bufferSize r)) ;;;
    sret (take size (drop (rBufferOffset r) (rBuffer r)))
  else if decide (bufferSize r < rBufferOffset r) then sthrow UndefinedBehaviour
  else
    let toCopy := bufferSize r - rBufferOffset r in
    let copied := take toCopy (drop (rBufferOffset r) (rBuffer r)) in
    sput (mkReader (rFile r) (rBuffer r) (rFileOffset r) (rBufferOffset r + toCopy) (fileSize r) (bufferSize r)) ;;;
    readNextPage ;;;
    let remaining := size - toCopy in
    r' <- sget ;;
    sput (mkReader (rFile r') (rBuffer r') (rFileOffset r') (rBufferOffset r' + remaining) (fileSize r') (bufferSize r')) ;;;
    sret (copied ++ take remaining (rBuffer r')).

Definition finished (r : BufferedFileReader) : bool :=
  bool_decide (bufferSize r <= rBufferOffset r) && bool_decide (fileSize r <= rFileOffset r).

(** ** Correctness *)

Lemma pwrite_end file data : pwrite file data (length file) = file ++ data.
Proof.
  unfold pwrite. rewrite Nat.sub_diag. cbn [replicate]. rewrite app_nil_r, firstn_all.
  by rewrite drop_ge, app_nil_r by lia.
Qed.

Context (HB : 0 < BUFFER_SIZE) (Hmax : 0 < maxBytes).

Lemma writeLoop_end fuel file data : length data <= fuel -> writeLoop fuel maxBytes file data (length file) = file ++ data.
Proof.
  revert file data. induction fuel as [|fuel IH]; intros file data Hf; cbn [writeLoop].
  - destruct data; [by rewrite app_nil_r|simpl in Hf; lia].
  - destruct data as [|b data]; [by rewrite app_nil_r|]. set (d := b :: data) in *. set (n := Nat.min (length d) maxBytes).
    rewrite pwrite_end. replace (length file + n) with (length (file ++ take n d)) by (rewrite length_app, length_take; unfold n; lia).
    rewrite IH by (rewrite length_drop; unfold n, d in *; cbn [length] in *; lia). by rewrite <- app_assoc, take_drop.
Qed.
Lemma writeFile_end file data : writeFile maxBytes file data (length file) = file ++ data.
Proof. by apply writeLoop_end. Qed.

(** A writer that only appends. *)
Record wfWriter (w : BufferedFileWriter) : Prop := {
  w_length : length (wBuffer w) = BUFFER_SIZE;
  w_offset : wBufferOffset w <= BUFFER_SIZE;
  w_end : wFileOffset w = length (wFile w);
}.
(** What was written so far: the file and the bytes that wait in the buffer. *)
Definition written (w : BufferedFileWriter) : bytes := wFile w ++ take (wBufferOffset w) (wBuffer w).

(** [w'] has [data] more than [w], and its file only grew. *)
Definition extends (w w' : BufferedFileWriter) (data : bytes) : Prop :=
  wfWriter w' /\ written w' = written w ++ data /\ wFile w `prefix_of` wFile w'.

Lemma extends_trans w w' w'' d d' : extends w w' d -> extends w' w'' d' -> extends w w'' (d ++ d').
Proof.
  intros (_ & E1 & P1) (H2 & E2 & P2). split; [done|]. split; [by rewrite E2, E1, <- app_assoc|]. by etrans.
Qed.

Lemma wf_newWriter file : wfWriter (mkWriter file (replicate BUFFER_SIZE 0%Z) (length file) 0).
Proof. split; cbn; [by rewrite length_replicate|lia|done]. Qed.

Lemma writer_flushed w : wfWriter w -> exists w', flush w = (Ok tt, w') /\ extends w w' [] /\ wFile w' = written w /\ wBufferOffset w' = 0.
Proof.
  intros [Hl Ho He]. unfold flush. srun. case_decide as H0.
  - exists w. unfold extends, written. rewrite H0, firstn_O, !app_nil_r. by repeat split.
  - eexists. split; [done|]. rewrite He, writeFile_end. unfold extends, written. cbn. rewrite !app_nil_r.
    split; [|done]. split; [|split; [done|by apply prefix_app_r]].
    split; cbn; [by rewrite length_replicate|lia|]. rewrite length_app, length_take. lia.
Qed.

Lemma writer_appended w data : wfWriter w -> wBufferOffset w + length data <= BUFFER_SIZE ->
  exists w', append data w = (Ok tt, w') /\ extends w w' data /\ wBufferOffset w' = wBufferOffset w + length data.
Proof.
  intros [Hl Ho He] Hs. unfold append, memcpy. srun. rewrite decide_True by lia. eexists. split; [done|]. cbn.
  split; [|done]. unfold extends, written. cbn. split; [split; cbn; [|done|done]|split; [|done]].
  - rewrite !length_app, length_take, length_drop. lia.
  - rewrite <- app_assoc. f_equal. rewrite app_assoc. apply take_app_length'. rewrite length_app, length_take. lia.
Qed.

Lemma writeData_spec w data : wfWriter w -> exists w', writeData data w = (Ok tt, w') /\ extends w w' data.
Proof.
  intros Hw. unfold writeData. case_decide as Hbig.
  - destruct (writer_flushed w Hw) as (w1 & E1 & (H1 & W1 & P1) & F1 & O1). rewrite (sbind_ok _ _ _ _ _ E1). unfold smodify.
    eexists. split; [done|]. destruct H1 as [Hl Ho He]. rewrite He, writeFile_end. unfold extends, written. cbn. rewrite O1, firstn_O, app_nil_r, F1.
    split; [split; cbn; [done|lia|by rewrite length_app]|]. split; [done|]. unfold written. rewrite <- app_assoc. by apply prefix_app_r.
  - rewrite (sbind_ok _ _ w w w) by done. case_decide as Hfit.
    + destruct (writer_appended w data Hw Hfit) as (w' & E & X & _). by exists w'.
    + set (n := BUFFER_SIZE - wBufferOffset w).
      destruct (writer_appended w (take n data) Hw) as (w1 & E1 & X1 & O1); [pose proof (w_offset w Hw); rewrite length_take; unfold n; lia|].
      rewrite (sbind_ok _ _ _ _ _ E1). destruct (writer_flushed w1 (proj1 X1)) as (w2 & E2 & X2 & _ & O2). rewrite (sbind_ok _ _ _ _ _ E2).
      destruct (writer_appended w2 (drop n data) (proj1 X2)) as (w3 & E3 & X3 & _); [rewrite O2, length_drop; lia|].
      exists w3. split; [done|]. pose proof (extends_trans _ _ _ _ _ (extends_trans _ _ _ _ _ X1 X2) X3) as X.
      by rewrite app_nil_r, take_drop in X.
Qed.

(** The bytes of the file that were not given out yet: [bufferSize - bufferOffset] of them wait in
    the buffer. *)
Definition unread (r : BufferedFileReader) : bytes := drop (rFileOffset r - (bufferSize r - rBufferOffset r)) (rFile r).

Record wfReader (r : BufferedFileReader) : Prop := {
  r_length : length (rBuffer r) = BUFFER_SIZE;
  r_size : fileSize r = length (rFile r);
  r_file : bufferSize r <= rFileOffset r <= fileSize r;
  r_buffer : rBufferOffset r <= bufferSize r <= BUFFER_SIZE;
  r_data : take (bufferSize r - rBufferOffset r) (drop (rBufferOffset r) (rBuffer r)) = take (bufferSize r - rBufferOffset r) (unread r);
}.

Lemma length_unread r : wfReader r -> length (unread r) = fileSize r - rFileOffset r + (bufferSize r - rBufferOffset r).
Proof. intros [? Hs ? ? ?]. unfold unread. rewrite length_drop, <- Hs. lia. Qed.

Lemma finished_spec r : wfReader r -> finished r = true <-> unread r = [].
Proof.
  intros Hw. rewrite <- length_zero_iff_nil, length_unread by done. destruct Hw as [? ? [? ?] [? ?] ?].
  unfold finished. rewrite andb_true_iff, !bool_decide_eq_true. lia.
Qed.

Lemma readNextPage_spec file buffer fo bo bs :
  length buffer = BUFFER_SIZE -> fo < length file ->
  let size := Nat.min (length file - fo) BUFFER_SIZE in
  readNextPage (mkReader file buffer fo bo (length file) bs) =
    (Ok tt, mkReader file (take size (drop fo file) ++ drop size buffer) (fo + size) 0 (length file) size).
Proof.
  intros Hb Hf size. unfold readNextPage. srun. cbn. rewrite decide_False by lia. fold size. unfold readFromFile, pread.
  assert (Hl : length (take size (drop fo file)) = size) by (rewrite length_take, length_drop; unfold size; lia).
  rewrite Hl, decide_False by (intros [? _]; lia). done.
Qed.

Lemma wf_nextPage file buffer fo :
  length buffer = BUFFER_SIZE -> fo < length file ->
  let size := Nat.min (length file - fo) BUFFER_SIZE in
  wfReader (mkReader file (take size (drop fo file) ++ drop size buffer) (fo + size) 0 (length file) size).
Proof.
  intros Hb Hf size. assert (Hl : length (take size (drop fo file)) = size) by (rewrite length_take, length_drop; unfold size; lia).
  split; cbn; [|done|unfold size; lia|unfold size; lia|].
  - rewrite length_app, Hl, length_drop. unfold size. lia.
  - unfold unread. cbn. rewrite Nat.sub_0_r, drop_0. replace (fo + size - size) with fo by lia. by rewrite take_app_length'.
Qed.

Lemma newReader_spec file : file <> [] -> exists r, newReader file = Ok r /\ wfReader r /\ unread r = file.
Proof.
  intros Hf. assert (Hl : 0 < length file) by (destruct file; cbn; [done|lia]). unfold newReader.
  rewrite readNextPage_spec by (rewrite ?length_replicate; done). eexists. split; [done|]. split.
  - apply wf_nextPage; [by rewrite length_replicate|done].
  - unfold unread. cbn [rFileOffset rBufferOffset bufferSize rFile]. transitivity (drop 0 file); [f_equal; lia|done].
Qed.

Lemma buffered_read r size :
  wfReader r -> rBufferOffset r + size <= bufferSize r ->
  take size (drop (rBufferOffset r) (rBuffer r)) = take size (unread r) /\
  let r' := mkReader (rFile r) (rBuffer r) (rFileOffset r) (rBufferOffset r + size) (fileSize r) (bufferSize r) in
  wfReader r' /\ unread r' = drop size (unread r).
Proof.
  intros [Hl Hs [Hf1 Hf2] [Hb1 Hb2] Hd] Hsz. set (avail := bufferSize r - rBufferOffset r) in *.
  assert (Hu : drop (rFileOffset r - (bufferSize r - (rBufferOffset r + size))) (rFile r) = drop size (unread r)).
  { unfold unread. rewrite drop_drop. f_equal. lia. }
  split; [|split; [split; cbn|done]]; try done; try lia.
  - pose proof (f_equal (take size) Hd) as E. by rewrite !take_take, !Nat.min_l in E by lia.
  - rewrite Hu. pose proof (f_equal (fun l => drop size l) Hd) as E. cbn beta in E.
    assert (Hav : avail = size + (avail - size)) by lia. rewrite Hav, <- !take_drop_commute, drop_drop in E.
    by replace (bufferSize r - (rBufferOffset r + size)) with (avail - size) by lia.
Qed.

(** A reader gives out the next bytes of its file, however they lie on the pages, as long as there
    are enough of them. *)
Lemma readData_spec r data :
  wfReader r -> length data <= length (unread r) ->
  exists r', readData data r = (Ok (take (length data) (unread r)), r') /\ wfReader r' /\ unread r' = drop (length data) (unread r).
Proof.
  intros Hw Hn. pose proof (length_unread r Hw) as Hlu. unfold readData. rewrite (sbind_ok _ _ r r r) by done. cbv zeta. case_decide as Hbig.
  - destruct Hw as [Hl Hs [Hf1 Hf2] [Hb1 Hb2] Hd]. set (offset := rFileOffset r - bufferSize r + rBufferOffset r).
    assert (Ho : rFileOffset r - (bufferSize r - rBufferOffset r) = offset) by lia. srun. unfold readFromFile, pread.
    fold (unread r). assert (Hu : drop offset (rFile r) = unread r) by (by rewrite <- Ho). rewrite Hu.
    assert (Hg : length (take (length data) (unread r)) = length data) by (rewrite length_take; lia).
    rewrite Hg, decide_False by tauto. rewrite drop_all, app_nil_r. eexists. split; [done|].
    assert (Hlen : length (unread r) = length (rFile r) - offset) by (by rewrite <- Hu, length_drop).
    split; [split; cbn; try done; try lia|].
    + by rewrite Nat.sub_diag.
    + unfold unread at 1. cbn. by rewrite Nat.sub_diag, Nat.sub_0_r, <- Hu, drop_drop.
  - case_decide as Hin.
    + destruct (buffered_read r (length data) Hw Hin) as (E & W & U). srun. rewrite E. eauto.
    + rewrite decide_False by (destruct Hw; lia). set (toCopy := bufferSize r - rBufferOffset r) in *.
      pose proof (r_data r Hw) as Hd. fold toCopy in Hd. rewrite Hd. pose proof (r_size r Hw) as Hs. destruct (r_file r Hw) as [Hf1 Hf2].
      destruct (r_buffer r Hw) as [Hb1 Hb2]. assert (Htc : toCopy = bufferSize r - rBufferOffset r) by done.
      assert (Hlt : rFileOffset r < length (rFile r)) by lia.
      rewrite (sbind_ok _ _ _ tt (mkReader (rFile r) (rBuffer r) (rFileOffset r) (rBufferOffset r + toCopy) (fileSize r) (bufferSize r))) by done.
      rewrite Hs, (sbind_ok _ _ _ _ _ (readNextPage_spec _ _ _ _ _ (r_length r Hw) Hlt)).
      rewrite (sbind_ok sget _ _ _ _ eq_refl). cbn [rFile rBuffer rFileOffset rBufferOffset fileSize bufferSize].
      pose proof (wf_nextPage (rFile r) (rBuffer r) (rFileOffset r) (r_length r Hw) Hlt) as W2. cbv zeta in W2.
      set (r2 := mkReader (rFile r) _ _ 0 _ _) in *.
      assert (Hu2 : unread r2 = drop toCopy (unread r)).
      { unfold unread. rewrite drop_drop. unfold r2. cbn [rFileOffset rBufferOffset bufferSize rFile]. f_equal. lia. }
      destruct (buffered_read r2 (length data - toCopy) W2) as (E & W & U); [unfold r2; cbn [rBufferOffset bufferSize]; lia|].
      eexists. unfold sret, sbind, sput. split; [|split; [exact W|by rewrite U, Hu2, drop_drop; f_equal; lia]].
      rewrite drop_0, Hu2 in E. do 2 f_equal. change (take toCopy (unread r) ++ take (length data - toCopy) (rBuffer r2) = take (length data) (unread r)).
      rewrite E, take_take_drop. f_equal. lia.
Qed.

(** Pages are fetched one after the other from the start of the file, unless a read larger than the
    buffer skips it. *)
Definition aligned (size : nat) (r : BufferedFileReader) : Prop := fileSize r = size /\ (rFileOffset r = size \/ exists j, rFileOffset r = j * BUFFER_SIZE).

Lemma newReader_aligned file r : newReader file = Ok r -> aligned (length file) r.
Proof.
  unfold newReader, readNextPage. srun. cbn. case_decide; [done|]. unfold slift, readFromFile. case_decide; [done|]. intros [= <-].
  unfold aligned. cbn. split; [done|]. destruct (Nat.min_spec (length file - 0) BUFFER_SIZE) as [[_ ->]|[_ ->]]; [left; lia|right; exists 1; lia].
Qed.

Lemma readData_aligned size r data : wfReader r -> aligned size r -> length data <= BUFFER_SIZE -> length data <= length (unread r) ->
  exists bs r', readData data r = (Ok bs, r') /\ aligned size r'.
Proof.
  intros Hw Ha Hb Hn. pose proof (length_unread r Hw) as Hlu. unfold readData. rewrite (sbind_ok _ _ r r r) by done. cbv zeta.
  rewrite decide_False by lia. case_decide as Hin; [by do 2 eexists|]. rewrite decide_False by (destruct Hw; lia).
  pose proof (r_size r Hw) as Hs. destruct (r_buffer r Hw) as [Hb1 Hb2]. assert (Hlt : rFileOffset r < length (rFile r)) by lia.
  rewrite (sbind_ok (sput _) _ _ tt _ eq_refl), Hs, (sbind_ok _ _ _ _ _ (readNextPage_spec _ _ _ _ _ (r_length r Hw) Hlt)).
  rewrite (sbind_ok sget _ _ _ _ eq_refl). do 2 eexists. split; [done|]. unfold aligned in *. cbn.
  destruct Ha as [Hz [Ha|[j Ha]]]; [lia|]. rewrite <- Hz, Hs. split; [done|]. destruct (Nat.min_spec (length (rFile r) - rFileOffset r) BUFFER_SIZE) as [[_ ->]|[_ ->]]; [left; lia|right; exists (S j); lia].
Qed.

(** On the last page a read of more than what is left throws. *)
Lemma readData_torn r data : wfReader r -> rFileOffset r = fileSize r -> length (unread r) < length data <= BUFFER_SIZE ->
  exists r', readData data r = (Err (RuntimeException "Reading past the end of the file"), r').
Proof.
  intros Hw Hl [Hn Hb]. pose proof (length_unread r Hw) as Hlu. unfold readData. rewrite (sbind_ok _ _ r r r) by done. cbv zeta.
  rewrite !decide_False by (destruct Hw; lia). unfold readNextPage. srun. cbn. rewrite decide_True by lia. by eexists.
Qed.

(** Successive calls. *)
Fixpoint writeAll (chunks : list bytes) : M BufferedFileWriter unit :=
  match chunks with [] => sret tt | c :: chunks' => writeData c ;;; writeAll chunks' end.
Fixpoint readAll (datas : list bytes) : M BufferedFileReader (list bytes) :=
  match datas with [] => sret [] | d :: datas' => x <- readData d ;; xs <- readAll datas' ;; sret (x :: xs) end.

Lemma writeAll_spec chunks w : wfWriter w -> exists w', writeAll chunks w = (Ok tt, w') /\ extends w w' (concat chunks).
Proof.
  revert w. induction chunks as [|c chunks IH]; intros w Hw; cbn [writeAll concat].
  - exists w. unfold sret, extends. by rewrite app_nil_r.
  - destruct (writeData_spec w c Hw) as (w1 & E1 & X1). destruct (IH w1 (proj1 X1)) as (w2 & E2 & X2).
    exists w2. rewrite (sbind_ok _ _ _ _ _ E1). split; [done|]. by eapply extends_trans.
Qed.

(** The parts of [l] with the lengths of [datas]. *)
Fixpoint slices (datas : list bytes) (l : bytes) : list bytes :=
  match datas with [] => [] | d :: datas' => take (length d) l :: slices datas' (drop (length d) l) end.

Lemma readAll_spec datas r : wfReader r -> length (concat datas) <= length (unread r) ->
  exists r', readAll datas r = (Ok (slices datas (unread r)), r') /\ wfReader r' /\ unread r' = drop (length (concat datas)) (unread r).
Proof.
  revert r. induction datas as [|d datas IH]; intros r Hw Hl; cbn [readAll concat slices].
  - exists r. by rewrite drop_0.
  - cbn [concat] in Hl. rewrite length_app in *. destruct (readData_spec r d Hw) as (r1 & E1 & W1 & U1); [lia|].
    destruct (IH r1 W1) as (r2 & E2 & W2 & U2); [rewrite U1, length_drop; lia|]. exists r2.
    rewrite (sbind_ok _ _ _ _ _ E1), (sbind_ok _ _ _ _ _ E2), U2, U1, drop_drop. done.
Qed.

Lemma slices_same datas chunks rest : length <$> datas = length <$> chunks -> slices datas (concat chunks ++ rest) = chunks.
Proof.
  revert chunks. induction datas as [|d datas IH]; intros [|c chunks]; cbn; try done. intros [= Hl Hr].
  rewrite <- app_assoc, take_app_length', drop_app_length' by done. by rewrite IH.
Qed.

(** C21. What a buffered writer wrote, a buffered reader reads.  After any sequence of writes at the
    end of a file, whatever their sizes against the page of the buffer, and a flush, the file has
    its old contents and then exactly the bytes of the writes in order.  A reader on that file that
    asks for the same sizes from the start gets the same pieces, whatever was in the caller's
    memory, and after each call it is finished exactly when nothing is left to read. *)
Theorem buffered_roundtrip before chunks datas more :
  let pieces := before ++ chunks in
  concat pieces <> [] -> length <$> (datas ++ more) = length <$> pieces ->
  exists w r r',
    (setFileOffset (length (concat before)) ;;; writeAll chunks ;;; flush) (newWriter (concat before)) = (Ok tt, w) /\
    wFile w = concat pieces /\ getFileSize w = length (wFile w) /\
    newReader (wFile w) = Ok r /\ readAll datas r = (Ok (take (length datas) pieces), r') /\
    (finished r' = true <-> concat (drop (length datas) pieces) = []).
Proof.
  intros pieces Hne Hlen. set (w0 := mkWriter (concat before) (replicate BUFFER_SIZE 0%Z) (length (concat before)) 0).
  destruct (writeAll_spec chunks w0) as (w1 & E1 & W1 & V1 & _); [apply wf_newWriter|].
  destruct (writer_flushed w1 W1) as (w & E & _ & F & O).
  assert (Hw : wFile w = concat pieces) by (rewrite F, V1; unfold written, pieces; cbn; by rewrite app_nil_r, concat_app).
  destruct (newReader_spec (wFile w)) as (r & Er & Wr & Ur); [by rewrite Hw|].
  set (done := take (length datas) pieces) in *. set (left := drop (length datas) pieces) in *.
  assert (Hp : pieces = done ++ left) by (unfold done, left; by rewrite take_drop).
  assert (Hd : length <$> datas = length <$> done).
  { unfold done. rewrite fmap_take, <- Hlen, fmap_app. by rewrite take_app_length' by (by rewrite length_fmap). }
  assert (Hc : length (concat datas) = length (concat done)) by (rewrite !length_concat; f_equal; exact Hd).
  destruct (readAll_spec datas r Wr) as (r' & E' & W' & U').
  { rewrite Ur, Hw, Hp, concat_app, length_app, Hc. lia. }
  exists w, r, r'. rewrite (sbind_ok _ _ _ tt w0) by done. rewrite (sbind_ok _ _ _ _ _ E1). split; [done|]. split; [done|].
  split; [unfold getFileSize; lia|]. split; [done|]. rewrite E', Ur, Hw, Hp, concat_app, slices_same by done. split; [done|].
  rewrite finished_spec by done. rewrite U', Ur, Hw, Hp, concat_app, Hc. by rewrite drop_app_length.
Qed.
End BufferedFile.

(** ** Examples *)

Local Open Scope Z_scope.

(** Three writes with a page of four bytes: one in the buffer, one over two pages, one larger than
    the buffer; the reader asks for them with other bytes in its memory. *)
Lemma buffered_roundtrip_witness :
  let chunks := [[1; 2; 3]; [4; 5; 6]; [7; 8; 9; 10; 11; 12]] in
  exists w r r',
    (setFileOffset 1 ;;; writeAll 4 100 chunks ;;; flush 4 100) (newWriter 4 [9]) = (Ok tt, w) /\
    wFile w = [9; 1; 2; 3; 4; 5; 6; 7; 8; 9; 10; 11; 12] /\ getFileSize w = length (wFile w) /\
    newReader 4 (wFile w) = Ok r /\ readAll 4 [[0]; [0; 0; 0]; [0; 0; 0]] r = (Ok [[9]; [1; 2; 3]; [4; 5; 6]], r') /\
    (finished r' = true <-> [7; 8; 9; 10; 11; 12] = []).
Proof.
  apply (buffered_roundtrip 4 100 ltac:(lia) ltac:(lia) [[9]] [[1; 2; 3]; [4; 5; 6]; [7; 8; 9; 10; 11; 12]]
           [[0]; [0; 0; 0]; [0; 0; 0]] [[0; 0; 0; 0; 0; 0]]); [done|reflexivity].
Defined.

(** A read that crosses into the last page and asks for more than the file has gets what the
    buffer held before, and no exception. *)
Example short_read_gets_stale_bytes :
  exists r r', newReader 4 [1; 2; 3; 4; 5; 6] = Ok r /\ readAll 4 [[0; 0; 0]; [0; 0; 0; 0]] r = (Ok [[1; 2; 3]; [4; 5; 6; 3]], r') /\
    finished r' = true /\ fst (readData 4 [0] r') = Err UndefinedBehaviour.
Proof. eexists _, _. split; [reflexivity|]. split; [vm_compute; reflexivity|]. by vm_compute. Qed.

(** A read that starts at the end of the last page throws. *)
Example read_past_the_end :
  exists r, newReader 4 [1; 2; 3; 4] = Ok r /\
    fst (readAll 4 [[0; 0; 0]; [0; 0]] r) = Err (RuntimeException "Reading past the end of the file").
Proof. eexists. split; [reflexivity|]. by vm_compute. Qed.
