(* ===== verification/WALRecord.v ===== *)
(** * Records of the write-ahead log (src/storage/wal/wal_record.cpp, src/include/storage/wal/wal_record.h,
      and the serialization of vectors in src/common/vector/value_vector.cpp)

    A record is the byte of its type and then its members.  A vector in a record is its type and
    the values at its selected positions: [ValueVector::serialize] writes [getAsValue] of each, and
    [deSerialize] puts the values it reads into a new vector with [copyFromValue], where the null
    flag of the value decides.  The vectors of one record share their selection. *)

From stdpp Require Import base numbers strings list sets.
From S2P Require Import Prelude Serializer Compression LogicalType Value ParsedExpression PropertyCollection CatalogEntry.
Local Open Scope Z_scope.

Record VectorData := mkVectorData { vectorType : LogicalType; vectorValues : list Value }.

Definition serializeVectorData (v : VectorData) : Writer unit :=
  serializeType (vectorType v) ;;;
  serializeU 8 (Z.of_nat (length (vectorValues v))) ;;;
  serializeArray (fun x => serializeBool (isNull_ x)) (vectorValues v) ;;;
  serializeArray serializeVal (vectorValues v).
Definition deserializeVectorData (fuel : nat) : Reader VectorData :=
  t <- deserializeType fuel ;;
  n <- deserializeU 8 ;;
  nulls <- deserializeArray deserializeBool (Z.to_nat n) ;;
  values <- deserializeArray (deserializeVal fuel) (Z.to_nat n) ;;
  sret (mkVectorData t values).

(** ** Records *)

Inductive RelDataDirection := FWD | BWD | INVALID_DIRECTION.
Definition directionByte (d : RelDataDirection) : Z := match d with FWD => 0 | BWD => 1 | INVALID_DIRECTION => 255 end.
Definition directions : list RelDataDirection := [FWD; BWD; INVALID_DIRECTION].

Inductive AlterType := RENAME_TABLE | ADD_PROPERTY | DROP_PROPERTY | RENAME_PROPERTY | COMMENT | INVALID_ALTER.
Definition alterByte (t : AlterType) : Z :=
  match t with RENAME_TABLE => 0 | ADD_PROPERTY => 10 | DROP_PROPERTY => 11 | RENAME_PROPERTY => 12 | COMMENT => 201 | INVALID_ALTER => 255 end.
Definition alterTypes : list AlterType := [RENAME_TABLE; ADD_PROPERTY; DROP_PROPERTY; RENAME_PROPERTY; COMMENT; INVALID_ALTER].

Inductive BoundExtraAlterInfo :=
| BoundExtraRenameTableInfo (newName : string)
| BoundExtraAddPropertyInfo (propertyDefinition : Definition_)
| BoundExtraDropPropertyInfo (propertyName : string)
| BoundExtraRenamePropertyInfo (newName oldName : string)
| BoundExtraCommentInfo (comment : string).
Record BoundAlterInfo := mkAlter { alteredTable : string; alterExtra : BoundExtraAlterInfo }.
Definition alterType (i : BoundAlterInfo) : AlterType :=
  match alterExtra i with
  | BoundExtraRenameTableInfo _ => RENAME_TABLE | BoundExtraAddPropertyInfo _ => ADD_PROPERTY | BoundExtraDropPropertyInfo _ => DROP_PROPERTY
  | BoundExtraRenamePropertyInfo _ _ => RENAME_PROPERTY | BoundExtraCommentInfo _ => COMMENT
  end.

Inductive WALRecordType :=
| INVALID_RECORD | BEGIN_TRANSACTION_RECORD | COMMIT_RECORD | ROLLBACK_RECORD | COPY_TABLE_RECORD | CREATE_CATALOG_ENTRY_RECORD
| CREATE_TABLE_CATALOG_ENTRY_RECORD | DROP_CATALOG_ENTRY_RECORD | ALTER_TABLE_ENTRY_RECORD | UPDATE_SEQUENCE_RECORD
| TABLE_INSERTION_RECORD | NODE_DELETION_RECORD | NODE_UDPATE_RECORD | REL_DELETION_RECORD | REL_DETACH_DELETE_RECORD
| REL_UPDATE_RECORD | CHECKPOINT_RECORD.
Definition recordByte (t : WALRecordType) : Z :=
  match t with
  | INVALID_RECORD => 0 | BEGIN_TRANSACTION_RECORD => 1 | COMMIT_RECORD => 2 | ROLLBACK_RECORD => 3 | COPY_TABLE_RECORD => 13
  | CREATE_CATALOG_ENTRY_RECORD => 14 | CREATE_TABLE_CATALOG_ENTRY_RECORD => 15 | DROP_CATALOG_ENTRY_RECORD => 16
  | ALTER_TABLE_ENTRY_RECORD => 17 | UPDATE_SEQUENCE_RECORD => 18 | TABLE_INSERTION_RECORD => 30 | NODE_DELETION_RECORD => 31
  | NODE_UDPATE_RECORD => 32 | REL_DELETION_RECORD => 33 | REL_DETACH_DELETE_RECORD => 34 | REL_UPDATE_RECORD => 35
  | CHECKPOINT_RECORD => 50
  end.
Definition recordTypes : list WALRecordType :=
  [INVALID_RECORD; BEGIN_TRANSACTION_RECORD; COMMIT_RECORD; ROLLBACK_RECORD; COPY_TABLE_RECORD; CREATE_CATALOG_ENTRY_RECORD;
   CREATE_TABLE_CATALOG_ENTRY_RECORD; DROP_CATALOG_ENTRY_RECORD; ALTER_TABLE_ENTRY_RECORD; UPDATE_SEQUENCE_RECORD;
   TABLE_INSERTION_RECORD; NODE_DELETION_RECORD; NODE_UDPATE_RECORD; REL_DELETION_RECORD; REL_DETACH_DELETE_RECORD;
   REL_UPDATE_RECORD; CHECKPOINT_RECORD].

Inductive WALRecord :=
| BeginTransactionRecord
| CommitRecord
| RollbackRecord
| CheckpointRecord
| CreateTableEntryRecord (boundCreateTableInfo : BoundCreateTableInfo)
| CreateCatalogEntryRecord (catalogEntry : CatalogEntry)
| CopyTableRecord (tableID : Z)
| DropCatalogEntryRecord (entryID : Z) (entryType : CatalogEntryType)
| AlterTableEntryRecord (alterInfo : BoundAlterInfo)
| UpdateSequenceRecord (sequenceID kCount : Z)
| TableInsertionRecord (tableID : Z) (tableType : TableType) (numRows : Z) (vectors : list VectorData)
| NodeDeletionRecord (tableID nodeOffset : Z) (pkVector : VectorData)
| NodeUpdateRecord (tableID columnID nodeOffset : Z) (propertyVector : VectorData)
| RelDeletionRecord (tableID : Z) (srcNodeIDVector dstNodeIDVector relIDVector : VectorData)
| RelDetachDeleteRecord (tableID : Z) (direction : RelDataDirection) (srcNodeIDVector : VectorData)
| RelUpdateRecord (tableID columnID : Z) (srcNodeIDVector dstNodeIDVector relIDVector propertyVector : VectorData).

Definition recordType (r : WALRecord) : WALRecordType :=
  match r with
  | BeginTransactionRecord => BEGIN_TRANSACTION_RECORD | CommitRecord => COMMIT_RECORD | RollbackRecord => ROLLBACK_RECORD
  | CheckpointRecord => CHECKPOINT_RECORD | CreateTableEntryRecord _ => CREATE_TABLE_CATALOG_ENTRY_RECORD
  | CreateCatalogEntryRecord _ => CREATE_CATALOG_ENTRY_RECORD | CopyTableRecord _ => COPY_TABLE_RECORD
  | DropCatalogEntryRecord _ _ => DROP_CATALOG_ENTRY_RECORD | AlterTableEntryRecord _ => ALTER_TABLE_ENTRY_RECORD
  | UpdateSequenceRecord _ _ => UPDATE_SEQUENCE_RECORD | TableInsertionRecord _ _ _ _ => TABLE_INSERTION_RECORD
  | NodeDeletionRecord _ _ _ => NODE_DELETION_RECORD | NodeUpdateRecord _ _ _ _ => NODE_UDPATE_RECORD
  | RelDeletionRecord _ _ _ _ => REL_DELETION_RECORD | RelDetachDeleteRecord _ _ _ => REL_DETACH_DELETE_RECORD
  | RelUpdateRecord _ _ _ _ _ _ => REL_UPDATE_RECORD
  end.

Definition serializeAlter (i : BoundAlterInfo) : Writer unit :=
  serializeU 1 (alterByte (alterType i)) ;;;
  serializeString (alteredTable i) ;;;
  match alterExtra i with
  | BoundExtraAddPropertyInfo d => serializeProperty d
  | BoundExtraRenamePropertyInfo newName oldName => serializeString newName ;;; serializeString oldName
  | BoundExtraDropPropertyInfo s | BoundExtraCommentInfo s | BoundExtraRenameTableInfo s => serializeString s
  end.
Definition deserializeAlter (fuel : nat) : Reader BoundAlterInfo :=
  t <- readEnum alterTypes alterByte ;;
  n <- deserializeString ;;
  e <- match t with
       | ADD_PROPERTY => d <- deserializeProperty fuel ;; sret (BoundExtraAddPropertyInfo d)
       | DROP_PROPERTY => s <- deserializeString ;; sret (BoundExtraDropPropertyInfo s)
       | RENAME_PROPERTY => newName <- deserializeString ;; oldName <- deserializeString ;; sret (BoundExtraRenamePropertyInfo newName oldName)
       | COMMENT => s <- deserializeString ;; sret (BoundExtraCommentInfo s)
       | RENAME_TABLE => s <- deserializeString ;; sret (BoundExtraRenameTableInfo s)
       | INVALID_ALTER => sthrow InternalException
       end ;;
  sret (mkAlter n e).

(** The members of a record after its type. *)
Definition serializeUpdateSequence (s k : Z) : Writer unit := serializeU 8 s ;;; serializeU 8 k.
Definition deserializeUpdateSequence : Reader WALRecord := s <- deserializeU 8 ;; k <- deserializeU 8 ;; sret (UpdateSequenceRecord s k).
Definition serializeTableInsertion (t : Z) (ty : TableType) (n : Z) (vs : list VectorData) : Writer unit :=
  serializeU 8 t ;;; serializeU 1 (tableTypeByte ty) ;;; serializeU 8 n ;;;
  serializeU 4 (Z.of_nat (length vs)) ;;; serializeArray serializeVectorData vs.
Definition deserializeTableInsertion (fuel : nat) : Reader WALRecord :=
  t <- deserializeU 8 ;; ty <- readTableType ;; n <- deserializeU 8 ;;
  k <- deserializeU 4 ;; vs <- deserializeArray (deserializeVectorData fuel) (Z.to_nat k) ;; sret (TableInsertionRecord t ty n vs).
Definition serializeNodeDeletion (t o : Z) (pk : VectorData) : Writer unit := serializeU 8 t ;;; serializeU 8 o ;;; serializeVectorData pk.
Definition deserializeNodeDeletion (fuel : nat) : Reader WALRecord :=
  t <- deserializeU 8 ;; o <- deserializeU 8 ;; pk <- deserializeVectorData fuel ;; sret (NodeDeletionRecord t o pk).
Definition serializeNodeUpdate (t c o : Z) (p : VectorData) : Writer unit :=
  serializeU 8 t ;;; serializeU 4 c ;;; serializeU 8 o ;;; serializeVectorData p.
Definition deserializeNodeUpdate (fuel : nat) : Reader WALRecord :=
  t <- deserializeU 8 ;; c <- deserializeU 4 ;; o <- deserializeU 8 ;; p <- deserializeVectorData fuel ;; sret (NodeUpdateRecord t c o p).
Definition serializeRelDeletion (t : Z) (s d r : VectorData) : Writer unit :=
  serializeU 8 t ;;; serializeVectorData s ;;; serializeVectorData d ;;; serializeVectorData r.
Definition deserializeRelDeletion (fuel : nat) : Reader WALRecord :=
  t <- deserializeU 8 ;; s <- deserializeVectorData fuel ;; d <- deserializeVectorData fuel ;; r <- deserializeVectorData fuel ;; sret (RelDeletionRecord t s d r).
Definition serializeRelDetachDelete (t : Z) (dir : RelDataDirection) (s : VectorData) : Writer unit :=
  serializeU 8 t ;;; serializeU 1 (directionByte dir) ;;; serializeVectorData s.
Definition deserializeRelDetachDelete (fuel : nat) : Reader WALRecord :=
  t <- deserializeU 8 ;; dir <- readEnum directions directionByte ;; s <- deserializeVectorData fuel ;; sret (RelDetachDeleteRecord t dir s).
Definition serializeRelUpdate (t c : Z) (s d r p : VectorData) : Writer unit :=
  serializeU 8 t ;;; serializeU 4 c ;;; serializeVectorData s ;;; serializeVectorData d ;;; serializeVectorData r ;;; serializeVectorData p.
Definition deserializeRelUpdate (fuel : nat) : Reader WALRecord :=
  t <- deserializeU 8 ;; c <- deserializeU 4 ;; s <- deserializeVectorData fuel ;; d <- deserializeVectorData fuel ;;
  r <- deserializeVectorData fuel ;; p <- deserializeVectorData fuel ;; sret (RelUpdateRecord t c s d r p).
Definition deserializeCreateTableEntry (fuel : nat) : Reader WALRecord := i <- deserializeCreate fuel ;; sret (CreateTableEntryRecord i).
Definition deserializeCreateCatalogEntry (fuel : nat) : Reader WALRecord := e <- deserializeEntry fuel ;; sret (CreateCatalogEntryRecord e).
Definition deserializeCopyTable : Reader WALRecord := t <- deserializeU 8 ;; sret (CopyTableRecord t).
(** [DropCatalogEntryRecord()] starts with the entry type whose number is zero, and nothing replaces
    it: [serialize] writes the identifier only. *)
Definition serializeDropCatalogEntry (entryID : Z) : Writer unit := serializeU 8 entryID.
Definition deserializeDropCatalogEntry : Reader WALRecord := i <- deserializeU 8 ;; sret (DropCatalogEntryRecord i NODE_TABLE_ENTRY).

Definition serializeMembers (r : WALRecord) : Writer unit :=
  match r with
  | BeginTransactionRecord | CommitRecord | RollbackRecord | CheckpointRecord => sret tt
  | CreateTableEntryRecord i => serializeCreate i
  | CreateCatalogEntryRecord e => serializeEntry e
  | CopyTableRecord t => serializeU 8 t
  | DropCatalogEntryRecord i _ => serializeDropCatalogEntry i
  | AlterTableEntryRecord i => serializeAlter i
  | UpdateSequenceRecord s k => serializeUpdateSequence s k
  | TableInsertionRecord t ty n vs => serializeTableInsertion t ty n vs
  | NodeDeletionRecord t o pk => serializeNodeDeletion t o pk
  | NodeUpdateRecord t c o p => serializeNodeUpdate t c o p
  | RelDeletionRecord t s d r => serializeRelDeletion t s d r
  | RelDetachDeleteRecord t dir s => serializeRelDetachDelete t dir s
  | RelUpdateRecord t c s d r p => serializeRelUpdate t c s d r p
  end.
Definition serializeRecord (r : WALRecord) : Writer unit := serializeU 1 (recordByte (recordType r)) ;;; serializeMembers r.

Definition deserializeMembers (fuel : nat) (t : WALRecordType) : Reader WALRecord :=
  match t with
  | BEGIN_TRANSACTION_RECORD => sret BeginTransactionRecord
  | COMMIT_RECORD => sret CommitRecord
  | ROLLBACK_RECORD => sret RollbackRecord
  | CHECKPOINT_RECORD => sret CheckpointRecord
  | CREATE_TABLE_CATALOG_ENTRY_RECORD => deserializeCreateTableEntry fuel
  | CREATE_CATALOG_ENTRY_RECORD => deserializeCreateCatalogEntry fuel
  | COPY_TABLE_RECORD => deserializeCopyTable
  | DROP_CATALOG_ENTRY_RECORD => deserializeDropCatalogEntry
  | ALTER_TABLE_ENTRY_RECORD => i <- deserializeAlter fuel ;; sret (AlterTableEntryRecord i)
  | UPDATE_SEQUENCE_RECORD => deserializeUpdateSequence
  | TABLE_INSERTION_RECORD => deserializeTableInsertion fuel
  | NODE_DELETION_RECORD => deserializeNodeDeletion fuel
  | NODE_UDPATE_RECORD => deserializeNodeUpdate fuel
  | REL_DELETION_RECORD => deserializeRelDeletion fuel
  | REL_DETACH_DELETE_RECORD => deserializeRelDetachDelete fuel
  | REL_UPDATE_RECORD => deserializeRelUpdate fuel
  | INVALID_RECORD => sthrow (RuntimeException "Corrupted wal file. Read out invalid WAL record type.")
  end.
Definition deserializeRecord (fuel : nat) : Reader WALRecord :=
  t <- readEnum recordTypes recordByte ;; deserializeMembers fuel t.

(** ** Round trip *)

(** A record as it comes back: values of type SERIAL with the type INT64, and the entry type of a
    dropped entry replaced. *)
Definition rereadVector (v : VectorData) : VectorData := mkVectorData (vectorType v) (map reread (vectorValues v)).
Definition rereadRecord (r : WALRecord) : WALRecord :=
  match r with
  | DropCatalogEntryRecord i _ => DropCatalogEntryRecord i NODE_TABLE_ENTRY
  | TableInsertionRecord t ty n vs => TableInsertionRecord t ty n (map rereadVector vs)
  | NodeDeletionRecord t o pk => NodeDeletionRecord t o (rereadVector pk)
  | NodeUpdateRecord t c o p => NodeUpdateRecord t c o (rereadVector p)
  | RelDeletionRecord t s d r => RelDeletionRecord t (rereadVector s) (rereadVector d) (rereadVector r)
  | RelDetachDeleteRecord t dir s => RelDetachDeleteRecord t dir (rereadVector s)
  | RelUpdateRecord t c s d r p => RelUpdateRecord t c (rereadVector s) (rereadVector d) (rereadVector r) (rereadVector p)
  | r => r
  end.

Definition vectorOK (v : VectorData) : Prop :=
  wellFormed (vectorType v) /\ sizesFit (vectorType v) /\ Z.of_nat (length (vectorValues v)) < 2 ^ 64 /\ Forall valueOK (vectorValues v).
Definition alterOK (i : BoundAlterInfo) : Prop :=
  textOK (alteredTable i) /\
  match alterExtra i with
  | BoundExtraAddPropertyInfo d => definitionOK d
  | BoundExtraRenamePropertyInfo newName oldName => textOK newName /\ textOK oldName
  | BoundExtraDropPropertyInfo s | BoundExtraCommentInfo s | BoundExtraRenameTableInfo s => textOK s
  end.
Definition recordOK (r : WALRecord) : Prop :=
  match r with
  | BeginTransactionRecord | CommitRecord | RollbackRecord | CheckpointRecord => True
  | CreateTableEntryRecord i => createOK i
  | CreateCatalogEntryRecord e => entryOK e
  | CopyTableRecord t => inU 64 t
  | DropCatalogEntryRecord i _ => inU 64 i
  | AlterTableEntryRecord i => alterOK i
  | UpdateSequenceRecord s k => inU 64 s /\ inU 64 k
  | TableInsertionRecord t _ n vs => inU 64 t /\ inU 64 n /\ Z.of_nat (length vs) < 2 ^ 32 /\ Forall vectorOK vs
  | NodeDeletionRecord t o pk => inU 64 t /\ inU 64 o /\ vectorOK pk
  | NodeUpdateRecord t c o p => inU 64 t /\ inU 32 c /\ inU 64 o /\ vectorOK p
  | RelDeletionRecord t s d r => inU 64 t /\ Forall vectorOK [s; d; r]
  | RelDetachDeleteRecord t _ s => inU 64 t /\ vectorOK s
  | RelUpdateRecord t c s d r p => inU 64 t /\ inU 32 c /\ Forall vectorOK [s; d; r; p]
  end.

Lemma codec_alterType t : codec (fun a => serializeU 1 (alterByte a)) (readEnum alterTypes alterByte) t.
Proof. apply codec_enum; [destruct t; unfold alterTypes; set_solver|destruct t; by vm_compute|]. intros b. by destruct t, b. Qed.
Lemma codec_direction t : codec (fun a => serializeU 1 (directionByte a)) (readEnum directions directionByte) t.
Proof. apply codec_enum; [destruct t; unfold directions; set_solver|destruct t; by vm_compute|]. intros b. by destruct t, b. Qed.
Lemma codec_recordType t : codec (fun a => serializeU 1 (recordByte a)) (readEnum recordTypes recordByte) t.
Proof. apply codec_enum; [destruct t; unfold recordTypes; set_solver|destruct t; by vm_compute|]. intros b. by destruct t, b. Qed.
Lemma codec_U4 z : inU 32 z -> codec (serializeU 4) (deserializeU 4) z.
Proof. apply (codec_U 4). Qed.

(** Vectors that can be read back with the same bound. *)
Definition vectorsReadable (fuel : nat) (vs : list VectorData) : Prop :=
  Forall (fun v => codecR (serializeVectorData v) (deserializeVectorData fuel) (rereadVector v)) vs.

Lemma values_readable vs : Forall valueOK vs ->
  exists n, forall fuel, (n <= fuel)%nat -> Forall (fun v => codecR (serializeVal v) (deserializeVal fuel) (reread v)) vs.
Proof.
  induction 1 as [|v vs Hv _ (n & Hn)]; [exists 0%nat; by constructor|]. exists (Nat.max (vheight v) n). intros fuel Hf.
  constructor; [apply values_serialized; [done|lia]|apply Hn; lia].
Qed.

Lemma vector_readable v : vectorOK v ->
  exists n, forall fuel, (n <= fuel)%nat -> codecR (serializeVectorData v) (deserializeVectorData fuel) (rereadVector v).
Proof.
  intros (Hw & Hs & Hl & Hv). destruct (values_readable _ Hv) as (n & Hn). exists (Nat.max (S (height (vectorType v))) n). intros fuel Hf.
  unfold serializeVectorData, deserializeVectorData, rereadVector. destruct v as [t vs]. cbn [vectorType vectorValues] in *.
  eapply codecR_bind; [apply codec_LogicalType; (done || lia)|]. eapply codecR_bind; [apply codec_U8; unfold inU; lia|]. rewrite Nat2Z.id.
  eapply codecR_bind; [apply (codecR_Array _ _ isNull_); apply Forall_forall; intros x _; apply codec_Bool|].
  apply codecR_last, codecR_Array, Hn. lia.
Qed.

Lemma vectors_readable vs : Forall vectorOK vs -> exists n, forall fuel, (n <= fuel)%nat -> vectorsReadable fuel vs.
Proof.
  induction 1 as [|v vs (n & Hn)%vector_readable _ (m & Hm)]; [exists 0%nat; by constructor|].
  exists (Nat.max n m). intros fuel Hf. constructor; [apply Hn|apply Hm]; lia.
Qed.

Lemma alter_readable i : alterOK i -> readable serializeAlter deserializeAlter i.
Proof.
  intros [Ht He]. destruct i as [n e]. cbn [alteredTable alterExtra] in *.
  assert (Hd : exists k, forall fuel d, (k <= fuel)%nat -> e = BoundExtraAddPropertyInfo d -> codec serializeProperty (deserializeProperty fuel) d).
  { destruct e as [|d| | |]; try (by exists 0%nat). destruct (readable_property d He) as (k & Hk). exists k. intros fuel d' Hf [= <-]. by apply Hk. }
  destruct Hd as (k & Hk). exists k. intros fuel Hf. unfold codec, serializeAlter, deserializeAlter, alterType. cbn [alteredTable alterExtra].
  eapply codecR_bind; [apply codec_alterType|]. eapply codecR_bind; [by apply codec_String|]. apply codecR_last.
  destruct e as [s|d|s|s s'|s].
  - apply codecR_last. by apply codec_String.
  - apply codecR_last. by apply Hk.
  - apply codecR_last. by apply codec_String.
  - destruct He. eapply codecR_bind; [by apply codec_String|]. apply codecR_last. by apply codec_String.
  - apply codecR_last. by apply codec_String.
Qed.

Ltac member := first [by apply codec_U8 | by apply codec_U4 | apply codec_tableType | apply codec_direction | eassumption].
Ltac open_members :=
  cbn [deserializeMembers]; cbv delta [serializeUpdateSequence deserializeUpdateSequence serializeTableInsertion deserializeTableInsertion serializeNodeDeletion
    deserializeNodeDeletion serializeNodeUpdate deserializeNodeUpdate serializeRelDeletion deserializeRelDeletion serializeRelDetachDelete
    deserializeRelDetachDelete serializeRelUpdate deserializeRelUpdate deserializeCopyTable serializeDropCatalogEntry deserializeDropCatalogEntry] beta.
Ltac members := repeat (eapply codecR_bind; [member|]); apply codecR_last; member.

Lemma members_readable r : recordOK r ->
  exists n, forall fuel, (n <= fuel)%nat -> codecR (serializeMembers r) (deserializeMembers fuel (recordType r)) (rereadRecord r).
Proof.
  destruct r as [| | | |i|e|t|i ty|i|s k|t ty n vs|t o pk|t c o p|t s d r|t dir s|t c s d r p]; cbn [recordOK recordType rereadRecord serializeMembers];
    intros H; try (exists 0%nat; intros; exact (codecR_ret _)).
  - destruct (createTable_serialized i H) as (m & Hm). exists m. intros fuel Hf. specialize (Hm fuel Hf). by apply codecR_last.
  - destruct (readable_entry e H) as (m & Hm). exists m. intros fuel Hf. specialize (Hm fuel Hf). by apply codecR_last.
  - exists 0%nat. intros fuel _. open_members. members.
  - exists 0%nat. intros fuel _. open_members. apply (codecR_last _ _ (fun i => DropCatalogEntryRecord i NODE_TABLE_ENTRY)). member.
  - destruct (alter_readable i H) as (m & Hm). exists m. intros fuel Hf. specialize (Hm fuel Hf). by apply codecR_last.
  - destruct H as [Hs Hk]. exists 0%nat. intros fuel _. open_members. members.
  - destruct H as (Ht & Hn & Hl & (m & Hm)%vectors_readable). exists m. intros fuel Hf. specialize (Hm fuel Hf). open_members.
    do 3 (eapply codecR_bind; [member|]). eapply codecR_bind; [apply codec_U4; unfold inU; lia|]. rewrite Nat2Z.id. by apply codecR_last, codecR_Array.
  - destruct H as (Ht & Ho & (m & Hm)%vector_readable). exists m. intros fuel Hf. specialize (Hm fuel Hf). open_members. members.
  - destruct H as (Ht & Hc & Ho & (m & Hm)%vector_readable). exists m. intros fuel Hf. specialize (Hm fuel Hf). open_members. members.
  - destruct H as (Ht & (m & Hm)%vectors_readable). exists m. intros fuel Hf. specialize (Hm fuel Hf). unfold vectorsReadable in Hm.
    rewrite !Forall_cons in Hm. destruct Hm as (Vs & Vd & Vr & _). open_members. members.
  - destruct H as (Ht & (m & Hm)%vector_readable). exists m. intros fuel Hf. specialize (Hm fuel Hf). open_members. members.
  - destruct H as (Ht & Hc & (m & Hm)%vectors_readable). exists m. intros fuel Hf. specialize (Hm fuel Hf). unfold vectorsReadable in Hm.
    rewrite !Forall_cons in Hm. destruct Hm as (Vs & Vd & Vr & Vp & _). open_members. members.
Qed.

Lemma record_readable r : recordOK r ->
  exists n, forall fuel, (n <= fuel)%nat -> codecR (serializeRecord r) (deserializeRecord fuel) (rereadRecord r).
Proof.
  intros (n & Hn)%members_readable. exists n. intros fuel Hf. unfold serializeRecord, deserializeRecord.
  eapply codecR_bind; [apply codec_recordType|]. by apply Hn.
Qed.

Definition recordVectors (r : WALRecord) : list VectorData :=
  match r with
  | TableInsertionRecord _ _ _ vs => vs
  | NodeDeletionRecord _ _ v | NodeUpdateRecord _ _ _ v | RelDetachDeleteRecord _ _ v => [v]
  | RelDeletionRecord _ s d r => [s; d; r]
  | RelUpdateRecord _ _ s d r p => [s; d; r; p]
  | _ => []
  end.

(** Nothing in the vectors of the record has the type SERIAL. *)
Definition serialFreeRecord (r : WALRecord) : Prop := Forall (fun v => Forall serialFree (vectorValues v)) (recordVectors r).

Lemma rereadVector_same v : Forall serialFree (vectorValues v) -> rereadVector v = v.
Proof. destruct v as [t vs]. unfold rereadVector. cbn. intros Hs. f_equal. induction Hs as [|x vs Hx _ IH]; cbn; [done|]. by rewrite reread_same, IH. Qed.

Lemma rereadRecord_same r : (forall i ty, r <> DropCatalogEntryRecord i ty) -> serialFreeRecord r -> rereadRecord r = r.
Proof.
  intros Hd Hv. assert (Hs : Forall (fun v => rereadVector v = v) (recordVectors r)) by (eapply Forall_impl; [exact Hv|apply rereadVector_same]).
  clear Hv. destruct r as [| | | |i|e|t|i ty|i|s k|t ty n vs|t o pk|t c o p|t s d r|t dir s|t c s d r p]; cbn [rereadRecord recordVectors] in *; try done.
  - by destruct (Hd i ty).
  - f_equal. induction Hs as [|v vs E _ IH]; cbn; [done|]. by rewrite E, IH.
  - rewrite !Forall_cons in Hs. by destruct Hs as (-> & _).
  - rewrite !Forall_cons in Hs. by destruct Hs as (-> & _).
  - rewrite !Forall_cons in Hs. by destruct Hs as (-> & -> & -> & _).
  - rewrite !Forall_cons in Hs. by destruct Hs as (-> & _).
  - rewrite !Forall_cons in Hs. by destruct Hs as (-> & -> & -> & -> & _).
Qed.

(** C19. Records of the write-ahead log are read back as they were written: the markers of
    transactions, created tables and catalog entries, alterations, sequence steps, inserted, deleted
    and updated rows with the values of their vectors; reading takes exactly the bytes of the record.
    The numbers of the record are in the ranges of their members, its types are well formed and its
    values are of types that have default values; default expressions and macro bodies consist of
    cases, function calls, literals, properties and variables, where a literal has no value of type
    SERIAL and nothing under a null (other expressions are not written or not read back).  Values of type
    SERIAL come back with the type INT64, and a dropped entry comes back as a dropped node table
    whatever it was; every other record comes back as it was. *)
Theorem records_serialized r : recordOK r ->
  (exists n, forall fuel, (n <= fuel)%nat -> codecR (serializeRecord r) (deserializeRecord fuel) (rereadRecord r)) /\
  (forall i ty, r = DropCatalogEntryRecord i ty -> rereadRecord r = DropCatalogEntryRecord i NODE_TABLE_ENTRY) /\
  ((forall i ty, r <> DropCatalogEntryRecord i ty) ->
   serialFreeRecord r -> rereadRecord r = r).
Proof.
  intros H. split; [by apply record_readable|]. split; [by intros i ty ->|apply rereadRecord_same].
Qed.

(** ** Examples *)

(** The insertion of two nodes with the keys 1 and 2. *)
Definition exVector : VectorData := mkVectorData exInt [newValue exInt 1; newValue exInt 2].
Lemma exRows_ok : vectorOK exVector.
Proof.
  split; [by repeat constructor|]. split; [by repeat constructor|]. split; [by vm_compute|].
  repeat constructor; (eapply valueOK_intro; [by repeat constructor|by repeat constructor|reflexivity|by repeat split|constructor]).
Qed.
Definition exInsertion : WALRecord := TableInsertionRecord 3 NODE_TABLE 2 [exVector].
Lemma exInsertion_ok : recordOK exInsertion.
Proof. split; [by vm_compute|]. split; [by vm_compute|]. split; [by vm_compute|]. constructor; [apply exRows_ok|constructor]. Qed.

Lemma records_serialized_witness :
  (exists n, forall fuel, (n <= fuel)%nat -> codecR (serializeRecord exInsertion) (deserializeRecord fuel) (rereadRecord exInsertion)) /\
  rereadRecord exInsertion = exInsertion.
Proof.
  destruct (records_serialized exInsertion exInsertion_ok) as (H & _ & Hsame). split; [exact H|]. apply Hsame; [discriminate|].
  by repeat constructor.
Defined.

(** A dropped sequence is replayed as a dropped node table. *)
Example dropped_sequence_reread :
  deserializeRecord 5 (snd (serializeRecord (DropCatalogEntryRecord 9 SEQUENCE_ENTRY) [])) = (Ok (DropCatalogEntryRecord 9 NODE_TABLE_ENTRY), []).
Proof. by vm_compute. Qed.
