(* ===== verification/ReaderScript.v ===== *)
(** * Deserializers on buffered files

    The components that read themselves back from a catalog or a log are written against
    [Deserializer] (src/include/common/serializer/deserializer.h), whose [read] goes to a reader of a file
    (src/common/serializer/buffered_file.cpp).  A deserializer sees its source only through the bytes that
    [read] gives it: it is the script of its calls of [read].  This file has the scripts of the
    deserializers that were written against a stream of bytes, runs scripts on a buffered file,
    and compares the two: as long as the file has the bytes, a buffered file is the stream. *)

From stdpp Require Import base numbers strings list.
From S2P Require Import Prelude Serializer Compression LogicalType Value ParsedExpression PropertyCollection SequenceEntry CatalogEntry BufferedFile WALRecord.
Local Open Scope Z_scope.

(** ** Scripts *)

Inductive Script (A : Type) : Type :=
| Done (o : outcome A)
| Call (n : nat) (k : bytes -> Script A).
Arguments Done {A} o.
Arguments Call {A} n k.

Fixpoint andThen {A B} (t : Script A) (f : A -> Script B) : Script B :=
  match t with
  | Done (Ok a) => f a
  | Done (Err e) => Done (Err e)
  | Call n k => Call n (fun bs => andThen (k bs) f)
  end.

Fixpoint onStream {A} (t : Script A) : Reader A :=
  match t with Done o => slift o | Call n k => bs <- read n ;; onStream (k bs) end.

(** What a deserializer does on every stream. *)
Record scripted {A} (d : Reader A) : Type := mkScripted { script : Script A; plays : forall src, d src = onStream script src }.
Arguments mkScripted {A d} script plays.
Arguments script {A d} s.
Arguments plays {A d} s src.

Lemma onStream_andThen {A B} (t : Script A) (f : A -> Script B) src : onStream (andThen t f) src = (x <- onStream t ;; onStream (f x)) src.
Proof.
  revert src. induction t as [[a|e]|n k IH]; intros src; cbn [andThen onStream]; [done|done|].
  unfold sbind at 1. unfold sbind at 2. unfold sbind at 1. destruct (read n src) as [[bs|e] rest]; [|done]. rewrite IH. done.
Qed.

Definition script_ret {A} (a : A) : scripted (sret a) := mkScripted (Done (Ok a)) (fun _ => eq_refl).
Definition script_throw {A} e : scripted (sthrow (A := A) e) := mkScripted (Done (Err e)) (fun _ => eq_refl).
Definition script_lift {A} (o : outcome A) : scripted (slift o) := mkScripted (Done o) (fun _ => eq_refl).
Lemma plays_read n src : read n src = onStream (Call n (fun bs => Done (Ok bs))) src.
Proof. cbn [onStream]. unfold sbind. by destruct (read n src) as [[bs|e] rest]. Qed.
Definition script_read n : scripted (read n) := mkScripted (Call n (fun bs => Done (Ok bs))) (plays_read n).
Lemma plays_bind {A B} (d : Reader A) (k : A -> Reader B) (sd : scripted d) (sk : forall a, scripted (k a)) src :
  (x <- d ;; k x) src = onStream (andThen (script sd) (fun a => script (sk a))) src.
Proof.
  rewrite onStream_andThen. unfold sbind. rewrite (plays sd). destruct (onStream (script sd) src) as [[a|e] rest]; [apply plays|done].
Qed.
Definition script_bind {A B} (d : Reader A) (k : A -> Reader B) (sd : scripted d) (sk : forall a, scripted (k a)) : scripted (x <- d ;; k x) :=
  mkScripted (andThen (script sd) (fun a => script (sk a))) (plays_bind d k sd sk).
Definition script_array {A} (d : Reader A) n (sd : scripted d) : scripted (deserializeArray d n).
Proof.
  induction n as [|n IH]; cbn [deserializeArray]; [apply script_ret|]. apply script_bind; [exact sd|]. intros a. apply script_bind; [exact IH|]. intros l. apply script_ret.
Defined.

Create HintDb scripts.
#[export] Hint Resolve script_ret script_throw script_lift script_read script_array : scripts.
(** Go through a reader call by call. *)
Ltac script_reader :=
  repeat first
    [ solve [auto with scripts]
    | apply script_bind; [|intros ?]
    | match goal with |- scripted (match ?x with _ => _ end) => destruct x end ].

(** ** The deserializers *)

Definition script_U n : scripted (deserializeU n).
Proof. unfold deserializeU. script_reader. Defined.
#[export] Hint Resolve script_U : scripts.
Definition script_S n : scripted (deserializeS n).
Proof. unfold deserializeS. script_reader. Defined.
Definition script_Bool : scripted deserializeBool.
Proof. unfold deserializeBool. script_reader. Defined.
Definition script_String : scripted deserializeString.
Proof. unfold deserializeString. script_reader. Defined.
Definition script_Vector {A} (d : Reader A) (sd : scripted d) : scripted (deserializeVector d).
Proof. unfold deserializeVector. script_reader. Defined.
#[export] Hint Resolve script_S script_Bool script_String script_Vector : scripts.
Definition script_Optional {A} (d : Reader A) (sd : scripted d) : scripted (deserializeOptionalValue d).
Proof. unfold deserializeOptionalValue. script_reader. Defined.
Definition script_enum {A} (values : list A) byte : scripted (readEnum values byte).
Proof. unfold readEnum. script_reader. Defined.
Definition script_name : scripted deserializeName.
Proof. unfold deserializeName. script_reader. Defined.
#[export] Hint Resolve script_Optional script_enum script_name : scripts.

Definition script_type fuel : scripted (deserializeType fuel).
Proof.
  induction fuel as [|fuel IH]; cbn [deserializeType]; [script_reader|]. apply script_bind; [script_reader|]. intros id. apply script_bind; [script_reader|]. intros p.
  apply script_bind; [|script_reader]. assert (scripted (n <- deserializeName ;; c <- deserializeType fuel ;; sret (n, c))) by script_reader. destruct p; script_reader.
Defined.
#[export] Hint Resolve script_type : scripts.
Definition script_val fuel : scripted (deserializeVal fuel).
Proof. induction fuel as [|fuel IH]; cbn [deserializeVal]; script_reader. Defined.
#[export] Hint Resolve script_val : scripts.
Definition script_expr fuel : scripted (deserializeExpr fuel).
Proof.
  induction fuel as [|fuel IH]; cbn [deserializeExpr]; [script_reader|]. do 4 (apply script_bind; [script_reader|intros ?]). apply script_bind; [|script_reader].
  assert (scripted (w <- deserializeExpr fuel ;; t <- deserializeExpr fuel ;; sret (w, t))) by script_reader.
  unfold deserializeSubclass, deserializeCase, deserializeCaseAlternative, deserializeFunction, deserializeLiteral, deserializePropertyExpression, deserializeVariableExpression.
  script_reader.
Defined.
#[export] Hint Resolve script_expr : scripts.
Definition script_rest fuel : scripted (deserializeRest fuel).
Proof. unfold deserializeRest. script_reader. Defined.
#[export] Hint Resolve script_rest : scripts.
Definition script_property fuel : scripted (deserializeProperty fuel).
Proof. unfold deserializeProperty, deserializeDefinition. script_reader. Defined.
#[export] Hint Resolve script_property : scripts.
Definition script_multiplicity : scripted readMultiplicity.
Proof. apply script_enum. Defined.
Definition script_tableType : scripted readTableType.
Proof. apply script_enum. Defined.
#[export] Hint Resolve script_multiplicity script_tableType : scripts.
Definition script_create fuel : scripted (deserializeCreate fuel).
Proof.
  induction fuel as [|fuel IH]; cbn [deserializeCreate]; [script_reader|]. do 4 (apply script_bind; [script_reader|intros ?]). apply script_bind; [|script_reader].
  unfold deserializeCreateExtra, deserializeNodeTableInfo, deserializeRelTableInfo, deserializeRelTableGroupInfo, deserializeRdfGraphInfo. script_reader.
Defined.
Definition script_sequence : scripted deserializeSequence.
Proof. unfold deserializeSequence. script_reader. Defined.
Definition script_macro fuel : scripted (deserializeMacro fuel).
Proof. assert (scripted (k <- deserializeString ;; v <- deserializeExpr fuel ;; sret (k, v))) by script_reader. unfold deserializeMacro. script_reader. Defined.
Definition script_collection fuel : scripted (PropertyCollection.deserialize (deserializeRest fuel)).
Proof. assert (scripted (deserializeDefinition (deserializeRest fuel))) by (unfold deserializeDefinition; script_reader). unfold deserialize. script_reader. Defined.
#[export] Hint Resolve script_create script_sequence script_macro script_collection : scripts.
Definition script_tableBody t : scripted (deserializeTableBody t).
Proof. unfold deserializeTableBody, deserializeNodeTable, deserializeRelTable, deserializeRelGroup, deserializeRdfGraph. script_reader. Defined.
#[export] Hint Resolve script_tableBody : scripts.
Definition script_entry fuel : scripted (deserializeEntry fuel).
Proof.
  unfold deserializeEntry. do 4 (apply script_bind; [script_reader|intros ?]). apply script_bind; [|script_reader].
  unfold deserializeEntryBody, deserializeTableEntry. script_reader.
Defined.
Definition script_alter fuel : scripted (deserializeAlter fuel).
Proof. unfold deserializeAlter. script_reader. Defined.
Definition script_vector fuel : scripted (deserializeVectorData fuel).
Proof. unfold deserializeVectorData. script_reader. Defined.
#[export] Hint Resolve script_entry script_alter script_vector : scripts.
Definition script_record fuel : scripted (deserializeRecord fuel).
Proof.
  unfold deserializeRecord. apply script_bind; [script_reader|]. intros t.
  unfold deserializeMembers, deserializeCreateTableEntry, deserializeCreateCatalogEntry, deserializeCopyTable, deserializeDropCatalogEntry, deserializeUpdateSequence,
    deserializeTableInsertion, deserializeNodeDeletion, deserializeNodeUpdate, deserializeRelDeletion, deserializeRelDetachDelete, deserializeRelUpdate.
  script_reader.
Defined.

(** ** On a stream *)

Definition pastEnd : exn := RuntimeException "Reading past the end of the file".

(** The source has the bytes that the script asks for. *)
Fixpoint enough {A} (t : Script A) (src : bytes) : Prop :=
  match t with Done _ => True | Call n k => (n <= length src)%nat /\ enough (k (take n src)) (drop n src) end.
(** No call asks for more than [size] bytes. *)
Fixpoint shortCalls {A} (size : nat) (t : Script A) (src : bytes) : Prop :=
  match t with Done _ => True | Call n k => (n <= size)%nat /\ ((n <= length src)%nat -> shortCalls size (k (take n src)) (drop n src)) end.

Lemma read_enough n src : (n <= length src)%nat -> read n src = (Ok (take n src), drop n src).
Proof. intros Hn. unfold read. srun. by rewrite decide_True. Qed.
Lemma read_short n src : ~ (n <= length src)%nat -> read n src = (Err pastEnd, src).
Proof. intros Hn. unfold read. srun. by rewrite decide_False. Qed.

Lemma ok_enough {A} (t : Script A) src a rest : onStream t src = (Ok a, rest) -> enough t src.
Proof.
  revert src. induction t as [o|n k IH]; intros src E; cbn [enough onStream] in *; [done|].
  destruct (decide (n <= length src)%nat) as [Hn|Hn]; [|by rewrite (sbind_err _ _ _ _ _ (read_short n src Hn)) in E].
  rewrite (sbind_ok _ _ _ _ _ (read_enough n src Hn)) in E. split; [done|]. by eapply IH.
Qed.

(** Calls that find enough bytes in a source are not larger than it, also when it is cut or extended. *)
Lemma cut_short {A} (t : Script A) p q size : enough t (p ++ q) -> (length (p ++ q) <= size)%nat -> shortCalls size t p.
Proof.
  revert p. induction t as [o|n k IH]; intros p He Hl; cbn [enough shortCalls] in *; [done|]. destruct He as [Hn He]. split; [lia|].
  intros Hp. rewrite take_app_le, drop_app_le in He by done. apply (IH _ _ He). rewrite length_app, length_drop in *. lia.
Qed.

Lemma enough_extend {A} (t : Script A) p q size : enough t p -> (length p <= size)%nat -> shortCalls size t (p ++ q).
Proof.
  revert p. induction t as [o|n k IH]; intros p He Hl; cbn [enough shortCalls] in *; [done|]. destruct He as [Hn He]. split; [lia|].
  intros _. rewrite take_app_le, drop_app_le by done. apply IH; [done|]. rewrite length_drop. lia.
Qed.

(** A script that needs bytes which are cut off does not have enough. *)
Lemma cut_not_enough {A} (t : Script A) p q a : onStream t (p ++ q) = (Ok a, []) -> q <> [] -> ~ enough t p.
Proof.
  revert p. induction t as [o|n k IH]; intros p E Hq; cbn [enough onStream] in *.
  - intros _. destruct o; [|done]. injection E as _ E. by apply app_eq_nil in E as [_ ->].
  - intros [Hn He]. rewrite (sbind_ok _ _ _ _ _ (read_enough n (p ++ q) ltac:(rewrite length_app; lia))) in E.
    rewrite take_app_le, drop_app_le in E by done. by eapply IH.
Qed.

(** ** On a buffered file *)

Section OnFile.
Context (BUFFER_SIZE : nat) (memory : nat -> bytes) (HB : (0 < BUFFER_SIZE)%nat) (Hmem : forall n, length (memory n) = n).

(** [memory n] is what lies in the memory of the caller that a call fills. *)
Fixpoint onFile {A} (t : Script A) : M BufferedFileReader A :=
  match t with Done o => slift o | Call n k => bs <- readData BUFFER_SIZE (memory n) ;; onFile (k bs) end.

Lemma buffered_call r data : (length data <= BUFFER_SIZE)%nat -> (rBufferOffset r + length data <= bufferSize r)%nat ->
  exists r', readData BUFFER_SIZE data r = (Ok (take (length data) (drop (rBufferOffset r) (rBuffer r))), r') /\
    rFileOffset r' = rFileOffset r /\ fileSize r' = fileSize r.
Proof.
  intros Hb Hn. unfold readData. rewrite (sbind_ok _ _ r r r) by done. cbv zeta. rewrite decide_False by lia. rewrite decide_True by done. by eexists.
Qed.

(** A deserializer finds in a buffered file what it finds in the stream of the file's bytes. *)
Lemma onFile_stream {A} (t : Script A) r : wfReader BUFFER_SIZE r -> enough t (unread r) ->
  exists r', onFile t r = (fst (onStream t (unread r)), r') /\ wfReader BUFFER_SIZE r' /\ unread r' = snd (onStream t (unread r)) /\
    (forall size, shortCalls BUFFER_SIZE t (unread r) -> aligned BUFFER_SIZE size r -> aligned BUFFER_SIZE size r').
Proof.
  revert r. induction t as [o|n k IH]; intros r Hw He; cbn [enough shortCalls onFile onStream] in *.
  - exists r. by destruct o.
  - destruct He as [Hn He]. destruct (readData_spec BUFFER_SIZE 1 HB Nat.lt_0_1 r (memory n) Hw) as (r1 & E1 & W1 & U1); [by rewrite Hmem|].
    rewrite Hmem in E1, U1. rewrite (sbind_ok _ _ _ _ _ E1), (sbind_ok _ _ _ _ _ (read_enough n _ Hn)). rewrite <- U1 in *.
    destruct (IH _ r1 W1 He) as (r2 & E2 & W2 & U2 & A2). exists r2. split; [done|]. split; [done|]. split; [done|]. intros size [Hb Hs] Ha.
    apply A2; [by apply Hs|]. destruct (readData_aligned BUFFER_SIZE 1 HB Nat.lt_0_1 size r (memory n) Hw Ha) as (bs & r3 & E3 & A3); [by rewrite Hmem..|].
    rewrite E1 in E3. by injection E3 as _ <-.
Qed.

(** On the last page of a file, a deserializer that needs more than what is left throws. *)
Lemma onFile_torn {A} (t : Script A) r : wfReader BUFFER_SIZE r -> rFileOffset r = fileSize r -> shortCalls BUFFER_SIZE t (unread r) ->
  ~ enough t (unread r) -> exists r', onFile t r = (Err pastEnd, r').
Proof.
  revert r. induction t as [o|n k IH]; intros r Hw Hl Hs He; cbn [enough shortCalls onFile] in *; [done|]. destruct Hs as [Hn Hs].
  destruct (decide (n <= length (unread r))%nat) as [Hle|Hgt].
  - destruct (readData_spec BUFFER_SIZE 1 HB Nat.lt_0_1 r (memory n) Hw) as (r1 & E1 & W1 & U1); [by rewrite Hmem|].
    rewrite Hmem in E1, U1. rewrite (sbind_ok _ _ _ _ _ E1). apply IH; [done| |rewrite U1; by apply Hs|rewrite U1; tauto].
    pose proof (length_unread BUFFER_SIZE 1 HB Nat.lt_0_1 r Hw). destruct (r_buffer _ _ Hw).
    destruct (buffered_call r (memory n)) as (bs & E & F1 & F2); [rewrite Hmem; lia..|]. rewrite E in E1. injection E1 as _ <-. congruence.
  - destruct (readData_torn BUFFER_SIZE 1 HB Nat.lt_0_1 r (memory n) Hw Hl) as (r' & E); [rewrite Hmem; lia|].
    exists r'. by rewrite (sbind_err _ _ _ _ _ E).
Qed.
End OnFile.
