(* ===== verification/WAL.v ===== *)
(** * The write-ahead log (src/storage/wal/wal.cpp, src/include/storage/wal/wal.h)

    The log appends records to a buffered file; a commit and a checkpoint also flush it.  The calls
    of [write] that serialize a record are a parameter: only their concatenation, the bytes that the
    serializer writes for the record before it returns or throws, is known.  The buffer does not
    outlive a crash of the process, and what was not synced may not outlive a crash of the machine. *)

From stdpp Require Import base numbers strings list gmap.
From S2P Require Import Prelude Serializer Compression LogicalType Value ParsedExpression PropertyCollection CatalogEntry WALRecord BufferedFile.
Local Open Scope Z_scope.

Definition recordBytes (r : WALRecord) : bytes := snd (serializeRecord r []).

Section WAL.
Context (BUFFER_SIZE maxBytes : nat) (calls : WALRecord -> list bytes).

(** [synced] is what of the file the last [syncFile] has made durable. *)
Record WAL := mkWAL { bufferedWriter : BufferedFileWriter; updatedTables : gset Z; synced : bytes }.

(** The constructor, on a file that may have records that were not replayed. *)
Definition openWAL (file : bytes) : WAL := mkWAL (mkWriter file (replicate BUFFER_SIZE 0) (length file) 0) ∅ [].

Definition onWriter {A} (m : M BufferedFileWriter A) : M WAL A :=
  szoom bufferedWriter (fun w wal => mkWAL w (updatedTables wal) (synced wal)) m.

(** [KU_ASSERT(walRecord.type != INVALID_RECORD)] holds for every record here.  The record is serialized
    into the buffered file: if that throws, what was written before stays there. *)
Definition addNewWALRecordNoLock (r : WALRecord) : M WAL unit :=
  onWriter (writeAll BUFFER_SIZE maxBytes (calls r)) ;;; slift (fst (serializeRecord r [])).
Definition syncFile : M WAL unit := smodify (fun wal => mkWAL (bufferedWriter wal) (updatedTables wal) (wFile (bufferedWriter wal))).
Definition flushAllPages : M WAL unit := onWriter (flush BUFFER_SIZE maxBytes) ;;; syncFile.
Definition addToUpdatedTables (t : Z) : M WAL unit := smodify (fun wal => mkWAL (bufferedWriter wal) ({[t]} ∪ updatedTables wal) (synced wal)).

Definition logBeginTransaction : M WAL unit := addNewWALRecordNoLock BeginTransactionRecord.
Definition logAndFlushCommit : M WAL unit := addNewWALRecordNoLock CommitRecord ;;; flushAllPages.
Definition logRollback : M WAL unit := addNewWALRecordNoLock RollbackRecord.
Definition logAndFlushCheckpoint : M WAL unit := addNewWALRecordNoLock CheckpointRecord ;;; flushAllPages.
Definition logCreateTableEntryRecord (i : BoundCreateTableInfo) : M WAL unit := addNewWALRecordNoLock (CreateTableEntryRecord i).
Definition logCreateCatalogEntryRecord (e : CatalogEntry) : M WAL unit := addNewWALRecordNoLock (CreateCatalogEntryRecord e).
Definition logDropCatalogEntryRecord (entryID : Z) (t : CatalogEntryType) : M WAL unit := addNewWALRecordNoLock (DropCatalogEntryRecord entryID t).
Definition logAlterTableEntryRecord (i : BoundAlterInfo) : M WAL unit := addNewWALRecordNoLock (AlterTableEntryRecord i).
Definition logTableInsertion (tableID : Z) (t : TableType) (numRows : Z) (vs : list VectorData) : M WAL unit :=
  addNewWALRecordNoLock (TableInsertionRecord tableID t numRows vs).
Definition logNodeDeletion (tableID nodeOffset : Z) (pk : VectorData) : M WAL unit := addNewWALRecordNoLock (NodeDeletionRecord tableID nodeOffset pk).
Definition logNodeUpdate (tableID columnID nodeOffset : Z) (v : VectorData) : M WAL unit :=
  addNewWALRecordNoLock (NodeUpdateRecord tableID columnID nodeOffset v).
Definition logRelDelete (tableID : Z) (src dst rel : VectorData) : M WAL unit := addNewWALRecordNoLock (RelDeletionRecord tableID src dst rel).
Definition logRelDetachDelete (tableID : Z) (d : RelDataDirection) (src : VectorData) : M WAL unit :=
  addNewWALRecordNoLock (RelDetachDeleteRecord tableID d src).
Definition logRelUpdate (tableID columnID : Z) (src dst rel v : VectorData) : M WAL unit :=
  addNewWALRecordNoLock (RelUpdateRecord tableID columnID src dst rel v).
Definition logCopyTableRecord (tableID : Z) : M WAL unit := addToUpdatedTables tableID ;;; addNewWALRecordNoLock (CopyTableRecord tableID).
Definition logUpdateSequenceRecord (sequenceID kCount : Z) : M WAL unit := addNewWALRecordNoLock (UpdateSequenceRecord sequenceID kCount).

(** The file is truncated to nothing; until it is synced again nothing of it is sure. *)
Definition clearWAL : M WAL unit :=
  onWriter (smodify (fun w => mkWriter [] (wBuffer w) (wFileOffset w) (wBufferOffset w)) ;;; resetOffsets) ;;;
  smodify (fun wal => mkWAL (bufferedWriter wal) ∅ []).

(** The call that logs a record. *)
Definition log (r : WALRecord) : M WAL unit :=
  match r with
  | BeginTransactionRecord => logBeginTransaction
  | CommitRecord => logAndFlushCommit
  | RollbackRecord => logRollback
  | CheckpointRecord => logAndFlushCheckpoint
  | CreateTableEntryRecord i => logCreateTableEntryRecord i
  | CreateCatalogEntryRecord e => logCreateCatalogEntryRecord e
  | CopyTableRecord t => logCopyTableRecord t
  | DropCatalogEntryRecord i t => logDropCatalogEntryRecord i t
  | AlterTableEntryRecord i => logAlterTableEntryRecord i
  | UpdateSequenceRecord s k => logUpdateSequenceRecord s k
  | TableInsertionRecord t ty n vs => logTableInsertion t ty n vs
  | NodeDeletionRecord t o v => logNodeDeletion t o v
  | NodeUpdateRecord t c o v => logNodeUpdate t c o v
  | RelDeletionRecord t s d r => logRelDelete t s d r
  | RelDetachDeleteRecord t d s => logRelDetachDelete t d s
  | RelUpdateRecord t c s d r v => logRelUpdate t c s d r v
  end.
Fixpoint logAll (rs : list WALRecord) : M WAL unit := match rs with [] => sret tt | r :: rs => log r ;;; logAll rs end.

(** What a crash of the process leaves, and what the log would have if it were flushed.  A crash of the
    machine leaves at least [synced]. *)
Definition onDisk (wal : WAL) : bytes := wFile (bufferedWriter wal).
Definition logged (wal : WAL) : bytes := written (bufferedWriter wal).
Definition logBytes (rs : list WALRecord) : bytes := concat (recordBytes <$> rs).

(** ** The log on disk *)

Context (HB : (0 < BUFFER_SIZE)%nat) (Hmax : (0 < maxBytes)%nat).
Context (Hcalls : forall r, concat (calls r) = recordBytes r).

Definition flushes (r : WALRecord) : bool := match r with CommitRecord | CheckpointRecord => true | _ => false end.

(** [wal'] has the records [rs] more than [wal]. *)
Definition grows (wal wal' : WAL) (rs : list WALRecord) : Prop := extends BUFFER_SIZE (bufferedWriter wal) (bufferedWriter wal') (logBytes rs).

(** Records that the serializer does not reject. *)
Definition serializable (r : WALRecord) : Prop := fst (serializeRecord r []) = Ok tt.

Lemma addRecord_spec r wal : serializable r -> wfWriter BUFFER_SIZE (bufferedWriter wal) ->
  exists wal', addNewWALRecordNoLock r wal = (Ok tt, wal') /\ grows wal wal' [r] /\ synced wal' = synced wal.
Proof.
  intros Hr Hw. destruct (writeAll_spec BUFFER_SIZE maxBytes HB Hmax (calls r) _ Hw) as (w' & E & X).
  exists (mkWAL w' (updatedTables wal) (synced wal)). unfold addNewWALRecordNoLock.
  erewrite sbind_ok; [|unfold onWriter, szoom; by rewrite E]. unfold serializable in Hr. rewrite Hr. split; [done|]. split; [|done].
  unfold grows, logBytes. cbn. by rewrite app_nil_r, <- Hcalls.
Qed.

Lemma flushAllPages_spec wal : wfWriter BUFFER_SIZE (bufferedWriter wal) ->
  exists wal', flushAllPages wal = (Ok tt, wal') /\ grows wal wal' [] /\ onDisk wal' = logged wal' /\ synced wal' = onDisk wal'.
Proof.
  intros Hw. destruct (writer_flushed BUFFER_SIZE maxBytes HB Hmax _ Hw) as (w' & E & X & F & O).
  exists (mkWAL w' (updatedTables wal) (wFile w')). unfold flushAllPages. erewrite sbind_ok; [|unfold onWriter, szoom; by rewrite E].
  split; [done|]. split; [done|]. unfold onDisk, logged, written. cbn. by rewrite O, firstn_O, app_nil_r.
Qed.

Lemma grows_app wal wal1 wal2 rs rs' : grows wal wal1 rs -> grows wal1 wal2 rs' -> grows wal wal2 (rs ++ rs').
Proof. intros H1 H2. unfold grows, logBytes. rewrite fmap_app, concat_app. by eapply extends_trans. Qed.

(** What is synced stays in the file, and syncing only adds to it. *)
Definition safe (wal : WAL) : Prop := synced wal `prefix_of` onDisk wal.

Lemma add_and_flush r wal : serializable r -> wfWriter BUFFER_SIZE (bufferedWriter wal) ->
  exists wal', (addNewWALRecordNoLock r ;;; flushAllPages) wal = (Ok tt, wal') /\ grows wal wal' [r] /\
    onDisk wal' = logged wal' /\ synced wal' = onDisk wal'.
Proof.
  intros Hr Hw. destruct (addRecord_spec r wal Hr Hw) as (wal1 & E1 & X1 & _).
  destruct (flushAllPages_spec wal1 (proj1 X1)) as (wal2 & E2 & X2 & D). exists wal2.
  rewrite (sbind_ok _ _ _ _ _ E1). split; [done|]. split; [|done]. exact (grows_app _ _ _ _ _ X1 X2).
Qed.

Lemma log_spec r wal : serializable r -> wfWriter BUFFER_SIZE (bufferedWriter wal) -> safe wal ->
  exists wal', log r wal = (Ok tt, wal') /\ grows wal wal' [r] /\ safe wal' /\ synced wal `prefix_of` synced wal' /\
    (flushes r = true -> onDisk wal' = logged wal' /\ synced wal' = onDisk wal').
Proof.
  intros Hs Hw Hsafe.
  assert (Hadd : forall wal0, bufferedWriter wal0 = bufferedWriter wal -> synced wal0 = synced wal -> exists wal', addNewWALRecordNoLock r wal0 = (Ok tt, wal') /\
    grows wal wal' [r] /\ safe wal' /\ synced wal `prefix_of` synced wal').
  { intros wal0 Eb Es. destruct (addRecord_spec r wal0 Hs) as (wal1 & E1 & X1 & Y1); [by rewrite Eb|]. unfold grows in X1. rewrite Eb in X1.
    exists wal1. split; [done|]. split; [done|]. unfold safe. rewrite Y1, Es. split; [|done]. etrans; [exact Hsafe|apply X1]. }
  assert (Hflush : exists wal', (addNewWALRecordNoLock r ;;; flushAllPages) wal = (Ok tt, wal') /\ grows wal wal' [r] /\ safe wal' /\
    synced wal `prefix_of` synced wal' /\ onDisk wal' = logged wal' /\ synced wal' = onDisk wal').
  { destruct (add_and_flush r wal Hs Hw) as (wal' & E & X & D & S). exists wal'. unfold safe. rewrite S.
    split_and!; try done. etrans; [exact Hsafe|apply X]. }
  destruct r; cbn [log flushes]; try (destruct (Hadd wal eq_refl eq_refl) as (wal' & E & X & S & P); exists wal'; split_and!; done);
    try (destruct Hflush as (wal' & E & X & S & P & D); exists wal'; split_and!; done).
  destruct (Hadd (mkWAL (bufferedWriter wal) ({[tableID]} ∪ updatedTables wal) (synced wal)) eq_refl eq_refl) as (wal' & E & X & S & P).
  exists wal'. unfold logCopyTableRecord, addToUpdatedTables, sbind, smodify. by rewrite E.
Qed.

Lemma logAll_spec rs wal : Forall serializable rs -> wfWriter BUFFER_SIZE (bufferedWriter wal) -> safe wal ->
  exists wal', logAll rs wal = (Ok tt, wal') /\ grows wal wal' rs /\ safe wal' /\ synced wal `prefix_of` synced wal'.
Proof.
  intros Hrs. revert wal. induction Hrs as [|r rs Hr _ IH]; intros wal Hw Hs; cbn [logAll].
  - exists wal. split; [done|]. split; [|done]. unfold grows, extends, logBytes. cbn. by rewrite app_nil_r.
  - destruct (log_spec r wal Hr Hw Hs) as (wal1 & E1 & X1 & S1 & P1 & _). destruct (IH wal1 (proj1 X1) S1) as (wal2 & E2 & X2 & S2 & P2).
    exists wal2. rewrite (sbind_ok _ _ _ _ _ E1). split; [done|]. split; [exact (grows_app _ _ _ [r] rs X1 X2)|]. split; [done|by etrans].
Qed.

Lemma logAll_app rs rs' wal : logAll (rs ++ rs') wal = (logAll rs ;;; logAll rs') wal.
Proof.
  revert wal. induction rs as [|r rs IH]; intros wal; cbn [logAll app]; [done|].
  unfold sbind. destruct (log r wal) as [[[]|e] wal1]; [|done]. rewrite IH. done.
Qed.

Lemma log_on_disk old before r after :
  flushes r = true -> Forall serializable (before ++ r :: after) ->
  exists wal, logAll (before ++ r :: after) (openWAL old) = (Ok tt, wal) /\
    logged wal = old ++ logBytes (before ++ r :: after) /\
    old ++ logBytes (before ++ [r]) `prefix_of` synced wal /\ synced wal `prefix_of` onDisk wal /\ onDisk wal `prefix_of` logged wal /\
    (after = [] -> synced wal = old ++ logBytes (before ++ [r]) /\ onDisk wal = synced wal).
Proof.
  intros Hr [Hb [Hsr Ha]%Forall_cons]%Forall_app.
  assert (H0 : wfWriter BUFFER_SIZE (bufferedWriter (openWAL old))) by exact (wf_newWriter BUFFER_SIZE maxBytes HB Hmax old).
  destruct (logAll_spec before (openWAL old) Hb H0 (prefix_nil _)) as (w1 & E1 & X1 & S1 & _).
  destruct (log_spec r w1 Hsr (proj1 X1) S1) as (w2 & E2 & X2 & S2 & _ & D). destruct (D Hr) as [D1 D2].
  pose proof (grows_app _ _ _ _ _ X1 X2) as X12.
  destruct (logAll_spec after w2 Ha (proj1 X2) S2) as (w3 & E3 & X3 & S3 & P3). pose proof (grows_app _ _ _ _ _ X12 X3) as X.
  assert (L : forall w rs, grows (openWAL old) w rs -> logged w = old ++ logBytes rs).
  { intros w rs (_ & E & _). unfold logged. rewrite E. unfold written. cbn. by rewrite app_nil_r. }
  exists w3. split; [|split; [|split; [|split; [|split]]]].
  - rewrite logAll_app, (sbind_ok _ _ _ _ _ E1). cbn [logAll]. by rewrite (sbind_ok _ _ _ _ _ E2).
  - rewrite (L w3 _ X), <- app_assoc. done.
  - by rewrite <- (L w2 _ X12), <- D1, <- D2.
  - done.
  - unfold onDisk, logged, written. by apply prefix_app_r.
  - intros ->. cbn in E3. injection E3 as <-. by rewrite D2, D1, (L w2 _ X12).
Qed.

(** C4. Commits are durable and the log only grows.  Whatever was in the file, if the serializer rejects
    none of the records (it throws for the parameters and subqueries in the body of a macro), every
    call succeeds.  Once a commit (or a checkpoint) was logged, the file has been synced with the old
    contents and all records up to and including it, byte for byte.  Records that are logged later
    only add to that, in order: the synced contents, which survive a crash of the machine, are a prefix
    of the file, which survives a crash of the process, and the file is a prefix of the log. *)
Theorem log_durable old before r after :
  flushes r = true -> Forall serializable (before ++ r :: after) ->
  exists wal, logAll (before ++ r :: after) (openWAL old) = (Ok tt, wal) /\
    logged wal = old ++ logBytes (before ++ r :: after) /\
    old ++ logBytes (before ++ [r]) `prefix_of` synced wal /\ synced wal `prefix_of` onDisk wal /\ onDisk wal `prefix_of` logged wal /\
    (after = [] -> synced wal = old ++ logBytes (before ++ [r]) /\ onDisk wal = synced wal).
Proof. apply log_on_disk. Qed.

(** Clearing leaves an empty log that can be appended to. *)
Lemma clearWAL_spec wal : wfWriter BUFFER_SIZE (bufferedWriter wal) ->
  exists wal', clearWAL wal = (Ok tt, wal') /\ onDisk wal' = [] /\ logged wal' = [] /\ updatedTables wal' = ∅ /\ wfWriter BUFFER_SIZE (bufferedWriter wal').
Proof. intros [Hl Ho He]. eexists. split; [reflexivity|]. split_and!; [done|done|done|]. split; cbn; [done|lia|done]. Qed.
End WAL.

(** ** Example *)

(** A page of three bytes: the first record fills it only in part, the commit flushes it. *)
Lemma log_durable_witness :
  let rs := [BeginTransactionRecord; CopyTableRecord 7; CommitRecord; BeginTransactionRecord; CopyTableRecord 8] in
  exists wal, logAll 3 100 (fun r => [recordBytes r]) rs (openWAL 3 [9]) = (Ok tt, wal) /\
    logged wal = [9] ++ logBytes rs /\
    [9; 1; 13; 7; 0; 0; 0; 0; 0; 0; 0; 2] `prefix_of` synced wal /\ synced wal `prefix_of` onDisk wal /\ onDisk wal `prefix_of` logged wal.
Proof.
  destruct (log_durable 3 100 (fun r => [recordBytes r]) ltac:(lia) ltac:(lia) (fun r => app_nil_r _) [9]
    [BeginTransactionRecord; CopyTableRecord 7] CommitRecord [BeginTransactionRecord; CopyTableRecord 8] eq_refl) as (wal & E & L & P & Q & R & _).
  { repeat constructor; by vm_compute. }
  exists wal. exact (conj E (conj L (conj P (conj Q R)))).
Defined.
