(* ===== verification/WALReplayer.v ===== *)
(** * Recovery from the write-ahead log (src/storage/wal_replayer.cpp, and [StorageManager::recover] in
      src/storage/storage_manager.cpp)

    When a database is opened, the records of the log are replayed in recovery transactions.  What a
    record does to the catalog and the tables is behind the interface [Recovery], as one operation
    for each kind of call the replayer makes; [RecoveryLaws] is what the replayer relies on: an
    operation works on the state that only its transaction sees, a commit makes that state the one
    that later transactions see, a rollback forgets it.  The log is read through a buffered file;
    [fuel] bounds the recursion of the deserializers, and [memory n] is what was in the [n] bytes of
    memory that a call of [read] fills. *)

From stdpp Require Import base numbers strings list.
From S2P Require Import Prelude Serializer Compression LogicalType Value ParsedExpression PropertyCollection SequenceEntry CatalogEntry BufferedFile WALRecord ReaderScript WAL.
Local Open Scope Z_scope.

(** ** What the replayer calls *)

Inductive Operation :=
| OpCreateTable (info : BoundCreateTableInfo)
| OpAddScalarMacroFunction (name : string) (m : ScalarMacroFunction)
| OpCreateSequence (name : string) (s : SequenceData)
| OpCreateType (name : string) (t : LogicalType)
| OpDropTableEntry (entryID : Z)
| OpDropSequence (entryID : Z)
| OpAlterTable (info : BoundAlterInfo)
| OpInsertNodes (tableID : Z) (vectors : list VectorData)
| OpInsertRels (tableID : Z) (vectors : list VectorData)
| OpDeleteNode (tableID nodeOffset : Z) (pkVector : VectorData)
| OpUpdateNode (tableID columnID nodeOffset : Z) (propertyVector : VectorData)
| OpDeleteRel (tableID : Z) (src dst rel : VectorData)
| OpDetachDeleteRel (tableID : Z) (direction : RelDataDirection) (src : VectorData)
| OpUpdateRel (tableID columnID : Z) (src dst rel propertyVector : VectorData)
| OpNextKVal (sequenceID kCount : Z).

Class Recovery (DB : Type) := {
  hasActiveTransaction : DB -> bool;
  beginRecoveryTransaction : M DB unit;
  commit : M DB unit;
  rollback : M DB unit;
  execute : Operation -> M DB unit;
}.

(** [replayCreateCatalogEntryRecord], [replayDropCatalogEntryRecord], [replayTableInsertionRecord]. *)
Definition replayCreateCatalogEntry (e : CatalogEntry) : outcome (option Operation) :=
  match entryBody e with
  | ScalarMacroCatalogEntry m => Ok (Some (OpAddScalarMacroFunction (entryName e) m))
  | SequenceCatalogEntry s => Ok (Some (OpCreateSequence (entryName e) s))
  | TypeCatalogEntry t => Ok (Some (OpCreateType (entryName e) t))
  | TableCatalogEntry _ _ _ => Err InternalException
  end.
Definition replayDropCatalogEntry (entryID : Z) (t : CatalogEntryType) : outcome (option Operation) :=
  match t with
  | NODE_TABLE_ENTRY | REL_TABLE_ENTRY | REL_GROUP_ENTRY | RDF_GRAPH_ENTRY => Ok (Some (OpDropTableEntry entryID))
  | SEQUENCE_ENTRY => Ok (Some (OpDropSequence entryID))
  | _ => Err InternalException
  end.
Definition replayTableInsertion (tableID : Z) (t : TableType) (vs : list VectorData) : outcome (option Operation) :=
  match t with
  | NODE_TABLE => Ok (Some (OpInsertNodes tableID vs))
  | REL_TABLE => Ok (Some (OpInsertRels tableID vs))
  | _ => Err (RuntimeException "Invalid table type for insertion replay in WAL record.")
  end.

(** What a record makes the replayer do inside a transaction; [None] is nothing. *)
Definition operationOf (r : WALRecord) : outcome (option Operation) :=
  match r with
  | CreateTableEntryRecord i => Ok (Some (OpCreateTable i))
  | CreateCatalogEntryRecord e => replayCreateCatalogEntry e
  | TableInsertionRecord t ty _ vs => replayTableInsertion t ty vs
  | NodeDeletionRecord t o v => Ok (Some (OpDeleteNode t o v))
  | NodeUpdateRecord t c o v => Ok (Some (OpUpdateNode t c o v))
  | RelDeletionRecord t s d r => Ok (Some (OpDeleteRel t s d r))
  | RelDetachDeleteRecord t d s => Ok (Some (OpDetachDeleteRel t d s))
  | RelUpdateRecord t c s d r v => Ok (Some (OpUpdateRel t c s d r v))
  | CopyTableRecord _ => Ok None
  | DropCatalogEntryRecord i t => replayDropCatalogEntry i t
  | AlterTableEntryRecord i => Ok (Some (OpAlterTable i))
  | UpdateSequenceRecord s k => Ok (Some (OpNextKVal s k))
  | BeginTransactionRecord | CommitRecord | RollbackRecord | CheckpointRecord => Err InternalException
  end.

Section Replay.
Context {DB : Type} `{Recovery DB} (BUFFER_SIZE : nat) (memory : nat -> bytes).

Definition replayWALRecord (r : WALRecord) : M DB unit :=
  match r with
  | BeginTransactionRecord => beginRecoveryTransaction
  | CommitRecord => commit
  | RollbackRecord => rollback
  | CheckpointRecord => sthrow InternalException
  | r =>
      match operationOf r with
      | Ok (Some op) => execute op
      | Ok None => sret tt
      | Err e => sthrow e
      end
  end.

(** [WALRecord::deserialize] on the reader of the file. *)
Definition nextRecord (fuel : nat) : M BufferedFileReader WALRecord := onFile BUFFER_SIZE memory (script (script_record fuel)).

(** [while (!deserializer.finished())], at most [n] times. *)
Fixpoint replayLoop (n fuel : nat) (reader : BufferedFileReader) : M DB unit :=
  if finished reader then sret tt
  else
    match n with
    | O => sthrow Blocked
    | S n =>
        match nextRecord fuel reader with
        | (Ok r, reader') => replayWALRecord r ;;; replayLoop n fuel reader'
        | (Err e, _) => sthrow e
        end
    end.

(** [catch (const Exception& e)]: what is thrown as something else is not caught. *)
Definition isException (e : exn) : bool :=
  match e with UndefinedBehaviour | Blocked | StdOverflowError _ => false | _ => true end.

(** The database and the file of its log. *)
Definition onDB (m : M DB unit) : M (DB * bytes) unit := szoom fst (fun db st => (db, snd st)) m.
Definition replayBody (fuel : nat) : M (DB * bytes) unit :=
  st <- sget ;;
  onDB (reader <- slift (newReader BUFFER_SIZE (snd st)) ;; replayLoop (length (snd st)) fuel reader) ;;;
  st <- sget ;;
  if hasActiveTransaction (fst st) then onDB rollback ;;; smodify (fun st => (fst st, [])) else sret tt.

Definition replay (fuel : nat) : M (DB * bytes) unit := fun st =>
  if decide (snd st = []) then (Ok tt, st)
  else
    match replayBody fuel st with
    | (Err e, st') =>
        if isException e then
          ((if hasActiveTransaction (fst st') then onDB rollback else sret tt) ;;;
           sthrow (RuntimeException "Failed to replay wal record from WAL file.")) st'
        else (Err e, st')
    | ok => ok
    end.

(** [StorageManager::recover], in the constructor of the database. *)
Definition recover (fuel : nat) : M (DB * bytes) unit := fun st =>
  match replay fuel st with
  | (Err UndefinedBehaviour, st') => (Err UndefinedBehaviour, st')
  | (Err Blocked, st') => (Err Blocked, st')
  | (Err _, st') => (Err (BaseException "Error during recovery"), st')
  | ok => ok
  end.
End Replay.

(** ** What is relied on *)

Class RecoveryLaws (DB State : Type) `{Recovery DB} := {
  committed : DB -> State;
  working : DB -> State;
  perform : Operation -> State -> outcome State;
  begin_law db : hasActiveTransaction db = false ->
    exists db', beginRecoveryTransaction db = (Ok tt, db') /\ hasActiveTransaction db' = true /\ committed db' = committed db /\ working db' = committed db;
  execute_law op db s : hasActiveTransaction db = true -> perform op (working db) = Ok s ->
    exists db', execute op db = (Ok tt, db') /\ hasActiveTransaction db' = true /\ committed db' = committed db /\ working db' = s;
  commit_law db : hasActiveTransaction db = true ->
    exists db', commit db = (Ok tt, db') /\ hasActiveTransaction db' = false /\ committed db' = working db;
  rollback_law db : hasActiveTransaction db = true ->
    exists db', rollback db = (Ok tt, db') /\ hasActiveTransaction db' = false /\ committed db' = committed db;
}.

(** ** Histories *)

Inductive Ending := Committed | RolledBack.
Record Tx := mkTx { txRecords : list WALRecord; txEnding : Ending }.
Definition endRecord (e : Ending) : WALRecord := match e with Committed => CommitRecord | RolledBack => RollbackRecord end.
Definition logOf (tx : Tx) : list WALRecord := BeginTransactionRecord :: txRecords tx ++ [endRecord (txEnding tx)].
(** The records of transactions that ended, one after the other, and of one that did not. *)
Definition history (txs : list Tx) (open : option (list WALRecord)) : list WALRecord :=
  concat (logOf <$> txs) ++ match open with Some rs => BeginTransactionRecord :: rs | None => [] end.

Definition isData (r : WALRecord) : Prop :=
  match r with BeginTransactionRecord | CommitRecord | RollbackRecord | CheckpointRecord => False | _ => True end.
(** Records of a transaction that can be read back, and those of them that come back as they were: values
    of type SERIAL and the drop of a sequence do not. *)
Definition readableData (r : WALRecord) : Prop := isData r /\ recordOK r.
Definition dataOK (r : WALRecord) : Prop :=
  readableData r /\ serialFreeRecord r /\ forall i, r <> DropCatalogEntryRecord i SEQUENCE_ENTRY.
(** A transaction as the log gives it back. *)
Definition rereadTx (tx : Tx) : Tx := mkTx (rereadRecord <$> txRecords tx) (txEnding tx).

Lemma reread_operation r op : dataOK r -> operationOf r = Ok op -> operationOf (rereadRecord r) = Ok op.
Proof.
  intros (_ & Hs & Hd) E. assert (Hc : (exists i ty, r = DropCatalogEntryRecord i ty) \/ forall i ty, r <> DropCatalogEntryRecord i ty).
  { destruct r; try (right; intros; discriminate). left. by eexists _, _. }
  destruct Hc as [(i & ty & ->)|Hc]; [|by rewrite rereadRecord_same]. cbn in *. by destruct ty; [..|destruct (Hd i)| |].
Qed.

Section Spec.
Context {DB State : Type} `{RecoveryLaws DB State}.

Definition performRecord (r : WALRecord) (s : State) : outcome State :=
  let* op := operationOf r in match op with Some op => perform op s | None => Ok s end.
Fixpoint performAll (rs : list WALRecord) (s : State) : outcome State :=
  match rs with [] => Ok s | r :: rs => let* s' := performRecord r s in performAll rs s' end.
(** The state after the transactions: only the committed ones count. *)
Fixpoint afterTransactions (txs : list Tx) (s : State) : outcome State :=
  match txs with
  | [] => Ok s
  | tx :: txs =>
      let* s' := performAll (txRecords tx) s in
      afterTransactions txs (match txEnding tx with Committed => s' | RolledBack => s end)
  end.
End Spec.

(** ** Reading the log *)

(** With this bound the bytes of the record are read as the record. *)
Definition readsRecord (fuel : nat) (r : WALRecord) : Prop :=
  recordBytes r <> [] /\ forall rest, deserializeRecord fuel (recordBytes r ++ rest) = (Ok (rereadRecord r), rest).

Lemma recordOK_serializable r : recordOK r -> serializable r.
Proof. intros (n & Hn)%record_readable. destruct (Hn n (le_n n)) as (bs & W & _). unfold serializable. by rewrite (W []). Qed.

Lemma records_readable rs : Forall recordOK rs -> exists n, forall fuel, (n <= fuel)%nat -> Forall (readsRecord fuel) rs.
Proof.
  induction 1 as [|r rs Hr _ (m & Hm)]; [exists 0%nat; by constructor|]. destruct (record_readable r Hr) as (n & Hn).
  exists (Nat.max n m). intros fuel Hf. constructor; [|apply Hm; lia]. destruct (Hn fuel ltac:(lia)) as (bs & W & R).
  assert (E : recordBytes r = bs) by (unfold recordBytes; by rewrite (W [])).
  unfold readsRecord. rewrite E. split; [|done]. intros ->. specialize (R []). cbn in R. by vm_compute in R.
Qed.

Lemma logBytes_app rs rs' : logBytes (rs ++ rs') = logBytes rs ++ logBytes rs'.
Proof. unfold logBytes. by rewrite fmap_app, concat_app. Qed.

Lemma length_logBytes rs fuel : Forall (readsRecord fuel) rs -> (length rs <= length (logBytes rs))%nat.
Proof.
  induction 1 as [|r rs [Hne _] _ IH]; [done|]. unfold logBytes in *. rewrite fmap_cons. cbn [concat length]. rewrite length_app.
  destruct (recordBytes r); [done|]. cbn [length]. lia.
Qed.

Lemma logBytes_nil rs fuel : Forall (readsRecord fuel) rs -> logBytes rs = [] -> rs = [].
Proof. intros [|r rs' [Hne _] _] Hb; [done|]. unfold logBytes in Hb. rewrite fmap_cons in Hb. cbn [concat] in Hb. by apply app_eq_nil in Hb as [? _]. Qed.

Section Recovery.
Context {DB State : Type} `{RecoveryLaws DB State}.
Context (BUFFER_SIZE : nat) (memory : nat -> bytes) (HB : (0 < BUFFER_SIZE)%nat) (Hmem : forall n, length (memory n) = n).
Local Abbreviation replayLoop := (replayLoop BUFFER_SIZE memory).
Local Abbreviation nextRecord := (nextRecord BUFFER_SIZE memory).
Local Abbreviation recover := (recover BUFFER_SIZE memory).

Fixpoint runRecords (rs : list WALRecord) : M DB unit :=
  match rs with [] => sret tt | r :: rs => replayWALRecord (rereadRecord r) ;;; runRecords rs end.

Lemma runRecords_app rs rs' db : runRecords (rs ++ rs') db = (runRecords rs ;;; runRecords rs') db.
Proof.
  revert db. induction rs as [|r rs IH]; intros db; cbn [runRecords app]; [done|].
  unfold sbind. destruct (replayWALRecord (rereadRecord r) db) as [[[]|e] db1]; [|done]. rewrite IH. done.
Qed.

(** A reader in front of [src], on a file of [size] bytes if every record fits a page. *)
Definition readerAt (fits : Prop) (size : nat) (r : BufferedFileReader) (src : bytes) : Prop :=
  wfReader BUFFER_SIZE r /\ unread r = src /\ (fits -> aligned BUFFER_SIZE size r).

Lemma finished_at fits size r src : readerAt fits size r src -> finished r = bool_decide (src = []).
Proof.
  intros (Hw & <- & _). pose proof (finished_spec BUFFER_SIZE 1 HB Nat.lt_0_1 r Hw) as E.
  destruct (finished r); [symmetry; by apply bool_decide_eq_true, E|symmetry; apply bool_decide_eq_false; by intros ?%E].
Qed.

Lemma nextRecord_reads (fits : Prop) size fuel r x rest : readsRecord fuel x -> (fits -> length (recordBytes x) <= BUFFER_SIZE)%nat ->
  readerAt fits size r (recordBytes x ++ rest) -> exists r', nextRecord fuel r = (Ok (rereadRecord x), r') /\ readerAt fits size r' rest.
Proof.
  intros [_ Hx] Hfit (Hw & Hu & Ha). set (t := script (script_record fuel)).
  assert (E : onStream t (unread r) = (Ok (rereadRecord x), rest)) by (unfold t; rewrite Hu, <- plays; apply Hx).
  destruct (onFile_stream BUFFER_SIZE memory HB Hmem t r Hw (ok_enough _ _ _ _ E)) as (r' & E' & W' & U' & A'). rewrite E in E', U'.
  exists r'. split; [done|]. split; [done|]. split; [done|]. intros Hf. apply A'; [|by apply Ha]. rewrite Hu. apply enough_extend; [|by apply Hfit].
  eapply ok_enough. unfold t. rewrite <- plays. specialize (Hx []). rewrite app_nil_r in Hx. exact Hx.
Qed.

Lemma replayLoop_records (fits : Prop) size rs fuel m r tail : Forall (readsRecord fuel) rs ->
  (fits -> Forall (fun x => length (recordBytes x) <= BUFFER_SIZE)%nat rs) -> readerAt fits size r (logBytes rs ++ tail) ->
  exists r', readerAt fits size r' tail /\ forall db, replayLoop (length rs + m) fuel r db = (runRecords rs ;;; replayLoop m fuel r') db.
Proof.
  intros Hrs. revert r. induction Hrs as [|x rs Hx _ IH]; intros r Hfit Hr; [by exists r|].
  change (logBytes (x :: rs)) with (recordBytes x ++ logBytes rs) in Hr. rewrite <- app_assoc in Hr.
  destruct (nextRecord_reads fits size fuel r x _ Hx ltac:(intros Hf; by apply (Forall_cons_1 _ _ _ (Hfit Hf))) Hr) as (r1 & E1 & R1).
  destruct (IH r1 ltac:(intros Hf; by apply (Forall_cons_1 _ _ _ (Hfit Hf))) R1) as (r2 & R2 & E2). exists r2. split; [done|]. intros db.
  cbn [length Nat.add runRecords WALReplayer.replayLoop]. rewrite (finished_at _ _ _ _ Hr), bool_decide_eq_false_2 by (intros [E _]%app_eq_nil; by apply Hx).
  rewrite E1. unfold sbind. destruct (replayWALRecord (rereadRecord x) db) as [[[]|e] db1]; [|done]. by rewrite E2.
Qed.

Lemma reread_data r : isData r -> isData (rereadRecord r).
Proof. by destruct r. Qed.

Lemma replay_data r db s : isData r -> hasActiveTransaction db = true -> performRecord r (working db) = Ok s ->
  exists db', replayWALRecord r db = (Ok tt, db') /\ hasActiveTransaction db' = true /\ committed db' = committed db /\ working db' = s.
Proof.
  intros Hd Ha Hp. assert (E : replayWALRecord r = match operationOf r with Ok (Some op) => execute op | Ok None => sret tt | Err e => sthrow e end).
  { by destruct r. }
  rewrite E. unfold performRecord, obind in Hp. destruct (operationOf r) as [[op|]|e]; [|injection Hp as <-; by exists db|done].
  by apply execute_law.
Qed.

Lemma run_data rs db s : Forall readableData rs -> hasActiveTransaction db = true -> performAll (rereadRecord <$> rs) (working db) = Ok s ->
  exists db', runRecords rs db = (Ok tt, db') /\ hasActiveTransaction db' = true /\ committed db' = committed db /\ working db' = s.
Proof.
  intros Hd. revert db. induction Hd as [|r rs Hr _ IH]; intros db Ha Hp; cbn [runRecords performAll fmap list_fmap] in *; [injection Hp as <-; by exists db|].
  unfold obind in Hp. destruct (performRecord (rereadRecord r) (working db)) as [s1|e] eqn:E; [|done].
  destruct (replay_data _ db s1 (reread_data r (proj1 Hr)) Ha E) as (db1 & E1 & A1 & C1 & W1). rewrite <- W1 in Hp.
  destruct (IH db1 A1 Hp) as (db2 & E2 & A2 & C2 & W2). exists db2. rewrite (sbind_ok _ _ _ _ _ E1), <- C1. done.
Qed.

Lemma run_tx tx db s : Forall readableData (txRecords tx) -> hasActiveTransaction db = false -> performAll (rereadRecord <$> txRecords tx) (committed db) = Ok s ->
  exists db', runRecords (logOf tx) db = (Ok tt, db') /\ hasActiveTransaction db' = false /\
    committed db' = match txEnding tx with Committed => s | RolledBack => committed db end.
Proof.
  intros Hd Ha Hp. destruct (begin_law db Ha) as (db1 & E1 & A1 & C1 & W1). rewrite <- W1 in Hp.
  destruct (run_data _ db1 s Hd A1 Hp) as (db2 & E2 & A2 & C2 & W2).
  assert (H3 : exists db3, replayWALRecord (endRecord (txEnding tx)) db2 = (Ok tt, db3) /\ hasActiveTransaction db3 = false /\
    committed db3 = match txEnding tx with Committed => s | RolledBack => committed db end).
  { destruct (txEnding tx); cbn [endRecord replayWALRecord].
    - destruct (commit_law db2 A2) as (db3 & E3 & A3 & C3). exists db3. by rewrite C3, W2.
    - destruct (rollback_law db2 A2) as (db3 & E3 & A3 & C3). exists db3. by rewrite C3, C2, C1. }
  destruct H3 as (db3 & E3 & A3 & C3). exists db3. split; [|done]. unfold logOf. cbn [runRecords rereadRecord replayWALRecord].
  rewrite (sbind_ok _ _ _ _ _ E1), runRecords_app, (sbind_ok _ _ _ _ _ E2). cbn [runRecords].
  replace (rereadRecord (endRecord (txEnding tx))) with (endRecord (txEnding tx)) by (by destruct (txEnding tx)).
  by rewrite (sbind_ok _ _ _ _ _ E3).
Qed.

Lemma run_txs txs db s : Forall (fun tx => Forall readableData (txRecords tx)) txs -> hasActiveTransaction db = false ->
  afterTransactions (rereadTx <$> txs) (committed db) = Ok s ->
  exists db', runRecords (concat (logOf <$> txs)) db = (Ok tt, db') /\ hasActiveTransaction db' = false /\ committed db' = s.
Proof.
  intros Hd. revert db. induction Hd as [|tx txs Htx _ IH]; intros db Ha Hp; cbn [afterTransactions fmap list_fmap] in Hp; [injection Hp as <-; by exists db|].
  unfold obind in Hp. cbn [rereadTx txRecords txEnding] in Hp. destruct (performAll (rereadRecord <$> txRecords tx) (committed db)) as [s1|e] eqn:E; [|done].
  destruct (run_tx tx db s1 Htx Ha E) as (db1 & E1 & A1 & C1). rewrite <- C1 in Hp. destruct (IH db1 A1 Hp) as (db2 & E2 & A2 & C2).
  exists db2. rewrite fmap_cons. cbn [concat]. by rewrite runRecords_app, (sbind_ok _ _ _ _ _ E1).
Qed.

(** A transaction that did not end: its records were performed before the crash. *)
Definition openOK (open : option (list WALRecord)) (s : State) : Prop :=
  match open with Some rs => Forall readableData rs /\ exists s', performAll (rereadRecord <$> rs) s = Ok s' | None => True end.

Lemma run_history txs open db s : Forall (fun tx => Forall readableData (txRecords tx)) txs -> openOK open s -> hasActiveTransaction db = false ->
  afterTransactions (rereadTx <$> txs) (committed db) = Ok s ->
  exists db', runRecords (history txs open) db = (Ok tt, db') /\ hasActiveTransaction db' = bool_decide (is_Some open) /\ committed db' = s.
Proof.
  intros Htx Ho Ha Hp. destruct (run_txs txs db s Htx Ha Hp) as (db1 & E1 & A1 & C1). unfold history. destruct open as [rs|].
  - destruct Ho as [Hrs (s' & Hs)]. destruct (begin_law db1 A1) as (db2 & E2 & A2 & C2 & W2). rewrite <- C1, <- W2 in Hs.
    destruct (run_data rs db2 s' Hrs A2 Hs) as (db3 & E3 & A3 & C3 & _).
    exists db3. rewrite runRecords_app, (sbind_ok _ _ _ _ _ E1). cbn [runRecords rereadRecord replayWALRecord].
    rewrite (sbind_ok _ _ _ _ _ E2), C3, C2. by rewrite bool_decide_eq_true_2.
  - exists db1. by rewrite app_nil_r.
Qed.

Lemma history_ok txs open s : Forall (fun tx => Forall readableData (txRecords tx)) txs -> openOK open s -> Forall recordOK (history txs open).
Proof.
  intros Htx Ho. assert (Hd : forall rs, Forall readableData rs -> Forall recordOK rs) by (intros rs Hrs; eapply Forall_impl; [exact Hrs|by intros r (_ & ?)]).
  unfold history. apply Forall_app. split.
  - induction Htx as [|tx txs H' _ IH]; [constructor|]. rewrite fmap_cons. cbn [concat]. apply Forall_app. split; [|done].
    unfold logOf. constructor; [done|]. apply Forall_app. split; [by apply Hd|]. constructor; [by destruct (txEnding tx)|constructor].
  - destruct open as [rs|]; [|constructor]. constructor; [done|]. by apply Hd, Ho.
Qed.

Lemma onDB_ok (m : M DB unit) db db' log : m db = (Ok tt, db') -> onDB m (db, log) = (Ok tt, (db', log)).
Proof. intros E. unfold onDB, szoom. cbn. by rewrite E. Qed.
Lemma onDB_err (m : M DB unit) db db' log e : m db = (Err e, db') -> onDB m (db, log) = (Err e, (db', log)).
Proof. intros E. unfold onDB, szoom. cbn. by rewrite E. Qed.

(** Opening the file of a log and replaying the complete records in it. *)
Lemma loop_history txs open fuel tail db : Forall (readsRecord fuel) (history txs open) ->
  let log := logBytes (history txs open) ++ tail in
  log <> [] ->
  exists m r, (length tail <= m)%nat /\
    readerAt (Forall (fun x => length (recordBytes x) <= BUFFER_SIZE)%nat (history txs open)) (length log) r tail /\
    (reader <- slift (newReader BUFFER_SIZE log) ;; replayLoop (length log) fuel reader) db = (runRecords (history txs open) ;;; replayLoop m fuel r) db.
Proof.
  intros Hr log Hne. pose proof (length_logBytes _ _ Hr). destruct (newReader_spec BUFFER_SIZE 1 HB Nat.lt_0_1 log Hne) as (r0 & E0 & W0 & U0).
  set (m := (length log - length (history txs open))%nat).
  destruct (replayLoop_records (Forall (fun x => length (recordBytes x) <= BUFFER_SIZE)%nat (history txs open)) (length log) _ fuel m r0 tail Hr id) as (r & R & E).
  { split; [done|]. split; [done|]. intros _. by eapply newReader_aligned. }
  assert (Hl : length log = (length (logBytes (history txs open)) + length tail)%nat) by (unfold log; apply length_app).
  exists m, r. split; [unfold m; lia|]. split; [done|]. rewrite <- E, E0. unfold slift, sbind. f_equal. unfold m. lia.
Qed.

Lemma replay_recovers txs open db s :
  Forall (fun tx => Forall readableData (txRecords tx)) txs -> openOK open s -> hasActiveTransaction db = false ->
  afterTransactions (rereadTx <$> txs) (committed db) = Ok s ->
  let log := logBytes (history txs open) in
  exists n, forall fuel, (n <= fuel)%nat ->
    exists db', recover fuel (db, log) = (Ok tt, (db', if open is Some _ then [] else log)) /\
      hasActiveTransaction db' = false /\ committed db' = s.
Proof.
  intros Htx Ho Ha Hp log. destruct (records_readable _ (history_ok txs open s Htx Ho)) as (n & Hn). exists n. intros fuel Hf.
  destruct (run_history txs open db s Htx Ho Ha Hp) as (db1 & E1 & A1 & C1).
  unfold recover, replay. cbn [snd]. destruct (decide (log = [])) as [Hl|Hl].
  { destruct open as [rs|].
    - exfalso. revert Hl. unfold log, history. rewrite logBytes_app. intros [_ Hb]%app_eq_nil.
      unfold logBytes in Hb. rewrite fmap_cons in Hb. cbn [concat] in Hb. by apply app_eq_nil in Hb as [Hb _].
    - exists db. unfold log in Hl. rewrite (logBytes_nil _ fuel (Hn fuel Hf) Hl) in E1. by injection E1 as <-. }
  destruct (loop_history txs open fuel [] db (Hn fuel Hf)) as (m & r & _ & R & El); [by rewrite app_nil_r|].
  rewrite app_nil_r, (sbind_ok _ _ _ _ _ E1) in El. fold log in El.
  assert (El' : (reader <- slift (newReader BUFFER_SIZE log) ;; replayLoop (length log) fuel reader) db = (Ok tt, db1)).
  { rewrite El. destruct m; cbn [WALReplayer.replayLoop]; by rewrite (finished_at _ _ _ _ R). }
  unfold replayBody. rewrite (sbind_ok sget _ _ (db, log) (db, log)) by done. cbn [snd].
  rewrite (sbind_ok _ _ _ _ _ (onDB_ok _ _ _ log El')). rewrite (sbind_ok sget _ _ (db1, log) (db1, log)) by done. cbn [fst]. rewrite A1.
  destruct open as [rs|]; cbn [bool_decide].
  - destruct (rollback_law db1 A1) as (db2 & E2 & A2 & C2). rewrite bool_decide_eq_true_2 by done.
    rewrite (sbind_ok _ _ _ _ _ (onDB_ok _ _ _ log E2)). exists db2. by rewrite C2.
  - rewrite bool_decide_eq_false_2 by (by intros [? ?]). by exists db1.
Qed.

(** Records that come back as they were make the same state. *)
Lemma performAll_reread rs s s' : Forall dataOK rs -> performAll rs s = Ok s' -> performAll (rereadRecord <$> rs) s = Ok s'.
Proof.
  intros Hrs. revert s. induction Hrs as [|r rs Hr _ IH]; intros s; cbn [performAll fmap list_fmap]; [done|].
  unfold performRecord, obind. destruct (operationOf r) as [op|e] eqn:E; [|done]. rewrite (reread_operation r op Hr E).
  destruct op as [op|]; [|apply IH]. destruct (perform op s); [apply IH|done].
Qed.
Lemma afterTransactions_reread txs s s' : Forall (fun tx => Forall dataOK (txRecords tx)) txs ->
  afterTransactions txs s = Ok s' -> afterTransactions (rereadTx <$> txs) s = Ok s'.
Proof.
  intros Htx. revert s. induction Htx as [|tx txs Hr _ IH]; intros s; cbn [afterTransactions fmap list_fmap rereadTx txRecords txEnding]; [done|].
  unfold obind. destruct (performAll (txRecords tx) s) as [s1|e] eqn:E; [|done]. rewrite (performAll_reread _ _ _ Hr E). apply IH.
Qed.
Lemma dataOK_readable rs : Forall dataOK rs -> Forall readableData rs.
Proof. intros H'. eapply Forall_impl; [exact H'|]. by intros r []. Qed.
Lemma dataOK_readableTxs txs : Forall (fun tx => Forall dataOK (txRecords tx)) txs -> Forall (fun tx => Forall readableData (txRecords tx)) txs.
Proof. intros H'. eapply Forall_impl; [exact H'|]. intros tx. apply dataOK_readable. Qed.
Lemma openOK_data open s s' : Forall dataOK open -> performAll open s = Ok s' -> openOK (Some open) s.
Proof. intros Ho Hs. split; [by apply dataOK_readable|]. exists s'. by apply performAll_reread. Qed.
End Recovery.

(** ** Crash and recovery *)

Section Crash.
Context {DB State : Type} `{RecoveryLaws DB State}.
Context (BUFFER_SIZE maxBytes : nat) (memory : nat -> bytes) (calls : WALRecord -> list bytes).
Context (HB : (0 < BUFFER_SIZE)%nat) (Hmem : forall n, length (memory n) = n) (Hmax : (0 < maxBytes)%nat) (Hcalls : forall r, concat (calls r) = recordBytes r).

Local Abbreviation recover := (recover BUFFER_SIZE memory).

Lemma history_last txs rs : history (txs ++ [mkTx rs Committed]) None = (concat (logOf <$> txs) ++ BeginTransactionRecord :: rs) ++ [CommitRecord].
Proof.
  unfold history. rewrite fmap_app, concat_app, !app_nil_r. cbn [fmap list_fmap concat logOf txRecords txEnding endRecord app].
  by rewrite app_nil_r, <- !app_assoc.
Qed.

(** C3. Committed transactions survive a crash, and only they do.  Transactions log their records, the
    last of them commits, and the process or the machine dies at any time after that commit, before
    more is logged: opening the database on what was synced replays the log to exactly the state that
    the logged operations of the committed transactions make, in their order and without anything of
    the ones that were rolled back; no transaction stays open and the log stays for the next time.  If
    the file also has complete records of a transaction that did not end, they have no effect, but
    the log is cleared.  The records are those that the log gives back: sizes and numbers in range,
    expressions made of cases, function calls, literals, properties and variables, no value of type
    SERIAL, and no DROP SEQUENCE (which is replayed as the drop of a table); and their operations
    succeed when they are performed in the order of the log. *)
Theorem crash_recovery txs rs db s :
  Forall (fun tx => Forall dataOK (txRecords tx)) (txs ++ [mkTx rs Committed]) -> hasActiveTransaction db = false ->
  afterTransactions (txs ++ [mkTx rs Committed]) (committed db) = Ok s ->
  exists wal n, logAll BUFFER_SIZE maxBytes calls (history (txs ++ [mkTx rs Committed]) None) (openWAL BUFFER_SIZE []) = (Ok tt, wal) /\
    onDisk wal = synced wal /\
    (forall fuel, (n <= fuel)%nat ->
      exists db', recover fuel (db, synced wal) = (Ok tt, (db', synced wal)) /\ hasActiveTransaction db' = false /\ committed db' = s) /\
    (forall open s', Forall dataOK open -> performAll open s = Ok s' ->
      exists n', forall fuel, (n' <= fuel)%nat ->
        exists db', recover fuel (db, synced wal ++ logBytes (BeginTransactionRecord :: open)) = (Ok tt, (db', [])) /\
          hasActiveTransaction db' = false /\ committed db' = s).
Proof.
  intros Htx Ha Hp. assert (Hser : Forall serializable (history (txs ++ [mkTx rs Committed]) None)).
  { eapply Forall_impl; [exact (history_ok (State := State) _ None s (dataOK_readableTxs _ Htx) I)|]. apply recordOK_serializable. }
  rewrite history_last in *.
  destruct (log_on_disk BUFFER_SIZE maxBytes calls HB Hmax Hcalls [] (concat (logOf <$> txs) ++ BeginTransactionRecord :: rs) CommitRecord [] eq_refl Hser)
    as (wal & E & _ & _ & _ & _ & D). destruct (D eq_refl) as [D1 D2]. cbn [app] in D1. rewrite <- history_last in D1.
  pose proof (afterTransactions_reread _ _ _ Htx Hp) as Hp'. apply dataOK_readableTxs in Htx.
  destruct (replay_recovers BUFFER_SIZE memory HB Hmem _ None db s Htx I Ha Hp') as (n & Hn). exists wal, n. rewrite D1. split; [done|]. split; [by rewrite D2|]. split; [done|].
  intros open s' Ho Hs. destruct (replay_recovers BUFFER_SIZE memory HB Hmem _ (Some open) db s Htx (openOK_data _ _ _ Ho Hs) Ha Hp') as (n' & Hn').
  exists n'. intros fuel Hf. destruct (Hn' fuel Hf) as (db' & E' & A' & C'). exists db'. split; [|done]. rewrite <- E'. do 2 f_equal.
  unfold history. by rewrite app_nil_r, logBytes_app.
Qed.

(** A transaction that was running at the crash takes the committed ones with it: recovery brings
    their state back in memory but clears the log, so that after a second crash before a checkpoint,
    with the files as they were, nothing of them is left. *)
Theorem cleared_log_loses_commits txs open db s s' :
  Forall (fun tx => Forall dataOK (txRecords tx)) txs -> Forall dataOK open -> performAll open s = Ok s' -> hasActiveTransaction db = false ->
  afterTransactions txs (committed db) = Ok s ->
  exists n, forall fuel, (n <= fuel)%nat ->
    exists db' log', recover fuel (db, logBytes (history txs (Some open))) = (Ok tt, (db', log')) /\ committed db' = s /\
      recover fuel (db, log') = (Ok tt, (db, log')).
Proof.
  intros Htx Ho Hs Ha Hp. destruct (replay_recovers BUFFER_SIZE memory HB Hmem txs (Some open) db s (dataOK_readableTxs _ Htx) (openOK_data _ _ _ Ho Hs) Ha
    (afterTransactions_reread _ _ _ Htx Hp)) as (n & Hn).
  exists n. intros fuel Hf. destruct (Hn fuel Hf) as (db' & E & _ & C). exists db', []. done.
Qed.
End Crash.

(** ** A database that remembers its operations *)

Record History := mkHistory { done_ : list Operation; running : option (list Operation) }.
#[global] Instance History_recovery : Recovery History := {
  hasActiveTransaction h := bool_decide (is_Some (running h));
  beginRecoveryTransaction := smodify (fun h => mkHistory (done_ h) (Some (done_ h)));
  commit := smodify (fun h => mkHistory (default (done_ h) (running h)) None);
  rollback := smodify (fun h => mkHistory (done_ h) None);
  execute op := smodify (fun h => mkHistory (done_ h) ((fun l => l ++ [op]) <$> running h));
}.
#[global] Program Instance History_laws : RecoveryLaws History (list Operation) := {
  committed := done_;
  working h := default (done_ h) (running h);
  perform op l := Ok (l ++ [op]);
}.
Next Obligation. intros h _. eexists. by split. Qed.
Next Obligation. intros op [d [l|]] s Ha [= <-]; [|done]. eexists. by split. Qed.
Next Obligation. intros h _. eexists. by split. Qed.
Next Obligation. intros h _. eexists. by split. Qed.

Definition exMemory (n : nat) : bytes := replicate n 0.
Lemma exMemory_ok n : length (exMemory n) = n.
Proof. apply length_replicate. Qed.
(** A transaction that inserts two nodes, one that is rolled back, and one that steps a sequence. *)
Definition exTxs : list Tx := [mkTx [exInsertion] Committed; mkTx [exInsertion; exInsertion] RolledBack].
Lemma exInsertion_data : dataOK exInsertion.
Proof. split; [split; [done|apply exInsertion_ok]|]. split; [|done]. repeat constructor; discriminate. Qed.
Lemma exTxs_ok : Forall (fun tx => Forall dataOK (txRecords tx)) (exTxs ++ [mkTx [UpdateSequenceRecord 0 2] Committed]).
Proof.
  pose proof exInsertion_data. assert (Hu : dataOK (UpdateSequenceRecord 0 2)) by (split; [split; [done|by vm_compute]|split; [constructor|done]]).
  unfold exTxs. cbn [app]. rewrite !Forall_cons. cbn [txRecords]. rewrite !Forall_cons. by split_and!.
Qed.

Lemma crash_recovery_witness :
  let txs := exTxs ++ [mkTx [UpdateSequenceRecord 0 2] Committed] in
  exists wal n, logAll 16 1000 (fun r => [recordBytes r]) (history txs None) (openWAL 16 []) = (Ok tt, wal) /\
    (forall fuel, (n <= fuel)%nat ->
      exists db', recover 16 exMemory fuel (mkHistory [] None, synced wal) = (Ok tt, (db', synced wal)) /\ hasActiveTransaction db' = false /\
        committed db' = [OpInsertNodes 3 [exVector]; OpNextKVal 0 2]).
Proof.
  destruct (crash_recovery 16 1000 exMemory (fun r => [recordBytes r]) ltac:(lia) exMemory_ok ltac:(lia) (fun r => app_nil_r _) exTxs [UpdateSequenceRecord 0 2]
    (mkHistory [] None) [OpInsertNodes 3 [exVector]; OpNextKVal 0 2]) as (wal & n & E & _ & R & _); [apply exTxs_ok|done|reflexivity|].
  exists wal, n. exact (conj E R).
Defined.

Lemma cleared_log_loses_commits_witness :
  exists n, forall fuel, (n <= fuel)%nat ->
    exists db' log', recover 16 exMemory fuel (mkHistory [] None, logBytes (history exTxs (Some [exInsertion]))) = (Ok tt, (db', log')) /\
      committed db' = [OpInsertNodes 3 [exVector]] /\ recover 16 exMemory fuel (mkHistory [] None, log') = (Ok tt, (mkHistory [] None, log')).
Proof.
  apply (cleared_log_loses_commits 16 exMemory ltac:(lia) exMemory_ok exTxs [exInsertion] (mkHistory [] None) [OpInsertNodes 3 [exVector]] [OpInsertNodes 3 [exVector]; OpInsertNodes 3 [exVector]]).
  - assert (H := exTxs_ok). apply Forall_app in H. apply H.
  - constructor; [apply exInsertion_data|constructor].
  - reflexivity.
  - done.
  - reflexivity.
Defined.

(** A checkpoint record in the log makes recovery fail. *)
Example checkpoint_not_replayed :
  let log := logBytes [CheckpointRecord] in
  recover 16 exMemory 10 (mkHistory [] None, log) = (Err (BaseException "Error during recovery"), (mkHistory [] None, log)).
Proof. by vm_compute. Qed.

(** A committed DROP SEQUENCE is replayed as the drop of the table with the same number. *)
Example dropped_sequence_replayed :
  let txs := [mkTx [DropCatalogEntryRecord 9 SEQUENCE_ENTRY] Committed] in
  afterTransactions txs [] = Ok [OpDropSequence 9] /\
  fst (snd (recover 16 exMemory 10 (mkHistory [] None, logBytes (history txs None)))) = mkHistory [OpDropTableEntry 9] None.
Proof. split; [done|by vm_compute]. Qed.

(** A record whose serialization throws, such as that of a macro whose body is a parameter, leaves its
    first bytes in the log.  The statement fails and is rolled back, but a transaction that commits
    later cannot be recovered. *)
Example failed_record_stays :
  let body := mkExpr ExprType.PARAMETER "" "" [] (ParsedParameterExpression "p") in
  let create := CreateCatalogEntryRecord (mkEntry "m" 5 false (ScalarMacroCatalogEntry (mkMacro body [] []))) in
  let log_ := log 16 1000 (fun r => [recordBytes r]) in
  let '(r1, wal1) := (log_ BeginTransactionRecord ;;; log_ create) (openWAL 16 []) in
  let '(r2, wal2) := (log_ RollbackRecord ;;; log_ BeginTransactionRecord ;;; log_ (UpdateSequenceRecord 0 2) ;;; log_ CommitRecord) wal1 in
  r1 = Err InternalException /\ r2 = Ok tt /\
  fst (recover 16 exMemory 20 (mkHistory [] None, synced wal2)) = Err (BaseException "Error during recovery").
Proof. by vm_compute. Qed.
