(* ===== verification/TornLog.v ===== *)
(** * Logs that end inside a record (src/storage/wal_replayer.cpp on what src/common/serializer/buffered_file.cpp leaves)

    A crash may leave the file of the log with only some bytes of its last record: a page is
    written whenever the buffer is full, wherever a record is then.  The replay of such a log
    throws, unless a single call of [read] goes over from the last page but one to a last page that
    is too short: then the bytes that the buffer had before are taken for the rest of the record. *)

From stdpp Require Import base numbers strings list.
From S2P Require Import Prelude Serializer Compression LogicalType Value ParsedExpression PropertyCollection SequenceEntry CatalogEntry BufferedFile WALRecord ReaderScript WAL WALReplayer.
Local Open Scope Z_scope.

Section Torn.
Context {DB State : Type} `{RecoveryLaws DB State}.
Context (BUFFER_SIZE : nat) (memory : nat -> bytes) (HB : (0 < BUFFER_SIZE)%nat) (Hmem : forall n, length (memory n) = n).
Local Abbreviation recover := (recover BUFFER_SIZE memory).
Local Abbreviation nextRecord := (nextRecord BUFFER_SIZE memory).

Definition fitsPage (r : WALRecord) : Prop := (length (recordBytes r) <= BUFFER_SIZE)%nat.
(** Where the last page of a file of [size] bytes starts. *)
Definition lastPage (size : nat) : nat := (size - 1) `div` BUFFER_SIZE * BUFFER_SIZE.

(** A reader that has gone past the start of the last page has it in its buffer. *)
Lemma on_last_page size r : wfReader BUFFER_SIZE r -> aligned BUFFER_SIZE size r -> (lastPage size < size - length (unread r))%nat -> rFileOffset r = fileSize r.
Proof.
  intros Hw [Hs [Ha|[j Hj]]] Hp; [by rewrite Hs|]. pose proof (length_unread BUFFER_SIZE 1 HB Nat.lt_0_1 r Hw). destruct (r_file _ _ Hw).
  assert (rFileOffset r < size -> j * BUFFER_SIZE <= lastPage size)%nat; [|lia].
  intros Hlt. unfold lastPage. apply Nat.mul_le_mono_r. apply Nat.div_le_lower_bound; lia.
Qed.

Lemma torn_record fuel size reader r p q : readsRecord fuel r -> fitsPage r -> recordBytes r = p ++ q -> q <> [] ->
  readerAt BUFFER_SIZE True size reader p -> (lastPage size < size - length p)%nat -> exists reader', nextRecord fuel reader = (Err pastEnd, reader').
Proof.
  intros [_ Hr] Hfit Hb Hq (Hw & Hu & Ha) Hl. specialize (Hr []). rewrite app_nil_r, Hb, (plays (script_record fuel)) in Hr.
  apply (onFile_torn BUFFER_SIZE memory HB Hmem); rewrite ?Hu; [done| | |].
  - apply (on_last_page size); [done|by apply Ha|by rewrite Hu].
  - apply (cut_short _ _ q); [by eapply ok_enough|]. by rewrite <- Hb.
  - by eapply cut_not_enough.
Qed.

(** C33. A log that ends inside a record cannot be recovered from.  Its complete records can be read back
    and performed, and all of them fit a page; after the ended transactions and the complete records of the transaction that was running come some bytes
    of one more record, but not all, behind the first byte of the last page of the file.  The recovery
    throws, whatever the record is.  The transactions are rolled back to the state after the committed
    ones, as they are read back, in memory, the file keeps the torn record, and so every later attempt to open the database
    fails in the same way. *)
Theorem torn_log_not_recovered txs open r p q db s :
  Forall (fun tx => Forall readableData (txRecords tx)) txs -> openOK open s -> recordOK r -> recordBytes r = p ++ q -> p <> [] -> q <> [] ->
  hasActiveTransaction db = false -> afterTransactions (rereadTx <$> txs) (committed db) = Ok s ->
  let log := logBytes (history txs open) ++ p in
  Forall fitsPage (history txs open) -> fitsPage r -> (lastPage (length log) < length log - length p)%nat ->
  exists n, forall fuel, (n <= fuel)%nat ->
    exists db', recover fuel (db, log) = (Err (BaseException "Error during recovery"), (db', log)) /\
      hasActiveTransaction db' = false /\ committed db' = s.
Proof.
  intros Htx Ho Hr Hb Hpn Hq Ha Hp log Hfit Hfr Hlast.
  destruct (records_readable (history txs open ++ [r])) as (n & Hn); [apply Forall_app; split; [by eapply history_ok|by constructor]|].
  exists n. intros fuel Hf. specialize (Hn fuel Hf). apply Forall_app in Hn as [Hh Hrr]. apply Forall_cons in Hrr as [Hrr _].
  destruct (run_history txs open db s Htx Ho Ha Hp) as (db1 & E1 & A1 & C1).
  assert (Hne : log <> []) by (unfold log; by intros [_ ?]%app_eq_nil).
  destruct (loop_history BUFFER_SIZE memory HB Hmem txs open fuel p db Hh Hne) as (m & reader & Hm & R & El).
  rewrite (sbind_ok _ _ _ _ _ E1) in El. fold log in El, R.
  assert (R' : readerAt BUFFER_SIZE True (length log) reader p) by (destruct R as (? & ? & R); split; [done|]; split; [done|]; intros _; by apply R).
  destruct (torn_record fuel _ reader r p q Hrr Hfr Hb Hq R' Hlast) as (reader' & Ep).
  assert (El' : (reader <- slift (newReader BUFFER_SIZE log) ;; replayLoop BUFFER_SIZE memory (length log) fuel reader) db = (Err pastEnd, db1)).
  { rewrite El. destruct m as [|m]; [destruct p; [done|cbn in Hm; lia]|]. cbn [replayLoop].
    rewrite (finished_at BUFFER_SIZE HB _ _ _ _ R'), bool_decide_eq_false_2 by done. by rewrite Ep. }
  unfold WALReplayer.recover, replay. cbn [snd]. rewrite decide_False by done.
  assert (Eb : replayBody BUFFER_SIZE memory fuel (db, log) = (Err pastEnd, (db1, log))).
  { unfold replayBody. rewrite (sbind_ok sget _ _ (db, log) (db, log)) by done. cbn [snd]. by rewrite (sbind_err _ _ _ _ _ (onDB_err _ _ _ log _ El')). }
  rewrite Eb. cbn [isException pastEnd fst]. destruct (hasActiveTransaction db1) eqn:A.
  - destruct (rollback_law db1 A) as (db2 & E2 & A2 & C2). rewrite (sbind_ok _ _ _ _ _ (onDB_ok _ _ _ log E2)). exists db2. by rewrite C2.
  - by exists db1.
Qed.
End Torn.

(** ** Examples *)

Lemma torn_log_not_recovered_witness :
  let log := logBytes (history [mkTx [UpdateSequenceRecord 0 2] Committed] (Some [])) ++ [13; 7; 0] in
  exists n, forall fuel, (n <= fuel)%nat ->
    exists db', recover 24 exMemory fuel (mkHistory [] None, log) = (Err (BaseException "Error during recovery"), (db', log)) /\
      hasActiveTransaction db' = false /\ committed db' = [OpNextKVal 0 2].
Proof.
  apply (torn_log_not_recovered 24 exMemory ltac:(lia) exMemory_ok [mkTx [UpdateSequenceRecord 0 2] Committed] (Some []) (CopyTableRecord 7)
    [13; 7; 0] [0; 0; 0; 0; 0; 0] (mkHistory [] None) [OpNextKVal 0 2]).
  - constructor; [|constructor]. constructor; [split; [done|by vm_compute]|constructor].
  - split; [constructor|]. by exists [OpNextKVal 0 2].
  - by vm_compute.
  - reflexivity.
  - discriminate.
  - discriminate.
  - done.
  - reflexivity.
  - unfold history, logOf. cbn. rewrite !Forall_cons. unfold fitsPage. split_and!; try apply Nat.leb_le; try reflexivity. constructor.
  - apply Nat.leb_le. reflexivity.
  - apply Nat.ltb_lt. reflexivity.
Defined.

(** How it comes about, with a page of 16 bytes: one transaction commits, the next one logs more than
    a page, and the process dies before it ends. *)
Example crash_in_a_transaction :
  let rs := [BeginTransactionRecord; CopyTableRecord 7; CommitRecord; BeginTransactionRecord; CopyTableRecord 8; CopyTableRecord 9] in
  exists wal, logAll 16 1000 (fun r => [recordBytes r]) rs (openWAL 16 []) = (Ok tt, wal) /\
    fst (recover 16 exMemory 10 (mkHistory [] None, onDisk wal)) = Err (BaseException "Error during recovery").
Proof. eexists. split; [vm_compute; reflexivity|]. by vm_compute. Qed.

(** The other case, with the same page: the number of a sequence step lies on two pages and the second
    one has only its seventh byte.  The last byte is the one the buffer had there before, the type of
    the record, and the record is replayed with a number that nobody wrote; as its transaction has no
    COMMIT it is rolled back. *)
Example torn_record_filled :
  let record := recordBytes (UpdateSequenceRecord 5 3) in
  let log := recordBytes BeginTransactionRecord ++ take 16 record in
  length record = 17%nat /\
  (exists r, newReader 16 log = Ok r /\
     fst ((readData 16 [0] ;;; nextRecord 16 exMemory 10) r) = Ok (UpdateSequenceRecord 5 (3 + 18 * 2 ^ 56))) /\
  recover 16 exMemory 10 (mkHistory [] None, log) = (Ok tt, (mkHistory [] None, [])).
Proof. split; [reflexivity|]. split; [eexists; split; [reflexivity|by vm_compute]|by vm_compute]. Qed.
